(* ===== verification/_CoqProject ===== *)
-Q . S2P
Prelude.v
KobjectRights.v
KobjectObject.v
KobjectHandle.v
KobjectStore.v
SchedRunQueue.v
SchedBalance.v
TimeClock.v
TimeTimer.v
IpcInbox.v
IpcChannel.v
IpcAccounting.v
IpcSet.v
IpcSetAccounting.v
SyncLockdep.v
MmFrame.v
MmPhys.v
MmRegion.v
MmShares.v
MmDirectMap.v
KallocBuddy.v
KallocBuddyInv.v
KallocBuddySpec.v
KallocBuddyRuns.v
KallocBase.v
KallocBump.v
KallocSlab.v
KallocHeap.v
KallocBumpInv.v
KallocSlabInv.v
KallocHeapInv.v
KallocHeapRuns.v
NetWire.v
NetReasm.v
NetLink.v
NetTcp.v
NetTcpSeq.v
NetTcpRecv.v
NetTcpSend.v
NetTcpEmit.v
NetTcpArrive.v
NetTcpStream.v
NetTcpRobust.v
NetTcpTable.v
NetTcpCases.v
NetTcpTyped.v
NetStack.v
NetStackTcp.v
NetStackRuns.v
