(* ===== verification/Prelude.v ===== *)
(** * KinTane: a verification of the kernel's machine-independent core

    KinTane is a kernel written in Rust.  Its machine-independent crates hold the logic that
    has to be right whatever the machine: capabilities and the objects they name, scheduling,
    time, message channels, memory and the network.  This library models those crates
    function by function and proves what they promise.

    ** How the code is read

    - A structure is a [Record], an enum an [Inductive] with the source's constructors, and
      every function a definition that runs: a [Fixpoint] or [Definition] that can be
      evaluated on a concrete state.
    - A method of [&mut self] takes the state and gives the state it leaves.
    - [Result<A, E>] is [result A E], with [let?] for the [?] operator.
    - A panic is a value: a definition that can panic (an index out of range, an unchecked
      subtraction below zero, an addition past its width, a failed assertion) is in [option],
      and [None] is the panic.  The theorems show that no reachable state gives [None].
    - A [w]-bit integer is a [Z] (or a [nat] for sizes and indices) with its width written
      out: [checked_add], [saturating_add], [wrapping_add], [shl], [u_not] below.
    - An operation that runs under a lock is one step.  Where the code interleaves atomic
      operations (the reference count) the model interleaves them, as a step relation.
    - What the crates take from elsewhere is a parameter: page size and width of [usize]
      ([MmFrame.Arch]), the network device, the settings of the build ([checked], [poison] and
      [injecting] in the heap).  Where a crate is generic over a trait the model is a type
      class with the trait's operation and another with what its clients rely on: sources of
      identities ([KobjectObject.IdSource]) and of frames ([KallocBase.FrameSource]).
    - Memory that is written through a pointer is a function from addresses to bytes
      ([KallocBase.Poison]).
    - A loop is structural recursion over what it walks, or recursion with fuel where it is
      not structural.  The fuel chosen is shown to be enough: a list of [n] slots is walked in
      [n] turns ([SchedRunQueue]), a heap of [n] timers sifts in [n] turns and an expiry pass
      ends in one turn more than there are slots ([TimeTimer]), the clock's long conversion in
      the number of its chunks ([TimeClock]), a binary search in the length of its array
      ([MmRegion]), the collector in one turn more than there are messages queued ([IpcSet]),
      folding a [u32] of carries in three turns and TCP options in one turn per byte
      ([NetWire]); the runs a connection holds coalesce in one turn more than there are slots
      for them, and the passes over waiting connections and owed resets in one more than their
      slots ([NetTcp]); the buddy allocator carves and checks in one turn per page and merges
      in one per order ([KallocBuddy]).
    - Bounds in statements: a TCP stream is below [2^30] bytes a way, a time below [2^58]
      nanoseconds (nine years of uptime), a table of connections serves [2^26] calls and a
      stack [2^19] requests before any 32-bit counter could reach its end.  TCP checks [usize]
      at 32 bits, the narrowest machine; the heap is proved for any width from 32 bits on.

    ** The files

    - [Prelude] (this file): results, integers, lists, folds, step relations, automation.
    - [KobjectRights], [KobjectObject], [KobjectHandle], [KobjectStore]: kernel/kobject.
      Rights as bit sets; identities and the atomic reference count; the table of handles with
      its generations; the object store and the references it hands out.
    - [SchedRunQueue], [SchedBalance]: kernel/sched.  The run queue (slots linked into one FIFO
      per level, with a bitmap); CPU sets, placement of a woken thread, balancing.
    - [TimeClock], [TimeTimer]: kernel/time.  Instants, the fixed-point scale and the clock;
      the timer queue (slots and a heap).
    - [IpcInbox], [IpcChannel], [IpcAccounting], [IpcSet], [IpcSetAccounting]: kernel/ipc.  The
      ring of messages; channels whose messages carry handles between tables; the count of
      references over any number of tables; the set of channels and its collector of
      unreachable endpoints; and the same count over a set.
    - [MmFrame], [MmPhys], [MmRegion], [MmShares], [MmDirectMap]: hal addresses and kernel/mm.
      Frames and ranges; the physical frame allocator from the memory map on; the region map of
      an address space; the counts of shared frames; the window physical memory is seen
      through.
    - [KallocBuddy], [KallocBuddyInv], [KallocBuddySpec], [KallocBuddyRuns]: the buddy allocator
      of kernel/kalloc on the bytes of its store; its invariant; each operation against a set
      of blocks; and any sequence of calls.
    - [KallocBase], [KallocBump], [KallocSlab], [KallocHeap]: the rest of kernel/kalloc.
      Layouts, contexts, fault injection, poisoning and frame sources; the arena; the size
      classes; the heap over the arena, the classes and the attached pages.
      [KallocBumpInv], [KallocSlabInv] and [KallocHeapInv] hold their invariants,
      [KallocHeapRuns] the theorems about a heap under any sequence of calls.
    - [NetWire], [NetReasm], [NetLink]: kernel/net.  The wire formats; reassembly of fragments;
      the ARP cache and the buffer pool.
    - [NetTcp]: kernel/net/src/tcp.rs, every function.  [NetTcpSeq], [NetTcpRecv],
      [NetTcpSend], [NetTcpEmit] and [NetTcpArrive] are what its theorems are made of: sequence
      numbers as positions in a stream, the two sides of a connection, what it sends, what an
      arrival does.  [NetTcpStream] has two connections and the network between them,
      [NetTcpRobust] and [NetTcpTable] one machine's connections against any peer,
      [NetTcpTyped] the ranges of every field, [NetTcpCases] runs that show the code's limits.
    - [NetStack], [NetStackTcp], [NetStackRuns]: kernel/net/src/stack.rs.  Addressing, echo,
      datagrams and fragments; the poll, the flush and the calls on connections; and any
      sequence of requests.
    - [SyncLockdep]: kernel/sync/src/lockdep.rs.  The lock-order checker: the order seen
      between lock classes, each CPU's stack of held locks, and every check.
    Each file has a Module per component, and ends in the theorems about it.  A component's
    client requires its file and uses its lemmas: the handle table and the object store under
    the channels, frames under the frame allocator, that allocator (through [FrameSource]),
    the direct map, the arena, the classes and the buddy allocator under the heap, and the wire
    formats, the reassembler, the cache, the pool and TCP under the stack.

    ** What the theorems show

    - Bit tricks are the sets they stand for: rights, CPU sets, the frame bitmaps.
    - Each data structure implements a small mathematical one, on every branch, errors
      included: handle tables a partial map that never revives a closed handle; the run queue
      one FIFO per level; the timer queue a set; an inbox a bounded queue; the frame allocator
      a set of frames with no owner twice; the region map a map of disjoint intervals; the ARP
      cache a bounded map with expiry; a set of fragments the map of bytes that arrived.
    - What is counted is what there is: references, live handles, shared frames, pool buffers,
      over every sequence of operations from the start.
    - What fails changes nothing, and what is all or nothing is.
    - Rights never grow, stale handles and timer ids never come back, retired objects are not
      found again, a closed endpoint stays closed.
    - Passes end and leave nothing behind: expiry, iteration, collection, reassembly.
    - Arithmetic is exact at its width: the clock loses no fraction of a nanosecond, the
      checksum is RFC 1071's.
    - Two network stacks talk to each other: an address is resolved, a ping is answered, a
      datagram arrives.
    - TCP delivers: over a network that loses, repeats, delays and reorders, each program reads
      a prefix of what the other wrote, and is told of the end only after all of it.  The states
      follow RFC 793's diagram, rings are neither lost nor shared, and every field stays in the
      range of its type.
    - No request and no frames of any bytes make a stack panic or lose a buffer, and a poll
      takes the frames that wait.  Left out is only a FIN that is not the one that ended its
      connection's stream, which the code takes for one more (shown in [NetTcpCases]).
    - The buddy allocator is a set of aligned blocks whose free space is always coalesced; its
      own check never fails, and no frame is handed out twice.
    - The kernel heap keeps allocations apart, aligned and inside the window, whichever
      allocator served them and whatever the frame source and the injector do; it writes no
      byte of an allocation that is out, and serves what fits.  Two examples in
      [KallocHeapRuns] show why its window has to start at a multiple of the page size and why
      frame zero of an identity map is of no use to it.
    - The lock-order checker accepts no cycle of any length and reports only what happened.
    ** What is not modelled, and why

    - The architecture: page tables, traps, context switches, device registers, and the
      atomics under the locks.  They are assembly and hardware; their effect on the crates
      modelled here is the atomicity of one operation and the parameters above.  Memory
      orderings weaker than sequential consistency are not modelled.
    - Formatting, hashing and debug output.
    - The parts that bind the crates to a machine (kernel/main), the drivers, the boot
      loaders and the build tool.
    - Demand paging and copy-on-write ([vm.rs], [paged.rs]), which write entries the processor
      reads; the map of regions and the counts of shared frames they rest on are modelled.
    - The storage stack, the loaders, device discovery and the system-call personality, which
      are clients of the components here. *)

From stdpp Require Export base tactics list numbers option gmap sets.

(** ** Results and panics

    A Rust function that returns [Result<A, E>] is modelled by [result A E].  A function
    that can panic (an index out of bounds, an unchecked subtraction below zero) is modelled
    in [option]: [None] is the panic, and the components prove that no reachable state
    panics.  stdpp's bind notation [x ← m; k] sequences such computations. *)

Inductive result (A E : Type) : Type :=
| Ok (a : A)
| Err (e : E).
Arguments Ok {A E} a.
Arguments Err {A E} e.

Declare Scope rust_scope.
Delimit Scope rust_scope with rust.

(** Rust's [?]: continue with the value, or return the error. *)
Notation "'let?' x := e 'in' k" :=
  (match e with Ok x => k | Err err => Err err end)
  (at level 10, x binder, k at level 200) : rust_scope.
Open Scope rust_scope.

Definition is_ok {A E} (r : result A E) : bool :=
  match r with Ok _ => true | Err _ => false end.

(** [Option::ok_or] and [Result::map_err]. *)
Definition ok_or {A E} (o : option A) (e : E) : result A E :=
  match o with Some a => Ok a | None => Err e end.

Definition map_err {A E F} (f : E → F) (r : result A E) : result A F :=
  match r with Ok a => Ok a | Err e => Err (f e) end.

#[global] Instance result_eq_dec {A E} `{EqDecision A, EqDecision E} :
  EqDecision (result A E).
Proof. solve_decision. Defined.

Lemma ok_or_Ok {A E} (o : option A) (e : E) a : ok_or o e = Ok a ↔ o = Some a.
Proof. destruct o; simpl; intuition congruence. Qed.

Lemma ok_or_Err {A E} (o : option A) (e e' : E) :
  ok_or o e = Err e' ↔ o = None ∧ e' = e.
Proof. destruct o; simpl; intuition congruence. Qed.

(** ** Machine integers

    A [w]-bit unsigned integer is a [Z] in [0, 2^w).  The checked, saturating and wrapping
    operations are written out at their width. *)

Definition u_max (w : Z) : Z := 2 ^ w - 1.
Abbreviation u8_MAX := (u_max 8).
Abbreviation u16_MAX := (u_max 16).
Abbreviation u32_MAX := (u_max 32).
Abbreviation u64_MAX := (u_max 64).

Definition in_u (w x : Z) : Prop := (0 ≤ x ≤ u_max w)%Z.

Definition checked_add (w a b : Z) : option Z :=
  if (a + b <=? u_max w)%Z then Some (a + b)%Z else None.
Definition checked_sub (a b : Z) : option Z :=
  if (b <=? a)%Z then Some (a - b)%Z else None.
Definition checked_mul (w a b : Z) : option Z :=
  if (a * b <=? u_max w)%Z then Some (a * b)%Z else None.
Definition saturating_add (w a b : Z) : Z := Z.min (a + b) (u_max w).
Definition saturating_sub (a b : Z) : Z := Z.max (a - b) 0.
Definition saturating_mul (w a b : Z) : Z := Z.min (a * b) (u_max w).
Definition wrapping_add (w a b : Z) : Z := ((a + b) mod 2 ^ w)%Z.
Definition wrapping_sub (w a b : Z) : Z := ((a - b) mod 2 ^ w)%Z.
(** Shifting left drops the bits that leave the word. *)
Definition shl (w a n : Z) : Z := (Z.shiftl a n mod 2 ^ w)%Z.
(** Bitwise complement at width [w]. *)
Definition u_not (w a : Z) : Z := Z.lxor a (u_max w).

(** [leading_zeros] of a [w]-bit word. *)
Definition leading_zeros (w x : Z) : Z := if (x =? 0)%Z then w else (w - 1 - Z.log2 x)%Z.
(** The casts of a [usize] to [u16] and [u32]. *)
Definition as_u16 (n : nat) : nat := Z.to_nat (Z.of_nat n mod 2 ^ 16).

Definition as_u32 (n : nat) : nat := Z.to_nat (Z.of_nat n mod 2 ^ 32).

(** An unchecked [usize] subtraction: it panics below zero. *)
Definition usub (a b : nat) : option nat :=
  if decide (b ≤ a) then Some (a - b) else None.

Lemma usub_Some a b c : usub a b = Some c ↔ b ≤ a ∧ c = a - b.
Proof. unfold usub. case_decide; intuition congruence. Qed.

Lemma as_u16_id n : (Z.of_nat n < 2 ^ 16)%Z → as_u16 n = n.
Proof. intros. unfold as_u16. rewrite Z.mod_small; lia. Qed.

Lemma as_u32_id n : (Z.of_nat n < 2 ^ 32)%Z → as_u32 n = n.
Proof. intros. unfold as_u32. rewrite Z.mod_small; lia. Qed.

Lemma u_max_eq w : (0 ≤ w)%Z → u_max w = Z.ones w.
Proof. intros. unfold u_max. rewrite Z.ones_equiv. lia. Qed.

Lemma checked_add_Some w a b c :
  checked_add w a b = Some c ↔ (c = a + b ∧ a + b ≤ u_max w)%Z.
Proof. unfold checked_add. destruct (Z.leb_spec (a + b) (u_max w)); intuition (simplify_eq; eauto; lia). Qed.

Lemma checked_add_None w a b : checked_add w a b = None ↔ (u_max w < a + b)%Z.
Proof. unfold checked_add. destruct (Z.leb_spec (a + b) (u_max w)); intuition (simplify_eq; eauto; lia). Qed.

Lemma checked_sub_Some a b c : checked_sub a b = Some c ↔ (c = a - b ∧ b ≤ a)%Z.
Proof. unfold checked_sub. destruct (Z.leb_spec b a); intuition (simplify_eq; eauto; lia). Qed.

Lemma checked_sub_None a b : checked_sub a b = None ↔ (a < b)%Z.
Proof. unfold checked_sub. destruct (Z.leb_spec b a); intuition (simplify_eq; eauto; lia). Qed.

Lemma checked_mul_Some w a b c :
  checked_mul w a b = Some c ↔ (c = a * b ∧ a * b ≤ u_max w)%Z.
Proof. unfold checked_mul. destruct (Z.leb_spec (a * b) (u_max w)); intuition (simplify_eq; eauto; lia). Qed.

(** ** Bits *)

Lemma in_u_testbit w x n : (0 ≤ w)%Z → in_u w x → (w ≤ n)%Z → Z.testbit x n = false.
Proof.
  intros Hw [H0 H1] Hn. unfold u_max in H1.
  destruct (decide (x = 0%Z)) as [->|]; [apply Z.testbit_0_l|].
  apply Z.bits_above_log2; [lia|].
  assert (Z.log2 x < w)%Z; [|lia]. apply Z.log2_lt_pow2; lia.
Qed.

Lemma testbit_in_u w x :
  (0 ≤ w)%Z → (0 ≤ x)%Z → (∀ n, (w ≤ n)%Z → Z.testbit x n = false) → in_u w x.
Proof.
  intros Hw Hx Hb. split; [done|]. unfold u_max.
  destruct (decide (x < 2 ^ w)%Z); [lia|].
  assert (w ≤ Z.log2 x)%Z.
  { apply Z.log2_le_pow2; [|lia]. pose proof (Z.pow_pos_nonneg 2 w). lia. }
  pose proof (Hb (Z.log2 x) H) as Hl.
  rewrite Z.bit_log2 in Hl; [done|]. pose proof (Z.pow_pos_nonneg 2 w). lia.
Qed.

Lemma u_not_spec w a n :
  (0 ≤ w)%Z → (0 ≤ n)%Z →
  Z.testbit (u_not w a) n = xorb (Z.testbit a n) (bool_decide (n < w)%Z).
Proof.
  intros Hw Hn. unfold u_not. rewrite u_max_eq, Z.lxor_spec by done. f_equal.
  case_bool_decide; [by apply Z.ones_spec_low|apply Z.ones_spec_high; lia].
Qed.

Lemma u_not_sub w a : (0 ≤ w)%Z → in_u w a → u_not w a = (u_max w - a)%Z.
Proof.
  intros Hw Ha. assert (Z.land a (u_not w a) = 0)%Z as Hl.
  { apply Z.bits_inj'. intros n Hn. rewrite Z.land_spec, u_not_spec, Z.bits_0 by done.
    case_bool_decide; [by destruct (Z.testbit a n)|]. by rewrite (in_u_testbit w a) by (done || lia). }
  pose proof (Z.add_nocarry_lxor a (u_not w a) Hl) as E. unfold u_not in E at 2.
  rewrite <-Z.lxor_assoc, Z.lxor_nilpotent, Z.lxor_0_l in E. lia.
Qed.

Lemma land_in_u w a b : (0 ≤ w)%Z → in_u w a → (0 ≤ b)%Z → in_u w (Z.land a b).
Proof.
  intros Hw Ha Hb. apply testbit_in_u; [done|by apply Z.land_nonneg; right|].
  intros n Hn. by rewrite Z.land_spec, (in_u_testbit w a).
Qed.

Lemma lor_in_u w a b : (0 ≤ w)%Z → in_u w a → in_u w b → in_u w (Z.lor a b).
Proof.
  intros Hw Ha Hb. apply testbit_in_u; [done|apply Z.lor_nonneg; split; [apply Ha|apply Hb]|].
  intros n Hn. by rewrite Z.lor_spec, (in_u_testbit w a), (in_u_testbit w b).
Qed.

Lemma shl_bit w n : (0 ≤ n < w)%Z → shl w 1 n = (2 ^ n)%Z.
Proof.
  intros Hn. unfold shl. rewrite Z.shiftl_1_l, Z.mod_small; [done|].
  split; [lia|]. apply Z.pow_lt_mono_r; lia.
Qed.

(** Masking one bit. *)
Lemma land_bit x n : (0 ≤ n)%Z → negb (Z.land x (2 ^ n) =? 0)%Z = Z.testbit x n.
Proof.
  intros Hn. destruct (Z.eqb_spec (Z.land x (2 ^ n)) 0) as [E|E]; simpl; symmetry.
  - assert (Z.testbit (Z.land x (2 ^ n)) n = false) as Hb by (rewrite E; apply Z.testbit_0_l).
    by rewrite Z.land_spec, Z.pow2_bits_true, andb_true_r in Hb by lia.
  - apply not_false_iff_true. intros Hb. apply E. apply Z.bits_inj'. intros m Hm.
    rewrite Z.land_spec, Z.bits_0. destruct (decide (m = n)) as [->|Hne]; [by rewrite Hb|].
    by rewrite Z.pow2_bits_false, andb_false_r by lia.
Qed.

Lemma land_u_not w a b : (0 ≤ w)%Z → in_u w a → Z.land a (u_not w b) = Z.ldiff a b.
Proof.
  intros Hw Ha. apply Z.bits_inj'. intros n Hn.
  rewrite Z.land_spec, Z.ldiff_spec, u_not_spec by done.
  case_bool_decide; [by rewrite xorb_true_r|].
  by rewrite (in_u_testbit w a) by (done || lia).
Qed.

(** Rounding down to a multiple of a power of two. *)
Lemma ldiff_ones_round a n : (0 ≤ n)%Z → Z.ldiff a (Z.ones n) = (a / 2 ^ n * 2 ^ n)%Z.
Proof.
  intros Hn. rewrite Z.ldiff_ones_r, Z.shiftl_mul_pow2, Z.shiftr_div_pow2 by done. done.
Qed.

(** A disjoint [|] is an addition. *)
Lemma lor_disjoint_add a b n :
  (0 ≤ n)%Z → (0 ≤ b < 2 ^ n)%Z → Z.lor (a * 2 ^ n) b = (a * 2 ^ n + b)%Z.
Proof.
  intros Hn Hb. assert (Z.land (a * 2 ^ n) b = 0)%Z as Hl.
  { apply Z.bits_inj'. intros k Hk. rewrite Z.land_spec, Z.bits_0.
    destruct (decide (k < n)%Z).
    - by rewrite Z.mul_pow2_bits_low.
    - rewrite (in_u_testbit n b); [apply andb_false_r|done| |lia]. unfold in_u, u_max. lia. }
  pose proof (Z.add_lor_land (a * 2 ^ n) b). lia.
Qed.

(** ** Lists

    [position] is Rust's [iter().position(p)], the index of the first element that satisfies
    the predicate; [count_if] is [iter().filter(p).count()]. *)

Fixpoint position {A} (p : A → bool) (l : list A) : option nat :=
  match l with
  | [] => None
  | x :: l => if p x then Some 0 else S <$> position p l
  end.

Fixpoint count_if {A} (p : A → bool) (l : list A) : nat :=
  match l with
  | [] => 0
  | x :: l => (if p x then 1 else 0) + count_if p l
  end.

(** Rust's [iter().enumerate().min_by_key(f)]: the index of the first smallest. *)
Fixpoint min_by_key {A} (f : A → Z) (l : list A) : option nat :=
  match l with
  | [] => None
  | x :: l =>
      match min_by_key f l with
      | Some i => Some (match l !! i with Some y => if (f y <? f x)%Z then S i else 0 | None => 0 end)
      | None => Some 0
      end
  end.

Definition option_list {A} (o : option A) : list A :=
  match o with Some a => [a] | None => [] end.

(** An assignment [l[i] = x]: it panics out of range. *)
Definition set_at {A} (l : list A) (i : nat) (x : A) : option (list A) :=
  if decide (i < length l) then Some (<[i:=x]> l) else None.

(** A function changed at one argument. *)
Definition fupd {A} (f : nat → A) (i : nat) (a : A) : nat → A :=
  λ j, if decide (j = i) then a else f j.

Section Lists.
Context {A : Type}.
Implicit Types (p : A → bool) (l : list A).

Lemma position_Some p l i :
  position p l = Some i ↔
  (∃ x, l !! i = Some x ∧ p x = true) ∧ ∀ j y, j < i → l !! j = Some y → p y = false.
Proof.
  revert i. induction l as [|x l IH]; intros i; simpl.
  { split; [done|]. by intros [(?&?&?) _]. }
  destruct (p x) eqn:Hx.
  - split.
    + intros [= <-]. split; [eauto|lia].
    + intros [_ Hlt]. destruct i as [|i]; [done|].
      specialize (Hlt 0 x ltac:(lia) eq_refl). congruence.
  - rewrite fmap_Some. split.
    + intros (j & [Hj Hlt]%IH & ->). split; [done|].
      intros [|k] y Hk Hy; simplify_eq/=; [done|]. apply (Hlt k); [lia|done].
    + intros [(y & Hy & Hpy) Hlt]. destruct i as [|i]; [simplify_eq/=; congruence|].
      exists i. split; [|done]. apply IH. split; [eauto|].
      intros j z Hj. apply (Hlt (S j)). lia.
Qed.

Lemma position_None p l : position p l = None ↔ ∀ i x, l !! i = Some x → p x = false.
Proof.
  induction l as [|x l IH]; simpl; [by split|].
  destruct (p x) eqn:Hx.
  - split; [done|]. intros H. specialize (H 0 x eq_refl). congruence.
  - rewrite fmap_None, IH. split.
    + intros H [|i] y Hi; simplify_eq/=; [done|eauto].
    + intros H i y. apply (H (S i)).
Qed.

Lemma position_lookup p l i :
  position p l = Some i → ∃ x, l !! i = Some x ∧ p x = true.
Proof. by intros [? _]%position_Some. Qed.

Lemma position_lt p l i : position p l = Some i → i < length l.
Proof. intros (x & Hx & _)%position_lookup. by eapply lookup_lt_Some. Qed.

Lemma position_is_Some p l i x :
  l !! i = Some x → p x = true → is_Some (position p l).
Proof.
  intros Hi Hp. destruct (position p l) eqn:E; [done|].
  rewrite position_None in E. specialize (E _ _ Hi). congruence.
Qed.

Lemma count_if_app p l k : count_if p (l ++ k) = count_if p l + count_if p k.
Proof. induction l; simpl; lia. Qed.

Lemma count_if_le p l : count_if p l ≤ length l.
Proof. induction l; simpl; [lia|]. destruct (p _); lia. Qed.

Lemma count_if_insert p l i x y :
  l !! i = Some x →
  count_if p (<[i:=y]> l) + (if p x then 1 else 0) = count_if p l + (if p y then 1 else 0).
Proof.
  revert i. induction l as [|z l IH]; intros [|i]; simpl; intros Hi; simplify_eq.
  - lia.
  - specialize (IH _ Hi). lia.
Qed.

Lemma count_if_replicate p n x :
  count_if p (replicate n x) = if p x then n else 0.
Proof. induction n; simpl; destruct (p x); lia. Qed.

Lemma count_if_pos p l : 0 < count_if p l ↔ ∃ i x, l !! i = Some x ∧ p x = true.
Proof.
  induction l as [|x l IH]; simpl.
  { split; [lia|]. by intros (?&?&?&?). }
  split.
  - intros H. destruct (p x) eqn:Hx; [by exists 0, x|].
    destruct IH as [IH _]. destruct IH as (i & y & Hi & Hy); [lia|]. by exists (S i), y.
  - intros ([|i] & y & Hi & Hy); simplify_eq/=; [rewrite Hy; lia|].
    destruct IH as [_ IH]. assert (0 < count_if p l); [eauto|lia].
Qed.

Lemma count_if_ext p q l : (∀ x, x ∈ l → p x = q x) → count_if p l = count_if q l.
Proof.
  induction l as [|x l IH]; simpl; intros H; [done|].
  rewrite (H x), IH; [done| |]; set_solver.
Qed.

(** Overwriting one element, up to order: the rest [k] is the same before and after. *)
Lemma insert_Permutation_middle l i x y :
  l !! i = Some x → ∃ k, l ≡ₚ x :: k ∧ <[i:=y]> l ≡ₚ y :: k.
Proof.
  intros Hi. exists (take i l ++ drop (S i) l).
  rewrite <-(take_drop_middle l i x Hi) at 1.
  rewrite insert_take_drop by (by eapply lookup_lt_Some).
  by rewrite <-!Permutation_middle.
Qed.

Lemma concat_insert_Permutation {B} (f : A → list B) l i x y :
  l !! i = Some x →
  ∃ k, concat (f <$> l) ≡ₚ f x ++ k ∧ concat (f <$> <[i:=y]> l) ≡ₚ f y ++ k.
Proof.
  intros Hi. destruct (insert_Permutation_middle l i x y Hi) as (k & E1 & E2).
  exists (concat (f <$> k)). split; [by rewrite E1|by rewrite E2].
Qed.

Lemma omap_insert_Permutation {B} (f : A → option B) l i x y :
  l !! i = Some x →
  ∃ k, omap f l ≡ₚ option_list (f x) ++ k ∧ omap f (<[i:=y]> l) ≡ₚ option_list (f y) ++ k.
Proof.
  intros Hi. destruct (insert_Permutation_middle l i x y Hi) as (k & E1 & E2).
  exists (omap f k). split; [rewrite E1|rewrite E2]; csimpl; by destruct (f _).
Qed.

Lemma set_at_Some l i x y : l !! i = Some y → set_at l i x = Some (<[i:=x]> l).
Proof. intros ?%lookup_lt_Some. unfold set_at. by rewrite decide_True. Qed.

Lemma NoDup_bounded_length (q : list nat) n : NoDup q → (∀ x, x ∈ q → x < n) → length q ≤ n.
Proof.
  intros Hq Hb. transitivity (length (seq 0 n)); [|by rewrite length_seq]. apply submseteq_length, NoDup_submseteq; [done|].
  intros x Hx%Hb. apply elem_of_seq. lia.
Qed.

Lemma min_by_key_Some (f : A → Z) l i :
  min_by_key f l = Some i → ∃ x, l !! i = Some x ∧ ∀ j y, l !! j = Some y → (f x ≤ f y)%Z.
Proof.
  revert i. induction l as [|x l IH]; intros i; simpl; [done|].
  destruct (min_by_key f l) as [j|] eqn:E.
  - destruct (IH j eq_refl) as (y & Hy & Hmin). rewrite Hy. intros [= <-].
    destruct (Z.ltb_spec (f y) (f x)); [exists y|exists x]; (split; [done|]); intros [|k] z Hz; simplify_eq/=; try lia.
    + by eapply Hmin.
    + specialize (Hmin _ _ Hz). lia.
  - intros [= <-]. exists x. split; [done|]. destruct l as [|z l]; [|simpl in E; by destruct (min_by_key f l)].
    intros [|k] z Hz; simplify_eq/=. lia.
Qed.

Lemma min_by_key_is_Some (f : A → Z) l : l ≠ [] → is_Some (min_by_key f l).
Proof. destruct l; [done|]. simpl. intros _. by destruct (min_by_key f l). Qed.

Lemma count_if_perm p l k : l ≡ₚ k → count_if p l = count_if p k.
Proof. induction 1; simpl; lia. Qed.
End Lists.

Lemma length_filter_count {A} (p : A → bool) (l : list A) :
  length (filter (λ x, p x = true) l) = count_if p l.
Proof.
  induction l as [|x l IH]; [done|]. rewrite filter_cons. simpl. destruct (p x) eqn:E.
  - rewrite decide_True by done. simpl. by rewrite IH.
  - rewrite decide_False by congruence. done.
Qed.

Lemma count_if_fmap {A B} (f : A → B) (p : B → bool) (l : list A) : count_if p (f <$> l) = count_if (p ∘ f) l.
Proof. induction l as [|x l IH]; [done|]. csimpl. by rewrite IH. Qed.

Lemma alter_insert {A} (f : A → A) (l : list A) i x : l !! i = Some x → alter f i l = <[i := f x]> l.
Proof. revert i. induction l as [|y l IH]; intros [|i] H; cbn in *; [done|done|by simplify_eq|]. change (y :: alter f i l = y :: <[i := f x]> l). by rewrite IH. Qed.

(** Writing at an index of [ixs] after writing at [i]. *)
Lemma decide_elem_cons (j i : nat) (ixs : list nat) (v b : bool) :
  (if decide (j ∈ ixs) then v else if decide (j = i) then v else b) = if decide (j ∈ i :: ixs) then v else b.
Proof.
  destruct (decide (j ∈ ixs)); [by rewrite decide_True by (by right)|]. destruct (decide (j = i)) as [->|Hne].
  - by rewrite decide_True by left.
  - rewrite decide_False; [done|]. by intros [|]%elem_of_cons.
Qed.

(** Two predicates that differ at one index. *)
Lemma count_if_seq_change (P Q : nat → bool) i n :
  i < n → (∀ j, j ≠ i → P j = Q j) → P i = true → Q i = false →
  count_if P (seq 0 n) = S (count_if Q (seq 0 n)).
Proof.
  intros Hi He HP HQ. replace n with (i + S (n - S i)) by lia.
  rewrite seq_app, !count_if_app. simpl. rewrite HP, HQ.
  rewrite (count_if_ext P Q (seq 0 i)), (count_if_ext P Q (seq (S i) _)); [lia|..];
    intros j Hj%elem_of_seq; apply He; lia.
Qed.

(** ** Folds

    A fold that carries a flag, raised by every step that changes the state. *)

Section Folds.
Context {A B : Type} (f : A * bool → B → A * bool).

Lemma foldl_invariant {C D} (g : C → D → C) (P : C → Prop) l a :
  (∀ c x, x ∈ l → P c → P (g c x)) → P a → P (foldl g a l).
Proof.
  revert a. induction l as [|x l IH]; intros a Hg Ha; simpl; [done|].
  apply IH; [intros; apply Hg; [by right|done]|]. apply Hg; [left|done].
Qed.

Lemma foldl_quiet l a :
  (∀ a x, (f a x).2 = false → f a x = a) → (foldl f a l).2 = false →
  foldl f a l = a ∧ ∀ x, x ∈ l → f a x = a.
Proof.
  intros Hf. revert a. induction l as [|x l IH]; intros a; simpl.
  { intros _. split; [done|]. by intros x ?%elem_of_nil. }
  intros Hq. destruct (IH _ Hq) as [E Hl]. rewrite E in Hq. pose proof (Hf _ _ Hq) as Hx.
  rewrite E, Hx in *. split; [done|]. intros y [->|Hy]%elem_of_cons; [done|by apply Hl].
Qed.

(** Where a flag is raised only by a step that makes [size] grow. *)
Lemma foldl_grows (size : A → nat) l a :
  (∀ a x, size a.1 ≤ size (f a x).1 ∧ ((f a x).2 = true → a.2 = true ∨ size a.1 < size (f a x).1)) →
  size a.1 ≤ size (foldl f a l).1 ∧ ((foldl f a l).2 = true → a.2 = true ∨ size a.1 < size (foldl f a l).1).
Proof.
  intros Hf. revert a. induction l as [|x l IH]; intros a; simpl; [auto|].
  destruct (IH (f a x)) as [H1 H2]. destruct (Hf a x) as [H3 H4]. split; [lia|]. intros [H|H]%H2; [|right; lia].
  destruct (H4 H); [by left|right; lia].
Qed.
End Folds.

(** ** Step relations *)

(** What holds at the start and is kept by every step holds at every reachable state. *)
Lemma rtc_invariant {A} (R : relation A) (P : A → Prop) x y :
  (∀ a b, P a → R a b → P b) → P x → rtc R x y → P y.
Proof. induction 3; eauto. Qed.

(** ** Automation *)

(** Read a boolean test of the code as the proposition it decides. *)
Ltac breflect :=
  repeat match goal with
  | H : (_ =? _)%Z = true |- _ => apply Z.eqb_eq in H
  | H : (_ =? _)%Z = false |- _ => apply Z.eqb_neq in H
  | H : (_ <=? _)%Z = true |- _ => apply Z.leb_le in H
  | H : (_ <=? _)%Z = false |- _ => apply Z.leb_gt in H
  | H : (_ <? _)%Z = true |- _ => apply Z.ltb_lt in H
  | H : (_ <? _)%Z = false |- _ => apply Z.ltb_ge in H
  | H : (_ =? _)%nat = true |- _ => apply Nat.eqb_eq in H
  | H : (_ =? _)%nat = false |- _ => apply Nat.eqb_neq in H
  | H : (_ <=? _)%nat = true |- _ => apply Nat.leb_le in H
  | H : (_ <=? _)%nat = false |- _ => apply Nat.leb_gt in H
  | H : (_ <? _)%nat = true |- _ => apply Nat.ltb_lt in H
  | H : (_ <? _)%nat = false |- _ => apply Nat.ltb_ge in H
  | H : bool_decide _ = true |- _ => apply bool_decide_eq_true in H
  | H : bool_decide _ = false |- _ => apply bool_decide_eq_false in H
  | H : negb _ = true |- _ => apply negb_true_iff in H
  | H : negb _ = false |- _ => apply negb_false_iff in H
  | H : andb _ _ = true |- _ => apply andb_true_iff in H; destruct H
  | H : orb _ _ = false |- _ => apply orb_false_iff in H; destruct H
  end.

Create HintDb kintane.
#[export] Hint Resolve land_in_u lor_in_u position_lt lookup_lt_Some : kintane.
Create Rewrite HintDb kintane.
#[export] Hint Rewrite @length_insert @length_replicate : kintane.
