(* ===== verification/KobjectRights.v ===== *)
(** * Rights: what a handle permits

    [kernel/kobject/src/rights.rs].  A set of permissions is a 32-bit word; [narrow] is the
    one operation that crosses a trust boundary.  The abstract view is a finite set of bit
    positions, [to_set], and every operation refines the set operation it stands for. *)

From S2P Require Import Prelude.
Local Open Scope Z_scope.

Module Rights.

(** The word inside [Rights(u32)]. *)
Abbreviation t := Z (only parsing).

(** The [rights!] table. *)
Definition READ : t := Z.shiftl 1 0.
Definition WRITE : t := Z.shiftl 1 1.
Definition EXECUTE : t := Z.shiftl 1 2.
Definition DUPLICATE : t := Z.shiftl 1 3.
Definition TRANSFER : t := Z.shiftl 1 4.
Definition WAIT : t := Z.shiftl 1 5.
Definition SIGNAL : t := Z.shiftl 1 6.
Definition MAP : t := Z.shiftl 1 7.
Definition DESTROY : t := Z.shiftl 1 8.
Definition INSPECT : t := Z.shiftl 1 9.

(** [Rights::ALL], every bit the table names. *)
Definition ALL : t :=
  foldr Z.lor 0
    [READ; WRITE; EXECUTE; DUPLICATE; TRANSFER; WAIT; SIGNAL; MAP; DESTROY; INSPECT].

Definition NONE : t := 0.
Definition empty : t := 0.
Definition bits (r : t) : Z := r.

Definition from_bits_truncate (b : Z) : t := Z.land b ALL.
Definition contains (self other : t) : bool := Z.land self other =? other.
Definition is_empty (self : t) : bool := self =? 0.
Definition union (self other : t) : t := Z.lor self other.
Definition narrow (self mask : t) : t := Z.land self mask.
Definition without (self remove : t) : t := Z.land self (u_not 32 remove).

(** ** The abstract view *)

(** A rights word is well formed when it is a [u32]. *)
Definition wf (r : t) : Prop := in_u 32 r.

(** The bit positions a word holds. *)
Definition to_set (r : t) : gset Z :=
  list_to_set (filter (λ i, Z.testbit r i = true) (seqZ 0 32)).

Lemma elem_of_to_set r i : wf r → 0 ≤ i → i ∈ to_set r ↔ Z.testbit r i = true.
Proof.
  intros Hr Hi. unfold to_set.
  rewrite elem_of_list_to_set, list_elem_of_filter, elem_of_seqZ. split; [tauto|].
  intros Hb. split; [done|]. destruct (decide (i < 32)); [lia|].
  rewrite (in_u_testbit 32 r) in Hb by (done || lia). done.
Qed.

Lemma to_set_range r i : i ∈ to_set r → 0 ≤ i < 32.
Proof.
  unfold to_set. rewrite elem_of_list_to_set, list_elem_of_filter, elem_of_seqZ. lia.
Qed.

Lemma wf_narrow r m : wf r → wf m → wf (narrow r m).
Proof. intros ? [? _]. unfold narrow. apply land_in_u; done. Qed.

Lemma wf_union r s : wf r → wf s → wf (union r s).
Proof. intros. unfold union. apply lor_in_u; done. Qed.

Lemma wf_ALL : wf ALL.
Proof. by split; vm_compute. Qed.

Lemma u_not_nonneg b : wf b → 0 ≤ u_not 32 b.
Proof.
  intros [Hb _]. unfold u_not. apply Z.lxor_nonneg.
  split; intros _; [by vm_compute|done].
Qed.

Lemma wf_without r s : wf r → wf s → wf (without r s).
Proof.
  intros Hr Hs. unfold without. apply land_in_u; [done..|by apply u_not_nonneg].
Qed.

Lemma contains_testbit r s :
  wf r → wf s →
  contains r s = true ↔ ∀ i, 0 ≤ i → Z.testbit s i = true → Z.testbit r i = true.
Proof.
  intros Hr Hs. unfold contains. rewrite Z.eqb_eq. split.
  - intros E i Hi Hb. rewrite <-E, Z.land_spec in Hb. by apply andb_true_iff in Hb as [? _].
  - intros H. apply Z.bits_inj'. intros n Hn. rewrite Z.land_spec.
    destruct (Z.testbit s n) eqn:E; [by rewrite (H n Hn E)|by rewrite andb_false_r].
Qed.

Lemma to_set_narrow r m : wf r → wf m → to_set (narrow r m) = to_set r ∩ to_set m.
Proof.
  intros Hr Hm. apply set_eq. intros i. rewrite elem_of_intersection.
  destruct (decide (0 ≤ i)).
  - rewrite !elem_of_to_set by eauto using wf_narrow. unfold narrow.
    by rewrite Z.land_spec, andb_true_iff.
  - split; [|intros [? _]]; intros; exfalso; eapply (to_set_range) in H; lia.
Qed.

Lemma to_set_union r m : wf r → wf m → to_set (union r m) = to_set r ∪ to_set m.
Proof.
  intros Hr Hm. apply set_eq. intros i. rewrite elem_of_union.
  destruct (decide (0 ≤ i)).
  - rewrite !elem_of_to_set by eauto using wf_union. unfold union.
    by rewrite Z.lor_spec, orb_true_iff.
  - split; [|intros [?|?]]; intros; exfalso; eapply (to_set_range) in H; lia.
Qed.

Lemma to_set_without r m : wf r → wf m → to_set (without r m) = to_set r ∖ to_set m.
Proof.
  intros Hr Hm. apply set_eq. intros i. rewrite elem_of_difference.
  destruct (decide (0 ≤ i)).
  - rewrite !elem_of_to_set by eauto using wf_without. unfold without.
    rewrite Z.land_spec, u_not_spec, andb_true_iff by lia.
    destruct (decide (i < 32)).
    + rewrite bool_decide_eq_true_2 by done. destruct (Z.testbit m i); naive_solver.
    + rewrite (in_u_testbit 32 r) by (done || lia). naive_solver.
  - split; [|intros [? _]]; intros; exfalso; eapply (to_set_range) in H; lia.
Qed.

Lemma contains_to_set r s : wf r → wf s → contains r s = true ↔ to_set s ⊆ to_set r.
Proof.
  intros Hr Hs. rewrite contains_testbit by done. split.
  - intros H i Hi. pose proof (to_set_range _ _ Hi) as [Hi0 _].
    apply elem_of_to_set in Hi; [|done..]. apply elem_of_to_set; auto.
  - intros H i Hi Hb. apply elem_of_to_set; [done..|]. apply H, elem_of_to_set; done.
Qed.

Lemma contains_refl r : contains r r = true.
Proof. unfold contains. by rewrite Z.land_diag, Z.eqb_refl. Qed.

Lemma contains_empty r : contains r empty = true.
Proof. unfold contains, empty. by rewrite Z.land_0_r. Qed.

Lemma contains_trans a b c :
  contains a b = true → contains b c = true → contains a c = true.
Proof.
  unfold contains. rewrite !Z.eqb_eq. intros <- <-.
  by rewrite !Z.land_assoc, Z.land_diag.
Qed.

Lemma contains_narrow r m : contains r (narrow r m) = true.
Proof. unfold contains, narrow. by rewrite Z.land_assoc, Z.land_diag, Z.eqb_refl. Qed.

(** the rights word refines a set of permissions. Narrowing is intersection, union and
    [without] are union and difference, [contains] is inclusion, [from_bits_truncate] keeps
    exactly the bits the kernel defines, and so narrowing never adds a right that was not
    held, whatever mask is asked for. *)
Theorem rights_refine_sets (r m : t) (Hr : wf r) (Hm : wf m) :
  to_set (narrow r m) = to_set r ∩ to_set m ∧
  to_set (union r m) = to_set r ∪ to_set m ∧
  to_set (without r m) = to_set r ∖ to_set m ∧
  (contains r m = true ↔ to_set m ⊆ to_set r) ∧
  to_set (from_bits_truncate r) = to_set r ∩ to_set ALL ∧
  (is_empty r = true ↔ to_set r = ∅) ∧
  contains r (narrow r m) = true.
Proof.
  refine (conj _ (conj _ (conj _ (conj _ (conj _ (conj _ _)))))).
  - by apply to_set_narrow.
  - by apply to_set_union.
  - by apply to_set_without.
  - by apply contains_to_set.
  - apply to_set_narrow; [done|apply wf_ALL].
  - unfold is_empty. rewrite Z.eqb_eq. split; [intros ->; by vm_compute|].
    intros E. apply Z.bits_inj'. intros n Hn. rewrite Z.bits_0.
    destruct (Z.testbit r n) eqn:Hb; [|done].
    apply elem_of_to_set in Hb; [|done..]. rewrite E in Hb. set_solver.
  - apply contains_narrow.
Qed.

Lemma rights_refine_sets_witness :
  to_set (narrow (union READ WRITE) (union READ DESTROY)) = {[0]}.
Proof.
  destruct (rights_refine_sets (union READ WRITE) (union READ DESTROY)) as [-> _].
  - split; by vm_compute.
  - split; by vm_compute.
  - by vm_compute.
Defined.

End Rights.

#[export] Hint Resolve Rights.contains_refl Rights.contains_narrow Rights.contains_empty
  Rights.wf_narrow Rights.wf_ALL : kintane.
