(* ===== verification/KobjectObject.v ===== *)
(** * Object identities, object types and the embedded reference count

    [kernel/kobject/src/lib.rs].  [IdSource] is the trait the code that creates objects is
    written against; its two implementations discharge the promise its documentation makes.
    [Refcount] is the atomic count; it is modelled as an interleaving of threads, one step
    per atomic access. *)

From S2P Require Import Prelude.
Local Open Scope Z_scope.

(** [ObjectId(u64)] *)
Abbreviation ObjectId := Z.

Inductive ObjectType : Type :=
| Process | Thread | Channel | MemoryRegion | Mapping | Event | Timer | Interrupt
| DeviceResource | Completion | Job | Socket.

#[global] Instance ObjectType_eq_dec : EqDecision ObjectType.
Proof. solve_decision. Defined.

(** ** The [IdSource] trait *)

Class IdSource (S : Type) := next_id : S → ObjectId * S.

(** The identities of [n] successive calls. *)
Fixpoint draws {S} `{IdSource S} (n : nat) (s : S) : list ObjectId :=
  match n with
  | O => []
  | Datatypes.S n => let '(id, s') := next_id s in id :: draws n s'
  end.

(** What the trait documents: no identity is returned twice.  The counters are 64 bits wide
    and wrap, so the promise covers the calls up to the wrap, [ids_left]. *)
Class IdSourceOk (S : Type) `{IdSource S} := {
  ids_left : S → Z;
  ids_distinct : ∀ s n, Z.of_nat n ≤ ids_left s → NoDup (draws n s);
  ids_nonzero : ∀ s n, Z.of_nat n ≤ ids_left s → 0 ∉ draws n s;
}.

(** [LockedIds]: a counter behind a lock; [ObjectIds]: the same counter, atomic. *)
Record LockedIds := { locked_next : Z }.
Record ObjectIds := { atomic_next : Z }.

Definition LockedIds_new : LockedIds := {| locked_next := 1 |}.
Definition LockedIds_next (s : LockedIds) : ObjectId * LockedIds :=
  let id := locked_next s in (id, {| locked_next := wrapping_add 64 id 1 |}).

Definition ObjectIds_new : ObjectIds := {| atomic_next := 1 |}.
(** [fetch_add] returns the old value and wraps. *)
Definition ObjectIds_next (s : ObjectIds) : ObjectId * ObjectIds :=
  (atomic_next s, {| atomic_next := wrapping_add 64 (atomic_next s) 1 |}).

#[global] Instance LockedIds_source : IdSource LockedIds := LockedIds_next.
#[global] Instance ObjectIds_source : IdSource ObjectIds := ObjectIds_next.

(** Both counters hand out consecutive numbers until they wrap. *)
Section Counter.
Context {S : Type} `{IdSource S} (val : S → Z).
Hypothesis next_val : ∀ s, next_id s = (val s, (next_id s).2).
Hypothesis next_step : ∀ s, val (next_id s).2 = wrapping_add 64 (val s) 1.

Definition counter_left (s : S) : Z := if decide (1 ≤ val s) then 2 ^ 64 - val s else 0.

Lemma draws_counter s n :
  1 ≤ val s → Z.of_nat n ≤ 2 ^ 64 - val s → draws n s = seqZ (val s) (Z.of_nat n).
Proof.
  revert s. induction n as [|n IH]; intros s H1 Hn; [done|].
  cbn [draws]. rewrite next_val. rewrite seqZ_cons by lia. f_equal.
  destruct n as [|n]; [by simpl; rewrite seqZ_nil by lia|].
  assert (val (next_id s).2 = val s + 1) as Hv.
  { rewrite next_step. unfold wrapping_add. rewrite Z.mod_small; lia. }
  rewrite IH by lia. rewrite Hv. f_equal; lia.
Qed.

Lemma counter_draws s n :
  Z.of_nat n ≤ counter_left s → NoDup (draws n s) ∧ 0 ∉ draws n s.
Proof.
  unfold counter_left. case_decide as Hv.
  - intros Hn. rewrite draws_counter by done. split; [apply NoDup_seqZ|].
    rewrite elem_of_seqZ. lia.
  - intros Hn. destruct n; [|lia]. split; [constructor|by intros ?%elem_of_nil].
Qed.
End Counter.

#[global] Program Instance LockedIds_ok : IdSourceOk LockedIds :=
  {| ids_left := counter_left locked_next |}.
Next Obligation.
  intros s n Hn. eapply (counter_draws locked_next); eauto.
Qed.
Next Obligation.
  intros s n Hn. eapply (counter_draws locked_next); eauto.
Qed.

#[global] Program Instance ObjectIds_ok : IdSourceOk ObjectIds :=
  {| ids_left := counter_left atomic_next |}.
Next Obligation.
  intros s n Hn. eapply (counter_draws atomic_next); eauto.
Qed.
Next Obligation.
  intros s n Hn. eapply (counter_draws atomic_next); eauto.
Qed.

(** ** [Refcount]: an atomic count shared by threads

    [acquire] is a load followed by a compare-exchange loop, [release] one [fetch_sub].  A
    thread is between calls, or inside [acquire] with the value it last read in [cur].
    [held] is how many references it holds, which the callers keep and the count does not
    see.  [reported] counts the [release] calls that returned [true]. *)

Module Refcount.

Inductive RefError := Dead | TooManyRefs.

Inductive pc := Idle | Acquiring (cur : Z).

Record thread := { held : nat; at_pc : pc }.

Record state := { count : Z; threads : list thread; reported : nat; failed : list RefError }.

(** [Refcount::one]: the creator holds the only reference; other threads hold none. *)
Definition one (n : nat) : state :=
  {| count := 1; threads := {| held := 1; at_pc := Idle |} :: replicate n {| held := 0; at_pc := Idle |};
     reported := 0; failed := [] |}.

Definition is_dead (s : state) : bool := count s =? 0.

(** One turn of the [acquire] loop on the value [cur], when the counter is [actual]:
    the error it returns, or whether the exchange succeeds. *)
Definition acquire_turn (cur actual : Z) : result bool RefError :=
  if cur =? 0 then Err Dead
  else if cur =? u32_MAX then Err TooManyRefs
  else Ok (cur =? actual).

(** [release]'s [fetch_sub], wrapping as the hardware does: the new count and whether this
    was the last reference. *)
Definition release_turn (previous : Z) : Z * bool := (wrapping_sub 32 previous 1, previous =? 1).

Definition set_thread (s : state) (i : nat) (th : thread) : list thread := <[i:=th]> (threads s).

Inductive step : state → state → Prop :=
(** A holder that is between calls gives a reference to another thread. *)
| step_give s i j a b :
    i ≠ j → threads s !! i = Some a → threads s !! j = Some b →
    at_pc a = Idle → (0 < held a)%nat →
    step s {| count := count s;
              threads := <[j := {| held := S (held b); at_pc := at_pc b |}]>
                (<[i := {| held := held a - 1; at_pc := at_pc a |}]> (threads s));
              reported := reported s; failed := failed s |}
(** [acquire] is called by a thread that holds a reference: the first load. *)
| step_load s i a :
    threads s !! i = Some a → at_pc a = Idle → (0 < held a)%nat →
    step s {| count := count s;
              threads := set_thread s i {| held := held a; at_pc := Acquiring (count s) |};
              reported := reported s; failed := failed s |}
(** The exchange succeeds: one more reference. *)
| step_cas_ok s i a cur :
    threads s !! i = Some a → at_pc a = Acquiring cur →
    acquire_turn cur (count s) = Ok true →
    step s {| count := cur + 1;
              threads := set_thread s i {| held := S (held a); at_pc := Idle |};
              reported := reported s; failed := failed s |}
(** The exchange fails, or fails spuriously as a weak exchange may: retry with the value
    it found. *)
| step_cas_fail s i a cur b :
    threads s !! i = Some a → at_pc a = Acquiring cur →
    acquire_turn cur (count s) = Ok b →
    step s {| count := count s;
              threads := set_thread s i {| held := held a; at_pc := Acquiring (count s) |};
              reported := reported s; failed := failed s |}
(** [acquire] returns an error. *)
| step_acquire_err s i a cur e :
    threads s !! i = Some a → at_pc a = Acquiring cur →
    acquire_turn cur (count s) = Err e →
    step s {| count := count s;
              threads := set_thread s i {| held := held a; at_pc := Idle |};
              reported := reported s; failed := e :: failed s |}
(** [release], by a thread that holds a reference and is not inside [acquire]. *)
| step_release s i a :
    threads s !! i = Some a → at_pc a = Idle → (0 < held a)%nat →
    step s {| count := (release_turn (count s)).1;
              threads := set_thread s i {| held := held a - 1; at_pc := Idle |};
              reported := reported s + (if (release_turn (count s)).2 then 1 else 0);
              failed := failed s |}.

Definition total (l : list thread) : nat := sum_list_with held l.

Lemma total_insert l i a b :
  l !! i = Some a → (total (<[i:=b]> l) + held a = total l + held b)%nat.
Proof.
  revert i. induction l as [|c l IH]; intros [|i]; unfold total in *; simpl; intros Hi;
    simplify_eq; [lia|]. specialize (IH _ Hi). lia.
Qed.

Lemma total_ge l i a : l !! i = Some a → (held a ≤ total l)%nat.
Proof.
  revert i. induction l as [|c l IH]; intros [|i]; unfold total in *; simpl; intros Hi;
    simplify_eq; [lia|]. specialize (IH _ Hi). lia.
Qed.

(** The invariant: the counter is the number of references held, at most what a [u32] holds;
    destruction has been reported exactly when it is zero; a thread inside [acquire] holds a
    reference and read a value that was not zero; no [acquire] reported [Dead]. *)
Definition thread_ok (a : thread) : Prop :=
  match at_pc a with Idle => True | Acquiring cur => 0 < cur ∧ (0 < held a)%nat end.

Record inv (s : state) : Prop := {
  inv_count : count s = Z.of_nat (total (threads s));
  inv_u32 : count s ≤ u32_MAX;
  inv_reported : reported s = if decide (count s = 0) then 1%nat else 0%nat;
  inv_threads : Forall thread_ok (threads s);
  inv_failed : Dead ∉ failed s;
}.

Lemma inv_one n : inv (one n).
Proof.
  split; simpl.
  - assert (total (replicate n {| held := 0; at_pc := Idle |}) = 0)%nat as E.
    { unfold total. induction n; simpl; auto. }
    unfold total in *. simpl. lia.
  - by vm_compute.
  - done.
  - constructor; [done|]. by apply Forall_replicate.
  - set_solver.
Qed.

Lemma acquire_turn_Ok cur actual b :
  acquire_turn cur actual = Ok b → cur ≠ 0 ∧ cur ≠ u32_MAX ∧ (b = true → cur = actual).
Proof.
  unfold acquire_turn. destruct (Z.eqb_spec cur 0); [done|].
  destruct (Z.eqb_spec cur u32_MAX); [done|]. intros [= <-]. rewrite Z.eqb_eq. done.
Qed.

(** A step that replaces one thread by another holding [n] more or fewer references. *)
Lemma inv_set_thread s i a b c r f :
  inv s → threads s !! i = Some a → thread_ok b →
  c = count s + Z.of_nat (held b) - Z.of_nat (held a) → c ≤ u32_MAX →
  r = (if decide (c = 0) then 1%nat else 0%nat) → Dead ∉ f →
  inv {| count := c; threads := <[i:=b]> (threads s); reported := r; failed := f |}.
Proof.
  intros [Hc Hu Hr Ht Hf] Ha Hb Hce Hcu Hre Hfe.
  pose proof (total_insert _ i a b Ha). split; simpl; auto; [lia|].
  by apply Forall_insert.
Qed.

Lemma inv_step s s' : inv s → step s s' → inv s'.
Proof.
  intros I Hs. destruct I as [Hc Hu Hr Ht Hf] eqn:EI. clear EI.
  destruct Hs as [s i j a b Hij Ha Hb Hp Hh|s i a Ha Hp Hh|s i a cur Ha Hp Hq
    |s i a cur b Ha Hp Hq|s i a cur e Ha Hp Hq|s i a Ha Hp Hh]; unfold set_thread;
    pose proof (total_ge _ _ _ Ha); pose proof (Forall_lookup_1 _ _ _ _ Ht Ha) as Ta;
    unfold thread_ok in Ta; rewrite Hp in Ta.
  - assert (<[i:={| held := held a - 1; at_pc := at_pc a |}]> (threads s) !! j = Some b) as Hb'
      by (by rewrite list_lookup_insert_ne).
    pose proof (total_insert _ i a {| held := held a - 1; at_pc := at_pc a |} Ha).
    pose proof (total_insert _ j b {| held := S (held b); at_pc := at_pc b |} Hb').
    pose proof (Forall_lookup_1 _ _ _ _ Ht Hb) as Tb.
    split; simpl in *; auto; [lia|]. apply Forall_insert; [apply Forall_insert|]; auto.
    + unfold thread_ok. simpl. by rewrite Hp.
    + unfold thread_ok in *. simpl. destruct (at_pc b); [done|]. split; [tauto|lia].
  - eapply inv_set_thread; eauto; simpl; try lia; try done. unfold thread_ok. simpl. lia.
  - apply acquire_turn_Ok in Hq as (?&?&Hq). specialize (Hq eq_refl).
    eapply inv_set_thread; eauto; simpl; try lia; try done.
    rewrite Hr, !decide_False by lia. done.
  - eapply inv_set_thread; eauto; simpl; try lia; try done. unfold thread_ok. simpl. lia.
  - eapply inv_set_thread; eauto; simpl; try lia; try done. unfold acquire_turn in Hq.
    destruct (Z.eqb_spec cur 0); [lia|]. destruct (cur =? u32_MAX); simplify_eq. set_solver.
  - assert (release_turn (count s) = (count s - 1, count s =? 1)) as ->.
    { unfold release_turn, wrapping_sub. rewrite Z.mod_small; [done|]. unfold u_max in *. lia. }
    eapply inv_set_thread; eauto; simpl; try lia; try done.
    rewrite Hr, (decide_False (P := count s = 0)) by lia.
    destruct (Z.eqb_spec (count s) 1); repeat case_decide; lia.
Qed.

(** C14. whatever the interleaving of [acquire] and [release] over any number of threads, the
    count is the number of references held and never wraps, an [acquire] by a holder never
    finds the object dead, and the last [release] is reported exactly once: it has been
    reported, once, if and only if no reference is left. *)
Theorem refcount_reports_once (n : nat) (s : state) (Hreach : rtc step (one n) s) :
  count s = Z.of_nat (total (threads s)) ∧ in_u 32 (count s) ∧
  (reported s = if is_dead s then 1%nat else 0%nat) ∧ Dead ∉ failed s.
Proof.
  assert (inv s) as [Hc Hu Hr Ht Hf].
  { eapply (rtc_invariant step inv); eauto using inv_one, inv_step. }
  split_and!; [done|split; lia| |done]. rewrite Hr. unfold is_dead.
  case_decide; destruct (Z.eqb_spec (count s) 0); congruence.
Qed.

(** Two threads: the creator acquires, hands a reference over, and both release. *)
Lemma two_thread_run : ∃ s, rtc step (one 1) s ∧ count s = 0.
Proof.
  eexists. split.
  - eapply rtc_l; [eapply (step_load _ 0); [reflexivity|reflexivity|simpl; lia]|].
    eapply rtc_l; [eapply (step_cas_ok _ 0); reflexivity|].
    eapply rtc_l; [eapply (step_give _ 0 1); [done|reflexivity|reflexivity|reflexivity|simpl; lia]|].
    eapply rtc_l; [eapply (step_release _ 0); [reflexivity|reflexivity|simpl; lia]|].
    eapply rtc_l; [eapply (step_release _ 1); [reflexivity|reflexivity|simpl; lia]|].
    apply rtc_refl.
  - reflexivity.
Qed.

Lemma refcount_reports_once_witness : ∃ s, rtc step (one 1) s ∧ reported s = 1%nat.
Proof.
  destruct two_thread_run as (s & Hs & Hc). exists s. split; [done|].
  destruct (refcount_reports_once 1 s Hs) as (_&_&->&_). unfold is_dead. by rewrite Hc.
Defined.

End Refcount.
