(* ===== verification/KobjectHandle.v ===== *)
(** * Handles and the per-process handle table

    [kernel/kobject/src/handle.rs].  [Handle] is the packing of a slot index and a generation
    into a [u32]; [HandleTable] is the fixed-capacity table.  The abstract view of a table is
    the partial map [get] from handle values to entries. *)

From S2P Require Import Prelude KobjectRights KobjectObject.
Local Open Scope Z_scope.

(** ** The handle value *)

Module Handle.

Definition INDEX_BITS : Z := 10.
Definition INDEX_MASK : Z := Z.shiftl 1 INDEX_BITS - 1.
Definition MAX_GENERATION : Z := Z.shiftl 1 (32 - INDEX_BITS) - 1.
Definition MAX_SLOTS : nat := Z.to_nat (Z.shiftl 1 INDEX_BITS).
Definition CYCLES_PER_SLOT : Z := MAX_GENERATION - 1.

(** [Handle(u32)] *)
Abbreviation t := Z (only parsing).
Definition raw (h : t) : Z := h.
Definition from_raw (v : Z) : t := v.

Definition new (index : nat) (generation : Z) : t :=
  Z.lor (Z.land generation (u_not 32 INDEX_MASK)) (Z.land (Z.of_nat index) INDEX_MASK).
Definition index (h : t) : nat := Z.to_nat (Z.land h INDEX_MASK).
Definition generation (h : t) : Z := Z.land h (u_not 32 INDEX_MASK).

Inductive Error : Type :=
| BadHandle
| WrongType (expected found : ObjectType)
| AccessDenied (required held : Rights.t)
| TableFull.

Inductive TransferError : Type :=
| THandle (index : nat) (error : Error)
| TDuplicate (index : nat).

#[global] Instance Error_eq_dec : EqDecision Error.
Proof. solve_decision. Defined.

(** A handle value is a [u32]. *)
Definition wf (h : t) : Prop := in_u 32 h.

Lemma index_mod h : wf h → index h = Z.to_nat (h mod 1024).
Proof.
  intros _. unfold index. change INDEX_MASK with (Z.ones 10). by rewrite Z.land_ones.
Qed.

Lemma generation_round h : wf h → generation h = h / 1024 * 1024.
Proof.
  intros Hh. unfold generation. rewrite land_u_not by done.
  change INDEX_MASK with (Z.ones 10). by rewrite ldiff_ones_round.
Qed.

Lemma index_lt h : wf h → (index h < 1024)%nat.
Proof. intros Hh. rewrite index_mod by done. pose proof (Z.mod_pos_bound h 1024). lia. Qed.

Lemma new_add i g :
  (i < 1024)%nat → 0 ≤ g < 2 ^ 22 → new i (g * 1024) = g * 1024 + Z.of_nat i.
Proof.
  intros Hi Hg. unfold new. rewrite land_u_not; [|done|unfold in_u, u_max; lia].
  change INDEX_MASK with (Z.ones 10). rewrite ldiff_ones_round, Z.land_ones by done.
  rewrite Z.div_mul by done. rewrite Z.mod_small by lia. apply lor_disjoint_add; lia.
Qed.

Lemma new_wf i g : (i < 1024)%nat → 0 ≤ g < 2 ^ 22 → wf (new i (g * 1024)).
Proof. intros. rewrite new_add by done. unfold wf, in_u, u_max. lia. Qed.

Lemma index_new i g : (i < 1024)%nat → 0 ≤ g < 2 ^ 22 → index (new i (g * 1024)) = i.
Proof.
  intros. rewrite index_mod, new_add by auto using new_wf.
  rewrite Z.add_comm, Z_mod_plus_full, Z.mod_small; lia.
Qed.

Lemma generation_new i g :
  (i < 1024)%nat → 0 ≤ g < 2 ^ 22 → generation (new i (g * 1024)) = g * 1024.
Proof.
  intros. rewrite generation_round, new_add by auto using new_wf.
  rewrite Z.div_add_l, Z.div_small by lia. lia.
Qed.

(** A handle is determined by its two fields. *)
Lemma fields_inj h h' :
  wf h → wf h' → index h = index h' → generation h = generation h' → h = h'.
Proof.
  intros Hh Hh'. rewrite !index_mod, !generation_round by done. intros Hi Hg.
  pose proof (Z.mod_pos_bound h 1024). pose proof (Z.mod_pos_bound h' 1024).
  pose proof (Z.div_mod h 1024). pose proof (Z.div_mod h' 1024). lia.
Qed.

End Handle.

(** ** The table *)

Module Entry.
Record t : Type := Build { object : ObjectId; kind : ObjectType; rights : Rights.t }.
#[global] Instance eq_dec : EqDecision t.
Proof. solve_decision. Defined.
End Entry.

Module HandleTable.
Import Handle.

Record Slot : Type := { generation : Z; entry : option Entry.t; retired : bool }.

Record t : Type := { slots : list Slot; live : nat }.

(** [assert!(N <= MAX_SLOTS)]: a larger table is refused. *)
Definition new (N : nat) : option t :=
  if decide (N ≤ MAX_SLOTS)%nat then
    Some {| slots := replicate N {| generation := Z.shiftl 1 INDEX_BITS;
                                     entry := None; retired := false |};
            live := 0 |}
  else None.

Definition len (self : t) : nat := live self.
Definition is_empty (self : t) : bool := (live self =? 0)%nat.

(** [s.entry.is_none() && !s.retired] *)
Definition vacant (s : Slot) : bool :=
  match entry s with None => negb (retired s) | Some _ => false end.

Definition free_slots (self : t) : nat := count_if vacant (slots self).

Definition insert (self : t) (object : ObjectId) (kind : ObjectType) (rights : Rights.t) :
    option (t * result Handle.t Error) :=
  match position vacant (slots self) with
  | None => Some (self, Err TableFull)
  | Some index =>
      slot ← slots self !! index;
      Some ({| slots := <[index := {| generation := generation slot;
                                      entry := Some (Entry.Build object kind rights);
                                      retired := retired slot |}]> (slots self);
               live := live self + 1 |},
            Ok (Handle.new index (generation slot)))
  end.

Definition get (self : t) (h : Handle.t) : result Entry.t Error :=
  match slots self !! Handle.index h with
  | None => Err BadHandle
  | Some slot =>
      if negb (generation slot =? Handle.generation h) then Err BadHandle
      else ok_or (entry slot) BadHandle
  end.

Definition get_checked (self : t) (h : Handle.t) (kind : ObjectType) (required : Rights.t) :
    result Entry.t Error :=
  let? e := get self h in
  if decide (Entry.kind e = kind) then
    if negb (Rights.contains (Entry.rights e) required)
    then Err (AccessDenied required (Entry.rights e))
    else Ok e
  else Err (WrongType kind (Entry.kind e)).

(** Advance a just-vacated slot's generation, or retire the slot. *)
Definition advance (slot : Slot) : Slot :=
  let next := wrapping_add 32 (Z.shiftr (generation slot) INDEX_BITS) 1 in
  if MAX_GENERATION <=? next
  then {| generation := generation slot; entry := entry slot; retired := true |}
  else {| generation := shl 32 next INDEX_BITS; entry := entry slot; retired := retired slot |}.

(** [slot.entry.take()] *)
Definition take_entry (slot : Slot) : Slot :=
  {| generation := generation slot; entry := None; retired := retired slot |}.

Definition close (self : t) (h : Handle.t) : option (t * result Entry.t Error) :=
  let index := Handle.index h in
  match slots self !! index with
  | None => Some (self, Err BadHandle)
  | Some slot =>
      if negb (generation slot =? Handle.generation h) then Some (self, Err BadHandle)
      else match entry slot with
      | None => Some (self, Err BadHandle)
      | Some e =>
          live' ← usub (live self) 1;
          Some ({| slots := <[index := advance (take_entry slot)]> (slots self);
                   live := live' |}, Ok e)
      end
  end.

Definition duplicate (self : t) (h : Handle.t) (mask : Rights.t) :
    option (t * result Handle.t Error) :=
  match get self h with
  | Err e => Some (self, Err e)
  | Ok e =>
      if negb (Rights.contains (Entry.rights e) Rights.DUPLICATE)
      then Some (self, Err (AccessDenied Rights.DUPLICATE (Entry.rights e)))
      else insert self (Entry.object e) (Entry.kind e) (Rights.narrow (Entry.rights e) mask)
  end.

Definition transfer_out (self : t) (h : Handle.t) : option (t * result Entry.t Error) :=
  match get self h with
  | Err e => Some (self, Err e)
  | Ok e =>
      if negb (Rights.contains (Entry.rights e) Rights.TRANSFER)
      then Some (self, Err (AccessDenied Rights.TRANSFER (Entry.rights e)))
      else close self h
  end.

(** The loop of [check_transfer_out_many] from position [index] on: [handles] is the whole
    list, [rest] what is left of it. *)
Fixpoint check_from (self : t) (handles : list Handle.t) (index : nat) (rest : list Handle.t) :
    result unit TransferError :=
  match rest with
  | [] => Ok tt
  | h :: rest =>
      match get self h with
      | Err error => Err (THandle index error)
      | Ok e =>
          if negb (Rights.contains (Entry.rights e) Rights.TRANSFER)
          then Err (THandle index (AccessDenied Rights.TRANSFER (Entry.rights e)))
          else if existsb (λ earlier, earlier =? h) (take index handles)
          then Err (TDuplicate index)
          else check_from self handles (S index) rest
      end
  end.

Definition check_transfer_out_many (self : t) (handles : list Handle.t) :
    result unit TransferError :=
  check_from self handles 0 handles.

(** The moving loop: what [sink] receives is collected in order. *)
Fixpoint move_from (self : t) (index : nat) (handles : list Handle.t) :
    option (t * list (nat * Entry.t)) :=
  match handles with
  | [] => Some (self, [])
  | h :: handles =>
      match slots self !! Handle.index h with
      | None => move_from self (S index) handles
      | Some slot =>
          match entry slot with
          | None => move_from self (S index) handles
          | Some e =>
              live' ← usub (live self) 1;
              let self' := {| slots := <[Handle.index h := advance (take_entry slot)]> (slots self);
                              live := live' |} in
              '(self'', sunk) ← move_from self' (S index) handles;
              Some (self'', (index, e) :: sunk)
          end
      end
  end.

Definition transfer_out_many (self : t) (handles : list Handle.t) :
    option (t * result (list (nat * Entry.t)) TransferError) :=
  match check_transfer_out_many self handles with
  | Err e => Some (self, Err e)
  | Ok _ =>
      '(self', sunk) ← move_from self 0 handles;
      Some (self', Ok sunk)
  end.

Definition entries (self : t) : list Entry.t := omap entry (slots self).

(** ** The invariant

    A slot's generation is a multiple of the index stride, between one stride and the last
    before the counter would wrap; a retired slot holds nothing; [live] is the number of
    occupied slots. *)

Definition occupied (s : Slot) : bool :=
  match entry s with Some _ => true | None => false end.

Definition slot_wf (s : Slot) : Prop :=
  (∃ g, generation s = g * 1024 ∧ 1 ≤ g < MAX_GENERATION) ∧
  (retired s = true → entry s = None).

Record wf (self : t) : Prop := {
  wf_len : (length (slots self) ≤ MAX_SLOTS)%nat;
  wf_slots : Forall slot_wf (slots self);
  wf_live : live self = count_if occupied (slots self);
}.

(** The table after slot [i], which held [s], was vacated; after it was filled with [e]. *)
Definition vacated (self : t) (i : nat) (s : Slot) : t :=
  {| slots := <[i := advance (take_entry s)]> (slots self); live := live self - 1 |}.

Definition filled (self : t) (i : nat) (s : Slot) (e : Entry.t) : t :=
  {| slots := <[i := {| generation := generation s; entry := Some e; retired := retired s |}]>
       (slots self);
     live := live self + 1 |}.

Lemma slot_at self i s : wf self → slots self !! i = Some s → slot_wf s ∧ (i < 1024)%nat.
Proof.
  intros [Hl Hs _] Hi. split; [by eapply Forall_lookup_1|].
  apply lookup_lt_Some in Hi. change MAX_SLOTS with 1024%nat in Hl. lia.
Qed.

Lemma wf_new N self : new N = Some self → wf self ∧ length (slots self) = N.
Proof.
  unfold new. case_decide; [|done]. intros [= <-]. split; simpl; [|by rewrite length_replicate].
  split; simpl; [by rewrite length_replicate| |by rewrite count_if_replicate].
  apply Forall_replicate. split; [|done]. exists 1. by vm_compute.
Qed.

Lemma advance_cases s g :
  generation s = g * 1024 → 1 ≤ g < MAX_GENERATION →
  advance s =
    if decide (MAX_GENERATION ≤ g + 1)
    then {| generation := g * 1024; entry := entry s; retired := true |}
    else {| generation := (g + 1) * 1024; entry := entry s; retired := retired s |}.
Proof.
  intros E Hg. change MAX_GENERATION with 4194303 in *. unfold advance. rewrite E.
  unfold INDEX_BITS. rewrite Z.shiftr_div_pow2 by done. change (2 ^ 10) with 1024.
  rewrite Z.div_mul by done. unfold wrapping_add. rewrite (Z.mod_small (g + 1)) by lia.
  change MAX_GENERATION with 4194303. destruct (Z.leb_spec 4194303 (g + 1)).
  - by rewrite decide_True.
  - rewrite decide_False by lia. unfold shl. rewrite Z.shiftl_mul_pow2 by done.
    change (2 ^ 10) with 1024. by rewrite Z.mod_small by lia.
Qed.

Lemma entry_advance s : entry (advance s) = entry s.
Proof. unfold advance. by case_match. Qed.

Lemma slot_wf_advance s : slot_wf s → slot_wf (advance (take_entry s)).
Proof.
  intros [(g & E & Hg) _]. rewrite (advance_cases _ g) by done. case_decide; split; simpl; eauto.
  exists (g + 1). split; [done|lia].
Qed.

Lemma wf_vacated self i s :
  wf self → slots self !! i = Some s → occupied s = true → wf (vacated self i s).
Proof.
  intros Hwf Hi Ho. destruct (slot_at _ _ _ Hwf Hi) as [Hs _]. destruct Hwf as [Hl Hf Hlive].
  split; simpl; [by rewrite length_insert| |].
  - apply Forall_insert; auto using slot_wf_advance.
  - pose proof (count_if_insert occupied _ _ _ (advance (take_entry s)) Hi) as Hc.
    rewrite Ho in Hc. unfold occupied in Hc at 3. rewrite entry_advance in Hc. simpl in Hc. lia.
Qed.

Lemma vacant_spec s : vacant s = true ↔ entry s = None ∧ retired s = false.
Proof. unfold vacant. destruct (entry s), (retired s); naive_solver. Qed.

Lemma wf_filled self i s e :
  wf self → slots self !! i = Some s → vacant s = true → wf (filled self i s e).
Proof.
  intros Hwf Hi [He Hr]%vacant_spec. destruct (slot_at _ _ _ Hwf Hi) as [Hs _].
  destruct Hwf as [Hl Hf Hlive]. split; simpl; [by rewrite length_insert| |].
  - apply Forall_insert; [done|]. split; simpl; [apply Hs|congruence].
  - pose proof (count_if_insert occupied _ _ _
      {| generation := generation s; entry := Some e; retired := retired s |} Hi) as Hc.
    unfold occupied in Hc at 2 4. rewrite He in Hc. simpl in Hc. lia.
Qed.

(** ** What each operation does, as a case analysis *)

Lemma get_Ok self h e :
  get self h = Ok e ↔
  ∃ s, slots self !! Handle.index h = Some s ∧ generation s = Handle.generation h ∧
       entry s = Some e.
Proof.
  unfold get. destruct (slots self !! Handle.index h) as [s|]; [|naive_solver].
  destruct (Z.eqb_spec (generation s) (Handle.generation h)); simpl.
  - rewrite ok_or_Ok. naive_solver.
  - naive_solver.
Qed.

Lemma get_Err self h err : get self h = Err err → err = BadHandle.
Proof.
  unfold get. destruct (slots self !! _) as [s|]; [|congruence].
  case_match; [congruence|]. by intros [_ ?]%ok_or_Err.
Qed.

Lemma live_pos self i s :
  wf self → slots self !! i = Some s → occupied s = true → usub (live self) 1 = Some (live self - 1)%nat.
Proof.
  intros [_ _ Hl] Hi Ho. apply usub_Some. split; [|done]. rewrite Hl.
  apply count_if_pos. eauto.
Qed.

Lemma close_Ok self h e :
  wf self → get self h = Ok e →
  ∃ s, slots self !! Handle.index h = Some s ∧ generation s = Handle.generation h ∧
       entry s = Some e ∧ close self h = Some (vacated self (Handle.index h) s, Ok e).
Proof.
  intros Hwf (s & Hi & Hg & He)%get_Ok. exists s. split_and!; try done.
  unfold close. rewrite Hi, Hg, Z.eqb_refl. simpl. rewrite He.
  assert (occupied s = true) as Ho by (unfold occupied; by rewrite He).
  by rewrite (live_pos _ _ _ Hwf Hi Ho).
Qed.

Lemma close_Err self h err : get self h = Err err → close self h = Some (self, Err err).
Proof.
  intros Hg. pose proof (get_Err _ _ _ Hg) as ->. revert Hg. unfold get, close.
  destruct (slots self !! _) as [s|]; [|done]. case_match; [done|].
  by intros [-> _]%ok_or_Err.
Qed.

Lemma insert_cases self o k r :
  (free_slots self = 0%nat ∧ insert self o k r = Some (self, Err TableFull)) ∨
  (∃ i s, slots self !! i = Some s ∧ vacant s = true ∧
     insert self o k r =
       Some (filled self i s (Entry.Build o k r), Ok (Handle.new i (generation s)))).
Proof.
  unfold insert, free_slots. destruct (position vacant (slots self)) as [i|] eqn:E.
  - right. destruct (position_lookup _ _ _ E) as (s & Hi & Hv). exists i, s.
    rewrite Hi. done.
  - left. split; [|done]. destruct (count_if vacant (slots self)) eqn:Ec; [done|].
    assert (0 < count_if vacant (slots self))%nat as (i & s & Hi & Hv)%count_if_pos by lia.
    rewrite position_None in E. specialize (E _ _ Hi). congruence.
Qed.

(** ** The abstract view: [get] as a map from handle values *)

Lemma get_vacated self h s e h' :
  slots self !! Handle.index h = Some s → generation s = Handle.generation h →
  entry s = Some e → Handle.wf h → Handle.wf h' →
  get (vacated self (Handle.index h) s) h' =
    if decide (h' = h) then Err BadHandle else get self h'.
Proof.
  intros Hi Hg He Hh Hh'. unfold get at 1, vacated. simpl.
  destruct (decide (Handle.index h' = Handle.index h)) as [Ei|Ei].
  - rewrite Ei, list_lookup_insert_eq by (by eapply lookup_lt_Some).
    rewrite entry_advance. simpl.
    assert (∀ b : bool, (if b then Err BadHandle else Err BadHandle) = Err (A:=Entry.t) BadHandle)
      as -> by (by intros []).
    case_decide as Eh; [done|]. unfold get. rewrite Ei, Hi.
    destruct (Z.eqb_spec (generation s) (Handle.generation h')); [|done].
    exfalso. apply Eh, Handle.fields_inj; congruence.
  - rewrite list_lookup_insert_ne by congruence. by rewrite decide_False by congruence.
Qed.

Lemma fresh_handle self i s :
  wf self → slots self !! i = Some s →
  Handle.wf (Handle.new i (generation s)) ∧ Handle.index (Handle.new i (generation s)) = i ∧
  Handle.generation (Handle.new i (generation s)) = generation s.
Proof.
  intros Hwf Hi. destruct (slot_at _ _ _ Hwf Hi) as [[(g & -> & Hg) _] Hlt].
  change MAX_GENERATION with 4194303 in Hg.
  split_and!; [apply Handle.new_wf|apply Handle.index_new|apply Handle.generation_new]; lia.
Qed.

Lemma get_filled self i s e h' :
  wf self → slots self !! i = Some s → vacant s = true → Handle.wf h' →
  get (filled self i s e) h' =
    if decide (h' = Handle.new i (generation s)) then Ok e else get self h'.
Proof.
  intros Hwf Hi Hv Hh'. destruct (fresh_handle _ _ _ Hwf Hi) as (Hw & Hix & Hge).
  apply vacant_spec in Hv as [He _]. unfold get at 1, filled. simpl.
  destruct (decide (Handle.index h' = i)) as [Ei|Ei].
  - rewrite Ei, list_lookup_insert_eq by (by eapply lookup_lt_Some). simpl.
    destruct (Z.eqb_spec (generation s) (Handle.generation h')) as [Eg|Eg]; simpl.
    + rewrite decide_True; [done|]. apply Handle.fields_inj; congruence.
    + rewrite decide_False by congruence. unfold get. rewrite Ei, Hi.
      destruct (Z.eqb_spec (generation s) (Handle.generation h')); [congruence|done].
  - rewrite list_lookup_insert_ne by congruence. by rewrite decide_False by congruence.
Qed.

Lemma get_vacant_slot self i s :
  wf self → slots self !! i = Some s → vacant s = true →
  get self (Handle.new i (generation s)) = Err BadHandle.
Proof.
  intros Hwf Hi [He _]%vacant_spec. destruct (fresh_handle _ _ _ Hwf Hi) as (_ & Hix & Hge).
  unfold get. rewrite Hix, Hi, Hge, Z.eqb_refl. simpl. by rewrite He.
Qed.

Lemma free_slots_filled self i s e :
  slots self !! i = Some s → vacant s = true →
  (free_slots (filled self i s e) + 1 = free_slots self)%nat.
Proof.
  intros Hi Hv. unfold free_slots, filled. simpl.
  set (s' := {| generation := generation s; entry := Some e; retired := retired s |}).
  pose proof (count_if_insert vacant _ _ _ s' Hi) as Hc.
  rewrite Hv, (eq_refl : vacant s' = false) in Hc. lia.
Qed.

(** What the table holds, up to order, when a slot is vacated or filled. *)
Lemma entries_vacated self i s e :
  slots self !! i = Some s → entry s = Some e → entries self ≡ₚ e :: entries (vacated self i s).
Proof.
  intros Hi He. unfold entries, vacated. simpl.
  destruct (omap_insert_Permutation entry _ _ _ (advance (take_entry s)) Hi) as (k & E1 & E2).
  rewrite E1, E2, entry_advance. by rewrite He.
Qed.

Lemma entries_filled self i s e :
  slots self !! i = Some s → vacant s = true → entries (filled self i s e) ≡ₚ e :: entries self.
Proof.
  intros Hi [He _]%vacant_spec. unfold entries, filled. simpl.
  destruct (omap_insert_Permutation entry _ _ _
    {| generation := generation s; entry := Some e; retired := retired s |} Hi) as (k & E1 & E2).
  rewrite E1, E2. simpl. by rewrite He.
Qed.

(** The same for whole operations, whatever they returned. *)
Lemma close_entries self h self' r :
  wf self → close self h = Some (self', r) →
  wf self' ∧ match r with
             | Ok e => get self h = Ok e ∧ entries self ≡ₚ e :: entries self'
             | Err _ => self' = self
             end.
Proof.
  intros Hw Hc. destruct (get self h) as [e|err] eqn:Hg.
  - destruct (close_Ok self h e Hw Hg) as (s & Hi & _ & He & E). rewrite E in Hc. simplify_eq.
    split; [apply wf_vacated; [done..|unfold occupied; by rewrite He]|]. split; [done|]. by apply entries_vacated.
  - rewrite (close_Err _ _ _ Hg) in Hc. by simplify_eq.
Qed.

Lemma insert_entries self o k r self' res :
  wf self → insert self o k r = Some (self', res) →
  wf self' ∧ match res with
             | Ok _ => entries self' ≡ₚ Entry.Build o k r :: entries self
             | Err _ => self' = self
             end.
Proof.
  intros Hw Hc. destruct (insert_cases self o k r) as [[_ E]|(i & s & Hi & Hv & E)];
    rewrite E in Hc; simplify_eq; [done|].
  split; [by apply wf_filled|by apply entries_filled].
Qed.

Lemma get_entries self h e : get self h = Ok e → e ∈ entries self.
Proof.
  intros (s & Hi & _ & He)%get_Ok. unfold entries. apply list_elem_of_omap. exists s.
  split; [by eapply list_elem_of_lookup_2|done].
Qed.

(** ** Moving many handles at once *)

(** What the checks require of one handle. *)
Definition transferable (self : t) (h : Handle.t) : Prop :=
  ∃ e, get self h = Ok e ∧ Rights.contains (Entry.rights e) Rights.TRANSFER = true.

Lemma existsb_eqb_elem (h : Handle.t) (l : list Handle.t) :
  existsb (λ x, x =? h) l = true ↔ h ∈ l.
Proof.
  rewrite existsb_exists. split.
  - intros (x & Hx & ->%Z.eqb_eq). by apply list_elem_of_In.
  - intros Hl. exists h. rewrite Z.eqb_refl. by rewrite <-list_elem_of_In.
Qed.

Lemma check_from_Ok self pre rest :
  check_from self (pre ++ rest) (length pre) rest = Ok tt ↔
  Forall (transferable self) rest ∧ NoDup rest ∧ (∀ h, h ∈ rest → h ∉ pre).
Proof.
  revert pre. induction rest as [|h rest IH]; intros pre; simpl.
  { split; [|done]. intros _. split_and!; [constructor|constructor|]. set_solver. }
  rewrite take_app_length. destruct (get self h) as [e|err] eqn:Hg; last first.
  { split; [done|]. intros (Hf & _). apply Forall_cons in Hf as [(e & He & _) _]. congruence. }
  destruct (Rights.contains (Entry.rights e) Rights.TRANSFER) eqn:Hr; simpl; last first.
  { split; [done|]. intros (Hf & _). apply Forall_cons in Hf as [(e' & He & ?) _]. congruence. }
  destruct (existsb _ pre) eqn:Hd.
  { split; [done|]. apply existsb_eqb_elem in Hd. intros (_ & _ & Hp). set_solver. }
  specialize (IH (pre ++ [h])). rewrite length_app, <-app_assoc, Nat.add_comm in IH.
  simpl in IH. rewrite IH, Forall_cons, NoDup_cons.
  assert (h ∉ pre) by (intros ?%existsb_eqb_elem; congruence).
  split.
  - intros (Hf & Hn & Hp). split_and!; [|done| |done|set_solver].
    + exists e. done.
    + intros Hin. apply (Hp _ Hin). set_solver.
  - intros ((_ & Hf) & (Hh & Hn) & Hp). split_and!; [done..|]. set_solver.
Qed.

Lemma check_Ok self hs :
  check_transfer_out_many self hs = Ok tt ↔ Forall (transferable self) hs ∧ NoDup hs.
Proof.
  unfold check_transfer_out_many. rewrite (check_from_Ok self [] hs).
  split; [tauto|]. intros [? ?]. split_and!; [done..|set_solver].
Qed.

(** The error names a position [i] such that every handle before it passes, and says what is
    wrong there. *)
Definition offends (self : t) (hs : list Handle.t) (i : nat) (e : TransferError) : Prop :=
  ∃ h, hs !! i = Some h ∧
  match e with
  | THandle j error => j = i ∧
      (get self h = Err error ∨
       ∃ en, get self h = Ok en ∧ Rights.contains (Entry.rights en) Rights.TRANSFER = false ∧
             error = AccessDenied Rights.TRANSFER (Entry.rights en))
  | TDuplicate j => j = i ∧ h ∈ take i hs
  end.

Lemma check_from_Err self pre rest e :
  check_from self (pre ++ rest) (length pre) rest = Err e →
  ∃ i, Forall (transferable self) (take i rest) ∧ NoDup (take i rest) ∧
       (∀ h, h ∈ take i rest → h ∉ pre) ∧ offends self (pre ++ rest) (length pre + i) e.
Proof.
  revert pre. induction rest as [|h rest IH]; intros pre; simpl; [done|].
  rewrite take_app_length. intros Hc. destruct (get self h) as [en|err] eqn:Hg; last first.
  { exists 0%nat. simplify_eq. simpl. split_and!; [constructor|constructor|set_solver|].
    exists h. rewrite Nat.add_0_r, lookup_app_r, Nat.sub_diag by lia. simpl. auto. }
  destruct (Rights.contains (Entry.rights en) Rights.TRANSFER) eqn:Hr; simpl in Hc; last first.
  { exists 0%nat. simplify_eq. simpl. split_and!; [constructor|constructor|set_solver|].
    exists h. rewrite Nat.add_0_r, lookup_app_r, Nat.sub_diag by lia. simpl. eauto 8. }
  destruct (existsb _ pre) eqn:Hd.
  { exists 0%nat. simplify_eq. simpl. split_and!; [constructor|constructor|set_solver|].
    exists h. rewrite Nat.add_0_r, lookup_app_r, Nat.sub_diag by lia. simpl.
    split_and!; auto. rewrite take_app_length. by apply existsb_eqb_elem. }
  assert (h ∉ pre) by (intros ?%existsb_eqb_elem; congruence).
  specialize (IH (pre ++ [h])). rewrite length_app, <-app_assoc in IH. simpl in IH.
  rewrite Nat.add_comm in IH. destruct (IH Hc) as (i & Hf & Hn & Hp & Ho).
  exists (S i). simpl. split_and!.
  - constructor; [by exists en|done].
  - constructor; [|done]. intros Hin. apply (Hp _ Hin). set_solver.
  - intros h' [->|Hin]%elem_of_cons; [done|]. specialize (Hp _ Hin). set_solver.
  - by rewrite Nat.add_succ_r.
Qed.

Lemma move_from_spec self idx hs :
  wf self → Forall Handle.wf hs → Forall (λ h, is_ok (get self h) = true) hs → NoDup hs →
  ∃ self' es, move_from self idx hs = Some (self', zip (seq idx (length hs)) es) ∧ wf self' ∧
    length (slots self') = length (slots self) ∧
    Forall2 (λ h e, get self h = Ok e) hs es ∧
    ∀ h', Handle.wf h' → get self' h' = if decide (h' ∈ hs) then Err BadHandle else get self h'.
Proof.
  revert self idx. induction hs as [|h hs IH]; intros self idx Hwf Hw Hok Hnd; simpl.
  { exists self, []. split_and!; [done..|constructor|]. done. }
  apply Forall_cons in Hw as [Hh Hw]. apply Forall_cons in Hok as [Hok1 Hok].
  apply NoDup_cons in Hnd as [Hni Hnd].
  destruct (get self h) as [e|] eqn:Hg; [|done].
  pose proof Hg as (s & Hi & Hge & He)%get_Ok. rewrite Hi, He.
  assert (occupied s = true) as Ho by (unfold occupied; by rewrite He).
  rewrite (live_pos _ _ _ Hwf Hi Ho). simpl.
  change {| slots := _; live := _ |} with (vacated self (Handle.index h) s).
  destruct (IH (vacated self (Handle.index h) s) (S idx)) as (self' & es & Hm & Hwf' & Hlen & Hes & Hget);
    [by apply wf_vacated|done| |done|].
  { rewrite Forall_forall in Hok, Hw |- *. intros x Hx.
    rewrite (get_vacated _ _ _ e) by auto. rewrite decide_False by (intros ->; done). auto. }
  exists self', (e :: es). rewrite Hm. simpl. split_and!; [done|done| | |].
  - rewrite Hlen. simpl. by rewrite length_insert.
  - constructor; [done|]. apply Forall2_same_length_lookup in Hes as [Hl Hes].
    apply Forall2_same_length_lookup. split; [done|]. intros i x y Hx Hy.
    pose proof (Hes i x y Hx Hy) as Hxy. rewrite Forall_lookup in Hw.
    rewrite (get_vacated _ _ _ e) in Hxy by eauto. rewrite decide_False in Hxy; [done|].
    intros ->. apply Hni. by eapply list_elem_of_lookup_2.
  - intros h' Hh'. rewrite Hget, (get_vacated _ _ _ e) by auto.
    repeat case_decide; set_solver.
Qed.

Lemma move_from_entries self idx hs self' sunk :
  move_from self idx hs = Some (self', sunk) → entries self ≡ₚ sunk.*2 ++ entries self'.
Proof.
  revert self idx sunk. induction hs as [|h hs IH]; intros self idx sunk; simpl; [by intros [= <- <-]|].
  destruct (slots self !! Handle.index h) as [s|] eqn:Hi; [|apply IH].
  destruct (entry s) as [e|] eqn:He; [|apply IH].
  destruct (usub (live self) 1) as [l|] eqn:Hl; [|done]. simpl.
  apply usub_Some in Hl as [_ ->]. change {| slots := _; live := _ |} with (vacated self (Handle.index h) s).
  destruct (move_from _ (S idx) hs) as [[self'' sunk']|] eqn:Hm; [|done]. simpl. intros [= <- <-]. simpl.
  rewrite (entries_vacated self _ s e) by done. by rewrite (IH _ _ _ Hm).
Qed.

(** ** Runs of the table

    The operations a process can make on its table, and the table each leaves. *)

Inductive op : Type :=
| OpInsert (object : ObjectId) (kind : ObjectType) (rights : Rights.t)
| OpClose (h : Handle.t)
| OpDuplicate (h : Handle.t) (mask : Rights.t)
| OpTransferOut (h : Handle.t)
| OpTransferMany (handles : list Handle.t).

Definition exec (self : t) (o : op) : option t :=
  match o with
  | OpInsert ob k r => fst <$> insert self ob k r
  | OpClose h => fst <$> close self h
  | OpDuplicate h m => fst <$> duplicate self h m
  | OpTransferOut h => fst <$> transfer_out self h
  | OpTransferMany hs => fst <$> transfer_out_many self hs
  end.

(** Handle values come from a [u32]. *)
Definition op_wf (o : op) : Prop :=
  match o with
  | OpInsert _ _ _ => True
  | OpClose h | OpDuplicate h _ | OpTransferOut h => Handle.wf h
  | OpTransferMany hs => Forall Handle.wf hs
  end.

Inductive step : t → t → Prop :=
| step_exec self o self' : op_wf o → exec self o = Some self' → step self self'.

(** Every operation either leaves the table alone, fills one vacant slot with an entry it is
    allowed to make, or vacates occupied slots one after another. *)
Inductive change (self : t) (allowed : Entry.t → Prop) : t → Prop :=
| change_none : change self allowed self
| change_fill i s e : slots self !! i = Some s → vacant s = true → allowed e →
    change self allowed (filled self i s e)
| change_vacate i s self' : slots self !! i = Some s → occupied s = true →
    change (vacated self i s) (λ _, False) self' → change self allowed self'.

Lemma change_weaken self (P Q : Entry.t → Prop) self' :
  (∀ e, P e → Q e) → change self P self' → change self Q self'.
Proof. destruct 2; econstructor; eauto. Qed.

Lemma change_wf self P self' : change self P self' → wf self → wf self'.
Proof. induction 1; intros; eauto using wf_filled, wf_vacated. Qed.

Lemma change_length self P self' :
  change self P self' → length (slots self') = length (slots self).
Proof.
  induction 1; simpl; [done|by rewrite length_insert|].
  rewrite IHchange. simpl. by rewrite length_insert.
Qed.

Lemma change_close self h r self' :
  wf self → close self h = Some (self', r) → change self (λ _, False) self'.
Proof.
  intros Hwf Hc. destruct (get self h) as [e|err] eqn:Hg.
  - destruct (close_Ok _ _ _ Hwf Hg) as (s & Hi & _ & He & Hc'). rewrite Hc in Hc'. simplify_eq.
    econstructor; [done| |constructor]. unfold occupied. by rewrite He.
  - rewrite (close_Err _ _ _ Hg) in Hc. simplify_eq. constructor.
Qed.

Lemma change_insert self o k r res self' :
  insert self o k r = Some (self', res) →
  change self (λ e, e = Entry.Build o k r) self'.
Proof.
  intros Hc. destruct (insert_cases self o k r) as [[_ E]|(i & s & Hi & Hv & E)];
    rewrite E in Hc; simplify_eq; [constructor|by econstructor].
Qed.

Lemma change_move self idx hs self' sunk :
  wf self → move_from self idx hs = Some (self', sunk) → change self (λ _, False) self'.
Proof.
  revert self idx sunk. induction hs as [|h hs IH]; intros self idx sunk Hwf; simpl.
  { intros; simplify_eq; constructor. }
  destruct (slots self !! Handle.index h) as [s|] eqn:Hi; [|by apply IH].
  destruct (entry s) as [e|] eqn:He; [|by apply IH].
  assert (occupied s = true) as Ho by (unfold occupied; by rewrite He).
  rewrite (live_pos _ _ _ Hwf Hi Ho). simpl.
  intros ([self'' sunk'] & Hm & ?)%bind_Some. simplify_eq.
  econstructor; [done..|]. eapply IH; [|done]. by apply wf_vacated.
Qed.

(** What [insert] or [duplicate] may write: an entry an [OpInsert] names, or a live entry
    with fewer rights. *)
Definition op_allows (self : t) (o : op) (e : Entry.t) : Prop :=
  match o with
  | OpInsert ob k r => e = Entry.Build ob k r
  | OpDuplicate h m => ∃ e0, get self h = Ok e0 ∧
      Rights.contains (Entry.rights e0) Rights.DUPLICATE = true ∧
      e = Entry.Build (Entry.object e0) (Entry.kind e0) (Rights.narrow (Entry.rights e0) m)
  | _ => False
  end.

Lemma exec_change self o self' :
  wf self → exec self o = Some self' → change self (op_allows self o) self'.
Proof.
  intros Hwf. destruct o as [ob k r|h|h m|h|hs]; simpl.
  - intros ([? ?] & Hc & ->)%fmap_Some. by eapply change_insert.
  - intros ([? ?] & Hc & ->)%fmap_Some. by eapply change_close.
  - intros ([? ?] & Hc & ->)%fmap_Some. unfold duplicate in Hc.
    destruct (get self h) as [e|] eqn:Hg; [|simplify_eq; constructor].
    destruct (Rights.contains _ _) eqn:Hr; simpl in Hc; [|simplify_eq; constructor].
    eapply change_weaken; [|by eapply change_insert]. simpl. intros ? ->. eauto.
  - intros ([? ?] & Hc & ->)%fmap_Some. unfold transfer_out in Hc.
    destruct (get self h) as [e|] eqn:Hg; [|simplify_eq; constructor].
    destruct (Rights.contains _ _) eqn:Hr; simpl in Hc; [|simplify_eq; constructor].
    by eapply change_close.
  - intros ([? ?] & Hc & ->)%fmap_Some. unfold transfer_out_many in Hc.
    destruct (check_transfer_out_many self hs); [|simplify_eq; constructor].
    apply bind_Some in Hc as ([? ?] & Hm & ?). simplify_eq. by eapply change_move.
Qed.

Lemma exec_is_Some self o : wf self → op_wf o → is_Some (exec self o).
Proof.
  intros Hwf Ho.
  assert (∀ h, is_Some (close self h)) as Hclose.
  { intros h. destruct (get self h) as [e|] eqn:Hg.
    - destruct (close_Ok _ _ _ Hwf Hg) as (s & _ & _ & _ & ->). eauto.
    - rewrite (close_Err _ _ _ Hg). eauto. }
  assert (∀ ob k r, is_Some (insert self ob k r)) as Hins.
  { intros ob k r. destruct (insert_cases self ob k r) as [[_ ->]|(?&?&_&_&->)]; eauto. }
  destruct o as [ob k r|h|h m|h|hs]; simpl in *; rewrite fmap_is_Some; auto.
  - unfold duplicate. destruct (get self h); [|eauto]. case_match; eauto.
  - unfold transfer_out. destruct (get self h); [|eauto]. case_match; eauto.
  - unfold transfer_out_many. destruct (check_transfer_out_many self hs) as [[]|] eqn:Hc; [|eauto].
    apply check_Ok in Hc as [Hf Hn].
    destruct (move_from_spec self 0 hs) as (self' & es & -> & _); simpl; eauto.
    eapply Forall_impl; [done|]. intros h (e & -> & _). done.
Qed.

(** [dead self h]: the handle names a generation its slot has left behind. *)
Definition dead (self : t) (h : Handle.t) : Prop :=
  ∃ s, slots self !! Handle.index h = Some s ∧
    (Handle.generation h < generation s ∨ (Handle.generation h = generation s ∧ retired s = true)).

Lemma dead_get self h : wf self → dead self h → get self h = Err BadHandle.
Proof.
  intros Hwf (s & Hi & Hd). unfold get. rewrite Hi.
  destruct (Z.eqb_spec (generation s) (Handle.generation h)) as [E|]; [|done]. simpl.
  destruct Hd as [?|[_ Hr]]; [lia|]. destruct (slot_at _ _ _ Hwf Hi) as [[_ Hs] _].
  by rewrite Hs.
Qed.

Lemma dead_change self P self' h : change self P self' → wf self → dead self h → dead self' h.
Proof.
  induction 1 as [|self P i s e Hi Hv _|self P i s self' Hi Ho _ IH]; intros Hwf Hd; [done| |].
  - destruct Hd as (s' & Hi' & Hd). unfold dead, filled. simpl.
    destruct (decide (i = Handle.index h)) as [->|].
    + rewrite list_lookup_insert_eq by (by eapply lookup_lt_Some). simplify_eq. eauto.
    + rewrite list_lookup_insert_ne by done. eauto.
  - apply IH; [by apply wf_vacated|]. destruct Hd as (s' & Hi' & Hd). unfold dead, vacated. simpl.
    destruct (decide (i = Handle.index h)) as [->|].
    + rewrite list_lookup_insert_eq by (by eapply lookup_lt_Some). simplify_eq.
      eexists. split; [done|]. destruct (slot_at _ _ _ Hwf Hi) as [[(g & E & Hg) Hs] _].
      rewrite (advance_cases _ g) by done. case_decide; simpl; [|rewrite E in Hd; destruct Hd; lia].
      rewrite E in Hd. destruct Hd as [|[? _]]; [by left|by right].
    + rewrite list_lookup_insert_ne by done. eauto.
Qed.

Lemma close_dead self h e self' :
  wf self → Handle.wf h → close self h = Some (self', Ok e) → dead self' h.
Proof.
  intros Hwf Hh Hc. destruct (get self h) as [e'|] eqn:Hg.
  2:{ rewrite (close_Err _ _ _ Hg) in Hc. done. }
  destruct (close_Ok _ _ _ Hwf Hg) as (s & Hi & Hge & He & Hc'). rewrite Hc in Hc'. simplify_eq.
  unfold dead, vacated. simpl. rewrite list_lookup_insert_eq by (by eapply lookup_lt_Some).
  eexists. split; [done|]. destruct (slot_at _ _ _ Hwf Hi) as [[(g & E & Hgb) Hs] _].
  rewrite (advance_cases _ g) by done. rewrite <-Hge, E. case_decide; simpl; [by right|left; lia].
Qed.

Fixpoint run (self : t) (ops : list op) : option t :=
  match ops with
  | [] => Some self
  | o :: ops => self' ← exec self o; run self' ops
  end.

Lemma run_invariant (P : t → Prop) self ops self' :
  (∀ a o b, o ∈ ops → P a → exec a o = Some b → P b) → P self → run self ops = Some self' → P self'.
Proof.
  revert self. induction ops as [|o ops IH]; intros self Hstep Hp; simpl; [by intros [= <-]|].
  intros (b & Hb & Hr)%bind_Some. eapply IH; [|by eapply Hstep; [left|..]|done].
  intros a o' b' Ho'. apply Hstep. by right.
Qed.

Lemma run_wf self ops self' : wf self → run self ops = Some self' → wf self'.
Proof.
  intros Hwf. apply (run_invariant wf); [|done].
  intros a o b _ Ha Hb. eapply change_wf; [by eapply exec_change|done].
Qed.

Lemma length_omap_entry (l : list Slot) : length (omap entry l) = count_if occupied l.
Proof.
  induction l as [|s l IH]; csimpl; [done|].
  assert (occupied s = match entry s with Some _ => true | None => false end) as -> by done.
  destruct (entry s); csimpl; lia.
Qed.

Lemma occupied_vacant_le (l : list Slot) :
  (count_if occupied l + count_if vacant l ≤ length l)%nat.
Proof.
  induction l as [|s l IH]; simpl; [lia|].
  assert (occupied s = true → vacant s = false) as Hov.
  { unfold occupied, vacant. by destruct (entry s). }
  destruct (occupied s); [rewrite Hov by done|destruct (vacant s)]; lia.
Qed.

(** C15. a handle table never panics and keeps its invariant. From a fresh table, any sequence
    of operations on any [u32] handle values runs to completion, and afterwards [len] is the
    number of live entries, and live and free slots together never exceed the capacity. *)
Theorem handle_table_total (N : nat) (t0 : t) (ops : list op)
    (Hnew : new N = Some t0) (Hops : Forall op_wf ops) :
  ∃ self, run t0 ops = Some self ∧ wf self ∧ length (slots self) = N ∧
    len self = length (entries self) ∧ (len self + free_slots self ≤ N)%nat.
Proof.
  destruct (wf_new _ _ Hnew) as [Hwf HN]. clear Hnew. revert t0 Hwf HN.
  induction Hops as [|o ops Ho _ IH]; intros self Hwf HN; simpl.
  - exists self. split_and!; auto; unfold len, entries; rewrite (wf_live _ Hwf).
    + by rewrite length_omap_entry.
    + rewrite <-HN. apply occupied_vacant_le.
  - destruct (exec_is_Some self o Hwf Ho) as [self1 E]. rewrite E. simpl.
    pose proof (exec_change _ _ _ Hwf E) as Hch. apply IH; [by eapply change_wf|].
    by rewrite (change_length _ _ _ Hch).
Qed.

Lemma handle_table_total_witness : ∃ self,
  (t0 ← new 4; run t0 [OpInsert 7 Channel Rights.ALL; OpDuplicate 1024 Rights.READ; OpClose 0])
    = Some self ∧ len self = 2%nat.
Proof.
  destruct (handle_table_total 4 _
    [OpInsert 7 Channel Rights.ALL; OpDuplicate 1024 Rights.READ; OpClose 0] eq_refl)
    as (self & Hr & _ & _ & Hl & _).
  { repeat constructor; by vm_compute. }
  exists self. split; [exact Hr|]. vm_compute in Hr. injection Hr as <-. reflexivity.
Defined.

(** C5. the table is a partial map from handle values to entries, read by [get]. [insert]
    succeeds exactly when [free_slots] is not zero: its handle was invalid before and names
    the new entry afterwards, every other handle value means what it meant, and one free slot
    fewer is left; a full table is unchanged. [close] removes exactly the handle it is given,
    which is invalid at once, and refuses one that is not live without changing anything. *)
Theorem handle_table_refines_map (self : t) (o : ObjectId) (k : ObjectType) (r : Rights.t) (h : Handle.t)
    (Hwf : wf self) (Hh : Handle.wf h) :
  ((free_slots self = 0%nat ∧ insert self o k r = Some (self, Err TableFull)) ∨
  (∃ self' h, insert self o k r = Some (self', Ok h) ∧ wf self' ∧ Handle.wf h ∧
     get self h = Err BadHandle ∧
     (∀ h', Handle.wf h' →
        get self' h' = if decide (h' = h) then Ok (Entry.Build o k r) else get self h') ∧
     free_slots self = S (free_slots self') ∧ len self' = S (len self))) ∧
  (match get self h with
  | Err e => close self h = Some (self, Err BadHandle)
  | Ok e => ∃ self', close self h = Some (self', Ok e) ∧ wf self' ∧
      (∀ h', Handle.wf h' →
         get self' h' = if decide (h' = h) then Err BadHandle else get self h') ∧
      len self = S (len self')
  end).
Proof.
  split.
  { destruct (insert_cases self o k r) as [?|(i & s & Hi & Hv & E)]; [by left|right].
  eexists _, _. split; [done|]. destruct (fresh_handle _ _ _ Hwf Hi) as (Hw & _).
  split_and!; eauto using wf_filled, get_vacant_slot.
  - intros h' Hh'. by apply get_filled.
  - rewrite <-(free_slots_filled self i s (Entry.Build o k r) Hi Hv). lia.
  - unfold len, filled. simpl. lia. }
  { destruct (get self h) as [e|err] eqn:Hg.
  - destruct (close_Ok _ _ _ Hwf Hg) as (s & Hi & Hge & He & ->). eexists. split; [done|].
    assert (occupied s = true) as Ho by (unfold occupied; by rewrite He).
    split_and!; [by apply wf_vacated| |].
    + intros h' Hh'. by eapply get_vacated.
    + pose proof (live_pos _ _ _ Hwf Hi Ho) as [? _]%usub_Some. unfold len, vacated. simpl. lia.
  - rewrite (close_Err _ _ _ Hg). by rewrite (get_Err _ _ _ Hg). }
Qed.

Lemma handle_table_refines_map_witness : ∃ self self' e,
  get self 1024 = Ok e ∧ close self 1024 = Some (self', Ok e) ∧ get self' 1024 = Err BadHandle.
Proof.
  exists {| slots := [{| generation := 1024; entry := Some (Entry.Build 5 Event 0); retired := false |}];
            live := 1 |}.
  pose proof (handle_table_refines_map
    {| slots := [{| generation := 1024; entry := Some (Entry.Build 5 Event 0); retired := false |}];
       live := 1 |} 7 Event 0 1024) as H.
  destruct H as [_ (self' & Hc & _ & Hget & _)].
  - split; [vm_compute; lia| |reflexivity]. constructor; [|constructor].
    split; [exists 1; by vm_compute|done].
  - split; by vm_compute.
  - exists self', (Entry.Build 5 Event 0). split; [reflexivity|]. split; [exact Hc|].
    rewrite Hget by (split; by vm_compute). reflexivity.
Defined.

(** C6. no use after close through slot reuse. Once a handle has been closed, no later
    sequence of operations on the table, of any length, makes its value name anything again,
    whatever object its slot has been given since; and zero is never a valid handle. *)
Theorem stale_handle_never_valid (self self' : t) (h : Handle.t) (e : Entry.t)
    (ops : list op) (final : t) (Hwf : wf self) (Hh : Handle.wf h)
    (Hclose : close self h = Some (self', Ok e)) (Hrun : run self' ops = Some final) :
  get final h = Err BadHandle ∧ get final 0 = Err BadHandle.
Proof.
  assert (wf self') as Hwf' by (eapply change_wf; [by eapply change_close|done]).
  assert (wf final ∧ dead final h) as [Hwff Hd].
  { eapply (run_invariant (λ a, wf a ∧ dead a h)); [|split; [done|by eapply (close_dead self)]|done].
    intros a o b _ [Ha Hda] Hb. pose proof (exec_change _ _ _ Ha Hb) as Hch.
    split; [by eapply change_wf|by eapply dead_change]. }
  split; [by apply dead_get|]. unfold get.
  destruct (slots final !! Handle.index 0) as [s|] eqn:Hi; [|done].
  destruct (slot_at _ _ _ Hwff Hi) as [[(g & E & Hg) _] _].
  destruct (Z.eqb_spec (generation s) (Handle.generation 0)) as [Eg|]; [|done].
  change (Handle.generation 0) with 0 in Eg. lia.
Qed.

Definition two_slots : t :=
  {| slots := [{| generation := 1024; entry := Some (Entry.Build 1 Channel Rights.ALL); retired := false |};
               {| generation := 1024; entry := None; retired := false |}]; live := 1 |}.

Lemma two_slots_wf : wf two_slots.
Proof.
  split; [vm_compute; lia| |reflexivity].
  do 2 (constructor; [split; [exists 1; by vm_compute|done]|]). constructor.
Qed.

(** Closing handle 1024 and opening another object in the same slot. *)
Lemma stale_handle_never_valid_witness : ∃ self' final,
  close two_slots 1024 = Some (self', Ok (Entry.Build 1 Channel Rights.ALL)) ∧
  run self' [OpInsert 2 Process Rights.ALL] = Some final ∧
  get final 2048 = Ok (Entry.Build 2 Process Rights.ALL) ∧ get final 1024 = Err BadHandle.
Proof.
  eexists _, _. split; [reflexivity|]. split; [reflexivity|]. split; [reflexivity|].
  eapply (stale_handle_never_valid two_slots _ 1024 _ [OpInsert 2 Process Rights.ALL] _
    two_slots_wf).
  - split; by vm_compute.
  - reflexivity.
  - reflexivity.
Defined.

(** The reference for a move of many handles: [transfer_out] on each in turn. *)
Fixpoint transfer_each (self : t) (index : nat) (handles : list Handle.t) :
    option (t * result (list (nat * Entry.t)) TransferError) :=
  match handles with
  | [] => Some (self, Ok [])
  | h :: handles =>
      '(self', r) ← transfer_out self h;
      match r with
      | Err e => Some (self', Err (THandle index e))
      | Ok e =>
          '(self'', rs) ← transfer_each self' (S index) handles;
          match rs with
          | Ok sunk => Some (self'', Ok ((index, e) :: sunk))
          | Err err => Some (self'', Err err)
          end
      end
  end.

Lemma move_from_each self idx hs :
  wf self → Forall Handle.wf hs → Forall (transferable self) hs → NoDup hs →
  transfer_each self idx hs = '(self', sunk) ← move_from self idx hs; Some (self', Ok sunk).
Proof.
  revert self idx. induction hs as [|h hs IH]; intros self idx Hwf Hw Hf Hnd; simpl; [done|].
  apply Forall_cons in Hw as [Hh Hw]. apply Forall_cons in Hf as [(e & Hg & Hr) Hf].
  apply NoDup_cons in Hnd as [Hni Hnd].
  destruct (close_Ok _ _ _ Hwf Hg) as (s & Hi & Hge & He & Hc).
  unfold transfer_out. rewrite Hg, Hr, Hc, Hi, He. simpl.
  assert (occupied s = true) as Ho by (unfold occupied; by rewrite He).
  rewrite (live_pos _ _ _ Hwf Hi Ho). simpl.
  change {| slots := _; live := _ |} with (vacated self (Handle.index h) s).
  rewrite IH; [|by apply wf_vacated|done| |done].
  - destruct (move_from _ _ hs) as [[? ?]|]; done.
  - rewrite Forall_forall in Hf, Hw |- *. intros x Hx. destruct (Hf x Hx) as (e' & Hg' & Hr').
    exists e'. rewrite (get_vacated _ _ _ e) by auto. rewrite decide_False by (intros ->; done). done.
Qed.

(** [transfer_out_many] is all or nothing. If every listed handle is live and carries
    [TRANSFER] and none is listed twice, it does what one [transfer_out] per handle would do:
    the sink gets every entry with its position, in list order, exactly the listed handles
    become invalid and nothing else changes. Otherwise the table is untouched and the error
    names the first offending position. *)
Theorem transfer_out_many_all_or_nothing (self : t) (hs : list Handle.t)
    (Hwf : wf self) (Hhs : Forall Handle.wf hs) :
  (Forall (transferable self) hs ∧ NoDup hs ∧
   ∃ self' es,
     transfer_out_many self hs = Some (self', Ok (zip (seq 0 (length hs)) es)) ∧
     transfer_each self 0 hs = transfer_out_many self hs ∧ wf self' ∧
     Forall2 (λ h e, get self h = Ok e) hs es ∧
     ∀ h', Handle.wf h' → get self' h' = if decide (h' ∈ hs) then Err BadHandle else get self h')
  ∨
  (∃ e i, transfer_out_many self hs = Some (self, Err e) ∧
     Forall (transferable self) (take i hs) ∧ NoDup (take i hs) ∧ offends self hs i e).
Proof.
  unfold transfer_out_many at 1 3.
  destruct (check_transfer_out_many self hs) as [[]|e] eqn:Hc.
  - left. pose proof Hc as [Hf Hn]%check_Ok. split_and!; [done..|].
    destruct (move_from_spec self 0 hs) as (self' & es & Hm & Hwf' & _ & Hes & Hget); [done..| |done|].
    { eapply Forall_impl; [done|]. intros h (e & -> & _). done. }
    exists self', es. rewrite Hm. simpl. split_and!; try done.
    rewrite move_from_each by done. unfold transfer_out_many. by rewrite Hc.
  - right. pose proof (check_from_Err self [] hs e Hc) as (i & Hf & Hn & _ & Ho).
    exists e, i. done.
Qed.

Lemma transfer_out_many_all_or_nothing_witness :
  ∃ self', transfer_out_many two_slots [1024] =
    Some (self', Ok [(0%nat, Entry.Build 1 Channel Rights.ALL)]) ∧
    transfer_out_many two_slots [1024; 1024] = Some (two_slots, Err (TDuplicate 1)).
Proof.
  destruct (transfer_out_many_all_or_nothing two_slots [1024]) as
    [(_ & _ & self' & es & Ht & _ & _ & Hes & _)|(e & i & Ht & _)].
  - apply two_slots_wf.
  - repeat constructor; by vm_compute.
  - exists self'. split; [|reflexivity]. rewrite Ht.
    apply Forall2_cons_inv_l in Hes as (e & es' & He & Hes' & ->).
    apply Forall2_nil_inv_l in Hes' as ->. vm_compute in He. injection He as <-. reflexivity.
  - vm_compute in Ht. discriminate Ht.
Defined.

(** Every live entry for object [o] carries at most [R]. *)
Definition confined (o : ObjectId) (R : Rights.t) (self : t) : Prop :=
  ∀ h e, Handle.wf h → get self h = Ok e → Entry.object e = o →
    Rights.contains R (Entry.rights e) = true.

Definition grants (o : ObjectId) (R : Rights.t) (x : op) : Prop :=
  match x with
  | OpInsert ob _ r => ob = o → Rights.contains R r = true
  | _ => True
  end.

Lemma confined_change o R self P self' :
  change self P self' → wf self → (∀ e, P e → Entry.object e = o → Rights.contains R (Entry.rights e) = true) →
  confined o R self → confined o R self'.
Proof.
  induction 1 as [|self P i s e Hi Hv He|self P i s self' Hi Ho _ IH]; intros Hwf HP Hc; [done| |].
  - intros h' e' Hh'. rewrite get_filled by done. case_decide; [|by apply Hc].
    intros [= <-]. by apply HP.
  - apply IH; [by apply wf_vacated|done|]. intros h' e' Hh' Hg. apply (Hc h'); [done|].
    unfold occupied in Ho. destruct (entry s) as [e|] eqn:He; [|done].
    destruct (fresh_handle _ _ _ Hwf Hi) as (Hw & Hix & Hge).
    rewrite <-Hix in Hi. rewrite <-Hix in Hg at 1.
    rewrite (get_vacated self _ s e) in Hg by done. by case_decide.
Qed.

(** C16. rights are never amplified. However a process duplicates, narrows, moves and closes
    its handles, it never holds more over an object than the rights its live handles carried
    at the start and the rights the kernel inserted along the way. *)
Theorem rights_never_amplified (o : ObjectId) (R : Rights.t) (self final : t) (ops : list op)
    (Hwf : wf self) (Hops : Forall op_wf ops) (Hstart : confined o R self)
    (Hgrant : Forall (grants o R) ops) (Hrun : run self ops = Some final) :
  confined o R final.
Proof.
  assert (wf final ∧ confined o R final) as [_ ?]; [|done].
  eapply (run_invariant (λ a, wf a ∧ confined o R a)); [|by split|done].
  intros a x b Hx [Ha Hca] Hb. rewrite Forall_forall in Hgrant, Hops.
  specialize (Hgrant _ Hx). specialize (Hops _ Hx). pose proof (exec_change _ _ _ Ha Hb) as Hch.
  split; [by eapply change_wf|]. eapply confined_change; [done..| |done].
  intros e Hal Hob. destruct x as [ob k r|h|h m|h|hs]; simpl in *; [|done| |done|done].
  - subst e. by apply Hgrant.
  - destruct Hal as (e0 & Hg & _ & ->). simpl in *.
    eapply Rights.contains_trans; [by eapply Hca|apply Rights.contains_narrow].
Qed.

Lemma rights_never_amplified_witness : ∃ final,
  run two_slots [OpDuplicate 1024 (Rights.union Rights.READ Rights.DUPLICATE)] = Some final ∧
  confined 1 Rights.ALL final.
Proof.
  eexists. split; [reflexivity|].
  eapply (rights_never_amplified 1 Rights.ALL two_slots _
    [OpDuplicate 1024 (Rights.union Rights.READ Rights.DUPLICATE)]).
  - apply two_slots_wf.
  - repeat constructor; by vm_compute.
  - intros h e _ (s & Hi & _ & He)%get_Ok _.
    destruct (Handle.index h) as [|[|n]]; simplify_eq/=; reflexivity.
  - repeat constructor.
  - reflexivity.
Defined.

(** ** How long a table lasts *)

(** [n] open/close cycles of one object: [None] once an [insert] is refused. *)
Fixpoint cycles (o : ObjectId) (k : ObjectType) (r : Rights.t) (n : nat) (self : t) : option t :=
  match n with
  | O => Some self
  | S n =>
      '(t1, res) ← insert self o k r;
      match res with
      | Err _ => None
      | Ok h => '(t2, closed) ← close t1 h;
                if is_ok closed then cycles o k r n t2 else None
      end
  end.

(** Cycles a vacant slot has left, and a whole table. *)
Definition slot_budget (s : Slot) : Z :=
  if retired s then 0 else MAX_GENERATION - Z.shiftr (generation s) INDEX_BITS.
Definition budget (l : list Slot) : Z := foldr (λ s b, slot_budget s + b) 0 l.

Lemma budget_insert l i s s' :
  l !! i = Some s → budget (<[i:=s']> l) + slot_budget s = budget l + slot_budget s'.
Proof.
  revert i. induction l as [|x l IH]; intros [|i]; simpl; intros Hi; simplify_eq; [lia|].
  specialize (IH _ Hi). lia.
Qed.

Lemma slot_budget_gen s g :
  generation s = g * 1024 → slot_budget s = if retired s then 0 else MAX_GENERATION - g.
Proof.
  intros E. unfold slot_budget, INDEX_BITS. rewrite E, Z.shiftr_div_pow2 by done.
  change (2 ^ 10) with 1024. by rewrite Z.div_mul.
Qed.

Lemma slot_budget_advance s :
  slot_wf s → retired s = false → slot_budget (advance (take_entry s)) = slot_budget s - 1.
Proof.
  intros [(g & E & Hg) _] Hr. rewrite (slot_budget_gen s g E), Hr.
  rewrite (advance_cases _ g) by done. case_decide.
  - unfold slot_budget. simpl. lia.
  - rewrite (slot_budget_gen _ (g + 1)) by done. simpl. rewrite Hr. lia.
Qed.

Lemma slot_budget_nonneg s : slot_wf s → 0 ≤ slot_budget s ∧ (retired s = false → 0 < slot_budget s).
Proof.
  intros [(g & E & Hg) _]. rewrite (slot_budget_gen s g E). destruct (retired s); [done|]. lia.
Qed.

Lemma budget_nonneg l : Forall slot_wf l → 0 ≤ budget l.
Proof.
  induction 1 as [|s l Hs _ IH]; simpl; [done|]. pose proof (slot_budget_nonneg s Hs). lia.
Qed.

Lemma budget_pos l : Forall slot_wf l → (∃ i s, l !! i = Some s ∧ retired s = false) → 0 < budget l.
Proof.
  intros Hl (i & s & Hi & Hr). pose proof (Forall_lookup_1 _ _ _ _ Hl Hi) as Hs.
  revert i Hi. induction Hl as [|x l Hx Hl IH]; intros [|i] Hi; simplify_eq/=.
  - pose proof (slot_budget_nonneg s Hs). pose proof (budget_nonneg l Hl). intuition lia.
  - pose proof (slot_budget_nonneg x Hx). specialize (IH _ Hi). lia.
Qed.

Lemma budget_none_vacant l : (∀ i s, l !! i = Some s → retired s = true) → budget l = 0.
Proof.
  intros H. induction l as [|s l IH]; [done|]. simpl. rewrite IH by (intros i; apply (H (S i))).
  unfold slot_budget. by rewrite (H 0%nat s eq_refl).
Qed.

(** One cycle on a table that holds nothing spends exactly one unit of budget. *)
Lemma cycle_budget o k r self n :
  wf self → live self = 0%nat →
  if decide (0 < budget (slots self))
  then ∃ self', cycles o k r (S n) self = cycles o k r n self' ∧ wf self' ∧ live self' = 0%nat ∧
       budget (slots self') = budget (slots self) - 1
  else cycles o k r (S n) self = None.
Proof.
  intros Hwf Hl. assert (∀ i s, slots self !! i = Some s → entry s = None) as Hempty.
  { intros i s Hi. destruct (entry s) eqn:E; [|done]. exfalso.
    assert (occupied s = true) as Ho by (unfold occupied; by rewrite E).
    pose proof (live_pos _ _ _ Hwf Hi Ho) as [? _]%usub_Some. lia. }
  cbn [cycles]. destruct (insert_cases self o k r) as [[Hf ->]|(i & s & Hi & Hv & ->)]; simpl.
  - rewrite decide_False; [done|]. rewrite budget_none_vacant; [lia|]. intros i s Hi.
    destruct (retired s) eqn:E; [done|]. exfalso. unfold free_slots in Hf.
    assert (0 < count_if vacant (slots self))%nat; [|lia]. apply count_if_pos.
    exists i, s. split; [done|]. apply vacant_spec. eauto.
  - pose proof Hv as [He Hr]%vacant_spec. rewrite decide_True by (apply budget_pos; [apply Hwf|eauto]).
    set (e := Entry.Build o k r). pose proof (wf_filled _ _ _ e Hwf Hi Hv) as Hwf1.
    destruct (fresh_handle _ _ _ Hwf Hi) as (Hw & Hix & Hge).
    destruct (close_Ok (filled self i s e) (Handle.new i (generation s)) e Hwf1) as
      (s1 & Hi1 & _ & He1 & ->).
    { rewrite get_filled by done. by rewrite decide_True. }
    simpl. rewrite Hix in *. eexists. split; [done|].
    assert (occupied s1 = true) as Ho by (unfold occupied; by rewrite He1).
    split_and!; [by apply wf_vacated|simpl; lia|].
    unfold filled in Hi1. simpl in Hi1. rewrite list_lookup_insert_eq in Hi1 by (by eapply lookup_lt_Some).
    injection Hi1 as <-. unfold vacated, filled. simpl. rewrite list_insert_insert_eq.
    pose proof (budget_insert _ _ _ (advance (take_entry s)) Hi) as Hb.
    destruct (slot_at _ _ _ Hwf Hi) as [Hs _]. rewrite slot_budget_advance in Hb by done.
    change (take_entry _) with (take_entry s). lia.
Qed.

Lemma cycles_budget o k r n self :
  wf self → live self = 0%nat →
  is_Some (cycles o k r n self) ↔ Z.of_nat n ≤ budget (slots self).
Proof.
  revert self. induction n as [|n IH]; intros self Hwf Hl.
  - simpl. pose proof (budget_nonneg _ (wf_slots _ Hwf)). split; [lia|eauto].
  - pose proof (cycle_budget o k r self n Hwf Hl) as Hc. case_decide.
    + destruct Hc as (self' & -> & Hwf' & Hl' & Hb). rewrite (IH _ Hwf' Hl'), Hb. lia.
    + rewrite Hc. split; [by intros [? ?]|lia].
Qed.

Lemma budget_replicate n s : budget (replicate n s) = Z.of_nat n * slot_budget s.
Proof. induction n; simpl; lia. Qed.

(** C17. a fresh table of [N] slots serves exactly [N * CYCLES_PER_SLOT] open/close cycles and
    refuses the next: every slot is used up to its last generation before it retires, and no
    generation ever wraps around. *)
Theorem table_serves_cycles_per_slot (N : nat) (t0 : t) (o : ObjectId) (k : ObjectType)
    (r : Rights.t) (n : nat) (Hnew : new N = Some t0) :
  is_Some (cycles o k r n t0) ↔ Z.of_nat n ≤ Z.of_nat N * CYCLES_PER_SLOT.
Proof.
  destruct (wf_new _ _ Hnew) as [Hwf _]. unfold new in Hnew. case_decide; [|done].
  injection Hnew as <-. rewrite cycles_budget by done. simpl. rewrite budget_replicate.
  done.
Qed.

Lemma table_serves_cycles_per_slot_witness : ∃ t0, new 1 = Some t0 ∧
  is_Some (cycles 1 Event Rights.READ 2 t0).
Proof.
  eexists. split; [reflexivity|].
  apply (table_serves_cycles_per_slot 1 _ 1 Event Rights.READ 2 eq_refl). by vm_compute.
Defined.

End HandleTable.
