(* ===== verification/KobjectStore.v ===== *)
(** * The object store

    [kernel/kobject/src/store.rs].  A store holds shared references to objects that live
    elsewhere, counts the references to each, and calls the owner's [destroy] when the last is
    gone.  Each operation runs under the store's lock, so one operation is one step.  The
    [ObjRef]s a caller holds are not part of the store: [world] adds them, so that the
    invariant can relate the counts to the references that exist. *)

From S2P Require Import Prelude KobjectRights KobjectObject KobjectHandle.
Local Open Scope Z_scope.

Module ObjectStore.

Definition MAX_GENERATION : Z := u32_MAX.

Record Locator := { l_index : Z; l_generation : Z }.

Inductive StoreError : Type :=
| NotFound
| Retiring_
| WrongType (expected found : ObjectType)
| HandleError (e : Handle.Error)
| TooManyRefs
| Full
| Duplicate.

Section Store.
(** The objects; the store only copies references to them. *)
Context {T : Type}.

Inductive State : Type :=
| Free
| Live (object : T)
| Retiring (object : T)
| Worn.

Record Slot := { generation : Z; id : ObjectId; kind : ObjectType; refs : Z; state : State }.

Record Table := { slots : list Slot; live : nat }.

(** A counted reference: [ObjRef], and [Acquired] before it is wrapped. *)
Record ObjRef := { r_index : nat; r_id : ObjectId; r_kind : ObjectType; r_object : T }.

(** [State::Live(_) | State::Retiring(_)] *)
Definition present (s : Slot) : bool :=
  match state s with Live _ | Retiring _ => true | Free | Worn => false end.

Definition is_free (s : Slot) : bool :=
  match state s with Free => true | _ => false end.

(** [ObjectStore::new] *)
Definition new (N : nat) : Table :=
  {| slots := replicate N {| generation := 0; id := 0; kind := Event; refs := 0; state := Free |};
     live := 0 |}.

Definition find (t : Table) (i : ObjectId) : option nat :=
  position (λ s, (id s =? i) && present s) (slots t).

Definition set_refs (s : Slot) (n : Z) : Slot :=
  {| generation := generation s; id := id s; kind := kind s; refs := n; state := state s |}.
Definition set_state (s : Slot) (st : State) : Slot :=
  {| generation := generation s; id := id s; kind := kind s; refs := refs s; state := st |}.
Definition put (t : Table) (i : nat) (s : Slot) : Table :=
  {| slots := <[i:=s]> (slots t); live := live t |}.

(** [Table::release]: drop one reference of slot [index]; the object to destroy, if it was
    the last. *)
Definition release (t : Table) (index : nat) : option (Table * option (ObjectId * T)) :=
  match slots t !! index with
  | None => Some (t, None)
  | Some slot =>
      match checked_sub (refs slot) 1 with
      | None => Some (t, None)
      | Some refs' =>
          if negb (refs' =? 0) then Some (put t index (set_refs slot refs'), None)
          else match state slot with
          | Retiring object =>
              let generation' := wrapping_add 32 (generation slot) 1 in
              let state' := if MAX_GENERATION <=? generation' then Worn else Free in
              live' ← usub (live t) 1;
              Some ({| slots := <[index := {| generation := generation'; id := id slot;
                                              kind := kind slot; refs := refs'; state := state' |}]>
                         (slots t);
                       live := live' |},
                    Some (id slot, object))
          | _ => Some (put t index (set_refs slot refs'), None)
          end
      end
  end.

Definition insert (t : Table) (i : ObjectId) (k : ObjectType) (object : T) :
    Table * result Locator StoreError :=
  match find t i with
  | Some _ => (t, Err Duplicate)
  | None =>
      match position is_free (slots t) with
      | None => (t, Err Full)
      | Some index =>
          match slots t !! index with
          | None => (t, Err Full)
          | Some slot =>
              ({| slots := <[index := {| generation := generation slot; id := i; kind := k;
                                         refs := 1; state := Live object |}]> (slots t);
                  live := live t + 1 |},
               Ok {| l_index := Z.of_nat index mod 2 ^ 32; l_generation := generation slot |})
          end
      end
  end.

(** Take a reference to the live object in slot [index]. *)
Definition acquire (t : Table) (index : nat) : Table * result ObjRef StoreError :=
  match slots t !! index with
  | None => (t, Err NotFound)
  | Some slot =>
      match state slot with
      | Live object =>
          match checked_add 32 (refs slot) 1 with
          | None => (t, Err TooManyRefs)
          | Some refs' =>
              (put t index (set_refs slot refs'),
               Ok {| r_index := index; r_id := id slot; r_kind := kind slot; r_object := object |})
          end
      | Retiring _ => (t, Err Retiring_)
      | Free | Worn => (t, Err NotFound)
      end
  end.

Definition get (t : Table) (i : ObjectId) : Table * result ObjRef StoreError :=
  match find t i with
  | None => (t, Err NotFound)
  | Some index => acquire t index
  end.

Definition get_at (t : Table) (at_ : Locator) (i : ObjectId) : Table * result ObjRef StoreError :=
  let index := Z.to_nat (l_index at_) in
  match slots t !! index with
  | None => (t, Err NotFound)
  | Some slot =>
      if negb (generation slot =? l_generation at_) || negb (id slot =? i)
      then (t, Err NotFound)
      else acquire t index
  end.

(** [resolve]: a reference whose type turns out wrong is dropped again, which releases it. *)
Definition resolve (t : Table) (table : HandleTable.t) (handle : Handle.t) (k : ObjectType)
    (required : Rights.t) : option (Table * option (ObjectId * T) * result ObjRef StoreError) :=
  match HandleTable.get_checked table handle k required with
  | Err e => Some (t, None, Err (HandleError e))
  | Ok entry =>
      match get t (Entry.object entry) with
      | (t', Err e) => Some (t', None, Err e)
      | (t', Ok r) =>
          if decide (r_kind r = k) then Some (t', None, Ok r)
          else
            '(t'', destroyed) ← release t' (r_index r);
            Some (t'', destroyed, Err (WrongType k (r_kind r)))
      end
  end.

Definition retire (t : Table) (i : ObjectId) :
    option (Table * option (ObjectId * T) * result unit StoreError) :=
  match find t i with
  | None => Some (t, None, Err NotFound)
  | Some index =>
      match slots t !! index with
      | None => Some (t, None, Err NotFound)
      | Some slot =>
          match state slot with
          | Live object =>
              '(t', destroyed) ← release (put t index (set_state slot (Retiring object))) index;
              Some (t', destroyed, Ok tt)
          | _ => Some (t, None, Err Retiring_)
          end
      end
  end.

Definition len (t : Table) : nat := live t.
Definition is_empty (t : Table) : bool := (len t =? 0)%nat.

Definition references (t : Table) (i : ObjectId) : option Z :=
  index ← find t i; refs <$> slots t !! index.

(** [ObjRef::try_clone] *)
Definition try_clone (t : Table) (r : ObjRef) : Table * result ObjRef StoreError :=
  match slots t !! r_index r with
  | None => (t, Err NotFound)
  | Some slot =>
      match checked_add 32 (refs slot) 1 with
      | None => (t, Err TooManyRefs)
      | Some refs' => (put t (r_index r) (set_refs slot refs'), Ok r)
      end
  end.

(** ** The store among its callers

    [outs] are the [ObjRef]s that exist, [destroyed] what [destroy] was called with, in
    order, and [inserted] every identity ever inserted. *)

Record world := {
  table : Table;
  outs : list ObjRef;
  destroyed : list (ObjectId * T);
  inserted : list ObjectId;
}.

Inductive step : world → world → Prop :=
(** [insert]; identities come from an [IdSource], which never repeats one. *)
| step_insert w i k o t' r :
    i ∉ inserted w → insert (table w) i k o = (t', r) →
    step w {| table := t'; outs := outs w; destroyed := destroyed w;
              inserted := if is_ok r then i :: inserted w else inserted w |}
(** A lookup that succeeds creates an [ObjRef]. *)
| step_get w i t' r :
    get (table w) i = (t', r) →
    step w {| table := t'; outs := match r with Ok a => [a] | Err _ => [] end ++ outs w;
              destroyed := destroyed w; inserted := inserted w |}
| step_get_at w l i t' r :
    get_at (table w) l i = (t', r) →
    step w {| table := t'; outs := match r with Ok a => [a] | Err _ => [] end ++ outs w;
              destroyed := destroyed w; inserted := inserted w |}
| step_resolve w ht h k rq t' d r :
    resolve (table w) ht h k rq = Some (t', d, r) →
    step w {| table := t'; outs := match r with Ok a => [a] | Err _ => [] end ++ outs w;
              destroyed := destroyed w ++ option_list d; inserted := inserted w |}
| step_clone w a t' r :
    a ∈ outs w → try_clone (table w) a = (t', r) →
    step w {| table := t'; outs := match r with Ok a => [a] | Err _ => [] end ++ outs w;
              destroyed := destroyed w; inserted := inserted w |}
(** An [ObjRef] drops. *)
| step_drop w a rest t' d :
    outs w ≡ₚ a :: rest → release (table w) (r_index a) = Some (t', d) →
    step w {| table := t'; outs := rest;
              destroyed := destroyed w ++ option_list d; inserted := inserted w |}
| step_retire w i t' d r :
    retire (table w) i = Some (t', d, r) →
    step w {| table := t'; outs := outs w;
              destroyed := destroyed w ++ option_list d; inserted := inserted w |}.

Definition start (N : nat) : world :=
  {| table := new N; outs := []; destroyed := []; inserted := [] |}.

(** ** The invariant *)

(** The object a slot holds. *)
Definition obj (s : Slot) : option T :=
  match state s with Live o | Retiring o => Some o | Free | Worn => None end.

Lemma present_obj s : present s = true ↔ is_Some (obj s).
Proof. unfold present, obj. destruct (state s); split; try done; try (by intros [? ?]); eauto. Qed.

(** [n] is the number of [ObjRef]s to the slot. A live object also counts the store's own
    reference; a retiring one is kept only by its holders. *)
Definition slot_ok (n : nat) (s : Slot) : Prop :=
  0 ≤ generation s ≤ MAX_GENERATION ∧ in_u 32 (refs s) ∧
  match state s with
  | Live _ => refs s = 1 + Z.of_nat n
  | Retiring _ => refs s = Z.of_nat n ∧ (0 < n)%nat
  | Free => refs s = 0 ∧ n = 0%nat ∧ generation s < MAX_GENERATION
  | Worn => refs s = 0 ∧ n = 0%nat
  end.

Definition tinv (t : Table) (c : nat → nat) : Prop :=
  (∀ i s, slots t !! i = Some s → slot_ok (c i) s) ∧ live t = count_if present (slots t).

Definition ref_ok (t : Table) (r : ObjRef) : Prop :=
  ∃ s, slots t !! r_index r = Some s ∧ id s = r_id r ∧ kind s = r_kind r ∧
       obj s = Some (r_object r).

Definition slot_id (s : Slot) : option ObjectId := if present s then Some (id s) else None.
Definition present_ids (t : Table) : list ObjectId := omap slot_id (slots t).

Definition refs_at (l : list ObjRef) (i : nat) : nat := count_if (λ r, (r_index r =? i)%nat) l.

Record inv (w : world) : Prop := {
  inv_table : tinv (table w) (refs_at (outs w));
  inv_outs : Forall (ref_ok (table w)) (outs w);
  inv_inserted : inserted w ≡ₚ (destroyed w).*1 ++ present_ids (table w);
  inv_nodup : NoDup (inserted w);
}.

Lemma refs_at_cons r l i : refs_at (r :: l) i = fupd (refs_at l) (r_index r) (S (refs_at l (r_index r))) i.
Proof.
  unfold refs_at, fupd. simpl. destruct (Nat.eqb_spec (r_index r) i); case_decide; subst; try done.
Qed.

Lemma refs_at_perm l k i : l ≡ₚ k → refs_at l i = refs_at k i.
Proof. apply count_if_perm. Qed.

Lemma tinv_ext t c c' : (∀ i, c i = c' i) → tinv t c → tinv t c'.
Proof. intros E [H ?]. split; [|done]. intros i s Hi. rewrite <-E. by apply H. Qed.

Lemma slot_id_obj s s' : id s' = id s → obj s' = obj s → slot_id s' = slot_id s.
Proof.
  intros Hid Ho. unfold slot_id. rewrite Hid. assert (present s' = present s) as ->; [|done].
  pose proof (present_obj s). pose proof (present_obj s'). rewrite Ho in *.
  destruct (present s), (present s'); intuition congruence.
Qed.

(** Replacing a slot by one that holds the same object. *)
Lemma put_spec t i s s' c n :
  tinv t c → slots t !! i = Some s → id s' = id s → kind s' = kind s → obj s' = obj s →
  slot_ok n s' →
  tinv (put t i s') (fupd c i n) ∧ (∀ r, ref_ok t r → ref_ok (put t i s') r) ∧
  present_ids (put t i s') ≡ₚ present_ids t.
Proof.
  intros [Ht Hl] Hi Hid Hk Ho Hok. split_and!.
  - split; simpl.
    + intros j x Hj. unfold fupd. apply list_lookup_insert_Some in Hj as [(->&->&_)|[Hne Hj]].
      * by rewrite decide_True.
      * rewrite decide_False by done. by apply Ht.
    + rewrite Hl. pose proof (count_if_insert present _ _ _ s' Hi) as Hc.
      assert (present s' = present s) as E by
        (pose proof (present_obj s); pose proof (present_obj s'); rewrite Ho in *;
         destruct (present s), (present s'); intuition congruence).
      rewrite E in Hc. lia.
  - intros r (x & Hx & H1 & H2 & H3). unfold ref_ok, put. simpl.
    destruct (decide (i = r_index r)) as [->|].
    + exists s'. rewrite list_lookup_insert_eq by (by eapply lookup_lt_Some). simplify_eq.
      split_and!; congruence.
    + exists x. by rewrite list_lookup_insert_ne.
  - unfold present_ids, put. simpl.
    destruct (omap_insert_Permutation slot_id _ _ _ s' Hi) as (k & E1 & E2).
    rewrite E1, E2. by rewrite (slot_id_obj s s').
Qed.

(** Dropping a reference of a slot that holds an object and has [S n] of them, the store's
    own included in [own]. *)
Lemma release_spec t i s c o :
  tinv t c → slots t !! i = Some s → obj s = Some o → (0 < c i)%nat →
  ∃ t' d, release t i = Some (t', d) ∧ tinv t' (fupd c i (c i - 1)%nat) ∧
    ((d = None ∧ (∀ r, ref_ok t r → ref_ok t' r) ∧ present_ids t' ≡ₚ present_ids t) ∨
     (d = Some (id s, o) ∧ c i = 1%nat ∧ state s = Retiring o ∧
      (∀ r, r_index r ≠ i → ref_ok t r → ref_ok t' r) ∧
      present_ids t ≡ₚ id s :: present_ids t')).
Proof.
  intros Ht Hi Ho Hc. pose proof (proj1 Ht _ _ Hi) as Hs. unfold release. rewrite Hi.
  destruct Hs as (Hg & Hu & Hs). unfold checked_sub.
  assert (1 ≤ refs s) as Hr1.
  { unfold obj in Ho. destruct (state s); [done| | |done]; lia. }
  destruct (Z.leb_spec 1 (refs s)); [|lia].
  destruct (Z.eqb_spec (refs s - 1) 0) as [E|E]; simpl.
  - destruct (state s) as [|o'|o'|] eqn:Est; unfold obj in Ho; rewrite Est in Ho; simplify_eq.
    { exfalso. lia. }
    assert (present s = true) as Hp by (unfold present; by rewrite Est).
    assert (0 < live t)%nat.
    { rewrite (proj2 Ht). apply count_if_pos. eauto. }
    assert (usub (live t) 1 = Some (live t - 1)%nat) as -> by (apply usub_Some; lia). simpl.
    set (s' := {| generation := _ |}). eexists _, _. split; [done|].
    assert (present s' = false) as Hp' by (unfold present, s'; simpl; by destruct (MAX_GENERATION <=? _)).
    assert (slot_ok 0 s') as Hok.
    { unfold slot_ok, s'; simpl. unfold wrapping_add, MAX_GENERATION in *.
      pose proof (Z.mod_pos_bound (generation s + 1) (2 ^ 32)).
      split_and!; [unfold u_max; lia|unfold u_max; lia|split; unfold u_max; lia|].
      destruct (Z.leb_spec u32_MAX ((generation s + 1) mod 2 ^ 32)); split_and!; auto; lia. }
    split_and!.
    + split; simpl.
      * intros j x Hj. unfold fupd. apply list_lookup_insert_Some in Hj as [(->&->&_)|[Hne Hj]].
        -- rewrite decide_True by done. assert (c j - 1 = 0)%nat as -> by lia. done.
        -- rewrite decide_False by done. by apply Ht.
      * pose proof (count_if_insert present _ _ _ s' Hi) as Hcnt. rewrite Hp, Hp' in Hcnt.
        pose proof (proj2 Ht). lia.
    + right. split_and!; [done|lia|done| |].
      * intros r Hne (x & Hx & Hrest). exists x. simpl. by rewrite list_lookup_insert_ne.
      * unfold present_ids. simpl. destruct (omap_insert_Permutation slot_id _ _ _ s' Hi) as (k & E1 & E2).
        rewrite E1, E2. unfold slot_id. by rewrite Hp, Hp'.
  - eexists _, _. split; [done|].
    destruct (put_spec t i s (set_refs s (refs s - 1)) c (c i - 1)%nat) as (H1 & H2 & H3); try done.
    + unfold slot_ok, set_refs. simpl. split_and!; try lia; [split; unfold in_u in Hu; lia|].
      unfold obj in Ho. destruct (state s); [done| | |done]; lia.
    + split; [done|]. by left.
Qed.

(** What a successful lookup does to the table: one more reference to the slot it names. *)
Definition lookup_ok (t : Table) (res : Table * result ObjRef StoreError) : Prop :=
  ∀ c, tinv t c →
  match res with
  | (t', Err _) => t' = t
  | (t', Ok r) => ref_ok t' r ∧ tinv t' (fupd c (r_index r) (S (c (r_index r)))) ∧
      (∀ r', ref_ok t r' → ref_ok t' r') ∧ present_ids t' ≡ₚ present_ids t
  end.

Lemma lookup_ok_incr t i s r :
  slots t !! i = Some s → r_index r = i → r_id r = id s → r_kind r = kind s →
  obj s = Some (r_object r) → refs s + 1 ≤ u32_MAX →
  lookup_ok t (put t i (set_refs s (refs s + 1)), Ok r).
Proof.
  intros Hi Hri Hid Hk Ho Hm c Ht. subst i.
  destruct (put_spec t (r_index r) s (set_refs s (refs s + 1)) c (S (c (r_index r)))) as (H1 & H2 & H3); try done.
  - destruct (proj1 Ht _ _ Hi) as (Hg & Hu & Hs). unfold slot_ok, set_refs. simpl.
    unfold in_u in *. split_and!; try lia. unfold obj in Ho. destruct (state s); [done| | |done]; lia.
  - split_and!; try done. exists (set_refs s (refs s + 1)). unfold put. simpl.
    rewrite list_lookup_insert_eq by (by eapply lookup_lt_Some). done.
Qed.

Lemma acquire_ok t i : lookup_ok t (acquire t i).
Proof.
  unfold acquire. destruct (slots t !! i) as [s|] eqn:Hi; [|by intros c _].
  destruct (state s) as [|o|o|] eqn:Hs; try (by intros c _).
  destruct (checked_add 32 (refs s) 1) as [n|] eqn:Hn; [|by intros c _].
  apply checked_add_Some in Hn as [-> Hm]. apply lookup_ok_incr; try done.
  unfold obj. by rewrite Hs.
Qed.

Lemma get_ok t i : lookup_ok t (get t i).
Proof. unfold get. destruct (find t i); [apply acquire_ok|by intros c _]. Qed.

Lemma get_at_ok t l i : lookup_ok t (get_at t l i).
Proof.
  unfold get_at. destruct (slots t !! _); [|by intros c _].
  case_match; [by intros c _|apply acquire_ok].
Qed.

Lemma try_clone_ok t r : ref_ok t r → lookup_ok t (try_clone t r).
Proof.
  intros (s & Hi & H1 & H2 & H3). unfold try_clone. rewrite Hi.
  destruct (checked_add 32 (refs s) 1) as [n|] eqn:Hn; [|by intros c _].
  apply checked_add_Some in Hn as [-> Hm]. by apply lookup_ok_incr.
Qed.

Lemma inv_gain w t' r :
  inv w → lookup_ok (table w) (t', r) →
  inv {| table := t'; outs := match r with Ok a => [a] | Err _ => [] end ++ outs w;
         destroyed := destroyed w; inserted := inserted w |}.
Proof.
  intros [Ht Ho Hi Hn] Hl. specialize (Hl _ Ht). destruct r as [r|e]; [|subst; by split].
  destruct Hl as (Hr & Ht' & Hmono & Hids). split; simpl; try done.
  - eapply tinv_ext; [|exact Ht']. intros j. by rewrite refs_at_cons.
  - constructor; [done|]. by eapply Forall_impl.
  - by rewrite Hids.
Qed.

Lemma refs_at_index l r : r ∈ l → (0 < refs_at l (r_index r))%nat.
Proof.
  intros [i Hi]%list_elem_of_lookup. apply count_if_pos. exists i, r.
  by rewrite Nat.eqb_refl.
Qed.

Lemma refs_at_zero l i r : refs_at l i = 0%nat → r ∈ l → r_index r ≠ i.
Proof. intros Hz Hr <-. pose proof (refs_at_index l r Hr). lia. Qed.

Lemma inv_drop w a rest :
  inv w → outs w ≡ₚ a :: rest →
  ∃ t' d, release (table w) (r_index a) = Some (t', d) ∧
    inv {| table := t'; outs := rest; destroyed := destroyed w ++ option_list d;
           inserted := inserted w |}.
Proof.
  intros [Ht Ho Hi Hn] Hp.
  assert (ref_ok (table w) a) as (s & Hs & H1 & H2 & H3).
  { rewrite Hp in Ho. by apply Forall_cons in Ho as [? _]. }
  destruct (release_spec (table w) (r_index a) s _ (r_object a) Ht) as
    (t' & d & Hr & Ht' & Hd); [done..| |].
  { apply refs_at_index. rewrite Hp. by left. }
  assert (∀ j, fupd (refs_at (outs w)) (r_index a) (refs_at (outs w) (r_index a) - 1)%nat j =
    refs_at rest j) as Hc.
  { intros j. unfold fupd at 1. rewrite !(refs_at_perm _ _ _ Hp), !refs_at_cons. unfold fupd.
    repeat case_decide; subst; simplify_eq; try done; lia. }
  exists t', d. split; [done|]. rewrite Hp in Ho. apply Forall_cons in Ho as [_ Ho].
  split; simpl; try done.
  - by eapply tinv_ext.
  - destruct Hd as [(-> & Hmono & _)|(_ & Hone & _ & Hmono & _)]; [by eapply Forall_impl|].
    rewrite Forall_forall in Ho |- *. intros r Hr'. apply Hmono; [|by apply Ho].
    apply (refs_at_zero rest); [|done]. rewrite <-Hc. unfold fupd. rewrite decide_True by done. lia.
  - rewrite Hi. destruct Hd as [(-> & _ & Hids)|(-> & _ & _ & _ & Hids)]; simpl.
    + by rewrite app_nil_r, Hids.
    + rewrite fmap_app, Hids, <-app_assoc. done.
Qed.

Lemma find_Some t i n :
  find t i = Some n → ∃ s, slots t !! n = Some s ∧ id s = i ∧ present s = true.
Proof.
  intros (s & Hn & Hs)%position_lookup. exists s. split; [done|].
  apply andb_true_iff in Hs as [?%Z.eqb_eq ?]. done.
Qed.

Lemma inv_retire w i :
  inv w →
  ∃ t' d r, retire (table w) i = Some (t', d, r) ∧
    inv {| table := t'; outs := outs w; destroyed := destroyed w ++ option_list d;
           inserted := inserted w |}.
Proof.
  intros Hw. assert (∀ e : StoreError, ∃ t' d r, Some (table w, None, Err e) = Some (t', d, r : result unit StoreError) ∧
    inv {| table := t'; outs := outs w; destroyed := destroyed w ++ option_list d;
           inserted := inserted w |}) as Herr.
  { intros e. eexists _, None, _. split; [done|]. simpl. rewrite app_nil_r. by destruct w. }
  unfold retire. destruct (find (table w) i) as [n|] eqn:Hf; [|apply Herr].
  destruct (find_Some _ _ _ Hf) as (s & Hn & _ & _). rewrite Hn.
  destruct (state s) as [|o|o|] eqn:Hs; try apply Herr.
  destruct Hw as [Ht Ho Hi Hnd].
  set (s1 := set_state s (Retiring o)). set (c := refs_at (outs w)) in *.
  destruct (put_spec (table w) n s s1 c (S (c n))) as (Ht1 & Hm1 & Hids1); try done.
  { unfold obj, s1. simpl. by rewrite Hs. }
  { destruct (proj1 Ht _ _ Hn) as (Hg & Hu & Hr). rewrite Hs in Hr.
    unfold slot_ok, s1, set_state. simpl. split_and!; try lia; apply Hu. }
  assert (slots (put (table w) n s1) !! n = Some s1) as Hn1.
  { simpl. apply list_lookup_insert_eq. by eapply lookup_lt_Some. }
  destruct (release_spec _ n s1 _ o Ht1 Hn1) as (t' & d & Hr & Ht' & Hd).
  { done. }
  { unfold fupd. rewrite decide_True by done. lia. }
  rewrite Hr. simpl. eexists _, _, _. split; [done|].
  assert (∀ j, fupd (fupd c n (S (c n))) n (fupd c n (S (c n)) n - 1)%nat j = c j) as Hc.
  { intros j. unfold fupd. repeat case_decide; subst; try done; lia. }
  split; simpl; try done.
  - by eapply tinv_ext.
  - destruct Hd as [(-> & Hmono & _)|(_ & Hone & _ & Hmono & _)].
    + eapply Forall_impl; [done|]. eauto.
    + rewrite Forall_forall in Ho |- *. intros r Hr'. apply Hmono; [|by apply Hm1, Ho].
      apply (refs_at_zero (outs w)); [|done]. unfold fupd in Hone. rewrite decide_True in Hone by done.
      unfold c in Hone. lia.
  - rewrite Hi. destruct Hd as [(-> & _ & Hids)|(-> & _ & _ & _ & Hids)]; simpl.
    + by rewrite app_nil_r, Hids, Hids1.
    + rewrite fmap_app, <-Hids1, Hids, <-app_assoc. done.
Qed.

Lemma inv_insert w i k o t' r :
  inv w → i ∉ inserted w → insert (table w) i k o = (t', r) →
  inv {| table := t'; outs := outs w; destroyed := destroyed w;
         inserted := if is_ok r then i :: inserted w else inserted w |}.
Proof.
  intros [Ht Ho Hi Hn] Hfresh. unfold insert.
  destruct (find (table w) i); [intros; simplify_eq; by split|].
  destruct (position is_free (slots (table w))) as [n|] eqn:Hp; [|intros; simplify_eq; by split].
  destruct (position_lookup _ _ _ Hp) as (s & Hs & Hfree). rewrite Hs. intros; simplify_eq. simpl.
  set (s' := {| generation := generation s; id := i; kind := k; refs := 1; state := Live o |}).
  unfold is_free in Hfree. destruct (state s) eqn:Est; try done. clear Hfree.
  pose proof (proj1 Ht _ _ Hs) as (Hg & Hu & Hr). rewrite Est in Hr.
  assert (present s = false) as Hps by (unfold present; by rewrite Est).
  split; simpl.
  - split; simpl.
    + intros j x Hj. apply list_lookup_insert_Some in Hj as [(->&<-&_)|[_ Hj]]; [|by apply Ht].
      unfold slot_ok, s', in_u, u_max. simpl. split_and!; try lia; apply Hg.
    + pose proof (count_if_insert present _ _ _ s' Hs) as Hc. rewrite Hps in Hc.
      change (present s') with true in Hc. pose proof (proj2 Ht). simpl in *. lia.
  - rewrite Forall_forall in Ho |- *. intros x Hx. destruct (Ho x Hx) as (y & Hy & Hrest).
    exists y. simpl. rewrite list_lookup_insert_ne; [done|]. intros ->. simplify_eq.
    destruct Hrest as (_ & _ & Hobj). unfold obj in Hobj. by rewrite Est in Hobj.
  - unfold present_ids. simpl.
    destruct (omap_insert_Permutation slot_id _ _ _ s' Hs) as (l & E1 & E2).
    rewrite Hi. unfold present_ids. rewrite E1, E2. unfold slot_id. rewrite Hps. simpl.
    apply Permutation_middle.
  - by constructor.
Qed.

Lemma inv_start N : inv (start N).
Proof.
  split; simpl; [|constructor| |constructor].
  - split; simpl; [|by rewrite count_if_replicate].
    intros i s [-> _]%lookup_replicate. unfold slot_ok; simpl. split_and!; by vm_compute.
  - unfold present_ids. simpl. induction N; simpl; done.
Qed.

Lemma inv_resolve w ht h k rq :
  inv w →
  ∃ t' d r, resolve (table w) ht h k rq = Some (t', d, r) ∧
    inv {| table := t'; outs := match r with Ok a => [a] | Err _ => [] end ++ outs w;
           destroyed := destroyed w ++ option_list d; inserted := inserted w |}.
Proof.
  intros Hw. unfold resolve. destruct (HandleTable.get_checked ht h k rq) as [e|e].
  2:{ eexists _, None, _. split; [done|]. simpl. rewrite app_nil_r. by destruct w. }
  pose proof (get_ok (table w) (Entry.object e)) as Hl.
  destruct (get (table w) (Entry.object e)) as [t1 [r|err]].
  2:{ eexists _, None, _. split; [done|]. simpl. rewrite app_nil_r.
      by apply (inv_gain w t1 (Err err)). }
  pose proof (inv_gain w t1 (Ok r) Hw Hl) as Hw1. case_decide.
  - eexists _, None, _. split; [done|]. simpl. by rewrite app_nil_r.
  - destruct (inv_drop _ r (outs w) Hw1) as (t2 & d & Hr & Hw2); [done|]. simpl in Hr.
    rewrite Hr. simpl. by eexists _, _, _.
Qed.

Lemma store_inv_step w w' : inv w → step w w' → inv w'.
Proof.
  intros Hw Hs. destruct Hs as [w i k o t' r Hi E|w i t' r E|w l i t' r E|w ht h k rq t' d r E
    |w a t' r Ha E|w a rest t' d Hp E|w i t' d r E].
  - by eapply inv_insert.
  - apply inv_gain; [done|]. rewrite <-E. apply get_ok.
  - apply inv_gain; [done|]. rewrite <-E. apply get_at_ok.
  - destruct (inv_resolve w ht h k rq Hw) as (t1 & d1 & r1 & E1 & H1). rewrite E in E1. by simplify_eq.
  - apply inv_gain; [done|]. rewrite <-E. apply try_clone_ok.
    destruct Hw as [_ Ho _ _]. rewrite Forall_forall in Ho. by apply Ho.
  - destruct (inv_drop w a rest Hw Hp) as (t1 & d1 & E1 & H1). rewrite E in E1. by simplify_eq.
  - destruct (inv_retire w i Hw) as (t1 & d1 & r1 & E1 & H1). rewrite E in E1. by simplify_eq.
Qed.

Lemma inv_reach N w : rtc step (start N) w → inv w.
Proof. intros H. eapply (rtc_invariant step inv); eauto using inv_start, store_inv_step. Qed.

(** ** What the callers see *)

Lemma present_ids_elem t i :
  i ∈ present_ids t ↔ ∃ n s, slots t !! n = Some s ∧ id s = i ∧ present s = true.
Proof.
  unfold present_ids. rewrite list_elem_of_omap. unfold slot_id. split.
  - intros (s & Hs & E). apply list_elem_of_lookup in Hs as [n Hn]. exists n, s.
    destruct (present s); by simplify_eq.
  - intros (n & s & Hn & Hid & Hp). exists s. split; [by eapply list_elem_of_lookup_2|].
    by rewrite Hp, Hid.
Qed.

Lemma length_present_ids t : length (present_ids t) = count_if present (slots t).
Proof.
  unfold present_ids, slot_id. induction (slots t) as [|s l IH]; [done|]. csimpl.
  destruct (present s); simpl; by rewrite <-IH.
Qed.

Lemma ref_ok_present t r : ref_ok t r → r_id r ∈ present_ids t.
Proof.
  intros (s & Hs & H1 & _ & H3). apply present_ids_elem. exists (r_index r), s.
  split_and!; [done..|]. apply present_obj. eauto.
Qed.

(** Nothing that is still in the store has been destroyed. *)
Lemma present_not_destroyed w i : inv w → i ∈ present_ids (table w) → i ∉ (destroyed w).*1.
Proof.
  intros [_ _ Hi Hn] Hp Hd. rewrite Hi in Hn. apply NoDup_app in Hn as (_ & Hdis & _).
  by apply (Hdis i).
Qed.

(** No slot holds [i] as a live object. *)
Definition not_live (t : Table) (i : ObjectId) : Prop :=
  ∀ n s o, slots t !! n = Some s → id s = i → state s ≠ Live o.

Lemma not_live_insert t n s l i :
  not_live t i → (id s = i → ∀ o, state s ≠ Live o) →
  not_live {| slots := <[n:=s]> (slots t); live := l |} i.
Proof.
  intros Ht Hs m x o [(->&->&_)|[_ Hx]]%list_lookup_insert_Some; [eauto|by eapply Ht].
Qed.

Lemma not_live_put t n s s' i :
  not_live t i → slots t !! n = Some s → id s' = id s →
  (∀ o, state s' = Live o → state s = Live o) → not_live (put t n s') i.
Proof.
  intros Ht Hn Hid Hst. apply not_live_insert; [done|]. intros Hi o Ho.
  apply (Ht n s o Hn); [congruence|eauto].
Qed.

Lemma not_live_release t n t' d i :
  not_live t i → release t n = Some (t', d) → not_live t' i.
Proof.
  intros Ht. unfold release. destruct (slots t !! n) as [s|] eqn:Hn; [|by intros [= <- <-]].
  destruct (checked_sub _ _); [|by intros [= <- <-]]. case_match; [|destruct (state s) eqn:Hs].
  all: try (intros [= <- <-]; eapply not_live_put; eauto; simpl; congruence).
  destruct (usub _ _); [|done]. intros [= <- <-]. apply not_live_insert; [done|].
  simpl. intros _ o'. by destruct (_ <=? _).
Qed.

Lemma not_live_acquire t n i : not_live t i → not_live (acquire t n).1 i.
Proof.
  intros Ht. unfold acquire. destruct (slots t !! n) as [s|] eqn:Hn; [|done].
  destruct (state s) eqn:Hs; try done. destruct (checked_add _ _ _); [|done].
  eapply not_live_put; eauto.
Qed.

Lemma not_live_get t j i : not_live t i → not_live (get t j).1 i.
Proof. intros Ht. unfold get. destruct (find t j); [by apply not_live_acquire|done]. Qed.

Lemma not_live_step w w' i :
  i ∈ inserted w → not_live (table w) i → step w w' → not_live (table w') i.
Proof.
  intros Hin Ht Hs. destruct Hs as [w j k o t' r Hj E|w j t' r E|w l j t' r E|w ht h k rq t' d r E
    |w a t' r Ha E|w a rest t' d Hp E|w j t' d r E]; simpl.
  - revert E. unfold insert. destruct (find _ _); [by intros [= <- <-]|].
    destruct (position _ _) as [n|]; [|by intros [= <- <-]].
    destruct (_ !! n); [|by intros [= <- <-]].
    intros [= <- <-]. apply not_live_insert; [done|]. simpl. by intros ->.
  - change t' with (t', r).1. rewrite <-E. by apply not_live_get.
  - change t' with (t', r).1. rewrite <-E. unfold get_at. destruct (_ !! _); [|done].
    case_match; [done|by apply not_live_acquire].
  - revert E. unfold resolve. destruct (HandleTable.get_checked _ _ _ _) as [e|]; [|by intros; simplify_eq].
    pose proof (not_live_get (table w) (Entry.object e) i Ht) as Hg.
    destruct (get (table w) (Entry.object e)) as [t1 [r1|]]; [|by intros; simplify_eq].
    case_decide; [by intros; simplify_eq|]. destruct (release t1 (r_index r1)) as [[t2 d2]|] eqn:Er; [|done].
    simpl. intros; simplify_eq. by eapply not_live_release.
  - revert E. unfold try_clone. destruct (_ !! _) eqn:Hn; [|by intros; simplify_eq].
    destruct (checked_add _ _ _); intros; simplify_eq; [|done]. eapply not_live_put; eauto.
  - by eapply not_live_release.
  - revert E. unfold retire. destruct (find _ _) as [n|]; [|by intros; simplify_eq].
    destruct (_ !! n) as [s|] eqn:Hn; [|by intros; simplify_eq].
    destruct (state s) eqn:Es; try (by intros; simplify_eq).
    destruct (release _ n) as [[t2 d2]|] eqn:Er; [|done]. simpl. intros; simplify_eq.
    eapply not_live_release; [|done]. eapply not_live_put; eauto. simpl. congruence.
Qed.

Lemma inserted_step w w' i : i ∈ inserted w → step w w' → i ∈ inserted w'.
Proof. intros Hi Hs. destruct Hs; simpl; try done. destruct (is_ok _); [by right|done]. Qed.

Lemma not_live_steps w w' i :
  i ∈ inserted w → not_live (table w) i → rtc step w w' →
  i ∈ inserted w' ∧ not_live (table w') i.
Proof.
  intros Hi Ht Hr.
  apply (rtc_invariant step (λ w, i ∈ inserted w ∧ not_live (table w) i) w w'); [|done..].
  intros a b [Ha Hb] Hs. split; [by eapply inserted_step|by eapply not_live_step].
Qed.

Lemma not_live_get_Err t i : not_live t i → (get t i).2 = Err NotFound ∨ (get t i).2 = Err Retiring_.
Proof.
  intros Ht. unfold get. destruct (find t i) as [n|] eqn:Hf; [|by left].
  destruct (find_Some _ _ _ Hf) as (s & Hn & Hid & _). unfold acquire. rewrite Hn.
  destruct (state s) eqn:Hs; [by left| |by right|by left]. by destruct (Ht n s object).
Qed.

(** An identity that is in the store has one slot. *)
Lemma present_unique w n m s s' :
  inv w → slots (table w) !! n = Some s → slots (table w) !! m = Some s' →
  present s = true → present s' = true → id s = id s' → n = m.
Proof.
  intros [_ _ Hi Hnd] Hn Hm Hp Hp' E. rewrite Hi in Hnd. apply NoDup_app in Hnd as (_ & _ & Hnd).
  revert n m Hn Hm. unfold present_ids in Hnd. clear Hi.
  induction (slots (table w)) as [|x l IH]; intros n m Hn Hm; [done|]. csimpl in Hnd.
  assert (∀ a b, (x :: l) !! 0%nat = Some a → l !! b = Some s ∨ l !! b = Some s' → 
    present a = true → id a = id s → False) as Hx.
  { intros a b Ha Hb Hpa Hia. simplify_eq/=. unfold slot_id in Hnd at 1. rewrite Hpa in Hnd.
    apply NoDup_cons in Hnd as [Hnot _]. apply Hnot, list_elem_of_omap.
    destruct Hb as [Hb|Hb]; [exists s|exists s']; (split; [by eapply list_elem_of_lookup_2|]);
      unfold slot_id; rewrite ?Hp, ?Hp'; congruence. }
  destruct n as [|n], m as [|m]; simpl in Hn, Hm; [done| | |].
  - exfalso. apply (Hx s m); auto.
  - exfalso. apply (Hx s' n); auto.
  - f_equal. apply IH; try done. destruct (slot_id x); [by apply NoDup_cons in Hnd as [_ ?]|done].
Qed.

Lemma retire_Ok_not_live w i t' d :
  inv w → retire (table w) i = Some (t', d, Ok tt) → i ∈ inserted w ∧ not_live t' i.
Proof.
  intros Hw. unfold retire. destruct (find _ _) as [n|] eqn:Hf; [|done].
  destruct (find_Some _ _ _ Hf) as (s & Hn & Hid & Hp). rewrite Hn.
  destruct (state s) as [|o| |] eqn:Es; try done.
  destruct (release _ n) as [[t2 d2]|] eqn:Er; [|done]. simpl. intros; simplify_eq. split.
  - destruct Hw as [_ _ Hi _]. rewrite Hi. apply elem_of_app. right. apply present_ids_elem. eauto.
  - eapply not_live_release; [|done].
    intros m x o' [(->&<-&_)|[Hne Hx]]%list_lookup_insert_Some Hidx Hst; [done|].
    apply Hne. eapply (present_unique w); eauto. unfold present. by rewrite Hst.
Qed.

(** A lookup that is undone leaves the table as it was. *)
Lemma release_get t c i t' r :
  tinv t c → get t i = (t', Ok r) → release t' (r_index r) = Some (t, None).
Proof.
  intros Ht. unfold get. destruct (find t i) as [n|]; [|done]. unfold acquire.
  destruct (slots t !! n) as [s|] eqn:Hn; [|done]. destruct (state s) eqn:Hs; try done.
  destruct (checked_add 32 (refs s) 1) as [m|] eqn:Hm; [|done].
  apply checked_add_Some in Hm as [-> Hm]. intros [= <- <-]. simpl.
  destruct (proj1 Ht _ _ Hn) as (_ & _ & Hr). rewrite Hs in Hr.
  unfold release, put. simpl. rewrite list_lookup_insert_eq by (by eapply lookup_lt_Some). simpl.
  unfold checked_sub. destruct (Z.leb_spec 1 (refs s + 1)); [|lia].
  destruct (Z.eqb_spec (refs s + 1 - 1) 0); [lia|]. simpl. do 2 f_equal.
  destruct t as [l v]. simpl in *. unfold put. simpl. f_equal. rewrite list_insert_insert_eq.
  replace (set_refs (set_refs s (refs s + 1)) (refs s + 1 - 1)) with s; [by apply list_insert_id|].
  destruct s; unfold set_refs; simpl. f_equal. lia.
Qed.

(** C7. In every state the store's operations and its callers' [ObjRef]s can reach: a
    reference still finds its own object in its slot, with the identity and kind it was taken
    with, and that object has not been destroyed; every identity inserted is either still in
    the store or was destroyed, exactly once; [len] counts the objects in the store; and the
    operations that could panic do not. *)
Theorem store_conserves_objects N w :
  rtc step (start N) w →
  (∀ r, r ∈ outs w → ref_ok (table w) r ∧ r_id r ∉ (destroyed w).*1) ∧
  NoDup (destroyed w).*1 ∧
  inserted w ≡ₚ (destroyed w).*1 ++ present_ids (table w) ∧
  len (table w) = length (present_ids (table w)) ∧
  (∀ r, r ∈ outs w → is_Some (release (table w) (r_index r))) ∧
  (∀ i, is_Some (retire (table w) i)) ∧
  (∀ ht h k rq, is_Some (resolve (table w) ht h k rq)).
Proof.
  intros Hw%inv_reach. pose proof Hw as [Ht Ho Hi Hn]. rewrite Forall_forall in Ho. split_and!.
  - intros r Hr. split; [by apply Ho|]. by apply present_not_destroyed, ref_ok_present, Ho.
  - rewrite Hi in Hn. by apply NoDup_app in Hn as [? _].
  - done.
  - unfold len. by rewrite length_present_ids, (proj2 Ht).
  - intros r Hr. apply elem_of_Permutation in Hr as [rest Hp].
    destruct (inv_drop w r rest Hw Hp) as (t' & d & -> & _). eauto.
  - intros i. destruct (inv_retire w i Hw) as (t' & d & r & -> & _). eauto.
  - intros ht h k rq. destruct (inv_resolve w ht h k rq Hw) as (t' & d & r & -> & _). eauto.
Qed.

(** Once [retire] has succeeded on an identity, no lookup ever finds it again, whatever
    happens next; and it has been destroyed exactly when no [ObjRef] to it is left. *)
Theorem retired_found_no_more N w i t' d w' :
  rtc step (start N) w → retire (table w) i = Some (t', d, Ok tt) →
  rtc step {| table := t'; outs := outs w; destroyed := destroyed w ++ option_list d;
              inserted := inserted w |} w' →
  ((get (table w') i).2 = Err NotFound ∨ (get (table w') i).2 = Err Retiring_) ∧
  (i ∈ (destroyed w').*1 ↔ ∀ r, r ∈ outs w' → r_id r ≠ i).
Proof.
  intros Hreach Hret Hrun. pose proof (inv_reach N w Hreach) as Hw.
  destruct (retire_Ok_not_live w i t' d Hw Hret) as [Hi Ht].
  match type of Hrun with rtc _ ?w1 _ => destruct (not_live_steps w1 w' i Hi Ht Hrun) as [Hi' Ht'] end.
  assert (inv w') as Hw'.
  { apply (inv_reach N). etransitivity; [exact Hreach|]. eapply rtc_l; [|exact Hrun].
    by eapply step_retire. }
  split; [by apply not_live_get_Err|]. split.
  - intros Hd r Hr <-. eapply (present_not_destroyed w'); [done| |done].
    destruct Hw' as [_ Ho _ _]. rewrite Forall_forall in Ho. by apply ref_ok_present, Ho.
  - intros Hnone. pose proof Hw' as [Hti Ho Hp _]. rewrite Hp in Hi'.
    apply elem_of_app in Hi' as [Hd|Hd]; [done|exfalso].
    apply present_ids_elem in Hd as (n & s & Hn & Hid & Hpr).
    destruct (proj1 Hti _ _ Hn) as (_ & _ & Hs). unfold present in Hpr.
    destruct (state s) as [|o|o|] eqn:Es; try done; [by apply (Ht' n s o)|].
    destruct Hs as [_ Hpos]. apply count_if_pos in Hpos as (j & r & Hj & Hr%Nat.eqb_eq).
    assert (r ∈ outs w') as Hin by (by eapply list_elem_of_lookup_2).
    rewrite Forall_forall in Ho. destruct (Ho r Hin) as (x & Hx & Hidx & _).
    apply (Hnone r Hin). rewrite Hr, Hn in Hx. congruence.
Qed.


End Store.
Arguments State : clear implicits.
Arguments Slot : clear implicits.
Arguments Table : clear implicits.
Arguments ObjRef : clear implicits.
Arguments world : clear implicits.

(** An object inserted and looked up. *)
Definition example_world : world nat :=
  let t1 := (insert (new 2) 7 Channel 42%nat).1 in
  {| table := (get t1 7).1;
     outs := [{| r_index := 0; r_id := 7; r_kind := Channel; r_object := 42%nat |}];
     destroyed := []; inserted := [7] |}.

Lemma example_world_reach : rtc step (start 2) example_world.
Proof.
  eapply rtc_l; [apply (step_insert _ 7 Channel 42%nat); [by intros ?%elem_of_nil|reflexivity]|].
  eapply rtc_l; [apply (step_get _ 7); reflexivity|]. apply rtc_refl.
Defined.

Lemma store_conserves_objects_witness :
  len (table example_world) = 1%nat ∧ present_ids (table example_world) = [7].
Proof.
  pose proof (store_conserves_objects 2 example_world example_world_reach) as (_ & _ & _ & H & _).
  split; [exact H|vm_compute; reflexivity].
Defined.

(** The object retired, and then its last reference dropped. *)
Definition example_retired : Table nat :=
  from_option (λ x, x.1.1) (new 2) (retire (table example_world) 7).
Definition example_dropped : world nat :=
  {| table := from_option fst (new 2) (release example_retired 0); outs := [];
     destroyed := [(7, 42%nat)]; inserted := [7] |}.

Lemma retired_found_no_more_witness :
  ((get (table example_dropped) 7).2 = Err NotFound ∨
   (get (table example_dropped) 7).2 = Err Retiring_) ∧
  (7 ∈ (destroyed example_dropped).*1 ↔ ∀ r, r ∈ outs example_dropped → r_id r ≠ 7).
Proof.
  apply (retired_found_no_more 2 example_world 7 example_retired None example_dropped
           example_world_reach).
  - vm_compute. reflexivity.
  - eapply rtc_l; [|apply rtc_refl].
    exact (step_drop {| table := example_retired; outs := outs example_world; destroyed := [];
                        inserted := [7] |}
             {| r_index := 0; r_id := 7; r_kind := Channel; r_object := 42%nat |} []
             (table example_dropped) (Some (7, 42%nat)) (reflexivity _) eq_refl).
Defined.


End ObjectStore.
