(* ===== verification/SchedRunQueue.v ===== *)
(** * The run queue

    [kernel/sched/src/runqueue.rs].  Runnable threads in a fixed array of slots, linked into
    one FIFO per priority level, with a bitmap of the levels that have a thread.  The
    refinement: the slots and links implement one list of threads per level ([queue]). *)

From S2P Require Import Prelude.
Local Open Scope Z_scope.

Module RunQueue.

Definition LEVELS : nat := 32.

(** A [Priority] is its level, below [LEVELS]. *)
Abbreviation Priority := nat (only parsing).
Abbreviation ThreadId := Z (only parsing).

Definition Priority_new (level : Z) : option Priority :=
  if level <? Z.of_nat LEVELS then Some (Z.to_nat level) else None.

Inductive Error : Type := Full | AlreadyQueued | NotQueued.

Record Slot := { id : ThreadId; priority : Priority; next : option nat; used : bool }.
Record Level := { head : option nat; tail : option nat }.

Record t := { slots : list Slot; levels : list Level; nonempty : Z; len : nat }.

(** [new]; the assertion on the capacity is the panic. *)
Definition new (N : nat) : option t :=
  if Z.of_nat N <=? u16_MAX then
    Some {| slots := replicate N {| id := 0; priority := 0; next := None; used := false |};
            levels := replicate LEVELS {| head := None; tail := None |};
            nonempty := 0; len := 0 |}
  else None.

Definition is_empty (q : t) : bool := (len q =? 0)%nat.
Definition find (q : t) (i : ThreadId) : option nat :=
  position (λ s, used s && (id s =? i)) (slots q).
Definition contains (q : t) (i : ThreadId) : bool := bool_decide (is_Some (find q i)).

Definition set_next (s : Slot) (n : option nat) : Slot :=
  {| id := id s; priority := priority s; next := n; used := used s |}.
Definition set_used (s : Slot) (b : bool) : Slot :=
  {| id := id s; priority := priority s; next := next s; used := b |}.

Definition enqueue (q : t) (i : ThreadId) (p : Priority) : option (t * result unit Error) :=
  if contains q i then Some (q, Err AlreadyQueued)
  else match position (λ s, negb (used s)) (slots q) with
  | None => Some (q, Err Full)
  | Some slot =>
      let idx := as_u16 slot in
      slots1 ← set_at (slots q) slot {| id := i; priority := p; next := None; used := true |};
      level ← levels q !! p;
      '(slots2, head') ←
        match tail level with
        | Some k => s ← slots1 !! k; slots2 ← set_at slots1 k (set_next s (Some idx));
                    Some (slots2, head level)
        | None => Some (slots1, Some idx)
        end;
      levels' ← set_at (levels q) p {| head := head'; tail := Some idx |};
      Some ({| slots := slots2; levels := levels';
               nonempty := Z.lor (nonempty q) (shl 32 1 (Z.of_nat p)); len := len q + 1 |}, Ok tt)
  end.

Definition highest (nonempty : Z) : option nat :=
  if nonempty =? 0 then None else Some (31 - Z.to_nat (leading_zeros 32 nonempty))%nat.

(** [Ok] of the panic monad around the method's own [Option]. *)
Definition peek (q : t) : option (option (ThreadId * Priority)) :=
  match highest (nonempty q) with
  | None => Some None
  | Some level =>
      lv ← levels q !! level;
      match head lv with
      | None => Some None
      | Some h => s ← slots q !! h; Some (Some (id s, priority s))
      end
  end.

Definition clear_bit (m : Z) (level : nat) : Z := Z.land m (u_not 32 (shl 32 1 (Z.of_nat level))).

Definition unlink_head (q : t) (level : nat) : option t :=
  lv ← levels q !! level;
  match head lv with
  | None => Some q
  | Some h =>
      s ← slots q !! h;
      let next' := next s in
      let last := bool_decide (next' = None) in
      levels' ← set_at (levels q) level
                  {| head := next'; tail := if last then None else tail lv |};
      slots' ← set_at (slots q) h (set_next s None);
      Some {| slots := slots'; levels := levels';
              nonempty := if last then clear_bit (nonempty q) level else nonempty q;
              len := len q |}
  end.

Definition pick_next (q : t) : option (t * option (ThreadId * Priority)) :=
  match highest (nonempty q) with
  | None => Some (q, None)
  | Some level =>
      lv ← levels q !! level;
      match head lv with
      | None => Some (q, None)
      | Some h =>
          slot ← slots q !! h;
          q1 ← unlink_head q level;
          s1 ← slots q1 !! h;
          slots' ← set_at (slots q1) h (set_used s1 false);
          len' ← usub (len q1) 1;
          Some ({| slots := slots'; levels := levels q1; nonempty := nonempty q1; len := len' |},
                Some (id slot, priority slot))
      end
  end.

(** The walk of [remove]: the predecessor of [slot] in the list that starts at [cur]. [None]
    is a panic or a list longer than [fuel], of which neither happens. *)
Fixpoint walk (fuel : nat) (sl : list Slot) (slot : nat) (prev cur : option nat) :
    option (option nat) :=
  match cur with
  | None => Some prev
  | Some c =>
      if (c =? slot)%nat then Some prev
      else match fuel with
      | O => None
      | S fuel => s ← sl !! c; walk fuel sl slot cur (next s)
      end
  end.

Definition remove (q : t) (i : ThreadId) : option (t * result Priority Error) :=
  match find q i with
  | None => Some (q, Err NotQueued)
  | Some slot =>
      s ← slots q !! slot;
      let level := priority s in
      lv ← levels q !! level;
      prev ← walk (length (slots q)) (slots q) slot None (head lv);
      let next' := next s in
      '(slots1, head') ←
        match prev with
        | Some k => sp ← slots q !! k; slots1 ← set_at (slots q) k (set_next sp next');
                    Some (slots1, head lv)
        | None => Some (slots q, next')
        end;
      let tail' := if decide (tail lv = Some (as_u16 slot)) then prev else tail lv in
      levels' ← set_at (levels q) level {| head := head'; tail := tail' |};
      let nonempty' := match head' with None => clear_bit (nonempty q) level
                                      | Some _ => nonempty q end in
      s1 ← slots1 !! slot;
      slots' ← set_at slots1 slot (set_next (set_used s1 false) None);
      len' ← usub (len q) 1;
      Some ({| slots := slots'; levels := levels'; nonempty := nonempty'; len := len' |}, Ok level)
  end.

(** The iterator: the levels not started yet and the next slot of the level being walked. *)
Record Iter := { it_levels : Z; cursor : option nat }.

Definition iter (q : t) : Iter := {| it_levels := nonempty q; cursor := None |}.

(** [Iter::next]; every turn of its loop that yields nothing clears one of the 32 bits, so
    [fuel] 33 is enough. *)
Fixpoint iter_next (fuel : nat) (q : t) (it : Iter) : option (Iter * option (ThreadId * Priority)) :=
  match fuel with
  | O => None
  | S fuel =>
      match cursor it with
      | Some c => s ← slots q !! c;
                  Some ({| it_levels := it_levels it; cursor := next s |},
                        Some (id s, priority s))
      | None =>
          match highest (it_levels it) with
          | None => Some (it, None)
          | Some level =>
              lv ← levels q !! level;
              iter_next fuel q {| it_levels := clear_bit (it_levels it) level; cursor := head lv |}
          end
      end
  end.

(** Everything the iterator yields. *)
Fixpoint collect (fuel : nat) (q : t) (it : Iter) : option (list (ThreadId * Priority)) :=
  match fuel with
  | O => None
  | S fuel =>
      '(it', o) ← iter_next 33 q it;
      match o with
      | None => Some []
      | Some x => rest ← collect fuel q it'; Some (x :: rest)
      end
  end.

(** Everything [pick_next] yields until the queue is empty. *)
Fixpoint drain (fuel : nat) (q : t) : option (list (ThreadId * Priority)) :=
  match fuel with
  | O => None
  | S fuel =>
      '(q', o) ← pick_next q;
      match o with
      | None => Some []
      | Some x => rest ← drain fuel q'; Some (x :: rest)
      end
  end.

(** ** The lists the links spell *)

Fixpoint chain (fuel : nat) (sl : list Slot) (cur : option nat) : list nat :=
  match fuel, cur with
  | S fuel, Some c => match sl !! c with Some s => c :: chain fuel sl (next s) | None => [] end
  | _, _ => []
  end.

Definition ids (sl : list Slot) (l : list nat) : list ThreadId := omap (λ i, id <$> sl !! i) l.
Arguments ids : simpl never.

(** The threads queued at a level, in the order they will run. *)
Definition queue (q : t) (L : nat) : list ThreadId :=
  match levels q !! L with
  | Some lv => ids (slots q) (chain (length (slots q)) (slots q) (head lv))
  | None => []
  end.

(** The slots of [l], linked in this order, hold threads of priority [L]. *)
Definition linked (sl : list Slot) (L : nat) (l : list nat) : Prop :=
  ∀ i x, l !! i = Some x →
  ∃ s, sl !! x = Some s ∧ used s = true ∧ priority s = L ∧ next s = l !! S i.

(** [Q L] is the list of slots of level [L]. *)
Record rep (q : t) (Q : nat → list nat) : Prop := {
  rep_cap : Z.of_nat (length (slots q)) ≤ u16_MAX;
  rep_levels : length (levels q) = LEVELS;
  rep_level : ∀ L, (L < LEVELS)%nat → levels q !! L = Some {| head := Q L !! 0%nat; tail := last (Q L) |};
  rep_linked : ∀ L, (L < LEVELS)%nat → linked (slots q) L (Q L);
  rep_nodup : ∀ L, (L < LEVELS)%nat → NoDup (Q L);
  rep_used : ∀ i s, slots q !! i = Some s → used s = true →
               (priority s < LEVELS)%nat ∧ i ∈ Q (priority s);
  rep_ids : ∀ i j s s', slots q !! i = Some s → slots q !! j = Some s' →
              used s = true → used s' = true → id s = id s' → i = j;
  rep_bits : in_u 32 (nonempty q);
  rep_bit : ∀ L, (L < LEVELS)%nat → Z.testbit (nonempty q) (Z.of_nat L) = bool_decide (Q L ≠ []);
  rep_len : len q = count_if used (slots q);
}.

Definition wf (q : t) : Prop := ∃ Q, rep q Q.

Lemma linked_elem sl L l x :
  linked sl L l → x ∈ l → ∃ s, sl !! x = Some s ∧ used s = true ∧ priority s = L.
Proof. intros Hl [i Hi]%list_elem_of_lookup. destruct (Hl i x Hi) as (s & ? & ? & ? & _). eauto. Qed.

Lemma linked_frame sl sl' L l :
  linked sl L l → (∀ x, x ∈ l → sl' !! x = sl !! x) → linked sl' L l.
Proof.
  intros Hl Hf i x Hi. rewrite Hf by (by eapply list_elem_of_lookup_2). by apply Hl.
Qed.

Lemma linked_tail sl L x l : linked sl L (x :: l) → linked sl L l.
Proof. intros Hl i y Hi. by apply (Hl (S i)). Qed.

Lemma linked_length sl L l : linked sl L l → NoDup l → (length l ≤ length sl)%nat.
Proof.
  intros Hl Hn. apply NoDup_bounded_length; [done|]. intros x Hx.
  destruct (linked_elem _ _ _ _ Hl Hx) as (s & Hs & _). by eapply lookup_lt_Some.
Qed.

Lemma chain_linked sl L l fuel :
  linked sl L l → (length l ≤ fuel)%nat → chain fuel sl (l !! 0%nat) = l.
Proof.
  revert fuel. induction l as [|x l IH]; intros fuel Hl Hf; [by destruct fuel|].
  destruct fuel as [|fuel]; [simpl in Hf; lia|]. simpl.
  destruct (Hl 0%nat x eq_refl) as (s & -> & _ & _ & ->). f_equal. apply IH.
  - by eapply linked_tail.
  - simpl in Hf. lia.
Qed.

Lemma queue_rep q Q L : rep q Q → (L < LEVELS)%nat → queue q L = ids (slots q) (Q L).
Proof.
  intros Hr HL. unfold queue. rewrite (rep_level _ _ Hr L HL). simpl. f_equal.
  eapply chain_linked; [by apply (rep_linked _ _ Hr)|].
  eapply linked_length; [by apply (rep_linked _ _ Hr)|by apply (rep_nodup _ _ Hr)].
Qed.

Lemma ids_app sl l k : ids sl (l ++ k) = ids sl l ++ ids sl k.
Proof. apply omap_app. Qed.

Lemma ids_frame sl sl' l :
  (∀ x, x ∈ l → id <$> sl' !! x = id <$> sl !! x) → ids sl' l = ids sl l.
Proof.
  induction l as [|x l IH]; intros Hf; [done|]. unfold ids. csimpl.
  rewrite (Hf x) by (by left). unfold ids in IH. rewrite IH; [done|]. intros y Hy. apply Hf. by right.
Qed.

Lemma ids_cons sl s x l : sl !! x = Some s → ids sl (x :: l) = id s :: ids sl l.
Proof. intros Hx. unfold ids. csimpl. by rewrite Hx. Qed.

Lemma elem_of_ids sl l i : i ∈ ids sl l ↔ ∃ x s, x ∈ l ∧ sl !! x = Some s ∧ id s = i.
Proof.
  unfold ids. rewrite list_elem_of_omap. split.
  - intros (x & Hx & (s & Hs & ->)%fmap_Some). eauto.
  - intros (x & s & Hx & Hs & <-). exists x. by rewrite Hs.
Qed.

(** A slot is in the list of one level only. *)
Lemma rep_level_unique q Q x L L' :
  rep q Q → (L < LEVELS)%nat → (L' < LEVELS)%nat → x ∈ Q L → x ∈ Q L' → L = L'.
Proof.
  intros Hr HL HL' Hx Hx'.
  destruct (linked_elem _ _ _ _ (rep_linked _ _ Hr L HL) Hx) as (s & Hs & _ & <-).
  destruct (linked_elem _ _ _ _ (rep_linked _ _ Hr L' HL') Hx') as (s' & Hs' & _ & <-). congruence.
Qed.

(** A thread is queued where [contains] finds it. *)
Lemma find_rep q Q i x :
  rep q Q → find q i = Some x →
  ∃ s, slots q !! x = Some s ∧ used s = true ∧ id s = i ∧ (priority s < LEVELS)%nat ∧ x ∈ Q (priority s).
Proof.
  intros Hr (s & Hs & Hu)%position_lookup. apply andb_true_iff in Hu as [Hu Hi%Z.eqb_eq].
  destruct (rep_used _ _ Hr x s Hs Hu). eauto 6.
Qed.

Lemma find_None q Q i L : rep q Q → (L < LEVELS)%nat → find q i = None → i ∉ queue q L.
Proof.
  intros Hr HL Hf Hi. rewrite (queue_rep q Q) in Hi by done.
  apply elem_of_ids in Hi as (x & s & Hx & Hs & Hid).
  destruct (linked_elem _ _ _ _ (rep_linked _ _ Hr L HL) Hx) as (s' & Hs' & Hu & _). simplify_eq.
  apply position_None with (i := x) (x := s) in Hf; [|done].
  by rewrite Hu, Z.eqb_refl in Hf.
Qed.

(** ** The bitmap *)

Lemma shl_level L : (L < LEVELS)%nat → shl 32 1 (Z.of_nat L) = 2 ^ Z.of_nat L.
Proof. unfold LEVELS. intros HL. apply shl_bit. lia. Qed.

Lemma in_u_bit L : (L < LEVELS)%nat → in_u 32 (2 ^ Z.of_nat L).
Proof.
  unfold LEVELS, in_u, u_max. intros HL. assert (2 ^ Z.of_nat L < 2 ^ 32); [|lia].
  apply Z.pow_lt_mono_r; lia.
Qed.

Lemma set_bit_spec m L n :
  (L < LEVELS)%nat → 
  Z.testbit (Z.lor m (shl 32 1 (Z.of_nat L))) (Z.of_nat n) =
  Z.testbit m (Z.of_nat n) || bool_decide (n = L).
Proof.
  intros HL. rewrite shl_level, Z.lor_spec by done. f_equal. case_bool_decide as E.
  - subst. rewrite Z.pow2_bits_true by lia. done.
  - apply Z.pow2_bits_false. lia.
Qed.

Lemma clear_bit_spec m L n :
  (L < LEVELS)%nat → in_u 32 m →
  Z.testbit (clear_bit m L) (Z.of_nat n) = Z.testbit m (Z.of_nat n) && bool_decide (n ≠ L).
Proof.
  intros HL Hm. unfold clear_bit. rewrite land_u_not, shl_level, Z.ldiff_spec by (done || lia). f_equal.
  case_bool_decide as E.
  - rewrite Z.pow2_bits_false by lia. done.
  - assert (n = L) as -> by (destruct (decide (n = L)); naive_solver).
    by rewrite Z.pow2_bits_true by lia.
Qed.

Lemma clear_bit_in_u m L : in_u 32 m → in_u 32 (clear_bit m L).
Proof.
  intros Hm. apply land_in_u; [lia|done|]. apply Z.lxor_nonneg. unfold shl.
  pose proof (Z.mod_pos_bound (Z.shiftl 1 (Z.of_nat L)) (2 ^ 32)). unfold u_max. lia.
Qed.

(** [31 - leading_zeros] is the highest bit set. *)
Lemma highest_Some m L :
  in_u 32 m → highest m = Some L →
  (L < LEVELS)%nat ∧ Z.testbit m (Z.of_nat L) = true ∧
  ∀ n, (L < n)%nat → Z.testbit m (Z.of_nat n) = false.
Proof.
  intros Hm. unfold highest, leading_zeros. destruct (Z.eqb_spec m 0); [done|]. intros [= <-].
  unfold in_u, u_max in Hm. pose proof (Z.log2_nonneg m).
  assert (Z.log2 m < 32) by (apply Z.log2_lt_pow2; lia).
  assert (Z.of_nat (31 - Z.to_nat (32 - 1 - Z.log2 m)) = Z.log2 m) as E by lia. rewrite E.
  unfold LEVELS. split_and!; [lia|apply Z.bit_log2; lia|].
  intros k Hk. apply Z.bits_above_log2; lia.
Qed.

Lemma highest_None m L : highest m = None → Z.testbit m (Z.of_nat L) = false.
Proof. unfold highest. destruct (Z.eqb_spec m 0); [subst; intros; apply Z.testbit_0_l|done]. Qed.

Lemma rep_new N q : new N = Some q → rep q (λ _, []).
Proof.
  unfold new. destruct (Z.leb_spec (Z.of_nat N) u16_MAX); [|done]. intros <-%(inj Some).
  split; cbn [slots levels nonempty len]; try done.
  - by rewrite length_replicate.
  - intros L HL. apply lookup_replicate_2. done.
  - intros L HL. constructor.
  - intros i s [-> _]%lookup_replicate. done.
  - intros i j s s' [-> _]%lookup_replicate. done.
  - intros L HL. by rewrite Z.testbit_0_l.
  - by rewrite count_if_replicate.
Qed.

(** ** Changes to the links *)

(** Apart from slot [x], only links changed. *)
Definition same_threads (sl sl' : list Slot) (x : nat) : Prop :=
  ∀ y, y ≠ x → (λ s, (id s, priority s, used s)) <$> sl' !! y =
               (λ s, (id s, priority s, used s)) <$> sl !! y.

Lemma same_threads_lookup sl sl' x y s' :
  same_threads sl sl' x → y ≠ x → sl' !! y = Some s' →
  ∃ s, sl !! y = Some s ∧ id s' = id s ∧ priority s' = priority s ∧ used s' = used s.
Proof.
  intros H Hy Hs'. specialize (H y Hy). rewrite Hs' in H. simpl in H.
  destruct (sl !! y) as [s|]; simplify_eq/=. eauto.
Qed.

Lemma same_threads_ids sl sl' x l : same_threads sl sl' x → x ∉ l → ids sl' l = ids sl l.
Proof.
  intros H Hx. apply ids_frame. intros y Hy.
  assert (y ≠ x) as Hne by (intros ->; done). specialize (H y Hne).
  destruct (sl !! y), (sl' !! y); simplify_eq/=; congruence.
Qed.

Lemma same_threads_insert sl x s : same_threads sl (<[x:=s]> sl) x.
Proof. intros y Hy. by rewrite list_lookup_insert_ne. Qed.

(** A change of the link of [k] alone. *)
Definition relink (sl sl' : list Slot) (k : option nat) (n : option nat) (x : nat) : Prop :=
  (∀ y, y ≠ x → k ≠ Some y → sl' !! y = sl !! y) ∧
  (∀ y, k = Some y → ∃ s, sl !! y = Some s ∧ sl' !! y = Some (set_next s n)).

Lemma relink_same sl sl' k n x : relink sl sl' k n x → same_threads sl sl' x.
Proof.
  intros [Hf Hk] y Hy. destruct (decide (k = Some y)) as [E|E]; [|by rewrite Hf].
  destruct (Hk y E) as (s & -> & ->). done.
Qed.

Lemma last_index {A} (l : list A) x : last l = Some x ↔ l !! pred (length l) = Some x.
Proof. by rewrite last_lookup. Qed.

Lemma linked_push sl sl' L l x s :
  linked sl L l → NoDup l → x ∉ l → relink sl sl' (last l) (Some x) x →
  sl' !! x = Some s → used s = true → priority s = L → next s = None →
  linked sl' L (l ++ [x]).
Proof.
  intros Hl Hn Hx [Hf Hk] Hs Hu Hp Hnx i y Hi.
  apply lookup_app_Some in Hi as [Hi|[Hlen Hi]].
  - destruct (Hl i y Hi) as (sy & Hsy & ? & ? & Hny). pose proof (lookup_lt_Some _ _ _ Hi) as Hlt.
    destruct (decide (last l = Some y)) as [E|E].
    + destruct (Hk y E) as (sy' & ? & Hsy'). simplify_eq. exists (set_next sy (Some x)).
      split_and!; try done. simpl. rewrite last_index in E.
      pose proof (NoDup_lookup _ _ _ _ Hn Hi E). rewrite lookup_app_r by lia.
      by replace (S i - length l)%nat with 0%nat by lia.
    + exists sy. rewrite Hf; [|intros ->; by apply Hx, (list_elem_of_lookup_2 _ i)|done].
      split_and!; try done. rewrite Hny. symmetry. apply lookup_app_l.
      destruct (decide (i = pred (length l))) as [->|]; [|lia]. by rewrite <-last_index in Hi.
  - apply list_lookup_singleton_Some in Hi as [? ->]. exists s. split_and!; try done.
    rewrite Hnx. symmetry. apply lookup_ge_None. rewrite length_app. simpl. lia.
Qed.

Lemma linked_unlink sl sl' L l1 x l2 :
  linked sl L (l1 ++ x :: l2) → NoDup (l1 ++ x :: l2) →
  relink sl sl' (last l1) (l2 !! 0%nat) x → linked sl' L (l1 ++ l2).
Proof.
  intros Hl Hn [Hf Hk] i y Hi.
  assert (y ≠ x ∧ ((i < length l1)%nat → (l1 ++ x :: l2) !! i = Some y) ∧
    ((length l1 ≤ i)%nat → (l1 ++ x :: l2) !! S i = Some y)) as (Hyx & Hlo & Hhi).
  { split_and!.
    - intros ->. apply NoDup_app in Hn as (_ & Hd & [Hd2 _]%NoDup_cons).
      apply list_elem_of_lookup_2, elem_of_app in Hi as [Hi|Hi]; [|done]. apply (Hd x Hi). by left.
    - intros Hlt. rewrite lookup_app_l in * by lia. done.
    - intros Hge. rewrite lookup_app_r in * by lia.
      by replace (S i - length l1)%nat with (S (i - length l1))%nat by lia. }
  destruct (decide (last l1 = Some y)) as [E|E].
  - destruct (Hk y E) as (s & Hs & Hs'). exists (set_next s (l2 !! 0%nat)).
    rewrite last_index in E. pose proof (lookup_lt_Some _ _ _ E) as Hlt.
    assert (i = pred (length l1)) as ->.
    { destruct (decide (i < length l1)%nat) as [Hl1|Hl1].
      - apply (NoDup_lookup _ _ _ _ Hn (Hlo Hl1)). by rewrite lookup_app_l by lia.
      - assert (S i = pred (length l1)); [|lia]. 
        apply (NoDup_lookup _ _ _ y Hn (Hhi ltac:(lia))). by rewrite lookup_app_l by lia. }
    destruct (Hl _ _ (Hlo ltac:(lia))) as (s1 & ? & ? & ? & _). simplify_eq.
    split_and!; try done. simpl. rewrite lookup_app_r by lia. f_equal. lia.
  - rewrite Hf by done. destruct (decide (i < length l1)%nat) as [Hl1|Hl1].
    + destruct (Hl _ _ (Hlo Hl1)) as (s & ? & ? & ? & Hnx). exists s. split_and!; try done. rewrite Hnx.
      destruct (decide (S i < length l1)%nat); [by rewrite !lookup_app_l by lia|].
      exfalso. apply E. rewrite last_index. rewrite lookup_app_l in Hi by lia.
      by replace (pred (length l1)) with i by lia.
    + destruct (Hl _ _ (Hhi ltac:(lia))) as (s & ? & ? & ? & Hnx). exists s. split_and!; try done. rewrite Hnx.
      rewrite !lookup_app_r by lia.
      by replace (S (S i) - length l1)%nat with (S (S i - length l1))%nat by lia.
Qed.

Lemma linked_other q Q L L' sl' k n x :
  rep q Q → (L < LEVELS)%nat → (L' < LEVELS)%nat → L' ≠ L → relink (slots q) sl' k n x →
  (∀ y, k = Some y → y ∈ Q L) → x ∉ Q L' → linked sl' L' (Q L').
Proof.
  intros Hr HL HL' Hne [Hf _] Hk Hx. eapply linked_frame; [by apply (rep_linked _ _ Hr)|].
  intros y Hy. apply Hf; [by intros ->|]. intros E%Hk. by apply Hne, (rep_level_unique q Q y).
Qed.

Lemma rep_unused q Q x s L :
  rep q Q → slots q !! x = Some s → used s = false → (L < LEVELS)%nat → x ∉ Q L.
Proof.
  intros Hr Hs Hu HL Hx. destruct (linked_elem _ _ _ _ (rep_linked _ _ Hr L HL) Hx) as (s' & ? & ? & _).
  congruence.
Qed.

Lemma last_elem {A} (l : list A) y : last l = Some y → y ∈ l.
Proof. intros H%last_index. by eapply list_elem_of_lookup_2. Qed.

Lemma levels_insert q Q L h k l :
  rep q Q → (L < LEVELS)%nat → h = l !! 0%nat → k = last l →
  ∀ L', (L' < LEVELS)%nat → <[L:={| head := h; tail := k |}]> (levels q) !! L' =
    Some {| head := fupd Q L l L' !! 0%nat; tail := last (fupd Q L l L') |}.
Proof.
  intros Hr HL -> -> L' HL'. unfold fupd. case_decide as E; subst.
  - rewrite list_lookup_insert_eq by (by rewrite (rep_levels _ _ Hr)). done.
  - rewrite list_lookup_insert_ne by done. by apply (rep_level _ _ Hr).
Qed.

(** Slot [x], free before, is added at the back of level [L]. *)
Lemma rep_push q Q x s0 L i sl' h :
  rep q Q → (L < LEVELS)%nat → slots q !! x = Some s0 → used s0 = false →
  (∀ y s, slots q !! y = Some s → used s = true → id s ≠ i) →
  relink (slots q) sl' (last (Q L)) (Some x) x →
  sl' !! x = Some {| id := i; priority := L; next := None; used := true |} →
  length sl' = length (slots q) → count_if used sl' = (count_if used (slots q) + 1)%nat →
  h = (Q L ++ [x]) !! 0%nat →
  rep {| slots := sl'; levels := <[L:={| head := h; tail := Some x |}]> (levels q);
         nonempty := Z.lor (nonempty q) (shl 32 1 (Z.of_nat L)); len := len q + 1 |}
      (fupd Q L (Q L ++ [x])).
Proof.
  intros Hr HL Hx Hu Hfresh Hre Hx' Hlen Hc Hh.
  pose proof (relink_same _ _ _ _ _ Hre) as Hsame.
  split; cbn [slots levels nonempty len].
  - rewrite Hlen. apply Hr.
  - rewrite length_insert. apply Hr.
  - eapply levels_insert; [done..|]. by rewrite last_snoc.
  - intros L' HL'. unfold fupd. case_decide as E; [subst L'|].
    + eapply linked_push; try done; [by apply (rep_linked _ _ Hr)|by apply (rep_nodup _ _ Hr)|].
      by eapply rep_unused.
    + apply (linked_other q Q L L' sl' _ _ _ Hr HL HL' E Hre); [apply last_elem|by eapply rep_unused].
  - intros L' HL'. unfold fupd. case_decide as E; [|by apply (rep_nodup _ _ Hr)].
    apply NoDup_app. split_and!; [by apply (rep_nodup _ _ Hr)| |apply NoDup_singleton].
    intros y Hy ->%list_elem_of_singleton. by eapply rep_unused in Hy.
  - intros y s Hs Hus. destruct (decide (y = x)) as [->|Hyx].
    + simplify_eq/=. split; [done|]. unfold fupd. rewrite decide_True by done.
      apply elem_of_app. right. by left.
    + destruct (same_threads_lookup _ _ _ _ _ Hsame Hyx Hs) as (s1 & Hs1 & _ & Hp & Hu1).
      destruct (rep_used _ _ Hr y s1 Hs1) as [HL1 Hin]; [congruence|]. rewrite Hp. split; [done|].
      unfold fupd. case_decide as E; [|done]. rewrite <-E. apply elem_of_app. by left.
  - assert (∀ y s, sl' !! y = Some s → used s = true → y ≠ x → id s ≠ i ∧
      ∃ s1, slots q !! y = Some s1 ∧ id s = id s1 ∧ used s1 = true) as Hold.
    { intros y s Hs Hus Hyx. destruct (same_threads_lookup _ _ _ _ _ Hsame Hyx Hs) as (s1 & Hs1 & Hid & _ & Hu1).
      rewrite Hid. rewrite Hus in Hu1. split; [by eapply Hfresh|eauto]. }
    intros a b s s' Ha Hb Hus Hus' Hid.
    destruct (decide (a = x)) as [->|Hax], (decide (b = x)) as [->|Hbx]; [done| | |].
    + destruct (Hold b s' Hb Hus' Hbx) as [H _]. by simplify_eq/=.
    + destruct (Hold a s Ha Hus Hax) as [H _]. by simplify_eq/=.
    + destruct (Hold a s Ha Hus Hax) as (_ & s1 & H1 & E1 & ?), (Hold b s' Hb Hus' Hbx) as (_ & s2 & H2 & E2 & ?).
      eapply (rep_ids _ _ Hr); eauto. congruence.
  - apply lor_in_u; [lia|apply Hr|]. rewrite shl_level by done. by apply in_u_bit.
  - intros L' HL'. rewrite set_bit_spec, (rep_bit _ _ Hr) by done. unfold fupd.
    case_bool_decide as E1; case_decide; subst; repeat case_bool_decide; simpl; try done.
    + by destruct (Q L).
    + by destruct (Q L).
  - rewrite (rep_len _ _ Hr). lia.
Qed.

(** Slot [x], in level [L], is taken out. *)
Lemma rep_unlink q Q L l1 x l2 sl' c h k n :
  rep q Q → (L < LEVELS)%nat → Q L = l1 ++ x :: l2 →
  relink (slots q) sl' (last l1) (l2 !! 0%nat) x → sl' !! x = Some c → used c = false →
  length sl' = length (slots q) → (count_if used sl' + 1)%nat = count_if used (slots q) →
  h = (l1 ++ l2) !! 0%nat → k = last (l1 ++ l2) → (n + 1)%nat = len q →
  rep {| slots := sl'; levels := <[L:={| head := h; tail := k |}]> (levels q);
         nonempty := match h with None => clear_bit (nonempty q) L | Some _ => nonempty q end;
         len := n |}
      (fupd Q L (l1 ++ l2)).
Proof.
  intros Hr HL HQ Hre Hx Hu Hlen Hc Hh Hk Hn.
  pose proof (relink_same _ _ _ _ _ Hre) as Hsame. pose proof (rep_nodup _ _ Hr L HL) as Hnd.
  assert (∀ L', (L' < LEVELS)%nat → L' ≠ L → x ∉ Q L') as Hxo.
  { intros L' HL' Hne Hin. apply Hne. eapply (rep_level_unique q Q x); eauto. rewrite HQ.
    apply elem_of_app. right. by left. }
  split; cbn [slots levels nonempty len].
  - rewrite Hlen. apply Hr.
  - rewrite length_insert. apply Hr.
  - by eapply levels_insert.
  - intros L' HL'. unfold fupd. case_decide as E; [subst L'|].
    + eapply linked_unlink; [|by rewrite <-HQ|done]. rewrite <-HQ. by apply (rep_linked _ _ Hr).
    + apply (linked_other q Q L L' sl' _ _ _ Hr HL HL' E Hre); [|by apply Hxo]. intros y Hy%last_elem. rewrite HQ.
      apply elem_of_app. by left.
  - intros L' HL'. unfold fupd. case_decide as E; [|by apply (rep_nodup _ _ Hr)].
    rewrite HQ, <-Permutation_middle in Hnd. by apply NoDup_cons in Hnd as [_ ?].
  - intros y s Hs Hus. assert (y ≠ x) as Hyx by (intros ->; congruence).
    destruct (same_threads_lookup _ _ _ _ _ Hsame Hyx Hs) as (s1 & Hs1 & _ & Hp & Hu1).
    destruct (rep_used _ _ Hr y s1 Hs1) as [HL1 Hin]; [congruence|]. rewrite Hp. split; [done|].
    unfold fupd. case_decide as E; [|done]. rewrite E, HQ, <-Permutation_middle in Hin.
    by apply elem_of_cons in Hin as [?|?].
  - intros a b s s' Ha Hb Hus Hus' Hid.
    assert (a ≠ x ∧ b ≠ x) as [Hax Hbx] by (split; intros ->; congruence).
    destruct (same_threads_lookup _ _ _ _ _ Hsame Hax Ha) as (s1 & Hs1 & E1 & _ & U1).
    destruct (same_threads_lookup _ _ _ _ _ Hsame Hbx Hb) as (s2 & Hs2 & E2 & _ & U2).
    apply (rep_ids _ _ Hr a b s1 s2); congruence.
  - destruct h; [apply Hr|apply clear_bit_in_u, Hr].
  - intros L' HL'. unfold fupd. subst h. destruct (l1 ++ l2) as [|a l] eqn:El; simpl.
    + rewrite clear_bit_spec, (rep_bit _ _ Hr) by (done || apply Hr).
      case_decide; subst; repeat case_bool_decide; simpl; done.
    + rewrite (rep_bit _ _ Hr) by done. case_decide; subst; [|done]. rewrite HQ.
      repeat case_bool_decide; try done. by destruct l1.
  - rewrite (rep_len _ _ Hr) in Hn. lia.
Qed.

(** ** The operations on the lists *)

Lemma contains_true q i : contains q i = true ↔ is_Some (find q i).
Proof. apply bool_decide_eq_true. Qed.

Lemma queue_change q Q q' L l x :
  rep q Q → rep q' (fupd Q L l) → same_threads (slots q) (slots q') x →
  (∀ L', (L' < LEVELS)%nat → L' ≠ L → x ∉ Q L') →
  ∀ L', (L' < LEVELS)%nat → L' ≠ L → queue q' L' = queue q L'.
Proof.
  intros Hr Hr' Hs Hx L' HL' Hne. rewrite (queue_rep q Q), (queue_rep q' _) by done.
  unfold fupd. rewrite decide_False by done. eapply same_threads_ids; eauto.
Qed.

Lemma enqueue_rep q Q i L :
  rep q Q → (L < LEVELS)%nat →
  ∃ q' r, enqueue q i L = Some (q', r) ∧
  match r with
  | Ok _ => find q i = None ∧ wf q' ∧ queue q' L = queue q L ++ [i] ∧
      (∀ L', (L' < LEVELS)%nat → L' ≠ L → queue q' L' = queue q L') ∧
      len q' = (len q + 1)%nat ∧ length (slots q') = length (slots q)
  | Err AlreadyQueued => q' = q ∧ is_Some (find q i)
  | Err Full => q' = q ∧ find q i = None ∧ len q = length (slots q)
  | Err NotQueued => False
  end.
Proof.
  intros Hr HL. unfold enqueue. destruct (contains q i) eqn:Hc.
  { apply contains_true in Hc. eexists _, _. split; [done|]. simpl. eauto. }
  assert (find q i = None) as Hf.
  { apply eq_None_not_Some. rewrite <-contains_true. congruence. }
  destruct (position (λ s, negb (used s)) (slots q)) as [x|] eqn:Hp.
  2:{ eexists _, _. split; [done|]. simpl. split_and!; [done..|]. rewrite (rep_len _ _ Hr).
      rewrite position_None in Hp. clear -Hp. induction (slots q) as [|s l IH]; [done|]. simpl.
      pose proof (Hp 0%nat s eq_refl) as Hs%negb_false_iff. rewrite Hs, IH; [done|].
      intros j. apply (Hp (S j)). }
  destruct (position_lookup _ _ _ Hp) as (s0 & Hs0 & Hu%negb_true_iff).
  pose proof (lookup_lt_Some _ _ _ Hs0) as Hlt.
  rewrite as_u16_id by (pose proof (rep_cap _ _ Hr) as Hcap; unfold u_max in Hcap; lia).
  set (n := {| id := i; priority := L; next := None; used := true |}).
  rewrite (set_at_Some _ _ _ _ Hs0), (rep_level _ _ Hr L HL). simpl.
  assert (∃ sl' h, 
    (match last (Q L) with
     | Some k => s ← <[x:=n]> (slots q) !! k;
                 slots2 ← set_at (<[x:=n]> (slots q)) k (set_next s (Some x)); Some (slots2, Q L !! 0%nat)
     | None => Some (<[x:=n]> (slots q), Some x)
     end) = Some (sl', h) ∧ h = (Q L ++ [x]) !! 0%nat ∧ sl' !! x = Some n ∧
    relink (slots q) sl' (last (Q L)) (Some x) x ∧ length sl' = length (slots q) ∧
    count_if used sl' = (count_if used (slots q) + 1)%nat) as (sl' & h & -> & Hh & Hx' & Hre & Hlen & Hcnt).
  { pose proof (count_if_insert used _ _ _ n Hs0) as Hc1. rewrite Hu in Hc1. simpl in Hc1.
    destruct (last (Q L)) as [k|] eqn:Hk.
    - pose proof (last_elem _ _ Hk) as Hin.
      destruct (linked_elem _ _ _ _ (rep_linked _ _ Hr L HL) Hin) as (sk & Hsk & Huk & _).
      assert (k ≠ x) as Hkx by (intros ->; congruence).
      assert (<[x:=n]> (slots q) !! k = Some sk) as Hsk' by (by rewrite list_lookup_insert_ne).
      rewrite Hsk'. simpl. rewrite (set_at_Some _ _ _ _ Hsk'). simpl. eexists _, _. split; [done|].
      pose proof (count_if_insert used _ _ _ (set_next sk (Some x)) Hsk') as Hc2. simpl in Hc2.
      split_and!.
      + destruct (Q L); [by apply elem_of_nil in Hin|done].
      + rewrite list_lookup_insert_ne by done. by apply list_lookup_insert_eq.
      + split.
        * intros y Hy Hne. rewrite !list_lookup_insert_ne by congruence. done.
        * intros y [= <-]. exists sk. split; [done|]. apply list_lookup_insert_eq.
          by eapply lookup_lt_Some.
      + by rewrite !length_insert.
      + destruct (used sk); lia.
    - apply last_None in Hk. rewrite Hk. eexists _, _. split; [done|]. split_and!; [done| | | |lia].
      + by apply list_lookup_insert_eq.
      + split; [|done]. intros y Hy _. by rewrite list_lookup_insert_ne.
      + apply length_insert. }
  simpl. rewrite (set_at_Some _ _ _ _ (rep_level _ _ Hr L HL)). simpl. eexists _, _. split; [done|].
  simpl. split; [done|].
  match goal with |- wf ?q' ∧ _ => assert (rep q' (fupd Q L (Q L ++ [x]))) as Hr' end.
  { eapply rep_push; try done. intros y s Hs Hus <-. unfold find in Hf. rewrite position_None in Hf.
    specialize (Hf y s Hs). by rewrite Hus, Z.eqb_refl in Hf. }
  pose proof (relink_same _ _ _ _ _ Hre) as Hsame.
  split_and!; [by eexists| | |done|done].
  - rewrite (queue_rep _ _ L Hr' HL), (queue_rep q Q) by done. unfold fupd. rewrite decide_True by done.
    cbn [slots]. rewrite ids_app. f_equal; [|by rewrite (ids_cons _ n)].
    eapply same_threads_ids; [done|]. by eapply rep_unused.
  - eapply queue_change; eauto. intros; by eapply rep_unused.
Qed.

Lemma walk_linked sl L l1 x l2 prev fuel :
  linked sl L (l1 ++ x :: l2) → x ∉ l1 → (length l1 ≤ fuel)%nat →
  walk fuel sl x prev ((l1 ++ x :: l2) !! 0%nat) =
  Some (match last l1 with Some p => Some p | None => prev end).
Proof.
  revert prev fuel. induction l1 as [|y l1 IH]; intros prev fuel Hl Hx Hf.
  { destruct fuel; simpl; by rewrite Nat.eqb_refl. }
  destruct fuel as [|fuel]; simpl in *; [lia|].
  apply not_elem_of_cons in Hx as [Hyx Hx]. destruct (Nat.eqb_spec y x); [congruence|].
  destruct (Hl 0%nat y eq_refl) as (s & -> & _ & _ & Hn). simpl. rewrite Hn. simpl.
  rewrite (IH (Some y) fuel); [|by eapply linked_tail|done|lia].
  f_equal. rewrite last_cons. by destruct (last l1).
Qed.

Lemma rep_split q Q x s :
  rep q Q → slots q !! x = Some s → used s = true →
  (priority s < LEVELS)%nat ∧
  ∃ l1 l2, Q (priority s) = l1 ++ x :: l2 ∧ x ∉ l1 ∧ x ∉ l2 ∧ next s = l2 !! 0%nat ∧ (length l1 ≤ length (slots q))%nat.
Proof.
  intros Hr Hs Hu. destruct (rep_used _ _ Hr x s Hs Hu) as [HL Hin]. split; [done|].
  apply list_elem_of_split in Hin as (l1 & l2 & HQ). exists l1, l2.
  pose proof (rep_nodup _ _ Hr _ HL) as Hnd. pose proof (rep_linked _ _ Hr _ HL) as Hl.
  pose proof (linked_length _ _ _ Hl Hnd) as Hlen.
  rewrite HQ in *. rewrite length_app in Hlen. simpl in Hlen.
  apply NoDup_app in Hnd as (_ & Hd & [Hd2 _]%NoDup_cons).
  split_and!; [done| |done| |lia].
  - intros H. apply (Hd x H). by left.
  - destruct (Hl (length l1) x) as (s' & ? & _ & _ & Hn); [by apply list_lookup_middle|]. simplify_eq.
    rewrite Hn, lookup_app_r by lia. by replace (S (length l1) - length l1)%nat with 1%nat by lia.
Qed.

Lemma queue_unlink q Q q' L l1 x l2 s :
  rep q Q → (L < LEVELS)%nat → Q L = l1 ++ x :: l2 → rep q' (fupd Q L (l1 ++ l2)) →
  same_threads (slots q) (slots q') x → slots q !! x = Some s →
  queue q L = ids (slots q) l1 ++ id s :: ids (slots q) l2 ∧
  queue q' L = ids (slots q) l1 ++ ids (slots q) l2 ∧
  (∀ L', (L' < LEVELS)%nat → L' ≠ L → queue q' L' = queue q L').
Proof.
  intros Hr HL HQ Hr' Hsame Hs. pose proof (rep_nodup _ _ Hr L HL) as Hnd.
  assert (x ∈ Q L) as Hin by (rewrite HQ; apply elem_of_app; right; by left).
  split_and!.
  - rewrite (queue_rep q Q), HQ, ids_app, (ids_cons _ s) by done. done.
  - rewrite (queue_rep q' _ L Hr' HL). unfold fupd. rewrite decide_True, <-ids_app by done.
    apply (same_threads_ids _ _ x); [done|]. rewrite HQ, <-Permutation_middle in Hnd.
    by apply NoDup_cons in Hnd as [? _].
  - eapply queue_change; eauto. intros L' HL' Hne Hin'. apply Hne. by apply (rep_level_unique q Q x).
Qed.

Lemma remove_rep q Q i :
  rep q Q →
  ∃ q' r, remove q i = Some (q', r) ∧
  match r with
  | Ok p => (p < LEVELS)%nat ∧ wf q' ∧
      (∃ a b, queue q p = a ++ i :: b ∧ queue q' p = a ++ b) ∧
      (∀ L', (L' < LEVELS)%nat → L' ≠ p → queue q' L' = queue q L') ∧
      len q = (len q' + 1)%nat ∧ length (slots q') = length (slots q)
  | Err NotQueued => q' = q ∧ find q i = None
  | Err _ => False
  end.
Proof.
  intros Hr. unfold remove. destruct (find q i) as [x|] eqn:Hf.
  2:{ eexists _, _. split; [done|]. done. }
  destruct (find_rep q Q i x Hr Hf) as (s & Hs & Hu & Hid & _ & _). rewrite Hs. simpl.
  destruct (rep_split q Q x s Hr Hs Hu) as (HL & l1 & l2 & HQ & Hx1 & Hx2 & Hn & Hl1).
  set (L := priority s) in *. rewrite (rep_level _ _ Hr L HL). simpl.
  pose proof (rep_linked _ _ Hr L HL) as Hl. rewrite HQ in *.
  rewrite (walk_linked _ L l1 x l2 None) by done. simpl.
  pose proof (count_if_insert used _ _ _ (set_next (set_used s false) None) Hs) as Hc1.
  rewrite Hu in Hc1. simpl in Hc1.
  assert (∃ sl1 h, match (match last l1 with Some p => Some p | None => None end) with
     | Some k => sp ← slots q !! k; slots1 ← set_at (slots q) k (set_next sp (next s));
                 Some (slots1, (l1 ++ x :: l2) !! 0%nat)
     | None => Some (slots q, next s) end = Some (sl1, h) ∧ h = (l1 ++ l2) !! 0%nat ∧
    sl1 !! x = Some s ∧ length sl1 = length (slots q) ∧ count_if used sl1 = count_if used (slots q) ∧
    ∀ c, relink (slots q) (<[x:=c]> sl1) (last l1) (l2 !! 0%nat) x) as
    (sl1 & h & -> & Hh & Hs1 & Hlen1 & Hcnt1 & Hre).
  { destruct (last l1) as [k|] eqn:Hk.
    - pose proof (last_elem _ _ Hk) as Hin.
      destruct (linked_elem _ _ _ k Hl) as (sk & Hsk & Huk & _); [apply elem_of_app; by left|].
      assert (k ≠ x) as Hkx by (intros ->; done).
      rewrite Hsk. simpl. rewrite (set_at_Some _ _ _ _ Hsk). simpl. eexists _, _. split; [done|].
      split_and!.
      + destruct l1; [by apply elem_of_nil in Hin|done].
      + by rewrite list_lookup_insert_ne.
      + apply length_insert.
      + pose proof (count_if_insert used _ _ _ (set_next sk (next s)) Hsk) as Hc2. simpl in Hc2.
        destruct (used sk); lia.
      + intros c. split.
        * intros y Hy Hne. rewrite !list_lookup_insert_ne by congruence. done.
        * intros y [= <-]. exists sk. split; [done|]. rewrite list_lookup_insert_ne by done.
          rewrite list_lookup_insert_eq by (by eapply lookup_lt_Some). by rewrite Hn.
    - apply last_None in Hk as ->. eexists _, _. split; [done|]. split_and!; try done.
      intros c. split; [|done]. intros y Hy _. by rewrite list_lookup_insert_ne. }
  simpl. rewrite (set_at_Some _ _ _ _ (rep_level _ _ Hr L HL)). simpl. rewrite Hs1. simpl.
  rewrite (set_at_Some _ _ _ _ Hs1). simpl.
  set (c := set_next (set_used s false) None) in *.
  assert (count_if used (<[x:=c]> sl1) + 1 = count_if used (slots q))%nat as Hcnt.
  { pose proof (count_if_insert used _ _ _ c Hs1) as Hc2. rewrite Hu in Hc2.
    change (used c) with false in Hc2. simpl in Hc2. lia. }
  assert (usub (len q) 1 = Some (len q - 1)%nat) as ->.
  { apply usub_Some. rewrite (rep_len _ _ Hr). lia. }
  simpl. eexists _, _. split; [done|]. simpl.
  assert ((if decide (last (l1 ++ x :: l2) = Some (as_u16 x))
    then match last l1 with Some p => Some p | None => None end
    else last (l1 ++ x :: l2)) = last (l1 ++ l2)) as Etail.
  { rewrite as_u16_id by (pose proof (rep_cap _ _ Hr) as Hcap; unfold u_max in Hcap;
      pose proof (lookup_lt_Some _ _ _ Hs); lia).
    rewrite last_app_cons, last_cons, last_app. destruct (last l2) as [z|] eqn:Hz.
    - apply last_elem in Hz. rewrite decide_False by congruence. done.
    - rewrite decide_True by done. by destruct (last l1). }
  rewrite Etail. clear Etail.
  match goal with |- context [wf ?q1] => set (q' := q1) in * end.
  assert (rep q' (fupd Q L (l1 ++ l2))) as Hr'.
  { apply (rep_unlink q Q L l1 x l2 (<[x:=c]> sl1) c h); try done.
    - apply list_lookup_insert_eq. by eapply lookup_lt_Some.
    - by rewrite length_insert.
    - rewrite (rep_len _ _ Hr). lia. }
  pose proof (relink_same _ _ _ _ _ (Hre c)) as Hsame.
  destruct (queue_unlink q Q q' L l1 x l2 s) as (H1 & H2 & H3); try done.
  split_and!; try done.
  - by eexists.
  - rewrite Hid in H1. eauto.
  - rewrite (rep_len _ _ Hr). simpl. lia.
  - simpl. by rewrite length_insert.
Qed.

(** The level [highest] finds, and its first slot. *)
Lemma highest_rep q Q L :
  rep q Q → highest (nonempty q) = Some L →
  (L < LEVELS)%nat ∧ (∃ x l s, Q L = x :: l ∧ slots q !! x = Some s ∧ used s = true ∧
    priority s = L ∧ next s = l !! 0%nat) ∧
  ∀ L', (L < L')%nat → (L' < LEVELS)%nat → Q L' = [].
Proof.
  intros Hr Hh. destruct (highest_Some _ _ (rep_bits _ _ Hr) Hh) as (HL & Hb & Hhi).
  split_and!; [done| |].
  - rewrite (rep_bit _ _ Hr L HL) in Hb. apply bool_decide_eq_true in Hb.
    pose proof (rep_linked _ _ Hr L HL) as Hl. destruct (Q L) as [|x l]; [done|].
    destruct (Hl 0%nat x eq_refl) as (s & ? & ? & ? & ?). by exists x, l, s.
  - intros L' Hlt HL'. specialize (Hhi L' Hlt). rewrite (rep_bit _ _ Hr L' HL') in Hhi.
    apply bool_decide_eq_false in Hhi. by destruct (Q L'); [|destruct Hhi].
Qed.

Lemma highest_empty q Q L :
  rep q Q → highest (nonempty q) = None → (L < LEVELS)%nat → Q L = [].
Proof.
  intros Hr Hh HL. pose proof (highest_None _ L Hh) as Hb. rewrite (rep_bit _ _ Hr L HL) in Hb.
  apply bool_decide_eq_false in Hb. by destruct (Q L); [|destruct Hb].
Qed.

Lemma pick_next_rep q Q :
  rep q Q →
  ∃ q' o, pick_next q = Some (q', o) ∧ peek q = Some o ∧
  match o with
  | None => q' = q ∧ len q = 0%nat ∧ ∀ L, (L < LEVELS)%nat → queue q L = []
  | Some (i, p) => (p < LEVELS)%nat ∧ wf q' ∧ queue q p = i :: queue q' p ∧
      (∀ L, (p < L)%nat → (L < LEVELS)%nat → queue q L = []) ∧
      (∀ L, (L < LEVELS)%nat → L ≠ p → queue q' L = queue q L) ∧
      len q = (len q' + 1)%nat ∧ length (slots q') = length (slots q)
  end.
Proof.
  intros Hr. unfold pick_next, peek. destruct (highest (nonempty q)) as [L|] eqn:Hh.
  2:{ exists q, None. split_and!; [done..| |].
      - rewrite (rep_len _ _ Hr). destruct (count_if used (slots q)) eqn:E; [done|].
        destruct (proj1 (count_if_pos used (slots q))) as (x & s & Hs & Hu); [lia|].
        destruct (rep_used _ _ Hr x s Hs Hu) as [HL Hin].
        rewrite (highest_empty q Q) in Hin by done. by apply elem_of_nil in Hin.
      - intros L HL. by rewrite (queue_rep q Q), (highest_empty q Q) by done. }
  destruct (highest_rep q Q L Hr Hh) as (HL & (x & l & s & HQ & Hs & Hu & Hp & Hn) & Hhi).
  unfold unlink_head. pose proof (rep_level _ _ Hr L HL) as Elv. rewrite HQ in Elv. simpl in Elv.
  rewrite Elv. simpl. rewrite Hs. simpl.
  rewrite (set_at_Some _ _ _ _ Elv), (set_at_Some _ _ _ _ Hs). simpl.
  pose proof (lookup_lt_Some _ _ _ Hs) as Hlt.
  rewrite list_lookup_insert_eq by done. simpl.
  rewrite (set_at_Some _ _ _ (set_next s None)) by (by apply list_lookup_insert_eq). simpl.
  rewrite list_insert_insert_eq. set (c := set_used (set_next s None) false).
  pose proof (count_if_insert used _ _ _ c Hs) as Hc. rewrite Hu in Hc.
  change (used c) with false in Hc. simpl in Hc.
  assert (usub (len q) 1 = Some (len q - 1)%nat) as ->.
  { apply usub_Some. rewrite (rep_len _ _ Hr). lia. }
  simpl. eexists _, _. split_and!; [done..|]. rewrite Hp.
  match goal with |- context [wf ?q1] => set (q' := q1) in * end.
  assert (relink (slots q) (<[x:=c]> (slots q)) (last (@nil nat)) (l !! 0%nat) x) as Hre.
  { split; [|done]. intros y Hy _. by rewrite list_lookup_insert_ne. }
  assert (rep q' (fupd Q L ([] ++ l))) as Hr'.
  { assert (q' = {| slots := <[x:=c]> (slots q);
        levels := <[L:={| head := l !! 0%nat; tail := last l |}]> (levels q);
        nonempty := match l !! 0%nat with None => clear_bit (nonempty q) L | Some _ => nonempty q end;
        len := len q - 1 |}) as ->.
    { unfold q'. rewrite Hn. by destruct l. }
    apply (rep_unlink q Q L [] x l _ c); try done.
    - by apply list_lookup_insert_eq.
    - apply length_insert.
    - lia.
    - rewrite (rep_len _ _ Hr). lia. }
  destruct (queue_unlink q Q q' L [] x l s) as (H1 & H2 & H3); try done.
  { apply same_threads_insert. }
  split_and!; try done.
  - by eexists.
  - by rewrite H1, H2.
  - intros L' Hgt HL'. by rewrite (queue_rep q Q), Hhi by done.
  - unfold q'. simpl. rewrite (rep_len _ _ Hr). lia.
  - unfold q'. simpl. by rewrite length_insert.
Qed.

Lemma runqueue_wf_new N q : new N = Some q → wf q ∧ len q = 0%nat ∧ length (slots q) = N ∧ ∀ L, queue q L = [].
Proof.
  intros Hq. pose proof (rep_new N q Hq) as Hr. split; [by eexists|].
  assert (∀ L, (L < LEVELS)%nat → queue q L = []) as He by (intros L HL; by rewrite (queue_rep q _ L Hr HL)).
  split_and!.
  - unfold new in Hq. destruct (_ <=? _); by simplify_eq/=.
  - unfold new in Hq. destruct (_ <=? _); simplify_eq/=. by rewrite length_replicate.
  - intros L. destruct (decide (L < LEVELS)%nat); [by apply He|]. unfold queue.
    rewrite lookup_ge_None_2; [done|]. rewrite (rep_levels _ _ Hr). lia.
Qed.

(** ** The order of picking *)

(** The threads of the levels below [n], highest level first, in arrival order within one. *)
Fixpoint order_below (q : t) (n : nat) : list (ThreadId * Priority) :=
  match n with
  | O => []
  | S n => ((λ i, (i, n)) <$> queue q n) ++ order_below q n
  end.

Definition pick_order (q : t) : list (ThreadId * Priority) := order_below q LEVELS.

Lemma order_below_skip q K L :
  (L < K)%nat → (∀ L', (L < L')%nat → (L' < K)%nat → queue q L' = []) →
  order_below q K = ((λ i, (i, L)) <$> queue q L) ++ order_below q L.
Proof.
  induction K as [|K IH]; intros HL He; [lia|]. simpl.
  destruct (decide (L = K)) as [->|]; [done|]. rewrite (He K) by lia. simpl. apply IH; [lia|].
  intros L' ? ?. apply He; lia.
Qed.

Lemma order_below_empty q K : (∀ L, (L < K)%nat → queue q L = []) → order_below q K = [].
Proof. induction K as [|K IH]; intros He; [done|]. simpl. rewrite He by lia. apply IH. auto. Qed.

Lemma order_below_ext q q' K : (∀ L, (L < K)%nat → queue q' L = queue q L) → order_below q' K = order_below q K.
Proof. induction K as [|K IH]; intros He; [done|]. simpl. rewrite He by lia. f_equal. auto. Qed.

Lemma drain_order fuel q : wf q → (len q < fuel)%nat → drain fuel q = Some (pick_order q).
Proof.
  revert q. induction fuel as [|fuel IH]; intros q [Q Hr] Hf; [lia|]. simpl.
  destruct (pick_next_rep q Q Hr) as (q' & [[i p]|] & -> & _ & Ho); simpl.
  - destruct Ho as (Hp & Hwf & Hq & Hhi & Hoth & Hlen & _). rewrite (IH q' Hwf) by lia. simpl.
    f_equal. unfold pick_order.
    rewrite (order_below_skip q LEVELS p), (order_below_skip q' LEVELS p), Hq by
      (try done; intros L' ? ?; rewrite ?Hoth by lia; by apply Hhi). simpl. f_equal. f_equal.
    apply order_below_ext. intros L HL. apply Hoth; lia.
  - destruct Ho as (-> & _ & He). by rewrite <-(order_below_empty q LEVELS He).
Qed.

(** The iterator has the slots [l] of level [K] and the levels below [K] before it. *)
Definition iter_at (q : t) (Q : nat → list nat) (K : nat) (l : list nat) (it : Iter) : Prop :=
  (K ≤ LEVELS)%nat ∧ in_u 32 (it_levels it) ∧
  (∀ L, Z.testbit (it_levels it) (Z.of_nat L) = bool_decide (L < K)%nat && bool_decide (Q L ≠ [])) ∧
  cursor it = l !! 0%nat ∧ linked (slots q) K l.

Lemma iter_next_at fuel q Q K l it :
  rep q Q → iter_at q Q K l it →
  ∃ it' o, iter_next (S (S fuel)) q it = Some (it', o) ∧
  match o with
  | None => ids (slots q) l = [] ∧ order_below q K = []
  | Some x => ∃ K' l', iter_at q Q K' l' it' ∧
      ((λ i, (i, K)) <$> ids (slots q) l) ++ order_below q K =
      x :: ((λ i, (i, K')) <$> ids (slots q) l') ++ order_below q K'
  end.
Proof.
  intros Hr (HK & Hu & Hb & Hc & Hl). destruct l as [|x l].
  2:{ destruct (Hl 0%nat x eq_refl) as (s & Hs & _ & Hp & Hn). simpl in Hc. cbn [iter_next]. rewrite Hc. simpl.
      rewrite Hs. simpl. eexists _, _. split; [done|]. exists K, l. split.
      - split_and!; try done. by eapply linked_tail.
      - by rewrite (ids_cons _ s), Hp by done. }
  cbn [iter_next]. rewrite Hc. simpl. destruct (highest (it_levels it)) as [L|] eqn:Hh.
  2:{ eexists _, None. split; [done|]. split; [done|]. apply order_below_empty. intros L HL.
      rewrite (queue_rep q Q) by (done || lia). pose proof (highest_None _ L Hh) as Hb'.
      rewrite Hb, bool_decide_eq_true_2 in Hb' by done. simpl in Hb'.
      apply bool_decide_eq_false in Hb'. by destruct (Q L); [|destruct Hb']. }
  destruct (highest_Some _ _ Hu Hh) as (HL & HbL & Hhi).
  rewrite Hb in HbL. apply andb_true_iff in HbL as [HLK%bool_decide_eq_true HQ%bool_decide_eq_true].
  rewrite (rep_level _ _ Hr L HL). simpl.
  pose proof (rep_linked _ _ Hr L HL) as HlL. destruct (Q L) as [|x l] eqn:EQ; [done|]. simpl.
  destruct (HlL 0%nat x eq_refl) as (s & Hs & _ & Hp & Hn). rewrite Hs. simpl.
  eexists _, _. split; [done|]. exists L, l. split.
  - split_and!; simpl; try done; [lia|by apply clear_bit_in_u| |by eapply linked_tail].
    intros n. rewrite clear_bit_spec, Hb by done. repeat case_bool_decide; simpl; try done; try lia.
    exfalso. specialize (Hhi n ltac:(lia)). rewrite Hb in Hhi.
    rewrite !bool_decide_eq_true_2 in Hhi; done.
  - rewrite (order_below_skip q K L), (queue_rep q Q), EQ, (ids_cons _ s), Hp; try done.
    intros L' HL' HK'. specialize (Hhi L' HL'). rewrite Hb, bool_decide_eq_true_2 in Hhi by done.
    simpl in Hhi. apply bool_decide_eq_false in Hhi. rewrite (queue_rep q Q) by (done || lia).
    by destruct (Q L'); [|destruct Hhi].
Qed.

Lemma collect_at fuel q Q K l it :
  rep q Q → iter_at q Q K l it →
  (length (((λ i, (i, K)) <$> ids (slots q) l) ++ order_below q K) < fuel)%nat →
  collect fuel q it = Some (((λ i, (i, K)) <$> ids (slots q) l) ++ order_below q K).
Proof.
  revert K l it. induction fuel as [|fuel IH]; intros K l it Hr Hit Hf; [lia|].
  cbn [collect]. change 33%nat with (S (S 31)).
  destruct (iter_next_at 31 q Q K l it Hr Hit) as (it' & [x|] & -> & Ho); simpl.
  - destruct Ho as (K' & l' & Hit' & E). rewrite E in Hf |- *. simpl in Hf.
    by rewrite (IH K' l' it') by (done || lia).
  - destruct Ho as [-> ->]. done.
Qed.

Lemma find_queue q Q i :
  rep q Q → is_Some (find q i) ↔ ∃ L, (L < LEVELS)%nat ∧ i ∈ queue q L.
Proof.
  intros Hr. split.
  - intros [x Hf]. destruct (find_rep q Q i x Hr Hf) as (s & Hs & _ & Hid & HL & Hin).
    exists (priority s). split; [done|]. rewrite (queue_rep q Q) by done. apply elem_of_ids. eauto.
  - intros (L & HL & Hin). destruct (find q i) eqn:Hf; [done|]. by eapply find_None in Hin.
Qed.

(** ** Properties *)

(** C8. The slots, links and bitmap implement one FIFO of threads per priority level.
    [new] makes them all empty. [enqueue] appends to the thread's level, and refuses a thread
    that is queued at any level, or any thread exactly when every slot is taken; [remove]
    takes a thread out of the level it is queued at, from wherever it is, and refuses one that
    is not queued. A refused operation changes nothing, and nothing panics: the walk of
    [remove] ends. *)
Theorem run_queue_refines_fifos q i p :
  wf q → (p < LEVELS)%nat →
  (∃ q' r, enqueue q i p = Some (q', r) ∧
   match r with
   | Ok _ => wf q' ∧ queue q' p = queue q p ++ [i] ∧
       (∀ L, (L < LEVELS)%nat → L ≠ p → queue q' L = queue q L) ∧ len q' = (len q + 1)%nat
   | Err AlreadyQueued => q' = q ∧ ∃ L, (L < LEVELS)%nat ∧ i ∈ queue q L
   | Err Full => q' = q ∧ len q = length (slots q)
   | Err NotQueued => False
   end) ∧
  (∃ q' r, remove q i = Some (q', r) ∧
   match r with
   | Ok p' => (p' < LEVELS)%nat ∧ wf q' ∧
       (∃ a b, queue q p' = a ++ i :: b ∧ queue q' p' = a ++ b) ∧
       (∀ L, (L < LEVELS)%nat → L ≠ p' → queue q' L = queue q L) ∧ len q = (len q' + 1)%nat
   | Err NotQueued => q' = q ∧ ∀ L, (L < LEVELS)%nat → i ∉ queue q L
   | Err _ => False
   end) ∧
  (∀ N q0, new N = Some q0 → wf q0 ∧ len q0 = 0%nat ∧ ∀ L, queue q0 L = []).
Proof.
  intros [Q Hr] Hp. split_and!.
  - destruct (enqueue_rep q Q i p Hr Hp) as (q' & r & Hq & Ho). exists q', r. split; [done|].
    destruct r as [|[]]; [..|done].
    + destruct Ho as (_ & ? & ? & ? & ? & _). done.
    + destruct Ho as (? & _ & ?). done.
    + destruct Ho as [? Hf]. split; [done|]. by eapply find_queue.
  - destruct (remove_rep q Q i Hr) as (q' & r & Hq & Ho). exists q', r. split; [done|].
    destruct r as [|[]]; [|done..|].
    + destruct Ho as (? & ? & ? & ? & ? & _). done.
    + destruct Ho as [? Hf]. split; [done|]. intros L HL. by eapply find_None.
  - intros N q0 Hq. destruct (runqueue_wf_new N q0 Hq) as (? & ? & _ & ?). done.
Qed.


(** [pick_next] takes the thread that arrived first at the highest level that has one,
    and [peek] names the same thread without taking it: every higher level is empty, the other
    levels are untouched, and it finds nothing exactly when the queue is empty. The iterator
    yields every queued thread once, in the order [pick_next] would take them: walking the
    queue and draining it give the same list, and both end. *)
Theorem picks_highest_then_oldest q :
  wf q →
  (∃ q' o, pick_next q = Some (q', o) ∧ peek q = Some o ∧
  match o with
  | None => q' = q ∧ is_empty q = true ∧ ∀ L, (L < LEVELS)%nat → queue q L = []
  | Some (i, p) => (p < LEVELS)%nat ∧ wf q' ∧ queue q p = i :: queue q' p ∧
      (∀ L, (p < L)%nat → (L < LEVELS)%nat → queue q L = []) ∧
      (∀ L, (L < LEVELS)%nat → L ≠ p → queue q' L = queue q L) ∧ len q = (len q' + 1)%nat
  end) ∧
  (drain (S (len q)) q = Some (pick_order q) ∧
  collect (S (length (pick_order q))) q (iter q) = Some (pick_order q)).
Proof.
  intros Hq. split.
  { revert Hq. intros [Q Hr]. destruct (pick_next_rep q Q Hr) as (q' & o & H1 & H2 & Ho).
  exists q', o. split_and!; [done..|]. destruct o as [[i p]|].
  - destruct Ho as (? & ? & ? & ? & ? & ? & _). done.
  - destruct Ho as (? & Hl & ?). unfold is_empty. by rewrite Hl. }
  { revert Hq. intros [Q Hr]. split.
  - apply drain_order; [by eexists|lia].
  - pose proof (collect_at (S (length (pick_order q))) q Q LEVELS [] (iter q) Hr) as Hcol.
    apply Hcol; [|apply Nat.lt_succ_diag_r].
    split_and!; try done; [by apply rep_bits with Q|]. intros L. simpl.
    destruct (decide (L < LEVELS)%nat) as [HL|HL].
    + rewrite (rep_bit _ _ Hr L HL). by rewrite (bool_decide_eq_true_2 (L < LEVELS)%nat).
    + rewrite bool_decide_eq_false_2 by done. simpl. apply (in_u_testbit 32); [lia|apply Hr|].
      unfold LEVELS in HL. lia. }
Qed.

(** Three threads queued at two levels. *)
Definition enqueued (q : t) (i : ThreadId) (p : Priority) : t := from_option fst q (enqueue q i p).
Definition empty_queue : t :=
  {| slots := replicate 4 {| id := 0; priority := 0; next := None; used := false |};
     levels := replicate LEVELS {| head := None; tail := None |}; nonempty := 0; len := 0 |}.
Definition example_queue : t := enqueued (enqueued (enqueued empty_queue 1 3) 2 7) 3 3.

Lemma enqueued_wf q i p : wf q → (p < LEVELS)%nat → wf (enqueued q i p).
Proof.
  intros [Q Hr] Hp. unfold enqueued. destruct (enqueue_rep q Q i p Hr Hp) as (q1 & r1 & -> & Ho).
  simpl. destruct r1 as [|[]]; [apply Ho|destruct Ho as [-> _]..|done]; by eexists.
Qed.

Lemma example_runqueue_wf : wf example_queue.
Proof.
  repeat (apply enqueued_wf; [|unfold LEVELS; lia]).
  apply (runqueue_wf_new 4). reflexivity.
Qed.

Lemma run_queue_refines_fifos_witness :
  ∃ q' r, enqueue example_queue 9 3 = Some (q', r).
Proof.
  destruct (run_queue_refines_fifos example_queue 9 3 example_runqueue_wf) as [(q' & r & H & _) _].
  { unfold LEVELS. lia. }
  exists q', r. exact H.
Defined.

Lemma picks_highest_then_oldest_witness :
  (∃ q', pick_next example_queue = Some (q', Some (2, 7%nat))) ∧
  drain 4 example_queue = Some [(2, 7%nat); (1, 3%nat); (3, 3%nat)].
Proof.
  destruct (picks_highest_then_oldest example_queue example_runqueue_wf) as [(q' & o & H & Hp & _) [Hd _]]. split; [|exact Hd].
  exists q'. rewrite H. vm_compute in Hp. simplify_eq. reflexivity.
Defined.

End RunQueue.
