(* ===== verification/SchedBalance.v ===== *)
(** * Placement and balancing

    [kernel/sched/src/balance.rs]: which CPU's queue a woken thread joins, and which CPU an
    under-loaded one pulls a thread from.  Pure decisions over snapshots of the CPUs. *)

From S2P Require Import Prelude SchedRunQueue.

Module CpuSet.

(** A set of CPUs is a [u64], one bit each. *)
Abbreviation t := Z (only parsing).

Definition EMPTY : t := 0%Z.
Definition all (cpus : nat) : t :=
  if (64 <=? cpus)%nat then u64_MAX else (shl 64 1 (Z.of_nat cpus) - 1)%Z.
Definition single (cpu : nat) : t :=
  if (cpu <? 64)%nat then shl 64 1 (Z.of_nat cpu) else EMPTY.
Definition contains (s : t) (cpu : nat) : bool :=
  (cpu <? 64)%nat && negb (Z.land s (shl 64 1 (Z.of_nat cpu)) =? 0)%Z.
Definition is_empty (s : t) : bool := (s =? 0)%Z.
Definition intersect (s o : t) : t := Z.land s o.
(** [trailing_zeros] and [count_ones] of a 64-bit word. *)
Definition trailing_zeros (s : Z) : nat :=
  from_option (λ n, n) 64 (position (λ n, Z.testbit s (Z.of_nat n)) (seq 0 64)).
Definition count_ones (s : Z) : nat :=
  count_if (λ n, Z.testbit s (Z.of_nat n)) (seq 0 64).
Definition first (s : t) : option nat := if (s =? 0)%Z then None else Some (trailing_zeros s).
Definition len (s : t) : nat := count_ones s.
Definition iter (s : t) : list nat := filter (λ cpu, contains s cpu = true) (seq 0 64).

Lemma contains_spec s cpu : contains s cpu = bool_decide (cpu < 64) && Z.testbit s (Z.of_nat cpu).
Proof.
  unfold contains. destruct (Nat.ltb_spec cpu 64); [|by rewrite bool_decide_eq_false_2 by lia].
  rewrite bool_decide_eq_true_2, shl_bit by lia. simpl. apply land_bit. lia.
Qed.

Lemma in_u_nonzero_bit s : in_u 64 s → s ≠ 0%Z → ∃ n, n < 64 ∧ Z.testbit s (Z.of_nat n) = true.
Proof.
  intros [H0 H1] Hz. unfold u_max in H1. exists (Z.to_nat (Z.log2 s)).
  pose proof (Z.log2_nonneg s). assert (Z.log2 s < 64)%Z by (apply Z.log2_lt_pow2; lia).
  split; [lia|]. rewrite Z2Nat.id by done. apply Z.bit_log2. lia.
Qed.

Lemma contains_all n c : contains (all n) c = true ↔ c < n ∧ c < 64.
Proof.
  rewrite contains_spec. unfold all. destruct (Nat.leb_spec 64 n).
  - rewrite u_max_eq by lia. split.
    + intros [Hc%bool_decide_eq_true _]%andb_true_iff. lia.
    + intros [_ Hc]. rewrite bool_decide_eq_true_2 by done. apply Z.ones_spec_low. lia.
  - rewrite shl_bit by lia.
    assert (2 ^ Z.of_nat n - 1 = Z.ones (Z.of_nat n))%Z as -> by (rewrite Z.ones_equiv; lia).
    split.
    + intros [Hc%bool_decide_eq_true Hb]%andb_true_iff. split; [|done].
      destruct (decide (c < n)); [done|]. rewrite Z.ones_spec_high in Hb by lia. done.
    + intros [Hc _]. rewrite bool_decide_eq_true_2 by lia. apply Z.ones_spec_low. lia.
Qed.

Lemma contains_single n c : contains (single n) c = true ↔ c = n ∧ n < 64.
Proof.
  rewrite contains_spec. unfold single, EMPTY. destruct (Nat.ltb_spec n 64).
  - rewrite shl_bit by lia. split.
    + intros [Hc%bool_decide_eq_true Hb]%andb_true_iff. split; [|done].
      destruct (decide (c = n)); [done|]. by rewrite Z.pow2_bits_false in Hb by lia.
    + intros [-> _]. rewrite bool_decide_eq_true_2, Z.pow2_bits_true by lia. done.
  - rewrite Z.testbit_0_l, andb_false_r. split; [done|lia].
Qed.

Lemma contains_intersect s o c : contains (intersect s o) c = contains s c && contains o c.
Proof. rewrite !contains_spec. unfold intersect. rewrite Z.land_spec. by case_bool_decide. Qed.

Lemma elem_of_iter s c : c ∈ iter s ↔ contains s c = true.
Proof.
  unfold iter. rewrite list_elem_of_filter, elem_of_seq, contains_spec.
  case_bool_decide; simpl; intuition (done || lia).
Qed.

(** The bit operations of [CpuSet] are those of sets of CPUs below 64: membership in
    [all], [single] and [intersect]; [iter] lists exactly the members, each once; [len]
    counts them; [first] is the lowest, and absent exactly when [is_empty]. *)
Theorem cpu_set_refines_sets s o :
  in_u 64 s →
  (∀ n c, contains (all n) c = true ↔ c < n ∧ c < 64) ∧
  (∀ n c, contains (single n) c = true ↔ c = n ∧ n < 64) ∧
  (∀ c, contains (intersect s o) c = contains s c && contains o c) ∧
  (∀ c, c ∈ iter s ↔ contains s c = true) ∧ NoDup (iter s) ∧ len s = length (iter s) ∧
  match first s with
  | None => is_empty s = true ∧ ∀ c, contains s c = false
  | Some f => is_empty s = false ∧ contains s f = true ∧ ∀ c, contains s c = true → f ≤ c
  end.
Proof.
  intros Hs. split_and!.
  - apply contains_all.
  - apply contains_single.
  - apply contains_intersect.
  - apply elem_of_iter.
  - apply NoDup_filter, NoDup_seq.
  - unfold len, count_ones, iter. rewrite length_filter_count. apply count_if_ext.
    intros c [_ Hc]%elem_of_seq. rewrite contains_spec, bool_decide_eq_true_2 by lia. done.
  - unfold first, is_empty. destruct (Z.eqb_spec s 0) as [->|Hz].
    { split; [done|]. intros c. rewrite contains_spec, Z.testbit_0_l. apply andb_false_r. }
    destruct (in_u_nonzero_bit s Hs Hz) as (n & Hn & Hb). unfold trailing_zeros.
    assert (∀ c, c < 64 → seq 0 64 !! c = Some c) as Hseq by (intros; by apply lookup_seq_lt).
    destruct (position _ (seq 0 64)) as [f|] eqn:Hp.
    2:{ rewrite position_None in Hp. specialize (Hp n n (Hseq n Hn)). simpl in Hp. congruence. }
    apply position_Some in Hp as [(x & Hx & Hbx) Hmin]. apply lookup_seq in Hx as [-> Hf].
    rewrite Nat.add_0_l in Hbx. split_and!; [done| |].
    + simpl. rewrite contains_spec, bool_decide_eq_true_2 by lia. done.
    + intros c Hc. rewrite contains_spec in Hc. apply andb_true_iff in Hc as [Hc%bool_decide_eq_true Hbc].
      simpl. destruct (decide (f ≤ c)); [done|]. rewrite (Hmin c c) in Hbc by (lia || by apply Hseq). done.
Qed.

Lemma cpu_set_refines_sets_witness : in_u 64 12 ∧ first 12 = Some 2 ∧ 2 ∈ iter 12.
Proof.
  assert (in_u 64 12) as H by (split; vm_compute; discriminate).
  split; [exact H|]. split; [vm_compute; reflexivity|].
  apply (proj1 (proj2 (proj2 (proj2 (cpu_set_refines_sets 12 0 H)))) 2). vm_compute. reflexivity.
Defined.

End CpuSet.

Module Balance.

Record CpuLoad := { online : bool; running : option RunQueue.Priority; queued : nat }.

Definition load (c : CpuLoad) : nat := queued c + match running c with Some _ => 1 | None => 0 end.
Definition idle (c : CpuLoad) : bool :=
  match running c with None => (queued c =? 0)%nat | Some _ => false end.

(** [allowed.contains(cpu) && cpus.get(cpu).is_some_and(|c| c.online)] *)
Definition usable (cpus : list CpuLoad) (allowed : CpuSet.t) (cpu : nat) : bool :=
  CpuSet.contains allowed cpu && match cpus !! cpu with Some c => online c | None => false end.

(** The loop of [place_wake] over the candidates. *)
Fixpoint least_loaded (cpus : list CpuLoad) (last best : nat) (l : list nat) : option nat :=
  match l with
  | [] => Some best
  | cpu :: l =>
      c ← cpus !! cpu; b ← cpus !! best;
      let better := (load c <? load b)%nat || ((load c =? load b)%nat && (cpu =? last)%nat) in
      least_loaded cpus last (if better then cpu else best) l
  end.

(** [guard && f(&cpus[cpu])]: the index panics out of range, if it is reached. *)
Definition and_at (guard : bool) (cpus : list CpuLoad) (cpu : nat) (f : CpuLoad → bool) : option bool :=
  if guard then c ← cpus !! cpu; Some (f c) else Some false.
(** [f(&cpus[cpu])] for a [cpu] of [0..cpus.len()]. *)
Definition at_cpu (cpus : list CpuLoad) (cpu : nat) (f : CpuLoad → bool) : bool :=
  match cpus !! cpu with Some c => f c | None => false end.

(** [None] outside is a panic, inside the method's own answer. *)
Definition place_wake (cpus : list CpuLoad) (allowed : CpuSet.t) (last : nat) (priority : nat) :
    option (option nat) :=
  let candidates := filter (λ cpu, usable cpus allowed cpu = true) (seq 0 (length cpus)) in
  match candidates with
  | [] => Some None
  | first :: rest =>
      last_idle ← and_at (usable cpus allowed last) cpus last idle;
      if (last_idle : bool) then Some (Some last)
      else match position (λ cpu, usable cpus allowed cpu && at_cpu cpus cpu idle) (seq 0 (length cpus)) with
      | Some i => Some (Some i)
      | None =>
          outranks ← and_at (usable cpus allowed last) cpus last (λ c,
            match running c with None => true | Some r => (r <? priority)%nat end);
          if (outranks : bool) then Some (Some last)
          else best ← least_loaded cpus last first (first :: rest); Some (Some best)
      end
  end.

Definition needs_reschedule (target : CpuLoad) (priority : nat) : bool :=
  match running target with None => true | Some r => (r <=? priority)%nat end.

(** The loop of [pull_source]: [cpu] counts up through the CPUs. *)
Fixpoint find_busiest (all : list CpuLoad) (this cpu : nat) (busiest : option nat) (l : list CpuLoad) :
    option (option nat) :=
  match l with
  | [] => Some busiest
  | c :: l =>
      if (cpu =? this)%nat || negb (online c) || (queued c =? 0)%nat
      then find_busiest all this (S cpu) busiest l
      else
        busier ← match busiest with
                 | None => Some true
                 | Some b => cb ← all !! b; Some (load cb <? load c)%nat
                 end;
        find_busiest all this (S cpu) (if (busier : bool) then Some cpu else busiest) l
  end.

Definition pull_source (cpus : list CpuLoad) (this : nat) : option (option nat) :=
  match cpus !! this with
  | None => Some None
  | Some here =>
      if negb (online here) then Some None
      else
        busiest ← find_busiest cpus this 0 None cpus;
        match busiest with
        | None => Some None
        | Some source =>
            cs ← cpus !! source;
            Some (if idle here || (load here + 2 <=? load cs)%nat then Some source else None)
        end
  end.

(** ** Properties *)

Definition load_at (cpus : list CpuLoad) (cpu : nat) : nat := from_option load 0 (cpus !! cpu).

Lemma least_loaded_spec cpus last best l :
  (∀ x, x ∈ best :: l → x < length cpus) →
  ∃ r, least_loaded cpus last best l = Some r ∧ r ∈ best :: l ∧
    (∀ x, x ∈ best :: l → load_at cpus r ≤ load_at cpus x) ∧
    (last ∈ best :: l → load_at cpus last = load_at cpus r → r = last).
Proof.
  revert best. induction l as [|cpu l IH]; intros best Hin.
  { exists best. simpl. split_and!; [done|by left| |].
    - intros x ->%list_elem_of_singleton. done.
    - by intros ->%list_elem_of_singleton. }
  assert (cpu < length cpus) as [c Hc]%lookup_lt_is_Some by (apply Hin; right; left).
  assert (best < length cpus) as [b Hb]%lookup_lt_is_Some by (apply Hin; left).
  assert (load_at cpus cpu = load c) as Lc by (unfold load_at; by rewrite Hc).
  assert (load_at cpus best = load b) as Lb by (unfold load_at; by rewrite Hb).
  simpl. rewrite Hc. simpl. rewrite Hb. simpl.
  set (better := (load c <? load b)%nat || ((load c =? load b)%nat && (cpu =? last)%nat)).
  assert (∀ x, x ∈ (if better then cpu else best) :: l → x < length cpus) as Hin'.
  { intros x [->|Hx]%elem_of_cons; apply Hin; destruct better; set_solver. }
  destruct (IH _ Hin') as (r & -> & Hr & Hmin & Hlast). exists r.
  pose proof (Hmin (if better then cpu else best) ltac:(left)) as H0.
  assert (load_at cpus r ≤ load c ∧ load_at cpus r ≤ load b ∧
    ((if better then best else cpu) = last → load_at cpus last = load_at cpus r →
     (if better then cpu else best) = last)) as (Hrc & Hrb & Heq).
  { unfold better in *. destruct (Nat.ltb_spec (load c) (load b)); simpl in *; [split_and!; intros; subst; lia|].
    destruct (Nat.eqb_spec (load c) (load b)); simpl in *; [|split_and!; intros; subst; lia].
    destruct (Nat.eqb_spec cpu last); simpl in *; [by split_and!; lia|].
    split_and!; intros; subst; lia. }
  split_and!; [done| | |].
  - destruct better; set_solver.
  - intros x [->|[->|Hx]%elem_of_cons]%elem_of_cons; [lia..|]. apply Hmin. by right.
  - intros Hl E. destruct (decide (last = if better then cpu else best)) as [El|Hne].
    { apply Hlast; [rewrite El; by left|done]. }
    destruct (decide (last ∈ l)); [apply Hlast; [by right|done]|].
    exfalso. apply Hne. symmetry. apply Heq; [|done].
    apply elem_of_cons in Hl as [->|[->|?]%elem_of_cons]; [| |done]; destruct better; done.
Qed.

Lemma elem_of_candidates cpus allowed x :
  x ∈ filter (λ cpu, usable cpus allowed cpu = true) (seq 0 (length cpus)) ↔ usable cpus allowed x = true.
Proof.
  rewrite list_elem_of_filter, elem_of_seq. split; [by intros [? _]|]. intros Hu. split; [done|].
  unfold usable in Hu. destruct (cpus !! x) eqn:E; [|by rewrite andb_false_r in Hu].
  apply lookup_lt_Some in E. lia.
Qed.

Lemma usable_lookup cpus allowed x :
  usable cpus allowed x = true → ∃ c, cpus !! x = Some c ∧ online c = true.
Proof.
  unfold usable. destruct (cpus !! x) as [c|]; [|by rewrite andb_false_r].
  intros [_ ?]%andb_true_iff. eauto.
Qed.

Lemma and_at_eq cpus allowed x f :
  and_at (usable cpus allowed x) cpus x f = Some (usable cpus allowed x && at_cpu cpus x f).
Proof.
  unfold and_at, at_cpu. destruct (usable cpus allowed x) eqn:Hu; [|done].
  destruct (usable_lookup _ _ _ Hu) as (c & -> & _). done.
Qed.

Definition outranks (priority : nat) (c : CpuLoad) : bool :=
  match running c with None => true | Some r => (r <? priority)%nat end.


(** A CPU other than [this] that is online with a thread waiting. *)
Definition pullable (cpus : list CpuLoad) (this x : nat) : Prop :=
  x ≠ this ∧ ∃ c, cpus !! x = Some c ∧ online c = true ∧ 0 < queued c.

(** The busiest pullable CPU below [n], the lowest-numbered of several. *)
Definition busiest_below (cpus : list CpuLoad) (this n : nat) (o : option nat) : Prop :=
  match o with
  | None => ∀ x, x < n → ¬ pullable cpus this x
  | Some b => b < n ∧ pullable cpus this b ∧ ∀ x, x < n → pullable cpus this x →
      load_at cpus x ≤ load_at cpus b ∧ (load_at cpus x = load_at cpus b → b ≤ x)
  end.

Lemma find_busiest_spec cpus this cpu o l :
  l = drop cpu cpus → busiest_below cpus this cpu o →
  ∃ o', find_busiest cpus this cpu o l = Some o' ∧ busiest_below cpus this (cpu + length l) o'.
Proof.
  revert cpu o. induction l as [|c l IH]; intros cpu o Hl Ho; simpl.
  { exists o. by rewrite Nat.add_0_r. }
  assert (cpus !! cpu = Some c) as Hc.
  { pose proof (lookup_drop cpus cpu 0) as E. rewrite <-Hl, Nat.add_0_r in E. by rewrite <-E. }
  assert (l = drop (S cpu) cpus) as Hl'.
  { rewrite <-Nat.add_1_r, <-drop_drop, <-Hl. done. }
  replace (cpu + S (length l)) with (S cpu + length l) by lia.
  assert (∀ o', busiest_below cpus this (S cpu) o' → ∃ o'', find_busiest cpus this (S cpu) o' l = Some o'' ∧
    busiest_below cpus this (S cpu + length l) o'') as Hgo by (intros; by apply IH).
  destruct ((cpu =? this) || negb (online c) || (queued c =? 0)) eqn:Hskip.
  - assert (¬ pullable cpus this cpu) as Hnot.
    { intros (Hne & c' & Hc' & Hon & Hq). simplify_eq. rewrite Hon in Hskip. simpl in Hskip.
      destruct (Nat.eqb_spec cpu this), (Nat.eqb_spec (queued c) 0); simpl in Hskip; lia || done. }
    apply Hgo. destruct o as [b|]; simpl in *.
    + destruct Ho as (Hb & Hp & Hmax). split_and!; [lia|done|]. intros x Hx Hpx.
      apply Hmax; [|done]. destruct (decide (x = cpu)) as [->|]; [done|lia].
    + intros x Hx Hpx. destruct (decide (x = cpu)) as [->|]; [done|]. by apply (Ho x); [lia|].
  - apply orb_false_iff in Hskip as [[Hne Hon]%orb_false_iff Hq]. breflect.
    assert (pullable cpus this cpu) as Hp by (split; [done|]; exists c; split_and!; [done..|lia]).
    assert (load_at cpus cpu = load c) as Lc by (unfold load_at; by rewrite Hc).
    destruct o as [b|]; simpl in *.
    + destruct Ho as (Hb & (Hbt & cb & Hcb & Hrest) & Hmax). rewrite Hcb. simpl. apply Hgo.
      assert (load_at cpus b = load cb) as Lb by (unfold load_at; by rewrite Hcb).
      destruct (Nat.ltb_spec (load cb) (load c)); simpl.
      * split_and!; [lia|done|]. intros x Hx Hpx. destruct (decide (x = cpu)) as [->|]; [lia|].
        destruct (Hmax x ltac:(lia) Hpx). lia.
      * split_and!; [lia|by split; [|exists cb]|]. intros x Hx Hpx.
        destruct (decide (x = cpu)) as [->|]; [lia|]. apply Hmax; [lia|done].
    + apply Hgo. simpl. split_and!; [lia|done|]. intros x Hx Hpx.
      destruct (decide (x = cpu)) as [->|]; [done|]. by destruct (Ho x ltac:(lia)).
Qed.

(** A pull moves one waiting thread; an idle CPU runs it at once. *)
Definition pulled (cpus : list CpuLoad) (this source : nat) (p : nat) : list CpuLoad :=
  let take c := {| online := online c; running := running c; queued := queued c - 1 |} in
  let give c := if idle c
                then {| online := online c; running := Some p; queued := 0 |}
                else {| online := online c; running := running c; queued := queued c + 1 |} in
  alter give this (alter take source cpus).

(** The snapshot-level content of [pull_source]. *)
Lemma pull_source_spec cpus this :
  ∃ o, pull_source cpus this = Some o ∧
  match o with
  | Some s => pullable cpus this s ∧
      (∃ here, cpus !! this = Some here ∧ online here = true ∧
         (idle here = true ∨ load here + 2 ≤ load_at cpus s)) ∧
      (∀ x, pullable cpus this x → load_at cpus x ≤ load_at cpus s ∧
         (load_at cpus x = load_at cpus s → s ≤ x))
  | None => ∀ here, cpus !! this = Some here → online here = true →
      ∀ x, pullable cpus this x → idle here = false ∧ load_at cpus x < load here + 2
  end.
Proof.
  unfold pull_source. destruct (cpus !! this) as [here|] eqn:Hh; [|by exists None].
  destruct (online here) eqn:Hon; simpl.
  2:{ exists None. split; [done|]. intros h [= <-]. congruence. }
  destruct (find_busiest_spec cpus this 0 None cpus) as (o & -> & Ho); [done|simpl; lia|]. simpl.
  assert (∀ x, pullable cpus this x → x < length cpus) as Hlt.
  { intros x (_ & c & Hc & _). by eapply lookup_lt_Some. }
  destruct o as [b|]; simpl in Ho.
  2:{ exists None. split; [done|]. intros h _ _ x Hx. by destruct (Ho x (Hlt x Hx)). }
  destruct Ho as (_ & Hb & Hmax). pose proof Hb as (_ & cb & Hcb & _). rewrite Hcb. simpl.
  assert (load_at cpus b = load cb) as Lb by (unfold load_at; by rewrite Hcb).
  destruct (idle here || (load here + 2 <=? load cb)) eqn:Hd; simpl.
  - exists (Some b). split; [done|]. split_and!; [done| |auto]. exists here. split_and!; [done..|].
    apply orb_true_iff in Hd as [?|?%Nat.leb_le]; [by left|right; lia].
  - exists None. split; [done|]. intros h [= <-] _ x Hx.
    apply orb_false_iff in Hd as [? ?%Nat.leb_gt]. split; [done|].
    destruct (Hmax x (Hlt x Hx) Hx). lia.
Qed.

Lemma place_wake_spec cpus allowed last priority :
  let ok x := usable cpus allowed x = true in
  let idle_ok x := ok x ∧ at_cpu cpus x idle = true in
  let preempts := ok last ∧ at_cpu cpus last (outranks priority) = true in
  ∃ o, place_wake cpus allowed last priority = Some o ∧
  match o with
  | None => ∀ x, ¬ ok x
  | Some c => ok c ∧
      (idle_ok last → c = last) ∧
      (¬ idle_ok last → ∀ x, idle_ok x → idle_ok c ∧ c ≤ x) ∧
      ((∀ x, ¬ idle_ok x) → preempts → c = last) ∧
      ((∀ x, ¬ idle_ok x) → ¬ preempts →
         (∀ x, ok x → load_at cpus c ≤ load_at cpus x) ∧
         (ok last → load_at cpus last = load_at cpus c → c = last))
  end.
Proof.
  intros ok idle_ok preempts. unfold place_wake.
  destruct (filter _ (seq 0 (length cpus))) as [|f rest] eqn:Hf.
  { exists None. split; [done|]. intros x Hx. unfold ok in Hx.
    rewrite <-elem_of_candidates, Hf in Hx. by apply elem_of_nil in Hx. }
  rewrite !and_at_eq. change (λ c : CpuLoad, match running c with Some r => r <? priority | None => true end)
    with (outranks priority). cbn [mbind option_bind]. destruct (usable cpus allowed last && at_cpu cpus last idle) eqn:Hl.
  { apply andb_true_iff in Hl as [Hok Hid]. exists (Some last). split; [done|].
    split_and!; [done..| | |]; intros Hn; exfalso; by apply Hn || by apply (Hn last). }
  assert (¬ idle_ok last) as Hnl by (intros [A B]; unfold ok in A; by rewrite A, B in Hl).
  assert (∀ x, ok x → seq 0 (length cpus) !! x = Some x) as Hseq.
  { intros x Hx. destruct (usable_lookup _ _ _ Hx) as (c & Hc & _). apply lookup_seq_lt.
    by eapply lookup_lt_Some. }
  destruct (position _ (seq 0 (length cpus))) as [i|] eqn:Hp.
  { exists (Some i). split; [done|]. apply position_Some in Hp as [(x & Hx & Hi) Hmin].
    apply lookup_seq in Hx as [-> _]. simpl in Hi. apply andb_true_iff in Hi as [Hok Hid].
    split_and!; [done..| | |].
    - intros _ x [Hx Hxi]. split; [done|]. destruct (decide (i ≤ x)); [done|].
      specialize (Hmin x x ltac:(lia) (Hseq x Hx)). unfold ok in Hx. by rewrite Hx, Hxi in Hmin.
    - intros Hn. by destruct (Hn i).
    - intros Hn. by destruct (Hn i). }
  assert (∀ x, ¬ idle_ok x) as Hnone.
  { intros x [Hx Hxi]. rewrite position_None in Hp. specialize (Hp x x (Hseq x Hx)).
    unfold ok in Hx. simpl in Hp. by rewrite Hx, Hxi in Hp. }
  destruct (usable cpus allowed last && at_cpu cpus last (outranks priority)) eqn:Ho.
  { apply andb_true_iff in Ho as [Hok Hout]. exists (Some last). split; [done|].
    split_and!; [done..| |done|].
    - intros _ x Hx. by destruct (Hnone x).
    - intros _ Hn. by destruct Hn. }
  destruct (least_loaded_spec cpus last f (f :: rest)) as (r & -> & Hr & Hmin & Hlast).
  { intros x Hx. assert (x ∈ f :: rest) as Hx' by set_solver. rewrite <-Hf in Hx'.
    apply elem_of_candidates, usable_lookup in Hx' as (c & Hc & _). by eapply lookup_lt_Some. }
  assert (∀ x, ok x → x ∈ f :: f :: rest) as Hall.
  { intros x Hx. right. rewrite <-Hf. by apply elem_of_candidates. }
  exists (Some r). split; [done|]. split_and!.
  - apply elem_of_candidates. rewrite Hf. set_solver.
  - done.
  - intros _ x Hx. by destruct (Hnone x).
  - intros _ [A B]. unfold ok in A. by rewrite A, B in Ho.
  - intros _ _. split; [auto|]. intros HL. apply Hlast. auto.
Qed.

Lemma pull_source_no_bounce cpus this p :
  ∃ o, pull_source cpus this = Some o ∧
  match o with
  | Some s => pullable cpus this s ∧
      (∃ here, cpus !! this = Some here ∧ online here = true ∧
         (idle here = true ∨ load here + 2 ≤ load_at cpus s)) ∧
      (∀ x, pullable cpus this x → load_at cpus x ≤ load_at cpus s ∧
         (load_at cpus x = load_at cpus s → s ≤ x)) ∧
      pull_source (pulled cpus this s p) s ≠ Some (Some this)
  | None => ∀ here, cpus !! this = Some here → online here = true →
      ∀ x, pullable cpus this x → idle here = false ∧ load_at cpus x < load here + 2
  end.
Proof.
  destruct (pull_source_spec cpus this) as (o & -> & Ho). exists o. split; [done|].
  destruct o as [s|]; [|done]. destruct Ho as (Hp & Hd & Hmax). split_and!; [done..|].
  destruct Hp as (Hne & cs & Hcs & Hon & Hq), Hd as (here & Hh & Hon' & Hdue).
  intros Hback. destruct (pull_source_spec (pulled cpus this s p) s) as (o & E & Ho).
  rewrite Hback in E. simplify_eq. destruct Ho as ((_ & ct & Hct & _ & Hqt) & (cs' & Hcs' & _ & Hdue') & _).
  assert (load_at cpus s = load cs) as Ls by (unfold load_at; by rewrite Hcs).
  assert (load_at (pulled cpus this s p) this = load ct) as Lt by (unfold load_at; by rewrite Hct).
  rewrite Ls in Hdue. rewrite Lt in Hdue'. unfold pulled in Hct, Hcs'.
  rewrite list_lookup_alter_eq, list_lookup_alter_ne, Hh in Hct by done. simplify_eq/=.
  rewrite list_lookup_alter_ne, list_lookup_alter_eq, Hcs in Hcs' by done. simplify_eq/=.
  destruct (idle here) eqn:Hi; [simpl in Hqt; lia|]. destruct Hdue as [?|Hdue]; [done|].
  unfold load, idle in *. destruct Hdue' as [Hid|Hl]; simpl in *; destruct (running here), (running cs);
    simpl in *; try done; breflect; lia.
Qed.


End Balance.
