(* ===== verification/TimeClock.v ===== *)
(** * Instants and the monotonic clock

    [kernel/time/src/instant.rs] and [kernel/time/src/clock.rs].  A free-running counter of
    1 to 64 bits becomes monotonic nanoseconds through a fixed-point factor.  A [u64]
    operation the source leaves unchecked ([ticks * mult + frac]) is written here with the
    checked one, and [None] is its overflow: the theorems show it never happens. *)

From S2P Require Import Prelude.
Local Open Scope Z_scope.

Definition NANOS_PER_SEC : Z := 1000000000.

(** [Duration] and [Instant] are [u64]s of nanoseconds. *)
Module Duration.
Abbreviation t := Z (only parsing).
Definition ZERO : t := 0.
Definition MAX : t := u64_MAX.
Definition from_micros (us : Z) : option t := checked_mul 64 us 1000.
Definition from_millis (ms : Z) : option t := checked_mul 64 ms 1000000.
Definition from_secs (s : Z) : option t := checked_mul 64 s NANOS_PER_SEC.
Definition is_zero (d : t) : bool := d =? 0.
Definition checked_add (a b : t) : option t := checked_add 64 a b.
Definition checked_sub (a b : t) : option t := checked_sub a b.
Definition saturating_sub (a b : t) : t := saturating_sub a b.
Definition checked_mul (a n : Z) : option t := checked_mul 64 a n.
End Duration.

Module Instant.
Abbreviation t := Z (only parsing).
Definition ZERO : t := 0.
Definition MAX : t := u64_MAX.
Definition checked_add (i : t) (d : Duration.t) : option t := checked_add 64 i d.
Definition saturating_add (i : t) (d : Duration.t) : t := saturating_add 64 i d.
Definition checked_sub (i : t) (d : Duration.t) : option t := checked_sub i d.
Definition checked_duration_since (i earlier : t) : option Duration.t := Prelude.checked_sub i earlier.
Definition saturating_duration_since (i earlier : t) : Duration.t := Prelude.saturating_sub i earlier.
End Instant.

Lemma div_add_mul a b c : 0 < c → (a * c + b) / c = a + b / c.
Proof. intros. rewrite Z.add_comm, Z.div_add by lia. lia. Qed.

Inductive ClockError : Type := ZeroFrequency | BadWidth | FrequencyTooHigh.

Definition FAST_PATH_SECS : Z := 10.
Definition MAX_SHIFT : nat := 32.

Module Scale.

Record t := { mult : Z; shift : Z; max_delta : Z }.

(** The loop of [new], from [shift] down; [widest] is the last factor that was valid. *)
Fixpoint new_loop (shift : nat) (hz wanted : Z) (widest : option t) : result t ClockError :=
  match shift with
  | O => ok_or widest FrequencyTooHigh
  | S shift =>
      match checked_add 64 (shl 64 NANOS_PER_SEC (Z.of_nat shift)) (hz / 2) with
      | None => new_loop shift hz wanted widest
      | Some rounded =>
          let mult := rounded / hz in
          if mult =? 0 then new_loop shift hz wanted widest
          else
            let frac_max := shl 64 1 (Z.of_nat shift) - 1 in
            let max_delta := (u64_MAX - frac_max) / mult in
            let scale := {| mult := mult; shift := Z.of_nat shift; max_delta := max_delta |} in
            if wanted <=? max_delta then Ok scale
            else new_loop shift hz wanted (Some scale)
      end
  end.

Definition new (hz range_secs : Z) : result t ClockError :=
  if hz =? 0 then Err ZeroFrequency
  else
    let wanted := Z.max (saturating_mul 64 hz range_secs) 1 in
    new_loop (MAX_SHIFT + 1) hz wanted None.

Definition frac_mask (s : t) : Z := shl 64 1 (shift s) - 1.

(** [convert] and [convert_long], which calls [convert] back on a remainder below
    [max_delta]: that call takes the fast path, so a [fuel] of 2 is enough. *)
Fixpoint convert_fuel (fuel : nat) (s : t) (ticks frac : Z) : option (Z * Z) :=
  match fuel with
  | O => None
  | S fuel =>
      if ticks <=? max_delta s then
        p ← checked_mul 64 ticks (mult s);
        acc ← checked_add 64 p frac;
        Some (Z.shiftr acc (shift s), Z.land acc (frac_mask s))
      else
        (* the slow path: a division by zero panics *)
        if max_delta s =? 0 then None else
        let q := ticks / max_delta s in
        let r := ticks mod max_delta s in
        if u32_MAX <? q then Some (u64_MAX, 0)
        else
          chunk ← checked_mul 64 (max_delta s) (mult s);
          let chunk_ns := Z.shiftr chunk (shift s) in
          let chunk_frac := Z.land chunk (frac_mask s) in
          match checked_mul 64 q chunk_ns with
          | None => Some (u64_MAX, 0)
          | Some whole =>
              p ← checked_mul 64 q chunk_frac;
              acc ← checked_add 64 p frac;
              '(rest_ns, frac') ← convert_fuel fuel s r (Z.land acc (frac_mask s));
              let ns := saturating_add 64 (saturating_add 64 whole (Z.shiftr acc (shift s))) rest_ns in
              Some (ns, frac')
          end
  end.

Definition convert (s : t) (ticks frac : Z) : option (Z * Z) := convert_fuel 2 s ticks frac.

(** ** The factor *)

Record wf (s : t) : Prop := {
  wf_mult : 0 < mult s ≤ 2 ^ 62;
  wf_shift : 0 ≤ shift s ≤ 32;
  wf_max_delta : max_delta s = (2 ^ 64 - 2 ^ shift s) / mult s;
  (** A delta of more than [u32::MAX] chunks is more nanoseconds than a [u64] holds. *)
  wf_long : shift s ≤ 31 ∨ 2 ^ 32 ≤ max_delta s;
}.

Lemma pow_shift s : wf s → 0 < 2 ^ shift s ≤ 2 ^ 32.
Proof.
  intros []. split; [apply Z.pow_pos_nonneg; lia|apply Z.pow_le_mono_r; lia].
Qed.

Lemma frac_mask_eq s : wf s → frac_mask s = Z.ones (shift s).
Proof.
  intros Hs. pose proof (pow_shift s Hs). unfold frac_mask, shl.
  rewrite Z.shiftl_1_l, Z.mod_small by lia. rewrite Z.ones_equiv. lia.
Qed.

Lemma land_frac_mask s a : wf s → Z.land a (frac_mask s) = a mod 2 ^ shift s.
Proof. intros Hs. rewrite frac_mask_eq by done. apply Z.land_ones. apply Hs. Qed.

Lemma max_delta_bounds s :
  wf s → 0 < max_delta s ∧ max_delta s * mult s ≤ 2 ^ 64 - 2 ^ shift s ∧
  2 ^ 64 - 2 ^ shift s < max_delta s * mult s + mult s.
Proof.
  intros Hs. pose proof (pow_shift s Hs). destruct Hs as [Hm Hsh Hd _].
  pose proof (Z.div_mod (2 ^ 64 - 2 ^ shift s) (mult s)) as E.
  pose proof (Z.mod_pos_bound (2 ^ 64 - 2 ^ shift s) (mult s)). rewrite <-Hd in E.
  split_and!; [|lia..]. rewrite Hd. apply Z.div_str_pos. lia.
Qed.

(** The fast path. *)
Lemma convert_fast n s ticks fr :
  wf s → 0 ≤ ticks ≤ max_delta s → 0 ≤ fr < 2 ^ shift s →
  convert_fuel (S n) s ticks fr =
  Some ((ticks * mult s + fr) / 2 ^ shift s, (ticks * mult s + fr) mod 2 ^ shift s).
Proof.
  intros Hs Ht Hf. destruct (max_delta_bounds s Hs) as (H1 & H2 & _).
  assert (ticks * mult s ≤ max_delta s * mult s) by (apply Z.mul_le_mono_nonneg_r; [destruct Hs; lia|lia]).
  simpl. destruct (Z.leb_spec ticks (max_delta s)); [|lia].
  assert (checked_mul 64 ticks (mult s) = Some (ticks * mult s)) as ->
    by (apply checked_mul_Some; unfold u_max; lia). simpl.
  assert (checked_add 64 (ticks * mult s) fr = Some (ticks * mult s + fr)) as ->
    by (apply checked_add_Some; unfold u_max; lia). simpl.
  rewrite land_frac_mask, Z.shiftr_div_pow2 by (done || apply Hs). done.
Qed.

Lemma convert_spec s ticks fr :
  wf s → in_u 64 ticks → 0 ≤ fr < 2 ^ shift s →
  ∃ ns fr', convert s ticks fr = Some (ns, fr') ∧
    ns = Z.min ((ticks * mult s + fr) / 2 ^ shift s) u64_MAX ∧ 0 ≤ fr' < 2 ^ shift s ∧
    ((ticks * mult s + fr) / 2 ^ shift s ≤ u64_MAX → fr' = (ticks * mult s + fr) mod 2 ^ shift s).
Proof.
  intros Hs Ht Hf. pose proof (pow_shift s Hs) as Hp.
  destruct (max_delta_bounds s Hs) as (Hd & Hup & Hlo). pose proof (wf_mult s Hs) as Hm.
  unfold convert. destruct (Z.leb_spec ticks (max_delta s)) as [Hle|Hgt].
  { rewrite convert_fast by (done || (split; [apply Ht|done])). eexists _, _. split; [done|].
    assert (ticks * mult s ≤ max_delta s * mult s) by (apply Z.mul_le_mono_nonneg_r; lia).
    pose proof (Z.mod_pos_bound (ticks * mult s + fr) (2 ^ shift s)).
    assert ((ticks * mult s + fr) / 2 ^ shift s ≤ u64_MAX).
    { unfold u_max. apply Z.lt_succ_r. apply Z.div_lt_upper_bound; [lia|].
      destruct Ht. nia. }
    split_and!; [lia..|done]. }
  set (one := 1%nat). change 2%nat with (S one). cbn [convert_fuel].
  destruct (Z.leb_spec ticks (max_delta s)); [lia|].
  destruct (Z.eqb_spec (max_delta s) 0); [lia|].
  set (q := ticks / max_delta s). set (r := ticks mod max_delta s).
  assert (ticks = max_delta s * q + r) as Eticks by (apply Z.div_mod; lia).
  assert (0 ≤ r < max_delta s) as Hr by (apply Z.mod_pos_bound; lia).
  assert (0 ≤ q) as Hq by (apply Z.div_pos; [apply Ht|lia]).
  destruct (Z.ltb_spec u32_MAX q) as [Hbig|Hsmall].
  { exists u64_MAX, 0. split; [done|].
    assert (u64_MAX < (ticks * mult s + fr) / 2 ^ shift s); [|split_and!; lia].
    unfold u_max in *. assert (2 ^ 64 ≤ (ticks * mult s + fr) / 2 ^ shift s); [|lia].
    apply Z.div_le_lower_bound; [lia|]. destruct (wf_long s Hs) as [Hsh|Hmd].
    - assert (2 ^ shift s ≤ 2 ^ 31) by (apply Z.pow_le_mono_r; lia).
      assert (2 ^ 32 * (max_delta s * mult s) ≤ q * (max_delta s * mult s)).
      { apply Z.mul_le_mono_nonneg_r; lia. }
      nia.
    - destruct Ht. unfold u_max in *. nia. }
  set (chunk := max_delta s * mult s) in *.
  assert (checked_mul 64 (max_delta s) (mult s) = Some chunk) as ->
    by (apply checked_mul_Some; unfold chunk, u_max; lia). cbn [mbind option_bind].
  rewrite !land_frac_mask, !Z.shiftr_div_pow2 by (done || apply Hs).
  set (P := 2 ^ shift s) in *.
  assert (chunk = P * (chunk / P) + chunk mod P) as Echunk by (apply Z.div_mod; lia).
  pose proof (Z.mod_pos_bound chunk P ltac:(lia)) as Hcf.
  assert (0 ≤ chunk / P) as Hcn by (apply Z.div_pos; unfold chunk; nia).
  set (cn := chunk / P) in *. set (cf := chunk mod P) in *.
  assert (ticks * mult s + fr = q * chunk + (r * mult s + fr)) as Etot by (rewrite Eticks; unfold chunk; ring).
  assert (0 ≤ r * mult s) by nia.
  assert (q * cn ≤ (ticks * mult s + fr) / P) as Hge.
  { apply Z.div_le_lower_bound; [lia|]. rewrite Etot, Echunk. nia. }
  destruct (checked_mul 64 q cn) as [whole|] eqn:Hw.
  2:{ exists u64_MAX, 0. split; [done|]. unfold checked_mul in Hw.
      destruct (Z.leb_spec (q * cn) u64_MAX); [done|]. split_and!; lia. }
  apply checked_mul_Some in Hw as [-> Hwm].
  assert (q * cf + fr ≤ u64_MAX) as Hacc.
  { unfold u_max in *. assert (q * cf ≤ (2 ^ 32 - 1) * (2 ^ 32 - 1)) by (apply Z.mul_le_mono_nonneg; lia). lia. }
  assert (checked_mul 64 q cf = Some (q * cf)) as -> by (apply checked_mul_Some; lia).
  cbn [mbind option_bind].
  assert (checked_add 64 (q * cf) fr = Some (q * cf + fr)) as -> by (apply checked_add_Some; lia).
  cbn [mbind option_bind]. rewrite land_frac_mask, Z.shiftr_div_pow2 by (done || apply Hs). fold P.
  set (acc := q * cf + fr) in *.
  pose proof (Z.mod_pos_bound acc P ltac:(lia)) as Hai.
  assert (acc = P * (acc / P) + acc mod P) as Eacc by (apply Z.div_mod; lia).
  change one with (S 0). rewrite convert_fast by (done || lia). fold P. cbn [mbind option_bind].
  set (rest := r * mult s + acc mod P). eexists _, _. split; [done|].
  assert (ticks * mult s + fr = (q * cn + acc / P) * P + rest) as E2.
  { rewrite Etot, Echunk. unfold rest. unfold acc in *. nia. }
  rewrite E2, div_add_mul by lia.
  assert (0 ≤ rest / P) by (apply Z.div_pos; unfold rest; lia).
  assert (0 ≤ acc / P) by (apply Z.div_pos; nia).
  unfold saturating_add. split; [lia|]. split.
  - apply Z.mod_pos_bound. lia.
  - intros _. by rewrite Z.add_comm, Z.mod_add by lia.
Qed.

(** The factor of shift [k], when there is one. *)
Definition factor (k : nat) (hz : Z) : option t :=
  let rounded := NANOS_PER_SEC * 2 ^ Z.of_nat k + hz / 2 in
  let m := rounded / hz in
  if (u64_MAX <? rounded) || (m =? 0) then None
  else Some {| mult := m; shift := Z.of_nat k; max_delta := (2 ^ 64 - 2 ^ Z.of_nat k) / m |}.

(** [new_loop] takes the first factor, from shift [n - 1] down, that covers the range; if
    none does, the one of least shift. *)
Lemma new_loop_spec n hz wanted widest s :
  (n ≤ 33)%nat → 0 < hz → new_loop n hz wanted widest = Ok s →
  (∃ k, (k < n)%nat ∧ factor k hz = Some s ∧ wanted ≤ max_delta s) ∨
  (∃ k, (k < n)%nat ∧ factor k hz = Some s ∧ ∀ j, (j < k)%nat → factor j hz = None) ∨
  (widest = Some s ∧ ∀ j, (j < n)%nat → factor j hz = None).
Proof.
  intros Hn Hhz. revert widest. induction n as [|k IH]; intros widest; simpl.
  { destruct widest; simpl; [|done]. intros [= ->]. right; right. split; [done|lia]. }
  assert (2 ^ Z.of_nat k ≤ 2 ^ 32) by (apply Z.pow_le_mono_r; lia).
  assert (0 < 2 ^ Z.of_nat k) by (apply Z.pow_pos_nonneg; lia).
  assert (shl 64 NANOS_PER_SEC (Z.of_nat k) = NANOS_PER_SEC * 2 ^ Z.of_nat k) as ->.
  { unfold shl. rewrite Z.shiftl_mul_pow2 by lia. apply Z.mod_small. unfold NANOS_PER_SEC. lia. }
  assert (shl 64 1 (Z.of_nat k) = 2 ^ Z.of_nat k) as ->.
  { unfold shl. rewrite Z.shiftl_1_l. apply Z.mod_small. lia. }
  assert (factor k hz = None → new_loop k hz wanted widest = Ok s →
    (∃ k0, (k0 < S k)%nat ∧ factor k0 hz = Some s ∧ wanted ≤ max_delta s) ∨
    (∃ k0, (k0 < S k)%nat ∧ factor k0 hz = Some s ∧ ∀ j, (j < k0)%nat → factor j hz = None) ∨
    (widest = Some s ∧ ∀ j, (j < S k)%nat → factor j hz = None)) as Hskip.
  { intros Hnone Hl. destruct (IH ltac:(lia) widest Hl) as [(k0 & ? & ?)|[(k0 & ? & ?)|[? Hall]]].
    - left. exists k0. split; [lia|done].
    - right; left. exists k0. split; [lia|done].
    - right; right. split; [done|]. intros j Hj. destruct (decide (j = k)) as [->|]; [done|].
      apply Hall. lia. }
  assert (u64_MAX - (2 ^ Z.of_nat k - 1) = 2 ^ 64 - 2 ^ Z.of_nat k) as -> by (unfold u_max; lia).
  unfold checked_add. destruct (Z.leb_spec (NANOS_PER_SEC * 2 ^ Z.of_nat k + hz / 2) u64_MAX) as [Hle|Hgt].
  2:{ apply Hskip. unfold factor. destruct (Z.ltb_spec u64_MAX (NANOS_PER_SEC * 2 ^ Z.of_nat k + hz / 2)); [done|lia]. }
  assert (u64_MAX <? NANOS_PER_SEC * 2 ^ Z.of_nat k + hz / 2 = false) as Hov by (apply Z.ltb_ge; lia).
  destruct (Z.eqb_spec ((NANOS_PER_SEC * 2 ^ Z.of_nat k + hz / 2) / hz) 0) as [Hz|Hz].
  { apply Hskip. unfold factor. rewrite Hov, Hz. done. }
  set (f := {| mult := _ |}). assert (factor k hz = Some f) as Hf.
  { unfold factor. rewrite Hov. destruct (Z.eqb_spec ((NANOS_PER_SEC * 2 ^ Z.of_nat k + hz / 2) / hz) 0); done. }
  destruct (Z.leb_spec wanted ((2 ^ 64 - 2 ^ Z.of_nat k) / ((NANOS_PER_SEC * 2 ^ Z.of_nat k + hz / 2) / hz))) as [Hw|Hw].
  - intros [= <-]. left. exists k. split_and!; [lia|done|exact Hw].
  - intros Hl. destruct (IH ltac:(lia) (Some f) Hl) as [(k0 & ? & ?)|[(k0 & ? & ?)|[? Hall]]].
    + left. exists k0. split; [lia|done].
    + right; left. exists k0. split; [lia|done].
    + simplify_eq. right; left. exists k. split_and!; [lia|done|]. done.
Qed.

(** The factor is [10^9 * 2^shift / hz], rounded to the nearest. *)
Lemma factor_rounds k hz s :
  0 < hz → factor k hz = Some s →
  shift s = Z.of_nat k ∧ 0 < mult s ∧ mult s * hz ≤ NANOS_PER_SEC * 2 ^ shift s + hz / 2 ∧
  NANOS_PER_SEC * 2 ^ shift s + hz / 2 < mult s * hz + hz ∧
  max_delta s = (2 ^ 64 - 2 ^ shift s) / mult s.
Proof.
  intros Hhz. unfold factor. destruct (_ || _) eqn:E; [done|]. intros [= <-]. simpl.
  apply orb_false_iff in E as [_ Hz%Z.eqb_neq].
  assert (0 < 2 ^ Z.of_nat k) by (apply Z.pow_pos_nonneg; lia).
  assert (0 ≤ hz / 2) by (apply Z.div_pos; lia).
  set (R := NANOS_PER_SEC * 2 ^ Z.of_nat k + hz / 2) in *.
  assert (0 ≤ R / hz) by (apply Z.div_pos; unfold R, NANOS_PER_SEC; lia).
  pose proof (Z.div_mod R hz ltac:(lia)). pose proof (Z.mod_pos_bound R hz Hhz).
  split_and!; try done; lia.
Qed.

Lemma scale_new_wf hz s :
  in_u 64 hz → new hz FAST_PATH_SECS = Ok s →
  wf s ∧ mult s * hz ≤ NANOS_PER_SEC * 2 ^ shift s + hz / 2 ∧
  NANOS_PER_SEC * 2 ^ shift s + hz / 2 < mult s * hz + hz.
Proof.
  intros Hu. unfold new. destruct (Z.eqb_spec hz 0) as [|Hz]; [done|]. intros Hn.
  assert (0 < hz) as Hhz by (destruct Hu; lia).
  assert (∃ k, (k < 33)%nat ∧ factor k hz = Some s ∧
    (Z.max (saturating_mul 64 hz FAST_PATH_SECS) 1 ≤ max_delta s ∨ ∀ j, (j < k)%nat → factor j hz = None))
    as (k & Hk & Hf & Hcase).
  { apply new_loop_spec in Hn as [(k & ? & ? & ?)|[(k & ? & ? & ?)|[? _]]]; [..|done|unfold MAX_SHIFT; lia|done];
    exists k; unfold MAX_SHIFT in *; split_and!; try done; auto. }
  destruct (factor_rounds k hz s Hhz Hf) as (Hs & Hm & Hle & Hlt & Hmd). split; [|done].
  pose proof (Z.div_mod hz 2 ltac:(lia)). pose proof (Z.mod_pos_bound hz 2 ltac:(lia)).
  assert (2 ^ shift s ≤ 2 ^ 32) by (apply Z.pow_le_mono_r; lia).
  assert (0 < 2 ^ shift s) by (apply Z.pow_pos_nonneg; lia).
  assert (mult s ≤ 2 ^ 62) as Hm62.
  { unfold NANOS_PER_SEC in *. assert (mult s * hz ≤ 1000000000 * 2 ^ 32 + hz / 2) by lia.
    destruct (decide (hz = 1)) as [->|]; [change (1 / 2) with 0 in *; lia|].
    assert (2 * mult s ≤ mult s * hz) by nia. nia. }
  split; [done|lia|done|]. destruct (decide (shift s ≤ 31)) as [?|Hs32]; [by left|].
  assert (shift s = 32) as E32 by lia. rewrite E32 in *. destruct Hcase as [Hw|Hnone].
  - exfalso. unfold saturating_mul, FAST_PATH_SECS, u_max, NANOS_PER_SEC in *.
    assert (max_delta s * mult s ≤ 2 ^ 64 - 2 ^ 32) as Hmul.
    { rewrite Hmd, Z.mul_comm. apply Z.mul_div_le. lia. }
    destruct (Z.le_gt_cases (hz * 10) (2 ^ 64 - 1)) as [Hc|Hc].
    + assert (hz * 10 * mult s ≤ 2 ^ 64 - 2 ^ 32) by nia. nia.
    + assert (2 ^ 64 - 1 ≤ max_delta s) by lia. nia.
  - right. assert (k = 32)%nat as -> by lia. specialize (Hnone 31%nat ltac:(lia)).
    assert (NANOS_PER_SEC * 2 ^ 31 + hz / 2 < hz) as Hsmall.
    { unfold factor in Hnone. change (Z.of_nat 31) with 31 in Hnone.
      destruct (Z.ltb_spec u64_MAX (NANOS_PER_SEC * 2 ^ 31 + hz / 2)) as [Hov|_].
      - exfalso. unfold factor in Hf. change (Z.of_nat 32) with 32 in Hf.
        destruct (Z.ltb_spec u64_MAX (NANOS_PER_SEC * 2 ^ 32 + hz / 2)); [done|].
        unfold NANOS_PER_SEC in *. lia.
      - destruct (Z.eqb_spec ((NANOS_PER_SEC * 2 ^ 31 + hz / 2) / hz) 0) as [E|]; [|done].
        apply Z.div_small_iff in E; lia. }
    unfold NANOS_PER_SEC in *. assert (mult s = 1) as E1 by nia. rewrite Hmd, E1, Z.div_1_r. lia.
Qed.

(** The factor [new] chooses is [10^9 * 2^shift / hz] to the nearest integer, and
    converting with it is exact whatever the length of the gap, in one multiply or by the slow
    path: the nanoseconds are [(ticks * mult + frac) / 2^shift], the fraction carried out is
    what the division leaves, and only a time past the end of a [u64] saturates. No
    intermediate overflows. *)
Theorem scale_converts_exactly hz s ticks fr :
  in_u 64 hz → new hz FAST_PATH_SECS = Ok s → in_u 64 ticks → 0 ≤ fr < 2 ^ shift s →
  2 * Z.abs (mult s * hz - NANOS_PER_SEC * 2 ^ shift s) ≤ hz ∧
  ∃ ns fr', convert s ticks fr = Some (ns, fr') ∧ 0 ≤ fr' < 2 ^ shift s ∧
    if (ticks * mult s + fr) / 2 ^ shift s <=? u64_MAX
    then ns * 2 ^ shift s + fr' = ticks * mult s + fr
    else ns = u64_MAX.
Proof.
  intros Hu Hn Ht Hf. destruct (scale_new_wf hz s Hu Hn) as (Hwf & Hle & Hlt). split.
  - pose proof (Z.div_mod hz 2 ltac:(lia)). pose proof (Z.mod_pos_bound hz 2 ltac:(lia)). lia.
  - destruct (convert_spec s ticks fr Hwf Ht Hf) as (ns & fr' & Hc & Hns & Hfr & Hex).
    exists ns, fr'. split_and!; [done|apply Hfr|apply Hfr|].
    pose proof (pow_shift s Hwf).
    pose proof (Z.div_mod (ticks * mult s + fr) (2 ^ shift s) ltac:(lia)).
    destruct (Z.leb_spec ((ticks * mult s + fr) / 2 ^ shift s) u64_MAX) as [Hl|Hl]; [|lia].
    rewrite (Hex Hl). rewrite Z.min_l in Hns by done. lia.
Qed.

Definition scale_62_5_mhz : t := {| mult := 17179869184; shift := 30; max_delta := 1073741823 |}.

Lemma scale_converts_exactly_witness :
  new 62500000 FAST_PATH_SECS = Ok scale_62_5_mhz ∧
  ∃ ns fr', convert scale_62_5_mhz 62500000000000 0 = Some (ns, fr').
Proof.
  assert (new 62500000 FAST_PATH_SECS = Ok scale_62_5_mhz) as H by (vm_compute; reflexivity).
  split; [exact H|].
  destruct (proj2 (scale_converts_exactly 62500000 scale_62_5_mhz 62500000000000 0
    ltac:(split; vm_compute; discriminate) H ltac:(split; vm_compute; discriminate)
    ltac:(split; vm_compute; congruence))) as (ns & fr' & E & _).
  exists ns, fr'. exact E.
Defined.

(** The slow path saturates when the gap is more than [u32::MAX] chunks, which for a factor
    of shift 32 can be before the end of a [u64]: a 1 Hz counter whose fast path covers four
    seconds converts [2^34] seconds to [u64::MAX]. [Clock] does not use such a factor. *)
Lemma shift_32_saturates_early :
  ∃ s, new 1 4 = Ok s ∧ convert s (2 ^ 34) 0 = Some (u64_MAX, 0) ∧
  (2 ^ 34 * mult s + 0) / 2 ^ shift s < u64_MAX.
Proof. eexists. split; [vm_compute; reflexivity|]. by vm_compute. Qed.

End Scale.

Module Clock.

Record t := { scale : Scale.t; mask : Z; last : Z; base : Z; frac : Z }.

Definition new (hz bits now : Z) : result t ClockError :=
  if (bits =? 0) || (64 <? bits) then Err BadWidth
  else
    let mask := if bits =? 64 then u64_MAX else shl 64 1 bits - 1 in
    let? scale := Scale.new hz FAST_PATH_SECS in
    Ok {| scale := scale; mask := mask; last := Z.land now mask; base := 0; frac := 0 |}.

Definition delta (c : t) (now : Z) : Z :=
  let d := Z.land (wrapping_sub 64 (Z.land now (mask c)) (last c)) (mask c) in
  if Z.shiftr (mask c) 1 <? d then 0 else d.

Definition advance (c : t) (now : Z) : option (t * Instant.t) :=
  let d := delta c now in
  if negb (d =? 0) then
    '(ns, frac') ← Scale.convert (scale c) d (frac c);
    let base' := saturating_add 64 (base c) ns in
    Some ({| scale := scale c; mask := mask c; last := Z.land now (mask c);
             base := base'; frac := frac' |}, base')
  else Some (c, base c).

Definition peek (c : t) (now : Z) : option Instant.t :=
  '(ns, _) ← Scale.convert (scale c) (delta c now) (frac c);
  Some (saturating_add 64 (base c) ns).

Definition max_idle (c : t) : option Duration.t :=
  '(ns, _) ← Scale.convert (scale c) (Z.shiftr (mask c) 1) 0; Some ns.

(** ** The clock over its counter *)

(** [bits] is the width of the counter. *)
Record wf (bits : Z) (c : t) : Prop := {
  wf_bits : 1 ≤ bits ≤ 64;
  wf_scale : Scale.wf (scale c);
  wf_mask : mask c = Z.ones bits;
  wf_base : in_u 64 (base c);
  wf_frac : 0 ≤ frac c < 2 ^ Scale.shift (scale c);
}.

Lemma new_Ok hz bits now c :
  in_u 64 hz → 0 ≤ bits → new hz bits now = Ok c →
  wf bits c ∧ Scale.new hz FAST_PATH_SECS = Ok (scale c) ∧
  last c = now mod 2 ^ bits ∧ base c = 0 ∧ frac c = 0.
Proof.
  intros Hu Hb. unfold new. destruct (Z.eqb_spec bits 0); [done|]. destruct (Z.ltb_spec 64 bits); [done|].
  simpl. destruct (Scale.new hz FAST_PATH_SECS) as [s|] eqn:Hs; [|done]. intros [= <-]. simpl.
  destruct (Scale.scale_new_wf hz s Hu Hs) as (Hwf & _). pose proof (Scale.pow_shift s Hwf).
  assert ((if bits =? 64 then u64_MAX else shl 64 1 bits - 1) = Z.ones bits) as ->.
  { destruct (Z.eqb_spec bits 64) as [->|]; [done|]. unfold shl. rewrite Z.shiftl_1_l, Z.mod_small.
    - rewrite Z.ones_equiv. lia.
    - split; [lia|]. apply Z.pow_lt_mono_r; lia. }
  rewrite Z.land_ones by lia. split_and!; try done.
  split; simpl; [lia|done|done|by split; vm_compute|lia].
Qed.

(** The difference of two readings, modulo the counter's width. *)
Lemma delta_eq bits c now :
  wf bits c →
  delta c now = let d := (now - last c) mod 2 ^ bits in if 2 ^ (bits - 1) <=? d then 0 else d.
Proof.
  intros [Hb _ Hm _ _]. unfold delta, wrapping_sub. rewrite Hm, !Z.land_ones by lia.
  assert (2 ^ 64 = 2 ^ bits * 2 ^ (64 - bits)) as E by (rewrite <-Z.pow_add_r by lia; f_equal; lia).
  assert (0 < 2 ^ bits) by (apply Z.pow_pos_nonneg; lia).
  assert (0 < 2 ^ (64 - bits)) by (apply Z.pow_pos_nonneg; lia).
  assert (((now mod 2 ^ bits - last c) mod 2 ^ 64) mod 2 ^ bits = (now - last c) mod 2 ^ bits) as ->.
  { rewrite E, <-Znumtheory.Zmod_div_mod by (try lia; apply Z.divide_factor_l).
    rewrite Zminus_mod_idemp_l. done. }
  assert (Z.shiftr (Z.ones bits) 1 = 2 ^ (bits - 1) - 1) as ->.
  { rewrite Z.shiftr_div_pow2, Z.ones_equiv by lia. change (2 ^ 1) with 2.
    assert (2 ^ bits = 2 * 2 ^ (bits - 1)) as -> by (rewrite <-Z.pow_succ_r by lia; f_equal; lia).
    symmetry. apply Z.div_unique with 1; lia. }
  simpl. destruct (Z.ltb_spec (2 ^ (bits - 1) - 1) ((now - last c) mod 2 ^ bits)),
    (Z.leb_spec (2 ^ (bits - 1)) ((now - last c) mod 2 ^ bits)); lia.
Qed.

Lemma half_width bits : 1 ≤ bits → 2 ^ bits = 2 * 2 ^ (bits - 1) ∧ 0 < 2 ^ (bits - 1).
Proof.
  intros. split; [rewrite <-Z.pow_succ_r by lia; f_equal; lia|apply Z.pow_pos_nonneg; lia].
Qed.

(** The counter stood at [v] at the last fold and has moved to [w]. *)
Lemma delta_forward bits c v w :
  wf bits c → last c = v mod 2 ^ bits → v ≤ w < v + 2 ^ (bits - 1) →
  delta c (w mod 2 ^ bits) = w - v.
Proof.
  intros Hc Hv Hw. destruct (half_width bits) as [E H]; [apply Hc|].
  rewrite (delta_eq bits) by done. rewrite Hv, <-Zminus_mod, Z.mod_small by lia. simpl.
  destruct (Z.leb_spec (2 ^ (bits - 1)) (w - v)); lia.
Qed.

Lemma delta_backward bits c v w :
  wf bits c → last c = v mod 2 ^ bits → v - 2 ^ (bits - 1) ≤ w < v → delta c (w mod 2 ^ bits) = 0.
Proof.
  intros Hc Hv Hw. destruct (half_width bits) as [E H]; [apply Hc|].
  rewrite (delta_eq bits) by done. rewrite Hv, <-Zminus_mod. simpl.
  rewrite <-(Z.mod_add (w - v) 1) by lia. rewrite Z.mod_small by lia.
  destruct (Z.leb_spec (2 ^ (bits - 1)) (w - v + 1 * 2 ^ bits)); lia.
Qed.

Lemma delta_in_u bits c now : wf bits c → in_u 64 (delta c now).
Proof.
  intros Hc. rewrite (delta_eq bits) by done. simpl.
  assert (0 < 2 ^ bits) by (apply Z.pow_pos_nonneg; [lia|destruct Hc; lia]).
  assert (2 ^ bits ≤ 2 ^ 64) by (apply Z.pow_le_mono_r; [lia|destruct Hc; lia]).
  pose proof (Z.mod_pos_bound (now - last c) (2 ^ bits)). unfold in_u, u_max.
  destruct (Z.leb_spec (2 ^ (bits - 1)) ((now - last c) mod 2 ^ bits)); lia.
Qed.

(** One fold, and the time it returns: the ticks since the last fold at the clock's rate. *)
Lemma advance_spec bits c now :
  wf bits c →
  let P := 2 ^ Scale.shift (scale c) in
  let acc := delta c now * Scale.mult (scale c) + frac c in
  ∃ c', advance c now = Some (c', base c') ∧ peek c now = Some (base c') ∧ wf bits c' ∧
    scale c' = scale c ∧ (delta c now ≠ 0 → last c' = now mod 2 ^ bits) ∧ (delta c now = 0 → c' = c) ∧
    base c' = Z.min (base c + acc / P) u64_MAX ∧ (acc / P ≤ u64_MAX → frac c' = acc mod P).
Proof.
  intros Hc P acc. pose proof Hc as [Hb Hs Hm Hba Hf].
  pose proof (Scale.pow_shift _ Hs) as HP.
  destruct (Scale.convert_spec (scale c) (delta c now) (frac c) Hs (delta_in_u bits c now Hc) Hf)
    as (ns & fr & E & Hns & Hfr & Hex).
  fold P in Hns, Hfr, Hex, HP. fold acc in Hns, Hex.
  assert (0 ≤ acc / P) as Hacc.
  { apply Z.div_pos; [|lia]. pose proof (delta_in_u bits c now Hc). destruct (Scale.wf_mult _ Hs).
    unfold in_u in *. unfold acc. nia. }
  unfold in_u in Hba. unfold advance, peek. rewrite E. simpl.
  destruct (Z.eqb_spec (delta c now) 0) as [Hd|Hd]; simpl.
  - assert (acc = frac c) as Ea by (unfold acc; rewrite Hd; lia).
    assert (acc / P = 0) as Ez by (rewrite Ea; apply Z.div_small; done).
    exists c. rewrite Hns, Ez. unfold saturating_add, u_max in *. split_and!; try done.
    + f_equal. lia.
    + lia.
    + intros _. rewrite Ea. symmetry. by apply Z.mod_small.
  - exists {| scale := scale c; mask := mask c; last := Z.land now (mask c);
              base := saturating_add 64 (base c) ns; frac := fr |}.
    split; [done|]. cbn [base scale frac last]. rewrite Hns. unfold saturating_add, u_max in *.
    split_and!; try done.
    + split; simpl; [exact Hb|exact Hs|exact Hm| |exact Hfr]. split; unfold u_max; lia.
    + intros _. rewrite Hm. apply Z.land_ones. lia.
    + lia.
Qed.

(** Folding a sequence of readings. *)
Fixpoint advance_all (c : t) (nows : list Z) : option t :=
  match nows with
  | [] => Some c
  | now :: nows => '(c', _) ← advance c now; advance_all c' nows
  end.

(** Successive values of the counter, each less than half a wrap after the one before. *)
Fixpoint counts (bits v : Z) (vs : list Z) : Prop :=
  match vs with
  | [] => True
  | w :: ws => v ≤ w < v + 2 ^ (bits - 1) ∧ counts bits w ws
  end.

(** The clock has seen [T] ticks, the last of them at the counter's value [v]. *)
Definition seen (bits : Z) (c : t) (v T : Z) : Prop :=
  wf bits c ∧ last c = v mod 2 ^ bits ∧ 0 ≤ T ∧
  base c = Z.min (T * Scale.mult (scale c) / 2 ^ Scale.shift (scale c)) u64_MAX ∧
  (T * Scale.mult (scale c) / 2 ^ Scale.shift (scale c) ≤ u64_MAX →
   frac c = T * Scale.mult (scale c) mod 2 ^ Scale.shift (scale c)).

Lemma seen_advance bits c v T w :
  seen bits c v T → v ≤ w < v + 2 ^ (bits - 1) →
  ∃ c', advance c (w mod 2 ^ bits) = Some (c', base c') ∧ scale c' = scale c ∧ seen bits c' w (T + (w - v)).
Proof.
  intros (Hc & Hl & HT & Hb & Hf) Hw.
  destruct (advance_spec bits c (w mod 2 ^ bits) Hc) as (c' & Ha & _ & Hc' & Hs & Hl' & H0 & Hb' & Hf').
  rewrite (delta_forward bits c v w Hc Hl Hw) in *. exists c'. split_and!; try done.
  unfold seen. rewrite Hs. pose proof (Scale.pow_shift _ (wf_scale _ _ Hc)) as HP.
  pose proof (Scale.wf_mult _ (wf_scale _ _ Hc)) as Hm.
  set (P := 2 ^ Scale.shift (scale c)) in *. set (m := Scale.mult (scale c)) in *.
  split_and!; [done| |lia| |].
  - destruct (decide (w - v = 0)) as [E|E].
    + rewrite (H0 E). assert (w = v) as -> by lia. done.
    + rewrite Hl', Zmod_mod by done. done.
  - rewrite Hb', Hb. assert (T * m / P ≤ (T + (w - v)) * m / P) as Hmono by (apply Z.div_le_mono; nia).
    assert (0 ≤ ((w - v) * m + frac c) / P) by (apply Z.div_pos; [destruct Hc; nia|lia]).
    destruct (Z.le_gt_cases (T * m / P) u64_MAX) as [Hle|Hgt]; [|lia].
    rewrite (Z.min_l (T * m / P)) by done. f_equal. rewrite (Hf Hle).
    rewrite <-div_add_mul by lia. f_equal. pose proof (Z.div_mod (T * m) P ltac:(lia)). lia.
  - intros Hle. assert (T * m / P ≤ (T + (w - v)) * m / P) as Hmono by (apply Z.div_le_mono; nia).
    rewrite (Hf ltac:(lia)) in Hf'.
    assert ((T + (w - v)) * m = T * m / P * P + ((w - v) * m + T * m mod P)) as E
      by (pose proof (Z.div_mod (T * m) P ltac:(lia)); lia).
    rewrite E. rewrite (Z.add_comm (_ * P)), Z.mod_add by lia. apply Hf'.
    rewrite E, div_add_mul in Hle by lia.
    assert (0 ≤ T * m / P) by (apply Z.div_pos; [nia|lia]). lia.
Qed.

Lemma seen_advance_all bits c v T vs :
  seen bits c v T → counts bits v vs →
  ∃ c', advance_all c ((λ w, w mod 2 ^ bits) <$> vs) = Some c' ∧ scale c' = scale c ∧
    seen bits c' (default v (list.last vs)) (T + (default v (list.last vs) - v)).
Proof.
  revert c v T. induction vs as [|w vs IH]; intros c v T Hseen Hcounts.
  { exists c. split_and!; try done. simpl. by replace (T + (v - v)) with T by lia. }
  destruct Hcounts as [Hw Hcounts]. destruct (seen_advance bits c v T w Hseen Hw) as (c1 & Ha & Hs & Hseen1).
  destruct (IH c1 w _ Hseen1 Hcounts) as (c' & Hrun & Hs' & Hseen').
  exists c'. csimpl. rewrite Ha. simpl. split_and!; [done|congruence|].
  rewrite last_cons. destruct (list.last vs) as [x|]; simpl in *.
  - by replace (T + (x - v)) with (T + (w - v) + (x - w)) by lia.
  - by replace (T + (w - v)) with (T + (w - v) + (w - w)) by lia.
Qed.

(** C20. A clock made when the counter stood at [v], and folded at successive values [vs] of
    the counter, less than half a wrap apart, reads exactly the ticks elapsed since [v] at its
    rate: however many folds there were and however often the counter wrapped, no fraction of
    a nanosecond is lost; at the end of a [u64] it stays there, and no fold overflows. Whatever
    value the counter is read at, folding it returns a time no earlier than any returned
    before, the time [peek] reports without folding; a counter that stepped back by up to half
    its range leaves the clock as it was. *)
Theorem clock_is_exact_and_monotonic :
  (∀ hz bits v vs c,
  in_u 64 hz → 0 ≤ bits → new hz bits (v mod 2 ^ bits) = Ok c → counts bits v vs →
  ∃ c', advance_all c ((λ w, w mod 2 ^ bits) <$> vs) = Some c' ∧
    base c' = Z.min ((default v (list.last vs) - v) * Scale.mult (scale c) / 2 ^ Scale.shift (scale c))
                u64_MAX) ∧
  (∀ bits c now,
  wf bits c →
  (∃ c', advance c now = Some (c', base c') ∧ peek c now = Some (base c') ∧ wf bits c' ∧
     base c ≤ base c' ≤ u64_MAX) ∧
  (∀ v w, last c = v mod 2 ^ bits → v - 2 ^ (bits - 1) ≤ w < v →
     advance c (w mod 2 ^ bits) = Some (c, base c))).
Proof.
  split.
  { intros hz bits v vs c. intros Hu Hb Hn Hv. destruct (new_Ok hz bits _ c Hu Hb Hn) as (Hc & _ & Hl & Hba & Hf).
  destruct (seen_advance_all bits c v 0 vs) as (c' & Hrun & Hs & (_ & _ & _ & E & _)); [|done|].
  - rewrite Zmod_mod in Hl. split_and!; [done..|lia| |].
    + by rewrite Hba.
    + intros _. rewrite Hf, Z.mul_0_l. symmetry. apply Z.mod_0_l.
      pose proof (Scale.pow_shift _ (wf_scale _ _ Hc)). lia.
  - exists c'. split; [done|]. by rewrite E, Hs. }
  { intros bits c now. intros Hc. split.
  - destruct (advance_spec bits c now Hc) as (c' & Ha & Hp & Hc' & _ & _ & _ & Hb & _).
    exists c'. split_and!; try done; [|apply Hc'].
    rewrite Hb. pose proof (delta_in_u bits c now Hc) as Hd. destruct Hc as [_ Hs _ Hba Hf].
    pose proof (Scale.pow_shift _ Hs). destruct (Scale.wf_mult _ Hs). unfold in_u in *.
    assert (0 ≤ (delta c now * Scale.mult (scale c) + frac c) / 2 ^ Scale.shift (scale c)).
    { apply Z.div_pos; nia. }
    lia.
  - intros v w Hv Hw. destruct (advance_spec bits c (w mod 2 ^ bits) Hc) as (c' & Ha & _ & _ & _ & _ & H0 & _).
    rewrite H0 in Ha; [done|]. by apply (delta_backward bits c v). }
Qed.

(** A 24-bit counter at 32.768 kHz. *)
Definition example_clock : t :=
  {| scale := {| Scale.mult := 32768000000000; Scale.shift := 30; Scale.max_delta := 562949 |};
     mask := 16777215; last := 16777210; base := 0; frac := 0 |}.

Lemma example_clock_new : new 32768 24 (16777210 mod 2 ^ 24) = Ok example_clock.
Proof. vm_compute. reflexivity. Defined.

Lemma clock_is_exact_and_monotonic_witness :
  (∃ c', advance_all example_clock ((λ w, w mod 2 ^ 24) <$> [16777300; 16800000]) = Some c' ∧ base c' = 695495605) ∧
  advance example_clock (16777000 mod 2 ^ 24) = Some (example_clock, 0).
Proof.
  destruct clock_is_exact_and_monotonic as [Htracks Hback]. split.
  - apply (Htracks 32768 24 16777210 [16777300; 16800000] example_clock).
    + split; vm_compute; discriminate.
    + lia.
    + exact example_clock_new.
    + cbn [counts]. lia.
  - apply (proj2 (Hback 24 example_clock 0
      (proj1 (new_Ok 32768 24 _ example_clock ltac:(split; vm_compute; discriminate) ltac:(lia)
        example_clock_new))) 16777210); [vm_compute; reflexivity|lia].
Defined.

End Clock.
