(* ===== verification/TimeTimer.v ===== *)
(** * The timer queue

    [kernel/time/src/timer.rs].  Armed timers in a fixed array of slots, ordered by a binary
    min-heap of slot indices; every slot knows its place in the heap.  [None] of a definition
    is a panic (an index out of range, [unreachable!]) or a loop that outlives its fuel; the
    theorems show neither happens. *)

From Stdlib Require Import Sorted.
From S2P Require Import Prelude TimeClock.
Local Open Scope Z_scope.

Module Timer.

Record TimerId := { tid_index : nat; tid_serial : Z }.

Inductive Error : Type := Full | Stale | ZeroPeriod | Exhausted.

(** A periodic timer's next deadline and the periods skipped. *)
Definition next_period (deadline : Instant.t) (period : Duration.t) (now : Instant.t) :
    option Instant.t * Z :=
  match Instant.checked_add deadline period with
  | None => (None, 0)
  | Some n =>
      if now <? n then (Some n, 0)
      else
        let late := Instant.saturating_duration_since now deadline in
        let missed := late / period in
        let step := k ← checked_add 64 missed 1; Duration.checked_mul period k in
        (s ← step; Instant.checked_add deadline s, missed)
  end.

(** The order of [(Instant, u64)] pairs. *)
Definition key_lt (a b : Z * Z) : bool := (a.1 <? b.1) || ((a.1 =? b.1) && (a.2 <? b.2)).

(** ** Heap order *)

Definition key_le (a b : Z * Z) : Prop := a.1 < b.1 ∨ (a.1 = b.1 ∧ a.2 ≤ b.2).

Lemma key_lt_true a b : key_lt a b = true → key_le a b ∧ a ≠ b.
Proof.
  unfold key_lt, key_le. intros [H%Z.ltb_lt|[H1%Z.eqb_eq H2%Z.ltb_lt]%andb_true_iff]%orb_true_iff.
  all: split; [lia|]; intros ->; lia.
Qed.

Lemma key_lt_false a b : key_lt a b = false → key_le b a.
Proof.
  unfold key_lt, key_le. intros [H1%Z.ltb_ge H2]%orb_false_iff.
  destruct (Z.eqb_spec a.1 b.1); simpl in H2; [apply Z.ltb_ge in H2|]; lia.
Qed.

Lemma key_le_trans a b c : key_le a b → key_le b c → key_le a c.
Proof. unfold key_le. lia. Qed.

Lemma key_le_refl a : key_le a a.
Proof. unfold key_le. lia. Qed.

Definition par (p : nat) : nat := ((p - 1) / 2)%nat.
Arguments par : simpl never.

Lemma par_child c p : (0 < c)%nat → par c = p ↔ c = (2 * p + 1)%nat ∨ c = (2 * p + 2)%nat.
Proof.
  intros Hc. unfold par. pose proof (Nat.div_mod (c - 1) 2 ltac:(lia)).
  pose proof (Nat.mod_upper_bound (c - 1) 2 ltac:(lia)). lia.
Qed.

Lemma par_lt p : (0 < p)%nat → (par p < p)%nat.
Proof. intros Hp. pose proof (proj1 (par_child p _ Hp) eq_refl). lia. Qed.

Section Heap.
(** The keys by heap position, of which the first [n] count. *)
Context (n : nat).
Implicit Types K : nat → Z * Z.

Definition ordered K : Prop := ∀ p, (0 < p < n)%nat → key_le (K (par p)) (K p).

(** Every order but those with [pos] holds, and [pos] could be left out. *)
Definition around K (pos : nat) : Prop :=
  (∀ p, (0 < p < n)%nat → p ≠ pos → par p ≠ pos → key_le (K (par p)) (K p)) ∧
  (∀ c, (0 < c < n)%nat → par c = pos → (0 < pos)%nat → key_le (K (par pos)) (K c)).
(** The order with the children also holds: [pos] may be too small. *)
Definition may_rise K (pos : nat) : Prop :=
  around K pos ∧ ∀ c, (0 < c < n)%nat → par c = pos → key_le (K pos) (K c).
(** The order with the parent also holds: [pos] may be too large. *)
Definition may_sink K (pos : nat) : Prop :=
  around K pos ∧ ((0 < pos)%nat → key_le (K (par pos)) (K pos)).

Definition swapped K (a b : nat) : nat → Z * Z :=
  λ p, if decide (p = a) then K b else if decide (p = b) then K a else K p.

Lemma ordered_around K pos : (pos < n)%nat → ordered K → around K pos.
Proof.
  intros Hp Ho. split; [intros; by apply Ho|]. intros c Hc Hpc H0.
  eapply key_le_trans; [apply Ho; lia|]. rewrite <-Hpc at 1. by apply Ho.
Qed.

Lemma may_rise_root K : may_rise K 0 → ordered K.
Proof.
  intros [[H _] Hc] p Hp. destruct (decide (par p = 0%nat)) as [E|E]; [|apply H; lia].
  rewrite E. by apply Hc.
Qed.

Lemma may_rise_stop K pos :
  may_rise K pos → ((0 < pos)%nat → key_le (K (par pos)) (K pos)) → ordered K.
Proof.
  intros [[H _] Hc] Hle p Hp. destruct (decide (p = pos)) as [->|]; [apply Hle; lia|].
  destruct (decide (par p = pos)) as [E|]; [rewrite E; by apply Hc|by apply H].
Qed.

(** A swap with the parent moves the place that may rise up. *)
Lemma may_rise_swap K pos :
  around K pos → (0 < pos < n)%nat → key_le (K pos) (K (par pos)) →
  may_rise (swapped K pos (par pos)) (par pos).
Proof.
  intros [Ho Hc] Hpos Hlt. pose proof (par_lt pos ltac:(lia)) as Hpp. unfold swapped.
  assert (∀ p, (0 < p < n)%nat → p ≠ pos → par p = par pos → key_le (K (par pos)) (K p)) as Hsib.
  { intros p Hp Hne E. rewrite <-E. apply Ho; [done..|lia]. }
  split; [split|].
  - intros p Hp Hpp1 Hpp2. pose proof (par_lt p ltac:(lia)).
    destruct (decide (p = pos)) as [->|Hne]; [done|].
    destruct (decide (par p = pos)) as [E|E]; simpl.
    + repeat case_decide; try lia. apply Hc; [done..|lia].
    + repeat case_decide; try lia. by apply Ho.
  - intros c Hcn Hcp H0. pose proof (par_lt (par pos) H0). pose proof (par_lt c ltac:(lia)).
    assert (key_le (K (par (par pos))) (K (par pos))) as Hup by (apply Ho; lia).
    repeat case_decide; try lia; [done|]. eapply key_le_trans; [exact Hup|]. by apply Hsib.
  - intros c Hcn Hcp. pose proof (par_lt c ltac:(lia)). repeat case_decide; try lia; [done|].
    eapply key_le_trans; [exact Hlt|]. by apply Hsib.
Qed.

(** A swap with the least child moves the place that may sink down. *)
Lemma may_sink_swap K pos c :
  may_sink K pos → (0 < c < n)%nat → par c = pos →
  key_le (K c) (K pos) → (∀ d, (0 < d < n)%nat → par d = pos → key_le (K c) (K d)) →
  may_sink (swapped K pos c) c.
Proof.
  intros [[Ho Hch] Hup] Hc Hpc Hlt Hleast. pose proof (par_lt c ltac:(lia)). unfold swapped.
  split; [split|].
  - intros p Hp Hpp1 Hpp2. pose proof (par_lt p ltac:(lia)).
    destruct (decide (par p = pos)) as [E|E].
    + repeat case_decide; try lia. by apply Hleast.
    + destruct (decide (p = pos)) as [->|Hne].
      * repeat case_decide; try lia. apply Hch; [done..|lia].
      * repeat case_decide; try lia. by apply Ho.
  - intros d Hd Hdc _. pose proof (par_lt d ltac:(lia)). repeat case_decide; try lia.
    rewrite <-Hdc at 1. apply Ho; lia.
  - intros _. repeat case_decide; try lia. done.
Qed.

Lemma may_sink_stop K pos :
  may_sink K pos → (∀ d, (0 < d < n)%nat → par d = pos → key_le (K pos) (K d)) → ordered K.
Proof.
  intros [Hb Hup] Hle. apply (may_rise_stop K pos); [|done]. by split.
Qed.

Lemma ordered_root K p : ordered K → (p < n)%nat → key_le (K 0%nat) (K p).
Proof.
  intros Ho. induction (lt_wf p) as [p _ IH]. intros Hp.
  destruct (decide (p = 0%nat)) as [->|]; [apply key_le_refl|].
  pose proof (par_lt p ltac:(lia)). eapply key_le_trans; [apply (IH (par p)); lia|apply Ho; lia].
Qed.

(** Only the first [n] keys count. *)
Lemma ordered_ext K K' : (∀ p, (p < n)%nat → K' p = K p) → ordered K → ordered K'.
Proof. intros E H p Hp. pose proof (par_lt p ltac:(lia)). rewrite !E by lia. by apply H. Qed.

Lemma around_ext K K' pos :
  (pos < n)%nat → (∀ p, (p < n)%nat → K' p = K p) → around K pos → around K' pos.
Proof.
  intros Hpos E [H1 H2]. split.
  - intros p Hp. pose proof (par_lt p ltac:(lia)). rewrite !E by lia. by apply H1.
  - intros c Hc Hcp H0. pose proof (par_lt pos H0). rewrite !E by lia. by apply H2.
Qed.

Lemma may_rise_ext K K' pos :
  (pos < n)%nat → (∀ p, (p < n)%nat → K' p = K p) → may_rise K pos → may_rise K' pos.
Proof.
  intros Hpos E [H1 H2]. split; [by eapply around_ext|]. intros c Hc Hcp. rewrite !E by lia. by apply H2.
Qed.

Lemma may_sink_ext K K' pos :
  (pos < n)%nat → (∀ p, (p < n)%nat → K' p = K p) → may_sink K pos → may_sink K' pos.
Proof.
  intros Hpos E [H1 H2]. split; [by eapply around_ext|]. intros H0. pose proof (par_lt pos H0).
  rewrite !E by lia. by apply H2.
Qed.
End Heap.

Section Queue.
Context {T : Type}.

Record Armed := {
  deadline : Instant.t;
  period : option Duration.t;
  serial : Z;
  payload : T;
  heap_pos : nat;
}.

Record Expired := {
  e_id : TimerId;
  e_payload : T;
  e_deadline : Instant.t;
  e_missed : Z;
  e_next : option Instant.t;
}.

Record t := { slots : list (option Armed); heap : list nat; len : nat; next_serial : Z }.

Definition new (N : nat) : option t :=
  if Z.of_nat N <=? u32_MAX
  then Some {| slots := replicate N None; heap := replicate N 0%nat; len := 0; next_serial := 0 |}
  else None.

Definition is_empty (q : t) : bool := (len q =? 0)%nat.
Definition capacity (q : t) : nat := length (slots q).

(** The armed timer at a heap position; an empty slot there is [unreachable!]. *)
Definition at_ (q : t) (pos : nat) : option Armed := i ← heap q !! pos; a ← slots q !! i; a.
Definition key (q : t) (pos : nat) : option (Z * Z) := a ← at_ q pos; Some (deadline a, serial a).

Definition set_pos (a : Armed) (pos : nat) : Armed :=
  {| deadline := deadline a; period := period a; serial := serial a; payload := payload a;
     heap_pos := pos |}.
Definition set_deadline (a : Armed) (d : Instant.t) : Armed :=
  {| deadline := d; period := period a; serial := serial a; payload := payload a;
     heap_pos := heap_pos a |}.
Definition set_slots (q : t) (sl : list (option Armed)) : t :=
  {| slots := sl; heap := heap q; len := len q; next_serial := next_serial q |}.

Definition place (q : t) (pos index : nat) : option t :=
  heap' ← set_at (heap q) pos index;
  s ← slots q !! index;
  Some {| slots := match s with
                   | Some a => <[index := Some (set_pos a (as_u32 pos))]> (slots q)
                   | None => slots q
                   end;
          heap := heap'; len := len q; next_serial := next_serial q |}.

Definition swap (q : t) (a b : nat) : option t :=
  ia ← heap q !! a; ib ← heap q !! b;
  q1 ← place q a ib; place q1 b ia.

Fixpoint sift_up_fuel (fuel : nat) (q : t) (pos : nat) : option t :=
  if (pos =? 0)%nat then Some q
  else match fuel with
  | O => None
  | S fuel =>
      let parent := ((pos - 1) / 2)%nat in
      kp ← key q pos; kq ← key q parent;
      if negb (key_lt kp kq) then Some q
      else q' ← swap q pos parent; sift_up_fuel fuel q' parent
  end.
(** The position at least halves, so it bounds the turns. *)
Definition sift_up (q : t) (pos : nat) : option t := sift_up_fuel pos q pos.

(** [i < self.len && self.key(i) < self.key(least)] *)
Definition less_child (q : t) (least i : nat) : option nat :=
  if (i <? len q)%nat then ki ← key q i; kl ← key q least; Some (if key_lt ki kl then i else least)
  else Some least.

Fixpoint sift_down_fuel (fuel : nat) (q : t) (pos : nat) : option t :=
  match fuel with
  | O => None
  | S fuel =>
      l ← less_child q pos (2 * pos + 1);
      least ← less_child q l (2 * pos + 2);
      if (least =? pos)%nat then Some q
      else q' ← swap q pos least; sift_down_fuel fuel q' least
  end.
(** The position grows while it stays below [len]. *)
Definition sift_down (q : t) (pos : nat) : option t := sift_down_fuel (S (len q)) q pos.

Definition remove_at (q : t) (pos : nat) : option t :=
  last ← usub (len q) 1;
  q1 ← (if (pos =? last)%nat then Some q else swap q pos last);
  len' ← usub (len q1) 1;
  let q2 := {| slots := slots q1; heap := heap q1; len := len'; next_serial := next_serial q1 |} in
  if (pos <? len')%nat then q3 ← sift_up q2 pos; sift_down q3 pos else Some q2.

Definition insert (q : t) (d : Instant.t) (p : option Duration.t) (x : T) :
    option (t * result TimerId Error) :=
  if next_serial q =? u64_MAX then Some (q, Err Exhausted)
  else match position (λ s : option Armed, match s with None => true | Some _ => false end) (slots q) with
  | None => Some (q, Err Full)
  | Some index =>
      let serial := next_serial q in
      let pos := len q in
      slots' ← set_at (slots q) index
        (Some {| deadline := d; period := p; serial := serial; payload := x; heap_pos := as_u32 pos |});
      heap' ← set_at (heap q) pos (as_u32 index);
      q' ← sift_up {| slots := slots'; heap := heap'; len := len q + 1; next_serial := next_serial q + 1 |} pos;
      Some (q', Ok {| tid_index := as_u32 index; tid_serial := serial |})
  end.

Definition arm_oneshot (q : t) (d : Instant.t) (x : T) : option (t * result TimerId Error) :=
  insert q d None x.

Definition arm_periodic (q : t) (first : Instant.t) (p : Duration.t) (x : T) :
    option (t * result TimerId Error) :=
  if Duration.is_zero p then Some (q, Err ZeroPeriod) else insert q first (Some p) x.

Definition lookup (q : t) (id : TimerId) : result Armed Error :=
  match slots q !! tid_index id with
  | Some (Some a) => if serial a =? tid_serial id then Ok a else Err Stale
  | _ => Err Stale
  end.

Definition cancel (q : t) (id : TimerId) : option (t * result T Error) :=
  match lookup q id with
  | Err e => Some (q, Err e)
  | Ok armed =>
      q' ← remove_at q (heap_pos armed);
      slots' ← set_at (slots q') (tid_index id) None;
      Some (set_slots q' slots', Ok (payload armed))
  end.

Definition deadline_of (q : t) (id : TimerId) : result Instant.t Error :=
  let? a := lookup q id in Ok (deadline a).

Definition next_deadline (q : t) : option (option Instant.t) :=
  if (0 <? len q)%nat then a ← at_ q 0; Some (Some (deadline a)) else Some None.

Definition idle_budget (q : t) (now : Instant.t) (limit : Duration.t) : option Duration.t :=
  o ← next_deadline q;
  Some (match o with
        | Some d => Z.min (Instant.saturating_duration_since d now) limit
        | None => limit
        end).

Definition pop_expired (q : t) (now : Instant.t) : option (t * option Expired) :=
  if (len q =? 0)%nat then Some (q, None)
  else
    a0 ← at_ q 0;
    if now <? deadline a0 then Some (q, None)
    else
      index ← heap q !! 0%nat;
      s ← slots q !! index;
      match s with
      | None => Some (q, None)
      | Some armed =>
          let id := {| tid_index := index; tid_serial := serial armed |} in
          match period armed with
          | None =>
              q' ← remove_at q 0;
              slots' ← set_at (slots q') index None;
              Some (set_slots q' slots',
                    Some {| e_id := id; e_payload := payload armed; e_deadline := deadline armed;
                            e_missed := 0; e_next := None |})
          | Some p =>
              let '(next, missed) := next_period (deadline armed) p now in
              q2 ← match next with
                   | Some n =>
                       slots' ← set_at (slots q) index (Some (set_deadline armed n));
                       sift_down (set_slots q slots') 0
                   | None =>
                       q' ← remove_at q 0;
                       slots' ← set_at (slots q') index None;
                       Some (set_slots q' slots')
                   end;
              Some (q2, Some {| e_id := id; e_payload := payload armed; e_deadline := deadline armed;
                                e_missed := missed; e_next := next |})
          end
      end.

(** ** The slots and the heap name each other *)

(** Except for the slot [ex], which is out of the heap. *)
Record linked (ex : option nat) (q : t) : Prop := {
  linked_cap : Z.of_nat (length (slots q)) ≤ u32_MAX;
  linked_length : length (heap q) = length (slots q);
  linked_len : (len q ≤ length (slots q))%nat;
  linked_heap : ∀ pos, (pos < len q)%nat →
    ∃ i a, heap q !! pos = Some i ∧ Some i ≠ ex ∧ slots q !! i = Some (Some a) ∧ heap_pos a = pos;
  linked_slot : ∀ i a, slots q !! i = Some (Some a) → Some i ≠ ex →
    (heap_pos a < len q)%nat ∧ heap q !! heap_pos a = Some i;
}.

(** The timers, apart from where they are in the heap. *)
Definition strip (a : Armed) : Armed := set_pos a 0.
Definition timers (q : t) : list (option Armed) := option_map strip <$> slots q.

(** Nothing but the heap changed. *)
Definition same (q q' : t) : Prop :=
  timers q' = timers q ∧ len q' = len q ∧ next_serial q' = next_serial q.

Lemma same_trans q1 q2 q3 : same q1 q2 → same q2 q3 → same q1 q3.
Proof. intros (?&?&?) (?&?&?). split_and!; congruence. Qed.

Lemma same_slots_length q q' : same q q' → length (slots q') = length (slots q).
Proof. intros (H & _). apply (f_equal length) in H. unfold timers in H. by rewrite !length_fmap in H. Qed.

(** The key at a position of the heap. *)
Definition K (q : t) (pos : nat) : Z * Z := default (0, 0) (key q pos).

Lemma at_eq q pos i a :
  heap q !! pos = Some i → slots q !! i = Some (Some a) → at_ q pos = Some a.
Proof. intros H1 H2. unfold at_. rewrite H1. simpl. by rewrite H2. Qed.

Lemma key_linked ex q pos : linked ex q → (pos < len q)%nat → key q pos = Some (K q pos).
Proof.
  intros Hl Hp. unfold K, key. destruct (linked_heap _ _ Hl pos Hp) as (i & a & H1 & _ & H2 & _).
  by rewrite (at_eq q pos i a).
Qed.

Lemma K_eq q pos i a : heap q !! pos = Some i → slots q !! i = Some (Some a) → K q pos = (deadline a, serial a).
Proof. intros H1 H2. unfold K, key, at_. rewrite H1. simpl. by rewrite H2. Qed.

Lemma heap_inj ex q p p' i :
  linked ex q → (p < len q)%nat → (p' < len q)%nat → heap q !! p = Some i → heap q !! p' = Some i → p = p'.
Proof.
  intros Hl Hp Hp' H1 H2. destruct (linked_heap _ _ Hl p Hp) as (i1 & a1 & E1 & _ & S1 & <-).
  destruct (linked_heap _ _ Hl p' Hp') as (i2 & a2 & E2 & _ & S2 & <-). congruence.
Qed.

Lemma timers_put q i a b :
  slots q !! i = Some (Some a) → strip b = strip a →
  option_map strip <$> (<[i:=Some b]> (slots q)) = timers q.
Proof.
  intros Hi E. unfold timers. rewrite list_fmap_insert. simpl. rewrite E. apply list_insert_id.
  by rewrite list_lookup_fmap, Hi.
Qed.

Lemma place_eq q pos i a h :
  heap q !! pos = Some h → slots q !! i = Some (Some a) →
  place q pos i = Some {| slots := <[i := Some (set_pos a (as_u32 pos))]> (slots q);
                          heap := <[pos := i]> (heap q); len := len q; next_serial := next_serial q |}.
Proof. intros H1 H2. unfold place. rewrite (set_at_Some _ _ _ _ H1). simpl. by rewrite H2. Qed.

Lemma swap_spec ex q a b :
  linked ex q → (a < len q)%nat → (b < len q)%nat → a ≠ b →
  ∃ q', swap q a b = Some q' ∧ linked ex q' ∧ same q q' ∧
    heap q' = <[b:=default 0%nat (heap q !! a)]> (<[a:=default 0%nat (heap q !! b)]> (heap q)) ∧
    ∀ p, (p < len q)%nat → K q' p = swapped (K q) a b p.
Proof.
  intros Hl Ha Hb Hab. pose proof Hl as [Hcap Hlen Hle Hh Hs].
  destruct (Hh a Ha) as (ia & xa & Ea & Na & Sa & Pa), (Hh b Hb) as (ib & xb & Eb & Nb & Sb & Pb).
  assert (ia ≠ ib) as Hne by (intros ->; apply Hab; by eapply heap_inj).
  assert (Z.of_nat (length (slots q)) < 2 ^ 32) as Hu by (unfold u_max in Hcap; lia).
  unfold swap. rewrite Ea. simpl. rewrite Eb. simpl.
  rewrite (place_eq q a ib xb ia) by done. simpl.
  rewrite (place_eq _ b ia xa ib) by (simpl; by rewrite list_lookup_insert_ne). simpl.
  rewrite !as_u32_id by lia. eexists. split; [done|].
  set (sl := <[ia:=Some (set_pos xa b)]> (<[ib:=Some (set_pos xb a)]> (slots q))).
  assert (sl !! ia = Some (Some (set_pos xa b))) as La.
  { apply list_lookup_insert_eq. rewrite length_insert. by eapply lookup_lt_Some. }
  assert (sl !! ib = Some (Some (set_pos xb a))) as Lb.
  { unfold sl. rewrite list_lookup_insert_ne by done. apply list_lookup_insert_eq. by eapply lookup_lt_Some. }
  assert (∀ i, i ≠ ia → i ≠ ib → sl !! i = slots q !! i) as Lo.
  { intros i ? ?. unfold sl. by rewrite !list_lookup_insert_ne. }
  set (hp := <[b:=ia]> (<[a:=ib]> (heap q))).
  assert (hp !! a = Some ib) as Ha'.
  { unfold hp. rewrite list_lookup_insert_ne by done. apply list_lookup_insert_eq. by eapply lookup_lt_Some. }
  assert (hp !! b = Some ia) as Hb'.
  { unfold hp. apply list_lookup_insert_eq. rewrite length_insert. by eapply lookup_lt_Some. }
  assert (∀ p, p ≠ a → p ≠ b → hp !! p = heap q !! p) as Ho.
  { intros p ? ?. unfold hp. by rewrite !list_lookup_insert_ne. }
  split_and!.
  - split; simpl.
    + unfold sl. by rewrite !length_insert.
    + unfold sl, hp. by rewrite !length_insert.
    + unfold sl. by rewrite !length_insert.
    + intros p Hp. destruct (decide (p = a)) as [->|Hpa]; [by exists ib, (set_pos xb a)|].
      destruct (decide (p = b)) as [->|Hpb]; [by exists ia, (set_pos xa b)|].
      destruct (Hh p Hp) as (i & x & Ei & Ni & Si & Pi). exists i, x. rewrite Ho by done.
      split_and!; try done. rewrite Lo; [done|..]; intros ->; [apply Hpa|apply Hpb]; by eapply heap_inj.
    + intros i x Hi Hx. destruct (decide (i = ia)) as [->|Hia]; [simplify_eq; simpl; done|].
      destruct (decide (i = ib)) as [->|Hib]; [simplify_eq; simpl; done|].
      rewrite Lo in Hi by done. destruct (Hs i x Hi Hx) as [H1 H2]. split; [done|].
      rewrite Ho; [done|..]; intros E; rewrite E in H2; congruence.
  - split_and!; try done. unfold timers at 1. simpl. unfold sl.
    assert (<[ib:=Some (set_pos xb a)]> (slots q) !! ia = Some (Some xa)) as Sa'
      by (by rewrite list_lookup_insert_ne).
    rewrite list_fmap_insert. simpl. rewrite (timers_put q ib xb) by done. 
    apply list_insert_id. unfold timers. by rewrite list_lookup_fmap, Sa.
  - done.
  - intros p Hp. unfold swapped.
    destruct (decide (p = a)) as [->|Hpa]; [|destruct (decide (p = b)) as [->|Hpb]].
    + by rewrite (K_eq q b ib xb), (K_eq _ a ib (set_pos xb a)) by done.
    + by rewrite (K_eq q a ia xa), (K_eq _ b ia (set_pos xa b)) by done.
    + destruct (Hh p Hp) as (i & x & Ei & Ni & Si & Pi). rewrite (K_eq q p i x) by done.
      apply (K_eq _ p i x); simpl; [by rewrite Ho|].
      rewrite Lo; [done|..]; intros ->; [apply Hpa|apply Hpb]; by eapply heap_inj.
Qed.

Lemma sift_up_spec ex fuel q pos :
  linked ex q → (pos < len q)%nat → (pos ≤ fuel)%nat → may_rise (len q) (K q) pos →
  ∃ q', sift_up_fuel fuel q pos = Some q' ∧ linked ex q' ∧ same q q' ∧ ordered (len q) (K q').
Proof.
  revert q pos. induction fuel as [|fuel IH]; intros q pos Hl Hp Hf Hr; cbn [sift_up_fuel].
  { assert (pos = 0%nat) as -> by lia. simpl. exists q. split_and!; try done. by apply may_rise_root. }
  destruct (Nat.eqb_spec pos 0) as [->|Hne].
  { exists q. split_and!; try done. by apply may_rise_root. }
  change ((pos - 1) / 2)%nat with (par pos). pose proof (par_lt pos ltac:(lia)) as Hpp.
  rewrite (key_linked ex q pos), (key_linked ex q (par pos)) by (done || lia). simpl.
  destruct (key_lt (K q pos) (K q (par pos))) eqn:E; simpl.
  - apply key_lt_true in E as [E _].
    destruct (swap_spec ex q pos (par pos)) as (q1 & -> & Hl1 & Hs1 & _ & HK); [done..|lia|lia|]. simpl.
    pose proof Hs1 as (_ & Hlen1 & _).
    destruct (IH q1 (par pos)) as (q' & Hq' & Hl' & Hs' & Ho'); [done|rewrite Hlen1; lia|lia| |].
    + rewrite Hlen1. apply (may_rise_ext _ (swapped (K q) pos (par pos))); [lia|done|].
      apply may_rise_swap; [apply Hr|lia|done].
    + exists q'. rewrite Hlen1 in Ho'. eauto using same_trans.
  - apply key_lt_false in E. exists q. split_and!; try done. by eapply may_rise_stop.
Qed.

(** From a place that may have to rise or to sink. *)
Lemma sift_up_around ex q pos :
  linked ex q → (pos < len q)%nat → around (len q) (K q) pos →
  ∃ q', sift_up q pos = Some q' ∧ linked ex q' ∧ same q q' ∧ may_sink (len q) (K q') pos.
Proof.
  intros Hl Hp Ha. unfold sift_up. destruct pos as [|pos'].
  { exists q. simpl. split_and!; try done. split; [done|lia]. }
  set (pos := S pos') in *. assert (0 < pos)%nat as H0 by lia. pose proof (par_lt pos H0) as Hpp.
  change (sift_up_fuel pos q pos) with
    (kp ← key q pos; kq ← key q (par pos);
     if negb (key_lt kp kq) then Some q else q' ← swap q pos (par pos); sift_up_fuel pos' q' (par pos)).
  rewrite (key_linked ex q pos), (key_linked ex q (par pos)) by (done || lia). simpl.
  destruct (key_lt (K q pos) (K q (par pos))) eqn:E; simpl.
  - apply key_lt_true in E as [E _].
    destruct (swap_spec ex q pos (par pos)) as (q1 & Hsw & Hl1 & Hs1 & _ & HK); [done..|lia|lia|].
    rewrite Hsw. simpl. pose proof Hs1 as (_ & Hlen1 & _).
    destruct (sift_up_spec ex pos' q1 (par pos)) as (q' & Hq' & Hl' & Hs' & Ho');
      [done|rewrite Hlen1; lia|unfold pos in *; lia| |].
    + rewrite Hlen1. apply (may_rise_ext _ (swapped (K q) pos (par pos))); [lia|done|].
      by apply may_rise_swap.
    + rewrite Hlen1 in Ho'. exists q'. split; [done|]. split; [done|]. split; [by eapply same_trans|].
      split; [by apply ordered_around|]. intros _. apply Ho'. lia.
  - apply key_lt_false in E. exists q. split_and!; try done.
Qed.

Lemma less_child_spec ex q least i :
  linked ex q → (least < len q)%nat →
  ∃ m, less_child q least i = Some m ∧ (m < len q)%nat ∧ (m = least ∨ m = i) ∧
    key_le (K q m) (K q least) ∧ ((i < len q)%nat → key_le (K q m) (K q i)).
Proof.
  intros Hl Hlt. unfold less_child. destruct (Nat.ltb_spec i (len q)) as [Hi|Hi].
  - rewrite (key_linked ex q i), (key_linked ex q least) by done. simpl.
    destruct (key_lt (K q i) (K q least)) eqn:E.
    + apply key_lt_true in E as [E _]. exists i. split_and!; auto using key_le_refl.
    + apply key_lt_false in E. exists least. split_and!; auto using key_le_refl.
  - exists least. split_and!; auto using key_le_refl. lia.
Qed.

Lemma sift_down_spec ex fuel q pos :
  linked ex q → (pos < len q)%nat → (len q ≤ pos + fuel)%nat → may_sink (len q) (K q) pos →
  ∃ q', sift_down_fuel fuel q pos = Some q' ∧ linked ex q' ∧ same q q' ∧ ordered (len q) (K q').
Proof.
  revert q pos. induction fuel as [|fuel IH]; intros q pos Hl Hp Hf Hk; [lia|].
  cbn [sift_down_fuel].
  destruct (less_child_spec ex q pos (2 * pos + 1) Hl Hp) as (l & -> & Hl1 & Hl2 & Hl3 & Hl4). simpl.
  destruct (less_child_spec ex q l (2 * pos + 2) Hl Hl1) as (m & Hm & Hm1 & Hm2 & Hm3 & Hm4).
  change (pos + (pos + 0) + 2)%nat with (2 * pos + 2)%nat. rewrite Hm. simpl.
  assert (∀ d, (0 < d < len q)%nat → par d = pos → key_le (K q m) (K q d)) as Hleast.
  { intros d Hd Hpd. apply par_child in Hpd as [->| ->]; [| |lia]; [|apply Hm4; lia].
    eapply key_le_trans; [exact Hm3|]. apply Hl4. lia. }
  assert (key_le (K q m) (K q pos)) as Hmp by (by eapply key_le_trans).
  destruct (Nat.eqb_spec m pos) as [->|Hne].
  - exists q. split_and!; try done. by eapply may_sink_stop.
  - assert (par m = pos) as Hpm by (apply par_child; lia).
    assert (pos < m)%nat by lia.
    destruct (swap_spec ex q pos m) as (q1 & -> & Hlk1 & Hs1 & _ & HK); [done..|]. simpl.
    pose proof Hs1 as (_ & Hlen1 & _).
    destruct (IH q1 m) as (q' & Hq' & Hl' & Hs' & Ho'); [done|by rewrite Hlen1|rewrite Hlen1; lia| |].
    + rewrite Hlen1. apply (may_sink_ext _ (swapped (K q) pos m)); [done..|].
      apply may_sink_swap; [done|lia|done..].
    + rewrite Hlen1 in Ho'. exists q'. split; [done|]. split; [done|]. split; [by eapply same_trans|done].
Qed.

Lemma linked_shrink q i :
  linked None q → (0 < len q)%nat → heap q !! (len q - 1)%nat = Some i →
  linked (Some i) {| slots := slots q; heap := heap q; len := len q - 1; next_serial := next_serial q |}.
Proof.
  intros Hl H0 Hi. pose proof Hl as [Hcap Hlen Hle Hh Hs]. split; simpl; try done; [lia|..].
  - intros p Hp. destruct (Hh p ltac:(lia)) as (j & a & E & _ & S1 & P1). exists j, a. split_and!; try done.
    intros [= ->]. assert (p = len q - 1)%nat; [|lia]. eapply heap_inj; [done|..|done|done]; lia.
  - intros j a Hj Hne. destruct (Hs j a Hj ltac:(done)) as [H1 H2]. split; [|done].
    destruct (decide (heap_pos a = (len q - 1)%nat)) as [E|]; [|lia]. rewrite E in H2. congruence.
Qed.

Lemma remove_at_spec q pos i :
  linked None q → ordered (len q) (K q) → (pos < len q)%nat → heap q !! pos = Some i →
  ∃ q', remove_at q pos = Some q' ∧ linked (Some i) q' ∧ ordered (len q') (K q') ∧
    timers q' = timers q ∧ len q = S (len q') ∧ next_serial q' = next_serial q.
Proof.
  intros Hl Ho Hp Hi. unfold remove_at.
  assert (usub (len q) 1 = Some (len q - 1)%nat) as -> by (apply usub_Some; lia). simpl.
  destruct (Nat.eqb_spec pos (len q - 1)) as [E|Hne].
  { simpl. assert (usub (len q) 1 = Some (len q - 1)%nat) as -> by (apply usub_Some; lia). simpl.
    destruct (Nat.ltb_spec pos (len q - 1)); [lia|]. eexists. split; [done|]. simpl.
    split_and!; try done; [apply linked_shrink; [done|lia|congruence]| |lia].
    intros p Hp'. apply Ho. lia. }
  destruct (swap_spec None q pos (len q - 1)) as (q1 & -> & Hl1 & (Ht1 & Hlen1 & Hn1) & Hh1 & HK1); [done..|lia|done|].
  cbn [mbind option_bind]. rewrite Hlen1.
  assert (usub (len q) 1 = Some (len q - 1)%nat) as -> by (apply usub_Some; lia). cbn [mbind option_bind].
  destruct (Nat.ltb_spec pos (len q - 1)); [|lia].
  set (q2 := {| slots := slots q1 |}).
  assert (linked (Some i) q2) as Hl2.
  { unfold q2. rewrite <-Hlen1. apply linked_shrink; [done|lia|]. rewrite Hh1, Hlen1, Hi. simpl.
    apply list_lookup_insert_eq. rewrite length_insert.
    rewrite (linked_length _ _ Hl). pose proof (linked_len _ _ Hl). lia. }
  assert (∀ p, (p < len q2)%nat → K q2 p = if decide (p = pos) then K q (len q - 1)%nat else K q p) as HK2.
  { intros p Hp2. change (K q2 p) with (K q1 p). unfold q2 in Hp2. simpl in Hp2. rewrite HK1 by lia.
    unfold swapped. repeat case_decide; try done; lia. }
  destruct (sift_up_around (Some i) q2 pos Hl2) as (q3 & -> & Hl3 & Hs3 & Hk3); [done| |].
  { pose proof (ordered_around _ (K q) pos Hp Ho) as [Ha1 Ha2].
    apply (around_ext _ (λ p, if decide (p = pos) then K q (len q - 1)%nat else K q p)); [done..|].
    assert (len q2 ≤ len q)%nat by (simpl; lia). split.
    - intros p Hp1 Hpp Hpar. repeat case_decide; try done. apply Ha1; [lia|done..].
    - intros c Hc Hpc Hpos. pose proof (par_lt pos Hpos). pose proof (par_lt c ltac:(lia)).
      repeat case_decide; try lia. apply Ha2; [lia|done..]. }
  cbn [mbind option_bind]. pose proof Hs3 as (Ht3 & Hlen3 & Hn3).
  destruct (sift_down_spec (Some i) (S (len q3)) q3 pos Hl3) as (q4 & Hq4 & Hl4 & (Ht4 & Hlen4 & Hn4) & Ho4).
  { rewrite Hlen3. done. } { lia. } { by rewrite Hlen3. }
  exists q4. unfold sift_down. rewrite Hlen3 in *. split; [done|]. split_and!; [done|..].
  - rewrite Hlen4. done.
  - unfold q2 in *. simpl in *. rewrite Ht4, Ht3. done.
  - rewrite Hlen4. simpl. lia.
  - rewrite Hn4, Hn3. done.
Qed.

(** The slot that left the heap is cleared. *)
Lemma clear_slot q i :
  linked (Some i) q → ordered (len q) (K q) →
  let q' := set_slots q (<[i:=None]> (slots q)) in
  linked None q' ∧ ordered (len q') (K q') ∧ timers q' = <[i:=None]> (timers q).
Proof.
  intros Hl Ho q'. pose proof Hl as [Hcap Hlen Hle Hh Hs].
  assert (∀ j, Some j ≠ Some i → slots q' !! j = slots q !! j) as Hsl.
  { intros j Hj. simpl. rewrite list_lookup_insert_ne; congruence. }
  split_and!.
  - split; simpl; rewrite ?length_insert; try done.
    + intros p Hp. destruct (Hh p Hp) as (j & a & E & Hj & S1 & P1). exists j, a. split_and!; try done.
      by rewrite <-Hsl in S1.
    + intros j a Hj _. assert (j ≠ i) as Hne.
      { intros ->. apply list_lookup_insert_Some in Hj as [(_ & ? & _)|[? _]]; done. }
      rewrite list_lookup_insert_ne in Hj by done. apply (Hs j a); [done|congruence].
  - apply (ordered_ext _ (K q)); [|done]. intros p Hp.
    destruct (Hh p Hp) as (j & a & E & Hj & S1 & P1). rewrite (K_eq q p j a) by done.
    apply (K_eq _ p j a); [done|]. by rewrite Hsl.
  - unfold timers. simpl. by rewrite list_fmap_insert.
Qed.

(** ** The queue as a set of timers *)

(** What holds of the timers themselves: serials were issued once each, and times are [u64]s. *)
Record fair (tm : list (option Armed)) (ns : Z) : Prop := {
  fair_next : in_u 64 ns;
  fair_serial : ∀ i a, tm !! i = Some (Some a) → 0 ≤ serial a < ns;
  fair_unique : ∀ i j a b, tm !! i = Some (Some a) → tm !! j = Some (Some b) → serial a = serial b → i = j;
  fair_deadline : ∀ i a, tm !! i = Some (Some a) → in_u 64 (deadline a);
  fair_period : ∀ i a p, tm !! i = Some (Some a) → period a = Some p → 0 < p ≤ u64_MAX;
}.

Record wf (q : t) : Prop := {
  wf_linked : linked None q;
  wf_ordered : ordered (len q) (K q);
  wf_fair : fair (timers q) (next_serial q);
}.

Lemma timers_lookup q i a :
  timers q !! i = Some (Some a) ↔ ∃ x, slots q !! i = Some (Some x) ∧ a = strip x.
Proof.
  unfold timers. rewrite list_lookup_fmap. destruct (slots q !! i) as [[x|]|]; simpl.
  - split; [intros [= <-]; eauto|]. intros (y & [= <-] & ->). done.
  - split; [done|]. by intros (y & ? & _).
  - split; [done|]. by intros (y & ? & _).
Qed.

Lemma timers_empty q i : timers q !! i = Some None ↔ slots q !! i = Some None.
Proof. unfold timers. rewrite list_lookup_fmap. by destruct (slots q !! i) as [[x|]|]. Qed.

Lemma length_timers q : length (timers q) = capacity q.
Proof. apply length_fmap. Qed.

Lemma fair_remove tm ns i : fair tm ns → fair (<[i:=None]> tm) ns.
Proof.
  intros [H1 H2 H3 H4 H5].
  assert (∀ j a, <[i:=None]> tm !! j = Some (Some a) → tm !! j = Some (Some a)) as Hsub.
  { intros j a [(_ & ? & _)|[_ ?]]%list_lookup_insert_Some; done. }
  split; eauto.
Qed.

Lemma fair_update tm ns i a b :
  fair tm ns → tm !! i = Some (Some a) → serial b = serial a → period b = period a → in_u 64 (deadline b) →
  fair (<[i:=Some b]> tm) ns.
Proof.
  intros [H1 H2 H3 H4 H5] Hi Es Ep Hd.
  assert (∀ j x, <[i:=Some b]> tm !! j = Some (Some x) →
    ∃ y, tm !! j = Some (Some y) ∧ serial x = serial y ∧ period x = period y ∧ in_u 64 (deadline x)) as Hsub.
  { intros j x [(<- & [= <-] & _)|[_ ?]]%list_lookup_insert_Some; [by exists a|]. exists x. eauto. }
  split; [done|..].
  - intros j x (y & Hy & -> & _)%Hsub. eauto.
  - intros j k x z (y & Hy & E1 & _)%Hsub (w & Hw & E2 & _)%Hsub E. apply (H3 j k y w); congruence.
  - intros j x (y & _ & _ & _ & ?)%Hsub. done.
  - intros j x p (y & Hy & _ & E & _)%Hsub Hp. rewrite E in Hp. eauto.
Qed.

Lemma fair_add tm ns i a :
  fair tm ns → ns + 1 ≤ u64_MAX → serial a = ns → in_u 64 (deadline a) →
  (∀ p, period a = Some p → 0 < p ≤ u64_MAX) → fair (<[i:=Some a]> tm) (ns + 1).
Proof.
  intros [H1 H2 H3 H4 H5] Hns Es Hd Hp. unfold in_u in *.
  assert (∀ j x, <[i:=Some a]> tm !! j = Some (Some x) →
    (j = i ∧ x = a) ∨ tm !! j = Some (Some x)) as Hsub.
  { intros j x [(<- & [= <-] & _)|[_ ?]]%list_lookup_insert_Some; auto. }
  split.
  - unfold in_u. lia.
  - intros j x [[-> ->]|Hx]%Hsub; [lia|]. pose proof (H2 _ _ Hx). lia.
  - intros j k x y [[-> ->]|Hx]%Hsub [[-> ->]|Hy]%Hsub E; [done|..].
    + pose proof (H2 _ _ Hy). lia.
    + pose proof (H2 _ _ Hx). lia.
    + eauto.
  - intros j x [[-> ->]|Hx]%Hsub; [done|]. exact (H4 _ _ Hx).
  - intros j x p [[-> ->]|Hx]%Hsub; eauto.
Qed.

Lemma timer_wf_new N q : new N = Some q → wf q ∧ timers q = replicate N None ∧ next_serial q = 0.
Proof.
  unfold new. destruct (Z.leb_spec (Z.of_nat N) u32_MAX); [|done]. intros [= <-].
  assert (timers {| slots := replicate N None; heap := replicate N 0%nat; len := 0; next_serial := 0 |} =
    replicate N None) as E by (unfold timers; simpl; by rewrite fmap_replicate).
  split_and!; [|done..]. split.
  - split; simpl; rewrite ?length_replicate; try done; try lia.
    intros i a [? _]%lookup_replicate. done.
  - intros p Hp. simpl in Hp. lia.
  - rewrite E. split; try (by intros i a [? _]%lookup_replicate).
    + by split; vm_compute.
    + by intros i j a b [? _]%lookup_replicate.
    + by intros i a p [? _]%lookup_replicate.
Qed.

Lemma free_len q i : linked None q → slots q !! i = Some None → (len q < length (slots q))%nat.
Proof.
  intros Hl Hi. pose proof Hl as [Hcap Hlen Hle Hh Hs].
  assert (length (i :: take (len q) (heap q)) ≤ length (slots q))%nat as H.
  { apply NoDup_bounded_length.
    - apply NoDup_cons. split.
      + intros [p Hp]%list_elem_of_lookup. apply lookup_take_Some in Hp as [Hp Hlt].
        destruct (Hh p Hlt) as (j & a & E & _ & S1 & _). congruence.
      + apply NoDup_alt. intros p p' j Hp Hp'. apply lookup_take_Some in Hp as [Hp Hlt].
        apply lookup_take_Some in Hp' as [Hp' Hlt']. by eapply heap_inj.
    - intros j [->|[p Hp]%list_elem_of_lookup]%elem_of_cons; [by eapply lookup_lt_Some|].
      apply lookup_take_Some in Hp as [Hp Hlt].
      destruct (Hh p Hlt) as (j' & a & E & _ & S1 & _). simplify_eq. by eapply lookup_lt_Some. }
  simpl in H. rewrite length_take in H. lia.
Qed.

Lemma insert_spec q d p x :
  wf q → in_u 64 d → (∀ k, p = Some k → 0 < k ≤ u64_MAX) →
  ∃ q' r, insert q d p x = Some (q', r) ∧ wf q' ∧
  match r with
  | Err Exhausted => q' = q ∧ next_serial q = u64_MAX
  | Err Full => q' = q ∧ ∀ i, timers q !! i ≠ Some None
  | Err _ => False
  | Ok id => timers q !! tid_index id = Some None ∧ tid_serial id = next_serial q ∧
      next_serial q' = next_serial q + 1 ∧
      timers q' = <[tid_index id := Some {| deadline := d; period := p; serial := tid_serial id;
                                             payload := x; heap_pos := 0 |}]> (timers q)
  end.
Proof.
  intros Hq Hd Hp. pose proof Hq as [Hl Ho Hf]. unfold insert.
  destruct (Z.eqb_spec (next_serial q) u64_MAX) as [E|Hns].
  { exists q, (Err Exhausted). done. }
  destruct (position _ (slots q)) as [i|] eqn:Hpos.
  2:{ exists q, (Err Full). split_and!; [done..|]. intros i Hi%timers_empty.
      rewrite position_None in Hpos. by specialize (Hpos _ _ Hi). }
  destruct (position_lookup _ _ _ Hpos) as ([|] & Hi & Hn); [done|]. clear Hn Hpos.
  pose proof (free_len q i Hl Hi) as Hlt. pose proof Hl as [Hcap Hlen Hle Hh Hs].
  pose proof (lookup_lt_Some _ _ _ Hi) as Hilt. unfold u_max in Hcap.
  assert (heap q !! len q = Some (default 0%nat (heap q !! len q))) as Hhl.
  { destruct (lookup_lt_is_Some_2 (heap q) (len q)) as [y Hy]; [lia|]. by rewrite Hy. }
  rewrite (set_at_Some _ _ _ _ Hi), (set_at_Some _ _ _ _ Hhl), !as_u32_id by lia.
  cbn [mbind option_bind]. set (a := {| deadline := d |}). set (q1 := {| slots := _ |}).
  assert (∀ pos, (pos < len q)%nat → K q1 pos = K q pos) as HK.
  { intros pos Hpos. destruct (Hh pos Hpos) as (j & b & E & _ & S1 & _). rewrite (K_eq q pos j b) by done.
    apply (K_eq _ pos j b); simpl; rewrite list_lookup_insert_ne; try done; [lia|congruence]. }
  assert (linked None q1) as Hl1.
  { split; simpl; rewrite ?length_insert; try done; [lia|..].
    - intros pos Hpos. destruct (decide (pos = len q)) as [->|Hne].
      + exists i, a. split_and!; try done; by apply list_lookup_insert_eq; rewrite ?Hlen.
      + destruct (Hh pos ltac:(lia)) as (j & b & E & _ & S1 & P1). exists j, b.
        split_and!; try done; rewrite list_lookup_insert_ne; try done; congruence.
    - intros j b Hj _. apply list_lookup_insert_Some in Hj as [(<- & [= <-] & _)|[Hne Hj]].
      + simpl. split; [lia|]. apply list_lookup_insert_eq. lia.
      + destruct (Hs j b Hj ltac:(done)) as [H1 H2]. split; [lia|].
        rewrite list_lookup_insert_ne by lia. done. }
  destruct (sift_up_spec None (len q) q1 (len q)) as (q' & Hq' & Hl' & (Ht & Hlen' & Hns') & Ho'); [done|simpl; lia|lia| |].
  { simpl. split; [split|].
    - intros pos Hpos Hne1 Hne2. pose proof (par_lt pos ltac:(lia)). rewrite !HK by lia. apply Ho. lia.
    - intros c Hc Hpc. apply par_child in Hpc; lia.
    - intros c Hc Hpc. apply par_child in Hpc; lia. }
  unfold sift_up. rewrite Hq'. cbn [mbind option_bind].
  assert (timers q1 = <[i := Some (strip a)]> (timers q)) as Ht1.
  { unfold timers, q1. simpl. by rewrite list_fmap_insert. }
  eexists _, _. split; [done|]. split.
  - split; [done|by rewrite Hlen'|]. rewrite Ht, Ht1, Hns'. simpl. destruct (fair_next _ _ Hf).
    by apply fair_add; [|unfold u_max in *; lia|..].
  - simpl. rewrite Ht, Ht1. split_and!; try done. by apply timers_empty.
Qed.

(** The entry at [pos] leaves the heap and its slot [i] is cleared. *)
Lemma take_out q pos i :
  wf q → (pos < len q)%nat → heap q !! pos = Some i →
  ∃ q1 sl, remove_at q pos = Some q1 ∧ set_at (slots q1) i None = Some sl ∧ wf (set_slots q1 sl) ∧
    timers (set_slots q1 sl) = <[i:=None]> (timers q) ∧ next_serial (set_slots q1 sl) = next_serial q.
Proof.
  intros [Hl Ho Hf] Hp Hi.
  destruct (remove_at_spec q pos i Hl Ho Hp Hi) as (q1 & Hr & Hl1 & Ho1 & Ht1 & Hlen1 & Hn1).
  assert (length (slots q1) = length (slots q)) as Hlen.
  { pose proof (length_timers q1) as E1. pose proof (length_timers q) as E2. unfold capacity in *. congruence. }
  destruct (linked_heap _ _ Hl pos Hp) as (j & a & E & _ & S1 & _). rewrite Hi in E. simplify_eq.
  destruct (lookup_lt_is_Some_2 (slots q1) j) as [y Hy].
  { rewrite Hlen. by eapply lookup_lt_Some. }
  exists q1, (<[j:=None]> (slots q1)). rewrite (set_at_Some _ _ _ _ Hy).
  destruct (clear_slot q1 j Hl1 Ho1) as (Hl2 & Ho2 & Ht2).
  split_and!; [done..| |by rewrite Ht2, Ht1|done].
  split; [done..|]. rewrite Ht2, Ht1. simpl. rewrite Hn1. by apply fair_remove.
Qed.

(** [id] names the armed timer [a]. *)
Definition armed_as (q : t) (id : TimerId) (a : Armed) : Prop :=
  timers q !! tid_index id = Some (Some a) ∧ serial a = tid_serial id.

Lemma lookup_spec q id :
  match lookup q id with
  | Ok x => slots q !! tid_index id = Some (Some x) ∧ armed_as q id (strip x)
  | Err e => e = Stale ∧ ∀ a, ¬ armed_as q id a
  end.
Proof.
  unfold lookup, armed_as. destruct (slots q !! tid_index id) as [[x|]|] eqn:E.
  - destruct (Z.eqb_spec (serial x) (tid_serial id)) as [Es|Es].
    + split_and!; try done. apply timers_lookup. eauto.
    + split; [done|]. intros a [(y & Hy & ->)%timers_lookup Hs]. rewrite E in Hy. by simplify_eq/=.
  - split; [done|]. intros a [(y & Hy & ->)%timers_lookup Hs]. congruence.
  - split; [done|]. intros a [(y & Hy & ->)%timers_lookup Hs]. congruence.
Qed.

Lemma cancel_spec q id :
  wf q →
  ∃ q' r, cancel q id = Some (q', r) ∧ wf q' ∧ next_serial q' = next_serial q ∧
  match r with
  | Ok x => (∃ a, armed_as q id a ∧ payload a = x) ∧ timers q' = <[tid_index id := None]> (timers q)
  | Err e => e = Stale ∧ q' = q ∧ ∀ a, ¬ armed_as q id a
  end.
Proof.
  intros Hq. pose proof Hq as [Hl Ho Hf]. unfold cancel. pose proof (lookup_spec q id) as Hk.
  destruct (lookup q id) as [x|e].
  2:{ destruct Hk as [-> Hk]. by exists q, (Err Stale). }
  destruct Hk as [Hx Ha]. destruct (linked_slot _ _ Hl _ _ Hx ltac:(done)) as [Hp Hh].
  destruct (take_out q (heap_pos x) (tid_index id) Hq Hp Hh) as (q1 & sl & -> & Hsl & Hw & Ht & Hn). simpl.
  rewrite Hsl. simpl. eexists _, _. split; [done|]. split_and!; [done..| |done]. exists (strip x). done.
Qed.

(** The deadline of a periodic timer after [d], serviced at [now]. *)
Lemma next_period_spec d p now :
  0 ≤ d ≤ now → now ≤ u64_MAX → 0 < p ≤ u64_MAX →
  let m := (now - d) / p in
  next_period d p now = (checked_add 64 d ((m + 1) * p), m) ∧ now < d + (m + 1) * p ≤ now + p.
Proof.
  intros Hd Hn Hp m.
  pose proof (Z.div_mod (now - d) p ltac:(lia)) as E. pose proof (Z.mod_pos_bound (now - d) p ltac:(lia)) as Hm.
  fold m in E. assert (0 ≤ m) by (apply Z.div_pos; lia).
  split; [|nia]. unfold next_period, Instant.checked_add, Duration.checked_mul.
  destruct (checked_add 64 d p) as [n|] eqn:En.
  - apply checked_add_Some in En as [-> Hle]. destruct (Z.ltb_spec now (d + p)) as [Hlt|Hge].
    + assert (m = 0) as -> by nia. rewrite Z.mul_1_l. f_equal. symmetry. by apply checked_add_Some.
    + assert (Instant.saturating_duration_since now d = now - d) as ->
        by (unfold Instant.saturating_duration_since, saturating_sub; lia). fold m.
      f_equal. destruct (checked_add 64 m 1) as [k|] eqn:Ek; simpl.
      * apply checked_add_Some in Ek as [-> _]. rewrite Z.mul_comm.
        destruct (checked_mul 64 p (m + 1)) as [s|] eqn:Es; simpl.
        -- apply checked_mul_Some in Es as [-> _]. f_equal.
        -- symmetry. apply checked_add_None. unfold checked_mul in Es.
           destruct (Z.leb_spec (p * (m + 1)) u64_MAX); [done|]. lia.
      * symmetry. apply checked_add_None. apply checked_add_None in Ek. nia.
  - apply checked_add_None in En. assert (m = 0) as -> by (apply Z.div_small; lia).
    rewrite Z.mul_1_l. f_equal. symmetry. by apply checked_add_None.
Qed.

Definition is_due (now : Instant.t) (o : option Armed) : bool :=
  match o with Some a => deadline a <=? now | None => false end.

(** The timer expired at [i], and what the queue holds after it. *)
Definition fired (tm : list (option Armed)) (i : nat) (a : Armed) (now : Instant.t)
    (missed : Z) (next : option Instant.t) : list (option Armed) → Prop := λ tm',
  match period a with
  | None => missed = 0 ∧ next = None ∧ tm' = <[i:=None]> tm
  | Some p =>
      missed = (now - deadline a) / p ∧
      next = checked_add 64 (deadline a) ((missed + 1) * p) ∧
      now < deadline a + (missed + 1) * p ≤ now + p ∧
      tm' = <[i := (λ n, set_deadline a n) <$> next]> tm
  end.

Lemma pop_expired_spec q now :
  wf q → in_u 64 now →
  ∃ q' o, pop_expired q now = Some (q', o) ∧ wf q' ∧ next_serial q' = next_serial q ∧
  match o with
  | None => q' = q ∧ ∀ i a, timers q !! i = Some (Some a) → now < deadline a
  | Some e => ∃ a, armed_as q (e_id e) a ∧ e_payload e = payload a ∧ e_deadline e = deadline a ∧
      deadline a ≤ now ∧
      (∀ j b, timers q !! j = Some (Some b) → key_le (deadline a, serial a) (deadline b, serial b)) ∧
      fired (timers q) (tid_index (e_id e)) a now (e_missed e) (e_next e) (timers q')
  end.
Proof.
  intros Hq Hnow. pose proof Hq as [Hl Ho Hf]. unfold pop_expired.
  destruct (Nat.eqb_spec (len q) 0) as [H0|H0].
  { exists q, None. split_and!; try done. intros i a (x & Hx & _)%timers_lookup.
    destruct (linked_slot _ _ Hl _ _ Hx ltac:(done)). lia. }
  destruct (linked_heap _ _ Hl 0%nat ltac:(lia)) as (i & x & Eh & _ & Sx & Px).
  assert (∀ j b, timers q !! j = Some (Some b) → key_le (deadline x, serial x) (deadline b, serial b)) as Hleast.
  { intros j b (y & Hy & ->)%timers_lookup. destruct (linked_slot _ _ Hl _ _ Hy ltac:(done)) as [Hp Hh].
    pose proof (ordered_root _ _ _ Ho Hp) as Hle. by rewrite (K_eq q 0 i x), (K_eq q _ j y) in Hle by done. }
  rewrite (at_eq q 0 i x) by done. simpl.
  assert (timers q !! i = Some (Some (strip x))) as Htx by (apply timers_lookup; eauto).
  destruct (Z.ltb_spec now (deadline x)) as [Hlt|Hdue].
  { exists q, None. split_and!; try done. intros j b Hb. pose proof (Hleast j b Hb) as Hle.
    unfold key_le in Hle. simpl in Hle. lia. }
  rewrite Eh. simpl. rewrite Sx. simpl.
  destruct (take_out q 0 i Hq ltac:(lia) Eh) as (q1 & sl & Hr & Hsl & Hw & Ht & Hn).
  pose proof (fair_deadline _ _ Hf _ _ Htx) as Hdx. simpl in Hdx.
  destruct (period x) as [p|] eqn:Hper.
  2:{ rewrite Hr. simpl. rewrite Hsl. simpl. eexists _, _. split; [done|]. split_and!; [done..|].
      exists (strip x). split_and!; try done. unfold fired. simpl. by rewrite Hper. }
  destruct (next_period_spec (deadline x) p now) as [Enp Hb]; [destruct Hdx; lia|apply Hnow| |].
  { by apply (fair_period _ _ Hf i (strip x)). }
  rewrite Enp. set (m := (now - deadline x) / p) in *.
  destruct (checked_add 64 (deadline x) ((m + 1) * p)) as [n|] eqn:En.
  2:{ rewrite Hr. simpl. rewrite Hsl. simpl. eexists _, _. split; [done|]. split_and!; [done..|].
      exists (strip x). split_and!; try done. unfold fired. simpl. rewrite Hper. fold m.
      split_and!; [done|symmetry; exact En|lia|lia|done]. }
  rewrite (set_at_Some _ _ _ _ Sx). cbn [mbind option_bind].
  apply checked_add_Some in En as [-> En].
  set (q2 := set_slots q _).
  assert (linked None q2) as Hl2.
  { pose proof Hl as [Hcap Hlen Hle Hh Hs]. split; simpl; rewrite ?length_insert; try done.
    - intros pos Hpos. destruct (Hh pos Hpos) as (j & b & E & _ & S1 & P1).
      destruct (decide (j = i)) as [->|Hne].
      + simplify_eq. exists i. eexists. split_and!; [done..| |]; [by apply list_lookup_insert_eq; eapply lookup_lt_Some|done].
      + exists j, b. split_and!; try done. by rewrite list_lookup_insert_ne.
    - intros j b Hj _. apply list_lookup_insert_Some in Hj as [(<- & [= <-] & _)|[Hne Hj]]; simpl; by apply Hs. }
  assert (∀ pos, (pos < len q)%nat → pos ≠ 0%nat → K q2 pos = K q pos) as HK.
  { intros pos Hpos Hne. destruct (linked_heap _ _ Hl pos Hpos) as (j & b & E & _ & S1 & P1).
    rewrite (K_eq q pos j b) by done. apply (K_eq _ pos j b); [done|]. simpl. rewrite list_lookup_insert_ne; [done|].
    intros ->. apply Hne. apply (heap_inj None q pos 0 j Hl); [lia|lia|done|done]. }
  destruct (sift_down_spec None (S (len q2)) q2 0 Hl2) as (q3 & Hq3 & Hl3 & (Ht3 & Hlen3 & Hn3) & Ho3);
    [simpl; lia|lia| |].
  { split; [split|lia].
    - intros c Hc Hc0 Hpc. simpl in Hc. pose proof (par_lt c ltac:(lia)). rewrite !HK by lia. apply Ho. lia.
    - intros c Hc Hpc Hlt. lia. }
  unfold sift_down. rewrite Hq3. cbn [mbind option_bind]. eexists _, _. split; [done|].
  assert (timers q3 = <[i := Some (set_deadline (strip x) (deadline x + (m + 1) * p))]> (timers q)) as Et.
  { rewrite Ht3. unfold timers, q2. simpl. by rewrite list_fmap_insert. }
  split; [split; [done|by rewrite Hlen3|]|split; [done|]].
  - rewrite Et, Hn3. simpl. eapply fair_update; try done. simpl. destruct Hdx, Hnow. split; lia.
  - exists (strip x). split_and!; try done. unfold fired. simpl. rewrite Hper. fold m.
    assert (checked_add 64 (deadline x) ((m + 1) * p) = Some (deadline x + (m + 1) * p)) as E1 by (by apply checked_add_Some).
    split_and!; [done|by rewrite E1|lia|lia|done].
Qed.

(** ** Servicing every timer that is due *)

(** The loop [pop_expired] is called in, until it returns [None]. *)
Fixpoint expire (fuel : nat) (q : t) (now : Instant.t) : option (t * list Expired) :=
  match fuel with
  | O => None
  | S fuel =>
      '(q', o) ← pop_expired q now;
      match o with
      | None => Some (q', [])
      | Some e => '(q'', es) ← expire fuel q' now; Some (q'', e :: es)
      end
  end.

(** After a timer fires, the timers still due are those that were, without it. *)
Lemma fired_due tm i a now m n tm' j b :
  fired tm i a now m n tm' → tm' !! j = Some (Some b) → deadline b ≤ now →
  j ≠ i ∧ tm !! j = Some (Some b).
Proof.
  unfold fired. intros Hf Hj Hd. destruct (period a) as [p|].
  - destruct Hf as (-> & -> & Hb & ->). apply list_lookup_insert_Some in Hj as [(<- & E & _)|[? ?]]; [|done].
    destruct (checked_add _ _ _) as [k|] eqn:Ek; simplify_eq/=.
    apply checked_add_Some in Ek as [-> _]. lia.
  - destruct Hf as (_ & _ & ->). by apply list_lookup_insert_Some in Hj as [(<- & E & _)|[? ?]].
Qed.

Lemma fired_count tm i a now m n tm' :
  fired tm i a now m n tm' → tm !! i = Some (Some a) → deadline a ≤ now →
  count_if (is_due now) tm = S (count_if (is_due now) tm').
Proof.
  intros Hf Hi Hd. unfold fired in Hf.
  assert (∃ o, tm' = <[i:=o]> tm ∧ is_due now o = false) as (o & -> & Ho).
  { destruct (period a) as [p|].
    - destruct Hf as (-> & -> & Hb & ->). eexists. split; [done|].
      destruct (checked_add _ _ _) as [k|] eqn:Ek; [|done]. apply checked_add_Some in Ek as [-> _].
      simpl. apply Z.leb_gt. lia.
    - destruct Hf as (_ & _ & ->). by exists None. }
  pose proof (count_if_insert (is_due now) _ _ _ o Hi) as Hc. rewrite Ho in Hc. simpl in Hc.
  rewrite (proj2 (Z.leb_le (deadline a) now) Hd) in Hc. lia.
Qed.

(** [e] reports a timer that is armed in [tm] and due. *)
Definition reports (tm : list (option Armed)) (now : Instant.t) (e : Expired) : Prop :=
  ∃ a, tm !! tid_index (e_id e) = Some (Some a) ∧ serial a = tid_serial (e_id e) ∧
       e_payload e = payload a ∧ e_deadline e = deadline a ∧ deadline a ≤ now.

Definition e_key (e : Expired) : Z * Z := (e_deadline e, tid_serial (e_id e)).

Lemma expire_spec fuel q now :
  wf q → in_u 64 now → (count_if (is_due now) (timers q) < fuel)%nat →
  ∃ q' es, expire fuel q now = Some (q', es) ∧ wf q' ∧
    (∀ i a, timers q' !! i = Some (Some a) → now < deadline a) ∧
    length es = count_if (is_due now) (timers q) ∧
    Forall (reports (timers q) now) es ∧ NoDup ((λ e, tid_index (e_id e)) <$> es) ∧
    StronglySorted key_le (e_key <$> es).
Proof.
  revert q. induction fuel as [|fuel IH]; intros q Hq Hn Hf; [lia|]. cbn [expire].
  destruct (pop_expired_spec q now Hq Hn) as (q1 & o & -> & Hq1 & _ & Ho). cbn [mbind option_bind].
  destruct o as [e|].
  2:{ destruct Ho as [-> Ho]. exists q, []. split_and!; try done; try constructor.
      destruct (count_if (is_due now) (timers q)) eqn:E; [done|].
      destruct (proj1 (count_if_pos (is_due now) (timers q))) as (i & [a|] & Hi & Hd); [lia| |done].
      apply Z.leb_le in Hd. pose proof (Ho i a Hi). lia. }
  destruct Ho as (a & [Ha Hs] & Hpay & Hdl & Hd & Hleast & Hfired).
  pose proof (fired_count _ _ _ _ _ _ _ Hfired Ha Hd) as Hc.
  destruct (IH q1 Hq1 Hn ltac:(lia)) as (q2 & es & -> & Hq2 & Hnone & Hlen & Hrep & Hnd & Hso).
  cbn [mbind option_bind]. exists q2, (e :: es).
  assert (Forall (λ x, reports (timers q) now x ∧ tid_index (e_id x) ≠ tid_index (e_id e) ∧
    key_le (e_key e) (e_key x)) es) as Hall.
  { eapply Forall_impl; [exact Hrep|]. intros x (b & Hb & Hsb & Hpb & Hdb & Hdue).
    destruct (fired_due _ _ _ _ _ _ _ _ _ Hfired Hb Hdue) as [Hne Hold]. split_and!; [by exists b|done|].
    unfold e_key. rewrite Hdl, Hdb, <-Hs, <-Hsb. by apply (Hleast (tid_index (e_id x))). }
  rewrite Forall_forall in Hall. split_and!; try done.
  - simpl. lia.
  - constructor; [by exists a|]. apply Forall_forall. intros x Hx. by apply Hall.
  - rewrite fmap_cons. apply NoDup_cons. split; [|done].
    intros (x & Hx & Hin)%list_elem_of_fmap. destruct (Hall x Hin) as (_ & Hne & _). congruence.
  - rewrite fmap_cons. constructor; [done|]. apply Forall_forall.
    intros k (x & -> & Hin)%list_elem_of_fmap. by apply Hall.
Qed.

(** The earliest deadline, and how long the CPU may idle. *)
Lemma next_deadline_spec q :
  wf q →
  ∃ o, next_deadline q = Some o ∧
  match o with
  | None => ∀ i a, timers q !! i ≠ Some (Some a)
  | Some d => (∃ i a, timers q !! i = Some (Some a) ∧ deadline a = d) ∧
              ∀ i a, timers q !! i = Some (Some a) → d ≤ deadline a
  end.
Proof.
  intros [Hl Ho Hf]. unfold next_deadline. destruct (Nat.ltb_spec 0 (len q)) as [H0|H0].
  - destruct (linked_heap _ _ Hl 0%nat H0) as (i & x & Eh & _ & Sx & _).
    rewrite (at_eq q 0 i x) by done. simpl. exists (Some (deadline x)). split; [done|]. split.
    + exists i, (strip x). split; [|done]. apply timers_lookup. eauto.
    + intros j b (y & Hy & ->)%timers_lookup. destruct (linked_slot _ _ Hl _ _ Hy ltac:(done)) as [Hp Hh].
      pose proof (ordered_root _ _ _ Ho Hp) as Hle. rewrite (K_eq q 0 i x), (K_eq q _ j y) in Hle by done.
      unfold key_le in Hle. simpl in *. lia.
  - exists None. split; [done|]. intros i a (x & Hx & _)%timers_lookup.
    destruct (linked_slot _ _ Hl _ _ Hx ltac:(done)). lia.
Qed.

(** One operation on the queue. *)
Inductive step : t → t → Prop :=
| step_arm q d x q' r : in_u 64 d → arm_oneshot q d x = Some (q', r) → step q q'
| step_arm_periodic q d p x q' r :
    in_u 64 d → in_u 64 p → arm_periodic q d p x = Some (q', r) → step q q'
| step_cancel q id q' r : cancel q id = Some (q', r) → step q q'
| step_pop q now q' o : in_u 64 now → pop_expired q now = Some (q', o) → step q q'.

(** [id] was issued, and names nothing any more. *)
Definition stale (q : t) (id : TimerId) : Prop :=
  tid_serial id < next_serial q ∧ ∀ a, ¬ armed_as q id a.

Lemma insert_stale q d p x q' r id :
  wf q → in_u 64 d → (∀ k, p = Some k → 0 < k ≤ u64_MAX) → insert q d p x = Some (q', r) →
  stale q id → wf q' ∧ stale q' id.
Proof.
  intros Hq Hd Hp E [Hs Ha]. destruct (insert_spec q d p x Hq Hd Hp) as (q1 & r1 & E1 & Hw & Hr).
  rewrite E in E1. simplify_eq. split; [done|]. destruct r1 as [i|[]]; [|by destruct Hr as [-> _]|done|done|by destruct Hr as [-> _]].
  destruct Hr as (Hfree & Hser & Hns & Ht). split; [lia|]. intros a [Hin Hsa]. rewrite Ht in Hin.
  apply list_lookup_insert_Some in Hin as [(Ei & [= <-] & _)|[_ Hin]]; [simpl in Hsa; lia|].
  by apply (Ha a).
Qed.

Lemma stale_step q q' id : wf q → stale q id → step q q' → wf q' ∧ stale q' id.
Proof.
  intros Hq Hst Hstep. destruct Hstep as [q d x q' r Hd E|q d p x q' r Hd Hp E|q i q' r E|q now q' o Hn E].
  - by eapply (insert_stale q d None).
  - unfold arm_periodic in E. destruct (Duration.is_zero p) eqn:Hz; [by simplify_eq|].
    apply Z.eqb_neq in Hz. eapply (insert_stale q d (Some p)); try done. intros k [= <-].
    destruct Hp. lia.
  - destruct (cancel_spec q i Hq) as (q1 & r1 & E1 & Hw & Hns & Hr). rewrite E in E1. simplify_eq.
    split; [done|]. destruct Hst as [Hs Ha]. destruct r1 as [y|e]; [|by destruct Hr as (_ & -> & _)].
    destruct Hr as [_ Ht]. split; [lia|]. intros a [Hin Hsa]. rewrite Ht in Hin.
    apply list_lookup_insert_Some in Hin as [(_ & ? & _)|[_ Hin]]; [done|]. by apply (Ha a).
  - destruct (pop_expired_spec q now Hq Hn) as (q1 & o1 & E1 & Hw & Hns & Ho). rewrite E in E1. simplify_eq.
    split; [done|]. destruct Hst as [Hs Ha]. destruct o1 as [e|]; [|by destruct Ho as [-> _]].
    destruct Ho as (a & [Hin Hsa] & _ & _ & _ & _ & Hf). split; [lia|]. intros b [Hb Hsb].
    unfold fired in Hf. destruct (period a) as [p|].
    + destruct Hf as (_ & _ & _ & Ht). rewrite Ht in Hb.
      apply list_lookup_insert_Some in Hb as [(Ei & En & _)|[_ Hb]]; [|by apply (Ha b)].
      destruct (e_next e); simplify_eq/=. apply (Ha a). rewrite Ei in Hin. done.
    + destruct Hf as (_ & _ & Ht). rewrite Ht in Hb.
      apply list_lookup_insert_Some in Hb as [(_ & ? & _)|[_ Hb]]; [done|]. by apply (Ha b).
Qed.

(** ** Properties *)

(** C12. The queue is a set of armed timers. [arm_oneshot] and [arm_periodic] put the timer
    in a free slot and return an id naming it, with a serial never issued before; they refuse
    a zero period, and a queue whose every slot is armed or whose serials are spent. [cancel]
    removes exactly the timer its id names and returns its payload, and [deadline] reports its
    deadline; both refuse an id that names none. Heap order and the slots' places in the heap
    survive every operation, and nothing panics. *)
Theorem timer_queue_refines_set q d p x id :
  wf q → in_u 64 d → in_u 64 p →
  (∃ q' r, arm_oneshot q d x = Some (q', r) ∧ wf q' ∧
   match r with
   | Ok i => timers q !! tid_index i = Some None ∧ tid_serial i = next_serial q ∧
       timers q' = <[tid_index i := Some {| deadline := d; period := None; serial := tid_serial i;
                                             payload := x; heap_pos := 0 |}]> (timers q)
   | Err e => q' = q ∧ (e = Full ∧ (∀ i, timers q !! i ≠ Some None) ∨ e = Exhausted ∧ next_serial q = u64_MAX)
   end) ∧
  (∃ q' r, arm_periodic q d p x = Some (q', r) ∧ wf q' ∧
   match r with
   | Ok i => 0 < p ∧ timers q !! tid_index i = Some None ∧ tid_serial i = next_serial q ∧
       timers q' = <[tid_index i := Some {| deadline := d; period := Some p; serial := tid_serial i;
                                             payload := x; heap_pos := 0 |}]> (timers q)
   | Err e => q' = q ∧ (e = ZeroPeriod ∧ p = 0 ∨ e = Full ∧ (∀ i, timers q !! i ≠ Some None) ∨
                        e = Exhausted ∧ next_serial q = u64_MAX)
   end) ∧
  (∃ q' r, cancel q id = Some (q', r) ∧ wf q' ∧
   match r with
   | Ok y => (∃ a, armed_as q id a ∧ payload a = y ∧ deadline_of q id = Ok (deadline a)) ∧
             timers q' = <[tid_index id := None]> (timers q)
   | Err e => e = Stale ∧ q' = q ∧ deadline_of q id = Err Stale ∧ ∀ a, ¬ armed_as q id a
   end).
Proof.
  intros Hq Hd Hp. split_and!.
  - destruct (insert_spec q d None x Hq Hd ltac:(done)) as (q' & r & E & Hw & Hr). exists q', r.
    split_and!; [done..|]. destruct r as [i|[]]; [by destruct Hr as (? & ? & _ & ?)| |done..|];
      destruct Hr; eauto.
  - unfold arm_periodic, Duration.is_zero. destruct (Z.eqb_spec p 0) as [->|Hz].
    { exists q, (Err ZeroPeriod). split_and!; auto. }
    assert (0 < p) as Hp0 by (destruct Hp; lia).
    destruct (insert_spec q d (Some p) x Hq Hd) as (q' & r & E & Hw & Hr).
    { intros k [= <-]. split; [done|apply Hp]. }
    exists q', r. split_and!; [done..|]. destruct r as [i|[]]; [by destruct Hr as (? & ? & _ & ?)| |done..|];
      destruct Hr; eauto.
  - destruct (cancel_spec q id Hq) as (q' & r & E & Hw & _ & Hr). exists q', r. split_and!; [done..|].
    unfold deadline_of. pose proof (lookup_spec q id) as Hk. destruct r as [y|e].
    + destruct Hr as [(a & [Ha Hs] & Hy) Ht]. split; [|done]. exists a. split_and!; try done.
      destruct (lookup q id) as [b|]; [|by destruct Hk as [_ Hk]; destruct (Hk a)].
      destruct Hk as [_ [Hb _]]. rewrite Ha in Hb. by simplify_eq/=.
    + destruct Hr as (-> & -> & Hn). split_and!; try done. destruct (lookup q id) as [b|].
      * destruct Hk as [_ Hb]. by destruct (Hn _ Hb).
      * by destruct Hk as [-> _].
Qed.


(** C21. [pop_expired] takes the armed timer of least deadline, the oldest of equals, when it
    is due, and finds nothing exactly when none is. A one-shot is gone from the queue; a
    periodic timer is armed again, with the same serial, at its own deadline plus the least
    whole number of periods that lies after [now]: no drift, and the periods skipped are
    counted; if that deadline is past the end of time it is disarmed. No other timer is
    touched. [next_deadline] is the least deadline armed, and [idle_budget] does not let the
    CPU idle past it nor past the limit. Called until it returns [None], [pop_expired] ends:
    it reports each timer that was due, once, in the order of deadlines and then of age, and
    leaves no timer due. *)
Theorem expiry_is_earliest_first_and_complete q now limit :
  wf q → in_u 64 now →
  ((∃ nd, next_deadline q = Some nd ∧
   match nd with
   | None => (∀ i a, timers q !! i ≠ Some (Some a)) ∧ idle_budget q now limit = Some limit
   | Some d => (∃ i a, timers q !! i = Some (Some a) ∧ deadline a = d) ∧
       (∀ i a, timers q !! i = Some (Some a) → d ≤ deadline a) ∧
       idle_budget q now limit = Some (Z.min (Z.max (d - now) 0) limit)
   end) ∧
  ∃ q' o, pop_expired q now = Some (q', o) ∧ wf q' ∧
  match o with
  | None => q' = q ∧ ∀ i a, timers q !! i = Some (Some a) → now < deadline a
  | Some e => ∃ a, armed_as q (e_id e) a ∧ e_payload e = payload a ∧ e_deadline e = deadline a ∧
      deadline a ≤ now ∧
      (∀ j b, timers q !! j = Some (Some b) → key_le (deadline a, serial a) (deadline b, serial b)) ∧
      fired (timers q) (tid_index (e_id e)) a now (e_missed e) (e_next e) (timers q')
  end) ∧
  (∃ q' es, expire (S (capacity q)) q now = Some (q', es) ∧ wf q' ∧
    (∀ i a, timers q' !! i = Some (Some a) → now < deadline a) ∧
    length es = count_if (is_due now) (timers q) ∧
    Forall (reports (timers q) now) es ∧ NoDup ((λ e, tid_index (e_id e)) <$> es) ∧
    StronglySorted key_le (e_key <$> es)).
Proof.
  intros Hq Hn. split.
  { revert Hq Hn. intros Hq Hn. split.
  - destruct (next_deadline_spec q Hq) as (nd & E & Hnd). exists nd. split; [done|].
    unfold idle_budget. rewrite E. destruct nd as [d|]; [|done]. by destruct Hnd.
  - destruct (pop_expired_spec q now Hq Hn) as (q' & o & E & Hw & _ & Ho). eauto. }
  { revert Hq Hn. intros Hq Hn. apply expire_spec; try done.
  pose proof (count_if_le (is_due now) (timers q)) as Hle. rewrite length_timers in Hle. lia. }
Qed.

(** An id whose timer fired or was cancelled never becomes valid again, whatever is
    armed, cancelled and serviced afterwards: it names no timer, although its slot is reused. *)
Theorem stale_id_stays_stale q q' id :
  wf q → stale q id → rtc step q q' →
  lookup q' id = Err Stale ∧ ∃ q'', cancel q' id = Some (q'', Err Stale) ∧ q'' = q'.
Proof.
  intros Hq Hs Hrun.
  assert (wf q' ∧ stale q' id) as [Hq' [_ Hn]].
  { apply (rtc_invariant step (λ q, wf q ∧ stale q id) q q'); [|done..].
    intros a b [? ?] Hst. by eapply stale_step. }
  pose proof (lookup_spec q' id) as Hk. assert (lookup q' id = Err Stale) as E.
  { destruct (lookup q' id) as [x|e]; [by destruct Hk as [_ Hk]; destruct (Hn _ Hk)|by destruct Hk as [-> _]]. }
  split; [done|]. unfold cancel. rewrite E. eauto.
Qed.

End Queue.
Arguments Armed : clear implicits.
Arguments Expired : clear implicits.
Arguments t : clear implicits.

(** Two timers armed, the later one first. *)
Definition example_empty : t nat :=
  {| slots := replicate 3 None; heap := replicate 3 0%nat; len := 0; next_serial := 0 |}.
Definition example_queue : t nat :=
  let go q r := match r with Some (q', _) => q' | None => q end in
  let q1 := go example_empty (arm_oneshot example_empty 50 7%nat) in
  go q1 (arm_periodic q1 20 10 8%nat).

Lemma example_empty_wf : wf example_empty.
Proof. apply (timer_wf_new 3). reflexivity. Qed.

Lemma example_timers_wf : wf example_queue.
Proof.
  unfold example_queue. cbv zeta. set (q1 := match arm_oneshot _ _ _ with Some _ => _ | None => _ end).
  assert (wf q1) as H1.
  { unfold q1. destruct (insert_spec example_empty 50 None 7%nat example_empty_wf) as (q' & r & E & Hw & _);
      [by split; vm_compute|done|]. unfold arm_oneshot. by rewrite E. }
  change (arm_periodic q1 20 10 8%nat) with (insert q1 20 (Some 10) 8%nat).
  destruct (insert_spec q1 20 (Some 10) 8%nat H1) as (q' & r & E & Hw & _);
    [by split; vm_compute|by intros k [= <-]; split; vm_compute|]. by rewrite E.
Qed.

Lemma timer_queue_refines_set_witness : 
  ∃ q' r, cancel example_queue {| tid_index := 0; tid_serial := 0 |} = Some (q', r).
Proof.
  destruct (proj2 (proj2 (timer_queue_refines_set example_queue 5 5 9%nat {| tid_index := 0; tid_serial := 0 |}
    example_timers_wf ltac:(split; vm_compute; discriminate) ltac:(split; vm_compute; discriminate))))
    as (q' & r & E & _).
  exists q', r. exact E.
Defined.

Lemma expiry_is_earliest_first_and_complete_witness :
  idle_budget example_queue 45 100 = Some 0 ∧ ∃ q' es, expire 4 example_queue 45 = Some (q', es) ∧ length es = 1%nat.
Proof.
  destruct (expiry_is_earliest_first_and_complete example_queue 45 100 example_timers_wf
    ltac:(split; vm_compute; discriminate)) as [[(nd & E & H) _] (q' & es & E' & _ & _ & H' & _)]. split.
  - vm_compute in E. simplify_eq. exact (proj2 (proj2 H)).
  - exists q', es. split; [exact E'|exact H'].
Defined.

Lemma stale_id_stays_stale_witness :
  lookup example_queue {| tid_index := 0; tid_serial := 1 |} = Err Stale.
Proof.
  apply (stale_id_stays_stale example_queue example_queue {| tid_index := 0; tid_serial := 1 |}
    example_timers_wf); [|apply rtc_refl].
  split; [vm_compute; reflexivity|]. intros a [H1 H2]. vm_compute in H1. simplify_eq.
Defined.

End Timer.
