(* ===== verification/IpcInbox.v ===== *)
(** * An endpoint's inbox

    [kernel/ipc/src/inbox.rs]: a ring of message slots of fixed size.  A message leaves the
    ring with its entries, and a slot outside the queue holds none.  The refinement: the ring
    is the list of messages [queue] gives, appended to at the back and taken from the front. *)

From S2P Require Import Prelude KobjectObject KobjectHandle.

Module Inbox.

(** [bytes] has the [B] bytes of the slot, [handles] its [H] places for entries. *)
Record Message := { bytes : list Z; mlen : nat; handles : list (option Entry.t) }.

Definition EMPTY (B H : nat) : Message :=
  {| bytes := replicate B 0%Z; mlen := 0; handles := replicate H None |}.

(** [self.bytes.get(..self.len).unwrap_or(&[])] *)
Definition message_bytes (m : Message) : list Z :=
  if (mlen m <=? length (bytes m)) then take (mlen m) (bytes m) else [].

(** [map_while(|e| *e)]: the entries up to the first [None]. *)
Fixpoint packed (l : list (option Entry.t)) : list Entry.t :=
  match l with Some e :: l => e :: packed l | _ => [] end.

Definition message_entries (m : Message) : list Entry.t := packed (handles m).
Definition handle_count (m : Message) : nat := length (message_entries m).

Record t := { slots : list Message; head : nat; len : nat }.

(** [new]; a queue of depth zero is refused when the type is instantiated. *)
Definition new (D B H : nat) : option t :=
  if decide (0 < D) then Some {| slots := replicate D (EMPTY B H); head := 0; len := 0 |} else None.

Definition depth (ib : t) : nat := length (slots ib).
Definition is_full (ib : t) : bool := (depth ib <=? len ib).
Definition index (ib : t) (offset : nat) : nat := (head ib + offset) mod depth ib.
Definition front (ib : t) : option Message :=
  if (len ib =? 0) then None else slots ib !! head ib.
(** The slot a send stages into. *)
Definition vacant (ib : t) : option nat :=
  if is_full ib then None else Some (index ib (len ib)).

(** Staging: each entry goes to the next of [handle_slots], if there is one. *)
Fixpoint stage (hs : list (option Entry.t)) (es : list Entry.t) : list (option Entry.t) :=
  match hs, es with
  | _ :: hs, e :: es => Some e :: stage hs es
  | _, _ => hs
  end.

(** [Vacant]'s staged entries and [commit]: slot [i] joins the queue. *)
Definition commit (ib : t) (i : nat) (es : list Entry.t) (bs : list Z) : t :=
  {| slots := alter (λ m,
       let n := length bs `min` length (bytes m) in
       {| bytes := take n bs ++ drop n (bytes m); mlen := n; handles := stage (handles m) es |})
       i (slots ib);
     head := head ib;
     len := (len ib + 1) `min` depth ib |}.

Definition take_front (ib : t) : option (t * option (list (option Entry.t))) :=
  if (len ib =? 0) then Some (ib, None)
  else
    let taken := handles <$> slots ib !! head ib in
    len' ← usub (len ib) 1;
    Some ({| slots := alter (λ m, {| bytes := bytes m; mlen := 0;
                                     handles := replicate (length (handles m)) None |})
                        (head ib) (slots ib);
             head := index ib 1; len := len' |}, taken).

Definition discard_front (ib : t) : option t := fst <$> take_front ib.

(** The queued messages, front first. *)
Definition iter (ib : t) : list Message := omap (λ i, slots ib !! index ib i) (seq 0 (len ib)).

(** ** The queue the ring holds *)

Definition view (m : Message) : list Z * list Entry.t := (message_bytes m, message_entries m).
Definition queue (ib : t) : list (list Z * list Entry.t) := view <$> iter ib.

Section Shape.
(** The shape of a message: [B] bytes and [H] entries at most. *)
Context (B H : nat).

Record message_wf (m : Message) : Prop := {
  mwf_bytes : length (bytes m) = B;
  mwf_handles : length (handles m) = H;
  mwf_len : mlen m ≤ B;
  mwf_packed : handles m = (Some <$> packed (handles m)) ++ replicate (H - length (packed (handles m))) None;
}.

Record wf (ib : t) : Prop := {
  wf_head : head ib < depth ib;
  wf_len : len ib ≤ depth ib;
  wf_message : ∀ i m, slots ib !! i = Some m → message_wf m;
  (** A slot outside the queue keeps no entry. *)
  wf_vacant : ∀ o m, len ib ≤ o < depth ib → slots ib !! index ib o = Some m →
    handles m = replicate H None;
}.

Lemma ring_index_eq ib o :
  head ib < depth ib → o < depth ib →
  index ib o = if decide (head ib + o < depth ib) then head ib + o else head ib + o - depth ib.
Proof.
  intros Hh Ho. unfold index. case_decide; [by apply Nat.mod_small|].
  symmetry. apply Nat.mod_unique with 1; lia.
Qed.

Lemma ring_index_lt ib o : head ib < depth ib → index ib o < depth ib.
Proof. intros. apply Nat.mod_upper_bound. lia. Qed.

Lemma index_inj ib o o' :
  head ib < depth ib → o < depth ib → o' < depth ib → index ib o = index ib o' → o = o'.
Proof. intros Hh Ho Ho'. rewrite !ring_index_eq by done. repeat case_decide; lia. Qed.

Lemma slot_is_Some ib o : head ib < depth ib → is_Some (slots ib !! index ib o).
Proof. intros Hh. apply lookup_lt_is_Some. by apply ring_index_lt. Qed.

Lemma packed_replicate n : packed (replicate n None) = [].
Proof. by destruct n. Qed.

Lemma packed_app es n : packed ((Some <$> es) ++ replicate n None) = es.
Proof. induction es; simpl; [apply packed_replicate|]. by f_equal. Qed.

Lemma stage_empty n es :
  length es ≤ n → stage (replicate n None) es = (Some <$> es) ++ replicate (n - length es) None.
Proof.
  revert n. induction es as [|e es IH]; intros n Hn; simpl.
  - rewrite Nat.sub_0_r. by destruct n.
  - destruct n as [|n]; [simpl in Hn; lia|]. simpl. f_equal. apply IH. simpl in Hn. lia.
Qed.

Lemma omap_packed es n : omap (λ e : option Entry.t, e) ((Some <$> es) ++ replicate n None) = es.
Proof.
  rewrite omap_app. assert (omap (λ e : option Entry.t, e) (replicate n None) = []) as ->.
  { by induction n. }
  rewrite app_nil_r. induction es as [|e es IH]; [done|]. csimpl. by rewrite IH.
Qed.

Lemma iter_ext ib ib' n :
  (∀ i, i < n → slots ib' !! index ib' i = slots ib !! index ib i) →
  omap (λ i, slots ib' !! index ib' i) (seq 0 n) = omap (λ i, slots ib !! index ib i) (seq 0 n).
Proof.
  intros E. assert (∀ l : list nat, (∀ i, i ∈ l → i < n) →
    omap (λ i, slots ib' !! index ib' i) l = omap (λ i, slots ib !! index ib i) l) as Hl.
  { induction l as [|i l IH]; intros Hl; [done|]. csimpl. rewrite E by (apply Hl; left).
    rewrite IH; [done|]. intros j Hj. apply Hl. by right. }
  apply Hl. intros i [_ Hi]%elem_of_seq. lia.
Qed.

Lemma inbox_wf_new D ib : new D B H = Some ib → wf ib ∧ queue ib = [] ∧ depth ib = D.
Proof.
  unfold new. case_decide as HD; [|done]. intros [= <-]. unfold depth. simpl.
  rewrite length_replicate. split_and!; [|done..].
  assert (message_wf (EMPTY B H)) as Hm.
  { split; simpl; rewrite ?length_replicate; try lia.
    rewrite packed_replicate. simpl. by rewrite Nat.sub_0_r. }
  split; unfold depth; simpl; rewrite ?length_replicate; try lia.
  - intros i m [-> _]%lookup_replicate. done.
  - intros o m _ [-> _]%lookup_replicate. done.
Qed.

(** A send that finds a vacant slot appends its message. *)
Lemma commit_spec ib i es bs :
  wf ib → vacant ib = Some i → length bs ≤ B → length es ≤ H →
  wf (commit ib i es bs) ∧ queue (commit ib i es bs) = queue ib ++ [(bs, es)] ∧
  len (commit ib i es bs) = len ib + 1 ∧ depth (commit ib i es bs) = depth ib.
Proof.
  intros [Hh Hl Hm Hv]. unfold vacant, is_full. destruct (Nat.leb_spec (depth ib) (len ib)); [done|].
  intros [= <-] Hbs Hes. destruct (slot_is_Some ib (len ib) Hh) as [m Hi].
  pose proof (Hm _ _ Hi) as [Hmb Hmh Hml _]. pose proof (Hv (len ib) m ltac:(lia) Hi) as Hnone.
  set (ib' := commit ib (index ib (len ib)) es bs).
  set (m' := {| bytes := bs ++ drop (length bs) (bytes m); mlen := length bs;
                handles := stage (handles m) es |}).
  assert (depth ib' = depth ib) as Hd by (unfold depth; simpl; by rewrite length_alter).
  assert (len ib' = len ib + 1) as Hlen by (simpl; lia).
  assert (∀ o, index ib' o = index ib o) as Hix by (intros o; unfold index; by rewrite Hd).
  assert (slots ib' !! index ib (len ib) = Some m') as Hnew.
  { simpl. rewrite list_lookup_alter_eq, Hi. simpl. unfold m'. do 2 f_equal.
    - rewrite Hmb, Nat.min_l, firstn_all by done. done.
    - rewrite Hmb. lia. }
  assert (∀ j, j ≠ index ib (len ib) → slots ib' !! j = slots ib !! j) as Hold.
  { intros j Hj. simpl. by rewrite list_lookup_alter_ne. }
  assert (handles m' = (Some <$> es) ++ replicate (H - length es) None) as Hh'.
  { simpl. rewrite Hnone. by apply stage_empty. }
  assert (head ib' = head ib) as Hhd by done. clearbody ib'.
  split_and!; [|..|done|done].
  - split; [by rewrite Hhd, Hd|lia|..].
    + intros j x Hj. destruct (decide (j = index ib (len ib))) as [->|Hne].
      * rewrite Hnew in Hj. simplify_eq. split.
        -- simpl. rewrite length_app, length_drop. lia.
        -- rewrite Hh', length_app, length_fmap, length_replicate. lia.
        -- simpl. lia.
        -- by rewrite Hh', packed_app.
      * rewrite Hold in Hj by done. by eapply Hm.
    + intros o x Ho. rewrite Hix, Hold; [intros; eapply (Hv o); eauto; lia|].
      intros E. apply (index_inj ib) in E; lia.
  - unfold queue, iter. rewrite Hlen, Nat.add_1_r, seq_S, omap_app, fmap_app. simpl.
    rewrite Hix, Hnew. f_equal.
    + rewrite (iter_ext ib ib'); [done|]. intros j Hj. rewrite Hix. apply Hold.
      intros E. apply (index_inj ib) in E; lia.
    + simpl. unfold view, message_bytes, message_entries. rewrite Hh', packed_app. simpl.
      destruct (Nat.leb_spec (length bs) (length (bs ++ drop (length bs) (bytes m)))) as [|Hlt].
      * by rewrite take_app_length.
      * rewrite length_app in Hlt. lia.
Qed.

Lemma iter_cons ib m :
  wf ib → slots ib !! head ib = Some m → 0 < len ib →
  iter ib = m :: omap (λ i, slots ib !! index ib i) (seq 1 (len ib - 1)).
Proof.
  intros [Hh _ _ _] Hm Hl. unfold iter. destruct (len ib) as [|n]; [lia|]. csimpl.
  assert (index ib 0 = head ib) as -> by (rewrite ring_index_eq by lia; case_decide; lia).
  rewrite Hm. by rewrite Nat.sub_0_r.
Qed.

(** Taking the front message hands its entries over and clears them from the ring. *)
Lemma take_front_spec ib :
  wf ib →
  match queue ib with
  | [] => take_front ib = Some (ib, None) ∧ front ib = None ∧ len ib = 0
  | (bs, es) :: rest => ∃ ib' hs m, take_front ib = Some (ib', Some hs) ∧ front ib = Some m ∧
      message_wf m ∧ view m = (bs, es) ∧ omap (λ e : option Entry.t, e) hs = es ∧
      wf ib' ∧ queue ib' = rest ∧ len ib = S (len ib') ∧ depth ib' = depth ib
  end.
Proof.
  intros Hw. pose proof Hw as [Hh Hl Hm Hv]. unfold take_front, front.
  destruct (Nat.eqb_spec (len ib) 0) as [E|E].
  { unfold queue, iter. rewrite E. done. }
  assert (index ib 0 = head ib) as H0 by (rewrite ring_index_eq by lia; case_decide; lia).
  destruct (slot_is_Some ib 0 Hh) as [m Hi]. rewrite H0 in Hi.
  unfold queue. rewrite (iter_cons ib m) by (done || lia). rewrite fmap_cons. unfold view at 1.
  rewrite Hi. simpl. assert (usub (len ib) 1 = Some (len ib - 1)) as -> by (apply usub_Some; lia). simpl.
  set (ib' := {| slots := _; head := index ib 1; len := _ |}).
  pose proof (Hm _ _ Hi) as Hmw. pose proof Hmw as [Hmb Hmh Hml Hmp].
  assert (depth ib' = depth ib) as Hd by (unfold depth; simpl; by rewrite length_alter).
  assert (head ib' < depth ib') as Hh' by (rewrite Hd; by apply ring_index_lt).
  assert (∀ o, o < depth ib - 1 → index ib' o = index ib (S o)) as Hix.
  { intros o Ho. rewrite (ring_index_eq ib'), (ring_index_eq ib) by (rewrite ?Hd; lia || done). rewrite Hd. simpl.
    rewrite (ring_index_eq ib) by lia. repeat case_decide; lia. }
  assert (∀ j, j ≠ head ib → slots ib' !! j = slots ib !! j) as Hold.
  { intros j Hj. simpl. by rewrite list_lookup_alter_ne. }
  assert (slots ib' !! head ib =
    Some {| bytes := bytes m; mlen := 0; handles := replicate H None |}) as Hcl.
  { simpl. rewrite list_lookup_alter_eq, Hi. simpl. by rewrite Hmh. }
  assert (head ib' = index ib 1 ∧ len ib' = len ib - 1) as [Hhd Hlen] by done.
  exists ib', (handles m), m. split; [done|]. clearbody ib'. split_and!; try done.
  - rewrite Hmp at 1. apply omap_packed.
  - split; [done|lia|..].
    + intros j x Hj. destruct (decide (j = head ib)) as [->|Hne].
      * rewrite Hcl in Hj. simplify_eq/=. split; simpl; [done|by rewrite length_replicate|lia|].
        rewrite packed_replicate. simpl. by rewrite Nat.sub_0_r.
      * rewrite Hold in Hj by done. by eapply Hm.
    + intros o x Ho Hx. rewrite Hd in Ho.
      destruct (decide (o = depth ib - 1)) as [->|Hne].
      * assert (index ib' (depth ib - 1) = head ib) as Elast.
        { destruct (decide (depth ib = 1)) as [E1|E1].
          { pose proof (ring_index_lt ib' (depth ib - 1) Hh'). rewrite Hd in *. lia. }
          rewrite (ring_index_eq ib') by (rewrite ?Hd; lia || done). rewrite Hd, Hhd.
          rewrite (ring_index_eq ib) by lia. repeat case_decide; lia. }
        rewrite Elast, Hcl in Hx. by simplify_eq/=.
      * rewrite Hix in Hx by lia. rewrite Hold in Hx.
        -- eapply (Hv (S o)); [lia|done].
        -- rewrite <-H0. intros E'. apply (index_inj ib) in E'; lia.
  - unfold iter. rewrite Hlen. f_equal. rewrite <-fmap_S_seq.
    assert (∀ l : list nat, (∀ i, i ∈ l → i < len ib - 1) →
      omap (λ i, slots ib' !! index ib' i) l = omap (λ i, slots ib !! index ib i) (S <$> l)) as Hgo.
    { induction l as [|i l IH]; intros Hl'; [done|]. csimpl.
      assert (i < len ib - 1) as Hi' by (apply Hl'; left).
      rewrite Hix, Hold by (lia || (rewrite <-H0; intros E'; apply (index_inj ib) in E'; lia)).
      rewrite IH; [done|]. intros j Hj. apply Hl'. by right. }
    apply Hgo. intros i [_ ?]%elem_of_seq. lia.
  - lia.
Qed.

Lemma length_queue ib : wf ib → length (queue ib) = len ib.
Proof.
  intros [Hh _ _ _]. unfold queue, iter. rewrite length_fmap.
  generalize 0. induction (len ib) as [|n IH]; intros k; [done|]. csimpl.
  destruct (slot_is_Some ib k Hh) as [m ->]. simpl. by rewrite IH.
Qed.
End Shape.

(** C22. The ring of slots is a bounded FIFO of messages. A new inbox is empty; [vacant] finds
    a slot exactly when fewer than [depth] messages are queued, and committing into it appends
    the message with its bytes and entries as given; [front] and [take_front] see the oldest
    message, and taking it hands over exactly its entries, in order. A slot outside the queue
    keeps no entry, wherever the ring has wrapped. *)
Theorem inbox_refines_queue B H ib bs es :
  wf B H ib → length bs ≤ B → length es ≤ H →
  (vacant ib = None ↔ length (queue ib) = depth ib) ∧
  (∀ i, vacant ib = Some i →
     wf B H (commit ib i es bs) ∧ queue (commit ib i es bs) = queue ib ++ [(bs, es)] ∧
     depth (commit ib i es bs) = depth ib) ∧
  match queue ib with
  | [] => take_front ib = Some (ib, None) ∧ front ib = None
  | m :: rest => ∃ ib' hs x, take_front ib = Some (ib', Some hs) ∧ front ib = Some x ∧ view x = m ∧
      omap (λ e : option Entry.t, e) hs = snd m ∧ wf B H ib' ∧ queue ib' = rest
  end.
Proof.
  intros Hw Hb He. split_and!.
  - rewrite (length_queue B H) by done. unfold vacant, is_full. pose proof (wf_len _ _ _ Hw).
    destruct (Nat.leb_spec (depth ib) (len ib)); split; try done; lia.
  - intros i Hi. destruct (commit_spec B H ib i es bs Hw Hi Hb He) as (? & ? & _ & ?). done.
  - pose proof (take_front_spec B H ib Hw) as Ht. destruct (queue ib) as [|[b e] rest].
    + by destruct Ht as (? & ? & _).
    + destruct Ht as (ib' & hs & x & H1 & H2 & _ & H4 & H5 & H6 & H7 & _). by exists ib', hs, x.
Qed.

(** An inbox of two messages, after one was sent. *)
Definition example_inbox : t :=
  commit {| slots := replicate 2 (EMPTY 4 1); head := 0; len := 0 |} 0
    [Entry.Build 9 Event 1] [7; 8]%Z.

Lemma example_inbox_wf : wf 4 1 example_inbox.
Proof.
  apply (commit_spec 4 1); [|reflexivity|simpl; lia|simpl; lia].
  apply (inbox_wf_new 4 1 2). reflexivity.
Qed.

Lemma inbox_refines_queue_witness :
  ∃ ib', take_front example_inbox = Some (ib', Some [Some (Entry.Build 9 Event 1)]) ∧
         queue ib' = [].
Proof.
  destruct (proj2 (proj2 (inbox_refines_queue 4 1 example_inbox [] [] example_inbox_wf
    ltac:(simpl; lia) ltac:(simpl; lia)))) as (ib' & hs & x & E & _ & _ & _ & _ & Hq).
  exists ib'. split; [|exact Hq]. rewrite E. vm_compute in E. simplify_eq. reflexivity.
Defined.

End Inbox.
