(* ===== verification/IpcChannel.v ===== *)
(** * Channels

    [kernel/ipc/src/channel.rs]: two endpoints with a bounded inbox each, and the rules for
    moving handles between tables through them.  An operation holds the channel's lock from
    its first look at the state to its last change, and the table exclusively, so it is one
    step.  [None] is a panic; what a [sink] receives is a list, in order. *)

From S2P Require Import Prelude KobjectRights KobjectObject KobjectHandle IpcInbox.
Local Open Scope Z_scope.

Module Channel.

Inductive Side : Type := A | B.
#[global] Instance Side_eq_dec : EqDecision Side.
Proof. solve_decision. Defined.

Definition peer (s : Side) : Side := match s with A => B | B => A end.

Record Transfer := { handle : Handle.t; mask : Rights.t }.
Definition whole (h : Handle.t) : Transfer := {| handle := h; mask := Rights.ALL |}.
Definition narrowed (h : Handle.t) (m : Rights.t) : Transfer := {| handle := h; mask := m |}.

Record Received := { r_bytes : nat; r_handles : nat }.
Record Status := { queued : nat; writable : bool; peer_closed : bool }.

Inductive Error : Type :=
| Endpoint (e : Handle.Error)
| NotThisChannel
| Closed
| TooLarge (bytes handles : nat)
| TransferFailed (index : nat) (error : Handle.Error)
| DuplicateTransfer (index : nat)
| WouldCycle (index : nat)
| Full
| PeerClosed
| Empty
| BufferTooSmall (bytes handles : nat)
| NoRoom (handles : nat) (error : Handle.Error)
| TooManyRefs
| NotHeld.

Definition transfer_error (e : Handle.TransferError) : Error :=
  match e with
  | Handle.THandle index error => TransferFailed index error
  | Handle.TDuplicate index => DuplicateTransfer index
  end.

Record End := { refs : Z; open : bool; inbox : Inbox.t }.

(** [Channel] and the [State] its lock protects. *)
Record t := { id_a : ObjectId; id_b : ObjectId; end_a : End; end_b : End }.

Definition ENDPOINT_RIGHTS : Rights.t :=
  Rights.union (Rights.union (Rights.union (Rights.union (Rights.union Rights.READ Rights.WRITE)
    Rights.TRANSFER) Rights.DUPLICATE) Rights.WAIT) Rights.INSPECT.

(** [ends]: this side and the peer, and putting a changed end back. *)
Definition end_of (c : t) (s : Side) : End := match s with A => end_a c | B => end_b c end.
Definition set_end (c : t) (s : Side) (e : End) : t :=
  match s with
  | A => {| id_a := id_a c; id_b := id_b c; end_a := e; end_b := end_b c |}
  | B => {| id_a := id_a c; id_b := id_b c; end_a := end_a c; end_b := e |}
  end.
Definition set_inbox (e : End) (ib : Inbox.t) : End :=
  {| refs := refs e; open := open e; inbox := ib |}.

(** [new], for queues of [D] messages of [nb] bytes and [nh] handles. *)
Definition new {S} `{IdSource S} (D nb nh : nat) (ids : S) (rights : Rights.t) :
    option (t * (Entry.t * Entry.t) * S) :=
  let '(a, ids1) := next_id ids in
  let '(b, ids2) := next_id ids1 in
  ib ← Inbox.new D nb nh;
  let end_ := {| refs := 1; open := true; inbox := ib |} in
  Some ({| id_a := a; id_b := b; end_a := end_; end_b := end_ |},
        (Entry.Build a Channel rights, Entry.Build b Channel rights), ids2).

Definition id (c : t) (s : Side) : ObjectId := match s with A => id_a c | B => id_b c end.

Definition side_of (c : t) (object : ObjectId) : option Side :=
  if object =? id_a c then Some A else if object =? id_b c then Some B else None.

Definition side_of_entry (c : t) (e : Entry.t) : result Side Error :=
  if decide (Entry.kind e = Channel) then ok_or (side_of c (Entry.object e)) NotThisChannel
  else Err (Endpoint (Handle.WrongType Channel (Entry.kind e))).

(** Resolve an endpoint handle: live, a channel, carrying [required], and ours. *)
Definition endpoint (c : t) (table : HandleTable.t) (ep : Handle.t) (required : Rights.t) :
    result Side Error :=
  let? entry := map_err Endpoint (HandleTable.get_checked table ep Channel required) in
  ok_or (side_of c (Entry.object entry)) NotThisChannel.

Definition is_endpoint (c : t) (e : Entry.t) : bool :=
  bool_decide (Entry.kind e = Channel) && bool_decide (is_Some (side_of c (Entry.object e))).

(** The loop of [send] that refuses endpoints of this channel. *)
Fixpoint check_cycle (c : t) (table : HandleTable.t) (index : nat) (ts : list Transfer) :
    result unit Error :=
  match ts with
  | [] => Ok tt
  | x :: ts =>
      let? entry := map_err (TransferFailed index) (HandleTable.get table (handle x)) in
      if is_endpoint c entry then Err (WouldCycle index) else check_cycle c table (S index) ts
  end.

(** The entry staged for the handle at [index]: narrowed by its mask. *)
Definition staged (ts : list Transfer) (x : nat * Entry.t) : Entry.t :=
  let m := match ts !! x.1 with Some y => mask y | None => Rights.empty end in
  Entry.Build (Entry.object x.2) (Entry.kind x.2) (Rights.narrow (Entry.rights x.2) m).

Definition send (nb nh : nat) (c : t) (table : HandleTable.t) (ep : Handle.t) (bytes : list Z)
    (handles : list Transfer) : option (t * HandleTable.t * result unit Error) :=
  match endpoint c table ep Rights.WRITE with
  | Err e => Some (c, table, Err e)
  | Ok side =>
      if ((nb <? length bytes) || (nh <? length handles))%nat
      then Some (c, table, Err (TooLarge (length bytes) (length handles)))
      else
        let listed := handle <$> handles in
        match HandleTable.check_transfer_out_many table listed with
        | Err e => Some (c, table, Err (transfer_error e))
        | Ok _ =>
            match check_cycle c table 0 handles with
            | Err e => Some (c, table, Err e)
            | Ok _ =>
                let mine := end_of c side in
                let other := end_of c (peer side) in
                if negb (open mine) then Some (c, table, Err Closed)
                else if negb (open other) then Some (c, table, Err PeerClosed)
                else match Inbox.vacant (inbox other) with
                | None => Some (c, table, Err Full)
                | Some slot =>
                    '(table', moved) ← HandleTable.transfer_out_many table listed;
                    match moved with
                    | Err e => Some (c, table', Err (transfer_error e))
                    | Ok sunk =>
                        let ib := Inbox.commit (inbox other) slot (staged handles <$> sunk) bytes in
                        Some (set_end c (peer side) (set_inbox other ib), table', Ok tt)
                    end
                end
            end
        end
  end.

(** The installing loop of [receive]: the handles made, and the error that stopped it. *)
Fixpoint install (table : HandleTable.t) (outs : list Handle.t) (es : list Entry.t) :
    option (HandleTable.t * list Handle.t * option Handle.Error) :=
  match outs, es with
  | _ :: outs, e :: es =>
      '(table', r) ← HandleTable.insert table (Entry.object e) (Entry.kind e) (Entry.rights e);
      match r with
      | Err error => Some (table', [], Some error)
      | Ok h => '(table'', hs, f) ← install table' outs es; Some (table'', h :: hs, f)
      end
  | _, _ => Some (table, [], None)
  end.

(** The arm that undoes the installs. *)
Fixpoint undo (table : HandleTable.t) (hs : list Handle.t) : option HandleTable.t :=
  match hs with
  | [] => Some table
  | h :: hs => '(table', _) ← HandleTable.close table h; undo table' hs
  end.

(** What [receive] leaves: the channel, the table and the caller's two buffers. *)
Definition receive (c : t) (table : HandleTable.t) (ep : Handle.t) (bytes : list Z)
    (handles : list Handle.t) :
    option (t * HandleTable.t * list Z * list Handle.t * result Received Error) :=
  match endpoint c table ep Rights.READ with
  | Err e => Some (c, table, bytes, handles, Err e)
  | Ok side =>
      let mine := end_of c side in
      let other := end_of c (peer side) in
      if negb (open mine) then Some (c, table, bytes, handles, Err Closed)
      else match Inbox.front (inbox mine) with
      | None => Some (c, table, bytes, handles, Err (if open other then Empty else PeerClosed))
      | Some msg =>
          let got := {| r_bytes := length (Inbox.message_bytes msg); r_handles := Inbox.handle_count msg |} in
          if ((length bytes <? r_bytes got) || (length handles <? r_handles got))%nat
          then Some (c, table, bytes, handles, Err (BufferTooSmall (r_bytes got) (r_handles got)))
          else if (HandleTable.free_slots table <? r_handles got)%nat
          then Some (c, table, bytes, handles, Err (NoRoom (r_handles got) Handle.TableFull))
          else
            '(table', hs, failure) ← install table handles (Inbox.message_entries msg);
            match failure with
            | Some error =>
                table'' ← undo table' hs;
                Some (c, table'', bytes, replicate (length hs) 0 ++ drop (length hs) handles,
                      Err (NoRoom (r_handles got) error))
            | None =>
                ib ← Inbox.discard_front (inbox mine);
                Some (set_end c side (set_inbox mine ib), table',
                      Inbox.message_bytes msg ++ drop (r_bytes got) bytes,
                      hs ++ drop (length hs) handles, Ok got)
            end
      end
  end.

Definition status_at (c : t) (side : Side) : Status :=
  let mine := end_of c side in
  let other := end_of c (peer side) in
  {| queued := Inbox.len (inbox mine);
     writable := open other && negb (Inbox.is_full (inbox other));
     peer_closed := negb (open other) |}.

Definition status_of (c : t) (object : ObjectId) : option Status :=
  side ← side_of c object; Some (status_at c side).

Definition status (c : t) (table : HandleTable.t) (ep : Handle.t) : result Status Error :=
  let? side := endpoint c table ep Rights.WAIT in Ok (status_at c side).

Definition duplicate (c : t) (table : HandleTable.t) (ep : Handle.t) (m : Rights.t) :
    option (t * HandleTable.t * result Handle.t Error) :=
  match endpoint c table ep Rights.DUPLICATE with
  | Err e => Some (c, table, Err e)
  | Ok side =>
      let mine := end_of c side in
      if negb (open mine) then Some (c, table, Err Closed)
      else match checked_add 32 (refs mine) 1 with
      | None => Some (c, table, Err TooManyRefs)
      | Some refs' =>
          '(table', r) ← HandleTable.duplicate table ep m;
          match r with
          | Err e => Some (c, table', Err (Endpoint e))
          | Ok dup =>
              Some (set_end c side {| refs := refs'; open := open mine; inbox := inbox mine |},
                    table', Ok dup)
          end
      end
  end.

Definition release_keeping_inbox (c : t) (entry : Entry.t) : t * result bool Error :=
  match side_of_entry c entry with
  | Err e => (c, Err e)
  | Ok side =>
      let mine := end_of c side in
      match checked_sub (refs mine) 1 with
      | None => (c, Err NotHeld)
      | Some refs' =>
          (set_end c side {| refs := refs'; open := if refs' =? 0 then false else open mine;
                             inbox := inbox mine |}, Ok (refs' =? 0))
      end
  end.

Definition take_message (c : t) (side : Side) : option (t * option (list (option Entry.t))) :=
  let mine := end_of c side in
  '(ib, taken) ← Inbox.take_front (inbox mine);
  Some (set_end c side (set_inbox mine ib), taken).

(** The loop of [release] over a closed endpoint's inbox; each turn takes a message, so one
    more turn than messages is enough. *)
Fixpoint take_all (fuel : nat) (c : t) (side : Side) : option (t * list Entry.t) :=
  match fuel with
  | O => None
  | S fuel =>
      '(c', taken) ← take_message c side;
      match taken with
      | None => Some (c', [])
      | Some entries =>
          '(c'', sunk) ← take_all fuel c' side;
          Some (c'', omap (λ e : option Entry.t, e) entries ++ sunk)
      end
  end.

Definition release (c : t) (entry : Entry.t) : option (t * list Entry.t * result unit Error) :=
  match side_of_entry c entry with
  | Err e => Some (c, [], Err e)
  | Ok side =>
      match release_keeping_inbox c entry with
      | (c', Err e) => Some (c', [], Err e)
      | (c', Ok false) => Some (c', [], Ok tt)
      | (c', Ok true) =>
          '(c'', sunk) ← take_all (S (Inbox.len (inbox (end_of c' side)))) c' side;
          Some (c'', sunk, Ok tt)
      end
  end.

Definition close (c : t) (table : HandleTable.t) (ep : Handle.t) :
    option (t * HandleTable.t * list Entry.t * result unit Error) :=
  match endpoint c table ep Rights.empty with
  | Err e => Some (c, table, [], Err e)
  | Ok _ =>
      '(table', r) ← HandleTable.close table ep;
      match r with
      | Err e => Some (c, table', [], Err (Endpoint e))
      | Ok entry =>
          '(c', sunk, r') ← release c entry;
          Some (c', table', sunk, r')
      end
  end.

Definition end_state (c : t) (side : Side) : Z * bool * nat :=
  let mine := end_of c side in (refs mine, open mine, Inbox.len (inbox mine)).
Definition references (c : t) (side : Side) : Z := refs (end_of c side).
Definition is_open (c : t) (side : Side) : bool := open (end_of c side).

(** What [for_each_queued] visits. *)
Definition each_queued (c : t) : list (Side * Entry.t) :=
  concat ((λ side, concat ((λ m, (λ e, (side, e)) <$> Inbox.message_entries m) <$>
    Inbox.iter (inbox (end_of c side)))) <$> [A; B]).

(** ** The invariant *)

Definition queue (c : t) (s : Side) : list (list Z * list Entry.t) := Inbox.queue (inbox (end_of c s)).

Section Shape.
Context (nb nh : nat).

Record end_wf (e : End) : Prop := {
  ewf_inbox : Inbox.wf nb nh (inbox e);
  ewf_refs : in_u 32 (refs e);
  ewf_open : open e = negb (refs e =? 0);
}.

Record wf (c : t) : Prop := {
  wf_ids : id_a c ≠ id_b c;
  wf_end : ∀ s, end_wf (end_of c s);
  (** No message carries an endpoint of its own channel. *)
  wf_acyclic : ∀ s bs es e, (bs, es) ∈ queue c s → e ∈ es → is_endpoint c e = false;
}.

Lemma end_of_set_end c s e s' : end_of (set_end c s e) s' = if decide (s' = s) then e else end_of c s'.
Proof. by destruct s, s'. Qed.

Lemma peer_ne s : peer s ≠ s.
Proof. by destruct s. Qed.

Lemma is_endpoint_set_end c s e x : is_endpoint (set_end c s e) x = is_endpoint c x.
Proof. by destruct s. Qed.

Lemma id_set_end c s e s' : id (set_end c s e) s' = id c s'.
Proof. by destruct s, s'. Qed.

Lemma queue_set_end c s e s' :
  queue (set_end c s e) s' = if decide (s' = s) then Inbox.queue (inbox e) else queue c s'.
Proof. unfold queue. rewrite end_of_set_end. by case_decide. Qed.

Lemma set_end_same c s : set_end c s (end_of c s) = c.
Proof. by destruct c, s. Qed.

Lemma wf_set_end c s e :
  wf c → end_wf e →
  (∀ bs es x, (bs, es) ∈ Inbox.queue (inbox e) → x ∈ es → is_endpoint c x = false) →
  wf (set_end c s e).
Proof.
  intros [Hi He Ha] Hw Hq. split.
  - by destruct s.
  - intros s'. rewrite end_of_set_end. by case_decide.
  - intros s' bs es x. rewrite queue_set_end, is_endpoint_set_end. case_decide; eauto.
Qed.

Lemma side_of_id c s : id_a c ≠ id_b c → side_of c (id c s) = Some s.
Proof.
  intros Hne. unfold side_of, id. destruct s; [by rewrite Z.eqb_refl|].
  destruct (Z.eqb_spec (id_b c) (id_a c)); [congruence|]. by rewrite Z.eqb_refl.
Qed.

Lemma side_of_Some c o s : side_of c o = Some s → o = id c s.
Proof.
  unfold side_of. destruct (Z.eqb_spec o (id_a c)); [by intros [= <-]|].
  destruct (Z.eqb_spec o (id_b c)); [by intros [= <-]|done].
Qed.

(** What each listed handle must be for [check_cycle] to pass. *)
Lemma check_cycle_Ok c table i ts :
  check_cycle c table i ts = Ok tt ↔
  Forall (λ x, ∃ e, HandleTable.get table (handle x) = Ok e ∧ is_endpoint c e = false) ts.
Proof.
  revert i. induction ts as [|x ts IH]; intros i; simpl; [split; [constructor|done]|].
  rewrite Forall_cons. destruct (HandleTable.get table (handle x)) as [e|err]; simpl.
  - destruct (is_endpoint c e) eqn:E.
    + split; [done|]. intros [(e' & [= <-] & ?) _]. congruence.
    + rewrite IH. split; [eauto|]. by intros [_ ?].
  - split; [done|]. by intros [(e' & ? & _) _].
Qed.

Lemma check_cycle_Err c table i ts e :
  check_cycle c table i ts = Err e → (∃ j err, e = TransferFailed j err) ∨ ∃ j, e = WouldCycle j.
Proof.
  revert i. induction ts as [|x ts IH]; intros i; simpl; [done|].
  destruct (HandleTable.get table (handle x)) as [y|err]; simpl; [|intros [= <-]; eauto].
  destruct (is_endpoint c y); [intros [= <-]; eauto|apply IH].
Qed.

(** ** Sending *)

(** Everything that must hold for a send from [side] to go through. *)
Definition can_send (c : t) (table : HandleTable.t) (side : Side) (bytes : list Z)
    (ts : list Transfer) : Prop :=
  (length bytes ≤ nb)%nat ∧ (length ts ≤ nh)%nat ∧
  Forall (HandleTable.transferable table) (handle <$> ts) ∧ NoDup (handle <$> ts) ∧
  Forall (λ x, ∃ e, HandleTable.get table (handle x) = Ok e ∧ is_endpoint c e = false) ts ∧
  open (end_of c side) = true ∧ open (end_of c (peer side)) = true ∧
  is_Some (Inbox.vacant (inbox (end_of c (peer side)))).

(** The entry that travels for a handle: what the sender held, narrowed by the mask. *)
Definition carried (table : HandleTable.t) (x : Transfer) (e : Entry.t) : Prop :=
  ∃ held, HandleTable.get table (handle x) = Ok held ∧
    e = Entry.Build (Entry.object held) (Entry.kind held) (Rights.narrow (Entry.rights held) (mask x)).

Lemma can_send_dec c table side bytes ts :
  can_send c table side bytes ts ∨ ¬ can_send c table side bytes ts.
Proof.
  unfold can_send. destruct (decide (length bytes ≤ nb)%nat); [|right; tauto].
  destruct (decide (length ts ≤ nh)%nat); [|right; tauto].
  destruct (HandleTable.check_transfer_out_many table (handle <$> ts)) as [[]|e] eqn:Hc.
  2:{ right. intros (_ & _ & Hf & Hn & _). rewrite (proj2 (HandleTable.check_Ok table _)) in Hc; done. }
  apply HandleTable.check_Ok in Hc as [Hf Hn]. destruct (check_cycle c table 0 ts) as [[]|e] eqn:Hcy.
  2:{ right. intros (_ & _ & _ & _ & Hx & _). rewrite (proj2 (check_cycle_Ok c table 0 ts)) in Hcy; done. }
  apply check_cycle_Ok in Hcy. destruct (open (end_of c side)); [|by right; intros (_ & _ & _ & _ & _ & ? & _)].
  destruct (open (end_of c (peer side))); [|by right; intros (_ & _ & _ & _ & _ & _ & ? & _)].
  destruct (Inbox.vacant (inbox (end_of c (peer side)))); [left; eauto 10|].
  right. intros (_ & _ & _ & _ & _ & _ & _ & Hs). by apply is_Some_None in Hs.
Qed.

Lemma staged_carried table ts es :
  Forall2 (λ h e, HandleTable.get table h = Ok e) (handle <$> ts) es →
  Forall2 (carried table) ts (staged ts <$> zip (seq 0 (length (handle <$> ts))) es).
Proof.
  intros Hes. rewrite length_fmap. apply Forall2_same_length_lookup in Hes as [Hl Hes].
  rewrite length_fmap in Hl. apply Forall2_same_length_lookup. split.
  - rewrite length_fmap, length_zip_with, length_seq. lia.
  - intros i x e Hx He. rewrite list_lookup_fmap, lookup_zip_with in He.
    pose proof (lookup_lt_Some _ _ _ Hx) as Hlt. rewrite lookup_seq_lt in He by done. simpl in He.
    destruct (es !! i) as [held|] eqn:Hi; [|done]. simplify_eq/=.
    exists held. split.
    + apply (Hes i); [by rewrite list_lookup_fmap, Hx|done].
    + unfold staged. simpl. by rewrite Hx.
Qed.

Lemma send_refused c table ep bytes ts side :
  endpoint c table ep Rights.WRITE = Ok side → ¬ can_send c table side bytes ts →
  ∃ e, send nb nh c table ep bytes ts = Some (c, table, Err e) ∧
    (e = Full → Inbox.vacant (inbox (end_of c (peer side))) = None) ∧
    (e = PeerClosed → open (end_of c (peer side)) = false).
Proof.
  intros Hep Hno. unfold send. rewrite Hep.
  destruct (Nat.ltb_spec nb (length bytes)); simpl; [by eexists|].
  destruct (Nat.ltb_spec nh (length ts)); simpl; [by eexists|].
  destruct (HandleTable.check_transfer_out_many table (handle <$> ts)) as [[]|[]] eqn:Hc; [|by eexists..].
  destruct (check_cycle c table 0 ts) as [[]|e] eqn:Hcy.
  2:{ exists e. split; [done|]. split; intros ->; by apply check_cycle_Err in Hcy as [(? & ? & ?)|(? & ?)]. }
  destruct (open (end_of c side)) eqn:Ho; simpl; [|by eexists].
  destruct (open (end_of c (peer side))) eqn:Hp; simpl; [|by eexists].
  destruct (Inbox.vacant (inbox (end_of c (peer side)))) as [slot|] eqn:Hv; [|by eexists].
  destruct Hno. apply HandleTable.check_Ok in Hc as [Hf Hn]. apply check_cycle_Ok in Hcy.
  unfold can_send. rewrite Hv. split_and!; eauto.
Qed.

Lemma send_accepted c table ep bytes ts side :
  wf c → HandleTable.wf table → Forall Handle.wf (handle <$> ts) →
  endpoint c table ep Rights.WRITE = Ok side → can_send c table side bytes ts →
  ∃ c' table' es held, send nb nh c table ep bytes ts = Some (c', table', Ok tt) ∧
    Forall2 (carried table) ts es ∧
    Forall2 (λ h e, HandleTable.get table h = Ok e) (handle <$> ts) held ∧
    wf c' ∧ HandleTable.wf table' ∧
    queue c' (peer side) = queue c (peer side) ++ [(bytes, es)] ∧ queue c' side = queue c side ∧
    (∀ s, refs (end_of c' s) = refs (end_of c s)) ∧ (∀ s, id c' s = id c s) ∧
    (∀ h, Handle.wf h → HandleTable.get table' h =
       if decide (h ∈ handle <$> ts) then Err Handle.BadHandle else HandleTable.get table h) ∧
    HandleTable.entries table ≡ₚ held ++ HandleTable.entries table'.
Proof.
  intros Hw Ht Hhs Hep (Hb & Hh & Hf & Hn & Hcy & Ho & Hp & slot & Hv). unfold send. rewrite Hep.
  destruct (Nat.ltb_spec nb (length bytes)); [lia|]. destruct (Nat.ltb_spec nh (length ts)); [lia|]. simpl.
  assert (HandleTable.check_transfer_out_many table (handle <$> ts) = Ok tt) as Hc by (by apply HandleTable.check_Ok).
  rewrite Hc, (proj2 (check_cycle_Ok c table 0 ts) Hcy), Ho, Hp, Hv. simpl.
  unfold HandleTable.transfer_out_many. rewrite Hc.
  destruct (HandleTable.move_from_spec table 0 (handle <$> ts)) as (table' & held & Hm & Ht' & _ & Hes & Hget);
    [done..| |done|].
  { eapply Forall_impl; [done|]. intros h (e & -> & _). done. }
  rewrite Hm. simpl. pose proof (staged_carried table ts held Hes) as Hcar.
  pose proof (HandleTable.move_from_entries _ _ _ _ _ Hm) as Hent.
  set (es := staged ts <$> zip (seq 0 (length (handle <$> ts))) held) in *.
  set (other := end_of c (peer side)) in *.
  pose proof (wf_end _ Hw (peer side)) as [Hib Hr Hop].
  destruct (Inbox.commit_spec nb nh (inbox other) slot es bytes Hib Hv Hb) as (Hib' & Hq & _ & _).
  { by rewrite <-(Forall2_length _ _ _ Hcar). }
  eexists _, _, es, held. split; [done|]. split_and!; try done.
  - apply wf_set_end; [done|by split|]. simpl. rewrite Hq. intros bs xs x Hin Hx.
    apply elem_of_app in Hin as [Hin|Hin]; [by eapply (wf_acyclic _ Hw (peer side))|].
    apply list_elem_of_singleton in Hin. simplify_eq.
    apply list_elem_of_lookup in Hx as [i Hi].
    destruct (Forall2_lookup_r _ _ _ _ _ Hcar Hi) as (y & Hy & e0 & Hg & ->).
    rewrite Forall_lookup in Hcy. destruct (Hcy i y Hy) as (e1 & Hg1 & He1). rewrite Hg in Hg1. by simplify_eq.
  - rewrite queue_set_end, decide_True by done. simpl. by rewrite Hq.
  - rewrite queue_set_end, decide_False by (symmetry; apply peer_ne). done.
  - intros s'. rewrite end_of_set_end. case_decide; [by subst|done].
  - intros s'. apply id_set_end.
  - rewrite Hent. f_equiv. rewrite snd_zip; [done|]. rewrite length_seq.
    by rewrite (Forall2_length _ _ _ Hes).
Qed.

(** ** Receiving *)

Lemma install_spec table outs es :
  HandleTable.wf table → (length es ≤ length outs)%nat → (length es ≤ HandleTable.free_slots table)%nat →
  ∃ table' hs, install table outs es = Some (table', hs, None) ∧ HandleTable.wf table' ∧
    Forall2 (λ h e, Handle.wf h ∧ HandleTable.get table' h = Ok e) hs es ∧ NoDup hs ∧
    Forall (λ h, HandleTable.get table h = Err Handle.BadHandle) hs ∧
    (∀ h, Handle.wf h → h ∉ hs → HandleTable.get table' h = HandleTable.get table h) ∧
    HandleTable.entries table' ≡ₚ es ++ HandleTable.entries table.
Proof.
  revert table outs. induction es as [|e es IH]; intros table outs Ht Ho Hf.
  { exists table, []. destruct outs; split_and!; try done; constructor. }
  destruct outs as [|o outs]; simpl in Ho; [lia|]. simpl.
  destruct (HandleTable.insert_cases table (Entry.object e) (Entry.kind e) (Entry.rights e)) as
    [[H0 _]|(i & s & Hi & Hv & ->)]; [simpl in Hf; lia|]. simpl.
  assert (Entry.Build (Entry.object e) (Entry.kind e) (Entry.rights e) = e) as -> by (by destruct e).
  set (h := Handle.new i (HandleTable.generation s)). set (t1 := HandleTable.filled table i s e).
  pose proof (HandleTable.wf_filled table i s e Ht Hi Hv) as Ht1.
  pose proof (HandleTable.free_slots_filled table i s e Hi Hv) as Hf1. simpl in Hf.
  destruct (IH t1 outs) as (table' & hs & Hin & Ht' & H2 & Hnd & Hb & Hold & Hent);
    [done|lia|unfold t1; lia|].
  rewrite Hin. simpl. destruct (HandleTable.fresh_handle table i s Ht Hi) as (Hwh & _ & _).
  pose proof (HandleTable.get_vacant_slot table i s Ht Hi Hv) as Hbad. fold h in Hwh, Hbad.
  assert (∀ h', Handle.wf h' → HandleTable.get t1 h' = if decide (h' = h) then Ok e else HandleTable.get table h')
    as Hget1 by (intros; by apply HandleTable.get_filled).
  assert (h ∉ hs) as Hni.
  { intros Hh. rewrite Forall_forall in Hb. specialize (Hb h Hh). rewrite Hget1, decide_True in Hb by done. done. }
  exists table', (h :: hs). split_and!; try done.
  - constructor; [|done]. split; [done|]. rewrite Hold, Hget1, decide_True by done. done.
  - by constructor.
  - constructor; [done|]. apply Forall2_same_length_lookup in H2 as [Hl2 H2].
    rewrite Forall_lookup in Hb |- *. intros j x Hj. specialize (Hb j x Hj).
    destruct (lookup_lt_is_Some_2 es j) as [y Hy]; [rewrite <-Hl2; by eapply lookup_lt_Some|].
    destruct (H2 j x y Hj Hy) as [Hwx _]. rewrite Hget1 in Hb by done. by case_decide.
  - intros x Hx Hnx. apply not_elem_of_cons in Hnx as [Hne Hnx]. rewrite Hold, Hget1, decide_False by done. done.
  - rewrite Hent. unfold t1. rewrite (HandleTable.entries_filled table i s e) by done. simpl.
    by rewrite <-Permutation_middle.
Qed.

(** Why a receive finds nothing, in the order it is checked. *)
Definition can_receive (c : t) (table : HandleTable.t) (side : Side) (nbuf hbuf : nat)
    (bs : list Z) (es : list Entry.t) (rest : list (list Z * list Entry.t)) : Prop :=
  open (end_of c side) = true ∧ queue c side = (bs, es) :: rest ∧
  (length bs ≤ nbuf)%nat ∧ (length es ≤ hbuf)%nat ∧ (length es ≤ HandleTable.free_slots table)%nat.

Lemma can_receive_dec c table side nbuf hbuf :
  (∃ bs es rest, can_receive c table side nbuf hbuf bs es rest) ∨
  (∀ bs es rest, ¬ can_receive c table side nbuf hbuf bs es rest).
Proof.
  unfold can_receive. destruct (queue c side) as [|[bs es] rest]; [right; by intros ??? (_ & ? & _)|].
  destruct (open (end_of c side)); [|right; by intros ??? (? & _)].
  destruct (decide (length bs ≤ nbuf ∧ length es ≤ hbuf ∧ length es ≤ HandleTable.free_slots table)%nat) as [Hd|Hd].
  - left. exists bs, es, rest. tauto.
  - right. intros bs' es' rest' (_ & [= <- <- <-] & ? & ? & ?). tauto.
Qed.

Lemma receive_accepted c table ep bytes handles side bs es rest :
  wf c → HandleTable.wf table → endpoint c table ep Rights.READ = Ok side →
  can_receive c table side (length bytes) (length handles) bs es rest →
  ∃ c' table' hs, receive c table ep bytes handles =
      Some (c', table', bs ++ drop (length bs) bytes, hs ++ drop (length hs) handles,
            Ok {| r_bytes := length bs; r_handles := length es |}) ∧
    wf c' ∧ HandleTable.wf table' ∧ queue c' side = rest ∧ queue c' (peer side) = queue c (peer side) ∧
    (∀ s, refs (end_of c' s) = refs (end_of c s)) ∧ (∀ s, id c' s = id c s) ∧
    Forall2 (λ h e, Handle.wf h ∧ HandleTable.get table' h = Ok e) hs es ∧ NoDup hs ∧
    Forall (λ h, HandleTable.get table h = Err Handle.BadHandle) hs ∧
    (∀ h, Handle.wf h → h ∉ hs → HandleTable.get table' h = HandleTable.get table h) ∧
    HandleTable.entries table' ≡ₚ es ++ HandleTable.entries table.
Proof.
  intros Hw Ht Hep (Ho & Hq & Hb & Hh & Hf). unfold receive. rewrite Hep, Ho. simpl.
  pose proof (wf_end _ Hw side) as [Hib Hr Hop].
  pose proof (Inbox.take_front_spec nb nh _ Hib) as Htf. unfold queue in Hq. rewrite Hq in Htf.
  destruct Htf as (ib' & hs0 & m & Htake & Hfront & Hm & Hview & _ & Hib' & Hq' & _ & _).
  rewrite Hfront. unfold Inbox.view in Hview. simplify_eq.
  unfold Inbox.handle_count. simpl.
  destruct (Nat.ltb_spec (length bytes) (length (Inbox.message_bytes m))); [lia|].
  destruct (Nat.ltb_spec (length handles) (length (Inbox.message_entries m))); [lia|]. simpl.
  destruct (Nat.ltb_spec (HandleTable.free_slots table) (length (Inbox.message_entries m))); [lia|].
  destruct (install_spec table handles (Inbox.message_entries m) Ht Hh Hf) as
    (table' & hs & -> & Ht' & H2 & Hnd & Hbad & Hold & Hent). simpl.
  unfold Inbox.discard_front. rewrite Htake. simpl. eexists _, _, hs. split; [done|]. split_and!; try done.
  - apply wf_set_end; [done|by split|]. simpl. intros bs xs x Hin Hx.
    eapply (wf_acyclic _ Hw side); [|done]. unfold queue. rewrite Hq. by right.
  - rewrite queue_set_end, decide_True by done. done.
  - rewrite queue_set_end, decide_False by apply peer_ne. done.
  - intros s'. rewrite end_of_set_end. case_decide; [by subst|done].
  - intros s'. apply id_set_end.
Qed.

Lemma receive_refused c table ep bytes handles side :
  wf c → endpoint c table ep Rights.READ = Ok side →
  (∀ bs es rest, ¬ can_receive c table side (length bytes) (length handles) bs es rest) →
  ∃ e, receive c table ep bytes handles = Some (c, table, bytes, handles, Err e) ∧
    (open (end_of c side) = true → queue c side = [] →
       e = if open (end_of c (peer side)) then Empty else PeerClosed) ∧
    (open (end_of c side) = true → queue c side ≠ [] → e ≠ Empty ∧ e ≠ PeerClosed).
Proof.
  intros Hw Hep Hno. unfold receive. rewrite Hep. pose proof (wf_end _ Hw side) as [Hib _ _].
  destruct (open (end_of c side)) eqn:Ho; simpl; [|by eexists]. unfold can_receive in Hno. rewrite Ho in Hno.
  unfold queue in *. pose proof (Inbox.take_front_spec nb nh _ Hib) as Htf.
  destruct (Inbox.queue (inbox (end_of c side))) as [|[bs es] rest].
  { destruct Htf as (_ & -> & _). eexists. split; [done|]. done. }
  destruct Htf as (ib' & hs0 & m & _ & -> & _ & Hview & _). unfold Inbox.view in Hview. simplify_eq.
  unfold Inbox.handle_count. simpl.
  destruct (Nat.ltb_spec (length bytes) (length (Inbox.message_bytes m))); simpl; [by eexists|].
  destruct (Nat.ltb_spec (length handles) (length (Inbox.message_entries m))); simpl; [by eexists|].
  destruct (Nat.ltb_spec (HandleTable.free_slots table) (length (Inbox.message_entries m))); [by eexists|].
  destruct (Hno (Inbox.message_bytes m) (Inbox.message_entries m) rest). split_and!; done.
Qed.

(** ** Closing *)

Lemma take_message_spec c side :
  wf c →
  match queue c side with
  | [] => take_message c side = Some (c, None)
  | (bs, es) :: rest => ∃ ib hs,
      let c' := set_end c side (set_inbox (end_of c side) ib) in
      take_message c side = Some (c', Some hs) ∧ omap (λ e : option Entry.t, e) hs = es ∧ wf c' ∧
      queue c' side = rest ∧ Inbox.len (inbox (end_of c side)) = S (Inbox.len ib)
  end.
Proof.
  intros Hw. unfold take_message. pose proof (wf_end _ Hw side) as [Hib Hr Hop].
  pose proof (Inbox.take_front_spec nb nh _ Hib) as Htf. pose proof (Inbox.length_queue nb nh _ Hib) as Hl.
  change (Inbox.queue (inbox (end_of c side))) with (queue c side) in Htf, Hl.
  destruct (queue c side) as [|[bs es] rest] eqn:Hq.
  - destruct Htf as (-> & _ & _). simpl.
    assert (set_inbox (end_of c side) (inbox (end_of c side)) = end_of c side) as -> by (by destruct (end_of c side)).
    by rewrite set_end_same.
  - destruct Htf as (ib' & hs & m & -> & _ & _ & _ & Hes & Hib' & Hq' & _ & _). exists ib', hs.
    split_and!; [done..| | |].
    + apply wf_set_end; [done|by split|]. simpl. intros b x y Hin Hy.
      eapply (wf_acyclic _ Hw side); [|done]. rewrite Hq. right. by rewrite <-Hq'.
    + by rewrite queue_set_end, decide_True.
    + rewrite <-Hl, <-(Inbox.length_queue nb nh _ Hib'), Hq'. done.
Qed.

Lemma take_all_spec fuel c side :
  wf c → (length (queue c side) < fuel)%nat →
  ∃ c', take_all fuel c side = Some (c', concat (snd <$> queue c side)) ∧ wf c' ∧
    queue c' side = [] ∧ end_of c' (peer side) = end_of c (peer side) ∧
    refs (end_of c' side) = refs (end_of c side) ∧ open (end_of c' side) = open (end_of c side) ∧
    ∀ s, id c' s = id c s.
Proof.
  revert c. induction fuel as [|fuel IH]; intros c Hw Hf; [lia|]. cbn [take_all].
  pose proof (take_message_spec c side Hw) as Htm. destruct (queue c side) as [|[bs es] rest] eqn:Hq.
  - rewrite Htm. simpl. exists c. done.
  - destruct Htm as (ib & hs & -> & Hes & Hw1 & Hq1 & _). cbn [mbind option_bind].
    set (c1 := set_end c side (set_inbox (end_of c side) ib)) in *.
    destruct (IH c1 Hw1) as (c' & -> & Hw' & Hq2 & Hp & Hs1 & Hs2 & Hs3); [rewrite Hq1; simpl in Hf; lia|].
    cbn [mbind option_bind]. exists c'. rewrite Hes, Hq1. split_and!; try done.
    + rewrite Hp. unfold c1. by rewrite end_of_set_end, decide_False by apply peer_ne.
    + rewrite Hs1. unfold c1. by rewrite end_of_set_end, decide_True.
    + rewrite Hs2. unfold c1. by rewrite end_of_set_end, decide_True.
    + intros s'. rewrite Hs3. by destruct s', side.
Qed.

Lemma side_of_entry_Ok c e side :
  side_of_entry c e = Ok side → Entry.kind e = Channel ∧ Entry.object e = id c side.
Proof.
  unfold side_of_entry. case_decide; [|done]. intros Hs%ok_or_Ok. split; [done|]. by apply side_of_Some.
Qed.

(** Giving a reference back: what it does at each count. *)
Lemma release_effect c entry side :
  wf c → side_of_entry c entry = Ok side →
  ∃ c' sunk r, release c entry = Some (c', sunk, r) ∧ wf c' ∧
    queue c' (peer side) = queue c (peer side) ∧ end_of c' (peer side) = end_of c (peer side) ∧
    (∀ s, id c' s = id c s) ∧
    if refs (end_of c side) =? 0 then c' = c ∧ sunk = [] ∧ r = Err NotHeld
    else r = Ok tt ∧ refs (end_of c' side) = refs (end_of c side) - 1 ∧
      if refs (end_of c side) =? 1
      then open (end_of c' side) = false ∧ sunk = concat (snd <$> queue c side) ∧ queue c' side = []
      else open (end_of c' side) = open (end_of c side) ∧ sunk = [] ∧ queue c' side = queue c side.
Proof.
  intros Hw Hs. unfold release, release_keeping_inbox. rewrite Hs.
  pose proof (wf_end _ Hw side) as [Hib [Hr0 Hr1] Hop]. unfold checked_sub.
  destruct (Z.eqb_spec (refs (end_of c side)) 0) as [E0|E0].
  { destruct (Z.leb_spec 1 (refs (end_of c side))); [lia|]. exists c, [], (Err NotHeld). done. }
  destruct (Z.leb_spec 1 (refs (end_of c side))); [|lia].
  set (e1 := {| refs := refs (end_of c side) - 1 |}). set (c1 := set_end c side e1).
  assert (wf c1) as Hw1.
  { apply wf_set_end; [done| |].
    - split; simpl; [done|split; lia|]. rewrite Hop.
      destruct (Z.eqb_spec (refs (end_of c side) - 1) 0); [done|].
      destruct (Z.eqb_spec (refs (end_of c side)) 0); [lia|done].
    - intros. by eapply (wf_acyclic _ Hw side). }
  assert (end_of c1 side = e1) as He1 by (unfold c1; by rewrite end_of_set_end, decide_True).
  assert (end_of c1 (peer side) = end_of c (peer side)) as Hp1
    by (unfold c1; by rewrite end_of_set_end, decide_False by apply peer_ne).
  assert (∀ s, id c1 s = id c s) as Hid by (intros s; by destruct s, side).
  assert (queue c1 side = queue c side ∧ queue c1 (peer side) = queue c (peer side)) as [Hq1 Hqp].
  { unfold queue. by rewrite He1, Hp1. }
  destruct (Z.eqb_spec (refs (end_of c side) - 1) 0) as [E1|E1].
  - destruct (Z.eqb_spec (refs (end_of c side)) 1); [|lia].
    destruct (take_all_spec (S (Inbox.len (inbox (end_of c1 side)))) c1 side Hw1) as
      (c' & Ht & Hw' & Hq & Hp & Hr & Ho & Hid').
    { rewrite He1. simpl. unfold queue. rewrite He1. simpl. rewrite (Inbox.length_queue nb nh) by done. lia. }
    rewrite Ht. simpl. eexists _, _, _. split; [done|]. rewrite He1 in Hr, Ho. simpl in Hr, Ho.
    destruct (Z.eqb_spec (refs (end_of c side) - 1) 0); [|lia].
    split_and!; try done.
    + unfold queue. by rewrite Hp, Hp1.
    + by rewrite Hp.
    + intros s'. by rewrite Hid', Hid.
    + by rewrite Hq1.
  - destruct (Z.eqb_spec (refs (end_of c side)) 1); [lia|]. exists c1, [], (Ok tt). rewrite He1. simpl.
    split_and!; try done.
Qed.

End Shape.

(** A handle made without the accounting to an endpoint that holds no reference: [close]
    reports [NotHeld], and yet the handle is gone from the table. *)
Lemma close_unheld_drops_handle nb nh c table ep side :
  wf nb nh c → HandleTable.wf table → endpoint c table ep Rights.empty = Ok side →
  references c side = 0 →
  ∃ table', close c table ep = Some (c, table', [], Err NotHeld) ∧
    HandleTable.len table = S (HandleTable.len table').
Proof.
  intros Hw Ht Hep Hr. unfold close. rewrite Hep. unfold endpoint, HandleTable.get_checked in Hep.
  destruct (HandleTable.get table ep) as [e|] eqn:Hg; [simpl in Hep|done]. case_decide as Hk; [|done].
  destruct (negb (Rights.contains (Entry.rights e) Rights.empty)); [done|]. apply ok_or_Ok in Hep.
  destruct (HandleTable.close_Ok table ep e Ht Hg) as (s & Hi & _ & He & ->). cbn [mbind option_bind].
  assert (side_of_entry c e = Ok side) as Hs by (unfold side_of_entry; by rewrite decide_True, Hep).
  destruct (release_effect nb nh c e side Hw Hs) as (c' & sunk & r & -> & _ & _ & _ & _ & Hx).
  unfold references in Hr. rewrite Hr in Hx. simpl in Hx. destruct Hx as (-> & -> & ->).
  eexists. split; [done|]. unfold HandleTable.len. simpl.
  assert (HandleTable.occupied s = true) as Ho by (unfold HandleTable.occupied; by rewrite He).
  pose proof (HandleTable.live_pos table _ s Ht Hi Ho) as Hl. apply usub_Some in Hl as [? _]. lia.
Qed.

(** A channel of two slots per inbox, as [new] makes it, a table with a handle to each
    endpoint and to an event, and one free slot. *)
Definition example_channel : t :=
  let end_ := {| refs := 1; open := true;
                 inbox := {| Inbox.slots := replicate 2 (Inbox.EMPTY 4 1); Inbox.head := 0; Inbox.len := 0 |} |} in
  {| id_a := 1; id_b := 2; end_a := end_; end_b := end_ |}.

Definition example_slot (e : option Entry.t) : HandleTable.Slot :=
  {| HandleTable.generation := 1024; HandleTable.entry := e; HandleTable.retired := false |}.

Definition example_table : HandleTable.t :=
  {| HandleTable.slots := example_slot <$> [Some (Entry.Build 1 Channel ENDPOINT_RIGHTS);
       Some (Entry.Build 2 Channel ENDPOINT_RIGHTS); Some (Entry.Build 9 Event Rights.ALL); None];
     HandleTable.live := 3 |}.

Lemma example_channel_new : new 2 4 1 LockedIds_new ENDPOINT_RIGHTS =
  Some (example_channel, (Entry.Build 1 Channel ENDPOINT_RIGHTS, Entry.Build 2 Channel ENDPOINT_RIGHTS),
        {| locked_next := 3 |}).
Proof. reflexivity. Qed.

Lemma example_channel_wf : wf 4 1 example_channel.
Proof.
  destruct (Inbox.inbox_wf_new 4 1 2 _ eq_refl) as (Hw & Hq & _).
  split; [done|by intros []|]. intros [] bs es e Hin; vm_compute in Hin; by apply elem_of_nil in Hin.
Qed.

Lemma example_table_wf : HandleTable.wf example_table.
Proof.
  split; [vm_compute; lia| |reflexivity].
  repeat constructor; simpl; try done; by exists 1.
Qed.

(** C23. a send either changes nothing or does everything. It goes through exactly when the
    endpoint handle carries [WRITE], the message fits, every listed handle is live, listed
    once and carries [TRANSFER], none is an endpoint of this channel, both ends are open and
    the peer's inbox has a slot. Then the peer's queue grows by one message with the bytes
    and, in list order, the entries the sender held, each narrowed by its mask; the listed
    handles are invalid in the sender's table, every other handle is untouched, and what left
    the table is exactly what was sent. [Full] and [PeerClosed] are reported truthfully. *)
Theorem send_all_or_nothing nb nh c table ep bytes ts
    (Hw : wf nb nh c) (Ht : HandleTable.wf table) (Hts : Forall Handle.wf (handle <$> ts)) :
  match endpoint c table ep Rights.WRITE with
  | Err e => send nb nh c table ep bytes ts = Some (c, table, Err e)
  | Ok side =>
      (¬ can_send nb nh c table side bytes ts ∧
       ∃ e, send nb nh c table ep bytes ts = Some (c, table, Err e) ∧
         (e = Full → length (queue c (peer side)) = Inbox.depth (inbox (end_of c (peer side)))) ∧
         (e = PeerClosed → is_open c (peer side) = false)) ∨
      (can_send nb nh c table side bytes ts ∧
       ∃ c' table' es held, send nb nh c table ep bytes ts = Some (c', table', Ok tt) ∧
         Forall2 (carried table) ts es ∧
         Forall2 (λ h e, HandleTable.get table h = Ok e) (handle <$> ts) held ∧
         wf nb nh c' ∧ HandleTable.wf table' ∧
         queue c' (peer side) = queue c (peer side) ++ [(bytes, es)] ∧ queue c' side = queue c side ∧
         (∀ s, references c' s = references c s) ∧ (∀ s, id c' s = id c s) ∧
         (∀ h, Handle.wf h → HandleTable.get table' h =
            if decide (h ∈ handle <$> ts) then Err Handle.BadHandle else HandleTable.get table h) ∧
         HandleTable.entries table ≡ₚ held ++ HandleTable.entries table')
  end.
Proof.
  destruct (endpoint c table ep Rights.WRITE) as [side|e] eqn:Hep; [|unfold send; by rewrite Hep].
  destruct (can_send_dec nb nh c table side bytes ts) as [Hc|Hc]; [right|left]; (split; [done|]).
  - by apply send_accepted.
  - destruct (send_refused nb nh c table ep bytes ts side Hep Hc) as (e & Hs & Hfull & Hp).
    exists e. split_and!; [done| |done]. intros He. specialize (Hfull He).
    pose proof (ewf_inbox _ _ _ (wf_end _ _ _ Hw (peer side))) as Hib. unfold queue.
    rewrite (Inbox.length_queue nb nh) by done. pose proof (Inbox.wf_len _ _ _ Hib).
    unfold Inbox.vacant, Inbox.is_full in Hfull. case_match eqn:E; [|done]. apply Nat.leb_le in E. lia.
Qed.

Lemma send_all_or_nothing_witness : ∃ c' table',
  send 4 1 example_channel example_table 1024 [7] [whole 1026] = Some (c', table', Ok tt) ∧
  queue c' B = [([7], [Entry.Build 9 Event Rights.ALL])] ∧
  HandleTable.get table' 1026 = Err Handle.BadHandle.
Proof.
  pose proof (send_all_or_nothing 4 1 example_channel example_table 1024 [7] [whole 1026]
    example_channel_wf example_table_wf ltac:(by repeat constructor)) as H.
  change (endpoint example_channel example_table 1024 Rights.WRITE) with (@Ok Side Error A) in H.
  destruct H as [[_ (e & E & _)]|[_ (c' & table' & es & held & E & _ & _ & _ & _ & Hq & _ & _ & _ & Hg & _)]].
  { vm_compute in E. discriminate E. }
  exists c', table'. split; [exact E|]. split; [|exact (Hg 1026 ltac:(by vm_compute))].
  vm_compute in E. injection E as <- <-. reflexivity.
Defined.

(** C24. a receive either changes nothing or delivers the oldest message whole. It succeeds
    exactly when the endpoint handle carries [READ], the endpoint is open with a message at
    the front that fits both buffers, and the table has a free slot for each handle. Then the
    bytes are at the start of the buffer, each entry is installed under a handle that was
    invalid before, in order, no other handle changes, and what the table gained is exactly
    what the message carried. An empty queue is [Empty] while the peer is open and
    [PeerClosed] after, never before the queue is drained. *)
Theorem receive_all_or_nothing nb nh c table ep bytes handles
    (Hw : wf nb nh c) (Ht : HandleTable.wf table) :
  match endpoint c table ep Rights.READ with
  | Err e => receive c table ep bytes handles = Some (c, table, bytes, handles, Err e)
  | Ok side =>
      (∃ e, receive c table ep bytes handles = Some (c, table, bytes, handles, Err e) ∧
         (∀ bs es rest, ¬ can_receive c table side (length bytes) (length handles) bs es rest) ∧
         (is_open c side = true → queue c side = [] →
            e = if is_open c (peer side) then Empty else PeerClosed) ∧
         (is_open c side = true → queue c side ≠ [] → e ≠ Empty ∧ e ≠ PeerClosed)) ∨
      (∃ bs es rest c' table' hs,
         can_receive c table side (length bytes) (length handles) bs es rest ∧
         receive c table ep bytes handles =
           Some (c', table', bs ++ drop (length bs) bytes, hs ++ drop (length hs) handles,
                 Ok {| r_bytes := length bs; r_handles := length es |}) ∧
         wf nb nh c' ∧ HandleTable.wf table' ∧
         queue c' side = rest ∧ queue c' (peer side) = queue c (peer side) ∧
         (∀ s, references c' s = references c s) ∧ (∀ s, id c' s = id c s) ∧
         Forall2 (λ h e, Handle.wf h ∧ HandleTable.get table' h = Ok e) hs es ∧ NoDup hs ∧
         Forall (λ h, HandleTable.get table h = Err Handle.BadHandle) hs ∧
         (∀ h, Handle.wf h → h ∉ hs → HandleTable.get table' h = HandleTable.get table h) ∧
         HandleTable.entries table' ≡ₚ es ++ HandleTable.entries table)
  end.
Proof.
  destruct (endpoint c table ep Rights.READ) as [side|e] eqn:Hep; [|unfold receive; by rewrite Hep].
  destruct (can_receive_dec c table side (length bytes) (length handles)) as [(bs & es & rest & Hc)|Hc].
  - right. destruct (receive_accepted nb nh c table ep bytes handles side bs es rest Hw Ht Hep Hc) as
      (c' & table' & hs & Hr). by exists bs, es, rest, c', table', hs.
  - left. destruct (receive_refused nb nh c table ep bytes handles side Hw Hep Hc) as (e & Hr & H1 & H2).
    by exists e.
Qed.

Lemma receive_all_or_nothing_witness : ∃ c1 table1 c2 table2 h,
  send 4 1 example_channel example_table 1024 [7] [whole 1026] = Some (c1, table1, Ok tt) ∧
  receive c1 table1 1025 [0; 0; 0] [0] =
    Some (c2, table2, [7; 0; 0], [h], Ok {| r_bytes := 1; r_handles := 1 |}) ∧
  HandleTable.get table2 h = Ok (Entry.Build 9 Event Rights.ALL).
Proof.
  destruct (send_accepted 4 1 example_channel example_table 1024 [7] [whole 1026] A) as
    (c1 & table1 & es & held & E & _ & _ & Hw & Ht & _).
  { apply example_channel_wf. } { apply example_table_wf. } { by repeat constructor. } { reflexivity. }
  { repeat split; simpl; try lia; repeat (constructor; try set_solver); eexists; by vm_compute. }
  pose proof (receive_all_or_nothing 4 1 c1 table1 1025 [0; 0; 0] [0] Hw Ht) as H.
  exists c1, table1. vm_compute in E. injection E as <- <-.
  destruct H as [(e & E & _)|(bs & es' & rest & c2 & table2 & hs & _ & E & _ & _ & _ & _ & _ & _ & H2 & _)].
  { vm_compute in E. discriminate E. }
  eexists _, _, _. split; [reflexivity|]. split; reflexivity.
Defined.

End Channel.
