(* ===== verification/IpcAccounting.v ===== *)
(** * Reference accounting of a channel

    [kernel/ipc/src/channel.rs] counts, in each endpoint, the references to it that exist
    anywhere: in a handle table, in a message of some other channel, or in the hands of code
    that received it from a [sink].  This file runs one channel beside any number of handle
    tables and shows that the count is exact, so that an endpoint closes with its last
    reference and not before. *)

From S2P Require Import Prelude KobjectRights KobjectObject KobjectHandle IpcInbox IpcChannel.
Local Open Scope Z_scope.

Module Accounting.

(** References in no table: entries [Channel::new] returned, entries a [sink] owns, entries
    that travel in messages of other channels. *)
Record world := { chan : Channel.t; tables : list HandleTable.t; loose : list Entry.t }.

(** Every entry that exists outside the channel's own queues. *)
Definition everything (w : world) : list Entry.t :=
  loose w ++ concat (HandleTable.entries <$> tables w).

(** How many of [l] name the channel endpoint [o]. *)
Definition naming (o : ObjectId) (l : list Entry.t) : nat :=
  length (filter (λ e, Entry.kind e = Channel ∧ Entry.object e = o) l).

Definition holders (w : world) (s : Channel.Side) : nat := naming (Channel.id (chan w) s) (everything w).

Definition put (w : world) (i : nat) (c : Channel.t) (table : HandleTable.t) (l : list Entry.t) : world :=
  {| chan := c; tables := <[i := table]> (tables w); loose := l |}.

Section Steps.
Context (nb nh : nat).

(** The steps a process, or the code that owns loose references, can take.  Only operations
    that bypass the accounting are left out: duplicating or closing an endpoint handle with
    the table's own operations, and forging an entry for an endpoint. *)
Inductive step (w : world) : world → Prop :=
| step_send i table ep bytes ts c' table' r :
    tables w !! i = Some table → Forall Handle.wf (Channel.handle <$> ts) →
    Channel.send nb nh (chan w) table ep bytes ts = Some (c', table', r) →
    step w (put w i c' table' (loose w))
| step_receive i table ep bytes hs c' table' bytes' hs' r :
    tables w !! i = Some table →
    Channel.receive (chan w) table ep bytes hs = Some (c', table', bytes', hs', r) →
    step w (put w i c' table' (loose w))
| step_duplicate i table ep m c' table' r :
    tables w !! i = Some table →
    Channel.duplicate (chan w) table ep m = Some (c', table', r) →
    step w (put w i c' table' (loose w))
| step_close i table ep c' table' sunk r :
    tables w !! i = Some table →
    Channel.close (chan w) table ep = Some (c', table', sunk, r) →
    step w (put w i c' table' (sunk ++ loose w))
| step_release k e s c' sunk r :
    loose w !! k = Some e → Channel.side_of_entry (chan w) e = Ok s →
    Channel.release (chan w) e = Some (c', sunk, r) →
    step w {| chan := c'; tables := tables w; loose := sunk ++ delete k (loose w) |}
| step_install i table k e table' h :
    tables w !! i = Some table → loose w !! k = Some e →
    HandleTable.insert table (Entry.object e) (Entry.kind e) (Entry.rights e) = Some (table', Ok h) →
    step w (put w i (chan w) table' (delete k (loose w)))
| step_take i table h e table' :
    tables w !! i = Some table → HandleTable.transfer_out table h = Some (table', Ok e) →
    step w (put w i (chan w) table' (e :: loose w))
| step_new_object i table e table' r :
    tables w !! i = Some table → Channel.is_endpoint (chan w) e = false →
    HandleTable.insert table (Entry.object e) (Entry.kind e) (Entry.rights e) = Some (table', r) →
    step w (put w i (chan w) table' (loose w))
| step_close_object i table h e table' :
    tables w !! i = Some table → HandleTable.close table h = Some (table', Ok e) →
    Channel.is_endpoint (chan w) e = false →
    step w (put w i (chan w) table' (loose w))
| step_drop k e :
    loose w !! k = Some e → Channel.is_endpoint (chan w) e = false →
    step w {| chan := chan w; tables := tables w; loose := delete k (loose w) |}.

(** ** The invariant *)

Record inv (w : world) : Prop := {
  inv_chan : Channel.wf nb nh (chan w);
  inv_tables : Forall HandleTable.wf (tables w);
  inv_count : ∀ s, Channel.references (chan w) s = Z.of_nat (holders w s);
}.

#[local] Instance naming_proper o : Proper ((≡ₚ) ==> (=)) (naming o).
Proof. intros l l' Hp. unfold naming. by rewrite Hp. Qed.

Lemma naming_app o l l' : naming o (l ++ l') = (naming o l + naming o l')%nat.
Proof. unfold naming. by rewrite filter_app, length_app. Qed.

Lemma naming_cons o e l :
  naming o (e :: l) = ((if decide (Entry.kind e = Channel ∧ Entry.object e = o) then 1 else 0) + naming o l)%nat.
Proof. unfold naming. rewrite filter_cons. by case_decide. Qed.

Lemma not_endpoint_naming c e s :
  Channel.id_a c ≠ Channel.id_b c → Channel.is_endpoint c e = false →
  ¬ (Entry.kind e = Channel ∧ Entry.object e = Channel.id c s).
Proof.
  intros Hne He [Hk Ho]. unfold Channel.is_endpoint in He. rewrite Hk, Ho, Channel.side_of_id in He by done.
  by rewrite !bool_decide_true in He.
Qed.

Lemma naming_none c l s :
  Channel.id_a c ≠ Channel.id_b c → Forall (λ e, Channel.is_endpoint c e = false) l →
  naming (Channel.id c s) l = 0%nat.
Proof.
  intros Hne Hl. induction Hl as [|e l He _ IH]; [done|].
  rewrite naming_cons, decide_False, IH by (by apply not_endpoint_naming). done.
Qed.

(** What a step on table [i] takes out of the world and puts into it. *)
Lemma naming_put o w i table c' table' l' gone come :
  tables w !! i = Some table →
  (∃ k, HandleTable.entries table ++ loose w ≡ₚ gone ++ k ∧ HandleTable.entries table' ++ l' ≡ₚ come ++ k) →
  (naming o (everything (put w i c' table' l')) + naming o gone = naming o (everything w) + naming o come)%nat.
Proof.
  intros Hi (k & H1 & H2). unfold everything. simpl.
  destruct (concat_insert_Permutation HandleTable.entries (tables w) i table table' Hi) as (r & -> & ->).
  assert (naming o (HandleTable.entries table) + naming o (loose w) = naming o gone + naming o k)%nat
    by (by rewrite <-!naming_app, H1).
  assert (naming o (HandleTable.entries table') + naming o l' = naming o come + naming o k)%nat
    by (by rewrite <-!naming_app, H2).
  rewrite !naming_app. lia.
Qed.

Lemma put_same w i table : tables w !! i = Some table → put w i (chan w) table (loose w) = w.
Proof. intros Hi. destruct w as [c ts l]. unfold put. simpl in *. by rewrite list_insert_id. Qed.

Lemma inv_put w i table c' table' l' gone come :
  inv w → tables w !! i = Some table → Channel.wf nb nh c' → HandleTable.wf table' →
  (∀ s, Channel.id c' s = Channel.id (chan w) s) →
  (∃ k, HandleTable.entries table ++ loose w ≡ₚ gone ++ k ∧ HandleTable.entries table' ++ l' ≡ₚ come ++ k) →
  (∀ s, Channel.references c' s + Z.of_nat (naming (Channel.id (chan w) s) gone) =
        Channel.references (chan w) s + Z.of_nat (naming (Channel.id (chan w) s) come)) →
  inv (put w i c' table' l').
Proof.
  intros [Hw Ht Hc] Hi Hw' Ht' Hid Hk Hr. split; simpl; [done|by apply Forall_insert|].
  intros s. unfold holders. simpl. rewrite Hid.
  pose proof (naming_put (Channel.id (chan w) s) w i table c' table' l' gone come Hi Hk).
  specialize (Hr s). specialize (Hc s). unfold holders in Hc. lia.
Qed.

(** The same, when nothing that moves is an endpoint of the channel. *)
Lemma inv_put_others w i table c' table' l' gone come :
  inv w → tables w !! i = Some table → Channel.wf nb nh c' → HandleTable.wf table' →
  (∀ s, Channel.id c' s = Channel.id (chan w) s) →
  (∀ s, Channel.references c' s = Channel.references (chan w) s) →
  (∃ k, HandleTable.entries table ++ loose w ≡ₚ gone ++ k ∧ HandleTable.entries table' ++ l' ≡ₚ come ++ k) →
  Forall (λ e, Channel.is_endpoint (chan w) e = false) gone →
  Forall (λ e, Channel.is_endpoint (chan w) e = false) come →
  inv (put w i c' table' l').
Proof.
  intros Hinv Hi Hw' Ht' Hid Hr Hk Hg Hc. pose proof (Channel.wf_ids _ _ _ (inv_chan _ Hinv)).
  eapply inv_put; try done. intros s. by rewrite !naming_none, Hr by done.
Qed.

(** ** Every step keeps it *)

Lemma inv_send w i table ep bytes ts c' table' r :
  inv w → tables w !! i = Some table → Forall Handle.wf (Channel.handle <$> ts) →
  Channel.send nb nh (chan w) table ep bytes ts = Some (c', table', r) →
  inv (put w i c' table' (loose w)).
Proof.
  intros Hinv Hi Hts Hs. pose proof (Forall_lookup_1 _ _ _ _ (inv_tables _ Hinv) Hi) as Ht.
  destruct (Channel.endpoint (chan w) table ep Rights.WRITE) as [side|e] eqn:Hep.
  2:{ unfold Channel.send in Hs. rewrite Hep in Hs. simplify_eq. by rewrite put_same. }
  destruct (Channel.can_send_dec nb nh (chan w) table side bytes ts) as [Hc|Hc].
  2:{ destruct (Channel.send_refused _ _ _ _ _ _ _ _ Hep Hc) as (e & E & _). simplify_eq. by rewrite put_same. }
  destruct (Channel.send_accepted nb nh _ _ _ _ _ _ (inv_chan _ Hinv) Ht Hts Hep Hc) as
    (c1 & t1 & es & held & E & _ & Hh & Hw' & Ht' & _ & _ & Hr & Hid & _ & Hp). simplify_eq.
  eapply inv_put_others with (gone := held) (come := []); try done.
  - exists (HandleTable.entries table' ++ loose w). split; [|done]. by rewrite Hp, (assoc_L (++)).
  - destruct Hc as (_ & _ & _ & _ & Hcy & _). clear -Hh Hcy.
    apply Forall_forall. intros e He. apply list_elem_of_lookup in He as [j Hj].
    destruct (Forall2_lookup_r _ _ _ _ _ Hh Hj) as (h & Hh' & Hg).
    rewrite list_lookup_fmap in Hh'. destruct (ts !! j) as [x|] eqn:Hx; [|done]. simplify_eq/=.
    rewrite Forall_lookup in Hcy. destruct (Hcy j x Hx) as (e' & Hg' & ?). congruence.
Qed.

Lemma inv_receive w i table ep bytes hs c' table' bytes' hs' r :
  inv w → tables w !! i = Some table →
  Channel.receive (chan w) table ep bytes hs = Some (c', table', bytes', hs', r) →
  inv (put w i c' table' (loose w)).
Proof.
  intros Hinv Hi Hs. pose proof (Forall_lookup_1 _ _ _ _ (inv_tables _ Hinv) Hi) as Ht.
  pose proof (inv_chan _ Hinv) as Hw.
  destruct (Channel.endpoint (chan w) table ep Rights.READ) as [side|e] eqn:Hep.
  2:{ unfold Channel.receive in Hs. rewrite Hep in Hs. simplify_eq. by rewrite put_same. }
  destruct (Channel.can_receive_dec (chan w) table side (length bytes) (length hs)) as [(bs & es & rest & Hc)|Hc].
  2:{ destruct (Channel.receive_refused nb nh _ _ _ _ _ _ Hw Hep Hc) as (e & E & _). simplify_eq. by rewrite put_same. }
  destruct (Channel.receive_accepted nb nh _ _ _ _ _ _ _ _ _ Hw Ht Hep Hc) as
    (c1 & t1 & hs1 & E & Hw' & Ht' & _ & _ & Hr & Hid & _ & _ & _ & _ & Hp). simplify_eq.
  eapply inv_put_others with (gone := []) (come := es); try done.
  - exists (HandleTable.entries table ++ loose w). split; [done|]. by rewrite Hp, (assoc_L (++)).
  - destruct Hc as (_ & Hq & _). apply Forall_forall. intros e He.
    eapply (Channel.wf_acyclic _ _ _ Hw side); [|done]. rewrite Hq. by left.
Qed.

(** A handle that resolves to [side] is an entry for that endpoint. *)
Lemma endpoint_Ok c table ep required side :
  Channel.endpoint c table ep required = Ok side →
  ∃ e, HandleTable.get table ep = Ok e ∧ Entry.kind e = Channel ∧ Entry.object e = Channel.id c side.
Proof.
  unfold Channel.endpoint, HandleTable.get_checked.
  destruct (HandleTable.get table ep) as [e|err]; [simpl|done].
  case_decide; [|done]. destruct (negb (Rights.contains (Entry.rights e) required)); [done|]. simpl. intros Hs%ok_or_Ok.
  exists e. split_and!; [done..|]. by apply Channel.side_of_Some.
Qed.

Lemma naming_one c e side s l :
  Channel.id_a c ≠ Channel.id_b c → Entry.kind e = Channel → Entry.object e = Channel.id c side →
  Z.of_nat (naming (Channel.id c s) (e :: l)) =
  (if decide (s = side) then 1 else 0) + Z.of_nat (naming (Channel.id c s) l).
Proof.
  intros Hne Hk Ho. rewrite naming_cons. case_decide as H1; case_decide as H2; try lia; exfalso.
  - apply H2. destruct H1 as [_ H1]. rewrite Ho in H1. by destruct s, side.
  - apply H1. by subst.
Qed.

Lemma duplicate_effect c table ep m c' table' r :
  Channel.wf nb nh c → HandleTable.wf table → Channel.duplicate c table ep m = Some (c', table', r) →
  (c' = c ∧ table' = table) ∨
  ∃ side e, Channel.wf nb nh c' ∧ HandleTable.wf table' ∧ (∀ s, Channel.id c' s = Channel.id c s) ∧
    (∀ s, Channel.queue c' s = Channel.queue c s) ∧ Channel.is_open c side = true ∧
    Entry.kind e = Channel ∧ Entry.object e = Channel.id c side ∧
    HandleTable.entries table' ≡ₚ e :: HandleTable.entries table ∧
    ∀ s, Channel.references c' s = Channel.references c s + if decide (s = side) then 1 else 0.
Proof.
  intros Hw Ht Hs. unfold Channel.duplicate in Hs.
  destruct (Channel.endpoint c table ep Rights.DUPLICATE) as [side|e] eqn:Hep; [|by simplify_eq; left].
  destruct (Channel.open (Channel.end_of c side)) eqn:Ho; simpl in Hs; [|by simplify_eq; left].
  destruct (checked_add 32 (Channel.refs (Channel.end_of c side)) 1) as [refs'|] eqn:Ha; [|by simplify_eq; left].
  apply endpoint_Ok in Hep as (e & Hg & Hk & Hobj). unfold HandleTable.duplicate in Hs. rewrite Hg in Hs.
  case_match; [simpl in Hs; simplify_eq; by left|].
  destruct (HandleTable.insert _ _ _ _) as [[t1 res]|] eqn:Hins; [|done]. simpl in Hs.
  apply HandleTable.insert_entries in Hins as [Ht' Hp]; [|done].
  destruct res as [dup|err]; simplify_eq; [|by left]. right.
  pose proof (Channel.wf_end _ _ _ Hw side) as [Hib Hr Hop]. apply checked_add_Some in Ha as [-> Hr'].
  eexists side, _. split_and!; [|done| | |done| | |exact Hp|]; try done.
  - apply Channel.wf_set_end; [done| |intros; by eapply (Channel.wf_acyclic _ _ _ Hw side)].
    split; simpl; [done|destruct Hr; split; lia|]. destruct (Z.eqb_spec (Channel.refs (Channel.end_of c side) + 1) 0); [|done].
    destruct Hr. lia.
  - intros s. apply Channel.id_set_end.
  - intros s. rewrite Channel.queue_set_end. case_decide; [by subst|done].
  - intros s. unfold Channel.references. rewrite Channel.end_of_set_end. case_decide; [subst; simpl; lia|lia].
Qed.

Lemma inv_duplicate w i table ep m c' table' r :
  inv w → tables w !! i = Some table → Channel.duplicate (chan w) table ep m = Some (c', table', r) →
  inv (put w i c' table' (loose w)).
Proof.
  intros Hinv Hi Hs. pose proof (Forall_lookup_1 _ _ _ _ (inv_tables _ Hinv) Hi) as Ht.
  pose proof (inv_chan _ Hinv) as Hw. pose proof (Channel.wf_ids _ _ _ Hw) as Hne.
  destruct (duplicate_effect _ _ _ _ _ _ _ Hw Ht Hs) as [[-> ->]|(side & e & Hw' & Ht' & Hid & _ & _ & Hk & Hobj & Hp & Hr)];
    [by rewrite put_same|].
  eapply inv_put with (gone := []) (come := [e]); try done.
  - exists (HandleTable.entries table ++ loose w). split; [done|]. by rewrite Hp.
  - intros s. rewrite (naming_one _ _ side), Hr by done. case_decide; simpl; lia.
Qed.

Lemma release_counts c e side c' sunk r :
  Channel.wf nb nh c → Channel.side_of_entry c e = Ok side → 0 < Channel.references c side →
  Channel.release c e = Some (c', sunk, r) →
  r = Ok tt ∧ Channel.wf nb nh c' ∧ (∀ s, Channel.id c' s = Channel.id c s) ∧
  (∀ s, Channel.references c' s + (if decide (s = side) then 1 else 0) = Channel.references c s) ∧
  Forall (λ e, Channel.is_endpoint c e = false) sunk.
Proof.
  intros Hw Hs Hr E. unfold Channel.references in *.
  destruct (Channel.release_effect nb nh c e side Hw Hs) as (c1 & sk & r1 & E1 & Hw' & _ & Hp & Hid & Hx).
  rewrite E in E1. simplify_eq.
  destruct (Z.eqb_spec (Channel.refs (Channel.end_of c side)) 0); [lia|]. destruct Hx as (-> & Hr' & Hx).
  split_and!; try done.
  - intros s. case_decide; [subst; lia|].
    assert (s = Channel.peer side) as -> by (by destruct s, side). rewrite Hp. lia.
  - case_match; destruct Hx as (_ & -> & _); [|constructor]. apply Forall_concat, Forall_fmap, Forall_forall.
    intros [bs es] Hq. apply Forall_forall. intros x Hin. by eapply (Channel.wf_acyclic _ _ _ Hw side).
Qed.

(** An endpoint with an entry outside the queues has a reference. *)
Lemma held_references w e side :
  inv w → e ∈ everything w → Entry.kind e = Channel → Entry.object e = Channel.id (chan w) side →
  0 < Channel.references (chan w) side.
Proof.
  intros Hinv He Hk Ho. rewrite (inv_count _ Hinv). unfold holders.
  apply elem_of_Permutation in He as [l Hl]. rewrite Hl, (naming_one _ _ side) by (done || apply (Channel.wf_ids nb nh), Hinv).
  rewrite decide_True by done. lia.
Qed.

Lemma everything_table w i table h e :
  tables w !! i = Some table → HandleTable.get table h = Ok e → e ∈ everything w.
Proof.
  intros Hi Hg. unfold everything. apply elem_of_app. right. apply list_elem_of_In, in_concat.
  exists (HandleTable.entries table). rewrite <-!list_elem_of_In. split; [|by eapply HandleTable.get_entries].
  apply list_elem_of_fmap. eauto using list_elem_of_lookup_2.
Qed.

(** What closing a handle that resolves to [side] does to the table and the channel. *)
Lemma close_counts w i table ep side c' table' sunk r :
  inv w → tables w !! i = Some table → Channel.endpoint (chan w) table ep Rights.empty = Ok side →
  Channel.close (chan w) table ep = Some (c', table', sunk, r) →
  ∃ e, HandleTable.get table ep = Ok e ∧ Channel.side_of_entry (chan w) e = Ok side ∧
    Channel.release (chan w) e = Some (c', sunk, r) ∧ HandleTable.wf table' ∧
    HandleTable.close table ep = Some (table', Ok e) ∧
    HandleTable.entries table ≡ₚ e :: HandleTable.entries table' ∧ 0 < Channel.references (chan w) side.
Proof.
  intros Hinv Hi Hep Hs. pose proof (Forall_lookup_1 _ _ _ _ (inv_tables _ Hinv) Hi) as Ht.
  pose proof (Channel.wf_ids _ _ _ (inv_chan _ Hinv)) as Hne.
  unfold Channel.close in Hs. rewrite Hep in Hs.
  apply endpoint_Ok in Hep as (e & Hg & Hk & Ho).
  destruct (HandleTable.close_Ok table ep e Ht Hg) as (s & _ & _ & _ & Hc). rewrite Hc in Hs. simpl in Hs.
  pose proof (HandleTable.close_entries _ _ _ _ Ht Hc) as [Ht' [_ Hp]].
  destruct (Channel.release (chan w) e) as [[[c1 sk] r1]|] eqn:Hrel; [|done]. simpl in Hs. simplify_eq.
  exists e. split_and!; try done.
  - unfold Channel.side_of_entry. rewrite decide_True, Ho, Channel.side_of_id by done. done.
  - eapply held_references; [done|by eapply everything_table|done..].
Qed.

Lemma inv_close w i table ep c' table' sunk r :
  inv w → tables w !! i = Some table → Channel.close (chan w) table ep = Some (c', table', sunk, r) →
  inv (put w i c' table' (sunk ++ loose w)).
Proof.
  intros Hinv Hi Hs. pose proof (inv_chan _ Hinv) as Hw. pose proof (Channel.wf_ids _ _ _ Hw) as Hne.
  destruct (Channel.endpoint (chan w) table ep Rights.empty) as [side|err] eqn:Hep.
  2:{ unfold Channel.close in Hs. rewrite Hep in Hs. simplify_eq. by rewrite put_same. }
  destruct (close_counts w i table ep side c' table' sunk r Hinv Hi Hep Hs) as
    (e & Hg & Hse & Hrel & Ht' & _ & Hp & Hpos).
  pose proof (Channel.side_of_entry_Ok _ _ _ Hse) as [Hk Ho].
  destruct (release_counts _ _ _ _ _ _ Hw Hse Hpos Hrel) as (_ & Hw' & Hid & Hr & Hsk).
  eapply inv_put with (gone := [e]) (come := sunk); try done.
  - exists (HandleTable.entries table' ++ loose w). rewrite Hp. split; [done|]. solve_Permutation.
  - intros s. rewrite (naming_one _ _ side), (naming_none _ sunk) by done.
    change (naming (Channel.id (chan w) s) []) with 0%nat. rewrite <-(Hr s). lia.
Qed.

Lemma inv_loose w c' l' k e come :
  inv w → loose w !! k = Some e → l' = come ++ delete k (loose w) → Channel.wf nb nh c' →
  (∀ s, Channel.id c' s = Channel.id (chan w) s) →
  (∀ s, Channel.references c' s + Z.of_nat (naming (Channel.id (chan w) s) [e]) =
        Channel.references (chan w) s + Z.of_nat (naming (Channel.id (chan w) s) come)) →
  inv {| chan := c'; tables := tables w; loose := l' |}.
Proof.
  intros [Hw Ht Hc] Hk -> Hw' Hid Hr. split; [done..|]. intros s. simpl.
  specialize (Hr s). specialize (Hc s). unfold holders, everything in *. simpl. rewrite Hid.
  assert (naming (Channel.id (chan w) s) (loose w) =
    naming (Channel.id (chan w) s) [e] + naming (Channel.id (chan w) s) (delete k (loose w)))%nat
    by (rewrite (delete_Permutation _ _ _ Hk) at 1; apply (naming_app _ [e])).
  rewrite !naming_app in *. lia.
Qed.

Lemma inv_release w k e s c' sunk r :
  inv w → loose w !! k = Some e → Channel.side_of_entry (chan w) e = Ok s →
  Channel.release (chan w) e = Some (c', sunk, r) →
  inv {| chan := c'; tables := tables w; loose := sunk ++ delete k (loose w) |}.
Proof.
  intros Hinv Hk Hse Hrel. pose proof (inv_chan _ Hinv) as Hw. pose proof (Channel.wf_ids _ _ _ Hw) as Hne.
  pose proof (Channel.side_of_entry_Ok _ _ _ Hse) as [Hkind Ho].
  assert (0 < Channel.references (chan w) s) as Hpos.
  { apply (held_references w e s); try done. unfold everything. apply elem_of_app. left.
    by eapply list_elem_of_lookup_2. }
  destruct (release_counts _ _ _ _ _ _ Hw Hse Hpos Hrel) as (_ & Hw' & Hid & Hr & Hsk).
  eapply inv_loose; try done. intros s'. rewrite (naming_one _ _ s), (naming_none _ sunk) by done.
  change (naming (Channel.id (chan w) s') []) with 0%nat. rewrite <-(Hr s'). lia.
Qed.

(** Moving an entry between a table and the loose references. *)
Lemma inv_move w i table table' l' k :
  inv w → tables w !! i = Some table → HandleTable.wf table' →
  HandleTable.entries table ++ loose w ≡ₚ k → HandleTable.entries table' ++ l' ≡ₚ k →
  inv (put w i (chan w) table' l').
Proof.
  intros Hinv Hi Ht' H1 H2. eapply inv_put with (gone := []) (come := []); eauto using inv_chan.
Qed.

Lemma accounting_step w w' : inv w → step w w' → inv w'.
Proof.
  intros Hinv Hs. pose proof (inv_chan _ Hinv) as Hw. pose proof (Channel.wf_ids _ _ _ Hw) as Hne.
  pose proof (inv_tables _ Hinv) as Hts. rewrite Forall_lookup in Hts. destruct Hs as
    [i table ep bytes ts c' table' r Hi Hh E | i table ep bytes hs c' table' bytes' hs' r Hi E
    | i table ep m c' table' r Hi E | i table ep c' table' sunk r Hi E | k e s c' sunk r Hk Hse E
    | i table k e table' h Hi Hk E | i table h e table' Hi E | i table e table' r Hi He E
    | i table h e table' Hi E He | k e Hk He].
  - by eapply inv_send.
  - by eapply inv_receive.
  - by eapply inv_duplicate.
  - by eapply inv_close.
  - by eapply inv_release.
  - apply HandleTable.insert_entries in E as [Ht' Hp]; [|by eauto].
    eapply inv_move; [done..|reflexivity|]. rewrite Hp. destruct e.
    rewrite (delete_Permutation _ _ _ Hk) at 2. simpl. solve_Permutation.
  - unfold HandleTable.transfer_out in E. destruct (HandleTable.get table h); [|done]. case_match; [done|].
    apply HandleTable.close_entries in E as [Ht' [_ Hp]]; [|by eauto].
    eapply inv_move; [done..|reflexivity|]. rewrite Hp. simpl. solve_Permutation.
  - apply HandleTable.insert_entries in E as [Ht' Hp]; [|by eauto].
    destruct r; [|subst; by rewrite put_same]. destruct e as [o kd rt].
    eapply inv_put_others with (gone := []) (come := [Entry.Build o kd rt]); try done; [|by constructor].
    exists (HandleTable.entries table ++ loose w). split; [done|]. by rewrite Hp.
  - apply HandleTable.close_entries in E as [Ht' [_ Hp]]; [|by eauto].
    eapply inv_put_others with (gone := [e]) (come := []); try done; [|by constructor].
    exists (HandleTable.entries table' ++ loose w). by rewrite Hp.
  - eapply inv_loose with (come := []); try done. intros s.
    rewrite (naming_none (chan w) [e]) by (done || by constructor). done.
Qed.

Lemma accounting_steps w w' : inv w → rtc step w w' → inv w'.
Proof. induction 2; eauto using accounting_step. Qed.

(** A closed endpoint stays closed and nothing more is queued for it. *)
Definition shut (w : world) (s : Channel.Side) : Prop :=
  Channel.is_open (chan w) s = false ∧ Channel.queue (chan w) s = [].

Lemma is_open_refs c s : Channel.wf nb nh c → Channel.is_open c s = negb (Channel.references c s =? 0).
Proof. intros Hw. apply (Channel.wf_end _ _ _ Hw s). Qed.

Lemma send_shut c table ep bytes ts c' table' r s :
  Channel.wf nb nh c → HandleTable.wf table → Forall Handle.wf (Channel.handle <$> ts) →
  Channel.send nb nh c table ep bytes ts = Some (c', table', r) →
  Channel.is_open c s = false → Channel.queue c s = [] →
  Channel.is_open c' s = false ∧ Channel.queue c' s = [].
Proof.
  intros Hw Ht Hts Hs Ho Hq.
  destruct (Channel.endpoint c table ep Rights.WRITE) as [side|e] eqn:Hep.
  2:{ unfold Channel.send in Hs. rewrite Hep in Hs. by simplify_eq. }
  destruct (Channel.can_send_dec nb nh c table side bytes ts) as [Hc|Hc].
  2:{ destruct (Channel.send_refused _ _ _ _ _ _ _ _ Hep Hc) as (e & E & _). by simplify_eq. }
  exfalso. destruct Hc as (_ & _ & _ & _ & _ & H1 & H2 & _). unfold Channel.is_open in Ho.
  destruct s, side; simpl in *; congruence.
Qed.

Lemma receive_shut c table ep bytes hs c' table' bytes' hs' r s :
  Channel.wf nb nh c → HandleTable.wf table →
  Channel.receive c table ep bytes hs = Some (c', table', bytes', hs', r) →
  Channel.is_open c s = false → Channel.queue c s = [] →
  Channel.is_open c' s = false ∧ Channel.queue c' s = [].
Proof.
  intros Hw Ht Hs Ho Hq.
  destruct (Channel.endpoint c table ep Rights.READ) as [side|e] eqn:Hep.
  2:{ unfold Channel.receive in Hs. rewrite Hep in Hs. by simplify_eq. }
  destruct (Channel.can_receive_dec c table side (length bytes) (length hs)) as [(bs & es & rest & Hc)|Hc].
  2:{ destruct (Channel.receive_refused nb nh _ _ _ _ _ _ Hw Hep Hc) as (e & E & _). by simplify_eq. }
  destruct (Channel.receive_accepted nb nh _ _ _ _ _ _ _ _ _ Hw Ht Hep Hc) as
    (c1 & t1 & hs1 & E & Hw' & _ & _ & Hqp & Hr & _). simplify_eq.
  destruct Hc as (_ & Hq' & _). assert (s = Channel.peer side) as ->.
  { destruct (decide (s = side)); [congruence|]. by destruct s, side. }
  rewrite Hqp, is_open_refs in * by done. unfold Channel.references in *. by rewrite Hr.
Qed.

Lemma duplicate_shut c table ep m c' table' r s :
  Channel.duplicate c table ep m = Some (c', table', r) →
  Channel.is_open c s = false → Channel.queue c s = [] →
  Channel.is_open c' s = false ∧ Channel.queue c' s = [].
Proof.
  intros Hs Ho Hq. unfold Channel.duplicate in Hs.
  destruct (Channel.endpoint c table ep Rights.DUPLICATE) as [side|e]; [|by simplify_eq].
  destruct (Channel.open (Channel.end_of c side)) eqn:Hop; simpl in Hs; [|by simplify_eq].
  destruct (checked_add _ _ _); [|by simplify_eq].
  destruct (HandleTable.duplicate table ep m) as [[t1 [dup|err]]|]; simpl in Hs; simplify_eq; try done.
  assert (s ≠ side) by (intros ->; unfold Channel.is_open in Ho; congruence).
  unfold Channel.is_open. rewrite Channel.queue_set_end, Channel.end_of_set_end, !decide_False by done. done.
Qed.

Lemma release_shut c e side c' sunk r s :
  Channel.wf nb nh c → Channel.side_of_entry c e = Ok side → Channel.release c e = Some (c', sunk, r) →
  Channel.is_open c s = false → Channel.queue c s = [] →
  Channel.is_open c' s = false ∧ Channel.queue c' s = [].
Proof.
  intros Hw Hse Hs Ho Hq. unfold Channel.is_open in *.
  destruct (Channel.release_effect nb nh c e side Hw Hse) as (c1 & sk & r1 & E1 & _ & Hqp & Hp & _ & Hx).
  rewrite Hs in E1. simplify_eq. destruct (decide (s = side)) as [->|Hne].
  - repeat case_match; destruct_and!; subst; try done; split; congruence.
  - assert (s = Channel.peer side) as -> by (by destruct s, side). by rewrite Hp, Hqp.
Qed.

Lemma step_shut w w' s : inv w → step w w' → shut w s → shut w' s.
Proof.
  intros Hinv Hs [Ho Hq]. pose proof (inv_chan _ Hinv) as Hw.
  pose proof (inv_tables _ Hinv) as Hts. rewrite Forall_lookup in Hts. unfold shut.
  destruct Hs; simpl; try done; eauto using send_shut, receive_shut, duplicate_shut, release_shut.
  destruct (Channel.endpoint (chan w) table ep Rights.empty) as [side|err] eqn:Hep.
  2:{ unfold Channel.close in *. rewrite Hep in *. by simplify_eq. }
  edestruct close_counts as (e & _ & Hse & Hrel & _); eauto using release_shut.
Qed.

(** A handle that resolves to an endpoint finds it open. *)
Lemma endpoint_open w i table ep required side :
  inv w → tables w !! i = Some table → Channel.endpoint (chan w) table ep required = Ok side →
  Channel.is_open (chan w) side = true ∧ 0 < Channel.references (chan w) side.
Proof.
  intros Hinv Hi Hep. apply endpoint_Ok in Hep as (e & Hg & Hk & Ho).
  assert (0 < Channel.references (chan w) side) as Hpos
    by (eapply held_references; [done|by eapply everything_table|done..]).
  split; [|done]. rewrite is_open_refs by apply Hinv.
  destruct (Z.eqb_spec (Channel.references (chan w) side) 0); [lia|done].
Qed.

Lemma close_last w i table ep side :
  inv w → tables w !! i = Some table → Channel.endpoint (chan w) table ep Rights.empty = Ok side →
  Channel.references (chan w) side = 1 →
  ∃ c' table' sunk e s, Channel.close (chan w) table ep = Some (c', table', sunk, Ok tt) ∧
    sunk = concat (snd <$> Channel.queue (chan w) side) ∧
    Channel.queue c' (Channel.peer side) = Channel.queue (chan w) (Channel.peer side) ∧
    HandleTable.slots table !! Handle.index ep = Some s ∧
    HandleTable.generation s = Handle.generation ep ∧ HandleTable.entry s = Some e ∧
    table' = HandleTable.vacated table (Handle.index ep) s ∧
    shut (put w i c' table' (sunk ++ loose w)) side.
Proof.
  intros Hinv Hi Hep Hlast. pose proof (inv_chan _ Hinv) as Hw.
  pose proof (Forall_lookup_1 _ _ _ _ (inv_tables _ Hinv) Hi) as Ht.
  unfold Channel.close. rewrite Hep. apply endpoint_Ok in Hep as (e & Hg & Hk & Ho).
  destruct (HandleTable.close_Ok table ep e Ht Hg) as (s & Hs & Hgen & Hent & ->). simpl.
  assert (Channel.side_of_entry (chan w) e = Ok side) as Hse.
  { unfold Channel.side_of_entry. by rewrite decide_True, Ho, Channel.side_of_id by (done || apply Hw). }
  destruct (Channel.release_effect nb nh _ e side Hw Hse) as (c' & sunk & r & -> & _ & Hqp & _ & _ & Hx).
  unfold Channel.references in Hlast. rewrite Hlast in Hx. simpl in Hx. destruct Hx as (-> & _ & Hop & -> & Hq).
  by exists c', (HandleTable.vacated table (Handle.index ep) s), (concat (snd <$> Channel.queue (chan w) side)), e, s.
Qed.

Lemma steps_shut w w' s : inv w → rtc step w w' → shut w s → inv w' ∧ shut w' s.
Proof. intros Hi Hr. revert Hi. induction Hr; eauto using accounting_step, step_shut. Qed.

(** ** A new channel *)

Context {S : Type} `{IdSourceOk S}.

Lemma inv_new D (ids ids' : S) rights c ea eb ts :
  2 ≤ ids_left ids → Channel.new D nb nh ids rights = Some (c, (ea, eb), ids') →
  Forall HandleTable.wf ts →
  Forall (λ e, Channel.is_endpoint c e = false) (concat (HandleTable.entries <$> ts)) →
  inv {| chan := c; tables := ts; loose := [ea; eb] |}.
Proof.
  intros Hids Hn Hts Hf. pose proof (ids_distinct ids 2 Hids) as Hd. unfold Channel.new in Hn.
  simpl in Hd. destruct (next_id ids) as [a ids1]. destruct (next_id ids1) as [b ids2].
  destruct (Inbox.new D nb nh) as [ib|] eqn:Hib; [|done]. simpl in Hn. simplify_eq.
  apply Inbox.inbox_wf_new in Hib as (Hwi & Hq & _).
  assert (a ≠ b) as Hab by (apply NoDup_cons in Hd as [Hd _]; set_solver).
  split; simpl; [|done|].
  - split; simpl; [done| |].
    + by intros [].
    + intros [] bs es e; unfold Channel.queue; simpl; rewrite Hq; intros ?%elem_of_nil; done.
  - intros s. unfold holders, everything. cbn [chan loose tables].
    rewrite naming_app, (naming_none _ (concat _)) by done. rewrite !naming_cons.
    destruct s; simpl; repeat case_decide; naive_solver.
Qed.

End Steps.

(** C4. the reference counts are exact. From a new channel with its two entries, whatever
    sequence of sends, receives, duplications, closes and releases runs on it from any number
    of tables, with endpoint references moved through tables, sinks and other channels in any
    way, the count of each endpoint is the number of references to it that exist, the endpoint
    is open exactly while there is one, and a handle that resolves to an endpoint always finds
    it open with a reference to give back: no send or receive sees [Closed] and no close
    [NotHeld]. The channel stays well formed: no message carries an endpoint of its own
    channel. *)
Theorem references_count_handles {S} `{IdSourceOk S} (D nb nh : nat) (ids ids' : S) rights c ea eb ts w
    (Hids : 2 ≤ ids_left ids) (Hn : Channel.new D nb nh ids rights = Some (c, (ea, eb), ids'))
    (Hts : Forall HandleTable.wf ts)
    (Hfresh : Forall (λ e, Channel.is_endpoint c e = false) (concat (HandleTable.entries <$> ts)))
    (Hr : rtc (step nb nh) {| chan := c; tables := ts; loose := [ea; eb] |} w) :
  Channel.wf nb nh (chan w) ∧ Forall HandleTable.wf (tables w) ∧
  (∀ s, Channel.references (chan w) s = Z.of_nat (holders w s)) ∧
  (∀ s, Channel.is_open (chan w) s = negb (holders w s =? 0)%nat) ∧
  (∀ i table ep required side, tables w !! i = Some table →
     Channel.endpoint (chan w) table ep required = Ok side →
     Channel.is_open (chan w) side = true ∧ 0 < Channel.references (chan w) side).
Proof.
  assert (inv nb nh w) as Hinv by (eapply accounting_steps; [by eapply inv_new|done]).
  assert (∀ s, Channel.is_open (chan w) s = negb (holders w s =? 0)%nat) as Hopen.
  { intros s. rewrite (is_open_refs nb nh), (inv_count nb nh) by (done || apply Hinv).
    destruct (Z.eqb_spec (Z.of_nat (holders w s)) 0), (Nat.eqb_spec (holders w s) 0); lia || done. }
  split_and!; [apply Hinv..|done|]. intros. by eapply endpoint_open.
Qed.

Definition empty_table : HandleTable.t :=
  {| HandleTable.slots := [Channel.example_slot None]; HandleTable.live := 0 |}.

Lemma empty_table_wf : HandleTable.wf empty_table.
Proof. split; [vm_compute; lia| |reflexivity]. repeat constructor; simpl; try done; by exists 1. Qed.

Lemma references_count_handles_witness : ∃ w,
  rtc (step 4 1) {| chan := Channel.example_channel; tables := [empty_table];
    loose := [Entry.Build 1 Channel Channel.ENDPOINT_RIGHTS; Entry.Build 2 Channel Channel.ENDPOINT_RIGHTS] |} w ∧
  HandleTable.len <$> tables w = [1%nat] ∧
  Channel.references (chan w) Channel.A = Z.of_nat (holders w Channel.A).
Proof.
  eassert (rtc (step 4 1) _ _) as H.
  { apply rtc_once. eapply (step_install 4 1 {| chan := Channel.example_channel; tables := [empty_table];
      loose := [Entry.Build 1 Channel Channel.ENDPOINT_RIGHTS; Entry.Build 2 Channel Channel.ENDPOINT_RIGHTS] |}
      0 empty_table 0 (Entry.Build 1 Channel Channel.ENDPOINT_RIGHTS)); reflexivity. }
  eexists. split; [exact H|]. split; [reflexivity|].
  refine (proj1 (proj2 (proj2 (references_count_handles 2 4 1 LockedIds_new {| locked_next := 3 |}
    Channel.ENDPOINT_RIGHTS _ _ _ _ _ _ Channel.example_channel_new _ _ H))) Channel.A).
  - vm_compute. discriminate.
  - constructor; [apply empty_table_wf|constructor].
  - constructor.
Defined.

(** C25. closing the last handle closes the endpoint, for good. With one reference left,
    [close] takes exactly that handle out of the table, closes the endpoint and gives the sink
    every entry of every message queued there, once and in order, leaving the peer's end and
    its queue alone. Whatever runs afterwards, the endpoint stays closed, its queue stays
    empty, a send from the peer is refused and changes nothing, and a peer that has drained
    its own queue reads [PeerClosed]. *)
Theorem last_close_shuts_endpoint nb nh w i table ep side
    (Hinv : inv nb nh w) (Hep : Handle.wf ep) (Hi : tables w !! i = Some table)
    (Hside : Channel.endpoint (chan w) table ep Rights.empty = Ok side)
    (Hlast : Channel.references (chan w) side = 1) :
  ∃ c' table' sunk, Channel.close (chan w) table ep = Some (c', table', sunk, Ok tt) ∧
    sunk = concat (snd <$> Channel.queue (chan w) side) ∧
    Channel.queue c' (Channel.peer side) = Channel.queue (chan w) (Channel.peer side) ∧
    (∀ h, Handle.wf h → HandleTable.get table' h =
       if decide (h = ep) then Err Handle.BadHandle else HandleTable.get table h) ∧
    ∀ w', rtc (step nb nh) (put w i c' table' (sunk ++ loose w)) w' →
      shut w' side ∧
      (∀ tb h bytes ts, HandleTable.wf tb → Forall Handle.wf (Channel.handle <$> ts) →
         Channel.endpoint (chan w') tb h Rights.WRITE = Ok (Channel.peer side) →
         ∃ e, Channel.send nb nh (chan w') tb h bytes ts = Some (chan w', tb, Err e)) ∧
      (∀ j tb h bytes hs, tables w' !! j = Some tb →
         Channel.endpoint (chan w') tb h Rights.READ = Ok (Channel.peer side) →
         Channel.queue (chan w') (Channel.peer side) = [] →
         Channel.receive (chan w') tb h bytes hs = Some (chan w', tb, bytes, hs, Err Channel.PeerClosed)).
Proof.
  pose proof (inv_chan _ _ _ Hinv) as Hw. pose proof (Forall_lookup_1 _ _ _ _ (inv_tables _ _ _ Hinv) Hi) as Ht.
  pose proof (Channel.wf_ids _ _ _ Hw) as Hne.
  destruct (close_last nb nh w i table ep side Hinv Hi Hside Hlast) as
    (c' & table' & sunk & e & s & Hc & Hsk & Hqp & Hs & Hgen & Hent & -> & Hsh).
  exists c', (HandleTable.vacated table (Handle.index ep) s), sunk. split_and!; try done.
  { intros h Hh. by apply (HandleTable.get_vacated table ep s e). }
  intros w' Hr. destruct (steps_shut nb nh _ _ side (accounting_step _ _ _ _ Hinv (step_close _ _ _ _ _ _ _ _ _ _ Hi Hc)) Hr Hsh)
    as [Hinv' [Ho Hq]].
  split_and!; [done..| |].
  - intros tb h bytes ts Htb Hts Hwr. destruct (Channel.send_refused nb nh _ _ _ bytes ts _ Hwr) as (x & Hx & _); [|eauto].
    intros (_ & _ & _ & _ & _ & _ & Hp & _). unfold Channel.is_open in Ho. destruct side; simpl in *; congruence.
  - intros j tb h bytes hs Hj Hrd Hqe.
    destruct (Channel.receive_refused nb nh _ _ _ bytes hs _ (inv_chan _ _ _ Hinv') Hrd) as (x & Hx & Hcl & _).
    { intros bs es rest (_ & Hqq & _). congruence. }
    rewrite Hx, Hcl; [|by eapply endpoint_open|done].
    unfold Channel.is_open in Ho. destruct side; simpl in *; by rewrite Ho.
Qed.

Definition example_world : world :=
  {| chan := Channel.example_channel; tables := [Channel.example_table]; loose := [] |}.

Lemma example_world_inv : inv 4 1 example_world.
Proof.
  split; [apply Channel.example_channel_wf|constructor; [apply Channel.example_table_wf|constructor]|].
  intros []; reflexivity.
Qed.

Lemma last_close_shuts_endpoint_witness : ∃ c' table' sunk,
  Channel.close Channel.example_channel Channel.example_table 1024 = Some (c', table', sunk, Ok tt) ∧
  HandleTable.get table' 1024 = Err Handle.BadHandle ∧ Channel.is_open c' Channel.A = false.
Proof.
  destruct (last_close_shuts_endpoint 4 1 example_world 0 Channel.example_table 1024 Channel.A
    example_world_inv ltac:(by vm_compute) eq_refl eq_refl eq_refl) as
    (c' & table' & sunk & Hc & _ & _ & Hg & Hs).
  exists c', table', sunk. split; [exact Hc|]. split; [exact (Hg 1024 ltac:(by vm_compute))|].
  exact (proj1 (proj1 (Hs _ (rtc_refl _ _)))).
Defined.

End Accounting.
