(* ===== verification/IpcSet.v ===== *)
(** * A set of channels and its collector

    [kernel/ipc/src/set.rs]: channels can carry each other's endpoints, so two or more can keep
    each other open with no handle left to any of them.  The set owns its channels and takes
    such cycles apart by mark and sweep.  Operations that run the collector hold the set
    exclusively, so each is one step; each visit of a channel is under its lock.  [None] is a
    panic, a failed [debug_assert] included; what a [sink] receives is a list, in order. *)

From S2P Require Import Prelude KobjectRights KobjectObject KobjectHandle IpcInbox IpcChannel IpcAccounting.
Local Open Scope Z_scope.

Module ChannelSet.
Import Channel.

Record Collected := { rounds : nat; closed : nat; messages : nat }.
Definition Collected_default : Collected := {| rounds := 0; closed := 0; messages := 0 |}.

Inductive CreateError : Type := SetFull.

(** One endpoint, as a collection round sees it. *)
Record Seen := { s_refs : Z; s_open : bool; s_queued : nat; in_flight : Z; reachable : bool }.
Definition Seen_default : Seen :=
  {| s_refs := 0; s_open := false; s_queued := 0; in_flight := 0; reachable := false |}.
Definition with_flight (e : Seen) (n : Z) : Seen :=
  {| s_refs := s_refs e; s_open := s_open e; s_queued := s_queued e; in_flight := n; reachable := reachable e |}.
Definition with_reachable (e : Seen) (b : bool) : Seen :=
  {| s_refs := s_refs e; s_open := s_open e; s_queued := s_queued e; in_flight := in_flight e; reachable := b |}.

(** The channels; [CAP] is the length. *)
Abbreviation t := (list (option Channel.t)) (only parsing).

Definition new (CAP : nat) : t := replicate CAP None.

(** [index] and [side]: a side as a position in a pair. *)
Definition pick {X} (p : X * X) (s : Side) : X := match s with A => p.1 | B => p.2 end.
Definition pick_alter {X} (f : X → X) (s : Side) (p : X * X) : X * X :=
  match s with A => (f p.1, p.2) | B => (p.1, f p.2) end.

Definition finished (c : Channel.t) : bool :=
  forallb (λ s, let '(_, o, q) := end_state c s in negb o && (q =? 0)%nat) [A; B].

Definition channel (cs : t) (i : nat) : option Channel.t := mjoin (cs !! i).

Fixpoint find_from (i : nat) (cs : t) (object : ObjectId) : option (nat * Side) :=
  match cs with
  | [] => None
  | c :: cs =>
      match (c0 ← c; side_of c0 object) with
      | Some s => Some (i, s)
      | None => find_from (i + 1) cs object
      end
  end.
Definition find (cs : t) (object : ObjectId) : option (nat * Side) := find_from 0 cs object.

Definition create {I} `{IdSource I} (D nb nh : nat) (cs : t) (ids : I) (rights : Rights.t) :
    option (t * I * result (nat * (Entry.t * Entry.t)) CreateError) :=
  match position (λ c, match c with None => true | Some c => finished c end) cs with
  | None => Some (cs, ids, Err SetFull)
  | Some i =>
      '(c, entries, ids') ← Channel.new D nb nh ids rights;
      Some (<[i := Some c]> cs, ids', Ok (i, entries))
  end.

(** ** Marking *)

(** [seen[i][s]]. *)
Definition at_ (seen : list (Seen * Seen)) (p : nat * Side) : option Seen := (λ e, pick e p.2) <$> seen !! p.1.
Definition alter_at (f : Seen → Seen) (p : nat * Side) (seen : list (Seen * Seen)) : list (Seen * Seen) :=
  alter (pick_alter f p.2) p.1 seen.

(** The place in [seen] that [seen_mut] finds. *)
Definition seen_index (cs : t) (entry : Entry.t) : option (nat * Side) :=
  if decide (Entry.kind entry = Channel) then find cs (Entry.object entry) else None.

Definition look (c : option Channel.t) : Seen * Seen :=
  match c with
  | None => (Seen_default, Seen_default)
  | Some c =>
      let one s := let '(r, o, q) := end_state c s in
        {| s_refs := r; s_open := o; s_queued := q; in_flight := 0; reachable := false |} in
      (one A, one B)
  end.

Definition count_one (cs : t) (seen : list (Seen * Seen)) (entry : Entry.t) : list (Seen * Seen) :=
  match seen_index cs entry with
  | Some p => alter_at (λ e, with_flight e (saturating_add 32 (in_flight e) 1)) p seen
  | None => seen
  end.

Definition each_queued_in (cs : t) : list Entry.t := concat ((λ c, snd <$> each_queued c) <$> omap (λ c, c) cs).

Definition root (e : Seen) : Seen := with_reachable e (s_open e && negb (s_refs e =? in_flight e)).

(** One queued entry of a channel whose ends were [holder] when its turn began. *)
Definition spread_one (cs : t) (holder : Seen * Seen) (acc : list (Seen * Seen) * bool) (x : Side * Entry.t) :
    list (Seen * Seen) * bool :=
  let '(seen, changed) := acc in
  if reachable (pick holder x.1) && s_open (pick holder x.1) then
    match seen_index cs x.2 with
    | None => acc
    | Some p =>
        match at_ seen p with
        | None => acc
        | Some e => if reachable e then acc else (alter_at (λ e, with_reachable e true) p seen, true)
        end
    end
  else acc.

Definition spread_channel (cs : t) (acc : list (Seen * Seen) * bool) (ic : nat * option Channel.t) :
    list (Seen * Seen) * bool :=
  match ic.2 with
  | None => acc
  | Some c =>
      let holder := default (Seen_default, Seen_default) (acc.1 !! ic.1) in
      foldl (spread_one cs holder) acc (each_queued c)
  end.

Fixpoint spread (passes : nat) (cs : t) (seen : list (Seen * Seen)) : list (Seen * Seen) :=
  match passes with
  | O => seen
  | S passes =>
      let '(seen', changed) := foldl (spread_channel cs) (seen, false) (imap pair cs) in
      if changed then spread passes cs seen' else seen'
  end.

Definition flight_ok (e : Seen) : bool := in_flight e <=? s_refs e.

Definition mark (cs : t) : option (list (Seen * Seen)) :=
  let seen := foldl (count_one cs) (look <$> cs) (each_queued_in cs) in
  if forallb (λ e, flight_ok e.1 && flight_ok e.2) seen
  then Some (spread (2 * length cs) cs ((λ e, (root e.1, root e.2)) <$> seen))
  else None.

(** ** Sweeping *)

(** Release one entry of a message taken apart, or hand it to the sink. *)
Definition release_or_sink (cs : t) (sunk : list Entry.t) (done : Collected) (entry : Entry.t) :
    t * list Entry.t * Collected :=
  match (j ← seen_index cs entry; c ← channel cs j.1; Some (j.1, c)) with
  | None => (cs, sunk ++ [entry], done)
  | Some (j, c) =>
      let '(c', r) := release_keeping_inbox c entry in
      (<[j := Some c']> cs, sunk,
       match r with
       | Ok true => {| rounds := rounds done; closed := closed done + 1; messages := messages done |}
       | _ => done
       end)
  end.

Fixpoint release_each (cs : t) (sunk : list Entry.t) (done : Collected) (entries : list Entry.t) :
    t * list Entry.t * Collected :=
  match entries with
  | [] => (cs, sunk, done)
  | e :: entries => let '(cs', sunk', done') := release_or_sink cs sunk done e in release_each cs' sunk' done' entries
  end.

(** The [while let] of [take_apart]: a turn takes one message, so one more turn than messages
    is enough. *)
Fixpoint take_messages (fuel : nat) (cs : t) (i : nat) (s : Side) (sunk : list Entry.t) (done : Collected) :
    option (t * list Entry.t * Collected) :=
  match fuel with
  | O => None
  | S fuel =>
      c ← channel cs i;
      '(c', taken) ← take_message c s;
      let cs' := <[i := Some c']> cs in
      match taken with
      | None => Some (cs', sunk, done)
      | Some entries =>
          let done' := {| rounds := rounds done; closed := closed done; messages := messages done + 1 |} in
          let '(cs'', sunk', done'') := release_each cs' sunk done' (omap (λ e, e) entries) in
          take_messages fuel cs'' i s sunk' done''
      end
  end.

Definition take_apart (cs : t) (i : nat) (s : Side) (sunk : list Entry.t) (done : Collected) :
    option (t * list Entry.t * Collected) :=
  match channel cs i with
  | None => Some (cs, sunk, done)
  | Some c => take_messages (S (Inbox.len (inbox (end_of c s)))) cs i s sunk done
  end.

Definition garbage (e : Seen) : bool := s_open e && negb (reachable e).
Definition orphaned (e : Seen) : bool := negb (s_open e) && (0 <? s_queued e)%nat.
Definition is_dead (e : Seen) : bool := garbage e || orphaned e.

(** The places whose inbox a round takes apart, in the order of the two nested loops. *)
Definition dead_places (seen : list (Seen * Seen)) : list (nat * Side) :=
  concat (imap (λ i e, (if is_dead e.1 then [(i, A)] else []) ++ (if is_dead e.2 then [(i, B)] else [])) seen).

Fixpoint sweep (cs : t) (dead : list (nat * Side)) (sunk : list Entry.t) (done : Collected) :
    option (t * list Entry.t * Collected) :=
  match dead with
  | [] => Some (cs, sunk, done)
  | (i, s) :: dead => '(cs', sunk', done') ← take_apart cs i s sunk done; sweep cs' dead sunk' done'
  end.

Fixpoint collect_loop (fuel : nat) (cs : t) (sunk : list Entry.t) (done : Collected) :
    option (t * list Entry.t * Collected) :=
  match fuel with
  | O => None
  | S fuel =>
      seen ← mark cs;
      match dead_places seen with
      | [] => Some (cs, sunk, done)
      | dead =>
          let done := {| rounds := rounds done + 1; closed := closed done; messages := messages done |} in
          '(cs', sunk', done') ← sweep cs dead sunk done;
          (* no progress: [debug_assert!(false)] *)
          if ((messages done' =? messages done) && (closed done' =? closed done))%nat then None
          else collect_loop fuel cs' sunk' done'
      end
  end.

(** The sum of [f] over the channels of the set. *)
Definition tally (f : Channel.t → nat) (cs : t) : nat := sum_list ((λ c, default 0%nat (f <$> c)) <$> cs).

Definition total_messages (cs : t) : nat :=
  tally (λ c, (Inbox.len (inbox (end_a c)) + Inbox.len (inbox (end_b c)))%nat) cs.

(** Every round that goes on takes a message, so one more round than messages is enough. *)
Definition collect (cs : t) : option (t * list Entry.t * Collected) :=
  collect_loop (S (total_messages cs)) cs [] Collected_default.

Definition release (cs : t) (entry : Entry.t) : option (t * list Entry.t * result Collected Error) :=
  if decide (Entry.kind entry = Channel) then
    match (p ← find cs (Entry.object entry); c ← channel cs p.1; Some (p.1, c)) with
    | None => Some (cs, [], Err NotThisChannel)
    | Some (i, c) =>
        match release_keeping_inbox c entry with
        | (c', Err e) => Some (<[i := Some c']> cs, [], Err e)
        | (c', Ok _) =>
            '(cs', sunk, done) ← collect (<[i := Some c']> cs);
            Some (cs', sunk, Ok done)
        end
    end
  else Some (cs, [], Err (Endpoint (Handle.WrongType Channel (Entry.kind entry)))).

Definition close (cs : t) (table : HandleTable.t) (ep : Handle.t) :
    option (t * HandleTable.t * list Entry.t * result Collected Error) :=
  match map_err Endpoint (HandleTable.get_checked table ep Channel Rights.empty) with
  | Err e => Some (cs, table, [], Err e)
  | Ok entry =>
      match find cs (Entry.object entry) with
      | None => Some (cs, table, [], Err NotThisChannel)
      | Some _ =>
          '(table', r) ← HandleTable.close table ep;
          match r with
          | Err e => Some (cs, table', [], Err (Endpoint e))
          | Ok entry =>
              '(cs', sunk, r') ← release cs entry;
              Some (cs', table', sunk, r')
          end
      end
  end.

(** ** What the set holds

    A place [(i, s)] is side [s] of channel [i]. *)

Definition ep (cs : t) (p : nat * Side) : option End := c ← channel cs p.1; Some (end_of c p.2).
Definition eid (cs : t) (p : nat * Side) : option ObjectId := c ← channel cs p.1; Some (id c p.2).
Definition queue_at (cs : t) (p : nat * Side) : list (list Z * list Entry.t) :=
  match channel cs p.1 with Some c => queue c p.2 | None => [] end.
Definition carried_by (q : list (list Z * list Entry.t)) : list Entry.t := concat (snd <$> q).
Definition held (cs : t) (p : nat * Side) : list Entry.t := carried_by (queue_at cs p).
Definition refs_at (cs : t) (p : nat * Side) : Z := match ep cs p with Some e => refs e | None => 0 end.
Definition open_at (cs : t) (p : nat * Side) : bool := match ep cs p with Some e => open e | None => false end.

(** How many entries of [l] name the endpoint at [p], and how many queued ones do. *)
Definition named (cs : t) (p : nat * Side) (l : list Entry.t) : Z :=
  match eid cs p with Some o => Z.of_nat (Accounting.naming o l) | None => 0 end.
Definition flight (cs : t) (p : nat * Side) : Z := named cs p (each_queued_in cs).
(** References that are not in the set's queues. *)
Definition outside (cs : t) (p : nat * Side) : Z := refs_at cs p - flight cs p.

Section Set_.
Context (nb nh : nat).

Record shaped (cs : t) : Prop := {
  sh_wf : ∀ i c, channel cs i = Some c → Channel.wf nb nh c;
  sh_ids : ∀ p q o, eid cs p = Some o → eid cs q = Some o → p = q;
}.

(** Every endpoint counts at least the entries of [l] and of the queues that name it. *)
Definition covers (cs : t) (l : list Entry.t) : Prop := ∀ p, flight cs p + named cs p l ≤ refs_at cs p.

Record inv (cs : t) : Prop := { inv_shaped : shaped cs; inv_covers : ∀ p, 0 ≤ outside cs p }.

Lemma channel_lookup cs i c : channel cs i = Some c ↔ cs !! i = Some (Some c).
Proof. unfold channel. destruct (cs !! i) as [[d|]|]; simpl; split; congruence. Qed.

Lemma channel_insert cs i c d j :
  channel cs i = Some c → channel (<[i := Some d]> cs) j = if decide (j = i) then Some d else channel cs j.
Proof.
  intros Hi%channel_lookup. unfold channel. case_decide as E; [subst|by rewrite list_lookup_insert_ne].
  by rewrite list_lookup_insert_eq by (by eapply lookup_lt_Some).
Qed.

(** An update of a channel that keeps its identities. *)
Section Update.
Context (cs : t) (i : nat) (c d : Channel.t).
Hypothesis Hi : channel cs i = Some c.
Hypothesis Hids : ∀ s, id d s = id c s.

Lemma eid_insert p : eid (<[i := Some d]> cs) p = eid cs p.
Proof.
  unfold eid. rewrite (channel_insert _ _ _ _ _ Hi). case_decide as E; [|done]. by rewrite E, Hi; simpl; rewrite Hids.
Qed.

Lemma named_insert p l : named (<[i := Some d]> cs) p l = named cs p l.
Proof. unfold named. by rewrite eid_insert. Qed.

Lemma ep_insert p : ep (<[i := Some d]> cs) p = if decide (p.1 = i) then Some (end_of d p.2) else ep cs p.
Proof. unfold ep. rewrite (channel_insert _ _ _ _ _ Hi). by case_decide. Qed.

Lemma queue_at_insert p : queue_at (<[i := Some d]> cs) p = if decide (p.1 = i) then queue d p.2 else queue_at cs p.
Proof. unfold queue_at. rewrite (channel_insert _ _ _ _ _ Hi). by case_decide. Qed.

Lemma shaped_insert : shaped cs → Channel.wf nb nh d → shaped (<[i := Some d]> cs).
Proof.
  intros [Hw Hu] Hd. split.
  - intros j x. rewrite (channel_insert _ _ _ _ _ Hi). case_decide; [by intros [= <-]|apply Hw].
  - intros p q o. rewrite !eid_insert. apply Hu.
Qed.

Lemma tally_insert f : (tally f (<[i := Some d]> cs) + f c = tally f cs + f d)%nat.
Proof.
  pose proof (proj1 (channel_lookup _ _ _) Hi) as Hl. unfold tally. clear Hi.
  revert i Hl. induction cs as [|x l IH]; intros [|j] Hl; simplify_eq/=; [lia|]. specialize (IH j Hl). lia.
Qed.
End Update.

Lemma each_queued_eq c : each_queued c = ((λ e, (A, e)) <$> carried_by (queue c A)) ++ ((λ e, (B, e)) <$> carried_by (queue c B)).
Proof.
  unfold each_queued, carried_by, queue, Inbox.queue. cbn [fmap list_fmap concat]. rewrite app_nil_r.
  assert (∀ (s : Side) l, concat ((λ m, (λ e, (s, e)) <$> Inbox.message_entries m) <$> l) =
    (λ e, (s, e)) <$> concat (snd <$> (Inbox.view <$> l))) as E.
  { intros s l. induction l as [|m l IH]; [done|]. csimpl. by rewrite IH, fmap_app. }
  by rewrite !E.
Qed.

(** The entries a slot of the set queues. *)
Definition boxes (c : option Channel.t) : list Entry.t :=
  match c with Some c => carried_by (queue c A) ++ carried_by (queue c B) | None => [] end.

Lemma each_queued_in_eq cs : each_queued_in cs = concat (boxes <$> cs).
Proof.
  unfold each_queued_in. induction cs as [|[c|] cs IH]; [done| |done]. csimpl. rewrite IH, each_queued_eq, fmap_app.
  by rewrite <-!list_fmap_compose, !list_fmap_id.
Qed.

Lemma elem_of_each_queued_in cs e : e ∈ each_queued_in cs ↔ ∃ p, e ∈ held cs p.
Proof.
  rewrite each_queued_in_eq. unfold held, queue_at. split.
  - intros (l & Hl & He)%list_elem_of_In%in_concat. apply list_elem_of_In in Hl, He.
    apply list_elem_of_fmap in Hl as ([c|] & -> & [i Hi]%list_elem_of_lookup); [|by apply elem_of_nil in He].
    apply elem_of_app in He as [He|He]; [exists (i, A)|exists (i, B)]; simpl; by rewrite (proj2 (channel_lookup cs i c)).
  - intros ([i s] & He). simpl in He. destruct (channel cs i) as [c|] eqn:Hc; [|by apply elem_of_nil in He].
    apply channel_lookup in Hc. apply list_elem_of_In, in_concat. exists (boxes (Some c)). split.
    + apply list_elem_of_In. apply list_elem_of_fmap. eexists. split; [done|]. by eapply list_elem_of_lookup_2.
    + apply list_elem_of_In. simpl. apply elem_of_app. destruct s; auto.
Qed.

Lemma find_from_sound k cs o i s :
  find_from k cs o = Some (i, s) → ∃ j c, i = (k + j)%nat ∧ channel cs j = Some c ∧ side_of c o = Some s.
Proof.
  revert k. induction cs as [|x cs IH]; intros k; simpl; [done|].
  destruct (c0 ← x; side_of c0 o) as [s'|] eqn:E.
  - intros [= <- <-]. apply bind_Some in E as (c & -> & E). exists 0%nat, c. split; [lia|done].
  - intros (j & c & -> & Hc & Hs)%IH. exists (S j), c. split; [lia|done].
Qed.

Lemma find_from_None k cs o i c : find_from k cs o = None → channel cs i = Some c → side_of c o = None.
Proof.
  revert k i. induction cs as [|x cs IH]; intros k i; simpl; [done|].
  destruct (c0 ← x; side_of c0 o) as [s'|] eqn:E; [done|]. intros Hn. destruct i as [|i]; [|apply (IH _ i Hn)].
  intros Hc. apply channel_lookup in Hc. simplify_eq/=. done.
Qed.

Lemma find_eid cs o p : shaped cs → find cs o = Some p ↔ eid cs p = Some o.
Proof.
  intros [Hw Hu]. unfold find. split.
  - destruct p as [i s]. intros (j & c & -> & Hc & Hs%side_of_Some)%find_from_sound. unfold eid. simpl. rewrite Hc. simpl. by subst.
  - intros He. destruct (find_from 0 cs o) as [[i s]|] eqn:Hf.
    + apply find_from_sound in Hf as (j & c & -> & Hc & Hs%side_of_Some). f_equal. eapply Hu; [|done].
      unfold eid. simpl. rewrite Hc. simpl. by subst.
    + exfalso. unfold eid in He. destruct (channel cs p.1) as [c|] eqn:Hc; [|done]. simpl in He. simplify_eq.
      pose proof (find_from_None _ _ _ _ _ Hf Hc) as Hs. rewrite side_of_id in Hs; [done|]. by eapply wf_ids, Hw.
Qed.

(** [e] is an entry for the endpoint at [p]. *)
Definition names (cs : t) (e : Entry.t) (p : nat * Side) : Prop :=
  Entry.kind e = Channel ∧ eid cs p = Some (Entry.object e).

Lemma seen_index_names cs e p : shaped cs → seen_index cs e = Some p ↔ names cs e p.
Proof. intros Hs. unfold seen_index, names. case_decide; [rewrite find_eid by done; naive_solver|naive_solver]. Qed.

Lemma named_cons cs p e l : shaped cs → named cs p (e :: l) = (if decide (seen_index cs e = Some p) then 1 else 0) + named cs p l.
Proof.
  intros Hs. unfold named. destruct (eid cs p) as [o|] eqn:Ho.
  - rewrite Accounting.naming_cons. rewrite (decide_ext (seen_index cs e = Some p) (Entry.kind e = Channel ∧ Entry.object e = o)).
    + case_decide; lia.
    + rewrite seen_index_names by done. unfold names. rewrite Ho. naive_solver.
  - rewrite decide_False; [lia|]. rewrite seen_index_names by done. unfold names. by rewrite Ho; intros [_ ?].
Qed.

Lemma named_nil cs p : named cs p [] = 0.
Proof. unfold named. by destruct (eid cs p). Qed.

Lemma named_app cs p l k : named cs p (l ++ k) = named cs p l + named cs p k.
Proof. unfold named. destruct (eid cs p); [|done]. rewrite Accounting.naming_app. lia. Qed.

Lemma named_nonneg cs p l : 0 ≤ named cs p l.
Proof. unfold named. destruct (eid cs p); lia. Qed.

Lemma named_perm cs p l k : l ≡ₚ k → named cs p l = named cs p k.
Proof. intros E. unfold named, Accounting.naming. destruct (eid cs p); [|done]. by rewrite E. Qed.

Lemma named_pos cs p l : shaped cs → 0 < named cs p l ↔ ∃ e, e ∈ l ∧ names cs e p.
Proof.
  intros Hs. induction l as [|e l IH].
  - split; [unfold named, Accounting.naming; destruct (eid cs p); simpl; lia|]. intros (e & ?%elem_of_nil & _). done.
  - rewrite named_cons by done. pose proof (named_nonneg cs p l). case_decide as E.
    + apply seen_index_names in E; [|done]. split; [|lia]. intros _. exists e. split; [left|done].
    + rewrite seen_index_names in E by done. rewrite Z.add_0_l, IH. split.
      * intros (x & Hx & Hn). exists x. split; [by right|done].
      * intros (x & [->|Hx]%elem_of_cons & Hn); [done|eauto].
Qed.

(** ** Releasing what a message carried *)

Definition opens (c : Channel.t) : nat :=
  ((if open (end_a c) then 1 else 0) + (if open (end_b c) then 1 else 0))%nat.

(** From [cs] to [cs']: the entries [gone] were released, the entries [taken] left the queues,
    [k] endpoints closed and [m] messages were taken. *)
Record effect (cs cs' : t) (gone taken : list Entry.t) (k m : nat) : Prop := {
  ef_shaped : shaped cs';
  ef_len : length cs' = length cs;
  ef_eid : ∀ p, eid cs' p = eid cs p;
  ef_refs : ∀ p, refs_at cs' p = refs_at cs p - named cs p gone;
  ef_queued : each_queued_in cs ≡ₚ taken ++ each_queued_in cs';
  ef_opens : tally opens cs = (tally opens cs' + k)%nat;
  ef_msgs : total_messages cs = (total_messages cs' + m)%nat;
}.

Lemma named_ext cs cs' p l : (∀ p, eid cs' p = eid cs p) → named cs' p l = named cs p l.
Proof. intros E. unfold named. by rewrite E. Qed.

Lemma ef_flight cs cs' gone taken k m p :
  effect cs cs' gone taken k m → flight cs' p + named cs p taken = flight cs p.
Proof.
  intros [_ _ He _ Hq _ _]. unfold flight. rewrite (named_ext _ _ _ _ He), (named_perm _ _ _ _ Hq), named_app. lia.
Qed.

Lemma effect_refl cs : shaped cs → effect cs cs [] [] 0 0.
Proof.
  intros Hs. assert (∀ p, named cs p [] = 0) as H0 by (intros p; unfold named; by destruct (eid cs p)).
  split; intros; rewrite ?H0; done || lia.
Qed.

Lemma effect_trans cs cs1 cs2 g1 g2 t1 t2 k1 k2 m1 m2 :
  effect cs cs1 g1 t1 k1 m1 → effect cs1 cs2 g2 t2 k2 m2 → effect cs cs2 (g1 ++ g2) (t1 ++ t2) (k1 + k2) (m1 + m2).
Proof.
  intros [_ Hl1 He1 Hr1 Hf1 Ho1 Hm1] [Hs Hl2 He2 Hr2 Hf2 Ho2 Hm2].
  split; [done|congruence|intros; by rewrite He2| |by rewrite Hf1, Hf2, (assoc_L (++))|lia|lia].
  intros p. specialize (Hr1 p). specialize (Hr2 p). rewrite (named_ext _ _ _ _ He1) in Hr2. rewrite named_app. lia.
Qed.

Lemma seen_index_ext cs cs' e : shaped cs → shaped cs' → (∀ p, eid cs' p = eid cs p) → seen_index cs' e = seen_index cs e.
Proof.
  intros Hs Hs' E. apply option_eq. intros p. rewrite !seen_index_names by done. unfold names. by rewrite E.
Qed.

Lemma names_channel cs e p : names cs e p → ∃ c, channel cs p.1 = Some c ∧ Entry.object e = id c p.2.
Proof. intros [_ Ho]. unfold eid in Ho. destruct (channel cs p.1) as [c|]; [|done]. exists c. simpl in Ho. split; congruence. Qed.

Lemma queued_insert cs i c d :
  channel cs i = Some c → ∃ r, each_queued_in cs ≡ₚ boxes (Some c) ++ r ∧ each_queued_in (<[i := Some d]> cs) ≡ₚ boxes (Some d) ++ r.
Proof.
  intros Hi. rewrite !each_queued_in_eq. apply (concat_insert_Permutation boxes cs i (Some c) (Some d)). by apply channel_lookup.
Qed.

Lemma refs_open cs p e : shaped cs → ep cs p = Some e → open e = negb (refs e =? 0) ∧ in_u 32 (refs e).
Proof.
  intros [Hw _] He. unfold ep in He. destruct (channel cs p.1) as [c|] eqn:Hc; [|done]. simpl in He. simplify_eq.
  destruct (wf_end _ _ _ (Hw _ _ Hc) p.2). done.
Qed.

Lemma release_keeping_effect cs e p :
  shaped cs → names cs e p → 0 < refs_at cs p →
  ∃ c c' b, channel cs p.1 = Some c ∧ release_keeping_inbox c e = (c', Ok b) ∧
    effect cs (<[p.1 := Some c']> cs) [e] [] (if b then 1 else 0) 0 ∧
    ∀ q, queue_at (<[p.1 := Some c']> cs) q = queue_at cs q.
Proof.
  intros Hs Hn Hr. destruct (names_channel _ _ _ Hn) as (c & Hc & Ho).
  pose proof (sh_wf _ Hs _ _ Hc) as Hw. pose proof (wf_end _ _ _ Hw p.2) as [Hib Hu Hop].
  assert (side_of_entry c e = Ok p.2) as Hse.
  { unfold side_of_entry. by rewrite decide_True, Ho, side_of_id by (apply Hn || by eapply wf_ids). }
  unfold refs_at, ep in Hr. rewrite Hc in Hr. simpl in Hr.
  exists c. unfold release_keeping_inbox. rewrite Hse, (proj2 (checked_sub_Some _ 1 (refs (end_of c p.2) - 1))) by lia.
  set (d := set_end c p.2 _). assert (∀ s, id d s = id c s) as Hid by (intros; apply id_set_end).
  assert (∀ s, queue d s = queue c s) as Hq.
  { intros s. unfold d. rewrite queue_set_end. case_decide; [by subst|done]. }
  assert (Channel.wf nb nh d) as Hwd.
  { apply wf_set_end; [done| |intros; by eapply (wf_acyclic _ _ _ Hw p.2)]. split; simpl; [done|unfold in_u in *; lia|].
    rewrite Hop. destruct (Z.eqb_spec (refs (end_of c p.2)) 0); [lia|]. by case_match. }
  eexists d, _. split_and!; [done..| |].
  - split.
    + by eapply shaped_insert.
    + by rewrite length_insert.
    + intros q. by eapply eid_insert.
    + intros q. unfold refs_at. rewrite (ep_insert _ _ _ _ Hc), named_cons, named_nil by done.
      rewrite (proj2 (seen_index_names cs e p Hs) Hn). case_decide as Eq.
      * unfold ep. rewrite Eq, Hc. simpl. unfold d. rewrite end_of_set_end. destruct (decide (q.2 = p.2)) as [E2|E2].
        -- rewrite decide_True by (f_equal; destruct p, q; simpl in *; congruence). rewrite E2. simpl. lia.
        -- rewrite decide_False by (intros [= E3]; by subst). lia.
      * rewrite decide_False by (intros [= E3]; by subst). lia.
    + destruct (queued_insert cs p.1 c d Hc) as (r & -> & ->). simpl. by rewrite !Hq.
    + pose proof (tally_insert cs p.1 c d Hc opens) as Ht.
      assert (opens c = opens d + if (refs (end_of c p.2) - 1 =? 0)%Z then 1 else 0)%nat; [|lia].
      unfold opens, d. destruct p as [i []]; simpl in *; rewrite Hop;
        destruct (Z.eqb_spec (refs (end_a c)) 0), (Z.eqb_spec (refs (end_b c)) 0); simpl; repeat case_match; breflect; lia.
    + pose proof (tally_insert cs p.1 c d Hc (λ c, (Inbox.len (inbox (end_a c)) + Inbox.len (inbox (end_b c)))%nat)) as Ht.
      unfold total_messages. unfold d in *. destruct p as [i []]; simpl in *; lia.
  - intros q. rewrite (queue_at_insert _ _ _ _ Hc). case_decide as Eq; [|done]. unfold queue_at. by rewrite Eq, Hc, Hq.
Qed.

Lemma release_one cs sunk done e p :
  shaped cs → seen_index cs e = Some p → 0 < refs_at cs p →
  ∃ cs' k, release_or_sink cs sunk done e =
      (cs', sunk, {| rounds := rounds done; closed := closed done + k; messages := messages done |}) ∧
    effect cs cs' [e] [] k 0 ∧ ∀ q, queue_at cs' q = queue_at cs q.
Proof.
  intros Hs Hp Hr. unfold release_or_sink. rewrite Hp. apply seen_index_names in Hp; [|done].
  destruct (release_keeping_effect cs e p Hs Hp Hr) as (c & c' & b & Hc & Hrel & Hef & Hq). simpl. rewrite Hc. simpl.
  rewrite Hrel. eexists _, _. split_and!; [|exact Hef|exact Hq].
  destruct b; [done|]. rewrite Nat.add_0_r. by destruct done.
Qed.

(** An entry that names no endpoint of the set. *)
Definition foreign (cs : t) (e : Entry.t) : Prop := seen_index cs e = None.
#[global] Instance foreign_dec cs e : Decision (foreign cs e).
Proof. unfold foreign. apply _. Defined.

Lemma release_each_spec cs sunk done es :
  shaped cs → covers cs es →
  ∃ cs' k, release_each cs sunk done es =
      (cs', sunk ++ filter (foreign cs) es, {| rounds := rounds done; closed := closed done + k; messages := messages done |}) ∧
    effect cs cs' es [] k 0 ∧ ∀ q, queue_at cs' q = queue_at cs q.
Proof.
  revert cs sunk done. induction es as [|e es IH]; intros cs sunk done Hs Hc.
  { exists cs, 0%nat. simpl. rewrite app_nil_r, Nat.add_0_r. split_and!; [by destruct done|by apply effect_refl|done]. }
  cbn [release_each]. destruct (seen_index cs e) as [p|] eqn:Hp.
  - assert (0 < refs_at cs p) as Hr.
    { specialize (Hc p). rewrite named_cons, decide_True in Hc by done.
      pose proof (named_nonneg cs p es). pose proof (named_nonneg cs p (each_queued_in cs)). unfold flight in Hc. lia. }
    destruct (release_one cs sunk done e p Hs Hp Hr) as (cs1 & k1 & -> & Hef & Hq1).
    destruct (IH cs1 sunk {| rounds := rounds done; closed := closed done + k1; messages := messages done |}) as (cs2 & k2 & -> & Hef2 & Hq2).
    { apply Hef. }
    { intros q. pose proof (ef_flight _ _ _ _ _ _ q Hef) as Hfl. destruct Hef as [Hs1 _ He Hrf _ _ _]. specialize (Hc q). specialize (Hrf q).
      rewrite (named_ext _ _ _ _ He). rewrite (named_app cs q [e] es : named cs q (e :: es) = _) in Hc.
      assert (named cs q [] = 0) as H0 by (unfold named; by destruct (eid cs q)). lia. }
    exists cs2, (k1 + k2)%nat. split_and!.
    + simpl. rewrite filter_cons, decide_False by (unfold foreign; congruence). rewrite Nat.add_assoc. do 2 f_equal.
      f_equal. apply list_filter_iff. intros x. unfold foreign. by rewrite (seen_index_ext cs cs1) by (done || apply Hef).
    + apply (effect_trans cs cs1 cs2 [e] es [] [] k1 k2 0 0); done.
    + intros q. by rewrite Hq2, Hq1.
  - unfold release_or_sink. rewrite Hp. simpl.
    assert (∀ q, named cs q (e :: es) = named cs q es) as Hnm by (intros q; by rewrite named_cons, decide_False by congruence).
    destruct (IH cs (sunk ++ [e]) done) as (cs2 & k2 & -> & Hef & Hq2); [done|intros q; rewrite <-Hnm; apply Hc|].
    exists cs2, k2. rewrite filter_cons, decide_True by done. rewrite <-(assoc_L (++)). split_and!; [done| |done].
    destruct Hef. split; try done. intros q. by rewrite Hnm.
Qed.

(** ** Taking inboxes apart *)

Lemma take_message_effect cs i s c bs es rest :
  shaped cs → channel cs i = Some c → queue c s = (bs, es) :: rest →
  ∃ c' hs, take_message c s = Some (c', Some hs) ∧ omap (λ e : option Entry.t, e) hs = es ∧
    effect cs (<[i := Some c']> cs) [] es 0 1 ∧
    (∀ q, queue_at (<[i := Some c']> cs) q = if decide (q = (i, s)) then rest else queue_at cs q).
Proof.
  intros Hs Hc Hq. pose proof (take_message_spec nb nh c s (sh_wf _ Hs _ _ Hc)) as Htm. rewrite Hq in Htm.
  destruct Htm as (ib & hs & Hm & Hes & Hw & Hq' & Hlen). set (d := set_end c s (set_inbox (end_of c s) ib)) in *.
  assert (∀ x, id d x = id c x) as Hid by (intros; apply id_set_end).
  assert (∀ x, x ≠ s → queue d x = queue c x) as Hother.
  { intros x Hx. unfold d. by rewrite queue_set_end, decide_False. }
  exists d, hs. split_and!; [done..| |].
  - split.
    + by eapply shaped_insert.
    + by rewrite length_insert.
    + intros q. by eapply eid_insert.
    + intros q. rewrite named_nil. unfold refs_at. rewrite (ep_insert _ _ _ _ Hc). case_decide as E; [|lia].
      unfold ep. rewrite E, Hc. simpl. unfold d. rewrite end_of_set_end. case_decide as E2; [rewrite E2; simpl; lia|lia].
    + destruct (queued_insert cs i c d Hc) as (r & -> & ->). rewrite (assoc_L (++)). f_equiv. simpl.
      assert (carried_by (queue c s) = es ++ carried_by (queue d s)) as Hsp by (by rewrite Hq, Hq').
      destruct s; [rewrite (Hother B) by done|rewrite (Hother A) by done]; rewrite Hsp; solve_Permutation.
    + pose proof (tally_insert cs i c d Hc opens) as Ht. assert (opens d = opens c) by (unfold opens, d; by destruct s). lia.
    + pose proof (tally_insert cs i c d Hc (λ c, (Inbox.len (inbox (end_a c)) + Inbox.len (inbox (end_b c)))%nat)) as Ht.
      unfold total_messages. unfold d in *. destruct s; simpl in *; lia.
  - intros q. rewrite (queue_at_insert _ _ _ _ Hc). destruct (decide (q = (i, s))) as [->|Hne]; [by rewrite decide_True|].
    case_decide as E; [|done]. unfold queue_at. rewrite E, Hc. apply Hother. intros E2. apply Hne. destruct q; simpl in *; by subst.
Qed.

Lemma filter_foreign cs cs' (l : list Entry.t) :
  shaped cs → shaped cs' → (∀ p, eid cs' p = eid cs p) → filter (foreign cs') l = filter (foreign cs) l.
Proof. intros Hs Hs' E. apply list_filter_iff. intros x. unfold foreign. by rewrite (seen_index_ext cs cs'). Qed.

Lemma covers_nil cs : covers cs [] ↔ ∀ p, 0 ≤ outside cs p.
Proof. unfold covers, outside. split; intros H p; specialize (H p); rewrite named_nil in *; lia. Qed.

Lemma covers_effect cs cs' gone taken rest k m :
  effect cs cs' gone taken k m → covers cs [] → (∀ p, named cs p taken = named cs p gone + named cs p rest) → covers cs' rest.
Proof.
  intros Hef Hc E p. pose proof (ef_flight _ _ _ _ _ _ p Hef) as Hf. destruct Hef as [Hs _ He Hr _ _ _].
  specialize (Hc p). specialize (Hr p). specialize (E p).
  rewrite named_nil in Hc. rewrite (named_ext _ _ _ _ He). lia.
Qed.

Lemma take_messages_spec fuel cs i s sunk done :
  shaped cs → covers cs [] → is_Some (channel cs i) → (length (queue_at cs (i, s)) < fuel)%nat →
  ∃ cs' k, take_messages fuel cs i s sunk done =
      Some (cs', sunk ++ filter (foreign cs) (held cs (i, s)),
        {| rounds := rounds done; closed := closed done + k; messages := messages done + length (queue_at cs (i, s)) |}) ∧
    effect cs cs' (held cs (i, s)) (held cs (i, s)) k (length (queue_at cs (i, s))) ∧
    ∀ q, queue_at cs' q = if decide (q = (i, s)) then [] else queue_at cs q.
Proof.
  revert cs sunk done. induction fuel as [|fuel IH]; intros cs sunk done Hs Hc [c Hi] Hf; [lia|].
  cbn [take_messages]. rewrite Hi. cbn [mbind option_bind]. unfold held.
  assert (queue_at cs (i, s) = queue c s) as Hqa by (unfold queue_at; simpl; by rewrite Hi). rewrite Hqa in *.
  destruct (queue c s) as [|[bs es] rest] eqn:Hq.
  - pose proof (take_message_spec nb nh c s (sh_wf _ Hs _ _ Hi)) as Htm. rewrite Hq in Htm. rewrite Htm. cbn [mbind option_bind].
    rewrite list_insert_id by (by apply channel_lookup). exists cs, 0%nat. simpl. rewrite app_nil_r, !Nat.add_0_r.
    split_and!; [by destruct done|by apply effect_refl|]. intros q. case_decide; [by subst|done].
  - destruct (take_message_effect cs i s c bs es rest Hs Hi Hq) as (c' & hs & -> & Hes & Hef & Hq1). cbn [mbind option_bind].
    rewrite Hes. set (cs1 := <[i := Some c']> cs) in *. pose proof (ef_shaped _ _ _ _ _ _ Hef) as Hs1.
    set (done1 := {| messages := messages done + 1 |}).
    destruct (release_each_spec cs1 sunk done1 es) as (cs2 & k2 & -> & Hef2 & Hq2); [done| |].
    { eapply covers_effect; [done..|]. intros p. by rewrite named_nil. }
    pose proof (effect_trans _ _ _ _ _ _ _ _ _ _ _ Hef Hef2) as Hef12. rewrite app_nil_l, app_nil_r in Hef12.
    pose proof (ef_shaped _ _ _ _ _ _ Hef2) as Hs2.
    assert (∀ q, queue_at cs2 q = if decide (q = (i, s)) then rest else queue_at cs q) as Hq12 by (intros; by rewrite Hq2).
    assert (queue_at cs2 (i, s) = rest) as Hrest by (by rewrite Hq12, decide_True).
    edestruct (IH cs2) as (cs3 & k3 & -> & Hef3 & Hq3); [done|..].
    { eapply covers_effect; [done..|]. intros p. rewrite named_nil. lia. }
    { pose proof (ef_eid _ _ _ _ _ _ Hef12 (i, s)) as He. unfold eid in He. simpl in He. rewrite Hi in He.
      destruct (channel cs2 i); [done|discriminate]. }
    { rewrite Hrest. simpl in Hf. lia. }
    unfold held in *. rewrite Hrest in *. exists cs3, (k2 + k3)%nat. split_and!.
    + assert (filter (foreign cs1) es ++ filter (foreign cs2) (carried_by rest) =
        filter (foreign cs) (carried_by ((bs, es) :: rest))) as Hfl.
      { unfold carried_by. simpl. rewrite filter_app.
        rewrite (filter_foreign cs cs1), (filter_foreign cs cs2); try done; [by apply Hef12|by apply Hef]. }
      unfold done1. simpl. rewrite <-(assoc_L (++)), Hfl. do 2 f_equal. f_equal; lia.
    + eapply (effect_trans cs cs2 cs3 es (carried_by rest) es (carried_by rest) (0 + k2) k3 (1 + 0) (length rest)); done.
    + intros q. rewrite Hq3, Hq12. by case_decide.
Qed.

Lemma sweep_spec cs dead sunk done :
  shaped cs → covers cs [] → NoDup dead →
  ∃ cs' k m, sweep cs dead sunk done =
      Some (cs', sunk ++ filter (foreign cs) (concat (held cs <$> dead)),
        {| rounds := rounds done; closed := closed done + k; messages := messages done + m |}) ∧
    effect cs cs' (concat (held cs <$> dead)) (concat (held cs <$> dead)) k m ∧
    m = sum_list (length ∘ queue_at cs <$> dead) ∧
    ∀ q, queue_at cs' q = if decide (q ∈ dead) then [] else queue_at cs q.
Proof.
  revert cs sunk done. induction dead as [|[i s] dead IH]; intros cs sunk done Hs Hc Hnd.
  { exists cs, 0%nat, 0%nat. simpl. rewrite app_nil_r, !Nat.add_0_r. split_and!; [by destruct done|by apply effect_refl|done..]. }
  apply NoDup_cons in Hnd as [Hni Hnd]. cbn [sweep].
  assert (∃ cs1 k1, take_apart cs i s sunk done =
      Some (cs1, sunk ++ filter (foreign cs) (held cs (i, s)),
        {| rounds := rounds done; closed := closed done + k1; messages := messages done + length (queue_at cs (i, s)) |}) ∧
    effect cs cs1 (held cs (i, s)) (held cs (i, s)) k1 (length (queue_at cs (i, s))) ∧
    ∀ q, queue_at cs1 q = if decide (q = (i, s)) then [] else queue_at cs q) as (cs1 & k1 & -> & Hef & Hq1).
  { unfold take_apart. destruct (channel cs i) as [c|] eqn:Hi.
    - apply take_messages_spec; [done..|]. unfold queue_at. simpl. rewrite Hi. unfold queue.
      rewrite (Inbox.length_queue nb nh); [lia|]. apply (wf_end _ _ _ (sh_wf _ Hs _ _ Hi)).
    - assert (queue_at cs (i, s) = []) as E by (unfold queue_at; simpl; by rewrite Hi). unfold held. rewrite E. simpl.
      exists cs, 0%nat. rewrite app_nil_r, !Nat.add_0_r. split_and!; [by destruct done|by apply effect_refl|].
      intros q. case_decide; [by subst|done]. }
  cbn [mbind option_bind]. pose proof (ef_shaped _ _ _ _ _ _ Hef) as Hs1.
  edestruct (IH cs1) as (cs2 & k2 & m2 & -> & Hef2 & Hm2 & Hq2); [done|..|done|].
  { eapply covers_effect; [done..|]. intros p. rewrite named_nil. lia. }
  assert (∀ q, q ∈ dead → queue_at cs1 q = queue_at cs q) as Hsame.
  { intros q Hq. rewrite Hq1, decide_False; [done|]. by intros ->. }
  assert (held cs1 <$> dead = held cs <$> dead) as Hh.
  { apply list_fmap_ext. intros j q Hj. unfold held. by rewrite Hsame by (by eapply list_elem_of_lookup_2). }
  assert (length ∘ queue_at cs1 <$> dead = length ∘ queue_at cs <$> dead) as Hl.
  { apply list_fmap_ext. intros j q Hj. simpl. by rewrite Hsame by (by eapply list_elem_of_lookup_2). }
  rewrite Hh in *. rewrite Hl in Hm2. exists cs2, (k1 + k2)%nat, (length (queue_at cs (i, s)) + m2)%nat. split_and!.
  - simpl. rewrite <-(assoc_L (++)), filter_app, (filter_foreign cs cs1) by (done || apply Hef). by rewrite !Nat.add_assoc.
  - csimpl. by eapply effect_trans.
  - csimpl. by rewrite Hm2.
  - intros q. rewrite Hq2, Hq1. destruct (decide (q ∈ dead)); [by rewrite decide_True by (by right)|].
    destruct (decide (q = (i, s))) as [->|]; [by rewrite decide_True by left|].
    rewrite decide_False; [done|]. by intros [|]%elem_of_cons.
Qed.

(** ** Marking *)

(** Reachable from outside the set's queues: held outside, or queued where it can be received. *)
Inductive reach (cs : t) : nat * Side → Prop :=
| reach_root p : open_at cs p = true → refs_at cs p ≠ flight cs p → reach cs p
| reach_queued p q e : reach cs p → e ∈ held cs p → names cs e q → reach cs q.

(** What a round records of a place. *)
Definition view_at (cs : t) (p : nat * Side) (b : bool) : Seen :=
  {| s_refs := refs_at cs p; s_open := open_at cs p; s_queued := length (queue_at cs p);
     in_flight := flight cs p; reachable := b |}.
Definition mk (seen : list (Seen * Seen)) (p : nat * Side) : bool :=
  match at_ seen p with Some e => reachable e | None => false end.

Lemma at_alter f p seen q : at_ (alter_at f p seen) q = if decide (q = p) then f <$> at_ seen q else at_ seen q.
Proof.
  unfold at_, alter_at. destruct p as [i s], q as [j u]. simpl.
  destruct (decide (j = i)) as [->|Hne]; [|rewrite list_lookup_alter_ne, decide_False by congruence; done].
  rewrite list_lookup_alter_eq. destruct (seen !! i) as [[a b]|]; simpl; [|by case_decide].
  destruct s, u; simpl; case_decide; congruence.
Qed.

Lemma at_look cs p :
  shaped cs → at_ (look <$> cs) p = if decide (p.1 < length cs)%nat then Some (with_flight (view_at cs p false) 0) else None.
Proof.
  intros Hs. unfold at_. rewrite list_lookup_fmap. destruct (cs !! p.1) as [[c|]|] eqn:Hi; simpl.
  - rewrite decide_True by (by eapply lookup_lt_Some). assert (channel cs p.1 = Some c) as Hc by (by apply channel_lookup).
    unfold view_at, with_flight, refs_at, open_at, queue_at, ep. rewrite Hc. simpl. unfold queue.
    rewrite (Inbox.length_queue nb nh) by apply (wf_end _ _ _ (sh_wf _ Hs _ _ Hc)). by destruct (p.2).
  - rewrite decide_True by (by eapply lookup_lt_Some). assert (channel cs p.1 = None) as Hc by (unfold channel; by rewrite Hi).
    unfold view_at, with_flight, refs_at, open_at, queue_at, ep. rewrite Hc. simpl. by destruct (p.2).
  - rewrite decide_False; [done|]. by apply lookup_ge_None, Nat.le_ngt in Hi.
Qed.

Lemma count_spec cs seen l p :
  shaped cs → (∀ p e, at_ seen p = Some e → in_flight e + named cs p l ≤ u_max 32) →
  at_ (foldl (count_one cs) seen l) p = (λ e, with_flight e (in_flight e + named cs p l)) <$> at_ seen p.
Proof.
  intros Hs. revert seen. induction l as [|x l IH]; intros seen Hb; simpl.
  { rewrite named_nil. destruct (at_ seen p) as [e|]; simpl; [|done]. rewrite Z.add_0_r. by destruct e. }
  assert (∀ q e, at_ seen q = Some e → at_ (count_one cs seen x) q =
    Some (with_flight e (in_flight e + if decide (seen_index cs x = Some q) then 1 else 0))) as Hone.
  { intros q e He. specialize (Hb q e He). rewrite named_cons in Hb by done. pose proof (named_nonneg cs q l).
    unfold count_one. destruct (seen_index cs x) as [y|]; [|rewrite decide_False, Z.add_0_r, He by done; by destruct e].
    rewrite at_alter, He. destruct (decide (q = y)) as [->|E].
    - rewrite decide_True in * by done. simpl. unfold saturating_add. do 2 f_equal. lia.
    - rewrite decide_False, Z.add_0_r by congruence. by destruct e. }
  assert (at_ seen p = None → at_ (count_one cs seen x) p = None) as Hnone.
  { intros E. unfold count_one. destruct (seen_index cs x); [|done]. rewrite at_alter, E. by case_decide. }
  rewrite IH.
  - destruct (at_ seen p) as [e|] eqn:E; [|by rewrite Hnone]. rewrite (Hone _ _ E). simpl.
    rewrite named_cons by done. unfold with_flight. simpl. do 2 f_equal. lia.
  - intros q e. destruct (at_ seen q) as [e0|] eqn:E.
    + rewrite (Hone _ _ E). intros [= <-]. simpl. specialize (Hb q e0 E). rewrite named_cons in Hb by done. lia.
    + intros He. unfold count_one in He. destruct (seen_index cs x); [rewrite at_alter, E in He; case_match; done|congruence].
Qed.

Lemma refs_at_u32 cs p : shaped cs → in_u 32 (refs_at cs p).
Proof.
  intros Hs. unfold refs_at. destruct (ep cs p) as [e|] eqn:E; [|unfold in_u, u_max; lia]. by eapply refs_open.
Qed.

Lemma open_at_refs cs p : shaped cs → open_at cs p = negb (refs_at cs p =? 0).
Proof.
  intros Hs. unfold open_at, refs_at. destruct (ep cs p) as [e|] eqn:E; [|done]. by eapply refs_open.
Qed.

(** The counts of a round. *)
Definition counted (cs : t) : list (Seen * Seen) := foldl (count_one cs) (look <$> cs) (each_queued_in cs).

Lemma at_counted cs p :
  shaped cs → covers cs [] → at_ (counted cs) p = if decide (p.1 < length cs)%nat then Some (view_at cs p false) else None.
Proof.
  intros Hs Hc. unfold counted. rewrite count_spec; [|done|].
  - rewrite at_look by done. case_decide; [|done]. simpl. by unfold with_flight, view_at; simpl.
  - intros q e. rewrite at_look by done. case_decide; [|done]. intros [= <-]. simpl.
    specialize (Hc q). rewrite named_nil in Hc. unfold flight in Hc. pose proof (refs_at_u32 cs q Hs) as [_ ?]. lia.
Qed.

Lemma length_counted cs : length (counted cs) = length cs.
Proof.
  unfold counted. apply (foldl_invariant _ (λ seen, length seen = length cs)); [|by rewrite length_fmap].
  intros seen x _ E. unfold count_one. destruct (seen_index cs x); [|done]. unfold alter_at. by rewrite length_alter.
Qed.

Lemma lookup_at seen i a b : seen !! i = Some (a, b) → at_ seen (i, A) = Some a ∧ at_ seen (i, B) = Some b.
Proof. intros E. unfold at_. simpl. by rewrite E. Qed.

Lemma mark_passes cs :
  shaped cs → covers cs [] →
  mark cs = Some (spread (2 * length cs) cs ((λ e, (root e.1, root e.2)) <$> counted cs)).
Proof.
  intros Hs Hc. unfold mark. fold (counted cs).
  assert (forallb (λ e, flight_ok e.1 && flight_ok e.2) (counted cs) = true) as ->; [|done].
  apply forallb_forall. intros [a b] [i Hi]%list_elem_of_In%list_elem_of_lookup.
  apply lookup_at in Hi as [HA HB]. rewrite !at_counted in HA, HB by done.
  simpl in HA, HB. case_decide; [|done]. simplify_eq. unfold flight_ok. simpl. pose proof (Hc (i, A)) as H1. pose proof (Hc (i, B)) as H2.
  rewrite named_nil in H1, H2. apply andb_true_iff. split; apply Z.leb_le; lia.
Qed.

(** *** Spreading the marks *)

Definition marked (seen : list (Seen * Seen)) : nat :=
  sum_list ((λ e, Nat.b2n (reachable e.1) + Nat.b2n (reachable e.2))%nat <$> seen).

Lemma marked_le seen : (marked seen ≤ 2 * length seen)%nat.
Proof.
  unfold marked. induction seen as [|[a b] l IH]; [done|]. csimpl.
  destruct (reachable a), (reachable b); simpl in *; lia.
Qed.

Lemma marked_full seen p e : marked seen = (2 * length seen)%nat → at_ seen p = Some e → reachable e = true.
Proof.
  intros Hm. unfold at_. destruct p as [i s]. simpl. revert i Hm.
  induction seen as [|[a b] l IH]; intros i Hm; [done|]. unfold marked in *. csimpl in Hm. pose proof (marked_le l) as Hle.
  unfold marked in Hle. destruct (reachable a) eqn:Ea, (reachable b) eqn:Eb; simpl in Hm; try lia.
  destruct i as [|i]; simpl; [intros [= <-]; by destruct s|apply IH; lia].
Qed.

Lemma marked_alter seen p e :
  at_ seen p = Some e → reachable e = false → marked (alter_at (λ e, with_reachable e true) p seen) = S (marked seen).
Proof.
  unfold at_, alter_at, marked. destruct p as [i s]. simpl. revert i.
  induction seen as [|[a b] l IH]; intros [|i] He Hr; [done..| |].
  - simpl in He. injection He as He. csimpl. destruct s; simpl in He; subst; simpl; rewrite Hr; simpl; lia.
  - csimpl. simpl in He. change (alter (pick_alter (λ e, with_reachable e true) s) (S i) ((a, b) :: l)) with
      ((a, b) :: alter (pick_alter (λ e, with_reachable e true) s) i l). csimpl. rewrite (IH i) by done. lia.
Qed.

Section Spread.
Context (cs : t).
Hypothesis Hs : shaped cs.

Lemma spread_one_quiet holder a x : (spread_one cs holder a x).2 = false → spread_one cs holder a x = a.
Proof. unfold spread_one. destruct a as [seen ch]. repeat (case_match; try done). Qed.

Lemma spread_channel_quiet a ic : (spread_channel cs a ic).2 = false → spread_channel cs a ic = a.
Proof.
  unfold spread_channel. destruct ic.2 as [c|]; [|done]. intros Hq.
  by destruct (foldl_quiet _ _ _ (spread_one_quiet _) Hq).
Qed.

Lemma spread_one_grows holder a x :
  (marked a.1 ≤ marked (spread_one cs holder a x).1)%nat ∧
  ((spread_one cs holder a x).2 = true → a.2 = true ∨ (marked a.1 < marked (spread_one cs holder a x).1)%nat).
Proof.
  unfold spread_one. destruct a as [seen ch]. simpl. case_match; [|auto]. case_match; [|auto]. case_match eqn:E; [|auto].
  case_match eqn:E2; [auto|]. simpl. rewrite (marked_alter _ _ _ E E2). lia.
Qed.

Lemma spread_channel_grows a ic :
  (marked a.1 ≤ marked (spread_channel cs a ic).1)%nat ∧
  ((spread_channel cs a ic).2 = true → a.2 = true ∨ (marked a.1 < marked (spread_channel cs a ic).1)%nat).
Proof.
  unfold spread_channel. destruct ic.2 as [c|]; [|auto]. apply (foldl_grows _ marked). apply spread_one_grows.
Qed.

(** The marks made so far: only reachable places, and every root. *)
Record marks (seen : list (Seen * Seen)) : Prop := {
  mk_at : ∀ p, at_ seen p = if decide (p.1 < length cs)%nat then Some (view_at cs p (mk seen p)) else None;
  mk_len : length seen = length cs;
  mk_sound : ∀ p, mk seen p = true → reach cs p;
  mk_root : ∀ p, open_at cs p = true → refs_at cs p ≠ flight cs p → mk seen p = true;
}.

Lemma marks_set seen p :
  marks seen → reach cs p → marks (alter_at (λ e, with_reachable e true) p seen).
Proof.
  intros [Ha Hl Hso Hro] Hp.
  assert (∀ q, mk (alter_at (λ e, with_reachable e true) p seen) q =
    if decide (q = p) then bool_decide (q.1 < length cs)%nat else mk seen q) as Hmk.
  { intros q. unfold mk. rewrite at_alter. destruct (decide (q = p)) as [->|]; [|done].
    rewrite Ha. case_decide; [by rewrite bool_decide_true|by rewrite bool_decide_false]. }
  split.
  - intros q. rewrite at_alter, Hmk. destruct (decide (q = p)) as [->|]; [|by rewrite Ha].
    rewrite Ha. case_decide; [by rewrite bool_decide_true|done].
  - unfold alter_at. by rewrite length_alter.
  - intros q. rewrite Hmk. case_decide; [by subst|apply Hso].
  - intros q Ho Hr. rewrite Hmk. case_decide as E; [|by apply Hro].
    specialize (Hro q Ho Hr). unfold mk in Hro. rewrite Ha in Hro. case_decide; [by rewrite bool_decide_true|done].
Qed.

Lemma held_each c s e i : channel cs i = Some c → (s, e) ∈ each_queued c ↔ e ∈ held cs (i, s).
Proof.
  intros Hc. rewrite each_queued_eq, elem_of_app, !list_elem_of_fmap. unfold held, queue_at. simpl. rewrite Hc. split.
  - intros [(y & [= -> ->] & ?)|(y & [= -> ->] & ?)]; done.
  - intros He. destruct s; [left|right]; by exists e.
Qed.

Lemma spread_one_marks holder acc i c x :
  channel cs i = Some c → x ∈ each_queued c →
  (∀ s, reachable (pick holder s) = true → reach cs (i, s)) →
  marks acc.1 → marks (spread_one cs holder acc x).1.
Proof.
  intros Hc Hx Hh Hm. unfold spread_one. destruct acc as [seen ch].
  destruct (reachable (pick holder x.1) && s_open (pick holder x.1)) eqn:E; [|done]. breflect.
  destruct (seen_index cs x.2) as [p|] eqn:Hp; [|done]. case_match; [|done]. case_match; [done|]. simpl in *.
  apply marks_set; [done|]. apply seen_index_names in Hp; [|done]. destruct x as [u e].
  apply (held_each c u e i Hc) in Hx. by eapply reach_queued; [apply (Hh u)|..].
Qed.

Lemma spread_channel_marks acc i oc : cs !! i = Some oc → marks acc.1 → marks (spread_channel cs acc (i, oc)).1.
Proof.
  intros Hi Hm. unfold spread_channel. simpl. destruct oc as [c|]; [|done].
  apply (foldl_invariant _ (λ acc, marks acc.1)); [|done]. intros a x Hx Ha.
  eapply spread_one_marks; [by apply channel_lookup|done| |done].
  intros s Hr. apply (mk_sound _ Hm). unfold mk, at_. simpl. destruct (acc.1 !! i) as [[u v]|] eqn:E; simpl in *; [done|by destruct s].
Qed.

Definition pass (seen : list (Seen * Seen)) : list (Seen * Seen) * bool := foldl (spread_channel cs) (seen, false) (imap pair cs).

Lemma pass_marks seen : marks seen → marks (pass seen).1.
Proof.
  intros Hm. apply (foldl_invariant _ (λ acc, marks acc.1)); [|done]. intros a [i oc] Hx Ha.
  apply list_elem_of_lookup in Hx as [j Hj]. rewrite list_lookup_imap in Hj. destruct (cs !! j) as [oc'|] eqn:E; [|done].
  simplify_eq/=. by apply spread_channel_marks.
Qed.

(** Marks that no queued entry extends. *)
Definition closed_marks (seen : list (Seen * Seen)) : Prop :=
  ∀ p q e, mk seen p = true → open_at cs p = true → e ∈ held cs p → names cs e q → mk seen q = true.

Lemma pass_quiet seen : marks seen → (pass seen).2 = false → (pass seen).1 = seen ∧ closed_marks seen.
Proof.
  intros Hm Hq. destruct (foldl_quiet _ _ _ spread_channel_quiet Hq) as [E Hall]. split; [unfold pass; by rewrite E|].
  intros [i s] q e Hp Ho He Hn. unfold held, queue_at in He. simpl in He.
  destruct (channel cs i) as [c|] eqn:Hc; [|by apply elem_of_nil in He].
  assert ((i, Some c) ∈ imap pair cs) as Hin.
  { apply list_elem_of_lookup. exists i. rewrite list_lookup_imap. by rewrite (proj1 (channel_lookup _ _ _) Hc). }
  specialize (Hall _ Hin). unfold spread_channel in Hall. simpl in Hall.
  match type of Hall with foldl ?f ?a ?l = _ => assert ((foldl f a l).2 = false) as Hq2 by (by rewrite Hall) end.
  destruct (foldl_quiet _ _ _ (spread_one_quiet _) Hq2) as [_ Hx]. specialize (Hx (s, e)).
  rewrite (held_each c s e i Hc) in Hx. unfold held, queue_at in Hx. simpl in Hx. rewrite Hc in Hx. specialize (Hx He).
  pose proof (mk_at _ Hm (i, s)) as Hat. assert (i < length cs)%nat as Hlt by (by eapply lookup_lt_Some, channel_lookup).
  rewrite decide_True in Hat by done. unfold at_ in Hat. simpl in Hat. destruct (seen !! i) as [h|] eqn:Hi; [|done].
  simpl in Hat, Hx. injection Hat as Hat. unfold spread_one in Hx. simpl in Hx. rewrite Hat in Hx. simpl in Hx.
  rewrite Hp, Ho, (proj2 (seen_index_names cs e q Hs) Hn) in Hx. simpl in Hx. rewrite (mk_at _ Hm q) in Hx.
  case_decide as Hl.
  - destruct (reachable (view_at cs q (mk seen q))) eqn:E3; [done|]. discriminate.
  - destruct (names_channel _ _ _ Hn) as (d & Hd & _). destruct Hl. by eapply lookup_lt_Some, channel_lookup.
Qed.

Lemma spread_spec n seen :
  marks seen → (2 * length cs ≤ marked seen + n)%nat → marks (spread n cs seen) ∧ closed_marks (spread n cs seen).
Proof.
  revert seen. induction n as [|n IH]; intros seen Hm Hn; simpl.
  - split; [done|]. intros p q e _ _ _ Hq. unfold mk. rewrite (mk_at _ Hm).
    destruct (names_channel _ _ _ Hq) as (d & Hd & _). rewrite decide_True by (by eapply lookup_lt_Some, channel_lookup). simpl.
    pose proof (marked_le seen). rewrite (mk_len _ Hm) in *. pose proof (mk_at _ Hm q) as Ha.
    rewrite decide_True in Ha by (by eapply lookup_lt_Some, channel_lookup).
    apply (marked_full seen q _) in Ha; [done|rewrite (mk_len _ Hm); lia].
  - fold (pass seen). pose proof (pass_marks seen Hm) as Hm'. pose proof (pass_quiet seen Hm) as Hq.
    destruct (foldl_grows (spread_channel cs) marked (imap pair cs) (seen, false) spread_channel_grows) as [_ Hg]. fold (pass seen) in Hg.
    destruct (pass seen) as [seen' []]; simpl in *.
    + apply IH; [done|]. destruct Hg as [Hg|Hg]; [done..|lia].
    + destruct Hq as [-> Hcl]; done.
Qed.

Lemma reach_open p : covers cs [] → reach cs p → open_at cs p = true.
Proof.
  intros Hc Hr. destruct Hr as [p Ho _|p q e _ He Hn]; [done|]. rewrite open_at_refs by done.
  specialize (Hc q). rewrite named_nil in Hc. assert (0 < flight cs q) as Hf.
  { apply named_pos; [done|]. exists e. split; [|done]. apply elem_of_each_queued_in. by exists p. }
  destruct (Z.eqb_spec (refs_at cs q) 0); [lia|done].
Qed.

(** A round marks exactly what is reachable. *)
Lemma set_mark_spec :
  covers cs [] →
  ∃ seen, mark cs = Some seen ∧ length seen = length cs ∧
    (∀ p, at_ seen p = if decide (p.1 < length cs)%nat then Some (view_at cs p (mk seen p)) else None) ∧
    ∀ p, mk seen p = true ↔ reach cs p.
Proof.
  intros Hc. rewrite mark_passes by done. set (seen0 := (λ e, (root e.1, root e.2)) <$> counted cs).
  assert (∀ p, at_ seen0 p = root <$> at_ (counted cs) p) as Hr0.
  { intros [i s]. unfold at_, seen0. simpl. rewrite list_lookup_fmap. destruct (counted cs !! i) as [[a b]|]; [|done]. by destruct s. }
  assert (marks seen0) as Hm0.
  { assert (∀ p, mk seen0 p = if decide (p.1 < length cs)%nat then open_at cs p && negb (refs_at cs p =? flight cs p) else false) as Hmk.
    { intros p. unfold mk. rewrite Hr0, at_counted by done. by case_decide. }
    split.
    - intros p. rewrite Hr0, at_counted, Hmk by done. by case_decide.
    - unfold seen0. by rewrite length_fmap, length_counted.
    - intros p. rewrite Hmk. case_decide; [|done]. intros H1. breflect. by apply reach_root.
    - intros p Ho Hf. rewrite Hmk. rewrite decide_True.
      + rewrite Ho. by destruct (Z.eqb_spec (refs_at cs p) (flight cs p)).
      + unfold open_at, ep in Ho. destruct (channel cs p.1) eqn:E; [|done]. by eapply lookup_lt_Some, channel_lookup. }
  destruct (spread_spec (2 * length cs) seen0 Hm0) as [Hm Hcl]; [lia|]. eexists. split; [done|].
  split_and!; [apply Hm|apply Hm|]. intros p. split; [apply Hm|]. induction 1 as [p Ho Hf|p q e Hp IH He Hn].
  - by apply (mk_root _ Hm).
  - eapply Hcl; [done|by apply reach_open|done..].
Qed.
End Spread.

(** ** Collecting *)

Definition dead_at (i : nat) (e : Seen * Seen) : list (nat * Side) :=
  (if is_dead e.1 then [(i, A)] else []) ++ (if is_dead e.2 then [(i, B)] else []).

Lemma elem_of_dead_at i e p : p ∈ dead_at i e ↔ p.1 = i ∧ is_dead (pick e p.2) = true.
Proof.
  unfold dead_at. rewrite elem_of_app. destruct p as [j s]. simpl.
  destruct s; destruct (is_dead e.1) eqn:E1, (is_dead e.2) eqn:E2;
    rewrite ?list_elem_of_singleton, ?elem_of_nil; simpl; split; intros H; destruct_or?; destruct_and?; simplify_eq; try (by auto); try congruence.
Qed.

Lemma dead_from_spec k seen :
  NoDup (concat (imap (λ i, dead_at (k + i)%nat) seen)) ∧
  ∀ p, p ∈ concat (imap (λ i, dead_at (k + i)%nat) seen) ↔
    (k ≤ p.1)%nat ∧ ∃ e, at_ seen ((p.1 - k)%nat, p.2) = Some e ∧ is_dead e = true.
Proof.
  revert k. induction seen as [|x l IH]; intros k.
  { simpl. split; [constructor|]. intros p. rewrite elem_of_nil. split; [done|]. by intros (_ & e & ? & _). }
  rewrite imap_cons. simpl. rewrite Nat.add_0_r.
  rewrite (imap_ext _ (λ i, dead_at (S k + i)%nat)) by (intros; simpl; f_equal; lia).
  destruct (IH (S k)) as [Hnd Hin]. split.
  - apply NoDup_app. split_and!; [|intros p [Hp _]%elem_of_dead_at [Hq _]%Hin; lia|done].
    unfold dead_at. destruct (is_dead x.1), (is_dead x.2); simpl; repeat constructor; set_solver.
  - intros p. rewrite elem_of_app, elem_of_dead_at, Hin. unfold at_. simpl.
    destruct (decide (p.1 = k)) as [->|Hne].
    + rewrite Nat.sub_diag. simpl. split; [intros [[_ ?]|[? _]]; [eauto|lia]|]. intros (_ & e & [= <-] & ?). by left.
    + split.
      * intros [[? _]|(Hle & e & He & ?)]; [done|]. split; [lia|]. exists e.
        replace (p.1 - k)%nat with (S (p.1 - S k)) by lia. done.
      * intros (Hle & e & He & ?). right. split; [lia|]. exists e.
        replace (p.1 - k)%nat with (S (p.1 - S k)) in He by lia. done.
Qed.

Lemma dead_places_spec seen :
  NoDup (dead_places seen) ∧ ∀ p, p ∈ dead_places seen ↔ ∃ e, at_ seen p = Some e ∧ is_dead e = true.
Proof.
  destruct (dead_from_spec 0 seen) as [Hnd Hin]. split; [apply Hnd|]. intros p. rewrite (Hin p), Nat.sub_0_r.
  destruct p. split; [by intros [_ ?]|]. intros. split; [simpl; lia|done].
Qed.

(** A place whose inbox nobody can receive from. *)
Definition dead (cs : t) (p : nat * Side) : Prop := ¬ reach cs p ∧ (open_at cs p = true ∨ queue_at cs p ≠ []).

Lemma dead_round cs :
  shaped cs → covers cs [] →
  ∃ seen, mark cs = Some seen ∧ NoDup (dead_places seen) ∧ (∀ p, p ∈ dead_places seen ↔ dead cs p) ∧
    ∀ p, reach cs p ∨ ¬ reach cs p.
Proof.
  intros Hs Hc. destruct (set_mark_spec cs Hs Hc) as (seen & Hm & _ & Hat & Hmk). exists seen.
  destruct (dead_places_spec seen) as [Hnd Hin]. split_and!; [done..| |].
  - intros p. rewrite Hin, Hat. unfold dead. rewrite <-Hmk. case_decide as Hl.
    + split.
      * intros (e & [= <-] & Hd). unfold is_dead, garbage, orphaned in Hd. simpl in Hd.
        destruct (open_at cs p) eqn:Ho; simpl in Hd.
        -- rewrite orb_false_r in Hd. breflect. split; [congruence|by left].
        -- apply Nat.ltb_lt in Hd. split; [|right; destruct (queue_at cs p); simpl in *; [lia|done]].
           rewrite Hmk. intros Hr%reach_open; [congruence|done..].
      * intros [Hn Ho]. eexists. split; [done|]. apply not_true_is_false in Hn. unfold is_dead, garbage, orphaned. simpl. rewrite Hn.
        destruct (open_at cs p); [done|]. simpl. destruct Ho as [|Ho]; [done|]. apply Nat.ltb_lt. destruct (queue_at cs p); [done|simpl; lia].
    + split; [by intros (e & ? & _)|]. intros [_ [Ho|Hq]]; exfalso.
      * unfold open_at, ep in Ho. destruct (channel cs p.1) eqn:E; [|done]. by apply Hl; eapply lookup_lt_Some, channel_lookup.
      * unfold queue_at in Hq. destruct (channel cs p.1) eqn:E; [|done]. by apply Hl; eapply lookup_lt_Some, channel_lookup.
  - intros p. rewrite <-Hmk. destruct (mk seen p); auto.
Qed.

(** After one round: what was reachable is as it was, everything else is closed and empty. *)
Lemma round_spec cs cs' gone k m :
  shaped cs → covers cs [] → effect cs cs' gone gone k m → (∀ p, reach cs p ∨ ¬ reach cs p) →
  (∀ p, dead cs p → queue_at cs' p = []) → (∀ p, ¬ dead cs p → queue_at cs' p = queue_at cs p) →
  (∀ p, outside cs' p = outside cs p) ∧
  (∀ p, reach cs p → open_at cs' p = true ∧ queue_at cs' p = queue_at cs p) ∧
  (∀ p, ¬ reach cs p → open_at cs' p = false ∧ queue_at cs' p = []) ∧
  (∀ p, reach cs' p ↔ reach cs p).
Proof.
  intros Hs Hc Hef Hdec Hq1 Hq2. pose proof Hef as [Hs' _ He Hr _ _ _]. pose proof (λ p, ef_flight _ _ _ _ _ _ p Hef) as Hf.
  assert (∀ p, outside cs' p = outside cs p) as Hout by (intros p; specialize (Hr p); specialize (Hf p); unfold outside; lia).
  assert (∀ p, reach cs p → queue_at cs' p = queue_at cs p) as Hqr by (intros p Hp; apply Hq2; intros [? _]; done).
  assert (covers cs' []) as Hc' by (eapply covers_effect; [done..|]; intros p; rewrite named_nil; lia).
  assert (∀ p, reach cs p → reach cs' p) as Hup.
  { induction 1 as [p Ho Hne|p q e Hp IH Hh [Hk Hn]].
    - assert (0 < outside cs' p) as Hpos by (rewrite Hout; unfold outside; specialize (Hc p); rewrite named_nil in Hc; lia).
      apply reach_root; [|unfold outside in Hpos; lia]. rewrite open_at_refs by done. unfold outside in Hpos.
      pose proof (named_nonneg cs' p (each_queued_in cs')). unfold flight in Hpos. destruct (Z.eqb_spec (refs_at cs' p) 0); [lia|done].
    - eapply reach_queued; [done| |split; [done|by rewrite He]]. unfold held. by rewrite Hqr. }
  assert (∀ p, ¬ reach cs p → queue_at cs' p = []) as Hempty.
  { intros p Hp. destruct (decide (queue_at cs p = [])) as [E|E].
    - destruct (open_at cs p) eqn:Ho; [apply Hq1; split; [done|by left]|]. rewrite Hq2; [done|]. intros [_ [?|?]]; congruence.
    - apply Hq1. split; [done|by right]. }
  assert (∀ p q e, e ∈ held cs' p → names cs' e q → reach cs q) as Hin.
  { intros p q e Hh [Hk Hn]. destruct (Hdec p) as [Hp|Hp].
    - unfold held in Hh. rewrite Hqr in Hh by done. eapply reach_queued; [done..|split; [done|by rewrite <-He]].
    - unfold held in Hh. rewrite Hempty in Hh by done. by apply elem_of_nil in Hh. }
  assert (∀ p, ¬ reach cs p → open_at cs' p = false) as Hshut.
  { intros p Hp. rewrite open_at_refs by done. assert (refs_at cs' p = 0) as ->; [|done].
    assert (flight cs' p = 0) as Hf0.
    { pose proof (named_nonneg cs' p (each_queued_in cs')) as H0. unfold flight. destruct (decide (0 < named cs' p (each_queued_in cs'))) as [E|]; [|lia].
      apply named_pos in E as (e & [q Hh]%elem_of_each_queued_in & Hn); [|done]. destruct Hp. by eapply Hin. }
    specialize (Hout p). unfold outside in Hout. destruct (open_at cs p) eqn:Ho.
    - assert (refs_at cs p = flight cs p); [|lia]. destruct (decide (refs_at cs p = flight cs p)); [done|]. destruct Hp. by apply reach_root.
    - rewrite open_at_refs in Ho by done. breflect. specialize (Hc p). rewrite named_nil in Hc.
      pose proof (named_nonneg cs p (each_queued_in cs)). unfold flight in *. lia. }
  split_and!; [done| | |].
  - intros p Hp. split; [|by apply Hqr]. by apply reach_open; [..|apply Hup].
  - intros p Hp. auto.
  - intros p. split; [|apply Hup]. intros Hp. destruct (Hdec p) as [|Hn]; [done|].
    apply reach_open in Hp; [|done..]. rewrite (Hshut p Hn) in Hp. done.
Qed.

(** A round that finds something dead takes a message. *)
Lemma dead_has_message cs p :
  shaped cs → covers cs [] → dead cs p → (∀ q, reach cs q ∨ ¬ reach cs q) → ∃ q, dead cs q ∧ queue_at cs q ≠ [].
Proof.
  intros Hs Hc [Hn Ho] Hdec. destruct (decide (queue_at cs p = [])) as [E|E]; [|exists p; split; [split|]; auto].
  destruct Ho as [Ho|]; [|done].
  assert (refs_at cs p = flight cs p) as Hrf.
  { destruct (decide (refs_at cs p = flight cs p)); [done|]. destruct Hn. by apply reach_root. }
  rewrite open_at_refs in Ho by done. breflect. pose proof (refs_at_u32 cs p Hs) as [? _].
  assert (0 < flight cs p) as Hpos by lia. apply named_pos in Hpos as (e & [q Hh]%elem_of_each_queued_in & Hnm); [|done].
  assert (queue_at cs q ≠ []) as Hq by (intros E'; unfold held in Hh; rewrite E' in Hh; by apply elem_of_nil in Hh).
  exists q. split; [|done]. split; [|by right]. intros Hr. apply Hn. by eapply reach_queued.
Qed.

Lemma collect_loop_clean fuel cs sunk done :
  shaped cs → covers cs [] → (∀ p, ¬ dead cs p) → collect_loop (S fuel) cs sunk done = Some (cs, sunk, done).
Proof.
  intros Hs Hc Hd. cbn [collect_loop]. destruct (dead_round cs Hs Hc) as (seen & -> & _ & Hin & _). cbn [mbind option_bind].
  destruct (dead_places seen) as [|p l]; [done|]. destruct (Hd p). apply Hin. left.
Qed.

Lemma sum_list_pos (l : list nat) n : n ∈ l → (n ≤ sum_list l)%nat.
Proof. induction l as [|x l IH]; [by intros ?%elem_of_nil|]. intros [->|Hn]%elem_of_cons; simpl; [lia|]. specialize (IH Hn). lia. Qed.

Lemma collect_spec cs :
  inv cs →
  ∃ cs' gone k m r, collect cs = Some (cs', filter (foreign cs) gone, {| rounds := r; closed := k; messages := m |}) ∧
    effect cs cs' gone gone k m ∧ (r ≤ 1)%nat ∧
    (∀ p, reach cs p → open_at cs' p = true ∧ queue_at cs' p = queue_at cs p) ∧
    (∀ p, ¬ reach cs p → open_at cs' p = false ∧ queue_at cs' p = []) ∧
    (∀ p, reach cs' p ↔ reach cs p).
Proof.
  intros [Hs Hc%covers_nil]. destruct (dead_round cs Hs Hc) as (seen & Hm & Hnd & Hin & Hdec).
  destruct (dead_places seen) as [|p0 l] eqn:Hdp.
  { assert (∀ p, ¬ dead cs p) as Hclean by (intros p Hp; apply Hin, elem_of_nil in Hp; done).
    exists cs, [], 0%nat, 0%nat, 0%nat. split_and!.
    - unfold collect. by rewrite collect_loop_clean.
    - by apply effect_refl.
    - lia.
    - intros p Hp. split; [by apply reach_open|done].
    - intros p Hp. destruct (open_at cs p) eqn:Ho; [destruct (Hclean p); split; [done|by left]|]. split; [done|].
      destruct (decide (queue_at cs p = [])); [done|]. destruct (Hclean p). split; [done|by right].
    - done. }
  unfold collect. cbn [collect_loop]. rewrite Hm. cbn [mbind option_bind]. rewrite Hdp. rewrite <-Hdp in *.
  destruct (sweep_spec cs (dead_places seen) [] {| rounds := rounds Collected_default + 1; closed := closed Collected_default;
    messages := messages Collected_default |} Hs Hc Hnd) as (cs' & k & m & -> & Hef & Em & Hq).
  cbn [mbind option_bind]. set (gone := concat (held cs <$> dead_places seen)) in *.
  assert (0 < m)%nat as Hpos.
  { destruct (dead_has_message cs p0 Hs Hc) as (q & Hd & Hne); [apply Hin; rewrite Hdp; left|done|].
    apply Hin in Hd. rewrite Em. assert (length (queue_at cs q) ≤ sum_list (length ∘ queue_at cs <$> dead_places seen))%nat as Hle.
    { apply sum_list_pos. apply list_elem_of_fmap. by exists q. }
    destruct (queue_at cs q); [done|simpl in Hle; lia]. }
  destruct (round_spec cs cs' gone k m Hs Hc Hef Hdec) as (Hout & Hr1 & Hr2 & Hr3).
  { intros p Hp. rewrite Hq, decide_True; [done|by apply Hin]. }
  { intros p Hp. rewrite Hq, decide_False; [done|]. by rewrite Hin. }
  assert (covers cs' []) as Hc' by (apply covers_nil; intros p; rewrite Hout; by apply covers_nil).
  simpl. destruct (Nat.eqb_spec m 0); [lia|]. simpl.
  destruct (total_messages cs) as [|u] eqn:Et; [pose proof (ef_msgs _ _ _ _ _ _ Hef); lia|].
  rewrite collect_loop_clean; [|apply Hef|done|].
  - exists cs', gone, k, m, 1%nat. by split_and!.
  - intros p [Hn Ho]. rewrite Hr3 in Hn. destruct (Hr2 p Hn) as [H1 H2]. rewrite H1, H2 in Ho. by destruct Ho.
Qed.

End Set_.

(** C30. collecting frees exactly what nobody can reach. On a set whose endpoints count at least
    the copies queued in it, [collect] ends within its turns, after at most one sweep, without
    failing either assertion. An endpoint that is reachable, because it is held outside the
    queues or queued in the inbox of a reachable one, stays open with its queue as it was.
    Every other endpoint is closed with its queue empty. What left the queues is released if
    it names an endpoint of the set and given to the sink otherwise, once and in order; the
    references held outside the queues are the same as before; and [closed] and [messages]
    count the endpoints that closed and the messages taken. *)
Theorem collect_frees_the_unreachable nb nh cs (Hinv : inv nb nh cs) :
  ∃ cs' gone k m r, collect cs = Some (cs', filter (foreign cs) gone, {| rounds := r; closed := k; messages := m |}) ∧
    (r ≤ 1)%nat ∧ inv nb nh cs' ∧ length cs' = length cs ∧ (∀ p, eid cs' p = eid cs p) ∧
    (∀ p, reach cs p → open_at cs' p = true ∧ queue_at cs' p = queue_at cs p) ∧
    (∀ p, ¬ reach cs p → open_at cs' p = false ∧ queue_at cs' p = []) ∧
    each_queued_in cs ≡ₚ gone ++ each_queued_in cs' ∧
    (∀ p, refs_at cs' p = refs_at cs p - named cs p gone) ∧ (∀ p, outside cs' p = outside cs p) ∧
    tally opens cs = (tally opens cs' + k)%nat ∧ total_messages cs = (total_messages cs' + m)%nat.
Proof.
  destruct (collect_spec nb nh cs Hinv) as (cs' & gone & k & m & r & E & Hef & Hr & H1 & H2 & _).
  assert (∀ p, outside cs' p = outside cs p) as Hout.
  { intros p. pose proof (ef_flight _ _ _ _ _ _ _ _ p Hef). pose proof (ef_refs _ _ _ _ _ _ _ _ Hef p). unfold outside. lia. }
  exists cs', gone, k, m, r. split_and!; try done; [|apply Hef..].
  split; [apply Hef|]. intros p. rewrite Hout. apply Hinv.
Qed.

(** Two channels whose open ends are queued in each other, with an event beside one of them,
    and a third held from outside. *)
Definition example_box (es : list Entry.t) : Inbox.t :=
  {| Inbox.slots := [{| Inbox.bytes := [0]; Inbox.mlen := 0; Inbox.handles := Inbox.stage [None; None] es |}; Inbox.EMPTY 1 2];
     Inbox.head := 0; Inbox.len := if es is [] then 0 else 1 |}.
Definition example_pair (a : ObjectId) (es : list Entry.t) : option Channel.t :=
  Some {| id_a := a; id_b := a + 1; end_a := {| refs := 1; open := true; inbox := example_box es |};
          end_b := {| refs := 0; open := false; inbox := example_box [] |} |}.
Definition example_set : t :=
  [example_pair 1 [Entry.Build 3 Channel ENDPOINT_RIGHTS; Entry.Build 9 Event Rights.ALL];
   example_pair 3 [Entry.Build 1 Channel ENDPOINT_RIGHTS]; example_pair 5 []].

Lemma example_set_inv : inv 1 2 example_set.
Proof.
  assert (∀ es, (length es ≤ 2)%nat → Inbox.wf 1 2 (example_box es)) as Hb.
  { intros es Hes. split; [unfold Inbox.depth; simpl; lia|unfold Inbox.depth; destruct es; simpl; lia| |].
    - intros [|[|i]] m Hm; simplify_eq/=; [|split; simpl; done || lia].
      destruct es as [|a [|b [|c es]]]; simpl in *; try lia; split; simpl; done || lia.
    - unfold Inbox.depth. intros [|[|o]] m Ho Hm; [|simplify_eq/=; done|simpl in Ho; lia]. destruct es; [|simpl in Ho; lia]. simplify_eq/=. done. }
  split.
  - split.
    + intros [|[|[|i]]] c Hc; unfold channel, example_set, example_pair in Hc; simplify_eq/=; (split; [simpl; lia| |]);
        try (intros []; split; simpl; try done; apply Hb; simpl; lia);
        intros [] bs es e Hin He; apply list_elem_of_In in Hin, He; vm_compute in Hin; destruct_or?; simplify_eq;
        simpl in He; destruct_or?; simplify_eq; done.
    + intros [[|[|[|i]]] []] [[|[|[|j]]] []] o Hp Hq; unfold eid, channel, example_set, example_pair in *; simplify_eq/=; done.
  - intros [[|[|[|i]]] []]; vm_compute; discriminate.
Qed.

Lemma collect_frees_the_unreachable_witness : ∃ cs' sunk done,
  collect example_set = Some (cs', sunk, done) ∧ inv 1 2 cs' ∧
  sunk = [Entry.Build 9 Event Rights.ALL] ∧ done = {| rounds := 1; closed := 2; messages := 2 |} ∧
  open_at cs' (0%nat, A) = false ∧ open_at cs' (2%nat, A) = true ∧ queue_at cs' (1%nat, A) = [].
Proof.
  destruct (collect_frees_the_unreachable 1 2 example_set example_set_inv) as
    (cs' & gone & k & m & r & E & _ & Hi & _).
  eassert (collect example_set = Some (_, _, _)) as E2 by (vm_compute; reflexivity).
  rewrite E2 in E. injection E as <- _ _ _ _. eexists _, _, _. split; [exact E2|]. split; [exact Hi|]. repeat split.
Defined.

End ChannelSet.
