(* ===== verification/IpcSetAccounting.v ===== *)
(** * Reference accounting over a set of channels

    [kernel/ipc/src/set.rs] with the operations of [kernel/ipc/src/channel.rs] that run on the
    set's channels beside any number of handle tables.  The counts stay exact, so the collector
    only ever runs on a set it is right about, and no close leaves an unreachable cycle. *)

From S2P Require Import Prelude KobjectRights KobjectObject KobjectHandle IpcInbox IpcChannel IpcAccounting IpcSet.
Local Open Scope Z_scope.

Module SetAccounting.
Import ChannelSet.

(** The identity source after [n] draws. *)
Fixpoint advance {I} `{IdSource I} (n : nat) (s : I) : I :=
  match n with O => s | S n => advance n (next_id s).2 end.

(** [loose] are the references in no table and no queue: what [create] returned and what a
    [sink] received.  [drawn] counts the identities the source has given out. *)
Record world (I : Type) := {
  set : list (option Channel.t); tables : list HandleTable.t; loose : list Entry.t; ids : I; drawn : nat }.
Arguments set {I}. Arguments tables {I}. Arguments loose {I}. Arguments ids {I}. Arguments drawn {I}.

Section World.
Context {I : Type} `{IdSourceOk I} (s0 : I) (D nb nh : nat).

Definition start (CAP : nat) (ts : list HandleTable.t) : world I :=
  {| set := ChannelSet.new CAP; tables := ts; loose := []; ids := s0; drawn := 0 |}.

Definition outside_entries (w : world I) : list Entry.t := loose w ++ concat (HandleTable.entries <$> tables w).
(** Every entry that exists. *)
Definition everything (w : world I) : list Entry.t := each_queued_in (set w) ++ outside_entries w.

Definition on_table (w : world I) (i : nat) (c : Channel.t) (k : nat) (table : HandleTable.t) : world I :=
  {| set := <[i := Some c]> (set w); tables := <[k := table]> (tables w); loose := loose w; ids := ids w; drawn := drawn w |}.

(** The steps of processes on channels of the set, of the code that owns the set, and of the
    code that owns loose references.  Left out are only operations that bypass the accounting:
    duplicating or closing a channel handle with the table's own operations, and forging an
    entry of a channel. *)
Inductive step (w : world I) : world I → Prop :=
| step_create rights cs' ids' r :
    Z.of_nat (drawn w + 2) ≤ ids_left s0 →
    create D nb nh (set w) (ids w) rights = Some (cs', ids', r) →
    step w {| set := cs'; tables := tables w;
              loose := match r with Ok (_, (ea, eb)) => ea :: eb :: loose w | Err _ => loose w end;
              ids := ids'; drawn := match r with Ok _ => drawn w + 2 | Err _ => drawn w end |}
| step_send i c k table ep bytes ts c' table' r :
    channel (set w) i = Some c → tables w !! k = Some table → Forall Handle.wf (Channel.handle <$> ts) →
    Channel.send nb nh c table ep bytes ts = Some (c', table', r) → step w (on_table w i c' k table')
| step_receive i c k table ep bytes hs c' table' bytes' hs' r :
    channel (set w) i = Some c → tables w !! k = Some table →
    Channel.receive c table ep bytes hs = Some (c', table', bytes', hs', r) → step w (on_table w i c' k table')
| step_duplicate i c k table ep m c' table' r :
    channel (set w) i = Some c → tables w !! k = Some table →
    Channel.duplicate c table ep m = Some (c', table', r) → step w (on_table w i c' k table')
| step_close k table ep cs' table' sunk r :
    tables w !! k = Some table → ChannelSet.close (set w) table ep = Some (cs', table', sunk, r) →
    step w {| set := cs'; tables := <[k := table']> (tables w); loose := sunk ++ loose w; ids := ids w; drawn := drawn w |}
| step_release n e cs' sunk r :
    loose w !! n = Some e → Entry.kind e = Channel → ChannelSet.release (set w) e = Some (cs', sunk, r) →
    step w {| set := cs'; tables := tables w; loose := sunk ++ delete n (loose w); ids := ids w; drawn := drawn w |}
| step_collect cs' sunk done :
    ChannelSet.collect (set w) = Some (cs', sunk, done) →
    step w {| set := cs'; tables := tables w; loose := sunk ++ loose w; ids := ids w; drawn := drawn w |}
| step_install k table n e table' h :
    tables w !! k = Some table → loose w !! n = Some e →
    HandleTable.insert table (Entry.object e) (Entry.kind e) (Entry.rights e) = Some (table', Ok h) →
    step w {| set := set w; tables := <[k := table']> (tables w); loose := delete n (loose w); ids := ids w; drawn := drawn w |}
| step_take k table h e table' :
    tables w !! k = Some table → HandleTable.transfer_out table h = Some (table', Ok e) →
    step w {| set := set w; tables := <[k := table']> (tables w); loose := e :: loose w; ids := ids w; drawn := drawn w |}
| step_new_object k table e table' h :
    tables w !! k = Some table → Entry.kind e ≠ Channel →
    HandleTable.insert table (Entry.object e) (Entry.kind e) (Entry.rights e) = Some (table', Ok h) →
    step w {| set := set w; tables := <[k := table']> (tables w); loose := loose w; ids := ids w; drawn := drawn w |}
| step_close_object k table h e table' :
    tables w !! k = Some table → HandleTable.close table h = Some (table', Ok e) → Entry.kind e ≠ Channel →
    step w {| set := set w; tables := <[k := table']> (tables w); loose := loose w; ids := ids w; drawn := drawn w |}
| step_drop n e :
    loose w !! n = Some e → Entry.kind e ≠ Channel →
    step w {| set := set w; tables := tables w; loose := delete n (loose w); ids := ids w; drawn := drawn w |}.

(** ** The invariant *)

Definition key (e : Entry.t) : ObjectType * ObjectId := (Entry.kind e, Entry.object e).
Definition census (w : world I) : list (ObjectType * ObjectId) := key <$> everything w.
Definition count_key (cs : list (option Channel.t)) (p : nat * Channel.Side) (l : list (ObjectType * ObjectId)) : Z :=
  match eid cs p with Some o => Z.of_nat (length (filter (λ x, x = (Channel, o)) l)) | None => 0 end.
Definition known (cs : list (option Channel.t)) (x : ObjectType * ObjectId) : Prop :=
  x.1 = Channel → ∃ p, eid cs p = Some x.2.

Record inv (w : world I) : Prop := {
  inv_shaped : shaped nb nh (set w);
  inv_tables : Forall HandleTable.wf (tables w);
  (** The count of an endpoint is the number of references to it that exist. *)
  inv_exact : ∀ p, refs_at (set w) p = count_key (set w) p (census w);
  (** Every channel reference names an endpoint of the set. *)
  inv_known : Forall (known (set w)) (census w);
  inv_ids : ids w = advance (drawn w) s0;
  inv_drawn : ∀ p o, eid (set w) p = Some o → o ∈ draws (drawn w) s0;
  inv_budget : Z.of_nat (drawn w) ≤ ids_left s0 ∨ drawn w = 0%nat;
}.

Lemma named_key cs p l : named cs p l = count_key cs p (key <$> l).
Proof.
  unfold named, count_key, Accounting.naming. destruct (eid cs p) as [o|]; [|done]. f_equal.
  induction l as [|e l IH]; [done|]. csimpl. rewrite !filter_cons.
  destruct (decide (Entry.kind e = Channel ∧ Entry.object e = o)) as [[H1 H2]|Hn].
  - rewrite decide_True by (unfold key; congruence). simpl. by rewrite IH.
  - rewrite decide_False by (unfold key; intros [= H1 H2]; auto). done.
Qed.

Lemma count_key_app cs p l k : count_key cs p (l ++ k) = count_key cs p l + count_key cs p k.
Proof. unfold count_key. destruct (eid cs p); [|done]. rewrite filter_app, length_app. lia. Qed.

Lemma count_key_perm cs p l k : l ≡ₚ k → count_key cs p l = count_key cs p k.
Proof. intros E. unfold count_key. destruct (eid cs p); [|done]. by rewrite E. Qed.

Lemma count_key_ext cs cs' p l : eid cs' p = eid cs p → count_key cs' p l = count_key cs p l.
Proof. intros E. unfold count_key. by rewrite E. Qed.

(** A step that takes [gone] out of the world and puts [come] into it keeps the counts exact if
    the endpoints' counts move alike. *)
Lemma inv_moves w w' gone come :
  inv w → shaped nb nh (set w') → Forall HandleTable.wf (tables w') → ids w' = ids w → drawn w' = drawn w →
  (∀ p, eid (set w') p = eid (set w) p) → census w ++ come ≡ₚ census w' ++ gone →
  (∀ p, refs_at (set w') p + count_key (set w) p gone = refs_at (set w) p + count_key (set w) p come) →
  Forall (known (set w)) come → inv w'.
Proof.
  intros [Hs Ht He Hk Hi Hd Hb] Hs' Ht' Ei Ed Eid Hc Hr Hkc. split; try done; try congruence.
  - intros p. pose proof (count_key_perm (set w) p _ _ Hc) as E. rewrite !count_key_app in E.
    rewrite (count_key_ext (set w)) by done. specialize (He p). specialize (Hr p). lia.
  - assert (Forall (known (set w)) (census w' ++ gone)) as Hall by (rewrite <-Hc; by apply Forall_app).
    apply Forall_app in Hall as [Hall _]. eapply Forall_impl; [done|]. intros x Hx Hx1.
    destruct (Hx Hx1) as [p Hp]. exists p. by rewrite Eid.
  - intros p o. rewrite Eid, Ed. apply Hd.
Qed.

Lemma census_eq w :
  census w = (key <$> each_queued_in (set w)) ++ (key <$> loose w) ++ (key <$> concat (HandleTable.entries <$> tables w)).
Proof. unfold census, everything, outside_entries. by rewrite !fmap_app. Qed.

Lemma refs_at_insert_same cs i c d p :
  channel cs i = Some c → (∀ s, Channel.references d s = Channel.references c s) →
  refs_at (<[i := Some d]> cs) p = refs_at cs p.
Proof.
  intros Hc Hr. unfold refs_at. rewrite (ep_insert _ _ _ _ Hc). case_decide as E; [|done]. unfold ep. rewrite E, Hc. simpl. apply Hr.
Qed.

Lemma count_key_one cs p q o :
  shaped nb nh cs → eid cs q = Some o → count_key cs p [(Channel, o)] = if decide (p = q) then 1 else 0.
Proof.
  intros Hs Hq. unfold count_key. destruct (eid cs p) as [o'|] eqn:Hp.
  - rewrite filter_cons. destruct (decide (p = q)) as [->|Hne].
    + rewrite decide_True by congruence. done.
    + rewrite decide_False; [done|]. intros [= ->]. apply Hne. by eapply sh_ids.
  - rewrite decide_False; [done|]. intros ->. congruence.
Qed.

(** What an operation on channel [i] and table [k] moves, all by key. *)
Lemma inv_on_table w i c k table c' table' (qgone qcome tgone tcome gone come : list (ObjectType * ObjectId)) :
  inv w → channel (set w) i = Some c → tables w !! k = Some table →
  Channel.wf nb nh c' → HandleTable.wf table' → (∀ s, Channel.id c' s = Channel.id c s) →
  (key <$> boxes (Some c)) ++ qcome ≡ₚ (key <$> boxes (Some c')) ++ qgone →
  (key <$> HandleTable.entries table) ++ tcome ≡ₚ (key <$> HandleTable.entries table') ++ tgone →
  qgone ++ tgone ++ come ≡ₚ qcome ++ tcome ++ gone →
  (∀ p, refs_at (<[i := Some c']> (set w)) p + count_key (set w) p gone = refs_at (set w) p + count_key (set w) p come) →
  Forall (known (set w)) come → inv (on_table w i c' k table').
Proof.
  intros Hinv Hc Hk Hw' Ht' Hid Hq Ht Hm Hr Hkn. eapply (inv_moves w _ gone come); try done.
  - simpl. eapply shaped_insert; [done..|apply Hinv|done].
  - simpl. apply Forall_insert; [apply Hinv|done].
  - intros p. simpl. by eapply eid_insert.
  - rewrite !census_eq. simpl.
    destruct (queued_insert (set w) i c c' Hc) as (r & -> & ->).
    destruct (concat_insert_Permutation HandleTable.entries (tables w) k table table' Hk) as (r' & -> & ->).
    rewrite !fmap_app. remember (key <$> boxes (Some c)) as b1. remember (key <$> boxes (Some c')) as b2.
    remember (key <$> HandleTable.entries table) as t1. remember (key <$> HandleTable.entries table') as t2.
    clear -Hq Ht Hm. apply (Permutation_app_inv_r (qgone ++ tgone)).
    transitivity ((b1 ++ qgone ++ tgone ++ come) ++ t1 ++ (key <$> r) ++ (key <$> loose w) ++ (key <$> r')); [solve_Permutation|].
    rewrite Hm. transitivity ((b1 ++ qcome) ++ (t1 ++ tcome) ++ gone ++ (key <$> r) ++ (key <$> loose w) ++ (key <$> r')); [solve_Permutation|].
    rewrite Hq, Ht. solve_Permutation.
Qed.

Lemma on_table_same w i c k table : channel (set w) i = Some c → tables w !! k = Some table → on_table w i c k table = w.
Proof.
  intros Hc%channel_lookup Hk. unfold on_table. destruct w; simpl in *. by rewrite !list_insert_id.
Qed.

Lemma set_send w i c k table ep bytes ts c' table' r :
  inv w → channel (set w) i = Some c → tables w !! k = Some table → Forall Handle.wf (Channel.handle <$> ts) →
  Channel.send nb nh c table ep bytes ts = Some (c', table', r) → inv (on_table w i c' k table').
Proof.
  intros Hinv Hc Hk Hts E. pose proof (Forall_lookup_1 _ _ _ _ (inv_tables _ Hinv) Hk) as Ht.
  pose proof (sh_wf _ _ _ (inv_shaped _ Hinv) _ _ Hc) as Hw.
  destruct (Channel.endpoint c table ep Rights.WRITE) as [side|e] eqn:Hep.
  2:{ unfold Channel.send in E. rewrite Hep in E. simplify_eq. by rewrite on_table_same. }
  destruct (Channel.can_send_dec nb nh c table side bytes ts) as [Hcs|Hcs].
  2:{ destruct (Channel.send_refused _ _ _ _ _ _ _ _ Hep Hcs) as (e & E' & _). simplify_eq. by rewrite on_table_same. }
  destruct (Channel.send_accepted nb nh _ _ _ _ _ _ Hw Ht Hts Hep Hcs) as
    (c1 & t1 & es & held & E' & Hcar & Hget & Hw' & Ht' & Hqp & Hqs & Hr & Hid & _ & Hp). simplify_eq.
  assert (key <$> es = key <$> held) as Hkey.
  { apply list_eq_same_length with (length es); [by rewrite !length_fmap, <-(Forall2_length _ _ _ Hcar), <-(length_fmap Channel.handle), (Forall2_length _ _ _ Hget)|by rewrite length_fmap|].
    intros n x y _ Hx Hy. rewrite list_lookup_fmap in Hx, Hy.
    destruct (es !! n) as [e1|] eqn:E1, (held !! n) as [e2|] eqn:E2; simplify_eq/=.
    destruct (Forall2_lookup_r _ _ _ _ _ Hcar E1) as (tr & Htr & h0 & Hg0 & ->).
    destruct (Forall2_lookup_r _ _ _ _ _ Hget E2) as (h & Hh & Hg). rewrite list_lookup_fmap, Htr in Hh. simplify_eq/=. rewrite Hg0 in Hg. by simplify_eq. }
  eapply (inv_on_table w i c k table c' table' [] (key <$> es) (key <$> held) [] [] []); try done.
  - simpl. rewrite app_nil_r. unfold carried_by. destruct side; simpl in *; rewrite Hqp, Hqs; simpl;
      rewrite !fmap_app, concat_app; simpl; rewrite !fmap_app; simpl; rewrite ?app_nil_r; solve_Permutation.
  - rewrite app_nil_r, Hp, fmap_app. solve_Permutation.
  - simpl. rewrite Hkey. solve_Permutation.
  - intros p. f_equal. by eapply refs_at_insert_same.
Qed.

Lemma set_receive w i c k table ep bytes hs c' table' bytes' hs' r :
  inv w → channel (set w) i = Some c → tables w !! k = Some table →
  Channel.receive c table ep bytes hs = Some (c', table', bytes', hs', r) → inv (on_table w i c' k table').
Proof.
  intros Hinv Hc Hk E. pose proof (Forall_lookup_1 _ _ _ _ (inv_tables _ Hinv) Hk) as Ht.
  pose proof (sh_wf _ _ _ (inv_shaped _ Hinv) _ _ Hc) as Hw.
  destruct (Channel.endpoint c table ep Rights.READ) as [side|e] eqn:Hep.
  2:{ unfold Channel.receive in E. rewrite Hep in E. simplify_eq. by rewrite on_table_same. }
  destruct (Channel.can_receive_dec c table side (length bytes) (length hs)) as [(bs & es & rest & Hcr)|Hcr].
  2:{ destruct (Channel.receive_refused nb nh _ _ _ _ _ _ Hw Hep Hcr) as (e & E' & _). simplify_eq. by rewrite on_table_same. }
  destruct (Channel.receive_accepted nb nh _ _ _ _ _ _ _ _ _ Hw Ht Hep Hcr) as
    (c1 & t1 & hs1 & E' & Hw' & Ht' & Hqs & Hqp & Hr & Hid & _ & _ & _ & _ & Hp). simplify_eq.
  destruct Hcr as (_ & Hq & _).
  eapply (inv_on_table w i c k table c' table' (key <$> es) [] [] (key <$> es) [] []); try done.
  - simpl. rewrite app_nil_r. unfold carried_by. destruct side; simpl in *; rewrite Hqp, Hq; simpl; rewrite !fmap_app; solve_Permutation.
  - rewrite app_nil_r, Hp, fmap_app. solve_Permutation.
  - intros p. f_equal. by eapply refs_at_insert_same.
Qed.

Lemma set_duplicate w i c k table ep m c' table' r :
  inv w → channel (set w) i = Some c → tables w !! k = Some table →
  Channel.duplicate c table ep m = Some (c', table', r) → inv (on_table w i c' k table').
Proof.
  intros Hinv Hc Hk E. pose proof (Forall_lookup_1 _ _ _ _ (inv_tables _ Hinv) Hk) as Ht.
  pose proof (inv_shaped _ Hinv) as Hs. pose proof (sh_wf _ _ _ Hs _ _ Hc) as Hw.
  destruct (Accounting.duplicate_effect nb nh _ _ _ _ _ _ _ Hw Ht E) as
    [[-> ->]|(side & e & Hw' & Ht' & Hid & Hq & _ & Hkd & Hobj & Hp & Hr)]; [by rewrite on_table_same|].
  assert (eid (set w) (i, side) = Some (Entry.object e)) as He by (unfold eid; simpl; by rewrite Hc, Hobj).
  assert (key e = (Channel, Entry.object e)) as Hkey by (unfold key; by rewrite Hkd).
  eapply (inv_on_table w i c k table c' table' [] [] [] [key e] [] [key e]); try done.
  - simpl. by rewrite !Hq, !app_nil_r.
  - rewrite app_nil_r, Hp. csimpl. solve_Permutation.
  - intros p. rewrite Hkey, (count_key_one _ _ (i, side)) by done. assert (count_key (set w) p [] = 0) as -> by (unfold count_key; by destruct (eid _ p)).
    unfold refs_at. rewrite (ep_insert _ _ _ _ Hc). destruct p as [j s]. simpl. destruct (decide (j = i)) as [->|Hne].
    + unfold ChannelSet.ep. simpl. rewrite Hc. simpl. specialize (Hr s). unfold Channel.references in Hr. rewrite Hr.
      destruct (decide (s = side)) as [->|]; [rewrite decide_True by done; lia|rewrite decide_False by congruence; lia].
    + rewrite decide_False by congruence. lia.
  - constructor; [|constructor]. intros _. exists (i, side). by rewrite Hkey.
Qed.

(** ** Releasing and collecting *)

Lemma named_foreign cs p l : shaped nb nh cs → named cs p (filter (foreign cs) l) = 0.
Proof.
  intros Hs. pose proof (named_nonneg cs p (filter (foreign cs) l)). destruct (decide (0 < named cs p (filter (foreign cs) l))) as [E|]; [|lia].
  apply (named_pos nb nh) in E as (e & [Hf _]%list_elem_of_filter & Hn); [|done].
  apply (seen_index_names nb nh) in Hn; [|done]. unfold foreign in Hf. congruence.
Qed.

Lemma outside_named w p : inv w → outside (set w) p = named (set w) p (outside_entries w).
Proof.
  intros Hinv. unfold outside, flight. rewrite (inv_exact _ Hinv). unfold census. rewrite <-named_key. unfold everything.
  rewrite named_app. lia.
Qed.

Lemma set_inv w : inv w → ChannelSet.inv nb nh (set w).
Proof. intros Hinv. split; [apply Hinv|]. intros p. rewrite outside_named by done. apply named_nonneg. Qed.

(** The set gives back [rel] and then collects [gone]. *)
Lemma inv_collected w w' cs1 rel gone k1 k m rest :
  inv w → effect nb nh (set w) cs1 rel [] k1 0 → effect nb nh cs1 (set w') gone gone k m →
  outside_entries w ≡ₚ rel ++ rest → outside_entries w' ≡ₚ filter (foreign cs1) gone ++ rest →
  Forall HandleTable.wf (tables w') → ids w' = ids w → drawn w' = drawn w → inv w'.
Proof.
  intros Hinv H1 H2 Ho Ho' Ht Ei Ed.
  assert (∀ p, eid (set w') p = eid (set w) p) as Heid by (intros p; by rewrite (ef_eid _ _ _ _ _ _ _ _ H2), (ef_eid _ _ _ _ _ _ _ _ H1)).
  set (released := filter (λ e, ¬ foreign cs1 e) gone).
  assert (gone ≡ₚ filter (foreign cs1) gone ++ released) as Hgone by (unfold released; by rewrite filter_app_complement).
  eapply (inv_moves w w' (key <$> rel ++ released) []); try done.
  - apply H2.
  - rewrite app_nil_r. unfold census, everything. rewrite <-fmap_app. apply fmap_Permutation.
    rewrite (ef_queued _ _ _ _ _ _ _ _ H1), (ef_queued _ _ _ _ _ _ _ _ H2), Ho, Ho'. rewrite Hgone at 1. solve_Permutation.
  - intros p. rewrite <-named_key, named_app. pose proof (ef_refs _ _ _ _ _ _ _ _ H1 p) as E1.
    pose proof (ef_refs _ _ _ _ _ _ _ _ H2 p) as E2. rewrite (named_ext (set w) cs1) in E2 by apply H1.
    rewrite (named_perm _ _ _ _ Hgone), named_app in E2.
    rewrite <-(named_ext (set w) cs1 p (filter _ _)), named_foreign in E2 by apply H1.
    assert (count_key (set w) p [] = 0) as -> by (unfold count_key; by destruct (eid _ p)). lia.
Qed.

Lemma set_release w e p :
  inv w → Entry.kind e = Channel → names (set w) e p → e ∈ outside_entries w →
  ∃ cs1 cs' gone k1 k m r, ChannelSet.release (set w) e =
      Some (cs', filter (foreign cs1) gone, Ok {| rounds := r; closed := k; messages := m |}) ∧
    effect nb nh (set w) cs1 [e] [] k1 0 ∧ effect nb nh cs1 cs' gone gone k m ∧
    (∀ q, queue_at cs1 q = queue_at (set w) q) ∧
    (∀ q, reach cs1 q → open_at cs' q = true ∧ queue_at cs' q = queue_at cs1 q) ∧
    (∀ q, ¬ reach cs1 q → open_at cs' q = false ∧ queue_at cs' q = []) ∧ (∀ q, reach cs' q ↔ reach cs1 q).
Proof.
  intros Hinv Hk Hn Hin. pose proof (inv_shaped _ Hinv) as Hs.
  assert (∀ q, named (set w) q [e] ≤ outside (set w) q) as Hout.
  { intros q. rewrite outside_named by done. apply elem_of_Permutation in Hin as [l Hl].
    rewrite (named_perm _ _ _ _ Hl). change (e :: l) with ([e] ++ l). rewrite named_app. pose proof (named_nonneg (set w) q l). lia. }
  assert (0 < refs_at (set w) p) as Hpos.
  { specialize (Hout p). rewrite (named_cons nb nh), named_nil in Hout by done.
    rewrite decide_True in Hout by (by apply (seen_index_names nb nh)). unfold outside in Hout.
    pose proof (named_nonneg (set w) p (each_queued_in (set w))). unfold flight in Hout. lia. }
  destruct (release_keeping_effect nb nh (set w) e p Hs Hn Hpos) as (c & c' & b & Hc & Hrel & Hef & Hq).
  set (cs1 := <[p.1 := Some c']> (set w)) in *.
  assert (ChannelSet.inv nb nh cs1) as Hi1.
  { split; [apply Hef|]. intros q. pose proof (ef_flight _ _ _ _ _ _ _ _ q Hef) as Hf. pose proof (ef_refs _ _ _ _ _ _ _ _ Hef q) as Hr.
    rewrite named_nil in Hf. specialize (Hout q). unfold outside in *. lia. }
  destruct (collect_spec nb nh cs1 Hi1) as (cs' & gone & k & m & r & E & Hef2 & _ & H1 & H2 & H3).
  eexists cs1, cs', gone, _, k, m, r. split_and!; [|exact Hef|done..].
  unfold ChannelSet.release. rewrite decide_True by done.
  rewrite (proj2 (find_eid nb nh (set w) (Entry.object e) p Hs)) by apply Hn. simpl. rewrite Hc. simpl. rewrite Hrel.
  fold cs1. by rewrite E.
Qed.

Lemma step_release_inv w n e cs' sunk r :
  inv w → loose w !! n = Some e → Entry.kind e = Channel → ChannelSet.release (set w) e = Some (cs', sunk, r) →
  inv {| set := cs'; tables := tables w; loose := sunk ++ delete n (loose w); ids := ids w; drawn := drawn w |}.
Proof.
  intros Hinv Hn Hk E. assert (e ∈ outside_entries w) as Hin.
  { unfold outside_entries. apply elem_of_app. left. by eapply list_elem_of_lookup_2. }
  assert (∃ p, names (set w) e p) as [p Hp].
  { pose proof (inv_known _ Hinv) as Hkn. rewrite Forall_forall in Hkn. destruct (Hkn (key e)) as [p Hp]; [|done|by exists p].
    apply list_elem_of_fmap. exists e. split; [done|]. unfold everything. apply elem_of_app. by right. }
  destruct (set_release w e p Hinv Hk Hp Hin) as (cs1 & cs2 & gone & k1 & k & m & r0 & E' & H1 & H2 & _). rewrite E' in E. simplify_eq.
  eapply (inv_collected w _ cs1 [e] gone k1 k m (delete n (loose w) ++ concat (HandleTable.entries <$> tables w))); try done.
  - unfold outside_entries. rewrite (delete_Permutation _ _ _ Hn) at 1. done.
  - unfold outside_entries. simpl. by rewrite (assoc_L (++)).
  - apply Hinv.
Qed.

Lemma step_collect_inv w cs' sunk done :
  inv w → ChannelSet.collect (set w) = Some (cs', sunk, done) →
  inv {| set := cs'; tables := tables w; loose := sunk ++ loose w; ids := ids w; drawn := drawn w |}.
Proof.
  intros Hinv E. destruct (collect_spec nb nh (set w) (set_inv w Hinv)) as (cs1 & gone & k & m & r & E' & Hef & _).
  rewrite E' in E. simplify_eq.
  eapply (inv_collected w _ (set w) [] gone 0 k m (outside_entries w)); try done.
  - apply effect_refl, Hinv.
  - unfold outside_entries. simpl. by rewrite (assoc_L (++)).
  - apply Hinv.
Qed.

(** Closing a handle that resolves to an endpoint of the set. *)
Lemma close_as_release w k table ep e :
  inv w → tables w !! k = Some table → HandleTable.get_checked table ep Channel Rights.empty = Ok e →
  ∃ table' p, HandleTable.close table ep = Some (table', Ok e) ∧ HandleTable.wf table' ∧
    HandleTable.entries table ≡ₚ e :: HandleTable.entries table' ∧ Entry.kind e = Channel ∧ names (set w) e p ∧
    e ∈ outside_entries w ∧
    ChannelSet.close (set w) table ep = '(cs', sunk, r) ← ChannelSet.release (set w) e; Some (cs', table', sunk, r).
Proof.
  intros Hinv Hk Hg. pose proof (Forall_lookup_1 _ _ _ _ (inv_tables _ Hinv) Hk) as Ht.
  assert (HandleTable.get table ep = Ok e ∧ Entry.kind e = Channel) as [Hget Hkd].
  { unfold HandleTable.get_checked in Hg. destruct (HandleTable.get table ep) as [e'|]; [simpl in Hg|done].
    case_decide; [|done]. case_match; [done|]. by simplify_eq. }
  destruct (HandleTable.close_Ok table ep e Ht Hget) as (s & _ & _ & _ & Hc).
  pose proof (HandleTable.close_entries _ _ _ _ Ht Hc) as [Ht' [_ Hp]].
  assert (e ∈ outside_entries w) as Hin.
  { unfold outside_entries. apply elem_of_app. right. apply list_elem_of_In, in_concat. exists (HandleTable.entries table). split.
    - apply list_elem_of_In, list_elem_of_fmap. exists table. split; [done|]. by eapply list_elem_of_lookup_2.
    - apply list_elem_of_In. rewrite Hp. left. }
  assert (∃ p, names (set w) e p) as [p Hn].
  { pose proof (inv_known _ Hinv) as Hkn. rewrite Forall_forall in Hkn. destruct (Hkn (key e)) as [p Hn]; [|done|by exists p].
    apply list_elem_of_fmap. exists e. split; [done|]. unfold everything. apply elem_of_app. by right. }
  eexists _, p. split_and!; try done. unfold ChannelSet.close. rewrite Hg. simpl.
  rewrite (proj2 (find_eid nb nh (set w) (Entry.object e) p (inv_shaped _ Hinv))) by apply Hn. by rewrite Hc.
Qed.

Lemma step_close_inv w k table ep cs' table' sunk r :
  inv w → tables w !! k = Some table → ChannelSet.close (set w) table ep = Some (cs', table', sunk, r) →
  inv {| set := cs'; tables := <[k := table']> (tables w); loose := sunk ++ loose w; ids := ids w; drawn := drawn w |}.
Proof.
  intros Hinv Hk E. destruct (HandleTable.get_checked table ep Channel Rights.empty) as [e|err] eqn:Hg.
  2:{ unfold ChannelSet.close in E. rewrite Hg in E. simplify_eq/=. rewrite list_insert_id by done. by destruct w. }
  destruct (close_as_release w k table ep e Hinv Hk Hg) as (t1 & p & Hc & Ht' & Hp & Hkd & Hn & Hin & E2).
  destruct (set_release w e p Hinv Hkd Hn Hin) as (cs1 & cs2 & gone & k1 & k2 & m & r0 & E' & H1 & H2 & _).
  rewrite E2, E' in E. simplify_eq/=.
  destruct (concat_insert_Permutation HandleTable.entries (tables w) k table table' Hk) as (rest & P1 & P2).
  eapply (inv_collected w _ cs1 [e] gone k1 k2 m (loose w ++ HandleTable.entries table' ++ rest)); try done.
  - unfold outside_entries. rewrite P1, Hp. solve_Permutation.
  - unfold outside_entries. simpl. rewrite P2. solve_Permutation.
  - simpl. apply Forall_insert; [apply Hinv|done].
Qed.

(** ** A new channel *)

Lemma draws_app n m (s : I) : draws (n + m) s = draws n s ++ draws m (advance n s).
Proof.
  revert s. induction n as [|n IH]; intros s; [done|]. simpl. destruct (next_id s) as [o s']. simpl. by rewrite IH.
Qed.

Lemma advance_add n m (s : I) : advance (n + m) s = advance m (advance n s).
Proof. revert s. induction n as [|n IH]; intros s; [done|]. simpl. apply IH. Qed.

Lemma new_channel (s : I) rights c ea eb s' :
  Channel.new D nb nh s rights = Some (c, (ea, eb), s') → NoDup (draws 2 s) →
  Channel.wf nb nh c ∧ (∀ x, Channel.queue c x = []) ∧ (∀ x, Channel.references c x = 1) ∧
  draws 2 s = [Channel.id c Channel.A; Channel.id c Channel.B] ∧ s' = advance 2 s ∧
  key ea = (Channel, Channel.id c Channel.A) ∧ key eb = (Channel, Channel.id c Channel.B).
Proof.
  unfold Channel.new. simpl. destruct (next_id s) as [a s1] eqn:E1. destruct (next_id s1) as [b s2] eqn:E2.
  destruct (Inbox.new D nb nh) as [ib|] eqn:Hib; [|done]. simpl. intros [= <- <- <- <-] Hnd.
  apply NoDup_cons in Hnd as [Hab _]. apply Inbox.inbox_wf_new in Hib as (Hw & Hq & _). split_and!; try done.
  - split; simpl; [intros ->; apply Hab; left|by intros []|].
    intros [] bs es e; unfold Channel.queue; simpl; rewrite Hq; intros ?%elem_of_nil; done.
  - by intros [].
  - by intros [].
  - simpl. by rewrite E2.
Qed.

Lemma channel_put cs i d j :
  (i < length cs)%nat → channel (<[i := Some d]> cs) j = if decide (j = i) then Some d else channel cs j.
Proof.
  intros Hi. unfold channel. case_decide as E; [subst; by rewrite list_lookup_insert_eq|by rewrite list_lookup_insert_ne].
Qed.

(** A slot that [create] may reuse holds no endpoint anyone names. *)
Lemma reusable cs i oc :
  shaped nb nh cs → cs !! i = Some oc → match oc with None => true | Some c => finished c end = true →
  boxes oc = [] ∧ ∀ s, refs_at cs (i, s) = 0.
Proof.
  intros Hs Hi Hf. destruct oc as [c|].
  - assert (channel cs i = Some c) as Hc by (by apply channel_lookup). pose proof (sh_wf _ _ _ Hs _ _ Hc) as Hw.
    assert (∀ s, Channel.queue c s = [] ∧ refs_at cs (i, s) = 0) as Hall.
    { intros s. pose proof (Channel.wf_end _ _ _ Hw s) as [Hib _ Hop]. unfold finished in Hf. simpl in Hf. breflect.
      assert (Channel.open (Channel.end_of c s) = false ∧ Inbox.len (Channel.inbox (Channel.end_of c s)) = 0%nat) as [Ho Hl]
        by (destruct s; breflect; done).
      rewrite Ho in Hop. symmetry in Hop. breflect. split.
      - pose proof (Inbox.length_queue nb nh _ Hib) as Hlq. rewrite Hl in Hlq. by apply length_zero_iff_nil in Hlq.
      - unfold refs_at, ep. simpl. by rewrite Hc. }
    split; [simpl; by rewrite !(proj1 (Hall _))|intros s; apply Hall].
  - split; [done|]. intros s. unfold refs_at, ep, channel. simpl. by rewrite Hi.
Qed.

Lemma count_key_none cs p l : (∀ x, x ∈ l → x.1 = Channel → eid cs p ≠ Some x.2) → count_key cs p l = 0.
Proof.
  intros Hl. unfold count_key. destruct (eid cs p) as [o|] eqn:E; [|done].
  induction l as [|x l IH]; [done|]. rewrite filter_cons, decide_False.
  - apply IH. intros y Hy. apply Hl. by right.
  - intros ->. by apply (Hl (Channel, o)); [left|..].
Qed.

Lemma step_create_inv w rights cs' ids' r :
  inv w → Z.of_nat (drawn w + 2) ≤ ids_left s0 → create D nb nh (set w) (ids w) rights = Some (cs', ids', r) →
  inv {| set := cs'; tables := tables w;
         loose := match r with Ok (_, (ea, eb)) => ea :: eb :: loose w | Err _ => loose w end;
         ids := ids'; drawn := match r with Ok _ => drawn w + 2 | Err _ => drawn w end |}.
Proof.
  intros Hinv Hb E. unfold create in E.
  destruct (position _ (set w)) as [i|] eqn:Hpos; [|simplify_eq; by destruct w].
  apply position_lookup in Hpos as (oc & Hi & Hfin).
  destruct (Channel.new D nb nh (ids w) rights) as [[[c [ea eb]] ids1]|] eqn:Hnew; [|done]. simpl in E. simplify_eq.
  pose proof (ids_distinct s0 (drawn w + 2) Hb) as Hnd. rewrite draws_app in Hnd. apply NoDup_app in Hnd as (_ & Hdis & Hnd).
  rewrite <-(inv_ids _ Hinv) in Hnd, Hdis.
  destruct (new_channel _ _ _ _ _ _ Hnew Hnd) as (Hwc & Hqc & Hrc & Hdr & -> & Hka & Hkb).
  pose proof (inv_shaped _ Hinv) as Hs. destruct (reusable _ _ _ Hs Hi Hfin) as [Hbox Hzero].
  assert (i < length (set w))%nat as Hlt by (by eapply lookup_lt_Some).
  assert (∀ p, eid (<[i := Some c]> (set w)) p = if decide (p.1 = i) then Some (Channel.id c p.2) else eid (set w) p) as Heid.
  { intros p. unfold eid. rewrite channel_put by done. by case_decide. }
  assert (∀ s, Channel.id c s ∈ draws 2 (ids w)) as Hidc by (intros []; rewrite Hdr; set_solver).
  assert (∀ p o s, eid (set w) p = Some o → o ≠ Channel.id c s) as Hfresh.
  { intros p o s Ho ->. apply (Hdis (Channel.id c s)); [by eapply inv_drawn|apply Hidc]. }
  assert (∀ x, x ∈ census w → x.1 = Channel → ∃ p, p.1 ≠ i ∧ eid (set w) p = Some x.2) as Hold.
  { intros x Hx Hx1. pose proof (inv_known _ Hinv) as Hkn. rewrite Forall_forall in Hkn. destruct (Hkn x Hx Hx1) as [p Hp].
    exists p. split; [|done]. intros <-. pose proof (inv_exact _ Hinv p) as Hex. destruct p as [j s]. simpl in *.
    rewrite Hzero in Hex. unfold count_key in Hex. rewrite Hp in Hex.
    assert (x ∈ filter (λ y, y = (Channel, x.2)) (census w)) as Hxf.
    { apply list_elem_of_filter. split; [|done]. destruct x; simpl in *; by subst. }
    destruct (filter _ (census w)); [by apply elem_of_nil in Hxf|simpl in Hex; lia]. }
  set (w' := {| set := _ |}).
  assert (census w' ≡ₚ [key ea; key eb] ++ census w) as Hcen.
  { rewrite !census_eq. subst w'. simpl.
    destruct (concat_insert_Permutation boxes (set w) i oc (Some c) Hi) as (r & P1 & P2).
    rewrite !each_queued_in_eq, P1, P2, Hbox. simpl. rewrite !Hqc. simpl. solve_Permutation. }
  split; simpl.
  - split.
    + intros j d. rewrite channel_put by done. case_decide; [by intros [= <-]|apply Hs].
    + intros [j s] [k u] o. rewrite !Heid. simpl. repeat case_decide; subst.
      * intros [= <-] [= E]. f_equal. pose proof (Channel.wf_ids _ _ _ Hwc). by destruct s, u; simpl in *.
      * intros [= <-] E. by apply Hfresh with (s := s) in E.
      * intros E [= <-]. by apply Hfresh with (s := u) in E.
      * apply Hs.
  - apply Hinv.
  - intros p. rewrite (count_key_perm _ _ _ _ Hcen), count_key_app, Hka, Hkb.
    unfold refs_at, ep. rewrite channel_put by done. case_decide as Ep.
    + rewrite (count_key_none _ p (census w)).
      2:{ intros x Hx Hx1. rewrite Heid, decide_True by done. intros [= E]. destruct (Hold x Hx Hx1) as (q & _ & Hq).
          by apply Hfresh with (s := p.2) in Hq. }
      simpl. specialize (Hrc p.2). unfold Channel.references in Hrc. rewrite Hrc. unfold count_key. rewrite Heid, decide_True by done.
      pose proof (Channel.wf_ids _ _ _ Hwc). rewrite !filter_cons, filter_nil. destruct (p.2); simpl; repeat case_decide; simplify_eq; done.
    + rewrite (count_key_none _ p [_; _]).
      2:{ intros x Hx _. rewrite Heid, decide_False by done. intros Hp.
          apply elem_of_cons in Hx as [->|Hx%list_elem_of_singleton]; [|subst x]; by eapply (Hfresh p _ _ Hp). }
      etransitivity; [exact (inv_exact _ Hinv p)|]. rewrite Z.add_0_l. symmetry. apply count_key_ext. by rewrite Heid, decide_False.
  - rewrite Forall_forall. intros x Hx Hx1. rewrite Hcen in Hx. apply elem_of_app in Hx as [Hx|Hx].
    + apply elem_of_cons in Hx as [->|Hx%list_elem_of_singleton].
      * exists (i, Channel.A). by rewrite Heid, decide_True, Hka by done.
      * subst. exists (i, Channel.B). by rewrite Heid, decide_True, Hkb by done.
    + destruct (Hold x Hx Hx1) as (p & Hp & Hq). exists p. by rewrite Heid, decide_False.
  - rewrite (inv_ids _ Hinv). by rewrite advance_add.
  - intros p o. rewrite Heid, draws_app, elem_of_app, <-(inv_ids _ Hinv). case_decide.
    + intros [= <-]. right. apply Hidc.
    + intros Ho. left. by eapply inv_drawn.
  - by left.
Qed.

(** ** The other steps *)

(** A step that only moves entries between a table and the loose references, adds entries of
    other objects, or drops some. *)
Lemma inv_tables_step w k table table' l' gone come :
  inv w → tables w !! k = Some table → HandleTable.wf table' →
  HandleTable.entries table ++ loose w ++ come ≡ₚ HandleTable.entries table' ++ l' ++ gone →
  Forall (λ e, Entry.kind e ≠ Channel) gone → Forall (λ e, Entry.kind e ≠ Channel) come →
  inv {| set := set w; tables := <[k := table']> (tables w); loose := l'; ids := ids w; drawn := drawn w |}.
Proof.
  intros Hinv Hk Ht' Hp Hg Hc.
  assert (∀ p l, Forall (λ e, Entry.kind e ≠ Channel) l → count_key (set w) p (key <$> l) = 0) as Hz.
  { intros p l Hl. apply count_key_none. rewrite Forall_forall in Hl. intros x (e & -> & He)%list_elem_of_fmap Hx. by apply Hl in He. }
  eapply (inv_moves w _ (key <$> gone) (key <$> come)); try done; simpl.
  - apply Hinv.
  - apply Forall_insert; [apply Hinv|done].
  - unfold census, everything, outside_entries. simpl. rewrite <-!fmap_app. apply fmap_Permutation.
    destruct (concat_insert_Permutation HandleTable.entries (tables w) k table table' Hk) as (r & -> & ->).
    transitivity (each_queued_in (set w) ++ (HandleTable.entries table ++ loose w ++ come) ++ r); [solve_Permutation|].
    rewrite Hp. solve_Permutation.
  - intros p. by rewrite !Hz.
  - rewrite Forall_forall in Hc. apply Forall_forall. intros x (e & -> & He)%list_elem_of_fmap Hx. by apply Hc in He.
Qed.

Lemma set_step_inv w w' : inv w → step w w' → inv w'.
Proof.
  intros Hinv Hs. pose proof (inv_tables _ Hinv) as Hts. rewrite Forall_lookup in Hts. destruct Hs.
  - by apply step_create_inv with (rights := rights).
  - by eapply set_send.
  - by eapply set_receive.
  - by eapply set_duplicate.
  - by eapply step_close_inv.
  - by eapply step_release_inv.
  - by eapply step_collect_inv.
  - match goal with E : HandleTable.insert _ _ _ _ = _ |- _ => apply HandleTable.insert_entries in E as [Ht' Hp]; [|by eauto] end.
    eapply (inv_tables_step w k table _ _ [] []); try done; try constructor. destruct e.
    rewrite Hp. match goal with E : loose w !! n = _ |- _ => rewrite (delete_Permutation _ _ _ E) at 1 end. simpl. solve_Permutation.
  - match goal with E : HandleTable.transfer_out _ _ = _ |- _ => unfold HandleTable.transfer_out in E end.
    destruct (HandleTable.get table h); [|done]. case_match; [done|].
    match goal with E : HandleTable.close _ _ = _ |- _ => apply HandleTable.close_entries in E as [Ht' [_ Hp]]; [|by eauto] end.
    eapply (inv_tables_step w k table _ _ [] []); try done; try constructor. rewrite Hp. simpl. solve_Permutation.
  - match goal with E : HandleTable.insert _ _ _ _ = _ |- _ => apply HandleTable.insert_entries in E as [Ht' Hp]; [|by eauto] end.
    eapply (inv_tables_step w k table _ _ [] [e]); try done; try constructor; try done. destruct e. rewrite Hp. simpl. solve_Permutation.
  - match goal with E : HandleTable.close _ _ = _ |- _ => apply HandleTable.close_entries in E as [Ht' [_ Hp]]; [|by eauto] end.
    eapply (inv_tables_step w k table _ _ [e] []); try done; try constructor; try done. rewrite Hp. simpl. solve_Permutation.
  - assert (∀ p, count_key (set w) p [key e] = 0) as H0'.
    { intros p. apply count_key_none. intros x ->%list_elem_of_singleton Hx. done. }
    eapply (inv_moves w _ [key e] []); try done; simpl; try apply Hinv.
    + rewrite !census_eq. simpl. match goal with E : loose w !! n = _ |- _ => rewrite (delete_Permutation _ _ _ E) at 1 end. csimpl. solve_Permutation.
    + intros p. rewrite H0'. unfold count_key. by destruct (eid (set w) p).
Qed.

Lemma start_inv CAP ts :
  Forall HandleTable.wf ts → Forall (λ e, Entry.kind e ≠ Channel) (concat (HandleTable.entries <$> ts)) → inv (start CAP ts).
Proof.
  intros Hts Hf. assert (∀ i, channel (ChannelSet.new CAP) i = None) as Hn.
  { intros i. unfold channel, ChannelSet.new. destruct (replicate CAP None !! i) as [o|] eqn:E; [|done]. by apply lookup_replicate in E as [-> _]. }
  assert (∀ p, eid (ChannelSet.new CAP) p = None) as He by (intros p; unfold eid; by rewrite Hn).
  assert (each_queued_in (ChannelSet.new CAP) = []) as Hq.
  { rewrite each_queued_in_eq. unfold ChannelSet.new. clear Hn He; by induction CAP. }
  split; simpl; try done.
  - split; [intros i c; by rewrite Hn|intros p q o; by rewrite He].
  - intros p. unfold refs_at, count_key, ep. by rewrite Hn, He.
  - rewrite census_eq. simpl. rewrite Hq. simpl. rewrite Forall_forall in Hf. apply Forall_forall.
    intros x (e & -> & E)%list_elem_of_fmap Hx. by apply Hf in E.
  - intros p o. by rewrite He.
  - by right.
Qed.

(** ** What can be reached *)

(** An endpoint that a table or a loose reference names, or that is queued in the inbox of one
    that can be reached. *)
Inductive live (w : world I) : nat * Channel.Side → Prop :=
| live_held p e : e ∈ outside_entries w → names (set w) e p → live w p
| live_queued p q e : live w p → e ∈ held (set w) p → names (set w) e q → live w q.

Lemma live_reach w p : inv w → live w p ↔ reach (set w) p.
Proof.
  intros Hinv. pose proof (inv_shaped _ Hinv) as Hs. split.
  - induction 1 as [p e He Hn|p q e Hp IH He Hn]; [|by eapply reach_queued].
    assert (0 < outside (set w) p) as Hpos by (rewrite outside_named by done; apply (named_pos nb nh); [done|by exists e]).
    unfold outside in Hpos. pose proof (named_nonneg (set w) p (each_queued_in (set w))) as Hnn. unfold flight in Hpos.
    apply reach_root; [|unfold flight; lia]. rewrite (open_at_refs nb nh) by done. destruct (Z.eqb_spec (refs_at (set w) p) 0); [lia|done].
  - induction 1 as [p Ho Hne|p q e Hp IH He Hn]; [|by eapply live_queued].
    pose proof (ChannelSet.inv_covers _ _ _ (set_inv w Hinv) p) as Hc.
    assert (0 < outside (set w) p) as Hpos by (unfold outside in *; lia).
    rewrite outside_named in Hpos by done. apply (named_pos nb nh) in Hpos as (e & He & Hn); [|done]. by eapply live_held.
Qed.

(** The world after a close. *)
Definition closed_world (w : world I) (k : nat) cs' table' sunk : world I :=
  {| set := cs'; tables := <[k := table']> (tables w); loose := sunk ++ loose w; ids := ids w; drawn := drawn w |}.

Lemma close_leaves_live w k table ep e :
  inv w → tables w !! k = Some table → HandleTable.get_checked table ep Channel Rights.empty = Ok e →
  ∃ cs' table' sunk done, ChannelSet.close (set w) table ep = Some (cs', table', sunk, Ok done) ∧
    (∀ p, live (closed_world w k cs' table' sunk) p →
       open_at cs' p = true ∧ queue_at cs' p = queue_at (set w) p) ∧
    (∀ p, ¬ live (closed_world w k cs' table' sunk) p → open_at cs' p = false ∧ queue_at cs' p = []).
Proof.
  intros Hinv Hk Hg. destruct (close_as_release w k table ep e Hinv Hk Hg) as (t1 & p & Hc & Ht' & Hp & Hkd & Hn & Hin & E2).
  destruct (set_release w e p Hinv Hkd Hn Hin) as (cs1 & cs2 & gone & k1 & k2 & m & r0 & E' & H1 & H2 & Hq & Hr1 & Hr2 & Hr3).
  rewrite E' in E2. cbn [mbind option_bind] in E2. eexists _, _, _, _. split; [exact E2|].
  pose proof (step_close_inv w k table ep _ _ _ _ Hinv Hk E2) as Hinv'. fold (closed_world w k cs2 t1 (filter (foreign cs1) gone)) in Hinv'.
  split; intros q; rewrite live_reach by done; simpl; rewrite Hr3; [|apply Hr2].
  intros Hx. destruct (Hr1 q Hx) as [-> ->]. by rewrite Hq.
Qed.

End World.

(** C13. over every sequence of creations, sends, receives, duplications, closes, releases and
    collections on a set, from any number of tables with endpoint references moved between
    tables, sinks and queues in any way, an endpoint's count is the number of references to it
    that exist, and it is open exactly while there is one. So the collector never fails, and
    closing any handle to an endpoint succeeds and leaves open exactly the endpoints that a
    table or a loose reference still reaches, each with its queue as it was: no cycle of
    channels outlives the last way to reach it, and nothing anyone can reach is lost. *)
Theorem close_leaves_exactly_the_reachable {I} `{IdSourceOk I} (s0 : I) D nb nh CAP ts w
    (Hts : Forall HandleTable.wf ts)
    (Hno : Forall (λ e, Entry.kind e ≠ Channel) (concat (HandleTable.entries <$> ts)))
    (Hr : rtc (step s0 D nb nh) (start s0 CAP ts) w) :
  (∀ p, refs_at (set w) p = named (set w) p (everything w)) ∧
  (∀ p, open_at (set w) p = true ↔ ∃ e, e ∈ everything w ∧ names (set w) e p) ∧
  (∃ out, ChannelSet.collect (set w) = Some out) ∧
  ∀ k table ep e, tables w !! k = Some table → HandleTable.get_checked table ep Channel Rights.empty = Ok e →
    ∃ cs' table' sunk done, ChannelSet.close (set w) table ep = Some (cs', table', sunk, Ok done) ∧
      (∀ p, live (closed_world w k cs' table' sunk) p →
         open_at cs' p = true ∧ queue_at cs' p = queue_at (set w) p) ∧
      (∀ p, ¬ live (closed_world w k cs' table' sunk) p → open_at cs' p = false ∧ queue_at cs' p = []).
Proof.
  assert (inv s0 nb nh w) as Hinv by (eapply (rtc_invariant (step s0 D nb nh)); [|by apply start_inv|exact Hr]; eauto using set_step_inv).
  assert (∀ p, refs_at (set w) p = named (set w) p (everything w)) as Hex by (intros p; rewrite named_key; apply Hinv).
  split_and!; [done| | |].
  - intros p. pose proof (inv_shaped _ _ _ _ Hinv) as Hs. rewrite <-(named_pos nb nh), <-Hex, (open_at_refs nb nh) by done.
    pose proof (refs_at_u32 nb nh (set w) p Hs) as [? _]. destruct (Z.eqb_spec (refs_at (set w) p) 0); split; simpl; (done || lia).
  - destruct (collect_spec nb nh (set w) (set_inv _ _ _ w Hinv)) as (cs' & gone & k & m & r & E & _). eauto.
  - intros. by eapply close_leaves_live.
Qed.

(** One channel, its first endpoint installed in a table. *)
Lemma close_leaves_exactly_the_reachable_witness : ∃ w cs' table' sunk done,
  rtc (step LockedIds_new 2 4 1) (start LockedIds_new 1 [Accounting.empty_table]) w ∧
  HandleTable.len <$> tables w = [1%nat] ∧
  ChannelSet.close (set w) (default Accounting.empty_table (tables w !! 0%nat)) 1024 = Some (cs', table', sunk, Ok done) ∧
  open_at cs' (0%nat, Channel.B) = true.
Proof.
  eassert (rtc (step LockedIds_new 2 4 1) (start LockedIds_new 1 [Accounting.empty_table]) _) as H.
  { eapply rtc_l; [eapply (step_create LockedIds_new 2 4 1 _ Channel.ENDPOINT_RIGHTS); [vm_compute; discriminate|reflexivity]|].
    eapply rtc_once. eapply (step_install LockedIds_new 2 4 1 _ 0 Accounting.empty_table 0); reflexivity. }
  destruct (close_leaves_exactly_the_reachable LockedIds_new 2 4 1 1 [Accounting.empty_table] _
    ltac:(constructor; [apply Accounting.empty_table_wf|constructor]) ltac:(constructor) H) as (_ & _ & _ & Hc).
  destruct (Hc 0%nat _ 1024 (Entry.Build 1 Channel Channel.ENDPOINT_RIGHTS) eq_refl eq_refl) as (cs' & table' & sunk & done & E & _).
  eexists _, cs', table', sunk, done. split; [exact H|]. split; [reflexivity|]. split; [exact E|].
  vm_compute in E. injection E as <- <- <- <-. reflexivity.
Defined.

End SetAccounting.
