(* ===== verification/SyncLockdep.v ===== *)
(** * Lock-order checking

    [kernel/sync/src/lockdep.rs]: the order seen between lock classes, the stack of locks one
    context holds, and the check of every acquisition against both.  [Order] is shared and
    updated by one context at a time; each context has its own [Stack].  A class is its
    address and name; an instance is an address.  [None] is a panic. *)

From Stdlib Require Import String.
From S2P Require Import Prelude.
Local Open Scope nat_scope.
Local Open Scope list_scope.

Module Lockdep.

Definition MAX_CLASSES : nat := 64.
Definition MAX_HELD : nat := 16.

Record LockClass := { lc_addr : Z; lc_name : string }.

Inductive Violation : Type :=
| Inversion (held acquiring : string)
| Recursive (class : string)
| SameClass (class : string)
| TooDeep (class : string)
| TooManyClasses (class : string)
| Unbalanced (class : string).

Record Report := { rp_count : Z; rp_first : option Violation }.

Record Order := {
  classes : list (option LockClass);
  known : nat;
  after : list Z;
  count : Z;
  first : option Violation }.

Record Held := { h_class : nat; h_instance : Z }.
Record Stack := { held : list Held; depth : nat; untracked : Z }.

(** [Tracker]: the order and one context's stack. *)
Record Tracker := { order : Order; stack : Stack }.

Definition Order_new : Order :=
  {| classes := replicate MAX_CLASSES None; known := 0; after := replicate MAX_CLASSES 0%Z; count := 0; first := None |}.
Definition Stack_new : Stack :=
  {| held := replicate MAX_HELD {| h_class := 0; h_instance := 0 |}; depth := 0; untracked := 0 |}.
Definition Tracker_new : Tracker := {| order := Order_new; stack := Stack_new |}.

Definition report (o : Order) : Report := {| rp_count := count o; rp_first := first o |}.

(** [self.after[x] & (1 << y) != 0]. *)
Definition has_bit (word : Z) (y : nat) : bool := negb (Z.land word (shl 64 1 (Z.of_nat y)) =? 0)%Z.

Definition set_after (a : list Z) (o : Order) : Order :=
  {| classes := classes o; known := known o; after := a; count := count o; first := first o |}.

(** Each turn of the loop reads and writes its own word only. *)
Definition add_edge (o : Order) (from to : nat) : option Order :=
  word ← after o !! to;
  let gained := Z.lor word (shl 64 1 (Z.of_nat to)) in
  if decide (known o ≤ length (after o))
  then Some (set_after (imap (λ x w, if (x <? known o) && ((x =? from) || has_bit w from) then Z.lor w gained else w) (after o)) o)
  else None.

Definition index_of (o : Order) (class : LockClass) : option nat :=
  let l := if decide (known o ≤ length (classes o)) then take (known o) (classes o) else [] in
  position (λ c, match c with Some c => (lc_addr c =? lc_addr class)%Z | None => false end) l.

Definition register (o : Order) (class : LockClass) : Order * option nat :=
  match index_of o class with
  | Some i => (o, Some i)
  | None =>
      if decide (known o < length (classes o))
      then ({| classes := <[known o := Some class]> (classes o); known := known o + 1; after := after o; count := count o; first := first o |},
            Some (known o))
      else (o, None)
  end.

Definition found (o : Order) (v : Violation) : Order * result unit Violation :=
  ({| classes := classes o; known := known o; after := after o; count := saturating_add 64 (count o) 1;
      first := match first o with None => Some v | Some _ => first o end |}, Err v).

Definition held_now (s : Stack) : list Held := if decide (depth s ≤ length (held s)) then take (depth s) (held s) else [].

Definition is_held (index : nat) (instance : Z) (h : Held) : bool := (h_class h =? index) && (h_instance h =? instance)%Z.

(** [verdict.and(Err(v))]: the first violation stays. *)
Definition and_err (verdict : result unit Violation) (v : Violation) : result unit Violation :=
  match verdict with Ok _ => Err v | Err e => Err e end.

(** One held lock against the class being taken. *)
Definition check_one (class : LockClass) (index : nat) (acc : option (Order * result unit Violation)) (h : Held) :
    option (Order * result unit Violation) :=
  '(o, verdict) ← acc;
  let held := h_class h in
  if held =? index then Some (o, and_err verdict (SameClass (lc_name class)))
  else
    taken ← after o !! index;
    if has_bit taken held then
      c ← classes o !! held;
      let name := match c with Some c => lc_name c | None => "?"%string end in
      Some (o, and_err verdict (Inversion name (lc_name class)))
    else
      over ← after o !! held;
      if negb (has_bit over index) then o ← add_edge o held index; Some (o, verdict)
      else Some (o, verdict).

Definition take_lock (o : Order) (s : Stack) (class : LockClass) (instance : Z) (check : bool) :
    option (Order * Stack * result unit Violation) :=
  let untrack o v :=
    n ← checked_add 64 (untracked s) 1;
    let '(o, r) := found o v in
    Some (o, {| held := held s; depth := depth s; untracked := n |}, r) in
  match register o class with
  | (o, None) => untrack o (TooManyClasses (lc_name class))
  | (o, Some index) =>
      if existsb (is_held index instance) (held_now s)
      then let '(o, r) := found o (Recursive (lc_name class)) in Some (o, s, r)
      else
        '(o, verdict) ← foldl (check_one class index) (Some (o, Ok tt)) (if check then held_now s else []);
        if decide (depth s < length (held s)) then
          let s := {| held := <[depth s := {| h_class := Z.to_nat (Z.of_nat index mod 2 ^ 8); h_instance := instance |}]> (held s);
                      depth := depth s + 1; untracked := untracked s |} in
          match verdict with
          | Ok _ => Some (o, s, Ok tt)
          | Err v => let '(o, r) := found o v in Some (o, s, r)
          end
        else untrack o (TooDeep (lc_name class))
  end.

(** The index of the last element that satisfies the predicate. *)
Definition rposition {A} (p : A → bool) (l : list A) : option nat :=
  (λ i, length l - 1 - i) <$> position p (reverse l).

Definition release_in (o : Order) (s : Stack) (class : LockClass) (instance : Z) :
    option (Order * Stack * result unit Violation) :=
  match (index ← index_of o class; rposition (is_held index instance) (held_now s)) with
  | Some at_ =>
      (* held.copy_within(at + 1..depth, at); depth -= 1 *)
      if decide (at_ + 1 ≤ depth s ≤ length (held s))
      then Some (o, {| held := take at_ (held s) ++ drop (at_ + 1) (take (depth s) (held s)) ++ drop (depth s - 1) (held s);
                       depth := depth s - 1; untracked := untracked s |}, Ok tt)
      else None
  | None =>
      match checked_sub (untracked s) 1 with
      | Some n => Some (o, {| held := held s; depth := depth s; untracked := n |}, Ok tt)
      | None => let '(o, r) := found o (Unbalanced (lc_name class)) in Some (o, s, r)
      end
  end.

(** [Tracker]'s methods. *)
Definition acquire (t : Tracker) (class : LockClass) (instance : Z) : option (Tracker * result unit Violation) :=
  '(o, s, r) ← take_lock (order t) (stack t) class instance true; Some ({| order := o; stack := s |}, r).
Definition acquire_try (t : Tracker) (class : LockClass) (instance : Z) : option (Tracker * result unit Violation) :=
  '(o, s, r) ← take_lock (order t) (stack t) class instance false; Some ({| order := o; stack := s |}, r).
Definition release (t : Tracker) (class : LockClass) (instance : Z) : option (Tracker * result unit Violation) :=
  '(o, s, r) ← release_in (order t) (stack t) class instance; Some ({| order := o; stack := s |}, r).


(** ** The kernel's state: the shared order and one stack per CPU

    [with_global] runs one update at a time, so the updates of all CPUs form one sequence. *)

Record Global := { g_order : Order; g_stacks : list Stack }.

Definition Global_new (cpus : nat) : Global := {| g_order := Order_new; g_stacks := replicate cpus Stack_new |}.

Inductive Op : Type :=
| Acquire (class : LockClass) (instance : Z)
| AcquireTry (class : LockClass) (instance : Z)
| Release (class : LockClass) (instance : Z).

Definition op_class (op : Op) : LockClass := match op with Acquire c _ | AcquireTry c _ | Release c _ => c end.
Definition op_lock (op : Op) : Z * Z := match op with Acquire c i | AcquireTry c i | Release c i => (lc_addr c, i) end.

(** The closure each entry point hands to [with_global]. *)
Definition run_op (op : Op) (o : Order) (s : Stack) : option (Order * Stack * result unit Violation) :=
  match op with
  | Acquire c i => take_lock o s c i true
  | AcquireTry c i => take_lock o s c i false
  | Release c i => release_in o s c i
  end.

(** A CPU with no slot has its locks go untracked: no answer. *)
Definition with_global (g : Global) (cpu : nat) (op : Op) : option (Global * option (result unit Violation)) :=
  match g_stacks g !! cpu with
  | None => Some (g, None)
  | Some s =>
      '(o, s, r) ← run_op op (g_order g) s;
      Some ({| g_order := o; g_stacks := <[cpu := s]> (g_stacks g) |}, Some r)
  end.

(** Whether [acquire] halts the CPU after the check. *)
Definition halts (op : Op) (answer : option (result unit Violation)) : bool :=
  match op, answer with Acquire _ _, Some (Err (Recursive _)) => true | _, _ => false end.


(** ** The order *)

(** Class [y] has been taken under class [x]. *)
Definition seen (o : Order) (x y : nat) : Prop := ∃ w, after o !! x = Some w ∧ Z.testbit w (Z.of_nat y) = true.

Record order_ok (o : Order) : Prop := {
  ok_classes : length (classes o) = MAX_CLASSES;
  ok_after : length (after o) = MAX_CLASSES;
  ok_known : known o ≤ MAX_CLASSES;
  ok_reg : ∀ i, i < known o → ∃ c, classes o !! i = Some (Some c);
  ok_once : ∀ i j c d, i < known o → j < known o → classes o !! i = Some (Some c) → classes o !! j = Some (Some d) → lc_addr c = lc_addr d → i = j;
  ok_words : Forall (in_u 64) (after o);
  ok_bits : ∀ x y, seen o x y → x < known o ∧ y < known o;
  ok_irrefl : ∀ x, ¬ seen o x x;
  ok_trans : ∀ x y z, seen o x y → seen o y z → seen o x z }.

Lemma has_bit_spec w y : y < 64 → has_bit w y = Z.testbit w (Z.of_nat y).
Proof. intros Hy. unfold has_bit. rewrite shl_bit by lia. apply land_bit. lia. Qed.

Lemma seen_has_bit o x y w : order_ok o → y < MAX_CLASSES → after o !! x = Some w → has_bit w y = true ↔ seen o x y.
Proof.
  intros _ Hy Hw. unfold MAX_CLASSES in Hy. rewrite has_bit_spec by done. unfold seen. split; [eauto|]. intros (w' & Hw' & Hb). congruence.
Qed.

Lemma order_new_ok : order_ok Order_new.
Proof.
  assert (∀ x y, ¬ seen Order_new x y) as Hno.
  { intros x y (w & Hw & Hb). cbn in Hw. apply (lookup_replicate 64) in Hw as [-> _]. by rewrite Z.testbit_0_l in Hb. }
  split; cbn [Order_new classes after known].
  - apply length_replicate.
  - apply length_replicate.
  - unfold MAX_CLASSES. lia.
  - lia.
  - lia.
  - apply Forall_replicate. unfold in_u, u_max. lia.
  - intros x y H. by destruct (Hno x y).
  - intros x. apply Hno.
  - intros x y z H. by destruct (Hno x y).
Qed.

(** Words grow by whole sets of bits. *)
Lemma testbit_gained w to y : to < 64 → Z.testbit (Z.lor w (shl 64 1 (Z.of_nat to))) (Z.of_nat y) = Z.testbit w (Z.of_nat y) || (y =? to).
Proof.
  intros Ht. rewrite shl_bit, Z.lor_spec by lia. f_equal. destruct (Nat.eqb_spec y to) as [->|Hne]; [apply Z.pow2_bits_true; lia|apply Z.pow2_bits_false; lia].
Qed.

Lemma gained_in_u w to : to < 64 → in_u 64 w → in_u 64 (Z.lor w (shl 64 1 (Z.of_nat to))).
Proof.
  intros Ht Hw. apply lor_in_u; [lia|done|]. rewrite shl_bit by lia. unfold in_u, u_max. pose proof (Z.pow_pos_nonneg 2 (Z.of_nat to)).
  assert (2 ^ Z.of_nat to < 2 ^ 64)%Z by (apply Z.pow_lt_mono_r; lia). lia.
Qed.

Lemma add_edge_spec o from to :
  order_ok o → from < known o → to < known o → from ≠ to → ¬ seen o to from →
  ∃ o', add_edge o from to = Some o' ∧ order_ok o' ∧ classes o' = classes o ∧ known o' = known o ∧
    count o' = count o ∧ first o' = first o ∧
    ∀ x y, seen o' x y ↔ seen o x y ∨ ((x = from ∨ seen o x from) ∧ (y = to ∨ seen o to y)).
Proof.
  intros Hok Hf Ht Hne Hnot. pose proof Hok as []. unfold MAX_CLASSES in *. unfold add_edge.
  destruct (lookup_lt_is_Some_2 (after o) to) as [wt Hwt]; [lia|]. rewrite Hwt. cbn [mbind option_bind]. rewrite decide_True by lia.
  set (gained := Z.lor wt _). set (f := λ x w, if (x <? known o) && ((x =? from) || has_bit w from) then Z.lor w gained else w).
  set (o' := set_after (imap f (after o)) o).
  assert (∀ x y, seen o' x y ↔ seen o x y ∨ ((x = from ∨ seen o x from) ∧ (y = to ∨ seen o to y))) as Hseen.
  { intros x y. unfold seen at 1. cbn [o' set_after after]. split.
    - intros (w' & Hw' & Hb). rewrite list_lookup_imap in Hw'. destruct (after o !! x) as [w|] eqn:Hw; [|done]. cbn in Hw'. injection Hw' as <-.
      unfold f in Hb. destruct ((x <? known o) && _) eqn:E; [|left; by exists w]. apply andb_true_iff in E as [_ E].
      rewrite Z.lor_spec, orb_true_iff in Hb. destruct Hb as [Hb|Hb]; [left; by exists w|right].
      unfold gained in Hb. rewrite testbit_gained in Hb by lia. split.
      + apply orb_true_iff in E as [E|E]; [left; by breflect|right]. apply (seen_has_bit o x from w); [done|unfold MAX_CLASSES; lia|done|done].
      + apply orb_true_iff in Hb as [Hb|Hb]; [right; by exists wt|left; by breflect].
    - intros H. assert (∃ w, after o !! x = Some w) as [w Hw].
      { destruct H as [(w & Hw & _)|[[-> |(w & Hw & _)] _]]; [eauto| |eauto]. apply lookup_lt_is_Some_2. lia. }
      exists (f x w). rewrite list_lookup_imap, Hw. split; [done|]. unfold f.
      destruct ((x <? known o) && ((x =? from) || has_bit w from)) eqn:E.
      + rewrite Z.lor_spec. destruct H as [(w' & Hw' & Hb)|[_ Hy]]; [simplify_eq; by rewrite Hb|].
        unfold gained. rewrite testbit_gained by lia. destruct Hy as [-> |(w' & Hw' & Hb)]; [by rewrite Nat.eqb_refl, !orb_true_r|].
        simplify_eq. by rewrite Hb, !orb_true_r.
      + destruct H as [(w' & Hw' & Hb)|[Hx _]]; [by simplify_eq|]. exfalso. apply not_true_iff_false in E. apply E. apply andb_true_iff.
        assert (x < known o) by (destruct Hx as [-> |Hx]; [done|by apply ok_bits0 in Hx as [? _]]). split; [by apply Nat.ltb_lt|].
        apply orb_true_iff. destruct Hx as [-> |Hx]; [left; by apply Nat.eqb_refl|right]. apply (seen_has_bit o x from w); [done|unfold MAX_CLASSES; lia|done|done]. }
  exists o'. split; [done|]. split_and!; try done. split; cbn [o' set_after classes known after]; try done.
  - by rewrite length_imap.
  - apply Forall_lookup_2. intros x w' Hw'. rewrite list_lookup_imap in Hw'. destruct (after o !! x) as [w|] eqn:Hw; [|done]. cbn in Hw'. injection Hw' as <-.
    pose proof (Forall_lookup_1 _ _ _ _ ok_words0 Hw). pose proof (Forall_lookup_1 _ _ _ _ ok_words0 Hwt).
    unfold f. case_match; [|done]. apply lor_in_u; [lia|done|]. apply gained_in_u; [lia|done].
  - intros x y [Hxy|[Hx Hy]]%Hseen; [by apply ok_bits0|]. split; [destruct Hx as [-> |[? _]%ok_bits0]; done|destruct Hy as [-> |[_ ?]%ok_bits0]; done].
  - intros x [Hxx|[Hx Hy]]%Hseen; [by eapply ok_irrefl0|]. apply Hnot. destruct Hx as [-> |Hx], Hy as [-> |Hy]; try done; eauto.
  - intros x y z Hxy%Hseen Hyz%Hseen. apply Hseen. destruct Hxy as [Hxy|[Hx Hy]], Hyz as [Hyz|[Hy' Hz]].
    + left. eauto.
    + right. split; [|done]. right. destruct Hy' as [<-|Hy']; eauto.
    + right. split; [done|]. right. destruct Hy as [-> |Hy]; eauto.
    + exfalso. apply Hnot. destruct Hy as [-> |Hy], Hy' as [-> |Hy']; eauto. done.
Qed.


(** ** Classes *)

Definition addr_at (o : Order) (i : nat) : option Z := c ← classes o !! i; lc_addr <$> c.

Lemma index_of_spec o class i :
  order_ok o → index_of o class = Some i ↔ i < known o ∧ addr_at o i = Some (lc_addr class).
Proof.
  intros Hok. pose proof Hok as []. unfold index_of. rewrite decide_True by (by rewrite ok_classes0). split.
  - intros (c & Hc & Hb)%position_lookup. apply lookup_take_Some in Hc as [Hc Hi]. split; [done|]. unfold addr_at. rewrite Hc.
    destruct c as [c|]; [|done]. breflect. cbn. by rewrite Hb.
  - intros [Hi Ha]. unfold addr_at in Ha. destruct (classes o !! i) as [[c|]|] eqn:Hc; try done. cbn in Ha. injection Ha as Ha.
    apply position_Some. split.
    + exists (Some c). rewrite lookup_take_lt by done. split; [done|]. rewrite Ha. apply Z.eqb_refl.
    + intros j y Hj. rewrite lookup_take_lt by lia. intros Hy. destruct y as [d|]; [|done]. apply Z.eqb_neq. intros E.
      assert (j = i) by (eapply (ok_once0 j i); eauto; [lia|congruence]). lia.
Qed.

Lemma addr_at_known o i : order_ok o → i < known o → ∃ c, classes o !! i = Some (Some c) ∧ addr_at o i = Some (lc_addr c).
Proof. intros Hok Hi. destruct (ok_reg o Hok i Hi) as [c Hc]. exists c. split; [done|]. unfold addr_at. by rewrite Hc. Qed.

Lemma addr_at_inj o i j a : order_ok o → i < known o → j < known o → addr_at o i = Some a → addr_at o j = Some a → i = j.
Proof.
  intros Hok Hi Hj Ha Hb. destruct (addr_at_known o i Hok Hi) as (c & Hc & Hca), (addr_at_known o j Hok Hj) as (d & Hd & Hda).
  eapply (ok_once o Hok); eauto. congruence.
Qed.

(** Registering keeps every index and adds at most one class. *)
Lemma register_spec o class :
  order_ok o → ∃ o' r, register o class = (o', r) ∧ order_ok o' ∧ known o ≤ known o' ∧ (∀ x y, seen o' x y ↔ seen o x y) ∧
    (∀ i, i < known o → addr_at o' i = addr_at o i) ∧
    match r with
    | Some i => i < known o' ∧ addr_at o' i = Some (lc_addr class)
    | None => o' = o ∧ known o = MAX_CLASSES
    end.
Proof.
  intros Hok. unfold register. destruct (index_of o class) as [i|] eqn:E.
  - apply index_of_spec in E as [Hi Ha]; [|done]. exists o, (Some i). by split_and!.
  - pose proof Hok as []. rewrite ok_classes0. case_decide as Hlt; [|exists o, None; split_and!; try done; lia].
    set (o' := {| classes := _ |}). assert (∀ x y, seen o' x y ↔ seen o x y) as Hs by done.
    assert (∀ i, i < known o → classes o' !! i = classes o !! i) as Hc.
    { intros i Hi. cbn. by rewrite list_lookup_insert_ne by lia. }
    assert (classes o' !! known o = Some (Some class)) as Hn by (cbn; rewrite list_lookup_insert_eq; [done|by rewrite ok_classes0]).
    assert (∀ i c, i < known o → classes o !! i = Some (Some c) → lc_addr c ≠ lc_addr class) as Hfresh.
    { intros i c Hi Hci Hac. assert (index_of o class = Some i) as E2; [|congruence]. apply index_of_spec; [done|]. split; [done|].
      unfold addr_at. rewrite Hci. cbn. by rewrite Hac. }
    assert (known o' = known o + 1) as Hk2 by done. exists o', (Some (known o)). split; [done|]. split_and!; try done.
    + split; try done; rewrite ?Hk2.
      * cbn. by rewrite length_insert.
      * lia.
      * intros i Hi. destruct (decide (i = known o)) as [->|Hne]; [eauto|]. destruct (ok_reg0 i) as [c Hci]; [lia|]. exists c. rewrite <-Hci. apply Hc. lia.
      * intros i j c d Hi Hj Hci Hdj Hcd. destruct (decide (i = known o)) as [->|Hin], (decide (j = known o)) as [->|Hjn].
        -- done.
        -- rewrite Hn in Hci. injection Hci as <-. rewrite Hc in Hdj by lia. exfalso. eapply (Hfresh j d); [lia|done|done].
        -- rewrite Hn in Hdj. injection Hdj as <-. rewrite Hc in Hci by lia. exfalso. eapply (Hfresh i c); [lia|done|done].
        -- rewrite Hc in Hci by lia. rewrite Hc in Hdj by lia. eapply (ok_once0 i j); eauto; lia.
      * intros x y Hxy%Hs. destruct (ok_bits0 x y Hxy). lia.
    + rewrite Hk2. lia.
    + intros i Hi. unfold addr_at. by rewrite Hc.
    + rewrite Hk2. lia.
    + unfold addr_at. by rewrite Hn.
Qed.

Lemma found_spec o v : order_ok o → order_ok (found o v).1 ∧ (found o v).2 = Err v ∧ known (found o v).1 = known o ∧
  (∀ x y, seen (found o v).1 x y ↔ seen o x y) ∧ (∀ i, addr_at (found o v).1 i = addr_at o i).
Proof. intros Hok. split; [|done]. by destruct Hok. Qed.

(** ** The check *)

Lemma tc_bind {A} (R R' : relation A) x y : (∀ a b, R a b → tc R' a b) → tc R x y → tc R' x y.
Proof. intros H. induction 1; [auto|]. eapply tc_transitive; eauto. Qed.

(** What the loop over the held locks does to the order. *)
Lemma check_all class index hs o :
  order_ok o → index < known o → Forall (λ h, h_class h < known o) hs → ∀ verdict,
  ∃ o' v, foldl (check_one class index) (Some (o, verdict)) hs = Some (o', v) ∧ order_ok o' ∧
    classes o' = classes o ∧ known o' = known o ∧ (∀ x y, seen o x y → seen o' x y) ∧ (∀ y, seen o' index y → seen o index y) ∧
    (∀ x y, seen o' x y → tc (λ a b, seen o a b ∨ (b = index ∧ ∃ h, h ∈ hs ∧ h_class h = a)) x y) ∧
    (v = Ok tt → verdict = Ok tt ∧ ∀ h, h ∈ hs → seen o' (h_class h) index) ∧
    (∀ e, v = Err e → verdict = Err e ∨
       (∃ h, h ∈ hs ∧ h_class h = index ∧ e = SameClass (lc_name class)) ∨
       (∃ h c, h ∈ hs ∧ seen o index (h_class h) ∧ classes o !! h_class h = Some (Some c) ∧ e = Inversion (lc_name c) (lc_name class))).
Proof.
  intros Hok Hi. revert o Hok Hi. induction hs as [|h hs IH]; intros o Hok Hi Hhs verdict; cbn [foldl].
  { exists o, verdict. split_and!; try done; [intros; by apply tc_once; left|by intros ->; split; [|intros ? ?%elem_of_nil]|by left]. }
  apply Forall_cons in Hhs as [Hh Hhs]. pose proof (ok_known o Hok) as Hk. unfold MAX_CLASSES in Hk. set (x := h_class h) in *.
  assert (∃ o1 v1, check_one class index (Some (o, verdict)) h = Some (o1, v1) ∧ order_ok o1 ∧ classes o1 = classes o ∧ known o1 = known o ∧
    (∀ a b, seen o a b → seen o1 a b) ∧ (∀ b, seen o1 index b → seen o index b) ∧ (∀ a b, seen o1 a b → tc (λ a b, seen o a b ∨ (b = index ∧ a = x)) a b) ∧
    (v1 = Ok tt → verdict = Ok tt ∧ seen o1 x index) ∧
    (∀ e, v1 = Err e → verdict = Err e ∨ (x = index ∧ e = SameClass (lc_name class)) ∨
       (∃ c, seen o index x ∧ classes o !! x = Some (Some c) ∧ e = Inversion (lc_name c) (lc_name class)))) as
    (o1 & v1 & E & Hok1 & Hc1 & Hk1 & Hm1 & Hb1 & Hn1 & Hv1 & He1).
  { unfold check_one. cbn [mbind option_bind]. fold x. destruct (Nat.eqb_spec x index) as [Hx|Hx].
    { exists o, (and_err verdict (SameClass (lc_name class))). split; [done|]. split_and!; try done.
      - intros. apply tc_once. by left.
      - by destruct verdict.
      - intros e. destruct verdict; [|by left]. intros [= <-]. right. by left. }
    destruct (lookup_lt_is_Some_2 (after o) index) as [wi Hwi]; [rewrite (ok_after o Hok); unfold MAX_CLASSES; lia|].
    destruct (lookup_lt_is_Some_2 (after o) x) as [wx Hwx]; [rewrite (ok_after o Hok); unfold MAX_CLASSES; lia|].
    rewrite Hwi. cbn [mbind option_bind]. destruct (has_bit wi x) eqn:Eb.
    { apply (seen_has_bit o index x) in Eb; [|done|unfold MAX_CLASSES; lia|done]. destruct (ok_reg o Hok x Hh) as [c Hc]. rewrite Hc. cbn [mbind option_bind].
      exists o, (and_err verdict (Inversion (lc_name c) (lc_name class))). split; [done|]. split_and!; try done.
      - intros. apply tc_once. by left.
      - by destruct verdict.
      - intros e. destruct verdict; [|by left]. intros [= <-]. right. right. by exists c. }
    rewrite Hwx. cbn [mbind option_bind]. assert (¬ seen o index x) as Hns.
    { intros Hs. apply (seen_has_bit o index x wi) in Hs; [congruence|done|unfold MAX_CLASSES; lia|done]. }
    destruct (has_bit wx index) eqn:Ex; cbn [negb].
    { apply (seen_has_bit o x index) in Ex; [|done|unfold MAX_CLASSES; lia|done]. exists o, verdict. split; [done|]. split_and!; try done.
      - intros. apply tc_once. by left.
      - by left. }
    destruct (add_edge_spec o x index Hok Hh Hi Hx Hns) as (o1 & -> & Hok1 & Hc1 & Hk1 & _ & _ & Hseen). cbn [mbind option_bind].
    exists o1, verdict. split; [done|]. split_and!; try done.
    - intros a b Hab. apply Hseen. by left.
    - intros b [Hb|[[Hb|Hb] _]]%Hseen; [done|by subst|done].
    - intros a b [Hab|[Ha Hb]]%Hseen; [apply tc_once; by left|].
      assert (tc (λ a b, seen o a b ∨ (b = index ∧ a = x)) x b) as Hxb.
      { destruct Hb as [-> |Hb]; [apply tc_once; by right|]. eapply tc_l; [by right|]. apply tc_once. by left. }
      destruct Ha as [-> |Ha]; [done|]. eapply tc_l; [by left|done].
    - intros ->. split; [done|]. apply Hseen. right. split; by left.
    - by left. }
  rewrite E. destruct (IH o1 Hok1 ltac:(by rewrite Hk1) ltac:(by rewrite Hk1) v1) as (o' & v & E' & Hok' & Hc' & Hk' & Hm & Hb & Hn & Hv & He).
  exists o', v. split; [done|]. split_and!; try congruence; try done.
  - auto.
  - auto.
  - intros a b Hab%Hn. eapply tc_bind; [|exact Hab]. cbn. intros a' b' [Hs|[-> (h' & Hh' & <-)]].
    + apply Hn1 in Hs. eapply tc_bind; [|exact Hs]. cbn. intros a2 b2 [Hs2|[-> ->]]; [by apply tc_once; left|].
      apply tc_once. right. split; [done|]. exists h. split; [left|done].
    + apply tc_once. right. split; [done|]. exists h'. split; [by right|done].
  - intros ->. destruct (Hv eq_refl) as [-> Hall]. destruct (Hv1 eq_refl) as [-> Hx1]. split; [done|]. intros h' [->|Hh']%elem_of_cons; auto.
  - intros e Hve. destruct (He e Hve) as [Hv1e|[(h' & Hh' & H1 & H2)|(h' & c & Hh' & H1 & H2 & H3)]].
    + destruct (He1 e Hv1e) as [?|[[Hx Hee]|(c & H1 & H2 & H3)]]; [by left| |].
      * right. left. exists h. split; [left|done].
      * right. right. exists h, c. split_and!; [left|done|done|done].
    + right. left. exists h'. split; [by right|done].
    + right. right. exists h', c. split_and!; [by right|by apply Hb1|by rewrite <-Hc1|done].
Qed.


(** ** The order between classes, by address *)

Definition adr (o : Order) (i : nat) : Z := default 0%Z (addr_at o i).
Definition ordered (o : Order) (a b : Z) : Prop := ∃ x y, seen o x y ∧ adr o x = a ∧ adr o y = b.

Lemma adr_inj o i j : order_ok o → i < known o → j < known o → adr o i = adr o j → i = j.
Proof.
  intros Hok Hi Hj. unfold adr. destruct (addr_at_known o i Hok Hi) as (c & _ & Hc), (addr_at_known o j Hok Hj) as (d & _ & Hd).
  rewrite Hc, Hd. cbn. intros E. rewrite E in Hc. by eapply addr_at_inj.
Qed.

Lemma ordered_irrefl o a : order_ok o → ¬ ordered o a a.
Proof.
  intros Hok (x & y & Hxy & Hx & Hy). destruct (ok_bits o Hok x y Hxy). assert (x = y) by (eapply adr_inj; eauto; congruence). subst y.
  by eapply (ok_irrefl o Hok).
Qed.

Lemma ordered_trans o a b c : order_ok o → ordered o a b → ordered o b c → ordered o a c.
Proof.
  intros Hok (x & y & Hxy & Hx & Hy) (y' & z & Hyz & Hy' & Hz). destruct (ok_bits o Hok x y Hxy), (ok_bits o Hok y' z Hyz).
  assert (y = y') by (eapply adr_inj; eauto; congruence). subst y'. exists x, z. split; [|done]. by eapply (ok_trans o Hok).
Qed.

Lemma tc_ordered o a b : order_ok o → tc (ordered o) a b → ordered o a b.
Proof. intros Hok. induction 1; [done|]. eapply ordered_trans; eauto. Qed.

(** ** The held stack *)

Record stack_ok (o : Order) (s : Stack) : Prop := {
  sk_held : length (held s) = MAX_HELD;
  sk_depth : depth s ≤ MAX_HELD;
  sk_known : Forall (λ h, h_class h < known o) (held_now s) }.

(** The locks a context holds: class address and instance, oldest first. *)
Definition lock_of (o : Order) (h : Held) : Z * Z := (adr o (h_class h), h_instance h).
Definition locks (o : Order) (s : Stack) : list (Z * Z) := lock_of o <$> held_now s.

Lemma held_now_take o s : stack_ok o s → held_now s = take (depth s) (held s).
Proof. intros []. unfold held_now. rewrite decide_True; [done|lia]. Qed.

Lemma length_locks o s : stack_ok o s → length (locks o s) = depth s.
Proof. intros Hs. pose proof Hs as []. unfold locks. rewrite length_fmap, (held_now_take o s Hs), length_take. lia. Qed.

(** A held entry is the lock of a class and instance when its lock is. *)
Lemma is_held_spec o index inst h :
  order_ok o → index < known o → h_class h < known o → is_held index inst h = bool_decide (lock_of o h = (adr o index, inst)).
Proof.
  intros Hok Hi Hh. unfold is_held, lock_of. apply eq_iff_eq_true. rewrite andb_true_iff, bool_decide_eq_true, Nat.eqb_eq, Z.eqb_eq.
  split; [intros [-> ->]; done|]. intros [= H ->]. split; [|done]. by eapply adr_inj.
Qed.

Lemma held_iff o s index inst :
  order_ok o → index < known o → stack_ok o s → existsb (is_held index inst) (held_now s) = true ↔ (adr o index, inst) ∈ locks o s.
Proof.
  intros Hok Hi [_ _ Hs]. rewrite existsb_exists. unfold locks. rewrite list_elem_of_fmap. rewrite Forall_forall in Hs. split.
  - intros (h & Hh & Hp). apply list_elem_of_In in Hh. exists h. split; [|done]. rewrite (is_held_spec o) in Hp; auto. symmetry. by apply bool_decide_eq_true in Hp.
  - intros (h & Hp & Hh). exists h. split; [by apply list_elem_of_In|]. rewrite (is_held_spec o); auto. by apply bool_decide_eq_true.
Qed.

Lemma classes_held o s a : a ∈ (locks o s).*1 ↔ ∃ h, h ∈ held_now s ∧ adr o (h_class h) = a.
Proof.
  unfold locks. rewrite <-list_fmap_compose, list_elem_of_fmap. split; intros (h & H1 & H2); exists h; done.
Qed.

(** A larger order names the classes of a smaller one as before. *)
Definition extends (o o' : Order) : Prop := known o ≤ known o' ∧ ∀ i, i < known o → classes o' !! i = classes o !! i.

Lemma extends_adr o o' i : extends o o' → i < known o → adr o' i = adr o i.
Proof. intros [_ H] Hi. unfold adr, addr_at. by rewrite H. Qed.

Lemma extends_stack o o' s : extends o o' → stack_ok o s → stack_ok o' s ∧ locks o' s = locks o s.
Proof.
  intros Hx Hs. pose proof Hs as []. pose proof Hx as [Hk _]. split.
  - split; [done|done|]. eapply Forall_impl; [done|]. cbn. intros; lia.
  - unfold locks. apply list_fmap_ext. intros i h Hh. unfold lock_of. rewrite (extends_adr o o'); [done|done|].
    rewrite Forall_lookup in sk_known0. by eapply sk_known0.
Qed.

Lemma extends_trans o1 o2 o3 : extends o1 o2 → extends o2 o3 → extends o1 o3.
Proof. intros [? H1] [? H2]. split; [lia|]. intros i Hi. rewrite H2 by lia. by apply H1. Qed.

(** Pushing a lock. *)
Definition push (s : Stack) (index : nat) (inst : Z) : Stack :=
  {| held := <[depth s := {| h_class := index; h_instance := inst |}]> (held s); depth := depth s + 1; untracked := untracked s |}.

Lemma push_spec o s index inst :
  stack_ok o s → index < known o → depth s < MAX_HELD →
  stack_ok o (push s index inst) ∧ locks o (push s index inst) = locks o s ++ [(adr o index, inst)].
Proof.
  intros Hs Hi Hd. pose proof Hs as [Hl Hle Hk]. rewrite (held_now_take o s Hs) in Hk.
  assert (held_now (push s index inst) = take (depth s) (held s) ++ [{| h_class := index; h_instance := inst |}]) as E.
  { unfold held_now, push. cbn. rewrite length_insert, decide_True by lia.
    replace (depth s + 1) with (S (depth s)) by lia. rewrite (take_S_r _ _ {| h_class := index; h_instance := inst |}).
    - by rewrite take_insert_ge by lia.
    - apply list_lookup_insert_eq. lia. }
  split.
  - split; [cbn; by rewrite length_insert|cbn; lia|]. rewrite E. apply Forall_app. split; [done|]. by repeat constructor.
  - unfold locks. by rewrite E, fmap_app, (held_now_take o s Hs).
Qed.


Lemma register_extends o class o' r :
  order_ok o → register o class = (o', r) → extends o o' ∧ (∀ i, i < known o' → i < known o ∨ classes o' !! i = Some (Some class)) ∧
    (r = None → index_of o class = None).
Proof.
  intros Hok. unfold register. destruct (index_of o class) as [i|]; [intros [= <- <-]; by split_and!; [split| auto |]|].
  pose proof (ok_classes o Hok) as Hc. case_decide as Hlt; intros [= <- <-]; [|by split_and!; [split|auto|]].
  split_and!; [split; cbn; [lia|]| |done].
  - intros i Hi. by rewrite list_lookup_insert_ne by lia.
  - cbn. intros i Hi. destruct (decide (i = known o)) as [->|]; [right|left; lia]. by apply list_lookup_insert_eq.
Qed.

(** What an answer says happened to the stack and to the order. *)
Definition pushed (r : result unit Violation) : bool :=
  match r with Ok _ | Err (SameClass _) | Err (Inversion _ _) => true | _ => false end.
Definition lost (r : result unit Violation) : bool :=
  match r with Err (TooDeep _) | Err (TooManyClasses _) => true | _ => false end.
Definition compared (r : result unit Violation) : bool :=
  match r with Err (Recursive _) | Err (TooManyClasses _) => false | _ => true end.

(** What one acquisition answers, from the locks its context holds. *)
Definition take_answer (o : Order) (class : LockClass) (inst : Z) (check : bool) (hs : list (Z * Z)) (r : result unit Violation) : Prop :=
  match r with
  | Ok _ => (lc_addr class, inst) ∉ hs ∧ (check = true → lc_addr class ∉ hs.*1)
  | Err (Inversion h n) =>
      check = true ∧ n = lc_name class ∧ (lc_addr class, inst) ∉ hs ∧
      ∃ i c, classes o !! i = Some (Some c) ∧ i < known o ∧ h = lc_name c ∧ lc_addr c ∈ hs.*1 ∧ ordered o (lc_addr class) (lc_addr c)
  | Err (SameClass n) => check = true ∧ n = lc_name class ∧ (lc_addr class, inst) ∉ hs ∧ lc_addr class ∈ hs.*1
  | Err (Recursive n) => n = lc_name class ∧ (lc_addr class, inst) ∈ hs
  | Err (TooDeep n) => n = lc_name class ∧ (lc_addr class, inst) ∉ hs ∧ length hs = MAX_HELD
  | Err (TooManyClasses n) => n = lc_name class ∧ known o = MAX_CLASSES ∧ ∀ i, i < known o → adr o i ≠ lc_addr class
  | Err (Unbalanced _) => False
  end.

Record take_result (o o' : Order) (s s' : Stack) (class : LockClass) (inst : Z) (check : bool) (r : result unit Violation) : Prop := {
  tr_order : order_ok o';
  tr_extends : extends o o';
  tr_new : ∀ i, i < known o' → i < known o ∨ classes o' !! i = Some (Some class);
  tr_stack : stack_ok o' s';
  tr_locks : locks o' s' = if pushed r then locks o s ++ [(lc_addr class, inst)] else locks o s;
  tr_untracked : untracked s' = (untracked s + if lost r then 1 else 0)%Z;
  tr_keeps : ∀ a b, ordered o a b → ordered o' a b;
  tr_only : ∀ a b, ordered o' a b →
    tc (λ a b, ordered o a b ∨ (check = true ∧ compared r = true ∧ b = lc_addr class ∧ a ∈ (locks o s).*1)) a b;
  tr_adds : check = true → r = Ok tt → ∀ a, a ∈ (locks o s).*1 → ordered o' a (lc_addr class);
  tr_answer : take_answer o class inst check (locks o s) r }.

Lemma extends_ordered o o' a b :
  order_ok o → order_ok o' → extends o o' → (∀ x y, seen o x y → seen o' x y) → ordered o a b → ordered o' a b.
Proof.
  intros Hok Hok' Hx Hs (x & y & Hxy & <- & <-). destruct (ok_bits o Hok x y Hxy). exists x, y. split; [auto|].
  by rewrite !(extends_adr o o').
Qed.

Lemma seen_ordered o x y : seen o x y → ordered o (adr o x) (adr o y).
Proof. by exists x, y. Qed.

Lemma found_extends o o' v : extends o o' → extends o (found o' v).1.
Proof. done. Qed.

(** Only the summary differs after [found]. *)
Lemma take_result_found o o' s s' class inst check r v :
  take_result o o' s s' class inst check r → take_result o (found o' v).1 s s' class inst check r.
Proof.
  intros []. destruct (found_spec o' v tr_order0) as (Hok & _). split; try done.
  by destruct tr_stack0.
Qed.

(** The two ways out that leave the lock untracked or untaken. *)
Lemma take_result_refused o o' s class inst check r n :
  order_ok o → order_ok o' → extends o o' → (∀ i, i < known o' → i < known o ∨ classes o' !! i = Some (Some class)) →
  (∀ x y, seen o' x y ↔ seen o x y) → stack_ok o s → pushed r = false → (n = untracked s + if lost r then 1 else 0)%Z →
  take_answer o class inst check (locks o s) r →
  take_result o o' s {| held := held s; depth := depth s; untracked := n |} class inst check r.
Proof.
  intros Hok Hok' Hx Hnew Hseen Hs Hp -> Ha. destruct (extends_stack o o' s Hx Hs) as [Hs' Hl].
  assert (∀ a b, ordered o' a b → ordered o a b) as Hback.
  { intros a b (x & y & Hxy%Hseen & <- & <-). destruct (ok_bits o Hok x y Hxy). exists x, y. split; [done|]. by rewrite !(extends_adr o o'). }
  split; try done.
  - by destruct Hs'.
  - rewrite Hp. by rewrite <-Hl.
  - intros a b. apply extends_ordered; [done|done|done|]. intros. by apply Hseen.
  - intros a b Hab. apply tc_once. left. auto.
  - intros _ ->. done.
Qed.

(** The tracked way out, from what the check made of the order. *)
Definition examined (check : bool) (s : Stack) : list Held := if check then held_now s else [].

Lemma take_result_pushed o o1 o' s index class inst check v :
  order_ok o → order_ok o1 → extends o o1 → (∀ i, i < known o1 → i < known o ∨ classes o1 !! i = Some (Some class)) →
  (∀ x y, seen o1 x y ↔ seen o x y) → stack_ok o s → index < known o1 → adr o1 index = lc_addr class →
  (lc_addr class, inst) ∉ locks o s →
  order_ok o' → classes o' = classes o1 → known o' = known o1 →
  (∀ x y, seen o1 x y → seen o' x y) →
  (∀ x y, seen o' x y → tc (λ a b, seen o1 a b ∨ (b = index ∧ ∃ h, h ∈ examined check s ∧ h_class h = a)) x y) →
  (v = Ok tt → ∀ h, h ∈ examined check s → seen o' (h_class h) index) →
  (∀ e, v = Err e →
     (∃ h, h ∈ examined check s ∧ h_class h = index ∧ e = SameClass (lc_name class)) ∨
     (∃ h c, h ∈ examined check s ∧ seen o1 index (h_class h) ∧ classes o1 !! h_class h = Some (Some c) ∧ e = Inversion (lc_name c) (lc_name class))) →
  ∀ r s', stack_ok o' s' → locks o' s' = (if pushed r then locks o s ++ [(lc_addr class, inst)] else locks o s) →
  untracked s' = (untracked s + if lost r then 1 else 0)%Z →
  r = v ∨ r = Err (TooDeep (lc_name class)) ∧ length (locks o s) = MAX_HELD →
  take_result o o' s s' class inst check r.
Proof.
  intros Hok Hok1 Hx Hnew Hseen Hs Hi Ha Hno Hok' Hc' Hk' Hm Hn Hv He r s' Hs' Hl Hu Hr.
  destruct (extends_stack o o1 s Hx Hs) as [Hs1 Hl1]. assert (extends o1 o') as Hx1 by (split; [lia|by rewrite Hc']).
  assert (∀ i, adr o' i = adr o1 i) as Hadr by (intros i; unfold adr, addr_at; by rewrite Hc').
  pose proof (sk_known _ _ Hs) as Hks. rewrite Forall_forall in Hks.
  assert (∀ h, h ∈ examined check s → check = true ∧ h ∈ held_now s) as Hin by (unfold examined; destruct check; [done|intros h []%elem_of_nil]).
  assert (∀ h, h ∈ held_now s → adr o1 (h_class h) ∈ (locks o s).*1) as Hadr_in.
  { intros h Hh. rewrite <-Hl1. apply classes_held. by exists h. }
  split; try done.
  - by eapply extends_trans.
  - rewrite Hk', Hc'. done.
  - intros a b Hab. eapply (extends_ordered o1 o'); eauto. eapply (extends_ordered o o1); eauto. intros. by apply Hseen.
  - intros a b (x & y & Hxy%Hn & <- & <-). rewrite !Hadr. eapply (tc_congruence (adr o1)); [|exact Hxy]. cbn. intros x' y' [Hs2|[-> (h & Hh & <-)]].
    + left. apply Hseen in Hs2. destruct (ok_bits o Hok x' y' Hs2). rewrite !(extends_adr o o1) by done. by apply seen_ordered.
    + right. destruct (Hin h Hh). split_and!; [done| |done|auto]. destruct Hr as [-> |[-> _]]; [|done]. destruct v as [|e]; [done|].
      destruct (He e eq_refl) as [(? & _ & _ & ->)|(? & ? & _ & _ & _ & ->)]; done.
  - intros -> -> a (h & Hh & <-)%classes_held. destruct Hr as [<-|[? _]]; [|done]. specialize (Hv eq_refl h Hh).
    replace (adr o (h_class h)) with (adr o' (h_class h)) by (rewrite Hadr; apply extends_adr; [done|by apply Hks]).
    rewrite <-Ha, <-Hadr. by apply seen_ordered.
  - destruct Hr as [-> |[-> Hd]]; [|by split_and!]. destruct v as [[]|e].
    + split; [done|]. intros -> (h & Hh & Hh2)%classes_held. specialize (Hv eq_refl h Hh). assert (h_class h = index) as Hhi.
      { eapply (adr_inj o1); eauto; [destruct Hx; specialize (Hks h Hh); lia|]. rewrite Ha, <-Hh2. apply extends_adr; [done|by apply Hks]. }
      rewrite Hhi in Hv. by eapply (ok_irrefl o' Hok').
    + destruct (He e eq_refl) as [(h & Hh & Hhi & ->)|(h & c & Hh & Hs2 & Hc & ->)]; destruct (Hin h Hh) as [-> Hh2]; cbn.
      * split_and!; try done. rewrite <-Ha, <-Hhi. auto.
      * split_and!; try done. apply Hseen in Hs2. destruct (ok_bits o Hok _ _ Hs2) as [Hi2 Hhk]. exists (h_class h), c.
        assert (adr o1 (h_class h) = lc_addr c) as Hcc by (unfold adr, addr_at; by rewrite Hc).
        split_and!; [destruct Hx as [_ <-]; done|done|done|rewrite <-Hcc; auto|].
        rewrite <-Ha, <-Hcc, !(extends_adr o o1) by done. by apply seen_ordered.
Qed.


Lemma checked_add_succ n : in_u 64 n → (n < u_max 64)%Z → checked_add 64 n 1 = Some (n + 1)%Z.
Proof. intros Hn Hlt. unfold checked_add, in_u in *. destruct (Z.leb_spec (n + 1) (u_max 64)); [done|lia]. Qed.

Lemma adr_index o class i : order_ok o → index_of o class = Some i ↔ i < known o ∧ adr o i = lc_addr class.
Proof.
  intros Hok. rewrite index_of_spec by done. split; intros [Hi Ha]; split; try done; unfold adr in *.
  - by rewrite Ha.
  - destruct (addr_at_known o i Hok Hi) as (c & _ & Hc). rewrite Hc in *. cbn in Ha. by rewrite Ha.
Qed.

Lemma take_lock_spec o s class inst check :
  order_ok o → stack_ok o s → in_u 64 (untracked s) → (untracked s < u_max 64)%Z →
  ∃ o' s' r, take_lock o s class inst check = Some (o', s', r) ∧ take_result o o' s s' class inst check r.
Proof.
  intros Hok Hs Hu Hlt. unfold take_lock. rewrite checked_add_succ by done. cbn [mbind option_bind].
  destruct (register_spec o class Hok) as (o1 & r1 & E & Hok1 & Hk1 & Hseen1 & _ & Hr1). rewrite E.
  destruct (register_extends o class o1 r1 Hok E) as (Hx1 & Hnew1 & Hnone). destruct r1 as [index|].
  2:{ destruct Hr1 as [-> Hfull]. eexists _, _, _. split; [done|]. apply (take_result_found o o). apply take_result_refused; try done.
      cbn. split_and!; try done. intros i Hi Ha. specialize (Hnone eq_refl).
      assert (index_of o class = Some i) by (apply adr_index; auto). congruence. }
  destruct Hr1 as [Hi Ha]. assert (adr o1 index = lc_addr class) as Hadr by (unfold adr; by rewrite Ha).
  destruct (extends_stack o o1 s Hx1 Hs) as [Hs1 Hl1].
  destruct (existsb (is_held index inst) (held_now s)) eqn:Eh.
  { apply (held_iff o1 s) in Eh; [|done|done|done]. rewrite Hadr, Hl1 in Eh. eexists _, _, _. split; [done|].
    replace s with {| held := held s; depth := depth s; untracked := untracked s |} at 2 by (by destruct s).
    apply (take_result_found o o1). apply take_result_refused; try done. cbn. lia. }
  assert ((lc_addr class, inst) ∉ locks o s) as Hno.
  { rewrite <-Hadr, <-Hl1. intros H. apply (held_iff o1 s) in H; [|done|done|done]. congruence. }
  destruct (check_all class index (examined check s) o1 Hok1 Hi) with (verdict := @Ok unit Violation tt)
    as (o2 & v & E2 & Hok2 & Hc2 & Hk2 & Hm2 & _ & Hn2 & Hv2 & He2).
  { unfold examined. destruct check; [|done]. by apply sk_known. }
  unfold examined in E2. rewrite E2. cbn [mbind option_bind]. pose proof (sk_held _ _ Hs) as Hh. rewrite Hh. clear E2.
  assert (extends o1 o2) as Hx2 by (split; [lia|by rewrite Hc2]).
  assert (adr o2 index = lc_addr class) as Hadr2 by (rewrite (extends_adr o1 o2); done).
  destruct (extends_stack o1 o2 s Hx2 Hs1) as [Hs2 Hl2].
  assert (∀ r s', stack_ok o2 s' → locks o2 s' = (if pushed r then locks o s ++ [(lc_addr class, inst)] else locks o s) →
    untracked s' = (untracked s + if lost r then 1 else 0)%Z →
    r = v ∨ r = Err (TooDeep (lc_name class)) ∧ length (locks o s) = MAX_HELD →
    take_result o o2 s s' class inst check r) as Hout.
  { apply (take_result_pushed o o1 o2 s index class inst check v); try done.
    - intros Hv. by destruct (Hv2 Hv).
    - intros e He. destruct (He2 e He) as [?|?]; done. }
  destruct (decide (depth s < MAX_HELD)) as [Hd|Hd].
  - destruct (push_spec o2 s index inst Hs2 ltac:(lia) Hd) as [Hps Hpl]. rewrite Hadr2, Hl2, Hl1 in Hpl.
    rewrite Z.mod_small, Nat2Z.id by (pose proof (ok_known o1 Hok1); unfold MAX_CLASSES in *; lia). fold (push s index inst).
    destruct v as [[]|e].
    + eexists _, _, _. split; [done|]. apply Hout; try done; [cbn; lia|by left].
    + eexists _, _, _. split; [done|]. apply take_result_found. apply Hout; try done; [| |by left].
      * destruct (He2 e eq_refl) as [?|[(? & _ & _ & ->)|(? & ? & _ & _ & _ & ->)]]; done.
      * destruct (He2 e eq_refl) as [?|[(? & _ & _ & ->)|(? & ? & _ & _ & _ & ->)]]; cbn; done || lia.
  - eexists _, _, _. split; [done|]. apply take_result_found. apply Hout; try done.
    + by destruct Hs2.
    + cbn. unfold locks, held_now in *. cbn. by rewrite Hl2, Hl1.
    + right. split; [done|]. rewrite length_locks by done. pose proof (sk_depth _ _ Hs). lia.
Qed.

(** ** Releasing *)

Definition drop_last (k : Z * Z) (l : list (Z * Z)) : list (Z * Z) :=
  match rposition (λ y, bool_decide (y = k)) l with Some i => delete i l | None => l end.

Lemma position_map {A B} (f : A → B) (p : A → bool) (q : B → bool) l :
  Forall (λ x, p x = q (f x)) l → position p l = position q (f <$> l).
Proof. induction 1 as [|x l Hx _ IH]; [done|]. cbn. rewrite Hx. by rewrite IH. Qed.

Lemma rposition_map {A B} (f : A → B) (p : A → bool) (q : B → bool) l :
  Forall (λ x, p x = q (f x)) l → rposition p l = rposition q (f <$> l).
Proof.
  intros H. unfold rposition. rewrite length_fmap. f_equal. rewrite <-fmap_reverse. apply position_map. by apply Forall_reverse.
Qed.

Lemma rposition_None k l : rposition (λ y : Z * Z, bool_decide (y = k)) l = None ↔ k ∉ l.
Proof.
  unfold rposition. rewrite fmap_None, position_None. split.
  - intros H Hk. rewrite <-elem_of_reverse in Hk. apply list_elem_of_lookup in Hk as [i Hi]. specialize (H i k Hi).
    by apply bool_decide_eq_false in H.
  - intros H i x Hx. apply bool_decide_eq_false. intros ->. apply H. rewrite <-elem_of_reverse. by eapply list_elem_of_lookup_2.
Qed.

Lemma rposition_lt {A} (p : A → bool) l i : rposition p l = Some i → i < length l.
Proof. unfold rposition. intros (j & Hj & ->)%fmap_Some. apply position_lt in Hj. rewrite length_reverse in Hj. lia. Qed.

Lemma fmap_delete {A B} (f : A → B) (l : list A) i : f <$> delete i l = delete i (f <$> l).
Proof. revert i. induction l as [|x l IH]; intros [|i]; cbn; [done..|]. f_equal. apply IH. Qed.

Definition release_answer (class : LockClass) (inst : Z) (hs : list (Z * Z)) (loose : Z) (r : result unit Violation) : Prop :=
  match r with
  | Ok _ => (lc_addr class, inst) ∈ hs ∨ (0 < loose)%Z
  | Err v => v = Unbalanced (lc_name class) ∧ (lc_addr class, inst) ∉ hs ∧ loose = 0%Z
  end.

Record release_result (o o' : Order) (s s' : Stack) (class : LockClass) (inst : Z) (r : result unit Violation) : Prop := {
  rr_order : order_ok o';
  rr_same : classes o' = classes o ∧ known o' = known o ∧ after o' = after o;
  rr_stack : stack_ok o' s';
  rr_locks : locks o' s' = drop_last (lc_addr class, inst) (locks o s);
  rr_untracked : untracked s' = if bool_decide ((lc_addr class, inst) ∈ locks o s) then untracked s else Z.max 0 (untracked s - 1);
  rr_answer : release_answer class inst (locks o s) (untracked s) r }.

Lemma release_in_spec o s class inst :
  order_ok o → stack_ok o s → in_u 64 (untracked s) →
  ∃ o' s' r, release_in o s class inst = Some (o', s', r) ∧ release_result o o' s s' class inst r.
Proof.
  intros Hok Hs Hu. unfold release_in. pose proof Hs as [Hlen Hd Hk].
  assert ((index ← index_of o class; rposition (is_held index inst) (held_now s)) =
          rposition (λ y, bool_decide (y = (lc_addr class, inst))) (locks o s)) as ->.
  { destruct (index_of o class) as [index|] eqn:Ei; cbn [mbind option_bind].
    - apply (adr_index o) in Ei as [Hi Ha]; [|done]. apply rposition_map. eapply Forall_impl; [done|]. cbn. intros h Hh.
      rewrite <-Ha. by apply is_held_spec.
    - symmetry. apply rposition_None. intros Hin. assert (lc_addr class ∈ (locks o s).*1) as Hin1.
      { apply list_elem_of_fmap. by exists (lc_addr class, inst). }
      apply classes_held in Hin1 as (h & Hh & Ha). rewrite Forall_forall in Hk. specialize (Hk h Hh).
      assert (index_of o class = Some (h_class h)) by (by apply adr_index). congruence. }
  unfold drop_last. destruct (rposition _ (locks o s)) as [i|] eqn:Er.
  - pose proof (rposition_lt _ _ _ Er) as Hi. rewrite length_locks in Hi by done. rewrite decide_True by lia.
    assert ((lc_addr class, inst) ∈ locks o s) as Hin.
    { destruct (decide ((lc_addr class, inst) ∈ locks o s)) as [|Hn]; [done|]. apply rposition_None in Hn. congruence. }
    set (s' := {| held := _ |}).
    assert (held_now s' = delete i (held_now s)) as Eh.
    { rewrite (held_now_take o s Hs). unfold held_now, s'. cbn [held depth]. rewrite decide_True.
      - rewrite app_assoc, take_app_le by (rewrite length_app, length_take, length_drop, length_take; lia).
        rewrite take_ge by (rewrite length_app, length_take, length_drop, length_take; lia).
        rewrite delete_take_drop, take_take, Nat.min_l by lia. by rewrite Nat.add_1_r.
      - rewrite !length_app, length_take, length_drop, length_take, length_drop. lia. }
    exists o, s', (Ok tt). split; [done|]. split; try done.
    + split; [cbn; rewrite !length_app, length_take, length_drop, length_take, length_drop; lia|cbn; lia|]. rewrite Eh. by apply Forall_delete.
    + unfold drop_last. rewrite Er. unfold locks. by rewrite Eh, fmap_delete.
    + by rewrite bool_decide_true.
    + by left.
  - pose proof (proj1 (rposition_None _ _) Er) as Hno. unfold checked_sub. unfold in_u in Hu.
    destruct (Z.leb_spec 1 (untracked s)).
    + eexists _, _, _. split; [done|]. split; try done.
      * unfold drop_last. by rewrite Er.
      * rewrite bool_decide_false by done. cbn. lia.
      * right. lia.
    + eexists _, _, _. split; [done|]. split; try done.
      * by apply found_spec.
      * unfold drop_last. by rewrite Er.
      * rewrite bool_decide_false by done. lia.
      * cbn. split_and!; [done|done|lia].
Qed.


(** ** What really happened: the log of every operation, newest first *)

Record Event := { e_cpu : nat; e_op : Op; e_answer : result unit Violation }.

(** The locks a CPU holds, and the locks it took that the checker could not track, by the log. *)
Fixpoint holds (log : list Event) (cpu : nat) : list (Z * Z) :=
  match log with
  | [] => []
  | e :: log =>
      let l := holds log cpu in
      if e_cpu e =? cpu then
        match e_op e with
        | Release _ _ => drop_last (op_lock (e_op e)) l
        | _ => if pushed (e_answer e) then l ++ [op_lock (e_op e)] else l
        end
      else l
  end.

Fixpoint loose (log : list Event) (cpu : nat) : Z :=
  match log with
  | [] => 0
  | e :: log =>
      let n := loose log cpu in
      if e_cpu e =? cpu then
        match e_op e with
        | Release _ _ => if bool_decide (op_lock (e_op e) ∈ holds log cpu) then n else Z.max 0 (n - 1)
        | _ => n + if lost (e_answer e) then 1 else 0
        end
      else n
  end.

Definition blocking (op : Op) : bool := match op with Acquire _ _ => true | _ => false end.

(** Class [b] was waited for, by an event that satisfies [p], while class [a] was held. *)
Fixpoint under (p : Event → bool) (log : list Event) (a b : Z) : Prop :=
  match log with
  | [] => False
  | e :: log =>
      (blocking (e_op e) = true ∧ p e = true ∧ lc_addr (op_class (e_op e)) = b ∧ a ∈ (holds log (e_cpu e)).*1) ∨ under p log a b
  end.

Definition accepted (e : Event) : bool := match e_answer e with Ok _ => true | Err _ => false end.
Definition taken_under : list Event → Z → Z → Prop := under accepted.
Definition waited_under : list Event → Z → Z → Prop := under (λ e, compared (e_answer e)).

Definition log_classes (log : list Event) : list LockClass := (λ e, op_class (e_op e)) <$> log.

(** An event's answer is the truth about the log before it. *)
Definition truthful (log : list Event) (e : Event) : Prop :=
  let hs := holds log (e_cpu e) in
  let class := op_class (e_op e) in
  let k := op_lock (e_op e) in
  match e_op e with
  | Release _ _ => release_answer class k.2 hs (loose log (e_cpu e)) (e_answer e)
  | op =>
      match e_answer e with
      | Ok _ => k ∉ hs ∧ (blocking op = true → lc_addr class ∉ hs.*1)
      | Err (Inversion h n) =>
          blocking op = true ∧ n = lc_name class ∧ k ∉ hs ∧
          ∃ c, c ∈ log_classes log ∧ h = lc_name c ∧ lc_addr c ∈ hs.*1 ∧ tc (waited_under log) (lc_addr class) (lc_addr c)
      | Err (SameClass n) => blocking op = true ∧ n = lc_name class ∧ k ∉ hs ∧ lc_addr class ∈ hs.*1
      | Err (Recursive n) => n = lc_name class ∧ k ∈ hs
      | Err (TooDeep n) => n = lc_name class ∧ k ∉ hs ∧ length hs = MAX_HELD
      | Err (TooManyClasses n) =>
          n = lc_name class ∧ ∃ l, NoDup l ∧ length l = MAX_CLASSES ∧ l ⊆ lc_addr <$> log_classes log ∧ lc_addr class ∉ l
      | Err (Unbalanced _) => False
      end
  end.

Fixpoint all_truthful (log : list Event) : Prop :=
  match log with [] => True | e :: log => truthful log e ∧ all_truthful log end.

Record checks (g : Global) (log : list Event) : Prop := {
  ck_order : order_ok (g_order g);
  ck_stacks : ∀ cpu s, g_stacks g !! cpu = Some s →
    stack_ok (g_order g) s ∧ locks (g_order g) s = holds log cpu ∧ untracked s = loose log cpu;
  ck_seen : ∀ a b, ordered (g_order g) a b → tc (waited_under log) a b;
  ck_taken : ∀ a b, taken_under log a b → ordered (g_order g) a b;
  ck_classes : ∀ i, i < known (g_order g) → ∃ c, classes (g_order g) !! i = Some (Some c) ∧ c ∈ log_classes log;
  ck_truth : all_truthful log }.

Lemma checks_new cpus : checks (Global_new cpus) [].
Proof.
  split; cbn [Global_new g_order g_stacks].
  - apply order_new_ok.
  - intros cpu s [-> _]%lookup_replicate. split; [|done]. split; [apply length_replicate|cbn; lia|]. unfold held_now. cbn. constructor.
  - intros a b (x & y & (w & Hw & Hb) & _). cbn in Hw. apply (lookup_replicate 64) in Hw as [-> _]. by rewrite Z.testbit_0_l in Hb.
  - done.
  - cbn. lia.
  - done.
Qed.

Lemma loose_bounds log cpu : (0 ≤ loose log cpu ≤ Z.of_nat (length log))%Z.
Proof.
  induction log as [|e log IH]; [done|]. cbn [loose length]. destruct (e_cpu e =? cpu); [|lia].
  destruct (e_op e); try (destruct (lost (e_answer e)); lia). case_bool_decide; lia.
Qed.

Lemma waited_mono e log a b : tc (waited_under log) a b → tc (waited_under (e :: log)) a b.
Proof. apply tc_bind. intros x y H. apply tc_once. by right. Qed.

Lemma known_addresses o log :
  order_ok o → (∀ i, i < known o → ∃ c, classes o !! i = Some (Some c) ∧ c ∈ log_classes log) →
  let l := adr o <$> seq 0 (known o) in NoDup l ∧ length l = known o ∧ l ⊆ lc_addr <$> log_classes log.
Proof.
  intros Hok Hc. cbv zeta. split_and!.
  - apply NoDup_fmap_2_strong; [|apply NoDup_seq]. intros x y Hx Hy. apply elem_of_seq in Hx, Hy. apply adr_inj; [done|lia|lia].
  - by rewrite length_fmap, length_seq.
  - intros a (i & -> & Hi)%list_elem_of_fmap. apply elem_of_seq in Hi. destruct (Hc i ltac:(lia)) as (c & Hci & Hin).
    apply list_elem_of_fmap. exists c. split; [|done]. unfold adr, addr_at. by rewrite Hci.
Qed.

(** An answer of the checker is the truth about the log. *)
Lemma take_answer_truth g log cpu s op r :
  checks g log → g_stacks g !! cpu = Some s → (∀ c i, op ≠ Release c i) →
  take_answer (g_order g) (op_class op) (op_lock op).2 (blocking op) (locks (g_order g) s) r →
  truthful log {| e_cpu := cpu; e_op := op; e_answer := r |}.
Proof.
  intros [] Hs Hop. destruct (ck_stacks0 cpu s Hs) as (Hsk & -> & _).
  assert (op_lock op = (lc_addr (op_class op), (op_lock op).2)) as Hk by (by destruct op). unfold truthful. cbn [e_op e_cpu e_answer].
  destruct op as [class inst|class inst|class inst]; [| |by destruct (Hop class inst)]; clear Hop; cbn [op_class op_lock blocking snd].
  all: destruct r as [[]|[h n|n|n|n|n|n]]; cbn [take_answer]; try done.
  all: try (intros (? & ? & ? & i & c & Hc & Hi & -> & Hin & Hord); split_and!; try done; exists c;
    destruct (ck_classes0 i Hi) as (c' & Hc' & Hlog); simplify_eq; split_and!; auto).
  all: intros (-> & Hfull & Hnot); split; [done|]; destruct (known_addresses _ _ ck_order0 ck_classes0) as (Hnd & Hlen & Hsub);
    exists (adr (g_order g) <$> seq 0 (known (g_order g))); split_and!; [done|by rewrite Hlen|done|].
  all: intros (i & Hi & Hin)%list_elem_of_fmap; apply elem_of_seq in Hin; by apply (Hnot i); [lia|].
Qed.


(** Every operation of every CPU, one at a time, and the log of them. *)
Definition step (acc : option (Global * list Event)) (x : nat * Op) : option (Global * list Event) :=
  '(g, log) ← acc;
  '(g, answer) ← with_global g x.1 x.2;
  Some (g, match answer with Some r => {| e_cpu := x.1; e_op := x.2; e_answer := r |} :: log | None => log end).
Definition run (g : Global) (ops : list (nat * Op)) : option (Global * list Event) := foldl step (Some (g, [])) ops.

(** The other CPUs' stacks, when one operation has changed the order. *)
Lemma other_stacks g log o' cpu s' e :
  checks g log → extends (g_order g) o' → e_cpu e = cpu →
  stack_ok o' s' ∧ locks o' s' = holds (e :: log) cpu ∧ untracked s' = loose (e :: log) cpu →
  ∀ k s, <[cpu := s']> (g_stacks g) !! k = Some s → stack_ok o' s ∧ locks o' s = holds (e :: log) k ∧ untracked s = loose (e :: log) k.
Proof.
  intros [] Hx Hcpu Hs' k s Hk. destruct (decide (cpu = k)) as [<-|Hne].
  - apply list_lookup_insert_Some in Hk as [(_ & <- & _)|[? _]]; done.
  - rewrite list_lookup_insert_ne in Hk by done. destruct (ck_stacks0 k s Hk) as (Hs & Hl & Hu).
    destruct (extends_stack _ o' s Hx Hs) as [Hs2 Hl2]. cbn [holds loose]. rewrite (proj2 (Nat.eqb_neq (e_cpu e) k)) by (by rewrite Hcpu).
    by rewrite Hl2.
Qed.

Lemma checks_acquire g log cpu s op :
  checks g log → g_stacks g !! cpu = Some s → (Z.of_nat (length log) < u_max 64)%Z → (∀ c i, op ≠ Release c i) →
  ∃ g' r, with_global g cpu op = Some (g', Some r) ∧ length (g_stacks g') = length (g_stacks g) ∧
    checks g' ({| e_cpu := cpu; e_op := op; e_answer := r |} :: log).
Proof.
  intros Hck Hs Hlen Hop. pose proof Hck as []. destruct (ck_stacks0 cpu s Hs) as (Hsk & Hl & Hu). pose proof (loose_bounds log cpu) as Hb.
  unfold with_global. rewrite Hs.
  destruct (take_lock_spec (g_order g) s (op_class op) (op_lock op).2 (blocking op)) as (o' & s' & r & E & []);
    [done|done|rewrite Hu; unfold in_u; lia|lia|].
  assert (run_op op (g_order g) s = Some (o', s', r)) as -> by (destruct op; [done..|by destruct (Hop class instance)]).
  cbn [mbind option_bind]. eexists _, r. split; [done|]. split; [cbn; by rewrite length_insert|].
  assert (op_lock op = (lc_addr (op_class op), (op_lock op).2)) as Hk by (by destruct op).
  split; cbn [g_order g_stacks].
  - done.
  - apply (other_stacks g log); [done|done|done|]. split; [done|]. cbn [holds loose e_cpu e_op e_answer]. rewrite Nat.eqb_refl, Hk, <-Hl, <-Hu, tr_locks0, tr_untracked0.
    by destruct op as [| |c i]; [..|destruct (Hop c i)].
  - intros a b Hab%tr_only0. eapply tc_bind; [|exact Hab]. intros x y [Hxy|(Hc & Hcmp & -> & Hin)].
    + apply waited_mono. auto.
    + apply tc_once. left. cbn. rewrite <-Hl. by split_and!.
  - intros a b [(Hbl & Hp & <- & Hin)|Hab]; [|by apply tr_keeps0, ck_taken0]. cbn in *. apply tr_adds0; [done| |by rewrite Hl].
    by destruct r as [[]|].
  - intros i Hi. destruct (tr_new0 i Hi) as [Hlt|Hc].
    + destruct (ck_classes0 i Hlt) as (c & Hc & Hin). exists c. split; [by rewrite (proj2 tr_extends0)|]. by right.
    + exists (op_class op). split; [done|]. left.
  - split; [|done]. by eapply take_answer_truth.
Qed.

Lemma checks_release g log cpu s class inst :
  checks g log → g_stacks g !! cpu = Some s → (Z.of_nat (length log) < u_max 64)%Z →
  ∃ g' r, with_global g cpu (Release class inst) = Some (g', Some r) ∧ length (g_stacks g') = length (g_stacks g) ∧
    checks g' ({| e_cpu := cpu; e_op := Release class inst; e_answer := r |} :: log).
Proof.
  intros Hck Hs Hlen. pose proof Hck as []. destruct (ck_stacks0 cpu s Hs) as (Hsk & Hl & Hu). pose proof (loose_bounds log cpu) as Hb.
  unfold with_global. rewrite Hs. cbn [run_op].
  destruct (release_in_spec (g_order g) s class inst) as (o' & s' & r & -> & []); [done|done|rewrite Hu; unfold in_u; lia|].
  cbn [mbind option_bind]. eexists _, r. split; [done|]. split; [cbn; by rewrite length_insert|].
  destruct rr_same0 as (Hc & Hk & Ha).
  assert (∀ a b, ordered o' a b ↔ ordered (g_order g) a b) as Hord.
  { intros a b. unfold ordered, seen, adr, addr_at. by rewrite Hc, Ha. }
  split; cbn [g_order g_stacks].
  - done.
  - apply (other_stacks g log); [done|by split; [lia|rewrite Hc]|done|]. split; [done|].
    cbn [holds loose e_cpu e_op e_answer op_lock]. rewrite Nat.eqb_refl, <-Hl, <-Hu. by rewrite rr_locks0, rr_untracked0.
  - intros a b Hab%Hord. apply waited_mono. auto.
  - intros a b [(Hbl & _)|Hab]; [done|]. apply Hord. auto.
  - rewrite Hk, Hc. intros i Hi. destruct (ck_classes0 i Hi) as (c & Hci & Hin). exists c. split; [done|]. by right.
  - split; [|done]. unfold truthful. cbn. by rewrite <-Hl, <-Hu.
Qed.

Lemma checks_run ops : ∀ g log,
  checks g log → (Z.of_nat (length log + length ops) ≤ u_max 64)%Z →
  ∃ g' log', foldl step (Some (g, log)) ops = Some (g', log') ∧ checks g' log' ∧
    (λ e, (e_cpu e, e_op e)) <$> log' = reverse (filter (λ x, x.1 < length (g_stacks g)) ops) ++ ((λ e, (e_cpu e, e_op e)) <$> log).
Proof.
  induction ops as [|[cpu op] ops IH]; intros g log Hck Hlen; [by exists g, log|]. cbn [foldl step mbind option_bind fst snd length] in *.
  destruct (g_stacks g !! cpu) as [s|] eqn:Hs.
  - assert (∃ g' r, with_global g cpu op = Some (g', Some r) ∧ length (g_stacks g') = length (g_stacks g) ∧
      checks g' ({| e_cpu := cpu; e_op := op; e_answer := r |} :: log)) as (g1 & r & -> & Hl & Hck1).
    { destruct op; [apply (checks_acquire _ _ _ s)|apply (checks_acquire _ _ _ s)|apply (checks_release _ _ _ s)]; done || lia. }
    cbn [mbind option_bind]. destruct (IH g1 _ Hck1) as (g' & log' & E & Hck' & Hlog); [cbn [length]; lia|].
    exists g', log'. split; [done|]. split; [done|]. rewrite Hlog, Hl, filter_cons_True by (by eapply lookup_lt_Some).
    by rewrite reverse_cons, <-app_assoc.
  - unfold with_global. rewrite Hs. cbn [mbind option_bind]. destruct (IH g log Hck) as (g' & log' & E & Hck' & Hlog); [lia|].
    exists g', log'. split; [done|]. split; [done|]. rewrite Hlog, filter_cons_False; [done|]. apply lookup_ge_None in Hs. cbn. lia.
Qed.

(** C35. The lock-order checker misses no cycle and cries no wolf.  Over any sequence of blocking
    acquisitions, successful try-locks and releases by any number of CPUs: no operation of the
    checker panics, and what it believes each CPU holds is what the log says the CPU holds;
    among the acquisitions it accepted, "class [b] waited for under class [a]" has no cycle of
    any length, so the operation that closes a cycle is always reported; and every answer is
    the truth about the log before it — an inversion is reported only when the acquiring class
    was really followed, directly or through other classes, by the held one, recursion exactly
    when that instance is held, an unbalanced release only when nothing matches it. *)
Theorem lock_order_is_checked cpus ops :
  (Z.of_nat (length ops) ≤ u_max 64)%Z →
  ∃ g log, run (Global_new cpus) ops = Some (g, log) ∧
    (λ e, (e_cpu e, e_op e)) <$> log = reverse (filter (λ x, x.1 < cpus) ops) ∧
    (∀ cpu s, g_stacks g !! cpu = Some s → locks (g_order g) s = holds log cpu) ∧
    (∀ a, ¬ tc (taken_under log) a a) ∧
    all_truthful log.
Proof.
  intros Hlen. destruct (checks_run ops _ _ (checks_new cpus) Hlen) as (g & log & E & Hck & Hlog). exists g, log.
  cbn [Global_new g_stacks] in Hlog. rewrite length_replicate, app_nil_r in Hlog. pose proof Hck as [].
  split_and!; [done|done| | |done].
  - intros cpu s Hs. by destruct (ck_stacks0 cpu s Hs) as (_ & ? & _).
  - intros a Ha. apply (ordered_irrefl (g_order g) a ck_order0). apply tc_ordered; [done|]. eapply tc_bind; [|exact Ha].
    intros x y Hxy. apply tc_once. auto.
Qed.

(** Three CPUs take three classes in a ring: the third nesting is reported. *)
Definition class_a : LockClass := {| lc_addr := 4096; lc_name := "a"%string |}.
Definition class_b : LockClass := {| lc_addr := 4112; lc_name := "b"%string |}.
Definition class_c : LockClass := {| lc_addr := 4128; lc_name := "c"%string |}.
Definition ring : list (nat * Op) :=
  [(0, Acquire class_a 1); (0, Acquire class_b 2); (1, Acquire class_b 3); (1, Acquire class_c 4); (0, Release class_a 1);
   (2, Acquire class_c 5); (2, Acquire class_a 6); (2, Release class_c 5)].

Example ring_reported :
  (λ p, (report (g_order p.1), e_answer <$> p.2, holds p.2 2)) <$> run (Global_new 3) ring =
  Some ({| rp_count := 1; rp_first := Some (Inversion "c" "a") |},
        [Ok tt; Err (Inversion "c" "a"); Ok tt; Ok tt; Ok tt; Ok tt; Ok tt; Ok tt], [(4096, 6)%Z]).
Proof. vm_compute. reflexivity. Qed.

Lemma lock_order_is_checked_witness : ∃ g log, run (Global_new 3) ring = Some (g, log) ∧ (∀ a, ¬ tc (taken_under log) a a) ∧ all_truthful log.
Proof.
  destruct (lock_order_is_checked 3 ring) as (g & log & E & _ & _ & Ha & Ht); [vm_compute; discriminate|]. by exists g, log.
Defined.

End Lockdep.
