(* ===== verification/MmFrame.v ===== *)
(** * Physical addresses, frames and frame ranges

    [hal/src/addr.rs] ([PhysAddr]), [kernel/mm/src/lib.rs] and [kernel/mm/src/frame.rs].  The
    page size and the width of [usize] come from the architecture, which is a parameter: the
    theorems hold at 4096 bytes on a 64-bit machine and at 256 on a 32-bit one.  A physical
    address is a 64-bit [Z] on every target; a [usize] count is a [nat]. *)

From S2P Require Import Prelude.
Local Open Scope Z_scope.

(** ** The architecture *)

Class Arch := { PAGE_SIZE : Z; USIZE_BITS : Z }.

(** [SIZE_IS_USABLE] and the assertion of [widen], both checked when the code is compiled:
    the page size is a power of two that a [usize] holds, and a [usize] has at most 64 bits. *)
Class ArchOk `{Arch} := {
  page_power_of_two : ∃ k, 0 ≤ k ∧ PAGE_SIZE = 2 ^ k;
  page_usize : PAGE_SIZE ≤ u_max USIZE_BITS;
  usize_width : 0 < USIZE_BITS ≤ 64;
}.

(** The two architectures of [hal/src/mock.rs]. *)
Definition MockFull : Arch := {| PAGE_SIZE := 4096; USIZE_BITS := 64 |}.
Definition MockFull_ok : @ArchOk MockFull.
Proof. split; [by exists 12|done|done]. Qed.
Definition MockTiny : Arch := {| PAGE_SIZE := 256; USIZE_BITS := 32 |}.
Definition MockTiny_ok : @ArchOk MockTiny.
Proof. split; [by exists 8|done|done]. Qed.

Inductive AllocError : Type :=
| Exhausted
| Fragmented
| EmptyRequest
| StorageTooSmall (needed : Z)
| NoUsableMemory
| Overflow
| Unmanaged
| NotInPool
| NotAllocated
| Misaligned.
#[global] Instance AllocError_eq_dec : EqDecision AllocError.
Proof. solve_decision. Defined.

Definition widen (v : nat) : Z := Z.of_nat v.
Definition narrow `{Arch} (v : Z) : result nat AllocError :=
  if v <=? u_max USIZE_BITS then Ok (Z.to_nat v) else Err Overflow.

(** ** [PhysAddr] *)

Module PhysAddr.

Definition align_down (a align : Z) : Z := Z.land a (u_not 64 (align - 1)).
Definition align_up (a align : Z) : option Z :=
  v ← checked_add 64 a (align - 1); Some (Z.land v (u_not 64 (align - 1))).
Definition is_aligned (a align : Z) : bool := Z.land a (align - 1) =? 0.
Definition offset_in (a size : Z) : Z := Z.land a (size - 1).
Definition diff (a earlier : Z) : option Z := checked_sub a earlier.
Definition truncate (a bits : Z) : Z * bool :=
  if 64 <=? bits then (a, false)
  else let mask := shl 64 1 bits - 1 in (Z.land a mask, negb (Z.land a (u_not 64 mask) =? 0)).
Definition to_usize `{Arch} (a : Z) : option nat :=
  if a <=? u_max USIZE_BITS then Some (Z.to_nat a) else None.

Lemma align_down_eq a k : in_u 64 a → 0 ≤ k → align_down a (2 ^ k) = a / 2 ^ k * 2 ^ k.
Proof.
  intros Ha Hk. unfold align_down.
  rewrite land_u_not by done.
  replace (2 ^ k - 1) with (Z.ones k) by (rewrite Z.ones_equiv; lia). by rewrite ldiff_ones_round.
Qed.

Lemma offset_in_eq a k : 0 ≤ k → offset_in a (2 ^ k) = a mod 2 ^ k.
Proof.
  intros Hk. unfold offset_in. replace (2 ^ k - 1) with (Z.ones k) by (rewrite Z.ones_equiv; lia).
  by apply Z.land_ones.
Qed.

Lemma is_aligned_eq a k : 0 ≤ k → is_aligned a (2 ^ k) = (a mod 2 ^ k =? 0).
Proof. intros Hk. unfold is_aligned. by rewrite <-offset_in_eq. Qed.

End PhysAddr.

(** ** Frames *)

Module Frame.
Section Frame.
Context {arch : Arch}.

Record t := { start : Z }.
#[global] Instance eq_dec : EqDecision t.
Proof. solve_decision. Defined.

Definition bytes : Z := PAGE_SIZE.
Definition index_of (addr : Z) : Z := addr / bytes.
Definition at_ (s : Z) : t := {| start := s |}.
Definition containing (addr : Z) : t := at_ (PhysAddr.align_down addr bytes).
Definition from_start (addr : Z) : result t AllocError :=
  if PhysAddr.is_aligned addr bytes then Ok (at_ addr) else Err Misaligned.
Definition from_number (n : Z) : result t AllocError :=
  let? s := ok_or (checked_mul 64 n bytes) Overflow in Ok (at_ s).
Definition number (f : t) : Z := index_of (start f).
Definition end_ (f : t) : result Z AllocError := ok_or (checked_add 64 (start f) bytes) Overflow.
Definition next (f : t) : result t AllocError :=
  let? n := ok_or (checked_add 64 (number f) 1) Overflow in from_number n.
(** [Ord]: frames compare by address. *)
Definition compare (f g : t) : comparison := Z.compare (start f) (start g).

(** Every constructor leaves a frame on a boundary. *)
Definition wf (f : t) : Prop := in_u 64 (start f) ∧ (bytes | start f).

Context {arch_ok : ArchOk}.

Lemma bytes_pos : 0 < bytes.
Proof. destruct page_power_of_two as (k & Hk & E). unfold bytes. rewrite E. lia. Qed.

Lemma bytes_u64 : bytes ≤ u_max 64.
Proof.
  unfold bytes. pose proof page_usize as Hp. pose proof usize_width. unfold u_max in *.
  assert (2 ^ USIZE_BITS ≤ 2 ^ 64) by (apply Z.pow_le_mono_r; lia). lia.
Qed.

Lemma align_down_bytes a : in_u 64 a → PhysAddr.align_down a bytes = a / bytes * bytes.
Proof.
  destruct page_power_of_two as (k & Hk & E). unfold bytes. rewrite E. intros. by apply PhysAddr.align_down_eq.
Qed.

Lemma is_aligned_bytes a : PhysAddr.is_aligned a bytes = true ↔ (bytes | a).
Proof.
  destruct page_power_of_two as (k & Hk & E). unfold bytes. rewrite E, PhysAddr.is_aligned_eq, Z.eqb_eq by done.
  apply Z.mod_divide. lia.
Qed.

Lemma wf_number f : wf f → start f = number f * bytes ∧ 0 ≤ number f.
Proof.
  intros [[H0 _] [q Hq]]. unfold number, index_of. pose proof bytes_pos. rewrite Hq, Z.div_mul by lia. nia.
Qed.

Lemma from_number_Ok n f :
  0 ≤ n → (from_number n = Ok f ↔ start f = n * bytes ∧ n * bytes ≤ u_max 64).
Proof.
  intros Hn. unfold from_number. destruct (checked_mul 64 n bytes) as [s|] eqn:E; simpl.
  - apply checked_mul_Some in E as [-> E]. destruct f as [s]. unfold at_. simpl. split.
    + intros [= <-]. done.
    + by intros [-> _].
  - split; [done|]. intros [_ Hle]. unfold checked_mul in E. destruct (Z.leb_spec (n * bytes) (u_max 64)); [done|lia].
Qed.

Lemma from_number_Err n : 0 ≤ n → u_max 64 < n * bytes → from_number n = Err Overflow.
Proof. intros Hn Hb. unfold from_number, checked_mul. destruct (Z.leb_spec (n * bytes) (u_max 64)); [lia|done]. Qed.

Lemma wf_from_number n f : 0 ≤ n → from_number n = Ok f → wf f ∧ number f = n.
Proof.
  intros Hn [Hs Hb]%from_number_Ok; [|done]. pose proof bytes_pos. split.
  - split; [split; nia|]. exists n. lia.
  - unfold number, index_of. rewrite Hs. apply Z.div_mul. lia.
Qed.

Lemma number_inj f g : wf f → wf g → number f = number g → f = g.
Proof.
  intros [Hf _]%wf_number [Hg _]%wf_number E. destruct f, g. simpl in *. f_equal. congruence.
Qed.

Lemma from_number_number f : wf f → from_number (number f) = Ok f.
Proof.
  intros Hw. pose proof (wf_number f Hw) as [Hs H0]. apply from_number_Ok; [done|]. split; [done|].
  rewrite <-Hs. apply Hw.
Qed.
End Frame.
End Frame.

(** ** Ranges of frames *)

Module FrameRange.
Section FrameRange.
Context {arch : Arch}.

Record t := { start : Frame.t; count : nat }.

Definition new (s : Frame.t) (n : nat) : result t AllocError :=
  if (n =? 0)%nat then Err EmptyRequest
  else let? _ := ok_or (checked_add 64 (Frame.number s) (widen n)) Overflow in
       Ok {| start := s; count := n |}.
Definition end_exclusive (r : t) : Z := saturating_add 64 (Frame.number (start r)) (widen (count r)).
Definition len_bytes (r : t) : result Z AllocError :=
  ok_or (checked_mul 64 (widen (count r)) Frame.bytes) Overflow.
Definition contains (r : t) (f : Frame.t) : bool :=
  let n := Frame.number f in (Frame.number (start r) <=? n) && (n <? end_exclusive r).

Record Iter := { it_next : Z; remaining : nat }.
Definition iter (r : t) : Iter := {| it_next := Frame.number (start r); remaining := count r |}.
(** [FrameIter::next]: the item, and the iterator left behind. *)
Definition iter_next (it : Iter) : option Frame.t * Iter :=
  if (remaining it =? 0)%nat then (None, it)
  else match Frame.from_number (it_next it) with
  | Err _ => (None, it)
  | Ok frame =>
      match checked_add 64 (it_next it) 1 with
      | None => (None, it)
      | Some n => (Some frame, {| it_next := n; remaining := remaining it - 1 |})
      end
  end.

(** What a [for] loop over the iterator sees. *)
Fixpoint collect (fuel : nat) (it : Iter) : list Frame.t :=
  match fuel with
  | O => []
  | S fuel => match iter_next it with
              | (Some f, it') => f :: collect fuel it'
              | (None, _) => []
              end
  end.

Context {arch_ok : ArchOk}.

(** How many frame numbers there are: frame [n] exists when its address fits 64 bits. *)
Definition frame_limit : Z := 2 ^ 64 / Frame.bytes.

Lemma limit_bytes : frame_limit * Frame.bytes = 2 ^ 64.
Proof.
  unfold frame_limit. destruct page_power_of_two as (k & Hk & E). unfold Frame.bytes. rewrite E.
  pose proof Frame.bytes_u64 as Hu. unfold Frame.bytes, u_max in Hu. rewrite E in Hu.
  assert (k < 64) by (apply (Z.pow_lt_mono_r_iff 2); lia).
  replace 64 with ((64 - k) + k) by lia. rewrite Z.pow_add_r by lia. rewrite Z.div_mul by lia. done.
Qed.

Lemma from_number_limit n :
  0 ≤ n → Frame.from_number n = if n <? frame_limit then Ok (Frame.at_ (n * Frame.bytes)) else Err Overflow.
Proof.
  intros Hn. pose proof Frame.bytes_pos. pose proof limit_bytes. destruct (Z.ltb_spec n frame_limit).
  - apply Frame.from_number_Ok; [done|]. unfold u_max. split; [done|]. nia.
  - apply Frame.from_number_Err; [done|]. unfold u_max. nia.
Qed.

Lemma collect_from fuel n c :
  0 ≤ n → n + Z.of_nat c ≤ u_max 64 → (c < fuel)%nat →
  collect fuel {| it_next := n; remaining := c |} =
    (λ i, Frame.at_ (i * Frame.bytes)) <$> seqZ n (Z.min (Z.of_nat c) (frame_limit - n)).
Proof.
  revert n c. induction fuel as [|fuel IH]; intros n c Hn Hc Hf; [lia|]. cbn [collect].
  unfold iter_next. simpl. destruct (Nat.eqb_spec c 0) as [->|Hc0].
  { rewrite seqZ_nil by lia. done. }
  rewrite from_number_limit by done. destruct (Z.ltb_spec n frame_limit).
  - unfold checked_add. destruct (Z.leb_spec (n + 1) (u_max 64)); [|lia].
    rewrite IH by lia. rewrite (seqZ_cons n) by lia. csimpl. f_equal.
    replace (Z.succ n) with (n + 1) by lia. f_equal. f_equal. lia.
  - rewrite seqZ_nil by lia. done.
Qed.

End FrameRange.
End FrameRange.

Module MmFrameSpec.
Section Spec.
Context {arch : Arch} {arch_ok : ArchOk}.

Lemma containing_spec a g :
  in_u 64 a → Frame.wf g →
  let f := Frame.containing a in
  Frame.wf f ∧ Frame.start f ≤ a < Frame.start f + Frame.bytes ∧ Frame.number f = Frame.index_of a ∧
  (Frame.start g ≤ a < Frame.start g + Frame.bytes → g = f).
Proof.
  intros Ha Hg f. pose proof Frame.bytes_pos as Hb.
  assert (Frame.start f = a / Frame.bytes * Frame.bytes) as Hs by (by apply Frame.align_down_bytes).
  pose proof (Z.mod_pos_bound a Frame.bytes Hb). assert (Frame.bytes ≠ 0) as Hb0 by lia. pose proof (Z.div_mod a Frame.bytes Hb0) as Hd.
  assert (0 ≤ a / Frame.bytes) by (apply Z.div_pos; [apply Ha|lia]).
  assert (Frame.wf f) as Hf.
  { split; [|by exists (a / Frame.bytes)]. destruct Ha. unfold in_u. rewrite Hs. nia. }
  assert (Frame.number f = Frame.index_of a) as Hnum.
  { unfold Frame.number, Frame.index_of. rewrite Hs. apply Z.div_mul. lia. }
  split_and!; [done|rewrite Hs; lia..|done|]. intros Hin. apply Frame.number_inj; [done..|].
  rewrite Hnum. destruct (Frame.wf_number g Hg) as [Hgs _]. unfold Frame.index_of.
  apply (Z.div_unique a Frame.bytes _ (a - Frame.start g)); lia.
Qed.

Lemma next_spec g :
  Frame.wf g →
  match Frame.next g with
  | Ok f => Frame.wf f ∧ Frame.start f = Frame.start g + Frame.bytes ∧ Frame.end_ g = Ok (Frame.start f)
  | Err e => e = Overflow ∧ Frame.end_ g = Err Overflow ∧ Frame.start g + Frame.bytes = 2 ^ 64
  end.
Proof.
  intros Hg. pose proof Frame.bytes_pos as Hb. destruct (Frame.wf_number g Hg) as [Hs H0].
  pose proof (FrameRange.from_number_limit (Frame.number g) H0) as Hl.
  rewrite Frame.from_number_number in Hl by done.
  unfold Frame.next, Frame.end_. destruct (checked_add 64 (Frame.number g) 1) as [n|] eqn:E; simpl.
  - apply checked_add_Some in E as [-> _]. rewrite FrameRange.from_number_limit by lia.
    pose proof FrameRange.limit_bytes as Hlim. unfold checked_add.
    destruct (Z.ltb_spec (Frame.number g) FrameRange.frame_limit); [|done].
    destruct (Z.ltb_spec (Frame.number g + 1) FrameRange.frame_limit).
    + destruct (Z.leb_spec (Frame.start g + Frame.bytes) (u_max 64)); [|unfold u_max in *; nia].
      split_and!; simpl; [|lia|do 2 f_equal; lia].
      split; simpl; [unfold in_u; nia|by exists (Frame.number g + 1)].
    + destruct (Z.leb_spec (Frame.start g + Frame.bytes) (u_max 64)); [unfold u_max in *; nia|].
      split_and!; [done..|nia].
  - apply checked_add_None in E. destruct Hg as [[_ Hg] _]. unfold u_max in *.
    assert (Frame.bytes = 1) as Hone by nia. unfold checked_add, u_max.
    destruct (Z.leb_spec (Frame.start g + Frame.bytes) (2 ^ 64 - 1)); [nia|]. split_and!; [done..|nia].
Qed.


Lemma range_new f n r :
  FrameRange.new f n = Ok r →
  r = {| FrameRange.start := f; FrameRange.count := n |} ∧ n ≠ 0%nat ∧ Frame.number f + Z.of_nat n ≤ u_max 64.
Proof.
  unfold FrameRange.new. destruct (Nat.eqb_spec n 0); [done|].
  destruct (checked_add 64 (Frame.number f) (widen n)) eqn:E; [|done]. simpl. intros [= <-].
  by apply checked_add_Some in E as [_ E].
Qed.

Lemma range_refused f n e :
  FrameRange.new f n = Err e →
  (n = 0%nat ∧ e = EmptyRequest) ∨ (n ≠ 0%nat ∧ e = Overflow ∧ u_max 64 < Frame.number f + Z.of_nat n).
Proof.
  unfold FrameRange.new. destruct (Nat.eqb_spec n 0); [intros [= <-]; by left|].
  destruct (checked_add 64 (Frame.number f) (widen n)) eqn:E; [done|]. simpl. intros [= <-].
  right. by apply checked_add_None in E.
Qed.

(** The list of frames from number [m] on, up to the top of memory. *)
Lemma range_frames m n g (b : bool) :
  0 ≤ m → Frame.wf g → (b = true ↔ m ≤ Frame.number g < m + Z.of_nat n) →
  let frames := (λ i, Frame.at_ (i * Frame.bytes)) <$> seqZ m (Z.min (Z.of_nat n) (FrameRange.frame_limit - m)) in
  Frame.number <$> frames = seqZ m (Z.min (Z.of_nat n) (FrameRange.frame_limit - m)) ∧
  Forall Frame.wf frames ∧ (g ∈ frames ↔ b = true) ∧
  ((m + Z.of_nat n) * Frame.bytes ≤ 2 ^ 64 → length frames = n).
Proof.
  intros Hm Hg Hb frames. pose proof Frame.bytes_pos as Hpos. pose proof FrameRange.limit_bytes as Hlim.
  assert (∀ i, Frame.number (Frame.at_ (i * Frame.bytes)) = i) as Hnum.
  { intros i. unfold Frame.number, Frame.index_of. simpl. apply Z.div_mul. lia. }
  split_and!.
  - unfold frames. rewrite <-list_fmap_compose. rewrite <-(list_fmap_id (seqZ m _)) at 2.
    apply list_fmap_ext. intros _ i _. apply Hnum.
  - apply Forall_fmap, Forall_forall. intros i Hi. apply elem_of_seqZ in Hi. split; simpl; [|by exists i].
    unfold in_u, u_max. nia.
  - unfold frames. rewrite list_elem_of_fmap, Hb. destruct (Frame.wf_number g Hg) as [Hgs Hg0].
    destruct Hg as [[_ Hgu] _]. unfold u_max in Hgu. split.
    + intros (i & -> & Hi). apply elem_of_seqZ in Hi. rewrite Hnum. lia.
    + intros Hin. exists (Frame.number g). split; [destruct g; unfold Frame.at_; f_equal; done|].
      apply elem_of_seqZ. assert (Frame.number g < FrameRange.frame_limit) by nia. lia.
  - intros Hfit. unfold frames. rewrite length_fmap, length_seqZ.
    assert (m + Z.of_nat n ≤ FrameRange.frame_limit) by nia. lia.
Qed.

(** Frames tile physical memory. The frame [containing] an address is the one aligned
    block of a page that holds it; [from_start] accepts exactly the boundaries; numbers and
    frames are in bijection, [from_number] failing exactly when the frame's address leaves
    64 bits; and [next] and [end] step to the following block, failing together, and only at
    the last one. A range is an interval of frames: [new] refuses exactly the empty range and
    one whose end number leaves 64 bits; [contains] is membership in the interval of numbers;
    and iterating yields, in ascending order and once each, exactly the frames the range
    contains, all of them when the run lies below the top of physical memory. *)
Theorem frames_and_ranges_tile_memory (a m : Z) (f g : Frame.t) (n fuel : nat)
    (Ha : in_u 64 a) (Hm : in_u 64 m) (Hf : Frame.wf f) (Hg : Frame.wf g) (Hfuel : (n < fuel)%nat) :
  ((let f := Frame.containing a in
   Frame.wf f ∧ Frame.start f ≤ a < Frame.start f + Frame.bytes ∧ Frame.number f = Frame.index_of a ∧
   (Frame.start g ≤ a < Frame.start g + Frame.bytes → g = f)) ∧
  Frame.from_start a = (if decide (a mod Frame.bytes = 0) then Ok {| Frame.start := a |} else Err Misaligned) ∧
  Frame.from_number (Frame.number g) = Ok g ∧
  match Frame.from_number m with
  | Ok f => Frame.wf f ∧ Frame.number f = m
  | Err e => e = Overflow ∧ u_max 64 < m * Frame.bytes
  end ∧
  match Frame.next g with
  | Ok f => Frame.wf f ∧ Frame.start f = Frame.start g + Frame.bytes ∧ Frame.end_ g = Ok (Frame.start f)
  | Err e => e = Overflow ∧ Frame.end_ g = Err Overflow ∧ Frame.start g + Frame.bytes = 2 ^ 64
  end) ∧
  (match FrameRange.new f n with
  | Err e => (n = 0%nat ∧ e = EmptyRequest) ∨ (n ≠ 0%nat ∧ e = Overflow ∧ u_max 64 < Frame.number f + Z.of_nat n)
  | Ok r =>
      n ≠ 0%nat ∧
      (let frames := FrameRange.collect fuel (FrameRange.iter r) in
       Frame.number <$> frames =
         seqZ (Frame.number f) (Z.min (Z.of_nat n) (FrameRange.frame_limit - Frame.number f)) ∧
       Forall Frame.wf frames ∧ (g ∈ frames ↔ FrameRange.contains r g = true) ∧
       ((Frame.number f + Z.of_nat n) * Frame.bytes ≤ 2 ^ 64 → length frames = n)) ∧
      (FrameRange.contains r g = true ↔ Frame.number f ≤ Frame.number g < Frame.number f + Z.of_nat n) ∧
      FrameRange.end_exclusive r = Frame.number f + Z.of_nat n
  end).
Proof.
  split.
  { pose proof Frame.bytes_pos as Hb. split_and!.
  - apply containing_spec; done.
  - unfold Frame.from_start. case_decide as Hd.
    + rewrite (proj2 (Frame.is_aligned_bytes a)); [done|]. apply Z.mod_divide; [lia|done].
    + destruct (PhysAddr.is_aligned a Frame.bytes) eqn:E; [|done].
      apply Frame.is_aligned_bytes, Z.mod_divide in E; [done|lia].
  - by apply Frame.from_number_number.
  - destruct (Frame.from_number m) as [f0|e] eqn:E; [apply Frame.wf_from_number in E; [done|apply Hm]|].
    destruct (decide (m * Frame.bytes ≤ u_max 64)).
    + rewrite (proj2 (Frame.from_number_Ok m {| Frame.start := m * Frame.bytes |} (proj1 Hm))) in E; done.
    + rewrite Frame.from_number_Err in E by (apply Hm || lia). split; [congruence|lia].
  - by apply next_spec. }
  { destruct (FrameRange.new f n) as [r|e] eqn:E; [|by apply range_refused].
  apply range_new in E as (-> & Hn & Hle). destruct (Frame.wf_number f Hf) as [Hs H0].
  assert (FrameRange.end_exclusive {| FrameRange.start := f; FrameRange.count := n |} = Frame.number f + Z.of_nat n) as He
    by (unfold FrameRange.end_exclusive, saturating_add, widen; simpl; lia).
  assert (FrameRange.contains {| FrameRange.start := f; FrameRange.count := n |} g = true ↔
    Frame.number f ≤ Frame.number g < Frame.number f + Z.of_nat n) as Hc.
  { unfold FrameRange.contains. rewrite He. simpl. rewrite andb_true_iff, Z.leb_le, Z.ltb_lt. done. }
  split_and!; [done| |done|done]. unfold FrameRange.iter. simpl.
  rewrite FrameRange.collect_from by (unfold widen in *; lia || done). apply range_frames; [done..|].
  by rewrite Hc. }
Qed.

End Spec.

Lemma frames_and_ranges_tile_memory_witness :
  @Frame.from_number MockTiny 2 = Ok {| Frame.start := 512 |} ∧
  {| Frame.start := 1024 |} ∈ @FrameRange.collect MockTiny 4 (@FrameRange.iter MockTiny
    {| FrameRange.start := {| Frame.start := 512 |}; FrameRange.count := 3 |}).
Proof.
  assert (@Frame.wf MockTiny {| Frame.start := 512 |}) as Hf by (split; [by vm_compute|by exists 2]).
  assert (@Frame.wf MockTiny {| Frame.start := 1024 |}) as Hg by (split; [by vm_compute|by exists 4]).
  destruct (@frames_and_ranges_tile_memory MockTiny MockTiny_ok 1000 2 {| Frame.start := 512 |} {| Frame.start := 1024 |} 3 4
    ltac:(by vm_compute) ltac:(by vm_compute) Hf Hg ltac:(lia)) as [_ (_ & (_ & _ & H & _) & _)].
  split; [reflexivity|]. apply H. reflexivity.
Defined.

(** [FrameRange::new] says it refuses a run past the end of the address space; it compares
    frame numbers, not addresses, so one that does is accepted and iterates short. *)
Lemma range_past_the_end : ∃ r,
  @FrameRange.new MockFull {| Frame.start := 2 ^ 64 - 4096 |} 2 = Ok r ∧
  length (@FrameRange.collect MockFull 3 (@FrameRange.iter MockFull r)) = 1%nat.
Proof. eexists. split; [reflexivity|]. reflexivity. Qed.

End MmFrameSpec.
