(* ===== verification/MmPhys.v ===== *)
(** * The physical frame allocator

    [kernel/mm/src/phys.rs]: two bit arrays over the span of usable frames, the pool and the
    taken frames, with a free count and a search hint.  The allocator is not synchronised, so
    an operation is one function of its state.  Both arrays are lists of [u8]; a [usize] is a
    [nat] and the operations on it are written at the architecture's width. *)

From S2P Require Import Prelude MmFrame.
Local Open Scope Z_scope.

(** [boot_protocol::MemoryRegion], without the padding field; [kind] is the raw [u32]. *)
Module MemoryRegion.
Record t := { start : Z; len : Z; kind : Z }.
(** The fields at their width. *)
Definition wf (r : t) : Prop := in_u 64 (start r) ∧ in_u 64 (len r).
End MemoryRegion.

Module FrameAllocator.
Section FrameAllocator.
Context {arch : Arch}.

(** [MemoryKind::Usable as u32] *)
Definition USABLE : Z := 1.
Definition is_usable (r : MemoryRegion.t) : bool := MemoryRegion.kind r =? USABLE.

(** [usize] arithmetic. *)
Definition uadd (a b : nat) : option nat :=
  if Z.of_nat a + Z.of_nat b <=? u_max USIZE_BITS then Some (a + b)%nat else None.
Definition umul (a b : nat) : option nat :=
  if Z.of_nat a * Z.of_nat b <=? u_max USIZE_BITS then Some (a * b)%nat else None.
Definition usat_add (a b : nat) : nat :=
  if Z.of_nat a + Z.of_nat b <=? u_max USIZE_BITS then (a + b)%nat else Z.to_nat (u_max USIZE_BITS).

(** ** The bit array *)

Definition mask (i : nat) : Z := shl 8 1 (Z.of_nat (i mod 8)).
Definition bit (map : list Z) (i : nat) : bool :=
  match map !! (i / 8)%nat with
  | Some b => negb (Z.land b (mask i) =? 0)
  | None => false
  end.
Definition set_bit (map : list Z) (i : nat) : list Z :=
  match map !! (i / 8)%nat with
  | Some b => <[(i / 8)%nat := Z.lor b (mask i)]> map
  | None => map
  end.
Definition clear_bit (map : list Z) (i : nat) : list Z :=
  match map !! (i / 8)%nat with
  | Some b => <[(i / 8)%nat := Z.land b (u_not 8 (mask i))]> map
  | None => map
  end.

(** [count_ones] and [trailing_zeros] of a [u8]. *)
Definition bits_of (b : Z) : list nat := filter (λ k, Z.testbit b (Z.of_nat k) = true) (seq 0 8).
Definition count_ones (b : Z) : nat := length (bits_of b).
Definition trailing_zeros (b : Z) : nat := from_option id 8%nat (head (bits_of b)).

Fixpoint popcount_from (n : nat) (map : list Z) : result nat AllocError :=
  match map with
  | [] => Ok n
  | b :: map =>
      let? set := narrow (Z.of_nat (count_ones b)) in
      let? n' := ok_or (uadd n set) Overflow in
      popcount_from n' map
  end.
Definition popcount (map : list Z) : result nat AllocError := popcount_from 0 map.

(** [frames.div_ceil(8)] *)
Definition store_bytes (frames : nat) : nat := (frames / 8 + if (frames mod 8 =? 0)%nat then 0 else 1)%nat.

(** ** The memory map *)

Definition align_up (a : Z) : result Z AllocError := ok_or (PhysAddr.align_up a Frame.bytes) Overflow.

Definition inner_frames (r : MemoryRegion.t) : result (option (Z * Z)) AllocError :=
  let? end_ := ok_or (checked_add 64 (MemoryRegion.start r) (MemoryRegion.len r)) Overflow in
  let? up := align_up (MemoryRegion.start r) in
  let first := Frame.index_of up in
  let last := Frame.index_of end_ in
  Ok (if first <? last then Some (first, last) else None).

Definition outer_frames_raw (start len : Z) : result (option (Z * Z)) AllocError :=
  if len =? 0 then Ok None
  else
    let? end_ := ok_or (checked_add 64 start len) Overflow in
    let first := Frame.index_of start in
    let? up := align_up end_ in
    let last := Frame.index_of up in
    Ok (if first <? last then Some (first, last) else None).

Definition outer_frames (r : MemoryRegion.t) : result (option (Z * Z)) AllocError :=
  outer_frames_raw (MemoryRegion.start r) (MemoryRegion.len r).

(** The loop of [span] over the usable regions. *)
Fixpoint span_loop (lo hi : Z) (found : bool) (map : list MemoryRegion.t) :
    result (Z * Z * bool) AllocError :=
  match map with
  | [] => Ok (lo, hi, found)
  | r :: map =>
      if is_usable r then
        let? o := inner_frames r in
        match o with
        | None => span_loop lo hi found map
        | Some (first, end_) => span_loop (Z.min lo first) (Z.max hi end_) true map
        end
      else span_loop lo hi found map
  end.

Definition span_of (map : list MemoryRegion.t) : result (Z * nat) AllocError :=
  match span_loop u64_MAX 0 false map with
  | Err e => Err e
  | Ok (lo, hi, found) =>
      if negb found then Err NoUsableMemory
      else
        let? d := ok_or (checked_sub hi lo) Overflow in
        let? frames := narrow d in
        if (frames =? 0)%nat then Err NoUsableMemory else Ok (lo, frames)
  end.

Definition bitmap_bytes (map : list MemoryRegion.t) : result nat AllocError :=
  match span_of map with
  | Err e => Err e
  | Ok (_, frames) => ok_or (umul (store_bytes frames) 2) Overflow
  end.

(** The indices [first..last] of the frames [lo, hi) inside [base, limit). *)
Definition clamp (lo hi base limit : Z) : result (list nat) AllocError :=
  let lo := Z.max lo base in
  let hi := Z.min hi limit in
  if hi <=? lo then Ok []
  else
    let? first := narrow (wrapping_sub 64 lo base) in
    let? last := narrow (wrapping_sub 64 hi base) in
    Ok (seq first (last - first)).

(** ** The allocator *)

Record t := {
  pool : list Z;
  taken : list Z;
  base : Z;
  span : nat;
  total : nat;
  free : nat;
  hint : nat;
}.

(** A pass of [new] over the regions [sel] picks: [op] on every index of [frames_of]. *)
Fixpoint mark (sel : MemoryRegion.t → bool) (frames_of : MemoryRegion.t → result (option (Z * Z)) AllocError)
    (op : list Z → nat → list Z) (base limit : Z) (pool : list Z) (map : list MemoryRegion.t) :
    result (list Z) AllocError :=
  match map with
  | [] => Ok pool
  | r :: map =>
      if sel r then
        let? o := frames_of r in
        match o with
        | None => mark sel frames_of op base limit pool map
        | Some (lo, hi) =>
            let? idxs := clamp lo hi base limit in
            mark sel frames_of op base limit (foldl op pool idxs) map
        end
      else mark sel frames_of op base limit pool map
  end.

Definition new (map : list MemoryRegion.t) (store : list Z) : result t AllocError :=
  match span_of map with
  | Err e => Err e
  | Ok (base, span) =>
      let bytes := store_bytes span in
      let? needed := bitmap_bytes map in
      if (length store <? needed)%nat then Err (StorageTooSmall (widen needed))
      else if (length store <? bytes)%nat then Err (StorageTooSmall (widen needed))
      else if (length (drop bytes store) <? bytes)%nat then Err (StorageTooSmall (widen needed))
      else
        let pool0 := replicate (length (take bytes store)) 0 in
        let taken := replicate (length (take bytes (drop bytes store))) 0 in
        let? limit := ok_or (checked_add 64 base (widen span)) Overflow in
        let? pool1 := mark is_usable inner_frames set_bit base limit pool0 map in
        let? pool2 := mark (λ r, negb (is_usable r)) outer_frames clear_bit base limit pool1 map in
        let? total := popcount pool2 in
        if (total =? 0)%nat then Err NoUsableMemory
        else Ok {| pool := pool2; taken := taken; base := base; span := span;
                   total := total; free := total; hint := 0 |}
  end.

Record Stats := { s_total : nat; s_free : nat; s_used : nat; s_frame_size : Z; s_span : nat }.
Definition stats (a : t) : Stats :=
  {| s_total := total a; s_free := free a; s_used := total a - free a;
     s_frame_size := PAGE_SIZE; s_span := span a |}.
Definition free_bytes (s : Stats) : Z := saturating_mul 64 (widen (s_free s)) (s_frame_size s).
Definition used_bytes (s : Stats) : Z := saturating_mul 64 (widen (s_used s)) (s_frame_size s).

(** ** Internals *)

Definition index_of (a : t) (f : Frame.t) : result nat AllocError :=
  let n := Frame.number f in
  if n <? base a then Err Unmanaged
  else
    let? idx := narrow (wrapping_sub 64 n (base a)) in
    if (span a <=? idx)%nat then Err Unmanaged else Ok idx.

Definition frame_at (a : t) (idx : nat) : result Frame.t AllocError :=
  let? n := ok_or (checked_add 64 (base a) (widen idx)) Overflow in Frame.from_number n.

Definition is_free (a : t) (idx : nat) : bool := bit (pool a) idx && negb (bit (taken a) idx).

Definition check_freeable (a : t) (idx : nat) : result unit AllocError :=
  if negb (bit (pool a) idx) then Err NotInPool
  else if negb (bit (taken a) idx) then Err NotAllocated
  else Ok tt.

Definition with_taken (a : t) (tk : list Z) (fr h : nat) : t :=
  {| pool := pool a; taken := tk; base := base a; span := span a; total := total a; free := fr; hint := h |}.

Definition release (a : t) (idx : nat) : t :=
  with_taken a (clear_bit (taken a) idx) (usat_add (free a) 1) (Nat.min (hint a) (idx / 8)).

(** The loop of [find_free] over the byte indices [ixs]. *)
Fixpoint find_free_in (a : t) (ixs : list nat) : option nat :=
  match ixs with
  | [] => None
  | i :: ixs =>
      p ← pool a !! i;
      tk ← taken a !! i;
      let available := Z.land p (u_not 8 tk) in
      if available =? 0 then find_free_in a ixs
      else
        match narrow (Z.of_nat (trailing_zeros available)) with
        | Err _ => None
        | Ok within =>
            i8 ← umul i 8;
            idx ← uadd i8 within;
            if (idx <? span a)%nat then Some idx else find_free_in a ixs
        end
  end.

Definition find_free (a : t) : option nat :=
  let bytes := length (pool a) in
  if (bytes =? 0)%nat then None
  else
    let h := Nat.min (hint a) (bytes - 1) in
    find_free_in a (seq h (bytes - h) ++ seq 0 h).

(** ** Operations *)

Definition alloc_frame (a : t) : t * result Frame.t AllocError :=
  match find_free a with
  | None => (a, Err Exhausted)
  | Some idx =>
      let a' := with_taken a (set_bit (taken a) idx) (free a - 1) (idx / 8) in
      (a', frame_at a' idx)
  end.

(** The scan of [alloc_contiguous]: the first and last index of the run it takes. *)
Fixpoint find_run (a : t) (count run : nat) (ixs : list nat) : option (nat * nat) :=
  match ixs with
  | [] => None
  | idx :: ixs =>
      if is_free a idx then
        let run := usat_add run 1 in
        if (run =? count)%nat then Some ((idx - (count - 1))%nat, idx) else find_run a count run ixs
      else find_run a count 0 ixs
  end.

Definition alloc_contiguous (a : t) (count : nat) : t * result FrameRange.t AllocError :=
  if (count =? 0)%nat then (a, Err EmptyRequest)
  else if (free a <? count)%nat then (a, Err Exhausted)
  else match find_run a count 0 (seq 0 (span a)) with
  | None => (a, Err Fragmented)
  | Some (start, idx) =>
      let a' := with_taken a (foldl set_bit (taken a) (seq start (idx + 1 - start)))
                  (free a - count) (idx / 8) in
      (a', let? f := frame_at a' start in FrameRange.new f count)
  end.

Definition free_frame (a : t) (f : Frame.t) : t * result unit AllocError :=
  match index_of a f with
  | Err e => (a, Err e)
  | Ok idx => match check_freeable a idx with
              | Err e => (a, Err e)
              | Ok _ => (release a idx, Ok tt)
              end
  end.

Fixpoint check_all (a : t) (ixs : list nat) : result unit AllocError :=
  match ixs with
  | [] => Ok tt
  | idx :: ixs => let? _ := check_freeable a idx in check_all a ixs
  end.

Definition free_contiguous (a : t) (r : FrameRange.t) : t * result unit AllocError :=
  match index_of a (FrameRange.start r) with
  | Err e => (a, Err e)
  | Ok start =>
      match uadd start (FrameRange.count r) with
      | None => (a, Err Overflow)
      | Some end_ =>
          if (span a <? end_)%nat then (a, Err Unmanaged)
          else match check_all a (seq start (end_ - start)) with
          | Err e => (a, Err e)
          | Ok _ => (foldl release a (seq start (end_ - start)), Ok tt)
          end
      end
  end.

(** One turn of [reserve]'s loop, with the count of frames removed. *)
Definition reserve_turn (s : t * nat) (idx : nat) : t * nat :=
  let '(a, removed) := s in
  if negb (bit (pool a) idx) then (a, removed)
  else ({| pool := clear_bit (pool a) idx; taken := taken a; base := base a; span := span a;
           total := total a - 1; free := if negb (bit (taken a) idx) then free a - 1 else free a;
           hint := hint a |}, usat_add removed 1).

Definition reserve (a : t) (start len : Z) : t * result nat AllocError :=
  match outer_frames_raw start len with
  | Err e => (a, Err e)
  | Ok None => (a, Ok 0%nat)
  | Ok (Some (lo, hi)) =>
      match checked_add 64 (base a) (widen (span a)) with
      | None => (a, Err Overflow)
      | Some limit =>
          match clamp lo hi (base a) limit with
          | Err e => (a, Err e)
          | Ok idxs => let '(a', removed) := foldl reserve_turn (a, 0%nat) idxs in (a', Ok removed)
          end
      end
  end.

Definition manages (a : t) (f : Frame.t) : bool :=
  match index_of a f with Ok idx => bit (pool a) idx | Err _ => false end.
Definition is_allocated (a : t) (f : Frame.t) : bool :=
  match index_of a f with Ok idx => bit (pool a) idx && bit (taken a) idx | Err _ => false end.

(** ** Bit arrays as functions *)

Lemma mask_eq i : mask i = 2 ^ Z.of_nat (i mod 8).
Proof. apply shl_bit. pose proof (Nat.mod_upper_bound i 8). lia. Qed.

Lemma bit_testbit map i :
  bit map i = match map !! (i / 8)%nat with Some b => Z.testbit b (Z.of_nat (i mod 8)) | None => false end.
Proof. unfold bit. case_match; [|done]. rewrite mask_eq. apply land_bit. lia. Qed.

Lemma index_split i j : (i / 8)%nat = (j / 8)%nat → (i mod 8)%nat = (j mod 8)%nat → i = j.
Proof. intros. pose proof (Nat.div_mod_eq i 8). pose proof (Nat.div_mod_eq j 8). lia. Qed.

(** Writing one byte changes one bit. *)
Lemma bit_insert map i j b b' v :
  map !! (i / 8)%nat = Some b →
  (∀ k, (k < 8)%nat → Z.testbit b' (Z.of_nat k) = if decide (k = i mod 8)%nat then v else Z.testbit b (Z.of_nat k)) →
  bit (<[(i / 8)%nat := b']> map) j = if decide (j = i) then v else bit map j.
Proof.
  intros Hi Hb. rewrite !bit_testbit. destruct (decide (j / 8 = i / 8)%nat) as [E|E].
  - rewrite E, list_lookup_insert_eq, Hi by (by eapply lookup_lt_Some).
    rewrite Hb by (apply Nat.mod_upper_bound; lia). do 2 case_decide; try done; subst; [|done].
    exfalso. eauto using index_split.
  - rewrite list_lookup_insert_ne by done. case_decide; [by subst|done].
Qed.

Lemma bit_set_bit map i j :
  (i / 8 < length map)%nat → bit (set_bit map i) j = if decide (j = i) then true else bit map j.
Proof.
  intros Hi. unfold set_bit. destruct (lookup_lt_is_Some_2 _ _ Hi) as [b Hb]. rewrite Hb.
  apply (bit_insert _ _ _ b); [done|]. intros k Hk. rewrite mask_eq, Z.lor_spec. case_decide as E.
  - subst k. by rewrite Z.pow2_bits_true, orb_true_r by lia.
  - by rewrite Z.pow2_bits_false, orb_false_r by lia.
Qed.

Lemma bit_clear_bit map i j :
  (i / 8 < length map)%nat → bit (clear_bit map i) j = if decide (j = i) then false else bit map j.
Proof.
  intros Hi. unfold clear_bit. destruct (lookup_lt_is_Some_2 _ _ Hi) as [b Hb]. rewrite Hb.
  apply (bit_insert _ _ _ b); [done|]. intros k Hk. rewrite mask_eq, Z.land_spec, u_not_spec by lia.
  rewrite bool_decide_true by lia. case_decide as E.
  - subst k. by rewrite Z.pow2_bits_true, andb_false_r by lia.
  - by rewrite Z.pow2_bits_false, andb_true_r by lia.
Qed.

(** Both keep the array's length and its bytes bytes. *)
Definition bytes_wf (n : nat) (map : list Z) : Prop := length map = n ∧ Forall (in_u 8) map.

Lemma in_u8_land a b : in_u 8 a → in_u 8 (Z.land a b).
Proof.
  intros Ha. apply testbit_in_u; [done|apply Z.land_nonneg; left; apply Ha|].
  intros n Hn. by rewrite Z.land_spec, (in_u_testbit 8 a).
Qed.

Lemma mask_u8 i : in_u 8 (mask i).
Proof. unfold mask, shl, in_u, u_max. pose proof (Z.mod_pos_bound (Z.shiftl 1 (Z.of_nat (i mod 8))) (2 ^ 8)). lia. Qed.

Lemma bytes_wf_set_bit n map i : bytes_wf n map → bytes_wf n (set_bit map i).
Proof.
  intros [Hl Hb]. unfold set_bit. destruct (map !! (i / 8)%nat) as [b|] eqn:E; [|done].
  split; [by rewrite length_insert|]. apply Forall_insert; [done|].
  apply lor_in_u; [done|by eapply Forall_lookup_1|apply mask_u8].
Qed.

Lemma bytes_wf_clear_bit n map i : bytes_wf n map → bytes_wf n (clear_bit map i).
Proof.
  intros [Hl Hb]. unfold clear_bit. destruct (map !! (i / 8)%nat) as [b|] eqn:E; [|done].
  split; [by rewrite length_insert|]. apply Forall_insert; [done|].
  apply in_u8_land. by eapply Forall_lookup_1.
Qed.

Lemma store_bytes_bound frames i : (i / 8 < store_bytes frames)%nat ↔ (i < 8 * store_bytes frames)%nat.
Proof. pose proof (Nat.div_mod_eq i 8). pose proof (Nat.mod_upper_bound i 8). lia. Qed.

Lemma store_bytes_ge frames : (frames ≤ 8 * store_bytes frames < frames + 8)%nat.
Proof.
  unfold store_bytes. pose proof (Nat.div_mod_eq frames 8). pose proof (Nat.mod_upper_bound frames 8).
  destruct (Nat.eqb_spec (frames mod 8) 0); lia.
Qed.

Lemma store_bytes_index frames i : (i < frames)%nat → (i / 8 < store_bytes frames)%nat.
Proof. intros. apply store_bytes_bound. pose proof (store_bytes_ge frames). lia. Qed.

(** ** The invariant *)

Record inv (a : t) : Prop := {
  inv_pool : bytes_wf (store_bytes (span a)) (pool a);
  inv_taken : bytes_wf (store_bytes (span a)) (taken a);
  inv_end : ∀ i, (span a ≤ i)%nat → bit (pool a) i = false;
  inv_total : total a = count_if (bit (pool a)) (seq 0 (span a));
  inv_free : free a = count_if (is_free a) (seq 0 (span a));
  inv_base : 0 ≤ base a;
  inv_limit : (base a + Z.of_nat (span a)) * Frame.bytes ≤ u_max 64;
  inv_span : Z.of_nat (span a) ≤ u_max USIZE_BITS;
}.

Context {arch_ok : ArchOk}.

Lemma number_u64 f : Frame.wf f → in_u 64 (Frame.number f).
Proof.
  intros Hf. destruct (Frame.wf_number f Hf) as [Hs H0]. pose proof Frame.bytes_pos.
  destruct Hf as [[_ Hu] _]. split; [done|]. nia.
Qed.

Lemma base_span_u64 a : inv a → base a + Z.of_nat (span a) ≤ u_max 64.
Proof. intros Ha. pose proof Frame.bytes_pos. pose proof (inv_limit a Ha). pose proof (inv_base a Ha). nia. Qed.

Lemma index_of_Ok a f i :
  inv a → Frame.wf f → (index_of a f = Ok i ↔ (i < span a)%nat ∧ Frame.number f = base a + Z.of_nat i).
Proof.
  intros Ha Hf. pose proof (number_u64 f Hf) as [Hn0 Hn]. pose proof (inv_span a Ha). pose proof (inv_base a Ha).
  unfold index_of. destruct (Z.ltb_spec (Frame.number f) (base a)); [split; [done|lia]|].
  unfold wrapping_sub. rewrite Z.mod_small by (unfold u_max in *; lia). unfold narrow.
  destruct (Z.leb_spec (Frame.number f - base a) (u_max USIZE_BITS)); [|split; [done|lia]].
  destruct (Nat.leb_spec (span a) (Z.to_nat (Frame.number f - base a))).
  - split; [done|]. lia.
  - split; [intros [= <-]; lia|]. intros [Hi E]. f_equal. lia.
Qed.

Lemma index_of_Err a f e :
  inv a → Frame.wf f → index_of a f = Err e →
  (e = Unmanaged ∨ e = Overflow) ∧ (Frame.number f < base a ∨ base a + Z.of_nat (span a) ≤ Frame.number f).
Proof.
  intros Ha Hf He. pose proof (inv_base a Ha) as Hb. destruct (decide (base a ≤ Frame.number f < base a + Z.of_nat (span a))) as [Hin|Hout].
  - assert (index_of a f = Ok (Z.to_nat (Frame.number f - base a))) as E by (apply index_of_Ok; [done..|lia]).
    congruence.
  - split; [|lia]. unfold index_of, narrow in He. destruct (Frame.number f <? base a); [simplify_eq; by left|].
    destruct (_ <=? u_max USIZE_BITS); [|simplify_eq; by right]. destruct (span a <=? _)%nat; [simplify_eq; by left|done].
Qed.

Lemma frame_at_Ok a i :
  inv a → (i < span a)%nat →
  ∃ f, frame_at a i = Ok f ∧ Frame.wf f ∧ Frame.number f = base a + Z.of_nat i ∧ index_of a f = Ok i.
Proof.
  intros Ha Hi. pose proof Frame.bytes_pos. pose proof (inv_base a Ha). pose proof (inv_limit a Ha).
  pose proof (base_span_u64 a Ha). set (f := {| Frame.start := (base a + Z.of_nat i) * Frame.bytes |}).
  assert (Frame.from_number (base a + Z.of_nat i) = Ok f) as Hf by (apply Frame.from_number_Ok; [lia|]; split; [done|nia]).
  assert (0 ≤ base a + Z.of_nat i) as Hn0 by lia.
  pose proof (Frame.wf_from_number _ _ Hn0 Hf) as [Hw Hn]. exists f. split_and!; [|done..|by apply index_of_Ok].
  unfold frame_at, checked_add, widen. destruct (Z.leb_spec (base a + Z.of_nat i) (u_max 64)); [done|lia].
Qed.

(** ** The search *)

Lemma bits_of_head b k ks :
  bits_of b = k :: ks → (k < 8)%nat ∧ Z.testbit b (Z.of_nat k) = true.
Proof.
  intros E. assert (k ∈ bits_of b) as Hk by (rewrite E; by left). unfold bits_of in Hk.
  apply list_elem_of_filter in Hk as [Hb Hk%elem_of_seq]. split; [lia|done].
Qed.

Lemma bits_of_nil b : in_u 8 b → bits_of b = [] → b = 0.
Proof.
  intros Hb E. apply Z.bits_inj'. intros n Hn. rewrite Z.bits_0.
  destruct (decide (n < 8)) as [Hlt|]; [|apply (in_u_testbit 8); [done..|lia]].
  destruct (Z.testbit b n) eqn:Ht; [|done]. exfalso.
  assert (Z.to_nat n ∈ bits_of b) as Hin.
  { apply list_elem_of_filter. rewrite Z2Nat.id by done. split; [done|]. apply elem_of_seq. lia. }
  rewrite E in Hin. by apply elem_of_nil in Hin.
Qed.

(** A byte of [pool & !taken] is zero exactly when none of its frames is free. *)
Lemma is_free_byte a i p tk k :
  pool a !! i = Some p → taken a !! i = Some tk → (k < 8)%nat →
  is_free a (8 * i + k) = Z.testbit (Z.land p (u_not 8 tk)) (Z.of_nat k).
Proof.
  intros Hp Ht Hk. unfold is_free. rewrite !bit_testbit.
  replace ((8 * i + k) / 8)%nat with i by (apply (Nat.div_unique _ 8 i k); lia).
  replace ((8 * i + k) mod 8)%nat with k by (apply (Nat.mod_unique _ 8 i k); lia).
  rewrite Hp, Ht, Z.land_spec, u_not_spec by lia. rewrite bool_decide_true, xorb_true_r by lia. done.
Qed.

Lemma is_free_span a i : inv a → is_free a i = true → (i < span a)%nat.
Proof.
  intros Ha Hf. destruct (decide (i < span a)%nat) as [|Hi]; [done|].
  unfold is_free in Hf. rewrite (inv_end a Ha) in Hf by lia. done.
Qed.

Lemma find_free_in_spec a ixs :
  inv a → (∀ i, i ∈ ixs → (i < store_bytes (span a))%nat) →
  match find_free_in a ixs with
  | Some idx => is_free a idx = true
  | None => ∀ i k, i ∈ ixs → (k < 8)%nat → is_free a (8 * i + k) = false
  end.
Proof.
  intros Ha. induction ixs as [|i ixs IH]; intros Hb; [intros i k Hi; by apply elem_of_nil in Hi|].
  destruct (inv_pool a Ha) as [Hlp Hup]. destruct (inv_taken a Ha) as [Hlt Hut].
  assert (i < store_bytes (span a))%nat as Hi by (apply Hb; by left). cbn [find_free_in].
  destruct (lookup_lt_is_Some_2 (pool a) i) as [p Hp]; [lia|]. destruct (lookup_lt_is_Some_2 (taken a) i) as [tk Ht]; [lia|].
  rewrite Hp, Ht. cbn [mbind option_bind].
  assert (in_u 8 (Z.land p (u_not 8 tk))) as Hav by (apply in_u8_land; exact (Forall_lookup_1 _ _ _ _ Hup Hp)).
  pose proof (λ k, is_free_byte a i p tk k Hp Ht) as Hbyte. set (av := Z.land p (u_not 8 tk)) in *.
  destruct (Z.eqb_spec av 0) as [E|E].
  - assert (∀ j, j ∈ ixs → (j < store_bytes (span a))%nat) as Hb' by (intros j Hj; apply Hb; by right).
    specialize (IH Hb'). destruct (find_free_in a ixs); [done|]. intros j k [->|Hj]%elem_of_cons Hk; [|by apply IH].
    by rewrite Hbyte, E, Z.testbit_0_l.
  - unfold trailing_zeros. destruct (bits_of av) as [|k ks] eqn:Eb; [destruct E; by apply bits_of_nil|]. simpl.
    apply bits_of_head in Eb as [Hk Htb]. rewrite <-Hbyte in Htb by done.
    pose proof (is_free_span _ _ Ha Htb). pose proof (inv_span a Ha).
    unfold narrow, umul, uadd, id. destruct (Z.leb_spec (Z.of_nat k) (u_max USIZE_BITS)); [|lia].
    destruct (Z.leb_spec (Z.of_nat i * Z.of_nat 8) (u_max USIZE_BITS)); [|lia]. cbn [mbind option_bind].
    rewrite Nat2Z.id. destruct (Z.leb_spec (Z.of_nat (i * 8) + Z.of_nat k) (u_max USIZE_BITS)); [|lia].
    cbn [mbind option_bind]. replace (i * 8 + k)%nat with (8 * i + k)%nat by lia.
    destruct (Nat.ltb_spec (8 * i + k) (span a)); [done|lia].
Qed.

Lemma find_free_spec a :
  inv a →
  match find_free a with
  | Some idx => is_free a idx = true
  | None => ∀ idx, is_free a idx = false
  end.
Proof.
  intros Ha. unfold find_free. destruct (inv_pool a Ha) as [Hl _].
  destruct (Nat.eqb_spec (length (pool a)) 0) as [E|E].
  - intros idx. unfold is_free, bit. by rewrite lookup_ge_None_2 by lia.
  - set (h := Nat.min (hint a) (length (pool a) - 1)). pose proof (find_free_in_spec a (seq h (length (pool a) - h) ++ seq 0 h) Ha) as Hs.
    assert (∀ i, i ∈ seq h (length (pool a) - h) ++ seq 0 h ↔ (i < length (pool a))%nat) as Hin.
    { intros i. rewrite elem_of_app, !elem_of_seq. unfold h. lia. }
    destruct (find_free_in a _) as [idx|]; [apply Hs; intros i; rewrite Hin; lia|].
    intros idx. destruct (is_free a idx) eqn:Hf; [|done]. pose proof (is_free_span _ _ Ha Hf) as Hlt.
    pose proof (store_bytes_index _ _ Hlt). rewrite (Nat.div_mod_eq idx 8) in Hf.
    rewrite Hs in Hf; [done|intros i; rewrite Hin; lia|apply Hin; lia|apply Nat.mod_upper_bound; lia].
Qed.

(** ** Taking, giving back and withdrawing one frame *)

Definition take (a : t) (i h : nat) : t := with_taken a (set_bit (taken a) i) (free a - 1) h.

Lemma in_arrays a i : inv a → (i < span a)%nat → (i / 8 < length (pool a))%nat ∧ (i / 8 < length (taken a))%nat.
Proof.
  intros Ha Hi%store_bytes_index. destruct (inv_pool a Ha) as [-> _], (inv_taken a Ha) as [-> _]. done.
Qed.

Lemma is_free_take a i h j :
  inv a → is_free a i = true → is_free (take a i h) j = if decide (j = i) then false else is_free a j.
Proof.
  intros Ha Hf. pose proof (in_arrays a i Ha (is_free_span _ _ Ha Hf)) as [_ Ht].
  unfold is_free, take. simpl. rewrite bit_set_bit by done. case_decide; [by rewrite andb_false_r|done].
Qed.

Lemma inv_take a i h : inv a → is_free a i = true → inv (take a i h) ∧ free a = S (free (take a i h)).
Proof.
  intros Ha Hf. pose proof (is_free_span _ _ Ha Hf) as Hi.
  assert (count_if (is_free a) (seq 0 (span a)) = S (count_if (is_free (take a i h)) (seq 0 (span a)))) as Hc.
  { apply (count_if_seq_change _ _ i); [done| |done|].
    - intros j Hj. by rewrite is_free_take, decide_False.
    - by rewrite is_free_take, decide_True. }
  pose proof (inv_free a Ha) as Hfree. split; [|simpl; lia]. destruct Ha. split; simpl; try done.
  - by apply bytes_wf_set_bit.
  - change (span a) with (span (take a i h)) in Hc at 2. simpl in *. lia.
Qed.

Lemma freeable_span a i : inv a → check_freeable a i = Ok tt → (i < span a)%nat ∧ bit (pool a) i = true ∧ bit (taken a) i = true.
Proof.
  intros Ha. unfold check_freeable. destruct (bit (pool a) i) eqn:Hp; [|done].
  destruct (bit (taken a) i) eqn:Ht; [|done]. intros _. split_and!; [|done..].
  destruct (decide (i < span a)%nat); [done|]. rewrite (inv_end a Ha) in Hp by lia. done.
Qed.

Lemma is_free_release a i j :
  inv a → check_freeable a i = Ok tt → is_free (release a i) j = if decide (j = i) then true else is_free a j.
Proof.
  intros Ha Hf. destruct (freeable_span a i Ha Hf) as (Hi & Hp & _). pose proof (in_arrays a i Ha Hi) as [_ Ht].
  unfold is_free, release. simpl. rewrite bit_clear_bit by done. case_decide; [by subst; rewrite Hp|done].
Qed.

Lemma inv_give a i :
  inv a → check_freeable a i = Ok tt → inv (release a i) ∧ free (release a i) = S (free a).
Proof.
  intros Ha Hf. destruct (freeable_span a i Ha Hf) as (Hi & Hp & Ht).
  assert (is_free a i = false) as Hnf by (unfold is_free; by rewrite Hp, Ht).
  assert (count_if (is_free (release a i)) (seq 0 (span a)) = S (count_if (is_free a) (seq 0 (span a)))) as Hc.
  { apply (count_if_seq_change _ _ i); [done| | |done].
    - intros j Hj. by rewrite is_free_release, decide_False.
    - by rewrite is_free_release, decide_True. }
  pose proof (inv_free a Ha) as Hfree. pose proof (inv_span a Ha) as Hspan.
  assert (free (release a i) = S (free a)) as Hs.
  { simpl. unfold usat_add. pose proof (count_if_le (is_free (release a i)) (seq 0 (span a))) as Hle.
    rewrite length_seq in Hle. destruct (Z.leb_spec (Z.of_nat (free a) + Z.of_nat 1) (u_max USIZE_BITS)); lia. }
  split; [|done]. destruct Ha. split; try done.
  - by apply bytes_wf_clear_bit.
  - change (span (release a i)) with (span a). lia.
Qed.

Lemma inv_reserve_turn a n i :
  inv a → (i < span a)%nat → bit (pool a) i = true →
  inv (reserve_turn (a, n) i).1 ∧
  (∀ j, bit (pool (reserve_turn (a, n) i).1) j = if decide (j = i) then false else bit (pool a) j).
Proof.
  intros Ha Hi Hp. unfold reserve_turn. rewrite Hp. simpl. pose proof (in_arrays a i Ha Hi) as [Hl _].
  assert (∀ j, bit (clear_bit (pool a) i) j = if decide (j = i) then false else bit (pool a) j) as Hb
    by (intros j; by apply bit_clear_bit).
  split; [|done]. set (a' := {| pool := _ |}).
  assert (count_if (bit (pool a)) (seq 0 (span a)) = S (count_if (bit (clear_bit (pool a) i)) (seq 0 (span a)))) as Ht.
  { apply (count_if_seq_change _ _ i); [done| |done|by rewrite Hb, decide_True].
    intros j Hj. by rewrite Hb, decide_False. }
  assert (∀ j, is_free a' j = if decide (j = i) then false else is_free a j) as Hf.
  { intros j. unfold is_free. simpl. rewrite Hb. by case_decide. }
  pose proof (inv_free a Ha) as Hfree. pose proof (inv_total a Ha) as Htot.
  destruct Ha as [? ? Hend ? ? ? ? ?]. split; simpl; try done.
  - by apply bytes_wf_clear_bit.
  - intros j Hj. rewrite Hb. case_decide; [done|auto].
  - lia.
  - destruct (bit (taken a) i) eqn:Hti; simpl.
    + rewrite Hfree. apply count_if_ext. intros j _. rewrite Hf. case_decide; [|done].
      subst. unfold is_free. by rewrite Hti, andb_false_r.
    + rewrite Hfree, (count_if_seq_change (is_free a) (is_free a') i); [lia|done| | |].
      * intros j Hj. by rewrite Hf, decide_False.
      * unfold is_free. by rewrite Hp, Hti.
      * by rewrite Hf, decide_True.
Qed.

(** ** Frames, as the callers see them *)

Lemma index_of_ext a a' f : base a' = base a → span a' = span a → index_of a' f = index_of a f.
Proof. unfold index_of. by intros -> ->. Qed.

Lemma index_of_inj a f g i : inv a → Frame.wf f → Frame.wf g → index_of a f = Ok i → index_of a g = Ok i → f = g.
Proof.
  intros Ha Hf Hg [_ E1]%index_of_Ok [_ E2]%index_of_Ok; try done. apply Frame.number_inj; congruence.
Qed.

(** A change of the two arrays at the frame [f] is seen at [f] only. *)
Lemma observe_change a a' f i vp vt x :
  inv a → Frame.wf f → index_of a f = Ok i → base a' = base a → span a' = span a →
  (∀ j, bit (pool a') j = if decide (j = i) then vp else bit (pool a) j) →
  (∀ j, bit (taken a') j = if decide (j = i) then vt else bit (taken a) j) →
  Frame.wf x →
  manages a' x = (if decide (x = f) then vp else manages a x) ∧
  is_allocated a' x = (if decide (x = f) then vp && vt else is_allocated a x).
Proof.
  intros Ha Hf Hi Hb Hs Hp Ht Hx. unfold manages, is_allocated. rewrite (index_of_ext a a' x Hb Hs).
  destruct (decide (x = f)) as [->|Hne]; [by rewrite Hi, Hp, Ht, !decide_True|].
  destruct (index_of a x) as [j|] eqn:Ej; [|done].
  assert (j ≠ i) by (intros ->; eauto using index_of_inj).
  by rewrite Hp, Ht, !decide_False.
Qed.

Lemma alloc_frame_spec a :
  inv a →
  match alloc_frame a with
  | (a', Ok g) => inv a' ∧ Frame.wf g ∧ manages a g = true ∧ is_allocated a g = false ∧ free a = S (free a') ∧
      ∀ x, Frame.wf x → manages a' x = manages a x ∧
        is_allocated a' x = if decide (x = g) then true else is_allocated a x
  | (a', Err e) => e = Exhausted ∧ a' = a ∧ free a = 0%nat ∧ ∀ x, Frame.wf x → manages a x = is_allocated a x
  end.
Proof.
  intros Ha. unfold alloc_frame. pose proof (find_free_spec a Ha) as Hs.
  destruct (find_free a) as [i|].
  - fold (take a i (i / 8)). destruct (inv_take a i (i / 8) Ha Hs) as [Ha' Hfr].
    pose proof (is_free_span a i Ha Hs) as Hi. pose proof (in_arrays a i Ha Hi) as [_ Ht].
    destruct (frame_at_Ok (take a i (i / 8)) i Ha' Hi) as (g & -> & Hg & _ & Hgi).
    rewrite (index_of_ext a) in Hgi by done. unfold is_free in Hs. apply andb_true_iff in Hs as [Hp Htk].
    apply negb_true_iff in Htk. split_and!; try done.
    + unfold manages. by rewrite Hgi.
    + unfold is_allocated. by rewrite Hgi, Htk, andb_false_r.
    + intros x Hx. destruct (observe_change a (take a i (i / 8)) g i true true x) as [_ Hal]; try done.
      { intros j. simpl. case_decide; [by subst|done]. }
      { intros j. by apply bit_set_bit. }
  - split_and!; try done.
    + rewrite (inv_free a Ha). destruct (count_if (is_free a) (seq 0 (span a))) eqn:Ec; [done|].
      assert (0 < count_if (is_free a) (seq 0 (span a)))%nat as (j & x & _ & Hx)%count_if_pos by lia.
      by rewrite Hs in Hx.
    + intros x Hx. unfold manages, is_allocated. destruct (index_of a x) as [j|]; [|done].
      specialize (Hs j). unfold is_free in Hs. destruct (bit (pool a) j); [|done]. simpl in *.
      by apply negb_false_iff in Hs.
Qed.

Lemma free_frame_spec a f :
  inv a → Frame.wf f →
  match free_frame a f with
  | (a', Ok _) => inv a' ∧ is_allocated a f = true ∧ free a' = S (free a) ∧
      ∀ x, Frame.wf x → manages a' x = manages a x ∧
        is_allocated a' x = if decide (x = f) then false else is_allocated a x
  | (a', Err e) => a' = a ∧ is_allocated a f = false ∧ (e = NotAllocated ↔ manages a f = true)
  end.
Proof.
  intros Ha Hf. unfold free_frame. destruct (index_of a f) as [i|e] eqn:Hi.
  2:{ destruct (index_of_Err a f e Ha Hf Hi) as [[-> | ->] _]; unfold manages, is_allocated; by rewrite Hi. }
  destruct (check_freeable a i) as [[]|e] eqn:Hc.
  - destruct (inv_give a i Ha Hc) as [Ha' Hfr]. destruct (freeable_span a i Ha Hc) as (His & Hp & Ht).
    pose proof (in_arrays a i Ha His) as [_ Hl].
    split_and!; try done.
    + unfold is_allocated. by rewrite Hi, Hp, Ht.
    + intros x Hx. destruct (observe_change a (release a i) f i true false x) as [_ Hal]; try done.
      { intros j. simpl. case_decide; [by subst|done]. }
      { intros j. by apply bit_clear_bit. }
  - unfold check_freeable in Hc. unfold manages, is_allocated. rewrite Hi.
    destruct (bit (pool a) i); simpl in *; [|by simplify_eq].
    destruct (bit (taken a) i); simpl in *; by simplify_eq.
Qed.

(** ** Runs of frames *)

(** Some frame of the [count] from index [s] on is not free. *)
Definition blocked (a : t) (count s : nat) : Prop := ∃ j, (s ≤ j < s + count)%nat ∧ is_free a j = false.

Lemma find_run_spec a count n run k :
  (0 < count)%nat → (run < count)%nat → (run ≤ k)%nat → Z.of_nat (k + n) ≤ u_max USIZE_BITS →
  (∀ j, (k - run ≤ j < k)%nat → is_free a j = true) → (run = k ∨ is_free a (k - run - 1) = false) →
  (∀ s, (s + count ≤ k)%nat → blocked a count s) →
  match find_run a count run (seq k n) with
  | Some (s, e) => (s + count = S e)%nat ∧ (e < k + n)%nat ∧ (∀ j, (s ≤ j ≤ e)%nat → is_free a j = true) ∧
      ∀ s', (s' < s)%nat → blocked a count s'
  | None => ∀ s, (s + count ≤ k + n)%nat → blocked a count s
  end.
Proof.
  intros Hc. revert run k. induction n as [|n IH]; intros run k Hr Hk Hu Hfree Hprev Hb; simpl.
  { intros s Hs. apply Hb. lia. }
  destruct (is_free a k) eqn:Hf.
  - unfold usat_add. destruct (Z.leb_spec (Z.of_nat run + Z.of_nat 1) (u_max USIZE_BITS)); [|lia].
    destruct (Nat.eqb_spec (run + 1) count) as [E|E].
    + split_and!; [lia|lia| |intros s' Hs'; apply Hb; lia].
      intros j Hj. destruct (decide (j = k)) as [->|]; [done|]. apply Hfree. lia.
    + pose proof (IH (run + 1)%nat (S k)) as IH'. replace (S k + n)%nat with (k + S n)%nat in IH' by lia.
      apply IH'; [lia..| | |].
      * intros j Hj. destruct (decide (j = k)) as [->|]; [done|]. apply Hfree. lia.
      * replace (S k - (run + 1) - 1)%nat with (k - run - 1)%nat by lia. destruct Hprev; [left; lia|by right].
      * intros s Hs. destruct (decide (s + count ≤ k)%nat); [by apply Hb|].
        exists (k - run - 1)%nat. destruct Hprev; [lia|]. split; [lia|done].
  - pose proof (IH 0%nat (S k)) as IH'. replace (S k + n)%nat with (k + S n)%nat in IH' by lia.
    apply IH'; [lia..| | |].
    + intros j Hj. lia.
    + right. by replace (S k - 0 - 1)%nat with k by lia.
    + intros s Hs. destruct (decide (s + count ≤ k)%nat); [by apply Hb|]. exists k. split; [lia|done].
Qed.

Definition take_many (a : t) (ixs : list nat) (h : nat) : t :=
  with_taken a (foldl set_bit (taken a) ixs) (free a - length ixs) h.

Lemma inv_take_many a ixs h :
  inv a → NoDup ixs → Forall (λ i, is_free a i = true) ixs →
  inv (take_many a ixs h) ∧ free a = (free (take_many a ixs h) + length ixs)%nat ∧
  ∀ j, bit (taken (take_many a ixs h)) j = if decide (j ∈ ixs) then true else bit (taken a) j.
Proof.
  intros Ha Hn Hf. revert a Ha Hf. induction Hn as [|i ixs Hni _ IH]; intros a Ha Hf.
  { assert (take_many a [] h = with_taken a (taken a) (free a) h) as ->
      by (unfold take_many; simpl; by rewrite Nat.sub_0_r).
    split_and!; [by destruct Ha|simpl; lia|]. intros j. by rewrite decide_False by (by intros ?%elem_of_nil). }
  apply Forall_cons in Hf as [Hi Hf]. destruct (inv_take a i h Ha Hi) as [Ha' Hfr].
  assert (take_many a (i :: ixs) h = take_many (take a i h) ixs h) as ->.
  { unfold take_many, take, with_taken. simpl. f_equal. lia. }
  destruct (IH (take a i h) Ha') as (H1 & H2 & H3).
  { rewrite Forall_forall in Hf |- *. intros j Hj. rewrite is_free_take, decide_False; [by apply Hf|by intros ->|done..]. }
  split_and!; [done|simpl length; lia|]. intros j. rewrite H3.
  pose proof (in_arrays a i Ha (is_free_span _ _ Ha Hi)) as [_ Hl]. simpl. rewrite bit_set_bit by done.
  apply decide_elem_cons.
Qed.

Lemma inv_give_many ixs a :
  inv a → NoDup ixs → Forall (λ i, check_freeable a i = Ok tt) ixs →
  let a' := foldl release a ixs in
  inv a' ∧ free a' = (free a + length ixs)%nat ∧ pool a' = pool a ∧ base a' = base a ∧ span a' = span a ∧
  ∀ j, bit (taken a') j = if decide (j ∈ ixs) then false else bit (taken a) j.
Proof.
  intros Ha Hn Hf. revert a Ha Hf. induction Hn as [|i ixs Hni _ IH]; intros a Ha Hf.
  { simpl. split_and!; done || lia. }
  apply Forall_cons in Hf as [Hi Hf]. destruct (inv_give a i Ha Hi) as [Ha' Hfr].
  destruct (freeable_span a i Ha Hi) as (His & Hp & Ht). pose proof (in_arrays a i Ha His) as [_ Hl].
  assert (∀ j, bit (taken (release a i)) j = if decide (j = i) then false else bit (taken a) j) as Hb
    by (intros j; by apply bit_clear_bit).
  destruct (IH (release a i) Ha') as (H1 & H2 & H3 & H4 & H5 & H6).
  { rewrite Forall_forall in Hf |- *. intros j Hj. pose proof (Hf j Hj) as Hj'. unfold check_freeable in *.
    rewrite Hb, decide_False by (by intros ->). done. }
  cbn [foldl]. split_and!; [done|simpl length; lia|done..|]. intros j. rewrite H6, Hb.
  apply decide_elem_cons.
Qed.

Lemma check_all_Ok a ixs : check_all a ixs = Ok tt ↔ Forall (λ i, check_freeable a i = Ok tt) ixs.
Proof.
  induction ixs as [|i ixs IH]; simpl; [split; [constructor|done]|]. rewrite Forall_cons.
  destruct (check_freeable a i) as [[]|e]; [rewrite IH; tauto|split; [done|]]. by intros [? _].
Qed.

Lemma check_all_Err a ixs e : check_all a ixs = Err e → ∃ i, i ∈ ixs ∧ check_freeable a i = Err e.
Proof.
  induction ixs as [|i ixs IH]; simpl; [done|]. destruct (check_freeable a i) as [[]|e'] eqn:E.
  - intros (j & Hj & Hc)%IH. exists j. split; [by right|done].
  - intros [= ->]. exists i. split; [by left|done].
Qed.

(** ** By frame number

    Whether the frame with number [n] exists and is free, or exists and is allocated. *)
Definition available (a : t) (n : Z) : bool :=
  match Frame.from_number n with Ok f => manages a f && negb (is_allocated a f) | Err _ => false end.
Definition allocated (a : t) (n : Z) : bool :=
  match Frame.from_number n with Ok f => is_allocated a f | Err _ => false end.

Lemma by_number a n :
  inv a → 0 ≤ n →
  if decide (base a ≤ n < base a + Z.of_nat (span a))
  then available a n = is_free a (Z.to_nat (n - base a)) ∧
       allocated a n = bit (pool a) (Z.to_nat (n - base a)) && bit (taken a) (Z.to_nat (n - base a))
  else available a n = false ∧ allocated a n = false.
Proof.
  intros Ha Hn. unfold available, allocated, manages, is_allocated, is_free. case_decide as Hin.
  - destruct (frame_at_Ok a (Z.to_nat (n - base a)) Ha) as (f & _ & Hw & Hnum & Hi); [lia|].
    assert (Frame.from_number n = Ok f) as -> by (rewrite <-(Frame.from_number_number f Hw); f_equal; lia).
    rewrite Hi.
    by destruct (bit (pool a) _), (bit (taken a) _).
  - destruct (Frame.from_number n) as [f|] eqn:E; [|done]. apply Frame.wf_from_number in E as [Hw Hnum]; [|done].
    destruct (index_of a f) as [i|] eqn:Hi; [|done]. apply index_of_Ok in Hi as [? ?]; [lia|done..].
Qed.

Lemma allocated_number a f : Frame.wf f → allocated a (Frame.number f) = is_allocated a f.
Proof. intros Hf. unfold allocated. by rewrite Frame.from_number_number. Qed.

(** A change of the taken bits of an interval of indices. *)
Lemma observe_range a a' s c v x :
  inv a → inv a' → pool a' = pool a → base a' = base a → span a' = span a → (s + c ≤ span a)%nat →
  (∀ i, (s ≤ i < s + c)%nat → bit (pool a) i = true) →
  (∀ j, bit (taken a') j = if decide (j ∈ seq s c) then v else bit (taken a) j) →
  Frame.wf x →
  manages a' x = manages a x ∧
  is_allocated a' x = if decide (base a + Z.of_nat s ≤ Frame.number x < base a + Z.of_nat (s + c))
                      then v else is_allocated a x.
Proof.
  intros Ha Ha' Hp Hb Hs Hc Hpool Ht Hx. unfold manages, is_allocated. rewrite (index_of_ext a a' x), Hp by done.
  split; [done|]. destruct (index_of a x) as [j|e] eqn:Hj.
  - apply index_of_Ok in Hj as [Hjs Hn]; [|done..]. rewrite Ht, Hn.
    destruct (decide (j ∈ seq s c)) as [Hin|Hin]; rewrite elem_of_seq in Hin; case_decide; try lia; [|done].
    by rewrite Hpool by lia.
  - apply index_of_Err in Hj as [_ Hn]; [|done..]. by rewrite decide_False by lia.
Qed.

Lemma blocked_number a count s :
  inv a → blocked a count s →
  ∃ m, base a + Z.of_nat s ≤ m < base a + Z.of_nat (s + count) ∧ available a m = false.
Proof.
  intros Ha (j & Hj & Hf). exists (base a + Z.of_nat j). split; [lia|].
  pose proof (inv_base a Ha). pose proof (by_number a (base a + Z.of_nat j) Ha) as Hby.
  case_decide; [|apply Hby; lia]. rewrite (proj1 (Hby ltac:(lia))).
  by replace (Z.to_nat (base a + Z.of_nat j - base a)) with j by lia.
Qed.

(** A run that is not wholly inside the span is not wholly free. *)
Lemma outside_number a count n :
  inv a → 0 ≤ n → (0 < count)%nat → ¬ (base a ≤ n ∧ n + Z.of_nat count ≤ base a + Z.of_nat (span a)) →
  ∃ m, n ≤ m < n + Z.of_nat count ∧ available a m = false ∧ allocated a m = false.
Proof.
  intros Ha Hn Hc Hout. exists (if decide (n < base a) then n else n + Z.of_nat count - 1).
  case_decide as Hlt; (split; [lia|]).
  - pose proof (by_number a n Ha Hn) as Hby. by rewrite decide_False in Hby by lia.
  - pose proof (by_number a (n + Z.of_nat count - 1) Ha) as Hby. rewrite decide_False in Hby by lia. apply Hby. lia.
Qed.

Lemma alloc_contiguous_spec a count :
  inv a →
  match alloc_contiguous a count with
  | (a', Ok r) => inv a' ∧ FrameRange.new (FrameRange.start r) count = Ok r ∧ Frame.wf (FrameRange.start r) ∧
      let n := Frame.number (FrameRange.start r) in
      (∀ m, n ≤ m < n + Z.of_nat count → available a m = true) ∧
      (∀ n', 0 ≤ n' < n → ∃ m, n' ≤ m < n' + Z.of_nat count ∧ available a m = false) ∧
      free a = (free a' + count)%nat ∧
      ∀ x, Frame.wf x → manages a' x = manages a x ∧
        is_allocated a' x = if decide (n ≤ Frame.number x < n + Z.of_nat count) then true else is_allocated a x
  | (a', Err e) => a' = a ∧
      ((count = 0%nat ∧ e = EmptyRequest) ∨ (count ≠ 0%nat ∧ (free a < count)%nat ∧ e = Exhausted) ∨
       (count ≠ 0%nat ∧ (count ≤ free a)%nat ∧ e = Fragmented ∧
        ∀ n, 0 ≤ n → ∃ m, n ≤ m < n + Z.of_nat count ∧ available a m = false))
  end.
Proof.
  intros Ha. unfold alloc_contiguous. destruct (Nat.eqb_spec count 0) as [->|Hc]; [split; [done|]; by left|].
  destruct (Nat.ltb_spec (free a) count); [split; [done|]; right; by left|].
  pose proof (inv_base a Ha) as Hb0. pose proof (inv_span a Ha) as Hspan.
  pose proof (find_run_spec a count (span a) 0 0) as Hr. rewrite Nat.add_0_l in Hr.
  assert (∀ n, 0 ≤ n → (∀ s, n = base a + Z.of_nat s → (s + count ≤ span a)%nat → blocked a count s) →
    ∃ m, n ≤ m < n + Z.of_nat count ∧ available a m = false) as Hblk.
  { intros n Hn Hs. destruct (decide (base a ≤ n ∧ n + Z.of_nat count ≤ base a + Z.of_nat (span a))).
    - destruct (blocked_number a count (Z.to_nat (n - base a)) Ha) as (m & Hm & Hav); [apply Hs; lia|].
      exists m. split; [lia|done].
    - destruct (outside_number a count n Ha Hn) as (m & Hm & Hav & _); [lia|done|]. eauto. }
  destruct (find_run a count 0 (seq 0 (span a))) as [[s e]|].
  - destruct Hr as (He & Hlt & Hfree & Hmin); [lia..|intros; lia|by left|intros; lia|].
    replace (e + 1 - s)%nat with count by lia.
    assert (with_taken a (foldl set_bit (taken a) (seq s count)) (free a - count) (e / 8) = take_many a (seq s count) (e / 8))
      as -> by (unfold take_many; by rewrite length_seq).
    destruct (inv_take_many a (seq s count) (e / 8) Ha) as (Ha' & Hfr & Ht).
    { apply NoDup_seq. } { apply Forall_forall. intros i Hi%elem_of_seq. apply Hfree. lia. }
    destruct (frame_at_Ok _ s Ha') as (f & -> & Hf & Hn & _); [simpl; lia|]. simpl in Hn. rewrite length_seq in Hfr.
    assert (FrameRange.new f count = Ok {| FrameRange.start := f; FrameRange.count := count |}) as Hnew.
    { pose proof (base_span_u64 a Ha). unfold FrameRange.new. destruct (Nat.eqb_spec count 0); [done|].
      unfold checked_add, widen. destruct (Z.leb_spec (Frame.number f + Z.of_nat count) (u_max 64)); [done|lia]. }
    rewrite Hnew. split_and!; try done; simpl FrameRange.start; rewrite Hn.
    + intros m Hm. pose proof (by_number a m Ha ltac:(lia)) as Hby. rewrite decide_True in Hby by lia.
      rewrite (proj1 Hby). apply Hfree. lia.
    + intros n' Hn'. apply Hblk; [lia|]. intros s' -> _. apply Hmin. lia.
    + intros x Hx. rewrite <-Z.add_assoc, <-Nat2Z.inj_add. apply observe_range; try done; [lia|].
      intros i Hi. assert (is_free a i = true) as Hfi by (apply Hfree; lia). unfold is_free in Hfi.
      by apply andb_true_iff in Hfi as [-> _].
  - split; [done|]. right. right. split_and!; try done. intros n Hn. apply Hblk; [done|].
    intros s _ Hs. apply Hr; [lia..|intros; lia|by left|intros; lia|done].
Qed.

Lemma free_contiguous_spec a f count r :
  inv a → Frame.wf f → FrameRange.new f count = Ok r →
  match free_contiguous a r with
  | (a', Ok _) => inv a' ∧ free a' = (free a + count)%nat ∧
      (∀ m, Frame.number f ≤ m < Frame.number f + Z.of_nat count → allocated a m = true) ∧
      ∀ x, Frame.wf x → manages a' x = manages a x ∧
        is_allocated a' x = if decide (Frame.number f ≤ Frame.number x < Frame.number f + Z.of_nat count)
                            then false else is_allocated a x
  | (a', Err e) => a' = a ∧
      ∃ m, Frame.number f ≤ m < Frame.number f + Z.of_nat count ∧ allocated a m = false
  end.
Proof.
  intros Ha Hf Hnew. apply MmFrameSpec.range_new in Hnew as (-> & Hc & Hle). unfold free_contiguous. simpl.
  pose proof (inv_span a Ha) as Hspan. pose proof (inv_base a Ha) as Hb. destruct (Frame.wf_number f Hf) as [_ Hn0].
  assert (¬ (base a ≤ Frame.number f ∧ Frame.number f + Z.of_nat count ≤ base a + Z.of_nat (span a)) →
    ∃ m, Frame.number f ≤ m < Frame.number f + Z.of_nat count ∧ allocated a m = false) as Hout.
  { intros Ho. destruct (outside_number a count (Frame.number f) Ha Hn0) as (m & Hm & _ & Hal); [lia|done|]. eauto. }
  destruct (index_of a f) as [s|e] eqn:Hi.
  2:{ apply index_of_Err in Hi as [_ Hi]; [|done..]. split; [done|]. apply Hout. lia. }
  apply index_of_Ok in Hi as [Hs Hn]; [|done..]. unfold uadd.
  destruct (Z.leb_spec (Z.of_nat s + Z.of_nat count) (u_max USIZE_BITS)); [|split; [done|apply Hout; lia]].
  cbn beta iota. destruct (Nat.ltb_spec (span a) (s + count)); [split; [done|apply Hout; lia]|].
  replace (s + count - s)%nat with count by lia.
  assert (∀ i, i ∈ seq s count → allocated a (base a + Z.of_nat i) = bit (pool a) i && bit (taken a) i) as Hal.
  { intros i Hi%elem_of_seq. pose proof (by_number a (base a + Z.of_nat i) Ha) as Hby. rewrite decide_True in Hby by lia.
    replace (Z.to_nat (base a + Z.of_nat i - base a)) with i in Hby by lia. apply Hby. lia. }
  destruct (check_all a (seq s count)) as [[]|e] eqn:Hck.
  - apply check_all_Ok in Hck. pose proof (proj1 (Forall_forall _ _) Hck) as Hck'. simpl in Hck'.
    destruct (inv_give_many _ a Ha (NoDup_seq s count) Hck) as (Ha' & Hfr & Hp & Hb' & Hs' & Ht).
    rewrite length_seq in Hfr. split_and!; [done..| |].
    + intros m Hm. replace m with (base a + Z.of_nat (Z.to_nat (m - base a))) by lia.
      assert (Z.to_nat (m - base a) ∈ seq s count) as Hin by (apply elem_of_seq; lia).
      rewrite Hal by done. destruct (freeable_span a _ Ha (Hck' _ Hin)) as (_ & -> & ->). done.
    + intros x Hx. rewrite Hn, <-Z.add_assoc, <-Nat2Z.inj_add. apply observe_range; try done.
      intros i Hi. destruct (freeable_span a i Ha) as (_ & -> & _); [|done]. apply Hck', elem_of_seq. lia.
  - split; [done|]. apply check_all_Err in Hck as (i & Hin & Hck). exists (base a + Z.of_nat i).
    rewrite Hal by done. apply elem_of_seq in Hin. split; [lia|]. unfold check_freeable in Hck.
    by destruct (bit (pool a) i), (bit (taken a) i).
Qed.

(** ** The memory map, by bytes *)

Lemma align_up_spec x :
  in_u 64 x →
  if decide (x + Frame.bytes - 1 ≤ u_max 64)
  then ∃ y, align_up x = Ok y ∧ ∀ n, Frame.index_of y ≤ n ↔ x ≤ n * Frame.bytes
  else align_up x = Err Overflow.
Proof.
  intros Hx. pose proof Frame.bytes_pos as Hb. unfold align_up, PhysAddr.align_up.
  destruct (checked_add 64 x (Frame.bytes - 1)) as [v|] eqn:E.
  - apply checked_add_Some in E as [-> Hle]. rewrite decide_True by lia. eexists. split; [reflexivity|].
    change (Z.land ?v (u_not 64 (Frame.bytes - 1))) with (PhysAddr.align_down v Frame.bytes).
    destruct Hx as [Hx0 _]. rewrite Frame.align_down_bytes by (split; lia). unfold Frame.index_of.
    rewrite Z.div_mul by lia. intros n.
    pose proof (Z.div_mod (x + (Frame.bytes - 1)) Frame.bytes). pose proof (Z.mod_pos_bound (x + (Frame.bytes - 1)) Frame.bytes).
    split; intros; nia.
  - apply checked_add_None in E. by rewrite decide_False by lia.
Qed.

Lemma index_of_lt e n : 0 ≤ e → (n < Frame.index_of e ↔ (n + 1) * Frame.bytes ≤ e).
Proof.
  intros He. pose proof Frame.bytes_pos. unfold Frame.index_of.
  pose proof (Z.div_mod e Frame.bytes). pose proof (Z.mod_pos_bound e Frame.bytes). split; intros; nia.
Qed.

(** The frames a region wholly contains, and the frames it touches. *)
Definition inside (r : MemoryRegion.t) (n : Z) : Prop :=
  MemoryRegion.start r ≤ n * Frame.bytes ∧ (n + 1) * Frame.bytes ≤ MemoryRegion.start r + MemoryRegion.len r.
Definition touches (start len n : Z) : Prop :=
  len ≠ 0 ∧ n * Frame.bytes < start + len ∧ start < (n + 1) * Frame.bytes.
Definition covers (o : option (Z * Z)) (n : Z) : Prop :=
  match o with Some (lo, hi) => lo ≤ n < hi | None => False end.
Definition bounded (o : option (Z * Z)) : Prop :=
  match o with Some (lo, hi) => 0 ≤ lo < hi | None => True end.

(** End and rounded start both representable. *)
Definition region_fits (r : MemoryRegion.t) : Prop :=
  MemoryRegion.start r + MemoryRegion.len r ≤ u_max 64 ∧ MemoryRegion.start r + Frame.bytes - 1 ≤ u_max 64.
Definition reserve_fits (start len : Z) : Prop := len = 0 ∨ start + len + Frame.bytes - 1 ≤ u_max 64.

Lemma inner_frames_spec r :
  MemoryRegion.wf r →
  match inner_frames r with
  | Ok o => region_fits r ∧ bounded o ∧ (∀ n, covers o n ↔ inside r n) ∧
      match o with Some (_, hi) => hi * Frame.bytes ≤ u_max 64 | None => True end
  | Err e => e = Overflow ∧ ¬ region_fits r
  end.
Proof.
  intros [Hs [Hl0 _]]. pose proof Frame.bytes_pos as Hb. unfold inner_frames, region_fits, inside.
  destruct (checked_add 64 (MemoryRegion.start r) (MemoryRegion.len r)) as [e|] eqn:E.
  2:{ apply checked_add_None in E. simpl. split; [done|lia]. }
  apply checked_add_Some in E as [-> Hle]. simpl. pose proof (align_up_spec _ Hs) as Hup. case_decide.
  2:{ rewrite Hup. split; [done|lia]. }
  destruct Hup as (y & -> & Hy). set (e := MemoryRegion.start r + MemoryRegion.len r) in *.
  assert (0 ≤ e) as He by (destruct Hs; unfold e; lia). pose proof (λ n, index_of_lt e n He) as Hlt.
  assert (0 ≤ Frame.index_of y) as Hy0.
  { destruct (Z.leb_spec 0 (Frame.index_of y)) as [|Hneg]; [done|].
    assert (MemoryRegion.start r ≤ -1 * Frame.bytes) by (apply Hy; lia). destruct Hs. lia. }
  destruct (Z.ltb_spec (Frame.index_of y) (Frame.index_of e)) as [Hf|Hf]; (split_and!; [done|done|..]); simpl; try done.
  - intros n. rewrite Hy, Hlt. done.
  - assert (Frame.index_of e - 1 < Frame.index_of e) as Hlast by lia. apply Hlt in Hlast.
    replace (Frame.index_of e - 1 + 1) with (Frame.index_of e) in Hlast by lia. lia.
  - intros n. split; [done|]. intros [H1 H2]. apply Hy in H1. apply Hlt in H2. lia.
Qed.

Lemma outer_frames_raw_spec start len :
  in_u 64 start → in_u 64 len →
  match outer_frames_raw start len with
  | Ok o => reserve_fits start len ∧ bounded o ∧ ∀ n, covers o n ↔ touches start len n
  | Err e => e = Overflow ∧ ¬ reserve_fits start len
  end.
Proof.
  intros Hs Hl. pose proof Frame.bytes_pos as Hb. unfold outer_frames_raw, reserve_fits, touches.
  destruct (Z.eqb_spec len 0) as [E0|E0]; [split_and!; [by left|done|]; simpl; intros n; tauto|].
  destruct (checked_add 64 start len) as [e|] eqn:E.
  2:{ apply checked_add_None in E. simpl. split; [done|lia]. }
  apply checked_add_Some in E as [-> Hle]. simpl.
  assert (in_u 64 (start + len)) as He by (destruct Hs, Hl; split; lia).
  pose proof (align_up_spec _ He) as Hup. case_decide.
  2:{ rewrite Hup. split; [done|lia]. }
  destruct Hup as (y & -> & Hy). destruct Hs as [Hs0 _]. pose proof (λ n, index_of_lt start n Hs0) as Hlt.
  assert (0 ≤ Frame.index_of start) as H0 by (apply Z.div_pos; lia).
  assert (∀ n, n < Frame.index_of y ↔ n * Frame.bytes < start + len) as Hy' by (intros n; specialize (Hy n); lia).
  assert (∀ n, Frame.index_of start ≤ n ↔ start < (n + 1) * Frame.bytes) as Hlt' by (intros n; specialize (Hlt n); lia).
  destruct (Z.ltb_spec (Frame.index_of start) (Frame.index_of y)) as [Hf|Hf]; (split_and!; [by right|done|]); simpl.
  - intros n. rewrite Hlt', Hy'. tauto.
  - intros n. split; [done|]. intros (_ & H1 & H2). apply Hy' in H1. apply Hlt' in H2. lia.
Qed.

Lemma clamp_spec o lo hi b (sp : nat) :
  o = Some (lo, hi) → bounded o → 0 ≤ b → b + Z.of_nat sp ≤ u_max 64 → Z.of_nat sp ≤ u_max USIZE_BITS →
  ∃ ixs, clamp lo hi b (b + Z.of_nat sp) = Ok ixs ∧ NoDup ixs ∧
    ∀ i, i ∈ ixs ↔ (i < sp)%nat ∧ covers o (b + Z.of_nat i).
Proof.
  intros -> Hbo Hb Hu Hus. simpl in *. unfold clamp. destruct (Z.leb_spec (Z.min hi (b + Z.of_nat sp)) (Z.max lo b)).
  { eexists. split_and!; [done|constructor|]. intros i. split; [by intros ?%elem_of_nil|lia]. }
  unfold wrapping_sub. rewrite !Z.mod_small by (unfold u_max in *; lia). unfold narrow.
  destruct (Z.leb_spec (Z.max lo b - b) (u_max USIZE_BITS)); [|lia].
  destruct (Z.leb_spec (Z.min hi (b + Z.of_nat sp) - b) (u_max USIZE_BITS)); [|lia].
  eexists. split_and!; [done|apply NoDup_seq|]. intros i. rewrite elem_of_seq. lia.
Qed.

(** [op] writes the value [v] at one index and nothing else. *)
Definition writes (op : list Z → nat → list Z) (v : bool) : Prop :=
  (∀ m i j, (i / 8 < length m)%nat → bit (op m i) j = if decide (j = i) then v else bit m j) ∧
  (∀ n m i, bytes_wf n m → bytes_wf n (op m i)).

Lemma foldl_writes op v n m ixs :
  writes op v → bytes_wf n m → (∀ i, i ∈ ixs → (i / 8 < n)%nat) →
  bytes_wf n (foldl op m ixs) ∧ ∀ j, bit (foldl op m ixs) j = if decide (j ∈ ixs) then v else bit m j.
Proof.
  intros [Hop Hwf]. revert m. induction ixs as [|i ixs IH]; intros m Hm Hi.
  { split; [done|]. intros j. by rewrite decide_False by (by intros ?%elem_of_nil). }
  destruct (IH (op m i)) as [H1 H2]; [by apply Hwf|intros k Hk; apply Hi; by right|].
  split; [done|]. intros j. cbn [foldl]. rewrite H2, Hop by (rewrite (proj1 Hm); apply Hi; by left).
  apply decide_elem_cons.
Qed.

Lemma writes_set_bit : writes set_bit true.
Proof. split; [apply bit_set_bit|apply bytes_wf_set_bit]. Qed.

Lemma writes_clear_bit : writes clear_bit false.
Proof. split; [apply bit_clear_bit|apply bytes_wf_clear_bit]. Qed.

(** Index [j] of the span is in a frame range of a region the pass looks at. *)
Definition hit (sel : MemoryRegion.t → bool) (frames_of : MemoryRegion.t → result (option (Z * Z)) AllocError)
    (b : Z) (sp : nat) (map : list MemoryRegion.t) (j : nat) : Prop :=
  (j < sp)%nat ∧ ∃ r o, r ∈ map ∧ sel r = true ∧ frames_of r = Ok o ∧ covers o (b + Z.of_nat j).

Lemma mark_spec sel frames_of op v b (sp : nat) map m :
  writes op v → 0 ≤ b → b + Z.of_nat sp ≤ u_max 64 → Z.of_nat sp ≤ u_max USIZE_BITS →
  bytes_wf (store_bytes sp) m →
  (∀ r o, r ∈ map → frames_of r = Ok o → bounded o) →
  match mark sel frames_of op b (b + Z.of_nat sp) m map with
  | Ok m' => bytes_wf (store_bytes sp) m' ∧ (∀ r, r ∈ map → sel r = true → ∃ o, frames_of r = Ok o) ∧
      (∀ j, (hit sel frames_of b sp map j ∧ bit m' j = v) ∨ (¬ hit sel frames_of b sp map j ∧ bit m' j = bit m j))
  | Err e => ∃ r, r ∈ map ∧ sel r = true ∧ frames_of r = Err e
  end.
Proof.
  intros Hop Hb Hu Hus. revert m. induction map as [|r map IH]; intros m Hm Hbd; cbn [mark].
  { split; [done|]. split; [by intros r ?%elem_of_nil|]. intros j. right. split; [|done]. intros (_ & r & o & Hr & _). by apply elem_of_nil in Hr. }
  assert (∀ r o, r ∈ map → frames_of r = Ok o → bounded o) as Hbd' by (intros r' o Hr'; apply Hbd; by right).
  assert (∀ j, hit sel frames_of b sp map j → hit sel frames_of b sp (r :: map) j) as Hmono.
  { intros j (Hj & r' & o & Hr' & ?). split; [done|]. exists r', o. split; [by right|done]. }
  (** A region that contributes nothing leaves the hits as they were. *)
  assert ((∀ o, sel r = true → frames_of r = Ok o → ∀ n, ¬ covers o n) → ∀ j,
    hit sel frames_of b sp (r :: map) j → hit sel frames_of b sp map j) as Hskip.
  { intros Hno j (Hj & r' & o & [->|Hr']%elem_of_cons & Hs & Hfo & Hc); [by destruct (Hno o Hs Hfo (b + Z.of_nat j))|].
    split; [done|]. by exists r', o. }
  assert ((sel r = true → ∃ o, frames_of r = Ok o) → (∀ o, sel r = true → frames_of r = Ok o → ∀ n, ¬ covers o n) →
    match mark sel frames_of op b (b + Z.of_nat sp) m map with
    | Ok m' => bytes_wf (store_bytes sp) m' ∧ (∀ r', r' ∈ r :: map → sel r' = true → ∃ o, frames_of r' = Ok o) ∧
        (∀ j, (hit sel frames_of b sp (r :: map) j ∧ bit m' j = v) ∨
        (¬ hit sel frames_of b sp (r :: map) j ∧ bit m' j = bit m j))
    | Err e => ∃ r', r' ∈ r :: map ∧ sel r' = true ∧ frames_of r' = Err e
    end) as Hnone.
  { intros Hok Hno. specialize (IH m Hm Hbd'). destruct (mark _ _ _ _ _ m map) as [m'|e].
    - destruct IH as (Hw & Hall & IH). split; [done|]. split; [by intros r' [->|?]%elem_of_cons; auto|].
      intros j. destruct (IH j) as [[? ?]|[? ?]]; [left|right]; eauto.
    - destruct IH as (r' & ? & ?). exists r'. split; [by right|done]. }
  destruct (sel r) eqn:Hsel; [|by apply Hnone].
  destruct (frames_of r) as [[[lo hi]|]|e] eqn:Hfo.
  - destruct (clamp_spec (Some (lo, hi)) lo hi b sp) as (ixs & -> & Hnd & Hin); [done|eapply Hbd; [by left|done]|done..|].
    destruct (foldl_writes op v _ m ixs Hop Hm) as [Hm1 Hbit]; [intros i [Hi _]%Hin; by apply store_bytes_index|].
    specialize (IH (foldl op m ixs) Hm1 Hbd'). destruct (mark _ _ _ _ _ (foldl op m ixs) map) as [m'|e].
    + destruct IH as (Hw & Hall & IH). split; [done|].
      split; [intros r' [->|?]%elem_of_cons; [by exists (Some (lo, hi))|auto]|]. intros j. destruct (IH j) as [[Hh Hv]|[Hh Hv]]; [left; eauto|].
      rewrite Hv, Hbit. destruct (decide (j ∈ ixs)) as [Hji|Hji].
      * left. split; [|done]. apply Hin in Hji as [Hj Hc]. split; [done|]. exists r, (Some (lo, hi)).
        split_and!; try done. by left.
      * right. split; [|done]. intros (Hj & r' & o & [->|Hr']%elem_of_cons & Hs & Hfr & Hc).
        -- apply Hji, Hin. rewrite Hfo in Hfr. by simplify_eq.
        -- apply Hh. split; [done|]. by exists r', o.
    + destruct IH as (r' & ? & ?). exists r'. split; [by right|done].
  - apply Hnone; [by eexists|]. intros o _ Ho n. simplify_eq. by intros [].
  - exists r. split; [by left|done].
Qed.

(** ** The span *)

(** The number of frames a [usize] must index. *)
Definition usable_fit (map : list MemoryRegion.t) : Prop :=
  ∀ r, r ∈ map → is_usable r = true → region_fits r.

(** Some usable region holds frame [n] whole. *)
Definition in_usable (map : list MemoryRegion.t) (n : Z) : Prop :=
  ∃ r, r ∈ map ∧ is_usable r = true ∧ inside r n.
(** No other region touches it. *)
Definition untouched (map : list MemoryRegion.t) (n : Z) : Prop :=
  ∀ r, r ∈ map → is_usable r = false → ¬ touches (MemoryRegion.start r) (MemoryRegion.len r) n.

Lemma span_loop_spec map lo hi found :
  Forall MemoryRegion.wf map → 0 ≤ lo → hi * Frame.bytes ≤ u_max 64 →
  match span_loop lo hi found map with
  | Ok (lo', hi', found') => usable_fit map ∧ 0 ≤ lo' ≤ lo ∧ hi ≤ hi' ∧ hi' * Frame.bytes ≤ u_max 64 ∧
      (∀ r n, r ∈ map → is_usable r = true → inside r n → lo' ≤ n < hi') ∧
      (lo' = lo ∨ in_usable map lo') ∧ (hi' = hi ∨ in_usable map (hi' - 1)) ∧
      (found' = true ↔ found = true ∨ ∃ n, in_usable map n)
  | Err e => e = Overflow ∧ ¬ usable_fit map
  end.
Proof.
  intros Hw. revert lo hi found. induction Hw as [|r map Hr _ IH]; intros lo hi found Hlo Hhi; cbn [span_loop].
  { split_and!; try done; try (by left); [by intros r ?%elem_of_nil|by intros r n ?%elem_of_nil|].
    split; [by left|]. intros [?|(n & r & Hr & _)]; [done|by apply elem_of_nil in Hr]. }
  assert (∀ n, in_usable map n → in_usable (r :: map) n) as Hmono
    by (intros n (r' & ? & ?); exists r'; split; [by right|done]).
  assert (¬ usable_fit map → ¬ usable_fit (r :: map)) as Hnf
    by (intros Hn Hall; apply Hn; intros r' Hr'; apply Hall; by right).
  (** A region that holds no frame leaves the rest of the loop as it was. *)
  assert ((is_usable r = true → region_fits r ∧ ∀ n, ¬ inside r n) →
    match span_loop lo hi found map with
    | Ok (lo', hi', found') => usable_fit (r :: map) ∧ 0 ≤ lo' ≤ lo ∧ hi ≤ hi' ∧ hi' * Frame.bytes ≤ u_max 64 ∧
        (∀ r' n, r' ∈ r :: map → is_usable r' = true → inside r' n → lo' ≤ n < hi') ∧
        (lo' = lo ∨ in_usable (r :: map) lo') ∧ (hi' = hi ∨ in_usable (r :: map) (hi' - 1)) ∧
        (found' = true ↔ found = true ∨ ∃ n, in_usable (r :: map) n)
    | Err e => e = Overflow ∧ ¬ usable_fit (r :: map)
    end) as Hskip.
  { intros Hno. specialize (IH lo hi found Hlo Hhi). destruct (span_loop lo hi found map) as [[[lo' hi'] found']|e].
    2:{ destruct IH as [? ?]. eauto. }
    destruct IH as (Hf & H1 & H2 & H3 & H4 & Hal & Hah & H5).
    refine (conj _ (conj H1 (conj H2 (conj H3 (conj _ (conj _ (conj _ _))))))).
    - intros r' [->|Hr']%elem_of_cons Hu; [by apply Hno|by apply Hf].
    - intros r' n [->|Hr']%elem_of_cons Hu Hin; [by apply Hno in Hin|by eapply H4].
    - destruct Hal; [by left|right; eauto].
    - destruct Hah; [by left|right; eauto].
    - rewrite H5. split; (intros [?|(n & Hn)]; [by left|right]); exists n; [by apply Hmono|].
      destruct Hn as (r' & [->|Hr']%elem_of_cons & Hu & Hin); [by apply Hno in Hin|by exists r']. }
  destruct (is_usable r) eqn:Hu; [|by apply Hskip]. pose proof (inner_frames_spec r Hr) as Hi.
  destruct (inner_frames r) as [[[first end_]|]|e].
  - destruct Hi as (Hfit & Hbd & Hcov & Hend). simpl in Hbd, Hcov.
    specialize (IH (Z.min lo first) (Z.max hi end_) true). 
    assert (Z.max hi end_ * Frame.bytes ≤ u_max 64) as Hmax by (destruct (Z.max_spec hi end_) as [[_ ->]|[_ ->]]; done).
    specialize (IH ltac:(lia) Hmax). destruct (span_loop _ _ true map) as [[[lo' hi'] found']|e].
    2:{ destruct IH as [? ?]. eauto. }
    destruct IH as (Hf & H1 & H2 & H3 & H4 & Hal & Hah & H5).
    assert (0 ≤ lo' ≤ lo ∧ hi ≤ hi') as [Hl Hh] by lia.
    assert (∀ n, first ≤ n < end_ → in_usable (r :: map) n) as Hhere.
    { intros n Hn%Hcov. exists r. split_and!; [by left|done..]. }
    refine (conj _ (conj Hl (conj Hh (conj H3 (conj _ (conj _ (conj _ _))))))).
    + intros r' [->|Hr']%elem_of_cons Hu'; [done|by apply Hf].
    + intros r' n [->|Hr']%elem_of_cons Hu' Hin; [|by eapply H4]. apply Hcov in Hin. lia.
    + destruct Hal as [->|?]; [|right; eauto]. destruct (Z.min_spec lo first) as [[_ ->]|[_ ->]]; [by left|].
      right. apply Hhere. lia.
    + destruct Hah as [->|?]; [|right; eauto]. destruct (Z.max_spec hi end_) as [[_ ->]|[_ ->]]; [|by left].
      right. apply Hhere. lia.
    + rewrite H5. split; [|by left]. intros _. right. exists first. apply Hhere. lia.
  - destruct Hi as (Hfit & _ & Hcov & _). apply Hskip. intros _. split; [done|]. intros n Hin. by apply Hcov in Hin.
  - destruct Hi as [-> Hnfit]. split; [done|]. intros Hall. apply Hnfit, Hall; [by left|done].
Qed.

Lemma span_of_spec map :
  Forall MemoryRegion.wf map →
  match span_of map with
  | Ok (lo, sp) => 0 ≤ lo ∧ (0 < sp)%nat ∧ (lo + Z.of_nat sp) * Frame.bytes ≤ u_max 64 ∧
      Z.of_nat sp ≤ u_max USIZE_BITS ∧ usable_fit map ∧
      (∀ n, in_usable map n → lo ≤ n < lo + Z.of_nat sp) ∧
      in_usable map lo ∧ in_usable map (lo + Z.of_nat sp - 1)
  | Err e => (e = NoUsableMemory ∧ usable_fit map ∧ ∀ n, ¬ in_usable map n) ∨
      (e = Overflow ∧ (usable_fit map → ∃ n n', in_usable map n ∧ in_usable map n' ∧ u_max USIZE_BITS < n' + 1 - n))
  end.
Proof.
  intros Hw. pose proof Frame.bytes_pos as Hb. unfold span_of.
  pose proof (span_loop_spec map u64_MAX 0 false Hw) as Hs. destruct (span_loop u64_MAX 0 false map) as [[[lo hi] found]|e].
  2:{ destruct Hs as [-> Hn]; [done..|]. right. split; [done|]. intros Hf. by destruct Hn. }
  destruct Hs as (Hfit & Hlo & _ & Hhi & Hin & Hal & Hah & Hf); [done..|].
  destruct found; simpl.
  2:{ left. split_and!; [done..|]. intros n Hn. assert (false = true) by (apply Hf; right; by exists n). done. }
  assert (∃ n, in_usable map n) as [n Hn] by (destruct (proj1 Hf eq_refl); done).
  assert (∀ n, in_usable map n → lo ≤ n < hi) as Hin' by (intros m (r & ? & ? & ?); by apply (Hin r)).
  pose proof (Hin' n Hn) as Hnb. assert (hi ≤ u_max 64) by nia.
  assert (in_usable map lo) as Hlo' by (destruct Hal as [->|]; [lia|done]).
  assert (in_usable map (hi - 1)) as Hhi' by (destruct Hah; [lia|done]).
  unfold checked_sub. destruct (Z.leb_spec lo hi); [|lia]. simpl. unfold narrow.
  destruct (Z.leb_spec (hi - lo) (u_max USIZE_BITS)).
  - destruct (Nat.eqb_spec (Z.to_nat (hi - lo)) 0); [lia|].
    replace (lo + Z.of_nat (Z.to_nat (hi - lo))) with hi by lia. split_and!; try done; lia.
  - right. split; [done|]. intros _. exists lo, (hi - 1). split_and!; [done..|lia].
Qed.

Lemma popcount_from_spec m n :
  Z.of_nat n + Z.of_nat (sum_list (count_ones <$> m)) ≤ u_max USIZE_BITS →
  popcount_from n m = Ok (n + sum_list (count_ones <$> m))%nat.
Proof.
  revert n. induction m as [|b m IH]; intros n Hn; [simpl; f_equal; lia|]. csimpl in *.
  unfold narrow, uadd. destruct (Z.leb_spec (Z.of_nat (count_ones b)) (u_max USIZE_BITS)); [|lia].
  rewrite Nat2Z.id. destruct (Z.leb_spec (Z.of_nat n + Z.of_nat (count_ones b)) (u_max USIZE_BITS)); [|lia].
  simpl. rewrite IH by lia. f_equal. lia.
Qed.

Lemma count_bits m : sum_list (count_ones <$> m) = count_if (bit m) (seq 0 (8 * length m)).
Proof.
  induction m as [|b m IH]; [done|].
  change (sum_list (count_ones <$> b :: m)) with (count_ones b + sum_list (count_ones <$> m))%nat. rewrite IH.
  replace (8 * length (b :: m))%nat with (8 + 8 * length m)%nat by (simpl length; lia).
  rewrite (seq_app 8 (8 * length m) 0), count_if_app. apply (f_equal2 Nat.add).
  - unfold count_ones, bits_of. rewrite (length_filter_count (λ k, Z.testbit b (Z.of_nat k))).
    apply count_if_ext. intros k Hk%elem_of_seq. rewrite bit_testbit.
    rewrite Nat.div_small, Nat.mod_small by lia. done.
  - change (0 + 8)%nat with (8 + 0)%nat. rewrite <-(fmap_add_seq 8 0), count_if_fmap. apply count_if_ext. intros k _. unfold compose. rewrite !bit_testbit.
    pose proof (Nat.div_mod_eq k 8). pose proof (Nat.mod_upper_bound k 8).
    rewrite <-(Nat.div_unique (8 + k) 8 (S (k / 8)) (k mod 8)), <-(Nat.mod_unique (8 + k) 8 (S (k / 8)) (k mod 8)) by lia.
    done.
Qed.

Lemma popcount_spec (sp : nat) m :
  bytes_wf (store_bytes sp) m → (∀ i, (sp ≤ i)%nat → bit m i = false) → Z.of_nat sp ≤ u_max USIZE_BITS →
  popcount m = Ok (count_if (bit m) (seq 0 sp)).
Proof.
  intros [Hl _] Hend Hus. pose proof (store_bytes_ge sp) as Hge.
  assert (sum_list (count_ones <$> m) = count_if (bit m) (seq 0 sp)) as E.
  { rewrite count_bits, Hl. replace (8 * store_bytes sp)%nat with (sp + (8 * store_bytes sp - sp))%nat by lia.
    rewrite seq_app, count_if_app. rewrite (count_if_ext (bit m) (λ _, false) (seq (0 + sp) _)).
    - assert (∀ l : list nat, count_if (λ _, false) l = 0%nat) as -> by (intros l; by induction l). lia.
    - intros i Hi%elem_of_seq. apply Hend. lia. }
  unfold popcount. rewrite popcount_from_spec; rewrite E; [done|].
  pose proof (count_if_le (bit m) (seq 0 sp)) as Hle. rewrite length_seq in Hle. lia.
Qed.

(** ** Construction *)

(** The frames the map makes allocatable. *)
Definition allocatable (map : list MemoryRegion.t) (n : Z) : Prop := in_usable map n ∧ untouched map n.

(** Every address the map's regions round to fits 64 bits. *)
Definition map_fits (map : list MemoryRegion.t) : Prop :=
  usable_fit map ∧
  ∀ r, r ∈ map → is_usable r = false → reserve_fits (MemoryRegion.start r) (MemoryRegion.len r).

(** Two usable frames so far apart that a [usize] cannot count the frames between them, or
    the bytes of the two bit arrays over them. *)
Definition too_wide (map : list MemoryRegion.t) : Prop :=
  ∃ n n', in_usable map n ∧ in_usable map n' ∧
    (u_max USIZE_BITS < n' + 1 - n ∨ u_max USIZE_BITS < 2 * Z.of_nat (store_bytes (Z.to_nat (n' + 1 - n)))).

Lemma inner_pass map lo (sp : nat) m :
  Forall MemoryRegion.wf map → 0 ≤ lo → lo + Z.of_nat sp ≤ u_max 64 → Z.of_nat sp ≤ u_max USIZE_BITS →
  bytes_wf (store_bytes sp) m → (∀ j, bit m j = false) → usable_fit map →
  ∃ m', mark is_usable inner_frames set_bit lo (lo + Z.of_nat sp) m map = Ok m' ∧ bytes_wf (store_bytes sp) m' ∧
    ∀ j, bit m' j = true ↔ (j < sp)%nat ∧ in_usable map (lo + Z.of_nat j).
Proof.
  intros Hw Hlo Hu Hus Hm Hz Hfit. rewrite Forall_forall in Hw.
  pose proof (mark_spec is_usable inner_frames set_bit true lo sp map m writes_set_bit Hlo Hu Hus Hm) as Hmk.
  destruct (mark is_usable _ _ _ _ m map) as [m'|e].
  - destruct Hmk as (Hm' & _ & Hb).
    { intros r o Hr Ho. pose proof (inner_frames_spec r (Hw r Hr)) as Hi. rewrite Ho in Hi. apply Hi. }
    exists m'. split_and!; [done..|]. intros j.
    assert (hit is_usable inner_frames lo sp map j ↔ (j < sp)%nat ∧ in_usable map (lo + Z.of_nat j)) as <-.
    { split.
      - intros (Hj & r & o & Hr & Hs & Ho & Hc). split; [done|]. exists r. split_and!; try done.
        pose proof (inner_frames_spec r (Hw r Hr)) as Hi. rewrite Ho in Hi. by apply Hi.
      - intros (Hj & r & Hr & Hs & Hi). split; [done|]. pose proof (inner_frames_spec r (Hw r Hr)) as Hin.
        destruct (inner_frames r) as [o|e] eqn:Ho; [|by destruct Hin as [_ []]; apply Hfit].
        exists r, o. split_and!; try done. by apply Hin. }
    destruct (Hb j) as [[Hh Hv]|[Hh Hv]]; rewrite Hv, ?Hz; by split.
  - destruct Hmk as (r & Hr & Hs & He).
    { intros r o Hr Ho. pose proof (inner_frames_spec r (Hw r Hr)) as Hi. rewrite Ho in Hi. apply Hi. }
    pose proof (inner_frames_spec r (Hw r Hr)) as Hi. rewrite He in Hi. destruct Hi as [_ []]. by apply Hfit.
Qed.

Lemma outer_pass map lo (sp : nat) m :
  Forall MemoryRegion.wf map → 0 ≤ lo → lo + Z.of_nat sp ≤ u_max 64 → Z.of_nat sp ≤ u_max USIZE_BITS →
  bytes_wf (store_bytes sp) m → (∀ j, (sp ≤ j)%nat → bit m j = false) →
  match mark (λ r, negb (is_usable r)) outer_frames clear_bit lo (lo + Z.of_nat sp) m map with
  | Ok m' => bytes_wf (store_bytes sp) m' ∧
      (∀ r, r ∈ map → is_usable r = false → reserve_fits (MemoryRegion.start r) (MemoryRegion.len r)) ∧
      ∀ j, bit m' j = true ↔ bit m j = true ∧ untouched map (lo + Z.of_nat j)
  | Err e => e = Overflow ∧
      ∃ r, r ∈ map ∧ is_usable r = false ∧ ¬ reserve_fits (MemoryRegion.start r) (MemoryRegion.len r)
  end.
Proof.
  intros Hw Hlo Hu Hus Hm Hend. rewrite Forall_forall in Hw.
  pose proof (λ r (Hr : r ∈ map), outer_frames_raw_spec (MemoryRegion.start r) (MemoryRegion.len r)
    (proj1 (Hw r Hr)) (proj2 (Hw r Hr))) as Ho.
  pose proof (mark_spec (λ r, negb (is_usable r)) outer_frames clear_bit false lo sp map m writes_clear_bit Hlo Hu Hus Hm) as Hmk.
  assert (∀ r o, r ∈ map → outer_frames r = Ok o → bounded o) as Hbd.
  { intros r o Hr E. specialize (Ho r Hr). unfold outer_frames in E. rewrite E in Ho. apply Ho. }
  destruct (mark (λ r, negb (is_usable r)) _ _ _ _ m map) as [m'|e]; specialize (Hmk Hbd).
  - destruct Hmk as (Hm' & Hok & Hb).
    assert (∀ r, r ∈ map → is_usable r = false → ∃ o, outer_frames r = Ok o ∧
      reserve_fits (MemoryRegion.start r) (MemoryRegion.len r) ∧
      ∀ n, covers o n ↔ touches (MemoryRegion.start r) (MemoryRegion.len r) n) as Hall.
    { intros r Hr Hnu. destruct (Hok r Hr) as [o E]; [by rewrite Hnu|]. exists o. specialize (Ho r Hr).
      unfold outer_frames in *. rewrite E in Ho. destruct Ho as (? & _ & ?). done. }
    split_and!; [done|intros r Hr Hnu; destruct (Hall r Hr Hnu) as (o & _ & ? & _); done|].
    intros j. destruct (Hb j) as [[Hh ->]|[Hh ->]].
    + split; [done|]. intros [_ Hun]. destruct Hh as (_ & r & o & Hr & Hs%negb_true_iff & E & Hc).
      destruct (Hall r Hr Hs) as (o' & E' & _ & Hcov). rewrite E in E'. simplify_eq.
      by destruct (Hun r Hr Hs); apply Hcov.
    + split; [|by intros [? _]]. intros Hj. split; [done|]. intros r Hr Hnu Ht. apply Hh.
      split; [destruct (decide (j < sp)%nat); [done|by rewrite Hend in Hj by lia]|].
      destruct (Hall r Hr Hnu) as (o & E & _ & Hcov). exists r, o. split_and!; [done|by rewrite Hnu|done|by apply Hcov].
  - destruct Hmk as (r & Hr & Hs%negb_true_iff & E). specialize (Ho r Hr). unfold outer_frames in E. rewrite E in Ho.
    destruct Ho as [-> ?]. split; [done|]. by exists r.
Qed.

(** The allocator built from a pool array. *)
Lemma fresh_allocator map lo (sp : nat) m :
  let c := count_if (bit m) (seq 0 sp) in
  let zs := replicate (store_bytes sp) 0 in
  let a := {| pool := m; taken := zs; base := lo; span := sp; total := c; free := c; hint := 0 |} in
  bytes_wf (store_bytes sp) m → 0 ≤ lo → (lo + Z.of_nat sp) * Frame.bytes ≤ u_max 64 →
  Z.of_nat sp ≤ u_max USIZE_BITS → (∀ n, in_usable map n → lo ≤ n < lo + Z.of_nat sp) →
  (∀ j, bit m j = true ↔ (j < sp)%nat ∧ allocatable map (lo + Z.of_nat j)) →
  inv a ∧ (∀ f, Frame.wf f → is_allocated a f = false) ∧
  (∀ f, Frame.wf f → (manages a f = true ↔ allocatable map (Frame.number f))).
Proof.
  intros c zs a Hm Hlo Hlim Hus Hin Hb.
  assert (∀ j, bit zs j = false) as Hz.
  { intros j. unfold bit, zs. destruct (replicate _ _ !! _) as [z|] eqn:E; [|done].
    apply lookup_replicate in E as [-> _]. done. }
  assert (inv a) as Ha.
  { split; simpl; try done.
    - split; [apply length_replicate|by apply Forall_replicate].
    - intros i Hi. destruct (bit m i) eqn:E; [|done]. apply Hb in E as [? _]. lia.
    - apply count_if_ext. intros i _. unfold is_free. simpl. by rewrite Hz, andb_true_r. }
  split_and!; [done|..]; intros f Hf; unfold is_allocated, manages.
  - destruct (index_of a f) as [i|]; [|done]. simpl. by rewrite Hz, andb_false_r.
  - destruct (index_of a f) as [i|e] eqn:Hi.
    + apply index_of_Ok in Hi as [Hi ->]; [|done..]. simpl in *. rewrite Hb. tauto.
    + apply index_of_Err in Hi as [_ Hi]; [|done..]. simpl in Hi. split; [done|]. intros [Hu%Hin _]. lia.
Qed.

Lemma map_wide map :
  (usable_fit map → ∃ n n', in_usable map n ∧ in_usable map n' ∧ u_max USIZE_BITS < n' + 1 - n) →
  ¬ map_fits map ∨ too_wide map.
Proof.
  intros Hwide. destruct (decide (Forall (λ r, is_usable r = true →
    MemoryRegion.start r + MemoryRegion.len r ≤ u_max 64 ∧ MemoryRegion.start r + Frame.bytes - 1 ≤ u_max 64) map)) as [Hf|Hf].
  - rewrite Forall_forall in Hf. right. destruct Hwide as (n & n' & ? & ? & ?); [done|]. exists n, n'.
    split_and!; [done..|by left].
  - left. intros [Hfit _]. apply Hf, Forall_forall. exact Hfit.
Qed.

Lemma new_spec map store :
  Forall MemoryRegion.wf map →
  match new map store with
  | Ok a => inv a ∧ map_fits map ∧ (∀ f, Frame.wf f → is_allocated a f = false) ∧
      (∀ f, Frame.wf f → (manages a f = true ↔ allocatable map (Frame.number f))) ∧ free a = total a ∧
      ∃ needed, bitmap_bytes map = Ok needed ∧ (needed ≤ length store)%nat
  | Err (StorageTooSmall n) => ∃ needed, bitmap_bytes map = Ok needed ∧ n = Z.of_nat needed ∧ (length store < needed)%nat
  | Err NoUsableMemory => ∀ n, ¬ allocatable map n
  | Err Overflow => ¬ map_fits map ∨ too_wide map
  | Err _ => False
  end.
Proof.
  intros Hw. unfold new. pose proof (span_of_spec map Hw) as Hsp.
  destruct (span_of map) as [[lo sp]|e] eqn:Es.
  2:{ destruct Hsp as [(-> & _ & Hno)|[-> Hwide]]; [intros n [? _]; by eapply Hno|].
      destruct (map_wide map Hwide); [by left|by right]. }
  destruct Hsp as (Hlo & Hsp & Hlim & Hus & Hfit & Hin & Hfirst & Hlast).
  assert (lo + Z.of_nat sp ≤ u_max 64) as Hu by (pose proof Frame.bytes_pos; nia).
  unfold bitmap_bytes. rewrite Es. destruct (umul (store_bytes sp) 2) as [needed|] eqn:Hmul; simpl; unfold umul in Hmul;
    destruct (Z.leb_spec (Z.of_nat (store_bytes sp) * Z.of_nat 2) (u_max USIZE_BITS)); simplify_eq.
  2:{ right. exists lo, (lo + Z.of_nat sp - 1). split_and!; [done..|]. right.
      replace (Z.to_nat (lo + Z.of_nat sp - 1 + 1 - lo)) with sp by lia. lia. }
  destruct (Nat.ltb_spec (length store) (store_bytes sp * 2)); [by eexists|].
  destruct (Nat.ltb_spec (length store) (store_bytes sp)); [lia|].
  rewrite length_drop. destruct (Nat.ltb_spec (length store - store_bytes sp) (store_bytes sp)); [lia|].
  rewrite !length_take, length_drop, !Nat.min_l by lia.
  unfold checked_add, widen. destruct (Z.leb_spec (lo + Z.of_nat sp) (u_max 64)); [|lia]. simpl.
  set (zs := replicate (store_bytes sp) 0).
  assert (bytes_wf (store_bytes sp) zs) as Hzs by (split; [apply length_replicate|by apply Forall_replicate]).
  assert (∀ j, bit zs j = false) as Hz.
  { intros j. unfold bit, zs. destruct (replicate _ _ !! _) as [z|] eqn:E; [|done].
    apply lookup_replicate in E as [-> _]. done. }
  destruct (inner_pass map lo sp zs) as (m1 & -> & Hm1 & Hb1); try done.
  pose proof (outer_pass map lo sp m1) as Hout.
  destruct (mark (λ r, negb (is_usable r)) _ _ _ _ m1 map) as [m2|e]; (destruct Hout as [Hm2 Hout]; try done).
  1,3: intros j Hj; destruct (bit m1 j) eqn:E; [|done]; apply Hb1 in E; lia.
  2:{ subst e. left. intros [_ Hr]. destruct Hout as (r & Hr1 & Hr2 & Hr3). by apply Hr3, Hr. }
  destruct Hout as [Hfits Hb2].
  assert (∀ j, bit m2 j = true ↔ (j < sp)%nat ∧ allocatable map (lo + Z.of_nat j)) as Hb
    by (intros j; rewrite Hb2, Hb1; unfold allocatable; tauto).
  assert (∀ i, (sp ≤ i)%nat → bit m2 i = false) as Hend
    by (intros i Hi; destruct (bit m2 i) eqn:E; [apply Hb in E; lia|done]).
  rewrite (popcount_spec sp) by done.
  destruct (fresh_allocator map lo sp m2) as (Ha & Hal & Hman); try done.
  destruct (Nat.eqb_spec (count_if (bit m2) (seq 0 sp)) 0) as [E0|E0].
  - intros n Hn. pose proof (Hin n (proj1 Hn)) as Hnb.
    assert (0 < count_if (bit m2) (seq 0 sp))%nat; [|lia]. apply count_if_pos.
    exists (Z.to_nat (n - lo)), (Z.to_nat (n - lo)). split; [apply lookup_seq; lia|].
    apply Hb. split; [lia|]. by replace (lo + Z.of_nat (Z.to_nat (n - lo))) with n by lia.
  - split_and!; try done. eexists. split; [done|]. done.
Qed.

(** ** Withdrawing memory *)

#[global] Instance touches_dec start len n : Decision (touches start len n).
Proof. unfold touches. apply _. Defined.

Lemma reserve_fold ixs a n :
  inv a → NoDup ixs → (∀ i, i ∈ ixs → (i < span a)%nat) → Z.of_nat (n + length ixs) ≤ u_max USIZE_BITS →
  let s := foldl reserve_turn (a, n) ixs in
  inv s.1 ∧ taken s.1 = taken a ∧ base s.1 = base a ∧ span s.1 = span a ∧
  (total s.1 + s.2 = total a + n)%nat ∧
  ∀ j, bit (pool s.1) j = if decide (j ∈ ixs) then false else bit (pool a) j.
Proof.
  intros Ha Hn. revert a n Ha. induction Hn as [|i ixs Hni _ IH]; intros a n Ha Hi Hu.
  { simpl. split_and!; done. }
  assert (i < span a)%nat as His by (apply Hi; by left). cbn [foldl].
  destruct (bit (pool a) i) eqn:Hp.
  - destruct (inv_reserve_turn a n i Ha His Hp) as [Ha1 Hb1].
    assert (0 < total a)%nat as Hpos.
    { rewrite (inv_total a Ha). apply count_if_pos. exists i, i. split; [apply lookup_seq; lia|done]. }
    unfold reserve_turn in *. rewrite Hp in *. simpl in Ha1, Hb1. simpl negb. cbn iota.
    set (a1 := {| pool := clear_bit (pool a) i |}) in *. simpl length in Hu.
    assert (usat_add n 1 = S n) as -> by (unfold usat_add; destruct (Z.leb_spec (Z.of_nat n + Z.of_nat 1) (u_max USIZE_BITS)); lia).
    destruct (IH a1 (S n) Ha1) as (H1 & H2 & H3 & H4 & H5 & H6); [intros j Hj; apply Hi; by right|lia|].
    split_and!; try done.
    + rewrite H5. simpl. lia.
    + intros j. rewrite H6. change (pool a1) with (clear_bit (pool a) i). rewrite Hb1. apply decide_elem_cons.
  - unfold reserve_turn at 2 4 6 8 10 12 14. rewrite Hp. simpl negb. cbn iota. simpl length in Hu.
    destruct (IH a n Ha) as (H1 & H2 & H3 & H4 & H5 & H6); [intros j Hj; apply Hi; by right|lia|].
    split_and!; try done. intros j. rewrite H6, <-decide_elem_cons. repeat case_decide; by subst.
Qed.

Lemma reserve_spec a start len :
  inv a → in_u 64 start → in_u 64 len →
  match reserve a start len with
  | (a', Ok removed) => inv a' ∧ reserve_fits start len ∧ total a = (total a' + removed)%nat ∧
      ∀ x, Frame.wf x →
        manages a' x = manages a x && negb (bool_decide (touches start len (Frame.number x))) ∧
        is_allocated a' x = is_allocated a x && negb (bool_decide (touches start len (Frame.number x)))
  | (a', Err e) => a' = a ∧ e = Overflow ∧ ¬ reserve_fits start len
  end.
Proof.
  intros Ha Hs Hl. unfold reserve. pose proof (outer_frames_raw_spec start len Hs Hl) as Ho.
  destruct (outer_frames_raw start len) as [[[lo hi]|]|e].
  - destruct Ho as (Hfit & Hbd & Hcov). pose proof (inv_span a Ha) as Hus. pose proof (base_span_u64 a Ha) as Hu.
    unfold checked_add, widen. destruct (Z.leb_spec (base a + Z.of_nat (span a)) (u_max 64)); [|lia].
    destruct (clamp_spec (Some (lo, hi)) lo hi (base a) (span a)) as (ixs & -> & Hnd & Hin);
      [done|done|apply (inv_base a Ha)|done..|].
    assert (length ixs ≤ span a)%nat by (apply NoDup_bounded_length; [done|]; intros i [? _]%Hin; done).
    pose proof (reserve_fold ixs a 0 Ha Hnd) as Hf. destruct (foldl reserve_turn (a, 0%nat) ixs) as [a' removed].
    destruct Hf as (Ha' & Ht & Hb' & Hs' & Htot & Hb); [by intros i [? _]%Hin|lia|]. simpl in *.
    split_and!; [done..|lia|]. intros x Hx. unfold manages, is_allocated. rewrite (index_of_ext a a' x), Ht by done.
    destruct (index_of a x) as [i|] eqn:Hi; [|done]. apply index_of_Ok in Hi as [Hi Hnum]; [|done..].
    rewrite Hb, Hnum. destruct (decide (i ∈ ixs)) as [Hm|Hm]; rewrite Hin in Hm.
    + rewrite bool_decide_true by (apply Hcov; tauto). by rewrite !andb_false_r.
    + rewrite bool_decide_false by (rewrite <-Hcov; tauto). by rewrite !andb_true_r.
  - destruct Ho as (Hfit & _ & Hcov). split_and!; [done..|lia|]. intros x Hx.
    rewrite bool_decide_false by (by intros ?%Hcov). by rewrite !andb_true_r.
  - by destruct Ho.
Qed.

(** ** Owners

    The frames handed out and not given back, by number, beside the allocator. *)
Record world := { alloc : t; owned : list Z }.

Inductive step (w : world) : world → Prop :=
| step_alloc a' f :
    alloc_frame (alloc w) = (a', Ok f) →
    step w {| alloc := a'; owned := Frame.number f :: owned w |}
| step_alloc_contiguous count a' r :
    alloc_contiguous (alloc w) count = (a', Ok r) →
    step w {| alloc := a'; owned := seqZ (Frame.number (FrameRange.start r)) (Z.of_nat count) ++ owned w |}
| step_free f a' :
    Frame.wf f → free_frame (alloc w) f = (a', Ok tt) →
    step w {| alloc := a'; owned := filter (λ n, n ≠ Frame.number f) (owned w) |}
| step_free_contiguous f count r a' :
    Frame.wf f → FrameRange.new f count = Ok r → free_contiguous (alloc w) r = (a', Ok tt) →
    step w {| alloc := a';
              owned := filter (λ n, ¬ (Frame.number f ≤ n < Frame.number f + Z.of_nat count)) (owned w) |}
| step_reserve start len a' removed :
    in_u 64 start → in_u 64 len → reserve (alloc w) start len = (a', Ok removed) →
    step w {| alloc := a'; owned := owned w |}
| step_failed a' e :
    (alloc_frame (alloc w) = (a', Err e) ∨ (∃ count, alloc_contiguous (alloc w) count = (a', Err e)) ∨
     (∃ f, Frame.wf f ∧ free_frame (alloc w) f = (a', Err e)) ∨
     (∃ f count r, Frame.wf f ∧ FrameRange.new f count = Ok r ∧ free_contiguous (alloc w) r = (a', Err e)) ∨
     (∃ start len, in_u 64 start ∧ in_u 64 len ∧ reserve (alloc w) start len = (a', Err e))) →
    step w {| alloc := a'; owned := owned w |}.

Record owners (map : list MemoryRegion.t) (w : world) : Prop := {
  own_inv : inv (alloc w);
  own_nodup : NoDup (owned w);
  own_map : ∀ n, n ∈ owned w → 0 ≤ n ∧ allocatable map n;
  own_pool : ∀ x, Frame.wf x → manages (alloc w) x = true → allocatable map (Frame.number x);
  own_is : ∀ x, Frame.wf x → manages (alloc w) x = true →
    (is_allocated (alloc w) x = true ↔ Frame.number x ∈ owned w);
}.

Lemma is_allocated_manages a x : is_allocated a x = true → manages a x = true.
Proof. unfold is_allocated, manages. destruct (index_of a x); [|done]. by intros [? _]%andb_true_iff. Qed.

Lemma available_frame a n :
  available a n = true → ∃ x, Frame.from_number n = Ok x ∧ manages a x = true ∧ is_allocated a x = false.
Proof.
  unfold available. destruct (Frame.from_number n) as [x|]; [|done].
  intros [? ?%negb_true_iff]%andb_true_iff. eauto.
Qed.

(** Handing out an interval of available frames. *)
Lemma owners_take map w a' n (c : nat) :
  owners map w → inv a' → 0 ≤ n →
  (∀ m, n ≤ m < n + Z.of_nat c → available (alloc w) m = true) →
  (∀ x, Frame.wf x → manages a' x = manages (alloc w) x ∧
     is_allocated a' x = if decide (n ≤ Frame.number x < n + Z.of_nat c) then true else is_allocated (alloc w) x) →
  owners map {| alloc := a'; owned := seqZ n (Z.of_nat c) ++ owned w |}.
Proof.
  intros [Ha Hnd Hmap Hpool His] Ha' Hn Hav Hob.
  assert (∀ m, n ≤ m < n + Z.of_nat c → allocatable map m ∧ m ∉ owned w) as Hnew.
  { intros m Hm. destruct (available_frame _ _ (Hav m Hm)) as (x & Hx & Hman & Hal).
    apply Frame.wf_from_number in Hx as [Hwx <-]; [|lia]. split; [by apply Hpool|].
    intros Hin%His; [congruence|done..]. }
  split; simpl; [done| | | |].
  - apply NoDup_app. split_and!; [apply NoDup_seqZ| |done]. intros m Hm%elem_of_seqZ. by apply Hnew.
  - intros m [Hm%elem_of_seqZ|Hm]%elem_of_app; [|by apply Hmap]. split; [lia|by apply Hnew].
  - intros x Hx. rewrite (proj1 (Hob x Hx)). by apply Hpool.
  - intros x Hx. destruct (Hob x Hx) as [-> ->]. intros Hman. rewrite elem_of_app, elem_of_seqZ.
    case_decide; [tauto|]. rewrite His by done. tauto.
Qed.

(** Giving an interval back. *)
Lemma owners_give map w a' n (c : nat) :
  owners map w → inv a' →
  (∀ x, Frame.wf x → manages a' x = manages (alloc w) x ∧
     is_allocated a' x = if decide (n ≤ Frame.number x < n + Z.of_nat c) then false else is_allocated (alloc w) x) →
  owners map {| alloc := a'; owned := filter (λ m, ¬ (n ≤ m < n + Z.of_nat c)) (owned w) |}.
Proof.
  intros [Ha Hnd Hmap Hpool His] Ha' Hob. split; simpl; [done|by apply NoDup_filter| | |].
  - intros m [_ Hm]%list_elem_of_filter. by apply Hmap.
  - intros x Hx. rewrite (proj1 (Hob x Hx)). by apply Hpool.
  - intros x Hx. destruct (Hob x Hx) as [-> ->]. intros Hman. rewrite list_elem_of_filter.
    case_decide; [by split; [|intros [? _]]|]. rewrite His by done. tauto.
Qed.

Lemma owners_same map w a' : owners map w → a' = alloc w → owners map {| alloc := a'; owned := owned w |}.
Proof. intros Hw ->. by destruct w. Qed.

(** One frame is an interval of one number. *)
Lemma decide_one x f (v b : bool) :
  Frame.wf x → Frame.wf f →
  (if decide (x = f) then v else b) =
  if decide (Frame.number f ≤ Frame.number x < Frame.number f + Z.of_nat 1) then v else b.
Proof.
  intros Hx Hf. destruct (decide (x = f)) as [->|Hne]; case_decide as Hd; try done; [lia|].
  destruct Hne. apply Frame.number_inj; [done..|lia].
Qed.

Lemma owners_failed map w a' e :
  owners map w →
  (alloc_frame (alloc w) = (a', Err e) ∨ (∃ count, alloc_contiguous (alloc w) count = (a', Err e)) ∨
   (∃ f, Frame.wf f ∧ free_frame (alloc w) f = (a', Err e)) ∨
   (∃ f count r, Frame.wf f ∧ FrameRange.new f count = Ok r ∧ free_contiguous (alloc w) r = (a', Err e)) ∨
   (∃ start len, in_u 64 start ∧ in_u 64 len ∧ reserve (alloc w) start len = (a', Err e))) →
  a' = alloc w.
Proof.
  intros [Ha _ _ _ _] [E|[(c & E)|[(f & Hf & E)|[(f & c & r & Hf & Hr & E)|(s & l & Hs & Hl & E)]]]].
  - pose proof (alloc_frame_spec _ Ha) as H. rewrite E in H. apply H.
  - pose proof (alloc_contiguous_spec _ c Ha) as H. rewrite E in H. apply H.
  - pose proof (free_frame_spec _ f Ha Hf) as H. rewrite E in H. apply H.
  - pose proof (free_contiguous_spec _ f c r Ha Hf Hr) as H. rewrite E in H. apply H.
  - pose proof (reserve_spec _ s l Ha Hs Hl) as H. rewrite E in H. apply H.
Qed.

Lemma owners_reserve map w start len a' removed :
  owners map w → in_u 64 start → in_u 64 len → reserve (alloc w) start len = (a', Ok removed) →
  owners map {| alloc := a'; owned := owned w |}.
Proof.
  intros [Ha Hnd Hmap Hpool His] Hs Hl E. pose proof (reserve_spec _ start len Ha Hs Hl) as H. rewrite E in H.
  destruct H as (Ha' & _ & _ & Hob). split; simpl; [done..| |].
  - intros x Hx. rewrite (proj1 (Hob x Hx)). intros [? _]%andb_true_iff. by apply Hpool.
  - intros x Hx. destruct (Hob x Hx) as [-> ->]. intros [Hm ->]%andb_true_iff. rewrite andb_true_r. by apply His.
Qed.

Lemma owners_step map w w' : owners map w → step w w' → owners map w'.
Proof.
  intros Hw Hs. pose proof (own_inv _ _ Hw) as Ha. destruct Hs as
    [a' f E|count a' r E|f a' Hf E|f count r a' Hf Hr E|start len a' removed Hs Hl E|a' e E].
  - pose proof (alloc_frame_spec _ Ha) as H. rewrite E in H. destruct H as (Ha' & Hf & Hm & Hal & _ & Hob).
    change (Frame.number f :: owned w) with ([Frame.number f] ++ owned w).
    replace [Frame.number f] with (seqZ (Frame.number f) (Z.of_nat 1)) by (unfold seqZ; simpl; f_equal; lia).
    destruct (Frame.wf_number f Hf) as [_ H0]. apply owners_take; try done.
    + intros m Hmm. assert (m = Frame.number f) as -> by lia. unfold available.
      by rewrite Frame.from_number_number, Hm, Hal.
    + intros x Hx. rewrite <-decide_one by done. by apply Hob.
  - pose proof (alloc_contiguous_spec _ count Ha) as H. rewrite E in H.
    destruct H as (Ha' & _ & Hf & Hav & _ & _ & Hob). destruct (Frame.wf_number _ Hf) as [_ H0]. by apply owners_take.
  - pose proof (free_frame_spec _ f Ha Hf) as H. rewrite E in H. destruct H as (Ha' & _ & _ & Hob).
    rewrite (list_filter_iff _ (λ m, ¬ (Frame.number f ≤ m < Frame.number f + Z.of_nat 1))) by (intros m; lia).
    apply owners_give; try done. intros x Hx. rewrite <-decide_one by done. by apply Hob.
  - pose proof (free_contiguous_spec _ f count r Ha Hf Hr) as H. rewrite E in H.
    destruct H as (Ha' & _ & _ & Hob). by apply owners_give.
  - by apply (owners_reserve map w start len a' removed).
  - apply owners_same; [done|]. by eapply owners_failed.
Qed.

Lemma owners_new map store a :
  Forall MemoryRegion.wf map → new map store = Ok a → owners map {| alloc := a; owned := [] |}.
Proof.
  intros Hw E. pose proof (new_spec map store Hw) as H. rewrite E in H. destruct H as (Ha & _ & Hal & Hman & _).
  split; simpl; [done|constructor|by intros n ?%elem_of_nil|intros x Hx; by apply Hman|].
  intros x Hx _. rewrite Hal by done. split; [done|]. by intros ?%elem_of_nil.
Qed.

(** How many frames are in use. *)
Lemma used_count a : inv a → (total a - free a)%nat = count_if (λ i, bit (pool a) i && bit (taken a) i) (seq 0 (span a)).
Proof.
  intros Ha. rewrite (inv_total a Ha), (inv_free a Ha). induction (seq 0 (span a)) as [|i l IH]; [done|].
  simpl. unfold is_free at 1. assert (count_if (is_free a) l ≤ count_if (bit (pool a)) l)%nat as Hle.
  { clear IH. induction l as [|j l IHl]; [done|]. simpl. unfold is_free at 1. destruct (bit (pool a) j), (bit (taken a) j); simpl; lia. }
  destruct (bit (pool a) i), (bit (taken a) i); simpl; lia.
Qed.

Lemma allocated_indices a n :
  inv a → 0 ≤ n →
  allocated a n = true ↔ n ∈ (λ i, base a + Z.of_nat i) <$> filter (λ i, bit (pool a) i && bit (taken a) i = true) (seq 0 (span a)).
Proof.
  intros Ha Hn. rewrite list_elem_of_fmap. pose proof (by_number a n Ha Hn) as Hby. case_decide as Hin.
  - rewrite (proj2 Hby). split.
    + intros Hb. exists (Z.to_nat (n - base a)). split; [lia|]. apply list_elem_of_filter. split; [done|].
      apply elem_of_seq. lia.
    + intros (i & -> & [Hb _]%list_elem_of_filter). by replace (Z.to_nat (base a + Z.of_nat i - base a)) with i by lia.
  - rewrite (proj2 Hby). split; [done|]. intros (i & -> & [_ Hi%elem_of_seq]%list_elem_of_filter). lia.
Qed.

Lemma used_owned map w :
  owners map w → s_used (stats (alloc w)) = length (filter (λ n, allocated (alloc w) n = true) (owned w)).
Proof.
  intros Hw. pose proof (own_inv _ _ Hw) as Ha. unfold stats. simpl. rewrite used_count by done.
  rewrite <-length_filter_count.
  rewrite <-(length_fmap (λ i, base (alloc w) + Z.of_nat i)). apply Permutation_length, NoDup_Permutation.
  - apply NoDup_fmap_2; [intros i j; lia|]. apply NoDup_filter, NoDup_seq.
  - apply NoDup_filter, (own_nodup _ _ Hw).
  - intros n. rewrite list_elem_of_filter. pose proof (inv_base _ Ha) as Hb. split.
    + intros Hin. assert (0 ≤ n) as Hn by (apply list_elem_of_fmap in Hin as (i & -> & _); lia).
      apply allocated_indices in Hin; [|done..]. split; [done|]. unfold allocated in Hin.
      destruct (Frame.from_number n) as [x|] eqn:E; [|done]. apply Frame.wf_from_number in E as [Hx <-]; [|done].
      by apply (own_is _ _ Hw); [|apply is_allocated_manages|].
    + intros [Hal Hown]. apply allocated_indices; [done| |done]. by apply (own_map _ _ Hw).
Qed.

(** C26. [new] makes exactly the right frames allocatable. A frame is in the pool if and only
    if some usable region contains it whole and no other region touches any byte of it,
    whatever the order and overlap of the regions; nothing is allocated and the counts are
    right. Storage that is too small is refused with the exact size needed, memory is
    reported missing exactly when the map leaves no frame, and the only other failure is an
    address or a count that does not fit. *)
Theorem new_pool_is_usable_minus_reserved (map : list MemoryRegion.t) (store : list Z)
    (Hmap : Forall MemoryRegion.wf map) :
  match new map store with
  | Ok a => inv a ∧ map_fits map ∧ (∀ f, Frame.wf f → is_allocated a f = false) ∧
      (∀ f, Frame.wf f → (manages a f = true ↔ allocatable map (Frame.number f))) ∧ free a = total a ∧
      ∃ needed, bitmap_bytes map = Ok needed ∧ (needed ≤ length store)%nat
  | Err (StorageTooSmall n) => ∃ needed, bitmap_bytes map = Ok needed ∧ n = Z.of_nat needed ∧ (length store < needed)%nat
  | Err NoUsableMemory => ∀ n, ¬ allocatable map n
  | Err Overflow => ¬ map_fits map ∨ too_wide map
  | Err _ => False
  end.
Proof. by apply new_spec. Qed.


(** C27. allocating and freeing are operations on the set of allocated frames. An allocation
    takes one frame of the pool that was free and nothing else, and fails only when every pool
    frame is allocated, whatever the search hint; a free gives back exactly its frame if that
    is allocated and otherwise changes nothing, telling a double free from a frame outside the
    pool. [alloc_contiguous] takes the lowest run of [count] adjacent free frames, exactly when
    there is one; with too few free frames it says [Exhausted], with enough but no run
    [Fragmented], and then nothing changes. [free_contiguous] is all or nothing. The free count
    and the invariant are kept throughout. *)
Theorem alloc_and_free_refine_frame_sets (a : t) (count n : nat) (f : Frame.t) (r : FrameRange.t)
    (Ha : inv a) (Hf : Frame.wf f) (Hr : FrameRange.new f n = Ok r) :
  (match alloc_frame a with
  | (a', Ok g) => inv a' ∧ Frame.wf g ∧ manages a g = true ∧ is_allocated a g = false ∧ free a = S (free a') ∧
      ∀ x, Frame.wf x → manages a' x = manages a x ∧
        is_allocated a' x = if decide (x = g) then true else is_allocated a x
  | (a', Err e) => e = Exhausted ∧ a' = a ∧ free a = 0%nat ∧ ∀ x, Frame.wf x → manages a x = is_allocated a x
  end ∧
  match free_frame a f with
  | (a', Ok _) => inv a' ∧ is_allocated a f = true ∧ free a' = S (free a) ∧
      ∀ x, Frame.wf x → manages a' x = manages a x ∧
        is_allocated a' x = if decide (x = f) then false else is_allocated a x
  | (a', Err e) => a' = a ∧ is_allocated a f = false ∧ (e = NotAllocated ↔ manages a f = true)
  end) ∧
  (match alloc_contiguous a count with
  | (a', Ok r) => inv a' ∧ FrameRange.new (FrameRange.start r) count = Ok r ∧ Frame.wf (FrameRange.start r) ∧
      let n := Frame.number (FrameRange.start r) in
      (∀ m, n ≤ m < n + Z.of_nat count → available a m = true) ∧
      (∀ n', 0 ≤ n' < n → ∃ m, n' ≤ m < n' + Z.of_nat count ∧ available a m = false) ∧
      free a = (free a' + count)%nat ∧
      ∀ x, Frame.wf x → manages a' x = manages a x ∧
        is_allocated a' x = if decide (n ≤ Frame.number x < n + Z.of_nat count) then true else is_allocated a x
  | (a', Err e) => a' = a ∧
      ((count = 0%nat ∧ e = EmptyRequest) ∨ (count ≠ 0%nat ∧ (free a < count)%nat ∧ e = Exhausted) ∨
       (count ≠ 0%nat ∧ (count ≤ free a)%nat ∧ e = Fragmented ∧
        ∀ n, 0 ≤ n → ∃ m, n ≤ m < n + Z.of_nat count ∧ available a m = false))
  end ∧
  match free_contiguous a r with
  | (a', Ok _) => inv a' ∧ free a' = (free a + n)%nat ∧
      (∀ m, Frame.number f ≤ m < Frame.number f + Z.of_nat n → allocated a m = true) ∧
      ∀ x, Frame.wf x → manages a' x = manages a x ∧
        is_allocated a' x = if decide (Frame.number f ≤ Frame.number x < Frame.number f + Z.of_nat n)
                            then false else is_allocated a x
  | (a', Err e) => a' = a ∧
      ∃ m, Frame.number f ≤ m < Frame.number f + Z.of_nat n ∧ allocated a m = false
  end).
Proof.
  split.
  { split; [by apply alloc_frame_spec|by apply free_frame_spec]. }
  { split; [by apply alloc_contiguous_spec|by apply free_contiguous_spec]. }
Qed.

(** C3. no frame ever has two owners. Over every sequence of single and contiguous
    allocations, frees (of anything, failing or not) and reservations on an allocator built
    from a memory map, the frames handed out and not given back are all different, all
    allocatable by the map, and, among the frames still managed, exactly the allocated ones;
    the used count of [stats] is their number; and an allocation can only return a frame
    nobody holds. *)
Theorem no_frame_has_two_owners (map : list MemoryRegion.t) (store : list Z) (a0 : t) (w : world)
    (Hmap : Forall MemoryRegion.wf map) (Hnew : new map store = Ok a0)
    (Hr : rtc step {| alloc := a0; owned := [] |} w) :
  inv (alloc w) ∧ NoDup (owned w) ∧ (∀ n, n ∈ owned w → allocatable map n) ∧
  (∀ x, Frame.wf x → is_allocated (alloc w) x = true ↔ manages (alloc w) x = true ∧ Frame.number x ∈ owned w) ∧
  s_used (stats (alloc w)) = length (filter (λ n, allocated (alloc w) n = true) (owned w)) ∧
  match alloc_frame (alloc w) with
  | (_, Ok f) => Frame.number f ∉ owned w ∧ allocatable map (Frame.number f)
  | (_, Err _) => s_free (stats (alloc w)) = 0%nat
  end.
Proof.
  assert (owners map w) as Hw.
  { eapply (rtc_invariant step (owners map)); [intros; by eapply owners_step|by eapply owners_new|done]. }
  pose proof Hw as [Ha Hnd Hm Hpool His]. split_and!; [done|done|intros n Hn; by apply Hm| |by eapply used_owned|].
  - intros x Hx. split; [|by intros [? ?]; apply His]. intros Hal.
    pose proof (is_allocated_manages _ _ Hal) as Hman. by rewrite <-His.
  - pose proof (alloc_frame_spec _ Ha) as Hs. destruct (alloc_frame (alloc w)) as [a' [f|e]]; [|apply Hs].
    destruct Hs as (_ & Hf & Hman & Hal & _). split; [|by apply Hpool]. intros Hin.
    apply His in Hin; [congruence|done..].
Qed.

End FrameAllocator.

(** Frames 1 to 15 of 256 bytes, of which a reserved byte spoils frame 3. *)
Definition example_map : list MemoryRegion.t :=
  [{| MemoryRegion.start := 784; MemoryRegion.len := 1; MemoryRegion.kind := 2 |};
   {| MemoryRegion.start := 200; MemoryRegion.len := 3900; MemoryRegion.kind := 1 |}].

Definition example_alloc : t :=
  {| pool := [251; 127]; taken := [0; 0]; base := 1; span := 15; total := 14; free := 14; hint := 0 |}.

Lemma example_map_wf : Forall MemoryRegion.wf example_map.
Proof. repeat constructor; by vm_compute. Qed.

Lemma example_new : @new MockTiny example_map [7; 7; 7; 7] = Ok example_alloc.
Proof. reflexivity. Qed.

Lemma example_alloc_inv : @inv MockTiny example_alloc.
Proof.
  pose proof (@new_spec MockTiny MockTiny_ok example_map [7; 7; 7; 7] example_map_wf) as H.
  rewrite example_new in H. apply H.
Qed.

Lemma new_pool_is_usable_minus_reserved_witness :
  @manages MockTiny example_alloc {| Frame.start := 512 |} = true ∧
  @allocatable MockTiny example_map 2 ∧ ¬ @allocatable MockTiny example_map 3.
Proof.
  pose proof (@new_pool_is_usable_minus_reserved MockTiny MockTiny_ok example_map [7; 7; 7; 7] example_map_wf) as H.
  rewrite example_new in H. destruct H as (_ & _ & _ & Hm & _).
  assert (@Frame.wf MockTiny {| Frame.start := 512 |}) as H2 by (split; [by vm_compute|by exists 2]).
  assert (@Frame.wf MockTiny {| Frame.start := 768 |}) as H3 by (split; [by vm_compute|by exists 3]).
  split; [reflexivity|]. split; [exact (proj1 (Hm _ H2) eq_refl)|].
  intros Hal. discriminate (proj2 (Hm _ H3) Hal).
Defined.

Lemma alloc_and_free_refine_frame_sets_witness : ∃ a1 a2 r,
  @alloc_frame MockTiny example_alloc = (a1, Ok {| Frame.start := 256 |}) ∧
  @alloc_contiguous MockTiny example_alloc 3 = (a2, Ok r) ∧ Frame.start (FrameRange.start r) = 1024 ∧
  @is_allocated MockTiny a1 {| Frame.start := 256 |} = true ∧ @is_allocated MockTiny a2 {| Frame.start := 1024 |} = true.
Proof.
  assert (@Frame.wf MockTiny {| Frame.start := 256 |}) as Hf by (split; [by vm_compute|by exists 1]).
  assert (@Frame.wf MockTiny {| Frame.start := 1024 |}) as Hg by (split; [by vm_compute|by exists 4]).
  destruct (@alloc_and_free_refine_frame_sets MockTiny MockTiny_ok example_alloc 3 2 {| Frame.start := 1024 |}
    {| FrameRange.start := {| Frame.start := 1024 |}; FrameRange.count := 2 |}
    example_alloc_inv Hg eq_refl) as [[(_ & _ & _ & _ & _ & Hx) _] [(_ & _ & _ & _ & _ & _ & Hy) _]].
  eexists _, _, _. split; [reflexivity|]. split; [reflexivity|]. split; [reflexivity|].
  split; [exact (proj2 (Hx _ Hf))|exact (proj2 (Hy _ Hg))].
Defined.

Lemma no_frame_has_two_owners_witness : ∃ w,
  rtc (@step MockTiny) {| alloc := example_alloc; owned := [] |} w ∧ owned w = [1] ∧ NoDup (owned w).
Proof.
  eassert (rtc (@step MockTiny) {| alloc := example_alloc; owned := [] |} _) as Hr.
  { apply rtc_once. eapply step_alloc. reflexivity. }
  eexists. split; [exact Hr|]. split; [reflexivity|].
  exact (proj1 (proj2 (@no_frame_has_two_owners MockTiny MockTiny_ok example_map [7; 7; 7; 7] example_alloc _
    example_map_wf example_new Hr))).
Defined.

(** A frame number a [usize] cannot hold is reported as [Overflow], although it is simply
    outside the managed span. *)
Lemma far_frame_overflows :
  @free_frame MockTiny example_alloc {| Frame.start := 2 ^ 41 |} = (example_alloc, Err Overflow).
Proof. reflexivity. Qed.

(** A range that ends inside the last frame of the address space: [start + len] fits, its
    rounding does not. *)
Lemma reserve_top_overflows :
  @reserve MockTiny example_alloc (2 ^ 64 - 256) 255 = (example_alloc, Err Overflow).
Proof. reflexivity. Qed.

End FrameAllocator.
