(* ===== verification/MmRegion.v ===== *)
(** * The region map of an address space

    [kernel/mm/src/vm/region.rs]: at most [N] regions of virtual addresses in an array sorted
    by start, searched by bisection and changed by shifting the tail.  A virtual address or
    length is a [usize] as a [Z] at the architecture's width, a position in the array a [nat].
    [None] is a panic: an index or a [copy_within] out of range, an unchecked subtraction
    below zero. *)

From S2P Require Import Prelude MmFrame.
Local Open Scope Z_scope.

Module Vm.

(** [hal::paging::MapError] and [vm::VmError]. *)
Inductive MapError : Type :=
| NotCanonical | MapMisaligned | AlreadyMapped | NotMapped | OutOfFrames | WouldSplit | BadPhysAddr.
Inductive Error : Type :=
| NoRegion | Protection | OutOfMemory | SharesFull | RegionsFull | Overlap | Misaligned | Empty
| Overflow | NotEmpty | Mismatch | Map (e : MapError).
#[global] Instance Error_eq_dec : EqDecision Error.
Proof. intros x y. unfold Decision. repeat decide equality. Defined.

Definition from_map_error (e : MapError) : Error :=
  match e with
  | OutOfFrames => OutOfMemory
  | NotCanonical => Overflow
  | MapMisaligned => Misaligned
  | other => Map other
  end.

End Vm.

(** [slice::copy_within(s..e, d)]. *)
Definition copy_within {A} (l : list A) (s e d : nat) : option (list A) :=
  if decide (s ≤ e ∧ e ≤ length l ∧ d + (e - s) ≤ length l)%nat
  then Some (take d l ++ take (e - s) (drop s l) ++ drop (d + (e - s)) l)
  else None.

(** Opening a gap after [P], and closing one. *)
Lemma copy_within_open {A} (P Q R : list A) (x : A) :
  ∃ z, copy_within (P ++ Q ++ x :: R) (length P) (length P + length Q) (length P + 1) = Some (P ++ z :: Q ++ R).
Proof.
  unfold copy_within. rewrite decide_True by (rewrite !length_app; simpl; lia).
  replace (length P + length Q - length P)%nat with (length Q) by lia.
  rewrite drop_app_length, take_app_length.
  replace (length P + 1 + length Q)%nat with (length P + (length Q + 1))%nat by lia.
  rewrite <-drop_drop, drop_app_length, <-drop_drop, drop_app_length.
  rewrite take_app_add. destruct Q as [|q Q]; simpl; [exists x|exists q]; by rewrite <-(assoc_L (++)).
Qed.

Lemma copy_within_close {A} (P Q R : list A) (y : A) :
  ∃ z, copy_within (P ++ y :: Q ++ R) (length P + 1) (length P + 1 + length Q) (length P) = Some (P ++ Q ++ z :: R).
Proof.
  unfold copy_within. rewrite decide_True by (rewrite !length_app; simpl; rewrite !length_app; lia).
  replace (length P + 1 + length Q - (length P + 1))%nat with (length Q) by lia.
  rewrite <-drop_drop, drop_app_length, take_app_length. change (drop 1 (y :: Q ++ R)) with (Q ++ R). rewrite take_app_length.
  rewrite <-drop_drop, drop_app_length. destruct (drop (length Q) (y :: Q ++ R)) as [|z l] eqn:E.
  - apply (f_equal length) in E. rewrite length_drop in E. simpl in E. rewrite length_app in E. lia.
  - exists z. do 3 f_equal. apply (f_equal (drop 1)) in E. rewrite drop_drop in E. simpl in E.
    replace (length Q + 1)%nat with (S (length Q)) in E by lia. simpl in E. rewrite drop_app_length in E. by rewrite E.
Qed.

Module Region.
Section Region.
Context {arch : Arch}.

Inductive Backing : Type := Anonymous | Physical (base : Z).

(** [flags] are the raw bits of [PageFlags], which the map only stores. *)
Record t := { start : Z; len : Z; flags : Z; backing : Backing; huge : bool }.

Definition end_ (r : t) : option Z := checked_add USIZE_BITS (start r) (len r).
Definition contains (r : t) (addr : Z) : bool := (start r <=? addr) && (addr - start r <? len r).
Definition phys_at (r : t) (addr : Z) : option Z :=
  match backing r with
  | Physical base => if contains r addr then checked_add 64 base (addr - start r) else None
  | Anonymous => None
  end.
(** [None]: [at] below the start, or past the end. *)
Definition tail (r : t) (at_ : Z) : option (result t Vm.Error) :=
  off ← checked_sub at_ (start r);
  match (match backing r with
         | Anonymous => Ok Anonymous
         | Physical base => let? b := ok_or (checked_add 64 base off) Vm.Overflow in Ok (Physical b)
         end) with
  | Err e => Some (Err e)
  | Ok bk =>
      l ← checked_sub (len r) off;
      Some (Ok {| start := at_; len := l; flags := flags r; backing := bk; huge := huge r |})
  end.

End Region.
End Region.

Module Regions.
Section Regions.
Context {arch : Arch}.

Record t := { slots : list (option Region.t); len : nat }.

Definition new (N : nat) : t := {| slots := replicate N None; len := 0 |}.
Definition is_empty (R : t) : bool := (len R =? 0)%nat.
Definition room (R : t) : option nat := usub (length (slots R)) (len R).
Definition iter (R : t) : list Region.t := omap (λ r, r) (take (len R) (slots R)).
Definition get (R : t) (i : nat) : option Region.t :=
  r ← mjoin (slots R !! i); if (i <? len R)%nat then Some r else None.

Definition ends_after (R : t) (addr : Z) (i : nat) : bool :=
  match (r ← get R i; Region.end_ r) with None => true | Some e => addr <? e end.

(** The bisection; the interval shrinks every turn, so as many turns as regions are enough. *)
Fixpoint search (fuel : nat) (R : t) (addr : Z) (lo hi : nat) : option nat :=
  if (lo <? hi)%nat then
    match fuel with
    | O => None
    | S fuel =>
        let mid := (lo + (hi - lo) / 2)%nat in
        if ends_after R addr mid then search fuel R addr lo mid else search fuel R addr (mid + 1) hi
    end
  else Some lo.

Definition first_ending_after (R : t) (addr : Z) : option nat := search (len R) R addr 0 (len R).

Definition find (R : t) (addr : Z) : option (option (nat * Region.t)) :=
  at_ ← first_ending_after R addr;
  Some (match get R at_ with
        | Some r => if Region.contains r addr then Some (at_, r) else None
        | None => None
        end).

Definition exact (R : t) (start : Z) : option (option (nat * Region.t)) :=
  f ← find R start;
  Some (match f with
        | Some (i, r) => if Region.start r =? start then Some (i, r) else None
        | None => None
        end).

Definition misaligned (x : Z) : bool := negb (Z.land x (PAGE_SIZE - 1) =? 0).
Definition base_misaligned (r : Region.t) : bool :=
  match Region.backing r with Region.Physical base => misaligned base | Region.Anonymous => false end.

Definition insert (R : t) (r : Region.t) : option (t * result unit Vm.Error) :=
  if Region.len r =? 0 then Some (R, Err Vm.Empty)
  else if misaligned (Region.start r) || misaligned (Region.len r) then Some (R, Err Vm.Misaligned)
  else if base_misaligned r then Some (R, Err Vm.Misaligned)
  else match Region.end_ r with
  | None => Some (R, Err Vm.Overflow)
  | Some e =>
      at_ ← first_ending_after R (Region.start r);
      if match get R at_ with Some next => Region.start next <? e | None => false end
      then Some (R, Err Vm.Overlap)
      else if (len R =? length (slots R))%nat then Some (R, Err Vm.RegionsFull)
      else
        s1 ← copy_within (slots R) at_ (len R) (at_ + 1);
        s2 ← set_at s1 at_ (Some r);
        Some ({| slots := s2; len := len R + 1 |}, Ok tt)
  end.

Definition remove (R : t) (i : nat) : option (t * option Region.t) :=
  match get R i with
  | None => Some (R, None)
  | Some r =>
      s1 ← copy_within (slots R) (i + 1) (len R) i;
      len' ← usub (len R) 1;
      s2 ← set_at s1 len' None;
      Some ({| slots := s2; len := len' |}, Some r)
  end.

Definition set_flags (R : t) (i : nat) (fl : Z) : t * result unit Vm.Error :=
  match slots R !! i with
  | Some (Some r) =>
      if (i <? len R)%nat
      then ({| slots := <[i := Some {| Region.start := Region.start r; Region.len := Region.len r;
                                       Region.flags := fl; Region.backing := Region.backing r;
                                       Region.huge := Region.huge r |}]> (slots R);
               len := len R |}, Ok tt)
      else (R, Err Vm.NoRegion)
  | _ => (R, Err Vm.NoRegion)
  end.

Definition head_part (r : Region.t) (at_ : Z) : Region.t :=
  {| Region.start := Region.start r; Region.len := at_ - Region.start r; Region.flags := Region.flags r;
     Region.backing := Region.backing r; Region.huge := Region.huge r |}.

Definition split_at (R : t) (at_ : Z) : option (t * result unit Vm.Error) :=
  if misaligned at_ then Some (R, Err Vm.Misaligned)
  else
    f ← find R at_;
    match f with
    | None => Some (R, Ok tt)
    | Some (i, r) =>
        if Region.start r =? at_ then Some (R, Ok tt)
        else if (len R =? length (slots R))%nat then Some (R, Err Vm.RegionsFull)
        else
          tl ← Region.tail r at_;
          match tl with
          | Err e => Some (R, Err e)
          | Ok tl =>
              s1 ← copy_within (slots R) (i + 1) (len R) (i + 2);
              s2 ← set_at s1 i (Some (head_part r at_));
              s3 ← set_at s2 (i + 1) (Some tl);
              Some ({| slots := s3; len := len R + 1 |}, Ok tt)
          end
    end.

(** ** The regions in the array *)

(** A region as [insert] accepts it. *)
Record region_ok (r : Region.t) : Prop := {
  ok_start : 0 ≤ Region.start r;
  ok_len : 0 < Region.len r;
  ok_end : Region.start r + Region.len r ≤ u_max USIZE_BITS;
  ok_aligned : (PAGE_SIZE | Region.start r) ∧ (PAGE_SIZE | Region.len r);
  ok_base : match Region.backing r with
            | Region.Physical base => in_u 64 base ∧ (PAGE_SIZE | base)
            | Region.Anonymous => True
            end;
}.

Definition sorted (rs : list Region.t) : Prop :=
  ∀ i j r r', (i < j)%nat → rs !! i = Some r → rs !! j = Some r' →
    Region.start r + Region.len r ≤ Region.start r'.

(** [R] holds the regions [rs], in order, in an array of [N] slots. *)
Record holds (N : nat) (R : t) (rs : list Region.t) : Prop := {
  h_slots : slots R = (Some <$> rs) ++ replicate (N - length rs) None;
  h_len : len R = length rs;
  h_room : (length rs ≤ N)%nat;
  h_ok : Forall region_ok rs;
  h_sorted : sorted rs;
}.

Lemma length_slots N R rs : holds N R rs → length (slots R) = N.
Proof. intros [-> _ ? _ _]. rewrite length_app, length_fmap, length_replicate. lia. Qed.

Lemma slots_lookup N R rs i r : holds N R rs → rs !! i = Some r → slots R !! i = Some (Some r).
Proof.
  intros [-> _ _ _ _] Hi. pose proof (lookup_lt_Some _ _ _ Hi). rewrite lookup_app_l by (by rewrite length_fmap).
  by rewrite list_lookup_fmap, Hi.
Qed.

Lemma get_lookup N R rs i : holds N R rs → get R i = rs !! i.
Proof.
  intros HR. unfold get. rewrite (h_len _ _ _ HR). destruct (rs !! i) as [r|] eqn:Hi.
  - rewrite (slots_lookup _ _ _ _ _ HR Hi). simpl. pose proof (lookup_lt_Some _ _ _ Hi).
    by destruct (Nat.ltb_spec i (length rs)); [|lia].
  - apply lookup_ge_None in Hi. destruct (mjoin (slots R !! i)) as [r|]; [|done]. simpl.
    by destruct (Nat.ltb_spec i (length rs)); [lia|].
Qed.

Lemma ends_after_spec N R rs a i r :
  holds N R rs → rs !! i = Some r → ends_after R a i = (a <? Region.start r + Region.len r).
Proof.
  intros HR Hi. unfold ends_after. rewrite (get_lookup _ _ _ _ HR), Hi. simpl.
  pose proof (Forall_lookup_1 _ _ _ _ (h_ok _ _ _ HR) Hi) as [_ _ He _ _].
  unfold Region.end_, checked_add. by destruct (Z.leb_spec (Region.start r + Region.len r) (u_max USIZE_BITS)); [|lia].
Qed.

(** Bisection finds the border of any predicate that, once true, stays true. *)
Lemma search_spec R a n fuel lo hi :
  (hi - lo ≤ fuel)%nat → (lo ≤ hi ≤ n)%nat →
  (∀ i j, (i ≤ j < n)%nat → ends_after R a i = true → ends_after R a j = true) →
  (∀ i, (i < lo)%nat → ends_after R a i = false) → (∀ i, (hi ≤ i < n)%nat → ends_after R a i = true) →
  ∃ k, search fuel R a lo hi = Some k ∧ (k ≤ n)%nat ∧
    (∀ i, (i < k)%nat → ends_after R a i = false) ∧ (∀ i, (k ≤ i < n)%nat → ends_after R a i = true).
Proof.
  intros Hf Hb Hmono. revert lo hi Hf Hb.
  induction fuel as [|fuel IH]; intros lo hi Hf Hb Hlo Hhi; cbn [search];
    (destruct (Nat.ltb_spec lo hi) as [Hlt|Hge]; [|exists lo; split_and!; [done|lia|done|]; intros i Hi; apply Hhi; lia]).
  { lia. }
  assert (lo ≤ lo + (hi - lo) / 2 < hi)%nat as Hmid.
  { pose proof (Nat.div_lt (hi - lo) 2). lia. }
  set (mid := (lo + (hi - lo) / 2)%nat) in *. destruct (ends_after R a mid) eqn:E.
  - apply IH; [lia|lia|done|]. intros i Hi. destruct (decide (hi ≤ i)%nat); [apply Hhi; lia|].
    apply (Hmono mid); [lia|done].
  - apply IH; [lia|lia| |done]. intros i Hi. destruct (decide (i < lo)%nat); [by apply Hlo|].
    destruct (ends_after R a i) eqn:Ei; [|done]. rewrite (Hmono i mid) in E; [done|lia|done].
Qed.

Lemma first_ending_after_spec N R rs a :
  holds N R rs →
  ∃ k, first_ending_after R a = Some k ∧ (k ≤ length rs)%nat ∧
    (∀ i r, (i < k)%nat → rs !! i = Some r → Region.start r + Region.len r ≤ a) ∧
    (∀ i r, (k ≤ i)%nat → rs !! i = Some r → a < Region.start r + Region.len r).
Proof.
  intros HR. destruct (search_spec R a (length rs) (len R) 0 (len R)) as (k & Hs & Hk & Hlo & Hhi).
  - lia.
  - rewrite (h_len _ _ _ HR). lia.
  - intros i j Hij. destruct (decide (i = j)) as [->|]; [done|].
    destruct (lookup_lt_is_Some_2 rs i) as [r Hr]; [lia|]. destruct (lookup_lt_is_Some_2 rs j) as [r' Hr']; [lia|].
    rewrite (ends_after_spec _ _ _ _ _ _ HR Hr), (ends_after_spec _ _ _ _ _ _ HR Hr'), !Z.ltb_lt.
    pose proof (h_sorted _ _ _ HR i j r r' ltac:(lia) Hr Hr').
    pose proof (Forall_lookup_1 _ _ _ _ (h_ok _ _ _ HR) Hr') as [_ ? _ _ _]. lia.
  - lia.
  - intros i Hi. rewrite (h_len _ _ _ HR) in Hi. lia.
  - exists k. split_and!; [done..| |]; intros i r Hi Hr.
    + specialize (Hlo i Hi). rewrite (ends_after_spec _ _ _ _ _ _ HR Hr), Z.ltb_ge in Hlo. done.
    + pose proof (lookup_lt_Some _ _ _ Hr). specialize (Hhi i ltac:(lia)).
      by rewrite (ends_after_spec _ _ _ _ _ _ HR Hr), Z.ltb_lt in Hhi.
Qed.

Lemma contains_range r a : Region.contains r a = true ↔ Region.start r ≤ a < Region.start r + Region.len r.
Proof. unfold Region.contains. rewrite andb_true_iff, Z.leb_le, Z.ltb_lt. lia. Qed.

(** [find] finds the one region that contains an address. *)
Lemma find_spec N R rs a :
  holds N R rs →
  ∃ f, find R a = Some f ∧ ∀ i r, f = Some (i, r) ↔ rs !! i = Some r ∧ Region.contains r a = true.
Proof.
  intros HR. destruct (first_ending_after_spec N R rs a HR) as (k & Hk & _ & Hlo & Hhi).
  unfold find. rewrite Hk. simpl. eexists. split; [done|]. intros i r. rewrite (get_lookup _ _ _ _ HR).
  assert (rs !! i = Some r → Region.contains r a = true → i = k) as Hik.
  { intros Hi Hc%contains_range. destruct (lt_eq_lt_dec i k) as [[Hlt| ->]|Hgt]; [|done|].
    - specialize (Hlo i r Hlt Hi). lia.
    - destruct (lookup_lt_is_Some_2 rs k) as [r' Hr']; [pose proof (lookup_lt_Some _ _ _ Hi); lia|].
      specialize (Hhi k r' ltac:(lia) Hr'). pose proof (h_sorted _ _ _ HR k i r' r Hgt Hr' Hi). lia. }
  split.
  - destruct (rs !! k) as [r'|] eqn:E; [|done]. destruct (Region.contains r' a) eqn:Ec; [|done]. intros [= <- <-]. done.
  - intros [Hi Hc]. pose proof (Hik Hi Hc) as ->. by rewrite Hi, Hc.
Qed.

(** ** Insertion *)

Lemma set_at_middle {A} (P R : list A) (x z : A) n :
  n = length P → set_at (P ++ z :: R) n x = Some (P ++ x :: R).
Proof.
  intros ->. rewrite (set_at_Some _ _ _ z) by (by rewrite lookup_app_r, Nat.sub_diag).
  by rewrite insert_app_r_alt, Nat.sub_diag by lia.
Qed.

(** The array when there is a free slot, cut at position [k]. *)
Lemma slots_cut N R rs k :
  holds N R rs → (k ≤ length rs)%nat → (length rs < N)%nat →
  slots R = (Some <$> take k rs) ++ (Some <$> drop k rs) ++ None :: replicate (N - S (length rs)) None ∧
  length (Some <$> take k rs) = k ∧ (length (Some <$> take k rs) + length (Some <$> drop k rs))%nat = len R.
Proof.
  intros HR Hk HN. rewrite !length_fmap, length_take, length_drop. split_and!; [|lia|rewrite (h_len _ _ _ HR); lia].
  rewrite (h_slots _ _ _ HR), (assoc_L (++)), <-fmap_app, take_drop.
  by replace (N - length rs)%nat with (S (N - S (length rs))) by lia.
Qed.

Lemma open_slots N R rs k :
  holds N R rs → (k ≤ length rs)%nat → (length rs < N)%nat →
  ∃ z, copy_within (slots R) k (len R) (k + 1) =
    Some ((Some <$> take k rs) ++ z :: (Some <$> drop k rs) ++ replicate (N - S (length rs)) None).
Proof.
  intros HR Hk HN. destruct (slots_cut N R rs k HR Hk HN) as (-> & Hl & <-).
  destruct (copy_within_open (Some <$> take k rs) (Some <$> drop k rs)
    (replicate (N - S (length rs)) None) None) as [z Hz].
  rewrite Hl in Hz. rewrite Hl, Hz. by exists z.
Qed.

Lemma insert_lookup {A} (l : list A) k x i y :
  (k ≤ length l)%nat → (take k l ++ x :: drop k l) !! i = Some y →
  ((i < k)%nat ∧ l !! i = Some y) ∨ (i = k ∧ y = x) ∨ ((k < i)%nat ∧ l !! (i - 1)%nat = Some y).
Proof.
  intros Hk. destruct (lt_eq_lt_dec i k) as [[Hlt| ->]|Hgt].
  - rewrite lookup_app_l, lookup_take_lt by (rewrite ?length_take; lia). auto.
  - rewrite lookup_app_r by (rewrite length_take; lia). rewrite length_take, Nat.min_l, Nat.sub_diag by lia.
    intros [= <-]. auto.
  - rewrite lookup_app_r by (rewrite length_take; lia). rewrite length_take, Nat.min_l by lia.
    replace (i - k)%nat with (S (i - k - 1)) by lia. simpl. rewrite lookup_drop.
    replace (k + (i - k - 1))%nat with (i - 1)%nat by lia. auto.
Qed.

Lemma sorted_insert rs k r :
  sorted rs → (k ≤ length rs)%nat →
  (∀ i x, (i < k)%nat → rs !! i = Some x → Region.start x + Region.len x ≤ Region.start r) →
  (∀ i x, (k ≤ i)%nat → rs !! i = Some x → Region.start r + Region.len r ≤ Region.start x) →
  sorted (take k rs ++ r :: drop k rs).
Proof.
  intros Hs Hk Hlo Hhi i j x y Hij Hx Hy.
  apply insert_lookup in Hx as [[Hi Hx]|[[-> ->]|[Hi Hx]]]; [..|done];
  apply insert_lookup in Hy as [[Hj Hy]|[[-> ->]|[Hj Hy]]]; try done; try lia.
  - by apply (Hs i j).
  - by apply (Hlo i).
  - by apply (Hs i (j - 1)%nat); [lia|..].
  - by apply (Hhi (j - 1)%nat); [lia|].
  - by apply (Hs (i - 1)%nat (j - 1)%nat); [lia|..].
Qed.

Lemma holds_insert N R rs k r s :
  holds N R rs → (k ≤ length rs)%nat → (length rs < N)%nat → region_ok r →
  sorted (take k rs ++ r :: drop k rs) →
  s = (Some <$> take k rs ++ r :: drop k rs) ++ replicate (N - S (length rs)) None →
  holds N {| slots := s; len := len R + 1 |} (take k rs ++ r :: drop k rs).
Proof.
  intros HR Hk HN Hr Hs ->.
  assert (length (take k rs ++ r :: drop k rs) = S (length rs)) as Hl
    by (rewrite length_app, length_cons, length_take, length_drop; lia).
  split; simpl; [by rewrite Hl|rewrite Hl, (h_len _ _ _ HR); lia|lia| |done].
  pose proof (h_ok _ _ _ HR) as Hok. rewrite <-(take_drop k rs) in Hok. apply Forall_app in Hok as [H1 H2].
  apply Forall_app. by split; [|constructor].
Qed.

Context {arch_ok : ArchOk}.

Lemma misaligned_spec x : misaligned x = false ↔ (PAGE_SIZE | x).
Proof. unfold misaligned. rewrite negb_false_iff. apply Frame.is_aligned_bytes. Qed.

(** A region as a caller can pass it: every field at its width. *)
Definition in_range (r : Region.t) : Prop :=
  in_u USIZE_BITS (Region.start r) ∧ in_u USIZE_BITS (Region.len r) ∧
  match Region.backing r with Region.Physical base => in_u 64 base | Region.Anonymous => True end.

Definition disjoint (r x : Region.t) : Prop :=
  Region.start r + Region.len r ≤ Region.start x ∨ Region.start x + Region.len x ≤ Region.start r.

Lemma region_insert_spec N R rs r :
  holds N R rs → in_range r →
  match insert R r with
  | None => False
  | Some (R', Ok _) => region_ok r ∧ (∀ x, x ∈ rs → disjoint r x) ∧
      ∃ k, holds N R' (take k rs ++ r :: drop k rs)
  | Some (R', Err e) => R' = R ∧
      if decide (e = Vm.Overlap) then region_ok r ∧ ∃ x, x ∈ rs ∧ ¬ disjoint r x
      else if decide (e = Vm.RegionsFull) then region_ok r ∧ length rs = N
      else ¬ region_ok r
  end.
Proof.
  intros HR (Hs & Hl & Hb). unfold insert.
  destruct (Z.eqb_spec (Region.len r) 0) as [E0|E0].
  { split; [done|]. simpl. intros [? ? _ _ _]. lia. }
  destruct (misaligned (Region.start r) || misaligned (Region.len r)) eqn:Ea.
  { split; [done|]. simpl. intros [_ _ _ [H1%misaligned_spec H2%misaligned_spec] _]. rewrite H1, H2 in Ea. done. }
  apply orb_false_iff in Ea as [Ha1%misaligned_spec Ha2%misaligned_spec].
  destruct (base_misaligned r) eqn:Eb.
  { split; [done|]. simpl. intros [_ _ _ _ Hbase]. unfold base_misaligned in Eb.
    destruct (Region.backing r) as [|base]; [done|]. destruct Hbase as [_ Hbase%misaligned_spec]. congruence. }
  unfold Region.end_. destruct (checked_add USIZE_BITS (Region.start r) (Region.len r)) as [e|] eqn:Ee.
  2:{ apply checked_add_None in Ee. split; [done|]. simpl. intros [_ _ ? _ _]. lia. }
  apply checked_add_Some in Ee as [-> Hend].
  assert (region_ok r) as Hok.
  { split; [apply Hs|destruct Hl; lia|done|done|]. unfold base_misaligned in Eb.
    destruct (Region.backing r) as [|base]; [done|]. split; [done|]. by apply misaligned_spec. }
  destruct (first_ending_after_spec N R rs (Region.start r) HR) as (k & -> & Hk & Hlo & Hhi). simpl.
  rewrite (get_lookup _ _ _ _ HR). destruct (match rs !! k with Some next => _ | None => _ end) eqn:Eo.
  { split; [done|]. simpl. split; [done|]. destruct (rs !! k) as [x|] eqn:Hx; [|done]. apply Z.ltb_lt in Eo.
    exists x. split; [by eapply list_elem_of_lookup_2|]. specialize (Hhi k x ltac:(lia) Hx). unfold disjoint. lia. }
  assert (∀ i x, (k ≤ i)%nat → rs !! i = Some x → Region.start r + Region.len r ≤ Region.start x) as Hhi'.
  { intros i x Hi Hx. destruct (rs !! k) as [y|] eqn:Hy.
    - apply Z.ltb_ge in Eo. destruct (decide (i = k)) as [->|]; [congruence|].
      pose proof (h_sorted _ _ _ HR k i y x ltac:(lia) Hy Hx).
      pose proof (Forall_lookup_1 _ _ _ _ (h_ok _ _ _ HR) Hy) as [_ ? _ _ _]. lia.
    - apply lookup_ge_None in Hy. apply lookup_lt_Some in Hx. lia. }
  rewrite (h_len _ _ _ HR), (length_slots _ _ _ HR). destruct (Nat.eqb_spec (length rs) N) as [EN|EN].
  { split; [done|]. simpl. done. }
  pose proof (h_room _ _ _ HR). destruct (open_slots N R rs k HR Hk ltac:(lia)) as [z Hz].
  rewrite (h_len _ _ _ HR) in Hz. rewrite Hz. simpl. rewrite set_at_middle by (rewrite length_fmap, length_take; lia).
  simpl. split_and!; [done| |].
  - intros x [i Hi]%list_elem_of_lookup. unfold disjoint. destruct (decide (i < k)%nat).
    + right. by apply (Hlo i).
    + left. apply (Hhi' i); [lia|done].
  - exists k. rewrite <-(h_len _ _ _ HR). apply holds_insert; [done..|lia|done| |].
    + apply sorted_insert; [apply (h_sorted _ _ _ HR)|done..].
    + rewrite (h_len _ _ _ HR), fmap_app. csimpl. by rewrite <-(assoc_L (++)).
Qed.

(** ** Removal *)

Lemma remove_spec N R rs i :
  holds N R rs →
  match rs !! i with
  | None => remove R i = Some (R, None)
  | Some r => ∃ R', remove R i = Some (R', Some r) ∧ holds N R' (delete i rs)
  end.
Proof.
  intros HR. unfold remove. rewrite (get_lookup _ _ _ _ HR). destruct (rs !! i) as [r|] eqn:Hi; [|done].
  pose proof (lookup_lt_Some _ _ _ Hi) as Hlt. pose proof (h_room _ _ _ HR) as HN.
  set (rest := replicate (N - length rs) (@None Region.t)).
  assert (slots R = (Some <$> take i rs) ++ Some r :: (Some <$> drop (S i) rs) ++ rest) as Hs.
  { rewrite (h_slots _ _ _ HR). rewrite <-(take_drop_middle rs i r Hi) at 1. rewrite fmap_app. csimpl.
    by rewrite <-(assoc_L (++)). }
  assert (length (Some <$> take i rs) = i) as Hl1 by (rewrite length_fmap, length_take; lia).
  assert (i + 1 + length (Some <$> drop (S i) rs) = len R)%nat as Hl2
    by (rewrite length_fmap, length_drop, (h_len _ _ _ HR); lia).
  destruct (copy_within_close (Some <$> take i rs) (Some <$> drop (S i) rs) rest (Some r)) as [z Hz].
  rewrite <-Hs, Hl1, Hl2 in Hz. rewrite Hz. cbn [mbind option_bind].
  rewrite (proj2 (usub_Some (len R) 1 (length rs - 1))) by (rewrite (h_len _ _ _ HR); lia). cbn [mbind option_bind].
  rewrite (assoc_L (++)), <-fmap_app, <-delete_take_drop.
  rewrite set_at_middle by (rewrite length_fmap, length_delete by (by eexists); done). cbn [mbind option_bind].
  eexists. split; [done|]. pose proof (h_ok _ _ _ HR) as Hok.
  split; simpl; rewrite ?length_delete by (by eexists); [|done|lia| |].
  - f_equal. unfold rest. by replace (N - (length rs - 1))%nat with (S (N - length rs)) by lia.
  - by apply Forall_delete.
  - intros j k x y Hjk Hx Hy. pose proof (h_sorted _ _ _ HR) as Hsort. rewrite list_lookup_delete in Hx, Hy.
    repeat case_decide; (eapply (Hsort _ _ x y); [|exact Hx|exact Hy]; lia).
Qed.

(** ** Changing flags and splitting *)

Definition with_flags (r : Region.t) (fl : Z) : Region.t :=
  {| Region.start := Region.start r; Region.len := Region.len r; Region.flags := fl;
     Region.backing := Region.backing r; Region.huge := Region.huge r |}.

(** Replacing a region by one inside it. *)
Lemma holds_replace N R rs i r r' :
  holds N R rs → rs !! i = Some r → region_ok r' → Region.start r' = Region.start r →
  Region.len r' ≤ Region.len r → holds N {| slots := <[i := Some r']> (slots R); len := len R |} (<[i := r']> rs).
Proof.
  intros HR Hi Hok Hst Hlen. pose proof (lookup_lt_Some _ _ _ Hi) as Hlt. destruct HR as [Hs Hl HN Hall Hsort].
  split; simpl; rewrite ?length_insert; [|done|done|by apply Forall_insert|].
  - rewrite Hs, insert_app_l by (by rewrite length_fmap). by rewrite list_fmap_insert.
  - intros j k x y Hjk Hx Hy.
    destruct (decide (j = i)) as [->|]; [rewrite list_lookup_insert_eq in Hx by done|rewrite list_lookup_insert_ne in Hx by done];
    (destruct (decide (k = i)) as [->|]; [rewrite list_lookup_insert_eq in Hy by done|rewrite list_lookup_insert_ne in Hy by done]).
    + lia.
    + simplify_eq. pose proof (Hsort _ _ r y Hjk Hi Hy). lia.
    + simplify_eq. pose proof (Hsort _ _ x r Hjk Hx Hi). lia.
    + by apply (Hsort j k).
Qed.

Lemma set_flags_spec N R rs i fl :
  holds N R rs →
  match rs !! i with
  | None => set_flags R i fl = (R, Err Vm.NoRegion)
  | Some r => ∃ R', set_flags R i fl = (R', Ok tt) ∧ holds N R' (<[i := with_flags r fl]> rs)
  end.
Proof.
  intros HR. unfold set_flags. destruct (rs !! i) as [r|] eqn:Hi.
  - rewrite (slots_lookup _ _ _ _ _ HR Hi), (h_len _ _ _ HR). pose proof (lookup_lt_Some _ _ _ Hi).
    destruct (Nat.ltb_spec i (length rs)); [|lia]. eexists. split; [done|]. rewrite <-(h_len _ _ _ HR).
    apply (holds_replace _ _ _ _ r); [done..| |done|simpl; lia].
    pose proof (Forall_lookup_1 _ _ _ _ (h_ok _ _ _ HR) Hi) as []. by split.
  - destruct (slots R !! i) as [[r|]|] eqn:E; [|done..]. pose proof (get_lookup _ _ _ i HR) as Hg.
    unfold get in Hg. rewrite E, Hi in Hg. simpl in Hg. by destruct (i <? len R)%nat.
Qed.

Lemma tail_spec r a :
  region_ok r → (PAGE_SIZE | a) → Region.start r < a < Region.start r + Region.len r →
  match Region.tail r a with
  | None => False
  | Some (Ok tl) => region_ok tl ∧ Region.start tl = a ∧ Region.len tl = Region.start r + Region.len r - a ∧
      Region.flags tl = Region.flags r ∧ Region.huge tl = Region.huge r ∧
      match Region.backing r with
      | Region.Anonymous => Region.backing tl = Region.Anonymous
      | Region.Physical base => Region.backing tl = Region.Physical (base + (a - Region.start r))
      end
  | Some (Err e) => e = Vm.Overflow ∧
      ∃ base, Region.backing r = Region.Physical base ∧ u_max 64 < base + (a - Region.start r)
  end.
Proof.
  intros [Hs Hl He [Ha1 Ha2] Hb] Ha Hin. unfold Region.tail.
  rewrite (proj2 (checked_sub_Some a (Region.start r) (a - Region.start r))) by lia. cbn [mbind option_bind].
  assert (PAGE_SIZE | a - Region.start r) as Hoff by (by apply Z.divide_sub_r).
  assert (PAGE_SIZE | Region.len r - (a - Region.start r)) as Hlen by (by apply Z.divide_sub_r).
  assert (checked_sub (Region.len r) (a - Region.start r) = Some (Region.len r - (a - Region.start r))) as Hsub
    by (apply checked_sub_Some; lia).
  destruct (Region.backing r) as [|base].
  - rewrite Hsub. simpl. split_and!; try done; [split; simpl; try done; lia|lia].
  - destruct (checked_add 64 base (a - Region.start r)) as [b|] eqn:E; simpl.
    + apply checked_add_Some in E as [-> Hfit]. rewrite Hsub. simpl. destruct Hb as [[Hb0 _] Hb].
      split_and!; try done; [|lia]. split; simpl; try done; [lia..|]. split; [split; lia|by apply Z.divide_add_r].
    + apply checked_add_None in E. split; [done|]. eauto.
Qed.

(** What a fault at [a] is resolved with: the permissions, whether the memory is anonymous,
    the physical address, and whether huge pages are allowed. *)
Definition view_of (r : Region.t) (a : Z) : Z * bool * option Z * bool :=
  (Region.flags r, match Region.backing r with Region.Anonymous => true | _ => false end,
   Region.phys_at r a, Region.huge r).
Definition view (R : t) (a : Z) : option (Z * bool * option Z * bool) :=
  match find R a with Some (Some (_, r)) => Some (view_of r a) | _ => None end.

Lemma view_region N R rs r a :
  holds N R rs → r ∈ rs → Region.contains r a = true → view R a = Some (view_of r a).
Proof.
  intros HR [i Hi]%list_elem_of_lookup Hc. destruct (find_spec N R rs a HR) as (f & Hf & Hs). unfold view. rewrite Hf.
  by rewrite (proj2 (Hs i r)).
Qed.

Lemma view_none N R rs a :
  holds N R rs → (∀ r, r ∈ rs → Region.contains r a = false) → view R a = None.
Proof.
  intros HR Hno. destruct (find_spec N R rs a HR) as (f & Hf & Hs). unfold view. rewrite Hf.
  destruct f as [[i r]|]; [|done]. destruct (proj1 (Hs i r) eq_refl) as [Hi Hc].
  rewrite Hno in Hc; [done|by eapply list_elem_of_lookup_2].
Qed.

(** Two arrays whose regions give every address the same view. *)
Lemma view_ext N R rs N' R' rs' a :
  holds N R rs → holds N' R' rs' →
  (∀ r, r ∈ rs → Region.contains r a = true → ∃ r', r' ∈ rs' ∧ Region.contains r' a = true ∧ view_of r' a = view_of r a) →
  (∀ r', r' ∈ rs' → Region.contains r' a = true → ∃ r, r ∈ rs ∧ Region.contains r a = true) →
  view R' a = view R a.
Proof.
  intros HR HR' Hto Hfrom. destruct (find_spec N R rs a HR) as (f & Hf & Hs). destruct f as [[i r]|].
  - destruct (proj1 (Hs i r) eq_refl) as [Hi%list_elem_of_lookup_2 Hc]. destruct (Hto r Hi Hc) as (r' & Hr' & Hc' & Hv).
    by rewrite (view_region _ _ _ r' a HR' Hr' Hc'), (view_region _ _ _ r a HR Hi Hc), Hv.
  - assert (∀ r, r ∈ rs → Region.contains r a = false) as Hno.
    { intros r [i Hi]%list_elem_of_lookup. destruct (Region.contains r a) eqn:Hc; [|done].
      by assert (None = Some (i, r)) by (by apply Hs). }
    rewrite (view_none _ _ _ a HR Hno). apply (view_none N' R' rs'); [done|]. intros r' Hr'.
    destruct (Region.contains r' a) eqn:Hc; [|done]. destruct (Hfrom r' Hr' Hc) as (r & Hr & Hcr). by rewrite Hno in Hcr.
Qed.

Lemma split_holds N R rs i r tl a s :
  holds N R rs → (length rs < N)%nat → rs !! i = Some r → region_ok tl → (PAGE_SIZE | a) →
  Region.start r < a < Region.start r + Region.len r → Region.start tl = a →
  Region.len tl = Region.start r + Region.len r - a →
  s = (Some <$> take i rs) ++ Some (head_part r a) :: Some tl :: (Some <$> drop (S i) rs) ++ replicate (N - S (length rs)) None →
  holds N {| slots := s; len := len R + 1 |} (take i rs ++ head_part r a :: tl :: drop (S i) rs).
Proof.
  intros HR HN Hi Htl Ha Hin Hst Hlen ->. pose proof (lookup_lt_Some _ _ _ Hi) as Hlt.
  pose proof (Forall_lookup_1 _ _ _ _ (h_ok _ _ _ HR) Hi) as [Hr1 Hr2 Hr3 [Hr4 Hr5] Hr6].
  assert (region_ok (head_part r a)) as Hhd.
  { split; simpl; [done|lia|lia| |done]. split; [done|by apply Z.divide_sub_r]. }
  pose proof (holds_replace N R rs i r (head_part r a) HR Hi Hhd eq_refl ltac:(simpl; lia)) as HR1.
  set (rs1 := <[i := head_part r a]> rs) in *.
  assert (length rs1 = length rs) as Hl1 by (unfold rs1; by rewrite length_insert).
  assert (take (S i) rs1 = take i rs ++ [head_part r a]) as Ht.
  { rewrite (take_S_r rs1 i (head_part r a)) by (unfold rs1; by apply list_lookup_insert_eq).
    unfold rs1. by rewrite take_insert_ge by lia. }
  assert (drop (S i) rs1 = drop (S i) rs) as Hd by (unfold rs1; by rewrite drop_insert_lt by lia).
  assert (take i rs ++ head_part r a :: tl :: drop (S i) rs = take (S i) rs1 ++ tl :: drop (S i) rs1) as ->
    by (rewrite Ht, Hd, <-(assoc_L (++)); done).
  apply (holds_insert N _ rs1 (S i) tl _ HR1); [lia|lia|done| |].
  - apply sorted_insert; [apply (h_sorted _ _ _ HR1)|lia| |].
    + intros j x Hj Hx. rewrite Hst. destruct (decide (j = i)) as [->|Hne].
      * unfold rs1 in Hx. rewrite list_lookup_insert_eq in Hx by done. simplify_eq. simpl. lia.
      * unfold rs1 in Hx. rewrite list_lookup_insert_ne in Hx by done.
        pose proof (h_sorted _ _ _ HR j i x r ltac:(lia) Hx Hi). lia.
    + intros j x Hj Hx. unfold rs1 in Hx. rewrite list_lookup_insert_ne in Hx by lia.
      pose proof (h_sorted _ _ _ HR i j r x ltac:(lia) Hi Hx). lia.
  - rewrite Hl1, Ht, Hd, !fmap_app. csimpl. by rewrite <-!(assoc_L (++)).
Qed.

(** The two parts see every address as the whole did. *)
Lemma split_views r tl a x :
  Region.start r < a < Region.start r + Region.len r → Region.start tl = a →
  Region.len tl = Region.start r + Region.len r - a →
  Region.flags tl = Region.flags r → Region.huge tl = Region.huge r →
  match Region.backing r with
  | Region.Anonymous => Region.backing tl = Region.Anonymous
  | Region.Physical base => Region.backing tl = Region.Physical (base + (a - Region.start r))
  end →
  (Region.contains r x = true →
     if x <? a then Region.contains (head_part r a) x = true ∧ view_of (head_part r a) x = view_of r x
     else Region.contains tl x = true ∧ view_of tl x = view_of r x) ∧
  (Region.contains (head_part r a) x = true → Region.contains r x = true) ∧
  (Region.contains tl x = true → Region.contains r x = true).
Proof.
  intros Hin Hst Hlen Hfl Hhu Hbk. rewrite (contains_range r x).
  split_and!; [|rewrite (contains_range (head_part r a) x); simpl; lia|rewrite (contains_range tl x); lia].
  intros Hx. destruct (Z.ltb_spec x a).
  - split; [apply contains_range; simpl; lia|]. unfold view_of, Region.phys_at. simpl. do 3 f_equal.
    destruct (Region.backing r); [done|]. unfold Region.contains. simpl.
    rewrite (proj2 (Z.leb_le (Region.start r) x)) by lia. simpl.
    rewrite !(proj2 (Z.ltb_lt (x - Region.start r) _)) by lia. done.
  - split; [apply contains_range; lia|]. unfold view_of, Region.phys_at. rewrite Hfl, Hhu.
    destruct (Region.backing r) as [|base]; rewrite Hbk; [done|].
    rewrite (proj2 (contains_range tl x)), (proj2 (contains_range r x)) by lia. rewrite Hst.
    assert (base + (a - Region.start r) + (x - a) = base + (x - Region.start r)) as E by lia.
    unfold checked_add. by rewrite E.
Qed.

Lemma split_spec N R rs a :
  holds N R rs →
  match split_at R a with
  | None => False
  | Some (R', Ok _) => (PAGE_SIZE | a) ∧ (∀ x, view R' x = view R x) ∧
      ∃ rs', holds N R' rs' ∧ ∀ r, r ∈ rs' → ¬ (Region.start r < a < Region.start r + Region.len r)
  | Some (R', Err e) => R' = R ∧
      if decide (e = Vm.Misaligned) then ¬ (PAGE_SIZE | a)
      else ∃ r, r ∈ rs ∧ Region.start r < a < Region.start r + Region.len r ∧
        ((e = Vm.RegionsFull ∧ length rs = N) ∨
         (e = Vm.Overflow ∧ ∃ base, Region.backing r = Region.Physical base ∧ u_max 64 < base + (a - Region.start r)))
  end.
Proof.
  intros HR. unfold split_at. destruct (misaligned a) eqn:Em.
  { split; [done|]. simpl. intros Ha%misaligned_spec. congruence. }
  apply misaligned_spec in Em. destruct (find_spec N R rs a HR) as (f & Hf & Hs). rewrite Hf. simpl.
  destruct f as [[i r]|].
  2:{ split_and!; [done..|]. exists rs. split; [done|]. intros r [i Hi]%list_elem_of_lookup Hin.
      by assert (None = Some (i, r)) by (apply Hs; split; [done|apply contains_range; lia]). }
  destruct (proj1 (Hs i r) eq_refl) as [Hi Hc%contains_range].
  assert (r ∈ rs) as Hr by (by eapply list_elem_of_lookup_2).
  destruct (Z.eqb_spec (Region.start r) a) as [Ea|Ea].
  { split_and!; [done..|]. exists rs. split; [done|]. intros x [j Hj]%list_elem_of_lookup Hin.
    assert (Some (i, r) = Some (j, x)) as [= <- <-] by (apply Hs; split; [done|apply contains_range; lia]). lia. }
  assert (Region.start r < a < Region.start r + Region.len r) as Hin by lia.
  rewrite (length_slots _ _ _ HR). destruct (Nat.eqb_spec (len R) N) as [EN|EN].
  { split; [done|]. simpl. exists r. split_and!; [done|lia|lia|]. left. rewrite <-(h_len _ _ _ HR). done. }
  pose proof (tail_spec r a (Forall_lookup_1 _ _ _ _ (h_ok _ _ _ HR) Hi) Em Hin) as Ht.
  destruct (Region.tail r a) as [[tl|e]|]; [| |done].
  2:{ destruct Ht as [-> Hb]. split; [done|]. simpl. exists r. split_and!; [done|lia|lia|]. by right. }
  destruct Ht as (Hok & Hst & Hlen & Hfl & Hhu & Hbk). cbn [mbind option_bind].
  pose proof (lookup_lt_Some _ _ _ Hi) as Hlt. pose proof (h_room _ _ _ HR). rewrite (h_len _ _ _ HR) in EN.
  destruct (open_slots N R rs (i + 1) HR ltac:(lia) ltac:(lia)) as [z Hz].
  replace (i + 1 + 1)%nat with (i + 2)%nat in Hz by lia. rewrite Hz. cbn [mbind option_bind].
  replace (i + 1)%nat with (S i) by lia. rewrite (take_S_r rs i r Hi), fmap_app, <-(assoc_L (++)). csimpl.
  assert (length (Some <$> take i rs) = i) as Hl by (rewrite length_fmap, length_take; lia).
  rewrite set_at_middle by done. cbn [mbind option_bind].
  rewrite cons_middle, (assoc_L (++)), set_at_middle by (rewrite length_app; simpl; lia). cbn [mbind option_bind].
  rewrite <-(assoc_L (++)). simpl.
  pose proof (split_holds N R rs i r tl a _ HR ltac:(lia) Hi Hok Em Hin Hst Hlen eq_refl) as HR'.
  pose proof (λ x, split_views r tl a x Hin Hst Hlen Hfl Hhu Hbk) as Hv.
  rewrite <-(take_drop_middle rs i r Hi) in Hr.
  assert (∀ x, x ∈ take i rs ++ head_part r a :: tl :: drop (S i) rs ↔ x = head_part r a ∨ x = tl ∨ x ∈ take i rs ++ drop (S i) rs) as Hel
    by (intros x; rewrite !elem_of_app, !elem_of_cons; tauto).
  assert (∀ x, x ∈ rs ↔ x = r ∨ x ∈ take i rs ++ drop (S i) rs) as Hel0
    by (intros x; rewrite <-(take_drop_middle rs i r Hi) at 1; rewrite !elem_of_app, !elem_of_cons; tauto).
  split_and!; [done| |].
  - intros x. apply (view_ext N R rs N _ _ x HR HR').
    + intros y [->|Hy]%Hel0 Hcy; [|exists y; split_and!; [apply Hel|..]; tauto].
      destruct (Hv x) as [Hv1 _]. specialize (Hv1 Hcy). destruct (x <? a).
      * exists (head_part r a). split; [apply Hel; tauto|done].
      * exists tl. split; [apply Hel; tauto|done].
    + intros y Hy Hcy. destruct (Hv x) as (_ & Hv2 & Hv3). apply Hel in Hy as [->|[->|Hy]];
        [exists r; split; [apply Hel0; tauto|auto]..|exists y; split; [apply Hel0; tauto|done]].
  - eexists. split; [exact HR'|]. intros y [->|[->|Hy]]%Hel Hy'; [simpl in Hy'; lia|lia|].
    rewrite <-delete_take_drop in Hy. apply list_elem_of_lookup in Hy as [j Hj]. rewrite list_lookup_delete in Hj.
    pose proof (proj2 (Hs _ y) (conj Hj (proj2 (contains_range y a) ltac:(lia)))) as E. case_decide; simplify_eq; lia.
Qed.

Lemma holds_new N : holds N (new N) [].
Proof. split; simpl; [by rewrite Nat.sub_0_r|done|lia|constructor|]. intros i j r r' _ Hi. by rewrite lookup_nil in Hi. Qed.


End Regions.

Definition example_region : Region.t :=
  {| Region.start := 4096; Region.len := 8192; Region.flags := 3; Region.backing := Region.Physical 65536;
     Region.huge := false |}.


End Regions.
