(* ===== verification/MmShares.v ===== *)
(** * Share counts of anonymous frames

    [kernel/mm/src/vm/shares.rs]: a table of the frames that more than one mapping uses, with
    the number of mappings beyond the first.  Several address spaces may use one store through
    views of it; the calls on the views are serialised, so the store is one state and each call
    one step on it, whichever view makes it. *)

From S2P Require Import Prelude MmRegion.
Local Open Scope Z_scope.

Module Shares.

Record ShareSlot := { frame : Z; extra : Z }.
Definition EMPTY : ShareSlot := {| frame := 0; extra := 0 |}.

Inductive Remaining : Type := Last | Shared.

(** The store. *)
Abbreviation t := (list ShareSlot) (only parsing).

(** [new] discards what the slots held; [shared] keeps it. *)
Definition new (slots : t) : t := replicate (length slots) EMPTY.
Definition shared (store : t) : t := store.

Definition index (s : t) (f : Z) : option nat :=
  if f =? 0 then None else position (λ x, frame x =? f) s.
Definition slot (s : t) (f : Z) : option ShareSlot := i ← index s f; s !! i.

Definition count (s : t) (f : Z) : Z :=
  match slot s f with None => 1 | Some x => saturating_add 32 (extra x) 1 end.
Definition free_slots (s : t) : nat := count_if (λ x, frame x =? 0) s.
Definition is_shared (s : t) (f : Z) : bool := match slot s f with Some _ => true | None => false end.
Definition iter (s : t) : list (Z * Z) :=
  (λ x, (frame x, saturating_add 32 (extra x) 1)) <$> filter (λ x, frame x ≠ 0) s.

(** [None] is a panic. *)
Definition share (s : t) (f : Z) : option (t * result unit Vm.Error) :=
  if f =? 0 then Some (s, Err Vm.Mismatch)
  else match index s f with
  | Some i =>
      x ← s !! i;
      match checked_add 32 (extra x) 1 with
      | None => Some (s, Err Vm.Overflow)
      | Some e => Some (<[i := {| frame := frame x; extra := e |}]> s, Ok tt)
      end
  | None =>
      match position (λ x, frame x =? 0) s with
      | None => Some (s, Err Vm.SharesFull)
      | Some i => Some (<[i := {| frame := f; extra := 1 |}]> s, Ok tt)
      end
  end.

Definition unshare (s : t) (f : Z) : option (t * Remaining) :=
  match index s f with
  | None => Some (s, Last)
  | Some i =>
      x ← s !! i;
      e ← checked_sub (extra x) 1;
      Some (<[i := if e =? 0 then EMPTY else {| frame := frame x; extra := e |}]> s, Shared)
  end.

(** ** Invariant and meaning *)

(** A used slot counts at least one mapping beyond the first, and no frame has two slots. *)
Record wf (s : t) : Prop := {
  wf_slot : ∀ i x, s !! i = Some x → frame x ≠ 0 → 1 ≤ extra x ≤ u_max 32;
  wf_unique : ∀ i j x y, s !! i = Some x → s !! j = Some y → frame x ≠ 0 → frame x = frame y → i = j;
}.

(** The mappings of a mapped frame beyond the first. *)
Definition beyond (s : t) (f : Z) : Z := match slot s f with Some x => extra x | None => 0 end.

Lemma index_spec s f i : index s f = Some i → f ≠ 0 ∧ ∃ x, s !! i = Some x ∧ frame x = f.
Proof.
  unfold index. destruct (Z.eqb_spec f 0); [done|]. intros (x & Hx & E%Z.eqb_eq)%position_lookup. eauto.
Qed.

Lemma index_complete s f i x : wf s → s !! i = Some x → frame x = f → f ≠ 0 → index s f = Some i.
Proof.
  intros Hw Hi <- Hf. unfold index. destruct (Z.eqb_spec (frame x) 0); [done|].
  destruct (position (λ y, frame y =? frame x) s) as [j|] eqn:Hp.
  - destruct (position_lookup _ _ _ Hp) as (y & Hy & E%Z.eqb_eq). f_equal.
    by apply (wf_unique _ Hw j i y x); [..|congruence|].
  - rewrite position_None in Hp. specialize (Hp _ _ Hi). simpl in Hp. by rewrite Z.eqb_refl in Hp.
Qed.

Lemma slot_spec s f x : wf s → slot s f = Some x ↔ f ≠ 0 ∧ frame x = f ∧ x ∈ s.
Proof.
  intros Hw. unfold slot. split.
  - intros (i & (Hf & y & Hy & Ey)%index_spec & Hx)%bind_Some. split_and!; [done|congruence|by eapply list_elem_of_lookup_2].
  - intros (Hf & Hx & [i Hi]%list_elem_of_lookup). rewrite (index_complete s f i x) by done. done.
Qed.

(** Rewriting the slot that held [x] to [y], where [y] names the same frame, or one side is
    empty: what changes is the count of that frame. *)
Lemma slot_write s i x y f :
  wf s → s !! i = Some x → f ≠ 0 → (frame x = f ∨ (frame x = 0 ∧ beyond s f = 0)) →
  (frame y = f ∧ 1 ≤ extra y ≤ u_max 32) ∨ (frame y = 0 ∧ extra y = 0) →
  wf (<[i := y]> s) ∧ ∀ g, beyond (<[i := y]> s) g = if decide (g = f) then extra y else beyond s g.
Proof.
  intros Hw Hi Hf Hx Hy. pose proof (lookup_lt_Some _ _ _ Hi) as Hlt.
  assert (∀ j z, j ≠ i → s !! j = Some z → frame z ≠ f) as Hother.
  { intros j z Hj Hz E. destruct Hx as [Hx|[_ Hb]].
    - apply Hj. apply (wf_unique _ Hw j i z x); congruence.
    - unfold beyond in Hb. rewrite (proj2 (slot_spec s f z Hw)) in Hb by eauto using list_elem_of_lookup_2.
      pose proof (wf_slot _ Hw j z Hz ltac:(congruence)). lia. }
  assert (∀ j z, <[i := y]> s !! j = Some z ↔ (j = i ∧ z = y) ∨ (j ≠ i ∧ s !! j = Some z)) as Hl.
  { intros j z. destruct (decide (j = i)) as [->|Hne].
    - rewrite list_lookup_insert_eq by done. naive_solver.
    - rewrite list_lookup_insert_ne by done. naive_solver. }
  assert (wf (<[i := y]> s)) as Hw'.
  { split.
    - intros j z [[-> ->]|[_ Hz]]%Hl Hne; [destruct Hy as [[_ ?]|[? _]]; [done|congruence]|by eapply wf_slot].
    - intros j k u v [[-> ->]|[Hj Hu]]%Hl [[-> ->]|[Hk Hv]]%Hl Hne E; [done|..].
      + destruct Hy as [[Hy _]|[Hy _]]; [|congruence]. by destruct (Hother k v Hk Hv); congruence.
      + destruct Hy as [[Hy _]|[Hy _]]; [|congruence]. destruct (Hother j u Hj Hu). congruence.
      + by apply (wf_unique _ Hw j k u v). }
  split; [done|]. intros g. unfold beyond.
  destruct (slot (<[i := y]> s) g) as [z|] eqn:E.
  - apply slot_spec in E as (Hg & Hz & [j [[-> ->]|[Hj Hjz]]%Hl]%list_elem_of_lookup); [| |done].
    + destruct Hy as [[Hy _]|[Hy _]]; [|congruence]. by rewrite decide_True by congruence.
    + rewrite decide_False by (intros ->; by apply (Hother j z)).
      by rewrite (proj2 (slot_spec s g z Hw)) by eauto using list_elem_of_lookup_2.
  - case_decide as Hgf; [|destruct (slot s g) as [z|] eqn:E'; [exfalso|done]].
    + subst g. destruct Hy as [[Hy _]|[_ Hy]]; [|done].
      rewrite (proj2 (slot_spec _ f y Hw')) in E; [done|]. split_and!; [done..|].
      eapply list_elem_of_lookup_2, Hl. by left.
    + apply slot_spec in E' as (Hg & Hz & [j Hj]%list_elem_of_lookup); [|done].
      rewrite (proj2 (slot_spec _ g z Hw')) in E; [done|]. split_and!; [done..|].
      eapply list_elem_of_lookup_2, Hl. right. split; [|done]. intros ->. destruct Hx as [Hx|[Hx _]]; congruence.
Qed.

Lemma beyond_index s f i x : wf s → index s f = Some i → s !! i = Some x → beyond s f = extra x ∧ 1 ≤ extra x ≤ u_max 32.
Proof.
  intros Hw Hi Hx. destruct (index_spec s f i Hi) as (Hf & y & Hy & Ef). unfold beyond, slot. rewrite Hi. simpl. rewrite Hx.
  split; [done|]. by apply (wf_slot _ Hw i); [|congruence].
Qed.

Lemma beyond_none s f : wf s → index s f = None → beyond s f = 0.
Proof. intros Hw Hi. unfold beyond, slot. by rewrite Hi. Qed.

Lemma share_spec s f :
  wf s →
  match share s f with
  | None => False
  | Some (s', Ok _) => f ≠ 0 ∧ wf s' ∧ ∀ g, beyond s' g = beyond s g + if decide (g = f) then 1 else 0
  | Some (s', Err e) => s' = s ∧
      ((e = Vm.Mismatch ∧ f = 0) ∨ (e = Vm.Overflow ∧ beyond s f = u_max 32) ∨
       (e = Vm.SharesFull ∧ beyond s f = 0 ∧ free_slots s = 0%nat))
  end.
Proof.
  intros Hw. unfold share. destruct (Z.eqb_spec f 0) as [E0|E0]; [auto|].
  destruct (index s f) as [i|] eqn:Hi.
  - destruct (index_spec s f i Hi) as (_ & x & Hx & Ef). rewrite Hx. simpl.
    destruct (beyond_index s f i x Hw Hi Hx) as [Hb Hr].
    destruct (checked_add 32 (extra x) 1) as [e|] eqn:E.
    + apply checked_add_Some in E as [-> Hle].
      destruct (slot_write s i x {| frame := frame x; extra := extra x + 1 |} f) as [Hw' Hg]; [done|done|done|by left|left; simpl; split; [done|lia]|].
      split_and!; [done..|]. intros g. rewrite Hg. case_decide; [subst; simpl; lia|lia].
    + apply checked_add_None in E. split; [done|]. right. left. split; [done|lia].
  - pose proof (beyond_none s f Hw Hi) as Hb. destruct (position (λ x, frame x =? 0) s) as [i|] eqn:Hp.
    + destruct (position_lookup _ _ _ Hp) as (x & Hx & Ex%Z.eqb_eq).
      destruct (slot_write s i x {| frame := f; extra := 1 |} f) as [Hw' Hg]; [done..|by right|left; simpl; split; [done|unfold u_max; lia]|].
      split_and!; [done..|]. intros g. rewrite Hg. case_decide; [subst; simpl; lia|lia].
    + split; [done|]. right. right. split_and!; [done..|]. unfold free_slots.
      destruct (count_if (λ x, frame x =? 0) s) eqn:Ec; [done|].
      assert (0 < count_if (λ x, (frame x =? 0)%Z) s)%nat as (j & y & Hj & Hy)%count_if_pos by lia.
      rewrite position_None in Hp. by rewrite (Hp j y Hj) in Hy.
Qed.

Lemma unshare_spec s f :
  wf s →
  match unshare s f with
  | None => False
  | Some (s', Last) => s' = s ∧ beyond s f = 0
  | Some (s', Shared) => wf s' ∧ 0 < beyond s f ∧ ∀ g, beyond s' g = beyond s g - if decide (g = f) then 1 else 0
  end.
Proof.
  intros Hw. unfold unshare. destruct (index s f) as [i|] eqn:Hi; [|split; [done|by apply beyond_none]].
  destruct (index_spec s f i Hi) as (Hf & x & Hx & Ef). rewrite Hx. simpl.
  destruct (beyond_index s f i x Hw Hi Hx) as [Hb Hr].
  rewrite (proj2 (checked_sub_Some (extra x) 1 (extra x - 1))) by lia. simpl.
  set (y := if extra x - 1 =? 0 then EMPTY else _).
  assert (extra y = extra x - 1 ∧ ((frame y = f ∧ 1 ≤ extra y ≤ u_max 32) ∨ (frame y = 0 ∧ extra y = 0))) as [Hy Hy'].
  { unfold y. destruct (Z.eqb_spec (extra x - 1) 0); simpl; [split; [lia|by right]|split; [done|left; split; [done|lia]]]. }
  destruct (slot_write s i x y f) as [Hw' Hg]; [done..|by left|done|].
  split_and!; [done|lia|]. intros g. rewrite Hg, Hy. case_decide; [subst; lia|lia].
Qed.

(** ** Mappings

    The mappings that exist, each by its frame, beside the store.  A frame is mapped first
    without a call; every further mapping is recorded with [share], and dropping one calls
    [unshare]. *)
Record world := { store : t; maps : list Z }.

Definition mult (f : Z) (l : list Z) : nat := length (filter (λ g, g = f) l).

Inductive step (w : world) : world → Prop :=
| step_map f :
    f ≠ 0 → f ∉ maps w → step w {| store := store w; maps := f :: maps w |}
| step_share f s' :
    f ∈ maps w → share (store w) f = Some (s', Ok tt) → step w {| store := s'; maps := f :: maps w |}
| step_share_refused f s' e :
    f ∈ maps w → share (store w) f = Some (s', Err e) → step w {| store := s'; maps := maps w |}
| step_unmap i f s' r :
    maps w !! i = Some f → unshare (store w) f = Some (s', r) →
    step w {| store := s'; maps := delete i (maps w) |}.

Record counted (w : world) : Prop := {
  cnt_wf : wf (store w);
  cnt_zero : 0 ∉ maps w;
  cnt_exact : ∀ f, Z.of_nat (mult f (maps w)) = beyond (store w) f + if decide (f ∈ maps w) then 1 else 0;
  cnt_absent : ∀ f, f ∉ maps w → beyond (store w) f = 0;
}.

Lemma mult_cons f g l : mult f (g :: l) = ((if decide (g = f) then 1 else 0) + mult f l)%nat.
Proof. unfold mult. rewrite filter_cons. by case_decide. Qed.

Lemma mult_pos f l : f ∈ l ↔ (0 < mult f l)%nat.
Proof.
  induction l as [|g l IH]; [split; [by intros ?%elem_of_nil|unfold mult; simpl; lia]|].
  rewrite mult_cons, elem_of_cons. case_decide; [split; [lia|by left]|]. rewrite IH. split; [intros [->|]; [done|lia]|by right].
Qed.

Lemma mult_delete i f g l : l !! i = Some f → mult g l = ((if decide (f = g) then 1 else 0) + mult g (delete i l))%nat.
Proof.
  intros Hi. rewrite <-mult_cons. unfold mult. by rewrite (delete_Permutation _ _ _ Hi) at 1.
Qed.

Lemma counted_step w w' : counted w → step w w' → counted w'.
Proof.
  intros [Hw H0 He Ha] Hs. destruct Hs as [f Hf Hn|f s' Hin E|f s' e Hin E|i f s' r Hi E].
  - split; simpl; [done|set_solver| |].
    + intros g. rewrite mult_cons, Nat2Z.inj_add, He. destruct (decide (g = f)) as [->|Hne].
      * rewrite !(decide_True (P := f ∈ f :: _)), (decide_True (P := f = f)), decide_False by (done || by left). lia.
      * rewrite (decide_False (P := f = g)) by congruence.
        assert (g ∈ f :: maps w ↔ g ∈ maps w) as Hiff by (rewrite elem_of_cons; naive_solver).
        rewrite (decide_ext _ _ _ _ Hiff). lia.
    + intros g Hg. apply Ha. set_solver.
  - pose proof (share_spec _ f Hw) as Hsp. rewrite E in Hsp. destruct Hsp as (Hf & Hw' & Hb).
    split; simpl; [done|set_solver| |].
    + intros g. rewrite mult_cons, Nat2Z.inj_add, He, Hb. destruct (decide (g = f)) as [->|Hne].
      * rewrite !decide_True by (done || by left). lia.
      * rewrite (decide_False (P := f = g)) by congruence.
        assert (g ∈ f :: maps w ↔ g ∈ maps w) as Hiff by (rewrite elem_of_cons; naive_solver).
        rewrite (decide_ext _ _ _ _ Hiff). lia.
    + intros g Hg. rewrite Hb, decide_False, Ha by set_solver. done.
  - pose proof (share_spec _ f Hw) as Hsp. rewrite E in Hsp. destruct Hsp as [-> _]. by split.
  - pose proof (unshare_spec _ f Hw) as Hsp. rewrite E in Hsp.
    assert (∀ g, g ∈ delete i (maps w) ↔ (0 < mult g (delete i (maps w)))%nat) as Hd by (intros; apply mult_pos).
    pose proof (λ g, mult_delete i f g _ Hi) as Hm. assert (f ∈ maps w) as Hin by (by eapply list_elem_of_lookup_2).
    assert (wf s' ∧ ∀ g, beyond s' g = beyond (store w) g - if decide (g = f) then (if r then 0 else 1) else 0) as [Hw' Hb].
    { destruct r; [destruct Hsp as [-> _]; split; [done|]; intros g; case_decide; lia|]. by destruct Hsp as (? & _ & ?). }
    assert (r = Last → beyond (store w) f = 0) as Hlast by (intros ->; apply Hsp).
    assert (r = Shared → 0 < beyond (store w) f) as Hshared by (intros ->; apply Hsp).
    assert (∀ g, Z.of_nat (mult g (delete i (maps w))) = beyond s' g + if decide (g ∈ delete i (maps w)) then 1 else 0) as Hx.
    { intros g. specialize (He g). specialize (Hm g). specialize (Hb g). specialize (Hd g).
      pose proof (mult_pos g (maps w)) as Hp. destruct (decide (g = f)) as [->|Hne].
      - rewrite decide_True in Hm by done. rewrite decide_True in He by done.
        destruct r; [specialize (Hlast eq_refl)|specialize (Hshared eq_refl)]; case_decide as Hc;
          first [apply Hd in Hc; lia|rewrite Hd in Hc; lia].
      - rewrite decide_False in Hm by done. simpl in Hm.
        assert (g ∈ maps w ↔ g ∈ delete i (maps w)) as Hiff by (rewrite Hp, Hd, Hm; done).
        rewrite (decide_ext _ _ _ _ Hiff) in He. lia. }
    split; simpl; [done|intros Hz; apply H0; by rewrite (delete_Permutation _ _ _ Hi); right|done|].
    intros g Hg. specialize (Hx g). rewrite decide_False in Hx by done.
    rewrite Hd in Hg. lia.
Qed.

(** The states reached from a table over any slots with no mapping yet. *)
Definition started (slots : t) : world := {| store := new slots; maps := [] |}.

Lemma new_wf_shares slots : wf (new slots) ∧ ∀ f, beyond (new slots) f = 0.
Proof.
  assert (∀ i x, new slots !! i = Some x → x = EMPTY) as He by (intros i x [-> _]%lookup_replicate; done).
  assert (wf (new slots)) as Hw.
  { split; [intros i x ->%He Hx; done|intros i j x y ->%He _ Hx; done]. }
  split; [done|]. intros f. unfold beyond. destruct (slot (new slots) f) as [x|] eqn:E; [|done].
  apply slot_spec in E as (_ & _ & [i Hi]%list_elem_of_lookup); [|done]. by rewrite (He _ _ Hi).
Qed.

Lemma counted_reachable slots w : rtc step (started slots) w → counted w.
Proof.
  intros Hr. assert (counted (started slots)) as Hc.
  { destruct (new_wf_shares slots) as [Hw Hb]. split; simpl; [done|set_solver| |done].
    intros f. by rewrite Hb. }
  induction Hr; [done|]. eauto using counted_step.
Qed.

(** C29. Over any sequence of mappings, shares, refused shares and unmappings from a new
    table, no call panics; [count] of a mapped frame is the number of its mappings (held at
    the largest [u32] where there is one more than that); a frame is recorded as shared
    exactly when it has two mappings or more; dropping a mapping answers [Last], so that
    its owner frees the frame, exactly when no other mapping of the frame is left; and
    [share] of a mapped frame is refused, with the table unchanged, only when the frame is
    not recorded and no slot is free, or its count is at the largest [u32]. *)
Theorem share_counts_mappings slots w f :
  rtc step (started slots) w → f ∈ maps w →
  count (store w) f = Z.min (Z.of_nat (mult f (maps w))) (u_max 32) ∧
  (is_shared (store w) f = true ↔ (2 ≤ mult f (maps w))%nat) ∧
  (∃ s' r, unshare (store w) f = Some (s', r) ∧ (r = Last ↔ mult f (maps w) = 1%nat)) ∧
  (∃ s' r, share (store w) f = Some (s', r) ∧
     match r with
     | Ok _ => True
     | Err e => s' = store w ∧
         ((e = Vm.SharesFull ∧ mult f (maps w) = 1%nat ∧ free_slots (store w) = 0%nat) ∨
          (e = Vm.Overflow ∧ Z.of_nat (mult f (maps w)) = u_max 32 + 1))
     end).
Proof.
  intros [Hw H0 He _]%counted_reachable Hin. specialize (He f). rewrite decide_True in He by done.
  assert (f ≠ 0) as Hf by (by intros ->).
  split_and!.
  - unfold count. unfold beyond in He. destruct (slot (store w) f); [|unfold u_max; lia].
    rewrite He. done.
  - unfold is_shared. unfold beyond in He. destruct (slot (store w) f) as [x|] eqn:E; [|split; [done|lia]].
    apply slot_spec in E as (_ & Ex & [i Hi]%list_elem_of_lookup); [|done].
    pose proof (wf_slot _ Hw i x Hi ltac:(congruence)). split; [lia|done].
  - pose proof (unshare_spec _ f Hw) as Hs. destruct (unshare (store w) f) as [[s' r]|]; [|done].
    exists s', r. split; [done|]. destruct r; [split; [lia|done]|split; [done|lia]].
  - pose proof (share_spec _ f Hw) as Hs. destruct (share (store w) f) as [[s' [[]|e]]|]; [by exists s', (Ok tt)| |done].
    exists s', (Err e). split; [done|]. destruct Hs as [-> [[_ ?]|[[-> ?]|[-> [? ?]]]]]; [done|..].
    + split; [done|]. right. split; [done|lia].
    + split; [done|]. left. split_and!; [done|lia|done].
Qed.

(** A table of one slot, a frame mapped twice and another once. *)
Definition shared_world : world := {| store := [ {| frame := 4096; extra := 1 |} ]; maps := [8192; 4096; 4096] |}.

Lemma share_counts_mappings_witness :
  rtc step (started [EMPTY]) shared_world ∧
  count (store shared_world) 4096 = Z.min (Z.of_nat (mult 4096 (maps shared_world))) (u_max 32).
Proof.
  assert (rtc step (started [EMPTY]) shared_world) as Hr.
  { eapply rtc_l; [apply (step_map _ 4096); simpl; [done|set_solver]|]. simpl.
    eapply rtc_l; [eapply (step_share _ 4096); simpl; [set_solver|reflexivity]|]. simpl.
    eapply rtc_l; [apply (step_map _ 8192); simpl; [done|rewrite !elem_of_cons, elem_of_nil; lia]|]. simpl. apply rtc_refl. }
  split; [exact Hr|].
  apply (share_counts_mappings [EMPTY] shared_world 4096 Hr). unfold shared_world. simpl. set_solver.
Defined.

End Shares.
