(* ===== verification/MmDirectMap.v ===== *)
(** * Kernel addresses and the direct map

    [KernAddr] of [hal/src/addr.rs] and [kernel/mm/src/directmap.rs]: the window of physical
    memory the kernel reaches at a fixed offset.  A kernel address and a count of bytes are [usize]
    numbers, kept as [Z] at that width; [AddrOverflow], which carries nothing, is [None].  A
    pointer is its address. *)

From S2P Require Import Prelude MmFrame.
Local Open Scope Z_scope.

Module KernAddr.
Section KernAddr.
Context {arch : Arch}.

Definition align_down (a align : Z) : Z := Z.land a (u_not USIZE_BITS (align - 1)).
Definition align_up (a align : Z) : option Z :=
  v ← checked_add USIZE_BITS a (align - 1); Some (Z.land v (u_not USIZE_BITS (align - 1))).
Definition is_aligned (a align : Z) : bool := Z.land a (align - 1) =? 0.
Definition offset_in (a size : Z) : Z := Z.land a (size - 1).
Definition checked_add (a n : Z) : option Z := checked_add USIZE_BITS a n.
Definition checked_sub (a n : Z) : option Z := checked_sub a n.
Definition diff (a earlier : Z) : option Z := Prelude.checked_sub a earlier.

Context {arch_ok : ArchOk}.

Lemma align_up_Some a k s :
  in_u USIZE_BITS a → 0 ≤ k → align_up a (2 ^ k) = Some s → a ≤ s < a + 2 ^ k ∧ (2 ^ k | s) ∧ s ≤ u_max USIZE_BITS.
Proof.
  intros Ha Hk. unfold align_up. destruct (Prelude.checked_add _ _ _) as [v|] eqn:E; [|done]. apply checked_add_Some in E as [-> Hv]. cbn [mbind option_bind]. intros [= <-].
  pose proof usize_width. pose proof (Z.pow_pos_nonneg 2 k ltac:(lia) Hk). destruct Ha as [Ha0 Ha1].
  rewrite land_u_not by (lia || (split; lia)). replace (2 ^ k - 1) with (Z.ones k) by (rewrite Z.ones_equiv; lia). rewrite ldiff_ones_round by done.
  replace (Z.ones k) with (2 ^ k - 1) by (rewrite Z.ones_equiv; lia). replace (Z.ones k) with (2 ^ k - 1) in Hv by (rewrite Z.ones_equiv; lia).
  pose proof (Z.div_mod (a + (2 ^ k - 1)) (2 ^ k) ltac:(lia)) as Hd. pose proof (Z.mod_pos_bound (a + (2 ^ k - 1)) (2 ^ k) ltac:(lia)). split; [lia|]. split; [by exists ((a + (2 ^ k - 1)) / 2 ^ k)|lia].
Qed.

(** The least address not below [a] that is a multiple of the alignment. *)
Lemma align_up_fits a k n :
  in_u USIZE_BITS a → 0 ≤ k → (2 ^ k | n) → a ≤ n → a + 2 ^ k - 1 ≤ u_max USIZE_BITS → ∃ s, align_up a (2 ^ k) = Some s ∧ s ≤ n.
Proof.
  intros Ha Hk [q ->] Hle Hu. pose proof (Z.pow_pos_nonneg 2 k ltac:(lia) Hk). destruct (align_up a (2 ^ k)) as [s|] eqn:E.
  - exists s. split; [done|]. apply align_up_Some in E as (Hs & [p ->] & _); [|done..]. destruct (decide (p ≤ q)) as [|Hn]; [by apply Z.mul_le_mono_nonneg_r; lia|]. nia.
  - unfold align_up in E. destruct (Prelude.checked_add _ _ _) as [v|] eqn:E'; [done|]. apply checked_add_None in E'. lia.
Qed.

End KernAddr.
End KernAddr.

(** [narrow] where the number is of bytes. *)
Definition narrow_bytes {arch : Arch} (v : Z) : result Z AllocError := if v <=? u_max USIZE_BITS then Ok v else Err Overflow.

Module DirectMap.
Section DirectMap.
Context {arch : Arch}.

Record t := { phys_base : Z; virt_base : Z; len : Z }.

Definition new (pb vb n : Z) : result t AllocError :=
  if n =? 0 then Err EmptyRequest
  else
    let? last := ok_or (checked_sub n 1) Overflow in
    let? _ := ok_or (checked_add 64 pb last) Overflow in
    let? off := narrow_bytes last in
    let? _ := ok_or (KernAddr.checked_add vb off) Overflow in
    Ok {| phys_base := pb; virt_base := vb; len := n |}.
Definition identity (n : Z) : result t AllocError := new 0 0 n.
Definition with_offset (offset n : Z) : result t AllocError := new 0 offset n.

Definition covers_phys (m : t) (phys : Z) : bool :=
  match PhysAddr.diff phys (phys_base m) with Some off => off <? len m | None => false end.
Definition covers_virt (m : t) (virt : Z) : bool :=
  match KernAddr.diff virt (virt_base m) with Some off => off <? len m | None => false end.

Definition to_virt (m : t) (phys : Z) : result Z AllocError :=
  let? off := ok_or (PhysAddr.diff phys (phys_base m)) Unmanaged in
  if len m <=? off then Err Unmanaged
  else let? n := narrow_bytes off in ok_or (KernAddr.checked_add (virt_base m) n) Overflow.
Definition to_phys (m : t) (virt : Z) : result Z AllocError :=
  let? off := ok_or (KernAddr.diff virt (virt_base m)) Unmanaged in
  if len m <=? off then Err Unmanaged
  else ok_or (checked_add 64 (phys_base m) off) Overflow.
(** [NonNull::new] refuses address zero. *)
Definition ptr_at (m : t) (virt : Z) : result Z AllocError :=
  if negb (covers_virt m virt) then Err Unmanaged else if virt =? 0 then Err Unmanaged else Ok virt.
Definition ptr_to_phys (m : t) (phys : Z) : result Z AllocError := let? v := to_virt m phys in ptr_at m v.

(** What [new] leaves: a window that leaves neither address space. *)
Definition wf (m : t) : Prop :=
  0 < len m ∧ 0 ≤ phys_base m ∧ 0 ≤ virt_base m ∧ phys_base m + len m - 1 ≤ u_max 64 ∧ virt_base m + len m - 1 ≤ u_max USIZE_BITS.

(** The virtual address of a physical one, where it is in the window. *)
Definition shift (m : t) (phys : Z) : Z := virt_base m + (phys - phys_base m).
Definition covers (m : t) (phys n : Z) : Prop := phys_base m ≤ phys ∧ phys + n ≤ phys_base m + len m.

Lemma window_wf pb vb n m : in_u 64 pb → in_u USIZE_BITS vb → in_u 64 n → new pb vb n = Ok m → wf m ∧ m = {| phys_base := pb; virt_base := vb; len := n |}.
Proof.
  intros [Hp _] [Hv _] [Hn _]. unfold new. destruct (Z.eqb_spec n 0); [done|]. unfold checked_sub, checked_add, KernAddr.checked_add, checked_add, narrow_bytes.
  repeat (case_match; try done; simplify_eq/=); breflect. intros. simplify_eq. split; [|done]. unfold wf; cbn. lia.
Qed.

Lemma to_virt_Ok m p v : wf m → to_virt m p = Ok v ↔ v = shift m p ∧ phys_base m ≤ p < phys_base m + len m.
Proof.
  intros (H1 & H2 & H3 & H4 & H5). unfold to_virt, PhysAddr.diff, checked_sub, shift, KernAddr.checked_add, checked_add, narrow_bytes.
  repeat (case_match; simplify_eq/=); breflect; split; try (intros [= <-]); try (intros [-> ?]); try done; lia.
Qed.

Lemma to_phys_Ok m v p : wf m → to_phys m v = Ok p ↔ v = shift m p ∧ phys_base m ≤ p < phys_base m + len m.
Proof.
  intros (H1 & H2 & H3 & H4 & H5). unfold to_phys, KernAddr.diff, checked_sub, shift, checked_add.
  repeat (case_match; simplify_eq/=); breflect; split; try (intros [= <-]); try (intros [-> ?]); try done; try lia. f_equal. lia.
Qed.

Lemma covers_virt_true m v : wf m → covers_virt m v = true ↔ virt_base m ≤ v < virt_base m + len m.
Proof.
  intros (H1 & H2 & H3 & H4 & H5). unfold covers_virt, KernAddr.diff, checked_sub. repeat (case_match; simplify_eq/=); breflect; split; intros; breflect; try done; lia.
Qed.

Lemma ptr_at_Ok m v p : wf m → ptr_at m v = Ok p ↔ p = v ∧ v ≠ 0 ∧ virt_base m ≤ v < virt_base m + len m.
Proof.
  intros Hw. unfold ptr_at. pose proof (covers_virt_true m v Hw) as Hc. destruct (covers_virt m v); cbn [negb].
  - destruct (Z.eqb_spec v 0); split; try done; [by intros (_ & ? & _)|intros [= <-]; split_and!; try done; by apply Hc|by intros (-> & _)].
  - split; [done|]. intros (_ & _ & H). by apply Hc in H.
Qed.

Lemma ptr_at_Err m v e : ptr_at m v = Err e → e = Unmanaged.
Proof. unfold ptr_at. repeat case_match; congruence. Qed.

(** Physical and virtual are two names of the same bytes: the conversions are inverse. *)
Lemma virt_phys m p v : wf m → to_virt m p = Ok v ↔ to_phys m v = Ok p.
Proof. intros Hw. by rewrite to_virt_Ok, to_phys_Ok. Qed.

End DirectMap.
End DirectMap.
