(* ===== verification/KallocBuddy.v ===== *)
(** * The buddy allocator

    [kernel/kalloc/src/buddy.rs]: blocks of [2^order] pages over one run of frames, split when a
    smaller one is wanted and merged when both halves are free.  Each page has a record of nine
    bytes in a store the caller provides (two links and a tag), and each order a list of its free
    blocks; the store is modelled byte for byte.  [checked] is [CHECKED], set by the
    configuration: with it every change walks the whole structure and stops the machine at the
    first thing wrong. *)

From S2P Require Import Prelude MmFrame MmPhys.
Local Open Scope nat_scope.

Module Buddy.
Section Buddy.
Context {arch : Arch}.
Context (checked : bool).

Definition MAX_ORDER : nat := 10.
Definition ORDERS : nat := MAX_ORDER + 1.
Definition STORE_BYTES_PER_PAGE : nat := 9.
Definition NIL : Z := u_max 32.
Definition TAG_FREE : Z := 0x40.
Definition TAG_USED : Z := 0x80.
Definition TAG_ORDER : Z := 0x1F.

Inductive Invariant : Type :=
| ListCycles (order : nat)
| LinkOutOfRange (order : nat)
| BackLinkWrong (order : nat)
| ListedBlockNotFree (order : nat)
| BlockMisaligned (page : nat)
| NotCoalesced (page : nat)
| TagOutOfPlace (page : nat)
| BlockCountWrong (order : nat)
| FreeCountWrong.

Record t := {
  store : list Z;
  run : FrameRange.t;
  base : Frame.t;
  pages : nat;
  heads : list Z;
  free_blocks : list nat;
  free_pages : nat;
  live_blocks : nat;
  splits : Z;
  merges : Z }.

Definition set_store x b : t := {| store := x; run := run b; base := base b; pages := pages b; heads := heads b; free_blocks := free_blocks b; free_pages := free_pages b; live_blocks := live_blocks b; splits := splits b; merges := merges b |}.
Definition set_heads x b : t := {| store := store b; run := run b; base := base b; pages := pages b; heads := x; free_blocks := free_blocks b; free_pages := free_pages b; live_blocks := live_blocks b; splits := splits b; merges := merges b |}.
Definition set_free x n b : t := {| store := store b; run := run b; base := base b; pages := pages b; heads := heads b; free_blocks := x; free_pages := n; live_blocks := live_blocks b; splits := splits b; merges := merges b |}.
Definition set_live x b : t := {| store := store b; run := run b; base := base b; pages := pages b; heads := heads b; free_blocks := free_blocks b; free_pages := free_pages b; live_blocks := x; splits := splits b; merges := merges b |}.
Definition set_splits x b : t := {| store := store b; run := run b; base := base b; pages := pages b; heads := heads b; free_blocks := free_blocks b; free_pages := free_pages b; live_blocks := live_blocks b; splits := x; merges := merges b |}.
Definition set_merges x b : t := {| store := store b; run := run b; base := base b; pages := pages b; heads := heads b; free_blocks := free_blocks b; free_pages := free_pages b; live_blocks := live_blocks b; splits := splits b; merges := x |}.

Record BuddyStats := {
  s_pages : nat; s_free_pages : nat; s_free_blocks : list nat; s_live_blocks : nat; s_page_size : Z; s_splits : Z; s_merges : Z }.

Definition largest_free_order (s : BuddyStats) : option nat :=
  List.find (λ o, match s_free_blocks s !! o with Some n => 0 <? n | None => false end) (rev (seq 0 ORDERS)).

(** ** Sizes *)

Definition uadd := FrameAllocator.uadd.
Definition umul := FrameAllocator.umul.
Definition usat_add := FrameAllocator.usat_add.

Definition store_bytes (pages : nat) : result nat AllocError :=
  if (NIL <=? widen pages)%Z then Err Overflow else ok_or (umul pages STORE_BYTES_PER_PAGE) Overflow.

(** [checked_next_power_of_two] and [trailing_zeros] of the answer. *)
Definition order_for (n : nat) : option nat :=
  let order := Nat.log2_up (n `max` 1) in
  if (u_max USIZE_BITS <? 2 ^ Z.of_nat order)%Z then None
  else if order <=? MAX_ORDER then Some order else None.

Definition block_pages (order : nat) : nat := 2 ^ order.
Definition is_power_of_two (n : nat) : bool := negb (n =? 0) && (n =? 2 ^ Nat.log2 n).

(** [u8::try_from(order).map_or(TAG_ORDER, |o| o & TAG_ORDER)] *)
Definition order_bits (order : nat) : Z :=
  if (Z.of_nat order <=? u_max 8)%Z then Z.land (Z.of_nat order) TAG_ORDER else TAG_ORDER.
Definition to_link (page : nat) : Z := if (Z.of_nat page <=? u_max 32)%Z then Z.of_nat page else NIL.
Definition to_index (link : Z) : nat := if (link <=? u_max USIZE_BITS)%Z then Z.to_nat link else Z.to_nat (u_max USIZE_BITS).

(** ** The records *)

(** [u32::to_le_bytes] and [u32::from_le_bytes]. *)
Definition to_le4 (v : Z) : list Z := [v mod 256; v / 256 mod 256; v / 65536 mod 256; v / 16777216 mod 256]%Z.
Definition from_le4 (l : list Z) : Z := foldr (λ x acc, x + 256 * acc)%Z 0%Z l.

(** Where a field of a page's record starts, if the store has it all. *)
Definition field (b : t) (page offset len : nat) : option nat :=
  a ← umul page STORE_BYTES_PER_PAGE;
  a ← uadd a offset;
  e ← uadd a len;
  if e <=? length (store b) then Some a else None.

Definition read_u32 (b : t) (page offset : nat) : Z :=
  match field b page offset 4 with Some a => from_le4 (take 4 (drop a (store b))) | None => NIL end.
Definition write_u32 (b : t) (page offset : nat) (v : Z) : t :=
  match field b page offset 4 with Some a => set_store (list_inserts a (to_le4 v) (store b)) b | None => b end.

Definition next (b : t) (page : nat) : Z := read_u32 b page 0.
Definition prev (b : t) (page : nat) : Z := read_u32 b page 4.
Definition set_next (b : t) (page : nat) (v : Z) : t := write_u32 b page 0 v.
Definition set_prev (b : t) (page : nat) (v : Z) : t := write_u32 b page 4 v.
Definition tag (b : t) (page : nat) : Z :=
  match field b page 8 1 with Some a => default 0%Z (store b !! a) | None => 0%Z end.
Definition set_tag (b : t) (page : nat) (v : Z) : t :=
  match field b page 8 1 with Some a => set_store (<[a := v]> (store b)) b | None => b end.

Definition head (b : t) (order : nat) : Z := default NIL (heads b !! order).
Definition set_head (b : t) (order : nat) (page : Z) : t := set_heads (<[order := page]> (heads b)) b.

Definition free_tag (order : nat) : Z := Z.lor TAG_FREE (order_bits order).
Definition used_tag (order : nat) : Z := Z.lor TAG_USED (order_bits order).

(** ** The lists *)

Definition push (b : t) (page order : nat) : t :=
  let old := head b order in
  let me := to_link page in
  let b := set_next b page old in
  let b := set_prev b page NIL in
  let b := if (old =? NIL)%Z then b else set_prev b (to_index old) me in
  let b := set_head b order me in
  set_free (alter (λ n, usat_add n 1) order (free_blocks b)) (usat_add (free_pages b) (block_pages order)) b.

Definition unlink (b : t) (page order : nat) : t :=
  let nxt := next b page in
  let prv := prev b page in
  let b := if (prv =? NIL)%Z then set_head b order nxt else set_next b (to_index prv) nxt in
  let b := if (nxt =? NIL)%Z then b else set_prev b (to_index nxt) prv in
  set_free (alter (λ n, n - 1) order (free_blocks b)) (free_pages b - block_pages order) b.

(** ** The check *)

(** The walk of one list: how many blocks it has.  Each turn counts one, and more than there are
    pages is an error, so a turn more than that is enough. *)
Fixpoint check_list (fuel : nat) (b : t) (order count : nat) (prv at_ : Z) : result nat Invariant :=
  match fuel with
  | O => Err (ListCycles order)
  | S fuel =>
      if (at_ =? NIL)%Z then Ok count
      else
        let count := usat_add count 1 in
        if pages b <? count then Err (ListCycles order)
        else
          let page := to_index at_ in
          if pages b <=? page then Err (LinkOutOfRange order)
          else if negb (prev b page =? prv)%Z then Err (BackLinkWrong order)
          else if negb (tag b page =? free_tag order)%Z then Err (ListedBlockNotFree order)
          else check_list fuel b order count at_ (next b page)
  end.

(** The pages in the lists of [orders]. *)
Fixpoint check_lists (b : t) (listed : nat) (orders : list nat) : result nat Invariant :=
  match orders with
  | [] => Ok listed
  | order :: orders =>
      let? count := check_list (S (S (pages b))) b order 0 NIL (head b order) in
      if negb (bool_decide (free_blocks b !! order = Some count)) then Err (BlockCountWrong order)
      else check_lists b (Nat.iter count (λ n, usat_add n (block_pages order)) listed) orders
  end.

(** The pages in free blocks, block by block; each turn goes on by at least a page. *)
Fixpoint check_pages (fuel : nat) (b : t) (tagged page : nat) : result nat Invariant :=
  if pages b <=? page then Ok tagged
  else match fuel with
  | O => Ok tagged
  | S fuel =>
      let tg := tag b page in
      let is_free := negb (Z.land tg TAG_FREE =? 0)%Z in
      if negb is_free && (Z.land tg TAG_USED =? 0)%Z then Err (TagOutOfPlace page)
      else
        let order := Z.to_nat (Z.land tg TAG_ORDER) in
        let end_ := usat_add page (block_pages order) in
        if (MAX_ORDER <? order) || negb (page mod block_pages order =? 0) || (pages b <? end_) then Err (BlockMisaligned page)
        else match List.find (λ p, negb (tag b p =? 0)%Z) (seq (usat_add page 1) (end_ - usat_add page 1)) with
        | Some inner => Err (TagOutOfPlace inner)
        | None =>
            let buddy := Nat.lxor page (block_pages order) in
            if is_free && (order <? MAX_ORDER) && (usat_add buddy (block_pages order) <=? pages b) && (tag b buddy =? tg)%Z then Err (NotCoalesced page)
            else check_pages fuel b (if is_free then usat_add tagged (block_pages order) else tagged) end_
        end
  end.

Definition check (b : t) : result unit Invariant :=
  let? listed := check_lists b 0 (seq 0 ORDERS) in
  if negb (listed =? free_pages b) then Err FreeCountWrong
  else
    let? tagged := check_pages (pages b) b 0 0 in
    if negb (tagged =? free_pages b) then Err FreeCountWrong else Ok tt.

(** [None] is the panic. *)
Definition verify (b : t) : option unit :=
  if negb checked then Some tt else match check b with Ok _ => Some tt | Err _ => None end.

(** ** Operations *)

Fixpoint order_at (order page pages : nat) : nat :=
  match order with
  | O => 0
  | S less => if negb (page mod block_pages order =? 0) || (pages <? usat_add page (block_pages order)) then order_at less page pages else order
  end.

(** The run carved into the largest blocks that fit; each turn goes on by at least a page. *)
Fixpoint carve (fuel : nat) (b : t) (page : nat) : t :=
  if pages b <=? page then b
  else match fuel with
  | O => b
  | S fuel =>
      let order := order_at MAX_ORDER page (pages b) in
      let b := set_tag b page (free_tag order) in
      let b := push b page order in
      carve fuel b (usat_add page (block_pages order))
  end.

Definition new (r : FrameRange.t) (st : list Z) : option (result t AllocError) :=
  let n := FrameRange.count r in
  match store_bytes n with
  | Err e => Some (Err e)
  | Ok needed =>
      if length st <? needed then Some (Err (StorageTooSmall (widen needed)))
      else
        let b := {| store := replicate (length st) 0%Z; run := r; base := FrameRange.start r; pages := n; heads := replicate ORDERS NIL;
                    free_blocks := replicate ORDERS 0; free_pages := 0; live_blocks := 0; splits := 0; merges := 0 |} in
        let b := carve n b 0 in
        _ ← verify b; Some (Ok b)
  end.

Definition into_parts (b : t) : FrameRange.t * list Z := (run b, store b).

Definition index_of (b : t) (f : Frame.t) : result nat AllocError :=
  let? off := ok_or (checked_sub (Frame.number f) (Frame.number (base b))) Unmanaged in
  match narrow off with
  | Err _ => Err Unmanaged
  | Ok page => if pages b <=? page then Err Unmanaged else Ok page
  end.

Definition frame_at (b : t) (page : nat) : result Frame.t AllocError :=
  let? n := ok_or (checked_add 64 (Frame.number (base b)) (widen page)) Overflow in Frame.from_number n.

Definition owns (b : t) (f : Frame.t) : bool := match index_of b f with Ok _ => true | Err _ => false end.

Definition stats (b : t) : BuddyStats := {|
  s_pages := pages b; s_free_pages := free_pages b; s_free_blocks := free_blocks b; s_live_blocks := live_blocks b;
  s_page_size := PAGE_SIZE; s_splits := splits b; s_merges := merges b |}.

(** The block of order [have] at [page], halved down to [order]. *)
Fixpoint split (b : t) (page have order : nat) : t :=
  match have with
  | O => b
  | S less =>
      if order <? have then
        let buddy := usat_add page (block_pages less) in
        let b := set_tag b buddy (free_tag less) in
        let b := push b buddy less in
        split (set_splits (saturating_add 64 (splits b) 1) b) page less order
      else b
  end.

Definition alloc_order (b : t) (order : nat) : option (t * result FrameRange.t AllocError) :=
  if MAX_ORDER <? order then Some (b, Err Exhausted)
  else match List.find (λ o, negb (head b o =? NIL)%Z) (seq order (ORDERS - order)) with
  | None => Some (b, Err (if block_pages order <=? free_pages b then Fragmented else Exhausted))
  | Some have =>
      let page := to_index (head b have) in
      let b := unlink b page have in
      let b := split b page have order in
      let b := set_tag b page (used_tag order) in
      let b := set_live (usat_add (live_blocks b) 1) b in
      _ ← verify b;
      Some (b, let? f := frame_at b page in FrameRange.new f (block_pages order))
  end.

Definition alloc_pages (b : t) (n : nat) : option (t * result FrameRange.t AllocError) :=
  if n =? 0 then Some (b, Err EmptyRequest)
  else match order_for n with None => Some (b, Err Exhausted) | Some order => alloc_order b order end.

(** The free block at [page] of [order], merged with its buddy while the buddy is free.  A turn
    raises the order, so as many turns as there are orders are enough. *)
Fixpoint merge (fuel : nat) (b : t) (page order : nat) : t * nat * nat :=
  match fuel with
  | O => (b, page, order)
  | S fuel =>
      if negb (order <? MAX_ORDER) then (b, page, order)
      else
        let buddy := Nat.lxor page (block_pages order) in
        let fits := match uadd buddy (block_pages order) with Some e => e <=? pages b | None => false end in
        if negb fits || negb (tag b buddy =? free_tag order)%Z then (b, page, order)
        else
          let b := unlink b buddy order in
          let b := set_tag b buddy 0 in
          let b := set_merges (saturating_add 64 (merges b) 1) b in
          merge fuel b (page `min` buddy) (order + 1)
  end.

Definition free (b : t) (r : FrameRange.t) : option (t * result unit AllocError) :=
  match index_of b (FrameRange.start r) with
  | Err e => Some (b, Err e)
  | Ok page =>
      let count := FrameRange.count r in
      if match uadd page count with Some e => pages b <? e | None => true end then Some (b, Err Unmanaged)
      else if negb (is_power_of_two count) then Some (b, Err Misaligned)
      else match order_for count with
      | None => Some (b, Err Misaligned)
      | Some order =>
          let tg := tag b page in
          if negb (Z.land tg TAG_FREE =? 0)%Z then Some (b, Err NotAllocated)
          else if (Z.land tg TAG_USED =? 0)%Z || negb (Z.to_nat (Z.land tg TAG_ORDER) =? order) then Some (b, Err Misaligned)
          else
            let b := set_tag b page 0 in
            let b := set_live (live_blocks b - 1) b in
            let '(b, page, order) := merge ORDERS b page order in
            let b := set_tag b page (free_tag order) in
            let b := push b page order in
            _ ← verify b; Some (b, Ok tt)
      end
  end.

End Buddy.
End Buddy.
