(* ===== verification/KallocBuddyInv.v ===== *)
(** * The buddy allocator keeps its structure

    The records of the store as three functions, the free lists as lists, and the blocks as a
    tiling of the run: the shape every operation keeps, and from which the allocator's own
    [check] never finds anything wrong. *)

From stdpp Require Import functions.
From S2P Require Import Prelude MmFrame MmPhys KallocBuddy.
Import Buddy.
Local Open Scope nat_scope.

Module BuddyInv.

Section Inv.
Context {arch : Arch} {arch_ok : ArchOk} (usize_32 : (32 ≤ USIZE_BITS)%Z).

(** ** Views of the records *)

Lemma le4_roundtrip v : in_u 32 v → from_le4 (to_le4 v) = v.
Proof using.
  intros [H1 H2]. unfold u_max in H2. unfold from_le4, to_le4. cbn [foldr].
  pose proof (Z.div_mod v 256). pose proof (Z.div_mod (v / 256) 256). pose proof (Z.div_mod (v / 65536) 256). pose proof (Z.div_mod (v / 16777216) 256).
  assert (v / 65536 = v / 256 / 256)%Z by (rewrite Z.div_div by lia; done). assert (v / 16777216 = v / 65536 / 256)%Z by (rewrite Z.div_div by lia; done).
  assert (v / 16777216 < 256)%Z by (apply Z.div_lt_upper_bound; lia). assert (0 ≤ v / 16777216)%Z by (apply Z.div_pos; lia).
  rewrite (Z.mod_small (v / 16777216)) by lia. lia.
Qed.

Lemma slice_inserts_ne (l k : list Z) a c n : a + length k ≤ c ∨ c + n ≤ a → take n (drop c (list_inserts a k l)) = take n (drop c l).
Proof using.
  intros H. apply list_eq. intros i. destruct (decide (i < n)); [|by rewrite !lookup_take_ge by lia].
  rewrite !lookup_take_lt by done. rewrite !lookup_drop. destruct H as [H|H]; [apply list_lookup_inserts_ge; lia|apply list_lookup_inserts_lt; lia].
Qed.

Lemma slice_inserts_eq (l k : list Z) a : a + length k ≤ length l → take (length k) (drop a (list_inserts a k l)) = k.
Proof using.
  intros H. apply list_eq. intros i. destruct (decide (i < length k)) as [Hi|Hi]; [|rewrite lookup_take_ge, lookup_ge_None_2 by lia; done].
  rewrite lookup_take_lt by done. rewrite lookup_drop. rewrite list_lookup_inserts by lia. f_equal. lia.
Qed.

(** A store with a record for every page. *)
Record sized (b : t) : Prop := {
  sz_store : 9 * pages b ≤ length (store b);
  sz_pages : (Z.of_nat (pages b) < NIL)%Z;
  sz_usize : (Z.of_nat (9 * pages b) ≤ u_max USIZE_BITS)%Z;
  sz_heads : length (heads b) = ORDERS;
  sz_counts : length (free_blocks b) = ORDERS }.

Lemma field_at b p off len : sized b → p < pages b → off + len ≤ 9 → field b p off len = Some (9 * p + off).
Proof using.
  intros [] Hp Hl. unfold field, umul, uadd, FrameAllocator.umul, FrameAllocator.uadd, STORE_BYTES_PER_PAGE.
  rewrite (proj2 (Z.leb_le _ _)) by lia. cbn [mbind option_bind]. rewrite (proj2 (Z.leb_le _ _)) by lia. cbn [mbind option_bind]. rewrite (proj2 (Z.leb_le _ _)) by lia. cbn [mbind option_bind].
  rewrite (proj2 (Nat.leb_le _ _)) by lia. f_equal. lia.
Qed.

(** What the records of the run's pages say. *)
Record view (b : t) (nx pv tg : nat → Z) : Prop := {
  vw_next : ∀ p, p < pages b → next b p = nx p;
  vw_prev : ∀ p, p < pages b → prev b p = pv p;
  vw_tag : ∀ p, p < pages b → tag b p = tg p }.

Lemma view_self b : view b (next b) (prev b) (tag b).
Proof using. done. Qed.

Lemma sized_store b s : sized b → length s = length (store b) → sized (set_store s b).
Proof using. intros [] E. split; cbn; rewrite ?E; done. Qed.

Lemma write_u32_at b p off v : sized b → p < pages b → off + 4 ≤ 9 → write_u32 b p off v = set_store (list_inserts (9 * p + off) (to_le4 v) (store b)) b ∧ sized (write_u32 b p off v).
Proof using.
  intros Hs Hp Ho. unfold write_u32. rewrite field_at by done. split; [done|]. apply sized_store; [done|apply length_inserts].
Qed.

Lemma set_tag_at b p v : sized b → p < pages b → set_tag b p v = set_store (list_inserts (9 * p + 8) [v] (store b)) b ∧ sized (set_tag b p v).
Proof using.
  intros Hs Hp. unfold set_tag. rewrite field_at by (done || lia). split; [done|]. apply sized_store; [done|apply length_insert].
Qed.

Lemma read_u32_at b p off : sized b → p < pages b → off + 4 ≤ 9 → read_u32 b p off = from_le4 (take 4 (drop (9 * p + off) (store b))).
Proof using. intros. unfold read_u32. by rewrite field_at. Qed.

Lemma tag_at b p : sized b → p < pages b → tag b p = match take 1 (drop (9 * p + 8) (store b)) with x :: _ => x | [] => 0%Z end.
Proof using.
  intros [] Hp. unfold tag. rewrite field_at by (done || lia). destruct (store b !! (9 * p + 8)) as [x|] eqn:E; [|apply lookup_ge_None in E; lia].
  by rewrite (drop_S _ _ _ E).
Qed.

(** One record field written. *)
Lemma view_write b nx pv tg p k off b' :
  sized b → view b nx pv tg → p < pages b → off + length k ≤ 9 → b' = set_store (list_inserts (9 * p + off) k (store b)) b →
  ∀ q off' n, q < pages b → off' + n ≤ 9 → q ≠ p ∨ off + length k ≤ off' ∨ off' + n ≤ off →
    take n (drop (9 * q + off') (store b')) = take n (drop (9 * q + off') (store b)).
Proof using.
  intros Hs _ Hp Hk -> q off' n Hq Hn Hd. cbn [store set_store]. apply slice_inserts_ne. lia.
Qed.

Lemma view_set_tag b nx pv tg p v : sized b → view b nx pv tg → p < pages b → sized (set_tag b p v) ∧ view (set_tag b p v) nx pv (<[p := v]> tg).
Proof using.
  intros Hs Hv Hp. destruct (set_tag_at b p v Hs Hp) as [E Hs']. split; [done|]. assert (pages (set_tag b p v) = pages b) as En by (by rewrite E).
  pose proof (view_write b nx pv tg p [v] 8 _ Hs Hv Hp ltac:(cbn; lia) E) as Hw. destruct Hv as [V1 V2 V3]. split; intros q; rewrite En; intros Hq.
  - rewrite <-V1 by done. unfold next. rewrite !read_u32_at by (done || lia). rewrite Hw by (cbn; lia). done.
  - rewrite <-V2 by done. unfold prev. rewrite !read_u32_at by (done || lia). rewrite Hw by (cbn; lia). done.
  - rewrite tag_at by (done || lia). destruct (decide (q = p)) as [->|Hne].
    + rewrite fn_lookup_insert. rewrite E. cbn [store set_store]. change 1 with (length [v]). rewrite slice_inserts_eq; [done|]. destruct Hs. cbn. lia.
    + rewrite fn_lookup_insert_ne by done. rewrite <-V3 by done. rewrite tag_at by done. rewrite Hw by (cbn; lia). done.
Qed.

Lemma view_set_next b nx pv tg p v : sized b → view b nx pv tg → p < pages b → in_u 32 v → sized (set_next b p v) ∧ view (set_next b p v) (<[p := v]> nx) pv tg.
Proof using.
  intros Hs Hv Hp Hu. destruct (write_u32_at b p 0 v Hs Hp ltac:(lia)) as [E Hs']. fold (set_next b p v) in E, Hs'. split; [done|]. assert (pages (set_next b p v) = pages b) as En by (by rewrite E).
  pose proof (view_write b nx pv tg p (to_le4 v) 0 _ Hs Hv Hp ltac:(cbn; lia) E) as Hw. destruct Hv as [V1 V2 V3]. split; intros q; rewrite En; intros Hq.
  - unfold next. rewrite read_u32_at by (done || lia). destruct (decide (q = p)) as [->|Hne].
    + rewrite fn_lookup_insert. rewrite E. cbn [store set_store]. change 4 with (length (to_le4 v)). rewrite slice_inserts_eq; [by apply le4_roundtrip|]. destruct Hs. cbn. lia.
    + rewrite fn_lookup_insert_ne by done. rewrite <-V1 by done. unfold next. rewrite read_u32_at by (done || lia). rewrite Hw by (cbn; lia). done.
  - rewrite <-V2 by done. unfold prev. rewrite !read_u32_at by (done || lia). rewrite Hw by (cbn; lia). done.
  - rewrite tag_at by (done || lia). rewrite <-V3 by done. rewrite tag_at by done. rewrite Hw by (cbn; lia). done.
Qed.

Lemma view_set_prev b nx pv tg p v : sized b → view b nx pv tg → p < pages b → in_u 32 v → sized (set_prev b p v) ∧ view (set_prev b p v) nx (<[p := v]> pv) tg.
Proof using.
  intros Hs Hv Hp Hu. destruct (write_u32_at b p 4 v Hs Hp ltac:(lia)) as [E Hs']. fold (set_prev b p v) in E, Hs'. split; [done|]. assert (pages (set_prev b p v) = pages b) as En by (by rewrite E).
  pose proof (view_write b nx pv tg p (to_le4 v) 4 _ Hs Hv Hp ltac:(cbn; lia) E) as Hw. destruct Hv as [V1 V2 V3]. split; intros q; rewrite En; intros Hq.
  - rewrite <-V1 by done. unfold next. rewrite !read_u32_at by (done || lia). rewrite Hw by (cbn; lia). done.
  - unfold prev. rewrite read_u32_at by (done || lia). destruct (decide (q = p)) as [->|Hne].
    + rewrite fn_lookup_insert. rewrite E. cbn [store set_store]. change 4 with (length (to_le4 v)) at 1. rewrite slice_inserts_eq; [by apply le4_roundtrip|]. destruct Hs. cbn. lia.
    + rewrite fn_lookup_insert_ne by done. rewrite <-V2 by done. unfold prev. rewrite read_u32_at by (done || lia). rewrite Hw by (cbn; lia). done.
  - rewrite tag_at by (done || lia). rewrite <-V3 by done. rewrite tag_at by done. rewrite Hw by (cbn; lia). done.
Qed.

(** ** Free lists *)

(** The pages of [l] linked both ways, from [at_] to [out], after [prv] and ending in [lst]. *)
Fixpoint seg (nx pv : nat → Z) (prv at_ : Z) (l : list nat) (lst out : Z) : Prop :=
  match l with
  | [] => at_ = out ∧ prv = lst
  | p :: l => at_ = Z.of_nat p ∧ pv p = prv ∧ seg nx pv (Z.of_nat p) (nx p) l lst out
  end.

Lemma seg_app nx pv l1 : ∀ prv at_ l2 lst out,
  seg nx pv prv at_ (l1 ++ l2) lst out ↔ ∃ m x, seg nx pv prv at_ l1 m x ∧ seg nx pv m x l2 lst out.
Proof using.
  induction l1 as [|p l1 IH]; intros prv at_ l2 lst out; cbn [app seg].
  - split; [intros H; exists prv, at_; by split|by intros (m & x & [<- <-] & H)].
  - split; [intros (H1 & H2 & (m & x & H3 & H4)%IH); by exists m, x|intros (m & x & (H1 & H2 & H3) & H4); split_and!; try done; apply IH; by exists m, x].
Qed.

Lemma seg_ext nx pv nx' pv' l : ∀ prv at_ lst out,
  (∀ p, p ∈ l → nx' p = nx p ∧ pv' p = pv p) → seg nx pv prv at_ l lst out → seg nx' pv' prv at_ l lst out.
Proof using.
  induction l as [|p l IH]; intros prv at_ lst out He; cbn [seg]; [done|]. intros (H1 & H2 & H3). destruct (He p ltac:(left)) as [E1 E2].
  rewrite E1, E2. split_and!; try done. apply IH; [|done]. intros q Hq. apply He. by right.
Qed.

Record lists (b : t) (nx pv : nat → Z) (FL : list (list nat)) : Prop := {
  ls_len : length FL = ORDERS;
  ls_seg : ∀ o l, FL !! o = Some l → ∃ lst, seg nx pv NIL (head b o) l lst NIL;
  ls_once : NoDup (concat FL);
  ls_in : ∀ p, p ∈ concat FL → p < pages b;
  ls_counts : free_blocks b = length <$> FL }.

Lemma concat_insert {A} (F : list (list A)) o l l' : F !! o = Some l → concat (<[o := l']> F) ≡ₚ l' ++ concat (delete o F) ∧ concat F ≡ₚ l ++ concat (delete o F).
Proof using.
  revert o. induction F as [|x F IH]; intros [|o] E; cbn in *; simplify_eq; [done|]. destruct (IH o E) as [E1 E2]. rewrite E1, E2. split; solve_Permutation.
Qed.

Lemma concat_once {A} (F : list (list A)) i j a c x : NoDup (concat F) → F !! i = Some a → F !! j = Some c → x ∈ a → x ∈ c → i = j.
Proof using.
  intros Hn Hi Hj Ha Hc. destruct (decide (i = j)) as [|Hne]; [done|exfalso]. destruct (concat_insert F i a a Hi) as [_ E]. rewrite E in Hn. apply NoDup_app in Hn as (_ & Hd & _).
  apply (Hd x Ha). apply list_elem_of_In, in_concat. exists c. split; [|by apply list_elem_of_In]. apply list_elem_of_In.
  destruct (decide (j < i)); [apply (list_elem_of_lookup_2 _ j); by rewrite list_lookup_delete_lt|].
  apply (list_elem_of_lookup_2 _ (j - 1)). rewrite list_lookup_delete_ge by lia. by replace (S (j - 1)) with j by lia.
Qed.

Lemma elem_concat {A} (F : list (list A)) o l x : F !! o = Some l → x ∈ l → x ∈ concat F.
Proof using. intros E Hx. destruct (concat_insert F o l l E) as [_ ->]. apply elem_of_app. by left. Qed.

Lemma link_index b p : sized b → p < pages b → to_link p = Z.of_nat p ∧ to_index (Z.of_nat p) = p ∧ Z.of_nat p ≠ NIL ∧ in_u 32 (Z.of_nat p).
Proof using usize_32.
  intros [] Hp. unfold NIL, u_max in *. assert (2 ^ 32 ≤ 2 ^ USIZE_BITS)%Z by (apply Z.pow_le_mono_r; lia). unfold to_link, to_index, in_u, u_max.
  rewrite (proj2 (Z.leb_le _ _)) by lia. rewrite (proj2 (Z.leb_le _ _)) by lia. rewrite Nat2Z.id. split_and!; lia.
Qed.

Lemma usat_add_small a c n : (Z.of_nat n < NIL)%Z → a + c ≤ n → usat_add a c = a + c.
Proof using usize_32.
  intros Hn H. unfold usat_add, FrameAllocator.usat_add. rewrite (proj2 (Z.leb_le _ _)); [done|]. unfold NIL, u_max in *.
  assert (2 ^ 32 ≤ 2 ^ USIZE_BITS)%Z by (apply Z.pow_le_mono_r; lia). lia.
Qed.

Lemma NIL_u32 : in_u 32 NIL.
Proof using. unfold in_u, NIL, u_max. lia. Qed.

Lemma sized_heads b h f n : sized b → length h = ORDERS → length f = ORDERS → sized (set_free f n (set_heads h b)).
Proof using. intros []. by split. Qed.

(** What an operation on the lists leaves alone. *)
Record same (b b' : t) : Prop := {
  sm_pages : pages b' = pages b;
  sm_run : run b' = run b;
  sm_base : base b' = base b;
  sm_live : live_blocks b' = live_blocks b }.

Lemma buddy_same_trans b b1 b2 : same b b1 → same b1 b2 → same b b2.
Proof using. intros [] []. split; congruence. Qed.

Lemma same_write b p off v : same b (write_u32 b p off v).
Proof using. unfold write_u32. by destruct (field b p off 4). Qed.

Lemma same_tag b p v : same b (set_tag b p v).
Proof using. unfold set_tag. by destruct (field b p 8 1). Qed.

Lemma write_frame b p off v : heads (write_u32 b p off v) = heads b ∧ free_blocks (write_u32 b p off v) = free_blocks b ∧ free_pages (write_u32 b p off v) = free_pages b.
Proof using. unfold write_u32. by destruct (field b p off 4). Qed.

Lemma length_le_pages (l : list nat) n : NoDup l → (∀ p, p ∈ l → p < n) → length l ≤ n.
Proof using.
  intros Hn Hl. rewrite <-(length_seq n 0). apply submseteq_length, NoDup_submseteq; [done|]. intros p Hp. apply elem_of_seq. specialize (Hl p Hp). lia.
Qed.

Lemma lists_bound b nx pv FL o l : lists b nx pv FL → FL !! o = Some l → length l ≤ pages b.
Proof using.
  intros [] E. apply length_le_pages.
  - destruct (concat_insert FL o l l E) as [_ H]. rewrite H in ls_once0. by apply NoDup_app in ls_once0 as [? _].
  - intros p Hp. apply ls_in0. by eapply elem_concat.
Qed.

Lemma push_ok b nx pv tg FL o l p :
  sized b → view b nx pv tg → lists b nx pv FL → FL !! o = Some l → p < pages b → p ∉ concat FL → free_pages b + 2 ^ o ≤ pages b →
  ∃ nx' pv', sized (push b p o) ∧ view (push b p o) nx' pv' tg ∧ lists (push b p o) nx' pv' (<[o := p :: l]> FL) ∧
    free_pages (push b p o) = free_pages b + 2 ^ o ∧ same b (push b p o).
Proof using usize_32.
  intros Hs Hv Hls Ho Hp Hnew Hfit. pose proof Hls as [L1 L2 L3 L4 L5]. unfold push. cbv zeta. destruct (link_index b p Hs Hp) as (-> & _ & Hpn & Hpu).
  assert (o < ORDERS) as Hoo by (rewrite <-L1; by eapply lookup_lt_Some). destruct (L2 o l Ho) as [lst Hseg].
  assert (in_u 32 (head b o)) as Hhu.
  { destruct l as [|q l]; cbn in Hseg; [destruct Hseg as [-> _]; apply NIL_u32|]. destruct Hseg as (-> & _). apply (link_index b q Hs), L4. by eapply elem_concat; [done|left]. }
  destruct (view_set_next b nx pv tg p (head b o) Hs Hv Hp Hhu) as [Hs1 Hv1]. pose proof (same_write b p 0 (head b o)) as S1. pose proof (write_frame b p 0 (head b o)) as (F1 & F2 & F3).
  fold (set_next b p (head b o)) in S1, F1, F2, F3. set (b1 := set_next b p (head b o)) in *. assert (p < pages b1) as Hp1 by (by rewrite (sm_pages _ _ S1)).
  destruct (view_set_prev b1 _ _ _ p NIL Hs1 Hv1 Hp1 NIL_u32) as [Hs2 Hv2]. pose proof (same_write b1 p 4 NIL) as S2. pose proof (write_frame b1 p 4 NIL) as (G1 & G2 & G3).
  fold (set_prev b1 p NIL) in S2, G1, G2, G3. set (b2 := set_prev b1 p NIL) in *.
  assert (∃ pv3, let b3 := if (head b o =? NIL)%Z then b2 else set_prev b2 (to_index (head b o)) (Z.of_nat p) in
    sized b3 ∧ view b3 (<[p := head b o]> nx) pv3 tg ∧ same b b3 ∧ heads b3 = heads b ∧ free_blocks b3 = free_blocks b ∧ free_pages b3 = free_pages b ∧
    pv3 p = NIL ∧ (∀ q, q ∈ l → head b o = Z.of_nat q → pv3 q = Z.of_nat p) ∧ (∀ q, q ≠ p → head b o ≠ Z.of_nat q → pv3 q = pv q)) as (pv3 & Hs3 & Hv3 & S3 & E1 & E2 & E3 & P1 & P2 & P3).
  { pose proof (buddy_same_trans _ _ _ S1 S2) as S12. destruct (Z.eqb_spec (head b o) NIL) as [E|E].
    - exists (<[p := NIL]> pv). cbv zeta. split_and!; try done; try congruence; [by rewrite fn_lookup_insert|intros q Hq Eq|intros q Hq _; by rewrite fn_lookup_insert_ne].
      exfalso. destruct (link_index b q Hs) as (_ & _ & ? & _); [|congruence]. apply L4. by eapply elem_concat.
    - destruct l as [|q l]; cbn in Hseg; [by destruct Hseg|]. destruct Hseg as (Eh & _). assert (q ∈ concat FL) as Hqc by (eapply elem_concat; [exact Ho|left]). assert (q < pages b) as Hq by (by apply L4).
      assert (q ≠ p) as Hqp by (intros ->; done). rewrite Eh. destruct (link_index b q Hs Hq) as (_ & -> & _ & _).
      assert (q < pages b2) as Hq2 by (rewrite (sm_pages _ _ S2), (sm_pages _ _ S1); done).
      destruct (view_set_prev b2 _ _ _ q (Z.of_nat p) Hs2 Hv2 Hq2 Hpu) as [Hs3 Hv3]. pose proof (same_write b2 q 4 (Z.of_nat p)) as S3. pose proof (write_frame b2 q 4 (Z.of_nat p)) as (I1 & I2 & I3).
      fold (set_prev b2 q (Z.of_nat p)) in S3, I1, I2, I3. eexists. cbv zeta. split; [exact Hs3|]. split; [rewrite <-Eh; exact Hv3|].
      split_and!; [by eapply buddy_same_trans|congruence..| | |].
      + rewrite fn_lookup_insert_ne by done. by rewrite fn_lookup_insert.
      + intros q' _ Eq'. assert (q' = q) as -> by lia. by rewrite fn_lookup_insert.
      + intros q' Hq' Eq'. rewrite !fn_lookup_insert_ne by congruence. done. }
  set (b3 := if (head b o =? NIL)%Z then b2 else _) in *. clearbody b3. clear Hv1 Hv2 Hs1 Hs2 S1 S2 F1 F2 F3 G1 G2 G3 b1 b2 Hp1.
  set (b4 := set_free _ _ (set_head b3 o (Z.of_nat p))).
  assert (head b4 o = Z.of_nat p ∧ ∀ o', o' ≠ o → head b4 o' = head b o') as [Eho Ehn].
  { unfold head, b4, set_head. cbn. rewrite E1. split; [by rewrite list_lookup_insert_eq by (rewrite (sz_heads _ Hs); done)|]. intros o' Hne. by rewrite list_lookup_insert_ne. }
  exists (<[p := head b o]> nx), pv3. split; [|split; [|split; [|split]]].
  - apply sized_heads; [done|rewrite length_insert; apply Hs3|by rewrite length_alter; apply Hs3].
  - destruct Hv3. by split.
  - destruct (concat_insert FL o l (p :: l) Ho) as [C1 C2]. split.
    + by rewrite length_insert.
    + intros o' l' Ho'. destruct (decide (o' = o)) as [->|Hne].
      * rewrite list_lookup_insert_eq in Ho' by (rewrite L1; done). injection Ho' as <-. exists (if l is [] then Z.of_nat p else lst). cbn [seg]. rewrite Eho. split; [done|]. split; [done|]. rewrite fn_lookup_insert.
        destruct l as [|q l]; cbn [seg] in Hseg |- *; [destruct Hseg; done|]. destruct Hseg as (Eh & Hpq & Hrest). rewrite Eh. split; [done|]. split; [apply P2; [left|done]|].
        assert (q ≠ p) as Hqp by (intros ->; apply Hnew; eapply elem_concat; [exact Ho|left]). rewrite fn_lookup_insert_ne by done.
        eapply seg_ext; [|exact Hrest]. intros x Hx. assert (x ≠ p) as Hxp by (intros ->; apply Hnew; eapply elem_concat; [exact Ho|by right]).
        assert (x ≠ q) as Hxq. { intros ->. rewrite C2 in L3. apply NoDup_app in L3 as [H3 _]. by apply NoDup_cons in H3 as [? _]. }
        rewrite fn_lookup_insert_ne by done. split; [done|]. apply P3; [done|]. rewrite Eh. lia.
      * rewrite list_lookup_insert_ne in Ho' by done. destruct (L2 o' l' Ho') as [lst' Hseg']. exists lst'.
        rewrite Ehn by done.
        eapply seg_ext; [|exact Hseg']. intros x Hx. assert (x ∈ concat FL) as Hxc by (by eapply elem_concat). assert (x ≠ p) by (intros ->; done). rewrite fn_lookup_insert_ne by done. split; [done|].
        apply P3; [done|]. intros Eh. destruct l as [|q l]; cbn in Hseg; [destruct Hseg as [Hn _]; destruct (link_index b x Hs (L4 x Hxc)); rewrite Hn in Eh; naive_solver|].
        destruct Hseg as (Eq & _). assert (x = q) as -> by lia. apply Hne. eapply concat_once; [exact L3|exact Ho'|exact Ho|exact Hx|left].
    + rewrite C1. rewrite C2 in Hnew, L3. cbn [app]. constructor; [done|done].
    + intros x. rewrite C1. cbn [app]. change (pages b4) with (pages b3). rewrite (sm_pages _ _ S3). intros [->|Hx]%elem_of_cons; [done|]. apply L4. by rewrite C2.
    + unfold b4, set_head. cbn [set_free set_heads free_blocks]. rewrite E2, L5, list_fmap_insert.
      assert ((length <$> FL) !! o = Some (length l)) as El by (by rewrite list_lookup_fmap, Ho). rewrite (alter_insert _ _ _ _ El). f_equal.
      pose proof (lists_bound _ _ _ _ _ _ Hls Ho) as Hb. cbn [length].
      assert (length (p :: l) ≤ pages b) as Hb'.
      { apply length_le_pages; [|intros x [->|Hx]%elem_of_cons; [done|apply L4; by eapply elem_concat]]. constructor; [intros Hx; apply Hnew; by eapply elem_concat|].
        rewrite C2 in L3. by apply NoDup_app in L3 as [? _]. }
      cbn in Hb'. rewrite (usat_add_small _ _ (pages b)); [lia|apply Hs|lia].
  - unfold b4, set_head. cbn [set_free set_heads free_pages]. rewrite E3. unfold block_pages. apply (usat_add_small _ _ (pages b)); [apply Hs|done].
  - destruct S3. by split.
Qed.

Definition link (o : option nat) : Z := match o with Some p => Z.of_nat p | None => NIL end.
Definition put_at (o : option nat) (v : Z) (f : nat → Z) : nat → Z := match o with Some p => <[p := v]> f | None => f end.

Lemma seg_ends nx pv l : ∀ prv at_ lst, seg nx pv prv at_ l lst NIL → at_ = link (hd_error l) ∧ lst = match last l with Some y => Z.of_nat y | None => prv end.
Proof using.
  induction l as [|p l IH]; intros prv at_ lst; cbn [seg]; [by intros [-> ->]|]. intros (-> & _ & H). destruct (IH _ _ _ H) as [_ ->]. split; [done|].
  rewrite last_cons. by destruct (last l).
Qed.

Lemma seg_last nx pv l : ∀ prv at_ lst out, seg nx pv prv at_ l lst out → lst = match last l with Some y => Z.of_nat y | None => prv end.
Proof using.
  induction l as [|p l IH]; intros prv at_ lst out; cbn [seg]; [by intros [_ ->]|]. intros (_ & _ & H). rewrite (IH _ _ _ _ H). rewrite last_cons. by destruct (last l).
Qed.

(** The list without its first page's predecessor link: put after [prv]. *)
Lemma seg_relink nx pv l prv prv' at_ lst :
  seg nx pv prv at_ l lst NIL → NoDup l → ∃ lst', seg nx (put_at (hd_error l) prv' pv) prv' at_ l lst' NIL.
Proof using.
  destruct l as [|q l]; cbn [seg hd_error put_at]; [intros [-> _] _; by eexists|]. intros (-> & _ & H) Hn. apply NoDup_cons in Hn as [Hq _].
  exists lst. split; [done|]. split; [by rewrite fn_lookup_insert|]. eapply seg_ext; [|exact H]. intros x Hx. split; [done|]. rewrite fn_lookup_insert_ne; [done|]. by intros ->.
Qed.

(** A page taken out of a list. *)
Lemma seg_remove nx pv l1 p l2 h lst :
  seg nx pv NIL h (l1 ++ p :: l2) lst NIL → NoDup (l1 ++ p :: l2) →
  pv p = link (last l1) ∧ nx p = link (hd_error l2) ∧
  ∃ lst', seg (put_at (last l1) (nx p) nx) (put_at (hd_error l2) (pv p) pv) NIL (match l1 with [] => nx p | _ => h end) (l1 ++ l2) lst' NIL.
Proof using.
  intros (m & x & H1 & H2)%seg_app Hn. cbn [seg] in H2. destruct H2 as (-> & Hm & H2). pose proof (seg_last _ _ _ _ _ _ _ H1) as El. destruct (seg_ends _ _ _ _ _ _ H2) as [Enx _].
  assert (m = link (last l1)) as Em by (by destruct (last l1)). split; [congruence|]. split; [done|]. rewrite Hm.
  apply NoDup_app in Hn as (Hn1 & Hd & Hn2). apply NoDup_cons in Hn2 as [Hp2 Hn2]. destruct (seg_relink _ _ _ _ m _ _ H2 Hn2) as [lst' H3].
  assert (∀ y, y ∈ l1 → y ∉ l2) as Hd' by (intros y Hy Hy2; apply (Hd y Hy); by right).
  assert (∀ y, y ∈ l1 → put_at (hd_error l2) m pv y = pv y) as Hpv.
  { intros y Hy. destruct l2 as [|q l2]; [done|]. cbn. rewrite fn_lookup_insert_ne; [done|]. intros ->. by apply (Hd' y Hy); left. }
  destruct l1 as [|a l1 _] using rev_ind.
  - cbn [last put_at app]. exists lst'. rewrite Em in H3 |- *. done.
  - clear El. rewrite last_snoc in *. cbn [put_at link] in *. exists lst'. rewrite <-(assoc_L (++)). cbn [app].
    replace (match l1 ++ [a] with [] => nx p | _ => h end) with h by (by destruct l1). apply seg_app in H1 as (m1 & x1 & H1 & H4). apply seg_app. exists m1, x1.
    assert (a ∉ l1) as Ha by (apply NoDup_app in Hn1 as (_ & Hx & _); intros Hi; apply (Hx a Hi); left). split.
    + eapply seg_ext; [|exact H1]. intros y Hy. rewrite fn_lookup_insert_ne by (by intros ->). split; [done|]. apply Hpv, elem_of_app. by left.
    + cbn [seg] in H4 |- *. destruct H4 as (-> & Ha1 & _ & _). split; [done|]. split; [rewrite Hpv; [done|apply elem_of_app; right; left]|]. rewrite fn_lookup_insert.
      rewrite <-Em. eapply seg_ext; [|exact H3]. intros y Hy. split; [|done]. rewrite fn_lookup_insert_ne; [done|]. intros ->. apply (Hd' y); [apply elem_of_app; right; left|done].
Qed.

Lemma unlink_ok b nx pv tg FL o l1 l2 p :
  sized b → view b nx pv tg → lists b nx pv FL → FL !! o = Some (l1 ++ p :: l2) →
  ∃ nx' pv', sized (unlink b p o) ∧ view (unlink b p o) nx' pv' tg ∧ lists (unlink b p o) nx' pv' (<[o := l1 ++ l2]> FL) ∧
    free_pages (unlink b p o) = free_pages b - 2 ^ o ∧ same b (unlink b p o).
Proof using usize_32.
  intros Hs Hv Hls Ho. pose proof Hls as [L1 L2 L3 L4 L5]. assert (o < ORDERS) as Hoo by (rewrite <-L1; by eapply lookup_lt_Some). destruct (L2 o _ Ho) as [lst Hseg].
  destruct (concat_insert FL o _ (l1 ++ l2) Ho) as [C1 C2]. assert (NoDup (l1 ++ p :: l2)) as Hnd by (rewrite C2 in L3; by apply NoDup_app in L3 as [? _]).
  destruct (seg_remove _ _ _ _ _ _ _ Hseg Hnd) as (Epv & Enx & lst' & Hseg').
  assert (∀ q, q ∈ l1 ++ p :: l2 → q < pages b) as Hin by (intros q Hq; apply L4; by eapply elem_concat).
  assert (p < pages b) as Hp by (apply Hin, elem_of_app; right; left).
  assert (∀ y, last l1 = Some y → y < pages b) as Hy by (intros y Hy; apply Hin, elem_of_app; left; apply last_Some in Hy as [l' ->]; apply elem_of_app; right; left).
  assert (∀ q, hd_error l2 = Some q → q < pages b) as Hq by (intros q Hq; apply Hin; destruct l2; [done|]; injection Hq as ->; apply elem_of_app; right; right; left).
  assert (in_u 32 (nx p) ∧ in_u 32 (pv p)) as [Hnu Hpu].
  { rewrite Enx, Epv. split; [destruct (hd_error l2) eqn:E; [by apply (link_index b n Hs), Hq|apply NIL_u32]|destruct (last l1) eqn:E; [by apply (link_index b n Hs), Hy|apply NIL_u32]]. }
  unfold unlink. cbv zeta. rewrite (vw_next _ _ _ _ Hv p Hp), (vw_prev _ _ _ _ Hv p Hp).
  assert (∃ b1, (if (pv p =? NIL)%Z then set_head b o (nx p) else set_next b (to_index (pv p)) (nx p)) = b1 ∧ sized b1 ∧ view b1 (put_at (last l1) (nx p) nx) pv tg ∧ same b b1 ∧
    free_blocks b1 = free_blocks b ∧ free_pages b1 = free_pages b ∧ head b1 o = (match l1 with [] => nx p | _ => head b o end) ∧ ∀ o', o' ≠ o → head b1 o' = head b o') as (b1 & -> & Hs1 & Hv1 & S1 & F1 & F2 & Eh & Ehn).
  { eexists. split; [done|]. rewrite Epv. destruct (last l1) as [y|] eqn:Ey; cbn [link put_at].
    - destruct (link_index b y Hs (Hy y eq_refl)) as (_ & Ei & Hn & _). rewrite (proj2 (Z.eqb_neq _ _)) by done. rewrite Ei.
      destruct (view_set_next b nx pv tg y (nx p) Hs Hv (Hy y eq_refl) Hnu) as [Hs1 Hv1]. pose proof (write_frame b y 0 (nx p)) as (G1 & G2 & G3). fold (set_next b y (nx p)) in G1, G2, G3.
      split_and!; [done|done|apply same_write|done|done| |intros o' _; unfold head; by rewrite G1]. unfold head. rewrite G1. destruct l1; [by rewrite last_nil in Ey|done].
    - rewrite Z.eqb_refl. apply last_None in Ey as ->. split_and!; try done.
      + destruct Hs. split; cbn; try done. by rewrite length_insert.
      + by destruct Hv.
      + unfold head. cbn. by rewrite list_lookup_insert_eq by (by rewrite (sz_heads _ Hs)).
      + intros o' Hne. unfold head. cbn. by rewrite list_lookup_insert_ne. }
  assert (∃ b2, (if (nx p =? NIL)%Z then b1 else set_prev b1 (to_index (nx p)) (pv p)) = b2 ∧ sized b2 ∧ view b2 (put_at (last l1) (nx p) nx) (put_at (hd_error l2) (pv p) pv) tg ∧ same b b2 ∧
    free_blocks b2 = free_blocks b ∧ free_pages b2 = free_pages b ∧ heads b2 = heads b1) as (b2 & -> & Hs2 & Hv2 & S2 & G1 & G2 & G3).
  { eexists. split; [done|]. destruct (hd_error l2) as [q|] eqn:Eq; cbn [link put_at] in *; [|rewrite Enx, Z.eqb_refl; rewrite Enx in Hv1; done].
    destruct (link_index b q Hs (Hq q eq_refl)) as (_ & Ei & Hn & _). rewrite (proj2 (Z.eqb_neq _ _)) by congruence. rewrite Enx, Ei.
    assert (q < pages b1) as Hq1 by (rewrite (sm_pages _ _ S1); by apply Hq). destruct (view_set_prev b1 _ _ _ q (pv p) Hs1 Hv1 Hq1 Hpu) as [Hs2 Hv2].
    pose proof (write_frame b1 q 4 (pv p)) as (G1 & G2 & G3). fold (set_prev b1 q (pv p)) in G1, G2, G3. rewrite Enx in Hv2.
    split_and!; [done|done|eapply buddy_same_trans; [exact S1|apply same_write]|congruence|congruence|done]. }
  eexists _, _. split; [|split; [|split; [|split]]]; [| |split| |].
  - destruct Hs2. split; cbn; try done. by rewrite length_alter.
  - destruct Hv2. by split.
  - by rewrite length_insert.
  - intros o' l' Ho'. unfold head. cbn [set_free heads]. rewrite G3. fold (head b1 o'). destruct (decide (o' = o)) as [->|Hne].
    + rewrite list_lookup_insert_eq in Ho' by (by rewrite L1). injection Ho' as <-. exists lst'. by rewrite Eh.
    + rewrite list_lookup_insert_ne in Ho' by done. destruct (L2 o' l' Ho') as [lst1 H1]. exists lst1. rewrite Ehn by done. eapply seg_ext; [|exact H1]. intros x Hx.
      assert (x ∉ l1 ++ p :: l2) as Hx' by (intros Hx'; apply Hne; by eapply concat_once).
      split; [destruct (last l1) as [y|] eqn:Ey|destruct (hd_error l2) as [y|] eqn:Ey]; cbn [put_at]; try done; rewrite fn_lookup_insert_ne; try done; intros ->; apply Hx', elem_of_app.
      * left. apply last_Some in Ey as [l'' ->]. apply elem_of_app. right. left.
      * destruct l2; [done|]. injection Ey as ->. right. right. left.
  - rewrite C1. rewrite C2 in L3. eapply sublist_NoDup; [exact L3|]. apply sublist_app; [|done]. apply sublist_app; [done|]. by constructor.
  - intros x. rewrite C1. cbn [set_free pages]. rewrite (sm_pages _ _ S2). intros Hx. apply L4. rewrite C2. rewrite !elem_of_app in Hx |- *. rewrite elem_of_cons. naive_solver.
  - cbn [set_free free_blocks]. rewrite G1, L5, list_fmap_insert. assert ((length <$> FL) !! o = Some (length (l1 ++ p :: l2))) as El by (by rewrite list_lookup_fmap, Ho).
    rewrite (alter_insert _ _ _ _ El). f_equal. rewrite !length_app. cbn. lia.
  - cbn [set_free free_pages]. by rewrite G2.
  - destruct S2. by split.
Qed.

(** ** Buddies *)

Lemma lxor_lower p o : (2 ^ S o | p) → Nat.lxor p (2 ^ o) = p + 2 ^ o.
Proof using.
  intros [k ->]. symmetry. apply Nat.add_nocarry_lxor. apply Nat.bits_inj. intros m. rewrite Nat.land_spec, Nat.bits_0, Nat.pow2_bits_eqb.
  destruct (Nat.eqb_spec o m) as [<-|]; [|by rewrite andb_false_r]. by rewrite Nat.mul_pow2_bits_low by lia.
Qed.

Lemma lxor_upper p o : (2 ^ S o | p) → Nat.lxor (p + 2 ^ o) (2 ^ o) = p.
Proof using. intros H. rewrite <-(lxor_lower p o H). by rewrite Nat.lxor_assoc, Nat.lxor_nilpotent, Nat.lxor_0_r. Qed.

Lemma halves p o : (2 ^ o | p) → (2 ^ S o | p) ∨ ∃ q, p = q + 2 ^ o ∧ (2 ^ S o | q).
Proof using.
  intros [k ->]. destruct (Nat.Even_or_Odd k) as [[m ->]|[m ->]]; [left; exists m; rewrite Nat.pow_succ_r'; lia|].
  right. exists (m * 2 ^ S o). split; [rewrite Nat.pow_succ_r'; lia|by exists m].
Qed.

Lemma pow_mono a c : a ≤ c → 2 ^ a ≤ 2 ^ c ∧ (2 ^ a | 2 ^ c).
Proof using. intros H. split; [apply Nat.pow_le_mono_r; lia|]. exists (2 ^ (c - a)). rewrite <-Nat.pow_add_r. f_equal. lia. Qed.

Lemma pow_pos o : 1 ≤ 2 ^ o.
Proof using. pose proof (Nat.pow_nonzero 2 o). lia. Qed.

(** Two aligned blocks that meet: the smaller is in the larger. *)
Lemma aligned_nest p o q r i : (2 ^ o | p) → (2 ^ r | q) → o ≤ r → p ≤ i < p + 2 ^ o → q ≤ i < q + 2 ^ r → q ≤ p ∧ p + 2 ^ o ≤ q + 2 ^ r.
Proof using.
  intros [a ->] [c ->] Hor Hi Hj. assert (∃ d, 2 ^ r = d * 2 ^ o) as [d E] by (exists (2 ^ (r - o)); rewrite <-Nat.pow_add_r; f_equal; lia).
  rewrite E in *. pose proof (pow_pos o). set (s := 2 ^ o) in *. clearbody s. rewrite (Nat.mul_assoc c d s) in *.
  assert (c * d < a + 1) by (apply (Nat.mul_lt_mono_pos_r s); lia). assert (a < c * d + d) by (apply (Nat.mul_lt_mono_pos_r s); lia).
  assert (c * d * s ≤ a * s) by (apply Nat.mul_le_mono_r; lia). assert ((a + 1) * s ≤ (c * d + d) * s) by (apply Nat.mul_le_mono_r; lia). lia.
Qed.

(** ** Tilings *)

(** The blocks: at a page that starts one, its order and whether it is free. *)
Notation blocks := (nat → option (nat * bool)).
Implicit Types K : blocks.

(** The blocks tile the [n] pages but for the pages [hs, he), and no two free buddies are apart. *)
Record tiled (n : nat) K (hs he : nat) : Prop := {
  tl_block : ∀ p o f, K p = Some (o, f) → o ≤ MAX_ORDER ∧ (2 ^ o | p) ∧ p + 2 ^ o ≤ n;
  tl_inner : ∀ p o f q, K p = Some (o, f) → p < q < p + 2 ^ o → K q = None;
  tl_hole : ∀ p o f, K p = Some (o, f) → p + 2 ^ o ≤ hs ∨ he ≤ p;
  tl_cover : ∀ i, i < n → hs ≤ i < he ∨ ∃ p o f, K p = Some (o, f) ∧ p ≤ i < p + 2 ^ o;
  tl_merged : ∀ p o, K p = Some (o, true) → o < MAX_ORDER → K (Nat.lxor p (2 ^ o)) ≠ Some (o, true);
  tl_fits : hs ≤ he ≤ n }.

Lemma tile_add n K hs he q o f :
  tiled n K hs he → o ≤ MAX_ORDER → (2 ^ o | q) → hs ≤ q → he = q + 2 ^ o →
  (f = true → o < MAX_ORDER → K (Nat.lxor q (2 ^ o)) ≠ Some (o, true)) → tiled n (<[q := Some (o, f)]> K) hs q.
Proof using.
  intros [T1 T2 T3 T4 T5 T6] Ho Hq Hh -> Hf. pose proof (pow_pos o) as Hpos. assert (∀ x, hs ≤ x → x < q + 2 ^ o → K x = None) as Hfree.
  { intros x Hx1 Hx2. destruct (K x) as [[o' f']|] eqn:E; [|done]. pose proof (pow_pos o'). destruct (T3 _ _ _ E); lia. }
  split.
  - intros p o' f'. destruct (decide (p = q)) as [->|Hne]; [rewrite fn_lookup_insert; intros [= <- <-]; split_and!; [done|done|lia]|rewrite fn_lookup_insert_ne by done; apply T1].
  - intros p o' f' x. destruct (decide (p = q)) as [->|Hne].
    + rewrite fn_lookup_insert. intros [= <- <-] Hx. rewrite fn_lookup_insert_ne by lia. apply Hfree; lia.
    + rewrite fn_lookup_insert_ne by done. intros E Hx. destruct (decide (x = q)) as [->|Hnx]; [exfalso; destruct (T3 _ _ _ E); lia|]. rewrite fn_lookup_insert_ne by done. by eapply T2.
  - intros p o' f'. destruct (decide (p = q)) as [->|Hne]; [right; done|]. rewrite fn_lookup_insert_ne by done. intros E. destruct (T3 _ _ _ E); [by left|right; lia].
  - intros i Hi. destruct (T4 i Hi) as [Hi'|(p & o' & f' & E & Hp)].
    + destruct (decide (i < q)); [left; lia|]. right. exists q, o, f. rewrite fn_lookup_insert. split; [done|lia].
    + right. exists p, o', f'. rewrite fn_lookup_insert_ne; [done|]. intros <-. rewrite Hfree in E by lia. done.
  - intros p o'. destruct (decide (p = q)) as [->|Hne].
    + rewrite fn_lookup_insert. intros [= <- ->] Hlt. rewrite fn_lookup_insert_ne; [by apply Hf|]. destruct (halves q o Hq) as [Hl|(r & -> & Hr)]; [rewrite lxor_lower by done; lia|rewrite lxor_upper by done; lia].
    + rewrite fn_lookup_insert_ne by done. intros E Hlt. destruct (decide (q = Nat.lxor p (2 ^ o'))) as [Eq|Hnq]; [|rewrite fn_lookup_insert_ne by done; by apply T5].
      rewrite Eq at 1. rewrite fn_lookup_insert. intros [= <- ->]. apply (Hf eq_refl Hlt). rewrite Eq. by rewrite Nat.lxor_assoc, Nat.lxor_nilpotent, Nat.lxor_0_r.
  - lia.
Qed.

Lemma tile_remove n K x p o f : tiled n K x x → K p = Some (o, f) → tiled n (<[p := None]> K) p (p + 2 ^ o).
Proof using.
  intros [T1 T2 T3 T4 T5 T6] E. pose proof (pow_pos o). destruct (T1 _ _ _ E) as (Ho & Hd & Hn). split.
  - intros q o' f'. destruct (decide (q = p)) as [->|]; [by rewrite fn_lookup_insert|rewrite fn_lookup_insert_ne by done; apply T1].
  - intros q o' f' y. destruct (decide (q = p)) as [->|]; [by rewrite fn_lookup_insert|rewrite fn_lookup_insert_ne by done]. intros E' Hy.
    destruct (decide (y = p)) as [->|]; [by rewrite fn_lookup_insert|rewrite fn_lookup_insert_ne by done; by eapply T2].
  - intros q o' f'. destruct (decide (q = p)) as [->|Hne]; [by rewrite fn_lookup_insert|rewrite fn_lookup_insert_ne by done]. intros E'.
    destruct (decide (q < p)) as [Hl|Hl].
    + left. destruct (decide (q + 2 ^ o' ≤ p)); [done|]. rewrite (T2 _ _ _ p E' ltac:(lia)) in E. done.
    + right. destruct (decide (p + 2 ^ o ≤ q)); [done|]. rewrite (T2 _ _ _ q E ltac:(lia)) in E'. done.
  - intros i Hi. destruct (T4 i Hi) as [Hi'|(q & o' & f' & E' & Hq)]; [lia|]. destruct (decide (q = p)) as [->|Hne]; [rewrite E in E'; injection E' as <- <-; by left|].
    right. exists q, o', f'. by rewrite fn_lookup_insert_ne.
  - intros q o'. destruct (decide (q = p)) as [->|]; [by rewrite fn_lookup_insert|rewrite fn_lookup_insert_ne by done]. intros E' Hlt.
    destruct (decide (Nat.lxor q (2 ^ o') = p)) as [->|]; [by rewrite fn_lookup_insert|rewrite fn_lookup_insert_ne by done; by apply T5].
  - lia.
Qed.

(** The hole joined with the free buddy beside it. *)
Lemma tile_merge n K p o :
  tiled n K p (p + 2 ^ o) → (2 ^ o | p) → o < MAX_ORDER → let q := Nat.lxor p (2 ^ o) in K q = Some (o, true) →
  (2 ^ S o | p `min` q) ∧ tiled n (<[q := None]> K) (p `min` q) (p `min` q + 2 ^ S o).
Proof using.
  intros T Hp Ho q E. pose proof T as [T1 T2 T3 T4 T5 T6]. pose proof (pow_pos o). destruct (T1 _ _ _ E) as (_ & Hq & Hn).
  assert ((2 ^ S o | p `min` q) ∧ (p `min` q = p ∧ q = p + 2 ^ o ∨ p `min` q = q ∧ p = q + 2 ^ o)) as [Hdiv Hcase].
  { unfold q. destruct (halves p o Hp) as [Hl|(r & -> & Hr)]; [rewrite lxor_lower by done|rewrite lxor_upper by done].
    - rewrite Nat.min_l by lia. split; [done|by left].
    - rewrite Nat.min_r by lia. split; [done|by right]. }
  split; [done|]. clearbody q. assert (2 ^ S o = 2 ^ o + 2 ^ o) as -> by (rewrite Nat.pow_succ_r'; lia). set (m := p `min` q) in *.
  assert (∀ x, m ≤ x < m + (2 ^ o + 2 ^ o) ↔ p ≤ x < p + 2 ^ o ∨ q ≤ x < q + 2 ^ o) as Hm by (intros x; lia). split.
  - intros x o' f'. destruct (decide (x = q)) as [->|]; [by rewrite fn_lookup_insert|rewrite fn_lookup_insert_ne by done; apply T1].
  - intros x o' f' y. destruct (decide (x = q)) as [->|]; [by rewrite fn_lookup_insert|rewrite fn_lookup_insert_ne by done]. intros E' Hy.
    destruct (decide (y = q)) as [->|]; [by rewrite fn_lookup_insert|rewrite fn_lookup_insert_ne by done; by eapply T2].
  - intros x o' f'. destruct (decide (x = q)) as [->|Hne]; [by rewrite fn_lookup_insert|rewrite fn_lookup_insert_ne by done]. intros E'.
    assert (x + 2 ^ o' ≤ q ∨ q + 2 ^ o ≤ x) as Hxq.
    { destruct (decide (x < q)); [left; destruct (decide (x + 2 ^ o' ≤ q)); [done|]; rewrite (T2 _ _ _ q E' ltac:(lia)) in E; done|].
      right. destruct (decide (q + 2 ^ o ≤ x)); [done|]. rewrite (T2 _ _ _ x E ltac:(lia)) in E'. done. }
    pose proof (pow_pos o'). destruct (T3 _ _ _ E'), Hxq, Hcase as [[? ?]|[? ?]]; lia.
  - intros i Hi. destruct (T4 i Hi) as [Hi'|(x & o' & f' & E' & Hx)]; [left; apply Hm; by left|]. destruct (decide (x = q)) as [->|Hne].
    + rewrite E in E'. injection E' as <- <-. left. apply Hm. by right.
    + right. exists x, o', f'. by rewrite fn_lookup_insert_ne.
  - intros x o'. destruct (decide (x = q)) as [->|]; [by rewrite fn_lookup_insert|rewrite fn_lookup_insert_ne by done]. intros E' Hlt.
    destruct (decide (Nat.lxor x (2 ^ o') = q)) as [->|]; [by rewrite fn_lookup_insert|rewrite fn_lookup_insert_ne by done; by apply T5].
  - lia.
Qed.

Lemma tile_add_low n K he q o f :
  tiled n K q he → o ≤ MAX_ORDER → (2 ^ o | q) → q + 2 ^ o ≤ he →
  (f = true → o < MAX_ORDER → K (Nat.lxor q (2 ^ o)) ≠ Some (o, true)) → tiled n (<[q := Some (o, f)]> K) (q + 2 ^ o) he.
Proof using.
  intros [T1 T2 T3 T4 T5 T6] Ho Hq Hh Hf. pose proof (pow_pos o) as Hpos. assert (∀ x, q ≤ x → x < he → K x = None) as Hfree.
  { intros x Hx1 Hx2. destruct (K x) as [[o' f']|] eqn:E; [|done]. pose proof (pow_pos o'). destruct (T3 _ _ _ E); lia. }
  split.
  - intros p o' f'. destruct (decide (p = q)) as [->|Hne]; [rewrite fn_lookup_insert; intros [= <- <-]; split_and!; [done|done|lia]|rewrite fn_lookup_insert_ne by done; apply T1].
  - intros p o' f' x. destruct (decide (p = q)) as [->|Hne].
    + rewrite fn_lookup_insert. intros [= <- <-] Hx. rewrite fn_lookup_insert_ne by lia. apply Hfree; lia.
    + rewrite fn_lookup_insert_ne by done. intros E Hx. destruct (decide (x = q)) as [->|Hnx]; [exfalso; destruct (T3 _ _ _ E); lia|]. rewrite fn_lookup_insert_ne by done. by eapply T2.
  - intros p o' f'. destruct (decide (p = q)) as [->|Hne]; [rewrite fn_lookup_insert; intros [= <- <-]; by left|]. rewrite fn_lookup_insert_ne by done. intros E. destruct (T3 _ _ _ E); [left; lia|by right].
  - intros i Hi. destruct (T4 i Hi) as [Hi'|(p & o' & f' & E & Hp)].
    + destruct (decide (q + 2 ^ o ≤ i)); [left; lia|]. right. exists q, o, f. rewrite fn_lookup_insert. split; [done|lia].
    + right. exists p, o', f'. rewrite fn_lookup_insert_ne; [done|]. intros <-. rewrite Hfree in E by lia. done.
  - intros p o'. destruct (decide (p = q)) as [->|Hne].
    + rewrite fn_lookup_insert. intros [= <- ->] Hlt. rewrite fn_lookup_insert_ne; [by apply Hf|]. destruct (halves q o Hq) as [Hl|(r & -> & Hr)]; [rewrite lxor_lower by done; lia|rewrite lxor_upper by done; lia].
    + rewrite fn_lookup_insert_ne by done. intros E Hlt. destruct (decide (q = Nat.lxor p (2 ^ o'))) as [Eq|Hnq]; [|rewrite fn_lookup_insert_ne by done; by apply T5].
      rewrite Eq at 1. rewrite fn_lookup_insert. intros [= <- ->]. apply (Hf eq_refl Hlt). rewrite Eq. by rewrite Nat.lxor_assoc, Nat.lxor_nilpotent, Nat.lxor_0_r.
  - lia.
Qed.

(** ** Tags *)

Definition code (k : option (nat * bool)) : Z :=
  match k with Some (o, true) => free_tag o | Some (o, false) => used_tag o | None => 0%Z end.

Lemma code_bits o f : o ≤ MAX_ORDER →
  (Z.land (code (Some (o, f))) TAG_FREE =? 0)%Z = negb f ∧ (Z.land (code (Some (o, f))) TAG_USED =? 0)%Z = f ∧ Z.to_nat (Z.land (code (Some (o, f))) TAG_ORDER) = o.
Proof using. unfold MAX_ORDER. intros Ho. do 11 (destruct o as [|o]; [by destruct f|]). lia. Qed.

Lemma code_inj k k' : (∀ o f, k = Some (o, f) → o ≤ MAX_ORDER) → (∀ o f, k' = Some (o, f) → o ≤ MAX_ORDER) → code k = code k' → k = k'.
Proof using.
  intros H1 H2 E. destruct k as [[o f]|], k' as [[o' f']|]; [| | |done].
  - destruct (code_bits o f (H1 _ _ eq_refl)) as (B1 & _ & B3). destruct (code_bits o' f' (H2 _ _ eq_refl)) as (C1 & _ & C3). rewrite E in B1, B3. rewrite B1 in C1.
    assert (f = f') as -> by (by destruct f, f'). congruence.
  - destruct (code_bits o f (H1 _ _ eq_refl)) as (B1 & B2 & _). rewrite E in B1, B2. destruct f; cbn in *; done.
  - destruct (code_bits o' f' (H2 _ _ eq_refl)) as (B1 & B2 & _). rewrite <-E in B1, B2. destruct f'; cbn in *; done.
Qed.

(** ** Sums *)

Fixpoint sum_from (o : nat) (FL : list (list nat)) : nat :=
  match FL with [] => 0 | l :: FL => 2 ^ o * length l + sum_from (S o) FL end.

Lemma sum_insert FL : ∀ k o l l', FL !! o = Some l → sum_from k (<[o := l']> FL) + 2 ^ (k + o) * length l = sum_from k FL + 2 ^ (k + o) * length l'.
Proof using.
  induction FL as [|x FL IH]; intros k [|o] l l' E; cbn in E; simplify_eq.
  - cbn [sum_from insert list_insert]. rewrite Nat.add_0_r. lia.
  - specialize (IH (S k) o l l' E). rewrite <-Nat.add_succ_comm. change (<[S o := l']> (x :: FL)) with (x :: <[o := l']> FL). cbn [sum_from]. lia.
Qed.

(** The free blocks, each with its order. *)
Definition listed (FL : list (list nat)) : list (nat * nat) := concat (imap (λ o l, (λ p, (p, o)) <$> l) FL).

Definition sizes (L : list (nat * nat)) : nat := sum_list_with (λ x, 2 ^ x.2) L.

Lemma listed_fst FL : (listed FL).*1 = concat FL.
Proof using.
  unfold listed. assert (∀ g : nat → nat, (concat (imap (λ o l, (λ p, (p, g o)) <$> l) FL)).*1 = concat FL) as H; [|apply (H id)].
  induction FL as [|l FL IH]; intros g; [done|]. rewrite imap_cons. cbn [concat]. rewrite fmap_app. f_equal; [|apply (IH (g ∘ S))].
  rewrite <-list_fmap_compose. by rewrite list_fmap_id.
Qed.

Lemma listed_sizes FL : sizes (listed FL) = sum_from 0 FL.
Proof using.
  unfold listed. assert (∀ k, sizes (concat (imap (λ o l, (λ p, (p, k + o)) <$> l) FL)) = sum_from k FL) as H; [|apply (H 0)].
  induction FL as [|l FL IH]; intros k; [done|]. rewrite imap_cons. cbn [concat sum_from]. unfold sizes in *. rewrite sum_list_with_app. f_equal.
  - rewrite Nat.add_0_r. clear. induction l as [|p l IH]; csimpl; [lia|]. rewrite IH. lia.
  - rewrite <-(IH (S k)). f_equal. f_equal. apply imap_ext. intros i x _. cbn. by rewrite Nat.add_succ_r.
Qed.

Lemma listed_elem FL p o : (p, o) ∈ listed FL ↔ ∃ l, FL !! o = Some l ∧ p ∈ l.
Proof using.
  unfold listed. rewrite list_elem_of_In, in_concat. split.
  - intros (x & Hx & Hp). apply list_elem_of_In, list_elem_of_lookup_1 in Hx as [i Hi]. rewrite list_lookup_imap in Hi. destruct (FL !! i) as [l|] eqn:E; [|done]. cbn in Hi. injection Hi as <-.
    apply list_elem_of_In, list_elem_of_fmap in Hp as (q & [= <- ->] & Hq). by exists l.
  - intros (l & E & Hp). exists ((λ p, (p, o)) <$> l). split; apply list_elem_of_In; [|by apply list_elem_of_fmap; exists p].
    apply (list_elem_of_lookup_2 _ o). by rewrite list_lookup_imap, E.
Qed.

(** Blocks of a tiling have no page in common, so their sizes add up to no more than there is. *)
Lemma sizes_le n K hs he (L : list (nat * nat)) : tiled n K hs he → NoDup L.*1 → (∀ p o, (p, o) ∈ L → ∃ f, K p = Some (o, f)) → sizes L + (he - hs) ≤ n.
Proof using.
  intros T Hn HL. set (cover := (λ x, seq x.1 (2 ^ x.2)) <$> L).
  assert (length (concat cover) = sizes L) as <-.
  { unfold cover, sizes. clear. induction L as [|[p o] L IH]; [done|]. cbn. rewrite length_app, length_seq. cbn in IH. lia. }
  assert (∀ i, i ∈ concat cover → ∃ p o f, (p, o) ∈ L ∧ K p = Some (o, f) ∧ p ≤ i < p + 2 ^ o) as Hc.
  { intros i. unfold cover. rewrite list_elem_of_In, in_concat. intros (x & Hx & Hi). apply list_elem_of_In, list_elem_of_fmap in Hx as ([p o] & -> & Hp). apply in_seq in Hi. cbn in Hi.
    destruct (HL p o Hp) as [f Hf]. by exists p, o, f. }
  assert (NoDup (concat cover)) as Hnd.
  { unfold cover in *. clear cover. revert Hn HL Hc. induction L as [|[p o] L IH]; intros Hn HL Hc; [constructor|]. cbn in Hn. apply NoDup_cons in Hn as [Hp Hn]. cbn [fmap list_fmap concat].
    apply NoDup_app. split; [apply NoDup_seq|]. split; [|apply IH; [done|intros q r Hq; apply HL; by right|]].
    - intros i Hi%elem_of_seq Hi2. cbn in Hi. destruct (HL p o ltac:(left)) as [f Hf].
      assert (∃ q r, (q, r) ∈ L ∧ q ≤ i < q + 2 ^ r) as (q & r & Hq & Hqi).
      { rewrite list_elem_of_In, in_concat in Hi2. destruct Hi2 as (x & Hx & Hix). apply list_elem_of_In, list_elem_of_fmap in Hx as ([q r] & -> & Hq). apply in_seq in Hix. by exists q, r. }
      destruct (HL q r ltac:(by right)) as [g Hg]. assert (p ≠ q) as Hne by (intros ->; apply Hp; apply list_elem_of_fmap; by exists (q, r)).
      destruct (decide (p < q)); [rewrite (tl_inner _ _ _ _ T _ _ _ q Hf ltac:(lia)) in Hg; done|rewrite (tl_inner _ _ _ _ T _ _ _ p Hg ltac:(lia)) in Hf; done].
    - intros i Hi. rewrite list_elem_of_In, in_concat in Hi. destruct Hi as (x & Hx & Hix). apply list_elem_of_In, list_elem_of_fmap in Hx as ([q r] & -> & Hq). apply in_seq in Hix.
      destruct (HL q r ltac:(by right)) as [g Hg]. by exists q, r, g. }
  rewrite <-(length_seq (he - hs) hs), <-length_app. apply length_le_pages.
  - apply NoDup_app. split; [done|]. split; [|apply NoDup_seq]. intros i (p & o & f & _ & Hk & Hi)%Hc Hi2%elem_of_seq. destruct (tl_hole _ _ _ _ T _ _ _ Hk); lia.
  - pose proof (tl_fits _ _ _ _ T). intros i [(p & o & f & _ & Hk & Hi)%Hc|Hi%elem_of_seq]%elem_of_app; [|lia]. pose proof (tl_block _ _ _ _ T _ _ _ Hk). lia.
Qed.

(** ** The invariant *)

(** The allocator with blocks [K], free lists [FL] and allocated blocks [U], but for the pages
    [hs, he), which are in no block; the tag of page [x] may be anything. *)
Record inv (b : t) K (FL : list (list nat)) (U : list nat) (hs he : nat) (x : option nat) : Prop := {
  in_sized : sized b;
  in_lists : lists b (next b) (prev b) FL;
  in_tags : ∀ p, p < pages b → x ≠ Some p → tag b p = code (K p);
  in_free : ∀ o l p, FL !! o = Some l → (p ∈ l ↔ K p = Some (o, true));
  in_once : NoDup U;
  in_used : ∀ p, p ∈ U ↔ ∃ o, K p = Some (o, false);
  in_live : live_blocks b = length U;
  in_tiled : tiled (pages b) K hs he;
  in_sum : free_pages b = sum_from 0 FL }.

Lemma lists_view b nx pv tg FL : view b nx pv tg → lists b nx pv FL → lists b (next b) (prev b) FL.
Proof using.
  intros [V1 V2 _] [L1 L2 L3 L4 L5]. split; try done. intros o l E. destruct (L2 o l E) as [lst H]. exists lst. eapply seg_ext; [|exact H].
  intros p Hp. assert (p < pages b) by (apply L4; by eapply elem_concat). by rewrite V1, V2.
Qed.

Lemma inv_list b K FL U hs he x o : inv b K FL U hs he x → o ≤ MAX_ORDER → ∃ l, FL !! o = Some l.
Proof using. intros [] Ho. apply lookup_lt_is_Some_2. rewrite (ls_len _ _ _ _ in_lists0). unfold ORDERS. lia. Qed.

Lemma inv_listed b K FL U hs he x p o : inv b K FL U hs he x → (p, o) ∈ listed FL ↔ K p = Some (o, true).
Proof using.
  intros Hi. rewrite listed_elem. split; [intros (l & E & Hp); by apply (in_free _ _ _ _ _ _ _ Hi o l)|]. intros E. destruct (inv_list _ _ _ _ _ _ _ o Hi) as [l El]; [by eapply tl_block, E; apply Hi|].
  exists l. split; [done|]. by apply (in_free _ _ _ _ _ _ _ Hi o l).
Qed.

Lemma inv_concat b K FL U hs he x p : inv b K FL U hs he x → p ∈ concat FL ↔ ∃ o, K p = Some (o, true).
Proof using.
  intros Hi. rewrite <-listed_fst, list_elem_of_fmap. split.
  - intros ([q o] & -> & H). exists o. by eapply inv_listed.
  - intros (o & E). exists (p, o). split; [done|]. by eapply inv_listed.
Qed.

Lemma inv_room b K FL U hs he x : inv b K FL U hs he x → free_pages b + (he - hs) ≤ pages b.
Proof using.
  intros Hi. rewrite (in_sum _ _ _ _ _ _ _ Hi), <-listed_sizes. apply (sizes_le _ K); [apply Hi|rewrite listed_fst; apply (in_lists _ _ _ _ _ _ _ Hi)|].
  intros p o H%(inv_listed _ _ _ _ _ _ _ _ _ Hi). by eexists.
Qed.

Lemma same_tagged b p v : sized b → p < pages b → sized (set_tag b p v) ∧ tag (set_tag b p v) p = v ∧ (∀ q, q < pages b → q ≠ p → tag (set_tag b p v) q = tag b q) ∧
  (∀ nx pv FL, view b nx pv (tag b) → lists b nx pv FL → lists (set_tag b p v) (next (set_tag b p v)) (prev (set_tag b p v)) FL).
Proof using.
  intros Hs Hp. destruct (view_set_tag b (next b) (prev b) (tag b) p v Hs (view_self b) Hp) as [Hs' Hv]. pose proof (same_tag b p v) as Sm. split; [done|].
  split; [rewrite (vw_tag _ _ _ _ Hv) by (by rewrite (sm_pages _ _ Sm)); by rewrite fn_lookup_insert|]. split.
  - intros q Hq Hne. rewrite (vw_tag _ _ _ _ Hv) by (by rewrite (sm_pages _ _ Sm)). by rewrite fn_lookup_insert_ne.
  - intros nx pv FL Hv0 Hls%(lists_view _ _ _ _ _ Hv0). eapply lists_view; [exact Hv|]. destruct Hls. destruct Sm. unfold set_tag in *. destruct (field b p 8 1); by split.
Qed.

(** A free block put in. *)
Lemma buddy_inv_put b K FL U hs he x q o hs' he' :
  inv b K FL U hs he x → o ≤ MAX_ORDER → q < pages b → K q = None → tiled (pages b) (<[q := Some (o, true)]> K) hs' he' → 2 ^ o + (he' - hs') ≤ he - hs →
  let b' := push (set_tag b q (free_tag o)) q o in
  ∃ FL', inv b' (<[q := Some (o, true)]> K) FL' U hs' he' (if decide (x = Some q) then None else x) ∧ same b b'.
Proof using usize_32.
  intros Hi Ho Hq Hk Ht Hfit. cbv zeta. destruct (inv_list _ _ _ _ _ _ _ o Hi Ho) as [l El]. pose proof (inv_room _ _ _ _ _ _ _ Hi) as Hroom. pose proof (inv_concat _ _ _ _ _ _ _ q Hi) as Hc.
  pose proof Hi as [I1 I2 I3 I4 I5 I6 I7 I8 I9]. destruct (same_tagged b q (free_tag o) I1 Hq) as (Hs1 & Htq & Htn & Hl1). pose proof (same_tag b q (free_tag o)) as S1.
  pose proof (Hl1 _ _ _ (view_self b) I2) as Hls1. assert (free_pages (set_tag b q (free_tag o)) = free_pages b) as Efp by (unfold set_tag; by destruct (field b q 8 1)).
  set (b1 := set_tag b q (free_tag o)) in *. clearbody b1.
  destruct (push_ok b1 _ _ _ FL o l q Hs1 (view_self b1) Hls1 El) as (nx & pv & Hs2 & Hv2 & Hls2 & Efp2 & S2).
  { by rewrite (sm_pages _ _ S1). }
  { rewrite Hc. intros [o' E]. congruence. }
  { rewrite Efp, (sm_pages _ _ S1). lia. }
  exists (<[o := q :: l]> FL). pose proof (buddy_same_trans _ _ _ S1 S2) as S12. split; [|done]. split.
  - done.
  - by eapply lists_view.
  - intros p. rewrite (sm_pages _ _ S12). intros Hp Hx. rewrite (vw_tag _ _ _ _ Hv2) by (by rewrite (sm_pages _ _ S12)).
    destruct (decide (p = q)) as [->|Hne]; [rewrite fn_lookup_insert; cbn; done|]. rewrite fn_lookup_insert_ne by done. rewrite Htn by done. apply I3; [done|].
    intros ->. rewrite decide_False in Hx; [done|]. congruence.
  - intros o' l' p E. assert (o < length FL) as Holt by (by eapply lookup_lt_Some). destruct (decide (p = q)) as [->|Hne].
    + rewrite fn_lookup_insert. destruct (decide (o' = o)) as [->|Hno]; [rewrite list_lookup_insert_eq in E by done; injection E as <-; split; [done|intros _; left]|].
      rewrite list_lookup_insert_ne in E by done. rewrite (I4 o' l' q E), Hk. split; [done|]. by intros [= ->].
    + rewrite fn_lookup_insert_ne by done. destruct (decide (o' = o)) as [->|Hno]; [rewrite list_lookup_insert_eq in E by done; injection E as <-|rewrite list_lookup_insert_ne in E by done; by apply I4].
      rewrite elem_of_cons, <-(I4 o l p El). naive_solver.
  - done.
  - intros p. rewrite I6. destruct (decide (p = q)) as [->|Hne]; [rewrite fn_lookup_insert; split; intros [o' E]; [congruence|done]|by rewrite fn_lookup_insert_ne].
  - by rewrite (sm_live _ _ S12).
  - by rewrite (sm_pages _ _ S12).
  - rewrite Efp2, Efp, I9. pose proof (sum_insert FL 0 o l (q :: l) El) as E. cbn [length Nat.add] in E. lia.
Qed.

(** A free block taken out of its list, its tag left behind. *)
Lemma buddy_inv_take b K FL U hs he x p o hs' he' :
  inv b K FL U hs he x → K p = Some (o, true) → x = None → tiled (pages b) (<[p := None]> K) hs' he' →
  ∃ FL', inv (unlink b p o) (<[p := None]> K) FL' U hs' he' (Some p) ∧ same b (unlink b p o) ∧ ∀ q, q < pages b → tag (unlink b p o) q = tag b q.
Proof using usize_32.
  intros Hi Hk -> Ht. pose proof Hi as [I1 I2 I3 I4 I5 I6 I7 I8 I9]. destruct (inv_list _ _ _ _ _ _ _ o Hi) as [l El]; [by eapply tl_block, Hk|].
  destruct (list_elem_of_split l p) as (l1 & l2 & ->); [by apply (I4 o l)|].
  destruct (unlink_ok b _ _ _ FL o l1 l2 p I1 (view_self b) I2 El) as (nx & pv & Hs2 & Hv2 & Hls2 & Efp & S). exists (<[o := l1 ++ l2]> FL). split; [|split; [done|]]; [split|].
  - done.
  - by eapply lists_view.
  - intros q. rewrite (sm_pages _ _ S). intros Hq Hx. rewrite (vw_tag _ _ _ _ Hv2) by (by rewrite (sm_pages _ _ S)). rewrite fn_lookup_insert_ne by congruence. by apply I3.
  - intros o' l' q E. assert (o < length FL) as Holt by (by eapply lookup_lt_Some). pose proof (ls_once _ _ _ _ I2) as Hnd. destruct (concat_insert FL o _ [] El) as [_ C]. rewrite C in Hnd.
    apply NoDup_app in Hnd as [Hnd _]. apply NoDup_app in Hnd as (_ & Hd & Hnd). apply NoDup_cons in Hnd as [Hp2 _].
    assert (p ∉ l1 ++ l2) as Hp by (rewrite elem_of_app; intros [H|H]; [by apply (Hd p H); left|done]).
    destruct (decide (q = p)) as [->|Hne]; [rewrite fn_lookup_insert|rewrite fn_lookup_insert_ne by done]; (destruct (decide (o' = o)) as [->|Hno];
      [rewrite list_lookup_insert_eq in E by done; injection E as <-|rewrite list_lookup_insert_ne in E by done]).
    + split; [done|by intros [=]].
    + rewrite (I4 o' l' p E), Hk. split; [intros [= ->]; done|by intros [=]].
    + rewrite <-(I4 o _ q El), !elem_of_app, elem_of_cons. naive_solver.
    + by apply I4.
  - done.
  - intros q. rewrite I6. destruct (decide (q = p)) as [->|Hne]; [rewrite fn_lookup_insert; split; intros [o' E]; [congruence|done]|by rewrite fn_lookup_insert_ne].
  - by rewrite (sm_live _ _ S).
  - by rewrite (sm_pages _ _ S).
  - rewrite Efp, I9. pose proof (sum_insert FL 0 o _ (l1 ++ l2) El) as E. rewrite !length_app in E. cbn [length Nat.add] in E. rewrite Nat.mul_add_distr_l in E. rewrite !Nat.mul_add_distr_l, Nat.mul_succ_r in E. lia.
  - intros q Hq. apply (vw_tag _ _ _ _ Hv2). by rewrite (sm_pages _ _ S).
Qed.

(** The tag left behind written. *)
Lemma inv_tag b K FL U hs he p v : inv b K FL U hs he (Some p) → p < pages b → v = code (K p) → inv (set_tag b p v) K FL U hs he None ∧ same b (set_tag b p v).
Proof using.
  intros [I1 I2 I3 I4 I5 I6 I7 I8 I9] Hp Ev. destruct (same_tagged b p v I1 Hp) as (Hs1 & Htq & Htn & Hl1). pose proof (same_tag b p v) as S. split; [|done].
  split; try done; [by eapply Hl1| |by rewrite (sm_live _ _ S)|by rewrite (sm_pages _ _ S)|unfold set_tag; by destruct (field b p 8 1)].
  intros q. rewrite (sm_pages _ _ S). intros Hq _. destruct (decide (q = p)) as [->|Hne]; [by rewrite Htq|]. rewrite Htn by done. apply I3; [done|]. congruence.
Qed.

(** ** The operations keep it *)

Lemma inv_hole b K FL U hs he x p : inv b K FL U hs he x → hs ≤ p < he → K p = None.
Proof using.
  intros Hi Hp. destruct (K p) as [[o f]|] eqn:E; [|done]. pose proof (pow_pos o). destruct (tl_hole _ _ _ _ (in_tiled _ _ _ _ _ _ _ Hi) _ _ _ E); lia.
Qed.

Lemma inv_splits b K FL U hs he x n : inv b K FL U hs he x → inv (set_splits n b) K FL U hs he x.
Proof using. intros [[] [] ? ? ? ? ? ? ?]. by split. Qed.
Lemma inv_merges b K FL U hs he x n : inv b K FL U hs he x → inv (set_merges n b) K FL U hs he x.
Proof using. intros [[] [] ? ? ? ? ? ? ?]. by split. Qed.

(** Allocated blocks are left alone. *)
Definition used_same K K' : Prop := ∀ p o, K' p = Some (o, false) ↔ K p = Some (o, false).

Lemma used_insert K p k : (∀ o, K p ≠ Some (o, false)) → (∀ o, k ≠ Some (o, false)) → used_same K (<[p := k]> K).
Proof using.
  intros H1 H2 q o. destruct (decide (q = p)) as [->|]; [rewrite fn_lookup_insert|by rewrite fn_lookup_insert_ne]. split; intros H; [by apply H2 in H|by apply H1 in H].
Qed.

Lemma used_trans K1 K2 K3 : used_same K1 K2 → used_same K2 K3 → used_same K1 K3.
Proof using. intros H1 H2 p o. destruct (H1 p o), (H2 p o). split; auto. Qed.

Lemma split_ok have : ∀ b K FL U page order,
  inv b K FL U page (page + 2 ^ have) (Some page) → (2 ^ have | page) → have ≤ MAX_ORDER → order ≤ have →
  ∃ K' FL', inv (split b page have order) K' FL' U page (page + 2 ^ order) (Some page) ∧ same b (split b page have order) ∧ used_same K K'.
Proof using usize_32.
  induction have as [|less IH]; intros b K FL U page order Hi Hd Hm Ho.
  { assert (order = 0) as -> by lia. by exists K, FL. }
  cbn [split]. destruct (Nat.ltb_spec order (S less)) as [Hlt|Hge]; [|assert (order = S less) as -> by lia; by exists K, FL].
  pose proof (in_tiled _ _ _ _ _ _ _ Hi) as T. pose proof (tl_fits _ _ _ _ T) as Hfit. pose proof (pow_pos less) as Hpos. assert (2 ^ S less = 2 ^ less + 2 ^ less) as E2 by (rewrite Nat.pow_succ_r'; lia).
  assert (usat_add page (block_pages less) = page + 2 ^ less) as -> by (apply (usat_add_small _ _ (pages b)); [apply Hi|unfold block_pages; lia]).
  set (q := page + 2 ^ less). assert (2 ^ less | q) as Hq.
  { apply Nat.divide_add_r; [|done]. eapply Nat.divide_trans; [|exact Hd]. apply pow_mono. lia. }
  destruct (buddy_inv_put b K FL U page (page + 2 ^ S less) (Some page) q less page q) as (FL1 & Hi1 & S1); try done; try lia.
  { eapply inv_hole; [exact Hi|unfold q; lia]. }
  { eapply tile_add; [exact T|lia|done|unfold q; lia|unfold q; lia|]. intros _ _. unfold q. rewrite lxor_upper by done. rewrite (inv_hole _ _ _ _ _ _ _ page Hi) by lia. done. }
  rewrite decide_False in Hi1 by (unfold q; intros [= E]; lia). apply inv_splits with (n := saturating_add 64 (splits (push (set_tag b q (free_tag less)) q less)) 1) in Hi1.
  destruct (IH _ _ _ _ _ order Hi1) as (K' & FL' & Hi' & S' & Hu'); [|lia|lia|].
  { eapply Nat.divide_trans; [|exact Hd]. apply pow_mono. lia. }
  exists K', FL'. split; [done|]. split; [eapply buddy_same_trans; [|exact S']; destruct S1; by split|]. eapply used_trans; [|exact Hu']. apply used_insert; [|done].
  intros o. rewrite (inv_hole _ _ _ _ _ _ _ q Hi) by (unfold q; lia). done.
Qed.

(** The hole becomes an allocated block. *)
Lemma inv_use b K FL U p o :
  inv b K FL U p (p + 2 ^ o) (Some p) → (2 ^ o | p) → o ≤ MAX_ORDER →
  let b' := set_tag b p (used_tag o) in
  inv (set_live (usat_add (live_blocks b') 1) b') (<[p := Some (o, false)]> K) FL (p :: U) p p None.
Proof using usize_32.
  intros Hi Hd Ho. cbv zeta. pose proof (in_tiled _ _ _ _ _ _ _ Hi) as T. pose proof (tl_fits _ _ _ _ T) as Hfit. pose proof (pow_pos o). assert (p < pages b) as Hp by lia.
  pose proof (inv_hole _ _ _ _ _ _ _ p Hi ltac:(lia)) as Hk. pose proof Hi as [I1 I2 I3 I4 I5 I6 I7 I8 I9]. pose proof (same_tag b p (used_tag o)) as S.
  destruct (same_tagged b p (used_tag o) I1 Hp) as (Hs1 & Htq & Htn & Hl1). pose proof (Hl1 _ _ _ (view_self b) I2) as Hls. assert (NoDup (p :: U)) as Hnd by (constructor; [rewrite I6; intros [o' E]; congruence|done]).
  assert (length (p :: U) ≤ pages b) as Hlen.
  { apply length_le_pages; [done|]. intros q [->|Hq]%elem_of_cons; [done|]. apply I6 in Hq as [o' E]. pose proof (tl_block _ _ _ _ T _ _ _ E). pose proof (pow_pos o'). lia. }
  set (b1 := set_tag b p (used_tag o)) in *. split; cbn [set_live pages live_blocks free_pages].
  - by destruct Hs1.
  - by destruct Hls.
  - intros q Hq _. change (tag (set_live (usat_add (live_blocks b1) 1) b1) q) with (tag b1 q). destruct (decide (q = p)) as [->|Hne]; [rewrite fn_lookup_insert; done|].
    rewrite fn_lookup_insert_ne by done. rewrite (sm_pages _ _ S) in Hq. rewrite Htn by done. apply I3; [done|]. congruence.
  - intros o' l q E. destruct (decide (q = p)) as [->|Hne]; [|rewrite fn_lookup_insert_ne by done; by apply I4]. rewrite fn_lookup_insert, (I4 o' l p E), Hk. split; intros [=].
  - done.
  - intros q. rewrite elem_of_cons, I6. destruct (decide (q = p)) as [->|Hne]; [rewrite fn_lookup_insert; split; [by eexists|by left]|rewrite fn_lookup_insert_ne by done; naive_solver].
  - rewrite (sm_live _ _ S), I7. cbn [length] in *. rewrite (usat_add_small _ _ (pages b)); [lia|apply I1|lia].
  - rewrite (sm_pages _ _ S). eapply tile_add; [exact T|done|done|lia|done|done].
  - unfold b1, set_tag. by destruct (field b p 8 1).
Qed.

(** An allocated block becomes a hole. *)
Lemma buddy_inv_release b K FL U y p o :
  inv b K FL U y y None → K p = Some (o, false) →
  let b' := set_tag b p 0 in
  ∃ U', inv (set_live (live_blocks b' - 1) b') (<[p := None]> K) FL U' p (p + 2 ^ o) None.
Proof using.
  intros Hi Hk. cbv zeta. pose proof (in_tiled _ _ _ _ _ _ _ Hi) as T. destruct (tl_block _ _ _ _ T _ _ _ Hk) as (Ho & Hd & Hn). pose proof (pow_pos o). assert (p < pages b) as Hp by lia.
  pose proof Hi as [I1 I2 I3 I4 I5 I6 I7 I8 I9]. pose proof (same_tag b p 0) as S. destruct (same_tagged b p 0 I1 Hp) as (Hs1 & Htq & Htn & Hl1). pose proof (Hl1 _ _ _ (view_self b) I2) as Hls.
  destruct (list_elem_of_split U p) as (u1 & u2 & ->); [apply I6; by eexists|]. exists (u1 ++ u2). set (b1 := set_tag b p 0) in *. split; cbn [set_live pages live_blocks free_pages].
  - by destruct Hs1.
  - by destruct Hls.
  - intros q Hq _. change (tag (set_live (live_blocks b1 - 1) b1) q) with (tag b1 q). destruct (decide (q = p)) as [->|Hne]; [rewrite fn_lookup_insert; done|].
    rewrite fn_lookup_insert_ne by done. rewrite (sm_pages _ _ S) in Hq. rewrite Htn by done. by apply I3.
  - intros o' l q E. destruct (decide (q = p)) as [->|Hne]; [|rewrite fn_lookup_insert_ne by done; by apply I4]. rewrite fn_lookup_insert, (I4 o' l p E), Hk. split; intros [=].
  - eapply sublist_NoDup; [exact I5|]. apply sublist_app; [done|]. by constructor.
  - apply NoDup_app in I5 as (_ & Hdis & Hn2). apply NoDup_cons in Hn2 as [Hp2 _]. intros q. destruct (decide (q = p)) as [->|Hne].
    + rewrite fn_lookup_insert. split; [|by intros [? [=]]]. rewrite elem_of_app. intros [Hq|Hq]; [exfalso; by apply (Hdis p Hq); left|done].
    + rewrite fn_lookup_insert_ne by done. rewrite <-I6, !elem_of_app, elem_of_cons. naive_solver.
  - rewrite (sm_live _ _ S), I7, !length_app. cbn. lia.
  - rewrite (sm_pages _ _ S). by eapply tile_remove.
  - unfold b1, set_tag. by destruct (field b p 8 1).
Qed.

Lemma merge_ok fuel : ∀ b K FL U page order,
  inv b K FL U page (page + 2 ^ order) None → (2 ^ order | page) → order ≤ MAX_ORDER → MAX_ORDER - order < fuel →
  ∃ b' page' order' K' FL', merge fuel b page order = (b', page', order') ∧ inv b' K' FL' U page' (page' + 2 ^ order') None ∧ (2 ^ order' | page') ∧ order' ≤ MAX_ORDER ∧
    (order' < MAX_ORDER → K' (Nat.lxor page' (2 ^ order')) ≠ Some (order', true)) ∧ same b b' ∧ used_same K K'.
Proof using usize_32.
  induction fuel as [|fuel IH]; intros b K FL U page order Hi Hd Ho Hf; [lia|]. cbn [merge]. destruct (Nat.ltb_spec order MAX_ORDER) as [Hlt|Hge]; cbn [negb].
  2:{ exists b, page, order, K, FL. split_and!; try done. lia. }
  pose proof (in_tiled _ _ _ _ _ _ _ Hi) as T. set (q := Nat.lxor page (block_pages order)). set (fits := match uadd q (block_pages order) with Some e => e <=? pages b | None => false end).
  assert (fits = true ↔ q + 2 ^ order ≤ pages b) as Hfits.
  { unfold fits, uadd, FrameAllocator.uadd, block_pages. pose proof (sz_pages _ (in_sized _ _ _ _ _ _ _ Hi)) as Hn. unfold NIL, u_max in *.
    assert (2 ^ 32 ≤ 2 ^ USIZE_BITS)%Z by (apply Z.pow_le_mono_r; lia). destruct (Z.leb_spec (Z.of_nat q + Z.of_nat (2 ^ order)) (2 ^ USIZE_BITS - 1)); [apply Nat.leb_le|]. split; [done|]. intros Hq. exfalso. apply Nat2Z.inj_le in Hq. rewrite Nat2Z.inj_add in Hq. lia. }
  destruct (negb fits || negb (tag b q =? free_tag order)%Z) eqn:Ec.
  - exists b, page, order, K, FL. split_and!; try done. intros _ E. change (K q = Some (order, true)) in E. destruct (tl_block _ _ _ _ T _ _ _ E) as (_ & _ & Hn). pose proof (pow_pos order).
    rewrite (proj2 Hfits Hn) in Ec. cbn in Ec. rewrite (in_tags _ _ _ _ _ _ _ Hi q) in Ec by (done || lia). rewrite E in Ec. cbn in Ec. by rewrite Z.eqb_refl in Ec.
  - apply orb_false_iff in Ec as [E1%negb_false_iff%Hfits E2%negb_false_iff%Z.eqb_eq]. pose proof (pow_pos order).
    assert (K q = Some (order, true)) as Hk.
    { rewrite (in_tags _ _ _ _ _ _ _ Hi q) in E2 by (done || lia). apply code_inj; [|by intros ? ? [= <- <-]|exact E2]. intros o f E. by eapply tl_block. }
    destruct (tile_merge _ _ _ _ T Hd Hlt Hk) as [Hd' T']. change (Nat.lxor page (2 ^ order)) with q in Hd', T'. destruct (buddy_inv_take b K FL U _ _ None q order _ _ Hi Hk eq_refl T') as (FL1 & Hi1 & S1 & _).
    destruct (inv_tag _ _ _ _ _ _ q 0 Hi1) as [Hi2 S2]; [rewrite (sm_pages _ _ S1); lia|by rewrite fn_lookup_insert|].
    apply inv_merges with (n := saturating_add 64 (merges (set_tag (unlink b q order) q 0)) 1) in Hi2. rewrite Nat.add_1_r.
    destruct (IH _ _ _ _ _ (S order) Hi2) as (b' & page' & order' & K' & FL' & -> & Hi' & Hd'' & Ho' & Hm & S' & Hu'); [done|lia|lia|].
    exists b', page', order', K', FL'. split_and!; try done.
    + eapply buddy_same_trans; [exact S1|]. eapply buddy_same_trans; [exact S2|]. destruct S'. by split.
    + eapply used_trans; [|exact Hu']. apply used_insert; [rewrite Hk|]; by intros o [=].
Qed.

End Inv.
End BuddyInv.
