(* ===== verification/KallocBuddySpec.v ===== *)
(** * The buddy allocator against sets of blocks

    What an owner of a buddy allocator sees: a set of allocated blocks.  An allocation adds a
    block of the size asked for that was in no block before, and fails only when no aligned run
    of free pages is large enough; a free takes out exactly the block it names and anything else
    is refused and changes nothing; and the check that a debug build runs after every change
    never finds anything wrong. *)

From stdpp Require Import functions.
From S2P Require Import Prelude MmFrame MmPhys KallocBuddy KallocBuddyInv.
Import Buddy BuddyInv.
Local Open Scope nat_scope.

Module BuddySpec.

Section Inv.
Context {arch : Arch} {arch_ok : ArchOk} (usize_32 : (32 ≤ USIZE_BITS)%Z).

(** ** The check *)

Lemma usat_add_le a c n : (Z.of_nat n < NIL)%Z → (usat_add a c <=? n) = (a + c <=? n).
Proof using usize_32.
  intros Hn. unfold usat_add, FrameAllocator.usat_add. unfold NIL, u_max in *. assert (2 ^ 32 ≤ 2 ^ USIZE_BITS)%Z by (apply Z.pow_le_mono_r; lia).
  destruct (Z.leb_spec (Z.of_nat a + Z.of_nat c) (2 ^ USIZE_BITS - 1)); [done|]. destruct (Nat.leb_spec (a + c) n); [lia|]. apply Nat.leb_gt. lia.
Qed.

Lemma check_list_ok fuel : ∀ b o l count prv at_ lst,
  sized b → seg (next b) (prev b) prv at_ l lst NIL → (∀ p, p ∈ l → p < pages b ∧ tag b p = free_tag o) → count + length l ≤ pages b → length l < fuel →
  check_list fuel b o count prv at_ = Ok (count + length l).
Proof using usize_32.
  induction fuel as [|fuel IH]; intros b o l count prv at_ lst Hs Hseg Hl Hc Hf; [lia|]. destruct l as [|p l]; cbn [seg length check_list] in *.
  - destruct Hseg as [-> _]. rewrite Z.eqb_refl. f_equal. lia.
  - destruct Hseg as (-> & Hp & Hseg). destruct (Hl p ltac:(left)) as [Hpp Htag]. destruct (link_index usize_32 b p Hs Hpp) as (_ & Ei & Hn & _).
    rewrite (proj2 (Z.eqb_neq _ _)) by done. cbv zeta. rewrite (usat_add_small usize_32 count 1 (pages b)) by (apply (sz_pages _ Hs) || lia). rewrite (proj2 (Nat.ltb_ge _ _)) by lia. rewrite Ei.
    rewrite (proj2 (Nat.leb_gt _ _)) by done. rewrite Hp, Z.eqb_refl, Htag, Z.eqb_refl. cbn [negb].
    rewrite (IH b o l (count + 1) (Z.of_nat p) (next b p) lst); [f_equal; lia|done|done| |lia|lia]. intros q Hq. apply Hl. by right.
Qed.

Lemma iter_usat n s count : ∀ listed, (Z.of_nat n < NIL)%Z → listed + s * count ≤ n → Nat.iter count (λ m, usat_add m s) listed = listed + s * count.
Proof using usize_32.
  induction count as [|count IH]; intros listed Hn H; [cbn; lia|]. change (usat_add (Nat.iter count (λ m, usat_add m s) listed) s = listed + s * S count). rewrite Nat.mul_succ_r in *. rewrite IH by (done || lia). rewrite (usat_add_small usize_32 _ _ n); [lia|done|lia].
Qed.

Lemma check_lists_ok b K FL U y : inv b K FL U y y None → check_lists b 0 (seq 0 ORDERS) = Ok (free_pages b).
Proof using usize_32.
  intros Hi. pose proof Hi as [I1 I2 I3 I4 I5 I6 I7 I8 I9]. pose proof (inv_room _ _ _ _ _ _ _ Hi) as Hroom. rewrite I9 in *.
  assert (∀ m k sum, k + m = ORDERS → sum + sum_from k (drop k FL) ≤ pages b → check_lists b sum (seq k m) = Ok (sum + sum_from k (drop k FL))) as H.
  { induction m as [|m IH]; intros k sum Hk Hb.
    - rewrite drop_ge by (rewrite (ls_len _ _ _ _ I2); lia). cbn. f_equal. lia.
    - destruct (inv_list _ _ _ _ _ _ _ k Hi) as [l El]; [unfold ORDERS in Hk; lia|]. rewrite (drop_S _ _ _ El) in *. cbn [seq check_lists sum_from] in *.
      destruct (ls_seg _ _ _ _ I2 k l El) as [lst Hseg]. pose proof (lists_bound _ _ _ _ _ _ I2 El) as Hlen.
      assert (∀ p, p ∈ l → p < pages b ∧ tag b p = free_tag k) as Hl.
      { intros p Hp. assert (p < pages b) by (apply (ls_in _ _ _ _ I2); by eapply elem_concat). split; [done|]. rewrite I3 by done. by rewrite (proj1 (I4 k l p El) Hp). }
      rewrite (check_list_ok _ b k l 0 NIL _ lst) by (done || lia). cbn [Nat.add].
      rewrite bool_decide_eq_true_2 by (rewrite (ls_counts _ _ _ _ I2), list_lookup_fmap, El; done). cbn [negb].
      unfold block_pages. rewrite (iter_usat (pages b)) by (apply I1 || lia). rewrite IH by lia. f_equal. lia. }
  rewrite (H ORDERS 0 0) by (rewrite ?drop_0; lia). by rewrite drop_0.
Qed.

(** The sizes of the free blocks from [page] on. *)
Definition rest (page : nat) (L : list (nat * nat)) : nat := sum_list_with (λ x, if page <=? x.1 then 2 ^ x.2 else 0) L.

Lemma rest_step page o (f : bool) L :
  NoDup L.*1 → (∀ p r, (p, r) ∈ L → p = page → f = true ∧ r = o) → (f = true → (page, o) ∈ L) → (∀ p r, (p, r) ∈ L → page < p → page + 2 ^ o ≤ p) →
  rest page L = (if f then 2 ^ o else 0) + rest (page + 2 ^ o) L.
Proof using.
  unfold rest. pose proof (pow_pos o). induction L as [|[p r] L IH]; intros Hn Hp Hf Hin; [destruct f; [by apply elem_of_nil in Hf|done]|]. cbn [fmap list_fmap fst] in Hn. apply NoDup_cons in Hn as [Hpn Hn].
  cbn [sum_list_with fst snd]. destruct (decide (p = page)) as [->|Hne].
  - destruct (Hp page r ltac:(left) eq_refl) as [-> ->]. rewrite Nat.leb_refl. rewrite (proj2 (Nat.leb_gt (page + 2 ^ o) page)) by lia.
    assert (sum_list_with (λ x, if page <=? x.1 then 2 ^ x.2 else 0) L = sum_list_with (λ x, if page + 2 ^ o <=? x.1 then 2 ^ x.2 else 0) L) as ->; [|lia].
    assert (∀ p r, (p, r) ∈ L → page < p → page + 2 ^ o ≤ p) as Hin' by (intros q s Hq; apply (Hin q s); by right). clear IH Hp Hf Hin Hn. induction L as [|[q s] L IH]; [done|].
    cbn [sum_list_with fst snd]. rewrite IH; [|intros Hq; apply Hpn; by right|intros x z Hx; apply (Hin' x z); by right]. f_equal.
    assert (q ≠ page) as Hq by (intros ->; apply Hpn; left). specialize (Hin' q s ltac:(left)). destruct (Nat.leb_spec page q), (Nat.leb_spec (page + 2 ^ o) q); lia.
  - rewrite IH; [|done|intros q s Hq; apply (Hp q s); by right| |intros q s Hq; apply (Hin q s); by right].
    + specialize (Hin p r ltac:(left)). destruct (Nat.leb_spec page p), (Nat.leb_spec (page + 2 ^ o) p); lia.
    + intros E. specialize (Hf E). apply elem_of_cons in Hf as [[= <- <-]|]; [done|done].
Qed.

Lemma block_next b K FL U y page o f :
  inv b K FL U y y None → K page = Some (o, f) → page + 2 ^ o < pages b → ∃ k, K (page + 2 ^ o) = Some k.
Proof using.
  intros Hi E Hlt. pose proof (in_tiled _ _ _ _ _ _ _ Hi) as T. pose proof (pow_pos o). destruct (tl_cover _ _ _ _ T _ Hlt) as [?|(p & r & g & Ep & Hp)]; [lia|].
  destruct (decide (p = page + 2 ^ o)) as [->|Hne]; [by eexists|exfalso]. destruct (decide (p < page)); [rewrite (tl_inner _ _ _ _ T _ _ _ page Ep ltac:(lia)) in E; done|].
  destruct (decide (p = page)) as [->|]; [rewrite E in Ep; injection Ep as <- <-; lia|]. rewrite (tl_inner _ _ _ _ T _ _ _ p E ltac:(lia)) in Ep. done.
Qed.

Lemma check_pages_ok fuel : ∀ b K FL U y page tagged,
  inv b K FL U y y None → (page < pages b → ∃ k, K page = Some k) → pages b - page ≤ fuel → tagged + rest page (listed FL) ≤ pages b →
  check_pages fuel b tagged page = Ok (tagged + rest page (listed FL)).
Proof using usize_32.
  assert (∀ b K FL U y page, inv b K FL U y y None → pages b ≤ page → rest page (listed FL) = 0) as Hend.
  { intros b K FL U y page Hi Hp. assert (∀ p r, (p, r) ∈ listed FL → p < page) as Hlt.
    { intros p r H%(inv_listed _ _ _ _ _ _ _ _ _ Hi). pose proof (tl_block _ _ _ _ (in_tiled _ _ _ _ _ _ _ Hi) _ _ _ H). pose proof (pow_pos r). lia. }
    unfold rest. induction (listed FL) as [|[p r] L IH]; [done|]. cbn [sum_list_with fst snd]. rewrite IH by (intros q s Hq; apply (Hlt q s); by right). rewrite (proj2 (Nat.leb_gt _ _)); [done|]. apply (Hlt p r). left. }
  induction fuel as [|fuel IH]; intros b K FL U y page tagged Hi Hb Hf Hs.
  { cbn. rewrite (proj2 (Nat.leb_le _ _)) by lia. rewrite (Hend b K FL U y page) by (done || lia). f_equal. lia. }
  cbn [check_pages]. destruct (Nat.leb_spec (pages b) page) as [Hp|Hp]; [rewrite (Hend b K FL U y page) by done; f_equal; lia|].
  destruct (Hb Hp) as [[o f] Ek]. pose proof (in_tiled _ _ _ _ _ _ _ Hi) as T. destruct (tl_block _ _ _ _ T _ _ _ Ek) as (Ho & Hd & Hn). pose proof (sz_pages _ (in_sized _ _ _ _ _ _ _ Hi)) as Hnil. pose proof (pow_pos o) as Hpos.
  cbv zeta. rewrite (in_tags _ _ _ _ _ _ _ Hi page Hp) by done. rewrite Ek. destruct (code_bits o f Ho) as (B1 & B2 & B3). rewrite B1, B2, B3, !negb_involutive.
  assert (negb f && f = false) as -> by (by destruct f). unfold block_pages. rewrite (usat_add_small usize_32 page (2 ^ o) (pages b)) by done.
  rewrite (proj2 (Nat.ltb_ge _ _)) by done. rewrite (proj2 (Nat.Lcm0.mod_divide page (2 ^ o)) Hd). rewrite (proj2 (Nat.ltb_ge (pages b) _)) by lia. cbn [orb negb Nat.eqb].
  rewrite (usat_add_small usize_32 page 1 (pages b)) by (done || lia).
  destruct (List.find _ _) as [z|] eqn:Ez.
  { apply find_some in Ez as [Hz%in_seq Htz]. assert (K z = None) as Hkz by (eapply tl_inner; [exact T|exact Ek|lia]). rewrite (in_tags _ _ _ _ _ _ _ Hi z) in Htz by (done || lia). by rewrite Hkz in Htz. }
  rewrite usat_add_le by done. set (q := Nat.lxor page (2 ^ o)).
  destruct (f && (o <? MAX_ORDER) && (q + 2 ^ o <=? pages b) && (tag b q =? code (Some (o, f)))%Z) eqn:Ec.
  { exfalso. repeat apply andb_true_iff in Ec as [Ec ?]. breflect. subst f. rewrite (in_tags _ _ _ _ _ _ _ Hi q) in * by (done || lia).
    apply (tl_merged _ _ _ _ T page o Ek); [lia|]. change (K q = Some (o, true)). apply code_inj; [|by intros ? ? [= <- <-]|done]. intros o' f' E. by eapply tl_block. }
  assert (rest page (listed FL) = (if f then 2 ^ o else 0) + rest (page + 2 ^ o) (listed FL)) as Er.
  { apply rest_step.
    - rewrite listed_fst. apply (in_lists _ _ _ _ _ _ _ Hi).
    - intros p r H%(inv_listed _ _ _ _ _ _ _ _ _ Hi) ->. rewrite Ek in H. by injection H as -> ->.
    - intros ->. by eapply inv_listed.
    - intros p r H%(inv_listed _ _ _ _ _ _ _ _ _ Hi) Hlt. destruct (decide (page + 2 ^ o ≤ p)); [done|]. rewrite (tl_inner _ _ _ _ T _ _ _ p Ek ltac:(lia)) in H. done. }
  rewrite Er in *. rewrite (IH b K FL U y) with (page := page + 2 ^ o); [|done| |lia|].
  - f_equal. destruct f; [rewrite (usat_add_small usize_32 _ _ (pages b)) by (done || lia)|]; lia.
  - intros Hlt. by eapply block_next.
  - destruct f; [rewrite (usat_add_small usize_32 _ _ (pages b)) by (done || lia)|]; lia.
Qed.

Lemma check_ok b K FL U y : inv b K FL U y y None → check b = Ok tt.
Proof using usize_32.
  intros Hi. unfold check. rewrite (check_lists_ok _ _ _ _ _ Hi). rewrite Nat.eqb_refl. cbn [negb]. pose proof (inv_room _ _ _ _ _ _ _ Hi) as Hroom. pose proof (in_sum _ _ _ _ _ _ _ Hi) as Es.
  assert (rest 0 (listed FL) = free_pages b) as Er by (rewrite Es, <-listed_sizes; done).
  rewrite (check_pages_ok (pages b) b K FL U y 0 0 Hi); [|intros Hlt|lia|lia].
  - rewrite Er. cbn. by rewrite Nat.eqb_refl.
  - pose proof (in_tiled _ _ _ _ _ _ _ Hi) as T. destruct (tl_cover _ _ _ _ T 0 Hlt) as [?|(p & o & f & E & Hp)]; [lia|]. assert (p = 0) as -> by lia. by eexists.
Qed.

Lemma verify_ok checked b K FL U y : inv b K FL U y y None → verify checked b = Some tt.
Proof using usize_32. intros Hi. unfold verify. destruct checked; [|done]. by rewrite (check_ok _ _ _ _ _ Hi). Qed.
(** ** Carving the run *)

Lemma order_at_ok m page n :
  (Z.of_nat n < NIL)%Z → page < n → let o := order_at m page n in
  o ≤ m ∧ (2 ^ o | page) ∧ page + 2 ^ o ≤ n ∧ ∀ o', o < o' ≤ m → ¬ ((2 ^ o' | page) ∧ page + 2 ^ o' ≤ n).
Proof using usize_32.
  intros Hn Hp. cbv zeta. induction m as [|m IH]; cbn [order_at].
  - split_and!; [lia|apply Nat.divide_1_l|cbn; lia|lia].
  - rewrite Nat.ltb_antisym, usat_add_le by done. unfold block_pages. destruct (negb (page mod 2 ^ S m =? 0) || negb (page + 2 ^ S m <=? n)) eqn:E.
    + destruct IH as (H1 & H2 & H3 & H4). split_and!; [lia|done|done|]. intros o' Ho' [Hd Hf]. destruct (decide (o' = S m)) as [->|]; [|apply (H4 o'); [lia|done]].
      rewrite (proj2 (Nat.Lcm0.mod_divide _ _) Hd), (proj2 (Nat.leb_le _ _) Hf) in E. done.
    + apply orb_false_iff in E as [E1%negb_false_iff%Nat.eqb_eq E2%negb_false_iff%Nat.leb_le]. split_and!; [lia|by apply Nat.Lcm0.mod_divide|done|lia].
Qed.

(** Blocks that could not have been larger. *)
Definition greedy (n : nat) (K : nat → option (nat * bool)) : Prop :=
  ∀ q o f, K q = Some (o, f) → o < MAX_ORDER → ¬ ((2 ^ S o | q) ∧ q + 2 ^ S o ≤ n).

Lemma buddy_carve_ok fuel : ∀ b K FL page,
  inv b K FL [] page (pages b) None → greedy (pages b) K → pages b - page ≤ fuel →
  ∃ K' FL', inv (carve fuel b page) K' FL' [] (pages b) (pages b) None ∧ same b (carve fuel b page).
Proof using usize_32.
  induction fuel as [|fuel IH]; intros b K FL page Hi Hg Hf; cbn [carve]; pose proof (in_tiled _ _ _ _ _ _ _ Hi) as T; pose proof (tl_fits _ _ _ _ T) as Hfit.
  { rewrite (proj2 (Nat.leb_le _ _)) by lia. assert (page = pages b) as -> by lia. by exists K, FL. }
  destruct (Nat.leb_spec (pages b) page) as [Hle|Hlt]; [assert (page = pages b) as -> by lia; by exists K, FL|].
  pose proof (sz_pages _ (in_sized _ _ _ _ _ _ _ Hi)) as Hn. destruct (order_at_ok MAX_ORDER page (pages b) Hn Hlt) as (Ho & Hd & Hfo & Hmax). set (o := order_at MAX_ORDER page (pages b)) in *. clearbody o.
  pose proof (pow_pos o) as Hpos. assert (K page = None) as Hk by (eapply inv_hole; [exact Hi|lia]).
  destruct (buddy_inv_put usize_32 b K FL [] page (pages b) None page o (page + 2 ^ o) (pages b)) as (FL1 & Hi1 & S1); try done; [|lia|].
  { eapply tile_add_low; [exact T|done|done|done|]. intros _ Hlo E. destruct (halves page o Hd) as [Hl|(r & -> & Hr)].
    - rewrite lxor_lower in E by done. destruct (tl_hole _ _ _ _ T _ _ _ E); [lia|]. destruct (tl_block _ _ _ _ T _ _ _ E) as (_ & _ & ?). lia.
    - rewrite lxor_upper in E by done. apply (Hg r o true E Hlo). split; [done|]. rewrite Nat.pow_succ_r'. lia. }
  rewrite decide_False in Hi1 by done. unfold block_pages. rewrite (usat_add_small usize_32 _ _ (pages b)) by done. cbv zeta.
  set (b1 := push _ _ _) in *. rewrite <-(sm_pages _ _ S1) in Hi1, Hg.
  destruct (IH b1 _ _ _ Hi1) as (K' & FL' & Hi' & S').
  - intros q o' f'. destruct (decide (q = page)) as [->|]; [rewrite fn_lookup_insert; intros [= <- <-] Hlo [H1 H2]|rewrite fn_lookup_insert_ne by done; apply Hg].
    apply (Hmax (S o)); [lia|]. rewrite (sm_pages _ _ S1) in H2. done.
  - rewrite (sm_pages _ _ S1). lia.
  - exists K', FL'. rewrite (sm_pages _ _ S1) in Hi'. split; [done|by eapply buddy_same_trans].
Qed.

Lemma empty_inv r len n :
  9 * n ≤ len → (Z.of_nat n < NIL)%Z → (Z.of_nat (9 * n) ≤ u_max USIZE_BITS)%Z →
  inv {| store := replicate len 0%Z; run := r; base := FrameRange.start r; pages := n; heads := replicate ORDERS NIL;
         free_blocks := replicate ORDERS 0; free_pages := 0; live_blocks := 0; splits := 0; merges := 0 |}
    (λ _, None) (replicate ORDERS []) [] 0 n None.
Proof using.
  intros Hl Hn Hu. set (b := Build_t _ _ _ _ _ _ _ _ _ _). assert (sized b) as Hs by (split; cbn [b store pages heads free_blocks]; rewrite ?length_replicate; done).
  assert (concat (replicate ORDERS (@nil nat)) = []) as Ec by done. split; try done.
  - split; [by rewrite length_replicate| |rewrite Ec; constructor|rewrite Ec; intros p []%elem_of_nil|done].
    intros o l [-> Ho]%lookup_replicate. exists NIL. cbn [seg]. unfold head. cbn [b heads]. by rewrite (lookup_replicate_2 _ _ _ Ho).
  - intros p Hp _. rewrite tag_at by done. cbn [b store]. rewrite drop_replicate. by destruct (len - _).
  - intros o l p [-> _]%lookup_replicate. split; [by intros ?%elem_of_nil|done].
  - constructor.
  - intros p. split; [by intros ?%elem_of_nil|by intros [? [=]]].
  - split; try done; [intros i Hi; left; change (pages b) with n in Hi; lia|change (pages b) with n; lia].
Qed.

(** ** Sets of allocated blocks *)

(** The first page and the order of each allocated block. *)
Implicit Types A : gmap nat nat.

Definition taken A (i : nat) : Prop := ∃ p o, A !! p = Some o ∧ p ≤ i < p + 2 ^ o.
(** Pages [p, p + 2^o) of an allocator of [n] pages are an aligned run of free ones. *)
Definition room (n : nat) A (o p : nat) : Prop := (2 ^ o | p) ∧ p + 2 ^ o ≤ n ∧ ∀ i, p ≤ i < p + 2 ^ o → ¬ taken A i.
Definition used A : nat := sizes (map_to_list A).

Definition holds (b : t) A : Prop := ∃ K FL U y, inv b K FL U y y None ∧ ∀ p o, A !! p = Some o ↔ K p = Some (o, false).

(** The blocks of a tiling are all of the run. *)
Lemma sizes_eq n K y (L : list (nat * nat)) : tiled n K y y → NoDup L.*1 → (∀ p o, (p, o) ∈ L ↔ ∃ f, K p = Some (o, f)) → sizes L = n.
Proof using.
  intros T Hn HL. apply Nat.le_antisymm; [pose proof (sizes_le n K y y L T Hn ltac:(intros; by apply HL)); lia|].
  set (cover := (λ x, seq x.1 (2 ^ x.2)) <$> L). assert (length (concat cover) = sizes L) as <-.
  { unfold cover, sizes. clear. induction L as [|[p o] L IH]; [done|]. cbn. rewrite length_app, length_seq. cbn in IH. lia. }
  rewrite <-(length_seq n 0) at 1. apply submseteq_length, NoDup_submseteq; [apply NoDup_seq|]. intros i Hi%elem_of_seq.
  destruct (tl_cover _ _ _ _ T i ltac:(lia)) as [?|(p & o & f & E & Hp)]; [lia|]. apply list_elem_of_In, in_concat. exists (seq p (2 ^ o)). split; [|apply in_seq; lia].
  apply list_elem_of_In, list_elem_of_fmap. exists (p, o). split; [done|]. apply HL. by exists f.
Qed.

Lemma holds_counts b A : holds b A → live_blocks b = size A ∧ free_pages b + used A = pages b.
Proof using.
  intros (K & FL & U & y & Hi & HA). pose proof Hi as [I1 I2 I3 I4 I5 I6 I7 I8 I9]. split.
  - rewrite I7. rewrite <-(length_map_to_list A), <-(length_fmap fst (map_to_list A)). apply Permutation_length, NoDup_Permutation; [done|apply NoDup_fst_map_to_list|].
    intros p. rewrite I6, list_elem_of_fmap. split.
    + intros [o E%HA]. exists (p, o). split; [done|by apply elem_of_map_to_list].
    + intros ([q o] & -> & E%elem_of_map_to_list). exists o. by apply HA.
  - rewrite I9, <-listed_sizes. unfold used, sizes. rewrite <-sum_list_with_app. apply (sizes_eq _ K y); [done| |].
    + rewrite fmap_app, listed_fst. apply NoDup_app. split; [apply I2|]. split; [|apply NoDup_fst_map_to_list].
      intros p [o E]%(inv_concat _ _ _ _ _ _ _ _ Hi) ([q o'] & -> & E'%elem_of_map_to_list)%list_elem_of_fmap. apply HA in E'. cbn in E. congruence.
    + intros p o. rewrite elem_of_app, elem_of_map_to_list, HA, (inv_listed _ _ _ _ _ _ _ _ _ Hi). split; [intros [E|E]; by eexists|intros [[] E]; [by left|by right]].
Qed.

Lemma holds_blocks b A p o : holds b A → A !! p = Some o →
  o ≤ MAX_ORDER ∧ (2 ^ o | p) ∧ p + 2 ^ o ≤ pages b ∧ ∀ q r i, A !! q = Some r → p ≤ i < p + 2 ^ o → q ≤ i < q + 2 ^ r → q = p.
Proof using.
  intros (K & FL & U & y & Hi & HA) E%HA. pose proof (in_tiled _ _ _ _ _ _ _ Hi) as T. destruct (tl_block _ _ _ _ T _ _ _ E) as (H1 & H2 & H3). split_and!; [done..|].
  intros q r i Eq%HA H4 H5. destruct (Nat.lt_trichotomy q p) as [Hl|[?|Hl]]; [|done|].
  - rewrite (tl_inner _ _ _ _ T _ _ _ p Eq ltac:(lia)) in E. done.
  - rewrite (tl_inner _ _ _ _ T _ _ _ q E ltac:(lia)) in Eq. done.
Qed.

(** A run of free pages the size of a block lies in one free block: what merging is for. *)
Lemma room_in_block n K A y o : ∀ p,
  tiled n K y y → (∀ p o, A !! p = Some o ↔ K p = Some (o, false)) → o ≤ MAX_ORDER → room n A o p →
  ∃ q r, K q = Some (r, true) ∧ o ≤ r ∧ q ≤ p ∧ p + 2 ^ o ≤ q + 2 ^ r.
Proof using.
  intros p T HA. revert p. induction o as [|o IH]; intros p Ho (Hd & Hn & Hf).
  - cbn in *. destruct (tl_cover _ _ _ _ T p ltac:(lia)) as [?|(q & r & [] & E & Hp)]; [lia| |].
    + exists q, r. split_and!; (done || lia).
    + destruct (Hf p); [lia|]. exists q, r. split; [by apply HA|done].
  - assert (2 ^ S o = 2 ^ o + 2 ^ o) as E2 by (rewrite Nat.pow_succ_r'; lia). pose proof (pow_pos o).
    assert (2 ^ o | p) as Hdo by (eapply Nat.divide_trans; [apply (pow_mono o (S o)); lia|done]).
    assert (2 ^ o | p + 2 ^ o) as Hdo' by (apply Nat.divide_add_r; done).
    destruct (IH p ltac:(lia)) as (q1 & r1 & K1 & O1 & L1 & R1); [split_and!; [done|lia|intros i Hi; apply Hf; lia]|].
    destruct (IH (p + 2 ^ o) ltac:(lia)) as (q2 & r2 & K2 & O2 & L2 & R2); [split_and!; [done|lia|intros i Hi; apply Hf; lia]|].
    destruct (tl_block _ _ _ _ T _ _ _ K1) as (_ & D1 & _). destruct (tl_block _ _ _ _ T _ _ _ K2) as (_ & D2 & _).
    destruct (decide (S o ≤ r1)); [exists q1, r1; split_and!; [done|done|..]; apply (aligned_nest p (S o) q1 r1 p); (done || lia)|].
    destruct (decide (S o ≤ r2)); [exists q2, r2; split_and!; [done|done|..]; apply (aligned_nest p (S o) q2 r2 (p + 2 ^ o)); (done || lia)|].
    assert (r1 = o) as -> by lia. assert (r2 = o) as -> by lia. assert (q1 = p) as -> by lia. assert (q2 = p + 2 ^ o) as -> by lia.
    exfalso. apply (tl_merged _ _ _ _ T p o K1); [lia|]. by rewrite lxor_lower.
Qed.

(** A free block has room for every smaller one. *)
Lemma block_room n K A y q r o :
  tiled n K y y → (∀ p o, A !! p = Some o ↔ K p = Some (o, false)) → K q = Some (r, true) → o ≤ r → room n A o q.
Proof using.
  intros T HA E Ho. destruct (tl_block _ _ _ _ T _ _ _ E) as (_ & Hd & Hn). destruct (pow_mono o r Ho) as [Hle Hdiv].
  split; [by eapply Nat.divide_trans|]. split; [lia|]. intros i Hi (p & o' & E'%HA & Hp). destruct (Nat.lt_trichotomy q p) as [Hl|[->|Hl]]; [|congruence|].
  - rewrite (tl_inner _ _ _ _ T _ _ _ p E ltac:(lia)) in E'. done.
  - rewrite (tl_inner _ _ _ _ T _ _ _ q E' ltac:(lia)) in E. done.
Qed.

(** ** The calls *)

(** A run whose frames all exist. *)
Definition run_ok (r : FrameRange.t) : Prop :=
  Frame.wf (FrameRange.start r) ∧ (Frame.number (FrameRange.start r) + widen (FrameRange.count r) ≤ u_max 64 `min` FrameRange.frame_limit)%Z.

Definition managed (b : t) (r : FrameRange.t) : Prop := run b = r ∧ base b = FrameRange.start r ∧ pages b = FrameRange.count r.

Lemma managed_same b b' r : same b b' → managed b r → managed b' r.
Proof using. intros [] (H1 & H2 & H3). split_and!; congruence. Qed.

(** The frames of pages [p, p + 2^o) of the run. *)
Definition frames (r : FrameRange.t) (p o : nat) : FrameRange.t :=
  {| FrameRange.start := Frame.at_ ((Frame.number (FrameRange.start r) + widen p) * Frame.bytes); FrameRange.count := 2 ^ o |}.

Lemma number_at z : Frame.number (Frame.at_ (z * Frame.bytes)) = z.
Proof using arch_ok. unfold Frame.number, Frame.index_of. cbn. apply Z.div_mul. pose proof Frame.bytes_pos. lia. Qed.

Lemma frame_at_ok b r p : run_ok r → managed b r → p < pages b → frame_at b p = Ok (Frame.at_ ((Frame.number (FrameRange.start r) + widen p) * Frame.bytes)).
Proof using arch_ok.
  intros [Hw Hr] (_ & Eb & Ep) Hp. unfold frame_at. rewrite Eb. rewrite Ep in Hp. destruct (Frame.wf_number _ Hw) as [_ H0]. unfold widen in *. unfold checked_add. rewrite (proj2 (Z.leb_le _ _)) by lia. cbn [ok_or].
  rewrite FrameRange.from_number_limit by lia. by rewrite (proj2 (Z.ltb_lt _ _)) by lia.
Qed.

Lemma range_ok b r p o : run_ok r → managed b r → p + 2 ^ o ≤ pages b → (let? f := frame_at b p in FrameRange.new f (block_pages o)) = Ok (frames r p o).
Proof using arch_ok.
  intros Hr Hm Hp. pose proof (pow_pos o). rewrite (frame_at_ok b r) by (done || lia). cbn beta iota. unfold FrameRange.new, block_pages. rewrite (proj2 (Nat.eqb_neq _ _)) by lia.
  rewrite number_at. destruct Hr as [_ Hr]. destruct Hm as (_ & _ & Ep). rewrite Ep in Hp. unfold widen in *. unfold checked_add. by rewrite (proj2 (Z.leb_le _ _)) by lia.
Qed.

Lemma head_block b K FL U hs he x o : inv b K FL U hs he x → o ≤ MAX_ORDER →
  (head b o = NIL ∧ ∀ p, K p ≠ Some (o, true)) ∨ ∃ p, head b o = Z.of_nat p ∧ K p = Some (o, true) ∧ p < pages b.
Proof using.
  intros Hi Ho. destruct (inv_list _ _ _ _ _ _ _ o Hi Ho) as [l El]. destruct (ls_seg _ _ _ _ (in_lists _ _ _ _ _ _ _ Hi) o l El) as [lst Hs]. pose proof (in_free _ _ _ _ _ _ _ Hi o l) as Hf.
  destruct l as [|p l]; cbn [seg] in Hs.
  - left. split; [by destruct Hs|]. intros p E%(Hf p El). by apply elem_of_nil in E.
  - right. exists p. destruct Hs as (-> & _). assert (K p = Some (o, true)) as E by (apply (Hf p El); left). split_and!; [done..|]. pose proof (tl_block _ _ _ _ (in_tiled _ _ _ _ _ _ _ Hi) _ _ _ E). pose proof (pow_pos o). lia.
Qed.

Inductive alloc_spec (r : FrameRange.t) A (o : nat) : gmap nat nat → result FrameRange.t AllocError → Prop :=
| alloc_takes p : o ≤ MAX_ORDER → room (FrameRange.count r) A o p → alloc_spec r A o (<[p := o]> A) (Ok (frames r p o))
| alloc_fragmented : o ≤ MAX_ORDER → (∀ p, ¬ room (FrameRange.count r) A o p) → 2 ^ o + used A ≤ FrameRange.count r → alloc_spec r A o A (Err Fragmented)
| alloc_exhausted : MAX_ORDER < o ∨ (∀ p, ¬ room (FrameRange.count r) A o p) ∧ FrameRange.count r < 2 ^ o + used A → alloc_spec r A o A (Err Exhausted).

Lemma alloc_order_ok checked b r A o :
  run_ok r → managed b r → holds b A →
  ∃ b' A' res, alloc_order checked b o = Some (b', res) ∧ managed b' r ∧ holds b' A' ∧ alloc_spec r A o A' res.
Proof using usize_32 arch_ok.
  intros Hr Hm Hh. pose proof (holds_counts _ _ Hh) as [_ Hc]. pose proof Hh as (K & FL & U & y & Hi & HA). pose proof (in_tiled _ _ _ _ _ _ _ Hi) as T. unfold alloc_order.
  destruct (Nat.ltb_spec MAX_ORDER o) as [Hlt|Hle]; [exists b, A, (Err Exhausted); split_and!; try done; apply alloc_exhausted; by left|].
  pose proof Hm as (_ & _ & Ep). destruct (List.find _ _) as [have|] eqn:Ef.
  - apply find_some in Ef as [Hhave%in_seq Hhd%negb_true_iff%Z.eqb_neq]. unfold ORDERS in Hhave. destruct (head_block _ _ _ _ _ _ _ have Hi ltac:(lia)) as [[? _]|(p & Ehd & Hk & Hp)]; [done|].
    destruct (tl_block _ _ _ _ T _ _ _ Hk) as (_ & Hd & Hn). rewrite Ehd. destruct (link_index usize_32 b p (in_sized _ _ _ _ _ _ _ Hi) Hp) as (_ & -> & _). cbv zeta.
    destruct (buddy_inv_take usize_32 b K FL U y y None p have _ _ Hi Hk eq_refl (tile_remove _ _ _ _ _ _ T Hk)) as (FL1 & Hi1 & S1 & _).
    destruct (split_ok usize_32 have _ _ _ _ p o Hi1 Hd ltac:(lia) ltac:(lia)) as (K2 & FL2 & Hi2 & S2 & Hu). pose proof (buddy_same_trans _ _ _ S1 S2) as S12. set (b2 := split _ _ _ _) in *.
    destruct (pow_mono o have ltac:(lia)) as [Hpm Hpd]. assert (2 ^ o | p) as Hdo by (by eapply Nat.divide_trans).
    pose proof (inv_use usize_32 b2 K2 FL2 U p o Hi2 Hdo Hle) as Hi3. cbv zeta in Hi3. set (b3 := set_live _ (set_tag b2 p (used_tag o))) in *.
    rewrite (verify_ok checked _ _ _ _ _ Hi3). cbn [mbind option_bind].
    assert (managed b3 r) as Hm3. { pose proof (managed_same _ _ _ S12 Hm) as Hm2. by apply (managed_same _ _ _ (same_tag b2 p (used_tag o))) in Hm2. }
    assert (pages b3 = pages b) as Ep3 by (destruct Hm3 as (_ & _ & ->); done).
    exists b3, (<[p := o]> A), (Ok (frames r p o)). split_and!; [by rewrite (range_ok _ r) by (done || lia)|done| |].
    + eexists _, _, _, _. split; [exact Hi3|]. intros q r'. destruct (decide (q = p)) as [->|Hne]; [rewrite lookup_insert_eq, fn_lookup_insert; split; congruence|].
      rewrite lookup_insert_ne, fn_lookup_insert_ne by done. rewrite HA, (Hu q r'). by rewrite fn_lookup_insert_ne.
    + apply alloc_takes; [done|]. rewrite <-Ep. eapply block_room; [exact T|exact HA|exact Hk|lia].
  - assert (∀ p, ¬ room (FrameRange.count r) A o p) as Hno.
    { rewrite <-Ep. intros p Hp. destruct (room_in_block _ _ _ _ _ _ T HA Hle Hp) as (q & r' & Hk & Hle' & _). destruct (tl_block _ _ _ _ T _ _ _ Hk) as (Hr' & _).
      pose proof (find_none _ _ Ef r' ltac:(apply in_seq; unfold ORDERS; lia)) as Hnil. cbn in Hnil. apply negb_false_iff, Z.eqb_eq in Hnil.
      destruct (head_block _ _ _ _ _ _ _ r' Hi Hr') as [[_ Hx]|(q' & E & _ & Hq')]; [by apply (Hx q)|]. destruct (link_index usize_32 b q' (in_sized _ _ _ _ _ _ _ Hi) Hq') as (_ & _ & ? & _). congruence. }
    unfold block_pages. destruct (Nat.leb_spec (2 ^ o) (free_pages b)).
    + exists b, A, (Err Fragmented). split_and!; try done. apply alloc_fragmented; [done|done|lia].
    + exists b, A, (Err Exhausted). split_and!; try done. apply alloc_exhausted. right. split; [done|lia].
Qed.

Lemma pow_usize o n : (Z.of_nat n < NIL)%Z → 2 ^ o ≤ n → (2 ^ Z.of_nat o ≤ u_max USIZE_BITS)%Z.
Proof using usize_32.
  intros Hn Ho. assert (Z.of_nat (2 ^ o) ≤ Z.of_nat n)%Z by lia. rewrite Nat2Z.inj_pow in H. unfold NIL, u_max in *. assert (2 ^ 32 ≤ 2 ^ USIZE_BITS)%Z by (apply Z.pow_le_mono_r; lia). lia.
Qed.

Lemma order_for_eq n : n ≠ 0 → order_for n = if Nat.log2_up n <=? MAX_ORDER then Some (Nat.log2_up n) else None.
Proof using usize_32.
  intros Hn. unfold order_for. rewrite Nat.max_l by lia. set (o := Nat.log2_up n). destruct (Nat.leb_spec o MAX_ORDER) as [Ho|Ho]; [|by destruct (_ <? _)%Z].
  rewrite (proj2 (Z.ltb_ge _ _)); [done|]. apply (pow_usize o (2 ^ o)); [|done]. destruct (pow_mono o MAX_ORDER Ho) as [H _]. change (2 ^ MAX_ORDER) with 1024 in H. unfold NIL, u_max. lia.
Qed.

Inductive pages_spec (r : FrameRange.t) A (n : nat) : gmap nat nat → result FrameRange.t AllocError → Prop :=
| pages_none : n = 0 → pages_spec r A n A (Err EmptyRequest)
| pages_some o A' res : n ≠ 0 → n ≤ 2 ^ o → (∀ o', n ≤ 2 ^ o' → o ≤ o') → alloc_spec r A o A' res → pages_spec r A n A' res.

Lemma alloc_pages_ok checked b r A n :
  run_ok r → managed b r → holds b A →
  ∃ b' A' res, alloc_pages checked b n = Some (b', res) ∧ managed b' r ∧ holds b' A' ∧ pages_spec r A n A' res.
Proof using usize_32 arch_ok.
  intros Hr Hm Hh. unfold alloc_pages. destruct (Nat.eqb_spec n 0) as [Hn|Hn]; [exists b, A, (Err EmptyRequest); split_and!; try done; by apply pages_none|].
  assert (n ≤ 2 ^ Nat.log2_up n) as Hle by (destruct (decide (n = 1)) as [->|]; [done|]; apply Nat.log2_up_spec; lia).
  assert (∀ o', n ≤ 2 ^ o' → Nat.log2_up n ≤ o') as Hmin by (intros o' Ho'; apply Nat.log2_up_le_pow2; [lia|done]).
  rewrite order_for_eq by done. destruct (Nat.leb_spec (Nat.log2_up n) MAX_ORDER) as [Ho|Ho].
  - destruct (alloc_order_ok checked b r A (Nat.log2_up n) Hr Hm Hh) as (b' & A' & res & E & Hm' & Hh' & Hsp). exists b', A', res. split_and!; try done. by eapply pages_some.
  - exists b, A, (Err Exhausted). split_and!; try done. eapply pages_some; [done|done|done|]. apply alloc_exhausted. by left.
Qed.

Lemma buddy_power_of_two n : is_power_of_two n = true ↔ ∃ o, n = 2 ^ o.
Proof using.
  unfold is_power_of_two. rewrite andb_true_iff, negb_true_iff, Nat.eqb_neq, Nat.eqb_eq. split; [intros [_ H]; by eexists|]. intros [o ->]. pose proof (pow_pos o). rewrite Nat.log2_pow2 by lia. split; [lia|done].
Qed.

(** The range is inside the run, and the block it names. *)
Definition inside (r rg : FrameRange.t) : Prop :=
  let f := Frame.number (FrameRange.start rg) in let s := Frame.number (FrameRange.start r) in let n := widen (FrameRange.count r) in
  (s ≤ f < s + n ∧ f + widen (FrameRange.count rg) ≤ s + n)%Z.
Definition names (r rg : FrameRange.t) (p o : nat) : Prop :=
  Frame.number (FrameRange.start rg) = (Frame.number (FrameRange.start r) + widen p)%Z ∧ FrameRange.count rg = 2 ^ o.

Lemma names_frames r p o : names r (frames r p o) p o.
Proof using arch_ok. split; [apply number_at|done]. Qed.

Lemma buddy_index_of_spec b r f : sized b → managed b r → match index_of b f with
  | Ok p => Frame.number f = (Frame.number (FrameRange.start r) + widen p)%Z ∧ p < pages b
  | Err e => e = Unmanaged ∧ ¬ (Frame.number (FrameRange.start r) ≤ Frame.number f < Frame.number (FrameRange.start r) + widen (pages b))%Z end.
Proof using usize_32.
  intros Hs (_ & Eb & _). unfold index_of, checked_sub. rewrite Eb. set (s := Frame.number (FrameRange.start r)). set (n := Frame.number f). unfold widen. destruct (Z.leb_spec s n) as [Hl|Hl]; cbn [ok_or]; [|split; [done|lia]].
  pose proof (sz_pages _ Hs) as Hn. unfold NIL, u_max in Hn. assert (2 ^ 32 ≤ 2 ^ USIZE_BITS)%Z by (apply Z.pow_le_mono_r; lia).
  unfold narrow, u_max. destruct (Z.leb_spec (n - s) (2 ^ USIZE_BITS - 1)); [|split; [done|lia]]. destruct (Nat.leb_spec (pages b) (Z.to_nat (n - s))); split; (done || lia).
Qed.

Inductive free_spec (r : FrameRange.t) A (rg : FrameRange.t) : gmap nat nat → result unit AllocError → Prop :=
| free_gives p o : A !! p = Some o → names r rg p o → free_spec r A rg (delete p A) (Ok tt)
| free_unmanaged : ¬ inside r rg → free_spec r A rg A (Err Unmanaged)
| free_double p : inside r rg → Frame.number (FrameRange.start rg) = (Frame.number (FrameRange.start r) + widen p)%Z → ¬ taken A p → free_spec r A rg A (Err NotAllocated)
| free_misaligned : inside r rg → (∀ p o, A !! p = Some o → ¬ names r rg p o) → free_spec r A rg A (Err Misaligned).

(** An allocated block given back. *)
Lemma buddy_release_ok checked b r A p o :
  managed b r → holds b A → A !! p = Some o →
  let b1 := set_tag b p 0 in
  let '(b2, page, order) := merge ORDERS (set_live (live_blocks b1 - 1) b1) p o in
  let b3 := push (set_tag b2 page (free_tag order)) page order in
  verify checked b3 = Some tt ∧ managed b3 r ∧ holds b3 (delete p A).
Proof using usize_32.
  intros Hm (K & FL & U & y & Hi & HA) Hk%HA. cbv zeta. destruct (tl_block _ _ _ _ (in_tiled _ _ _ _ _ _ _ Hi) _ _ _ Hk) as (Ho & Hd & Hn).
  destruct (buddy_inv_release b K FL U y p o Hi Hk) as [U1 Hi1]. pose proof (same_tag b p 0) as S0. set (b0 := set_live _ _) in *.
  assert (managed b0 r) as Hm0 by (by apply (managed_same _ _ _ S0) in Hm).
  destruct (merge_ok usize_32 ORDERS b0 _ FL U1 p o Hi1 Hd Ho ltac:(unfold ORDERS; lia)) as (b2 & q & o2 & K2 & FL2 & -> & Hi2 & Hd2 & Ho2 & Hbud & S2 & Hu).
  pose proof (in_tiled _ _ _ _ _ _ _ Hi2) as T2. pose proof (tl_fits _ _ _ _ T2) as Hfit. pose proof (pow_pos o2) as Hpos.
  assert (K2 q = None) as Hkq by (eapply inv_hole; [exact Hi2|lia]).
  destruct (buddy_inv_put usize_32 b2 K2 FL2 U1 q (q + 2 ^ o2) None q o2 q q) as (FL3 & Hi3 & S3); [done|done|lia|done| |lia|].
  { eapply tile_add; [exact T2|done|done|lia|done|]. intros _ Hlt. by apply Hbud. }
  rewrite decide_False in Hi3 by done. set (b3 := push _ _ _) in *. split_and!.
  - by eapply verify_ok.
  - eapply managed_same; [exact S3|]. by eapply managed_same.
  - eexists _, _, _, _. split; [exact Hi3|]. intros x o'. assert (used_same K2 (<[q := Some (o2, true)]> K2)) as Hu2 by (apply used_insert; [rewrite Hkq|]; by intros ? [=]).
    rewrite (Hu2 x o'), (Hu x o'). destruct (decide (x = p)) as [->|Hne]; [rewrite lookup_delete_eq, fn_lookup_insert; split; congruence|].
    by rewrite lookup_delete_ne, fn_lookup_insert_ne by done.
Qed.

Lemma free_ok checked b r A rg :
  managed b r → holds b A → ∃ b' A' res, free checked b rg = Some (b', res) ∧ managed b' r ∧ holds b' A' ∧ free_spec r A rg A' res.
Proof using usize_32.
  intros Hm Hh. pose proof Hh as (K & FL & U & y & Hi & HA). pose proof (in_tiled _ _ _ _ _ _ _ Hi) as T. pose proof (in_sized _ _ _ _ _ _ _ Hi) as Hs. pose proof Hm as (_ & _ & Ep).
  assert (∀ A' res, free_spec r A rg A' res → A' = A → ∃ b' A' r0, Some (b, res) = Some (b', r0) ∧ managed b' r ∧ holds b' A' ∧ free_spec r A rg A' r0) as Hstay by (intros A' res H ->; by exists b, A, res).
  unfold free. pose proof (buddy_index_of_spec b r (FrameRange.start rg) Hs Hm) as Hix. destruct (index_of b (FrameRange.start rg)) as [p|e].
  2:{ destruct Hix as [-> Hout]. eapply Hstay; [|done]. apply free_unmanaged. intros [Hin _]. rewrite Ep in Hout. done. }
  destruct Hix as [Enum Hp]. cbv zeta. set (c := FrameRange.count rg).
  assert (inside r rg ↔ p + c ≤ pages b) as Hin by (unfold inside; rewrite Enum, <-Ep; unfold widen; fold c; lia).
  destruct (match uadd p c with Some e => pages b <? e | None => true end) eqn:Ec.
  { eapply Hstay; [|done]. apply free_unmanaged. rewrite Hin. unfold uadd, FrameAllocator.uadd in Ec. pose proof (sz_pages _ Hs) as Hn. unfold NIL, u_max in *.
    assert (2 ^ 32 ≤ 2 ^ USIZE_BITS)%Z by (apply Z.pow_le_mono_r; lia). destruct (Z.leb_spec (Z.of_nat p + Z.of_nat c) (2 ^ USIZE_BITS - 1)); [apply Nat.ltb_lt in Ec|]; lia. }
  assert (inside r rg) as Hins.
  { apply Hin. unfold uadd, FrameAllocator.uadd in Ec. destruct (_ <=? _)%Z; [|done]. by apply Nat.ltb_ge in Ec. }
  assert (∀ q o, names r rg q o → q = p ∧ c = 2 ^ o) as Hnm by (intros q o [H1 H2]; split; [unfold widen in *; lia|done]).
  destruct (is_power_of_two c) eqn:Epow; cbn [negb].
  2:{ eapply Hstay; [|done]. apply free_misaligned; [done|]. intros q o _ [_ E]%Hnm. rewrite (proj2 (buddy_power_of_two c)) in Epow; [done|by exists o]. }
  apply buddy_power_of_two in Epow as [o Eo]. pose proof (pow_pos o). rewrite order_for_eq by lia. rewrite Eo, Nat.log2_up_pow2 by lia.
  assert (∀ q o', names r rg q o' → q = p ∧ o' = o) as Hnm'. { intros q o' [-> E]%Hnm. split; [done|]. rewrite Eo in E. symmetry. by apply (Nat.pow_inj_r 2); [lia|]. }
  destruct (Nat.leb_spec o MAX_ORDER) as [Ho|Ho].
  2:{ eapply Hstay; [|done]. apply free_misaligned; [done|]. intros q o' E%HA [-> ->]%Hnm'. destruct (tl_block _ _ _ _ T _ _ _ E) as (? & _). lia. }
  rewrite (in_tags _ _ _ _ _ _ _ Hi p Hp) by done. destruct (K p) as [[o' f]|] eqn:Ek.
  2:{ cbn. eapply Hstay; [|done]. apply free_misaligned; [done|]. intros q o' E%HA [-> ->]%Hnm'. congruence. }
  destruct (tl_block _ _ _ _ T _ _ _ Ek) as (Ho' & _ & _). destruct (code_bits o' f Ho') as (-> & -> & ->). destruct f; cbn [negb orb].
  { eapply Hstay; [|done]. apply (free_double _ _ _ p); [done|done|]. intros (q & r' & E%HA & Hq). destruct (decide (q = p)) as [->|]; [congruence|]. rewrite (tl_inner _ _ _ _ T _ _ _ p E ltac:(lia)) in Ek. done. }
  destruct (Nat.eqb_spec o' o) as [->|Hne]; cbn [negb].
  2:{ eapply Hstay; [|done]. apply free_misaligned; [done|]. intros q r' E%HA [-> ->]%Hnm'. congruence. }
  apply HA in Ek. pose proof (buddy_release_ok checked b r A p o Hm Hh Ek) as Hrel. cbv zeta in Hrel. destruct (merge _ _ _ _) as [[b2 page] order]. destruct Hrel as (-> & Hm' & Hh'). cbn [mbind option_bind].
  eexists _, _, _. split_and!; [done|done|done|]. apply (free_gives _ _ _ p o); [done|]. by split.
Qed.

(** The allocator over a run it can manage: there is one when the store is large enough, and
    nothing is allocated in it. *)
Lemma buddy_new_ok checked r st : match new checked r st with
  | None => False
  | Some (Ok b) => managed b r ∧ holds b ∅
  | Some (Err e) =>
      let n := FrameRange.count r in
      if (NIL <=? widen n)%Z || (u_max USIZE_BITS <? Z.of_nat (9 * n))%Z then e = Overflow else length st < 9 * n ∧ e = StorageTooSmall (Z.of_nat (9 * n)) end.
Proof using usize_32.
  unfold new. set (n := FrameRange.count r). unfold store_bytes. destruct (Z.leb_spec NIL (widen n)) as [?|Hn]; [done|].
  unfold umul, FrameAllocator.umul, STORE_BYTES_PER_PAGE. cbn [orb]. unfold widen in *. rewrite (Nat.mul_comm n 9). rewrite Z.ltb_antisym. destruct (Z.leb_spec (Z.of_nat n * Z.of_nat 9) (u_max USIZE_BITS)) as [Hu|Hu]; cbn [ok_or].
  2:{ by rewrite (proj2 (Z.leb_gt _ _)) by lia. }
  destruct (Nat.ltb_spec (length st) (9 * n)); [rewrite (proj2 (Z.leb_le _ _)) by lia; done|].
  set (b0 := Build_t _ _ _ _ _ _ _ _ _ _). assert (inv b0 (λ _, None) (replicate ORDERS []) [] 0 n None) as Hi by (apply empty_inv; (done || lia)).
  destruct (buddy_carve_ok n b0 _ _ 0 Hi) as (K' & FL' & Hi' & S'); [done|change (pages b0) with n; lia|]. rewrite (verify_ok checked _ _ _ _ _ Hi'). cbn [mbind option_bind]. split.
  - eapply managed_same; [exact S'|]. done.
  - eexists _, _, _, _. split; [exact Hi'|]. intros p o. rewrite lookup_empty. split; [done|]. intros E. assert (p ∈ @nil nat) as Hp by (apply (in_used _ _ _ _ _ _ _ Hi'); by exists o). by apply elem_of_nil in Hp.
Qed.

End Inv.
End BuddySpec.
