(* ===== verification/KallocBuddyRuns.v ===== *)
(** * The buddy allocator under any sequence of calls

    From [new] on, every sequence of allocations and frees is answered, [check] finding nothing
    wrong after any of them, and the answers are those of a set of allocated blocks; so no frame
    is ever in two blocks that are out. *)

From S2P Require Import Prelude MmFrame MmPhys KallocBuddy KallocBuddyInv KallocBuddySpec.
Import Buddy BuddyInv BuddySpec.
Local Open Scope nat_scope.

Module BuddyRuns.

Inductive call := AllocPages (n : nat) | AllocOrder (o : nat) | Free (rg : FrameRange.t).
Inductive answer := Block (res : result FrameRange.t AllocError) | Freed (res : result unit AllocError).

Section Runs.
Context {arch : Arch}.

(** [None] is a panic. *)
Definition serve (checked : bool) (b : t) (c : call) : option (t * answer) :=
  match c with
  | AllocPages n => '(b, res) ← alloc_pages checked b n; Some (b, Block res)
  | AllocOrder o => '(b, res) ← alloc_order checked b o; Some (b, Block res)
  | Free rg => '(b, res) ← free checked b rg; Some (b, Freed res)
  end.

Fixpoint serve_all (checked : bool) (b : t) (cs : list call) : option (t * list answer) :=
  match cs with
  | [] => Some (b, [])
  | c :: cs => '(b, x) ← serve checked b c; '(b, xs) ← serve_all checked b cs; Some (b, x :: xs)
  end.

(** What a call may answer when the blocks of [A] are out, and what is out then. *)
Inductive call_spec (r : FrameRange.t) (A : gmap nat nat) : call → gmap nat nat → answer → Prop :=
| spec_pages n A' res : pages_spec r A n A' res → call_spec r A (AllocPages n) A' (Block res)
| spec_order o A' res : alloc_spec r A o A' res → call_spec r A (AllocOrder o) A' (Block res)
| spec_free rg A' res : free_spec r A rg A' res → call_spec r A (Free rg) A' (Freed res).

Inductive calls_spec (r : FrameRange.t) : gmap nat nat → list call → gmap nat nat → list answer → Prop :=
| specs_nil A : calls_spec r A [] A []
| specs_cons A c A1 x cs A' xs : call_spec r A c A1 x → calls_spec r A1 cs A' xs → calls_spec r A (c :: cs) A' (x :: xs).

(** The ranges that are out after the calls, by what the caller saw. *)
Definition same_range (a c : FrameRange.t) : bool :=
  (Frame.number (FrameRange.start a) =? Frame.number (FrameRange.start c))%Z && (FrameRange.count a =? FrameRange.count c).
Definition live_after (L : list FrameRange.t) (c : call) (x : answer) : list FrameRange.t :=
  match c, x with
  | Free rg, Freed (Ok _) => filter (λ g, same_range g rg = false) L
  | _, Block (Ok rg) => rg :: L
  | _, _ => L
  end.
Fixpoint live (L : list FrameRange.t) (cs : list call) (xs : list answer) : list FrameRange.t :=
  match cs, xs with c :: cs, x :: xs => live (live_after L c x) cs xs | _, _ => L end.

Section Proofs.
Context {arch_ok : ArchOk} (usize_32 : (32 ≤ USIZE_BITS)%Z).

Lemma buddy_serve_ok checked b r A c : run_ok r → managed b r → holds b A →
  ∃ b' A' x, serve checked b c = Some (b', x) ∧ managed b' r ∧ holds b' A' ∧ call_spec r A c A' x.
Proof using usize_32 arch_ok.
  intros Hr Hm Hh. destruct c as [n|o|rg]; cbn [serve].
  - destruct (alloc_pages_ok usize_32 checked b r A n Hr Hm Hh) as (b' & A' & res & -> & Hm' & Hh' & Hs). exists b', A', (Block res). split_and!; try done. by constructor.
  - destruct (alloc_order_ok usize_32 checked b r A o Hr Hm Hh) as (b' & A' & res & -> & Hm' & Hh' & Hs). exists b', A', (Block res). split_and!; try done. by constructor.
  - destruct (free_ok usize_32 checked b r A rg Hm Hh) as (b' & A' & res & -> & Hm' & Hh' & Hs). exists b', A', (Freed res). split_and!; try done. by constructor.
Qed.

Lemma serve_all_ok checked r cs : ∀ b A, run_ok r → managed b r → holds b A →
  ∃ b' A' xs, serve_all checked b cs = Some (b', xs) ∧ managed b' r ∧ holds b' A' ∧ calls_spec r A cs A' xs.
Proof using usize_32 arch_ok.
  induction cs as [|c cs IH]; intros b A Hr Hm Hh; cbn [serve_all]; [exists b, A, []; split_and!; try done; constructor|].
  destruct (buddy_serve_ok checked b r A c Hr Hm Hh) as (b1 & A1 & x & -> & Hm1 & Hh1 & Hs1). cbn [mbind option_bind].
  destruct (IH b1 A1 Hr Hm1 Hh1) as (b2 & A2 & xs & -> & Hm2 & Hh2 & Hs2). cbn [mbind option_bind]. exists b2, A2, (x :: xs). split_and!; try done. by econstructor.
Qed.

Lemma new_holds checked r st b : new checked r st = Some (Ok b) → managed b r ∧ holds b ∅.
Proof using usize_32. intros E. pose proof (buddy_new_ok usize_32 checked r st) as H. by rewrite E in H. Qed.

Lemma holds_check b A : holds b A → check b = Ok tt.
Proof using usize_32. intros (K & FL & U & y & Hi & _). by eapply check_ok. Qed.

(** ** What is out *)

Definition shown (r : FrameRange.t) (L : list FrameRange.t) (A : gmap nat nat) : Prop := L ≡ₚ (λ x, frames r x.1 x.2) <$> map_to_list A.

Lemma same_range_frames r rg p o q s : names r rg p o → same_range (frames r q s) rg = true ↔ q = p ∧ s = o.
Proof using arch_ok.
  intros [E1 E2]. unfold same_range, frames. cbn [FrameRange.start FrameRange.count]. rewrite number_at, E1, E2, andb_true_iff, Z.eqb_eq, Nat.eqb_eq. unfold widen.
  split; [intros [H1 H2]; split; [lia|by apply (Nat.pow_inj_r 2) in H2; [|lia]]|by intros [-> ->]].
Qed.

Lemma shown_alloc r L A p o n : shown r L A → room n A o p → shown r (frames r p o :: L) (<[p := o]> A).
Proof using.
  unfold shown. intros HL (_ & _ & Hf). rewrite map_to_list_insert; [csimpl; by rewrite HL|]. destruct (A !! p) as [o'|] eqn:E; [|done]. exfalso. pose proof (pow_pos o). pose proof (pow_pos o').
  apply (Hf p); [lia|]. exists p, o'. split; [done|lia].
Qed.

Lemma shown_free r L A rg p o : shown r L A → A !! p = Some o → names r rg p o → shown r (filter (λ g, same_range g rg = false) L) (delete p A).
Proof using arch_ok.
  unfold shown. intros -> E Hn. rewrite <-(map_to_list_delete A p o E). csimpl. rewrite filter_cons_False by (cbn; rewrite (proj2 (same_range_frames r rg p o p o Hn)); done).
  assert (∀ x, x ∈ map_to_list (delete p A) → same_range (frames r x.1 x.2) rg = false) as H.
  { intros [q s] Hq%elem_of_map_to_list. destruct (same_range _ _) eqn:Es; [|done]. apply (same_range_frames r rg p o q s Hn) in Es as [-> _]. by rewrite lookup_delete_eq in Hq. }
  induction (map_to_list (delete p A)) as [|x l IH]; [done|]. csimpl. rewrite filter_cons_True by (apply H; left). f_equiv. apply IH. intros y Hy. apply H. by right.
Qed.

Lemma shown_alloc_spec r L A o A' res : shown r L A → alloc_spec r A o A' res → shown r (match res with Ok rg => rg :: L | Err _ => L end) A'.
Proof using. intros HL []; [by eapply shown_alloc|done|done]. Qed.

Lemma shown_after r L A c A' x : shown r L A → call_spec r A c A' x → shown r (live_after L c x) A'.
Proof using arch_ok.
  intros HL []; cbn [live_after].
  - destruct H as [|o A1 res1 _ _ _ H]; [done|]. apply (shown_alloc_spec r L) in H; [|done]. by case_match.
  - apply (shown_alloc_spec r L) in H; [|done]. by case_match.
  - destruct H; [by eapply shown_free|done..].
Qed.

Lemma shown_live r A cs A' xs : calls_spec r A cs A' xs → ∀ L, shown r L A → shown r (live L cs xs) A'.
Proof using arch_ok. induction 1; intros L HL; cbn [live]; [done|]. apply IHcalls_spec. by eapply shown_after. Qed.

Lemma frames_contains r p o f : FrameRange.contains (frames r p o) f = true →
  (Z.of_nat p ≤ Frame.number f - Frame.number (FrameRange.start r) < Z.of_nat p + Z.of_nat (2 ^ o))%Z.
Proof using arch_ok.
  unfold FrameRange.contains, FrameRange.end_exclusive, frames, saturating_add. cbn [FrameRange.start FrameRange.count]. rewrite number_at. unfold widen. intros [H1%Z.leb_le H2%Z.ltb_lt]%andb_true_iff. lia.
Qed.

Lemma shown_apart b r L A i j a c f : holds b A → shown r L A → L !! i = Some a → L !! j = Some c → FrameRange.contains a f = true → FrameRange.contains c f = true → i = j.
Proof using arch_ok.
  intros Hh HL Hi Hj Ha Hc.
  assert (∀ (l : list (nat * nat)) M, M ≡ₚ (λ x, frames r x.1 x.2) <$> l → NoDup l.*1 → (∀ x y k, x ∈ l → y ∈ l → x.1 ≤ k < x.1 + 2 ^ x.2 → y.1 ≤ k < y.1 + 2 ^ y.2 → y.1 = x.1) →
    ∀ i j a c, M !! i = Some a → M !! j = Some c → FrameRange.contains a f = true → FrameRange.contains c f = true → i = j) as H.
  { clear -arch_ok. intros l M HM Hn Hd i j a c Hi Hj Ha Hc. destruct (decide (i = j)) as [|Hne]; [done|exfalso].
    assert (∃ i' j', i' ≠ j' ∧ ((λ x, frames r x.1 x.2) <$> l) !! i' = Some a ∧ ((λ x, frames r x.1 x.2) <$> l) !! j' = Some c) as (i' & j' & Hne' & Hi' & Hj').
    { apply Permutation_inj in HM as (Hlen & g & Hg & HM). exists (g i), (g j). split; [intros E; by apply Hg in E|]. by rewrite <-!HM. }
    rewrite list_lookup_fmap in Hi', Hj'. destruct (l !! i') as [[p o]|] eqn:E1; [|done]. destruct (l !! j') as [[q s]|] eqn:E2; [|done]. cbn in Hi', Hj'. injection Hi' as <-. injection Hj' as <-.
    apply frames_contains in Ha, Hc. apply Hne'. apply (NoDup_lookup l.*1 i' j' p); [done|by rewrite list_lookup_fmap, E1|].
    rewrite list_lookup_fmap, E2. cbn. f_equal. apply (Hd (p, o) (q, s) (Z.to_nat (Frame.number f - Frame.number (FrameRange.start r)))); cbn [fst snd]; [by eapply list_elem_of_lookup_2|by eapply list_elem_of_lookup_2|lia|lia]. }
  eapply (H (map_to_list A) L HL); [apply NoDup_fst_map_to_list| |exact Hi|exact Hj|done|done].
  intros [p o] [q s] k E1%elem_of_map_to_list E2%elem_of_map_to_list H1 H2. cbn in *. destruct (holds_blocks b A p o Hh E1) as (_ & _ & _ & Hd). by eapply Hd.
Qed.


(** C39. No frame is in two ranges that are out: of the ranges the calls returned and did not take
    back, however they were interleaved, any two have no frame in common. *)
Theorem buddy_frames_have_one_owner checked r st b cs :
  run_ok r → new checked r st = Some (Ok b) →
  ∃ b' xs, serve_all checked b cs = Some (b', xs) ∧
    ∀ i j x y f, live [] cs xs !! i = Some x → live [] cs xs !! j = Some y → FrameRange.contains x f = true → FrameRange.contains y f = true → i = j.
Proof using usize_32 arch_ok.
  intros Hr [Hm Hh]%new_holds. destruct (serve_all_ok checked r cs b ∅ Hr Hm Hh) as (b' & A' & xs & E & Hm' & Hh' & Hs). exists b', xs. split; [done|].
  intros i j x y f. eapply shown_apart; [exact Hh'|]. eapply shown_live; [exact Hs|]. unfold shown. by rewrite map_to_list_empty.
Qed.

End Proofs.
End Runs.

(** ** Thirteen pages *)

#[local] Existing Instance MockFull.
#[local] Existing Instance MockFull_ok.

Definition demo_run : FrameRange.t := {| FrameRange.start := Frame.at_ (16 * 4096); FrameRange.count := 13 |}.
Definition demo_range (p n : nat) : FrameRange.t := {| FrameRange.start := Frame.at_ (Z.of_nat (16 + p) * 4096); FrameRange.count := n |}.
Definition demo_calls : list call := [AllocPages 3; AllocOrder 1; AllocPages 1; Free (demo_range 8 4); AllocPages 8; Free (demo_range 8 4); AllocPages 5; AllocPages 0].

Example demo_answers :
  (let? b := default (Err Overflow) (new true demo_run (replicate 117 7%Z)) in
   match serve_all true b demo_calls with Some (b, xs) => Ok (xs, free_blocks b, live [] demo_calls xs) | None => Err Overflow end) =
  Ok ([Block (Ok (demo_range 8 4)); Block (Ok (demo_range 0 2)); Block (Ok (demo_range 12 1)); Freed (Ok tt); Block (Err Fragmented);
       Freed (Err NotAllocated); Block (Err Fragmented); Block (Err EmptyRequest)], [0; 1; 2; 0; 0; 0; 0; 0; 0; 0; 0], [demo_range 12 1; demo_range 0 2]).
Proof. vm_compute. reflexivity. Qed.

Lemma demo_run_ok : run_ok demo_run.
Proof. split; [split; [done|by exists 16%Z]|by vm_compute]. Qed.


Lemma buddy_frames_have_one_owner_witness :
  ∃ b, new true demo_run (replicate 117 7%Z) = Some (Ok b) ∧
  ∃ b' xs, serve_all true b demo_calls = Some (b', xs) ∧
    ∀ i j x y f, live [] demo_calls xs !! i = Some x → live [] demo_calls xs !! j = Some y → FrameRange.contains x f = true → FrameRange.contains y f = true → i = j.
Proof.
  eexists. split; [vm_compute; reflexivity|]. apply (buddy_frames_have_one_owner (arch_ok := MockFull_ok) ltac:(done) true demo_run (replicate 117 7%Z)); [apply demo_run_ok|vm_compute; reflexivity].
Defined.
End BuddyRuns.
