(* ===== verification/KallocBase.v ===== *)
(** * What the kernel heap is built on

    [kernel/kalloc/src/]: layouts ([lib.rs] and the part of [core::alloc::Layout] it uses), the
    allocation context ([context.rs]), fault injection ([inject.rs]), the writes into memory
    ([poison.rs]) and the sources frames come from ([frames.rs]), an interface that states what the
    heap relies on and that the physical frame allocator meets.  Memory is a function from
    addresses to bytes; sizes in bytes are [usize] numbers kept as [Z]. *)

From S2P Require Import Prelude MmFrame MmPhys.
Local Open Scope Z_scope.

(** ** Layouts *)

Module Layout.
Section Layout.
Context {arch : Arch}.

Record t := { size : Z; align : Z }.
#[global] Instance eq_dec : EqDecision t.
Proof. solve_decision. Defined.

Definition is_power_of_two (n : Z) : bool := (0 <? n) && (n =? 2 ^ Z.log2 n).

(** The size, rounded up to the alignment, is at most [isize::MAX]. *)
Definition from_size_align (s a : Z) : option t :=
  if is_power_of_two a && (s <=? u_max (USIZE_BITS - 1) - (a - 1)) then Some {| size := s; align := a |} else None.

(** What the type guarantees. *)
Definition wf (l : t) : Prop := 0 ≤ size l ∧ (∃ k, 0 ≤ k ∧ align l = 2 ^ k) ∧ size l + (align l - 1) ≤ u_max (USIZE_BITS - 1).

Lemma power_of_two n : is_power_of_two n = true ↔ ∃ k, 0 ≤ k ∧ n = 2 ^ k.
Proof.
  unfold is_power_of_two. rewrite andb_true_iff, Z.ltb_lt, Z.eqb_eq. split.
  - intros [_ H]. exists (Z.log2 n). split; [apply Z.log2_nonneg|done].
  - intros (k & Hk & ->). rewrite Z.log2_pow2 by done. split; [by apply Z.pow_pos_nonneg|done].
Qed.

Lemma from_size_align_Some s a l : 0 ≤ s → from_size_align s a = Some l → l = {| size := s; align := a |} ∧ wf l.
Proof.
  intros Hs. unfold from_size_align. case_match eqn:E; [|done]. apply andb_true_iff in E as [Ha%power_of_two Hb%Z.leb_le]. intros [= <-]. split; [done|]. split_and!; cbn; [done|done|lia].
Qed.

Lemma from_wf l : wf l → from_size_align (size l) (align l) = Some l.
Proof.
  intros (H1 & H2 & H3). unfold from_size_align. rewrite (proj2 (power_of_two _) H2), (proj2 (Z.leb_le _ _)) by lia. by destruct l.
Qed.

End Layout.
End Layout.

Module Kalloc.
Section Kalloc.
Context {arch : Arch}.

Definition check_layout (l : Layout.t) : result (Z * Z) AllocError :=
  let size := Layout.size l in
  let align := Layout.align l in
  if size =? 0 then Err EmptyRequest
  else if negb (Layout.is_power_of_two align) then Err Misaligned
  else let? _ := ok_or (checked_add USIZE_BITS size (saturating_sub align 1)) Overflow in Ok (size, align).
Definition validate (l : Layout.t) : result unit AllocError := let? _ := check_layout l in Ok tt.

Context {arch_ok : ArchOk}.

Lemma check_layout_wf l : Layout.wf l → check_layout l = if Layout.size l =? 0 then Err EmptyRequest else Ok (Layout.size l, Layout.align l).
Proof.
  intros (H1 & (k & Hk & E) & H3). unfold check_layout. destruct (Z.eqb_spec (Layout.size l) 0); [done|]. rewrite (proj2 (Layout.power_of_two _)) by eauto. cbn [negb].
  pose proof usize_width as Hw. assert (2 ^ (USIZE_BITS - 1) ≤ 2 ^ USIZE_BITS) by (apply Z.pow_le_mono_r; lia). pose proof (Z.pow_pos_nonneg 2 k ltac:(lia) Hk). unfold u_max in *.
  unfold checked_add, saturating_sub, u_max. rewrite (proj2 (Z.leb_le _ _)) by lia. done.
Qed.

End Kalloc.
End Kalloc.

(** ** The context of an allocation *)

Module AllocFlags.
Definition NONE : Z := 0.
Definition MAY_SLEEP : Z := 1.
Definition ZERO : Z := 2.
Definition DMA32 : Z := 4.
Definition DMA_COHERENT : Z := 8.
Definition NO_RECLAIM : Z := 16.
Definition contains (f other : Z) : bool := Z.land f other =? other.
Definition union (f other : Z) : Z := Z.lor f other.
Definition advisory (f : Z) : Z := Z.land f (Z.lor MAY_SLEEP (Z.lor DMA32 DMA_COHERENT)).
End AllocFlags.

Module NumaNode.
Definition ANY : Z := u16_MAX.
Definition index (n : Z) : option Z := if n =? u16_MAX then None else Some n.
End NumaNode.

Module AllocContext.
Record t := { flags : Z; node : Z }.
Definition ATOMIC : t := {| flags := AllocFlags.NONE; node := NumaNode.ANY |}.
Definition KERNEL : t := {| flags := AllocFlags.MAY_SLEEP; node := NumaNode.ANY |}.
Definition KERNEL_ZEROED : t := {| flags := Z.lor AllocFlags.MAY_SLEEP AllocFlags.ZERO; node := NumaNode.ANY |}.
Definition with_ (c : t) (extra : Z) : t := {| flags := AllocFlags.union (flags c) extra; node := node c |}.
Definition on_node (c : t) (n : Z) : t := {| flags := flags c; node := n |}.
Definition may_sleep (c : t) : bool := AllocFlags.contains (flags c) AllocFlags.MAY_SLEEP.
Definition wants_zero (c : t) : bool := AllocFlags.contains (flags c) AllocFlags.ZERO.
Definition is_best_effort (c : t) : bool :=
  negb (AllocFlags.advisory (flags c) =? 0) || match NumaNode.index (node c) with Some _ => true | None => false end.
End AllocContext.

(** ** Fault injection *)

Module Site.
Definition NONE : Z := 0.
Definition ENTRY : Z := 1.
Definition SLAB_BLOCK : Z := 2.
Definition PAGES : Z := 4.
Definition FRAMES : Z := 8.
Definition ALL : Z := 0x0F.
Definition union (a b : Z) : Z := Z.lor a b.
Definition intersects (a b : Z) : bool := negb (Z.land a b =? 0).
End Site.

Module Injector.

Inductive Policy := Off | Nth (n : Z) | From (n : Z) | Random (state one_in : Z).

Record t := { sites : Z; policy : Policy; calls : Z; trips : Z }.

Definition OFF : t := {| sites := Site.NONE; policy := Off; calls := 0; trips := 0 |}.
Definition fail_nth (s n : Z) : t := {| sites := s; policy := Nth n; calls := 0; trips := 0 |}.
Definition fail_from (s n : Z) : t := {| sites := s; policy := From n; calls := 0; trips := 0 |}.
Definition random (s seed one_in : Z) : t :=
  {| sites := s; policy := Random (if seed =? 0 then 0x9E3779B97F4A7C15 else seed) (if one_in =? 0 then 1 else one_in); calls := 0; trips := 0 |}.

(** [ENABLED] is set by the configuration. *)
Definition is_armed (enabled : bool) (i : t) : bool :=
  enabled && match policy i with Off => false | _ => true end && negb (sites i =? Site.NONE).

Definition xorshift (s : Z) : Z :=
  let s := Z.lxor s (shl 64 s 13) in
  let s := Z.lxor s (Z.shiftr s 7) in
  Z.lxor s (shl 64 s 17).

Definition trip (enabled : bool) (i : t) (site : Z) : t * bool :=
  if negb enabled || negb (Site.intersects (sites i) site) then (i, false)
  else
    let n := calls i in
    match match policy i with
          | Off => None
          | Nth k => Some (policy i, n =? k)
          | From k => Some (policy i, k <=? n)
          | Random state one_in => let state := xorshift state in Some (Random state one_in, state mod one_in =? 0)
          end with
    | None => (i, false)
    | Some (p, fail) =>
        ({| sites := sites i; policy := p; calls := saturating_add 64 (calls i) 1;
            trips := if fail then saturating_add 64 (trips i) 1 else trips i |}, fail)
    end.

End Injector.

(** ** Writing into memory *)

Module Poison.
Definition mem : Type := Z → Z.
Definition FREED : Z := 0xDE.
Definition write_bytes (m : mem) (ptr v len : Z) : mem := λ a, if (ptr <=? a) && (a <? ptr + len) then v else m a.
(** [enabled] is [ENABLED], set by the configuration. *)
Definition fill_freed (enabled : bool) (m : mem) (ptr len : Z) : mem := if negb enabled || (len =? 0) then m else write_bytes m ptr FREED len.
Definition fill_zero (m : mem) (ptr len : Z) : mem := if len =? 0 then m else write_bytes m ptr 0 len.

(** Two memories that differ at most in [len] bytes from [ptr]. *)
Definition kept (m m' : mem) (ptr len : Z) : Prop := ∀ a, ¬ (ptr ≤ a < ptr + len) → m' a = m a.

Lemma kept_write m ptr v len : kept m (write_bytes m ptr v len) ptr len.
Proof. intros a Ha. unfold write_bytes. destruct (Z.leb_spec ptr a), (Z.ltb_spec a (ptr + len)); cbn; (done || lia). Qed.

Lemma kept_freed e m ptr len : kept m (fill_freed e m ptr len) ptr len.
Proof. unfold fill_freed. case_match; [done|apply kept_write]. Qed.

Lemma kept_zero m ptr len : kept m (fill_zero m ptr len) ptr len.
Proof. unfold fill_zero. case_match; [done|apply kept_write]. Qed.

Lemma zero_fills m ptr len a : ptr ≤ a < ptr + len → fill_zero m ptr len a = 0.
Proof.
  intros Ha. unfold fill_zero. destruct (Z.eqb_spec len 0); [lia|]. unfold write_bytes. rewrite (proj2 (Z.leb_le _ _)), (proj2 (Z.ltb_lt _ _)) by lia. done.
Qed.

Lemma kept_wider m m' p n q k : kept m m' p n → q ≤ p → p + n ≤ q + k → kept m m' q k.
Proof. intros H H1 H2 a Ha. apply H. lia. Qed.

End Poison.

(** ** Frame sources *)

Class FrameSource {arch : Arch} (S : Type) := source_take : S → nat → S * result FrameRange.t AllocError.

(** What the heap relies on: the frames a source gives exist, were its own to give, and are not
    given again. *)
Class FrameSourceOk {arch : Arch} (S : Type) {source : FrameSource S} := {
  source_ok : S → Prop;
  offers : S → Z → Prop;
  take_ok s n : source_ok s →
    let '(s', res) := source_take s n in
    source_ok s' ∧ (∀ m, offers s' m → offers s m) ∧
    ∀ r, res = Ok r → Frame.wf (FrameRange.start r) ∧ (0 < FrameRange.count r)%nat ∧
      let f := Frame.number (FrameRange.start r) in
      f + Z.of_nat (FrameRange.count r) ≤ FrameRange.frame_limit ∧
      ∀ m, f ≤ m < f + Z.of_nat (FrameRange.count r) → offers s m ∧ ¬ offers s' m }.

Section Sources.
Context {arch : Arch}.

Inductive NoFrames := no_frames.
#[global] Instance NoFrames_source : FrameSource NoFrames := λ s _, (s, Err Exhausted).

(** A source that consults an injector before every take. *)
Record Injected (S : Type) := { src : S; inject : Injector.t }.
Arguments src {S}.
Arguments inject {S}.
Context (enabled : bool).

Definition take_injected {S} {source : FrameSource S} (s : Injected S) (frames : nat) : Injected S * result FrameRange.t AllocError :=
  let '(i, fail) := Injector.trip enabled (inject s) Site.FRAMES in
  if fail then ({| src := src s; inject := i |}, Err Exhausted)
  else let '(x, r) := source_take (src s) frames in ({| src := x; inject := i |}, r).
#[local] Instance Injected_source {S} {source : FrameSource S} : FrameSource (Injected S) := take_injected.

#[global] Instance FrameAllocator_source : FrameSource FrameAllocator.t := FrameAllocator.alloc_contiguous.

Context {arch_ok : ArchOk}.

#[global] Instance NoFrames_ok : FrameSourceOk NoFrames.
Proof. by refine {| source_ok := λ _, True; offers := λ _ _, False |}. Defined.

#[local] Instance Injected_ok {S} {source : FrameSource S} {source_laws : FrameSourceOk S} : FrameSourceOk (Injected S).
Proof.
  refine {| source_ok := λ s, source_ok (src s); offers := λ s, offers (src s) |}. intros [s i] n Hs. unfold source_take at 1, Injected_source, take_injected. cbn [src inject].
  destruct (Injector.trip _ i _) as [i' fail]. destruct fail; [done|]. pose proof (take_ok s n Hs) as H1. by destruct (source_take s n) as [s' res].
Defined.

#[global] Instance FrameAllocator_ok : FrameSourceOk FrameAllocator.t.
Proof.
  refine {| source_ok := FrameAllocator.inv; offers := λ a m, FrameAllocator.available a m = true ∧ 0 ≤ m |}. intros a n Ha.
  unfold source_take, FrameAllocator_source. pose proof (FrameAllocator.alloc_contiguous_spec a n Ha) as H. destruct (FrameAllocator.alloc_contiguous a n) as [a' [r|e]].
  2:{ destruct H as [-> _]. done. }
  destruct H as (Ha' & Hnew & Hw & Hav & _ & _ & Hx). destruct (Frame.wf_number _ Hw) as [_ H0]. set (f := Frame.number (FrameRange.start r)) in *.
  assert (FrameRange.count r = n ∧ n ≠ 0%nat) as [Ec Hn].
  { unfold FrameRange.new in Hnew. destruct (Nat.eqb_spec n 0); [done|]. destruct (checked_add _ _ _); [|done]. cbn in Hnew. injection Hnew as <-. done. }
  assert (∀ m, 0 ≤ m → FrameAllocator.available a' m = true → FrameAllocator.available a m = true ∧ ¬ (f ≤ m < f + Z.of_nat n)) as Hback.
  { intros m Hm. unfold FrameAllocator.available. destruct (Frame.from_number m) as [g|] eqn:Eg; [|done]. destruct (Frame.wf_from_number m g Hm Eg) as [Hg Enum]. destruct (Hx g Hg) as [-> ->].
    rewrite Enum. case_decide; [by rewrite andb_false_r|done]. }
  split_and!; [done|intros m [Hm Hm0]; split; [by apply Hback|done]|]. intros r' [= <-]. rewrite Ec. split_and!; [done|lia| |].
  - pose proof (Hav (f + Z.of_nat n - 1) ltac:(lia)) as Hl. unfold FrameAllocator.available in Hl. rewrite FrameRange.from_number_limit in Hl by lia.
    destruct (Z.ltb_spec (f + Z.of_nat n - 1) FrameRange.frame_limit); [lia|done].
  - intros m Hm. split; [split; [by apply Hav|lia]|]. intros [Hm' _]. by apply Hback in Hm' as [_ ?]; [|lia].
Defined.

End Sources.
Arguments src {S}.
Arguments inject {S}.
