(* ===== verification/KallocBump.v ===== *)
(** * The arena

    [kernel/kalloc/src/bump.rs]: a cursor over runs of frames.  Only the last allocation can be
    taken back; everything else stays where it is until the heap is gone. *)

From S2P Require Import Prelude MmFrame MmPhys MmDirectMap KallocBase.
Local Open Scope Z_scope.

Module Bump.
Section Bump.
Context {arch : Arch}.

Definition MAX_REGIONS : nat := 16.
Definition MIN_GROW_BYTES : Z := 16 * 1024.

Record Region := { virt : Z; bytes : Z; phys : Z; frames : nat }.
Definition EMPTY : Region := {| virt := 0; bytes := 0; phys := 0; frames := 0 |}.
Definition contains (r : Region) (addr len : Z) : bool :=
  match KernAddr.diff addr (virt r) with
  | None => false
  | Some off => match checked_add USIZE_BITS off len with Some e => e <=? bytes r | None => false end
  end.

Record t := {
  map : DirectMap.t;
  cursor : Z;
  end_ : Z;
  regions : list Region;
  region_count : nat;
  last : option (Z * Z);
  arena_bytes : Z;
  frames_held : Z;
  in_use : Z;
  high_water : Z;
  wasted : Z;
  live : Z;
  allocations : Z;
  frees : Z;
  reclaimed : Z }.

Definition new (m : DirectMap.t) : t := {|
  map := m; cursor := 0; end_ := 0; regions := replicate MAX_REGIONS EMPTY; region_count := 0; last := None; arena_bytes := 0; frames_held := 0;
  in_use := 0; high_water := 0; wasted := 0; live := 0; allocations := 0; frees := 0; reclaimed := 0 |}.

Record BumpStats := {
  s_arena_bytes : Z; s_in_use : Z; s_high_water : Z; s_wasted : Z; s_headroom : Z; s_frames_held : Z; s_regions : nat; s_live : Z;
  s_allocations : Z; s_frees : Z; s_reclaimed : Z }.
Definition stats (b : t) : BumpStats := {|
  s_arena_bytes := arena_bytes b; s_in_use := in_use b; s_high_water := high_water b; s_wasted := wasted b;
  s_headroom := default 0 (KernAddr.diff (end_ b) (cursor b)); s_frames_held := frames_held b; s_regions := region_count b; s_live := live b;
  s_allocations := allocations b; s_frees := frees b; s_reclaimed := reclaimed b |}.

Definition owns (b : t) (addr len : Z) : bool := existsb (λ r, contains r addr len) (take (region_count b) (regions b)).

Definition phys_of (b : t) (ptr : Z) : result Z AllocError :=
  if negb (owns b ptr 1) then Err Unmanaged else DirectMap.to_phys (map b) ptr.

(** The cursor moved past the block. *)
Definition carve (b : t) (size align : Z) : t * result Z AllocError :=
  match KernAddr.align_up (cursor b) align with
  | None => (b, Err Overflow)
  | Some start =>
      match KernAddr.checked_add start size with
      | None => (b, Err Overflow)
      | Some next =>
          if end_ b <? next then (b, Err Exhausted)
          else
            let slack := default 0 (KernAddr.diff start (cursor b)) in
            ({| map := map b; cursor := next; end_ := end_ b; regions := regions b; region_count := region_count b; last := last b;
                arena_bytes := arena_bytes b; frames_held := frames_held b; in_use := in_use b; high_water := high_water b;
                wasted := saturating_add USIZE_BITS (wasted b) slack; live := live b; allocations := allocations b; frees := frees b; reclaimed := reclaimed b |}, Ok start)
      end
  end.

Definition add_frames (b : t) (range : FrameRange.t) : t * result unit AllocError :=
  if (MAX_REGIONS <=? region_count b)%nat then (b, Err Exhausted)
  else
    let ph := Frame.start (FrameRange.start range) in
    match (let? len := FrameRange.len_bytes range in
           let? n := narrow_bytes len in
           if n =? 0 then Err EmptyRequest
           else
             let? v := DirectMap.to_virt (map b) ph in
             let? last_byte := ok_or (checked_add 64 ph (saturating_sub n 1)) Overflow in
             let? _ := DirectMap.to_virt (map b) last_byte in
             let? region_end := ok_or (KernAddr.checked_add v n) Overflow in
             if (length (regions b) <=? region_count b)%nat then Err Exhausted else Ok (n, v, region_end)) with
    | Err e => (b, Err e)
    | Ok (n, v, region_end) =>
        let tail := default 0 (KernAddr.diff (end_ b) (cursor b)) in
        ({| map := map b; cursor := v; end_ := region_end;
            regions := <[region_count b := {| virt := v; bytes := n; phys := ph; frames := FrameRange.count range |}]> (regions b);
            region_count := FrameAllocator.usat_add (region_count b) 1; last := None;
            arena_bytes := saturating_add USIZE_BITS (arena_bytes b) n; frames_held := saturating_add USIZE_BITS (frames_held b) (widen (FrameRange.count range));
            in_use := in_use b; high_water := high_water b; wasted := saturating_add USIZE_BITS (wasted b) tail; live := live b;
            allocations := allocations b; frees := frees b; reclaimed := reclaimed b |}, Ok tt)
    end.

Definition div_ceil (a b : Z) : Z := (a + b - 1) / b.

Section Source.
Context {S : Type} {source : FrameSource S}.

Definition grow (b : t) (src : S) (min_bytes : Z) : t * S * result nat AllocError :=
  if min_bytes =? 0 then (b, src, Err EmptyRequest)
  else if (MAX_REGIONS <=? region_count b)%nat then (b, src, Err Exhausted)
  else
    let page := PAGE_SIZE in
    if page =? 0 then (b, src, Err Overflow)
    else
      let need := Z.max (div_ceil min_bytes page) 1 in
      let want := Z.max need (div_ceil MIN_GROW_BYTES page) in
      let '(src, got) := match source_take src (Z.to_nat want) with
        | (src, Ok r) => (src, Ok r)
        | (src, Err e) => if need <? want then source_take src (Z.to_nat need) else (src, Err e)
        end in
      match got with
      | Err e => (b, src, Err e)
      | Ok range =>
          let taken := FrameRange.count range in
          match add_frames b range with
          | (b, Ok _) => (b, src, Ok taken)
          | (b, Err e) => (b, src, Err e)
          end
      end.

(** The block served: the counts, and the block zeroed where that was asked for. *)
Definition hand_out (m : Poison.mem) (b : t) (start size : Z) (ctx : AllocContext.t) : Poison.mem * t * result Z AllocError :=
  match DirectMap.ptr_at (map b) start with
  | Err e => (m, b, Err e)
  | Ok ptr =>
      let used := saturating_add USIZE_BITS (in_use b) size in
      let b := {| map := map b; cursor := cursor b; end_ := end_ b; regions := regions b; region_count := region_count b; last := Some (start, size);
                  arena_bytes := arena_bytes b; frames_held := frames_held b; in_use := used; high_water := Z.max (high_water b) used;
                  wasted := wasted b; live := saturating_add USIZE_BITS (live b) 1; allocations := saturating_add 64 (allocations b) 1;
                  frees := frees b; reclaimed := reclaimed b |} in
      (if AllocContext.wants_zero ctx then Poison.fill_zero m ptr size else m, b, Ok ptr)
  end.

(** Where the block goes: the arena as it is, or grown once. *)
Definition carve_or_grow (b : t) (size align : Z) (src : S) : t * S * result Z AllocError :=
  match carve b size align with
  | (b, Ok s) => (b, src, Ok s)
  | (b, Err Exhausted) =>
      match checked_add USIZE_BITS size align with
      | None => (b, src, Err Overflow)
      | Some want =>
          match grow b src want with
          | (b, src, Err e) => (b, src, Err e)
          | (b, src, Ok _) => let '(b, s) := carve b size align in (b, src, s)
          end
      end
  | (b, Err e) => (b, src, Err e)
  end.

Definition try_alloc_in (m : Poison.mem) (b : t) (layout : Layout.t) (ctx : AllocContext.t) (src : S) : Poison.mem * t * S * result Z AllocError :=
  match Kalloc.check_layout layout with
  | Err e => (m, b, src, Err e)
  | Ok (size, align) =>
      match carve_or_grow b size align src with
      | (b, src, Err e) => (m, b, src, Err e)
      | (b, src, Ok start) => let '(m, b, res) := hand_out m b start size ctx in (m, b, src, res)
      end
  end.

End Source.

Definition try_alloc (m : Poison.mem) (b : t) (layout : Layout.t) (ctx : AllocContext.t) : Poison.mem * t * result Z AllocError :=
  let '(m, b, _, res) := try_alloc_in m b layout ctx no_frames in (m, b, res).

Context (poison : bool).

Definition dealloc (m : Poison.mem) (b : t) (ptr : Z) (layout : Layout.t) : Poison.mem * t * result unit AllocError :=
  match Kalloc.check_layout layout with
  | Err e => (m, b, Err e)
  | Ok (size, _) =>
      if negb (owns b ptr size) then (m, b, Err Unmanaged)
      else
        let m := Poison.fill_freed poison m ptr size in
        let back := bool_decide (last b = Some (ptr, size)) in
        (m, {| map := map b; cursor := if back then ptr else cursor b; end_ := end_ b; regions := regions b; region_count := region_count b;
               last := if back then None else last b; arena_bytes := arena_bytes b; frames_held := frames_held b;
               in_use := saturating_sub (in_use b) size; high_water := high_water b; wasted := wasted b; live := saturating_sub (live b) 1;
               allocations := allocations b; frees := saturating_add 64 (frees b) 1;
               reclaimed := if back then saturating_add 64 (reclaimed b) 1 else reclaimed b |}, Ok tt)
  end.

End Bump.
End Bump.
