(* ===== verification/KallocSlab.v ===== *)
(** * Size classes

    [kernel/kalloc/src/slab.rs]: blocks of the arena carved into equal objects, one bit of a
    64-bit word for each. *)

From S2P Require Import Prelude MmFrame MmPhys MmDirectMap KallocBase.
Local Open Scope Z_scope.

Module Slab.
Section Slab.
Context {arch : Arch}.

Definition CLASS_SIZES : list Z := [16; 32; 64; 128; 256; 512; 1024].
Definition MAX_BLOCKS : nat := 64.
Definition MAX_OBJECTS : Z := 64.
Definition MIN_OBJECTS : Z := 4.
Definition TARGET_BLOCK_BYTES : Z := 4096.

Definition class_for (l : Layout.t) : option Z :=
  if Layout.size l =? 0 then None
  else let need := Z.max (Layout.size l) (Layout.align l) in List.find (λ c, need <=? c) CLASS_SIZES.

Definition objects_per_block (class : Z) : Z :=
  if class =? 0 then 0 else Z.min (Z.max (TARGET_BLOCK_BYTES / class) MIN_OBJECTS) MAX_OBJECTS.

Definition block_layout (class : Z) : result Layout.t AllocError :=
  let? bytes := ok_or (checked_mul USIZE_BITS class (objects_per_block class)) Overflow in
  ok_or (Layout.from_size_align bytes class) Overflow.

(** [u32::try_from] and [checked_shl]. *)
Definition bit (idx : Z) : Z := if (idx <=? u32_MAX) && (idx <? 64) then shl 64 1 idx else 0.

Record Block := { virt : Z; phys : Z; class : Z; objects : Z; used : Z }.
Definition EMPTY : Block := {| virt := 0; phys := 0; class := 0; objects := 0; used := 0 |}.
Definition set_used (x : Z) (b : Block) : Block := {| virt := virt b; phys := phys b; class := class b; objects := objects b; used := x |}.

Definition mask (b : Block) : Z := if MAX_OBJECTS <=? objects b then u64_MAX else wrapping_sub 64 (bit (objects b)) 1.
Definition bytes (b : Block) : Z := saturating_mul USIZE_BITS (class b) (objects b).

(** [trailing_zeros] and [count_ones] of a [u64]. *)
Definition ones (x : Z) : list Z := filter (λ n, Z.testbit x n = true) (seqZ 0 64).
Definition trailing_zeros (x : Z) : Z := default 64 (head (ones x)).
Definition count_ones (x : Z) : Z := Z.of_nat (length (ones x)).
Definition in_use (b : Block) : Z := count_ones (used b).

Definition index_of (b : Block) (addr : Z) : result (option Z) AllocError :=
  match KernAddr.diff addr (virt b) with
  | None => Ok None
  | Some off =>
      if bytes b <=? off then Ok None
      else if (class b =? 0) || negb (off mod class b =? 0) then Err Misaligned
      else Ok (Some (off / class b))
  end.

Record t := { blocks : list Block; count : nat; allocations : Z; frees : Z; double_frees : Z }.
Definition new : t := {| blocks := replicate MAX_BLOCKS EMPTY; count := 0; allocations := 0; frees := 0; double_frees := 0 |}.

Definition has_room (s : t) : bool := (count s <? MAX_BLOCKS)%nat.

(** The first block of the class with a free object: the blocks afterwards and the pointer, or
    [None] when there is none. *)
Fixpoint take_first (bs : list Block) (cls : Z) (map : DirectMap.t) : result (option (list Block * Z)) AllocError :=
  match bs with
  | [] => Ok None
  | block :: bs =>
      let free := Z.land (u_not 64 (used block)) (mask block) in
      if negb (class block =? cls) || (free =? 0) then
        let? r := take_first bs cls map in Ok ('(bs, p) ← r; Some (block :: bs, p))
      else
        let idx := trailing_zeros free in
        let? off := ok_or (checked_mul USIZE_BITS idx cls) Overflow in
        let? addr := ok_or (KernAddr.checked_add (virt block) off) Overflow in
        let? ptr := DirectMap.ptr_at map addr in
        Ok (Some (set_used (Z.lor (used block) (bit idx)) block :: bs, ptr))
  end.

Definition try_take (m : Poison.mem) (s : t) (cls : Z) (map : DirectMap.t) (ctx : AllocContext.t) : Poison.mem * t * result Z AllocError :=
  match take_first (take (count s) (blocks s)) cls map with
  | Err e => (m, s, Err e)
  | Ok None => (m, s, Err Exhausted)
  | Ok (Some (bs, ptr)) =>
      (if AllocContext.wants_zero ctx then Poison.fill_zero m ptr cls else m,
       {| blocks := bs ++ drop (count s) (blocks s); count := count s; allocations := saturating_add 64 (allocations s) 1; frees := frees s; double_frees := double_frees s |}, Ok ptr)
  end.

Definition add_block (s : t) (cls v : Z) (map : DirectMap.t) : t * result unit AllocError :=
  if negb (has_room s) then (s, Err Exhausted)
  else
    let objs := objects_per_block cls in
    if (cls =? 0) || (objs =? 0) then (s, Err EmptyRequest)
    else
      match (let? n := ok_or (checked_mul USIZE_BITS cls objs) Overflow in
             let? ph := DirectMap.to_phys map v in
             let? last := ok_or (KernAddr.checked_add v (saturating_sub n 1)) Overflow in
             let? _ := DirectMap.to_phys map last in
             if (length (blocks s) <=? count s)%nat then Err Exhausted else Ok ph) with
      | Err e => (s, Err e)
      | Ok ph =>
          ({| blocks := <[count s := {| virt := v; phys := ph; class := cls; objects := objs; used := 0 |}]> (blocks s);
              count := FrameAllocator.usat_add (count s) 1; allocations := allocations s; frees := frees s; double_frees := double_frees s |}, Ok tt)
      end.

(** What a free finds: no block with the address, a reason to refuse, an object that is free
    already, or the blocks with its bit cleared. *)
Inductive Found := NotHere | Refused (e : AllocError) | AlreadyFree | Cleared (bs : list Block).

Fixpoint free_in (bs : list Block) (addr cls : Z) : Found :=
  match bs with
  | [] => NotHere
  | block :: bs =>
      match index_of block addr with
      | Err e => Refused e
      | Ok None => match free_in bs addr cls with Cleared bs => Cleared (block :: bs) | f => f end
      | Ok (Some idx) =>
          if negb (class block =? cls) then Refused Misaligned
          else
            let mine := bit idx in
            if (mine =? 0) || (Z.land (used block) mine =? 0) then AlreadyFree
            else Cleared (set_used (Z.land (used block) (u_not 64 mine)) block :: bs)
      end
  end.

(** [poison] is [poison::ENABLED], set by the configuration. *)
Definition dealloc (poison : bool) (m : Poison.mem) (s : t) (ptr cls : Z) : Poison.mem * t * result unit AllocError :=
  match free_in (take (count s) (blocks s)) ptr cls with
  | NotHere => (m, s, Err Unmanaged)
  | Refused e => (m, s, Err e)
  | AlreadyFree => (m, {| blocks := blocks s; count := count s; allocations := allocations s; frees := frees s; double_frees := saturating_add 64 (double_frees s) 1 |}, Err NotAllocated)
  | Cleared bs =>
      (Poison.fill_freed poison m ptr cls,
       {| blocks := bs ++ drop (count s) (blocks s); count := count s; allocations := allocations s; frees := saturating_add 64 (frees s) 1; double_frees := double_frees s |}, Ok tt)
  end.

Fixpoint offset_in (bs : list Block) (ptr : Z) : option (Block * Z) :=
  match bs with
  | [] => None
  | b :: bs => match KernAddr.diff ptr (virt b) with
               | Some off => if off <? bytes b then Some (b, off) else offset_in bs ptr
               | None => offset_in bs ptr
               end
  end.
Definition offset_in_block (s : t) (ptr : Z) : option (Block * Z) := offset_in (take (count s) (blocks s)) ptr.

Definition owns (s : t) (ptr : Z) : bool := match offset_in_block s ptr with Some _ => true | None => false end.

Definition phys_of (s : t) (ptr : Z) : result Z AllocError :=
  let? x := ok_or (offset_in_block s ptr) Unmanaged in
  let '(block, off) := x in ok_or (checked_add 64 (phys block) off) Overflow.

(** ** Accounting *)

Record ClassStats := { size : Z; c_blocks : Z; c_objects : Z; c_in_use : Z }.
Record SlabStats := {
  s_blocks : nat; s_objects : Z; objects_in_use : Z; bytes_reserved : Z; bytes_in_use : Z; s_allocations : Z; s_frees : Z; s_double_frees : Z; classes : list ClassStats }.

Definition sat := saturating_add USIZE_BITS.
Definition sum_blocks (f : Block → Z) (bs : list Block) : Z := foldl (λ acc b, sat acc (f b)) 0 bs.
(** A class collects the blocks of its size; [position] finds a size in [CLASS_SIZES] once. *)
Definition class_stats (bs : list Block) (c : Z) : ClassStats :=
  let mine := filter (λ b, class b = c) bs in
  {| size := c; c_blocks := sum_blocks (λ _, 1) mine; c_objects := sum_blocks objects mine; c_in_use := sum_blocks in_use mine |}.

Definition stats (s : t) : SlabStats :=
  let bs := take (count s) (blocks s) in
  {| s_blocks := count s; s_objects := sum_blocks objects bs; objects_in_use := sum_blocks in_use bs; bytes_reserved := sum_blocks bytes bs;
     bytes_in_use := sum_blocks (λ b, saturating_mul USIZE_BITS (in_use b) (class b)) bs; s_allocations := allocations s; s_frees := frees s;
     s_double_frees := double_frees s; classes := class_stats bs <$> CLASS_SIZES |}.

End Slab.
End Slab.
