(* ===== verification/KallocHeap.v ===== *)
(** * The kernel heap

    [kernel/kalloc/src/heap.rs]: small requests to the size classes, large ones to the buddy
    allocator where one is attached, and anything neither can serve to the arena below both.
    Three switches come from the configuration: [checked] ([buddy::CHECKED]), [poison]
    ([poison::ENABLED]) and [injecting] ([inject::ENABLED]).  [None] is the panic of a checked
    buddy allocator whose invariant is broken. *)

From S2P Require Import Prelude MmFrame MmPhys MmDirectMap KallocBase KallocBuddy KallocBump KallocSlab.
Local Open Scope Z_scope.

Module Heap.
Section Heap.
Context {arch : Arch}.
Context (checked poison injecting : bool).

Record t := {
  map : DirectMap.t;
  bump : Bump.t;
  slab : Slab.t;
  pages : option Buddy.t;
  inject : Injector.t;
  injected_before : Z;
  allocations : Z;
  frees : Z;
  failures : Z;
  constrained : Z;
  slab_overflow : Z;
  pages_overflow : Z }.

Definition new (m : DirectMap.t) : t := {|
  map := m; bump := Bump.new m; slab := Slab.new; pages := None; inject := Injector.OFF; injected_before := 0;
  allocations := 0; frees := 0; failures := 0; constrained := 0; slab_overflow := 0; pages_overflow := 0 |}.

Definition set_bump x h : t := {| map := map h; bump := x; slab := slab h; pages := pages h; inject := inject h; injected_before := injected_before h; allocations := allocations h; frees := frees h; failures := failures h; constrained := constrained h; slab_overflow := slab_overflow h; pages_overflow := pages_overflow h |}.
Definition set_slab x h : t := {| map := map h; bump := bump h; slab := x; pages := pages h; inject := inject h; injected_before := injected_before h; allocations := allocations h; frees := frees h; failures := failures h; constrained := constrained h; slab_overflow := slab_overflow h; pages_overflow := pages_overflow h |}.
Definition set_pages x h : t := {| map := map h; bump := bump h; slab := slab h; pages := x; inject := inject h; injected_before := injected_before h; allocations := allocations h; frees := frees h; failures := failures h; constrained := constrained h; slab_overflow := slab_overflow h; pages_overflow := pages_overflow h |}.
Definition set_inject x y h : t := {| map := map h; bump := bump h; slab := slab h; pages := pages h; inject := x; injected_before := y; allocations := allocations h; frees := frees h; failures := failures h; constrained := constrained h; slab_overflow := slab_overflow h; pages_overflow := pages_overflow h |}.
Definition set_counts al fr fl co so po h : t := {| map := map h; bump := bump h; slab := slab h; pages := pages h; inject := inject h; injected_before := injected_before h; allocations := al; frees := fr; failures := fl; constrained := co; slab_overflow := so; pages_overflow := po |}.

Definition inc (n : Z) : Z := saturating_add 64 n 1.
Definition count_allocation h : t := set_counts (inc (allocations h)) (frees h) (failures h) (constrained h) (slab_overflow h) (pages_overflow h) h.
Definition count_free h : t := set_counts (allocations h) (inc (frees h)) (failures h) (constrained h) (slab_overflow h) (pages_overflow h) h.
Definition count_failure h : t := set_counts (allocations h) (frees h) (inc (failures h)) (constrained h) (slab_overflow h) (pages_overflow h) h.
Definition count_constrained h : t := set_counts (allocations h) (frees h) (failures h) (inc (constrained h)) (slab_overflow h) (pages_overflow h) h.
Definition count_slab_overflow h : t := set_counts (allocations h) (frees h) (failures h) (constrained h) (inc (slab_overflow h)) (pages_overflow h) h.
Definition count_pages_overflow h : t := set_counts (allocations h) (frees h) (failures h) (constrained h) (slab_overflow h) (inc (pages_overflow h)) h.

(** [Injector::trip] on the heap's own injector. *)
Definition trip (h : t) (site : Z) : t * bool :=
  let '(i, fail) := Injector.trip injecting (inject h) site in (set_inject i (injected_before h) h, fail).

(** ** The attached pages *)

Definition attach_pages (h : t) (run : FrameRange.t) (store : list Z) : option (t * result unit AllocError) :=
  if pages h then Some (h, Err Exhausted)
  else
    let first := Frame.start (FrameRange.start run) in
    match (let? len := FrameRange.len_bytes run in
           let? last := ok_or (checked_add 64 first (saturating_sub len 1)) Overflow in
           let? _ := DirectMap.to_virt (map h) first in
           DirectMap.to_virt (map h) last) with
    | Err e => Some (h, Err e)
    | Ok _ =>
        res ← Buddy.new checked run store;
        Some (match res with Err e => (h, Err e) | Ok b => (set_pages (Some b) h, Ok tt) end)
    end.

Inductive Detach := NotAttached | InUse (live_blocks : nat).

Definition detach_pages (h : t) : t * result (FrameRange.t * list Z) Detach :=
  match pages h with
  | None => (h, Err NotAttached)
  | Some b =>
      if (0 <? Buddy.s_live_blocks (Buddy.stats b))%nat then (h, Err (InUse (Buddy.s_live_blocks (Buddy.stats b))))
      else (set_pages None h, Ok (Buddy.into_parts b))
  end.

Definition set_injector (h : t) (i : Injector.t) : t :=
  set_inject i (saturating_add 64 (injected_before h) (Injector.trips (inject h))) h.

(** The frame of an address in the attached run, and its physical address. *)
Definition page_of (h : t) (ptr : Z) : option (Frame.t * Z) :=
  b ← pages h;
  match DirectMap.to_phys (map h) ptr with
  | Err _ => None
  | Ok phys => let frame := Frame.containing phys in if Buddy.owns b frame then Some (frame, phys) else None
  end.

Definition hand_out_pages (m : Poison.mem) (h : t) (range : FrameRange.t) (layout : Layout.t) (ctx : AllocContext.t) : option (Poison.mem * t * result Z AllocError) :=
  match DirectMap.ptr_to_phys (map h) (Frame.start (FrameRange.start range)) with
  | Ok ptr => Some (if AllocContext.wants_zero ctx then Poison.fill_zero m ptr (Layout.size layout) else m, h, Ok ptr)
  | Err e =>
      match pages h with
      | None => Some (m, h, Err e)
      | Some b => '(b, _) ← Buddy.free checked b range; Some (m, set_pages (Some b) h, Err e)
      end
  end.

Definition free_pages (m : Poison.mem) (h : t) (ptr : Z) (frame : Frame.t) (phys : Z) (layout : Layout.t) : option (Poison.mem * t * result unit AllocError) :=
  if negb (phys =? Frame.start frame) then Some (m, h, Err Misaligned)
  else
    match (let? order := ok_or (Buddy.order_for (Z.to_nat (Bump.div_ceil (Layout.size layout) PAGE_SIZE))) Misaligned in FrameRange.new frame (2 ^ order)%nat) with
    | Err e => Some (m, h, Err e)
    | Ok range =>
        match pages h with
        | None => Some (m, h, Err Unmanaged)
        | Some b =>
            '(b, res) ← Buddy.free checked b range;
            let h := set_pages (Some b) h in
            Some (match res with
                  | Err e => (m, h, Err e)
                  | Ok _ => (Poison.fill_freed poison m ptr (saturating_mul USIZE_BITS (widen (FrameRange.count range)) PAGE_SIZE), h, Ok tt)
                  end)
        end
    end.

(** ** Allocation *)

Section Source.
Context {S : Type} {source : FrameSource S}.
#[local] Instance injected_frames : FrameSource (Injected S) := take_injected injecting.

(** [Bump::try_alloc_in] from the source behind the heap's injector. *)
Definition arena_alloc (m : Poison.mem) (h : t) (layout : Layout.t) (ctx : AllocContext.t) (s : S) : Poison.mem * t * S * result Z AllocError :=
  let '(m, b, s, res) := Bump.try_alloc_in m (bump h) layout ctx {| KallocBase.src := s; KallocBase.inject := inject h |} in
  (m, set_inject (KallocBase.inject s) (injected_before h) (set_bump b h), KallocBase.src s, res).

Definition grow (h : t) (s : S) (min_bytes : Z) : t * S * result nat AllocError :=
  let '(b, s, res) := Bump.grow (bump h) {| KallocBase.src := s; KallocBase.inject := inject h |} min_bytes in
  (set_inject (KallocBase.inject s) (injected_before h) (set_bump b h), KallocBase.src s, res).

Definition take_slab (m : Poison.mem) (h : t) (class : Z) (ctx : AllocContext.t) : Poison.mem * t * result Z AllocError :=
  let '(m, s, res) := Slab.try_take m (slab h) class (map h) ctx in (m, set_slab s h, res).

Definition alloc_direct (m : Poison.mem) (h : t) (class : Z) (ctx : AllocContext.t) (s : S) : Poison.mem * t * S * result Z AllocError :=
  match Layout.from_size_align class class with
  | None => (m, h, s, Err Overflow)
  | Some direct => arena_alloc m h direct ctx s
  end.

Definition alloc_small (m : Poison.mem) (h : t) (class : Z) (ctx : AllocContext.t) (s : S) : Poison.mem * t * S * result Z AllocError :=
  match take_slab m h class ctx with
  | (m, h, Ok p) => (m, h, s, Ok p)
  | (m, h, Err Exhausted) =>
      if Slab.has_room (slab h) then
        match Slab.block_layout class with
        | Err e => (m, h, s, Err e)
        | Ok block =>
            let '(h, fail) := trip h Site.SLAB_BLOCK in
            let '(m, h, s, got) := if fail then (m, h, s, Err Exhausted) else arena_alloc m h block AllocContext.ATOMIC s in
            match got with
            | Ok ptr =>
                match Slab.add_block (slab h) class ptr (map h) with
                | (sl, Err e) => (m, set_slab sl h, s, Err e)
                | (sl, Ok _) => let '(m, h, res) := take_slab m (set_slab sl h) class ctx in (m, h, s, res)
                end
            | Err _ => alloc_direct m h class ctx s
            end
        end
      else alloc_direct m (count_slab_overflow h) class ctx s
  | (m, h, Err e) => (m, h, s, Err e)
  end.

Definition alloc_large (m : Poison.mem) (h : t) (layout : Layout.t) (ctx : AllocContext.t) (s : S) : option (Poison.mem * t * S * result Z AllocError) :=
  if Layout.align layout <=? PAGE_SIZE then
    match pages h with
    | None => Some (arena_alloc m h layout ctx s)
    | Some b =>
        let '(h, fail) := trip h Site.PAGES in
        '(b, got) ← (if fail then Some (b, Err Exhausted) else Buddy.alloc_pages checked b (Z.to_nat (Bump.div_ceil (Layout.size layout) PAGE_SIZE)));
        let h := set_pages (Some b) h in
        match got with
        | Ok range => '(m, h, res) ← hand_out_pages m h range layout ctx; Some (m, h, s, res)
        | Err Exhausted | Err Fragmented => Some (arena_alloc m (count_pages_overflow h) layout ctx s)
        | Err e => Some (m, h, s, Err e)
        end
    end
  else Some (arena_alloc m h layout ctx s).

Definition try_alloc_in (m : Poison.mem) (h : t) (layout : Layout.t) (ctx : AllocContext.t) (s : S) : option (Poison.mem * t * S * result Z AllocError) :=
  match Kalloc.validate layout with
  | Err e => Some (m, count_failure h, s, Err e)
  | Ok _ =>
      let h := if AllocContext.is_best_effort ctx then count_constrained h else h in
      let '(h, fail) := trip h Site.ENTRY in
      if fail then Some (m, count_failure h, s, Err Exhausted)
      else
        '(m, h, s, result) ← match Slab.class_for layout with
          | Some class => Some (alloc_small m h class ctx s)
          | None => alloc_large m h layout ctx s
          end;
        Some (match result with Ok p => (m, count_allocation h, s, Ok p) | Err e => (m, count_failure h, s, Err e) end)
  end.

End Source.

Definition try_alloc (m : Poison.mem) (h : t) (layout : Layout.t) (ctx : AllocContext.t) : option (Poison.mem * t * result Z AllocError) :=
  '(m, h, _, res) ← try_alloc_in m h layout ctx no_frames; Some (m, h, res).

(** ** Release *)

Definition arena_dealloc (m : Poison.mem) (h : t) (ptr : Z) (layout : Layout.t) : Poison.mem * t * result unit AllocError :=
  let '(m, b, r) := Bump.dealloc poison m (bump h) ptr layout in
  let h := set_bump b h in
  (m, if is_ok r then count_free h else h, r).

Definition dealloc (m : Poison.mem) (h : t) (ptr : Z) (layout : Layout.t) : option (Poison.mem * t * result unit AllocError) :=
  match Kalloc.validate layout with
  | Err e => Some (m, h, Err e)
  | Ok _ =>
      match Slab.class_for layout with
      | Some class =>
          match Slab.dealloc poison m (slab h) ptr class with
          | (m, s, Ok _) => Some (m, count_free (set_slab s h), Ok tt)
          | (m, s, Err Unmanaged) =>
              let h := set_slab s h in
              Some (match Layout.from_size_align class class with
                    | None => (m, h, Err Overflow)
                    | Some arena_layout => arena_dealloc m h ptr arena_layout
                    end)
          | (m, s, Err e) => Some (m, set_slab s h, Err e)
          end
      | None =>
          match page_of h ptr with
          | Some (frame, phys) =>
              '(m, h, res) ← free_pages m h ptr frame phys layout;
              Some (match res with Ok _ => (m, count_free h, Ok tt) | Err e => (m, h, Err e) end)
          | None => if Slab.owns (slab h) ptr then Some (m, h, Err Misaligned) else Some (arena_dealloc m h ptr layout)
          end
      end
  end.

(** ** Reading *)

Definition phys_of (h : t) (ptr : Z) : result Z AllocError :=
  match Slab.phys_of (slab h) ptr with
  | Err Unmanaged => match page_of h ptr with Some (_, phys) => Ok phys | None => Bump.phys_of (bump h) ptr end
  | r => r
  end.

Record HeapStats := {
  s_bump : Bump.BumpStats; s_slab : Slab.SlabStats; s_pages : Buddy.BuddyStats; s_bytes_reserved : Z; s_bytes_in_use : Z; s_allocations : Z; s_frees : Z;
  s_failures : Z; s_constrained : Z; s_slab_overflow : Z; s_pages_overflow : Z; s_injected : Z }.

(** [BuddyStats::default()] *)
Definition no_pages : Buddy.BuddyStats := {|
  Buddy.s_pages := 0; Buddy.s_free_pages := 0; Buddy.s_free_blocks := replicate Buddy.ORDERS 0%nat; Buddy.s_live_blocks := 0; Buddy.s_page_size := 0;
  Buddy.s_splits := 0; Buddy.s_merges := 0 |}.

Definition stats (h : t) : HeapStats :=
  let b := Bump.stats (bump h) in
  let s := Slab.stats (slab h) in
  let p := match pages h with Some b => Buddy.stats b | None => no_pages end in
  let page_bytes n := saturating_mul USIZE_BITS (widen n) (Buddy.s_page_size p) in
  let sat := saturating_add USIZE_BITS in
  {| s_bump := b; s_slab := s; s_pages := p;
     s_bytes_reserved := sat (Bump.s_arena_bytes b) (page_bytes (Buddy.s_pages p));
     s_bytes_in_use := sat (sat (saturating_sub (Bump.s_in_use b) (Slab.bytes_reserved s)) (Slab.bytes_in_use s)) (page_bytes (Buddy.s_pages p - Buddy.s_free_pages p)%nat);
     s_allocations := allocations h; s_frees := frees h; s_failures := failures h; s_constrained := constrained h; s_slab_overflow := slab_overflow h;
     s_pages_overflow := pages_overflow h; s_injected := saturating_add 64 (injected_before h) (Injector.trips (inject h)) |}.

End Heap.
End Heap.
