(* ===== verification/KallocBumpInv.v ===== *)
(** * The arena keeps its blocks apart

    The blocks the arena has handed out, and not taken back, are apart from each other and from
    what the cursor has yet to reach, whatever regions they are in; and a region is made of
    frames nobody else has. *)

From S2P Require Import Prelude MmFrame MmPhys MmDirectMap KallocBase KallocBump.
Local Open Scope Z_scope.

Module BumpInv.
Import Bump.

(** ** Extents *)

(** An extent is its first byte and its length. *)
Definition apart (x y : Z * Z) : Prop := x.1 + x.2 ≤ y.1 ∨ y.1 + y.2 ≤ x.1.
Fixpoint spread (l : list (Z * Z)) : Prop := match l with [] => True | x :: l => Forall (apart x) l ∧ spread l end.

Lemma extent_apart_sym x y : apart x y → apart y x.
Proof. unfold apart. lia. Qed.

Lemma apart_inside x c n s k : apart x (c, n) → c ≤ s → s + k ≤ c + n → apart x (s, k).
Proof. unfold apart. cbn. lia. Qed.

#[global] Instance spread_proper : Proper ((≡ₚ) ==> iff) spread.
Proof.
  assert (∀ l k, l ≡ₚ k → spread l → spread k) as H.
  { induction 1 as [|x l k HP IH|x y l|l k m _ IH1 _ IH2]; cbn [spread]; [done| | |auto].
    - intros [H1 H2]. split; [by rewrite <-HP|auto].
    - rewrite !Forall_cons. intros ((H1 & H2) & H3 & H4). split_and!; try done; by apply extent_apart_sym. }
  intros l k HP. split; apply H; [done|by symmetry].
Qed.

Lemma spread_app l k : spread (l ++ k) ↔ spread l ∧ spread k ∧ ∀ x y, x ∈ l → y ∈ k → apart x y.
Proof.
  induction l as [|x l IH]; cbn [app spread]; [split; [intros H; split_and!; try done; by intros ? ? ?%elem_of_nil|by intros (_ & ? & _)]|].
  rewrite IH, Forall_app, !Forall_forall. split.
  - intros ((H1 & H2) & H3 & H4 & H5). split_and!; try done. intros y z [->|Hy]%elem_of_cons Hz; auto.
  - intros ((H1 & H2) & H3 & H4). split_and!; try done; [intros z Hz; apply H4; [left|done]|]. intros y z Hy Hz. apply H4; [by right|done].
Qed.

Lemma spread_fmap_ne {A} (f : A → Z * Z) l i j x y : spread (f <$> l) → l !! i = Some x → l !! j = Some y → i ≠ j → apart (f x) (f y).
Proof.
  revert i j. induction l as [|z l IH]; intros i j Hs Hi Hj Hne; [done|]. cbn [fmap list_fmap spread] in Hs. destruct Hs as [H1 H2]. rewrite Forall_forall in H1.
  destruct i as [|i], j as [|j]; cbn in Hi, Hj; simplify_eq.
  - apply H1, list_elem_of_fmap. exists y. split; [done|by eapply list_elem_of_lookup_2].
  - apply extent_apart_sym, H1, list_elem_of_fmap. exists x. split; [done|by eapply list_elem_of_lookup_2].
  - by eapply (IH i j); [done..|congruence].
Qed.

Section Inv.
Context {arch : Arch} {arch_ok : ArchOk}.

Definition extent (r : Region) : Z * Z := (virt r, bytes r).
Definition built (b : t) : list Region := take (region_count b) (regions b).

(** A region of whole frames, seen through the window. *)
Record region_ok (m : DirectMap.t) (r : Region) : Prop := {
  rg_bytes : 0 < bytes r;
  rg_phys : ∃ f, 0 ≤ f ∧ phys r = f * Frame.bytes;
  rg_whole : ∃ k, bytes r = k * Frame.bytes;
  rg_covers : DirectMap.covers m (phys r) (bytes r);
  rg_virt : virt r = DirectMap.shift m (phys r);
  rg_end : virt r + bytes r ≤ u_max USIZE_BITS }.

Definition within (r : Region) (x : Z * Z) : Prop := virt r ≤ x.1 ∧ x.1 + x.2 ≤ virt r + bytes r.

(** The arena with the blocks [L] out. *)
Record arena (b : t) (L : list (Z * Z)) : Prop := {
  ar_map : DirectMap.wf (map b);
  ar_len : length (regions b) = MAX_REGIONS;
  ar_count : (region_count b ≤ MAX_REGIONS)%nat;
  ar_regions : ∀ r, r ∈ built b → region_ok (map b) r;
  ar_apart : spread (extent <$> built b);
  ar_cursor : 0 ≤ cursor b ≤ end_ b ∧ (built b = [] ∧ end_ b = 0 ∨ ∃ r, r ∈ built b ∧ virt r ≤ cursor b ∧ end_ b = virt r + bytes r);
  ar_live : ∀ x, x ∈ L → 0 < x.2 ∧ apart x (cursor b, end_ b - cursor b) ∧ ∃ r, r ∈ built b ∧ within r x;
  ar_spread : spread L;
  ar_last : ∀ a n, last b = Some (a, n) → 0 < n ∧ a + n ≤ cursor b ∧ (∃ r, r ∈ built b ∧ virt r ≤ a ∧ end_ b = virt r + bytes r) ∧
    ∀ x, x ∈ L → apart x (a + n, end_ b - (a + n)) }.

(** The arena holds the frame. *)
Definition held (b : t) (n : Z) : Prop := ∃ r, r ∈ built b ∧ phys r ≤ n * Frame.bytes < phys r + bytes r.

Lemma new_arena m : DirectMap.wf m → arena (new m) [] ∧ ∀ n, ¬ held (new m) n.
Proof using.
  intros Hm. split; [|by intros n (r & ?%elem_of_nil & _)]. split; try done; cbn.
  - lia.
  - by intros r ?%elem_of_nil.
  - split; [lia|by left].
  - by intros x ?%elem_of_nil.
Qed.

Lemma arena_end b L : arena b L → end_ b ≤ u_max USIZE_BITS.
Proof using arch_ok.
  intros Ha. pose proof usize_width. destruct (ar_cursor _ _ Ha) as [_ [[_ ->]|(r & Hr & _ & ->)]].
  - unfold u_max. pose proof (Z.pow_pos_nonneg 2 USIZE_BITS). lia.
  - by apply (ar_regions _ _ Ha).
Qed.

Lemma arena_perm b L L' : L ≡ₚ L' → arena b L → arena b L'.
Proof using.
  intros HP [A1 A2 A3 A4 A5 A6 A7 A8 A9]. split; try done.
  - intros x Hx. apply A7. by rewrite HP.
  - by rewrite <-HP.
  - intros a n E. destruct (A9 a n E) as (H1 & H2 & H3 & H4). split_and!; try done. intros x Hx. apply H4. by rewrite HP.
Qed.

(** Only the cursor, the counts and the last allocation differ. *)
Record moved (b b' : t) : Prop := {
  mv_map : map b' = map b;
  mv_regions : regions b' = regions b;
  mv_count : region_count b' = region_count b;
  mv_end : end_ b' = end_ b }.

Lemma moved_held b b' n : moved b b' → held b' n ↔ held b n.
Proof using. intros []. unfold held, built. by rewrite mv_regions0, mv_count0. Qed.

Lemma moved_trans b b1 b2 : moved b b1 → moved b1 b2 → moved b b2.
Proof using. intros [] []. split; congruence. Qed.

Lemma moved_built b b' : moved b b' → built b' = built b.
Proof using. intros []. unfold built. congruence. Qed.

Lemma carve_ok b L size k :
  arena b L → 0 < size → 0 ≤ k →
  match carve b size (2 ^ k) with
  | (b', Ok start) => moved b b' ∧ arena b' L ∧ last b' = last b ∧ (2 ^ k | start) ∧ cursor b ≤ start ∧ start + size = cursor b' ∧ cursor b' ≤ end_ b ∧ cursor b < cursor b'
  | (b', Err e) => b' = b ∧ (e = Exhausted ∨ e = Overflow)
  end.
Proof using arch_ok.
  intros Ha Hs Hk. pose proof (arena_end _ _ Ha) as Hend. destruct (ar_cursor _ _ Ha) as [Hcur _]. unfold carve. destruct (KernAddr.align_up (cursor b) (2 ^ k)) as [start|] eqn:Eu; [|split; [done|by right]].
  apply KernAddr.align_up_Some in Eu as (Hst & Hd & _); [|unfold in_u; lia|done]. unfold KernAddr.checked_add, checked_add. destruct (Z.leb_spec (start + size) (u_max USIZE_BITS)) as [Hu|]; [|split; [done|by right]].
  destruct (Z.ltb_spec (end_ b) (start + size)); [split; [done|by left]|]. destruct Ha as [A1 A2 A3 A4 A5 A6 A7 A8 A9].
  split; [done|]. split; [|cbn; split_and!; (done || lia)]. split; try done; cbn [cursor end_ built regions region_count last] in *.
  - destruct A6 as [H1 [[H2 H3]|(r & Hr & H2 & H3)]]; split; try lia; right. exists r. split_and!; try done. lia.
  - intros x Hx. destruct (A7 x Hx) as (H1 & H2 & H3). split_and!; try done. eapply apart_inside; [exact H2|lia|lia].
  - intros a n E. destruct (A9 a n E) as (H1 & H2 & H3 & H4). split_and!; try done. lia.
Qed.

(** The block just carved, handed out. *)
Lemma hand_out_ok m b0 b L start size ctx :
  arena b0 L → moved b0 b → arena b L → 0 < size → cursor b0 ≤ start → start + size = cursor b → cursor b ≤ end_ b0 →
  match hand_out m b start size ctx with
  | (m', b', Ok p) => p = start ∧ p ≠ 0 ∧ moved b b' ∧ arena b' ((p, size) :: L) ∧ Poison.kept m m' p size ∧ (AllocContext.wants_zero ctx = true → ∀ a, p ≤ a < p + size → m' a = 0) ∧ (AllocContext.wants_zero ctx = false → m' = m)
  | (m', b', Err e) => m' = m ∧ b' = b ∧ e = Unmanaged
  end.
Proof using.
  intros Ha0 Hm Ha Hs Hc Hn He. pose proof Ha as [A1 A2 A3 A4 A5 A6 A7 A8 A9]. unfold hand_out. destruct (DirectMap.ptr_at (map b) start) as [p|e] eqn:Ep; [|split_and!; try done; by apply DirectMap.ptr_at_Err in Ep].
  apply (DirectMap.ptr_at_Ok _ _ _ A1) in Ep as (-> & Hnz & _). pose proof (mv_end _ _ Hm) as Ee. pose proof (moved_built _ _ Hm) as Eb.
  assert (∃ r, r ∈ built b ∧ virt r ≤ cursor b0 ∧ end_ b = virt r + bytes r) as (r & Hr & Hv & Er).
  { destruct (ar_cursor _ _ Ha0) as [Hcur [[Hb Hz]|(r & Hr & H1 & H2)]]; [lia|]. exists r. rewrite Eb, Ee. done. }
  assert (∀ x, x ∈ L → apart (start, size) x) as Hnew.
  { intros x Hx. destruct (ar_live _ _ Ha0 x Hx) as (_ & H2 & _). apply extent_apart_sym. eapply apart_inside; [exact H2|lia|lia]. }
  split_and!; try done.
  - split; try done; cbn [cursor end_ built regions region_count last] in *.
    + intros x [->|Hx]%elem_of_cons; [|by apply A7]. cbn. split_and!; [done|left; cbn; lia|]. exists r. split; [done|]. unfold within. cbn. lia.
    + cbn [spread]. split; [by apply Forall_forall|done].
    + intros a n [= <- <-]. split_and!; [done|lia|exists r; split_and!; try done; lia|]. intros x [->|Hx]%elem_of_cons; [left; cbn; lia|]. rewrite Hn. by apply A7.
  - case_match; [apply Poison.kept_zero|done].
  - intros ->. intros a Hin. by apply Poison.zero_fills.
  - by intros ->.
Qed.

Lemma region_nonneg m r : DirectMap.wf m → region_ok m r → 0 ≤ virt r.
Proof using. intros (_ & _ & H & _) [_ _ _ [Hc _] Hv _]. rewrite Hv. unfold DirectMap.shift. lia. Qed.

Lemma owns_within b L r x : arena b L → r ∈ built b → within r x → 0 < x.2 → owns b x.1 x.2 = true.
Proof using.
  intros Ha Hr [H1 H2] Hn. apply existsb_exists. exists r. split; [by apply list_elem_of_In|]. pose proof (ar_regions _ _ Ha r Hr) as Hok. pose proof (region_nonneg _ _ (ar_map _ _ Ha) Hok).
  destruct Hok. unfold contains, KernAddr.diff, checked_sub, checked_add. rewrite (proj2 (Z.leb_le _ _)) by lia. rewrite (proj2 (Z.leb_le _ _)) by lia. apply Z.leb_le. lia.
Qed.

Lemma dealloc_ok poison m b L ptr l :
  Layout.wf l → arena b ((ptr, Layout.size l) :: L) →
  ∃ m' b', dealloc poison m b ptr l = (m', b', Ok tt) ∧ moved b b' ∧ arena b' L ∧ Poison.kept m m' ptr (Layout.size l).
Proof using arch_ok.
  intros Hl Ha. pose proof Ha as [A1 A2 A3 A4 A5 A6 A7 A8 A9]. destruct (A7 _ ltac:(left)) as (Hn & Hap & r & Hr & Hw). cbn [fst snd] in *.
  unfold dealloc. rewrite Kalloc.check_layout_wf by done. rewrite (proj2 (Z.eqb_neq _ _)) by lia. pose proof (owns_within b _ r (ptr, Layout.size l) Ha Hr Hw Hn) as Eo. cbn [fst snd] in Eo. rewrite Eo. cbn [negb].
  eexists _, _. split; [done|]. split; [done|]. split; [|apply Poison.kept_freed]. cbn [spread] in A8. destruct A8 as [A8 A8']. rewrite Forall_forall in A8.
  split; try done; cbn [cursor end_ built regions region_count last] in *; case_bool_decide as Eb.
  - destruct (A9 _ _ Eb) as (_ & H2 & (r' & Hr' & Hv' & He') & _). destruct (ar_cursor _ _ Ha) as [Hcur _]. pose proof (region_nonneg _ _ A1 (A4 r' Hr')). split; [lia|]. right. by exists r'.
  - done.
  - intros x Hx. destruct (A7 x ltac:(by right)) as (H1 & _ & H3). split_and!; try done. destruct (A9 _ _ Eb) as (_ & H2 & _ & H4). specialize (H4 x ltac:(by right)). specialize (A8 x Hx). unfold apart in *. cbn in *. lia.
  - intros x Hx. apply A7. by right.
  - done.
  - intros a n E. destruct (A9 a n E) as (H1 & H2 & H3 & H4). split_and!; try done. intros x Hx. apply H4. by right.
Qed.

(** A run of frames that exist, as a source gives it. *)
Definition range_ok (r : FrameRange.t) : Prop :=
  Frame.wf (FrameRange.start r) ∧ (0 < FrameRange.count r)%nat ∧ Frame.number (FrameRange.start r) + Z.of_nat (FrameRange.count r) ≤ FrameRange.frame_limit.
Definition in_range (r : FrameRange.t) (n : Z) : Prop := Frame.number (FrameRange.start r) ≤ n < Frame.number (FrameRange.start r) + Z.of_nat (FrameRange.count r).

(** Two runs of frames with no frame in common have no byte in common. *)
Lemma whole_apart f c q k : (∀ n, f ≤ n < f + c → ¬ (q * Frame.bytes ≤ n * Frame.bytes < (q + k) * Frame.bytes)) → 0 < c → 0 < k →
  apart (f * Frame.bytes, c * Frame.bytes) (q * Frame.bytes, k * Frame.bytes).
Proof using arch_ok.
  intros H Hc Hk. pose proof Frame.bytes_pos as HB. unfold apart. cbn. destruct (decide (f + c ≤ q)); [left; nia|]. destruct (decide (q + k ≤ f)); [right; nia|].
  exfalso. apply (H (Z.max f q)); [lia|]. split; [nia|]. nia.
Qed.

Lemma shift_apart m x y n k : apart (x, n) (y, k) → apart (DirectMap.shift m x, n) (DirectMap.shift m y, k).
Proof using. unfold apart, DirectMap.shift. cbn. lia. Qed.

Lemma range_start r : range_ok r → Frame.start (FrameRange.start r) = Frame.number (FrameRange.start r) * Frame.bytes ∧ 0 ≤ Frame.number (FrameRange.start r).
Proof using arch_ok. intros [Hw _]. by apply Frame.wf_number. Qed.

Context (usize_32 : 32 ≤ USIZE_BITS).

(** A region given to the arena. *)
Lemma add_frames_ok b L range :
  arena b L → range_ok range → (∀ n, in_range range n → ¬ held b n) →
  match add_frames b range with
  | (b', Ok _) => arena b' L ∧ map b' = map b ∧ ∀ n, held b' n ↔ held b n ∨ in_range range n
  | (b', Err e) => b' = b
  end.
Proof using arch_ok usize_32.
  intros Ha Hr Hfree. pose proof Ha as [A1 A2 A3 A4 A5 A6 A7 A8 A9]. destruct (range_start _ Hr) as [Es Hs0]. destruct Hr as (Hw & Hc & Hlim). set (f := Frame.number (FrameRange.start range)) in *. set (c := FrameRange.count range) in *.
  pose proof Frame.bytes_pos as HB. pose proof FrameRange.limit_bytes as HL. unfold add_frames. destruct (Nat.leb_spec MAX_REGIONS (region_count b)) as [|Hroom]; [done|]. rewrite Es. fold c.
  unfold FrameRange.len_bytes, checked_mul, widen. fold c. destruct (Z.leb_spec (Z.of_nat c * Frame.bytes) (u_max 64)) as [Hmul|]; cbn [ok_or]; [|done]. unfold narrow_bytes. destruct (Z.leb_spec (Z.of_nat c * Frame.bytes) (u_max USIZE_BITS)) as [Hus|]; [|done].
  destruct (Z.eqb_spec (Z.of_nat c * Frame.bytes) 0); [nia|]. destruct (DirectMap.to_virt (map b) (f * Frame.bytes)) as [v|] eqn:Ev; [|done]. apply DirectMap.to_virt_Ok in Ev as [-> Hv]; [|done].
  unfold checked_add, saturating_sub. destruct (Z.leb_spec (f * Frame.bytes + Z.max (Z.of_nat c * Frame.bytes - 1) 0) (u_max 64)) as [Hlast|]; cbn [ok_or]; [|done].
  destruct (DirectMap.to_virt (map b) (_ + _)) as [v|] eqn:Ev; [|done]. apply DirectMap.to_virt_Ok in Ev as [_ Hv2]; [|done].
  unfold KernAddr.checked_add, checked_add. destruct (Z.leb_spec (DirectMap.shift (map b) (f * Frame.bytes) + Z.of_nat c * Frame.bytes) (u_max USIZE_BITS)) as [Hend|]; cbn [ok_or]; [|done].
  rewrite A2. rewrite (proj2 (Nat.leb_gt _ _)) by done. set (rg := Build_Region _ _ _ _).
  assert (FrameAllocator.usat_add (region_count b) 1 = S (region_count b)) as Ecount.
  { unfold FrameAllocator.usat_add. assert (2 ^ 32 ≤ 2 ^ USIZE_BITS) by (apply Z.pow_le_mono_r; lia). unfold u_max, MAX_REGIONS in *. destruct (Z.leb_spec (Z.of_nat (region_count b) + Z.of_nat 1) (2 ^ USIZE_BITS - 1)); lia. }
  set (b' := Build_t _ _ _ _ _ _ _ _ _ _ _ _ _ _ _).
  assert (built b' = built b ++ [rg]) as Eb.
  { unfold built. cbn [b' region_count regions]. rewrite Ecount. rewrite (take_S_r _ _ rg) by (apply list_lookup_insert_eq; lia). f_equal. by rewrite take_insert_ge by lia. }
  assert (region_ok (map b) rg) as Hrg.
  { split; cbn [rg virt bytes phys]; [nia|by exists f|by eexists| |done|done]. split; lia. }
  assert (∀ r, r ∈ built b → apart (extent rg) (extent r)) as Hap.
  { intros r Hr. pose proof (A4 r Hr) as [R1 (q & Hq & Eq) (k & Ek) R4 R5 R6]. unfold extent. cbn [rg virt bytes]. rewrite R5, Eq, Ek. apply shift_apart, whole_apart; [|lia|nia].
    intros i Hi Hin. apply (Hfree i Hi). exists r. split; [done|]. rewrite Eq, Ek. lia. }
  split; [split|split; [done|]]; rewrite ?Eb; try done; cbn [b' map cursor end_ regions region_count last].
  - by rewrite length_insert.
  - rewrite Ecount. lia.
  - intros r [Hr| ->%list_elem_of_singleton]%elem_of_app; [by apply A4|done].
  - rewrite fmap_app. apply spread_app. split_and!; [done|done|]. intros x y (r & -> & Hr)%list_elem_of_fmap ->%list_elem_of_singleton. apply extent_apart_sym. by apply Hap.
  - pose proof (region_nonneg _ _ A1 Hrg) as H0. cbn [rg virt] in H0. split; [nia|]. right. exists rg. split_and!; [apply elem_of_app; right; by apply list_elem_of_singleton|done|done].
  - intros x Hx. destruct (A7 x Hx) as (H1 & H2 & r & Hr & Hwi). split_and!; [done| |exists r; split; [apply elem_of_app; by left|done]].
    pose proof (Hap r Hr) as H. unfold apart, extent, within in *. cbn [rg virt bytes fst snd] in *. lia.
  - intros i. unfold held. rewrite Eb. split.
    + intros (r & [Hr| ->%list_elem_of_singleton]%elem_of_app & Hn); [left; by exists r|]. right. unfold in_range. fold f c. cbn [rg phys bytes] in Hn. nia.
    + intros [(r & Hr & Hn)|Hn]; [exists r; split; [apply elem_of_app; by left|done]|]. exists rg. split; [apply elem_of_app; right; by apply list_elem_of_singleton|]. unfold in_range in Hn. fold f c in Hn. cbn [rg phys bytes]. nia.
Qed.

Section Source.
Context {S : Type} {source : FrameSource S} {source_laws : FrameSourceOk S}.

(** The frames that went from the source to the arena: the source no longer offers them. *)
Record passed (b : t) (s : S) (b' : t) (s' : S) : Prop := {
  ps_map : map b' = map b;
  ps_source : source_ok s';
  ps_offers : ∀ n, offers s' n → offers s n;
  ps_held : ∀ n, held b' n → held b n ∨ offers s n ∧ ¬ offers s' n }.

Lemma passed_moved b b' s : moved b b' → source_ok s → passed b s b' s.
Proof using. intros Hm Hs. split; [apply (mv_map _ _ Hm)|done|done|]. intros n Hn. left. by apply (moved_held _ _ _ Hm). Qed.

Lemma passed_trans b s b1 s1 b2 s2 : passed b s b1 s1 → passed b1 s1 b2 s2 → passed b s b2 s2.
Proof using.
  intros [M1 S1 O1 H1] [M2 S2 O2 H2]. split; [congruence|done|auto|]. intros n [Hn|[Ho Hn]]%H2; [destruct (H1 n Hn) as [?|[? ?]]; [by left|right; auto]|right; auto].
Qed.

Lemma grow_ok b L s min_bytes :
  arena b L → source_ok s → (∀ n, offers s n → ¬ held b n) →
  let '(b', s', _) := grow b s min_bytes in arena b' L ∧ passed b s b' s'.
Proof using arch_ok usize_32.
  intros Ha Hs Hfree. assert (arena b L ∧ passed b s b s) as Hsame by (split; [done|by apply passed_moved]). unfold grow. destruct (min_bytes =? 0); [done|]. destruct (MAX_REGIONS <=? region_count b)%nat; [done|].
  destruct (PAGE_SIZE =? 0); [done|]. cbv zeta. set (need := Z.max (div_ceil min_bytes PAGE_SIZE) 1). set (want := Z.max need (div_ceil MIN_GROW_BYTES PAGE_SIZE)).
  match goal with |- context [match source_take s ?w with _ => _ end] => set (got := match source_take s w with (s', Ok r) => (s', Ok r) | (s', Err e) => if need <? want then source_take s' (Z.to_nat need) else (s', Err e) end) end.
  assert (let '(s', res) := got in passed b s b s' ∧ ∀ r, res = Ok r → range_ok r ∧ ∀ n, in_range r n → offers s n ∧ ¬ offers s' n) as Hgot.
  { unfold got. clear got Hsame. pose proof (take_ok s (Z.to_nat want) Hs) as T1. destruct (source_take s (Z.to_nat want)) as [s1 [r|e]]; destruct T1 as (T1 & T2 & T3).
    - split; [by split; auto|]. intros r' [= <-]. destruct (T3 r eq_refl) as (R1 & R2 & R3 & R4). split; [by split; [|split]|exact R4].
    - destruct (need <? want); [|split; [by split; auto|done]]. pose proof (take_ok s1 (Z.to_nat need) T1) as T4. destruct (source_take s1 (Z.to_nat need)) as [s2 res]. destruct T4 as (T4 & T5 & T6).
      split; [by split; auto|]. intros r ->. destruct (T6 r eq_refl) as (R1 & R2 & R3 & R4). split; [by split; [|split]|]. intros n Hn. destruct (R4 n Hn). auto. }
  clearbody got. destruct got as [s' [r|e]]; destruct Hgot as [Hp Hr]; [|done]. destruct (Hr r eq_refl) as [Hrok Hin].
  pose proof (add_frames_ok b L r Ha Hrok) as Hadd. destruct (add_frames b r) as [b' [|e]].
  - destruct Hadd as (Ha' & Em & Hh); [intros n Hn; by apply Hfree, Hin|]. split; [done|]. destruct Hp. split; try done. intros n [Hn|Hn]%Hh; [by left|right; by apply Hin].
  - rewrite Hadd; [done|]. intros n Hn. by apply Hfree, Hin.
Qed.

Lemma carve_or_grow_ok b L s size k :
  arena b L → 0 < size → 0 ≤ k → source_ok s → (∀ n, offers s n → ¬ held b n) →
  let '(b', s', start) := carve_or_grow b size (2 ^ k) s in
  passed b s b' s' ∧ arena b' L ∧ ∀ x, start = Ok x → ∃ b0, arena b0 L ∧ moved b0 b' ∧ (2 ^ k | x) ∧ cursor b0 ≤ x ∧ x + size = cursor b' ∧ cursor b' ≤ end_ b0.
Proof using arch_ok usize_32.
  intros Ha Hz Hk Hs Hfree. assert (passed b s b s) as Hsame by (by apply passed_moved). unfold carve_or_grow. pose proof (carve_ok b L size k Ha Hz Hk) as C1. destruct (carve b size (2 ^ k)) as [b1 [x|e]].
  - destruct C1 as (M & A1 & _ & D & C2 & C3 & C4 & _). split; [by apply passed_moved|]. split; [done|]. intros y [= <-]. by exists b.
  - destruct C1 as [-> He]. destruct e; try (split_and!; done). destruct (checked_add USIZE_BITS size (2 ^ k)) as [want|]; [|done].
    pose proof (grow_ok b L s want Ha Hs Hfree) as G. destruct (grow b s want) as [[b2 s2] [taken|e]]; destruct G as [A2 P2]; [|done].
    pose proof (carve_ok b2 L size k A2 Hz Hk) as C2. destruct (carve b2 size (2 ^ k)) as [b3 [x|e]].
    + destruct C2 as (M & A3 & _ & D & C2 & C3 & C4 & _). split; [eapply passed_trans; [exact P2|]; apply passed_moved; [done|apply P2]|]. split; [done|]. intros y [= <-]. by exists b2.
    + destruct C2 as [-> _]. done.
Qed.

Lemma try_alloc_in_ok m b L l ctx s :
  arena b L → Layout.wf l → source_ok s → (∀ n, offers s n → ¬ held b n) →
  let '(m', b', s', res) := try_alloc_in m b l ctx s in
  passed b s b' s' ∧
  match res with
  | Ok p => arena b' ((p, Layout.size l) :: L) ∧ p ≠ 0 ∧ (Layout.align l | p) ∧ Poison.kept m m' p (Layout.size l) ∧
      (AllocContext.wants_zero ctx = true → ∀ a, p ≤ a < p + Layout.size l → m' a = 0) ∧ (AllocContext.wants_zero ctx = false → m' = m)
  | Err _ => arena b' L ∧ m' = m
  end.
Proof using arch_ok usize_32.
  intros Ha Hl Hs Hfree. pose proof Hl as (Hl0 & (k & Hk & Ek) & _). assert (passed b s b s) as Hsame by (by apply passed_moved). unfold try_alloc_in. rewrite Kalloc.check_layout_wf by done.
  destruct (Z.eqb_spec (Layout.size l) 0); [done|]. rewrite Ek. set (size := Layout.size l) in *.
  pose proof (carve_or_grow_ok b L s size k Ha ltac:(lia) Hk Hs Hfree) as Hgot. destruct (carve_or_grow b size (2 ^ k) s) as [[b' s'] [x|e]]; destruct Hgot as (P & A & Hx); [|done]. destruct (Hx x eq_refl) as (b0 & A0 & M & D & C1 & C2 & C3).
  pose proof (hand_out_ok m b0 b' L x size ctx A0 M A ltac:(lia) C1 C2 C3) as Ho. destruct (hand_out m b' x size ctx) as [[m' b''] [p|e]].
  - destruct Ho as (-> & Hnz & M' & A' & Hkept & Hz). split; [eapply passed_trans; [exact P|]; apply passed_moved; [done|apply P]|]. done.
  - destruct Ho as (-> & -> & _). done.
Qed.

End Source.

End Inv.
End BumpInv.
