(* ===== verification/KallocSlabInv.v ===== *)
(** * The size classes keep their objects apart

    Which objects are out is what the bits say: taking one sets a bit that was clear, giving one
    back clears the bit of that object and no other. *)

From S2P Require Import Prelude MmFrame MmPhys MmDirectMap KallocBase KallocSlab.
Local Open Scope Z_scope.

Module SlabInv.
Import Slab.

Section Inv.
Context {arch : Arch} {arch_ok : ArchOk} (usize_32 : 32 ≤ USIZE_BITS).

Lemma u_max_32 : 4294967295 ≤ u_max USIZE_BITS.
Proof using usize_32. unfold u_max. assert (2 ^ 32 ≤ 2 ^ USIZE_BITS) by (apply Z.pow_le_mono_r; lia). lia. Qed.

(** ** Classes *)

Lemma class_facts c : c ∈ CLASS_SIZES →
  (∃ j, 0 ≤ j ∧ c = 2 ^ j) ∧ 16 ≤ c ≤ 1024 ∧ 4 ≤ objects_per_block c ≤ 64 ∧ c * objects_per_block c ≤ 4096.
Proof using.
  unfold CLASS_SIZES. rewrite !elem_of_cons, elem_of_nil. intros H. split.
  - destruct H as [->|[->|[->|[->|[->|[->|[->|[]]]]]]]]; [by exists 4|by exists 5|by exists 6|by exists 7|by exists 8|by exists 9|by exists 10].
  - destruct H as [->|[->|[->|[->|[->|[->|[->|[]]]]]]]]; split_and!; by vm_compute.
Qed.

Lemma class_for_Some l c : class_for l = Some c → c ∈ CLASS_SIZES ∧ Layout.size l ≠ 0 ∧ Layout.size l ≤ c ∧ Layout.align l ≤ c.
Proof using.
  unfold class_for. destruct (Z.eqb_spec (Layout.size l) 0); [done|]. intros [Hc%list_elem_of_In H%Z.leb_le]%find_some. split_and!; [done|done|lia|lia].
Qed.

(** Of two powers of two, the smaller divides the larger. *)
Lemma power_divide a b : (∃ j, 0 ≤ j ∧ a = 2 ^ j) → (∃ k, 0 ≤ k ∧ b = 2 ^ k) → a ≤ b → (a | b).
Proof using.
  intros (j & Hj & ->) (k & Hk & ->) H. apply Z.pow_le_mono_r_iff in H; [|lia..]. exists (2 ^ (k - j)). rewrite <-Z.pow_add_r by lia. f_equal. lia.
Qed.

Lemma block_layout_Ok c : c ∈ CLASS_SIZES → ∃ l, block_layout c = Ok l ∧ Layout.wf l ∧ l = {| Layout.size := c * objects_per_block c; Layout.align := c |}.
Proof using usize_32.
  intros Hc. destruct (class_facts c Hc) as (Hp & H1 & H2 & H3). pose proof u_max_32 as Hu. unfold block_layout, checked_mul. rewrite (proj2 (Z.leb_le _ _)) by lia. cbn [ok_or].
  assert (Layout.wf {| Layout.size := c * objects_per_block c; Layout.align := c |}) as Hw.
  { split_and!; cbn; [nia|done|]. unfold u_max. assert (2 ^ 31 ≤ 2 ^ (USIZE_BITS - 1)) by (apply Z.pow_le_mono_r; lia). lia. }
  pose proof (Layout.from_wf _ Hw) as E. cbn in E. rewrite E. eexists. split; [done|]. split; [exact Hw|done].
Qed.

Lemma direct_layout c : c ∈ CLASS_SIZES → Layout.from_size_align c c = Some {| Layout.size := c; Layout.align := c |} ∧ Layout.wf {| Layout.size := c; Layout.align := c |}.
Proof using usize_32.
  intros Hc. destruct (class_facts c Hc) as (Hp & H1 & H2 & H3). assert (Layout.wf {| Layout.size := c; Layout.align := c |}) as Hw.
  { split_and!; cbn; [lia|done|]. unfold u_max. assert (2 ^ 31 ≤ 2 ^ (USIZE_BITS - 1)) by (apply Z.pow_le_mono_r; lia). lia. }
  split; [apply (Layout.from_wf _ Hw)|done].
Qed.

(** ** Bits *)

Lemma bit_eq k : 0 ≤ k < 64 → bit k = 2 ^ k.
Proof using. intros H. unfold bit, u_max. rewrite (proj2 (Z.leb_le _ _)), (proj2 (Z.ltb_lt _ _)) by lia. cbn [andb]. by apply shl_bit. Qed.

Lemma trailing_bit x : in_u 64 x → x ≠ 0 → 0 ≤ trailing_zeros x < 64 ∧ Z.testbit x (trailing_zeros x) = true.
Proof using.
  intros Hx Hnz. unfold trailing_zeros. destruct (ones x) as [|k ks] eqn:E.
  - exfalso. apply Hnz. apply Z.bits_inj'. intros n Hn. rewrite Z.bits_0. destruct (decide (n < 64)); [|apply (in_u_testbit 64); (done || lia)].
    apply not_true_iff_false. intros Hb. assert (n ∈ ones x) as Hin by (apply list_elem_of_filter; split; [done|]; apply elem_of_seqZ; lia). rewrite E in Hin. by apply elem_of_nil in Hin.
  - cbn. assert (k ∈ ones x) as Hin by (rewrite E; left). apply list_elem_of_filter in Hin as [Hb Hk%elem_of_seqZ]. split; [lia|done].
Qed.

(** A block of a class, with its objects in the window and no bit for an object it lacks. *)
Record block_ok (m : DirectMap.t) (b : Block) : Prop := {
  bk_class : class b ∈ CLASS_SIZES;
  bk_objects : objects b = objects_per_block (class b);
  bk_virt : 0 < virt b;
  bk_aligned : (class b | virt b);
  bk_window : DirectMap.virt_base m ≤ virt b ∧ virt b + class b * objects b ≤ DirectMap.virt_base m + DirectMap.len m;
  bk_phys : virt b = DirectMap.shift m (phys b);
  bk_used : in_u 64 (used b);
  bk_none : ∀ k, objects b ≤ k → Z.testbit (used b) k = false }.

Lemma block_size m b : block_ok m b → bytes b = class b * objects b ∧ 4 ≤ objects b ≤ 64 ∧ 16 ≤ class b ∧ class b * objects b ≤ 4096.
Proof using usize_32.
  intros []. destruct (class_facts _ bk_class0) as (_ & H1 & H2 & H3). rewrite bk_objects0. pose proof u_max_32. unfold bytes, saturating_mul. rewrite bk_objects0. split; [lia|]. lia.
Qed.

Lemma mask_bit m b k : block_ok m b → 0 ≤ k → Z.testbit (mask b) k = bool_decide (k < objects b) ∧ 0 ≤ mask b.
Proof using usize_32.
  intros Hb Hk. destruct (block_size m b Hb) as (_ & Ho & _). unfold mask, MAX_OBJECTS. destruct (Z.leb_spec 64 (objects b)).
  - assert (objects b = 64) as -> by lia. rewrite u_max_eq by lia. split; [|done]. case_bool_decide; [by apply Z.ones_spec_low|apply Z.ones_spec_high; lia].
  - rewrite bit_eq by lia. pose proof (Z.pow_pos_nonneg 2 (objects b) ltac:(lia) ltac:(lia)). assert (2 ^ objects b ≤ 2 ^ 64) by (apply Z.pow_le_mono_r; lia). unfold wrapping_sub. rewrite Z.mod_small by lia.
    replace (2 ^ objects b - 1) with (Z.ones (objects b)) by (rewrite Z.ones_equiv; lia). split; [|rewrite Z.ones_equiv; lia]. case_bool_decide; [apply Z.ones_spec_low; lia|apply Z.ones_spec_high; lia].
Qed.

Definition free_bits (b : Block) : Z := Z.land (u_not 64 (used b)) (mask b).

Lemma free_bit m b k : block_ok m b → 0 ≤ k → Z.testbit (free_bits b) k = bool_decide (k < objects b) && negb (Z.testbit (used b) k).
Proof using usize_32.
  intros Hb Hk. destruct (block_size m b Hb) as (_ & Ho & _). unfold free_bits. rewrite Z.land_spec, (proj1 (mask_bit m b k Hb Hk)), u_not_spec by lia. rewrite andb_comm. case_bool_decide; [|done]. rewrite bool_decide_true by lia. by rewrite xorb_true_r.
Qed.

Lemma free_u64 m b : block_ok m b → in_u 64 (free_bits b).
Proof using usize_32.
  intros Hb. destruct (block_size m b Hb) as (_ & Ho & _). pose proof (mask_bit m b 0 Hb ltac:(lia)) as [_ Hm]. apply testbit_in_u; [lia|unfold free_bits; apply Z.land_nonneg; by right|].
  intros n Hn. rewrite (free_bit m) by (done || lia). by rewrite bool_decide_false by lia.
Qed.

(** One bit set, one cleared. *)
Lemma set_bit_ok m b k : block_ok m b → 0 ≤ k < objects b → block_ok m (set_used (Z.lor (used b) (2 ^ k)) b) ∧
  ∀ j, 0 ≤ j → Z.testbit (Z.lor (used b) (2 ^ k)) j = bool_decide (j = k) || Z.testbit (used b) j.
Proof using usize_32.
  intros Hb Hk. destruct (block_size m b Hb) as (_ & Ho & _). assert (∀ j, 0 ≤ j → Z.testbit (Z.lor (used b) (2 ^ k)) j = bool_decide (j = k) || Z.testbit (used b) j) as Hbit.
  { intros j Hj. rewrite Z.lor_spec, orb_comm. f_equal. case_bool_decide as E; [subst; apply Z.pow2_bits_true; lia|apply Z.pow2_bits_false; lia]. }
  split; [|done]. destruct Hb. split; cbn [set_used virt phys class objects used]; try done.
  - apply lor_in_u; [lia|done|]. unfold in_u, u_max. pose proof (Z.pow_pos_nonneg 2 k ltac:(lia) ltac:(lia)). assert (2 ^ k < 2 ^ 64) by (apply Z.pow_lt_mono_r; lia). lia.
  - intros j Hj. rewrite Hbit by lia. rewrite bool_decide_false by lia. cbn. by apply bk_none0.
Qed.

Lemma clear_bit_ok m b k : block_ok m b → 0 ≤ k < objects b → block_ok m (set_used (Z.land (used b) (u_not 64 (2 ^ k))) b) ∧
  ∀ j, 0 ≤ j → Z.testbit (Z.land (used b) (u_not 64 (2 ^ k))) j = negb (bool_decide (j = k)) && Z.testbit (used b) j.
Proof using usize_32.
  intros Hb Hk. destruct (block_size m b Hb) as (_ & Ho & _). pose proof Hb as []. assert (∀ j, 0 ≤ j → Z.testbit (Z.land (used b) (u_not 64 (2 ^ k))) j = negb (bool_decide (j = k)) && Z.testbit (used b) j) as Hbit.
  { intros j Hj. rewrite land_u_not by (done || lia). rewrite Z.ldiff_spec, andb_comm. f_equal. f_equal. case_bool_decide as E; [subst; apply Z.pow2_bits_true; lia|apply Z.pow2_bits_false; lia]. }
  split; [|done]. split; cbn [set_used virt phys class objects used]; try done.
  - rewrite land_u_not by (done || lia). apply testbit_in_u; [lia|apply Z.ldiff_nonneg; left; apply bk_used0|]. intros n Hn. rewrite Z.ldiff_spec. rewrite (in_u_testbit 64); [done|lia|done|lia].
  - intros j Hj. rewrite Hbit by lia. rewrite bk_none0 by done. apply andb_false_r.
Qed.

(** ** Taking an object *)

Lemma take_first_ok m c bs : DirectMap.wf m → Forall (block_ok m) bs → c ∈ CLASS_SIZES →
  match take_first bs c m with
  | Err _ => False
  | Ok None => ∀ b k, b ∈ bs → class b = c → 0 ≤ k < objects b → Z.testbit (used b) k = true
  | Ok (Some (bs', p)) => ∃ i b k, bs !! i = Some b ∧ class b = c ∧ 0 ≤ k < objects b ∧ Z.testbit (used b) k = false ∧ p = virt b + k * c ∧
      bs' = <[i := set_used (Z.lor (used b) (2 ^ k)) b]> bs
  end.
Proof using usize_32.
  intros Hm Hbs Hc. induction bs as [|b bs IH]; cbn [take_first]; [by intros b k ?%elem_of_nil|]. apply Forall_cons in Hbs as [Hb Hbs]. specialize (IH Hbs). fold (free_bits b).
  destruct (negb (class b =? c) || (free_bits b =? 0)) eqn:E.
  - destruct (take_first bs c m) as [[[bs' p]|]|e]; cbn; [| |done].
    + destruct IH as (i & b' & k & H1 & H2 & H3 & H4 & H5 & ->). by exists (S i), b', k.
    + intros b' k [->|Hb']%elem_of_cons Hcls Hk; [|by apply IH]. rewrite Hcls, Z.eqb_refl in E. cbn in E. apply Z.eqb_eq in E. pose proof (free_bit m b k Hb ltac:(lia)) as F.
      rewrite E, Z.testbit_0_l, bool_decide_true in F by lia. cbn in F. by apply negb_false_iff.
  - apply orb_false_iff in E as [E1%negb_false_iff%Z.eqb_eq E2%Z.eqb_neq]. destruct (trailing_bit _ (free_u64 m b Hb) E2) as [Hk Hbit]. set (k := trailing_zeros (free_bits b)) in *. clearbody k.
    rewrite (free_bit m) in Hbit by (done || lia). apply andb_true_iff in Hbit as [Hko%bool_decide_eq_true Hu%negb_true_iff]. destruct (block_size m b Hb) as (_ & Ho & Hc16 & Hsz). pose proof Hb as []. pose proof u_max_32 as Hu32.
    assert ((k + 1) * c ≤ class b * objects b) as Hend by nia. assert (0 ≤ k * c) by nia. pose proof Hm as (_ & _ & W2 & _ & W3).
    unfold checked_mul, KernAddr.checked_add, checked_add. rewrite (proj2 (Z.leb_le _ _)) by nia. cbn [ok_or]. rewrite (proj2 (Z.leb_le _ _)) by lia. cbn [ok_or].
    rewrite (proj2 (DirectMap.ptr_at_Ok m (virt b + k * c) _ Hm)) by (split; [done|split; lia]). exists 0%nat, b, k. rewrite bit_eq by lia. split_and!; (done || lia).
Qed.

(** A class with a block that is all free has an object. *)
Lemma take_first_some m c bs b : Forall (block_ok m) bs → DirectMap.wf m → b ∈ bs → class b = c → used b = 0 → ∃ r, take_first bs c m = Ok (Some r).
Proof using usize_32.
  intros Hbs Hm Hb Hc Hu. assert (block_ok m b) as Hok by (by eapply Forall_forall). assert (c ∈ CLASS_SIZES) as Hcs by (rewrite <-Hc; apply Hok). pose proof (take_first_ok m c bs Hm Hbs Hcs) as H.
  destruct (take_first bs c m) as [[r|]|]; [by eexists| |done]. destruct (block_size m b Hok) as (_ & Ho & _). specialize (H b 0 Hb Hc ltac:(lia)). by rewrite Hu, Z.testbit_0_l in H.
Qed.

(** ** Giving one back *)

Definition inside (b : Block) (addr : Z) : Prop := virt b ≤ addr < virt b + class b * objects b.

Lemma index_of_out m b addr : block_ok m b → ¬ inside b addr → index_of b addr = Ok None.
Proof using usize_32.
  intros Hb Hn. destruct (block_size m b Hb) as (Eb & _). unfold index_of, KernAddr.diff, checked_sub, inside in *. rewrite Eb. destruct (Z.leb_spec (virt b) addr); [|done]. by rewrite (proj2 (Z.leb_le _ _)) by lia.
Qed.

Lemma index_of_at m b k : block_ok m b → 0 ≤ k < objects b → index_of b (virt b + k * class b) = Ok (Some k).
Proof using usize_32.
  intros Hb Hk. destruct (block_size m b Hb) as (Eb & _ & Hc & _). unfold index_of, KernAddr.diff, checked_sub. rewrite Eb. rewrite (proj2 (Z.leb_le _ _)) by nia.
  replace (virt b + k * class b - virt b) with (k * class b) by lia. rewrite (proj2 (Z.leb_gt _ _)) by nia. rewrite (proj2 (Z.eqb_neq _ _)) by lia. rewrite Z.mod_mul by lia. cbn. rewrite Z.div_mul by lia. done.
Qed.

Lemma free_in_none m c bs addr : Forall (block_ok m) bs → (∀ b, b ∈ bs → ¬ inside b addr) → free_in bs addr c = NotHere ∧ offset_in bs addr = None.
Proof using usize_32.
  induction bs as [|b bs IH]; intros Hbs Hn; [done|]. apply Forall_cons in Hbs as [Hb Hbs]. destruct IH as [IH1 IH2]; [done|intros b' Hb'; apply Hn; by right|]. specialize (Hn b ltac:(left)). cbn [free_in offset_in].
  rewrite (index_of_out m) by done. rewrite IH1, IH2. split; [done|]. destruct (block_size m b Hb) as (Eb & _). rewrite Eb. unfold KernAddr.diff, checked_sub, inside in *. destruct (Z.leb_spec (virt b) addr); [|done]. by rewrite (proj2 (Z.ltb_ge _ _)) by lia.
Qed.

Lemma free_in_at m c bs i b k : Forall (block_ok m) bs → bs !! i = Some b → class b = c → 0 ≤ k < objects b → Z.testbit (used b) k = true →
  (∀ j b', j ≠ i → bs !! j = Some b' → ¬ inside b' (virt b + k * c)) →
  free_in bs (virt b + k * c) c = Cleared (<[i := set_used (Z.land (used b) (u_not 64 (2 ^ k))) b]> bs).
Proof using usize_32.
  revert i. induction bs as [|b' bs IH]; intros i Hbs Hi Hc Hk Hu Hn; [done|]. apply Forall_cons in Hbs as [Hb' Hbs]. cbn [free_in]. destruct i as [|i]; cbn in Hi.
  - injection Hi as ->. rewrite <-Hc. rewrite (index_of_at m) by done. rewrite Z.eqb_refl. cbn [negb]. destruct (block_size m b Hb') as (_ & Ho & _). rewrite bit_eq by lia.
    pose proof (Z.pow_pos_nonneg 2 k ltac:(lia) ltac:(lia)). rewrite (proj2 (Z.eqb_neq _ _)) by lia. pose proof (land_bit (used b) k ltac:(lia)) as Hl. rewrite Hu in Hl. apply negb_true_iff in Hl. rewrite Hl. done.
  - rewrite (index_of_out m); [|done|by apply (Hn 0%nat)]. rewrite (IH i); [done|done|done|done|done|done|]. intros j b'' Hj Hb''. by apply (Hn (S j)); [congruence|].
Qed.

End Inv.
End SlabInv.
