(* ===== verification/KallocHeapInv.v ===== *)
(** * The kernel heap keeps its allocations apart

    What is out is in three places: objects of the size classes, blocks of the arena, and blocks
    of the attached pages.  The invariant ties each to the allocator it came from; from it, all
    of them are apart, aligned and inside the window. *)

From S2P Require Import Prelude MmFrame MmPhys MmDirectMap KallocBase KallocBuddy KallocBuddyInv KallocBuddySpec KallocBump KallocSlab KallocHeap KallocBumpInv KallocSlabInv.
Import BumpInv SlabInv.
Local Open Scope Z_scope.

Module HeapInv.

(** An allocation that is out: its pointer, the layout asked for, and the bytes set aside. *)
Record entry := { ptr : Z; lay : Layout.t; room : Z }.
Definition ext (e : entry) : Z * Z := (ptr e, room e).

Lemma spread_of {A} (f : A → Z * Z) l : (∀ i j x y, l !! i = Some x → l !! j = Some y → i ≠ j → apart (f x) (f y)) → spread (f <$> l).
Proof.
  induction l as [|x l IH]; intros H; [done|]. cbn [fmap list_fmap spread]. split.
  - apply Forall_forall. intros y (z & -> & Hz)%list_elem_of_fmap. apply list_elem_of_lookup_1 in Hz as [j Hj]. by apply (H 0%nat (S j)).
  - apply IH. intros i j y z Hi Hj Hne. apply (H (S i) (S j)); [done|done|congruence].
Qed.

Section Inv.
Context {arch : Arch} {arch_ok : ArchOk} (usize_32 : 32 ≤ USIZE_BITS).

(** ** The three places *)

Definition bl (s : Slab.t) : list Slab.Block := take (Slab.count s) (Slab.blocks s).
Definition block_ext (b : Slab.Block) : Z * Z := (Slab.virt b, Slab.class b * Slab.objects b).
Definition arena_len (l : Layout.t) : Z := match Slab.class_for l with Some c => c | None => Layout.size l end.
Definition arena_align (l : Layout.t) : Z := match Slab.class_for l with Some c => c | None => Layout.align l end.
Definition page_ptr (m : DirectMap.t) (r : FrameRange.t) (p : nat) : Z := DirectMap.shift m (Frame.start (FrameRange.start r) + Z.of_nat p * Frame.bytes).

Definition obj_entry (s : Slab.t) (x : nat * Z * Layout.t) : entry :=
  match bl s !! x.1.1 with
  | Some b => {| ptr := Slab.virt b + x.1.2 * Slab.class b; lay := x.2; room := Slab.class b |}
  | None => {| ptr := 0; lay := x.2; room := 0 |}
  end.
Definition direct_entry (x : Z * Layout.t) : entry := {| ptr := x.1; lay := x.2; room := arena_len x.2 |}.
Definition page_entry (m : DirectMap.t) (r : FrameRange.t) (x : nat * nat * Layout.t) : entry :=
  {| ptr := page_ptr m r x.1.1; lay := x.2; room := Z.of_nat (2 ^ x.1.2) * Frame.bytes |}.

(** The objects [DS] out of the size classes: block, index and layout. *)
Record slab_ok (m : DirectMap.t) (s : Slab.t) (DS : list (nat * Z * Layout.t)) : Prop := {
  so_len : length (Slab.blocks s) = Slab.MAX_BLOCKS;
  so_count : (Slab.count s ≤ Slab.MAX_BLOCKS)%nat;
  so_blocks : Forall (block_ok m) (bl s);
  so_once : NoDup DS.*1;
  so_used : ∀ i b k, bl s !! i = Some b → 0 ≤ k → (Z.testbit (Slab.used b) k = true ↔ (i, k) ∈ DS.*1);
  so_lay : ∀ i k l, (i, k, l) ∈ DS → Layout.wf l ∧ 0 ≤ k ∧ ∃ b, bl s !! i = Some b ∧ Slab.class_for l = Some (Slab.class b) ∧ k < Slab.objects b }.

(** A run whose frames exist and are in the window. *)
Record run_seen (m : DirectMap.t) (r : FrameRange.t) : Prop := {
  rs_range : range_ok r;
  rs_ok : BuddySpec.run_ok r;
  rs_covers : DirectMap.covers m (Frame.start (FrameRange.start r)) (Z.of_nat (FrameRange.count r) * Frame.bytes) }.

(** The order of the block that serves a layout. *)
Definition order_of (l : Layout.t) : option nat := Buddy.order_for (Z.to_nat (Bump.div_ceil (Layout.size l) PAGE_SIZE)).

(** The blocks [DP] out of the attached pages: first page, order and layout. *)
Record buddy_ok (m : DirectMap.t) (b : Buddy.t) (A : gmap nat nat) (DP : list (nat * nat * Layout.t)) : Prop := {
  bo_holds : BuddySpec.holds b A;
  bo_managed : BuddySpec.managed b (Buddy.run b);
  bo_run : run_seen m (Buddy.run b);
  bo_once : NoDup DP.*1.*1;
  bo_blocks : ∀ p o, A !! p = Some o ↔ (p, o) ∈ DP.*1;
  bo_lay : ∀ p o l, (p, o, l) ∈ DP → Layout.wf l ∧ Layout.size l ≠ 0 ∧ Layout.align l ≤ PAGE_SIZE ∧ Slab.class_for l = None ∧ order_of l = Some o ∧ page_ptr m (Buddy.run b) p ≠ 0 }.

Definition pages_ok (m : DirectMap.t) (p : option Buddy.t) (DP : list (nat * nat * Layout.t)) : Prop :=
  match p with None => DP = [] | Some b => ∃ A, buddy_ok m b A DP end.

Definition held_by (a : Bump.t) (p : option Buddy.t) (n : Z) : Prop := BumpInv.held a n ∨ ∃ b, p = Some b ∧ in_range (Buddy.run b) n.
Definition held (h : Heap.t) : Z → Prop := held_by (Heap.bump h) (Heap.pages h).

(** The window, whose offset is whole pages: it is how a page table can map it. *)
Definition map_ok (m : DirectMap.t) : Prop := DirectMap.wf m ∧ (Frame.bytes | DirectMap.virt_base m - DirectMap.phys_base m).

Definition arena_exts (s : Slab.t) (DA : list (Z * Layout.t)) : list (Z * Z) := (block_ext <$> bl s) ++ ((λ x, (x.1, arena_len x.2)) <$> DA).

Record heap_ok (h : Heap.t) (DS : list (nat * Z * Layout.t)) (DA : list (Z * Layout.t)) (DP : list (nat * nat * Layout.t)) : Prop := {
  hp_map : map_ok (Heap.map h);
  hp_same : Bump.map (Heap.bump h) = Heap.map h;
  hp_slab : slab_ok (Heap.map h) (Heap.slab h) DS;
  hp_arena : arena (Heap.bump h) (arena_exts (Heap.slab h) DA);
  hp_direct : ∀ p l, (p, l) ∈ DA → Layout.wf l ∧ Layout.size l ≠ 0 ∧ p ≠ 0 ∧ (arena_align l | p);
  hp_pages : pages_ok (Heap.map h) (Heap.pages h) DP;
  hp_apart : ∀ b n, Heap.pages h = Some b → in_range (Buddy.run b) n → ¬ BumpInv.held (Heap.bump h) n }.

Definition entries (h : Heap.t) (DS : list (nat * Z * Layout.t)) (DA : list (Z * Layout.t)) (DP : list (nat * nat * Layout.t)) : list entry :=
  (obj_entry (Heap.slab h) <$> DS) ++ (direct_entry <$> DA) ++ match Heap.pages h with Some b => page_entry (Heap.map h) (Buddy.run b) <$> DP | None => [] end.

(** ** They are apart *)

Lemma obj_in_block m s DS x : slab_ok m s DS → x ∈ DS → ∃ b, bl s !! x.1.1 = Some b ∧ block_ok m b ∧ 0 ≤ x.1.2 < Slab.objects b ∧ Slab.class_for x.2 = Some (Slab.class b) ∧
  obj_entry s x = {| ptr := Slab.virt b + x.1.2 * Slab.class b; lay := x.2; room := Slab.class b |}.
Proof using.
  intros Hs Hx. destruct x as [[i k] l]. destruct (so_lay _ _ _ Hs i k l Hx) as (_ & Hk & b & Eb & Hc & Hko). exists b. unfold obj_entry. cbn [fst snd]. rewrite Eb. split_and!; try done.
  eapply Forall_lookup_1; [apply Hs|done].
Qed.

Lemma objs_spread m s DS DA : slab_ok m s DS → spread (arena_exts s DA) → spread (ext <$> (obj_entry s <$> DS)).
Proof using usize_32.
  intros Hs [Hsp _]%spread_app. rewrite <-list_fmap_compose. apply spread_of. intros i j x y Hi Hj Hne. cbn [compose].
  destruct (obj_in_block m s DS x Hs) as (b & Eb & Hb & Hk & _ & ->); [by eapply list_elem_of_lookup_2|]. destruct (obj_in_block m s DS y Hs) as (c & Ec & Hc & Hk' & _ & ->); [by eapply list_elem_of_lookup_2|].
  unfold ext, apart. cbn [ptr room fst snd]. destruct (block_size usize_32 m b Hb) as (_ & _ & H16 & _). destruct (block_size usize_32 m c Hc) as (_ & _ & H16' & _).
  destruct (decide (x.1.1 = y.1.1)) as [E|E].
  - rewrite E in Eb. rewrite Eb in Ec. injection Ec as <-. assert (x.1.2 ≠ y.1.2) as Hkk.
    { intros E2. apply Hne. apply (NoDup_lookup DS.*1 i j x.1); [apply Hs|by rewrite list_lookup_fmap, Hi|]. rewrite list_lookup_fmap, Hj. cbn. f_equal. by apply injective_projections. }
    destruct (decide (x.1.2 < y.1.2)); [left|right]; nia.
  - pose proof (spread_fmap_ne block_ext (bl s) _ _ b c Hsp Eb Ec E) as H. unfold apart, block_ext in H. cbn [fst snd] in H. nia.
Qed.

(** Everything of the size classes and the arena is inside a region. *)
Lemma arena_within h DS DA DP e : heap_ok h DS DA DP → e ∈ (obj_entry (Heap.slab h) <$> DS) ++ (direct_entry <$> DA) →
  0 < room e ∧ ∃ x, x ∈ arena_exts (Heap.slab h) DA ∧ x.1 ≤ ptr e ∧ ptr e + room e ≤ x.1 + x.2.
Proof using usize_32.
  intros Hh [(x & -> & Hx)%list_elem_of_fmap|([p l] & -> & Hx)%list_elem_of_fmap]%elem_of_app.
  - destruct (obj_in_block _ _ _ x (hp_slab _ _ _ _ Hh) Hx) as (b & Eb & Hb & Hk & _ & ->). destruct (block_size usize_32 _ b Hb) as (_ & _ & H16 & _). cbn [ptr room]. split; [lia|]. exists (block_ext b). split.
    + apply elem_of_app. left. apply list_elem_of_fmap. exists b. split; [done|by eapply list_elem_of_lookup_2].
    + unfold block_ext. cbn [fst snd]. nia.
  - assert ((p, arena_len l) ∈ arena_exts (Heap.slab h) DA) as Hin by (apply elem_of_app; right; apply list_elem_of_fmap; by exists (p, l)). destruct (ar_live _ _ (hp_arena _ _ _ _ Hh) _ Hin) as (H & _). split; [done|].
    exists (p, arena_len l). split; [done|]. cbn. lia.
Qed.

Lemma run_region_apart m r g : run_seen m r → region_ok m g → (∀ n, in_range r n → ¬ (Bump.phys g ≤ n * Frame.bytes < Bump.phys g + Bump.bytes g)) →
  apart (DirectMap.shift m (Frame.start (FrameRange.start r)), Z.of_nat (FrameRange.count r) * Frame.bytes) (extent g).
Proof using arch_ok usize_32.
  intros [Hr _ _] [G1 (q & Hq & Eq) (k & Ek) _ Ev _] Hn. destruct (range_start _ Hr) as [Es _]. destruct Hr as (_ & Hc & _). unfold extent. rewrite Ev, Eq, Ek, Es. pose proof Frame.bytes_pos. apply shift_apart, whole_apart; [|lia|nia].
  intros n Hin. specialize (Hn n Hin). rewrite Eq, Ek in Hn. lia.
Qed.

Lemma page_in_run m b A DP x : buddy_ok m b A DP → x ∈ DP →
  (2 ^ x.1.2 | x.1.1)%nat ∧ (x.1.1 + 2 ^ x.1.2 ≤ FrameRange.count (Buddy.run b))%nat ∧ A !! x.1.1 = Some x.1.2.
Proof using.
  intros Hb Hx. assert (A !! x.1.1 = Some x.1.2) as E by (apply (bo_blocks _ _ _ _ Hb), list_elem_of_fmap; exists x; split; [by destruct x as [[? ?] ?]|done]).
  destruct (BuddySpec.holds_blocks _ _ _ _ (bo_holds _ _ _ _ Hb) E) as (_ & H2 & H3 & _). destruct (bo_managed _ _ _ _ Hb) as (_ & _ & Ep). rewrite Ep in H3. done.
Qed.

Lemma pages_spread m b A DP : buddy_ok m b A DP → spread (ext <$> (page_entry m (Buddy.run b) <$> DP)).
Proof using arch_ok usize_32.
  intros Hb. rewrite <-list_fmap_compose. apply spread_of. intros i j x y Hi Hj Hne. cbn [compose]. pose proof (list_elem_of_lookup_2 _ _ _ Hi) as Hx. pose proof (list_elem_of_lookup_2 _ _ _ Hj) as Hy.
  destruct (page_in_run _ _ _ _ _ Hb Hx) as (_ & _ & Ex). destruct (page_in_run _ _ _ _ _ Hb Hy) as (_ & _ & Ey). destruct (BuddySpec.holds_blocks _ _ _ _ (bo_holds _ _ _ _ Hb) Ex) as (_ & _ & _ & Hd).
  assert (x.1.1 ≠ y.1.1) as Hpp.
  { intros E. apply Hne. apply (NoDup_lookup DP.*1.*1 i j x.1.1); [apply Hb|by rewrite !list_lookup_fmap, Hi|]. rewrite !list_lookup_fmap, Hj. cbn. by rewrite E. }
  unfold page_entry, ext, page_ptr. cbn [ptr room]. apply shift_apart. pose proof Frame.bytes_pos. pose proof (BuddyInv.pow_pos x.1.2). pose proof (BuddyInv.pow_pos y.1.2). unfold apart. cbn [fst snd].
  destruct (decide (x.1.1 + 2 ^ x.1.2 ≤ y.1.1)%nat); [left; nia|]. destruct (decide (y.1.1 + 2 ^ y.1.2 ≤ x.1.1)%nat); [right; nia|].
  exfalso. apply Hpp. symmetry. apply (Hd y.1.1 y.1.2 (x.1.1 `max` y.1.1)%nat Ey); lia.
Qed.

Lemma entries_spread h DS DA DP : heap_ok h DS DA DP → spread (ext <$> entries h DS DA DP).
Proof using arch_ok usize_32.
  intros Hh. pose proof Hh as [H1 H2 H3 H4 H5 H6 H7]. pose proof (ar_spread _ _ H4) as Hsp. unfold entries. rewrite (assoc_L (++)), fmap_app. apply spread_app. split_and!.
  - rewrite fmap_app. apply spread_app. split_and!; [by eapply objs_spread|by apply spread_app in Hsp as (_ & ? & _); rewrite <-list_fmap_compose|].
    intros x y (e1 & -> & (z & -> & Hz)%list_elem_of_fmap)%list_elem_of_fmap (e2 & -> & ([p l] & -> & Hp)%list_elem_of_fmap)%list_elem_of_fmap.
    destruct (obj_in_block _ _ _ z H3 Hz) as (b & Eb & Hb & Hk & _ & ->). destruct (block_size usize_32 _ b Hb) as (_ & _ & H16 & _). apply spread_app in Hsp as (_ & _ & Hap).
    specialize (Hap (block_ext b) (p, arena_len l)). unfold apart, block_ext, ext in *. cbn [ptr room direct_entry fst snd] in *. destruct Hap as [Hap|Hap]; [apply list_elem_of_fmap; exists b; split; [done|by eapply list_elem_of_lookup_2]|apply list_elem_of_fmap; by exists (p, l)|left; nia|right; nia].
  - destruct (Heap.pages h) as [b|]; [|done]. destruct H6 as [A Hb]. by eapply pages_spread.
  - intros x y (e & -> & He)%list_elem_of_fmap (e' & -> & He')%list_elem_of_fmap. destruct (Heap.pages h) as [b|] eqn:Ep; [|by apply elem_of_nil in He']. destruct H6 as [A Hb].
    apply list_elem_of_fmap in He' as (z & -> & Hz). destruct (page_in_run _ _ _ _ _ Hb Hz) as (_ & Hin & _). destruct (arena_within _ _ _ _ _ Hh He) as (Hr & w & Hw & Hwp).
    destruct (ar_live _ _ H4 w Hw) as (_ & _ & g & Hg & Hgw). assert (region_ok (Heap.map h) g) as Hrg by (rewrite <-H2; by apply H4).
    pose proof (run_region_apart _ _ g (bo_run _ _ _ _ Hb) Hrg) as Hap. pose proof Frame.bytes_pos. pose proof (BuddyInv.pow_pos z.1.2).
    assert (apart (DirectMap.shift (Heap.map h) (Frame.start (FrameRange.start (Buddy.run b))), Z.of_nat (FrameRange.count (Buddy.run b)) * Frame.bytes) (extent g)) as Hap'.
    { apply Hap. intros n Hn Hheld. apply (H7 b n eq_refl Hn). by exists g. }
    unfold apart, extent, within, ext, page_entry, page_ptr, DirectMap.shift in *. cbn [ptr room fst snd] in *. nia.
Qed.

(** ** They are aligned and in the window *)

Definition entry_ok (m : DirectMap.t) (e : entry) : Prop :=
  Layout.wf (lay e) ∧ ptr e ≠ 0 ∧ (Layout.align (lay e) | ptr e) ∧ 0 < Layout.size (lay e) ≤ room e ∧ DirectMap.virt_base m ≤ ptr e ∧ ptr e + room e ≤ DirectMap.virt_base m + DirectMap.len m.

Lemma align_class l c : Layout.wf l → Slab.class_for l = Some c → (Layout.align l | c) ∧ 0 < Layout.size l ≤ c.
Proof using.
  intros (H0 & Hp & _) Hc. destruct (class_for_Some l c Hc) as (Hin & Hnz & Hs & Ha). destruct (class_facts c Hin) as (Hpc & _). split; [by apply power_divide|lia].
Qed.

Lemma div_ceil_spec a b : 0 < b → 0 ≤ a → a ≤ Bump.div_ceil a b * b < a + b.
Proof using. intros Hb Ha. unfold Bump.div_ceil. pose proof (Z.div_mod (a + b - 1) b ltac:(lia)). pose proof (Z.mod_pos_bound (a + b - 1) b Hb). lia. Qed.

Lemma order_room l o : Layout.wf l → Layout.size l ≠ 0 → order_of l = Some o → Layout.size l ≤ Z.of_nat (2 ^ o) * Frame.bytes.
Proof using arch_ok usize_32.
  intros (H0 & _) Hnz. pose proof Frame.bytes_pos as HB. unfold order_of. change PAGE_SIZE with Frame.bytes. pose proof (div_ceil_spec (Layout.size l) Frame.bytes HB H0) as Hd. set (n := Bump.div_ceil (Layout.size l) Frame.bytes) in *.
  assert (0 < n) by nia. rewrite (BuddySpec.order_for_eq usize_32) by lia. destruct (Nat.leb_spec (Nat.log2_up (Z.to_nat n)) Buddy.MAX_ORDER); [|done]. intros [= <-].
  assert (Z.to_nat n ≤ 2 ^ Nat.log2_up (Z.to_nat n))%nat by (destruct (decide (Z.to_nat n = 1%nat)) as [->|]; [done|apply Nat.log2_up_spec; lia]). nia.
Qed.

Lemma region_window m r : region_ok m r → DirectMap.virt_base m ≤ Bump.virt r ∧ Bump.virt r + Bump.bytes r ≤ DirectMap.virt_base m + DirectMap.len m.
Proof using. intros [_ _ _ [H1 H2] E _]. rewrite E. unfold DirectMap.shift. lia. Qed.

Lemma entries_ok h DS DA DP e : heap_ok h DS DA DP → e ∈ entries h DS DA DP → entry_ok (Heap.map h) e.
Proof using arch_ok usize_32.
  intros Hh He. pose proof Hh as [[H1 H1'] H2 H3 H4 H5 H6 H7]. unfold entries in He. rewrite (assoc_L (++)) in He. apply elem_of_app in He as [He|He].
  - assert (DirectMap.virt_base (Heap.map h) ≤ ptr e ∧ ptr e + room e ≤ DirectMap.virt_base (Heap.map h) + DirectMap.len (Heap.map h)) as Hwin.
    { destruct (arena_within _ _ _ _ _ Hh He) as (Hr & w & Hw & Hwp). destruct (ar_live _ _ H4 w Hw) as (_ & _ & g & Hg & Hgw). pose proof (region_window _ _ (ar_regions _ _ H4 g Hg)) as Hrw. rewrite H2 in Hrw. unfold within in Hgw. lia. }
    apply elem_of_app in He as [(x & -> & Hx)%list_elem_of_fmap|([p l] & -> & Hx)%list_elem_of_fmap].
    + destruct (obj_in_block _ _ _ x H3 Hx) as (b & Eb & Hb & Hk & Hc & E). rewrite E in *. destruct x as [[i k] l]. cbn [fst snd] in *. destruct (so_lay _ _ _ H3 i k l Hx) as (Hl & _). destruct (align_class l _ Hl Hc) as [Hal Hsz]. destruct (block_size usize_32 _ b Hb) as (_ & _ & H16 & _).
      pose proof (bk_virt _ _ Hb). split_and!; cbn [ptr lay room] in *; try done; try lia; try nia. eapply Z.divide_trans; [exact Hal|]. apply Z.divide_add_r; [apply Hb|]. by exists k.
    + destruct (H5 p l Hx) as (Hl & Hnz & Hp & Hd). cbn [direct_entry ptr lay room fst snd] in *. unfold arena_len, arena_align in *. destruct (Slab.class_for l) as [c|] eqn:Ec.
      * destruct (align_class l c Hl Ec) as [Hal Hsz]. unfold entry_ok, direct_entry. cbn [ptr lay room fst snd]. unfold arena_len. rewrite Ec. split_and!; try done; try lia. by eapply Z.divide_trans.
      * pose proof Hl as (? & ? & ?). unfold entry_ok, direct_entry. cbn [ptr lay room fst snd]. unfold arena_len. rewrite Ec. split_and!; try done; lia.
  - destruct (Heap.pages h) as [b|] eqn:Ep; [|by apply elem_of_nil in He]. destruct H6 as [A Hb]. apply list_elem_of_fmap in He as (x & -> & Hx). destruct (page_in_run _ _ _ _ _ Hb Hx) as (_ & Hin & _). destruct x as [[p o] l].
    destruct (bo_lay _ _ _ _ Hb p o l Hx) as (Hl & Hnz & Hal & _ & Ho & Hp). pose proof (order_room l o Hl Hnz Ho) as Hsz. destruct (bo_run _ _ _ _ Hb) as [Hr _ Hcov]. destruct (range_start _ Hr) as [Es _]. pose proof Frame.bytes_pos.
    unfold page_entry. cbn [ptr lay room fst snd] in *. split_and!; cbn [ptr lay room] in *; try done.
    + eapply Z.divide_trans; [apply (power_divide _ Frame.bytes); [apply Hl|apply page_power_of_two|done]|]. unfold page_ptr, DirectMap.shift. rewrite Es.
      replace (_ + (_ - _)) with ((DirectMap.virt_base (Heap.map h) - DirectMap.phys_base (Heap.map h)) + ((Frame.number (FrameRange.start (Buddy.run b)) + Z.of_nat p) * Frame.bytes)) by lia. apply Z.divide_add_r; [done|by eexists].
    + destruct Hl. lia.
    + unfold page_ptr, DirectMap.shift. destruct Hcov. nia.
    + unfold page_ptr, DirectMap.shift. destruct Hcov. nia.
Qed.

(** ** The heap as its owner sees it *)

Definition heap_inv (h : Heap.t) (E : list entry) : Prop := ∃ DS DA DP, heap_ok h DS DA DP ∧ E ≡ₚ entries h DS DA DP.

Lemma heap_inv_ok h E : heap_inv h E → spread (ext <$> E) ∧ Forall (entry_ok (Heap.map h)) E.
Proof using arch_ok usize_32.
  intros (DS & DA & DP & Hh & HE). split; [rewrite HE; by apply entries_spread|]. apply Forall_forall. intros e He. rewrite HE in He. by eapply entries_ok.
Qed.

(** Counters and the injector are not part of it. *)
Record like (h h' : Heap.t) : Prop := {
  lk_map : Heap.map h' = Heap.map h;
  lk_bump : Heap.bump h' = Heap.bump h;
  lk_slab : Heap.slab h' = Heap.slab h;
  lk_pages : Heap.pages h' = Heap.pages h }.

Lemma heap_ok_like h h' DS DA DP : like h h' → heap_ok h DS DA DP → heap_ok h' DS DA DP ∧ entries h' DS DA DP = entries h DS DA DP.
Proof using.
  intros [E1 E2 E3 E4] [H1 H2 H3 H4 H5 H6 H7]. split; [|unfold entries; by rewrite E1, E3, E4]. split; rewrite ?E1, ?E2, ?E3, ?E4; done.
Qed.

Lemma heap_inv_like h h' E : like h h' → heap_inv h E → heap_inv h' E.
Proof using. intros Hl (DS & DA & DP & Hh & HE). destruct (heap_ok_like h h' DS DA DP Hl Hh) as [Hh' Ee]. exists DS, DA, DP. by rewrite Ee. Qed.

Lemma held_like h h' n : like h h' → held h' n ↔ held h n.
Proof using. intros [E1 E2 E3 E4]. unfold held. by rewrite E2, E4. Qed.

(** ** The size classes *)

Lemma bl_put s bs : length bs = length (bl s) → (Slab.count s ≤ length (Slab.blocks s))%nat → take (Slab.count s) (bs ++ drop (Slab.count s) (Slab.blocks s)) = bs.
Proof using. intros E Hc. rewrite take_app_length'; [done|]. rewrite E. unfold bl. rewrite length_take. lia. Qed.

(** One block's bits changed. *)
Lemma obj_entry_used s s' i b u x : bl s' = <[i := Slab.set_used u b]> (bl s) → bl s !! i = Some b → obj_entry s' x = obj_entry s x.
Proof using.
  intros E Hb. unfold obj_entry. rewrite E. destruct (decide (i = x.1.1)) as [->|Hne]; [|by rewrite list_lookup_insert_ne].
  rewrite list_lookup_insert_eq by (by eapply lookup_lt_Some). rewrite Hb. done.
Qed.

Lemma ext_used s s' i b u : bl s' = <[i := Slab.set_used u b]> (bl s) → bl s !! i = Some b → block_ext <$> bl s' = block_ext <$> bl s.
Proof using. intros E Hb. rewrite E, list_fmap_insert. apply list_insert_id. rewrite list_lookup_fmap, Hb. done. Qed.

Lemma slab_take_ok m s DS i b k l s' :
  slab_ok m s DS → bl s !! i = Some b → 0 ≤ k < Slab.objects b → Z.testbit (Slab.used b) k = false → Slab.class_for l = Some (Slab.class b) → Layout.wf l →
  bl s' = <[i := Slab.set_used (Z.lor (Slab.used b) (2 ^ k)) b]> (bl s) → length (Slab.blocks s') = Slab.MAX_BLOCKS → Slab.count s' = Slab.count s →
  slab_ok m s' ((i, k, l) :: DS).
Proof using usize_32.
  intros [S1 S2 S3 S4 S5 S6] Hb Hk Hu Hc Hl E E1 E2. assert (block_ok m b) as Hok by (by eapply Forall_lookup_1). destruct (set_bit_ok usize_32 m b k Hok Hk) as [Hok' Hbit].
  assert (i < length (bl s))%nat as Hi by (by eapply lookup_lt_Some). split; try done.
  - by rewrite E2.
  - rewrite E. by apply Forall_insert.
  - cbn [fmap list_fmap fst]. constructor; [|done]. rewrite <-(S5 i b k Hb) by lia. by rewrite Hu.
  - intros j c q Hj Hq. cbn [fmap list_fmap fst]. rewrite elem_of_cons. rewrite E in Hj. destruct (decide (j = i)) as [->|Hne].
    + rewrite list_lookup_insert_eq in Hj by done. injection Hj as <-. cbn [Slab.set_used Slab.used]. rewrite Hbit by done. rewrite orb_true_iff, bool_decide_eq_true, (S5 i b q Hb Hq). naive_solver.
    + rewrite list_lookup_insert_ne in Hj by done. rewrite (S5 j c q Hj Hq). naive_solver.
  - assert (∀ j c, bl s !! j = Some c → ∃ c', bl s' !! j = Some c' ∧ Slab.class c' = Slab.class c ∧ Slab.objects c' = Slab.objects c) as Hcl.
    { intros j c Hj. rewrite E. destruct (decide (j = i)) as [->|]; [rewrite list_lookup_insert_eq by done; rewrite Hb in Hj; injection Hj as <-; by eexists|rewrite list_lookup_insert_ne by done; by eexists]. }
    intros j q l' [[= -> -> ->]|Hin]%elem_of_cons.
    + destruct (Hcl i b Hb) as (c' & H1 & H2 & H3). split_and!; [done|lia|]. exists c'. rewrite H2, H3. split_and!; (done || lia).
    + destruct (S6 j q l' Hin) as (H1 & H2 & c & H3 & H4 & H5). destruct (Hcl j c H3) as (c' & H6 & H7 & H8). split_and!; try done. exists c'. rewrite H7, H8. done.
Qed.

(** What an allocation leaves: the new entry, or nothing changed. *)
Definition served (m : Poison.mem) (E : list entry) (l : Layout.t) (ctx : AllocContext.t) (m' : Poison.mem) (h' : Heap.t) (res : result Z AllocError) : Prop :=
  match res with
  | Ok p => ∃ n, heap_inv h' ({| ptr := p; lay := l; room := n |} :: E) ∧ Poison.kept m m' p n ∧ (AllocContext.wants_zero ctx = true → ∀ a, p ≤ a < p + Layout.size l → m' a = 0)
  | Err _ => heap_inv h' E ∧ m' = m
  end.

Lemma served_like m E l ctx m' h h' res : like h h' → served m E l ctx m' h res → served m E l ctx m' h' res.
Proof using. intros Hl. unfold served. destruct res; [intros (n & H1 & H2); exists n; split; [by eapply heap_inv_like|done]|intros [H1 H2]; split; [by eapply heap_inv_like|done]]. Qed.

Lemma take_slab_ok m h DS DA DP l c ctx :
  heap_ok h DS DA DP → Layout.wf l → Slab.class_for l = Some c →
  match Heap.take_slab m h c ctx with
  | (m', h', res) => Heap.map h' = Heap.map h ∧ Heap.bump h' = Heap.bump h ∧ Heap.pages h' = Heap.pages h ∧ Heap.inject h' = Heap.inject h ∧ served m (entries h DS DA DP) l ctx m' h' res ∧
      ∀ e, res = Err e → e = Exhausted ∧ like h h' ∧ ∀ b, b ∈ bl (Heap.slab h) → Slab.class b = c → Slab.used b ≠ 0
  end.
Proof using usize_32.
  intros Hh Hl Hc. pose proof Hh as [[H1 H1'] H2 H3 H4 H5 H6 H7]. destruct (class_for_Some l c Hc) as (Hcs & Hnz & _). unfold Heap.take_slab, Slab.try_take.
  pose proof (take_first_ok usize_32 (Heap.map h) c (bl (Heap.slab h)) H1 (so_blocks _ _ _ H3) Hcs) as Ht. unfold bl in Ht at 1. destruct (Slab.take_first _ c (Heap.map h)) as [[[bs p]|]|e]; [| |done].
  - destruct Ht as (i & b & k & Hb & Ecls & Hk & Hu & -> & ->). set (bs := <[i := _]> (bl (Heap.slab h))).
    set (s' := Slab.Build_t _ _ _ _ _). set (h' := Heap.set_slab s' h). split_and!; try done.
    assert (bl s' = bs) as Ebl. { unfold s', bl. cbn [Slab.count Slab.blocks]. apply bl_put; [unfold bs; by rewrite length_insert|]. rewrite (so_len _ _ _ H3). apply H3. }
    assert (length (Slab.blocks s') = Slab.MAX_BLOCKS) as El.
    { unfold s'. cbn [Slab.blocks]. rewrite length_app. unfold bs. rewrite length_insert. unfold bl. rewrite length_take, length_drop, (so_len _ _ _ H3). pose proof (so_count _ _ _ H3). lia. }
    assert (block_ok (Heap.map h) b) as Hok by (by eapply Forall_lookup_1; [apply H3|]).
    exists c. split_and!.
    + exists ((i, k, l) :: DS), DA, DP. split.
      * split; try done. { eapply slab_take_ok; [exact H3|exact Hb|done|done|by rewrite Ecls|done|exact Ebl|done|done]. }
        unfold arena_exts, h'. cbn [Heap.set_slab Heap.slab Heap.bump]. by rewrite (ext_used (Heap.slab h) s' i b _ Ebl Hb).
      * unfold entries, h'. cbn [Heap.set_slab Heap.slab Heap.map Heap.pages fmap list_fmap app]. assert (obj_entry s' (i, k, l) = {| ptr := Slab.virt b + k * c; lay := l; room := c |}) as ->.
        { unfold obj_entry. rewrite Ebl. unfold bs. cbn [fst snd]. rewrite list_lookup_insert_eq by (by eapply lookup_lt_Some). cbn. by rewrite Ecls. }
        by rewrite (list_fmap_ext (obj_entry s') (obj_entry (Heap.slab h)) DS) by (intros; by rewrite (obj_entry_used (Heap.slab h) s' i b _ _ Ebl Hb)).
    + case_match; [apply Poison.kept_zero|done].
    + intros ->. intros a Ha. apply Poison.zero_fills. destruct (align_class l c Hl Hc). lia.
  - split_and!; try done. { split; [|done]. exists DS, DA, DP. by destruct (heap_ok_like h (Heap.set_slab (Heap.slab h) h) DS DA DP ltac:(by split) Hh) as [? ->]. }
    intros e [= <-]. split; [done|]. split; [by split|]. intros b Hb Ecls Hz. assert (block_ok (Heap.map h) b) as Hok by (eapply Forall_forall; [apply H3|done]).
    destruct (block_size usize_32 _ b Hok) as (_ & Ho & _). specialize (Ht b 0 Hb Ecls ltac:(lia)). by rewrite Hz, Z.testbit_0_l in Ht.
Qed.

(** ** The arena under the heap *)

Section Source.
Context {S : Type} {source : FrameSource S} {source_laws : FrameSourceOk S}.
Context (injecting : bool).

(** The source offers no frame the heap holds. *)
Definition fresh (h : Heap.t) (s : S) : Prop := source_ok s ∧ ∀ n, offers s n → ¬ held h n.

(** The arena changed, and any frames it gained the source no longer offers. *)
Record arena_step (h : Heap.t) (s : S) (h' : Heap.t) (s' : S) : Prop := {
  as_map : Heap.map h' = Heap.map h;
  as_bmap : Bump.map (Heap.bump h') = Bump.map (Heap.bump h);
  as_slab : Heap.slab h' = Heap.slab h;
  as_pages : Heap.pages h' = Heap.pages h;
  as_source : source_ok s';
  as_offers : ∀ n, offers s' n → offers s n;
  as_held : ∀ n, BumpInv.held (Heap.bump h') n → BumpInv.held (Heap.bump h) n ∨ offers s n ∧ ¬ offers s' n }.

Lemma arena_step_like h h' s : like h h' → source_ok s → arena_step h s h' s.
Proof using. intros [E1 E2 E3 E4] Hs. split; rewrite ?E2; try done. auto. Qed.

Lemma arena_step_trans h s h1 s1 h2 s2 : arena_step h s h1 s1 → arena_step h1 s1 h2 s2 → arena_step h s h2 s2.
Proof using.
  intros [A1 A2 A3 A4 A5 A6 A7] [B1 B2 B3 B4 B5 B6 B7]. split; [congruence|congruence|congruence|congruence|done|auto|]. intros n [Hn|[? ?]]%B7; [destruct (A7 n Hn) as [?|[? ?]]; [by left|right; auto]|right; auto].
Qed.

Lemma fresh_step h s h' s' : fresh h s → arena_step h s h' s' → fresh h' s'.
Proof using.
  intros [F1 F2] [A1 A2 A3 A4 A5 A6 A7]. split; [done|]. intros n Hn [Hh|(b & Eb & Hb)]; [destruct (A7 n Hh) as [?|[_ ?]]; [|done]|].
  - apply (F2 n); [auto|by left].
  - apply (F2 n); [auto|]. right. exists b. by rewrite <-A4.
Qed.

(** Frames only come from the source, which no longer offers them. *)
Record passes (a : Bump.t) (p : option Buddy.t) (s : S) (h' : Heap.t) (s' : S) : Prop := {
  pa_source : source_ok s';
  pa_offers : ∀ n, offers s' n → offers s n;
  pa_held : ∀ n, held h' n → held_by a p n ∨ offers s n ∧ ¬ offers s' n }.

Lemma passes_step h s h' s' : arena_step h s h' s' → passes (Heap.bump h) (Heap.pages h) s h' s'.
Proof using.
  intros [A1 A2 A3 A4 A5 A6 A7]. split; try done. intros n [Hn|Hn]; [destruct (A7 n Hn) as [?|?]; [left; by left|by right]|]. left. right. by rewrite <-A4.
Qed.

Lemma passes_same h h' s : source_ok s → (∀ n, held h' n → held h n) → passes (Heap.bump h) (Heap.pages h) s h' s.
Proof using. intros Hs Hh. split; [done|done|]. intros n Hn. left. by apply Hh. Qed.

Lemma fresh_passes h s h' s' : fresh h s → passes (Heap.bump h) (Heap.pages h) s h' s' → fresh h' s'.
Proof using. intros [F1 F2] [P1 P2 P3]. split; [done|]. intros n Hn Hh. destruct (P3 n Hh) as [?|[_ ?]]; [|done]. by apply (F2 n); [apply P2|]. Qed.

Lemma heap_ok_step h s h' s' DS DA DA' DP :
  heap_ok h DS DA DP → fresh h s → arena_step h s h' s' → arena (Heap.bump h') (arena_exts (Heap.slab h) DA') →
  (∀ p l, (p, l) ∈ DA' → Layout.wf l ∧ Layout.size l ≠ 0 ∧ p ≠ 0 ∧ (arena_align l | p)) → heap_ok h' DS DA' DP.
Proof using.
  intros [H1 H2 H3 H4 H5 H6 H7] [_ F2] [A1 A2 A3 A4 A5 A6 A7] Ha Hd. split; rewrite ?A1, ?A2, ?A3, ?A4; try done.
  intros b n Eb Hn Hh. destruct (A7 n Hh) as [?|[Ho _]]; [by apply (H7 b n)|]. apply (F2 n Ho). right. by exists b.
Qed.

Lemma arena_alloc_ok m h L l ctx s :
  arena (Heap.bump h) L → Layout.wf l → fresh h s →
  let '(m', h', s', res) := Heap.arena_alloc injecting m h l ctx s in
  arena_step h s h' s' ∧
  match res with
  | Ok p => arena (Heap.bump h') ((p, Layout.size l) :: L) ∧ p ≠ 0 ∧ (Layout.align l | p) ∧ Poison.kept m m' p (Layout.size l) ∧
      (AllocContext.wants_zero ctx = true → ∀ a, p ≤ a < p + Layout.size l → m' a = 0) ∧ (AllocContext.wants_zero ctx = false → m' = m)
  | Err _ => arena (Heap.bump h') L ∧ m' = m
  end.
Proof using arch_ok usize_32.
  intros Ha Hl [F1 F2]. unfold Heap.arena_alloc. set (s0 := Build_Injected _ _ _).
  pose proof (@try_alloc_in_ok arch arch_ok usize_32 (Injected S) (Injected_source injecting) (Injected_ok injecting) m (Heap.bump h) L l ctx s0 Ha Hl) as H. unfold Heap.injected_frames.
  change (take_injected injecting) with (Injected_source (S := S) injecting). destruct (Bump.try_alloc_in m (Heap.bump h) l ctx s0) as [[[m' b'] s'] res]. destruct H as [P Hres]; [done|intros n Hn Hh; apply (F2 n Hn); by left|].
  split; [|done]. destruct P as [P1 P2 P3 P4]. by split.
Qed.

Lemma grow_heap_ok h DS DA DP s min_bytes :
  heap_ok h DS DA DP → fresh h s → let '(h', s', _) := Heap.grow injecting h s min_bytes in arena_step h s h' s' ∧ heap_ok h' DS DA DP.
Proof using arch_ok usize_32.
  intros Hh F. pose proof F as [F1 F2]. unfold Heap.grow. set (s0 := Build_Injected _ _ _).
  pose proof (@grow_ok arch arch_ok usize_32 (Injected S) (Injected_source injecting) (Injected_ok injecting) (Heap.bump h) _ s0 min_bytes (hp_arena _ _ _ _ Hh)) as H. unfold Heap.injected_frames.
  change (take_injected injecting) with (Injected_source (S := S) injecting). destruct (Bump.grow (Heap.bump h) s0 min_bytes) as [[b' s'] res]. destruct H as [Ha P]; [done|intros n Hn Hheld; apply (F2 n Hn); by left|].
  assert (arena_step h s (Heap.set_inject (inject s') (Heap.injected_before h) (Heap.set_bump b' h)) (src s')) as Hst by (destruct P; by split).
  split; [done|]. eapply heap_ok_step; [done|done|done|done|apply Hh].
Qed.

(** A block of the arena served as it is. *)
Lemma direct_ok m h DS DA DP l dl ctx s :
  heap_ok h DS DA DP → fresh h s → Layout.wf l → Layout.size l ≠ 0 → Layout.wf dl → Layout.size dl = arena_len l → Layout.align dl = arena_align l → Layout.size l ≤ arena_len l →
  let '(m', h', s', res) := Heap.arena_alloc injecting m h dl ctx s in
  arena_step h s h' s' ∧ served m (entries h DS DA DP) l ctx m' h' res.
Proof using arch_ok usize_32.
  intros Hh F Hl Hnz Hdl Es Ea Hle. pose proof (arena_alloc_ok m h _ dl ctx s (hp_arena _ _ _ _ Hh) Hdl F) as H. destruct (Heap.arena_alloc injecting m h dl ctx s) as [[[m' h'] s'] res]. destruct H as [Hst Hres]. split; [done|].
  pose proof Hst as [A1 A2 A3 A4 _ _ _]. unfold served. destruct res as [p|e].
  - destruct Hres as (Ha & Hp & Hd & Hk & Hz & _). exists (arena_len l). rewrite Es in *. split_and!; [|done|intros Hw a Hin; apply (Hz Hw); lia].
    exists DS, ((p, l) :: DA), DP. split.
    + eapply heap_ok_step; [exact Hh|exact F|exact Hst| |].
      * eapply arena_perm; [|exact Ha]. unfold arena_exts. cbn [fmap list_fmap]. apply Permutation_middle.
      * intros q l' [[= -> ->]|Hin]%elem_of_cons; [rewrite <-Ea; done|by apply Hh].
    + unfold entries. rewrite A1, A3, A4. cbn [fmap list_fmap app]. apply Permutation_middle.
  - destruct Hres as [Ha Hm]. split; [|done]. exists DS, DA, DP. split; [eapply heap_ok_step; [done|done|done|done|apply Hh]|]. unfold entries. by rewrite A1, A3, A4.
Qed.

Lemma usat_S n : Z.of_nat n < 4294967295 → FrameAllocator.usat_add n 1 = Datatypes.S n.
Proof using usize_32. intros Hn. pose proof (u_max_32 usize_32) as Hu. unfold FrameAllocator.usat_add. destruct (Z.leb_spec (Z.of_nat n + Z.of_nat 1) (u_max USIZE_BITS)); lia. Qed.

(** A block of the arena given to a size class. *)
Lemma add_block_ok h h1 s s1 DS DA DP c p :
  heap_ok h DS DA DP → fresh h s → arena_step h s h1 s1 → Slab.has_room (Heap.slab h) = true → c ∈ Slab.CLASS_SIZES →
  arena (Heap.bump h1) ((p, c * Slab.objects_per_block c) :: arena_exts (Heap.slab h) DA) → p ≠ 0 → (c | p) →
  ∃ sl, Slab.add_block (Heap.slab h1) c p (Heap.map h1) = (sl, Ok tt) ∧ heap_ok (Heap.set_slab sl h1) DS DA DP ∧ entries (Heap.set_slab sl h1) DS DA DP = entries h DS DA DP ∧
    ∃ b, b ∈ bl sl ∧ Slab.class b = c ∧ Slab.used b = 0.
Proof using arch_ok usize_32.
  intros Hh F Hst Hroom Hc Ha Hp Hd. pose proof Hst as [A1 A2 A3 A4 _ _ _]. pose proof Hh as [[H1 H1'] H2 H3 _ H5 H6 H7]. rewrite A3, A1. apply Nat.ltb_lt in Hroom.
  destruct (class_facts c Hc) as (_ & Hc1 & Ho & Hsz). set (objs := Slab.objects_per_block c) in *. pose proof (u_max_32 usize_32) as Hu.
  destruct (ar_live _ _ Ha _ ltac:(left)) as (_ & _ & g & Hg & Hgw). pose proof (region_window _ _ (ar_regions _ _ Ha g Hg)) as Hwin. rewrite A2, H2 in Hwin. unfold within in Hgw. cbn [fst snd] in Hgw.
  pose proof H1 as (_ & _ & V0 & _ & V1). set (m := Heap.map h) in *. set (ph := DirectMap.phys_base m + (p - DirectMap.virt_base m)).
  assert (∀ x, DirectMap.virt_base m ≤ x < DirectMap.virt_base m + DirectMap.len m → DirectMap.to_phys m x = Ok (DirectMap.phys_base m + (x - DirectMap.virt_base m))) as Hph.
  { intros x Hx. apply DirectMap.to_phys_Ok; [done|]. unfold DirectMap.shift. lia. }
  set (blk := {| Slab.virt := p; Slab.phys := ph; Slab.class := c; Slab.objects := objs; Slab.used := 0 |}).
  assert (Slab.add_block (Heap.slab h) c p m = ({| Slab.blocks := <[Slab.count (Heap.slab h) := blk]> (Slab.blocks (Heap.slab h)); Slab.count := Datatypes.S (Slab.count (Heap.slab h));
    Slab.allocations := Slab.allocations (Heap.slab h); Slab.frees := Slab.frees (Heap.slab h); Slab.double_frees := Slab.double_frees (Heap.slab h) |}, Ok tt)) as ->.
  { unfold Slab.add_block, Slab.has_room. rewrite (proj2 (Nat.ltb_lt _ _) Hroom). cbn [negb]. fold objs. rewrite !(proj2 (Z.eqb_neq _ _)) by lia. cbn [orb]. unfold checked_mul. rewrite (proj2 (Z.leb_le _ _)) by lia. cbn [ok_or].
    rewrite Hph by nia. unfold KernAddr.checked_add, checked_add, saturating_sub. rewrite Z.max_l by nia. rewrite (proj2 (Z.leb_le _ _)) by lia. cbn [ok_or]. rewrite Hph by nia. rewrite (so_len _ _ _ H3), (proj2 (Nat.leb_gt _ _)) by done.
    rewrite usat_S by (unfold Slab.MAX_BLOCKS in Hroom; lia). done. }
  set (sl := Slab.Build_t _ _ _ _ _). exists sl. split; [done|].
  assert (bl sl = bl (Heap.slab h) ++ [blk]) as Ebl.
  { unfold bl, sl. cbn [Slab.count Slab.blocks]. rewrite (take_S_r _ _ blk) by (apply list_lookup_insert_eq; rewrite (so_len _ _ _ H3); done). f_equal. by rewrite take_insert_ge by lia. }
  assert (∀ x, x ∈ DS → obj_entry sl x = obj_entry (Heap.slab h) x) as Hobj.
  { intros x Hx. destruct (obj_in_block _ _ _ x H3 Hx) as (b & Eb & _). unfold obj_entry. rewrite Ebl, Eb. by rewrite (lookup_app_l_Some _ _ _ _ Eb). }
  assert (block_ok m blk) as Hblk.
  { split; cbn [blk Slab.virt Slab.phys Slab.class Slab.objects Slab.used]; try done; [lia|lia|unfold DirectMap.shift, ph; lia|]. intros k _. apply Z.testbit_0_l. }
  split; [|split; [|exists blk; split; [rewrite Ebl; apply elem_of_app; right; by apply list_elem_of_singleton|done]]].
  - pose proof (heap_ok_step h s h1 s1 DS DA DA DP Hh F Hst) as Hstep. split; cbn [Heap.set_slab Heap.map Heap.bump Heap.slab Heap.pages]; rewrite ?A1, ?A4; try done.
    + congruence.
    + destruct H3 as [S1 S2 S3 S4 S5 S6]. split; try done.
      * unfold sl. cbn [Slab.blocks]. by rewrite length_insert.
      * rewrite Ebl. apply Forall_app. split; [done|]. by apply Forall_singleton.
      * intros i b k Hi Hk. rewrite Ebl in Hi. apply lookup_app_Some in Hi as [Hi|[Hi [E <-]%list_lookup_singleton_Some]]; [by apply S5|]. cbn [blk Slab.used]. rewrite Z.testbit_0_l. split; [done|].
        intros ([[i' k'] l'] & [= <- <-] & Hin)%list_elem_of_fmap. destruct (S6 _ _ _ Hin) as (_ & _ & b & Hb & _). apply lookup_lt_Some in Hb. lia.
      * intros i k l Hin. destruct (S6 i k l Hin) as (L1 & L2 & b & Hb & L3). split_and!; try done. exists b. rewrite Ebl. split; [by apply lookup_app_l_Some|done].
    + eapply arena_perm; [|exact Ha]. unfold arena_exts. rewrite Ebl, fmap_app. cbn [fmap list_fmap]. change (block_ext blk) with (p, c * objs). rewrite <-(assoc_L (++)). cbn [app]. apply Permutation_middle.
    + intros b n Eb Hn Hheld. destruct (as_held _ _ _ _ Hst n Hheld) as [?|[Ho' _]]; [by apply (H7 b n)|]. destruct F as [_ F2]. apply (F2 n Ho'). right. by exists b.
  - unfold entries. cbn [Heap.set_slab Heap.map Heap.slab Heap.pages]. rewrite A1, A4. f_equal. by apply Forall_fmap_ext_1, Forall_forall.
Qed.

Lemma fresh_same h h' s : Heap.bump h' = Heap.bump h → Heap.pages h' = Heap.pages h → fresh h s → fresh h' s.
Proof using. intros E1 E2 [F1 F2]. split; [done|]. intros n Hn. unfold held. rewrite E1, E2. by apply F2. Qed.

Lemma trip_like h site : like h (Heap.trip injecting h site).1.
Proof using. unfold Heap.trip. destruct (Injector.trip _ _ _). by split. Qed.

Lemma alloc_direct_ok m h DS DA DP l c ctx s :
  heap_ok h DS DA DP → fresh h s → Layout.wf l → Slab.class_for l = Some c →
  let '(m', h', s', res) := Heap.alloc_direct injecting m h c ctx s in
  arena_step h s h' s' ∧ served m (entries h DS DA DP) l ctx m' h' res.
Proof using arch_ok usize_32.
  intros Hh F Hl Hc. destruct (class_for_Some l c Hc) as (Hcs & Hnz & Hle & _). destruct (direct_layout usize_32 c Hcs) as [E Hw]. unfold Heap.alloc_direct. rewrite E.
  apply direct_ok; try done; unfold arena_len, arena_align; by rewrite Hc.
Qed.

Lemma alloc_small_ok m h DS DA DP l c ctx s :
  heap_ok h DS DA DP → fresh h s → Layout.wf l → Slab.class_for l = Some c →
  let '(m', h', s', res) := Heap.alloc_small injecting m h c ctx s in
  Heap.map h' = Heap.map h ∧ passes (Heap.bump h) (Heap.pages h) s h' s' ∧ served m (entries h DS DA DP) l ctx m' h' res.
Proof using arch_ok usize_32.
  intros Hh F Hl Hc. destruct (class_for_Some l c Hc) as (Hcs & Hnz & Hle & _). unfold Heap.alloc_small. pose proof (take_slab_ok m h DS DA DP l c ctx Hh Hl Hc) as Ht. destruct (Heap.take_slab m h c ctx) as [[m1 h1] res1].
  destruct Ht as (T1 & T2 & T3 & _ & Hsv & Herr). destruct res1 as [p|e]; [split_and!; [done|apply passes_same; [apply F|unfold held; by rewrite T2, T3]|done]|]. destruct (Herr e eq_refl) as (-> & Hlike & _). destruct Hsv as [_ ->].
  destruct (heap_ok_like h h1 DS DA DP Hlike Hh) as [Hh1 Ee1]. assert (fresh h1 s) as F1 by (by eapply fresh_same). rewrite <-Ee1, <-(lk_map _ _ Hlike), <-(lk_bump _ _ Hlike), <-(lk_pages _ _ Hlike). clear h Hh F T1 T2 T3 Hlike Herr Ee1. rename h1 into h, Hh1 into Hh, F1 into F.
  assert (∀ h0 h' s', arena_step h0 s h' s' → like h h0 → Heap.map h' = Heap.map h ∧ passes (Heap.bump h) (Heap.pages h) s h' s') as Hdone.
  { intros h0 h' s' Hst Hlk. assert (arena_step h s h' s') as Hst' by (eapply arena_step_trans; [apply arena_step_like; [exact Hlk|apply F]|done]). split; [apply Hst'|by apply passes_step]. }
  destruct (Slab.has_room (Heap.slab h)) eqn:Hroom.
  2:{ assert (like h (Heap.count_slab_overflow h)) as Hlk by (by split). destruct (heap_ok_like _ _ _ _ _ Hlk Hh) as [Hh1 Ee]. pose proof (alloc_direct_ok m (Heap.count_slab_overflow h) DS DA DP l c ctx s Hh1 ltac:(by eapply fresh_same) Hl Hc) as Hd.
      destruct (Heap.alloc_direct _ _ _ _ _ _) as [[[m' h'] s'] res]. destruct Hd as [Hst Hsv]. destruct (Hdone _ _ _ Hst Hlk). rewrite Ee in Hsv. done. }
  destruct (block_layout_Ok usize_32 c Hcs) as (bly & -> & Hbw & Ebl). pose proof (trip_like h Site.SLAB_BLOCK) as Hlk. destruct (Heap.trip injecting h Site.SLAB_BLOCK) as [h1 fail]. cbn [fst] in Hlk. destruct (heap_ok_like _ _ _ _ _ Hlk Hh) as [Hh1 Ee].
  assert (fresh h1 s) as F1 by (eapply fresh_same; [apply Hlk|apply Hlk|done]). assert (∀ h2 s2, arena_step h1 s h2 s2 → heap_ok h2 DS DA DP → entries h2 DS DA DP = entries h DS DA DP →
    let '(m', h', s', res) := Heap.alloc_direct injecting m h2 c ctx s2 in Heap.map h' = Heap.map h ∧ passes (Heap.bump h) (Heap.pages h) s h' s' ∧ served m (entries h DS DA DP) l ctx m' h' res) as Hdirect.
  { intros h2 s2 Hst Hh2 Ee2. assert (fresh h2 s2) as F2 by (by eapply fresh_step). pose proof (alloc_direct_ok m h2 DS DA DP l c ctx s2 Hh2 F2 Hl Hc) as Hd. destruct (Heap.alloc_direct _ _ _ _ _ _) as [[[m' h'] s'] res]. destruct Hd as [Hst2 Hsv].
    destruct (Hdone _ _ _ (arena_step_trans _ _ _ _ _ _ Hst Hst2) Hlk). rewrite Ee2 in Hsv. done. }
  destruct fail; [apply Hdirect; [by apply arena_step_like; [by split|apply F]|done|done]|].
  pose proof (arena_alloc_ok m h1 _ bly AllocContext.ATOMIC s (hp_arena _ _ _ _ Hh1) Hbw F1) as Har. destruct (Heap.arena_alloc injecting m h1 bly AllocContext.ATOMIC s) as [[[m2 h2] s2] [p|e]]; destruct Har as [Hst Hres].
  - destruct Hres as (Ha & Hp & Hd & _ & _ & Em). rewrite (Em eq_refl) in *. clear Em. rewrite Ebl in Ha, Hd. cbn [Layout.size Layout.align] in Ha, Hd.
    destruct (add_block_ok h1 h2 s s2 DS DA DP c p Hh1 F1 Hst) as (sl & -> & Hh3 & Ee3 & _); [by rewrite (lk_slab _ _ Hlk)|done|done|done|done|].
    pose proof (take_slab_ok m (Heap.set_slab sl h2) DS DA DP l c ctx Hh3 Hl Hc) as Ht. destruct (Heap.take_slab m (Heap.set_slab sl h2) c ctx) as [[m3 h3] res]. destruct Ht as (T1 & T2 & T3 & _ & Hsv & _).
    destruct (Hdone _ _ _ Hst Hlk) as [Em2 [P1 P2 P3]]. split_and!; [by rewrite T1|split; [done|done|intros n; unfold held; rewrite T2, T3; apply P3]|]. by rewrite <-Ee, <-Ee3.
  - destruct Hres as [Ha ->]. apply Hdirect; [done|eapply heap_ok_step; [exact Hh1|exact F1|exact Hst|exact Ha|apply Hh1]|]. rewrite <-Ee. unfold entries. by rewrite (as_map _ _ _ _ Hst), (as_slab _ _ _ _ Hst), (as_pages _ _ _ _ Hst).
Qed.

(** ** The attached pages *)

Lemma free_named checked b r A p o rg :
  BuddySpec.managed b r → BuddySpec.holds b A → A !! p = Some o → BuddySpec.names r rg p o →
  ∃ b', Buddy.free checked b rg = Some (b', Ok tt) ∧ BuddySpec.managed b' r ∧ BuddySpec.holds b' (delete p A).
Proof using usize_32.
  intros Hm Hh HA Hn. destruct (BuddySpec.free_ok usize_32 checked b r A rg Hm Hh) as (b' & A' & res & E & Hm' & Hh' & Hs). exists b'.
  destruct (BuddySpec.holds_blocks _ _ _ _ Hh HA) as (_ & _ & Hin & _). pose proof Hm as (_ & _ & Ep). rewrite Ep in Hin. pose proof (BuddyInv.pow_pos o) as Hpos. pose proof Hn as [N1 N2].
  assert (BuddySpec.inside r rg) as Hins by (unfold BuddySpec.inside; cbv zeta; rewrite N1, N2; unfold widen; lia).
  destruct Hs as [p' o' HA' Hn'|Hno|p' _ Hp Hnt|_ Hno].
  - destruct Hn' as [N1' _]. assert (p' = p) as -> by (unfold widen in *; lia). done.
  - done.
  - assert (p' = p) as -> by (unfold widen in *; lia). destruct Hnt. exists p, o. split; [done|lia].
  - by destruct (Hno p o HA).
Qed.

Lemma set_pages_ok h DS DA DP b b' A' DP' :
  heap_ok h DS DA DP → Heap.pages h = Some b → buddy_ok (Heap.map h) b' A' DP' → Buddy.run b' = Buddy.run b →
  heap_ok (Heap.set_pages (Some b') h) DS DA DP' ∧ entries (Heap.set_pages (Some b') h) DS DA DP' =
    (obj_entry (Heap.slab h) <$> DS) ++ (direct_entry <$> DA) ++ (page_entry (Heap.map h) (Buddy.run b) <$> DP').
Proof using.
  intros [H1 H2 H3 H4 H5 H6 H7] Ep Hb Er. split; [|unfold entries; cbn [Heap.set_pages Heap.pages Heap.slab Heap.map]; by rewrite Er].
  split; try done; [by exists A'|]. intros c n [= <-]. rewrite Er. by apply H7.
Qed.

Lemma held_pages h b b' n : Heap.pages h = Some b → Buddy.run b' = Buddy.run b → held (Heap.set_pages (Some b') h) n → held h n.
Proof using. intros Ep Er [Hh|(c & [= <-] & Hc)]; [by left|]. right. exists b. by rewrite <-Er. Qed.

Lemma fresh_pages h b b' s : Heap.pages h = Some b → Buddy.run b' = Buddy.run b → fresh h s → fresh (Heap.set_pages (Some b') h) s.
Proof using.
  intros Ep Er [F1 F2]. split; [done|]. intros n Hn [Hh|(c & [= <-] & Hc)]; apply (F2 n Hn); [by left|]. right. exists b. by rewrite <-Er.
Qed.

Lemma order_unique n o : n ≠ 0%nat → (n ≤ 2 ^ o)%nat → (∀ o', (n ≤ 2 ^ o')%nat → (o ≤ o')%nat) → (o ≤ Buddy.MAX_ORDER)%nat → Buddy.order_for n = Some o.
Proof using usize_32.
  intros Hn Hle Hmin Ho. rewrite (BuddySpec.order_for_eq usize_32) by done. assert (Nat.log2_up n = o) as ->; [|by rewrite (proj2 (Nat.leb_le _ _))].
  apply Nat.le_antisymm; [apply Nat.log2_up_le_pow2; lia|]. apply Hmin. destruct (decide (n = 1%nat)) as [->|]; [done|apply Nat.log2_up_spec; lia].
Qed.

Lemma page_frame m r p o : run_seen m r → (p + 2 ^ o ≤ FrameRange.count r)%nat →
  Frame.start (FrameRange.start (BuddySpec.frames r p o)) = Frame.start (FrameRange.start r) + Z.of_nat p * Frame.bytes ∧
  DirectMap.phys_base m ≤ Frame.start (FrameRange.start r) + Z.of_nat p * Frame.bytes ∧ Frame.start (FrameRange.start r) + Z.of_nat (p + 2 ^ o) * Frame.bytes ≤ DirectMap.phys_base m + DirectMap.len m.
Proof using arch_ok usize_32.
  intros [Hr _ [C1 C2]] Hp. destruct (range_start _ Hr) as [Es _]. pose proof Frame.bytes_pos. cbn [BuddySpec.frames FrameRange.start Frame.at_ Frame.start]. unfold widen. rewrite Es in *. split; [lia|]. split; nia.
Qed.

Context (checked poison : bool).

Lemma hand_out_pages_ok m h DS DA DP b0 b A l o p ctx :
  heap_ok h DS DA DP → Heap.pages h = Some b0 → buddy_ok (Heap.map h) b0 A DP → Buddy.run b = Buddy.run b0 → BuddySpec.holds b (<[p := o]> A) → BuddySpec.managed b (Buddy.run b0) →
  A !! p = None → (p + 2 ^ o ≤ FrameRange.count (Buddy.run b0))%nat →
  Layout.wf l → Layout.size l ≠ 0 → Layout.align l ≤ PAGE_SIZE → Slab.class_for l = None → order_of l = Some o →
  ∃ m' h' res, Heap.hand_out_pages checked m (Heap.set_pages (Some b) h) (BuddySpec.frames (Buddy.run b0) p o) l ctx = Some (m', h', res) ∧
    Heap.map h' = Heap.map h ∧ (∀ n, held h' n → held h n) ∧ served m (entries h DS DA DP) l ctx m' h' res.
Proof using arch_ok usize_32.
  intros Hh Ep Hb0 Er Hho Hm Hnone Hin Hl Hnz Hal Hc Ho. pose proof Hb0 as [_ _ Hrun Hnd HA Hlay]. destruct (page_frame _ _ p o Hrun Hin) as (Es & Hw1 & Hw2). pose proof Frame.bytes_pos as HB. pose proof (BuddyInv.pow_pos o) as Hpos.
  destruct (hp_map _ _ _ _ Hh) as [Hwf _]. unfold Heap.hand_out_pages, DirectMap.ptr_to_phys. cbn [Heap.set_pages Heap.map Heap.pages]. rewrite Es. rewrite (proj2 (DirectMap.to_virt_Ok _ _ _ Hwf)) by (split; [done|nia]).
  change (DirectMap.shift (Heap.map h) (Frame.start (FrameRange.start (Buddy.run b0)) + Z.of_nat p * Frame.bytes)) with (page_ptr (Heap.map h) (Buddy.run b0) p). set (q := page_ptr (Heap.map h) (Buddy.run b0) p).
  assert (p ∉ DP.*1.*1) as Hnew.
  { intros ([p' o'] & -> & Hx)%list_elem_of_fmap. apply HA in Hx. cbn in Hnone. congruence. }
  destruct (DirectMap.ptr_at (Heap.map h) q) as [q'|e] eqn:Eq.
  - apply (DirectMap.ptr_at_Ok _ _ _ Hwf) in Eq as (-> & Hq0 & _). eexists _, _, _. split_and!; [done|done|intros n; by apply (held_pages h b0)|]. exists (Z.of_nat (2 ^ o) * Frame.bytes).
    assert (buddy_ok (Heap.map h) b (<[p := o]> A) ((p, o, l) :: DP)) as Hbo.
    { split; rewrite ?Er; try done.
      - cbn [fmap list_fmap fst]. by constructor.
      - intros p' o'. cbn [fmap list_fmap fst]. rewrite elem_of_cons, <-HA. destruct (decide (p' = p)) as [->|Hne]; [rewrite lookup_insert_eq, Hnone|rewrite lookup_insert_ne by done]; naive_solver.
      - intros p' o' l' [[= -> -> ->]|Hx]%elem_of_cons; [done|by apply Hlay]. }
    split_and!.
    + exists DS, DA, ((p, o, l) :: DP). destruct (set_pages_ok h DS DA DP b0 b _ _ Hh Ep Hbo Er) as [Hok Een]. split; [done|]. rewrite Een. unfold entries. rewrite Ep. cbn [fmap list_fmap]. rewrite !(assoc_L (++)). apply Permutation_middle.
    + case_match; [eapply Poison.kept_wider; [apply Poison.kept_zero|lia|]|done]. pose proof (order_room l o Hl Hnz Ho). lia.
    + intros ->. intros a Ha. by apply Poison.zero_fills.
  - destruct (free_named checked b (Buddy.run b0) (<[p := o]> A) p o (BuddySpec.frames (Buddy.run b0) p o) Hm Hho) as (b' & -> & Hm' & Hh'); [apply lookup_insert_eq|apply BuddySpec.names_frames|].
    cbn [mbind option_bind]. assert (Buddy.run b' = Buddy.run b0) as Er' by apply Hm'. assert (buddy_ok (Heap.map h) b' A DP) as Hbo by (split; rewrite ?Er'; try done; by rewrite delete_insert_id in Hh').
    destruct (set_pages_ok h DS DA DP b0 b' _ _ Hh Ep Hbo Er') as [Hok Een]. exists m, (Heap.set_pages (Some b') h). eexists. split_and!; [done|done|intros n; by apply (held_pages h b0)|]. split; [|done]. exists DS, DA, DP. split; [done|]. rewrite Een. unfold entries. by rewrite Ep.
Qed.

Lemma served_ext m E E' l ctx m' h res : E = E' → served m E l ctx m' h res → served m E' l ctx m' h res.
Proof using. by intros ->. Qed.

Lemma alloc_large_ok m h DS DA DP l ctx s :
  heap_ok h DS DA DP → fresh h s → Layout.wf l → Layout.size l ≠ 0 → Slab.class_for l = None →
  ∃ m' h' s' res, Heap.alloc_large checked injecting m h l ctx s = Some (m', h', s', res) ∧ Heap.map h' = Heap.map h ∧ passes (Heap.bump h) (Heap.pages h) s h' s' ∧ served m (entries h DS DA DP) l ctx m' h' res.
Proof using arch_ok usize_32.
  intros Hh F Hl Hnz Hc. assert (∀ h0, heap_ok h0 DS DA DP → (∀ n, held h0 n → held h n) → Heap.map h0 = Heap.map h → entries h0 DS DA DP = entries h DS DA DP →
    ∃ m' h' s' res, Some (Heap.arena_alloc injecting m h0 l ctx s) = Some (m', h', s', res) ∧ Heap.map h' = Heap.map h ∧ passes (Heap.bump h) (Heap.pages h) s h' s' ∧ served m (entries h DS DA DP) l ctx m' h' res) as Harena.
  { intros h0 Hh0 Hsub Em Ee. assert (fresh h0 s) as F0 by (destruct F as [F1 F2]; split; [done|intros n Hn Hx; by apply (F2 n Hn), Hsub]). pose proof (direct_ok m h0 DS DA DP l l ctx s Hh0 F0 Hl Hnz Hl) as Hd. destruct (Heap.arena_alloc injecting m h0 l ctx s) as [[[m' h'] s'] res].
    destruct Hd as [Hst Hsv]; [unfold arena_len, arena_align; rewrite Hc; done..|]. exists m', h', s', res. split_and!; [done|rewrite (as_map _ _ _ _ Hst); done| |by eapply served_ext]. destruct (passes_step _ _ _ _ Hst) as [P1 P2 P3]. split; [done|done|]. intros n Hn. destruct (P3 n Hn) as [?|?]; [left; by apply Hsub|by right]. }
  unfold Heap.alloc_large. destruct (Z.leb_spec (Layout.align l) PAGE_SIZE) as [Hal|]; [|by apply Harena]. destruct (Heap.pages h) as [b0|] eqn:Ep; [|by apply Harena].
  pose proof (trip_like h Site.PAGES) as Hlk. destruct (Heap.trip injecting h Site.PAGES) as [h1 fail]. cbn [fst] in Hlk. destruct (heap_ok_like _ _ _ _ _ Hlk Hh) as [Hh1 Ee]. assert (fresh h1 s) as F1 by (eapply fresh_same; [apply Hlk|apply Hlk|done]).
  assert (Heap.pages h1 = Some b0) as Ep1 by (by rewrite (lk_pages _ _ Hlk)). pose proof (hp_pages _ _ _ _ Hh1) as Hp1. rewrite Ep1 in Hp1. destruct Hp1 as [A Hb0].
  assert (∀ b', buddy_ok (Heap.map h1) b' A DP → Buddy.run b' = Buddy.run b0 → ∃ m' h' s' res, Some (Heap.arena_alloc injecting m (Heap.count_pages_overflow (Heap.set_pages (Some b') h1)) l ctx s) = Some (m', h', s', res) ∧
    Heap.map h' = Heap.map h ∧ passes (Heap.bump h) (Some b0) s h' s' ∧ served m (entries h DS DA DP) l ctx m' h' res) as Hover.
  { intros b' Hb' Er. destruct (set_pages_ok h1 DS DA DP b0 b' A DP Hh1 Ep1 Hb' Er) as [Hok Een]. assert (like (Heap.set_pages (Some b') h1) (Heap.count_pages_overflow (Heap.set_pages (Some b') h1))) as Hlk2 by (by split).
    destruct (heap_ok_like _ _ _ _ _ Hlk2 Hok) as [Hok' Een']. apply Harena; [done| |apply (lk_map _ _ Hlk)|rewrite Een', Een, <-Ee; unfold entries; by rewrite Ep1]. intros n Hn. apply (held_like _ _ _ Hlk). by apply (held_pages h1 b0 b'). }
  destruct fail; cbn [mbind option_bind]; [by apply Hover|].
  pose proof Hb0 as [B1 B2 B3 B4 B5 B6]. destruct (BuddySpec.alloc_pages_ok usize_32 checked b0 (Buddy.run b0) A (Z.to_nat (Bump.div_ceil (Layout.size l) PAGE_SIZE)) (rs_ok _ _ B3) B2 B1) as (b' & A' & res & -> & Hm' & Hh' & Hsp). cbn [mbind option_bind].
  assert (Buddy.run b' = Buddy.run b0) as Er by apply Hm'. pose proof Frame.bytes_pos as HB. assert (Z.to_nat (Bump.div_ceil (Layout.size l) PAGE_SIZE) ≠ 0%nat) as Hn0.
  { destruct Hl as (Hl0 & _). pose proof (div_ceil_spec (Layout.size l) Frame.bytes HB Hl0). change PAGE_SIZE with Frame.bytes. nia. }
  assert (BuddySpec.holds b' A → buddy_ok (Heap.map h1) b' A DP) as Hstay by (intros ?; split; rewrite ?Er; done).
  destruct Hsp as [?|o A' res _ Hle Hmin Hsp]; [done|]. destruct Hsp as [p Ho Hroom|Ho Hno Hfit|Hno]; [|by apply Hover; [apply Hstay|]|by apply Hover; [apply Hstay|]].
  assert (A !! p = None) as Hnone.
  { destruct (A !! p) as [o'|] eqn:E; [|done]. exfalso. destruct Hroom as (_ & _ & Hf). pose proof (BuddyInv.pow_pos o). pose proof (BuddyInv.pow_pos o'). apply (Hf p); [lia|]. exists p, o'. split; [done|lia]. }
  destruct (hand_out_pages_ok m h1 DS DA DP b0 b' A l o p ctx Hh1 Ep1 Hb0 Er Hh' Hm' Hnone) as (m' & h' & res & -> & Em & Hsub & Hsv); try done; [by apply Hroom|by apply order_unique|].
  cbn [mbind option_bind]. exists m', h', s, res. split_and!; [done|by rewrite Em, (lk_map _ _ Hlk)| |by rewrite <-Ee]. rewrite <-Ep. apply passes_same; [apply F|]. intros n Hn. apply (held_like _ _ _ Hlk). by apply Hsub.
Qed.

(** Every request is answered; what was out stays out, and a request served adds one. *)
Lemma heap_alloc_ok m h E l ctx s :
  heap_inv h E → fresh h s → Layout.wf l →
  ∃ m' h' s' res, Heap.try_alloc_in checked injecting m h l ctx s = Some (m', h', s', res) ∧ Heap.map h' = Heap.map h ∧ passes (Heap.bump h) (Heap.pages h) s h' s' ∧ served m E l ctx m' h' res.
Proof using arch_ok usize_32.
  intros (DS & DA & DP & Hh & HE) F Hl. assert (∀ m' h' res, served m (entries h DS DA DP) l ctx m' h' res → served m E l ctx m' h' res) as HEs.
  { intros m' h' res. unfold served. destruct res as [p|e].
    - intros (n & (DS' & DA' & DP' & Hok & HP) & H2). exists n. split; [|done]. exists DS', DA', DP'. split; [done|]. by rewrite <-HP, HE.
    - intros ((DS' & DA' & DP' & Hok & HP) & H2). split; [|done]. exists DS', DA', DP'. split; [done|]. by rewrite <-HP, HE. }
  assert (∀ h', like h h' → served m E l ctx m h' (Err Exhausted) ∧ Heap.map h' = Heap.map h ∧ passes (Heap.bump h) (Heap.pages h) s h' s) as Hfail.
  { intros h' Hlk. destruct (heap_ok_like _ _ _ _ _ Hlk Hh) as [Hok Ee]. split_and!; [split; [|done]|apply Hlk|apply passes_same; [apply F|intros n Hn; by apply (held_like _ _ n Hlk)]]. exists DS, DA, DP. by rewrite Ee. }
  unfold Heap.try_alloc_in, Kalloc.validate. rewrite Kalloc.check_layout_wf by done. destruct (Z.eqb_spec (Layout.size l) 0) as [|Hnz].
  { destruct (Hfail (Heap.count_failure h) ltac:(by split)) as (Hs & Em & Ff). by eexists _, _, _, _. }
  set (h0 := if AllocContext.is_best_effort ctx then Heap.count_constrained h else h). assert (like h h0) as Hlk0 by (unfold h0; destruct (AllocContext.is_best_effort ctx); by split). clearbody h0.
  pose proof (trip_like h0 Site.ENTRY) as Hlk1. destruct (Heap.trip injecting h0 Site.ENTRY) as [h1 fail]. cbn [fst] in Hlk1. assert (like h h1) as Hlk by (destruct Hlk0, Hlk1; split; congruence). clear Hlk0 Hlk1 h0.
  destruct (heap_ok_like _ _ _ _ _ Hlk Hh) as [Hh1 Ee]. assert (fresh h1 s) as F1 by (eapply fresh_same; [apply Hlk|apply Hlk|done]).
  assert (∀ m' h' s' res, Heap.map h' = Heap.map h1 ∧ passes (Heap.bump h1) (Heap.pages h1) s h' s' ∧ served m (entries h1 DS DA DP) l ctx m' h' res →
    ∃ m2 h2 s2 r2, Some (match res with Ok p => (m', Heap.count_allocation h', s', Ok p) | Err e => (m', Heap.count_failure h', s', Err e) end) = Some (m2, h2, s2, r2) ∧
      Heap.map h2 = Heap.map h ∧ passes (Heap.bump h) (Heap.pages h) s h2 s2 ∧ served m E l ctx m2 h2 r2) as Hend.
  { intros m' h' s' res (Em & Ff & Hsv). rewrite Ee in Hsv. apply HEs in Hsv. pose proof (lk_map _ _ Hlk) as Em1. rewrite (lk_bump _ _ Hlk), (lk_pages _ _ Hlk) in Ff. destruct res.
    - eexists _, _, _, _. split_and!; [done|cbn; congruence|by destruct Ff; split|by eapply served_like; [|exact Hsv]].
    - eexists _, _, _, _. split_and!; [done|cbn; congruence|by destruct Ff; split|by eapply served_like; [|exact Hsv]]. }
  destruct fail.
  { destruct (Hfail (Heap.count_failure h1) ltac:(destruct Hlk; by split)) as (Hs & Em & Ff). by eexists _, _, _, _. }
  destruct (Slab.class_for l) as [c|] eqn:Ec.
  - pose proof (alloc_small_ok m h1 DS DA DP l c ctx s Hh1 F1 Hl Ec) as Hsm. cbn [mbind option_bind]. destruct (Heap.alloc_small injecting m h1 c ctx s) as [[[m' h'] s'] res]. by apply Hend.
  - destruct (alloc_large_ok m h1 DS DA DP l ctx s Hh1 F1 Hl Hnz Ec) as (m' & h' & s' & res & -> & H3). cbn [mbind option_bind]. by apply Hend.
Qed.

(** ** Giving back *)

(** A layout of the same size class, or the same layout where there is no class. *)
Definition releases (e : entry) (l : Layout.t) : Prop :=
  Layout.wf l ∧ Slab.class_for l = Slab.class_for (lay e) ∧ (Slab.class_for l = None → l = lay e).

Lemma heap_ok_perm h DS DA DP DS' DA' DP' :
  DS ≡ₚ DS' → DA ≡ₚ DA' → DP ≡ₚ DP' → heap_ok h DS DA DP → heap_ok h DS' DA' DP' ∧ entries h DS DA DP ≡ₚ entries h DS' DA' DP'.
Proof using.
  intros P1 P2 P3 [H1 H2 [S1 S2 S3 S4 S5 S6] H4 H5 H6 H7]. split; [split; try done|unfold entries; rewrite P1, P2; destruct (Heap.pages h); [by rewrite P3|done]].
  - split; try done; [by rewrite <-P1|intros i b k; rewrite <-P1; by apply S5|intros i k l; rewrite <-P1; by apply S6].
  - eapply arena_perm; [|exact H4]. unfold arena_exts. by rewrite P2.
  - intros p l. rewrite <-P2. by apply H5.
  - unfold pages_ok in *. destruct (Heap.pages h) as [b|]; [|subst; by apply Permutation_nil_l in P3]. destruct H6 as [A [B1 B2 B3 B4 B5 B6]]. exists A. split; try done; [by rewrite <-P3|intros p o; rewrite <-P3; by apply B5|intros p o l; rewrite <-P3; by apply B6].
Qed.

Lemma slab_give_ok m s DS i b k l s' :
  slab_ok m s ((i, k, l) :: DS) → bl s !! i = Some b → 0 ≤ k < Slab.objects b →
  bl s' = <[i := Slab.set_used (Z.land (Slab.used b) (u_not 64 (2 ^ k))) b]> (bl s) → length (Slab.blocks s') = Slab.MAX_BLOCKS → Slab.count s' = Slab.count s →
  slab_ok m s' DS.
Proof using usize_32.
  intros [S1 S2 S3 S4 S5 S6] Hb Hk E E1 E2. assert (block_ok m b) as Hok by (by eapply Forall_lookup_1). destruct (clear_bit_ok usize_32 m b k Hok Hk) as [Hok' Hbit].
  assert (i < length (bl s))%nat as Hi by (by eapply lookup_lt_Some). cbn [fmap list_fmap fst] in *. apply NoDup_cons in S4 as [Hnot S4]. split; try done.
  - by rewrite E2.
  - rewrite E. by apply Forall_insert.
  - intros j c q Hj Hq. rewrite E in Hj. destruct (decide (j = i)) as [->|Hne].
    + rewrite list_lookup_insert_eq in Hj by done. injection Hj as <-. cbn [Slab.set_used Slab.used]. rewrite Hbit by done. rewrite andb_true_iff, negb_true_iff, bool_decide_eq_false, (S5 i b q Hb Hq), elem_of_cons.
      split; [intros [? [[= ->]|?]]; done|]. intros Hin. split; [intros ->; done|by right].
    + rewrite list_lookup_insert_ne in Hj by done. rewrite (S5 j c q Hj Hq), elem_of_cons. split; [intros [[= -> ->]|?]; done|by right].
  - intros j q l' Hin. destruct (S6 j q l' ltac:(by right)) as (L1 & L2 & c & L3 & L4 & L5). split_and!; try done. rewrite E.
    destruct (decide (j = i)) as [->|]; [rewrite list_lookup_insert_eq by done; rewrite Hb in L3; injection L3 as <-; by eexists|rewrite list_lookup_insert_ne by done; by eexists].
Qed.

(** What giving back leaves. *)
Definition given (m : Poison.mem) (h : Heap.t) (e : entry) (E : list entry) (r : option (Poison.mem * Heap.t * result unit AllocError)) : Prop :=
  ∃ m' h', r = Some (m', h', Ok tt) ∧ Heap.map h' = Heap.map h ∧ (∀ s, fresh h s → fresh h' s) ∧ heap_inv h' E ∧ Poison.kept m m' (ptr e) (room e).

(** No block of the size classes has an address of the arena's other blocks. *)
Lemma direct_outside h DS DA DP p l : heap_ok h DS ((p, l) :: DA) DP → ∀ b, b ∈ bl (Heap.slab h) → ¬ inside b p.
Proof using usize_32.
  intros Hh b Hb Hin. pose proof (hp_arena _ _ _ _ Hh) as Ha. destruct (ar_live _ _ Ha (p, arena_len l)) as (Hpos & _); [apply elem_of_app; right; left|]. cbn [snd] in Hpos.
  pose proof (ar_spread _ _ Ha) as (_ & _ & Hap)%spread_app. specialize (Hap (block_ext b) (p, arena_len l)). unfold apart, block_ext, inside in *. cbn [fst snd] in *.
  destruct Hap as [?|?]; [apply list_elem_of_fmap; by exists b|left|lia|lia].
Qed.

Lemma arena_give_ok m h DS DA DP p l al :
  heap_ok h DS ((p, l) :: DA) DP → Layout.wf al → Layout.size al = arena_len l →
  given m h (direct_entry (p, l)) (entries h DS DA DP) (Some (Heap.arena_dealloc poison m h p al)).
Proof using arch_ok usize_32.
  intros Hh Hl Es. pose proof Hh as [H1 H2 H3 H4 H5 H6 H7]. assert (arena (Heap.bump h) ((p, Layout.size al) :: arena_exts (Heap.slab h) DA)) as Ha.
  { eapply arena_perm; [|exact H4]. unfold arena_exts. cbn [fmap list_fmap fst snd]. rewrite Es. symmetry. apply Permutation_middle. }
  destruct (dealloc_ok poison m (Heap.bump h) _ p al Hl Ha) as (m' & b' & E & Hm & Ha' & Hk). unfold Heap.arena_dealloc. rewrite E. cbn [is_ok]. eexists _, _. split; [done|]. split; [done|]. rewrite Es in Hk. split_and!; [| |done].
  - intros s [F1 F2]. split; [done|]. intros n Hn [Hh'|Hh']; apply (F2 n Hn); [left; by apply (moved_held _ _ _ Hm)|right; done].
  - exists DS, DA, DP. split; [|done]. split; try done.
    + cbn. by rewrite (mv_map _ _ Hm).
    + intros q l' Hin. apply H5. by right.
    + intros c n Ec Hn Hheld. apply (H7 c n Ec Hn). by apply (moved_held _ _ _ Hm).
Qed.

Lemma containing_number a : in_u 64 a → Frame.number (Frame.containing a) = a / Frame.bytes ∧ Frame.start (Frame.containing a) = a / Frame.bytes * Frame.bytes.
Proof using arch_ok usize_32.
  intros Ha. assert (Frame.wf (Frame.at_ 0)) as H0 by (split; [done|by exists 0]). destruct (MmFrameSpec.containing_spec a (Frame.at_ 0) Ha H0) as (Hw & _ & Hn & _). split; [done|]. destruct (Frame.wf_number _ Hw) as [-> _]. by rewrite Hn.
Qed.

(** The pages do not own an address of the arena. *)
Lemma page_of_arena h DS DA DP p l : heap_ok h DS ((p, l) :: DA) DP → Heap.page_of h p = None.
Proof using arch_ok usize_32.
  intros Hh. pose proof Hh as [[H1 _] H2 H3 H4 H5 H6 H7]. unfold Heap.page_of. destruct (Heap.pages h) as [b|] eqn:Ep; [|done]. cbn [mbind option_bind]. destruct (DirectMap.to_phys (Heap.map h) p) as [ph|] eqn:Eph; [|done].
  apply (DirectMap.to_phys_Ok _ _ _ H1) in Eph as [Es Hin]. destruct H6 as [A Hb]. pose proof Frame.bytes_pos as HB. assert (in_u 64 ph) as Hu by (destruct H1 as (? & ? & ? & ? & ?); unfold in_u; lia).
  destruct (containing_number ph Hu) as [Hnum _]. unfold Buddy.owns. pose proof (BuddySpec.buddy_index_of_spec usize_32 b (Buddy.run b) (Frame.containing ph)) as Hix. destruct (bo_holds _ _ _ _ Hb) as (K & FL & U & y & Hi & _).
  specialize (Hix (BuddyInv.in_sized _ _ _ _ _ _ _ Hi) (bo_managed _ _ _ _ Hb)). destruct (Buddy.index_of b (Frame.containing ph)) as [i|]; [|done]. exfalso. destruct Hix as [En Hlt].
  destruct (ar_live _ _ H4 (p, arena_len l)) as (Hpos & _ & g & Hg & Hw); [apply elem_of_app; right; left|]. apply (H7 b (ph / Frame.bytes) eq_refl).
  - unfold in_range. rewrite <-Hnum, En. unfold widen. destruct (bo_managed _ _ _ _ Hb) as (_ & _ & Epg). rewrite Epg in Hlt. lia.
  - exists g. split; [done|]. pose proof (ar_regions _ _ H4 g Hg) as [_ (q & _ & Eq) (k & Ek) _ Ev _]. rewrite H2 in Ev. unfold within in Hw. cbn [fst snd] in *. rewrite Ev, Es in Hw. unfold DirectMap.shift in Hw.
    rewrite Eq, Ek in *. assert (q * Frame.bytes ≤ ph < (q + k) * Frame.bytes) as Hph by lia. pose proof (Z.div_le_lower_bound ph Frame.bytes q HB ltac:(lia)). pose proof (Z.div_lt_upper_bound ph Frame.bytes (q + k) HB ltac:(lia)). nia.
Qed.

Lemma obj_give_ok m h DS DA DP i k l0 l :
  heap_ok h ((i, k, l0) :: DS) DA DP → releases (obj_entry (Heap.slab h) (i, k, l0)) l →
  given m h (obj_entry (Heap.slab h) (i, k, l0)) (entries h DS DA DP) (Heap.dealloc checked poison m h (ptr (obj_entry (Heap.slab h) (i, k, l0))) l).
Proof using arch_ok usize_32.
  intros Hh (Hl & Hc & _). pose proof Hh as [H1 H2 H3 H4 H5 H6 H7]. destruct (obj_in_block _ _ _ (i, k, l0) H3 ltac:(left)) as (b & Eb & Hb & Hk & Hcl & Eo). rewrite Eo in *. cbn [fst snd ptr lay room] in *. rewrite Hcl in Hc.
  destruct (class_for_Some l _ Hc) as (_ & Hnz & _). unfold Heap.dealloc, Kalloc.validate. rewrite Kalloc.check_layout_wf by done. rewrite (proj2 (Z.eqb_neq _ _) Hnz). rewrite Hc. set (s := Heap.slab h) in *.
  assert (Slab.free_in (bl s) (Slab.virt b + k * Slab.class b) (Slab.class b) = Slab.Cleared (<[i := Slab.set_used (Z.land (Slab.used b) (u_not 64 (2 ^ k))) b]> (bl s))) as Ef.
  { apply (free_in_at usize_32 (Heap.map h)); try done; [apply H3|apply (so_used _ _ _ H3 i b k Eb ltac:(lia)); left|]. intros j b' Hj Hb' Hin. pose proof (ar_spread _ _ H4) as [Hsp _]%spread_app.
    pose proof (spread_fmap_ne block_ext (bl s) j i b' b Hsp Hb' Eb Hj) as Hap. destruct (block_size usize_32 _ b Hb) as (_ & _ & H16 & _). unfold apart, block_ext, inside in *. cbn [fst snd] in *. nia. }
  unfold Slab.dealloc. fold (bl s). rewrite Ef. set (bs := <[i := _]> (bl s)). set (s' := Slab.Build_t _ _ _ _ _).
  assert (bl s' = bs) as Ebl. { unfold s', bl. cbn [Slab.count Slab.blocks]. apply bl_put; [unfold bs; by rewrite length_insert|]. rewrite (so_len _ _ _ H3). apply H3. }
  assert (length (Slab.blocks s') = Slab.MAX_BLOCKS) as El.
  { unfold s'. cbn [Slab.blocks]. rewrite length_app. unfold bs. rewrite length_insert. unfold bl. rewrite length_take, length_drop, (so_len _ _ _ H3). pose proof (so_count _ _ _ H3). lia. }
  eexists _, _. split; [done|]. split; [done|]. split; [intros s0 Fs; by eapply (fresh_same h)|]. split; [|apply Poison.kept_freed]. exists DS, DA, DP. split.
  - split; try done; [by eapply slab_give_ok|]. unfold arena_exts. cbn [Heap.count_free Heap.set_counts Heap.set_slab Heap.slab Heap.bump]. by rewrite (ext_used s s' i b _ Ebl Eb).
  - unfold entries. cbn [Heap.count_free Heap.set_counts Heap.set_slab Heap.slab Heap.map Heap.pages]. by rewrite (list_fmap_ext (obj_entry s') (obj_entry s) DS) by (intros; by rewrite (obj_entry_used s s' i b _ _ Ebl Eb)).
Qed.

Lemma direct_give_ok m h DS DA DP p l0 l :
  heap_ok h DS ((p, l0) :: DA) DP → releases (direct_entry (p, l0)) l → given m h (direct_entry (p, l0)) (entries h DS DA DP) (Heap.dealloc checked poison m h p l).
Proof using arch_ok usize_32.
  intros Hh (Hl & Hc & Hsame). cbn [direct_entry lay snd] in Hc, Hsame. destruct (hp_direct _ _ _ _ Hh p l0 ltac:(left)) as (Hl0 & Hnz0 & _). pose proof (direct_outside _ _ _ _ _ _ Hh) as Hout.
  destruct (free_in_none usize_32 (Heap.map h) (default 0 (Slab.class_for l)) (bl (Heap.slab h)) p (so_blocks _ _ _ (hp_slab _ _ _ _ Hh)) Hout) as [Ef Eo].
  unfold Heap.dealloc, Kalloc.validate. rewrite Kalloc.check_layout_wf by done. destruct (Slab.class_for l) as [c|] eqn:Ec.
  - destruct (class_for_Some l c Ec) as (Hcs & Hnz & _). rewrite (proj2 (Z.eqb_neq _ _) Hnz). change (default 0 (Some c)) with c in Ef. unfold Slab.dealloc. fold (bl (Heap.slab h)). rewrite Ef. destruct (direct_layout usize_32 c Hcs) as [-> Hw].
    assert (like h (Heap.set_slab (Heap.slab h) h)) as Hlk by (by split). destruct (heap_ok_like _ _ _ _ _ Hlk Hh) as [Hh' _].
    destruct (arena_give_ok m (Heap.set_slab (Heap.slab h) h) DS DA DP p l0 _ Hh' Hw) as (m' & h' & E & R1 & R2 & R3 & R4); [unfold arena_len; by rewrite <-Hc|]. exists m', h'. split_and!; [done|done| |done|done].
    intros s Fs. apply R2. by eapply (fresh_same h).
  - rewrite (Hsame eq_refl) in *. rewrite (proj2 (Z.eqb_neq _ _) Hnz0). rewrite (page_of_arena _ _ _ _ _ _ Hh). unfold Slab.owns, Slab.offset_in_block. fold (bl (Heap.slab h)). rewrite Eo.
    apply arena_give_ok; [done|done|]. unfold arena_len. by rewrite Ec.
Qed.

Lemma page_give_ok m h DS DA DP b p o l0 l :
  heap_ok h DS DA ((p, o, l0) :: DP) → Heap.pages h = Some b → releases (page_entry (Heap.map h) (Buddy.run b) (p, o, l0)) l →
  given m h (page_entry (Heap.map h) (Buddy.run b) (p, o, l0)) (entries h DS DA DP) (Heap.dealloc checked poison m h (page_ptr (Heap.map h) (Buddy.run b) p) l).
Proof using arch_ok usize_32.
  intros Hh Ep (Hl & Hc & Hsame). cbn [page_entry lay snd] in Hc, Hsame. pose proof Hh as [[H1 _] H2 H3 H4 H5 H6 H7]. rewrite Ep in H6. destruct H6 as [A Hb]. destruct (bo_lay _ _ _ _ Hb p o l0 ltac:(left)) as (_ & Hnz & Hal & Hcl & Ho & Hq).
  rewrite Hcl in Hc. rewrite (Hsame Hc) in *. clear l Hsame Hc. rename l0 into l. destruct (page_in_run _ _ _ _ (p, o, l) Hb ltac:(left)) as (Hdiv & Hin & HA). cbn [fst snd] in *. pose proof (bo_run _ _ _ _ Hb) as Hrun.
  destruct (page_frame _ _ p o Hrun Hin) as (_ & Hw1 & Hw2). destruct (range_start _ (rs_range _ _ Hrun)) as [Es Hs0]. pose proof (BuddyInv.pow_pos o) as Hpos. pose proof Frame.bytes_pos as HB.
  set (r := Buddy.run b) in *. set (f0 := Frame.number (FrameRange.start r)) in *. set (ph := Frame.start (FrameRange.start r) + Z.of_nat p * Frame.bytes) in *.
  unfold Heap.dealloc, Kalloc.validate. rewrite Kalloc.check_layout_wf by done. rewrite (proj2 (Z.eqb_neq _ _) Hnz), Hcl.
  assert (in_u 64 ph) as Hu by (destruct H1 as (? & ? & ? & ? & ?); unfold in_u; nia). destruct (containing_number ph Hu) as [Hnum Hst].
  assert (ph = (f0 + Z.of_nat p) * Frame.bytes) as Eph by (unfold ph; rewrite Es; lia). assert (ph / Frame.bytes = f0 + Z.of_nat p) as Ediv by (rewrite Eph; apply Z.div_mul; lia).
  destruct (bo_managed _ _ _ _ Hb) as (_ & _ & Epg). fold r in Epg. destruct (bo_holds _ _ _ _ Hb) as (K & FL & U & y & Hi & _).
  assert (Heap.page_of h (page_ptr (Heap.map h) r p) = Some (Frame.containing ph, ph)) as ->.
  { unfold Heap.page_of. rewrite Ep. cbn [mbind option_bind]. unfold page_ptr. fold ph. rewrite (proj2 (DirectMap.to_phys_Ok _ _ ph H1)) by (split; [done|nia]). unfold Buddy.owns.
    pose proof (BuddySpec.buddy_index_of_spec usize_32 b r (Frame.containing ph) (BuddyInv.in_sized _ _ _ _ _ _ _ Hi) (bo_managed _ _ _ _ Hb)) as Hix. destruct (Buddy.index_of b (Frame.containing ph)); [done|]. exfalso. destruct Hix as [_ Hno].
    apply Hno. rewrite Hnum, Ediv. fold f0. unfold widen. lia. }
  unfold Heap.free_pages. rewrite Hst, Ediv, <-Eph, Z.eqb_refl. cbn [negb]. unfold order_of in Ho. rewrite Ho. cbn [ok_or]. unfold FrameRange.new. rewrite (proj2 (Nat.eqb_neq _ _)) by lia. rewrite Hnum, Ediv.
  destruct (rs_ok _ _ Hrun) as [_ Hru]. fold f0 in Hru. unfold checked_add, widen in *. rewrite (proj2 (Z.leb_le _ _)) by lia. cbn [ok_or]. rewrite Ep. set (rg := FrameRange.Build_t _ _).
  destruct (free_named checked b r A p o rg (bo_managed _ _ _ _ Hb) (bo_holds _ _ _ _ Hb) HA) as (b' & -> & Hm' & Hh'); [split; [cbn [rg FrameRange.start]; rewrite Hnum, Ediv; done|done]|]. cbn [mbind option_bind].
  assert (Buddy.run b' = r) as Er by apply Hm'. pose proof Hb as [B1 B2 B3 B4 B5 B6]. cbn [fmap list_fmap fst] in B4, B5. apply NoDup_cons in B4 as [B4' B4].
  assert (buddy_ok (Heap.map h) b' (delete p A) DP) as Hb'.
  { split; rewrite ?Er; try done.
    - intros q s. destruct (decide (q = p)) as [->|Hne].
      + rewrite lookup_delete_eq. split; [done|]. intros Hx. destruct B4'. apply list_elem_of_fmap. by exists (p, s).
      + rewrite lookup_delete_ne by done. rewrite B5, elem_of_cons. split; [intros [[= -> _]|?]; done|by right].
    - intros q s l' Hx. apply (B6 q s l'). by right. }
  destruct (set_pages_ok h DS DA _ b b' _ DP Hh Ep Hb' Er) as [Hok Een]. set (h1 := Heap.set_pages (Some b') h) in *. assert (like h1 (Heap.count_free h1)) as Hlk by (by split). destruct (heap_ok_like _ _ _ _ _ Hlk Hok) as [Hok' Een'].
  eexists _, _. split; [done|]. split_and!; [done|intros s Fs; eapply fresh_same; [apply Hlk|apply Hlk|by eapply fresh_pages]| |].
  - exists DS, DA, DP. split; [done|]. rewrite Een', Een. unfold entries. by rewrite Ep.
  - cbn [page_entry ptr room fst snd rg FrameRange.count]. eapply Poison.kept_wider; [apply Poison.kept_freed|lia|]. unfold saturating_mul. change PAGE_SIZE with Frame.bytes. lia.
Qed.

(** Every live allocation can be given back. *)
Lemma heap_dealloc_ok m h e E l : heap_inv h (e :: E) → releases e l → given m h e E (Heap.dealloc checked poison m h (ptr e) l).
Proof using arch_ok usize_32.
  intros (DS & DA & DP & Hh & HE) Hr. assert (e ∈ entries h DS DA DP) as He by (rewrite <-HE; left).
  assert (∀ DS' DA' DP' DS1 DA1 DP1, DS ≡ₚ DS1 → DA ≡ₚ DA1 → DP ≡ₚ DP1 → entries h DS1 DA1 DP1 ≡ₚ e :: entries h DS' DA' DP' →
    (heap_ok h DS1 DA1 DP1 → given m h e (entries h DS' DA' DP') (Heap.dealloc checked poison m h (ptr e) l)) → given m h e E (Heap.dealloc checked poison m h (ptr e) l)) as Hcase.
  { intros DS' DA' DP' DS1 DA1 DP1 P1 P2 P3 Hen H. destruct (heap_ok_perm h _ _ _ _ _ _ P1 P2 P3 Hh) as [Hh1 Pe]. destruct (H Hh1) as (m' & h' & R1 & R2 & R3 & R4 & R5). exists m', h'. split_and!; try done.
    destruct R4 as (X & Y & W & Hok & HP). exists X, Y, W. split; [done|]. rewrite <-HP. apply (Permutation_cons_inv (a := e)). by rewrite HE, Pe, Hen. }
  unfold entries in He. apply elem_of_app in He as [(x & -> & Hx)%list_elem_of_fmap|[(x & -> & Hx)%list_elem_of_fmap|He]%elem_of_app].
  - apply elem_of_Permutation in Hx as [DS' P]. eapply (Hcase DS' DA DP _ DA DP P); [done|done|done|]. intros Hok. destruct x as [[i k] l0]. by apply obj_give_ok.
  - apply elem_of_Permutation in Hx as [DA' P]. eapply (Hcase DS DA' DP DS _ DP); [done|exact P|done|unfold entries; cbn [fmap list_fmap app]; symmetry; apply Permutation_middle|]. intros Hok. destruct x as [p l0]. by apply direct_give_ok.
  - destruct (Heap.pages h) as [b|] eqn:Ep; [|by apply elem_of_nil in He]. apply list_elem_of_fmap in He as (x & -> & Hx). apply elem_of_Permutation in Hx as [DP' P].
    eapply (Hcase DS DA DP' DS DA _); [done|done|exact P|unfold entries; rewrite Ep; cbn [fmap list_fmap]; rewrite !(assoc_L (++)); symmetry; apply Permutation_middle|]. intros Hok. destruct x as [[p o] l0]. by apply page_give_ok.
Qed.

(** ** Attaching and detaching pages *)

(** A run as a frame source gives it, none of it held. *)
Definition own_run (h : Heap.t) (r : FrameRange.t) : Prop :=
  range_ok r ∧ Frame.number (FrameRange.start r) + Z.of_nat (FrameRange.count r) ≤ u_max 64 ∧ ∀ n, in_range r n → ¬ held h n.

Lemma attach_ok h E r store :
  heap_inv h E → own_run h r →
  ∃ h' res, Heap.attach_pages checked h r store = Some (h', res) ∧ Heap.map h' = Heap.map h ∧ heap_inv h' E ∧
    ∀ s, fresh h s → (∀ n, in_range r n → ¬ offers s n) → fresh h' s.
Proof using arch_ok usize_32.
  intros Hinv (Hr & Hu & Hnh). assert (∀ e, ∃ h' res, Some (h, Err e : result unit AllocError) = Some (h', res) ∧ Heap.map h' = Heap.map h ∧ heap_inv h' E ∧ ∀ s, fresh h s → (∀ n, in_range r n → ¬ offers s n) → fresh h' s) as Hstay by (intros e; by eexists _, _).
  destruct Hinv as (DS & DA & DP & Hh & HE). unfold Heap.attach_pages. destruct (Heap.pages h) as [b|] eqn:Ep; [apply Hstay|]. pose proof Hh as [[H1 H1'] H2 H3 H4 H5 H6 H7]. rewrite Ep in H6. cbn in H6. subst DP. destruct (range_start _ Hr) as [Es Hs0].
  pose proof Frame.bytes_pos as HB. unfold FrameRange.len_bytes, checked_mul, widen. destruct (Z.leb_spec (Z.of_nat (FrameRange.count r) * Frame.bytes) (u_max 64)); cbn [ok_or]; [|apply Hstay].
  unfold checked_add, saturating_sub. destruct (Z.leb_spec (Frame.start (FrameRange.start r) + Z.max (Z.of_nat (FrameRange.count r) * Frame.bytes - 1) 0) (u_max 64)); cbn [ok_or]; [|apply Hstay].
  destruct (DirectMap.to_virt (Heap.map h) (Frame.start (FrameRange.start r))) as [v|] eqn:Ev; [|apply Hstay]. apply (DirectMap.to_virt_Ok _ _ _ H1) in Ev as [_ Hv].
  destruct (DirectMap.to_virt (Heap.map h) (_ + _)) as [v2|] eqn:Ev2; [|apply Hstay]. apply (DirectMap.to_virt_Ok _ _ _ H1) in Ev2 as [_ Hv2].
  pose proof (BuddySpec.buddy_new_ok usize_32 checked r store) as Hnew. destruct (Buddy.new checked r store) as [[b|e]|]; [| |done]; cbn [mbind option_bind]; [|apply Hstay]. destruct Hnew as [Hm Hho].
  assert (Buddy.run b = r) as Er by apply Hm. pose proof Hr as (Hw & Hc & Hlim).
  assert (run_seen (Heap.map h) r) as Hrun by (split; [done|split; [done|unfold widen; lia]|split; lia]).
  eexists _, _. split; [done|]. split; [done|]. split.
  - exists DS, DA, []. split; [|by unfold entries in *; cbn [Heap.set_pages Heap.pages Heap.slab]; rewrite Ep in HE]. split; try done.
    + exists ∅. split; rewrite ?Er; try done; [constructor|intros p o; rewrite lookup_empty; split; [done|by intros ?%elem_of_nil]|by intros p o l ?%elem_of_nil].
    + intros c n [= <-] Hn Hheld. rewrite Er in Hn. apply (Hnh n Hn). by left.
  - intros s [F1 F2] Hno. split; [done|]. intros n Hn [Hheld|(c & [= <-] & Hc')]; [apply (F2 n Hn); by left|]. rewrite Er in Hc'. by apply (Hno n).
Qed.

Lemma detach_ok h E :
  heap_inv h E → let '(h', res) := Heap.detach_pages h in
  Heap.map h' = Heap.map h ∧ heap_inv h' E ∧ (∀ s, fresh h s → fresh h' s) ∧
  ∀ r st, res = Ok (r, st) → (∀ n, in_range r n → held h n ∧ ¬ held h' n).
Proof using arch_ok usize_32.
  intros Hinv. unfold Heap.detach_pages. destruct (Heap.pages h) as [b|] eqn:Ep; [|done]. cbn [Buddy.stats Buddy.s_live_blocks]. destruct (Nat.ltb_spec 0 (Buddy.live_blocks b)) as [|Hz]; [done|].
  destruct Hinv as (DS & DA & DP & Hh & HE). pose proof Hh as [H1 H2 H3 H4 H5 H6 H7]. rewrite Ep in H6. destruct H6 as [A Hb]. destruct (BuddySpec.holds_counts _ _ (bo_holds _ _ _ _ Hb)) as [Hlive _].
  assert (A = ∅) as -> by (apply map_size_empty_iff; lia). assert (DP = []) as ->.
  { destruct DP as [|[[p o] l] DP]; [done|]. exfalso. assert ((∅ : gmap nat nat) !! p = Some o) as Hx by (apply (bo_blocks _ _ _ _ Hb); left). by rewrite lookup_empty in Hx. }
  split_and!; [done| | |].
  - exists DS, DA, []. split; [split; try done; by intros c n Ec|]. rewrite HE. unfold entries. cbn [Heap.set_pages Heap.pages Heap.slab Heap.map]. rewrite Ep. done.
  - intros s [F1 F2]. split; [done|]. intros n Hn [Hheld|(c & [=] & _)]. apply (F2 n Hn). by left.
  - intros r st [= <- <-] n Hn. split; [right; by exists b|]. intros [Hheld|(c & [=] & _)]. by apply (H7 b n Ep Hn).
Qed.

Lemma new_heap m : map_ok m → heap_inv (Heap.new m) [] ∧ ∀ s, source_ok s → fresh (Heap.new m) s.
Proof using.
  intros Hm. destruct Hm as [Hw Hd]. destruct (new_arena m Hw) as [Ha Hno]. split.
  - exists [], [], []. split; [|done]. split; try done.
    + split; [done|cbn; lia|constructor|apply NoDup_nil_2|by intros i b k [=]|by intros i k l ?%elem_of_nil].
    + by intros p l ?%elem_of_nil.
  - intros s Hs. split; [done|]. intros n _ [Hh|(b & [=] & _)]. by apply (Hno n).
Qed.

End Source.

(** ** Where there is room, a request is served *)

Section Room.
Context (checked injecting : bool).

(** The block fits between the cursor and the end of its region, wherever it has to start. *)
Definition fits (b : Bump.t) (size align : Z) : Prop := 0 < Bump.cursor b ∧ Bump.cursor b + (align - 1) + size ≤ Bump.end_ b.

(** The heap's injector does nothing. *)
Definition quiet (h : Heap.t) : Prop := injecting = false ∨ Injector.policy (Heap.inject h) = Injector.Off.

Lemma quiet_trip h site : quiet h → Heap.trip injecting h site = (Heap.set_inject (Heap.inject h) (Heap.injected_before h) h, false).
Proof using.
  intros Hq. unfold Heap.trip, Injector.trip. destruct Hq as [->| ->]; [done|]. by destruct (negb injecting || _).
Qed.

Lemma hand_out_fits m b L start size ctx : arena b L → 0 < start → (∃ r, r ∈ built b ∧ within r (start, size)) → 0 < size → ∃ m' b', Bump.hand_out m b start size ctx = (m', b', Ok start).
Proof using.
  intros Ha Hs (r & Hr & Hw) Hz. pose proof (region_window _ _ (ar_regions _ _ Ha r Hr)). unfold within in Hw. cbn [fst snd] in Hw. unfold Bump.hand_out.
  rewrite (proj2 (DirectMap.ptr_at_Ok _ start start (ar_map _ _ Ha))) by (split; [done|split; lia]). by eexists _, _.
Qed.

(** Without frames to grow by, a request that fails leaves the arena as it was. *)
Lemma refused_same m b L l ctx (s : Injected NoFrames) :
  arena b L → Layout.wf l → 0 < Bump.cursor b →
  match @Bump.try_alloc_in arch _ (take_injected injecting) m b l ctx s with
  | (_, b', _, Err _) => b' = b ∧ ¬ (0 < Layout.size l ∧ fits b (Layout.size l) (Layout.align l))
  | _ => True
  end.
Proof using arch_ok usize_32.
  intros Ha (Hl0 & (k & Hk & Ek) & Hl2) Hcur. assert (Layout.wf l) as Hl by (split_and!; [done|by exists k|done]). unfold Bump.try_alloc_in. rewrite Kalloc.check_layout_wf by done. destruct (Z.eqb_spec (Layout.size l) 0); [split; [done|lia]|].
  rewrite Ek. set (size := Layout.size l) in *. unfold Bump.carve_or_grow. pose proof (carve_ok b L size k Ha ltac:(lia) Hk) as C. pose proof (arena_end _ _ Ha) as Hend. destruct (ar_cursor _ _ Ha) as [Hcu Hreg].
  destruct (Bump.carve b size (2 ^ k)) as [b1 [x|e]] eqn:Ec.
  - destruct C as (M & A1 & _ & _ & C1 & C2 & C3 & _). destruct (hand_out_fits m b1 L x size ctx A1) as (m' & b' & ->); [lia| |lia|done].
    destruct Hreg as [[_ ?]|(r & Hr & Hv & Hen)]; [lia|]. exists r. rewrite (moved_built _ _ M). split; [done|]. unfold within. cbn. lia.
  - destruct C as [-> He]. assert (¬ fits b size (2 ^ k)) as Hno.
    { intros [_ Hfit]. pose proof (Z.pow_pos_nonneg 2 k ltac:(lia) Hk). unfold Bump.carve in Ec. destruct (KernAddr.align_up (Bump.cursor b) (2 ^ k)) as [st|] eqn:Eu.
      - apply KernAddr.align_up_Some in Eu as (Hst & _ & _); [|unfold in_u; lia|done]. unfold KernAddr.checked_add, checked_add in Ec. rewrite (proj2 (Z.leb_le _ _)) in Ec by lia. by rewrite (proj2 (Z.ltb_ge _ _)) in Ec by lia.
      - unfold KernAddr.align_up, checked_add in Eu. rewrite (proj2 (Z.leb_le _ _)) in Eu by lia. done. }
    assert (b = b ∧ ¬ (0 < size ∧ fits b size (2 ^ k))) as Hsame by (split; [done|by intros [_ ?]]).
    destruct He as [->| ->]; [|done]. destruct (checked_add USIZE_BITS size (2 ^ k)) as [want|]; [|done]. unfold Bump.grow. destruct (want =? 0); [done|]. destruct (Bump.MAX_REGIONS <=? Bump.region_count b)%nat; [done|]. destruct (PAGE_SIZE =? 0); [done|].
    assert (∀ (t : Injected NoFrames) n, ∃ t', take_injected injecting t n = (t', Err Exhausted)) as Htake.
    { intros t j. unfold take_injected. destruct (Injector.trip injecting (inject t) Site.FRAMES) as [i []]; by eexists. }
    cbv zeta. unfold source_take. destruct (Htake s (Z.to_nat (Z.max (Z.max (Bump.div_ceil want PAGE_SIZE) 1) (Bump.div_ceil Bump.MIN_GROW_BYTES PAGE_SIZE)))) as [t ->].
    destruct (_ <? _); [|done]. destruct (Htake t (Z.to_nat (Z.max (Bump.div_ceil want PAGE_SIZE) 1))) as [t' ->]. done.
Qed.

Lemma arena_fits m h L l ctx s :
  arena (Heap.bump h) L → Layout.wf l → 0 < Bump.cursor (Heap.bump h) →
  match Heap.arena_alloc (S := NoFrames) injecting m h l ctx s with
  | (_, h', _, Err _) => Heap.bump h' = Heap.bump h ∧ ¬ (0 < Layout.size l ∧ fits (Heap.bump h) (Layout.size l) (Layout.align l))
  | _ => True
  end.
Proof using arch_ok usize_32.
  intros Ha Hl Hc. unfold Heap.arena_alloc, Heap.injected_frames. set (s0 := Build_Injected _ _ _). pose proof (refused_same m (Heap.bump h) L l ctx s0 Ha Hl Hc) as H.
  destruct (Bump.try_alloc_in m (Heap.bump h) l ctx s0) as [[[m' b'] s'] [p|e]]; done.
Qed.

Lemma quiet_like h h' : Heap.inject h' = Heap.inject h → quiet h → quiet h'.
Proof using. intros E. unfold quiet. by rewrite E. Qed.

Lemma small_fits m h DS DA DP l c ctx s :
  heap_ok h DS DA DP → Layout.wf l → Slab.class_for l = Some c → quiet h → fits (Heap.bump h) c c →
  ∃ m' h' s' p, Heap.alloc_small (S := NoFrames) injecting m h c ctx s = (m', h', s', Ok p).
Proof using arch_ok usize_32.
  intros Hh Hl Hc Hq Hfit. destruct (class_for_Some l c Hc) as (Hcs & Hnz & Hle & _). destruct (class_facts c Hcs) as (_ & Hc16 & _). destruct (direct_layout usize_32 c Hcs) as [Ed Hdw].
  assert (∀ m0 h0 s0, arena (Heap.bump h0) (arena_exts (Heap.slab h) DA) → Heap.bump h0 = Heap.bump h → ∃ m' h' s' p, Heap.alloc_direct (S := NoFrames) injecting m0 h0 c ctx s0 = (m', h', s', Ok p)) as Hdirect.
  { intros m0 h0 s0 Ha Eb. unfold Heap.alloc_direct. rewrite Ed. pose proof (arena_fits m0 h0 _ _ ctx s0 Ha Hdw) as H. destruct (Heap.arena_alloc injecting m0 h0 _ ctx s0) as [[[m' h'] s'] [p|e]]; [by eexists _, _, _, _|].
    destruct H as [_ Hno]; [rewrite Eb; apply Hfit|]. exfalso. apply Hno. rewrite Eb. cbn. split; [lia|done]. }
  unfold Heap.alloc_small. pose proof (take_slab_ok m h DS DA DP l c ctx Hh Hl Hc) as Ht. destruct (Heap.take_slab m h c ctx) as [[m1 h1] res1]. destruct Ht as (T1 & T2 & T3 & T4 & Hsv & Herr). destruct res1 as [p|e]; [by eexists _, _, _, _|].
  destruct (Herr e eq_refl) as (-> & Hlike & _). destruct (heap_ok_like h h1 DS DA DP Hlike Hh) as [Hh1 _]. pose proof (hp_arena _ _ _ _ Hh1) as Ha1. rewrite (lk_slab _ _ Hlike) in Ha1.
  destruct (Slab.has_room (Heap.slab h1)) eqn:Hroom; [|by apply Hdirect]. destruct (block_layout_Ok usize_32 c Hcs) as (bly & -> & Hbw & Ebl). rewrite (quiet_trip h1) by (by eapply quiet_like).
  set (h2 := Heap.set_inject _ _ h1). assert (like h1 h2) as Hlk2 by (by split). destruct (heap_ok_like _ _ _ _ _ Hlk2 Hh1) as [Hh2 _]. pose proof (hp_arena _ _ _ _ Hh2) as Ha2.
  assert (fresh h2 s) as F2 by (split; [done|intros n []]). pose proof (arena_alloc_ok injecting m1 h2 _ bly AllocContext.ATOMIC s Ha2 Hbw F2) as Har. pose proof (arena_fits m1 h2 _ bly AllocContext.ATOMIC s Ha2 Hbw) as Hsame.
  destruct (Heap.arena_alloc injecting m1 h2 bly AllocContext.ATOMIC s) as [[[m3 h3] s3] [p|e]]; destruct Har as [Hst Hres].
  - destruct Hres as (Ha & Hp & Hd & _). rewrite Ebl in Ha, Hd. cbn [Layout.size Layout.align] in Ha, Hd.
    destruct (add_block_ok h2 h3 s s3 DS DA DP c p Hh2 F2 Hst) as (sl & -> & Hh4 & _ & b & Hb & Hbc & Hbu); try done.
    pose proof (take_slab_ok m3 (Heap.set_slab sl h3) DS DA DP l c ctx Hh4 Hl Hc) as Ht. destruct (Heap.take_slab m3 (Heap.set_slab sl h3) c ctx) as [[m4 h4] [q|e]]; [by eexists _, _, _, _|]. destruct Ht as (_ & _ & _ & _ & _ & Hf). destruct (Hf e eq_refl) as (_ & _ & Hfull). by destruct (Hfull b Hb Hbc).
  - destruct Hres as [Ha _]. change (Heap.slab h2) with (Heap.slab h1) in Ha. rewrite (lk_slab _ _ Hlike) in Ha. apply Hdirect; [done|]. destruct Hsame as [-> _]; [|done]. change (Heap.bump h2) with (Heap.bump h1). rewrite (lk_bump _ _ Hlike). apply Hfit.
Qed.

Lemma heap_fits m h E l ctx :
  heap_inv h E → Layout.wf l → Layout.size l ≠ 0 → quiet h → fits (Heap.bump h) (arena_len l) (arena_align l) →
  (∀ b, Heap.pages h = Some b → page_ptr (Heap.map h) (Buddy.run b) 0 ≠ 0) →
  ∃ m' h' p, Heap.try_alloc checked injecting m h l ctx = Some (m', h', Ok p).
Proof using arch_ok usize_32.
  intros (DS & DA & DP & Hh & HE) Hl Hnz Hq Hfit Hpage. unfold Heap.try_alloc, Heap.try_alloc_in, Kalloc.validate. rewrite Kalloc.check_layout_wf by done. rewrite (proj2 (Z.eqb_neq _ _) Hnz).
  set (h0 := if AllocContext.is_best_effort ctx then Heap.count_constrained h else h). assert (like h h0 ∧ Heap.inject h0 = Heap.inject h) as [Hlk0 Hi0] by (unfold h0; destruct (AllocContext.is_best_effort ctx); by split). clearbody h0.
  rewrite (quiet_trip h0) by (by eapply quiet_like). set (h1 := Heap.set_inject _ _ h0). assert (like h h1) as Hlk by (by destruct Hlk0; split). assert (quiet h1) as Hq1 by (by eapply quiet_like).
  destruct (heap_ok_like _ _ _ _ _ Hlk Hh) as [Hh1 _]. rewrite <-(lk_bump _ _ Hlk) in Hfit. unfold arena_len, arena_align in Hfit. clearbody h1. destruct (Slab.class_for l) as [c|] eqn:Ec.
  - destruct (small_fits m h1 DS DA DP l c ctx no_frames Hh1 Hl Ec Hq1 Hfit) as (m' & h' & s' & p & ->). by eexists _, _, _.
  - assert (∀ h2, heap_ok h2 DS DA DP → Heap.bump h2 = Heap.bump h1 → ∃ m' h' s' p, Heap.arena_alloc (S := NoFrames) injecting m h2 l ctx no_frames = (m', h', s', Ok p)) as Harena.
    { intros h2 Hh2 Eb. pose proof (arena_fits m h2 _ l ctx no_frames (hp_arena _ _ _ _ Hh2) Hl) as H. destruct (Heap.arena_alloc injecting m h2 l ctx no_frames) as [[[m' h'] s'] [p|e]]; [by eexists _, _, _, _|].
      destruct H as [_ Hno]; [rewrite Eb; apply Hfit|]. exfalso. apply Hno. rewrite Eb. destruct Hl. split; [lia|done]. }
    unfold Heap.alloc_large. destruct (Z.leb_spec (Layout.align l) PAGE_SIZE) as [Hal|]; [|destruct (Harena h1 Hh1 eq_refl) as (m' & h' & s' & p & ->); by eexists _, _, _].
    destruct (Heap.pages h1) as [b0|] eqn:Ep; [|destruct (Harena h1 Hh1 eq_refl) as (m' & h' & s' & p & ->); by eexists _, _, _].
    rewrite (quiet_trip h1) by done. cbv zeta iota. set (h2 := Heap.set_inject _ _ h1). assert (like h1 h2) as Hlk2 by (by split). destruct (heap_ok_like _ _ _ _ _ Hlk2 Hh1) as [Hh2 _]. assert (Heap.pages h2 = Some b0) as Ep2 by done.
    pose proof (hp_pages _ _ _ _ Hh2) as Hp2. rewrite Ep2 in Hp2. destruct Hp2 as [A Hb0]. pose proof Hb0 as [B1 B2 B3 B4 B5 B6].
    destruct (BuddySpec.alloc_pages_ok usize_32 checked b0 (Buddy.run b0) A (Z.to_nat (Bump.div_ceil (Layout.size l) PAGE_SIZE)) (rs_ok _ _ B3) B2 B1) as (b' & A' & res & -> & Hm' & Hh' & Hsp). cbn [mbind option_bind].
    assert (Buddy.run b' = Buddy.run b0) as Er by apply Hm'. pose proof Frame.bytes_pos as HB. assert (Z.to_nat (Bump.div_ceil (Layout.size l) PAGE_SIZE) ≠ 0%nat) as Hn0.
    { destruct Hl as (Hl0 & _). pose proof (div_ceil_spec (Layout.size l) Frame.bytes HB Hl0). change PAGE_SIZE with Frame.bytes. nia. }
    assert (BuddySpec.holds b' A → ∃ m' h' s' p, Heap.arena_alloc (S := NoFrames) injecting m (Heap.count_pages_overflow (Heap.set_pages (Some b') h2)) l ctx no_frames = (m', h', s', Ok p)) as Hover.
    { intros Hho. assert (buddy_ok (Heap.map h2) b' A DP) as Hb' by (split; rewrite ?Er; done). destruct (set_pages_ok h2 DS DA DP b0 b' A DP Hh2 Ep2 Hb' Er) as [Hok _].
      apply Harena; [|done]. by eapply heap_ok_like; [|exact Hok]. }
    destruct Hsp as [?|o A' res _ Hle Hmin Hsp]; [done|]. destruct Hsp as [p Ho Hroom|Ho Hno Hf|Hno].
    + destruct Hroom as (_ & Hin & _). destruct (page_frame _ _ p o B3 Hin) as (Es & Hw1 & Hw2). pose proof (BuddyInv.pow_pos o) as Hpos. destruct (hp_map _ _ _ _ Hh2) as [Hwf _].
      unfold Heap.hand_out_pages, DirectMap.ptr_to_phys. change (Heap.map (Heap.set_pages (Some b') h2)) with (Heap.map h2). rewrite Es. rewrite (proj2 (DirectMap.to_virt_Ok _ _ _ Hwf)) by (split; [done|nia]).
      set (q := DirectMap.shift (Heap.map h2) _). rewrite (proj2 (DirectMap.ptr_at_Ok _ q q Hwf)); [by eexists _, _, _|]. unfold q. split; [done|]. assert (page_ptr (Heap.map h) (Buddy.run b0) 0 ≠ 0) as Hp0 by (apply Hpage; by rewrite <-(lk_pages _ _ Hlk)). change (Heap.map h2) with (Heap.map h1) in *. rewrite (lk_map _ _ Hlk) in *.
      destruct Hwf as (_ & _ & W1 & _). unfold page_ptr, DirectMap.shift in *. destruct (rs_covers _ _ B3) as [C1 C2]. nia.
    + destruct (Hover Hh') as (m' & h' & s' & p & ->). by eexists _, _, _.
    + destruct (Hover Hh') as (m' & h' & s' & p & ->). by eexists _, _, _.
Qed.

End Room.

End Inv.
End HeapInv.
