(* ===== verification/KallocHeapRuns.v ===== *)
(** * The kernel heap under any sequence of calls

    A caller that gives back only what it holds, and attaches only frames that are its own, can
    rely on the heap whatever it asks for, whatever the frame source answers and whatever the
    injector refuses: nothing panics, no allocation overlaps another, and no call touches the
    bytes of an allocation that is out. *)

From S2P Require Import Prelude MmFrame MmPhys MmDirectMap KallocBase KallocBuddy KallocBuddySpec KallocBump KallocSlab KallocHeap KallocBumpInv KallocSlabInv KallocHeapInv.
Import HeapInv.
Local Open Scope Z_scope.

Module HeapRuns.

(** Calls, and their answers. *)
Inductive op :=
| Alloc (l : Layout.t) (ctx : AllocContext.t)
| AllocIn (l : Layout.t) (ctx : AllocContext.t)
| Dealloc (p : Z) (l : Layout.t)
| Grow (min_bytes : Z)
| Attach (run : FrameRange.t) (store : list Z)
| DetachPages
| SetInjector (i : Injector.t).

Inductive answer :=
| Pointer (res : result Z AllocError)
| Freed (res : result unit AllocError)
| Grown (res : result nat AllocError)
| Attached (res : result unit AllocError)
| Detached (res : result (FrameRange.t * list Z) Heap.Detach)
| Nothing.

Section Runs.
Context {arch : Arch} (checked poison injecting : bool).
Context {S : Type} {source : FrameSource S}.

Record state := { heap : Heap.t; from : S }.

(** One call; [None] is a panic. *)
Definition serve (m : Poison.mem) (w : state) (o : op) : option (Poison.mem * state * answer) :=
  match o with
  | Alloc l ctx => '(m, h, r) ← Heap.try_alloc checked injecting m (heap w) l ctx; Some (m, {| heap := h; from := from w |}, Pointer r)
  | AllocIn l ctx => '(m, h, s, r) ← Heap.try_alloc_in checked injecting m (heap w) l ctx (from w); Some (m, {| heap := h; from := s |}, Pointer r)
  | Dealloc p l => '(m, h, r) ← Heap.dealloc checked poison m (heap w) p l; Some (m, {| heap := h; from := from w |}, Freed r)
  | Grow n => let '(h, s, r) := Heap.grow injecting (heap w) (from w) n in Some (m, {| heap := h; from := s |}, Grown r)
  | Attach run store => '(h, r) ← Heap.attach_pages checked (heap w) run store; Some (m, {| heap := h; from := from w |}, Attached r)
  | DetachPages => let '(h, r) := Heap.detach_pages (heap w) in Some (m, {| heap := h; from := from w |}, Detached r)
  | SetInjector i => Some (m, {| heap := Heap.set_injector (heap w) i; from := from w |}, Nothing)
  end.

(** What is out after a call: pointers and the layouts they were asked for with. *)
Definition live_after (D : list (Z * Layout.t)) (o : op) (x : answer) : list (Z * Layout.t) :=
  match o, x with
  | Alloc l _, Pointer (Ok p) | AllocIn l _, Pointer (Ok p) => (p, l) :: D
  | Dealloc p _, Freed (Ok _) => filter (λ y, y.1 ≠ p) D
  | _, _ => D
  end.

Context {arch_ok : ArchOk} {source_laws : FrameSourceOk S}.

(** The caller's side: a free names an allocation that is out, with a layout of its size class; an
    attached run is the caller's own. *)
Definition allowed (w : state) (D : list (Z * Layout.t)) (o : op) : Prop :=
  match o with
  | Alloc l _ | AllocIn l _ => Layout.wf l
  | Dealloc p l => ∃ l0, (p, l0) ∈ D ∧ Layout.wf l ∧ Slab.class_for l = Slab.class_for l0 ∧ (Slab.class_for l = None → l = l0)
  | Attach run _ => own_run (heap w) run ∧ ∀ n, BumpInv.in_range run n → ¬ offers (from w) n
  | Grow _ | DetachPages | SetInjector _ => True
  end.

(** The states a heap over the window [m] and the source [s] gets to, with what is out in each. *)
Inductive reached (m : DirectMap.t) (s : S) : state → list (Z * Layout.t) → Prop :=
| reached_new : reached m s {| heap := Heap.new m; from := s |} []
| reached_call w D mem o mem' w' x :
    reached m s w D → allowed w D o → serve mem w o = Some (mem', w', x) → reached m s w' (live_after D o x).

Context (usize_32 : 32 ≤ USIZE_BITS).

Definition shown (D : list (Z * Layout.t)) (E : list entry) : Prop := D ≡ₚ (λ e, (ptr e, lay e)) <$> E.

(** What a call leaves of the bytes that are out. *)
Definition bytes_kept (mem mem' : Poison.mem) (D : list (Z * Layout.t)) : Prop := ∀ p l a, (p, l) ∈ D → p ≤ a < p + Layout.size l → mem' a = mem a.

(** Two allocations that are out are apart, and hold their sizes. *)
Lemma held_apart h e E e' : heap_inv h (e :: E) → e' ∈ E → Layout.size (lay e') ≤ room e' ∧ (ptr e + room e ≤ ptr e' ∨ ptr e' + room e' ≤ ptr e) ∧ 0 < room e ∧ 0 < room e'.
Proof using arch_ok usize_32.
  intros Hinv He'. destruct (heap_inv_ok usize_32 _ _ Hinv) as [Hsp Hok]. cbn [fmap list_fmap BumpInv.spread] in Hsp. destruct Hsp as [Hsp _]. rewrite Forall_forall in Hsp. rewrite Forall_forall in Hok.
  destruct (Hok e ltac:(left)) as (_ & _ & _ & H1 & _). destruct (Hok e' ltac:(by right)) as (_ & _ & _ & H2 & _). specialize (Hsp (ext e') ltac:(apply list_elem_of_fmap; by exists e')).
  unfold BumpInv.apart, ext in Hsp. cbn in Hsp. lia.
Qed.

Lemma kept_others mem mem' e E D h : heap_inv h (e :: E) → shown D E → Poison.kept mem mem' (ptr e) (room e) → bytes_kept mem mem' D.
Proof using arch_ok usize_32.
  intros Hinv HD Hk p l a Hin Ha. unfold shown in HD. rewrite HD in Hin. apply list_elem_of_fmap in Hin as (e' & [= -> ->] & He').
  destruct (held_apart h e E e' Hinv He') as (Hr & Hap & _). apply Hk. lia.
Qed.

(** The invariant of a state, and what a call does to it. *)
Definition state_ok (m : DirectMap.t) (w : state) (D : list (Z * Layout.t)) : Prop := ∃ E, heap_inv (heap w) E ∧ shown D E ∧ fresh (heap w) (from w) ∧ Heap.map (heap w) = m.

(** A call's answer is in order: a free is accepted, a pointer is zeroed where that was asked for. *)
Definition answer_ok (mem' : Poison.mem) (o : op) (x : answer) : Prop :=
  match o, x with
  | Alloc l ctx, Pointer (Ok p) | AllocIn l ctx, Pointer (Ok p) => AllocContext.wants_zero ctx = true → ∀ a, p ≤ a < p + Layout.size l → mem' a = 0
  | Dealloc _ _, Freed r => r = Ok tt
  | _, _ => True
  end.

Lemma served_ok m mem w E D l ctx mem' h' s' res :
  heap_inv (heap w) E → shown D E → served mem E l ctx mem' h' res → fresh h' s' → Heap.map h' = m →
  state_ok m {| heap := h'; from := s' |} (match res with Ok p => (p, l) :: D | Err _ => D end) ∧ bytes_kept mem mem' D ∧
  match res with Ok p => AllocContext.wants_zero ctx = true → ∀ a, p ≤ a < p + Layout.size l → mem' a = 0 | Err _ => True end.
Proof using arch_ok usize_32.
  intros Hinv HD Hs Hf Hm. destruct res as [p|e].
  - destruct Hs as (n & Hinv' & Hk & Hz). split_and!; [|by eapply kept_others|done]. exists ({| ptr := p; lay := l; room := n |} :: E). split_and!; try done. unfold shown in *. csimpl. by rewrite HD.
  - destruct Hs as [Hinv' ->]. split_and!; try done. by exists E.
Qed.

Lemma shown_freed D e E h : heap_inv h (e :: E) → shown D (e :: E) → shown (filter (λ y, y.1 ≠ ptr e) D) E.
Proof using arch_ok usize_32.
  intros Hinv HD. unfold shown in *. rewrite HD. csimpl. rewrite filter_cons_False by (cbn; auto).
  assert (∀ e', e' ∈ E → ptr e' ≠ ptr e) as Hne by (intros e' He'; pose proof (held_apart h e E e' Hinv He'); lia).
  clear -Hne. induction E as [|x E IH]; [done|]. csimpl. rewrite filter_cons_True by (apply Hne; left). f_equiv. apply IH. intros y Hy. apply Hne. by right.
Qed.

Definition live_alloc (D : list (Z * Layout.t)) (l : Layout.t) (res : result Z AllocError) : list (Z * Layout.t) := match res with Ok p => (p, l) :: D | Err _ => D end.
Definition zeroed (mem' : Poison.mem) (l : Layout.t) (ctx : AllocContext.t) (res : result Z AllocError) : Prop :=
  match res with Ok p => AllocContext.wants_zero ctx = true → ∀ a, p ≤ a < p + Layout.size l → mem' a = 0 | Err _ => True end.

Lemma alloc_call_ok m mem w D l ctx :
  state_ok m w D → Layout.wf l →
  ∃ mem' h' s' res, Heap.try_alloc_in checked injecting mem (heap w) l ctx (from w) = Some (mem', h', s', res) ∧
    state_ok m {| heap := h'; from := s' |} (live_alloc D l res) ∧ bytes_kept mem mem' D ∧ zeroed mem' l ctx res.
Proof using arch_ok usize_32.
  intros (E & Hinv & HD & Hf & Hm) Hl. destruct (heap_alloc_ok usize_32 injecting checked mem (heap w) E l ctx (from w) Hinv Hf Hl) as (mem' & h' & s' & res & -> & Em & Hp & Hs).
  exists mem', h', s', res. split; [done|]. eapply served_ok; [done|done|done|by eapply fresh_passes|congruence].
Qed.

(** Without frames, the source is left alone. *)
Lemma plain_call_ok m mem w D l ctx :
  state_ok m w D → Layout.wf l →
  ∃ mem' h' res, Heap.try_alloc checked injecting mem (heap w) l ctx = Some (mem', h', res) ∧
    state_ok m {| heap := h'; from := from w |} (live_alloc D l res) ∧ bytes_kept mem mem' D ∧ zeroed mem' l ctx res.
Proof using arch_ok usize_32.
  intros (E & Hinv & HD & Hf & Hm) Hl. assert (fresh (heap w) no_frames) as Hn by (split; [done|by intros n []]). unfold Heap.try_alloc.
  destruct (heap_alloc_ok usize_32 injecting checked mem (heap w) E l ctx no_frames Hinv Hn Hl) as (mem' & h' & s' & res & -> & Em & Hp & Hs). cbn [mbind option_bind].
  exists mem', h', res. split; [done|]. eapply served_ok; [done|done|done| |congruence]. destruct Hf as [F1 F2]. split; [done|]. intros n Ho Hh. destruct (pa_held _ _ _ _ _ Hp n Hh) as [?|[[] _]]. by apply (F2 n Ho).
Qed.

Lemma free_call_ok m mem w D p l :
  state_ok m w D → allowed w D (Dealloc p l) →
  ∃ mem' h', Heap.dealloc checked poison mem (heap w) p l = Some (mem', h', Ok tt) ∧ state_ok m {| heap := h'; from := from w |} (filter (λ y, y.1 ≠ p) D) ∧ bytes_kept mem mem' (filter (λ y, y.1 ≠ p) D).
Proof using arch_ok usize_32.
  intros (E & Hinv & HD & Hf & Hm) (l0 & Hin & Hl & Hc & Hsame). unfold shown in HD. rewrite HD in Hin. apply list_elem_of_fmap in Hin as (e & [= -> ->] & He). apply elem_of_Permutation in He as [E' P].
  assert (heap_inv (heap w) (e :: E')) as Hinv' by (destruct Hinv as (X & Y & W & Hok & HP); exists X, Y, W; split; [done|by rewrite <-P]). assert (shown D (e :: E')) as HD' by (unfold shown; by rewrite HD, P).
  destruct (heap_dealloc_ok usize_32 checked poison mem (heap w) e E' l Hinv') as (mem' & h' & -> & Em & Hf' & Hinv2 & Hk); [by split_and!|]. exists mem', h'. split; [done|].
  pose proof (shown_freed D e E' _ Hinv' HD') as HD2. split; [|by eapply kept_others]. exists E'. split_and!; [done|done|by apply Hf'|cbn; congruence].
Qed.

Lemma call_ok m mem w D o :
  state_ok m w D → allowed w D o →
  ∃ mem' w' x, serve mem w o = Some (mem', w', x) ∧ state_ok m w' (live_after D o x) ∧ (∀ p l a, (p, l) ∈ D → (p, l) ∈ live_after D o x → p ≤ a < p + Layout.size l → mem' a = mem a) ∧ answer_ok mem' o x.
Proof using arch_ok usize_32.
  intros Hw Ho. destruct o as [l ctx|l ctx|p l|n|run store| |i]; cbn [serve allowed] in *.
  - destruct (plain_call_ok m mem w D l ctx Hw Ho) as (mem' & h' & res & -> & Hs & Hk & Hz). eexists _, _, _. split; [done|]. split; [by destruct res|]. split; [|by destruct res]. intros p k a Hin _. by apply Hk.
  - destruct (alloc_call_ok m mem w D l ctx Hw Ho) as (mem' & h' & s' & res & -> & Hs & Hk & Hz). eexists _, _, _. split; [done|]. split; [by destruct res|]. split; [|by destruct res]. intros p k a Hin _. by apply Hk.
  - destruct (free_call_ok m mem w D p l Hw Ho) as (mem' & h' & -> & Hs & Hk). eexists _, _, _. split; [done|]. split; [done|]. split; [|done]. intros q k a _ Hin. by apply Hk.
  - destruct Hw as (E & (DS & DA & DP & Hok & HE) & HD & Hf & Hm). pose proof (grow_heap_ok usize_32 injecting (heap w) DS DA DP (from w) n Hok Hf) as Hg. destruct (Heap.grow injecting (heap w) (from w) n) as [[h' s'] r]. destruct Hg as [Hst Hok'].
    eexists _, _, _. split; [done|]. split; [|done]. exists E. split_and!; [|done|by eapply fresh_step|cbn; rewrite (as_map _ _ _ _ Hst); done]. exists DS, DA, DP. split; [done|]. rewrite HE. unfold entries. cbn. by rewrite (as_map _ _ _ _ Hst), (as_slab _ _ _ _ Hst), (as_pages _ _ _ _ Hst).
  - destruct Hw as (E & Hinv & HD & Hf & Hm). destruct Ho as [Hrun Hno]. destruct (attach_ok usize_32 checked (heap w) E run store Hinv Hrun) as (h' & res & -> & Em & Hinv' & Hf'). eexists _, _, _. split; [done|]. split; [|done]. exists E. split_and!; [done|done|by apply Hf'|cbn; congruence].
  - destruct Hw as (E & Hinv & HD & Hf & Hm). pose proof (detach_ok usize_32 (heap w) E Hinv) as Hd. destruct (Heap.detach_pages (heap w)) as [h' r]. destruct Hd as (Em & Hinv' & Hf' & _). eexists _, _, _. split; [done|]. split; [|done]. exists E. split_and!; [done|done|by apply Hf'|cbn; congruence].
  - destruct Hw as (E & Hinv & HD & Hf & Hm). eexists _, _, _. split; [done|]. split; [|done]. exists E. split_and!; [by eapply heap_inv_like; [|exact Hinv]|done|by eapply fresh_same|done].
Qed.

Lemma reached_ok m s w D : map_ok m → source_ok s → reached m s w D → state_ok m w D.
Proof using arch_ok usize_32.
  intros Hm Hs. induction 1 as [|w D mem o mem' w' x _ IH Ho E].
  - destruct (new_heap m Hm) as [Hinv Hf]. exists []. split_and!; [done|by unfold shown|by apply Hf|done].
  - destruct (call_ok m mem w D o IH Ho) as (mem2 & w2 & x2 & E2 & Hw & _). rewrite E in E2. by injection E2 as <- <- <-.
Qed.

(** C11. Whatever a heap has been through, with any frame source that gives a frame once and any
    injector, a call allowed to its caller is answered without a panic; a free of what is out is
    accepted; a request for zeroed memory that is served is all zero; and no byte of an
    allocation that is out before and after the call is written. *)
Theorem heap_serves_every_call m s w D mem o :
  map_ok m → source_ok s → reached m s w D → allowed w D o →
  ∃ mem' w' x, serve mem w o = Some (mem', w', x) ∧ answer_ok mem' o x ∧
    ∀ p l a, (p, l) ∈ D → (p, l) ∈ live_after D o x → p ≤ a < p + Layout.size l → mem' a = mem a.
Proof using arch_ok usize_32.
  intros Hm Hs Hr Ho. destruct (call_ok m mem w D o (reached_ok m s w D Hm Hs Hr) Ho) as (mem' & w' & x & E & _ & Hk & Ha). by exists mem', w', x.
Qed.

(** C9. No two allocations that are out have a byte in common; each is at a multiple of its
    alignment, is not at address zero and lies inside the window. *)
Theorem heap_allocations_are_apart m s w D i p l :
  map_ok m → source_ok s → reached m s w D → D !! i = Some (p, l) →
  p ≠ 0 ∧ (Layout.align l | p) ∧ DirectMap.virt_base m ≤ p ∧ p + Layout.size l ≤ DirectMap.virt_base m + DirectMap.len m ∧
  ∀ j q k, D !! j = Some (q, k) → j ≠ i → p + Layout.size l ≤ q ∨ q + Layout.size k ≤ p.
Proof using arch_ok usize_32.
  intros Hm Hs Hr Hi. destruct (reached_ok m s w D Hm Hs Hr) as (E & Hinv & HD & _ & Em). destruct (heap_inv_ok usize_32 _ _ Hinv) as [Hsp Hok]. rewrite Em in Hok.
  apply Permutation_inj in HD as (_ & g & Hg & HD). assert (∀ n x, D !! n = Some x → ∃ e, E !! g n = Some e ∧ x = (ptr e, lay e) ∧ entry_ok m e) as Hent.
  { intros n x Hn. rewrite HD, list_lookup_fmap in Hn. destruct (E !! g n) as [e|] eqn:Ee; [|done]. injection Hn as <-. exists e. split_and!; [done|done|]. by eapply Forall_lookup_1. }
  destruct (Hent i _ Hi) as (e & Ee & [= -> ->] & O1 & O2 & O3 & O4 & O5 & O6). split_and!; [done|done|done|lia|]. intros j q k Hj Hne.
  destruct (Hent j _ Hj) as (e' & Ee' & [= -> ->] & _ & _ & _ & O4' & _). pose proof (BumpInv.spread_fmap_ne ext E (g i) (g j) e e' Hsp Ee Ee') as Hap. unfold BumpInv.apart, ext in Hap. cbn in Hap. destruct Hap; [intros Eg; by apply Hg in Eg|left; lia|right; lia].
Qed.

(** C40. Where the arena's region has room for a request, the heap serves it, from what it already
    holds: with injection off, a layout that fits between the cursor and the end wherever its
    alignment puts it is never refused, whether a size class, the attached pages or the arena
    itself answers. *)
Theorem heap_serves_what_fits m s w D mem l ctx :
  map_ok m → source_ok s → reached m s w D → Layout.wf l → Layout.size l ≠ 0 → quiet injecting (heap w) →
  fits (Heap.bump (heap w)) (arena_len l) (arena_align l) → (∀ b, Heap.pages (heap w) = Some b → page_ptr m (Buddy.run b) 0 ≠ 0) →
  ∃ mem' h' p, Heap.try_alloc checked injecting mem (heap w) l ctx = Some (mem', h', Ok p).
Proof using arch_ok usize_32.
  intros Hm Hs Hr Hl Hnz Hq Hfit Hpage. destruct (reached_ok m s w D Hm Hs Hr) as (E & Hinv & _ & _ & Em). eapply heap_fits; [done|done|done|done|done|done|]. intros b Hb. rewrite Em. by apply Hpage.
Qed.

End Runs.
(** ** A heap at work

    Ten frames of 4096 bytes to grow from, five more attached as pages, both seen one mebibyte
    higher. *)

#[local] Existing Instance MockFull.
#[local] Existing Instance MockFull_ok.

Definition demo_window : DirectMap.t := {| DirectMap.phys_base := 0; DirectMap.virt_base := 0x100000; DirectMap.len := 0x40000 |}.
Definition demo_regions : list MemoryRegion.t := [{| MemoryRegion.start := 0x10000; MemoryRegion.len := 0xA000; MemoryRegion.kind := 1 |}].
Definition demo_frames : FrameAllocator.t := {|
  FrameAllocator.pool := [255; 3]; FrameAllocator.taken := [0; 0]; FrameAllocator.base := 16; FrameAllocator.span := 10; FrameAllocator.total := 10;
  FrameAllocator.free := 10; FrameAllocator.hint := 0 |}.
Definition demo_pages : FrameRange.t := {| FrameRange.start := Frame.at_ (32 * 4096); FrameRange.count := 5 |}.
Definition layout (size align : Z) : Layout.t := {| Layout.size := size; Layout.align := align |}.
Definition demo_mem : Poison.mem := λ a, a mod 251.

Fixpoint serve_each (m : Poison.mem) (w : @state FrameAllocator.t) (D : list (Z * Layout.t)) (os : list op) : option (Poison.mem * @state FrameAllocator.t * list answer * list (Z * Layout.t)) :=
  match os with
  | [] => Some (m, w, [], D)
  | o :: os => '(m, w, x) ← serve true true true m w o; '(m, w, xs, D) ← serve_each m w (live_after D o x) os; Some (m, w, x :: xs, D)
  end.

(** An allocation before there are frames, two from one size class, one from the arena, one from
    the attached pages, one too large; the pages stay while one is out; both kinds of free. *)
Example demo_heap_answers :
  (let ops := [Alloc (layout 24 8) AllocContext.KERNEL; AllocIn (layout 24 8) AllocContext.KERNEL_ZEROED; AllocIn (layout 24 8) AllocContext.KERNEL;
               AllocIn (layout 3000 16) AllocContext.KERNEL; Attach demo_pages (replicate 60 7); Alloc (layout 5000 16) AllocContext.KERNEL_ZEROED;
               Alloc (layout 50000 16) AllocContext.KERNEL; DetachPages; Dealloc 0x120000 (layout 5000 16); Dealloc 0x110020 (layout 20 16)] in
   '(_, _, xs, D) ← serve_each demo_mem {| heap := Heap.new demo_window; from := demo_frames |} [] ops; Some (xs, D)) =
  Some ([Pointer (Err Exhausted); Pointer (Ok 0x110000); Pointer (Ok 0x110020); Pointer (Ok 0x110800); Attached (Ok tt); Pointer (Ok 0x120000);
         Pointer (Err Exhausted); Detached (Err (Heap.InUse 1)); Freed (Ok tt); Freed (Ok tt)], [(0x110800, layout 3000 16); (0x110000, layout 24 8)]).
Proof. vm_compute. reflexivity. Qed.

Lemma demo_window_ok : map_ok demo_window.
Proof. split; [by vm_compute|by exists 256]. Qed.

Lemma demo_frames_ok : source_ok demo_frames.
Proof.
  pose proof (FrameAllocator.new_spec demo_regions [7; 7; 7; 7] ltac:(repeat constructor; by vm_compute)) as H. assert (FrameAllocator.new demo_regions [7; 7; 7; 7] = Ok demo_frames) as E by (vm_compute; reflexivity). rewrite E in H. apply H.
Qed.

Lemma layout_wf size k : 0 ≤ size → 0 ≤ k → size + (2 ^ k - 1) ≤ u_max (USIZE_BITS - 1) → Layout.wf (layout size (2 ^ k)).
Proof. intros ? ? ?. split_and!; [done|by exists k|done]. Qed.

Lemma attach_allowed : allowed {| heap := Heap.new demo_window; from := demo_frames |} [] (Attach demo_pages (replicate 60 7)).
Proof.
  assert (∀ n, BumpInv.in_range demo_pages n → 32 ≤ n < 37) as Hn by (intros n Hn; exact Hn). split; [split_and!|].
  - split_and!; [split; [by vm_compute|by exists 32]|cbn; lia|by vm_compute].
  - by vm_compute.
  - intros n _ [Hh|(b & ? & _)]; [|done]. by apply (BumpInv.new_arena demo_window (proj1 demo_window_ok)) in Hh.
  - intros n Hr%Hn [Ha _]. assert (n = 32 ∨ n = 33 ∨ n = 34 ∨ n = 35 ∨ n = 36) as Hc by lia. by destruct Hc as [->|[->|[->|[->| ->]]]].
Qed.

(** Calls that are all allowed lead to a reached state. *)
Fixpoint allowed_each (m : Poison.mem) (w : @state FrameAllocator.t) (D : list (Z * Layout.t)) (os : list op) : Prop :=
  match os with
  | [] => True
  | o :: os => allowed w D o ∧ match serve true true true m w o with Some (m, w, x) => allowed_each m w (live_after D o x) os | None => True end
  end.

Lemma reached_each dm s m w D os m' w' xs D' :
  reached true true true dm s w D → allowed_each m w D os → serve_each m w D os = Some (m', w', xs, D') → reached true true true dm s w' D'.
Proof.
  revert m w D xs. induction os as [|o os IH]; intros m w D xs Hr Ha E; cbn [serve_each allowed_each] in *; [by simplify_eq|]. destruct Ha as [Ha Hn].
  destruct (serve _ _ _ m w o) as [[[m1 w1] x]|] eqn:E1; [|done]. cbn [mbind option_bind] in E. destruct (serve_each m1 w1 _ os) as [[[[m2 w2] ys] D2]|] eqn:E2; [|done]. cbn in E. simplify_eq.
  eapply IH; [|done|done]. by eapply reached_call.
Qed.

(** The state the witnesses start from: a heap with pages, two objects and a run of pages out. *)
Definition demo_calls : list op :=
  [Attach demo_pages (replicate 60 7); AllocIn (layout 24 8) AllocContext.KERNEL_ZEROED; AllocIn (layout 24 8) AllocContext.KERNEL; Alloc (layout 5000 16) AllocContext.KERNEL].
Definition demo_start : @state FrameAllocator.t := {| heap := Heap.new demo_window; from := demo_frames |}.
Definition demo_end : Poison.mem * @state FrameAllocator.t * list answer * list (Z * Layout.t) := default (demo_mem, demo_start, [], []) (serve_each demo_mem demo_start [] demo_calls).
Definition demo_state : @state FrameAllocator.t := demo_end.1.1.2.
Definition demo_live : list (Z * Layout.t) := [(0x120000, layout 5000 16); (0x110020, layout 24 8); (0x110000, layout 24 8)].

Lemma allowed_allocs m w D os : Forall (λ o, match o with Alloc l _ | AllocIn l _ => Layout.wf l | _ => False end) os → allowed_each m w D os.
Proof.
  intros H. revert m w D. induction H as [|o os Ho _ IH]; intros m w D; [done|]. cbn [allowed_each]. split; [by destruct o|]. destruct (serve _ _ _ m w o) as [[[m1 w1] x]|]; [apply IH|done].
Qed.

Lemma demo_allowed : allowed_each demo_mem demo_start [] demo_calls.
Proof.
  assert (Layout.wf (layout 24 8)) as H1 by (apply (layout_wf 24 3); by vm_compute). assert (Layout.wf (layout 5000 16)) as H2 by (apply (layout_wf 5000 4); by vm_compute).
  unfold demo_calls. cbn [allowed_each]. split; [apply attach_allowed|]. destruct (serve _ _ _ _ _ _) as [[[m1 w1] x]|]; [|done]. change (allowed_each m1 w1 (live_after [] (Attach demo_pages (replicate 60 7)) x) (tail demo_calls)).
  apply allowed_allocs. cbn [tail demo_calls]. repeat (apply Forall_cons; split; [first [exact H1|exact H2]|]). by apply Forall_nil_2.
Qed.

Lemma demo_reached : reached true true true demo_window demo_frames demo_state demo_live.
Proof.
  unfold demo_state, demo_end. destruct (serve_each demo_mem demo_start [] demo_calls) as [[[[m w] xs] D]|] eqn:E; pose proof (f_equal (fmap snd) E) as HD; vm_compute in HD; [|discriminate HD].
  injection HD as <-. cbn [default fst snd]. eapply reached_each; [apply reached_new|apply demo_allowed|exact E].
Qed.

Lemma demo_freed m w x : serve true true true demo_mem demo_state (Dealloc 0x110020 (layout 20 16)) = Some (m, w, x) → x = Freed (Ok tt) ∧ m 0x110020 = 0xDE.
Proof. intros E. apply (f_equal (fmap (λ r, (r.2, r.1.1 0x110020)))) in E. vm_compute in E. injection E as <- <-. done. Qed.

Lemma demo_attached b : Heap.pages (heap demo_state) = Some b → Buddy.run b = demo_pages.
Proof. intros E. destruct b. apply (f_equal (fmap Buddy.run)) in E. vm_compute in E. injection E as <-. reflexivity. Qed.

Lemma heap_serves_every_call_witness :
  ∃ mem' w', serve true true true demo_mem demo_state (Dealloc 0x110020 (layout 20 16)) = Some (mem', w', Freed (Ok tt)) ∧
    (mem' 0x110020 = 0xDE ∧ ∀ a, 0x110000 ≤ a < 0x110018 → mem' a = demo_mem a).
Proof.
  destruct (heap_serves_every_call (arch_ok := MockFull_ok) true true true ltac:(done) demo_window demo_frames demo_state demo_live demo_mem (Dealloc 0x110020 (layout 20 16))
    demo_window_ok demo_frames_ok demo_reached) as (mem' & w' & x & E & _ & Hk).
  { exists (layout 24 8). split_and!; [by right; left|apply (layout_wf 20 4); by vm_compute|by vm_compute|by vm_compute]. }
  destruct (demo_freed mem' w' x E) as [-> Hm].
  exists mem', w'. split; [exact E|]. split; [exact Hm|]. intros a Ha. apply (Hk 0x110000 (layout 24 8) a); [by right; right; left| |exact Ha]. cbn [live_after]. apply list_elem_of_filter. split; [done|by right; right; left].
Defined.

Lemma heap_allocations_are_apart_witness :
  reached true true true demo_window demo_frames demo_state demo_live ∧
  ∀ j q k, demo_live !! j = Some (q, k) → j ≠ 1%nat → 0x110020 + 24 ≤ q ∨ q + Layout.size k ≤ 0x110020.
Proof.
  split; [apply demo_reached|].
  apply (heap_allocations_are_apart (arch_ok := MockFull_ok) true true true ltac:(done) demo_window demo_frames demo_state demo_live 1%nat 0x110020 (layout 24 8) demo_window_ok demo_frames_ok demo_reached eq_refl).
Defined.

Lemma heap_serves_what_fits_witness :
  ∃ mem' h' p, Heap.try_alloc true true demo_mem (heap demo_state) (layout 1000 8) AllocContext.ATOMIC = Some (mem', h', Ok p).
Proof.
  apply (heap_serves_what_fits (arch_ok := MockFull_ok) true true true ltac:(done) demo_window demo_frames demo_state demo_live demo_mem (layout 1000 8) AllocContext.ATOMIC demo_window_ok demo_frames_ok demo_reached).
  - apply (layout_wf 1000 3); by vm_compute.
  - by vm_compute.
  - right. by vm_compute.
  - by vm_compute.
  - intros b ->%demo_attached. by vm_compute.
Defined.

(** Behind the two hypotheses on windows: where the offset is not whole pages, a block of pages
    is less aligned than was asked; and where the window starts at address zero, the block at
    frame zero has no pointer, and a large request fails although other pages are free. *)
Definition large_request (window : DirectMap.t) (run : FrameRange.t) : option (list answer) :=
  '(_, _, xs, _) ← serve_each demo_mem {| heap := Heap.new window; from := demo_frames |} [] [Attach run (replicate 60 7); Alloc (layout 5000 16) AllocContext.KERNEL]; Some xs.

Example shifted_window_misaligns_pages :
  DirectMap.new 0 0x100008 0x40000 = Ok {| DirectMap.phys_base := 0; DirectMap.virt_base := 0x100008; DirectMap.len := 0x40000 |} ∧
  large_request {| DirectMap.phys_base := 0; DirectMap.virt_base := 0x100008; DirectMap.len := 0x40000 |} demo_pages = Some [Attached (Ok tt); Pointer (Ok 0x120008)].
Proof. split; vm_compute; reflexivity. Qed.

Example frame_zero_has_no_pointer :
  DirectMap.identity 0x40000 = Ok {| DirectMap.phys_base := 0; DirectMap.virt_base := 0; DirectMap.len := 0x40000 |} ∧
  large_request {| DirectMap.phys_base := 0; DirectMap.virt_base := 0; DirectMap.len := 0x40000 |} {| FrameRange.start := Frame.at_ 0; FrameRange.count := 5 |} = Some [Attached (Ok tt); Pointer (Err Unmanaged)].
Proof. split; vm_compute; reflexivity. Qed.
End HeapRuns.
