(* ===== verification/NetWire.v ===== *)
(** * The wire formats of the network stack

    [kernel/net/src/wire.rs]: the Internet checksum, and the parsers and writers of Ethernet,
    ARP, IPv4, ICMP, UDP and TCP.  A byte is a [Z] below 256 and a slice a list of them; a
    view into the input is the sublist it covers.  A parser gives [None] where the code would
    panic (an index or a slice out of range, a [u32] sum that overflows), and otherwise its
    [Result].  A writer gives the buffer it leaves and its [Result]. *)

From S2P Require Import Prelude.
Local Open Scope Z_scope.

Module Wire.

Abbreviation Bytes := (list Z).
(** [Mac] is six bytes, [Ipv4Addr] four. *)
Abbreviation Mac := (list Z) (only parsing).
Abbreviation Ipv4Addr := (list Z) (only parsing).

Definition BROADCAST : Mac := replicate 6 255.
Definition ETH_HEADER : nat := 14.
Definition ETH_MTU : nat := 1500.
Definition FRAME_MAX : nat := ETH_HEADER + ETH_MTU.
Definition ETHERTYPE_IPV4 : Z := 0x0800.
Definition ETHERTYPE_ARP : Z := 0x0806.
Definition ARP_LEN : nat := 28.
Definition ARP_REQUEST : Z := 1.
Definition ARP_REPLY : Z := 2.
Definition ARP_HTYPE_ETHERNET : Z := 1.
Definition IPV4_HEADER : nat := 20.
Definition PROTO_ICMP : Z := 1.
Definition PROTO_UDP : Z := 17.
Definition IPV4_DF : Z := 0x4000.
Definition IPV4_FRAGMENT : Z := 0x3fff.
Definition IPV4_MF : Z := 0x2000.
Definition IPV4_OFFSET : Z := 0x1fff.
Definition ICMP_HEADER : nat := 8.
Definition ICMP_ECHO_REPLY : Z := 0.
Definition ICMP_ECHO_REQUEST : Z := 8.
Definition ICMP_UNREACHABLE : Z := 3.
Definition ICMP_PORT_UNREACHABLE : Z := 3.
Definition UDP_HEADER : nat := 8.
Definition PROTO_TCP : Z := 6.
Definition TCP_HEADER : nat := 20.
Definition TCP_FIN : Z := 0x01.
Definition TCP_SYN : Z := 0x02.
Definition TCP_RST : Z := 0x04.
Definition TCP_PSH : Z := 0x08.
Definition TCP_ACK : Z := 0x10.
Definition TCP_OPT_END : Z := 0.
Definition TCP_OPT_NOP : Z := 1.
Definition TCP_OPT_MSS : Z := 2.
Definition TCP_OPT_SACK_PERMITTED : Z := 4.
Definition TCP_OPT_SACK : Z := 5.
Definition SACK_BLOCKS : nat := 3.

Inductive WireError : Type :=
| Short | NotIpv4OverEthernet | ArpOperation (op : Z) | NotIpv4 | BadHeaderLength | BadTotalLength
| BadChecksum | Fragmented | NotEcho | BadUdpLength | BadTcpHeader | TooLarge.

(** ** Fields *)

(** [slice.get(at..at + n)]. *)
Definition get_range (b : Bytes) (at_ n : nat) : option Bytes :=
  if (at_ + n <=? length b)%nat then Some (take n (drop at_ b)) else None.
(** [slice.get(at..)]. *)
Definition get_from (b : Bytes) (at_ : nat) : option Bytes :=
  if (at_ <=? length b)%nat then Some (drop at_ b) else None.

Definition from_be16 (h l : Z) : Z := Z.lor (Z.shiftl h 8) l.
Definition to_be16 (x : Z) : Bytes := [Z.shiftr x 8; Z.land x 0xff].
Definition from_be32 (a b c d : Z) : Z :=
  Z.lor (Z.lor (Z.lor (Z.shiftl a 24) (Z.shiftl b 16)) (Z.shiftl c 8)) d.
Definition to_be32 (x : Z) : Bytes :=
  [Z.shiftr x 24; Z.land (Z.shiftr x 16) 0xff; Z.land (Z.shiftr x 8) 0xff; Z.land x 0xff].

Definition be16 (b : Bytes) (at_ : nat) : option Z := h ← b !! at_; l ← b !! (at_ + 1)%nat; Some (from_be16 h l).
(** [p.get(o..o + 4).and_then(|b| b.try_into().ok()).map(u32::from_be_bytes)] *)
Definition be32 (b : Bytes) (at_ : nat) : option Z :=
  match get_range b at_ 4 with Some [x; y; z; w] => Some (from_be32 x y z w) | _ => None end.
Definition mac_at (b : Bytes) (at_ : nat) : option Mac := get_range b at_ 6.
Definition ip_at (b : Bytes) (at_ : nat) : option Ipv4Addr := get_range b at_ 4.

(** [slice[at..at + src.len()].copy_from_slice(src)]: it panics out of range. *)
Definition put (b : Bytes) (at_ : nat) (src : Bytes) : option Bytes :=
  if (at_ + length src <=? length b)%nat
  then Some (take at_ b ++ src ++ drop (at_ + length src) b) else None.

(** ** The checksum *)

(** One byte: the sum so far and the high byte that waits for its low one. *)
Definition sum_byte (acc : option (Z * option Z)) (byte : Z) : option (Z * option Z) :=
  '(sum, carry) ← acc;
  match carry with
  | Some high => s ← checked_add 32 sum (from_be16 high byte); Some (s, None)
  | None => Some (sum, Some byte)
  end.

(** [while sum > 0xffff]: three turns are enough for any [u32]. *)
Fixpoint fold_carries (fuel : nat) (sum : Z) : option Z :=
  if 0xffff <? sum then
    match fuel with
    | O => None
    | S fuel => s ← checked_add 32 (Z.land sum 0xffff) (Z.shiftr sum 16); fold_carries fuel s
    end
  else Some sum.

Definition checksum (parts : list Bytes) : option Z :=
  '(sum, carry) ← foldl (λ acc part, foldl sum_byte acc part) (Some (0, None)) parts;
  sum ← match carry with Some high => checked_add 32 sum (from_be16 high 0) | None => Some sum end;
  s ← fold_carries 3 sum;
  Some (u_not 16 (s mod 2 ^ 16)).

(** ** Ethernet *)

Record Ethernet := { eth_dst : Mac; eth_src : Mac; ethertype : Z; eth_payload : Bytes }.

Definition parse_ethernet (frame : Bytes) : result Ethernet WireError :=
  let? dst := ok_or (mac_at frame 0) Short in
  let? src := ok_or (mac_at frame 6) Short in
  let? ty := ok_or (be16 frame 12) Short in
  let? payload := ok_or (get_from frame ETH_HEADER) Short in
  Ok {| eth_dst := dst; eth_src := src; ethertype := ty; eth_payload := payload |}.

(** A writer works on [buf[..n]] and leaves the rest of the buffer. *)
Definition on_prefix {A} (buf : Bytes) (n : nat) (k : Bytes → option (Bytes * A)) :
    option (Bytes * result A WireError) :=
  match get_range buf 0 n with
  | None => Some (buf, Err TooLarge)
  | Some h => '(h', a) ← k h; Some (h' ++ drop n buf, Ok a)
  end.

Definition write_ethernet (buf : Bytes) (dst src : Mac) (ty : Z) : option (Bytes * result unit WireError) :=
  on_prefix buf ETH_HEADER (λ h,
    h ← put h 0 dst; h ← put h 6 src; h ← put h 12 (to_be16 ty); Some (h, tt)).

(** ** ARP *)

Record Arp := { operation : Z; sender_mac : Mac; sender_ip : Ipv4Addr; target_mac : Mac; target_ip : Ipv4Addr }.

Definition parse_arp (p : Bytes) : option (result Arp WireError) :=
  if (length p <? ARP_LEN)%nat then Some (Err Short)
  else
    p4 ← p !! 4%nat; p5 ← p !! 5%nat;
    Some (
      let? htype := ok_or (be16 p 0) Short in
      let? ptype := ok_or (be16 p 2) Short in
      if negb (htype =? ARP_HTYPE_ETHERNET) || negb (ptype =? ETHERTYPE_IPV4) || negb (p4 =? 6) || negb (p5 =? 4)
      then Err NotIpv4OverEthernet
      else
        let? op := ok_or (be16 p 6) Short in
        if negb (op =? ARP_REQUEST) && negb (op =? ARP_REPLY) then Err (ArpOperation op)
        else
          let? smac := ok_or (mac_at p 8) Short in
          let? sip := ok_or (ip_at p 14) Short in
          let? tmac := ok_or (mac_at p 18) Short in
          let? tip := ok_or (ip_at p 24) Short in
          Ok {| operation := op; sender_mac := smac; sender_ip := sip; target_mac := tmac; target_ip := tip |}).

Definition write_arp (buf : Bytes) (arp : Arp) : option (Bytes * result nat WireError) :=
  on_prefix buf ARP_LEN (λ p,
    p ← put p 0 (to_be16 ARP_HTYPE_ETHERNET); p ← put p 2 (to_be16 ETHERTYPE_IPV4);
    p ← put p 4 [6]; p ← put p 5 [4]; p ← put p 6 (to_be16 (operation arp));
    p ← put p 8 (sender_mac arp); p ← put p 14 (sender_ip arp);
    p ← put p 18 (target_mac arp); p ← put p 24 (target_ip arp); Some (p, ARP_LEN)).

(** ** IPv4 *)

Record Ipv4 := { ip_src : Ipv4Addr; ip_dst : Ipv4Addr; protocol : Z; ttl : Z; ip_payload : Bytes }.
Record Fragment := { frag_id : Z; frag_offset : nat; frag_more : bool }.

Definition parse_ipv4_part (p : Bytes) : option (result (Ipv4 * option Fragment) WireError) :=
  match p !! 0%nat with
  | None => Some (Err Short)
  | Some first =>
      if negb (Z.shiftr first 4 =? 4) then Some (Err NotIpv4)
      else
        let header := (Z.to_nat (Z.land first 0x0f) * 4)%nat in
        if ((header <? IPV4_HEADER) || (length p <? header))%nat then Some (Err BadHeaderLength)
        else match be16 p 2 with
        | None => Some (Err Short)
        | Some total =>
            let total := Z.to_nat total in
            if ((total <? header) || (length p <? total))%nat then Some (Err BadTotalLength)
            else
              sum ← checksum [take header p];
              if negb (sum =? 0) then Some (Err BadChecksum)
              else Some (
                let? flags := ok_or (be16 p 6) Short in
                let fragment :=
                  if Z.land flags IPV4_FRAGMENT =? 0 then None
                  else Some {| frag_id := default 0 (be16 p 4);
                               frag_offset := (Z.to_nat (Z.land flags IPV4_OFFSET) * 8)%nat;
                               frag_more := negb (Z.land flags IPV4_MF =? 0) |} in
                let? t := ok_or (p !! 8%nat) Short in
                let? pr := ok_or (p !! 9%nat) Short in
                let? src := ok_or (ip_at p 12) Short in
                let? dst := ok_or (ip_at p 16) Short in
                Ok ({| ttl := t; protocol := pr; ip_src := src; ip_dst := dst;
                       ip_payload := take (total - header) (drop header p) |}, fragment))
        end
  end.

Definition parse_ipv4 (p : Bytes) : option (result Ipv4 WireError) :=
  r ← parse_ipv4_part p;
  Some (let? x := r in match x.2 with None => Ok x.1 | Some _ => Err Fragmented end).

Definition write_ipv4 (buf : Bytes) (src dst : Ipv4Addr) (proto id : Z) (payload_len : nat) :
    option (Bytes * result nat WireError) :=
  let total := (IPV4_HEADER + payload_len)%nat in
  if u16_MAX <? Z.of_nat total then Some (buf, Err TooLarge)
  else on_prefix buf IPV4_HEADER (λ h,
    h ← put h 0 [0x45]; h ← put h 1 [0]; h ← put h 2 (to_be16 (Z.of_nat total));
    h ← put h 4 (to_be16 id); h ← put h 6 (to_be16 IPV4_DF); h ← put h 8 [64]; h ← put h 9 [proto];
    h ← put h 10 [0; 0]; h ← put h 12 src; h ← put h 16 dst;
    sum ← checksum [h];
    h ← put h 10 (to_be16 sum); Some (h, IPV4_HEADER)).

(** ** ICMP *)

Record Unreachable := {
  un_code : Z; un_protocol : Z; un_src : Ipv4Addr; un_dst : Ipv4Addr; un_src_port : Z; un_dst_port : Z }.

Definition parse_icmp_unreachable (p : Bytes) : option (result Unreachable WireError) :=
  if (length p <? ICMP_HEADER)%nat then Some (Err Short)
  else
    sum ← checksum [p];
    if negb (sum =? 0) then Some (Err BadChecksum)
    else
      p0 ← p !! 0%nat; p1 ← p !! 1%nat;
      if negb (p0 =? ICMP_UNREACHABLE) then Some (Err NotEcho)
      else Some (
        let? inner := ok_or (get_from p ICMP_HEADER) Short in
        let? first := ok_or (inner !! 0%nat) Short in
        if negb (Z.shiftr first 4 =? 4) then Err NotIpv4
        else
          let header := (Z.to_nat (Z.land first 0x0f) * 4)%nat in
          if ((header <? IPV4_HEADER) || (length inner <? header))%nat then Err BadHeaderLength
          else
            let? pr := ok_or (inner !! 9%nat) Short in
            let? src := ok_or (ip_at inner 12) Short in
            let? dst := ok_or (ip_at inner 16) Short in
            let? sp := ok_or (be16 inner header) Short in
            let? dp := ok_or (be16 inner (header + 2)%nat) Short in
            Ok {| un_code := p1; un_protocol := pr; un_src := src; un_dst := dst; un_src_port := sp; un_dst_port := dp |}).

Record Echo := { echo_kind : Z; echo_id : Z; echo_seq : Z; echo_data : Bytes }.

Definition parse_icmp_echo (p : Bytes) : option (result Echo WireError) :=
  if (length p <? ICMP_HEADER)%nat then Some (Err Short)
  else
    sum ← checksum [p];
    if negb (sum =? 0) then Some (Err BadChecksum)
    else
      p0 ← p !! 0%nat; p1 ← p !! 1%nat;
      if (negb (p0 =? ICMP_ECHO_REQUEST) && negb (p0 =? ICMP_ECHO_REPLY)) || negb (p1 =? 0) then Some (Err NotEcho)
      else Some (
        let? id := ok_or (be16 p 4) Short in
        let? seq := ok_or (be16 p 6) Short in
        Ok {| echo_kind := p0; echo_id := id; echo_seq := seq; echo_data := drop ICMP_HEADER p |}).

Definition write_icmp_echo (buf : Bytes) (kind id seq : Z) (data : Bytes) : option (Bytes * result nat WireError) :=
  let len := (ICMP_HEADER + length data)%nat in
  on_prefix buf len (λ m,
    m ← put m 0 [kind]; m ← put m 1 [0]; m ← put m 2 [0; 0]; m ← put m 4 (to_be16 id); m ← put m 6 (to_be16 seq);
    m ← put m ICMP_HEADER data;
    sum ← checksum [m];
    m ← put m 2 (to_be16 sum); Some (m, len)).

(** ** UDP *)

Record Udp := { udp_src_port : Z; udp_dst_port : Z; udp_payload : Bytes }.

Definition pseudo_header (src dst : Ipv4Addr) (proto len : Z) : Bytes := src ++ dst ++ [0; proto] ++ to_be16 len.

Definition parse_udp (p : Bytes) (src dst : Ipv4Addr) : option (result Udp WireError) :=
  if (length p <? UDP_HEADER)%nat then Some (Err Short)
  else match be16 p 4, be16 p 6 with
  | Some len, field =>
      let n := Z.to_nat len in
      if ((n <? UDP_HEADER) || (length p <? n))%nat then Some (Err BadUdpLength)
      else match field with
      | None => Some (Err Short)
      | Some field =>
          bad ← (if field =? 0 then Some false
                 else sum ← checksum [pseudo_header src dst PROTO_UDP len; take n p]; Some (negb (sum =? 0)));
          if (bad : bool) then Some (Err BadChecksum)
          else Some (
            let? sp := ok_or (be16 p 0) Short in
            let? dp := ok_or (be16 p 2) Short in
            Ok {| udp_src_port := sp; udp_dst_port := dp; udp_payload := take (n - UDP_HEADER) (drop UDP_HEADER p) |})
      end
  | None, _ => Some (Err Short)
  end.

Definition write_udp (buf : Bytes) (src dst : Ipv4Addr) (src_port dst_port : Z) (payload : Bytes) :
    option (Bytes * result nat WireError) :=
  let n := (UDP_HEADER + length payload)%nat in
  if u16_MAX <? Z.of_nat n then Some (buf, Err TooLarge)
  else on_prefix buf n (λ d,
    d ← put d 0 (to_be16 src_port); d ← put d 2 (to_be16 dst_port); d ← put d 4 (to_be16 (Z.of_nat n));
    d ← put d 6 [0; 0]; d ← put d UDP_HEADER payload;
    sum ← checksum [pseudo_header src dst PROTO_UDP (Z.of_nat n); d];
    d ← put d 6 (to_be16 (if sum =? 0 then 0xffff else sum)); Some (d, n)).

(** ** TCP *)

Record Tcp := {
  tcp_src_port : Z; tcp_dst_port : Z; tcp_seq : Z; tcp_ack : Z; tcp_flags : Z; tcp_window : Z;
  tcp_mss : option Z; tcp_sack_permitted : bool; tcp_sack : list (option (Z * Z)); tcp_payload : Bytes }.

(** The options read so far. *)
Record Options := { o_mss : option Z; o_permitted : bool; o_sack : list (option (Z * Z)) }.

(** The loop over the blocks of one option of [n] bytes at [at]. *)
Fixpoint read_blocks (p : Bytes) (at_ n i : nat) (sack : list (option (Z * Z))) : list (option (Z * Z)) :=
  match sack with
  | [] => []
  | slot :: rest =>
      let block := (at_ + 2 + i * 8)%nat in
      if (at_ + n <? block + 8)%nat then slot :: rest
      else
        (match be32 p block, be32 p (block + 4)%nat with Some s, Some e => Some (s, e) | _, _ => slot end)
        :: read_blocks p at_ n (i + 1) rest
  end.

(** The option at [at], of kind [kind] and [n] bytes. *)
Definition read_option (p : Bytes) (at_ n : nat) (kind : Z) (o : Options) : Options :=
  {| o_mss := if (kind =? TCP_OPT_MSS) && (n =? 4)%nat then be16 p (at_ + 2)%nat else o_mss o;
     o_permitted := if (kind =? TCP_OPT_SACK_PERMITTED) && (n =? 2)%nat then true else o_permitted o;
     o_sack := if (kind =? TCP_OPT_SACK) && (10 <=? n)%nat && ((n - 2) mod 8 =? 0)%nat
               then read_blocks p at_ n 0 (o_sack o) else o_sack o |}.

(** The [while] over the options: every turn moves on by a byte or more, so one more turn
    than bytes is enough. *)
Fixpoint read_options (fuel : nat) (p : Bytes) (offset at_ : nat) (o : Options) : option (result Options WireError) :=
  if (at_ <? offset)%nat then
    match fuel with
    | O => None
    | S fuel =>
        kind ← p !! at_;
        if kind =? TCP_OPT_END then Some (Ok o)
        else if kind =? TCP_OPT_NOP then read_options fuel p offset (at_ + 1) o
        else match p !! (at_ + 1)%nat with
        | None => Some (Err BadTcpHeader)
        | Some n =>
            let n := Z.to_nat n in
            if ((n <? 2) || (offset <? at_ + n))%nat then Some (Err BadTcpHeader)
            else read_options fuel p offset (at_ + n) (read_option p at_ n kind o)
        end
    end
  else Some (Ok o).

Definition parse_tcp (p : Bytes) (src dst : Ipv4Addr) : option (result Tcp WireError) :=
  if (length p <? TCP_HEADER)%nat then Some (Err Short)
  else if u16_MAX <? Z.of_nat (length p) then Some (Err BadTcpHeader)
  else match p !! 12%nat with
  | None => Some (Err Short)
  | Some b12 =>
      let offset := (Z.to_nat (Z.shiftr b12 4) * 4)%nat in
      if ((offset <? TCP_HEADER) || (length p <? offset))%nat then Some (Err BadTcpHeader)
      else
        sum ← checksum [pseudo_header src dst PROTO_TCP (Z.of_nat (length p)); p];
        if negb (sum =? 0) then Some (Err BadChecksum)
        else
          r ← read_options (S offset) p offset TCP_HEADER
                {| o_mss := None; o_permitted := false; o_sack := replicate SACK_BLOCKS None |};
          Some (
            let? o := r in
            let? sp := ok_or (be16 p 0) Short in
            let? dp := ok_or (be16 p 2) Short in
            let? sq := ok_or (be32 p 4) Short in
            let? ak := ok_or (be32 p 8) Short in
            let? fl := ok_or (p !! 13%nat) Short in
            let? wn := ok_or (be16 p 14) Short in
            Ok {| tcp_src_port := sp; tcp_dst_port := dp; tcp_seq := sq; tcp_ack := ak; tcp_flags := fl; tcp_window := wn;
                  tcp_mss := o_mss o; tcp_sack_permitted := o_permitted o; tcp_sack := o_sack o;
                  tcp_payload := drop offset p |})
  end.

Record TcpHeader := {
  h_src_port : Z; h_dst_port : Z; h_seq : Z; h_ack : Z; h_flags : Z; h_window : Z;
  h_mss : option Z; h_sack_permitted : bool; h_sack : list (option (Z * Z)) }.

Definition blocks_of (h : TcpHeader) : list (Z * Z) := omap (λ x, x) (h_sack h).
Definition tcp_header_len (h : TcpHeader) : nat :=
  let blocks := count_if (λ x : option (Z * Z), match x with Some _ => true | None => false end) (take SACK_BLOCKS (h_sack h)) in
  (TCP_HEADER + (if h_mss h then 4 else 0) + (if h_sack_permitted h then 4 else 0) +
   (if (0 <? blocks)%nat then 4 + 8 * blocks else 0))%nat.

(** The blocks, each at the next eight bytes. *)
Fixpoint write_blocks (s : Bytes) (at_ : nat) (blocks : list (Z * Z)) : option Bytes :=
  match blocks with
  | [] => Some s
  | (start, end_) :: blocks =>
      s ← put s at_ (to_be32 start); s ← put s (at_ + 4) (to_be32 end_); write_blocks s (at_ + 8) blocks
  end.

(** The fields of the fixed header, the checksum and the urgent pointer zero. *)
Definition write_fixed (s : Bytes) (h : TcpHeader) (header : nat) : option Bytes :=
  s ← put s 0 (to_be16 (h_src_port h)); s ← put s 2 (to_be16 (h_dst_port h));
  s ← put s 4 (to_be32 (h_seq h)); s ← put s 8 (to_be32 (h_ack h));
  s ← put s 12 [shl 8 (Z.of_nat (header / 4) mod 2 ^ 8) 4]; s ← put s 13 [h_flags h];
  s ← put s 14 (to_be16 (h_window h)); put s 16 [0; 0; 0; 0].

Definition write_mss (s : Bytes) (at_ : nat) (mss : option Z) : option (Bytes * nat) :=
  match mss with
  | Some mss =>
      s ← put s at_ [TCP_OPT_MSS]; s ← put s (at_ + 1) [4]; s ← put s (at_ + 2) (to_be16 mss); Some (s, (at_ + 4)%nat)
  | None => Some (s, at_)
  end.
Definition write_permitted (s : Bytes) (at_ : nat) (permitted : bool) : option (Bytes * nat) :=
  if permitted then
    s ← put s at_ [TCP_OPT_NOP]; s ← put s (at_ + 1) [TCP_OPT_NOP];
    s ← put s (at_ + 2) [TCP_OPT_SACK_PERMITTED]; s ← put s (at_ + 3) [2]; Some (s, (at_ + 4)%nat)
  else Some (s, at_).
Definition write_sack (s : Bytes) (at_ : nat) (blocks : list (Z * Z)) : option Bytes :=
  if (0 <? length blocks)%nat then
    s ← put s at_ [TCP_OPT_NOP]; s ← put s (at_ + 1) [TCP_OPT_NOP]; s ← put s (at_ + 2) [TCP_OPT_SACK];
    s ← put s (at_ + 3) [(2 + 8 * Z.of_nat (length blocks)) mod 2 ^ 8];
    write_blocks s (at_ + 4) blocks
  else Some s.

Definition write_tcp_header (buf : Bytes) (src dst : Ipv4Addr) (h : TcpHeader) (payload_len : nat) :
    option (Bytes * result nat WireError) :=
  let header := tcp_header_len h in
  let n := (header + payload_len)%nat in
  if u16_MAX <? Z.of_nat n then Some (buf, Err TooLarge)
  else on_prefix buf n (λ s,
    s ← write_fixed s h header;
    '(s, at_) ← write_mss s TCP_HEADER (h_mss h);
    '(s, at_) ← write_permitted s at_ (h_sack_permitted h);
    s ← write_sack s at_ (blocks_of h);
    sum ← checksum [pseudo_header src dst PROTO_TCP (Z.of_nat n); s];
    s ← put s 16 (to_be16 sum); Some (s, n)).

Definition write_tcp (buf : Bytes) (src dst : Ipv4Addr) (h : TcpHeader) (payload : Bytes) :
    option (Bytes * result nat WireError) :=
  let header := tcp_header_len h in
  match get_range buf header (length payload) with
  | None => Some (buf, Err TooLarge)
  | Some _ => buf ← put buf header payload; write_tcp_header buf src dst h (length payload)
  end.

(** ** Whole frames *)

Inductive Frame : Type :=
| FArp (a : Arp) | FEcho (ip : Ipv4) (e : Echo) | FUnreachable (ip : Ipv4) (u : Unreachable)
| FUdp (ip : Ipv4) (u : Udp) | FTcp (ip : Ipv4) (t : Tcp) | FOtherIpv4 (ip : Ipv4) | FOtherEthernet (ty : Z).

Definition parse_frame (frame : Bytes) : option (result (Ethernet * Frame) WireError) :=
  match parse_ethernet frame with
  | Err e => Some (Err e)
  | Ok eth =>
      let done (r : result Frame WireError) := Some (let? f := r in Ok (eth, f)) in
      if ethertype eth =? ETHERTYPE_ARP then
        r ← parse_arp (eth_payload eth); done (let? a := r in Ok (FArp a))
      else if ethertype eth =? ETHERTYPE_IPV4 then
        r ← parse_ipv4 (eth_payload eth);
        match r with
        | Err e => Some (Err e)
        | Ok ip =>
            if protocol ip =? PROTO_ICMP then
              r ← parse_icmp_echo (ip_payload ip);
              match r with
              | Ok echo => done (Ok (FEcho ip echo))
              | Err NotEcho => r ← parse_icmp_unreachable (ip_payload ip); done (let? u := r in Ok (FUnreachable ip u))
              | Err e => Some (Err e)
              end
            else if protocol ip =? PROTO_UDP then
              r ← parse_udp (ip_payload ip) (ip_src ip) (ip_dst ip); done (let? u := r in Ok (FUdp ip u))
            else if protocol ip =? PROTO_TCP then
              r ← parse_tcp (ip_payload ip) (ip_src ip) (ip_dst ip); done (let? t := r in Ok (FTcp ip t))
            else done (Ok (FOtherIpv4 ip))
        end
      else done (Ok (FOtherEthernet (ethertype eth)))
  end.

(** ** Bytes and words *)

Abbreviation bytes := (Forall (in_u 8)).

Lemma from_be16_eq h l : in_u 8 h → in_u 8 l → from_be16 h l = h * 256 + l.
Proof.
  intros [Hh _] [Hl Hl']. unfold from_be16. rewrite Z.shiftl_mul_pow2 by lia.
  rewrite lor_disjoint_add by (unfold u_max in *; lia). lia.
Qed.

Lemma shiftr_8 x : Z.shiftr x 8 = x / 256.
Proof. by rewrite Z.shiftr_div_pow2 by lia. Qed.

Lemma land_255 x : Z.land x 0xff = x mod 256.
Proof. change 0xff with (Z.ones 8). by rewrite Z.land_ones by lia. Qed.

Lemma to_be16_eq x : to_be16 x = [x / 256; x mod 256].
Proof. unfold to_be16. by rewrite shiftr_8, land_255. Qed.

Lemma bytes_to_be16 x : in_u 16 x → bytes (to_be16 x).
Proof.
  intros [H0 H1]. rewrite to_be16_eq. unfold u_max in *. repeat constructor; unfold in_u, u_max; try (apply Z.mod_pos_bound; lia).
  - apply Z.div_pos; lia.
  - assert (x / 256 < 256) by (apply Z.div_lt_upper_bound; lia). lia.
  - pose proof (Z.mod_pos_bound x 256). lia.
Qed.

Lemma be16_to_be16 x : in_u 16 x → from_be16 (x / 256) (x mod 256) = x.
Proof.
  intros Hx. pose proof (bytes_to_be16 x Hx) as Hb. rewrite to_be16_eq in Hb. rewrite !Forall_cons in Hb.
  destruct Hb as (H1 & H2 & _). rewrite from_be16_eq by done. pose proof (Z.div_mod x 256). lia.
Qed.

Lemma to_be32_eq x : 0 ≤ x → to_be32 x = [x / 2 ^ 24; x / 2 ^ 16 mod 256; x / 2 ^ 8 mod 256; x mod 256].
Proof.
  intros Hx. unfold to_be32. by rewrite !Z.shiftr_div_pow2, !land_255 by lia.
Qed.

Lemma bytes_to_be32 x : in_u 32 x → bytes (to_be32 x).
Proof.
  intros [H0 H1]. rewrite to_be32_eq by done. unfold u_max in *.
  pose proof (Z.mod_pos_bound (x / 2 ^ 16) 256). pose proof (Z.mod_pos_bound (x / 2 ^ 8) 256). pose proof (Z.mod_pos_bound x 256).
  assert (0 ≤ x / 2 ^ 24 < 256) by (split; [apply Z.div_pos; lia|apply Z.div_lt_upper_bound; lia]).
  repeat constructor; unfold u_max; lia.
Qed.

Lemma from_be32_eq a b c d : in_u 8 a → in_u 8 b → in_u 8 c → in_u 8 d → from_be32 a b c d = a * 2 ^ 24 + b * 2 ^ 16 + c * 2 ^ 8 + d.
Proof.
  unfold in_u, u_max. intros Ha Hb Hc Hd. unfold from_be32. rewrite !Z.shiftl_mul_pow2 by lia.
  rewrite (lor_disjoint_add a (b * 2 ^ 16)) by lia.
  replace (a * 2 ^ 24 + b * 2 ^ 16) with ((a * 2 ^ 8 + b) * 2 ^ 16) by lia. rewrite lor_disjoint_add by lia.
  replace ((a * 2 ^ 8 + b) * 2 ^ 16 + c * 2 ^ 8) with (((a * 2 ^ 8 + b) * 2 ^ 8 + c) * 2 ^ 8) by lia. rewrite lor_disjoint_add by lia. lia.
Qed.

Lemma be32_to_be32 x : in_u 32 x → from_be32 (x / 2 ^ 24) (x / 2 ^ 16 mod 256) (x / 2 ^ 8 mod 256) (x mod 256) = x.
Proof.
  intros Hx. pose proof (bytes_to_be32 x Hx) as Hb. rewrite to_be32_eq in Hb by apply Hx. rewrite !Forall_cons in Hb.
  destruct Hb as (H1 & H2 & H3 & H4 & _). rewrite from_be32_eq by done.
  pose proof (Z.div_mod x 256). pose proof (Z.div_mod (x / 2 ^ 8) 256). pose proof (Z.div_mod (x / 2 ^ 16) 256).
  rewrite !Z.div_div in * by lia. replace (2 ^ 8 * 256) with (2 ^ 16) in * by lia. replace (2 ^ 16 * 256) with (2 ^ 24) in * by lia.
  change (2 ^ 8) with 256 in *. lia.
Qed.

(** ** The checksum *)

(** The sum of the big-endian words, the last byte padded with zero. *)
Fixpoint word_sum (b : Bytes) : Z :=
  match b with
  | [] => 0
  | [h] => h * 256
  | h :: l :: b => h * 256 + l + word_sum b
  end.

(** The ones'-complement sum. *)
Definition ones_sum (w : Z) : Z := if w =? 0 then 0 else 1 + (w - 1) mod 65535.

Lemma bytes_pair_ind (P : Bytes → Prop) :
  P [] → (∀ h, P [h]) → (∀ h l b, P b → P (h :: l :: b)) → ∀ b, P b.
Proof.
  intros H0 H1 H2 b. enough (P b ∧ ∀ h, P (h :: b)) by tauto. induction b as [|x b [IH1 IH2]]; [auto|]. split; [apply IH2|].
  intros h. by apply H2.
Qed.

Lemma word_sum_nonneg b : bytes b → 0 ≤ word_sum b.
Proof.
  induction b as [|h|h l b IH] using bytes_pair_ind; intros Hb; [simpl; lia| |].
  - apply Forall_cons in Hb as [[? _] _]. simpl. lia.
  - rewrite !Forall_cons in Hb. destruct Hb as ([? _] & [? _] & Hb). specialize (IH Hb). simpl. lia.
Qed.

Lemma word_sum_bound b : bytes b → word_sum b ≤ 65535 * Z.of_nat (Nat.div2 (S (length b))).
Proof.
  induction b as [|h|h l b IH] using bytes_pair_ind; intros Hb; [simpl; lia| |].
  - apply Forall_cons in Hb as [[_ ?] _]. unfold u_max in *. simpl. lia.
  - rewrite !Forall_cons in Hb. destruct Hb as ([_ ?] & [_ ?] & Hb). specialize (IH Hb). unfold u_max in *.
    cbn [word_sum length Nat.div2]. rewrite Nat2Z.inj_succ. cbn [Nat.div2] in IH. lia.
Qed.

Lemma word_sum_app a b : Nat.even (length a) = true → word_sum (a ++ b) = word_sum a + word_sum b.
Proof. induction a as [|h|h l a IH] using bytes_pair_ind; intros He; [done|done|]. simpl in *. rewrite IH by done. lia. Qed.

Definition waiting (c : option Z) : Bytes := match c with Some h => [h] | None => [] end.

Lemma sum_bytes s c b :
  bytes (waiting c) → bytes b → 0 ≤ s → s + word_sum (waiting c ++ b) ≤ u_max 32 →
  ∃ s' c', foldl sum_byte (Some (s, c)) b = Some (s', c') ∧ bytes (waiting c') ∧ 0 ≤ s' ∧
    s' + word_sum (waiting c') = s + word_sum (waiting c ++ b).
Proof.
  revert s c. induction b as [|x b IH]; intros s c Hc Hb Hs Hle.
  { exists s, c. by rewrite app_nil_r. }
  apply Forall_cons in Hb as [Hx Hb]. pose proof (word_sum_nonneg b Hb). destruct c as [h|]; simpl in *.
  - apply Forall_cons in Hc as [Hh _]. rewrite from_be16_eq by done. destruct Hh, Hx.
    rewrite (proj2 (checked_add_Some 32 s (h * 256 + x) (s + (h * 256 + x)))) by lia. simpl.
    destruct (IH (s + (h * 256 + x)) None) as (s' & c' & -> & Hc' & Hs' & E); [constructor|done|lia|simpl; lia|].
    exists s', c'. split_and!; [done..|]. simpl in E. lia.
  - destruct (IH s (Some x)) as (s' & c' & -> & Hc' & Hs' & E); [constructor; [exact Hx|constructor]|done|done|done|]. exists s', c'. by split_and!.
Qed.

Lemma foldl_parts {A B} (f : A → B → A) a (parts : list (list B)) :
  foldl (λ acc part, foldl f acc part) a parts = foldl f a (concat parts).
Proof. revert a. induction parts as [|p parts IH]; intros a; [done|]. simpl. by rewrite IH, foldl_app. Qed.

(** One turn of the fold keeps the ones'-complement sum. *)
Lemma ones_sum_turn w : 0 ≤ w → ones_sum (w mod 65536 + w / 65536) = ones_sum w.
Proof.
  intros Hw. unfold ones_sum. pose proof (Z.div_mod w 65536). pose proof (Z.mod_pos_bound w 65536).
  assert (0 ≤ w / 65536) by (apply Z.div_pos; lia).
  destruct (Z.eqb_spec w 0) as [->|Hn]; [done|].
  destruct (Z.eqb_spec (w mod 65536 + w / 65536) 0) as [E|E]; [lia|]. f_equal.
  replace (w - 1) with ((w mod 65536 + w / 65536 - 1) + (w / 65536) * 65535) by lia. by rewrite Z_mod_plus_full.
Qed.

Lemma ones_sum_small w : 0 ≤ w ≤ 65535 → ones_sum w = w.
Proof. intros Hw. unfold ones_sum. destruct (Z.eqb_spec w 0); [done|]. rewrite Z.mod_small by lia. lia. Qed.

Lemma fold_carries_spec w : in_u 32 w → fold_carries 3 w = Some (ones_sum w).
Proof.
  assert (∀ fuel w, in_u 32 w → 65535 < w → fold_carries (S fuel) w = fold_carries fuel (w mod 65536 + w / 65536)) as Hturn.
  { intros fuel v Hv Hlt. cbn [fold_carries]. destruct (Z.ltb_spec 65535 v); [|lia].
    change 65535 with (Z.ones 16). rewrite Z.land_ones, Z.shiftr_div_pow2 by lia. change (2 ^ 16) with 65536.
    unfold in_u, u_max in Hv. pose proof (Z.mod_pos_bound v 65536). assert (v / 65536 < 65536) by (apply Z.div_lt_upper_bound; lia).
    rewrite (proj2 (checked_add_Some 32 _ _ (v mod 65536 + v / 65536))) by (unfold u_max; lia). done. }
  assert (∀ fuel w, 0 ≤ w ≤ 65535 → fold_carries fuel w = Some (ones_sum w)) as Hstop.
  { intros fuel v Hv. destruct fuel; simpl; (destruct (Z.ltb_spec 65535 v); [lia|]); by rewrite ones_sum_small. }
  intros Hw. pose proof Hw as [H0 H1]. unfold u_max in H1. destruct (decide (w ≤ 65535)); [apply Hstop; lia|].
  rewrite Hturn by (done || lia). rewrite <-(ones_sum_turn w) by done. set (v := w mod 65536 + w / 65536).
  assert (0 ≤ v ≤ 131070) as Hv.
  { subst v. pose proof (Z.mod_pos_bound w 65536). assert (0 ≤ w / 65536) by (apply Z.div_pos; lia).
    assert (w / 65536 < 65536) by (apply Z.div_lt_upper_bound; lia). lia. }
  destruct (decide (v ≤ 65535)); [apply Hstop; lia|]. rewrite Hturn by (unfold in_u, u_max; lia).
  rewrite <-(ones_sum_turn v) by lia. apply Hstop. assert (v / 65536 = 1) as -> by (symmetry; apply Z.div_unique with (v - 65536); lia).
  rewrite Z.mod_eq by lia. assert (v / 65536 = 1) as -> by (symmetry; apply Z.div_unique with (v - 65536); lia). lia.
Qed.

Lemma ones_sum_range w : 0 ≤ w → 0 ≤ ones_sum w ≤ 65535.
Proof. intros Hw. unfold ones_sum. destruct (Z.eqb_spec w 0); [lia|]. pose proof (Z.mod_pos_bound (w - 1) 65535). lia. Qed.

Lemma checksum_concat parts : checksum parts = checksum [concat parts].
Proof. unfold checksum. rewrite !foldl_parts. simpl. by rewrite app_nil_r. Qed.

Lemma checksum_spec b : bytes b → word_sum b ≤ u_max 32 → checksum [b] = Some (65535 - ones_sum (word_sum b)).
Proof.
  intros Hb Hle. unfold checksum. rewrite foldl_parts. simpl. rewrite app_nil_r.
  destruct (sum_bytes 0 None b) as (s & c & -> & Hc & Hs & E); [constructor|done|lia|done|]. simpl in E. cbn [mbind option_bind].
  pose proof (word_sum_nonneg b Hb). pose proof (word_sum_nonneg _ Hc).
  assert (∀ w, w = word_sum b → (x ← fold_carries 3 w; Some (u_not 16 (x mod 2 ^ 16))) = Some (65535 - ones_sum (word_sum b))) as Hend.
  { intros w ->. rewrite fold_carries_spec by (unfold in_u, u_max in *; lia). cbn [mbind option_bind].
    pose proof (ones_sum_range (word_sum b)). rewrite Z.mod_small, u_not_sub by (unfold in_u, u_max; lia). done. }
  destruct c as [h|]; simpl in E; [|apply Hend; lia].
  apply Forall_cons in Hc as [Hh _]. rewrite from_be16_eq by (done || (unfold in_u, u_max; lia)). destruct Hh.
  rewrite (proj2 (checked_add_Some 32 s (h * 256 + 0) (s + (h * 256 + 0)))) by lia. apply Hend. lia.
Qed.

(** Sums of up to 131074 bytes do not overflow. *)
Lemma word_sum_fits b : bytes b → Z.of_nat (length b) ≤ 131074 → word_sum b ≤ u_max 32.
Proof.
  intros Hb Hl. pose proof (word_sum_bound b Hb) as Hw. rewrite Nat.div2_div, Nat2Z.inj_div in Hw.
  assert (Z.of_nat (S (length b)) / Z.of_nat 2 < 65538) by (apply Z.div_lt_upper_bound; lia). unfold u_max. lia.
Qed.

Lemma ones_sum_full w : 0 ≤ w → ones_sum w = 65535 ↔ 0 < w ∧ w mod 65535 = 0.
Proof.
  intros Hw. unfold ones_sum. destruct (Z.eqb_spec w 0); [lia|]. pose proof (Z.mod_pos_bound (w - 1) 65535).
  pose proof (Z.div_mod (w - 1) 65535). split.
  - intros E. split; [lia|]. symmetry. apply Z.mod_unique with ((w - 1) / 65535 + 1); lia.
  - intros [_ E]. apply Z.mod_divide in E as [k ->]; [|lia].
    assert ((k * 65535 - 1) mod 65535 = 65534) as ->; [|lia]. symmetry. apply Z.mod_unique with (k - 1); lia.
Qed.

Lemma ones_sum_mod w : 0 ≤ w → ones_sum w mod 65535 = w mod 65535.
Proof.
  intros Hw. unfold ones_sum. destruct (Z.eqb_spec w 0); [by subst|]. rewrite Z.add_mod_idemp_r by lia. f_equal. lia.
Qed.

(** A checksum of zero: the words sum to a positive multiple of 65535. *)
Lemma checksum_zero b :
  bytes b → word_sum b ≤ u_max 32 → checksum [b] = Some 0 ↔ 0 < word_sum b ∧ word_sum b mod 65535 = 0.
Proof.
  intros Hb Hle. rewrite checksum_spec by done. pose proof (word_sum_nonneg b Hb). rewrite <-ones_sum_full by done.
  pose proof (ones_sum_range (word_sum b)). split; [intros [= E]; lia|intros ->; done].
Qed.

(** A field that held zero filled with the sum's complement, or zero's other representation. *)
Lemma checksum_filled a b c :
  bytes (a ++ [0; 0] ++ b) → Nat.even (length a) = true → Z.of_nat (length (a ++ [0; 0] ++ b)) ≤ 131074 →
  (checksum [a ++ [0; 0] ++ b] = Some c ∨ (c = 65535 ∧ checksum [a ++ [0; 0] ++ b] = Some 0)) →
  in_u 16 c ∧ checksum [a ++ to_be16 c ++ b] = Some 0.
Proof.
  intros Hb He Hl Hc. set (w := word_sum (a ++ [0; 0] ++ b)).
  assert (word_sum (a ++ [0; 0] ++ b) = word_sum a + word_sum b) as Hw by (rewrite word_sum_app by done; simpl; lia).
  rewrite !Forall_app in Hb. destruct Hb as (Ha & Hz & Hb). pose proof (word_sum_nonneg a Ha). pose proof (word_sum_nonneg b Hb).
  assert (bytes (a ++ [0; 0] ++ b)) as Hall by (by rewrite !Forall_app).
  rewrite checksum_spec in Hc by (done || by apply word_sum_fits).
  assert (0 ≤ w) as Hw0 by (subst w; lia). pose proof (ones_sum_range w Hw0) as Hr. fold w in Hc.
  assert (in_u 16 c) as Hc16 by (unfold in_u, u_max; destruct Hc as [[= <-]|[-> _]]; lia). split; [done|].
  pose proof (bytes_to_be16 c Hc16) as Hcb. assert (word_sum (to_be16 c) = c) as Ec.
  { rewrite to_be16_eq. simpl. pose proof (Z.div_mod c 256). lia. }
  assert (word_sum (a ++ to_be16 c ++ b) = w + c) as Ew.
  { rewrite word_sum_app by done. rewrite (word_sum_app (to_be16 c)) by done. rewrite Ec. subst w. lia. }
  apply checksum_zero.
  - by rewrite !Forall_app.
  - apply word_sum_fits; [by rewrite !Forall_app|]. rewrite !length_app in *. simpl in *. lia.
  - rewrite Ew. destruct Hc as [[= <-]|[-> [= E]]].
    + split; [unfold ones_sum in *; destruct (Z.eqb_spec w 0); lia|].
      rewrite Z.add_sub_assoc. rewrite <-Zminus_mod_idemp_r, ones_sum_mod, Zminus_mod_idemp_r by done.
      replace (w + 65535 - w) with 65535 by lia. done.
    + split; [lia|]. assert (ones_sum w = 65535) as [_ Hm]%ones_sum_full by lia; [|done].
      rewrite Z.add_mod, Hm by lia. done.
Qed.

(** Changing one word, other than between zero's two representations, is seen. *)
Lemma checksum_detects a b x y :
  bytes (a ++ to_be16 x ++ b) → in_u 16 x → in_u 16 y → Nat.even (length a) = true →
  Z.of_nat (length (a ++ to_be16 x ++ b)) ≤ 131074 → x mod 65535 ≠ y mod 65535 →
  checksum [a ++ to_be16 x ++ b] = Some 0 → checksum [a ++ to_be16 y ++ b] ≠ Some 0.
Proof.
  intros Hb Hx Hy He Hl Hne. assert (∀ z, word_sum (to_be16 z) = z) as Ez.
  { intros z. rewrite to_be16_eq. simpl. pose proof (Z.div_mod z 256). lia. }
  rewrite !Forall_app in Hb. destruct Hb as (Ha & _ & Hb).
  assert (∀ z, in_u 16 z → checksum [a ++ to_be16 z ++ b] = Some 0 → (word_sum a + z + word_sum b) mod 65535 = 0) as Hz.
  { intros z Hz E. apply checksum_zero in E as [_ E].
    - rewrite word_sum_app, (word_sum_app (to_be16 z)), Ez in E by done. rewrite <-E. f_equal. lia.
    - rewrite !Forall_app. split_and!; [done|by apply bytes_to_be16|done].
    - apply word_sum_fits; [rewrite !Forall_app; split_and!; [done|by apply bytes_to_be16|done]|].
      rewrite !length_app in *. rewrite to_be16_eq in *. simpl in *. lia. }
  intros E1%Hz E2%Hz; [|done..]. apply Hne.
  assert ((word_sum a + x + word_sum b - (word_sum a + y + word_sum b)) mod 65535 = 0) as E by (rewrite Zminus_mod, E1, E2; done).
  replace (word_sum a + x + word_sum b - (word_sum a + y + word_sum b)) with (x - y) in E by lia.
  apply Z.mod_divide in E as [k Hk]; [|lia]. replace x with (y + k * 65535) by lia. by rewrite Z_mod_plus_full.
Qed.

(** ** Round trips *)

(** Name the bytes of a list whose length is known. *)
Ltac name_bytes b :=
  repeat match goal with
  | H : length b = S _ |- _ => destruct b as [|? b]; [discriminate H|cbn [length] in H; injection H as H]
  | H : length b = 0%nat |- _ => apply nil_length_inv in H; subst b
  end.

Lemma get_prefix buf n : (n ≤ length buf)%nat → get_range buf 0 n = Some (take n buf).
Proof. intros Hn. unfold get_range. rewrite (proj2 (Nat.leb_le _ _)) by (simpl; lia). by rewrite drop_0. Qed.

Lemma get_prefix_short buf n : (length buf < n)%nat → get_range buf 0 n = None.
Proof. intros Hn. unfold get_range. rewrite (proj2 (Nat.leb_gt _ _)) by (simpl; lia). done. Qed.

Lemma put_over a old b src : length old = length src → put (a ++ old ++ b) (length a) src = Some (a ++ src ++ b).
Proof.
  intros E. unfold put. rewrite (proj2 (Nat.leb_le _ _)) by (rewrite !length_app; lia). f_equal.
  rewrite take_app_length. do 2 f_equal. rewrite <-drop_drop, drop_app_length, <-E. apply drop_app_length.
Qed.

Lemma put_tail a old src : length old = length src → put (a ++ old) (length a) src = Some (a ++ src).
Proof. intros E. rewrite <-(app_nil_r old), put_over, app_nil_r by done. done. Qed.

(** The payload written behind eight header bytes. *)
Ltac fill_after_8 :=
  match goal with
  | |- context [put (?a :: ?b :: ?c :: ?d :: ?e :: ?f :: ?g :: ?h :: ?r) 8 ?x] =>
      assert (put (a :: b :: c :: d :: e :: f :: g :: h :: r) 8 x = Some ([a; b; c; d; e; f; g; h] ++ x)) as ->
        by (by apply (put_tail [a; b; c; d; e; f; g; h]))
  end.

Lemma write_ethernet_spec buf dst src ty :
  length dst = 6%nat → length src = 6%nat → in_u 16 ty → (14 ≤ length buf)%nat →
  write_ethernet buf dst src ty = Some ((dst ++ src ++ to_be16 ty) ++ drop 14 buf, Ok tt) ∧
  ∀ rest, parse_ethernet ((dst ++ src ++ to_be16 ty) ++ rest) =
    Ok {| eth_dst := dst; eth_src := src; ethertype := ty; eth_payload := rest |}.
Proof.
  intros Hd Hs Ht Hl. split.
  - unfold write_ethernet, on_prefix, ETH_HEADER. rewrite get_prefix by done.
    assert (length (take 14 buf) = 14%nat) as Hh by (rewrite length_take; lia). remember (take 14 buf) as h eqn:E. clear E.
    rewrite to_be16_eq. name_bytes h. name_bytes dst. name_bytes src. reflexivity.
  - intros rest. rewrite to_be16_eq. name_bytes dst. name_bytes src. unfold parse_ethernet. cbn. rewrite be16_to_be16 by done. done.
Qed.

Lemma write_arp_spec buf arp :
  length (sender_mac arp) = 6%nat → length (target_mac arp) = 6%nat →
  length (sender_ip arp) = 4%nat → length (target_ip arp) = 4%nat →
  operation arp = ARP_REQUEST ∨ operation arp = ARP_REPLY → (28 ≤ length buf)%nat →
  ∃ p, length p = 28%nat ∧ write_arp buf arp = Some (p ++ drop 28 buf, Ok 28%nat) ∧
    (∀ pad, parse_arp (p ++ pad) = Some (Ok arp)) ∧
    (bytes (sender_mac arp) → bytes (sender_ip arp) → bytes (target_mac arp) → bytes (target_ip arp) → bytes p).
Proof.
  destruct arp as [op sm si tm ti]. simpl. intros H1 H2 H3 H4 Hop Hl. unfold write_arp, on_prefix, ARP_LEN. rewrite get_prefix by done.
  assert (length (take 28 buf) = 28%nat) as Hh by (rewrite length_take; lia). remember (take 28 buf) as h eqn:E. clear E.
  rewrite !to_be16_eq. name_bytes h. name_bytes sm. name_bytes si. name_bytes tm. name_bytes ti.
  eexists. split; [|split; [reflexivity|]]; [reflexivity|].
  split.
  - intros pad. unfold parse_arp. cbn. rewrite (be16_to_be16 op) by (unfold in_u, u_max; destruct Hop as [-> | ->]; unfold ARP_REQUEST, ARP_REPLY; lia).
    destruct Hop as [-> | ->]; reflexivity.
  - cbn [take drop app length Nat.add operation sender_mac sender_ip target_mac target_ip]. rewrite !Forall_cons. intros. destruct_and?. destruct Hop as [-> | ->]; split_and!; try done; by unfold in_u, u_max.
Qed.

#[local] Arguments checksum : simpl never.
#[local] Arguments from_be16 : simpl never.
#[local] Arguments Nat.leb : simpl nomatch.

Lemma in_u8_lt x : 0 ≤ x ≤ 255 → in_u 8 x.
Proof. unfold in_u, u_max. lia. Qed.

(** The IPv4 header before its checksum is filled in. *)
Definition ipv4_front (total id proto : Z) : Bytes := [0x45; 0] ++ to_be16 total ++ to_be16 id ++ to_be16 IPV4_DF ++ [64; proto].
Definition ipv4_header (total id proto sum : Z) (src dst : Ipv4Addr) : Bytes :=
  ipv4_front total id proto ++ to_be16 sum ++ src ++ dst.

Lemma bytes_ipv4_front total id proto : in_u 16 total → in_u 16 id → in_u 8 proto → bytes (ipv4_front total id proto).
Proof.
  intros. unfold ipv4_front. rewrite !Forall_app. split_and!; try (by apply bytes_to_be16).
  - repeat constructor; by apply in_u8_lt.
  - constructor; [by apply in_u8_lt|by constructor].
Qed.

Lemma write_ipv4_spec buf src dst proto id len :
  length src = 4%nat → length dst = 4%nat → bytes src → bytes dst → in_u 8 proto → in_u 16 id →
  Z.of_nat (20 + len) ≤ u_max 16 → (20 ≤ length buf)%nat →
  ∃ h, length h = 20%nat ∧ bytes h ∧ write_ipv4 buf src dst proto id len = Some (h ++ drop 20 buf, Ok 20%nat) ∧
    ∀ payload pad, length payload = len →
      parse_ipv4 (h ++ payload ++ pad) =
      Some (Ok {| ip_src := src; ip_dst := dst; protocol := proto; ttl := 64; ip_payload := payload |}).
Proof.
  intros Hs Hd Hbs Hbd Hp Hi Hlen Hl. set (total := Z.of_nat (20 + len)) in *.
  assert (in_u 16 total) as Ht by (unfold in_u, total in *; lia).
  pose proof (bytes_ipv4_front total id proto Ht Hi Hp) as Hf.
  assert (bytes (ipv4_front total id proto ++ [0; 0] ++ src ++ dst)) as Hall.
  { rewrite !Forall_app. split_and!; [done|repeat constructor; by apply in_u8_lt|done..]. }
  assert (length (ipv4_front total id proto ++ [0; 0] ++ src ++ dst) = 20%nat) as Hall20 by (rewrite !length_app, Hs, Hd; done).
  assert (word_sum (ipv4_front total id proto ++ [0; 0] ++ src ++ dst) ≤ u_max 32) as Hfit by (apply word_sum_fits; [done|rewrite Hall20; lia]).
  pose proof (checksum_spec _ Hall Hfit) as Hc. set (c := 65535 - _) in Hc.
  destruct (checksum_filled (ipv4_front total id proto) (src ++ dst) c) as [Hc16 Hv]; [done|done|rewrite Hall20; lia|by left|].
  exists (ipv4_header total id proto c src dst). split_and!.
  - unfold ipv4_header. rewrite !length_app, Hs, Hd. done.
  - unfold ipv4_header. rewrite !Forall_app. split_and!; [done|by apply bytes_to_be16|done..].
  - unfold write_ipv4. fold total. change (IPV4_HEADER + len)%nat with (20 + len)%nat. fold total.
    destruct (Z.ltb_spec u16_MAX total); [unfold total in *; lia|]. unfold on_prefix, IPV4_HEADER. rewrite get_prefix by done.
    assert (length (take 20 buf) = 20%nat) as Hh by (rewrite length_take; lia). remember (take 20 buf) as h eqn:E. clear E.
    clearbody c. unfold ipv4_header, ipv4_front in *. rewrite !to_be16_eq in *. clear Hall Hall20 Hfit Hf Hv Hbs Hbd.
    name_bytes h. name_bytes src. name_bytes dst. cbn in Hc |- *. rewrite Hc. cbn. by rewrite shiftr_8, land_255.
  - intros payload pad Hpl. unfold parse_ipv4, parse_ipv4_part. unfold ipv4_header in *.
    set (p := (ipv4_front total id proto ++ to_be16 c ++ src ++ dst) ++ payload ++ pad).
    assert (length p = (20 + (len + length pad))%nat) as Hlp by (unfold p; rewrite !length_app, Hs, Hd, Hpl; cbn; lia).
    assert (take 20 p = ipv4_front total id proto ++ to_be16 c ++ src ++ dst) as Htk.
    { unfold p. apply take_app_length'. rewrite !length_app, Hs, Hd. done. }
    assert (drop 20 p = payload ++ pad) as Hdp.
    { unfold p. apply drop_app_length'. rewrite !length_app, Hs, Hd. done. }
    assert (be16 p 2 = Some total) as E2.
    { unfold p, ipv4_front. rewrite !to_be16_eq. cbn. by rewrite be16_to_be16. }
    assert (be16 p 6 = Some IPV4_DF) as E6 by (unfold p, ipv4_front; rewrite !to_be16_eq; reflexivity).
    assert (p !! 0%nat = Some 0x45 ∧ p !! 8%nat = Some 64 ∧ p !! 9%nat = Some proto) as (E0 & E8 & E9).
    { unfold p, ipv4_front. rewrite !to_be16_eq. done. }
    assert (ip_at p 12 = Some src ∧ ip_at p 16 = Some dst) as [E12 E16].
    { unfold p, ipv4_front. rewrite !to_be16_eq. clear -Hs Hd. name_bytes src. name_bytes dst. done. }
    rewrite E0. change (negb (Z.shiftr 69 4 =? 4)) with false. cbv iota.
    change (Z.to_nat (Z.land 69 15) * 4)%nat with 20%nat. unfold IPV4_HEADER.
    destruct (Nat.ltb_spec (length p) 20); [lia|]. change ((20 <? 20)%nat || false) with false. cbv iota.
    rewrite E2. cbv zeta. replace (Z.to_nat total) with (20 + len)%nat by (unfold total; lia).
    destruct (Nat.ltb_spec (20 + len) 20); [lia|]. destruct (Nat.ltb_spec (length p) (20 + len)); [lia|]. cbn [orb].
    rewrite Htk, Hv. cbn [mbind option_bind]. change (negb (0 =? 0)) with false. cbv iota.
    rewrite E6, E8, E9, E12, E16, Hdp. replace (20 + len - 20)%nat with len by lia.
    rewrite take_app_length' by done. reflexivity.
Qed.

Lemma take_prefix_length (buf : Bytes) n : (n ≤ length buf)%nat → length (take n buf) = n.
Proof. intros. rewrite length_take. lia. Qed.

Lemma write_icmp_echo_spec buf kind id seq data :
  kind = ICMP_ECHO_REQUEST ∨ kind = ICMP_ECHO_REPLY → in_u 16 id → in_u 16 seq → bytes data →
  Z.of_nat (8 + length data) ≤ 131074 → (8 + length data ≤ length buf)%nat →
  ∃ m, length m = (8 + length data)%nat ∧ bytes m ∧
    write_icmp_echo buf kind id seq data = Some (m ++ drop (8 + length data) buf, Ok (8 + length data)%nat) ∧
    parse_icmp_echo m = Some (Ok {| echo_kind := kind; echo_id := id; echo_seq := seq; echo_data := data |}).
Proof.
  intros Hk Hi Hq Hbd Hsz Hl. set (tail := to_be16 id ++ to_be16 seq ++ data).
  assert (in_u 8 kind) as Hk8 by (apply in_u8_lt; destruct Hk as [-> | ->]; unfold ICMP_ECHO_REPLY, ICMP_ECHO_REQUEST; lia).
  assert (bytes [kind; 0]) as Hfr by (constructor; [done|by constructor]).
  assert (bytes tail) as Htl by (unfold tail; rewrite !Forall_app; split_and!; by try apply bytes_to_be16).
  assert (bytes ([kind; 0] ++ [0; 0] ++ tail)) as Hall by (rewrite !Forall_app; split_and!; [done|by repeat constructor|done]).
  assert (length tail = (4 + length data)%nat) as Htlen by (unfold tail; by rewrite !length_app).
  assert (Z.of_nat (length ([kind; 0] ++ [0; 0] ++ tail)) ≤ 131074) as Hfl by (rewrite !length_app, Htlen; cbn [length]; lia).
  pose proof (checksum_spec _ Hall (word_sum_fits _ Hall Hfl)) as Hc. set (c := 65535 - _) in Hc.
  destruct (checksum_filled [kind; 0] tail c Hall eq_refl Hfl) as [Hc16 Hv]; [by left|]. clearbody c.
  exists ([kind; 0] ++ to_be16 c ++ tail). split_and!.
  - rewrite !length_app, Htlen. cbn [length to_be16]. lia.
  - rewrite !Forall_app. split_and!; [done|by apply bytes_to_be16|done].
  - unfold write_icmp_echo, on_prefix, ICMP_HEADER. cbv zeta. rewrite get_prefix by done.
    pose proof (take_prefix_length buf _ Hl) as Hh. remember (take (8 + length data) buf) as h eqn:E. clear E.
    unfold tail in *. rewrite !to_be16_eq in *. cbn [Nat.add] in Hh. name_bytes h. cbn. rewrite drop_0. fill_after_8. cbn in Hc |- *. rewrite Hc. cbn. by rewrite shiftr_8, land_255.
  - unfold parse_icmp_echo. rewrite Hv. unfold tail. rewrite !to_be16_eq. cbn.
    rewrite !be16_to_be16 by done. destruct Hk as [-> | ->]; reflexivity.
Qed.

(** UDP's checksum covers the pseudo-header in front of the datagram. *)
Lemma bytes_pseudo src dst proto len : bytes src → bytes dst → in_u 8 proto → in_u 16 len → bytes (pseudo_header src dst proto len).
Proof.
  intros. unfold pseudo_header. rewrite !Forall_app. split_and!; [done|done| |by apply bytes_to_be16].
  constructor; [by apply in_u8_lt|by constructor].
Qed.

Lemma write_udp_spec buf src dst sp dp payload :
  length src = 4%nat → length dst = 4%nat → bytes src → bytes dst → in_u 16 sp → in_u 16 dp → bytes payload →
  Z.of_nat (8 + length payload) ≤ u_max 16 → (8 + length payload ≤ length buf)%nat →
  ∃ d, length d = (8 + length payload)%nat ∧ bytes d ∧
    write_udp buf src dst sp dp payload = Some (d ++ drop (8 + length payload) buf, Ok (8 + length payload)%nat) ∧
    ∀ pad, parse_udp (d ++ pad) src dst = Some (Ok {| udp_src_port := sp; udp_dst_port := dp; udp_payload := payload |}).
Proof.
  intros Hs Hd Hbs Hbd Hsp Hdp Hbp Hsz Hl. set (len := Z.of_nat (8 + length payload)) in *.
  assert (in_u 16 len) as Hlen by (unfold in_u, len in *; lia).
  set (ps := pseudo_header src dst PROTO_UDP len).
  assert (bytes ps) as Hps by (apply bytes_pseudo; try done; by apply in_u8_lt).
  assert (length ps = 12%nat) as Hpl by (unfold ps, pseudo_header; by rewrite !length_app, Hs, Hd).
  set (front := to_be16 sp ++ to_be16 dp ++ to_be16 len).
  assert (bytes front) as Hfr by (unfold front; rewrite !Forall_app; split_and!; by apply bytes_to_be16).
  assert (bytes ((ps ++ front) ++ [0; 0] ++ payload)) as Hall.
  { rewrite !Forall_app. split_and!; [done|done|by repeat constructor|done]. }
  assert (Z.of_nat (length ((ps ++ front) ++ [0; 0] ++ payload)) ≤ 131074) as Hfl.
  { rewrite !length_app, Hpl. unfold len, u_max in Hsz. simpl. lia. }
  assert (Nat.even (length (ps ++ front)) = true) as Hev by (by rewrite !length_app, Hpl).
  pose proof (checksum_spec _ Hall (word_sum_fits _ Hall Hfl)) as Hc. set (c := 65535 - _) in Hc.
  set (c' := if c =? 0 then 0xffff else c).
  destruct (checksum_filled (ps ++ front) payload c' Hall Hev Hfl) as [Hc16 Hv].
  { unfold c'. destruct (Z.eqb_spec c 0) as [E|E]; [right; split; [done|by rewrite Hc, E]|by left]. }
  assert (c' ≠ 0) as Hc0 by (unfold c'; by destruct (Z.eqb_spec c 0)). clearbody c.
  exists (front ++ to_be16 c' ++ payload). split_and!.
  - unfold front. rewrite !length_app. simpl. lia.
  - rewrite !Forall_app. split_and!; [done|by apply bytes_to_be16|done].
  - unfold write_udp. change (UDP_HEADER + length payload)%nat with (8 + length payload)%nat. fold len.
    destruct (Z.ltb_spec u16_MAX len); [lia|]. unfold on_prefix. rewrite get_prefix by done. fold ps.
    assert (checksum [ps; front ++ [0; 0] ++ payload] = Some c) as Hc2.
    { rewrite checksum_concat. simpl. rewrite app_nil_r. rewrite <-Hc. by rewrite <-!(assoc_L (++)). }
    pose proof (take_prefix_length buf _ Hl) as Hh. remember (take (8 + length payload) buf) as h eqn:E. clear E Hc Hv Hall Hfl Hev Hps Hpl.
    clearbody ps. unfold front in *. rewrite !to_be16_eq in *. clear Hfr. cbn [Nat.add] in Hh. name_bytes h. cbn. unfold UDP_HEADER. rewrite drop_0. fill_after_8. cbn in Hc2 |- *. rewrite Hc2. cbn. fold c'. by rewrite shiftr_8, land_255.
  - intros pad. unfold parse_udp. set (p := (front ++ to_be16 c' ++ payload) ++ pad).
    assert (length p = (8 + (length payload + length pad))%nat) as Hlp by (unfold p, front; rewrite !length_app; simpl; lia).
    assert (be16 p 0 = Some sp ∧ be16 p 2 = Some dp ∧ be16 p 4 = Some len ∧ be16 p 6 = Some c') as (E0 & E2 & E4 & E6).
    { unfold p, front. rewrite !to_be16_eq. cbn. by rewrite !be16_to_be16. }
    assert (take (8 + length payload) p = front ++ to_be16 c' ++ payload) as Htk.
    { unfold p. apply take_app_length'. unfold front. rewrite !length_app. simpl. lia. }
    assert (drop 8 p = payload ++ pad) as Hdr by (unfold p, front; by rewrite !to_be16_eq).
    unfold UDP_HEADER. destruct (Nat.ltb_spec (length p) 8); [lia|]. rewrite E4. cbv zeta.
    replace (Z.to_nat len) with (8 + length payload)%nat by (unfold len; lia).
    destruct (Nat.ltb_spec (8 + length payload) 8); [lia|]. destruct (Nat.ltb_spec (length p) (8 + length payload)); [lia|]. cbn [orb].
    rewrite E6. destruct (Z.eqb_spec c' 0); [done|]. rewrite Htk. fold ps.
    assert (checksum [ps; front ++ to_be16 c' ++ payload] = Some 0) as ->.
    { rewrite checksum_concat. simpl. rewrite app_nil_r. rewrite <-Hv. by rewrite <-!(assoc_L (++)). }
    cbn [mbind option_bind]. change (negb (0 =? 0)) with false. cbv iota. rewrite E0, E2, Hdr.
    replace (8 + length payload - 8)%nat with (length payload) by lia. by rewrite take_app_length.
Qed.

(** *** TCP *)

Definition block_bytes (b : Z * Z) : Bytes := to_be32 b.1 ++ to_be32 b.2.
Definition mss_bytes (mss : option Z) : Bytes := match mss with Some m => [TCP_OPT_MSS; 4] ++ to_be16 m | None => [] end.
Definition permitted_bytes (permitted : bool) : Bytes :=
  if permitted then [TCP_OPT_NOP; TCP_OPT_NOP; TCP_OPT_SACK_PERMITTED; 2] else [].
Definition sack_bytes (blocks : list (Z * Z)) : Bytes :=
  if (0 <? length blocks)%nat
  then [TCP_OPT_NOP; TCP_OPT_NOP; TCP_OPT_SACK; 2 + 8 * Z.of_nat (length blocks)] ++ concat (block_bytes <$> blocks) else [].
Definition option_bytes (mss : option Z) (permitted : bool) (blocks : list (Z * Z)) : Bytes :=
  mss_bytes mss ++ permitted_bytes permitted ++ sack_bytes blocks.

(** The header in front of the checksum, and the whole segment. *)
Definition tcp_front (h : TcpHeader) (header : nat) : Bytes :=
  to_be16 (h_src_port h) ++ to_be16 (h_dst_port h) ++ to_be32 (h_seq h) ++ to_be32 (h_ack h) ++
  [Z.of_nat (header / 4) * 16; h_flags h] ++ to_be16 (h_window h).
Definition tcp_segment (h : TcpHeader) (sum : Z) (payload : Bytes) : Bytes :=
  tcp_front h (tcp_header_len h) ++ to_be16 sum ++ [0; 0] ++
  option_bytes (h_mss h) (h_sack_permitted h) (blocks_of h) ++ payload.

Record tcp_header_ok (h : TcpHeader) : Prop := {
  ok_src_port : in_u 16 (h_src_port h);
  ok_dst_port : in_u 16 (h_dst_port h);
  ok_seq : in_u 32 (h_seq h);
  ok_ack : in_u 32 (h_ack h);
  ok_flags : in_u 8 (h_flags h);
  ok_window : in_u 16 (h_window h);
  ok_mss : ∀ m, h_mss h = Some m → in_u 16 m;
  ok_sack : length (h_sack h) = SACK_BLOCKS;
  ok_blocks : Forall (λ b, in_u 32 b.1 ∧ in_u 32 b.2) (blocks_of h);
}.

Lemma length_block_bytes blocks : length (concat (block_bytes <$> blocks)) = (8 * length blocks)%nat.
Proof. induction blocks as [|b l IH]; [done|]. rewrite fmap_cons. cbn [concat]. rewrite length_app, IH. change (length (block_bytes b)) with 8%nat. cbn [length]. lia. Qed.

Lemma length_sack_bytes bs : length (sack_bytes bs) = (if (0 <? length bs) then 4 + 8 * length bs else 0)%nat.
Proof. unfold sack_bytes. case_match; [|done]. rewrite length_app, length_block_bytes. done. Qed.

Lemma option_bytes_le mss permitted blocks : (length blocks ≤ 3)%nat → (length (option_bytes mss permitted blocks) ≤ 36)%nat.
Proof.
  intros Hb. unfold option_bytes. rewrite !length_app, length_sack_bytes.
  destruct mss, permitted, (0 <? length blocks)%nat; cbn [mss_bytes permitted_bytes length app to_be16]; lia.
Qed.

Lemma tcp_header_len_eq h :
  length (h_sack h) = SACK_BLOCKS →
  (length (blocks_of h) ≤ 3)%nat ∧
  tcp_header_len h = (20 + length (option_bytes (h_mss h) (h_sack_permitted h) (blocks_of h)))%nat.
Proof.
  intros E. destruct (h_sack h) as [|x [|y [|z [|]]]] eqn:Es; try discriminate. unfold tcp_header_len, blocks_of. rewrite Es.
  split; [destruct x, y, z; simpl; lia|]. unfold option_bytes. rewrite !length_app, length_sack_bytes.
  destruct (h_mss h), (h_sack_permitted h), x, y, z; reflexivity.
Qed.

Lemma put_next a rest at_ src :
  at_ = length a → (length src ≤ length rest)%nat →
  put (a ++ rest) at_ src = Some ((a ++ src) ++ drop (length src) rest).
Proof.
  intros -> Hl. rewrite <-(take_drop (length src) rest) at 1. rewrite put_over by (rewrite length_take; lia).
  by rewrite (assoc_L (++)).
Qed.

Lemma write_blocks_spec a rest at_ blocks :
  at_ = length a → (8 * length blocks ≤ length rest)%nat →
  write_blocks (a ++ rest) at_ blocks = Some ((a ++ concat (block_bytes <$> blocks)) ++ drop (8 * length blocks) rest).
Proof.
  revert a rest at_. induction blocks as [|[s e] l IH]; intros a rest at_ Hat Hl.
  { simpl. by rewrite app_nil_r, drop_0. }
  cbn [write_blocks length] in *. rewrite put_next by (done || (simpl; lia)). cbn [mbind option_bind].
  rewrite put_next by (rewrite ?length_app, ?length_drop; simpl; lia). cbn [mbind option_bind].
  rewrite IH by (rewrite ?length_app, ?length_drop; simpl; lia). f_equal. rewrite fmap_cons. cbn [concat].
  change (block_bytes (s, e)) with (to_be32 s ++ to_be32 e). rewrite !drop_drop, !(assoc_L (++)). f_equal. f_equal. cbn [length to_be32]. lia.
Qed.

Ltac put_step :=
  match goal with
  | |- context [put (?a ++ ?r) ?i ?src] =>
      rewrite (put_next a r i src) by (rewrite ?length_app, ?length_drop; cbn [length to_be16 to_be32]; lia);
      cbn [mbind option_bind]; rewrite ?drop_drop
  end.

Lemma header_byte header : (header ≤ 60)%nat → shl 8 (Z.of_nat (header / 4) mod 2 ^ 8) 4 = Z.of_nat (header / 4) * 16.
Proof.
  intros Hh. assert (header / 4 ≤ 15)%nat by (apply Nat.Div0.div_le_upper_bound; lia). unfold shl.
  rewrite (Z.mod_small (Z.of_nat (header / 4))) by lia. rewrite Z.shiftl_mul_pow2 by lia. rewrite Z.mod_small; lia.
Qed.

Lemma write_fixed_spec s h header :
  (20 ≤ length s)%nat → (header ≤ 60)%nat → write_fixed s h header = Some ((tcp_front h header ++ [0; 0; 0; 0]) ++ drop 20 s).
Proof.
  intros Hl Hh. unfold write_fixed. rewrite header_byte by done. rewrite <-(app_nil_l s) at 1. do 8 put_step.
  reflexivity.
Qed.

Lemma write_mss_spec a rest at_ mss :
  at_ = length a → (length (mss_bytes mss) ≤ length rest)%nat →
  write_mss (a ++ rest) at_ mss = Some ((a ++ mss_bytes mss) ++ drop (length (mss_bytes mss)) rest, length (a ++ mss_bytes mss)).
Proof.
  intros Ha Hl. unfold write_mss, mss_bytes in *. destruct mss as [m|]; cbn [length app to_be16] in *.
  - do 3 put_step. cbn [length to_be16 Nat.add]. rewrite <-!(assoc_L (++)), !length_app. cbn. do 2 f_equal. lia.
  - by rewrite app_nil_r, drop_0, Ha.
Qed.

Lemma write_permitted_spec a rest at_ permitted :
  at_ = length a → (length (permitted_bytes permitted) ≤ length rest)%nat →
  write_permitted (a ++ rest) at_ permitted =
    Some ((a ++ permitted_bytes permitted) ++ drop (length (permitted_bytes permitted)) rest, length (a ++ permitted_bytes permitted)).
Proof.
  intros Ha Hl. unfold write_permitted, permitted_bytes in *. destruct permitted; cbn [length app] in *.
  - do 4 put_step. cbn [length Nat.add]. rewrite <-!(assoc_L (++)), !length_app. cbn. do 2 f_equal. lia.
  - by rewrite app_nil_r, drop_0, Ha.
Qed.

Lemma write_sack_spec a rest at_ blocks :
  at_ = length a → (length (sack_bytes blocks) ≤ length rest)%nat → (length blocks ≤ 3)%nat →
  write_sack (a ++ rest) at_ blocks = Some ((a ++ sack_bytes blocks) ++ drop (length (sack_bytes blocks)) rest).
Proof.
  intros Ha Hl Hb. rewrite length_sack_bytes in *. unfold write_sack, sack_bytes in *.
  destruct (0 <? length blocks)%nat; [|by rewrite app_nil_r, drop_0].
  do 4 put_step. rewrite write_blocks_spec by (rewrite ?length_app, ?length_drop; cbn [length]; lia).
  rewrite drop_drop. rewrite Z.mod_small by lia. f_equal. rewrite <-!(assoc_L (++)). cbn [app]. do 3 f_equal.
Qed.

Lemma lookup_past (pre l : Bytes) at_ i : at_ = (length pre + i)%nat → (pre ++ l) !! at_ = l !! i.
Proof. intros ->. rewrite lookup_app_r by lia. f_equal. lia. Qed.

Lemma be16_at pre x post at_ : at_ = length pre → in_u 16 x → be16 (pre ++ to_be16 x ++ post) at_ = Some x.
Proof.
  intros -> Hx. unfold be16. rewrite (lookup_past pre _ (length pre) 0), (lookup_past pre _ (length pre + 1) 1) by lia. rewrite to_be16_eq. simpl.
  by rewrite be16_to_be16.
Qed.

Lemma be32_at pre x post at_ : at_ = length pre → in_u 32 x → be32 (pre ++ to_be32 x ++ post) at_ = Some x.
Proof.
  intros -> Hx. unfold be32, get_range. rewrite to_be32_eq by apply Hx.
  rewrite (proj2 (Nat.leb_le _ _)) by (rewrite !length_app; cbn [length]; lia).
  rewrite drop_app_length. cbn [app take]. by rewrite be32_to_be32.
Qed.

Lemma read_nop fuel p offset at_ o :
  p !! at_ = Some TCP_OPT_NOP → (at_ < offset)%nat → read_options (S fuel) p offset at_ o = read_options fuel p offset (at_ + 1) o.
Proof. intros Hp Hat. cbn [read_options]. rewrite (proj2 (Nat.ltb_lt _ _)) by done. by rewrite Hp. Qed.

Lemma read_one fuel p offset at_ o kind n :
  p !! at_ = Some kind → p !! (at_ + 1)%nat = Some (Z.of_nat n) → 1 < kind → (2 ≤ n)%nat → (at_ + n ≤ offset)%nat →
  read_options (S fuel) p offset at_ o = read_options fuel p offset (at_ + n) (read_option p at_ n kind o).
Proof.
  intros Hk Hn Hkd H2 Hle. cbn [read_options]. rewrite (proj2 (Nat.ltb_lt _ _)) by lia. rewrite Hk. cbn [mbind option_bind].
  unfold TCP_OPT_END, TCP_OPT_NOP. destruct (Z.eqb_spec kind 0); [lia|]. destruct (Z.eqb_spec kind 1); [lia|].
  rewrite Hn, Nat2Z.id. destruct (Nat.ltb_spec n 2); [lia|]. destruct (Nat.ltb_spec offset (at_ + n)); [lia|]. done.
Qed.

Lemma read_end fuel p offset o : read_options fuel p offset offset o = Some (Ok o).
Proof. destruct fuel; cbn [read_options]; by rewrite Nat.ltb_irrefl. Qed.

Lemma read_mss p pre mss post offset fuel o :
  p = pre ++ mss_bytes mss ++ post → (∀ m, mss = Some m → in_u 16 m) → (length (pre ++ mss_bytes mss) ≤ offset)%nat →
  read_options ((if mss then 1 else 0) + fuel) p offset (length pre) o =
  read_options fuel p offset (length (pre ++ mss_bytes mss))
    {| o_mss := if mss then mss else o_mss o; o_permitted := o_permitted o; o_sack := o_sack o |}.
Proof.
  intros Hp Hm Hl. rewrite length_app in *. destruct mss as [m|]; cbn [mss_bytes Nat.add length app to_be16] in *;
    [|rewrite Nat.add_0_r; by destruct o].
  rewrite (read_one fuel p offset (length pre) o 2 4); [|by rewrite Hp, (lookup_past pre _ _ 0) by lia|
    by rewrite Hp, (lookup_past pre _ _ 1) by lia|lia..].
  f_equal. unfold read_option. f_equal. change ((2 =? TCP_OPT_MSS) && (4 =? 4)%nat) with true. cbv iota. rewrite Hp.
  change (be16 (pre ++ [2; 4] ++ to_be16 m ++ post) (length pre + 2) = Some m). rewrite (assoc_L (++)).
  apply be16_at; [rewrite length_app; cbn; lia|by apply Hm].
Qed.

Lemma read_permitted p pre permitted post offset fuel o :
  p = pre ++ permitted_bytes permitted ++ post → (length (pre ++ permitted_bytes permitted) ≤ offset)%nat →
  read_options ((if permitted then 3 else 0) + fuel) p offset (length pre) o =
  read_options fuel p offset (length (pre ++ permitted_bytes permitted))
    {| o_mss := o_mss o; o_permitted := if permitted then true else o_permitted o; o_sack := o_sack o |}.
Proof.
  intros Hp Hl. rewrite length_app in *. destruct permitted; cbn [permitted_bytes Nat.add length app] in *;
    [|rewrite Nat.add_0_r; by destruct o].
  rewrite read_nop by (lia || by rewrite Hp, (lookup_past pre _ _ 0) by lia).
  rewrite read_nop by (lia || by rewrite Hp, (lookup_past pre _ _ 1) by lia).
  rewrite (read_one fuel p offset _ o 4 2); [|by rewrite Hp, (lookup_past pre _ _ 2) by lia|by rewrite Hp, (lookup_past pre _ _ 3) by lia|lia..].
  f_equal. lia.
Qed.

Lemma read_blocks_spec p at_ n i blocks pre post j :
  p = pre ++ concat (block_bytes <$> blocks) ++ post → length pre = (at_ + 2 + i * 8)%nat →
  n = (2 + 8 * (i + length blocks))%nat → (length blocks ≤ j)%nat → Forall (λ b, in_u 32 b.1 ∧ in_u 32 b.2) blocks →
  read_blocks p at_ n i (replicate j None) = (Some <$> blocks) ++ replicate (j - length blocks) None.
Proof.
  revert i pre j. induction blocks as [|[x y] l IH]; intros i pre j Hp Hpre Hn Hj Hb.
  { rewrite Nat.sub_0_r. destruct j as [|j]; [done|]. cbn [read_blocks replicate length] in *.
    destruct (Nat.ltb_spec (at_ + n) (at_ + 2 + i * 8 + 8)); [done|lia]. }
  destruct j as [|j]; [simpl in Hj; lia|]. cbn [read_blocks replicate length] in *. apply Forall_cons in Hb as [[Hx Hy] Hb].
  simpl in Hx, Hy. rewrite fmap_cons in Hp. cbn [concat] in Hp. change (block_bytes (x, y)) with (to_be32 x ++ to_be32 y) in Hp.
  destruct (Nat.ltb_spec (at_ + n) (at_ + 2 + i * 8 + 8)); [lia|].
  assert (be32 p (at_ + 2 + i * 8) = Some x) as ->.
  { rewrite Hp, <-!(assoc_L (++)). by apply be32_at. }
  assert (be32 p (at_ + 2 + i * 8 + 4) = Some y) as ->.
  { rewrite Hp, <-!(assoc_L (++)), (assoc_L (++) pre). apply be32_at; [|done]. rewrite length_app. cbn [length to_be32]. lia. }
  rewrite fmap_cons. cbn [app]. f_equal. replace (S j - S (length l))%nat with (j - length l)%nat by lia.
  apply (IH (i + 1)%nat (pre ++ to_be32 x ++ to_be32 y) j); [|rewrite !length_app; cbn [length to_be32]; lia|lia|lia|done].
  rewrite Hp. by rewrite <-!(assoc_L (++)).
Qed.

Lemma read_sack p pre blocks post offset fuel o :
  p = pre ++ sack_bytes blocks ++ post → (length (pre ++ sack_bytes blocks) ≤ offset)%nat →
  (length blocks ≤ 3)%nat → Forall (λ b, in_u 32 b.1 ∧ in_u 32 b.2) blocks → o_sack o = replicate 3 None →
  read_options ((if (0 <? length blocks)%nat then 3 else 0) + fuel) p offset (length pre) o =
  read_options fuel p offset (length (pre ++ sack_bytes blocks))
    {| o_mss := o_mss o; o_permitted := o_permitted o; o_sack := (Some <$> blocks) ++ replicate (3 - length blocks) None |}.
Proof.
  intros Hp Hl Hb Hbs Ho. rewrite length_app, length_sack_bytes in *. unfold sack_bytes in Hp.
  destruct (Nat.ltb_spec 0 (length blocks)) as [Hpos|Hpos].
  - cbn [Nat.add]. rewrite read_nop by (lia || by rewrite Hp, (lookup_past pre _ _ 0) by lia).
  rewrite read_nop by (lia || by rewrite Hp, (lookup_past pre _ _ 1) by lia).
    rewrite (read_one fuel p offset _ o 5 (2 + 8 * length blocks)); [|by rewrite Hp, (lookup_past pre _ _ 2) by lia| |lia..].
    + f_equal; [lia|]. unfold read_option. rewrite Ho.
      change (5 =? TCP_OPT_SACK) with true. rewrite (proj2 (Nat.leb_le 10 _)) by lia.
      replace (2 + 8 * length blocks - 2)%nat with (length blocks * 8)%nat by lia. rewrite Nat.Div0.mod_mul.
      change (5 =? TCP_OPT_MSS) with false. change (5 =? TCP_OPT_SACK_PERMITTED) with false. cbn [andb Nat.eqb]. f_equal.
      rewrite <-(assoc_L (++)) in Hp. rewrite (assoc_L (++)) in Hp. by eapply read_blocks_spec; [exact Hp|rewrite length_app; cbn; lia|lia|lia|].
    + rewrite Hp, (lookup_past pre _ _ 3) by lia. cbn. f_equal. lia.
  - assert (blocks = []) as -> by (destruct blocks; [done|simpl in Hpos; lia]). cbn. rewrite Nat.add_0_r. f_equal.
    destruct o. simpl in *. by rewrite Ho.
Qed.

Lemma read_options_spec front mss permitted blocks payload :
  length front = 20%nat → (∀ m, mss = Some m → in_u 16 m) → (length blocks ≤ 3)%nat →
  Forall (λ b, in_u 32 b.1 ∧ in_u 32 b.2) blocks →
  let offset := (20 + length (option_bytes mss permitted blocks))%nat in
  read_options (S offset) (front ++ option_bytes mss permitted blocks ++ payload) offset TCP_HEADER
    {| o_mss := None; o_permitted := false; o_sack := replicate SACK_BLOCKS None |} =
  Some (Ok {| o_mss := mss; o_permitted := permitted; o_sack := (Some <$> blocks) ++ replicate (3 - length blocks) None |}).
Proof.
  intros Hf Hm Hb Hbs offset. set (p := front ++ _ ++ payload).
  set (k1 := (if mss then 1 else 0)%nat). set (k2 := (if permitted then 3 else 0)%nat). set (k3 := (if (0 <? length blocks)%nat then 3 else 0)%nat).
  assert (k1 ≤ 1 ∧ k2 ≤ 3 ∧ k3 ≤ 3)%nat as (? & ? & ?) by (unfold k1, k2, k3; destruct mss, permitted, (0 <? length blocks)%nat; lia).
  replace (S offset) with (k1 + (k2 + (k3 + (S offset - k1 - k2 - k3))))%nat by (unfold offset; lia).
  unfold TCP_HEADER. rewrite <-Hf. unfold option_bytes in *. unfold offset. rewrite !length_app in *.
  erewrite (read_mss p front mss); [|unfold p; by rewrite <-!(assoc_L (++))|done|rewrite !length_app; lia].
  erewrite (read_permitted p (front ++ mss_bytes mss) permitted); [|unfold p; by rewrite <-!(assoc_L (++))|rewrite !length_app; lia].
  erewrite (read_sack p ((front ++ mss_bytes mss) ++ permitted_bytes permitted) blocks);
    [|unfold p; by rewrite <-!(assoc_L (++))|rewrite !length_app; lia|done..].
  rewrite !length_app. rewrite Hf, <-!Nat.add_assoc, read_end. do 3 f_equal; [by destruct mss|by destruct permitted].
Qed.

Section Segment.
Context (src dst : Ipv4Addr) (h : TcpHeader) (payload : Bytes).
Hypothesis Hs : length src = 4%nat.
Hypothesis Hd : length dst = 4%nat.
Hypothesis Hbs : bytes src.
Hypothesis Hbd : bytes dst.
Hypothesis Hh : tcp_header_ok h.
Hypothesis Hp : bytes payload.
Hypothesis Hsz : Z.of_nat (tcp_header_len h + length payload) ≤ u_max 16.

Let header := tcp_header_len h.
Let options := option_bytes (h_mss h) (h_sack_permitted h) (blocks_of h).
Let n := (header + length payload)%nat.
Let pseudo := pseudo_header src dst PROTO_TCP (Z.of_nat n).

Lemma segment_header : header = (20 + length options)%nat ∧ (length (blocks_of h) ≤ 3)%nat ∧ (header ≤ 56)%nat.
Proof.
  destruct (tcp_header_len_eq h (ok_sack h Hh)) as [Hb E]. pose proof (option_bytes_le (h_mss h) (h_sack_permitted h) _ Hb) as Hle.
  fold header in E. fold options in E, Hle. split_and!; [done|done|lia].
Qed.

Lemma bytes_options : bytes options.
Proof.
  unfold options, option_bytes. rewrite !Forall_app. split_and!.
  - pose proof (ok_mss h Hh) as Hm. destruct (h_mss h) as [m|]; [|constructor]. unfold mss_bytes. rewrite Forall_app. split.
    + repeat constructor; by apply in_u8_lt.
    + by apply bytes_to_be16, Hm.
  - destruct (h_sack_permitted h); unfold permitted_bytes; repeat constructor; by apply in_u8_lt.
  - unfold sack_bytes. case_match; [|constructor]. destruct segment_header as (_ & Hb & _). rewrite Forall_app. split.
    + repeat constructor; apply in_u8_lt; unfold TCP_OPT_NOP, TCP_OPT_SACK; lia.
    + apply Forall_concat, Forall_fmap. eapply Forall_impl; [apply (ok_blocks h Hh)|]. intros [x y] [Hx Hy]. simpl. unfold block_bytes.
      rewrite Forall_app. split; by apply bytes_to_be32.
Qed.

Lemma bytes_front : bytes (tcp_front h header) ∧ length (tcp_front h header) = 16%nat.
Proof.
  destruct segment_header as (_ & _ & Hle). assert (header / 4 ≤ 14)%nat by (apply Nat.Div0.div_le_upper_bound; lia).
  split; [|done]. unfold tcp_front. rewrite !Forall_app. destruct Hh. split_and!; try (by apply bytes_to_be16); try (by apply bytes_to_be32).
  constructor; [apply in_u8_lt; lia|by constructor].
Qed.

Lemma bytes_tcp_pseudo : bytes pseudo ∧ length pseudo = 12%nat.
Proof.
  split; [|unfold pseudo, pseudo_header; by rewrite !length_app, Hs, Hd].
  apply bytes_pseudo; [done|done|by apply in_u8_lt|]. unfold in_u. fold header in Hsz. fold n in Hsz. lia.
Qed.

(** The checksum the segment is sent with. *)
Lemma segment_checksum :
  ∃ c, in_u 16 c ∧ checksum [pseudo; tcp_front h header ++ [0; 0; 0; 0] ++ options ++ payload] = Some c ∧
    checksum [pseudo; tcp_segment h c payload] = Some 0.
Proof.
  destruct segment_header as (Hhd & Hb & Hle). destruct bytes_front as [Hf Hfl]. destruct bytes_tcp_pseudo as [Hps Hpl].
  set (tail := [0; 0] ++ options ++ payload).
  assert (bytes tail) as Htl by (unfold tail; rewrite !Forall_app; split_and!; [by repeat constructor|apply bytes_options|done]).
  assert (bytes ((pseudo ++ tcp_front h header) ++ [0; 0] ++ tail)) as Hall.
  { rewrite !Forall_app. split_and!; [done|done|by repeat constructor|done]. }
  assert (Z.of_nat (length ((pseudo ++ tcp_front h header) ++ [0; 0] ++ tail)) ≤ 131074) as Hfit.
  { unfold tail. rewrite !length_app, Hpl, Hfl. fold header in Hsz. rewrite Hhd in Hsz. unfold u_max in Hsz. cbn [length]. lia. }
  pose proof (checksum_spec _ Hall (word_sum_fits _ Hall Hfit)) as Hc. set (c := 65535 - _) in Hc.
  destruct (checksum_filled (pseudo ++ tcp_front h header) tail c Hall) as [Hc16 Hv]; [by rewrite length_app, Hpl, Hfl|done|by left|].
  exists c. split_and!; [done|..]; rewrite checksum_concat; cbn [concat]; rewrite app_nil_r.
  - rewrite <-Hc. unfold tail. by rewrite <-(assoc_L (++)).
  - rewrite <-Hv. unfold tail, tcp_segment. fold header. fold options. by rewrite <-(assoc_L (++)).
Qed.

Lemma length_segment c : length (tcp_segment h c payload) = n.
Proof.
  destruct segment_header as (Hhd & _ & _). destruct bytes_front as [_ Hfl]. unfold tcp_segment. fold header. fold options.
  rewrite !length_app, Hfl. cbn [length to_be16]. unfold n. lia.
Qed.

Lemma bytes_segment c : in_u 16 c → bytes (tcp_segment h c payload).
Proof.
  intros Hc. unfold tcp_segment. rewrite !Forall_app. destruct bytes_front as [Hf _]. split_and!; [done|by apply bytes_to_be16|by repeat constructor|apply bytes_options|done].
Qed.

Lemma parse_segment c :
  in_u 16 c → checksum [pseudo; tcp_segment h c payload] = Some 0 →
  parse_tcp (tcp_segment h c payload) src dst = Some (Ok {|
    tcp_src_port := h_src_port h; tcp_dst_port := h_dst_port h; tcp_seq := h_seq h; tcp_ack := h_ack h;
    tcp_flags := h_flags h; tcp_window := h_window h; tcp_mss := h_mss h; tcp_sack_permitted := h_sack_permitted h;
    tcp_sack := (Some <$> blocks_of h) ++ replicate (3 - length (blocks_of h)) None; tcp_payload := payload |}).
Proof.
  intros Hc Hv. destruct segment_header as (Hhd & Hb & Hle). destruct bytes_front as [Hf Hfl]. unfold parse_tcp.
  pose proof (length_segment c) as Hlen. set (p := tcp_segment h c payload) in *.
  rewrite Hlen. unfold TCP_HEADER. destruct (Nat.ltb_spec n 20); [unfold n in *; lia|].
  fold header in Hsz. fold n in Hsz. destruct (Z.ltb_spec u16_MAX (Z.of_nat n)); [lia|].
  assert (p = (tcp_front h header ++ to_be16 c ++ [0; 0]) ++ options ++ payload) as Hp1.
  { unfold p, tcp_segment. fold header. fold options. by rewrite <-!(assoc_L (++)). }
  assert (p !! 12%nat = Some (Z.of_nat (header / 4) * 16)) as -> by reflexivity.
  assert ((Z.to_nat (Z.shiftr (Z.of_nat (header / 4) * 16) 4) * 4)%nat = header) as Hoff.
  { rewrite Z.shiftr_div_pow2 by lia. change (2 ^ 4) with 16. rewrite Z.div_mul, Nat2Z.id by lia.
    assert (header mod 4 = 0)%nat as Hm4; [|pose proof (Nat.div_mod_eq header 4); lia].
    rewrite Hhd. unfold options, option_bytes. rewrite !length_app, length_sack_bytes. clear -Hb.
    destruct (h_mss h), (h_sack_permitted h), (blocks_of h) as [|? [|? [|? [|]]]]; simpl in Hb; try lia; reflexivity. }
  rewrite Hoff. cbv zeta. destruct (Nat.ltb_spec header 20); [lia|]. destruct (Nat.ltb_spec n header); [unfold n in *; lia|]. cbn [orb].
  fold pseudo. rewrite Hv. cbn [mbind option_bind]. change (negb (0 =? 0)) with false. cbv iota.
  assert (length (tcp_front h header ++ to_be16 c ++ [0; 0]) = 20%nat) as Hf20 by (by rewrite !length_app, Hfl).
  pose proof (read_options_spec _ (h_mss h) (h_sack_permitted h) (blocks_of h) payload Hf20 (ok_mss h Hh) Hb (ok_blocks h Hh)) as Hro.
  cbv zeta in Hro. fold options in Hro. rewrite <-Hhd, <-Hp1 in Hro. unfold TCP_HEADER in Hro. rewrite Hro. cbn [mbind option_bind o_mss o_permitted o_sack].
  assert (be16 p 0 = Some (h_src_port h) ∧ be16 p 2 = Some (h_dst_port h) ∧ be32 p 4 = Some (h_seq h) ∧ be32 p 8 = Some (h_ack h) ∧
    p !! 13%nat = Some (h_flags h) ∧ be16 p 14 = Some (h_window h)) as (-> & -> & -> & -> & -> & ->).
  { pose (w := to_be16 (h_window h)). pose (z := to_be16 c ++ [0; 0] ++ options ++ payload).
    pose (b := [Z.of_nat (header / 4) * 16; h_flags h]). destruct Hh. split_and!.
    - exact (be16_at [] _ (to_be16 (h_dst_port h) ++ to_be32 (h_seq h) ++ to_be32 (h_ack h) ++ b ++ w ++ z) 0 eq_refl ok_src_port0).
    - exact (be16_at (to_be16 (h_src_port h)) _ (to_be32 (h_seq h) ++ to_be32 (h_ack h) ++ b ++ w ++ z) 2 eq_refl ok_dst_port0).
    - exact (be32_at (to_be16 (h_src_port h) ++ to_be16 (h_dst_port h)) _ (to_be32 (h_ack h) ++ b ++ w ++ z) 4 eq_refl ok_seq0).
    - exact (be32_at (to_be16 (h_src_port h) ++ to_be16 (h_dst_port h) ++ to_be32 (h_seq h)) _ (b ++ w ++ z) 8 eq_refl ok_ack0).
    - reflexivity.
    - exact (be16_at (to_be16 (h_src_port h) ++ to_be16 (h_dst_port h) ++ to_be32 (h_seq h) ++ to_be32 (h_ack h) ++ b) _ z 14 eq_refl ok_window0). }
  assert (drop header p = payload) as ->; [|reflexivity].
  rewrite Hp1, (assoc_L (++)). apply drop_app_length'. rewrite length_app, Hf20. lia.
Qed.
End Segment.

Lemma write_segment src dst h buf len :
  length src = 4%nat → length dst = 4%nat → bytes src → bytes dst → tcp_header_ok h →
  (tcp_header_len h + len ≤ length buf)%nat → bytes (take len (drop (tcp_header_len h) buf)) →
  Z.of_nat (tcp_header_len h + len) ≤ u_max 16 →
  ∃ c, in_u 16 c ∧ let s := tcp_segment h c (take len (drop (tcp_header_len h) buf)) in
    write_tcp_header buf src dst h len = Some (s ++ drop (length s) buf, Ok (length s)) ∧
    checksum [pseudo_header src dst PROTO_TCP (Z.of_nat (tcp_header_len h + len)); s] = Some 0.
Proof.
  intros Hs Hd Hbs Hbd Hh Hl Hb Hsz. set (payload := take len _) in *.
  assert (length payload = len) as Hpl by (unfold payload; rewrite length_take, length_drop; lia).
  assert (Z.of_nat (tcp_header_len h + length payload) ≤ u_max 16) as Hsz' by (by rewrite Hpl).
  destruct (segment_header src dst h payload Hs Hd Hh Hsz') as (Hhd & Hbl & Hle).
  destruct (bytes_front src dst h payload Hs Hd Hh Hsz') as [_ Hfl].
  destruct (segment_checksum src dst h payload Hs Hd Hbs Hbd Hh Hb Hsz') as (c & Hc & Hsum & Hv). rewrite Hpl in Hsum, Hv.
  exists c. split; [done|]. cbv zeta. rewrite (length_segment src dst h payload Hs Hd Hh Hsz'), Hpl. split; [|done].
  unfold write_tcp_header. cbv zeta. destruct (Z.ltb_spec u16_MAX (Z.of_nat (tcp_header_len h + len))); [lia|].
  unfold on_prefix. rewrite get_prefix by done. set (s := take _ buf).
  assert (length s = (tcp_header_len h + len)%nat) as Hls by (unfold s; rewrite length_take; lia).
  assert (drop (tcp_header_len h) s = payload) as Hds.
  { unfold s, payload. by rewrite take_drop_commute. }
  rewrite write_fixed_spec by lia. cbn [mbind option_bind].
  set (opts := option_bytes _ _ _) in *. unfold option_bytes in opts.
  assert (length opts = (length (mss_bytes (h_mss h)) + (length (permitted_bytes (h_sack_permitted h)) + length (sack_bytes (blocks_of h))))%nat) as Hol
    by (unfold opts; by rewrite !length_app).
  rewrite write_mss_spec; [|rewrite length_app, Hfl; done|rewrite length_drop; lia]. cbn [mbind option_bind].
  rewrite write_permitted_spec; [|done|rewrite !length_drop; lia]. cbn [mbind option_bind].
  rewrite write_sack_spec; [|done|rewrite !length_drop; lia|done]. cbn [mbind option_bind].
  rewrite !drop_drop. match goal with |- context [drop ?i s] => replace i with (tcp_header_len h) by lia end. rewrite Hds.
  set (s1 := _ ++ payload).
  assert (s1 = tcp_front h (tcp_header_len h) ++ [0; 0; 0; 0] ++ opts ++ payload) as Es1.
  { unfold s1, opts. by rewrite <-!(assoc_L (++)). }
  rewrite Es1, Hsum. cbn [mbind option_bind].
  change ([0; 0; 0; 0] ++ opts ++ payload) with ([0; 0] ++ ([0; 0] ++ opts ++ payload)).
  rewrite <-Hfl. rewrite put_over by done. cbn [mbind option_bind]. done.
Qed.

Lemma write_tcp_spec buf src dst h payload :
  length src = 4%nat → length dst = 4%nat → bytes src → bytes dst → tcp_header_ok h → bytes payload →
  Z.of_nat (tcp_header_len h + length payload) ≤ u_max 16 → (tcp_header_len h + length payload ≤ length buf)%nat →
  ∃ s, length s = (tcp_header_len h + length payload)%nat ∧ bytes s ∧
    write_tcp buf src dst h payload = Some (s ++ drop (length s) buf, Ok (length s)) ∧
    parse_tcp s src dst = Some (Ok {|
      tcp_src_port := h_src_port h; tcp_dst_port := h_dst_port h; tcp_seq := h_seq h; tcp_ack := h_ack h;
      tcp_flags := h_flags h; tcp_window := h_window h; tcp_mss := h_mss h; tcp_sack_permitted := h_sack_permitted h;
      tcp_sack := (Some <$> blocks_of h) ++ replicate (3 - length (blocks_of h)) None; tcp_payload := payload |}).
Proof.
  intros Hs Hd Hbs Hbd Hh Hp Hsz Hl. set (header := tcp_header_len h) in *.
  unfold write_tcp. fold header. unfold get_range. rewrite (proj2 (Nat.leb_le _ _)) by lia.
  assert (put buf header payload = Some (take header buf ++ payload ++ drop (header + length payload) buf)) as E.
  { unfold put. by rewrite (proj2 (Nat.leb_le _ _)) by lia. }
  rewrite E. cbn [mbind option_bind]. set (buf1 := take header buf ++ payload ++ drop (header + length payload) buf).
  assert (length (take header buf) = header) as Hth by (rewrite length_take; lia).
  assert (take (length payload) (drop header buf1) = payload) as Hpay.
  { unfold buf1. rewrite drop_app_length' by done. by rewrite take_app_length. }
  destruct (write_segment src dst h buf1 (length payload)) as (c & Hc & Hw & Hv); try done.
  { unfold buf1. fold header. rewrite !length_app, Hth, length_drop. lia. }
  { fold header. by rewrite Hpay. }
  fold header in Hw, Hv. rewrite Hpay in Hw, Hv. exists (tcp_segment h c payload).
  pose proof (length_segment src dst h payload Hs Hd Hh Hsz c) as Hls. fold header in Hls. rewrite Hls in *. split_and!; [done|by apply (bytes_segment src dst)|..].
  - rewrite Hw. do 3 f_equal. unfold buf1. rewrite (assoc_L (++)). apply drop_app_length'. rewrite length_app, Hth. done.
  - by apply (parse_segment src dst h payload).
Qed.


(** ** No input panics *)

Lemma lookup_some (p : Bytes) i : (i < length p)%nat → is_Some (p !! i).
Proof. apply lookup_lt_is_Some_2. Qed.

Lemma be16_u16 p i x : bytes p → be16 p i = Some x → in_u 16 x.
Proof.
  intros Hp. unfold be16. intros (h & Hh & (l & Hl & [= <-])%bind_Some)%bind_Some.
  pose proof (Forall_lookup_1 _ _ _ _ Hp Hh) as H1. pose proof (Forall_lookup_1 _ _ _ _ Hp Hl) as H2.
  rewrite from_be16_eq by done. unfold in_u, u_max in *. lia.
Qed.

Lemma checksum_some parts : bytes (concat parts) → Z.of_nat (length (concat parts)) ≤ 131074 → is_Some (checksum parts).
Proof.
  intros Hb Hl. rewrite checksum_concat. simpl. rewrite checksum_spec; [done|done|by apply word_sum_fits].
Qed.

Lemma parse_arp_total p : is_Some (parse_arp p).
Proof.
  unfold parse_arp, ARP_LEN. destruct (Nat.ltb_spec (length p) 28); [done|].
  destruct (lookup_some p 4) as [a ->]; [lia|]. destruct (lookup_some p 5) as [b ->]; [lia|]. done.
Qed.

Lemma parse_ipv4_part_total p : bytes p → is_Some (parse_ipv4_part p).
Proof.
  intros Hp. unfold parse_ipv4_part. destruct (p !! 0%nat) as [first|] eqn:E; [|done]. case_match; [done|].
  cbv zeta. case_match; [done|]. destruct (be16 p 2) as [total|]; [|done]. case_match; [done|].
  pose proof (Forall_lookup_1 _ _ _ _ Hp E) as [Hf0 Hf1].
  destruct (checksum_some [take (Z.to_nat (Z.land first 15) * 4) p]) as [sum ->].
  - simpl. rewrite app_nil_r. by apply Forall_take.
  - simpl. rewrite app_nil_r, length_take. assert (Z.land first 15 ≤ 15); [|lia].
    pose proof (Z.land_ones first 4 ltac:(lia)) as Hm. change (Z.ones 4) with 15 in Hm. rewrite Hm. pose proof (Z.mod_pos_bound first (2 ^ 4)). lia.
  - cbn [mbind option_bind]. by case_match.
Qed.

(** A packet's addresses and payload are parts of it, and the payload fits a [u16] length. *)
Lemma parse_ipv4_part_bytes p ip f :
  bytes p → parse_ipv4_part p = Some (Ok (ip, f)) →
  bytes (ip_payload ip) ∧ Z.of_nat (length (ip_payload ip)) ≤ u_max 16 ∧
  bytes (ip_src ip) ∧ length (ip_src ip) = 4%nat ∧ bytes (ip_dst ip) ∧ length (ip_dst ip) = 4%nat.
Proof.
  intros Hp. unfold parse_ipv4_part. destruct (p !! 0%nat) as [first|]; [|done]. case_match; [done|].
  cbv zeta. case_match; [done|]. destruct (be16 p 2) as [total|] eqn:Et; [|done]. case_match; [done|].
  destruct (checksum _) as [sum|]; [|done]. cbn [mbind option_bind]. case_match; [done|].
  destruct (be16 p 6); [|done]. destruct (p !! 8%nat); [|done]. destruct (p !! 9%nat); [|done]. cbn.
  assert (∀ i a, ip_at p i = Some a → bytes a ∧ length a = 4%nat) as Hip.
  { intros i a. unfold ip_at, get_range. case_match eqn:El; [|done]. apply Nat.leb_le in El. intros [= <-].
    split; [by apply Forall_take, Forall_drop|]. rewrite length_take, length_drop. lia. }
  destruct (ip_at p 12) as [src|] eqn:Es; [|done]. destruct (ip_at p 16) as [dst|] eqn:Ed; [|done]. cbn.
  apply Hip in Es as [? ?], Ed as [? ?]. apply be16_u16 in Et as [? ?]; [|done].
  intros ?. simplify_eq. cbn. split_and!; try done; [by apply Forall_take, Forall_drop|].
  rewrite length_take, length_drop. lia.
Qed.

Lemma parse_ipv4_Ok p ip :
  bytes p → parse_ipv4 p = Some (Ok ip) →
  bytes (ip_payload ip) ∧ Z.of_nat (length (ip_payload ip)) ≤ u_max 16 ∧
  bytes (ip_src ip) ∧ length (ip_src ip) = 4%nat ∧ bytes (ip_dst ip) ∧ length (ip_dst ip) = 4%nat.
Proof.
  intros Hp. unfold parse_ipv4. destruct (parse_ipv4_part p) as [[[ip' [f|]]|]|] eqn:E; [done| |done..].
  intros ?. simplify_eq/=. by eapply parse_ipv4_part_bytes.
Qed.

Lemma parse_icmp_echo_total p : bytes p → Z.of_nat (length p) ≤ 131074 → is_Some (parse_icmp_echo p).
Proof.
  intros Hp Hl. unfold parse_icmp_echo, ICMP_HEADER. destruct (Nat.ltb_spec (length p) 8); [done|].
  destruct (checksum_some [p]) as [sum ->]; [simpl; by rewrite app_nil_r|simpl; by rewrite app_nil_r|]. cbn [mbind option_bind].
  case_match; [done|]. destruct (lookup_some p 0) as [a ->]; [lia|]. destruct (lookup_some p 1) as [b ->]; [lia|]. cbn [mbind option_bind].
  by case_match.
Qed.

Lemma parse_icmp_unreachable_total p : bytes p → Z.of_nat (length p) ≤ 131074 → is_Some (parse_icmp_unreachable p).
Proof.
  intros Hp Hl. unfold parse_icmp_unreachable, ICMP_HEADER. destruct (Nat.ltb_spec (length p) 8); [done|].
  destruct (checksum_some [p]) as [sum ->]; [simpl; by rewrite app_nil_r|simpl; by rewrite app_nil_r|]. cbn [mbind option_bind].
  case_match; [done|]. destruct (lookup_some p 0) as [a ->]; [lia|]. destruct (lookup_some p 1) as [b ->]; [lia|]. cbn [mbind option_bind].
  by case_match.
Qed.

Lemma pseudo_length src dst proto len : length src = 4%nat → length dst = 4%nat → length (pseudo_header src dst proto len) = 12%nat.
Proof. intros Hs Hd. unfold pseudo_header. by rewrite !length_app, Hs, Hd. Qed.

Lemma parse_udp_total p src dst :
  bytes p → bytes src → bytes dst → length src = 4%nat → length dst = 4%nat → is_Some (parse_udp p src dst).
Proof.
  intros Hp Hs Hd Hsl Hdl. unfold parse_udp. case_match; [done|]. destruct (be16 p 4) as [len|] eqn:E4; [|done].
  apply be16_u16 in E4 as [? Hm]; [|done]. cbv zeta. case_match; [done|]. destruct (be16 p 6) as [f|]; [|done].
  destruct (f =? 0); [done|].
  destruct (checksum_some [pseudo_header src dst PROTO_UDP len; take (Z.to_nat len) p]) as [sum ->].
  - simpl. rewrite app_nil_r, Forall_app. split; [apply bytes_pseudo; [done|done|by apply in_u8_lt|done]|by apply Forall_take].
  - simpl. rewrite app_nil_r, length_app, pseudo_length, length_take by done. unfold u_max in Hm. lia.
  - cbn. by case_match.
Qed.

Lemma read_options_total fuel p offset at_ o :
  (offset ≤ length p)%nat → (offset - at_ < fuel)%nat → is_Some (read_options fuel p offset at_ o).
Proof.
  intros Hl. revert at_ o. induction fuel as [|fuel IH]; intros at_ o Hf; [lia|]. cbn [read_options].
  destruct (Nat.ltb_spec at_ offset); [|done]. destruct (lookup_some p at_) as [kind ->]; [lia|]. cbn [mbind option_bind].
  case_match; [done|]. case_match; [apply IH; lia|]. case_match; [|done]. cbv zeta.
  destruct (Nat.ltb_spec (Z.to_nat z) 2); [done|]. cbn [orb]. case_match; [done|]. apply IH. lia.
Qed.

Lemma parse_tcp_total p src dst :
  bytes p → bytes src → bytes dst → length src = 4%nat → length dst = 4%nat → is_Some (parse_tcp p src dst).
Proof.
  intros Hp Hs Hd Hsl Hdl. unfold parse_tcp. case_match; [done|]. destruct (Z.ltb_spec u16_MAX (Z.of_nat (length p))) as [|Hle]; [done|].
  destruct (p !! 12%nat) as [b|]; [|done]. cbv zeta. set (offset := (_ * 4)%nat).
  destruct (Nat.ltb_spec offset TCP_HEADER); [done|]. destruct (Nat.ltb_spec (length p) offset); [done|]. cbn [orb].
  destruct (checksum_some [pseudo_header src dst PROTO_TCP (Z.of_nat (length p)); p]) as [sum ->].
  - simpl. rewrite app_nil_r, Forall_app. split; [|done]. apply bytes_pseudo; [done|done|by apply in_u8_lt|unfold in_u; lia].
  - simpl. rewrite app_nil_r, length_app, pseudo_length by done. unfold u_max in Hle. lia.
  - cbn [mbind option_bind]. case_match; [done|].
    destruct (read_options_total (S offset) p offset TCP_HEADER
      {| o_mss := None; o_permitted := false; o_sack := replicate SACK_BLOCKS None |}) as [r ->]; [done|lia|done].
Qed.

Lemma parse_frame_total frame : bytes frame → is_Some (parse_frame frame).
Proof.
  intros Hf. unfold parse_frame. destruct (parse_ethernet frame) as [eth|e] eqn:Ee; [|done].
  assert (bytes (eth_payload eth)) as Hp.
  { unfold parse_ethernet in Ee. repeat (case_match; [|done]). simplify_eq. simpl.
    match goal with E : ok_or (get_from _ _) _ = Ok _ |- _ => apply ok_or_Ok in E; unfold get_from in E end.
    case_match; simplify_eq. by apply Forall_drop. }
  cbv zeta. case_match.
  { destruct (parse_arp_total (eth_payload eth)) as [r ->]. done. }
  case_match; [|done]. unfold parse_ipv4 at 1. destruct (parse_ipv4_part_total (eth_payload eth) Hp) as [r Hr]. rewrite Hr. cbn [mbind option_bind].
  destruct (let? x := r in match x.2 with None => Ok x.1 | Some _ => Err Fragmented end) as [ip|e] eqn:Ei; [|done].
  assert (parse_ipv4 (eth_payload eth) = Some (Ok ip)) as Hip by (unfold parse_ipv4; rewrite Hr; cbn [mbind option_bind]; by rewrite Ei).
  destruct (parse_ipv4_Ok _ _ Hp Hip) as (Hb & Hl & Hs & Hsl & Hd & Hdl). unfold u_max in Hl. destruct (protocol ip =? PROTO_ICMP).
  { destruct (parse_icmp_echo_total (ip_payload ip)) as [r' ->]; [done|lia|]. cbn [mbind option_bind].
    destruct r' as [|[]]; try (by eexists). destruct (parse_icmp_unreachable_total (ip_payload ip)) as [r'' ->]; [done|lia|done]. }
  destruct (protocol ip =? PROTO_UDP); [destruct (parse_udp_total (ip_payload ip) (ip_src ip) (ip_dst ip)) as [r' ->]; done|].
  destruct (protocol ip =? PROTO_TCP); [destruct (parse_tcp_total (ip_payload ip) (ip_src ip) (ip_dst ip)) as [r' ->]; done|done].
Qed.


(** ** The checksum's reference *)

(** RFC 1071: the 16-bit words of the data, the last padded with zero, added in ones'
    complement: a carry out of the top comes back in at the bottom. *)
Fixpoint words (b : Bytes) : list Z :=
  match b with
  | [] => []
  | [h] => [h * 256]
  | h :: l :: b => (h * 256 + l) :: words b
  end.
Definition ones_add (x y : Z) : Z := if 65535 <? x + y then x + y - 65535 else x + y.
Definition rfc_checksum (b : Bytes) : Z := 65535 - foldl ones_add 0 (words b).

Lemma ones_add_sum w y : 0 ≤ w → 0 ≤ y ≤ 65535 → ones_add (ones_sum w) y = ones_sum (w + y).
Proof.
  intros Hw Hy. pose proof (ones_sum_range w Hw) as Hr. unfold ones_add, ones_sum in *.
  destruct (Z.eqb_spec w 0) as [->|Hn].
  { destruct (Z.ltb_spec 65535 (0 + y)); [lia|]. destruct (Z.eqb_spec (0 + y) 0); [lia|]. rewrite Z.mod_small by lia. lia. }
  destruct (Z.eqb_spec (w + y) 0); [lia|]. pose proof (Z.div_mod (w - 1) 65535). pose proof (Z.mod_pos_bound (w - 1) 65535).
  destruct (Z.ltb_spec 65535 (1 + (w - 1) mod 65535 + y)).
  - assert ((w + y - 1) mod 65535 = (w - 1) mod 65535 + y - 65535) as ->; [|lia].
    symmetry. apply Z.mod_unique with ((w - 1) / 65535 + 1); lia.
  - assert ((w + y - 1) mod 65535 = (w - 1) mod 65535 + y) as ->; [|lia].
    symmetry. apply Z.mod_unique with ((w - 1) / 65535); lia.
Qed.

Lemma foldl_ones_add b w : bytes b → 0 ≤ w → foldl ones_add (ones_sum w) (words b) = ones_sum (w + word_sum b).
Proof.
  revert w. induction b as [|h|h l b IH] using bytes_pair_ind; intros w Hb Hw; cbn [words foldl word_sum].
  - f_equal. lia.
  - apply Forall_cons in Hb as [[? ?] _]. unfold u_max in *. apply ones_add_sum; lia.
  - rewrite !Forall_cons in Hb. destruct Hb as ([? ?] & [? ?] & Hb). unfold u_max in *.
    rewrite ones_add_sum, IH by (done || lia). f_equal. lia.
Qed.

Lemma rfc_checksum_eq b : bytes b → rfc_checksum b = 65535 - ones_sum (word_sum b).
Proof. intros Hb. unfold rfc_checksum. f_equal. apply (foldl_ones_add b 0 Hb). lia. Qed.

(** Past its bound the sum overflows its [u32]. *)
Lemma sum_bytes_overflows k s :
  0 ≤ s ≤ u_max 32 → u_max 32 < s + 65535 * Z.of_nat k → foldl sum_byte (Some (s, None)) (concat (replicate k [255; 255])) = None.
Proof.
  revert s. induction k as [|k IH]; intros s Hs Hk; [lia|].
  cbn [replicate concat foldl app sum_byte mbind option_bind]. rewrite from_be16_eq by (unfold in_u, u_max; lia).
  destruct (checked_add 32 s (255 * 256 + 255)) as [s'|] eqn:E; cbn [mbind option_bind].
  - apply checked_add_Some in E as [-> E]. apply IH; lia.
  - clear. induction (concat (replicate k [255; 255])) as [|x l IH]; [done|exact IH].
Qed.

Lemma checksum_overflows k : 65538 ≤ Z.of_nat k → checksum [concat (replicate k [255; 255])] = None.
Proof.
  intros Hk. unfold checksum. rewrite foldl_parts. cbn [concat]. rewrite app_nil_r.
  rewrite sum_bytes_overflows by (unfold u_max; lia). done.
Qed.

Lemma parse_icmp_echo_overflows k : 65538 ≤ Z.of_nat k → parse_icmp_echo (concat (replicate k [255; 255])) = None.
Proof.
  intros Hk. unfold parse_icmp_echo. rewrite checksum_overflows by done.
  assert (length (concat (replicate k [255; 255])) = (2 * k)%nat) as Hl.
  { clear. induction k as [|k IH]; [done|]. cbn [replicate concat]. rewrite length_app, IH. cbn [length]. lia. }
  unfold ICMP_HEADER. destruct (Nat.ltb_spec (length (concat (replicate k [255; 255]))) 8); [lia|]. done.
Qed.

(** ** Properties *)



(** No frame makes the parsers panic, whatever its bytes: each field is read inside the
    bytes that are there, the options' loop ends, and no sum overflows.  Called on its own, a
    parser of ICMP is as safe up to 131074 bytes, which no IPv4 payload reaches; past that the
    [u32] of the checksum can overflow, and for 0xff bytes it does. *)
Theorem parsers_never_panic (p src dst : Bytes) :
  bytes p → bytes src → bytes dst → length src = 4%nat → length dst = 4%nat →
  is_Some (parse_frame p) ∧ is_Some (parse_arp p) ∧ is_Some (parse_ipv4_part p) ∧
  is_Some (parse_udp p src dst) ∧ is_Some (parse_tcp p src dst) ∧
  (Z.of_nat (length p) ≤ 131074 → is_Some (parse_icmp_echo p) ∧ is_Some (parse_icmp_unreachable p)) ∧
  ∀ k, 65538 ≤ Z.of_nat k → parse_icmp_echo (concat (replicate k [255; 255])) = None.
Proof.
  intros Hp Hs Hd Hsl Hdl. split_and!; eauto using parse_frame_total, parse_arp_total, parse_ipv4_part_total, parse_udp_total,
    parse_tcp_total, parse_icmp_echo_total, parse_icmp_unreachable_total, parse_icmp_echo_overflows.
Qed.

Lemma parsers_never_panic_witness : is_Some (parse_frame (replicate 60 69)) ∧ is_Some (parse_tcp (replicate 60 69) [10; 0; 0; 1] [10; 0; 0; 2]).
Proof.
  destruct (parsers_never_panic (replicate 60 69) [10; 0; 0; 1] [10; 0; 0; 2]) as (H1 & _ & _ & _ & H2 & _);
    [repeat constructor; unfold u_max; lia..|done|done|]. by split.
Defined.

End Wire.
