(* ===== verification/NetReasm.v ===== *)
(** * Putting fragmented datagrams back together

    [kernel/net/src/reasm.rs]: the two sets of arrived byte runs, and how fragments are merged
    into them, displaced, given up and read out.  Offsets and lengths ([u16], [usize]) are
    [nat]; an instant is a [Z] of nanoseconds in a [u64].  [None] is a panic.

    The abstract view of a set is the map from the offsets that have arrived to their bytes:
    taking a fragment in is a union of maps, and the set is complete exactly when the map has
    every offset below the length the last fragment announced. *)

From S2P Require Import Prelude NetWire.
Import Wire.

Module Reasm.

Definition SETS : nat := 2.
Definition MAX : nat := 2048.
Definition PIECES : nat := 6.
Definition TIMEOUT_NS : Z := 2000000000.

Record Key := { k_src : list Z; k_dst : list Z; k_id : Z; k_protocol : Z }.
#[global] Instance Key_eq_dec : EqDecision Key.
Proof. solve_decision. Defined.

Abbreviation Piece := (nat * nat)%type.

Record Set_ := {
  s_key : option Key;
  s_pieces : list (option Piece);
  s_total : option nat;
  s_deadline : Z;
  s_data : Bytes }.

Definition EMPTY : Set_ := {|
  s_key := None; s_pieces := replicate PIECES None; s_total := None; s_deadline := 0; s_data := replicate MAX 0%Z |}.

Definition set_key (k : option Key) (s : Set_) : Set_ :=
  {| s_key := k; s_pieces := s_pieces s; s_total := s_total s; s_deadline := s_deadline s; s_data := s_data s |}.
Definition set_total (t : option nat) (s : Set_) : Set_ :=
  {| s_key := s_key s; s_pieces := s_pieces s; s_total := t; s_deadline := s_deadline s; s_data := s_data s |}.

(** The loop over the runs: each one that touches [start, stop) is taken out and merged. *)
Fixpoint merge (pieces : list (option Piece)) (start stop : nat) : list (option Piece) * (nat * nat) :=
  match pieces with
  | [] => ([], (start, stop))
  | None :: rest => let '(rest', r) := merge rest start stop in (None :: rest', r)
  | Some (s, e) :: rest =>
      if (s <=? stop) && (start <=? e)
      then let '(rest', r) := merge rest (start `min` s) (stop `max` e) in (None :: rest', r)
      else let '(rest', r) := merge rest start stop in (Some (s, e) :: rest', r)
  end.

Definition is_none {A} (o : option A) : bool := match o with None => true | Some _ => false end.

Definition add (s : Set_) (at_ : nat) (bytes : Bytes) : option (Set_ * bool) :=
  match checked_add 64 (Z.of_nat at_) (Z.of_nat (length bytes)) with
  | None => Some (s, false)
  | Some _ =>
      let end_ := at_ + length bytes in
      if MAX <? end_ then Some (s, false)
      else
        data ← put (s_data s) at_ bytes;
        let '(pieces, (start, stop)) := merge (s_pieces s) at_ (as_u16 end_) in
        let after ps b := Some ({| s_key := s_key s; s_pieces := ps; s_total := s_total s; s_deadline := s_deadline s; s_data := data |}, b) in
        match position is_none pieces with
        | Some i => after (<[i := Some (start, stop)]> pieces) true
        | None => after pieces false
        end
  end.

Definition complete (s : Set_) : option nat :=
  total ← s_total s;
  if existsb (λ p, match p with Some (start, stop) => (start =? 0) && (total <=? stop) | None => false end) (s_pieces s)
  then Some total else None.

Record Done := { d_src : list Z; d_dst : list Z; d_protocol : Z; d_payload : Bytes }.

Inductive Took : Type :=
| Held
| Complete (i : nat)
| Dropped.

(** A [Reassembler] is its sets. *)
Abbreviation Reassembler := (list Set_).
Definition new : Reassembler := replicate SETS EMPTY.

Definition in_use (r : Reassembler) : nat := count_if (λ s, negb (is_none (s_key s))) r.

Fixpoint expire (r : Reassembler) (now : Z) : Reassembler * nat :=
  match r with
  | [] => ([], 0)
  | s :: rest =>
      let '(rest', gone) := expire rest now in
      if negb (is_none (s_key s)) && (s_deadline s <=? now)%Z then (set_key None s :: rest', S gone) else (s :: rest', gone)
  end.

(** A free set, or the one closest to being given up; it is reset. *)
Definition set_for (r : Reassembler) (key : Key) (now : Z) : option (Reassembler * option nat) :=
  match position (λ s, bool_decide (s_key s = Some key)) r with
  | Some i => Some (r, Some i)
  | None =>
      match (match position (λ s, is_none (s_key s)) r with Some i => Some i | None => min_by_key s_deadline r end) with
      | None => Some (r, None)
      | Some i =>
          s ← r !! i;
          Some (<[i := {| s_key := Some key; s_pieces := replicate PIECES None; s_total := None;
                          s_deadline := saturating_add 64 now TIMEOUT_NS; s_data := s_data s |}]> r, Some i)
      end
  end.

Definition take (r : Reassembler) (src dst : list Z) (protocol : Z) (fragment : Fragment) (payload : Bytes) (now : Z) :
    option (Reassembler * Took) :=
  if (u16_MAX <? Z.of_nat (frag_offset fragment))%Z then Some (r, Dropped)
  else
    let at_ := frag_offset fragment in
    let key := {| k_src := src; k_dst := dst; k_id := frag_id fragment; k_protocol := protocol |} in
    '(r, found) ← set_for r key now;
    match found with
    | None => Some (r, Dropped)
    | Some i =>
        set ← r !! i;
        let total := at_ + length payload in
        if negb (frag_more fragment) && (u16_MAX <? Z.of_nat total)%Z
        then Some (<[i := set_key None set]> r, Dropped)
        else
          let set := if frag_more fragment then set else set_total (Some total) set in
          '(set, ok) ← add set at_ payload;
          if negb ok then Some (<[i := set_key None set]> r, Dropped)
          else Some (<[i := set]> r, match complete set with Some _ => Complete i | None => Held end)
    end.

Definition datagram (r : Reassembler) (i : nat) : option Done :=
  set ← r !! i;
  key ← s_key set;
  total ← complete set;
  payload ← get_range (s_data set) 0 total;
  Some {| d_src := k_src key; d_dst := k_dst key; d_protocol := k_protocol key; d_payload := payload |}.

Definition release (r : Reassembler) (i : nat) : Reassembler := alter (set_key None) i r.


(** ** Runs *)

(** The runs a set holds, in slot order. *)
Definition runs (ps : list (option Piece)) : list Piece := omap (λ p, p) ps.
Definition covers (l : list Piece) (i : nat) : Prop := ∃ p, p ∈ l ∧ p.1 ≤ i < p.2.
(** Two runs with a byte or more between them. *)
Definition apart (p q : Piece) : Prop := p.2 < q.1 ∨ q.2 < p.1.
Fixpoint all_apart (l : list Piece) : Prop :=
  match l with [] => True | p :: l => Forall (apart p) l ∧ all_apart l end.
Definition run_ok (p : Piece) : Prop := p.1 ≤ p.2 ≤ MAX.

Lemma apart_sym p q : apart p q → apart q p.
Proof. unfold apart. tauto. Qed.

Lemma covers_cons p l i : covers (p :: l) i ↔ p.1 ≤ i < p.2 ∨ covers l i.
Proof.
  unfold covers. split.
  - intros (q & [->|Hq]%elem_of_cons & Hi); eauto.
  - intros [H|(q & Hq & H)]; [exists p|exists q]; (split; [set_solver|done]).
Qed.

Lemma covers_perm l k i : l ≡ₚ k → covers l i ↔ covers k i.
Proof. intros E. unfold covers. by setoid_rewrite E. Qed.

Lemma all_apart_perm l k : l ≡ₚ k → all_apart l → all_apart k.
Proof.
  induction 1 as [|p l k E IH|p q l|]; simpl; [done|..].
  - intros [Hp Hl]. split; [by rewrite <-E|by apply IH].
  - rewrite !Forall_cons. intros ((Hpq & Hp) & Hq & Hl). split_and!; [by apply apart_sym|done..].
  - auto.
Qed.

#[global] Instance Piece_inhabited : Inhabited Piece := populate (0, 0).

(** Merging keeps what is covered, leaves the merged run apart from every other, and frees the
    slots of the runs it took in. *)
Lemma merge_spec ps a b ps' a' b' :
  a ≤ b → b ≤ MAX → Forall run_ok (runs ps) → all_apart (runs ps) → merge ps a b = (ps', (a', b')) →
  a' ≤ a ∧ b ≤ b' ∧ b' ≤ MAX ∧ length ps' = length ps ∧ length (runs ps') ≤ length (runs ps) ∧
  Forall run_ok (runs ps') ∧ all_apart (runs ps') ∧ Forall (apart (a', b')) (runs ps') ∧
  (∀ p, apart p (a, b) → Forall (apart p) (runs ps) → run_ok p → apart p (a', b') ∧ Forall (apart p) (runs ps')) ∧
  ∀ i, a' ≤ i < b' ∨ covers (runs ps') i ↔ a ≤ i < b ∨ covers (runs ps) i.
Proof.
  revert a b ps' a' b'. induction ps as [|[[s e]|] ps IH]; intros a b ps' a' b' Hab Hb Hok Hap; simpl.
  { intros [= <- <- <-]. split_and!; try done; naive_solver. }
  - change (runs (Some (s, e) :: ps)) with ((s, e) :: runs ps) in *. apply Forall_cons in Hok as [Hse Hok]. destruct Hap as [Hse' Hap].
    unfold run_ok in Hse. simpl in Hse. destruct ((s <=? b) && (a <=? e)) eqn:Et.
    + breflect. destruct (merge ps (a `min` s) (b `max` e)) as [rest r] eqn:E. intros [= <- ->].
      destruct (IH (a `min` s) (b `max` e) rest a' b' ltac:(lia) ltac:(lia) Hok Hap E) as (H1 & H2 & H3 & H4 & H5 & H6 & H7 & H8 & H9 & H10).
      change (runs (None :: rest)) with (runs rest). cbn [length]. split_and!; try done; try lia.
      * intros p Hp [Hpse Hps]%Forall_cons Hpok. apply H9; [|done..]. unfold apart, run_ok in *. simpl in *. lia.
      * intros i. rewrite H10, covers_cons. simpl. destruct (decide (a ≤ i < b ∨ s ≤ i < e)); intuition lia.
    + assert (e < a ∨ b < s) by (apply andb_false_iff in Et as [?|?]; breflect; lia). destruct (merge ps a b) as [rest r] eqn:E. intros [= <- ->].
      destruct (IH a b rest a' b' Hab Hb Hok Hap E) as (H1 & H2 & H3 & H4 & H5 & H6 & H7 & H8 & H9 & H10).
      change (runs (Some (s, e) :: rest)) with ((s, e) :: runs rest). cbn [length all_apart].
      destruct (H9 (s, e)) as [Hs1 Hs2]; [unfold apart; simpl; lia|done|done|]. split_and!; try done; try lia.
      * by constructor.
      * constructor; [by apply apart_sym|done].
      * intros p Hp [Hpse Hps]%Forall_cons Hpok. destruct (H9 p Hp Hps Hpok). split; [done|by constructor].
      * intros i. rewrite !covers_cons. specialize (H10 i). tauto.
  - destruct (merge ps a b) as [rest r] eqn:E. intros [= <- ->].
    change (runs (None :: ps)) with (runs ps) in *. change (runs (None :: rest)) with (runs rest).
    destruct (IH _ _ _ _ _ Hab Hb Hok Hap E) as (H1 & H2 & H3 & H4 & H5 & H6 & H7 & H8 & H9 & H10). cbn [length]. split_and!; try done. lia.
Qed.


(** ** A set as a map of the bytes that arrived *)

Record set_wf (s : Set_) : Prop := {
  wf_slots : length (s_pieces s) = PIECES;
  wf_runs : Forall run_ok (runs (s_pieces s));
  wf_apart : all_apart (runs (s_pieces s));
  wf_data : length (s_data s) = MAX }.

Definition rep (s : Set_) (W : gmap nat Z) : Prop :=
  (∀ i, is_Some (W !! i) ↔ covers (runs (s_pieces s)) i) ∧ ∀ i x, W !! i = Some x → s_data s !! i = Some x.

Lemma free_slot ps : length (runs ps) < length ps → is_Some (position is_none ps).
Proof.
  induction ps as [|[p|] ps IH]; simpl; [lia| |done]. intros H. destruct IH as [i ->]; [lia|]. done.
Qed.

(** A run put into a free slot. *)
Lemma runs_insert ps i p :
  position is_none ps = Some i → runs (<[i := Some p]> ps) ≡ₚ p :: runs ps.
Proof.
  intros (x & Hx & Hn)%position_lookup. destruct x; [done|].
  destruct (omap_insert_Permutation (λ p : option Piece, p) ps i None (Some p) Hx) as (k & E1 & E2).
  unfold runs. rewrite E1, E2. done.
Qed.

Lemma add_total s at_ b : set_wf s → is_Some (add s at_ b).
Proof.
  intros Hwf. unfold add. case_match; [|done]. case_match; [done|]. breflect. unfold put.
  rewrite (proj2 (Nat.leb_le _ _)) by (by rewrite (wf_data s Hwf)). cbn [mbind option_bind].
  destruct (merge _ _ _) as [ps [x y]]. by case_match.
Qed.

Lemma as_u16_small n : n ≤ MAX → as_u16 n = n.
Proof. intros Hn. apply as_u16_id. unfold MAX in Hn. lia. Qed.

Lemma checked_add_usize a b : a + b ≤ MAX → checked_add 64 (Z.of_nat a) (Z.of_nat b) = Some (Z.of_nat (a + b)).
Proof. intros Hn. apply checked_add_Some. unfold MAX, u_max in *. lia. Qed.

(** Taking a fragment in puts its bytes over those that were there. *)
Lemma add_spec s W at_ b s' ok :
  set_wf s → rep s W → add s at_ b = Some (s', ok) →
  s_key s' = s_key s ∧ s_total s' = s_total s ∧ length (s_data s') = MAX ∧ (at_ + length b ≤ MAX → length (runs (s_pieces s)) < PIECES → ok = true) ∧
  (ok = true → at_ + length b ≤ MAX ∧ set_wf s' ∧ rep s' (map_seq at_ b ∪ W) ∧
     length (runs (s_pieces s')) ≤ S (length (runs (s_pieces s)))).
Proof.
  intros Hwf [HW1 HW2]. unfold add. destruct (decide (at_ + length b ≤ MAX)) as [Hle|Hgt].
  2:{ case_match; [|intros [= <- <-]; split_and!; try done; try lia; apply Hwf].
      destruct (Nat.ltb_spec MAX (at_ + length b)); [|lia]. intros [= <- <-]. split_and!; try done; try lia; apply Hwf. }
  rewrite checked_add_usize by done. destruct (Nat.ltb_spec MAX (at_ + length b)); [lia|]. unfold put.
  rewrite (proj2 (Nat.leb_le _ _)) by (by rewrite (wf_data s Hwf)). cbn [mbind option_bind].
  destruct (merge _ _ _) as [ps [x y]] eqn:Em. rewrite as_u16_small in Em by done.
  destruct (merge_spec _ _ _ _ _ _ (Nat.le_add_r at_ (length b)) Hle (wf_runs s Hwf) (wf_apart s Hwf) Em)
    as (H1 & H2 & H3 & H4 & H5 & H6 & H7 & H8 & _ & H10).
  assert (length (firstn at_ (s_data s) ++ b ++ drop (at_ + length b) (s_data s)) = MAX) as Hdl.
  { rewrite !length_app, length_firstn, length_drop, (wf_data s Hwf). lia. }
  rewrite (wf_slots s Hwf) in H4. destruct (position is_none ps) as [k|] eqn:Ep; intros [= <- <-]; cbn.
  2:{ split_and!; try done. intros _ Hlt. destruct (free_slot ps) as [? E]; [lia|]. congruence. }
  pose proof (runs_insert ps k (x, y) Ep) as Hp. split_and!; try done. intros _. split_and!; [done|..].
  - split; cbn.
    + by rewrite length_insert.
    + rewrite Hp. constructor; [unfold run_ok; simpl; lia|done].
    + eapply all_apart_perm; [symmetry; exact Hp|]. done.
    + done.
  - split; cbn.
    + intros i. rewrite (covers_perm _ _ i Hp), covers_cons. simpl. rewrite H10, <-HW1, lookup_union_is_Some.
      apply or_iff_compat_r. rewrite <-not_eq_None_Some, lookup_map_seq_None. lia.
    + intros i v. rewrite lookup_union_Some_raw. intros [[Hat Hv]%lookup_map_seq_Some|[Hn Hv]].
      * rewrite lookup_app_r; rewrite length_firstn, (wf_data s Hwf); [|lia]. rewrite lookup_app_l by (apply lookup_lt_Some in Hv; lia).
        rewrite <-Hv. f_equal. lia.
      * rewrite lookup_map_seq_None in Hn. specialize (HW2 i v Hv). destruct Hn as [Hi|Hi].
        -- rewrite lookup_app_l, lookup_take_lt by (rewrite ?length_firstn, ?(wf_data s Hwf); lia). done.
        -- rewrite lookup_app_r; rewrite length_firstn, (wf_data s Hwf); [|lia]. rewrite lookup_app_r by lia. rewrite lookup_drop, <-HW2. f_equal. lia.
  - rewrite Hp. simpl. lia.
Qed.

(** Complete: every byte up to the announced length is there. *)
Lemma complete_spec s W t :
  set_wf s → rep s W → s_total s = Some t → 0 < t → complete s = Some t ↔ ∀ i, i < t → is_Some (W !! i).
Proof.
  intros Hwf [HW _] Ht Hpos. unfold complete. rewrite Ht. cbn [mbind option_bind].
  transitivity (∃ e, (0, e) ∈ runs (s_pieces s) ∧ t ≤ e).
  - assert (∀ p, Some p ∈ s_pieces s ↔ p ∈ runs (s_pieces s)) as Hin.
    { intros p. unfold runs. rewrite list_elem_of_omap. split; [eauto|]. intros (q & Hq & ->). done. }
    destruct (existsb _ _) eqn:E.
    + apply existsb_exists in E as ([[st e]|] & Hp & Hb); [|done]. apply list_elem_of_In, Hin in Hp. breflect. subst. split; [eauto|done].
    + split; [done|]. intros (e & He & Hle). exfalso. apply not_true_iff_false in E. apply E. apply existsb_exists.
      exists (Some (0, e)). split; [by apply list_elem_of_In, Hin|]. simpl. by apply Nat.leb_le.
  - setoid_rewrite HW. split.
    + intros (e & He & Hle) i Hi. exists (0, e). split; [done|]. simpl. lia.
    + intros Hc. destruct (Hc 0 Hpos) as ([st e] & Hp & Hst). simpl in Hst. assert (st = 0) as -> by lia.
      exists e. split; [done|]. destruct (decide (t ≤ e)); [done|]. exfalso.
      destruct (Hc e ltac:(lia)) as ([st' e'] & Hq & Hi). simpl in Hi.
      apply elem_of_Permutation in Hp as [k Hk]. pose proof (all_apart_perm _ _ Hk (wf_apart s Hwf)) as [Hap _].
      rewrite Hk in Hq. apply elem_of_cons in Hq as [[= -> ->]|Hq]; [lia|].
      rewrite Forall_forall in Hap. specialize (Hap _ Hq). unfold apart in Hap. simpl in Hap. lia.
Qed.


(** ** The reassembler *)

Lemma set_for_spec r key now :
  r ≠ [] → ∃ i s s0, set_for r key now = Some (<[i := s]> r, Some i) ∧ r !! i = Some s0 ∧ s_key s = Some key ∧ s_data s = s_data s0 ∧
    (s = s0 ∨ (s_pieces s = replicate PIECES None ∧ s_total s = None)) ∧
    (s_key s0 = Some key ∨ ∀ s', s' ∈ r → s_key s' ≠ Some key) ∧ (s = s0 ↔ s_key s0 = Some key).
Proof.
  intros Hr. unfold set_for. destruct (position (λ s, bool_decide (s_key s = Some key)) r) as [i|] eqn:Ep.
  - apply position_lookup in Ep as (s & Hs & Hk). breflect. exists i, s, s. rewrite list_insert_id by done. split_and!; auto. done.
  - rewrite position_None in Ep. assert (∀ s', s' ∈ r → s_key s' ≠ Some key) as Hno.
    { intros s' [j Hj]%list_elem_of_lookup Hk. specialize (Ep _ _ Hj). by breflect. }
    assert (∃ i, (match position (λ s, is_none (s_key s)) r with Some i => Some i | None => min_by_key s_deadline r end) = Some i ∧ i < length r)
      as (i & -> & Hi).
    { destruct (position _ r) as [i|] eqn:Ef; [apply position_lt in Ef; eauto|].
      destruct (min_by_key_is_Some s_deadline r Hr) as [i Hi]. exists i. split; [done|].
      apply min_by_key_Some in Hi as (x & Hx & _). by eapply lookup_lt_Some. }
    destruct (lookup_lt_is_Some_2 r i Hi) as [s0 Hs0]. rewrite Hs0. cbn [mbind option_bind].
    eexists i, _, s0. split; [done|]. split_and!; try done; auto. pose proof (Hno s0 ltac:(by eapply list_elem_of_lookup_2)).
    split; [|done]. intros <-. done.
Qed.

Section Tracking.
(** What is known of a datagram: its key, the bytes that arrived, and its length once known. *)
Context (P : Key → gmap nat Z → option nat → Prop).

Definition good_set (s : Set_) : Prop :=
  length (s_data s) = MAX ∧
  ∀ k, s_key s = Some k → set_wf s ∧ (∀ t, s_total s = Some t → t ≤ MAX) ∧ ∃ W, rep s W ∧ P k W (s_total s).

Definition frag_key (src dst : list Z) (protocol : Z) (f : Fragment) : Key :=
  {| k_src := src; k_dst := dst; k_id := frag_id f; k_protocol := protocol |}.

Lemma take_good r src dst protocol f b now :
  let key := frag_key src dst protocol f in
  P key ∅ None →
  (∀ W t, P key W t → P key (map_seq (frag_offset f) b ∪ W) (if frag_more f then t else Some (frag_offset f + length b))) →
  r ≠ [] → Forall good_set r →
  ∃ r' t, take r src dst protocol f b now = Some (r', t) ∧ length r' = length r ∧ Forall good_set r' ∧
    ∀ i, t = Complete i → ∃ s n, r' !! i = Some s ∧ s_key s = Some key ∧ complete s = Some n.
Proof.
  intros key HP0 HP Hr Hg. unfold take. destruct (_ <? _)%Z; [exists r, Dropped; by split_and!|]. cbv zeta. fold (frag_key src dst protocol f). fold key.
  destruct (set_for_spec r key now Hr) as (i & s & s0 & -> & Hs0 & Hk & Hd & Hs & _). cbn [mbind option_bind].
  pose proof (lookup_lt_Some _ _ _ Hs0) as Hi. rewrite list_lookup_insert_eq by done. cbn [mbind option_bind].
  pose proof (Forall_lookup_1 _ _ _ _ Hg Hs0) as [Hl0 Hg0].
  assert (set_wf s ∧ ∃ W, rep s W ∧ P key W (s_total s)) as (Hwf & W & HW & HPW).
  { destruct Hs as [->|[Hp Ht]]; [by destruct (Hg0 _ Hk) as (? & _ & ?)|]. split.
    - split; rewrite ?Hp; try done. by rewrite Hd.
    - exists ∅. split; [|by rewrite Ht]. unfold rep. rewrite Hp. split; [|by intros ? ?; rewrite lookup_empty].
      intros j. rewrite lookup_empty. split; [by intros []|]. intros (? & ?%elem_of_nil & _). done. }
  assert (∀ s', length (s_data s') = MAX → s_key s' = None → good_set s') as Hnone by (intros s' ? E; split; [done|intros ?; by rewrite E]).
  assert (∀ s' t, good_set s' → (∀ j, t = Complete j → j = i ∧ s_key s' = Some key ∧ ∃ n, complete s' = Some n) →
    ∃ r' t', Some (<[i := s']> (<[i := s]> r), t) = Some (r', t') ∧ length r' = length r ∧ Forall good_set r' ∧
      ∀ j, t' = Complete j → ∃ s n, r' !! j = Some s ∧ s_key s = Some key ∧ complete s = Some n) as Hdone.
  { intros s' t Hs' Ht. exists (<[i := s']> r), t. rewrite list_insert_insert_eq. split_and!; [done|by rewrite length_insert|by apply Forall_insert|].
    intros j (-> & Hk' & n & Hn)%Ht. exists s', n. by rewrite list_lookup_insert_eq. }
  destruct (negb (frag_more f) && _); [apply Hdone; [apply Hnone; [apply Hwf|done]|done]|].
  set (s1 := if frag_more f then s else set_total _ s).
  assert (set_wf s1 ∧ rep s1 W ∧ s_key s1 = Some key) as (Hwf1 & HW1 & Hk1).
  { unfold s1. destruct (frag_more f); [done|]. split; [by destruct Hwf|done]. }
  destruct (add_total s1 (frag_offset f) b Hwf1) as [[s2 ok] Ha]. rewrite Ha. cbn [mbind option_bind].
  destruct (add_spec _ _ _ _ _ _ Hwf1 HW1 Ha) as (E1 & E2 & E3 & _ & Hok). destruct ok; cbn [negb].
  - destruct (Hok eq_refl) as (Hle & Hwf2 & HW2 & _). apply Hdone.
    + split; [done|]. intros k. rewrite E1, Hk1. intros [= <-]. split; [done|].
      assert (P key (map_seq (frag_offset f) b ∪ W) (s_total s2)) as HP2.
      { rewrite E2. specialize (HP W (s_total s) HPW). unfold s1. by destruct (frag_more f). }
      split; [|eauto]. intros t. rewrite E2. unfold s1. destruct (frag_more f) eqn:Em; [|intros [= <-]; done].
      intros Ht. destruct Hs as [->|[_ Ht']]; [|by rewrite Ht' in Ht]. destruct (Hg0 _ Hk) as (_ & Hmax & _). by apply Hmax.
    + intros j. destruct (complete s2) eqn:Ec; [|done]. intros [= <-]. split_and!; [done|by rewrite E1|eauto].
  - apply Hdone; [by apply Hnone|done].
Qed.
End Tracking.


(** ** Runs of the reassembler *)

Inductive event : Type :=
| ETake (src dst : list Z) (protocol : Z) (f : Fragment) (b : Bytes) (now : Z)
| EExpire (now : Z)
| ERelease (i : nat).

Definition step (r : Reassembler) (e : event) : option Reassembler :=
  match e with
  | ETake src dst protocol f b now => fst <$> take r src dst protocol f b now
  | EExpire now => Some (expire r now).1
  | ERelease i => Some (release r i)
  end.
Fixpoint run (r : Reassembler) (evs : list event) : option Reassembler :=
  match evs with [] => Some r | e :: evs => r' ← step r e; run r' evs end.

(** The fragments that carry the key [k] are parts of the datagram [d]. *)
Definition honest (k : Key) (d : Bytes) (e : event) : Prop :=
  match e with
  | ETake src dst protocol f b _ =>
      frag_key src dst protocol f = k →
      (∀ j x, b !! j = Some x → d !! (frag_offset f + j) = Some x) ∧
      (frag_more f = false → frag_offset f + length b = length d)
  | _ => True
  end.

Lemma good_unkeyed P s : length (s_data s) = MAX → good_set P (set_key None s).
Proof. intros H. by split. Qed.

Lemma expire_good P r now : Forall (good_set P) r → Forall (good_set P) (expire r now).1 ∧ length (expire r now).1 = length r.
Proof.
  induction 1 as [|s r Hs Hr IH]; simpl; [done|]. destruct (expire r now) as [r' n]. simpl in *. destruct IH as [H1 H2].
  case_match; simpl; (split; [constructor; [|done]|by rewrite H2]); [apply good_unkeyed, Hs|done].
Qed.

Lemma release_good P r i : Forall (good_set P) r → Forall (good_set P) (release r i) ∧ length (release r i) = length r.
Proof.
  intros Hr. unfold release. rewrite length_alter. split; [|done]. apply Forall_alter; [done|].
  intros s _ Hs. apply good_unkeyed, Hs.
Qed.

Lemma new_good P : Forall (good_set P) new ∧ length new = SETS.
Proof. split; [|done]. apply Forall_replicate. split; [apply length_replicate|done]. Qed.

(** Nothing an event brings makes it panic, and the memory stays the same. *)
Lemma run_any r evs :
  r ≠ [] → Forall (good_set (λ _ _ _, True)) r →
  ∃ r', run r evs = Some r' ∧ length r' = length r ∧ Forall (good_set (λ _ _ _, True)) r'.
Proof.
  revert r. induction evs as [|e evs IH]; intros r Hr Hg; [eauto|]. simpl.
  assert (∃ r1, step r e = Some r1 ∧ length r1 = length r ∧ Forall (good_set (λ _ _ _, True)) r1) as (r1 & -> & Hl & Hg1).
  { destruct e as [src dst pr f b now|now|i]; simpl.
    - destruct (take_good (λ _ _ _, True) r src dst pr f b now) as (r1 & t & -> & Hl & Hg1 & _); try done. eauto.
    - destruct (expire_good _ r now Hg). eauto.
    - destruct (release_good _ r i Hg). eauto. }
  destruct (IH r1) as (r' & H1 & H2 & H3); [|done|exists r'; split_and!; [done|congruence|done]].
  intros ->. by destruct r.
Qed.

Definition known (k : Key) (d : Bytes) (k' : Key) (W : gmap nat Z) (t : option nat) : Prop :=
  k' = k → W ⊆ map_seq 0 d ∧ ∀ n, t = Some n → n = length d.

Lemma known_empty k d k' : known k d k' ∅ None.
Proof. intros _. split; [apply map_empty_subseteq|done]. Qed.

Lemma known_arrive k d src dst pr f b now W t :
  honest k d (ETake src dst pr f b now) → known k d (frag_key src dst pr f) W t →
  known k d (frag_key src dst pr f) (map_seq (frag_offset f) b ∪ W) (if frag_more f then t else Some (frag_offset f + length b)).
Proof.
  intros Hh Hkn Hk. destruct (Hh Hk) as [Hb Hm], (Hkn Hk) as [HW Ht]. split.
  - apply map_union_least; [|done]. apply map_subseteq_spec. intros i x [Hi Hx]%lookup_map_seq_Some.
    apply lookup_map_seq_Some. split; [lia|]. specialize (Hb _ _ Hx). rewrite <-Hb. f_equal. lia.
  - destruct (frag_more f); [done|]. intros n [= <-]. by apply Hm.
Qed.

Lemma run_honest k d r evs r' :
  r ≠ [] → Forall (honest k d) evs → Forall (good_set (known k d)) r → run r evs = Some r' → Forall (good_set (known k d)) r'.
Proof.
  revert r. induction evs as [|e evs IH]; intros r Hr Hh Hg; simpl; [by intros [= <-]|].
  apply Forall_cons in Hh as [He Hh]. intros (r1 & Hs & Hrun)%bind_Some.
  assert (length r1 = length r ∧ Forall (good_set (known k d)) r1) as [Hl Hg1]; [|apply (IH r1); try done; intros ->; by destruct r].
  destruct e as [src dst pr f b now|now|i]; simpl in Hs.
  - destruct (take_good (known k d) r src dst pr f b now) as (r2 & t & E & Hl & Hg1 & _);
      [apply known_empty|intros; by eapply known_arrive|done|done|]. rewrite E in Hs. by simplify_eq/=.
  - simplify_eq. by destruct (expire_good _ r now Hg).
  - simplify_eq. by destruct (release_good _ r i Hg).
Qed.

(** What a complete set holds is what arrived, up to the length the last fragment gave. *)
Lemma datagram_spec P r i d :
  Forall (good_set P) r → datagram r i = Some d →
  ∃ s k W, r !! i = Some s ∧ s_key s = Some k ∧ P k W (Some (length (d_payload d))) ∧
    (∀ j, j < length (d_payload d) → is_Some (W !! j) ∧ d_payload d !! j = W !! j) ∧
    d_src d = k_src k ∧ d_dst d = k_dst k ∧ d_protocol d = k_protocol k.
Proof.
  intros Hg (s & Hs & (k & Hk & (t & Ht & (b & Hb & [= <-])%bind_Some)%bind_Some)%bind_Some)%bind_Some.
  pose proof (Forall_lookup_1 _ _ _ _ Hg Hs) as [Hl Hgs]. destruct (Hgs k Hk) as (Hwf & Hmax & W & HW & HP).
  assert (s_total s = Some t) as Hst by (unfold complete in Ht; destruct (s_total s); [|done]; simpl in Ht; case_match; by simplify_eq).
  unfold get_range in Hb. rewrite (proj2 (Nat.leb_le _ _)) in Hb by (rewrite Hl; by apply Hmax). injection Hb as <-.
  rewrite drop_0. assert (length (firstn t (s_data s)) = t) as Hlen by (rewrite length_firstn, Hl; specialize (Hmax t Hst); lia).
  exists s, k, W. cbn. rewrite Hlen. split_and!; try done; [by rewrite <-Hst|]. intros j Hj. rewrite lookup_take_lt by done.
  rewrite (complete_spec s W t Hwf HW Hst) in Ht by lia. destruct (Ht j Hj) as [x Hx]. rewrite Hx. split; [done|]. by apply HW.
Qed.


(** ** A datagram whose fragments all arrive *)

(** One fragment into the set its key leads to. *)
Lemma take_at r src dst pr f b now i s W :
  let key := frag_key src dst pr f in
  set_for r key now = Some (<[i := s]> r, Some i) → i < length r → s_key s = Some key → set_wf s → rep s W →
  frag_offset f + length b ≤ MAX → length (runs (s_pieces s)) < PIECES →
  ∃ s', take r src dst pr f b now = Some (<[i := s']> r, match complete s' with Some _ => Complete i | None => Held end) ∧
    s_key s' = Some key ∧ set_wf s' ∧ rep s' (map_seq (frag_offset f) b ∪ W) ∧
    s_total s' = (if frag_more f then s_total s else Some (frag_offset f + length b)) ∧
    length (runs (s_pieces s')) ≤ S (length (runs (s_pieces s))).
Proof.
  intros key Hf Hi Hk Hwf HW Hle Hlt. unfold take. pose proof Hle as Hle'. unfold MAX in Hle'.
  destruct (Z.ltb_spec u16_MAX (Z.of_nat (frag_offset f))); [unfold u_max in *; lia|].
  cbv zeta. fold (frag_key src dst pr f). fold key. rewrite Hf. cbn [mbind option_bind].
  rewrite list_lookup_insert_eq by done. cbn [mbind option_bind].
  destruct (Z.ltb_spec u16_MAX (Z.of_nat (frag_offset f + length b))); [unfold u_max in *; lia|]. rewrite andb_false_r.
  set (s1 := if frag_more f then s else set_total _ s).
  assert (set_wf s1 ∧ rep s1 W ∧ s_key s1 = Some key ∧ s_pieces s1 = s_pieces s) as (Hwf1 & HW1 & Hk1 & Hp1).
  { unfold s1. destruct (frag_more f); [done|]. split; [by destruct Hwf|done]. }
  destruct (add_total s1 (frag_offset f) b Hwf1) as [[s2 ok] Ha]. rewrite Ha. cbn [mbind option_bind].
  destruct (add_spec _ _ _ _ _ _ Hwf1 HW1 Ha) as (E1 & E2 & _ & E3 & Hok). rewrite Hp1 in *. rewrite E3 in Hok |- * by done.
  destruct (Hok eq_refl) as (_ & Hwf2 & HW2 & Hn). cbn [negb]. exists s2. rewrite list_insert_insert_eq. split_and!; try done.
  - by rewrite E1.
  - rewrite E2. unfold s1. by destruct (frag_more f).
Qed.

(** The fragments a datagram is cut into: each part with its offset. *)
Fixpoint offsets (at_ : nat) (parts : list Bytes) : list (nat * Bytes) :=
  match parts with [] => [] | b :: parts => (at_, b) :: offsets (at_ + length b) parts end.

Lemma offsets_part at_ parts o b :
  (o, b) ∈ offsets at_ parts →
  at_ ≤ o ∧ o + length b ≤ at_ + length (concat parts) ∧ ∀ j x, b !! j = Some x → concat parts !! (o - at_ + j) = Some x.
Proof.
  revert at_. induction parts as [|c parts IH]; intros at_; simpl; [by intros ?%elem_of_nil|].
  rewrite length_app. intros [[= -> ->]|Hin]%elem_of_cons.
  - split_and!; [lia..|]. intros j x Hx. rewrite lookup_app_l by (apply lookup_lt_Some in Hx; lia). by replace (at_ - at_ + j) with j by lia.
  - destruct (IH _ Hin) as (H1 & H2 & H3). split_and!; [lia..|]. intros j x Hx. rewrite lookup_app_r by lia. rewrite <-(H3 j x Hx). f_equal. lia.
Qed.

Lemma offsets_cover at_ parts i :
  at_ ≤ i < at_ + length (concat parts) → ∃ o b, (o, b) ∈ offsets at_ parts ∧ o ≤ i < o + length b.
Proof.
  revert at_. induction parts as [|c parts IH]; intros at_; simpl; [lia|]. rewrite length_app. intros Hi.
  destruct (decide (i < at_ + length c)); [exists at_, c; split; [left|lia]|].
  destruct (IH (at_ + length c)) as (o & b & Hin & Ho); [lia|]. exists o, b. split; [by right|done].
Qed.

Section Arrival.
Context (src dst : list Z) (pr id : Z) (D : Bytes).

(** The fragment of [D] that holds [b] at [o]. *)
Definition fragment_of (o : nat) (b : Bytes) : Fragment :=
  {| frag_id := id; frag_offset := o; frag_more := negb (o + length b =? length D) |}.
Definition key_of : Key := {| k_src := src; k_dst := dst; k_id := id; k_protocol := pr |}.
Definition part_of (p : nat * Bytes) : Prop :=
  p.1 + length p.2 ≤ length D ∧ ∀ j x, p.2 !! j = Some x → D !! (p.1 + j) = Some x.

(** [r] holds in set [i] exactly the parts [arrived] of [D]. *)
Record tracks (r : Reassembler) (i : nat) (arrived : list (nat * Bytes)) (s : Set_) (W : gmap nat Z) : Prop := {
  tr_set : r !! i = Some s;
  tr_key : s_key s = Some key_of;
  tr_wf : set_wf s;
  tr_rep : rep s W;
  tr_bytes : W ⊆ map_seq 0 D;
  tr_cover : ∀ o b j, (o, b) ∈ arrived → o ≤ j < o + length b → is_Some (W !! j);
  tr_total : ∀ o b, (o, b) ∈ arrived → o + length b = length D → s_total s = Some (length D);
  tr_runs : length (runs (s_pieces s)) ≤ length arrived;
  tr_only : ∀ j s', r !! j = Some s' → s_key s' = Some key_of → j = i }.

Definition data_ok (r : Reassembler) : Prop := Forall (λ s, length (s_data s) = MAX) r.

Lemma take_tracks r arrived o b now :
  data_ok r → r ≠ [] → part_of (o, b) → length D ≤ MAX → length arrived < PIECES →
  (arrived = [] ∧ (∀ s', s' ∈ r → s_key s' ≠ Some key_of)) ∨ (∃ i s W, tracks r i arrived s W) →
  ∃ r' i s W, take r src dst pr (fragment_of o b) b now = Some (r', match complete s with Some _ => Complete i | None => Held end) ∧
    data_ok r' ∧ r' ≠ [] ∧ tracks r' i ((o, b) :: arrived) s W.
Proof.
  intros Hd Hr [Hpl Hpb] HD Hn Htr. simpl in *.
  destruct (set_for_spec r key_of now Hr) as (i & s & s0 & Hf & Hs0 & Hk & Hsd & Hs & Hor & Hiff).
  pose proof (lookup_lt_Some _ _ _ Hs0) as Hi.
  assert (∃ W, set_wf s ∧ rep s W ∧ W ⊆ map_seq 0 D ∧ (∀ o b j, (o, b) ∈ arrived → o ≤ j < o + length b → is_Some (W !! j)) ∧
    (∀ o b, (o, b) ∈ arrived → o + length b = length D → s_total s = Some (length D)) ∧
    length (runs (s_pieces s)) ≤ length arrived ∧ ∀ j s', r !! j = Some s' → s_key s' = Some key_of → j = i)
    as (W & Hwf & HW & HWD & Hc & Ht & Hl & Ho).
  { destruct Htr as [[-> Hno]|(i' & s' & W & [])].
    - pose proof (Hno s0 ltac:(by eapply list_elem_of_lookup_2)) as Hne. destruct Hs as [<-|[Hp Htot]]; [done|].
      exists ∅. split_and!; [|split|..].
      + split; rewrite ?Hp; try done. rewrite Hsd. by apply (Forall_lookup_1 _ _ _ _ Hd Hs0).
      + intros j. rewrite lookup_empty, Hp. split; [by intros []|]. intros (? & ?%elem_of_nil & _). done.
      + intros ? ?. by rewrite lookup_empty.
      + apply map_empty_subseteq.
      + by intros ? ? ? ?%elem_of_nil.
      + by intros ? ? ?%elem_of_nil.
      + by rewrite Hp.
      + intros j s' Hj Hk'. exfalso. apply (Hno s'); [by eapply list_elem_of_lookup_2|done].
    - destruct Hor as [Hk0|Hno]; [|exfalso; by apply (Hno s' (list_elem_of_lookup_2 _ _ _ tr_set0))].
      pose proof (tr_only0 _ _ Hs0 Hk0) as ->. apply Hiff in Hk0 as ->. rewrite tr_set0 in Hs0. simplify_eq. exists W. by split_and!. }
  destruct (take_at r src dst pr (fragment_of o b) b now i s W Hf Hi Hk Hwf HW) as (s2 & E & Hk2 & Hwf2 & HW2 & Ht2 & Hn2); [simpl; lia|lia|].
  rewrite E. exists (<[i := s2]> r), i, s2, (map_seq o b ∪ W). split; [done|]. split_and!.
  - apply Forall_insert; [done|apply Hwf2].
  - intros E0%(f_equal length). rewrite length_insert in E0. by destruct r.
  - split; try done.
    + by rewrite list_lookup_insert_eq.
    + apply map_union_least; [|done]. apply map_subseteq_spec. intros j x [Hj Hx]%lookup_map_seq_Some.
      apply lookup_map_seq_Some. split; [lia|]. rewrite <-(Hpb _ _ Hx). f_equal. lia.
    + intros o' b' j [[= -> ->]|Hin]%elem_of_cons Hj; apply lookup_union_is_Some; [left|right; by eapply Hc].
      rewrite <-not_eq_None_Some, lookup_map_seq_None. lia.
    + intros o' b' Hin El. rewrite Ht2. simpl. destruct (Nat.eqb_spec (o + length b) (length D)) as [->|Hne]; [done|]. simpl.
      apply elem_of_cons in Hin as [[= -> ->]|Hin]; [done|]. by eapply Ht.
    + simpl. lia.
    + intros j s' Hj Hk'. destruct (decide (j = i)) as [->|Hne]; [done|]. rewrite list_lookup_insert_ne in Hj by done. by eapply Ho.
Qed.

(** Every part of [D] taken in: the set is complete, and holds [D]. *)
Lemma tracks_complete r i arrived s W :
  tracks r i arrived s W → 0 < length D → length D ≤ MAX →
  (∀ j, j < length D → ∃ o b, (o, b) ∈ arrived ∧ o ≤ j < o + length b) →
  (∃ o b, (o, b) ∈ arrived ∧ o + length b = length D) →
  complete s = Some (length D) ∧ datagram r i = Some {| d_src := src; d_dst := dst; d_protocol := pr; d_payload := D |}.
Proof.
  intros [] Hpos HD Hall (o & b & Hin & El). assert (complete s = Some (length D)) as Hc.
  { apply (complete_spec s W); [done|done|by eapply tr_total0|done|]. intros j (o' & b' & Hin' & Hj)%Hall. by eapply tr_cover0. }
  split; [done|]. unfold datagram. rewrite tr_set0. cbn [mbind option_bind]. rewrite tr_key0. cbn [mbind option_bind].
  rewrite Hc. cbn [mbind option_bind]. rewrite get_prefix by (by rewrite (wf_data s tr_wf0)). cbn [mbind option_bind]. do 2 f_equal.
  apply list_eq_same_length with (length D); [done|rewrite length_firstn, (wf_data s tr_wf0); lia|].
  intros j x y Hj Hx Hy. rewrite lookup_take_lt in Hx by done. destruct (Hall j Hj) as (o' & b' & Hin' & Hj').
  destruct (tr_cover0 _ _ _ Hin' Hj') as [z Hz]. destruct tr_rep0 as [_ Hrep]. rewrite (Hrep _ _ Hz) in Hx.
  eapply lookup_weaken in Hz; [|exact tr_bytes0]. apply lookup_map_seq_Some in Hz as [_ Hz]. rewrite Nat.sub_0_r in Hz. congruence.
Qed.
End Arrival.


Lemma run_tracks src dst pr id D r arrived (fs : list (nat * Bytes * Z)) :
  data_ok r → r ≠ [] → Forall (part_of D) fs.*1 → length D ≤ MAX → length arrived + length fs ≤ PIECES →
  (arrived = [] ∧ (∀ s', s' ∈ r → s_key s' ≠ Some (key_of src dst pr id))) ∨ (∃ i s W, tracks src dst pr id D r i arrived s W) →
  ∃ r', run r ((λ e, ETake src dst pr (fragment_of id D e.1.1 e.1.2) e.1.2 e.2) <$> fs) = Some r' ∧ data_ok r' ∧ r' ≠ [] ∧
    ((fs = [] ∧ arrived = [] ∧ (∀ s', s' ∈ r' → s_key s' ≠ Some (key_of src dst pr id))) ∨
     (∃ i s W, tracks src dst pr id D r' i (rev fs.*1 ++ arrived) s W)).
Proof.
  revert r arrived. induction fs as [|[[o b] now] fs IH]; intros r arrived Hd Hr Hp HD Hn Htr; csimpl.
  { exists r. split_and!; try done. destruct Htr as [[-> ?]|?]; [by left|by right]. }
  csimpl in Hp. apply Forall_cons in Hp as [Hob Hp]. cbn [length] in Hn.
  destruct (take_tracks src dst pr id D r arrived o b now Hd Hr Hob HD ltac:(lia) Htr) as (r1 & i & s & W & E & Hd1 & Hr1 & Ht1).
  cbn [run step fst snd] in *. rewrite E. cbn [fmap option_fmap option_map fst mbind option_bind].
  destruct (IH r1 ((o, b) :: arrived)) as (r' & Hrun & Hd' & Hr' & Htr'); try done; [cbn [length]; lia|right; eauto|].
  exists r'. split_and!; try done. right. destruct Htr' as [(_ & ? & _)|(i' & s' & W' & Ht')]; [done|]. exists i', s', W'. simpl. by rewrite <-(assoc_L (++)).
Qed.

(** ** Properties *)

(** C32. Whatever fragments arrive, from whomever, in whatever order and at whatever times, the
    reassembler does not panic, and its memory is the same two sets; a fragment that is
    answered [Complete] leaves a datagram to read.  If the fragments that carried one key are
    parts of one datagram, however they overlap and whatever other senders do meanwhile, then
    what is read under that key is that datagram, byte for byte. *)
Theorem reassembly_gives_the_senders_datagram (evs : list event) :
  ∃ r, run new evs = Some r ∧ length r = SETS ∧ in_use r ≤ SETS ∧ data_ok r ∧
    (∀ src dst pr f b now, ∃ r' t, take r src dst pr f b now = Some (r', t) ∧ ∀ i, t = Complete i → is_Some (datagram r' i)) ∧
    ∀ k d i done_, Forall (honest k d) evs → datagram r i = Some done_ → (s_key <$> r !! i) = Some (Some k) →
      done_ = {| d_src := k_src k; d_dst := k_dst k; d_protocol := k_protocol k; d_payload := d |}.
Proof.
  destruct (run_any new evs ltac:(done) (proj1 (new_good _))) as (r & Hrun & Hl & Hg). exists r.
  assert (length r = SETS) as Hlen by done. split_and!; try done.
  - rewrite <-Hlen. apply count_if_le.
  - eapply Forall_impl; [exact Hg|]. by intros s [].
  - intros src dst pr f b now. destruct (take_good (λ _ _ _, True) r src dst pr f b now) as (r' & t & E & _ & Hg' & Hc); try done.
    { intros ->. done. }
    exists r', t. split; [done|]. intros i (s & n & Hs & Hk & Hn)%Hc. pose proof (Forall_lookup_1 _ _ _ _ Hg' Hs) as [Hdl Hgs].
    destruct (Hgs _ Hk) as (_ & Hmax & _). unfold datagram. rewrite Hs. cbn [mbind option_bind]. rewrite Hk. cbn [mbind option_bind].
    rewrite Hn. cbn [mbind option_bind]. rewrite get_prefix; [done|]. rewrite Hdl. apply Hmax.
    unfold complete in Hn. destruct (s_total s); [|done]. simpl in Hn. case_match; by simplify_eq.
  - intros k d i done_ Hh Hd Hk. pose proof (run_honest k d new evs r ltac:(done) Hh (proj1 (new_good _)) Hrun) as Hg'.
    destruct (datagram_spec _ _ _ _ Hg' Hd) as (s & k' & W & Hs & Hk' & HP & HW & E1 & E2 & E3).
    rewrite Hs in Hk. simpl in Hk. rewrite Hk' in Hk. injection Hk as ->. destruct (HP eq_refl) as [Hsub Hlen'].
    destruct done_ as [x y z p]. simpl in *. subst. f_equal. apply list_eq_same_length with (length p); [symmetry; by apply Hlen'|done|].
    intros j a b Hj Ha Hb. destruct (HW j Hj) as [[c Hc] E]. rewrite E, Hc in Ha.
    eapply lookup_weaken in Hc; [|exact Hsub]. apply lookup_map_seq_Some in Hc as [_ Hc]. rewrite Nat.sub_0_r in Hc. congruence.
Qed.

Lemma reassembly_gives_the_senders_datagram_witness :
  let k := key_of [10; 0; 0; 1]%Z [10; 0; 0; 2]%Z 17 7 in
  let part o b := ETake [10; 0; 0; 1]%Z [10; 0; 0; 2]%Z 17 (fragment_of 7 [1; 2; 3; 4; 5]%Z o b) b 0 in
  ∃ r d, run new [part 2 [3; 4; 5]%Z; EExpire 5; part 0 [1; 2; 3]%Z] = Some r ∧ datagram r 0 = Some d ∧ d_payload d = [1; 2; 3; 4; 5]%Z.
Proof.
  intros k part. destruct (reassembly_gives_the_senders_datagram [part 2 [3; 4; 5]%Z; EExpire 5; part 0 [1; 2; 3]%Z])
    as (r & Hr & _ & _ & _ & _ & H).
  assert (∃ r d, run new [part 2 [3; 4; 5]%Z; EExpire 5; part 0 [1; 2; 3]%Z] = Some r ∧ datagram r 0 = Some d ∧ (s_key <$> r !! 0) = Some (Some k))
    as (r1 & d & Hr1 & Hd & Hk) by (eexists _, _; split_and!; [vm_compute; reflexivity..]).
  rewrite Hr in Hr1. injection Hr1 as <-. exists r, d. split_and!; [done..|]. rewrite (H k [1; 2; 3; 4; 5]%Z 0 d); [done| |done|done].
  clear. rewrite !Forall_cons. split_and!; try done; intros _; cbn; (split; [|done]); intros [|[|[|]]] x E; by simplify_eq/=.
Defined.



End Reasm.
