(* ===== verification/NetLink.v ===== *)
(** * The ARP cache and the frame buffer pool

    [kernel/net/src/arp.rs] and [kernel/net/src/pool.rs].  The cache is eight slots, each a
    mapping and the instant it stops being believed; its abstract view is the map from address
    to entry.  The pool is a fixed number of frame buffers handed out by index, with books of
    every take and give.  [None] from a pool operation that changes the books is the panic of
    a counter that overflows. *)

From S2P Require Import Prelude NetWire.
Import Wire.

(** ** The cache *)

Module ArpCache.

Definition ENTRIES : nat := 8.
Definition TTL_NS : Z := 60000000000.

Record Entry := { e_ip : list Z; e_mac : list Z; e_expires : Z }.
Record Cache := { c_entries : list (option Entry); c_ttl : Z }.

Definition with_ttl (ttl : Z) : Cache := {| c_entries := replicate ENTRIES None; c_ttl := ttl |}.
Definition new : Cache := with_ttl TTL_NS.

(** [iter().flatten().find(p)]. *)
Fixpoint find_entry (p : Entry → bool) (l : list (option Entry)) : option Entry :=
  match l with
  | [] => None
  | Some e :: l => if p e then Some e else find_entry p l
  | None :: l => find_entry p l
  end.

Definition lookup_arp (c : Cache) (ip : list Z) (now : Z) : option (list Z) :=
  e_mac <$> find_entry (λ e, bool_decide (e_ip e = ip) && (now <? e_expires e)%Z) (c_entries c).

Definition is_ip (ip : list Z) (o : option Entry) : bool :=
  match o with Some e => bool_decide (e_ip e = ip) | None => false end.
Definition stale (now : Z) (o : option Entry) : bool :=
  match o with Some e => (e_expires e <=? now)%Z | None => true end.
Definition expiry (o : option Entry) : Z := match o with Some e => e_expires e | None => 0 end.

(** Where the entry goes: its own slot, else a free or expired one, else the one closest to
    expiring. *)
Definition slot_for (c : Cache) (ip : list Z) (now : Z) : nat :=
  match position (is_ip ip) (c_entries c) with
  | Some i => i
  | None =>
      match position (stale now) (c_entries c) with
      | Some i => i
      | None => default 0 (min_by_key expiry (c_entries c))
      end
  end.

Definition insert_arp (c : Cache) (ip mac : list Z) (now : Z) : option Cache :=
  let entry := {| e_ip := ip; e_mac := mac; e_expires := saturating_add 64 now (c_ttl c) |} in
  entries ← set_at (c_entries c) (slot_for c ip now) (Some entry);
  Some {| c_entries := entries; c_ttl := c_ttl c |}.

Definition forget (c : Cache) (ip : list Z) : Cache :=
  {| c_entries := (λ o, if is_ip ip o then None else o) <$> c_entries c; c_ttl := c_ttl c |}.

Definition live (c : Cache) (now : Z) : nat :=
  count_if (λ o, match o with Some e => (now <? e_expires e)%Z | None => false end) (c_entries c).

(** ** No address twice *)

Definition addresses (l : list (option Entry)) : list (list Z) := omap (fmap e_ip) l.
Record wf (c : Cache) : Prop := {
  wf_size : length (c_entries c) = ENTRIES;
  wf_once : NoDup (addresses (c_entries c)) }.

(** The entry for an address, live or not. *)
Definition entry_of (c : Cache) (ip : list Z) : option Entry := find_entry (λ e, bool_decide (e_ip e = ip)) (c_entries c).

Lemma find_entry_Some p l e : find_entry p l = Some e → p e = true ∧ ∃ i, l !! i = Some (Some e).
Proof.
  induction l as [|[x|] l IH]; simpl; [done|..].
  - destruct (p x) eqn:E; [intros [= <-]; split; [done|by exists 0]|]. intros (? & i & ?)%IH. split; [done|by exists (S i)].
  - intros (? & i & ?)%IH. split; [done|by exists (S i)].
Qed.

Lemma find_entry_None p l : find_entry p l = None ↔ ∀ i e, l !! i = Some (Some e) → p e = false.
Proof.
  induction l as [|[x|] l IH]; simpl; [by split|..].
  - destruct (p x) eqn:E.
    + split; [done|]. intros H. specialize (H 0 x eq_refl). congruence.
    + rewrite IH. split; [intros H [|i] e Hi; simplify_eq/=; eauto|intros H i; apply (H (S i))].
  - rewrite IH. split; [intros H [|i] e Hi; simplify_eq/=; eauto|intros H i; apply (H (S i))].
Qed.

Lemma addresses_unique l i j e f :
  NoDup (addresses l) → l !! i = Some (Some e) → l !! j = Some (Some f) → e_ip e = e_ip f → i = j.
Proof.
  revert i j. induction l as [|[x|] l IH]; intros [|i] [|j] Hd Hi Hj He; simplify_eq/=; try done.
  - exfalso. apply NoDup_cons in Hd as [Hn _]. apply Hn. apply list_elem_of_omap. exists (Some f).
    split; [by eapply list_elem_of_lookup_2|]. simpl. congruence.
  - exfalso. apply NoDup_cons in Hd as [Hn _]. apply Hn. apply list_elem_of_omap. exists (Some e).
    split; [by eapply list_elem_of_lookup_2|]. simpl. congruence.
  - apply NoDup_cons in Hd as [_ Hd]. f_equal. by eapply IH.
  - f_equal. by eapply IH.
Qed.

Lemma entry_of_spec c ip e :
  wf c → entry_of c ip = Some e ↔ e_ip e = ip ∧ ∃ i, c_entries c !! i = Some (Some e).
Proof.
  intros [_ Hd]. unfold entry_of. split.
  - intros [Hp Hi]%find_entry_Some. by breflect.
  - intros [He [i Hi]]. destruct (find_entry _ _) as [f|] eqn:E.
    + apply find_entry_Some in E as [Hp [j Hj]]. breflect. assert (i = j) as <- by (eapply addresses_unique; eauto; congruence).
      congruence.
    + rewrite find_entry_None in E. specialize (E _ _ Hi). by breflect.
Qed.

(** A lookup reads the entry and its instant. *)
Lemma lookup_arp_spec c ip now :
  wf c → lookup_arp c ip now = (e ← entry_of c ip; if (now <? e_expires e)%Z then Some (e_mac e) else None).
Proof.
  intros Hwf. unfold lookup_arp. destruct (find_entry _ _) as [e|] eqn:E; simpl.
  - apply find_entry_Some in E as [Hp Hi]. apply andb_true_iff in Hp as [Hip Hlt]. apply bool_decide_eq_true in Hip.
    rewrite (proj2 (entry_of_spec c ip e Hwf)) by done. cbn. by rewrite Hlt.
  - rewrite find_entry_None in E. destruct (entry_of c ip) as [e|] eqn:Ee; [|done]. cbn.
    apply entry_of_spec in Ee as [Hip [i Hi]]; [|done]. specialize (E _ _ Hi). by rewrite bool_decide_eq_true_2 in E; [simpl in E; rewrite E|].
Qed.

Lemma slot_for_lt c ip now : wf c → slot_for c ip now < length (c_entries c).
Proof.
  intros [Hl _]. unfold slot_for. destruct (position (is_ip ip) _) eqn:E1; [by eapply position_lt|].
  destruct (position (stale now) _) eqn:E2; [by eapply position_lt|].
  destruct (min_by_key_is_Some expiry (c_entries c)) as [i Hi]; [by intros E; rewrite E in Hl|].
  rewrite Hi. apply min_by_key_Some in Hi as (x & Hx & _). by eapply lookup_lt_Some.
Qed.

(** What an insertion puts out: nothing, unless every slot holds a live entry for another
    address, and then the one closest to expiring. *)
Lemma slot_for_spec c ip now o :
  wf c → c_entries c !! slot_for c ip now = Some o →
  (∀ e, o = Some e → e_ip e = ip) ∨
  ((∀ i e, c_entries c !! i = Some (Some e) → e_ip e ≠ ip) ∧
   (stale now o = true ∨
    (∀ i o', c_entries c !! i = Some o' → stale now o' = false ∧ (expiry o ≤ expiry o')%Z))).
Proof.
  intros Hwf. unfold slot_for. destruct (position (is_ip ip) _) as [i|] eqn:E1.
  { intros Ho. left. intros e ->. apply position_lookup in E1 as (x & Hx & Hip). rewrite Hx in Ho. simplify_eq/=. by breflect. }
  intros Ho. right. split.
  { clear Ho. intros i e Hi He. rewrite position_None in E1. specialize (E1 _ _ Hi). simpl in E1. by breflect. }
  revert Ho. destruct (position (stale now) _) as [i|] eqn:E2; intros Ho.
  - left. apply position_lookup in E2 as (x & Hx & Hs). congruence.
  - right. rewrite position_None in E2. revert Ho. destruct (min_by_key expiry (c_entries c)) as [i|] eqn:E3; intros Ho.
    + apply min_by_key_Some in E3 as (x & Hx & Hmin). change (c_entries c !! i = Some o) in Ho. rewrite Hx in Ho. simplify_eq. intros j o' Hj. split; [by eapply E2|by eapply Hmin].
    + destruct (min_by_key_is_Some expiry (c_entries c)) as [j Hj]; [|congruence]. intros E. destruct Hwf as [Hl _]. by rewrite E in Hl.
Qed.

Lemma addresses_insert l i o x :
  l !! i = Some o → addresses (<[i := Some x]> l) ≡ₚ e_ip x :: addresses (<[i := None]> l).
Proof.
  intros Hi. destruct (omap_insert_Permutation (fmap e_ip) l i o (Some x) Hi) as (k & E1 & E2).
  destruct (omap_insert_Permutation (fmap e_ip) l i o None Hi) as (k' & E3 & E4). unfold addresses. rewrite E2, E4. simpl.
  constructor. simpl in E4. assert (option_list (e_ip <$> o) ++ k ≡ₚ option_list (e_ip <$> o) ++ k') as E by (by rewrite <-E1).
  by apply Permutation_app_inv_l in E.
Qed.

Lemma addresses_clear l i : NoDup (addresses l) → NoDup (addresses (<[i := None]> l)).
Proof.
  intros Hd. destruct (l !! i) as [o|] eqn:Hi; [|by rewrite list_insert_ge by (by apply lookup_ge_None)].
  destruct (omap_insert_Permutation (fmap e_ip) l i o None Hi) as (k & E1 & E2). unfold addresses in *. rewrite E2. rewrite E1 in Hd.
  by apply NoDup_app in Hd as (_ & _ & ?).
Qed.

Lemma insert_arp_wf c ip mac now :
  wf c → ∃ c', insert_arp c ip mac now = Some c' ∧ wf c' ∧ c_ttl c' = c_ttl c ∧
    c_entries c' = <[slot_for c ip now := Some {| e_ip := ip; e_mac := mac; e_expires := saturating_add 64 now (c_ttl c) |}]> (c_entries c).
Proof.
  intros Hwf. pose proof (slot_for_lt c ip now Hwf) as Hlt. unfold insert_arp, set_at. rewrite decide_True by done. cbn [mbind option_bind].
  eexists. split; [done|]. cbn. split_and!; [|done..]. destruct (lookup_lt_is_Some_2 _ _ Hlt) as [o Ho].
  pose proof Hwf as [Hl Hd]. split; cbn; [by rewrite length_insert|]. rewrite (addresses_insert _ _ o) by done. constructor; [|by apply addresses_clear].
  intros Hin. apply list_elem_of_omap in Hin as ([e|] & Hin & He); [|done]. simpl in He. injection He as He.
  apply list_elem_of_lookup in Hin as [j Hj]. destruct (decide (j = slot_for c ip now)) as [->|Hne].
  { by rewrite list_lookup_insert_eq in Hj by done. }
  rewrite list_lookup_insert_ne in Hj by done. destruct (slot_for_spec c ip now o Hwf Ho) as [Hsame|[Hno _]]; [|by eapply Hno].
  unfold slot_for in *. destruct (position (is_ip ip) (c_entries c)) as [i|] eqn:Ep.
  - apply position_lookup in Ep as (x & Hx & Hip). destruct x as [x|]; [|done]. simpl in Hip. breflect.
    apply Hne. eapply addresses_unique; eauto. congruence.
  - rewrite position_None in Ep. specialize (Ep _ _ Hj). simpl in Ep. by breflect.
Qed.

Lemma forget_wf c ip : wf c → wf (forget c ip) ∧ ∀ ip', entry_of (forget c ip) ip' = if decide (ip' = ip) then None else entry_of c ip'.
Proof.
  intros Hwf. assert (wf (forget c ip)) as Hwf'.
  { destruct Hwf as [Hl Hd]. split; cbn; [by rewrite length_fmap|]. clear Hl. induction (c_entries c) as [|[e|] l IH]; csimpl in *; [done| |].
    - apply NoDup_cons in Hd as [Hn Hd]. case_bool_decide; csimpl; [by apply IH|]. constructor; [|by apply IH]. intros Hin. apply Hn.
      apply list_elem_of_omap in Hin as (o & Ho & He). apply list_elem_of_fmap in Ho as (o' & -> & Ho).
      apply list_elem_of_omap. exists o'. split; [done|]. by destruct (is_ip ip o').
    - by apply IH. }
  split; [done|]. intros ip'. case_decide as E; [subst ip'|].
  - destruct (entry_of (forget c ip) ip) as [e|] eqn:Ee; [|done]. exfalso. apply entry_of_spec in Ee as [Hip [i Hi]]; [|done]. cbn in Hi.
    rewrite list_lookup_fmap in Hi. destruct (c_entries c !! i) as [[f|]|]; simplify_eq/=. case_bool_decide; congruence.
  - apply option_eq. intros e. rewrite !entry_of_spec by done. cbn. split; intros [Hip [i Hi]]; (split; [done|]); exists i.
    + rewrite list_lookup_fmap in Hi. destruct (c_entries c !! i) as [[f|]|]; simplify_eq/=. by case_bool_decide; simplify_eq.
    + rewrite list_lookup_fmap, Hi. simpl. case_bool_decide; [congruence|done].
Qed.


(** An insertion seen from the abstract map. *)
Lemma insert_entry c ip mac now c' :
  wf c → insert_arp c ip mac now = Some c' →
  entry_of c' ip = Some {| e_ip := ip; e_mac := mac; e_expires := saturating_add 64 now (c_ttl c) |} ∧
  ((∀ ip', ip' ≠ ip → entry_of c' ip' = entry_of c ip') ∨
   (entry_of c ip = None ∧ ∃ v, e_ip v ≠ ip ∧ entry_of c (e_ip v) = Some v ∧
     (∀ ip', ip' ≠ ip → entry_of c' ip' = if decide (ip' = e_ip v) then None else entry_of c ip') ∧
     ((e_expires v ≤ now)%Z ∨ (∀ i o, c_entries c !! i = Some o → stale now o = false ∧ (e_expires v ≤ expiry o)%Z)))).
Proof.
  intros Hwf Hins. destruct (insert_arp_wf c ip mac now Hwf) as (c1 & E & Hwf' & _ & He). rewrite Hins in E. injection E as <-.
  pose proof (slot_for_lt c ip now Hwf) as Hlt. destruct (lookup_lt_is_Some_2 _ _ Hlt) as [o Ho].
  set (new := {| e_ip := ip |}) in *. set (n := slot_for c ip now) in *.
  assert (∀ ip' e, ip' ≠ ip → entry_of c' ip' = Some e ↔ entry_of c ip' = Some e ∧ o ≠ Some e) as Hother.
  { intros ip' e Hne. rewrite !entry_of_spec by done. rewrite He. split.
    - intros (Hip & j & Hj). destruct (decide (j = n)) as [->|Hjn].
      + rewrite list_lookup_insert_eq in Hj by done. injection Hj as <-. by rewrite <-Hip in Hne.
      + rewrite list_lookup_insert_ne in Hj by done. split_and!; [done|eauto|]. intros ->. apply Hjn.
        eapply addresses_unique; [apply Hwf|exact Hj|exact Ho|done].
    - intros ((Hip & j & Hj) & Hoe). split; [done|]. exists j. rewrite list_lookup_insert_ne; [done|]. intros <-. congruence. }
  split. { apply entry_of_spec; [done|]. split; [done|]. exists n. by rewrite He, list_lookup_insert_eq. }
  destruct o as [v|]; [|left; intros ip' Hne; apply option_eq; intros e; rewrite Hother by done; naive_solver].
  destruct (decide (e_ip v = ip)) as [Hv|Hv].
  { left. intros ip' Hne. apply option_eq. intros e. rewrite Hother by done. split; [naive_solver|]. intros Hentry. split; [done|].
    intros [= ->]. apply entry_of_spec in Hentry as [? _]; [|done]. congruence. }
  right. destruct (slot_for_spec c ip now (Some v) Hwf Ho) as [Hsame|[Hno Hvic]]; [by specialize (Hsame v eq_refl)|].
  assert (entry_of c (e_ip v) = Some v) as Hev by (apply entry_of_spec; [done|]; split; [done|eauto]). split.
  { destruct (entry_of c ip) as [e|] eqn:Ee; [|done]. apply entry_of_spec in Ee as (Hip & j & Hj); [|done]. by destruct (Hno _ _ Hj). }
  exists v. split_and!; [done|done| |].
  - intros ip' Hne. case_decide as Hip; [subst ip'|]; apply option_eq; intros e; rewrite Hother by done; [naive_solver|].
    split; [naive_solver|]. intros Hentry. split; [done|]. intros [= ->]. apply entry_of_spec in Hentry as [? _]; [|done]. congruence.
  - destruct Hvic as [Hs|Hs]; [left; simpl in Hs; by breflect|right; exact Hs].
Qed.

Lemma arp_cache_is_a_map c ip mac now :
  wf c → (0 ≤ now < u64_MAX)%Z → (0 < c_ttl c)%Z → ∃ c', insert_arp c ip mac now = Some c' ∧ wf c' ∧ lookup_arp c' ip now = Some mac.
Proof.
  intros Hwf Hnow Httl. destruct (insert_arp_wf c ip mac now Hwf) as (c' & Hins & Hwf' & _). exists c'.
  destruct (insert_entry _ _ _ _ _ Hwf Hins) as [Hnew _]. split_and!; [done..|]. rewrite lookup_arp_spec, Hnew by done. cbn.
  unfold saturating_add. by destruct (Z.ltb_spec now (Z.min (now + c_ttl c) u64_MAX)); [|lia].
Qed.

(** ** Properties *)

(** The cache is a map bounded to eight addresses.  After [insert] an address is at the
    hardware address given, until its time runs out and no longer; every other address is
    where it was, except that when the cache was full of live entries for other addresses the
    one that had least time left is dropped.  [forget] removes its address and no other.  No
    address ever has two entries. *)
Theorem arp_cache_is_a_bounded_map c ip mac now :
  wf c → (0 ≤ now < u64_MAX)%Z → (0 < c_ttl c)%Z →
  (∃ c', insert_arp c ip mac now = Some c' ∧ wf c' ∧
    (∀ t, lookup_arp c' ip t = if (t <? saturating_add 64 now (c_ttl c))%Z then Some mac else None) ∧
    lookup_arp c' ip now = Some mac ∧
    ((∀ ip' t, ip' ≠ ip → (now ≤ t)%Z → lookup_arp c' ip' t = lookup_arp c ip' t) ∨
     (live c now = ENTRIES ∧ entry_of c ip = None ∧ ∃ v, entry_of c (e_ip v) = Some v ∧
       (∀ ip' e, entry_of c ip' = Some e → (e_expires v ≤ e_expires e)%Z) ∧
       ∀ ip' t, ip' ≠ ip → (now ≤ t)%Z → lookup_arp c' ip' t = if decide (ip' = e_ip v) then None else lookup_arp c ip' t))) ∧
  wf (forget c ip) ∧ ∀ ip' t, lookup_arp (forget c ip) ip' t = if decide (ip' = ip) then None else lookup_arp c ip' t.
Proof.
  intros Hwf Hnow Httl. split.
  - destruct (insert_arp_wf c ip mac now Hwf) as (c' & Hins & Hwf' & _). exists c'. destruct (insert_entry _ _ _ _ _ Hwf Hins) as [Hnew Hrest].
    assert (∀ t, lookup_arp c' ip t = if (t <? saturating_add 64 now (c_ttl c))%Z then Some mac else None) as Ht.
    { intros t. by rewrite lookup_arp_spec, Hnew by done. }
    split_and!; [done..| |].
    { rewrite Ht. unfold saturating_add. by destruct (Z.ltb_spec now (Z.min (now + c_ttl c) u64_MAX)); [|lia]. }
    destruct Hrest as [Hsame|(Hno & v & Hv & Hev & Hother & [Hstale|Hfull])].
    + left. intros ip' t Hne _. by rewrite !lookup_arp_spec, Hsame by done.
    + left. intros ip' t Hne Hle. rewrite !lookup_arp_spec, Hother by done. case_decide as E; [subst ip'|done]. rewrite Hev. cbn.
      by destruct (Z.ltb_spec t (e_expires v)); [lia|].
    + right. split_and!; [|done|exists v; split_and!; [done|..]].
      * unfold live. rewrite <-(wf_size c Hwf). clear -Hfull. induction (c_entries c) as [|o l IH]; simpl; [done|].
        destruct (Hfull 0 o eq_refl) as [Hs _]. rewrite IH by (intros i o'; apply (Hfull (S i))).
        destruct o as [e|]; simpl in Hs; [|done]. by destruct (Z.ltb_spec now (e_expires e)); breflect; [|lia].
      * intros ip' e (_ & i & Hi)%entry_of_spec; [|done]. by destruct (Hfull _ _ Hi).
      * intros ip' t Hne Hle. rewrite !lookup_arp_spec, Hother by done. by case_decide.
  - destruct (forget_wf c ip Hwf) as [Hwf' Hf]. split; [done|]. intros ip' t. rewrite !lookup_arp_spec, Hf by done. by case_decide.
Qed.

Lemma arp_new_wf ttl : wf (with_ttl ttl).
Proof. split; [done|constructor]. Qed.

Lemma arp_cache_is_a_bounded_map_witness :
  ∃ c, insert_arp new [10; 0; 0; 2]%Z [1; 2; 3; 4; 5; 6]%Z 5 = Some c ∧ lookup_arp c [10; 0; 0; 2]%Z 5 = Some [1; 2; 3; 4; 5; 6]%Z.
Proof.
  destruct (arp_cache_is_a_bounded_map new [10; 0; 0; 2]%Z [1; 2; 3; 4; 5; 6]%Z 5) as [(c & H1 & _ & _ & H2 & _) _].
  - apply arp_new_wf.
  - unfold u_max. lia.
  - simpl. unfold TTL_NS. lia.
  - by exists c.
Defined.

End ArpCache.

(** ** The pool *)

Module Pool.

(** [tcp::CONNECTIONS]. *)
Definition CONNECTIONS : nat := 4.
Definition BUFFERS : nat := 4 + 2 * CONNECTIONS.

Record Pool := { p_buffers : list Bytes; p_held : list bool; p_taken : Z; p_returned : Z }.

Definition new : Pool :=
  {| p_buffers := replicate BUFFERS (replicate FRAME_MAX 0%Z); p_held := replicate BUFFERS false; p_taken := 0; p_returned := 0 |}.

Definition take (p : Pool) : option (Pool * option nat) :=
  match position negb (p_held p) with
  | None => Some (p, None)
  | Some i =>
      taken ← checked_add 64 (p_taken p) 1;
      Some ({| p_buffers := p_buffers p; p_held := <[i := true]> (p_held p); p_taken := taken; p_returned := p_returned p |}, Some i)
  end.

Definition give (p : Pool) (i : nat) : option (Pool * bool) :=
  match p_held p !! i with
  | Some true =>
      returned ← checked_add 64 (p_returned p) 1;
      Some ({| p_buffers := p_buffers p; p_held := <[i := false]> (p_held p); p_taken := p_taken p; p_returned := returned |}, true)
  | _ => Some (p, false)
  end.

(** The contents of a held buffer; what the borrower leaves is written back with [write_buffer]. *)
Definition buffer (p : Pool) (i : nat) : option Bytes :=
  held ← p_held p !! i;
  if (held : bool) then p_buffers p !! i else None.
Definition write_buffer (p : Pool) (i : nat) (b : Bytes) : Pool :=
  {| p_buffers := <[i := b]> (p_buffers p); p_held := p_held p; p_taken := p_taken p; p_returned := p_returned p |}.

(** Two different held buffers at once.  The two come from the two halves of the array split at
    the larger index. *)
Definition pair (p : Pool) (a b : nat) : option (option (Bytes * Bytes)) :=
  if (a =? b)%nat then Some None
  else match p_held p !! a, p_held p !! b with
  | Some true, Some true =>
      let low := a `min` b in
      let high := a `max` b in
      if (length (p_buffers p) <? high) then None
      else
        lo ← firstn high (p_buffers p) !! low;
        hi ← drop high (p_buffers p) !! 0;
        Some (Some (if a <? b then (lo, hi) else (hi, lo)))
  | _, _ => Some None
  end.

Definition in_use (p : Pool) : nat := count_if (λ h : bool, h) (p_held p).
Definition books (p : Pool) : Z * Z := (p_taken p, p_returned p).
Definition balanced (p : Pool) : bool := (in_use p =? 0)%nat && (p_taken p =? p_returned p)%Z.

(** ** The books *)

Record wf (p : Pool) : Prop := {
  wf_held : length (p_held p) = BUFFERS;
  wf_buffers : length (p_buffers p) = BUFFERS;
  wf_frames : Forall (λ b, length b = FRAME_MAX) (p_buffers p);
  wf_books : (p_taken p = p_returned p + Z.of_nat (in_use p))%Z;
  wf_returned : (0 ≤ p_returned p)%Z }.

Lemma pool_new_wf : wf new.
Proof.
  split; cbn [new p_buffers p_held p_taken p_returned]; rewrite ?length_replicate; try done.
  apply Forall_replicate, length_replicate.
Qed.

Lemma take_spec p :
  wf p → (p_taken p < u64_MAX)%Z →
  ∃ p' o, take p = Some (p', o) ∧ wf p' ∧ p_buffers p' = p_buffers p ∧
    match o with
    | Some i => p_held p !! i = Some false ∧ p_held p' = <[i := true]> (p_held p) ∧ in_use p' = S (in_use p) ∧ p_taken p' = (p_taken p + 1)%Z ∧ p_returned p' = p_returned p
    | None => p' = p ∧ in_use p = BUFFERS
    end.
Proof.
  intros Hwf Hlt. unfold take. destruct (position negb (p_held p)) as [i|] eqn:E.
  - rewrite (proj2 (checked_add_Some 64 (p_taken p) 1 (p_taken p + 1))) by lia. cbn [mbind option_bind].
    apply position_lookup in E as ([] & Hi & Hb); [done|].
    assert (count_if (λ h : bool, h) (<[i:=true]> (p_held p)) = S (in_use p)) as Hc.
    { pose proof (count_if_insert (λ h : bool, h) (p_held p) i false true Hi) as E. cbv beta iota in E. unfold in_use. lia. }
    eexists _, (Some i). split; [done|]. destruct Hwf. split_and!; try done. split; cbn; [by rewrite length_insert|done|done| |done].
    unfold in_use. cbn. rewrite Hc. lia.
  - exists p, None. split_and!; try done. rewrite position_None in E. rewrite <-(wf_held p Hwf). unfold in_use. clear -E.
    induction (p_held p) as [|b l IH]; [done|]. simpl. rewrite IH by (intros i x; apply (E (S i))).
    specialize (E 0 b eq_refl). by destruct b.
Qed.

Lemma give_spec p i :
  wf p → (p_returned p < u64_MAX)%Z →
  ∃ p' b, give p i = Some (p', b) ∧ wf p' ∧ p_buffers p' = p_buffers p ∧
    if b : bool then p_held p !! i = Some true ∧ p_held p' = <[i := false]> (p_held p) ∧ S (in_use p') = in_use p ∧ p_taken p' = p_taken p ∧ p_returned p' = (p_returned p + 1)%Z
    else p' = p ∧ p_held p !! i ≠ Some true.
Proof.
  intros Hwf Hlt. unfold give. destruct (p_held p !! i) as [[]|] eqn:Hi; [|exists p, false; by rewrite ?Hi..].
  rewrite (proj2 (checked_add_Some 64 (p_returned p) 1 (p_returned p + 1))) by lia. cbn [mbind option_bind].
  assert (S (count_if (λ h : bool, h) (<[i:=false]> (p_held p))) = in_use p) as Hc.
  { pose proof (count_if_insert (λ h : bool, h) (p_held p) i true false Hi) as E. cbv beta iota in E. unfold in_use. lia. }
  eexists _, true. split; [done|]. destruct Hwf. split_and!; try done. split; cbn; [by rewrite length_insert|done|done| |lia].
  unfold in_use in *. cbn. lia.
Qed.

Lemma write_buffer_wf p i b : wf p → length b = FRAME_MAX → wf (write_buffer p i b).
Proof. intros [] Hb. split; cbn; [done|by rewrite length_insert|by apply Forall_insert|done|done]. Qed.

Lemma buffer_held p i b : wf p → buffer p i = Some b → p_held p !! i = Some true ∧ p_buffers p !! i = Some b ∧ length b = FRAME_MAX.
Proof.
  intros Hwf (h & Hh & Hb)%bind_Some. destruct h; [|done]. split_and!; [done..|]. by apply (Forall_lookup_1 _ _ _ _ (wf_frames p Hwf) Hb).
Qed.

Lemma held_buffer p i : wf p → p_held p !! i = Some true → is_Some (buffer p i).
Proof.
  intros Hwf Hh. unfold buffer. rewrite Hh. cbn [mbind option_bind]. apply lookup_lt_is_Some_2. rewrite (wf_buffers p Hwf), <-(wf_held p Hwf).
  by eapply lookup_lt_Some.
Qed.

Lemma pair_spec p a b : wf p → pair p a b = Some (if decide (a = b) then None else x ← buffer p a; y ← buffer p b; Some (x, y)).
Proof.
  intros Hwf. unfold pair. destruct (Nat.eqb_spec a b) as [->|Hne]; [by rewrite decide_True|]. rewrite decide_False by done.
  unfold buffer. destruct (p_held p !! a) as [[]|] eqn:Ha; [|cbn; by destruct (p_held p !! b) as [[]|]..].
  destruct (p_held p !! b) as [[]|] eqn:Hb; cbn [mbind option_bind]; [|by destruct (p_buffers p !! a)..].
  pose proof (lookup_lt_Some _ _ _ Ha) as Hla. pose proof (lookup_lt_Some _ _ _ Hb) as Hlb. rewrite (wf_held p Hwf), <-(wf_buffers p Hwf) in Hla, Hlb.
  destruct (Nat.ltb_spec (length (p_buffers p)) (a `max` b)); [lia|].
  destruct (lookup_lt_is_Some_2 _ _ Hla) as [x Hx], (lookup_lt_is_Some_2 _ _ Hlb) as [y Hy]. rewrite Hx, Hy. cbn [mbind option_bind].
  rewrite lookup_take_lt by lia. rewrite lookup_drop, Nat.add_0_r. destruct (Nat.ltb_spec a b).
  - rewrite Nat.min_l, Nat.max_r by lia. by rewrite Hx, Hy.
  - rewrite Nat.min_r, Nat.max_l by lia. by rewrite Hx, Hy.
Qed.

End Pool.
