(* ===== verification/NetTcp.v ===== *)
(** * TCP: connections

    [kernel/net/src/tcp.rs]: the connection state machine, its rings, retransmission,
    congestion control and selective acknowledgement.  A method of [Tcb] or [Tcp] takes the
    state and gives the state it leaves; [None] is a panic.

    A sequence number is a [Z] below [2^32].  A [usize] is a [Z] whose additions are checked at
    32 bits, the narrowest the kernel runs on; the theorems show that none gets there, so no
    width gives another answer.  [NO_BUFFER] is [None].  A counter is a [u64]: adding one panics
    at its maximum. *)

From S2P Require Import Prelude NetWire NetLink.
Import Wire.
Local Open Scope Z_scope.

Module NetTcp.

Definition CONNECTIONS : nat := Pool.CONNECTIONS.
Definition RING : Z := Z.of_nat FRAME_MAX.
Definition MSS : Z := Z.of_nat (ETH_MTU - IPV4_HEADER - TCP_HEADER).
Definition DEFAULT_MSS : Z := 536.
Definition DUP_ACK_THRESHOLD : Z := 3.
Definition SEGMENTS_IN_FLIGHT : Z := DUP_ACK_THRESHOLD + 5.
Definition SEND_SEG : Z := RING / SEGMENTS_IN_FLIGHT.
Definition RTO_INITIAL_NS : Z := 300000000.
Definition RTO_MIN_NS : Z := 200000000.
Definition RTO_MAX_NS : Z := 4000000000.
Definition CLOCK_GRANULARITY_NS : Z := 1000000.
Definition INITIAL_WINDOW : Z := 4.
Definition OOO_SEGMENTS : nat := 4.
Definition RETRIES : Z := 7.
Definition TIME_WAIT_NS : Z := 1000000000.
Definition BACKLOG : nat := 2.
Definition RESETS : nat := 4.
Definition EPHEMERAL_FIRST : Z := 49152.

Inductive State : Type :=
| Closed | Listen | SynSent | SynReceived | Established | FinWait1 | FinWait2 | CloseWait | Closing | LastAck | TimeWait.
#[global] Instance State_eq_dec : EqDecision State.
Proof. solve_decision. Defined.

Definition state_index (s : State) : Z :=
  match s with
  | Closed => 0 | Listen => 1 | SynSent => 2 | SynReceived => 3 | Established => 4 | FinWait1 => 5
  | FinWait2 => 6 | CloseWait => 7 | Closing => 8 | LastAck => 9 | TimeWait => 10
  end.
Definition bit (s : State) : Z := shl 16 1 (state_index s).
Definition synchronized (s : State) : bool :=
  match s with Closed | Listen | SynSent | SynReceived => false | _ => true end.

Inductive TcpError : Type := NoRoom | PortInUse | BadConnection | WrongState | Reset_ | TimedOut | WouldBlock.
#[global] Instance TcpError_eq_dec : EqDecision TcpError.
Proof. solve_decision. Defined.

Record Conn := { c_index : nat; c_generation : Z }.

Definition raw (c : Conn) : Z := Z.lor (shl 64 (Z.of_nat (c_index c)) 32) (c_generation c).
Definition from_raw (r : Z) : Conn := {| c_index := Z.to_nat (Z.shiftr r 32); c_generation := r mod 2 ^ 32 |}.

Inductive Counter : Type :=
| segments_in | segments_out | connects | established_ | retransmit_timeouts | data_retransmits | duplicates | out_of_order
| out_of_order_queued | out_of_order_dropped | out_of_order_delivered | dup_acks_ | fast_retransmits | sack_retransmits
| partial_acks | rtt_samples | resets_sent | resets_received | syns_refused | timeouts.
#[global] Instance Counter_eq_dec : EqDecision Counter.
Proof. solve_decision. Defined.

Definition Counters : Type := Counter → Z.
Definition bump (c : Counter) (k : Counters) : option Counters :=
  n ← checked_add 64 (k c) 1; Some (λ c', if decide (c' = c) then n else k c').

(** A [usize] addition. *)
Definition usize_add (a b : Z) : option Z := checked_add 32 a b.

Record Status := {
  s_state : State; s_visited : Z; s_error : option TcpError; s_readable : Z; s_writable : Z; s_unacknowledged : Z;
  s_peer_closed : bool; s_fin_acknowledged : bool; s_cwnd : Z; s_ssthresh : Z; s_held_out_of_order : nat; s_rto_ns : Z }.

(** A payload is in the pool buffer of the send ring, at a position of it, of a length. *)
Record Segment := { sg_remote_ip : Ipv4Addr; sg_header : TcpHeader; sg_data : option (option nat * Z * Z) }.

Record Deliver := { dl_ring : option nat; dl_at : Z; dl_from : Z; dl_len : Z }.

Record Ring := { buf : option nat; head : Z; rlen : Z }.
Definition Ring_NONE : Ring := {| buf := None; head := 0; rlen := 0 |}.
Definition Ring_on (b : nat) : Ring := {| buf := Some b; head := 0; rlen := 0 |}.
Definition Ring_free (r : Ring) : option Z :=
  match buf r with None => Some 0 | Some _ => checked_sub RING (rlen r) end.

Record Run := { r_seq : Z; r_len : Z }.

Record Tcb := {
  active : bool;
  generation : Z;
  state : State;
  visited : Z;
  local_port : Z;
  remote_ip : Ipv4Addr;
  remote_port : Z;
  iss : Z;
  snd_una : Z;
  snd_nxt : Z;
  snd_max : Z;
  snd_wnd : Z;
  mss : Z;
  rcv_nxt : Z;
  rx : Ring;
  ooo : list (option Run);
  tx : Ring;
  tx_seq : Z;
  fin_queued : bool;
  fin_seq : option Z;
  peer_fin : bool;
  ack_now : bool;
  rst_now : bool;
  cwnd : Z;
  ssthresh : Z;
  dup_acks : Z;
  recovering : bool;
  recover : Z;
  resend : bool;
  srtt : option (Z * Z);
  timing : option (Z * Z);
  rto : Z;
  deadline : option Z;
  sack_ok : bool;
  sacked : list (option (Z * Z));
  probe : bool;
  retries : Z;
  time_wait_until : Z;
  error : option TcpError;
  released : bool;
  parent : option nat;
  accepted : bool }.

Definition EMPTY : Tcb := {|
  active := false; generation := 0; state := Closed; visited := 0; local_port := 0; remote_ip := [0; 0; 0; 0]; remote_port := 0;
  iss := 0; snd_una := 0; snd_nxt := 0; snd_max := 0; snd_wnd := 0; mss := DEFAULT_MSS; rcv_nxt := 0; rx := Ring_NONE;
  ooo := replicate OOO_SEGMENTS None; tx := Ring_NONE; tx_seq := 0; fin_queued := false; fin_seq := None; peer_fin := false;
  ack_now := false; rst_now := false; cwnd := INITIAL_WINDOW * DEFAULT_MSS; ssthresh := u32_MAX; dup_acks := 0;
  recovering := false; recover := 0; resend := false; srtt := None; timing := None; rto := RTO_INITIAL_NS; deadline := None;
  sack_ok := false; sacked := replicate SACK_BLOCKS None; probe := false; retries := 0; time_wait_until := 0; error := None;
  released := false; parent := None; accepted := false |}.

(** ** Assignments to a field *)

Definition eta (t : Tcb) : Tcb := {|
  active := active t; generation := generation t; state := state t; visited := visited t; local_port := local_port t;
  remote_ip := remote_ip t; remote_port := remote_port t; iss := iss t; snd_una := snd_una t; snd_nxt := snd_nxt t;
  snd_max := snd_max t; snd_wnd := snd_wnd t; mss := mss t; rcv_nxt := rcv_nxt t; rx := rx t; ooo := ooo t; tx := tx t;
  tx_seq := tx_seq t; fin_queued := fin_queued t; fin_seq := fin_seq t; peer_fin := peer_fin t; ack_now := ack_now t;
  rst_now := rst_now t; cwnd := cwnd t; ssthresh := ssthresh t; dup_acks := dup_acks t; recovering := recovering t;
  recover := recover t; resend := resend t; srtt := srtt t; timing := timing t; rto := rto t; deadline := deadline t;
  sack_ok := sack_ok t; sacked := sacked t; probe := probe t; retries := retries t; time_wait_until := time_wait_until t;
  error := error t; released := released t; parent := parent t; accepted := accepted t |}.

(** The record with the field [proj] replaced by [x]. *)
Ltac assign proj x :=
  let e := eval cbv delta [eta] in eta in
  let e := eval pattern proj in e in
  match e with ?f _ => let g := eval cbv beta in (f (fun _ => x)) in exact g end.

Definition set_active (x : bool) : Tcb → Tcb := ltac:(assign active x).
Definition set_generation (x : Z) : Tcb → Tcb := ltac:(assign generation x).
Definition set_state (x : State) : Tcb → Tcb := ltac:(assign state x).
Definition set_visited (x : Z) : Tcb → Tcb := ltac:(assign visited x).
Definition set_local_port (x : Z) : Tcb → Tcb := ltac:(assign local_port x).
Definition set_remote_ip (x : Ipv4Addr) : Tcb → Tcb := ltac:(assign remote_ip x).
Definition set_remote_port (x : Z) : Tcb → Tcb := ltac:(assign remote_port x).
Definition set_iss (x : Z) : Tcb → Tcb := ltac:(assign iss x).
Definition set_snd_una (x : Z) : Tcb → Tcb := ltac:(assign snd_una x).
Definition set_snd_nxt (x : Z) : Tcb → Tcb := ltac:(assign snd_nxt x).
Definition set_snd_max (x : Z) : Tcb → Tcb := ltac:(assign snd_max x).
Definition set_snd_wnd (x : Z) : Tcb → Tcb := ltac:(assign snd_wnd x).
Definition set_mss (x : Z) : Tcb → Tcb := ltac:(assign mss x).
Definition set_rcv_nxt (x : Z) : Tcb → Tcb := ltac:(assign rcv_nxt x).
Definition set_rx (x : Ring) : Tcb → Tcb := ltac:(assign rx x).
Definition set_ooo (x : list (option Run)) : Tcb → Tcb := ltac:(assign ooo x).
Definition set_tx (x : Ring) : Tcb → Tcb := ltac:(assign tx x).
Definition set_tx_seq (x : Z) : Tcb → Tcb := ltac:(assign tx_seq x).
Definition set_fin_queued (x : bool) : Tcb → Tcb := ltac:(assign fin_queued x).
Definition set_fin_seq (x : option Z) : Tcb → Tcb := ltac:(assign fin_seq x).
Definition set_peer_fin (x : bool) : Tcb → Tcb := ltac:(assign peer_fin x).
Definition set_ack_now (x : bool) : Tcb → Tcb := ltac:(assign ack_now x).
Definition set_rst_now (x : bool) : Tcb → Tcb := ltac:(assign rst_now x).
Definition set_cwnd (x : Z) : Tcb → Tcb := ltac:(assign cwnd x).
Definition set_ssthresh (x : Z) : Tcb → Tcb := ltac:(assign ssthresh x).
Definition set_dup_acks (x : Z) : Tcb → Tcb := ltac:(assign dup_acks x).
Definition set_recovering (x : bool) : Tcb → Tcb := ltac:(assign recovering x).
Definition set_recover (x : Z) : Tcb → Tcb := ltac:(assign recover x).
Definition set_resend (x : bool) : Tcb → Tcb := ltac:(assign resend x).
Definition set_srtt (x : option (Z * Z)) : Tcb → Tcb := ltac:(assign srtt x).
Definition set_timing (x : option (Z * Z)) : Tcb → Tcb := ltac:(assign timing x).
Definition set_rto (x : Z) : Tcb → Tcb := ltac:(assign rto x).
Definition set_deadline (x : option Z) : Tcb → Tcb := ltac:(assign deadline x).
Definition set_sack_ok (x : bool) : Tcb → Tcb := ltac:(assign sack_ok x).
Definition set_sacked (x : list (option (Z * Z))) : Tcb → Tcb := ltac:(assign sacked x).
Definition set_probe (x : bool) : Tcb → Tcb := ltac:(assign probe x).
Definition set_retries (x : Z) : Tcb → Tcb := ltac:(assign retries x).
Definition set_time_wait_until (x : Z) : Tcb → Tcb := ltac:(assign time_wait_until x).
Definition set_error (x : option TcpError) : Tcb → Tcb := ltac:(assign error x).
Definition set_released (x : bool) : Tcb → Tcb := ltac:(assign released x).
Definition set_parent (x : option nat) : Tcb → Tcb := ltac:(assign parent x).
Definition set_accepted (x : bool) : Tcb → Tcb := ltac:(assign accepted x).


(** ** Sequence space and rings *)

Record Syn := {
  y_listener : nat; y_remote_ip : Ipv4Addr; y_remote_port : Z; y_local_port : Z; y_irs : Z; y_window : Z; y_mss : Z; y_sack_ok : bool }.

Definition seq_lt (a b : Z) : bool := negb (a =? b) && (wrapping_sub 32 b a <? 2 ^ 31).
Definition seq_le (a b : Z) : bool := (a =? b) || seq_lt a b.

Definition acceptable (rcv wnd seq len : Z) : bool :=
  let inside s := wrapping_sub 32 s rcv <? wnd in
  if wnd =? 0 then seq =? rcv
  else if len =? 0 then inside seq
  else inside seq || inside (wrapping_add 32 seq (len - 1)).

Definition ring_write (ring : Bytes) (at_ : Z) (data : Bytes) : option Bytes :=
  let a := Z.to_nat (at_ mod RING) in
  let data := take (Z.to_nat RING) data in
  let first := (length data `min` (Z.to_nat RING - a))%nat in
  ring ← put ring a (take first data);
  put ring 0 (drop first data).

(** The bytes read into a slice of [n]. *)
Definition ring_read (ring : Bytes) (at_ n : Z) : option Bytes :=
  let a := Z.to_nat (at_ mod RING) in
  let n := Z.to_nat (Z.min n RING) in
  let first := (n `min` (Z.to_nat RING - a))%nat in
  front ← get_range ring a first;
  back ← get_range ring 0 (n - first);
  Some (front ++ back).

(** The contents of a ring's pool buffer. *)
Definition ring_bytes (p : Pool.Pool) (r : Ring) : option Bytes := b ← buf r; Pool.buffer p b.

Definition take_two (p : Pool.Pool) : option (Pool.Pool * option (nat * nat)) :=
  '(p, a) ← Pool.take p;
  match a with
  | None => Some (p, None)
  | Some a =>
      '(p, b) ← Pool.take p;
      match b with
      | Some b => Some (p, Some (a, b))
      | None => '(p, _) ← Pool.give p a; Some (p, None)
      end
  end.

(** ** One connection *)

Definition in_state (t : Tcb) (s : State) : bool := bool_decide (state t = s).

Definition seg (t : Tcb) : Z := Z.max (Z.min (mss t) SEND_SEG) 1.
Definition flight (t : Tcb) : Z := wrapping_sub 32 (snd_nxt t) (snd_una t).

(** How far past [rcv_nxt] the held runs reach. *)
Definition past (rcv : Z) (runs : list (option Run)) : option Z :=
  foldr (λ r acc, m ← acc;
    match r with
    | None => Some m
    | Some r => e ← usize_add (wrapping_sub 32 (r_seq r) rcv) (r_len r); Some (Z.max m e)
    end) (Some 0) runs.

Definition rx_used (t : Tcb) : option Z := p ← past (rcv_nxt t) (ooo t); usize_add (rlen (rx t)) p.
Definition rx_free (t : Tcb) : option Z :=
  match buf (rx t) with None => Some 0 | Some _ => u ← rx_used t; Some (saturating_sub RING u) end.

Definition run_end (r : Run) : Z := wrapping_add 32 (r_seq r) (r_len r).

(** [hold]'s loop: the runs that touch [start..end] are merged into it and leave their slots. *)
Fixpoint merge_runs (start end_ : Z) (l : list (option Run)) : Z * Z * list (option Run) :=
  match l with
  | [] => (start, end_, [])
  | None :: l => let '(s, e, l) := merge_runs start end_ l in (s, e, None :: l)
  | Some run :: l =>
      if seq_le (r_seq run) end_ && seq_le start (run_end run) then
        let start' := if seq_lt (r_seq run) start then r_seq run else start in
        let end' := if seq_lt end_ (run_end run) then run_end run else end_ in
        let '(s, e, l) := merge_runs start' end' l in (s, e, None :: l)
      else let '(s, e, l) := merge_runs start end_ l in (s, e, Some run :: l)
  end.

Definition is_none {A} (x : option A) : bool := match x with None => true | Some _ => false end.

(** [filter_map(..).max_by_key(..)]: the last of the runs furthest ahead. *)
Definition furthest (rcv : Z) (l : list (option Run)) : option (nat * Z) :=
  foldl (λ acc x,
    match x with
    | (_, None) => acc
    | (i, Some r) =>
        let ahead := wrapping_sub 32 (r_seq r) rcv in
        match acc with
        | Some (_, best) => if best <=? ahead then Some (i, ahead) else acc
        | None => Some (i, ahead)
        end
    end) None (imap pair l).

Definition hold (t : Tcb) (seq len : Z) (k : Counters) : option (Tcb * Counters * bool) :=
  let '(start, end_, runs) := merge_runs seq (wrapping_add 32 seq len) (ooo t) in
  let run := {| r_seq := start; r_len := wrapping_sub 32 end_ start |} in
  match position is_none runs with
  | Some i => Some (set_ooo (<[i := Some run]> runs) t, k, true)
  | None =>
      k ← bump out_of_order_dropped k;
      match furthest (rcv_nxt t) runs with
      | Some (i, ahead) =>
          if wrapping_sub 32 (r_seq run) (rcv_nxt t) <? ahead
          then Some (set_ooo (<[i := Some run]> runs) t, k, true)
          else Some (set_ooo runs t, k, false)
      | None => Some (set_ooo runs t, k, false)
      end
  end.

Definition joined (rcv : Z) (r : option Run) : bool :=
  match r with Some r => seq_le (r_seq r) rcv && seq_lt rcv (run_end r) | None => false end.
Definition behind (rcv : Z) (r : option Run) : bool :=
  match r with Some r => seq_le (run_end r) rcv | None => false end.

(** Every turn empties a slot, so a turn more than there are slots is enough. *)
Fixpoint coalesce_loop (fuel : nat) (t : Tcb) (k : Counters) : option (Tcb * Counters) :=
  match fuel with
  | O => None
  | S fuel =>
      let rcv := rcv_nxt t in
      match position (joined rcv) (ooo t) with
      | None =>
          match position (behind rcv) (ooo t) with
          | Some old => coalesce_loop fuel (set_ooo (<[old := None]> (ooo t)) t) k
          | None => Some (t, k)
          end
      | Some i =>
          match ooo t !! i with
          | Some (Some run) =>
              let t := set_ooo (<[i := None]> (ooo t)) t in
              fresh ← checked_sub (r_len run) (wrapping_sub 32 rcv (r_seq run));
              l ← usize_add (rlen (rx t)) fresh;
              let t := set_rx {| buf := buf (rx t); head := head (rx t); rlen := l |} t in
              let t := set_rcv_nxt (wrapping_add 32 rcv fresh) t in
              k ← bump out_of_order_delivered k;
              coalesce_loop fuel t k
          | _ => Some (t, k)
          end
      end
  end.
Definition coalesce (t : Tcb) (k : Counters) : option (Tcb * Counters) := coalesce_loop (S OOO_SEGMENTS) t k.

(** [u64] arithmetic of the estimate. *)
Definition smooth (w x y d : Z) : option Z := a ← checked_mul 64 w x; b ← checked_add 64 a y; Some (b / d).

Definition clamp (x lo hi : Z) : Z := Z.min (Z.max x lo) hi.

Definition sample_rtt (t : Tcb) (rtt : Z) (k : Counters) : option (Tcb * Counters) :=
  k ← bump rtt_samples k;
  '(s, v) ← match srtt t with
            | None => Some (rtt, rtt / 2)
            | Some (s, v) => s' ← smooth 7 s rtt 8; v' ← smooth 3 v (Z.abs (s - rtt)) 4; Some (s', v')
            end;
  v4 ← checked_mul 64 4 v;
  let t := set_srtt (Some (s, v)) t in
  Some (set_rto (clamp (saturating_add 64 s (Z.max v4 CLOCK_GRANULARITY_NS)) RTO_MIN_NS RTO_MAX_NS) t, k).

Definition grow (t : Tcb) (acked : Z) : Tcb :=
  let s := seg t in
  let c := if cwnd t <? ssthresh t then saturating_add 32 (cwnd t) (Z.min acked s)
           else saturating_add 32 (cwnd t) (Z.max (s * s / Z.max (cwnd t) 1) 1) in
  set_cwnd (Z.min c RING) t.

(** Whether a block names data sent and not acknowledged. *)
Definition sack_valid (t : Tcb) (b : Z * Z) : bool :=
  seq_lt b.1 b.2 && seq_le (snd_una t) b.1 && seq_le b.2 (snd_max t).
Definition record_sack (t : Tcb) (blocks : list (option (Z * Z))) : Tcb * bool :=
  let kept := zip_with (λ (_ : option (Z * Z)) b, match b with Some b => if sack_valid t b then Some b else None | None => None end)
                (sacked t) blocks in
  (set_sacked kept t, existsb (λ b, negb (is_none b)) kept).

Definition forget_sacked (t : Tcb) (through : Z) : Tcb :=
  set_sacked ((λ s, match s with Some (_, e) => if seq_le e through then None else s | None => s end) <$> sacked t) t.

Definition covers (at_ : Z) (b : Z * Z) : bool := seq_le b.1 at_ && seq_lt at_ b.2.

Fixpoint first_hole_loop (n : nat) (blocks : list (Z * Z)) (at_ : Z) : Z :=
  match n with
  | O => at_
  | S n =>
      match position (covers at_) blocks with
      | Some i => match blocks !! i with Some b => first_hole_loop n blocks b.2 | None => at_ end
      | None => at_
      end
  end.
Definition blocks (t : Tcb) : list (Z * Z) := omap (λ x, x) (sacked t).
Definition first_hole (t : Tcb) (from : Z) : Z := first_hole_loop (S SACK_BLOCKS) (blocks t) from.

Definition to_next_block (t : Tcb) (from : Z) : option Z :=
  foldr (λ b acc, let d := wrapping_sub 32 b.1 from in
    if seq_lt from b.1 then Some (match acc with Some m => Z.min d m | None => d end) else acc) None (blocks t).

Definition begin_recovery (t : Tcb) : Tcb :=
  let s := seg t in
  let t := set_ssthresh (Z.max (flight t / 2) (2 * s)) t in
  let t := set_cwnd (saturating_add 32 (ssthresh t) (DUP_ACK_THRESHOLD * s)) t in
  let t := set_recover (snd_max t) t in
  let t := set_recovering true t in
  let t := set_snd_nxt (first_hole t (snd_una t)) t in
  let t := set_resend true t in
  set_timing None t.

Definition collapse (t : Tcb) : Tcb :=
  let s := seg t in
  let t := set_ssthresh (Z.max (flight t / 2) (2 * s)) t in
  let t := set_cwnd s t in
  let t := set_dup_acks 0 t in
  let t := set_recovering false t in
  let t := set_sacked (replicate SACK_BLOCKS None) t in
  set_timing None t.

Definition enter (t : Tcb) (s : State) : Tcb :=
  let t := set_visited (Z.lor (visited t) (bit s)) (set_state s t) in
  if in_state t Closed || in_state t TimeWait then set_deadline None t else t.

Definition established (t : Tcb) (k : Counters) : option (Tcb * Counters) :=
  let t := enter t Established in
  let t := set_cwnd (INITIAL_WINDOW * seg t) t in
  k ← bump established_ k;
  Some (if fin_queued t then enter t FinWait1 else t, k).

Definition advance (t : Tcb) (n now : Z) : Tcb :=
  let fresh := snd_nxt t =? snd_max t in
  let t := set_snd_nxt (wrapping_add 32 (snd_nxt t) (n mod 2 ^ 32)) t in
  let t := if seq_lt (snd_max t) (snd_nxt t) then set_snd_max (snd_nxt t) t else t in
  let t := if fresh && is_none (timing t) then set_timing (Some (snd_nxt t, now)) t else t in
  if is_none (deadline t) then set_deadline (Some (saturating_add 64 now (rto t))) t else t.

(** The acknowledged bytes leave the send ring. *)
Definition drop_sent (t : Tcb) (data : Z) : option Tcb :=
  h ← usize_add (head (tx t)) data;
  l ← checked_sub (rlen (tx t)) data;
  let t := set_tx {| buf := buf (tx t); head := h mod RING; rlen := l |} t in
  Some (set_tx_seq (wrapping_add 32 (tx_seq t) (data mod 2 ^ 32)) t).

(** A round-trip measurement, if the segment timed is acknowledged. *)
Definition measure (t : Tcb) (ack now : Z) (k : Counters) : option (Tcb * Counters) :=
  match timing t with
  | Some (through, sent) => if seq_le through ack then sample_rtt (set_timing None t) (saturating_sub now sent) k else Some (t, k)
  | None => Some (t, k)
  end.

(** What the acknowledgement means to loss recovery and to the congestion window. *)
Definition ack_window (t : Tcb) (ack acked : Z) (k : Counters) : option (Tcb * Counters) :=
  if recovering t then
    if seq_le (recover t) ack then
      Some (set_sacked (replicate SACK_BLOCKS None) (set_recovering false (set_cwnd (ssthresh t) t)), k)
    else
      let t := set_snd_nxt (first_hole t ack) t in
      let t := set_cwnd (Z.max (saturating_sub (cwnd t) acked) (seg t)) t in
      let t := set_resend true t in
      k ← bump fast_retransmits k;
      k ← bump partial_acks k;
      Some (set_timing None t, k)
  else Some (grow t acked, k).

Definition acknowledge (t : Tcb) (ack now : Z) (k : Counters) : option (Tcb * Counters) :=
  n ← (if snd_una t =? iss t then checked_sub (wrapping_sub 32 ack (snd_una t)) 1 else Some (wrapping_sub 32 ack (snd_una t)));
  let data := Z.min n (rlen (tx t)) in
  t ← drop_sent t data;
  let acked := wrapping_sub 32 ack (snd_una t) in
  let t := set_snd_una ack t in
  let t := if seq_lt (snd_nxt t) ack then set_snd_nxt ack t else t in
  '(t, k) ← measure t ack now k;
  let t := forget_sacked t ack in
  '(t, k) ← ack_window t ack acked k;
  let t := set_dup_acks 0 t in
  let t := set_retries 0 t in
  let t := if is_none (srtt t) then set_rto RTO_INITIAL_NS t else t in
  let t := set_probe false t in
  Some (set_deadline (if snd_una t =? snd_max t then None else Some (saturating_add 64 now (rto t))) t, k).

Definition fin_acknowledged (t : Tcb) : bool :=
  match fin_seq t with Some f => seq_le (wrapping_add 32 f 1) (snd_una t) | None => false end.

Definition matches (t : Tcb) (src : Ipv4Addr) (sg : Wire.Tcp) : bool :=
  active t && negb (in_state t Listen) && (local_port t =? tcp_dst_port sg) && (remote_port t =? tcp_src_port sg) &&
  bool_decide (remote_ip t = src).


(** ** A segment arrives *)

Record Outcome := { o_deliver : option Deliver; o_reset : bool }.
Definition no_outcome : Outcome := {| o_deliver := None; o_reset := false |}.
Definition reset_if (b : bool) : Outcome := {| o_deliver := None; o_reset := b |}.

Definition flag (sg : Wire.Tcp) (f : Z) : bool := negb (Z.land (tcp_flags sg) f =? 0).
Definition payload_len (sg : Wire.Tcp) : Z := Z.of_nat (length (tcp_payload sg)).

(** In SYN-SENT. *)
Definition segment_syn_sent (t : Tcb) (k : Counters) (sg : Wire.Tcp) (now : Z) : option (Tcb * Counters * Outcome) :=
  let ack := flag sg TCP_ACK in
  let rst := flag sg TCP_RST in
  if ack && negb (tcp_ack sg =? wrapping_add 32 (iss t) 1) then Some (t, k, reset_if (negb rst))
  else if rst then
    if ack then
      k ← bump resets_received k;
      Some (enter (set_error (Some Reset_) t) Closed, k, no_outcome)
    else Some (t, k, no_outcome)
  else if negb (flag sg TCP_SYN) then Some (t, k, no_outcome)
  else
    let t := set_rcv_nxt (wrapping_add 32 (tcp_seq sg) 1) t in
    let t := set_mss (clamp (default DEFAULT_MSS (tcp_mss sg)) 1 MSS) t in
    let t := set_sack_ok (tcp_sack_permitted sg) t in
    let t := set_snd_wnd (tcp_window sg) t in
    let t := set_ack_now true t in
    if ack then
      '(t, k) ← acknowledge t (tcp_ack sg) now k;
      '(t, k) ← established t k;
      Some (t, k, no_outcome)
    else
      let t := enter t SynReceived in
      Some (set_snd_nxt (iss t) t, k, no_outcome).

(** A duplicate acknowledgement. *)
Definition duplicate_ack (t : Tcb) (k : Counters) (sg : Wire.Tcp) : option (Tcb * Counters) :=
  k ← bump dup_acks_ k;
  d ← checked_add 32 (dup_acks t) 1;
  let t := set_dup_acks d t in
  let t := if sack_ok t then (record_sack t (tcp_sack sg)).1 else t in
  if recovering t then Some (set_cwnd (saturating_add 32 (cwnd t) (seg t)) t, k)
  else if dup_acks t =? DUP_ACK_THRESHOLD then
    k ← bump fast_retransmits k;
    Some (begin_recovery t, k)
  else Some (t, k).

(** The acknowledgement a segment carries; [Some] outcome returns. *)
Definition segment_ack (t : Tcb) (k : Counters) (sg : Wire.Tcp) (now : Z) : option (Tcb * Counters * option Outcome) :=
  let fin := flag sg TCP_FIN in
  if in_state t SynReceived then
    if negb (seq_lt (snd_una t) (tcp_ack sg) && seq_le (tcp_ack sg) (snd_max t)) then Some (t, k, Some (reset_if true))
    else
      let t := set_snd_wnd (tcp_window sg) t in
      '(t, k) ← acknowledge t (tcp_ack sg) now k;
      '(t, k) ← established t k;
      Some (t, k, None)
  else if seq_lt (snd_max t) (tcp_ack sg) then Some (set_ack_now true t, k, Some no_outcome)
  else
    '(t, k) ← (if seq_lt (snd_una t) (tcp_ack sg) then acknowledge t (tcp_ack sg) now k
               else if (tcp_ack sg =? snd_una t) && (payload_len sg =? 0) && negb fin && (tcp_window sg =? snd_wnd t) &&
                       negb (snd_una t =? snd_max t)
               then duplicate_ack t k sg
               else Some (t, k));
    Some (if seq_le (snd_una t) (tcp_ack sg) then set_snd_wnd (tcp_window sg) t else t, k, None).

(** This end's FIN is acknowledged; the flag returns. *)
Definition segment_fin_acked (t : Tcb) (now : Z) : Tcb * bool :=
  let fin_acked := fin_acknowledged t in
  if in_state t FinWait1 && fin_acked then (enter t FinWait2, false)
  else if in_state t Closing && fin_acked then (set_time_wait_until (saturating_add 64 now TIME_WAIT_NS) (enter t TimeWait), false)
  else if in_state t LastAck && fin_acked then (enter t Closed, true)
  else (t, false).

Definition receiving (t : Tcb) : bool := in_state t Established || in_state t FinWait1 || in_state t FinWait2.

(** Payload ahead of what is expected. *)
Definition segment_ahead (t : Tcb) (k : Counters) (sg : Wire.Tcp) (from : Z) : option (Tcb * Counters * Outcome) :=
  k ← bump out_of_order k;
  let t := set_ack_now true t in
  let ahead := wrapping_sub 32 (tcp_seq sg) (rcv_nxt t) in
  used ← usize_add (rlen (rx t)) ahead;
  let room := saturating_sub RING used in
  let take_ := Z.min (payload_len sg) room in
  if take_ =? 0 then k ← bump out_of_order_dropped k; Some (t, k, no_outcome)
  else
    a ← usize_add (head (rx t)) (rlen (rx t));
    a ← usize_add a ahead;
    let at_ := a mod RING in
    '(t, k, held) ← hold t (tcp_seq sg) (take_ mod 2 ^ 32) k;
    if negb held then Some (t, k, no_outcome)
    else
      k ← bump out_of_order_queued k;
      Some (t, k, {| o_deliver := Some {| dl_ring := buf (rx t); dl_at := at_; dl_from := from; dl_len := take_ |}; o_reset := false |}).

(** Payload at or behind what is expected: what is delivered, and where in sequence space it was taken to. *)
Definition segment_next (t : Tcb) (k : Counters) (sg : Wire.Tcp) (from : Z) : option (Tcb * Counters * option Deliver * Z) :=
  let skip := wrapping_sub 32 (rcv_nxt t) (tcp_seq sg) in
  k ← (if 0 <? skip then bump duplicates k else Some k);
  free ← Ring_free (rx t);
  let take_ := Z.min (saturating_sub (payload_len sg) skip) free in
  '(t, k, d) ←
    (if 0 <? take_ then
       a ← usize_add (head (rx t)) (rlen (rx t));
       f ← usize_add from skip;
       l ← usize_add (rlen (rx t)) take_;
       let d := {| dl_ring := buf (rx t); dl_at := a mod RING; dl_from := f; dl_len := take_ |} in
       let t := set_rx {| buf := buf (rx t); head := head (rx t); rlen := l |} t in
       let t := set_rcv_nxt (wrapping_add 32 (rcv_nxt t) (take_ mod 2 ^ 32)) t in
       '(t, k) ← coalesce t k;
       Some (t, k, Some d)
     else Some (t, k, None));
  sum ← usize_add skip take_;
  Some (set_ack_now true t, k, d, wrapping_add 32 (tcp_seq sg) (sum mod 2 ^ 32)).

(** The peer's FIN, if everything before it is here. *)
Definition segment_fin (t : Tcb) (sg : Wire.Tcp) (fin_acked : bool) (taken_to now : Z) : Tcb :=
  let whole := taken_to =? wrapping_add 32 (tcp_seq sg) (payload_len sg mod 2 ^ 32) in
  if flag sg TCP_FIN && whole && seq_le taken_to (rcv_nxt t) then
    let t := set_rcv_nxt (wrapping_add 32 (rcv_nxt t) 1) t in
    let t := set_peer_fin true t in
    let t := set_ack_now true t in
    let t := match state t with
             | Established => enter t CloseWait
             | FinWait1 => if fin_acked then enter t TimeWait else enter t Closing
             | FinWait2 => enter t TimeWait
             | _ => t
             end in
    if in_state t TimeWait then set_time_wait_until (saturating_add 64 now TIME_WAIT_NS) t else t
  else t.

(** The text of a segment, and its FIN. *)
Definition segment_text (t : Tcb) (k : Counters) (sg : Wire.Tcp) (fin_acked : bool) (from now : Z) : option (Tcb * Counters * Outcome) :=
  if negb (payload_len sg =? 0) && receiving t then
    if seq_lt (rcv_nxt t) (tcp_seq sg) then segment_ahead t k sg from
    else
      '(t, k, d, taken_to) ← segment_next t k sg from;
      Some (segment_fin t sg fin_acked taken_to now, k, {| o_deliver := d; o_reset := false |})
  else Some (segment_fin t sg fin_acked (wrapping_add 32 (tcp_seq sg) (payload_len sg mod 2 ^ 32)) now, k, no_outcome).

(** A segment that does not overlap the receive window. *)
Definition segment_outside (t : Tcb) (k : Counters) (sg : Wire.Tcp) : option (Tcb * Counters * Outcome) :=
  let t := if flag sg TCP_RST then t
           else let t := set_ack_now true t in
                if in_state t SynReceived && flag sg TCP_SYN then set_snd_nxt (iss t) t else t in
  k ← bump duplicates k;
  Some (t, k, no_outcome).

Definition segment (t : Tcb) (k : Counters) (sg : Wire.Tcp) (from now : Z) : option (Tcb * Counters * Outcome) :=
  let syn := flag sg TCP_SYN in
  let fin := flag sg TCP_FIN in
  let rst := flag sg TCP_RST in
  let ack := flag sg TCP_ACK in
  if in_state t SynSent then segment_syn_sent t k sg now
  else if in_state t Closed || in_state t Listen then Some (t, k, reset_if (negb rst))
  else
    l ← checked_add 32 (payload_len sg mod 2 ^ 32) (if syn then 1 else 0);
    len ← checked_add 32 l (if fin then 1 else 0);
    wnd ← rx_free t;
    if negb (acceptable (rcv_nxt t) (wnd mod 2 ^ 32) (tcp_seq sg) len) then segment_outside t k sg
    else if rst then
      if tcp_seq sg =? rcv_nxt t then
        k ← bump resets_received k;
        Some (enter (set_error (Some Reset_) t) Closed, k, no_outcome)
      else Some (set_ack_now true t, k, no_outcome)
    else if syn then Some (set_ack_now true t, k, no_outcome)
    else if negb ack then Some (t, k, no_outcome)
    else
      '(t, k, out) ← segment_ack t k sg now;
      match out with
      | Some out => Some (t, k, out)
      | None =>
          let fin_acked := fin_acknowledged t in
          let '(t, stop) := segment_fin_acked t now in
          if (stop : bool) then Some (t, k, no_outcome)
          else segment_text t k sg fin_acked from now
      end.

(** ** A segment to send *)

Definition plain_header (t : Tcb) (window : Z) (sack : list (option (Z * Z))) : TcpHeader :=
  {| h_src_port := local_port t; h_dst_port := remote_port t; h_seq := snd_nxt t; h_ack := rcv_nxt t; h_flags := TCP_ACK;
     h_window := window; h_mss := None; h_sack_permitted := false; h_sack := sack |}.

(** The held runs, nearest first, as blocks: each turn takes the nearest run not taken. *)
Fixpoint nearest_runs (n : nat) (rcv : Z) (runs : list (option Run)) : list (option (Z * Z)) :=
  match n with
  | O => []
  | S m =>
      match min_by_key (λ r, match r with Some r => wrapping_sub 32 (r_seq r) rcv | None => 2 ^ 32 end) runs with
      | Some i =>
          match runs !! i with
          | Some (Some run) => Some (r_seq run, run_end run) :: nearest_runs m rcv (<[i := None]> runs)
          | _ => replicate n None
          end
      | None => replicate n None
      end
  end.

Definition flags_of (h : TcpHeader) (f : Z) : TcpHeader :=
  {| h_src_port := h_src_port h; h_dst_port := h_dst_port h; h_seq := h_seq h; h_ack := h_ack h; h_flags := f;
     h_window := h_window h; h_mss := h_mss h; h_sack_permitted := h_sack_permitted h; h_sack := h_sack h |}.

(** [limit - at] if [at] comes before [limit]. *)
Definition room_before (at_ limit : Z) : Z := if seq_lt at_ limit then wrapping_sub 32 limit at_ else 0.

Definition sending (t : Tcb) : bool :=
  match state t with Established | CloseWait | FinWait1 | Closing | LastAck => true | _ => false end.

(** How many of the [unsent] bytes the next segment carries. *)
Definition send_now (t : Tcb) (unsent : Z) : Z :=
  let by_peer := room_before (snd_nxt t) (wrapping_add 32 (snd_una t) (snd_wnd t)) in
  let by_congestion := room_before (snd_nxt t) (wrapping_add 32 (snd_una t) (cwnd t)) in
  let usable := Z.min by_peer by_congestion in
  let usable := if (usable =? 0) && probe t then 1 else usable in
  let resending := seq_lt (snd_nxt t) (snd_max t) in
  let n := if resending && recovering t && negb (resend t) then 0 else Z.min (Z.min unsent usable) (seg t) in
  if resending then match to_next_block t (snd_nxt t) with Some gap => Z.min n gap | None => n end else n.

(** A segment of [n] bytes, from the ring position [sent] bytes past its head. *)
Definition send_data (t : Tcb) (k : Counters) (h : TcpHeader) (sent n now : Z) : option (Tcb * Counters * Segment) :=
  let resending := seq_lt (snd_nxt t) (snd_max t) in
  let t := set_ack_now false (set_probe false t) in
  '(t, k) ← (if resending then k ← bump data_retransmits k; Some (set_timing None (set_resend false t), k) else Some (t, k));
  a ← usize_add (head (tx t)) sent;
  let s := {| sg_remote_ip := remote_ip t; sg_header := flags_of h (Z.lor TCP_ACK TCP_PSH); sg_data := Some (buf (tx t), a mod RING, n) |} in
  let t := advance t n now in
  if resending then
    let skipped := first_hole t (snd_nxt t) in
    if negb (skipped =? snd_nxt t) then k ← bump sack_retransmits k; Some (set_snd_nxt skipped t, k, s)
    else Some (t, k, s)
  else Some (t, k, s).

(** A FIN after the data, or an acknowledgement that is owed. *)
Definition send_rest (t : Tcb) (h : TcpHeader) (now : Z) : Tcb * option Segment :=
  let plain h := Some {| sg_remote_ip := remote_ip t; sg_header := h; sg_data := None |} in
  let drained := snd_nxt t =? wrapping_add 32 (tx_seq t) (rlen (tx t) mod 2 ^ 32) in
  if sending t && fin_queued t && drained && match fin_seq t with Some f => f =? snd_nxt t | None => true end then
    let t := set_fin_seq (Some (snd_nxt t)) (set_ack_now false t) in
    (advance t 1 now, plain (flags_of h (Z.lor TCP_FIN TCP_ACK)))
  else if ack_now t then (set_ack_now false t, plain h)
  else (t, None).

Definition send_syn (t : Tcb) (h : TcpHeader) (now : Z) : Tcb * option Segment :=
  let t := set_ack_now false t in
  if negb (snd_nxt t =? iss t) then (t, None)
  else
    let '(f, a) := if in_state t SynSent then (TCP_SYN, 0) else (Z.lor TCP_SYN TCP_ACK, h_ack h) in
    let h := {| h_src_port := h_src_port h; h_dst_port := h_dst_port h; h_seq := iss t; h_ack := a; h_flags := f; h_window := h_window h;
                h_mss := Some MSS; h_sack_permitted := true; h_sack := h_sack h |} in
    (advance t 1 now, Some {| sg_remote_ip := remote_ip t; sg_header := h; sg_data := None |}).

Definition tcb_segment (t : Tcb) (k : Counters) (now : Z) : option (Tcb * Counters * option Segment) :=
  free ← rx_free t;
  let window := Z.min free u16_MAX in
  let sack := if sack_ok t then nearest_runs SACK_BLOCKS (rcv_nxt t) (ooo t) else replicate SACK_BLOCKS None in
  let h := plain_header t window sack in
  if rst_now t then
    let t := set_rst_now false t in
    k ← bump resets_sent k;
    Some (t, k, Some {| sg_remote_ip := remote_ip t; sg_header := flags_of h (Z.lor TCP_RST TCP_ACK); sg_data := None |})
  else
    match state t with
    | Closed | Listen => Some (t, k, None)
    | SynSent | SynReceived => let '(t, s) := send_syn t h now in Some (t, k, s)
    | _ =>
        if sending t then
          let sent := wrapping_sub 32 (snd_nxt t) (tx_seq t) in
          let unsent := saturating_sub (rlen (tx t)) sent in
          if 0 <? unsent then
            let n := send_now t unsent in
            if 0 <? n then '(t, k, s) ← send_data t k h sent n now; Some (t, k, Some s)
            else
              let t := if is_none (deadline t) then set_deadline (Some (saturating_add 64 now (rto t))) t else t in
              let '(t, s) := send_rest t h now in Some (t, k, s)
          else let '(t, s) := send_rest t h now in Some (t, k, s)
        else let '(t, s) := send_rest t h now in Some (t, k, s)
    end.


(** ** What a program does to a connection *)

(** [send]'s body, given the contents of the send ring's buffer: [Some] contents are written back. *)
Definition tcb_send (t : Tcb) (ring : option Bytes) (data : Bytes) : option (Tcb * option Bytes * result Z TcpError) :=
  match error t with
  | Some e => Some (t, None, Err e)
  | None =>
      if (in_state t Established || in_state t CloseWait) && negb (fin_queued t) then
        free ← Ring_free (tx t);
        let n := Z.min (Z.of_nat (length data)) free in
        if n =? 0 then Some (t, None, if (length data =? 0)%nat then Ok 0 else Err WouldBlock)
        else match ring with
        | None => Some (t, None, Err BadConnection)
        | Some ring =>
            a ← usize_add (head (tx t)) (rlen (tx t));
            ring ← ring_write ring a (take (Z.to_nat n) data);
            l ← usize_add (rlen (tx t)) n;
            Some (set_tx {| buf := buf (tx t); head := head (tx t); rlen := l |} t, Some ring, Ok n)
        end
      else if (in_state t SynSent || in_state t SynReceived) && negb (fin_queued t) then Some (t, None, Err WouldBlock)
      else Some (t, None, Err WrongState)
  end.

(** Nothing to copy: the end of the stream, an error, or not yet. *)
Definition nothing_read (t : Tcb) (room : Z) : result Bytes TcpError :=
  if (room =? 0) || peer_fin t then Ok []
  else match error t with
  | Some e => Err e
  | None => match state t with Listen => Err WrongState | Closed | TimeWait => Ok [] | _ => Err WouldBlock end
  end.

(** [recv]'s body: the bytes copied, [room] being the length of the slice. *)
Definition tcb_recv (t : Tcb) (ring : option Bytes) (room : Z) : option (Tcb * result Bytes TcpError) :=
  let n := Z.min room (rlen (rx t)) in
  if 0 <? n then
    match ring with
    | None => Some (t, Err BadConnection)
    | Some ring =>
        b ← ring_read ring (head (rx t)) n;
        before ← rx_free t;
        h ← usize_add (head (rx t)) n;
        l ← checked_sub (rlen (rx t)) n;
        let t := set_rx {| buf := buf (rx t); head := h mod RING; rlen := l |} t in
        now_free ← rx_free t;
        Some (if (before <? MSS) && (MSS <=? now_free) then set_ack_now true t else t, Ok b)
    end
  else Some (t, nothing_read t room).

Definition tcb_peek (t : Tcb) (ring : option Bytes) (room : Z) : option (result Bytes TcpError) :=
  let n := Z.min room (rlen (rx t)) in
  if 0 <? n then
    match ring with
    | None => Some (Err BadConnection)
    | Some ring => b ← ring_read ring (head (rx t)) n; Some (Ok b)
    end
  else Some (nothing_read t room).

Definition tcb_shutdown (t : Tcb) : Tcb :=
  match state t with
  | Listen => enter t Closed
  | SynSent | SynReceived => set_fin_queued true t
  | Established => enter (set_fin_queued true t) FinWait1
  | CloseWait => enter (set_fin_queued true t) LastAck
  | _ => t
  end.

Definition tcb_abort (t : Tcb) : Tcb :=
  let t := set_rst_now (synchronized (state t) || in_state t SynReceived) t in
  enter (set_released true t) Closed.

(** The timers of one active connection. *)
Definition tcb_timers (t : Tcb) (k : Counters) (now : Z) : option (Tcb * Counters) :=
  let t := if in_state t TimeWait && (time_wait_until t <=? now) then enter t Closed else t in
  match deadline t with
  | None => Some (t, k)
  | Some d =>
      if now <? d then Some (t, k)
      else if snd_una t =? snd_max t then Some (set_deadline None (set_probe true t), k)
      else
        r ← checked_add 32 (retries t) 1;
        let t := set_retries r t in
        if RETRIES <? retries t then
          k ← bump timeouts k;
          let t := set_error (Some TimedOut) t in
          Some (enter (set_rst_now (synchronized (state t)) t) Closed, k)
        else
          k ← bump retransmit_timeouts k;
          let t := collapse t in
          let t := set_snd_nxt (snd_una t) t in
          let t := set_rto (Z.min (saturating_mul 64 (rto t) 2) RTO_MAX_NS) t in
          Some (set_deadline (Some (saturating_add 64 now (rto t))) t, k)
  end.

(** ** Every connection *)

Record Tcp := {
  tcbs : list Tcb; syns : list (option Syn); resets : list (option Segment); next_port : Z; counters : Counters }.

Definition Tcp_new : Tcp := {|
  tcbs := replicate CONNECTIONS EMPTY; syns := replicate BACKLOG None; resets := replicate RESETS None; next_port := 0; counters := λ _, 0 |}.

Definition set_tcbs (x : list Tcb) (s : Tcp) : Tcp :=
  {| tcbs := x; syns := syns s; resets := resets s; next_port := next_port s; counters := counters s |}.
Definition set_syns (x : list (option Syn)) (s : Tcp) : Tcp :=
  {| tcbs := tcbs s; syns := x; resets := resets s; next_port := next_port s; counters := counters s |}.
Definition set_resets (x : list (option Segment)) (s : Tcp) : Tcp :=
  {| tcbs := tcbs s; syns := syns s; resets := x; next_port := next_port s; counters := counters s |}.
Definition set_next_port (x : Z) (s : Tcp) : Tcp :=
  {| tcbs := tcbs s; syns := syns s; resets := resets s; next_port := x; counters := counters s |}.
Definition set_counters (x : Counters) (s : Tcp) : Tcp :=
  {| tcbs := tcbs s; syns := syns s; resets := resets s; next_port := next_port s; counters := x |}.
Definition count (c : Counter) (s : Tcp) : option Tcp := k ← bump c (counters s); Some (set_counters k s).
Definition set_tcb (i : nat) (t : Tcb) (s : Tcp) : Tcp := set_tcbs (<[i := t]> (tcbs s)) s.

Definition sent_one (s : Tcp) : option Tcp := count segments_out s.

Definition get (s : Tcp) (c : Conn) : result Tcb TcpError :=
  match tcbs s !! c_index c with
  | Some t => if active t && (generation t =? c_generation c) then Ok t else Err BadConnection
  | None => Err BadConnection
  end.

Definition held (r : Ring) : nat := if is_none (buf r) then 0 else 1.
Definition rings_held (s : Tcp) : nat := sum_list ((λ t, if active t then held (rx t) + held (tx t) else 0)%nat <$> tcbs s).
Definition slots_in_use (s : Tcp) : nat := count_if active (tcbs s).

Definition status (s : Tcp) (c : Conn) : option (option Status) :=
  match get s c with
  | Err _ => Some None
  | Ok t =>
      let open := (in_state t Established || in_state t CloseWait) && negb (fin_queued t) in
      w ← (if open then Ring_free (tx t) else Some 0);
      Some (Some {| s_state := state t; s_visited := visited t; s_error := error t; s_readable := rlen (rx t); s_writable := w;
        s_unacknowledged := rlen (tx t); s_peer_closed := peer_fin t; s_fin_acknowledged := fin_acknowledged t; s_cwnd := cwnd t;
        s_ssthresh := ssthresh t; s_held_out_of_order := count_if (λ r, negb (is_none r)) (ooo t); s_rto_ns := rto t |})
  end.

Definition endpoints (s : Tcp) (c : Conn) : option (Z * Ipv4Addr * Z) :=
  match get s c with Ok t => Some (local_port t, remote_ip t, remote_port t) | Err _ => None end.

Definition listens (port : Z) (t : Tcb) : bool := active t && in_state t Listen && (local_port t =? port).
Definition listening (s : Tcp) (port : Z) : bool := existsb (listens port) (tcbs s).

Definition next_deadline (s : Tcp) : option Z :=
  foldr (λ t acc,
    if active t then
      foldr (λ d acc, match d, acc with Some d, Some m => Some (Z.min d m) | Some d, None => Some d | None, _ => acc end) acc
        [deadline t; if in_state t TimeWait then Some (time_wait_until t) else None]
    else acc) None (tcbs s).

(** A connection in TIME-WAIT that can be given up. *)
Definition spare (t : Tcb) : bool := in_state t TimeWait && released t && is_none (buf (rx t)) && is_none (buf (tx t)).

(** The first of the spare connections nearest their end. *)
Definition nearest_end (l : list Tcb) : option nat :=
  foldr (λ x acc,
    if spare x.2 then
      match acc with
      | Some j => Some (if time_wait_until (default EMPTY (l !! j)) <? time_wait_until x.2 then j else x.1)
      | None => Some x.1
      end
    else acc) None (imap Datatypes.pair l).

Definition slot (s : Tcp) : Tcp * option nat :=
  match position (λ t, negb (active t)) (tcbs s) with
  | Some i => (s, Some i)
  | None =>
      match nearest_end (tcbs s) with
      | Some i => (set_tcbs (alter (set_active false) i (tcbs s)) s, Some i)
      | None => (s, None)
      end
  end.

Definition port_in_use (s : Tcp) (port : Z) : bool := existsb (λ t, active t && (local_port t =? port)) (tcbs s).

Fixpoint ephemeral_loop (n : nat) (s : Tcp) : Tcp * option Z :=
  match n with
  | O => (s, None)
  | S n =>
      let port := next_port s in
      let s := set_next_port (if port =? u16_MAX then EPHEMERAL_FIRST else port + 1) s in
      if port_in_use s port then ephemeral_loop n s else (s, Some port)
  end.

Definition ephemeral (s : Tcp) (now : Z) : Tcp * option Z :=
  let span := u16_MAX - EPHEMERAL_FIRST + 1 in
  let s := if next_port s =? 0
           then set_next_port (EPHEMERAL_FIRST + ((now * 0x9e3779b97f4a7c15) mod 2 ^ 64) mod span) s else s in
  ephemeral_loop (Z.to_nat span) s.

Definition initial_sequence (now local remote : Z) : Z :=
  Z.lxor ((now / 4000) mod 2 ^ 32) ((Z.lor (shl 32 local 16) remote * 0x9e3779b9) mod 2 ^ 32).

Definition install (s : Tcp) (i : nat) (t : Tcb) : option (Tcp * Conn) :=
  old ← tcbs s !! i;
  let g := wrapping_add 32 (generation old) 1 in
  Some (set_tcb i (set_active true (set_generation g t)) s, {| c_index := i; c_generation := g |}).

(** A connection with the initial sequence number [n] and its two rings. *)
Definition opened (st : State) (v port : Z) (ip : Ipv4Addr) (rport n : Z) (rx_ tx_ : nat) : Tcb :=
  set_state st (set_visited v (set_local_port port (set_remote_ip ip (set_remote_port rport (
  set_iss n (set_snd_una n (set_snd_nxt n (set_snd_max n (set_tx_seq (wrapping_add 32 n 1) (
  set_rx (Ring_on rx_) (set_tx (Ring_on tx_) EMPTY))))))))))).

Definition connect (s : Tcp) (p : Pool.Pool) (ip : Ipv4Addr) (rport now : Z) : option (Tcp * Pool.Pool * result Conn TcpError) :=
  let '(s, i) := slot s in
  match i with
  | None => Some (s, p, Err NoRoom)
  | Some i =>
      let '(s, port) := ephemeral s now in
      match port with
      | None => Some (s, p, Err PortInUse)
      | Some port =>
          '(p, rings) ← take_two p;
          match rings with
          | None => Some (s, p, Err NoRoom)
          | Some (r, x) =>
              s ← count connects s;
              '(s, c) ← install s i (opened SynSent (bit SynSent) port ip rport (initial_sequence now port rport) r x);
              Some (s, p, Ok c)
          end
      end
  end.

Definition listen (s : Tcp) (port : Z) : option (Tcp * result Conn TcpError) :=
  if (port =? 0) || existsb (listens port) (tcbs s) then Some (s, Err PortInUse)
  else
    let '(s, i) := slot s in
    match i with
    | None => Some (s, Err NoRoom)
    | Some i =>
        '(s, c) ← install s i (set_state Listen (set_visited (bit Listen) (set_local_port port EMPTY)));
        Some (s, Ok c)
    end.

Definition is_parent (t : Tcb) (i : nat) : bool := bool_decide (parent t = Some i).
Definition acceptable_to (listener : nat) (t : Tcb) : bool :=
  active t && is_parent t listener && negb (accepted t) && synchronized (state t).

Definition pending (s : Tcp) (l : Conn) : bool :=
  match get s l with Ok t => in_state t Listen | Err _ => false end && existsb (acceptable_to (c_index l)) (tcbs s).

Definition accept (s : Tcp) (l : Conn) : Tcp * result Conn TcpError :=
  match get s l with
  | Err e => (s, Err e)
  | Ok t =>
      if negb (in_state t Listen) then (s, Err WrongState)
      else match position (acceptable_to (c_index l)) (tcbs s) with
      | None => (s, Err WouldBlock)
      | Some i =>
          match tcbs s !! i with
          | Some t => (set_tcb i (set_parent None (set_accepted true t)) s, Ok {| c_index := i; c_generation := generation t |})
          | None => (s, Err WouldBlock)
          end
      end
  end.

Definition write_back (p : Pool.Pool) (r : Ring) (b : option Bytes) : Pool.Pool :=
  match buf r, b with Some i, Some b => Pool.write_buffer p i b | _, _ => p end.

Definition send (s : Tcp) (p : Pool.Pool) (c : Conn) (data : Bytes) : option (Tcp * Pool.Pool * result Z TcpError) :=
  match get s c with
  | Err e => Some (s, p, Err e)
  | Ok t =>
      '(t', b, r) ← tcb_send t (ring_bytes p (tx t)) data;
      Some (set_tcb (c_index c) t' s, write_back p (tx t) b, r)
  end.

Definition recv (s : Tcp) (p : Pool.Pool) (c : Conn) (room : Z) : option (Tcp * result Bytes TcpError) :=
  match get s c with
  | Err e => Some (s, Err e)
  | Ok t => '(t', r) ← tcb_recv t (ring_bytes p (rx t)) room; Some (set_tcb (c_index c) t' s, r)
  end.

Definition peek (s : Tcp) (p : Pool.Pool) (c : Conn) (room : Z) : option (result Bytes TcpError) :=
  match get s c with Err e => Some (Err e) | Ok t => tcb_peek t (ring_bytes p (rx t)) room end.

Definition shutdown (s : Tcp) (c : Conn) : Tcp * result unit TcpError :=
  match get s c with Err e => (s, Err e) | Ok t => (set_tcb (c_index c) (tcb_shutdown t) s, Ok tt) end.

Definition abort (s : Tcp) (c : Conn) : Tcp * result unit TcpError :=
  match get s c with Err e => (s, Err e) | Ok t => (set_tcb (c_index c) (tcb_abort t) s, Ok tt) end.

(** A listener's connection nobody accepted. *)
Definition orphan (listener : nat) (t : Tcb) : Tcb :=
  if active t && is_parent t listener && negb (accepted t)
  then enter (set_rst_now (negb (in_state t Closed)) t) Closed else t.

Definition close (s : Tcp) (c : Conn) : Tcp * result unit TcpError :=
  match get s c with
  | Err e => (s, Err e)
  | Ok t =>
      let s := if in_state t Listen then set_tcbs (orphan (c_index c) <$> tcbs s) s else s in
      match get s c with
      | Err e => (s, Err e)
      | Ok t =>
          if 0 <? rlen (rx t) then abort s c
          else
            let t := set_released true t in
            if in_state t SynSent || in_state t Listen then (set_tcb (c_index c) (enter t Closed) s, Ok tt)
            else shutdown (set_tcb (c_index c) t s) c
      end
  end.

(** A ring's buffer goes back to the pool. *)
Definition give_ring (p : Pool.Pool) (r : Ring) : option (Pool.Pool * Ring) :=
  match buf r with
  | None => Some (p, r)
  | Some b => '(p, _) ← Pool.give p b; Some (p, Ring_NONE)
  end.

Definition reap_tcb (p : Pool.Pool) (t : Tcb) : option (Pool.Pool * Tcb) :=
  let owned := released t || (negb (is_none (parent t)) && negb (accepted t)) in
  let over := (in_state t Closed || in_state t TimeWait) && negb (rst_now t) in
  if negb (active t && owned && over) then Some (p, t)
  else
    '(p, r) ← give_ring p (rx t);
    '(p, x) ← give_ring p (tx t);
    let t := set_tx x (set_rx r t) in
    Some (p, if in_state t Closed then set_active false t else t).

Fixpoint reap_all (p : Pool.Pool) (l : list Tcb) : option (Pool.Pool * list Tcb) :=
  match l with
  | [] => Some (p, [])
  | t :: l => '(p, t) ← reap_tcb p t; '(p, l) ← reap_all p l; Some (p, t :: l)
  end.
Definition reap (s : Tcp) (p : Pool.Pool) : option (Tcp * Pool.Pool) :=
  '(p, l) ← reap_all p (tcbs s); Some (set_tcbs l s, p).

Fixpoint timers_all (l : list Tcb) (k : Counters) (now : Z) : option (list Tcb * Counters) :=
  match l with
  | [] => Some ([], k)
  | t :: l =>
      '(t, k) ← (if active t then tcb_timers t k now else Some (t, k));
      '(l, k) ← timers_all l k now;
      Some (t :: l, k)
  end.
Definition timers (s : Tcp) (now : Z) : option Tcp :=
  '(l, k) ← timers_all (tcbs s) (counters s) now; Some (set_counters k (set_tcbs l s)).

Definition queue_reset (s : Tcp) (src : Ipv4Addr) (sg : Wire.Tcp) : option Tcp :=
  if flag sg TCP_RST then Some s
  else
    '(seq, ack, flags) ←
      (if flag sg TCP_ACK then Some (tcp_ack sg, 0, TCP_RST)
       else
         l ← checked_add 32 (payload_len sg mod 2 ^ 32) (if flag sg TCP_SYN then 1 else 0);
         len ← checked_add 32 l (if flag sg TCP_FIN then 1 else 0);
         Some (0, wrapping_add 32 (tcp_seq sg) len, Z.lor TCP_RST TCP_ACK));
    let h := {| h_src_port := tcp_dst_port sg; h_dst_port := tcp_src_port sg; h_seq := seq; h_ack := ack; h_flags := flags; h_window := 0;
                h_mss := None; h_sack_permitted := false; h_sack := replicate SACK_BLOCKS None |} in
    let reset := {| sg_remote_ip := src; sg_header := h; sg_data := None |} in
    Some (match position is_none (resets s) with
          | Some i => set_resets (<[i := Some reset]> (resets s)) s
          | None => s
          end).

Definition same_syn (a b : Syn) : bool :=
  bool_decide (y_remote_ip a = y_remote_ip b) && (y_remote_port a =? y_remote_port b) && (y_local_port a =? y_local_port b).

(** A SYN for a listener. *)
Definition syn_of (listener : nat) (src : Ipv4Addr) (sg : Wire.Tcp) : Syn :=
  {| y_listener := listener; y_remote_ip := src; y_remote_port := tcp_src_port sg; y_local_port := tcp_dst_port sg;
     y_irs := tcp_seq sg; y_window := tcp_window sg; y_mss := default DEFAULT_MSS (tcp_mss sg); y_sack_ok := tcp_sack_permitted sg |}.

Definition unmatched (s : Tcp) (src : Ipv4Addr) (sg : Wire.Tcp) : option Tcp :=
  match position (listens (tcp_dst_port sg)) (tcbs s) with
  | Some listener =>
      if Z.land (tcp_flags sg) (Z.lor (Z.lor TCP_SYN TCP_ACK) TCP_RST) =? TCP_SYN then
        let syn := syn_of listener src sg in
        if existsb (λ y, match y with Some y => same_syn y syn | None => false end) (syns s) then Some s
        else match position is_none (syns s) with
        | Some i => Some (set_syns (<[i := Some syn]> (syns s)) s)
        | None => count syns_refused s
        end
      else queue_reset s src sg
  | None => queue_reset s src sg
  end.

Definition input (s : Tcp) (src : Ipv4Addr) (sg : Wire.Tcp) (from now : Z) : option (Tcp * option Deliver) :=
  s ← count segments_in s;
  match position (λ t, matches t src sg) (tcbs s) with
  | None => s ← unmatched s src sg; Some (s, None)
  | Some i =>
      t ← tcbs s !! i;
      '(t, k, out) ← segment t (counters s) sg from now;
      let s := set_counters k (set_tcb i t s) in
      s ← (if o_reset out then queue_reset s src sg else Some s);
      Some (s, o_deliver out)
  end.

Definition take_first {A} (l : list (option A)) : option (A * list (option A)) :=
  i ← position (λ x, negb (is_none x)) l;
  x ← l !! i;
  x ← x;
  Some (x, <[i := None]> l).

Definition take_reset (s : Tcp) : option (Tcp * option Segment) :=
  match take_first (resets s) with
  | None => Some (s, None)
  | Some (r, l) => s ← count resets_sent (set_resets l s); Some (s, Some r)
  end.

Definition take_syn (s : Tcp) : Tcp * option Syn :=
  match take_first (syns s) with None => (s, None) | Some (y, l) => (set_syns l s, Some y) end.

(** The connection a SYN makes, with the initial sequence number [n] and its two rings. *)
Definition passive (y : Syn) (n : Z) (rx_ tx_ : nat) : Tcb :=
  set_parent (Some (y_listener y)) (set_rcv_nxt (wrapping_add 32 (y_irs y) 1) (set_sack_ok (y_sack_ok y)
  (set_mss (clamp (y_mss y) 1 MSS) (set_snd_wnd (y_window y)
  (opened SynReceived (Z.lor (bit Listen) (bit SynReceived)) (y_local_port y) (y_remote_ip y) (y_remote_port y) n rx_ tx_))))).

Definition open_passive (s : Tcp) (p : Pool.Pool) (y : Syn) (now : Z) : option (Tcp * Pool.Pool * bool) :=
  let refuse s p := s ← count syns_refused s; Some (s, p, false) in
  let is_listening := match tcbs s !! y_listener y with Some t => listens (y_local_port y) t | None => false end in
  let waiting := count_if (λ t, active t && is_parent t (y_listener y) && negb (accepted t)) (tcbs s) in
  if negb is_listening || (BACKLOG <=? waiting)%nat then refuse s p
  else
    let '(s, i) := slot s in
    match i with
    | None => refuse s p
    | Some i =>
        '(p, rings) ← take_two p;
        match rings with
        | None => refuse s p
        | Some (r, x) =>
            '(s, _) ← install s i (passive y (initial_sequence now (y_local_port y) (y_remote_port y)) r x);
            Some (s, p, true)
        end
    end.

Definition next_segment (s : Tcp) (i : nat) (now : Z) : option (Tcp * option Segment) :=
  match tcbs s !! i with
  | Some t =>
      if active t then '(t, k, sg) ← tcb_segment t (counters s) now; Some (set_counters k (set_tcb i t s), sg)
      else Some (s, None)
  | None => Some (s, None)
  end.

End NetTcp.
