(* ===== verification/NetTcpSeq.v ===== *)
(** * TCP: sequence space and the bytes of a ring

    A stream is numbered from zero; byte [x] of it has the sequence number [sq base x].  As long
    as two positions are less than [2^31] apart, the code's comparisons of their sequence
    numbers are the comparisons of the positions.  A ring of [RING] bytes holds a window of the
    stream, and writing to it and reading from it around its end is writing and reading the
    window. *)

From S2P Require Import Prelude NetWire NetLink NetTcp.
Import Wire NetTcp.
Local Open Scope Z_scope.

Module TcpSeq.

(** ** Sequence numbers *)

Definition sq (base x : Z) : Z := (base + x) mod 2 ^ 32.

Lemma sq_in_u base x : in_u 32 (sq base x).
Proof. unfold in_u, u_max, sq. pose proof (Z.mod_pos_bound (base + x) (2 ^ 32)). lia. Qed.

Lemma wrapping_sub_sq base x y : 0 ≤ x - y < 2 ^ 32 → wrapping_sub 32 (sq base x) (sq base y) = x - y.
Proof.
  intros H. unfold wrapping_sub, sq. rewrite <-Zminus_mod. replace (base + x - (base + y)) with (x - y) by lia. by apply Z.mod_small.
Qed.

Lemma wrapping_sub_sq_neg base x y : 0 < y - x ≤ 2 ^ 32 → wrapping_sub 32 (sq base x) (sq base y) = x - y + 2 ^ 32.
Proof.
  intros H. unfold wrapping_sub, sq. rewrite <-Zminus_mod. replace (base + x - (base + y)) with (x - y + 2 ^ 32 - 1 * 2 ^ 32) by lia.
  rewrite Zminus_mod, Z_mod_mult, Z.sub_0_r, Z.mod_mod by lia. apply Z.mod_small. lia.
Qed.

Lemma wrapping_add_sq base x n : wrapping_add 32 (sq base x) n = sq base (x + n).
Proof. unfold wrapping_add, sq. rewrite Zplus_mod_idemp_l. f_equal. lia. Qed.

Lemma sq_eq base x y : Z.abs (x - y) < 2 ^ 32 → sq base x = sq base y → x = y.
Proof.
  intros H E. destruct (Z.le_ge_cases y x) as [Hle|Hle].
  - pose proof (wrapping_sub_sq base x y ltac:(lia)) as W. rewrite E in W. unfold wrapping_sub in W. rewrite Z.sub_diag, Z.mod_0_l in W by lia. lia.
  - pose proof (wrapping_sub_sq base y x ltac:(lia)) as W. rewrite E in W. unfold wrapping_sub in W. rewrite Z.sub_diag, Z.mod_0_l in W by lia. lia.
Qed.

Lemma sq_eqb base x y : Z.abs (x - y) < 2 ^ 32 → (sq base x =? sq base y) = (x =? y).
Proof.
  intros H. destruct (Z.eqb_spec x y) as [->|Hne]; [apply Z.eqb_refl|]. apply Z.eqb_neq. intros E. apply Hne. by eapply sq_eq.
Qed.

Lemma seq_lt_sq base x y : Z.abs (x - y) < 2 ^ 31 → seq_lt (sq base x) (sq base y) = (x <? y).
Proof.
  intros H. unfold seq_lt. rewrite sq_eqb by lia. destruct (Z.eqb_spec x y) as [->|Hne]; cbn [negb andb]; [symmetry; apply Z.ltb_irrefl|].
  destruct (Z.ltb_spec x y).
  - rewrite wrapping_sub_sq by lia. apply Z.ltb_lt. lia.
  - rewrite wrapping_sub_sq_neg by lia. apply Z.ltb_ge. lia.
Qed.

Lemma seq_le_sq base x y : Z.abs (x - y) < 2 ^ 31 → seq_le (sq base x) (sq base y) = (x <=? y).
Proof.
  intros H. unfold seq_le. rewrite seq_lt_sq, sq_eqb by lia. destruct (Z.eqb_spec x y), (Z.ltb_spec x y), (Z.leb_spec x y); cbn; done || lia.
Qed.

(** The sequence number [base + x] from the next stream position on. *)
Lemma sq_shift base x n : sq (base + n) x = sq base (x + n).
Proof. unfold sq. f_equal. lia. Qed.

Lemma sq_of base s : in_u 32 s → ∃ x, s = sq base x.
Proof.
  intros Hs. exists (s - base). unfold sq. replace (base + (s - base)) with s by lia. symmetry. apply Z.mod_small. unfold in_u, u_max in Hs. lia.
Qed.

(** A number that an acknowledgement's check puts between two others is a position between theirs. *)
Lemma between base lo hi s :
  in_u 32 s → 0 ≤ hi - lo < 2 ^ 31 → seq_lt (sq base lo) s = true → seq_le s (sq base hi) = true →
  ∃ x, s = sq base x ∧ lo < x ≤ hi.
Proof.
  intros Hs Hd Hlt Hle. assert (s = sq base (lo + wrapping_sub 32 s (sq base lo))) as E.
  { unfold wrapping_sub, sq. rewrite Zminus_mod_idemp_r, Z.add_assoc, Zplus_mod_idemp_r.
    replace (base + lo + (s - (base + lo))) with s by lia. symmetry. apply Z.mod_small. unfold in_u, u_max in Hs. lia. }
  unfold seq_lt in Hlt. breflect. set (d := wrapping_sub 32 s (sq base lo)) in *.
  assert (0 < d).
  { pose proof (Z.mod_pos_bound (s - sq base lo) (2 ^ 32) ltac:(lia)) as Hb. fold (wrapping_sub 32 s (sq base lo)) in Hb. fold d in Hb.
    assert (d ≠ 0); [|lia]. intros Hd0. rewrite Hd0, Z.add_0_r in E. congruence. }
  exists (lo + d). split; [done|]. split; [lia|]. rewrite E, seq_le_sq in Hle by lia. breflect. lia.
Qed.

(** ** Rings *)

Lemma RING_eq : RING = 1514.
Proof. done. Qed.

Lemma RING_nat : Z.to_nat RING = FRAME_MAX.
Proof. done. Qed.

Lemma lookup_put (b src b' : Bytes) at_ i :
  put b at_ src = Some b' → b' !! i = if decide (at_ ≤ i < at_ + length src)%nat then src !! (i - at_)%nat else b !! i.
Proof.
  unfold put. case_match eqn:E; [|done]. intros [= <-]. breflect. destruct (decide (i < at_)%nat).
  - rewrite decide_False by lia. rewrite lookup_app_l by (rewrite length_take; lia). by rewrite lookup_take_lt.
  - rewrite lookup_app_r by (rewrite length_take; lia). rewrite length_take, Nat.min_l by lia. case_decide.
    + by rewrite lookup_app_l by lia.
    + rewrite lookup_app_r by lia. rewrite lookup_drop. f_equal. lia.
Qed.

Lemma length_put (b src b' : Bytes) at_ : put b at_ src = Some b' → length b' = length b.
Proof. unfold put. case_match eqn:E; [|done]. intros [= <-]. breflect. rewrite !length_app, length_take, length_drop. lia. Qed.

Lemma put_some (b src : Bytes) at_ : (at_ + length src ≤ length b)%nat → ∃ b', put b at_ src = Some b'.
Proof. intros H. unfold put. rewrite (proj2 (Nat.leb_le _ _)) by done. eauto. Qed.

(** How far position [p] of the ring is past position [at_], going round. *)
Definition ahead_of (at_ p : Z) : Z := (p - at_) mod RING.

Lemma ring_write_spec ring at_ data :
  length ring = FRAME_MAX → 0 ≤ at_ → Z.of_nat (length data) ≤ RING →
  ∃ ring', ring_write ring at_ data = Some ring' ∧ length ring' = FRAME_MAX ∧
    ∀ p, 0 ≤ p < RING →
      ring' !! Z.to_nat p = if decide (ahead_of at_ p < Z.of_nat (length data)) then data !! Z.to_nat (ahead_of at_ p) else ring !! Z.to_nat p.
Proof.
  intros Hl Ha Hd. unfold ring_write. rewrite RING_nat. rewrite RING_eq in *. unfold FRAME_MAX, ETH_HEADER, ETH_MTU in *. cbn [Nat.add] in *.
  rewrite (take_ge data) by lia. set (a := at_ mod 1514). assert (0 ≤ a < 1514) as Hab by (apply Z.mod_pos_bound; lia).
  set (n := length data) in *. set (first := (n `min` (1514 - Z.to_nat a))%nat).
  destruct (put_some ring (take first data) (Z.to_nat a)) as [r1 E1]; [rewrite length_take; lia|]. rewrite E1. cbn [mbind option_bind].
  pose proof (length_put _ _ _ _ E1) as Hl1.
  destruct (put_some r1 (drop first data) 0) as [r2 E2]; [rewrite length_drop; lia|]. rewrite E2. exists r2. split; [done|].
  pose proof (length_put _ _ _ _ E2) as Hl2. split; [lia|]. intros p Hp.
  rewrite (lookup_put _ _ _ _ _ E2), (lookup_put _ _ _ _ _ E1), length_drop, length_take, Nat.sub_0_r, Nat.add_0_l. fold n.
  assert (ahead_of at_ p = if p <? a then p - a + 1514 else p - a) as Hoff.
  { unfold ahead_of. rewrite RING_eq. replace (p - at_) with (p - a + (- (at_ / 1514)) * 1514) by (unfold a; pose proof (Z.div_mod at_ 1514); lia).
    rewrite Z_mod_plus_full. destruct (Z.ltb_spec p a); [|apply Z.mod_small; lia].
    rewrite <-(Z_mod_plus_full _ 1). apply Z.mod_small. lia. }
  rewrite Hoff. destruct (Z.ltb_spec p a).
  - destruct (decide (p - a + 1514 < Z.of_nat n)).
    + rewrite decide_True by lia. rewrite lookup_drop. f_equal. lia.
    + rewrite decide_False by lia. by rewrite decide_False by lia.
  - rewrite decide_False by lia. destruct (decide (p - a < Z.of_nat n)).
    + rewrite decide_True by lia. rewrite lookup_take_lt by lia. f_equal. lia.
    + by rewrite decide_False by lia.
Qed.

Lemma ring_read_spec ring at_ n :
  length ring = FRAME_MAX → 0 ≤ at_ → 0 ≤ n ≤ RING →
  ∃ b, ring_read ring at_ n = Some b ∧ Z.of_nat (length b) = n ∧
    ∀ i, 0 ≤ i < n → b !! Z.to_nat i = ring !! Z.to_nat ((at_ + i) mod RING).
Proof.
  intros Hl Ha Hn. unfold ring_read, get_range. rewrite RING_nat. rewrite RING_eq in *. unfold FRAME_MAX, ETH_HEADER, ETH_MTU in *. cbn [Nat.add] in *.
  set (a := at_ mod 1514). assert (0 ≤ a < 1514) as Hab by (apply Z.mod_pos_bound; lia). rewrite Z.min_l by lia.
  set (first := (Z.to_nat n `min` (1514 - Z.to_nat a))%nat).
  rewrite !(proj2 (Nat.leb_le _ _)) by lia. cbn [mbind option_bind]. eexists. split; [done|].
  split; [rewrite length_app, !length_take, !length_drop; lia|]. intros i Hi.
  assert ((at_ + i) mod 1514 = if a + i <? 1514 then a + i else a + i - 1514) as Hoff.
  { replace (at_ + i) with (a + i + (at_ / 1514) * 1514) by (unfold a; pose proof (Z.div_mod at_ 1514); lia). rewrite Z_mod_plus_full.
    destruct (Z.ltb_spec (a + i) 1514); [apply Z.mod_small; lia|]. rewrite <-(Z_mod_plus_full _ (-1)). apply Z.mod_small. lia. }
  rewrite Hoff. destruct (Z.ltb_spec (a + i) 1514).
  - rewrite lookup_app_l by (rewrite length_take, length_drop; lia). rewrite lookup_take_lt by lia. rewrite lookup_drop. f_equal. lia.
  - rewrite lookup_app_r by (rewrite length_take, length_drop; lia). rewrite length_take, length_drop, lookup_take_lt by lia. rewrite lookup_drop. f_equal. lia.
Qed.

(** ** A window of a stream in a ring

    [present ring head lo src j]: the ring, whose position [head] is byte [lo] of the stream,
    holds byte [j] of [src] in its place. *)

Definition place (head lo j : Z) : Z := (head + (j - lo)) mod RING.
Definition present (ring : Bytes) (head lo : Z) (src : Bytes) (j : Z) : Prop :=
  ∃ x, src !! Z.to_nat j = Some x ∧ ring !! Z.to_nat (place head lo j) = Some x.

Lemma place_bound head lo j : 0 ≤ place head lo j < RING.
Proof. apply Z.mod_pos_bound. rewrite RING_eq. lia. Qed.

Lemma place_shift head lo n j : place ((head + n) mod RING) (lo + n) j = place head lo j.
Proof. unfold place. rewrite Zplus_mod_idemp_l. f_equal. lia. Qed.

Lemma ahead_of_place head lo x j : ahead_of (place head lo x) (place head lo j) = (j - x) mod RING.
Proof. unfold ahead_of, place. rewrite <-Zminus_mod. f_equal. lia. Qed.

Lemma present_shift ring head lo n src j : present ring head lo src j → present ring ((head + n) mod RING) (lo + n) src j.
Proof. intros (x & Hx & Hr). exists x. split; [done|]. by rewrite place_shift. Qed.

Lemma present_app ring head lo src more j : present ring head lo src j → present ring head lo (src ++ more) j.
Proof. intros (x & Hx & Hr). exists x. split; [by apply lookup_app_l_Some|done]. Qed.

(** Writing bytes [x..x + n] of the stream at their place keeps what the window holds and adds them. *)
Lemma write_present ring head lo src x data :
  length ring = FRAME_MAX → 0 ≤ lo ≤ x → x + Z.of_nat (length data) ≤ lo + RING →
  (∀ i, 0 ≤ i < Z.of_nat (length data) → data !! Z.to_nat i = src !! Z.to_nat (x + i)) →
  ∃ ring', ring_write ring (place head lo x) data = Some ring' ∧ length ring' = FRAME_MAX ∧
    (∀ j, lo ≤ j < lo + RING → present ring head lo src j → present ring' head lo src j) ∧
    (∀ j, x ≤ j < x + Z.of_nat (length data) → present ring' head lo src j).
Proof.
  intros Hl Hlo Hw Hd. pose proof (place_bound head lo x) as Hp. pose proof RING_eq as HR.
  destruct (ring_write_spec ring (place head lo x) data Hl) as (ring' & E & Hl' & Hlook); [lia|lia|].
  exists ring'. split; [done|]. split; [done|].
  assert (∀ j, x ≤ j < x + Z.of_nat (length data) → present ring' head lo src j) as Hnew.
  { intros j Hj. destruct (lookup_lt_is_Some_2 data (Z.to_nat (j - x))) as [y Hy]; [lia|]. exists y. split.
    - rewrite Hd in Hy by lia. rewrite <-Hy. f_equal. lia.
    - rewrite Hlook by apply place_bound. rewrite ahead_of_place, Z.mod_small by lia. by rewrite decide_True by lia. }
  split; [|done]. intros j Hj Hpj. destruct (decide (x ≤ j < x + Z.of_nat (length data))) as [Hin|Hout]; [auto|].
  destruct Hpj as (y & Hy & Hr). exists y. split; [done|]. rewrite Hlook by apply place_bound. rewrite ahead_of_place, decide_False; [done|].
  destruct (decide (j < x)).
  - rewrite <-(Z_mod_plus_full _ 1), Z.mod_small by lia. lia.
  - rewrite Z.mod_small by lia. lia.
Qed.

(** Reading a stretch the ring holds gives the stream's bytes. *)
Lemma read_present ring head lo src x n :
  length ring = FRAME_MAX → 0 ≤ lo ≤ x → 0 ≤ n ≤ RING → (∀ j, x ≤ j < x + n → present ring head lo src j) →
  ring_read ring (place head lo x) n = Some (take (Z.to_nat n) (drop (Z.to_nat x) src)).
Proof.
  intros Hl Hlo Hn Hp. destruct (ring_read_spec ring (place head lo x) n Hl) as (b & -> & Hlen & Hlook); [apply place_bound|done|].
  f_equal. apply list_eq. intros i. destruct (decide (Z.of_nat i < n)) as [Hi|Hi].
  - rewrite lookup_take_lt, lookup_drop by lia. destruct (Hp (x + Z.of_nat i) ltac:(lia)) as (y & Hy & Hr).
    specialize (Hlook (Z.of_nat i) ltac:(lia)). rewrite Nat2Z.id in Hlook. rewrite Hlook.
    replace ((place head lo x + Z.of_nat i) mod RING) with (place head lo (x + Z.of_nat i)).
    + rewrite Hr, <-Hy. f_equal. lia.
    + unfold place. rewrite Zplus_mod_idemp_l. f_equal. lia.
  - rewrite !lookup_ge_None_2; [done| |lia]. rewrite length_take. lia.
Qed.

End TcpSeq.
