(* ===== verification/NetTcpRecv.v ===== *)
(** * TCP: the receiving side

    What a connection holds of its peer's stream: the bytes in order, which the program reads,
    and the runs held past a hole.  Whatever segments of the stream arrive, in whatever order
    and however often, the ring holds the stream's bytes in their places. *)

From S2P Require Import Prelude NetWire NetLink NetTcp NetTcpSeq.
Import Wire NetTcp TcpSeq.
Local Open Scope Z_scope.

Module TcpRecv.

(** ** Counters *)

Definition counted (b : Z) (k : Counters) : Prop := ∀ c, 0 ≤ k c ≤ b.

Lemma bump_counted b c k : counted b k → b < 2 ^ 63 → ∃ k', bump c k = Some k' ∧ counted (b + 1) k'.
Proof.
  intros Hk Hb. unfold bump, checked_add. pose proof (Hk c). rewrite (proj2 (Z.leb_le _ _)) by (unfold u_max; lia). cbn [mbind option_bind].
  eexists. split; [done|]. intros c'. case_decide; [lia|]. specialize (Hk c'). lia.
Qed.

Lemma counted_mono b b' k : counted b k → b ≤ b' → counted b' k.
Proof. intros Hk Hb c. specialize (Hk c). lia. Qed.

Lemma usize_add_ok a b : a + b < 2 ^ 32 → usize_add a b = Some (a + b).
Proof. intros H. unfold usize_add, checked_add. by rewrite (proj2 (Z.leb_le _ _)) by (unfold u_max; lia). Qed.

(** Sequence positions stay far from where the space wraps. *)
Definition LIMIT : Z := 2 ^ 30.

(** ** Runs held past a hole *)

Section Runs.
Context (base : Z).

(** Each run is an interval of the stream between [lo] and [hi] whose bytes satisfy [Q]. *)
Definition run_ok (Q : Z → Prop) (lo hi : Z) (r : option Run) : Prop :=
  match r with
  | None => True
  | Some r => ∃ a, r_seq r = sq base a ∧ lo < a ∧ 0 < r_len r ∧ a + r_len r ≤ hi ∧ ∀ j, a ≤ j < a + r_len r → Q j
  end.
Definition runs_ok (Q : Z → Prop) (lo hi : Z) (l : list (option Run)) : Prop := Forall (run_ok Q lo hi) l.

Lemma runs_ok_impl (Q Q' : Z → Prop) lo lo' hi hi' l :
  lo' ≤ lo → hi ≤ hi' → (∀ j, lo < j < hi → Q j → Q' j) → runs_ok Q lo hi l → runs_ok Q' lo' hi' l.
Proof.
  intros Hlo Hhi HQ Hl. eapply Forall_impl; [exact Hl|]. intros [r|]; [|done]. intros (a & ? & ? & ? & ? & H). exists a. split_and!; try done; try lia.
  intros j Hj. apply HQ; [lia|auto].
Qed.

Lemma run_end_sq r a : r_seq r = sq base a → run_end r = sq base (a + r_len r).
Proof. intros E. unfold run_end. by rewrite E, wrapping_add_sq. Qed.

Lemma past_ok Q lo hi l :
  -1 ≤ lo → hi < 2 * LIMIT → runs_ok Q lo hi l →
  ∃ p, past (sq base lo) l = Some p ∧ 0 ≤ p ∧ (p = 0 ∨ p ≤ hi - lo) ∧
    ∀ r a, Some r ∈ l → r_seq r = sq base a → lo < a → a + r_len r ≤ hi → a + r_len r - lo ≤ p.
Proof.
  intros Hlo Hhi. unfold LIMIT in Hhi. induction 1 as [|r l Hr _ (p & IH & Hp & Hb & Hall)]; cbn [past foldr].
  { exists 0. split_and!; try done; [by left|]. by intros r a ?%elem_of_nil. }
  change (foldr _ (Some 0) l) with (past (sq base lo) l). rewrite IH. cbn [mbind option_bind]. destruct r as [r|].
  - destruct Hr as (a & Ea & Ha & Hl & He & _). rewrite Ea, wrapping_sub_sq by lia. rewrite usize_add_ok by lia. cbn [mbind option_bind].
    exists (Z.max p (a - lo + r_len r)). split_and!; [done|lia|lia|]. intros r' a' [[= ->]|Hin]%elem_of_cons E' Hlo' He'.
    + assert (a = a') by (apply (sq_eq base); [lia|congruence]). lia.
    + specialize (Hall r' a' Hin E' Hlo' He'). lia.
  - exists p. split_and!; try done. intros r a [?|Hin]%elem_of_cons; [done|by apply Hall].
Qed.

Lemma merge_runs_ok Q lo hi l : ∀ s e,
  -1 ≤ lo → hi < 2 * LIMIT → runs_ok Q lo hi l → lo < s < e → e ≤ hi → (∀ j, s ≤ j < e → Q j) →
  ∃ s' e' l', merge_runs (sq base s) (sq base e) l = (sq base s', sq base e', l') ∧
    lo < s' ≤ s ∧ e ≤ e' ≤ hi ∧ (∀ j, s' ≤ j < e' → Q j) ∧ runs_ok Q lo hi l' ∧ length l' = length l ∧
    ((∀ x, x ∈ l' → is_none x = false) → l' = l ∧ s' = s ∧ e' = e).
Proof.
  intros s e Hlo Hhi Hl. unfold LIMIT in Hhi. revert s e. induction Hl as [|r l Hr Hl IH]; intros s e Hse He HQ; cbn [merge_runs].
  { exists s, e, []. split_and!; try done; try lia. constructor. }
  destruct r as [r|].
  2:{ destruct (IH s e Hse He HQ) as (s' & e' & l' & -> & H1 & H2 & H3 & H4 & H5 & _). exists s', e', (None :: l').
      split_and!; try done; try lia; [by constructor|by cbn; rewrite H5|]. intros Hn. specialize (Hn None ltac:(left)). done. }
  destruct Hr as (a & Ea & Ha & Hlr & Her & HQr). rewrite (run_end_sq r a Ea), Ea.
  rewrite !seq_le_sq, !seq_lt_sq by lia. destruct ((a <=? e) && (s <=? a + r_len r)) eqn:Et.
  - breflect.
    assert ((if a <? s then sq base a else sq base s) = sq base (Z.min a s)) as -> by (destruct (Z.ltb_spec a s); f_equal; lia).
    assert ((if e <? a + r_len r then sq base (a + r_len r) else sq base e) = sq base (Z.max e (a + r_len r))) as ->
      by (destruct (Z.ltb_spec e (a + r_len r)); f_equal; lia).
    destruct (IH (Z.min a s) (Z.max e (a + r_len r))) as (s' & e' & l' & -> & H1 & H2 & H3 & H4 & H5 & _); [lia|lia| |].
    { intros j Hj. destruct (decide (s ≤ j < e)); [by apply HQ|]. apply HQr. lia. }
    exists s', e', (None :: l'). split_and!; try done; try lia; [by constructor|by cbn; rewrite H5|].
    intros Hn. specialize (Hn None ltac:(left)). done.
  - destruct (IH s e Hse He HQ) as (s' & e' & l' & -> & H1 & H2 & H3 & H4 & H5 & H6). exists s', e', (Some r :: l').
    split_and!; try done; try lia.
    + constructor; [|done]. by exists a.
    + by cbn; rewrite H5.
    + intros Hn. destruct H6 as (-> & -> & ->); [|done]. intros x Hx. apply Hn. by right.
Qed.

Lemma is_none_all {A} (l : list (option A)) : position is_none l = None → ∀ x, x ∈ l → is_none x = false.
Proof. rewrite position_None. intros H x [i Hi]%list_elem_of_lookup. by eapply H. Qed.

(** [hold] on bytes [s..s + n] of the stream: the runs stay runs of the stream, the new bytes
    counted as there when the answer is [true]. *)
Lemma hold_ok Q Q' lo hi t s n k b :
  -1 ≤ lo → hi < 2 * LIMIT → rcv_nxt t = sq base lo → runs_ok Q lo hi (ooo t) → length (ooo t) = OOO_SEGMENTS →
  (∀ j, Q j → Q' j) → (∀ j, s ≤ j < s + n → Q' j) → lo < s → 0 < n → s + n ≤ hi → counted b k → b < 2 ^ 62 →
  ∃ l k' held, hold t (sq base s) n k = Some (set_ooo l t, k', held) ∧ length l = OOO_SEGMENTS ∧ counted (b + 1) k' ∧
    if held : bool then runs_ok Q' lo hi l else l = ooo t.
Proof.
  intros Hlo Hhi Hrcv Hl Hlen HQ Hnew Hs Hn He Hk Hb. unfold hold. rewrite wrapping_add_sq.
  destruct (merge_runs_ok Q' lo hi (ooo t) s (s + n) Hlo Hhi) as (s' & e' & l' & -> & Hs' & He' & HQ' & Hl' & Hlen' & Hsame);
    [eapply runs_ok_impl; [..|done]; (done || lia || auto)|lia|lia|done|].
  unfold LIMIT in Hhi. rewrite wrapping_sub_sq by lia. set (run := {| r_seq := sq base s'; r_len := e' - s' |}).
  assert (run_ok Q' lo hi (Some run)) as Hrun.
  { exists s'. cbn. split_and!; try done; try lia. intros j Hj. apply HQ'. lia. }
  destruct (position is_none l') as [i|] eqn:Ei.
  { eexists _, k, true. split; [done|]. split; [by rewrite length_insert, Hlen'|]. split; [eapply counted_mono; [done|lia]|]. by apply Forall_insert. }
  destruct (Hsame (is_none_all _ Ei)) as (-> & -> & ->).
  destruct (bump_counted b out_of_order_dropped k Hk ltac:(lia)) as (k' & -> & Hk'). cbn [mbind option_bind].
  destruct (furthest (rcv_nxt t) (ooo t)) as [[i ahead]|]; [destruct (_ <? ahead)|].
  - eexists _, k', true. split; [done|]. split; [by rewrite length_insert|]. split; [done|]. by apply Forall_insert.
  - by eexists _, k', false.
  - by eexists _, k', false.
Qed.

End Runs.


(** ** Handing held runs to the stream *)

Definition with_rx (r : Ring) (l : list (option Run)) (n : Z) (t : Tcb) : Tcb := set_rcv_nxt n (set_rx r (set_ooo l t)).

Lemma with_rx_with_rx r l n r' l' n' t : with_rx r' l' n' (with_rx r l n t) = with_rx r' l' n' t.
Proof. reflexivity. Qed.

Definition ring_of (t : Tcb) (l : Z) : Ring := {| buf := buf (rx t); head := head (rx t); rlen := l |}.

Definition is_held (r : option Run) : bool := negb (is_none r).

Lemma count_empty_slot (l : list (option Run)) i r :
  l !! i = Some (Some r) → S (count_if is_held (<[i := None]> l)) = count_if is_held l.
Proof. intros Hi. pose proof (count_if_insert is_held l i (Some r) None Hi) as E. cbn in E. lia. Qed.

Lemma coalesce_loop_ok base Q hi rd fuel : ∀ t k b R,
  hi < 2 * LIMIT → hi ≤ rd + RING → runs_ok base Q (-1) hi (ooo t) → rcv_nxt t = sq base R → 0 ≤ rd ≤ R → R ≤ hi → rlen (rx t) = R - rd →
  (∀ j, rd ≤ j < R → Q j) → counted b k → b + Z.of_nat (count_if is_held (ooo t)) < 2 ^ 62 → (count_if is_held (ooo t) < fuel)%nat →
  ∃ R' l k', coalesce_loop fuel t k = Some (with_rx (ring_of t (R' - rd)) l (sq base R') t, k') ∧
    R ≤ R' ≤ hi ∧ (∀ j, rd ≤ j < R' → Q j) ∧ runs_ok base Q R' hi l ∧ length l = length (ooo t) ∧
    counted (b + Z.of_nat (count_if is_held (ooo t))) k'.
Proof.
  induction fuel as [|fuel IH]; intros t k b R Hhi Hring Hruns Hrcv Hrd HR Hlen HQ Hk Hb Hfuel; [lia|].
  unfold LIMIT in Hhi. pose proof RING_eq as HRING. cbn [coalesce_loop]. rewrite Hrcv.
  assert (∀ i r, ooo t !! i = Some (Some r) → ∃ a, r_seq r = sq base a ∧ 0 ≤ a ∧ 0 < r_len r ∧ a + r_len r ≤ hi ∧ (∀ j, a ≤ j < a + r_len r → Q j) ∧
    joined (sq base R) (Some r) = ((a <=? R) && (R <? a + r_len r)) ∧ behind (sq base R) (Some r) = (a + r_len r <=? R)) as Hrun.
  { intros i r Hi. destruct (Forall_lookup_1 _ _ _ _ Hruns Hi) as (a & Ea & Ha & Hl & He & Hq). exists a. split_and!; try done; try lia.
    - unfold joined. rewrite (run_end_sq base r a Ea), Ea, seq_le_sq, seq_lt_sq by lia. done.
    - unfold behind. by rewrite (run_end_sq base r a Ea), seq_le_sq by lia. }
  destruct (position (joined (sq base R)) (ooo t)) as [i|] eqn:Ej.
  - destruct (position_lookup _ _ _ Ej) as (x & Hi & Hj). destruct x as [r|]; [|done]. rewrite Hi.
    destruct (Hrun i r Hi) as (a & Ea & Ha & Hl & He & Hq & Hjo & _). rewrite Hjo in Hj. breflect.
    rewrite Ea, wrapping_sub_sq by lia. unfold checked_sub. rewrite (proj2 (Z.leb_le _ _)) by lia. cbn [mbind option_bind].
    change (rx (set_ooo _ t)) with (rx t). rewrite Hlen. rewrite usize_add_ok by lia. cbn [mbind option_bind].
    destruct (bump_counted b out_of_order_delivered k Hk ltac:(lia)) as (k1 & -> & Hk1). cbn [mbind option_bind].
    set (t1 := set_rcv_nxt _ _).
    assert (t1 = with_rx (ring_of t (a + r_len r - rd)) (<[i := None]> (ooo t)) (sq base (a + r_len r)) t) as Et1.
    { unfold t1, with_rx, ring_of. rewrite wrapping_add_sq. replace (R + (r_len r - (R - a))) with (a + r_len r) by lia.
      by replace (R - rd + (r_len r - (R - a))) with (a + r_len r - rd) by lia. }
    pose proof (count_empty_slot (ooo t) i r Hi) as Hc.
    destruct (IH t1 k1 (b + 1) (a + r_len r)) as (R' & l & k' & -> & HR' & HQ' & Hl' & Hlen' & Hk'); rewrite ?Et1; try done; try (cbn [ooo with_rx set_rcv_nxt set_rx set_ooo rlen rx ring_of]; lia).
    + cbn. apply Forall_insert; done.
    + intros j Hj. destruct (decide (j < R)); [apply HQ; lia|]. apply Hq. lia.
    + exists R', l, k'. split; [done|]. split; [lia|]. split; [done|]. split; [done|].
      split; [rewrite Hlen', Et1; cbn; apply length_insert|]. eapply counted_mono; [done|]. rewrite Et1. cbn [ooo with_rx set_rcv_nxt set_rx set_ooo]. lia.
  - destruct (position (behind (sq base R)) (ooo t)) as [i|] eqn:Eb.
    + destruct (position_lookup _ _ _ Eb) as (x & Hi & Hj). destruct x as [r|]; [|done].
      pose proof (count_empty_slot (ooo t) i r Hi) as Hc. set (t1 := set_ooo _ t).
      destruct (IH t1 k b R) as (R' & l & k' & -> & HR' & HQ' & Hl' & Hlen' & Hk'); try done; try (cbn [t1 ooo set_ooo]; lia).
      * cbn. by apply Forall_insert.
      * exists R', l, k'. split; [done|]. split_and!; try done; try lia; [rewrite Hlen'; cbn; apply length_insert|].
        eapply counted_mono; [done|]. cbn [t1 ooo set_ooo]. lia.
    + exists R, (ooo t), k. split; [|split_and!; try done; try lia].
      * f_equal. f_equal. unfold with_rx, ring_of. rewrite <-Hlen, <-Hrcv. destruct t as [? ? ? ? ? ? ? ? ? ? ? ? ? ? []]. reflexivity.
      * apply Forall_lookup_2. intros i [r|] Hi; [|done]. destruct (Hrun i r Hi) as (a & Ea & Ha & Hl & He & Hq & Hjo & Hbe).
        pose proof (proj1 (position_None _ _) Ej i _ Hi) as H1. pose proof (proj1 (position_None _ _) Eb i _ Hi) as H2.
        rewrite Hjo in H1. rewrite Hbe in H2. exists a. split_and!; try done. breflect. destruct (Z.leb_spec a R), (Z.ltb_spec R (a + r_len r)); try done; lia.
      * eapply counted_mono; [done|lia].
Qed.


(** ** The states a connection goes through: RFC 793's diagram *)

Inductive edge : State → State → Prop :=
| edge_closed s : edge s Closed
| edge_syn_syn : edge SynSent SynReceived
| edge_syn_est : edge SynSent Established
| edge_rcvd_est : edge SynReceived Established
| edge_est_fw1 : edge Established FinWait1
| edge_est_cw : edge Established CloseWait
| edge_fw1_fw2 : edge FinWait1 FinWait2
| edge_fw1_closing : edge FinWait1 Closing
| edge_fw1_tw : edge FinWait1 TimeWait
| edge_fw2_tw : edge FinWait2 TimeWait
| edge_closing_tw : edge Closing TimeWait
| edge_cw_la : edge CloseWait LastAck.

Definition moves : relation State := rtc edge.

(** The peer has finished, or the connection is over. *)
Definition after_fin (s : State) : bool :=
  match s with CloseWait | Closing | LastAck | TimeWait | Closed => true | _ => false end.

Lemma moves_after_fin s s' : moves s s' → after_fin s = true → after_fin s' = true.
Proof. induction 1 as [|x y z Hxy _ IH]; [done|]. intros H. apply IH. by destruct Hxy. Qed.

Lemma moves_not_syn_sent s s' : moves s s' → s ≠ SynSent → s' ≠ SynSent.
Proof. induction 1 as [|x y z Hxy _ IH]; [done|]. intros H. apply IH. by destruct Hxy. Qed.

Lemma moves_refl s : moves s s.
Proof. apply rtc_refl. Qed.

Lemma moves_once s s' : edge s s' → moves s s'.
Proof. apply rtc_once. Qed.

Lemma moves_trans s1 s2 s3 : moves s1 s2 → moves s2 s3 → moves s1 s3.
Proof. intros H1 H2. by transitivity s2. Qed.

(** ** What is received *)

(** Fields of the two sides: each side's operations leave the other's alone. *)
Definition same_rx (t t' : Tcb) : Prop := rx t' = rx t ∧ ooo t' = ooo t ∧ rcv_nxt t' = rcv_nxt t ∧ peer_fin t' = peer_fin t.
Definition same_tx (t t' : Tcb) : Prop :=
  iss t' = iss t ∧ snd_una t' = snd_una t ∧ snd_nxt t' = snd_nxt t ∧ snd_max t' = snd_max t ∧ tx t' = tx t ∧ tx_seq t' = tx_seq t ∧
  fin_queued t' = fin_queued t ∧ fin_seq t' = fin_seq t ∧ sacked t' = sacked t ∧ srtt t' = srtt t ∧ timing t' = timing t ∧
  dup_acks t' = dup_acks t ∧ retries t' = retries t ∧ error t' = error t ∧ released t' = released t.

#[global] Instance same_tx_refl : Reflexive same_tx.
Proof. by intros t. Qed.
#[global] Instance same_rx_refl : Reflexive same_rx.
Proof. by intros t. Qed.
#[global] Instance same_tx_trans : Transitive same_tx.
Proof. unfold same_tx. intros t1 t2 t3. intuition congruence. Qed.
#[global] Instance same_rx_trans : Transitive same_rx.
Proof. unfold same_rx. intros t1 t2 t3. intuition congruence. Qed.

(** [src] is what the peer has sent of its stream so far, [ended] whether that is all of it;
    the program has read [rd] bytes and [R] have arrived in order. *)
Record rx_ok (base : Z) (src : Bytes) (ended : bool) (t : Tcb) (ring : Bytes) (rd R : Z) : Prop := {
  rk_ring : length ring = FRAME_MAX;
  rk_buf : is_Some (buf (rx t));
  rk_head : 0 ≤ head (rx t) < RING;
  rk_range : 0 ≤ rd ≤ R;
  rk_sent : R ≤ Z.of_nat (length src);
  rk_len : rlen (rx t) = R - rd;
  rk_fits : R - rd ≤ RING;
  rk_rcv : rcv_nxt t = sq base (R + if peer_fin t then 1 else 0);
  rk_data : ∀ j, rd ≤ j < R → present ring (head (rx t)) rd src j;
  rk_runs : runs_ok base (present ring (head (rx t)) rd src) R (rd + RING) (ooo t);
  rk_slots : length (ooo t) = OOO_SEGMENTS;
  rk_fin : peer_fin t = true → R = Z.of_nat (length src) ∧ ended = true ∧ after_fin (state t) = true;
  rk_state : state t ≠ SynSent }.

(** A segment of the peer's stream. *)
Record seg_ok (base : Z) (src : Bytes) (ended : bool) (sg : Wire.Tcp) (a : Z) : Prop := {
  so_seq : tcp_seq sg = sq base a;
  so_ack : in_u 32 (tcp_ack sg);
  so_len : payload_len sg ≤ u16_MAX;
  so_at : -1 ≤ a ≤ Z.of_nat (length src) + 1;
  so_syn : flag sg TCP_SYN = true → a = -1;
  so_data : tcp_payload sg ≠ [] → 0 ≤ a ∧ a + payload_len sg ≤ Z.of_nat (length src) ∧ flag sg TCP_FIN = false ∧
    ∀ i, 0 ≤ i < payload_len sg → tcp_payload sg !! Z.to_nat i = src !! Z.to_nat (a + i);
  so_fin : flag sg TCP_FIN = true → a = Z.of_nat (length src) ∧ ended = true }.

Lemma present_lt ring head lo src j : 0 ≤ j → present ring head lo src j → j < Z.of_nat (length src).
Proof. intros Hj (x & Hx%lookup_lt_Some & _). lia. Qed.

Lemma rx_ok_frame base src ended t t' ring rd R :
  same_rx t t' → moves (state t) (state t') → rx_ok base src ended t ring rd R → rx_ok base src ended t' ring rd R.
Proof.
  intros (E1 & E2 & E3 & E4) Hm []. split; rewrite ?E1, ?E2, ?E3, ?E4; try done.
  - intros H. destruct (rk_fin0 H) as (? & ? & ?). split_and!; try done. by eapply moves_after_fin.
  - by eapply moves_not_syn_sent.
Qed.

(** The peer sends more. *)
Lemma rx_ok_more base src more t ring rd R :
  rx_ok base src false t ring rd R → rx_ok base (src ++ more) false t ring rd R.
Proof.
  intros []. split; try done.
  - rewrite length_app. lia.
  - intros j Hj. by apply present_app, rk_data0.
  - eapply runs_ok_impl; [..|exact rk_runs0]; try lia. intros j _ H. by apply present_app.
  - intros H. by destruct (rk_fin0 H) as (_ & ? & _).
Qed.

Lemma rx_ok_ended base src ended t ring rd R : rx_ok base src false t ring rd R → rx_ok base src ended t ring rd R.
Proof. intros []. split; try done. intros H. by destruct (rk_fin0 H) as (_ & ? & _). Qed.

(** The window announced leaves room for what the ring holds. *)
Lemma rx_free_ok base src ended t ring rd R :
  Z.of_nat (length src) ≤ LIMIT → rx_ok base src ended t ring rd R → ∃ w, rx_free t = Some w ∧ 0 ≤ w ≤ RING.
Proof.
  intros HL []. unfold rx_free, rx_used. destruct rk_buf0 as [bu ->]. pose proof RING_eq. unfold LIMIT in HL.
  assert (∃ p, past (rcv_nxt t) (ooo t) = Some p ∧ 0 ≤ p ∧ p ≤ rd + RING - R) as (p & -> & Hp).
  { destruct (peer_fin t) eqn:Ef.
    - destruct (rk_fin0 eq_refl) as (HR & _). exists 0. split; [|lia]. clear -HR rk_runs0 rk_range0.
      induction rk_runs0 as [|r l Hr _ IH]; [done|]. cbn [past foldr]. change (foldr _ (Some 0) l) with (past (rcv_nxt t) l). rewrite IH. cbn [mbind option_bind].
      destruct r as [r|]; [|done]. destruct Hr as (a & _ & Ha & Hl & _ & Hq). destruct (Hq a) as (x & Hx & _); [lia|].
      apply lookup_lt_Some in Hx. lia.
    - rewrite rk_rcv0, Z.add_0_r. destruct (past_ok base _ R (rd + RING) (ooo t) ltac:(lia) ltac:(unfold LIMIT; lia) rk_runs0) as (p & -> & Hp & Hb & _).
      exists p. split; [done|]. lia. }
  cbn [mbind option_bind]. rewrite rk_len0, usize_add_ok by lia. cbn [mbind option_bind]. eexists. split; [done|]. unfold saturating_sub. lia.
Qed.


(** ** Text arrives *)

(** [Stack::deliver]: the accepted bytes are copied from the frame, whose payload starts [from]
    bytes in, to the receive ring. *)
Definition deliver (ring : Bytes) (sg : Wire.Tcp) (from : Z) (d : option Deliver) : option Bytes :=
  match d with
  | None => Some ring
  | Some d =>
      match get_range (tcp_payload sg) (Z.to_nat (dl_from d - from)) (Z.to_nat (dl_len d)) with
      | Some payload => ring_write ring (dl_at d) payload
      | None => Some ring
      end
  end.

(** Copying bytes [x..x + n] of the stream, [skip] bytes into the payload, to their place. *)
Lemma deliver_ok base src ended t ring rd R sg a from skip n :
  rx_ok base src ended t ring rd R → 0 ≤ a → 0 ≤ skip → 0 < n → skip + n ≤ payload_len sg → R ≤ a + skip → a + skip + n ≤ rd + RING →
  (∀ i, 0 ≤ i < payload_len sg → tcp_payload sg !! Z.to_nat i = src !! Z.to_nat (a + i)) →
  ∃ ring', deliver ring sg from (Some {| dl_ring := buf (rx t); dl_at := place (head (rx t)) rd (a + skip); dl_from := from + skip; dl_len := n |}) = Some ring' ∧
    length ring' = FRAME_MAX ∧
    (∀ j, rd ≤ j < rd + RING → present ring (head (rx t)) rd src j → present ring' (head (rx t)) rd src j) ∧
    (∀ j, a + skip ≤ j < a + skip + n → present ring' (head (rx t)) rd src j).
Proof.
  intros [] Ha Hs Hn Hl HR Hf Hd. unfold deliver, get_range. cbn [dl_from dl_len dl_at]. replace (from + skip - from) with skip by lia.
  unfold payload_len in *. rewrite (proj2 (Nat.leb_le _ _)) by lia.
  set (data := take (Z.to_nat n) (drop (Z.to_nat skip) (tcp_payload sg))).
  assert (Z.of_nat (length data) = n) as Hdl by (unfold data; rewrite length_take, length_drop; lia).
  destruct (write_present ring (head (rx t)) rd src (a + skip) data) as (ring' & E & Hl' & Hold & Hnew); [done|lia|lia| |].
  - intros i Hi. unfold data. rewrite lookup_take_lt, lookup_drop by lia. rewrite <-Z2Nat.inj_add, Hd by lia. f_equal. lia.
  - exists ring'. rewrite Hdl in Hnew. by split_and!.
Qed.

Lemma ring_place_eq t rd R x : rlen (rx t) = R - rd → (head (rx t) + rlen (rx t) + (x - R)) mod RING = place (head (rx t)) rd x.
Proof. intros ->. unfold place. f_equal. lia. Qed.

Lemma ahead_ok base src ended t ring rd R k b sg a from :
  rx_ok base src ended t ring rd R → seg_ok base src ended sg a → peer_fin t = false → tcp_payload sg ≠ [] → R < a →
  Z.of_nat (length src) ≤ LIMIT → counted b k → b < 2 ^ 60 →
  ∃ t' k' out ring', segment_ahead t k sg from = Some (t', k', out) ∧ deliver ring sg from (o_deliver out) = Some ring' ∧
    rx_ok base src ended t' ring' rd R ∧ same_tx t t' ∧ state t' = state t ∧ counted (b + 3) k'.
Proof.
  intros Hok Hsg Hpf Hne Ha HL Hk Hb. pose proof Hok as []. destruct Hsg as [Hseq _ Hpl Hat _ Hdata _]. destruct (Hdata Hne) as (Ha0 & Hal & _ & Hd).
  unfold LIMIT in HL. pose proof RING_eq as HRING. rewrite Hpf, Z.add_0_r in rk_rcv0.
  assert (0 < payload_len sg) as Hp0 by (unfold payload_len; destruct (tcp_payload sg); [done|cbn; lia]).
  unfold segment_ahead. destruct (bump_counted b out_of_order k Hk ltac:(lia)) as (k1 & -> & Hk1). cbn [mbind option_bind].
  change (rcv_nxt (set_ack_now true t)) with (rcv_nxt t). change (rx (set_ack_now true t)) with (rx t). rewrite rk_rcv0, Hseq, wrapping_sub_sq by lia.
  rewrite (usize_add_ok (rlen (rx t)) (a - R)) by lia. cbn [mbind option_bind]. set (take_ := Z.min (payload_len sg) _).
  destruct (Z.eqb_spec take_ 0) as [Ht0|Ht0].
  { destruct (bump_counted (b + 1) out_of_order_dropped k1 Hk1 ltac:(lia)) as (k2 & -> & Hk2). cbn [mbind option_bind].
    eexists _, k2, _, ring. split; [done|]. split; [done|]. split; [|split_and!; [done|done|eapply counted_mono; [done|lia]]].
    by eapply rx_ok_frame; [..|exact Hok]. }
  unfold saturating_sub in take_. assert (0 < take_ ∧ a + take_ ≤ rd + RING ∧ take_ ≤ payload_len sg) as (Htp & Htr & Htl) by lia.
  rewrite (usize_add_ok (head (rx t)) (rlen (rx t))) by lia. cbn [mbind option_bind].
  rewrite (usize_add_ok _ (a - R)) by lia. cbn [mbind option_bind]. rewrite (ring_place_eq t rd R a rk_len0).
  destruct (deliver_ok base src ended t ring rd R sg a from 0 take_) as (ring' & Ed & Hl' & Hold & Hnew); try done; try lia.
  rewrite (Z.add_0_r a), (Z.add_0_r from) in Ed. rewrite (Z.add_0_r a) in Hnew. rewrite (Z.mod_small take_) by (unfold u_max in Hpl; lia).
  destruct (hold_ok base (λ j, rd ≤ j < rd + RING ∧ present ring (head (rx t)) rd src j) (present ring' (head (rx t)) rd src) R (rd + RING)
    (set_ack_now true t) a take_ k1 (b + 1)) as (l & k2 & held & -> & Hll & Hk2 & Hruns); try done; try (unfold LIMIT; lia).
  - cbn. eapply runs_ok_impl; [..|exact rk_runs0]; try lia. intros j Hj H. split; [lia|done].
  - intros j [Hj H]. auto.
  - cbn [mbind option_bind]. destruct held; cbn [negb].
    + destruct (bump_counted (b + 1 + 1) out_of_order_queued k2 Hk2 ltac:(lia)) as (k3 & -> & Hk3). cbn [mbind option_bind].
      eexists _, k3, _, ring'. split; [done|]. split; [exact Ed|]. split; [|split_and!; [done|done|eapply counted_mono; [done|lia]]].
      split; try done; cbn; [by rewrite Hpf, Z.add_0_r|]. intros j Hj. apply Hold; [lia|auto].
    + eexists _, k2, _, ring. split; [done|]. split; [done|]. split; [|split_and!; [done|done|eapply counted_mono; [done|lia]]].
      rewrite Hruns. by eapply rx_ok_frame; [..|exact Hok].
Qed.

Lemma next_ok base src ended t ring rd R k b sg a from :
  rx_ok base src ended t ring rd R → seg_ok base src ended sg a → peer_fin t = false → tcp_payload sg ≠ [] → a ≤ R →
  Z.of_nat (length src) ≤ LIMIT → 0 ≤ from ≤ u16_MAX → counted b k → b < 2 ^ 60 →
  ∃ t' k' d to_ ring' R', segment_next t k sg from = Some (t', k', d, to_) ∧ deliver ring sg from d = Some ring' ∧
    rx_ok base src ended t' ring' rd R' ∧ same_tx t t' ∧ state t' = state t ∧ counted (b + 5) k'.
Proof.
  intros Hok Hsg Hpf Hne Ha HL Hfrom Hk Hb. pose proof Hok as []. destruct Hsg as [Hseq _ Hpl Hat _ Hdata _]. destruct (Hdata Hne) as (Ha0 & Hal & _ & Hd).
  unfold LIMIT in HL. pose proof RING_eq as HRING. rewrite Hpf, Z.add_0_r in rk_rcv0. unfold u_max in Hpl, Hfrom.
  unfold segment_next. rewrite rk_rcv0, Hseq, wrapping_sub_sq by lia.
  assert (∃ k1, (if 0 <? R - a then bump duplicates k else Some k) = Some k1 ∧ counted (b + 1) k1) as (k1 & -> & Hk1).
  { destruct (0 <? R - a); [apply bump_counted; [done|lia]|]. exists k. split; [done|]. eapply counted_mono; [done|lia]. }
  cbn [mbind option_bind]. unfold Ring_free. destruct rk_buf0 as [bu Hbu]. rewrite Hbu. unfold checked_sub.
  rewrite (proj2 (Z.leb_le _ _)) by lia. cbn [mbind option_bind]. rewrite rk_len0. set (take_ := Z.min _ (RING - (R - rd))).
  unfold saturating_sub in take_. destruct (Z.ltb_spec 0 take_) as [Ht|Ht].
  - rewrite !usize_add_ok by lia. cbn [mbind option_bind].
    assert (rk : (head (rx t) + (R - rd)) mod RING = place (head (rx t)) rd R) by done. rewrite rk. clear rk.
    destruct (deliver_ok base src ended t ring rd R sg a from (R - a) take_) as (ring' & Ed & Hl' & Hold & Hnew); try done; try lia.
    replace (a + (R - a)) with R in Ed, Hnew by lia. rewrite Hbu in Ed. rewrite (Z.mod_small take_), wrapping_add_sq by lia.
    unfold coalesce. set (t1 := set_rcv_nxt _ _).
    assert (count_if is_held (ooo t) ≤ OOO_SEGMENTS)%nat as Hcl by (rewrite <-rk_slots0; apply count_if_le).
    unfold OOO_SEGMENTS in Hcl.
    destruct (coalesce_loop_ok base (present ring' (head (rx t)) rd src) (rd + RING) rd (S OOO_SEGMENTS) t1 k1 (b + 1) (R + take_))
      as (R' & l & k' & E & HR' & HQ' & Hruns & Hll & Hk'); try done; try (unfold LIMIT, OOO_SEGMENTS; cbn [t1 set_rcv_nxt set_rx rlen rx ooo]; lia).
    + cbn. eapply runs_ok_impl; [..|exact rk_runs0]; try lia. intros j Hj H. apply Hold; [lia|done].
    + cbn [t1 set_rcv_nxt set_rx rcv_nxt]. rewrite rk_rcv0. apply wrapping_add_sq.
    + intros j Hj. destruct (decide (j < R)); [apply Hold; [lia|apply rk_data0; lia]|]. apply Hnew. lia.
    + cbn [ooo t1 set_rcv_nxt set_rx] in Hk', Hll. rewrite E. cbn [mbind option_bind].
      eexists _, k', _, _, ring', R'. split; [done|]. split; [exact Ed|]. split; [|split_and!; [done|done|eapply counted_mono; [done|lia]]].
      assert (R' ≤ Z.of_nat (length src)) as HRs.
      { destruct (decide (R' = 0)); [lia|]. pose proof (HQ' (R' - 1)) as H1. destruct (decide (rd ≤ R' - 1)); [|lia].
        specialize (H1 ltac:(lia)). apply present_lt in H1; lia. }
      split; cbn [set_ack_now with_rx set_rcv_nxt set_rx set_ooo ring_of t1 rx ooo rcv_nxt peer_fin state buf head rlen]; try done; try lia.
      * rewrite Hpf. by rewrite Z.add_0_r.
      * congruence.
  - rewrite usize_add_ok by lia. cbn [mbind option_bind]. eexists _, k1, None, _, ring, R. split; [done|]. split; [done|].
    split; [|split_and!; [done|done|eapply counted_mono; [done|lia]]]. by eapply rx_ok_frame; [..|exact Hok].
Qed.


(** ** The peer's FIN *)

Definition synced (s : State) : Prop := s ≠ SynSent ∧ s ≠ SynReceived ∧ s ≠ Listen.

Lemma fin_ok base src ended t ring rd R sg a fa to_ now :
  rx_ok base src ended t ring rd R → seg_ok base src ended sg a → Z.of_nat (length src) ≤ LIMIT → synced (state t) →
  (flag sg TCP_FIN = true → peer_fin t = false ∧ to_ = sq base a) →
  let t' := segment_fin t sg fa to_ now in
  rx_ok base src ended t' ring rd R ∧ same_tx t t' ∧ moves (state t) (state t').
Proof.
  intros Hok Hsg HL (Hs1 & Hs2 & Hs3) Hfin. unfold segment_fin. destruct (flag sg TCP_FIN) eqn:Ef; cbn [andb]; [|split_and!; [done|done|apply moves_refl]].
  destruct (Hfin eq_refl) as [Hpf ->]. destruct (so_fin _ _ _ _ _ Hsg Ef) as [Ha He].
  destruct (_ =? _); cbn [andb]; [|split_and!; [done|done|apply moves_refl]].
  pose proof (rk_rcv _ _ _ _ _ _ _ Hok) as Hrcv. rewrite Hpf, Z.add_0_r in Hrcv. pose proof (rk_sent _ _ _ _ _ _ _ Hok) as Hsent.
  pose proof (rk_range _ _ _ _ _ _ _ Hok) as Hrange. unfold LIMIT in HL. rewrite Hrcv, seq_le_sq by lia.
  destruct (Z.leb_spec a R) as [Hle|_]; [|split_and!; [done|done|apply moves_refl]].
  assert (R = Z.of_nat (length src)) as HR by lia.
  set (t1 := set_ack_now true _).
  assert (∀ t', same_tx t t' → moves (state t) (state t') → rx t' = rx t → ooo t' = ooo t → rcv_nxt t' = sq base (R + 1) → peer_fin t' = true →
    after_fin (state t') = true → rx_ok base src ended t' ring rd R ∧ same_tx t t' ∧ moves (state t) (state t')) as Hgoal.
  { intros t' Htx Hm E1 E2 E3 E4 E5. split_and!; try done. destruct Hok. split; rewrite ?E1, ?E2, ?E4; try done.
    by eapply moves_not_syn_sent. }
  assert (rcv_nxt t1 = sq base (R + 1)) as Hr1 by (cbn; apply wrapping_add_sq).
  assert (∀ s, edge (state t) s → after_fin s = true →
    let t' := enter t1 s in
    let t' := if in_state t' TimeWait then set_time_wait_until (saturating_add 64 now TIME_WAIT_NS) t' else t' in
    rx_ok base src ended t' ring rd R ∧ same_tx t t' ∧ moves (state t) (state t')) as Henter.
  { intros s Hs Ha2. cbv zeta. unfold enter. destruct (in_state _ Closed || in_state _ TimeWait), (in_state _ TimeWait);
      (apply Hgoal; [done|by apply moves_once|done|done|done|done|done]). }
  change (state t1) with (state t). destruct (state t) eqn:Es; try done.
  all: try (destruct fa). all: try (apply Henter; [constructor|done]).
  all: unfold in_state; change (state t1) with (state t); rewrite Es; case_bool_decide; try done; (apply Hgoal; cbn; try done; rewrite ?Es; try done; apply moves_refl).
Qed.

Lemma receiving_open base src ended t ring rd R : rx_ok base src ended t ring rd R → receiving t = true → peer_fin t = false.
Proof.
  intros [] Hr. destruct (peer_fin t); [|done]. destruct (rk_fin0 eq_refl) as (_ & _ & Ha). unfold receiving, in_state in Hr.
  by destruct (state t).
Qed.

(** A connection past the peer's FIN has received it, unless it failed or its program gave it up. *)
Definition eof_ok (t : Tcb) : Prop :=
  match state t with
  | CloseWait | Closing | LastAck | TimeWait => peer_fin t = true
  | Closed => peer_fin t = true ∨ error t ≠ None ∨ released t = true
  | _ => True
  end.

Lemma eof_ok_fin t : peer_fin t = true → eof_ok t.
Proof. unfold eof_ok. intros H. destruct (state t); auto. Qed.

Lemma eof_ok_receiving t : receiving t = true → eof_ok t.
Proof. unfold eof_ok, receiving, in_state. by destruct (state t). Qed.

Lemma eof_ok_frame t t' : eof_ok t → state t' = state t → peer_fin t' = peer_fin t → error t' = error t → released t' = released t → eof_ok t'.
Proof. unfold eof_ok. by intros H -> -> -> ->. Qed.

Lemma fin_eof t sg fa to_ now : eof_ok t → eof_ok (segment_fin t sg fa to_ now).
Proof.
  intros H. unfold segment_fin. destruct (_ && _); [|done]. apply eof_ok_fin.
  destruct (in_state _ TimeWait); (transitivity (peer_fin (set_ack_now true (set_peer_fin true (set_rcv_nxt (wrapping_add 32 (rcv_nxt t) 1) t))));
    [|done]); destruct (state _); try destruct fa; unfold enter; repeat destruct (_ || _); done.
Qed.

Lemma text_ok base src ended t ring rd R k b sg a fa from now :
  rx_ok base src ended t ring rd R → seg_ok base src ended sg a → Z.of_nat (length src) ≤ LIMIT → synced (state t) →
  (flag sg TCP_FIN = true → peer_fin t = false) → 0 ≤ from ≤ u16_MAX → counted b k → b < 2 ^ 60 →
  ∃ t' k' out ring' R', segment_text t k sg fa from now = Some (t', k', out) ∧ deliver ring sg from (o_deliver out) = Some ring' ∧
    rx_ok base src ended t' ring' rd R' ∧ same_tx t t' ∧ moves (state t) (state t') ∧ counted (b + 5) k' ∧
    (eof_ok t → eof_ok t').
Proof.
  intros Hok Hsg HL Hsync Hfin Hfrom Hk Hb. unfold segment_text. destruct (_ && receiving t) eqn:Er.
  - breflect. pose proof (receiving_open _ _ _ _ _ _ _ Hok H0) as Hpf.
    assert (tcp_payload sg ≠ []) as Hne by (intros E; unfold payload_len in H; by rewrite E in H).
    destruct (so_data _ _ _ _ _ Hsg Hne) as (Ha0 & Hal & Hnf & _). pose proof Hok as []. rewrite Hpf, Z.add_0_r in rk_rcv0.
    unfold LIMIT in HL. assert (0 < payload_len sg) by (unfold payload_len in *; destruct (tcp_payload sg); [done|cbn; lia]).
    rewrite rk_rcv0, (so_seq _ _ _ _ _ Hsg), seq_lt_sq by lia. destruct (Z.ltb_spec R a).
    + destruct (ahead_ok _ _ _ _ _ _ _ k b _ _ from Hok Hsg Hpf Hne) as (t' & k' & out & ring' & E & Ed & Hok' & Htx & Est & Hk'); [lia|done|done|lia|].
      exists t', k', out, ring', R. split_and!; try done; [rewrite Est; apply moves_refl|eapply counted_mono; [done|lia]|]. intros _.
      apply eof_ok_receiving. unfold receiving, in_state in *. by rewrite Est.
    + destruct (next_ok _ _ _ _ _ _ _ k b _ _ from Hok Hsg Hpf Hne) as (t' & k' & d & to_ & ring' & R' & -> & Ed & Hok' & Htx & Est & Hk'); [lia|done|done|done|lia|].
      cbn [mbind option_bind]. eexists _, k', _, ring', R'. split; [done|]. split; [exact Ed|].
      destruct (fin_ok base src ended t' ring' rd R' sg a fa to_ now Hok' Hsg HL) as (F1 & F2 & F3); [by rewrite Est|by rewrite Hnf|].
      split_and!; [done|by transitivity t'|by rewrite <-Est|done|]. intros _. apply fin_eof, eof_ok_receiving.
      unfold receiving, in_state in *. by rewrite Est.
  - destruct (fin_ok base src ended t ring rd R sg a fa (wrapping_add 32 (tcp_seq sg) (payload_len sg mod 2 ^ 32)) now Hok Hsg HL Hsync) as (H1 & H2 & H3).
    + intros Hf. split; [auto|]. assert (tcp_payload sg = []) as Hp.
      { destruct (tcp_payload sg) eqn:E; [done|]. destruct (so_data _ _ _ _ _ Hsg) as (_ & _ & ? & _); congruence. }
      unfold payload_len. rewrite Hp, (so_seq _ _ _ _ _ Hsg). cbn [length]. rewrite Z.mod_0_l by lia. rewrite wrapping_add_sq. f_equal. lia.
    + eexists _, k, _, ring, R. split; [done|]. split_and!; try done; [eapply counted_mono; [done|lia]|apply fin_eof].
Qed.

(** ** The program reads *)

(** The end of the stream is what the program is told, or it gave the connection up. *)
Lemma nothing_read_eof t room : eof_ok t → nothing_read t room = Ok [] → 0 < room → peer_fin t = true ∨ released t = true.
Proof.
  intros He Hn Hr. unfold nothing_read in Hn. destruct (peer_fin t) eqn:Hpf; [by left|]. rewrite (proj2 (Z.eqb_neq room 0)) in Hn by lia. cbn [orb] in Hn.
  destruct (error t) eqn:Ee; [done|]. unfold eof_ok in He. destruct (state t); try done; [|congruence]. right. destruct He as [?|[?|?]]; congruence.
Qed.

Lemma recv_ok base src ended t ring rd R room :
  rx_ok base src ended t ring rd R → Z.of_nat (length src) ≤ LIMIT → 0 ≤ room →
  ∃ t' r, tcb_recv t (Some ring) room = Some (t', r) ∧ same_tx t t' ∧ state t' = state t ∧ peer_fin t' = peer_fin t ∧
    match r with
    | Err _ => t' = t
    | Ok data => data = take (length data) (drop (Z.to_nat rd) src) ∧ rx_ok base src ended t' ring (rd + Z.of_nat (length data)) R ∧
        Z.of_nat (length data) ≤ room ∧
        (data = [] → t' = t ∧ nothing_read t room = Ok [] ∧ (0 < room → rd = R ∧ (peer_fin t = true → rd = Z.of_nat (length src))))
    end.
Proof.
  intros Hok HL Hroom. pose proof Hok as []. unfold tcb_recv. rewrite rk_len0. pose proof RING_eq as HRING.
  destruct (Z.ltb_spec 0 (Z.min room (R - rd))) as [Hn|Hn].
  - set (n := Z.min room (R - rd)) in *.
    assert (place (head (rx t)) rd rd = head (rx t)) as Hp.
    { unfold place. rewrite Z.sub_diag, Z.add_0_r. apply Z.mod_small. done. }
    pose proof (read_present ring (head (rx t)) rd src rd n rk_ring0 ltac:(lia) ltac:(lia) ltac:(intros j Hj; apply rk_data0; lia)) as Hr.
    rewrite Hp in Hr. rewrite Hr. cbn [mbind option_bind]. destruct (rx_free_ok _ _ _ _ _ _ _ HL Hok) as (w & -> & _). cbn [mbind option_bind].
    rewrite usize_add_ok by lia. cbn [mbind option_bind]. unfold checked_sub. rewrite (proj2 (Z.leb_le _ _)) by lia. cbn [mbind option_bind].
    set (t1 := set_rx _ t). set (data := take _ _).
    assert (Z.of_nat (length data) = n) as Hdl by (unfold data; rewrite length_take, length_drop; lia).
    assert (rx_ok base src ended t1 ring (rd + n) R) as Hok1.
    { split; cbn [t1 set_rx rx buf head rlen ooo rcv_nxt peer_fin state]; try done; try lia.
      - apply Z.mod_pos_bound. lia.
      - intros j Hj. apply present_shift, rk_data0. lia.
      - eapply runs_ok_impl; [..|exact rk_runs0]; try lia. intros j _. apply present_shift. }
    destruct (rx_free_ok _ _ _ _ _ _ _ HL Hok1) as (w' & -> & _). cbn [mbind option_bind].
    eexists _, _. split; [done|]. split; [by destruct (_ && _)|]. split; [by destruct (_ && _)|]. split; [by destruct (_ && _)|]. rewrite Hdl. split_and!.
    + by replace (length data) with (Z.to_nat n) by lia.
    + eapply rx_ok_frame; [..|exact Hok1]; [by destruct (_ && _)|destruct (_ && _); apply moves_refl].
    + lia.
    + intros E. rewrite E in Hdl. cbn in Hdl. lia.
  - exists t, (nothing_read t room). split; [done|]. split; [done|]. split; [done|]. split; [done|].
    assert (∀ b, b = [] → nothing_read t room = Ok b → (b = take (length b) (drop (Z.to_nat rd) src) ∧ rx_ok base src ended t ring (rd + Z.of_nat (length b)) R ∧
        Z.of_nat (length b) ≤ room ∧ (b = [] → t = t ∧ nothing_read t room = Ok [] ∧ (0 < room → rd = R ∧ (peer_fin t = true → rd = Z.of_nat (length src)))))) as Hb.
    { intros ? -> Hnr. cbn [length take]. split_and!; [done|by rewrite Z.add_0_r|lia|]. intros _. split; [done|]. split; [done|]. intros Hr.
      assert (rd = R) by lia. split; [done|]. intros Hpf. destruct (rk_fin0 Hpf) as (HRs & _). lia. }
    unfold nothing_read in *. destruct ((room =? 0) || peer_fin t); [by apply Hb|]. destruct (error t); [done|]. destruct (state t); try done; by apply Hb.
Qed.

End TcpRecv.
