(* ===== verification/NetTcpSend.v ===== *)
(** * TCP: the sending side

    What a connection has of its own stream: the bytes its program wrote that the peer has not
    acknowledged are in the send ring, and every sequence number it keeps is a position in the
    stream.  Whatever acknowledgements arrive, every segment it sends carries the stream's bytes
    at their sequence number. *)

From S2P Require Import Prelude NetWire NetLink NetTcp NetTcpSeq NetTcpRecv.
Import Wire NetTcp TcpSeq TcpRecv.
Local Open Scope Z_scope.

Module TcpSend.

(** The sequence number of byte [x] of the stream; the SYN is at [-1]. *)
Definition at_ (t : Tcb) (x : Z) : Z := sq (iss t + 1) x.

Definition presync (s : State) : Prop := s = SynSent ∨ s = SynReceived.

(** How much of a stream of [w] bytes is acknowledged when [u] is the first position that is not. *)
Definition done_of (u w : Z) : Z := Z.min (Z.max u 0) w.

Definition block_ok (base m : Z) (b : option (Z * Z)) : Prop :=
  match b with None => True | Some b => ∃ x y, b.1 = sq base x ∧ b.2 = sq base y ∧ -1 ≤ x < y ∧ y ≤ m end.

(** The program has written [wr]; [U] is the first position not acknowledged, [N] the next to
    send, [M] the first never sent. *)
Record tx_core (wr : Bytes) (t : Tcb) (ring : Bytes) (U N M : Z) : Prop := {
  tk_ring : length ring = FRAME_MAX;
  tk_buf : is_Some (buf (tx t));
  tk_head : 0 ≤ head (tx t) < RING;
  tk_iss : in_u 32 (iss t);
  tk_limit : Z.of_nat (length wr) ≤ LIMIT;
  tk_seq : tx_seq t = at_ t (done_of U (Z.of_nat (length wr)));
  tk_len : rlen (tx t) = Z.of_nat (length wr) - done_of U (Z.of_nat (length wr));
  tk_fits : rlen (tx t) ≤ RING;
  tk_data : ∀ j, done_of U (Z.of_nat (length wr)) ≤ j < Z.of_nat (length wr) →
    present ring (head (tx t)) (done_of U (Z.of_nat (length wr))) wr j;
  tk_una : snd_una t = at_ t U;
  tk_nxt : snd_nxt t = at_ t N;
  tk_max : snd_max t = at_ t M;
  tk_order : -1 ≤ U ≤ N ∧ N ≤ M;
  tk_sent : M ≤ Z.of_nat (length wr) + if fin_seq t then 1 else 0;
  tk_fin : ∀ f, fin_seq t = Some f → f = at_ t (Z.of_nat (length wr)) ∧ fin_queued t = true ∧ M = Z.of_nat (length wr) + 1;
  tk_sacked : Forall (block_ok (iss t + 1) M) (sacked t) }.

Record tx_ok (wr : Bytes) (t : Tcb) (ring : Bytes) (U N M : Z) : Prop := {
  tx_is : tx_core wr t ring U N M;
  tx_presync : presync (state t) → U = -1 ∧ wr = [] ∧ fin_seq t = None;
  tx_syn_sent : state t = SynSent → M = 0;
  tx_synced : ¬ presync (state t) → state t ≠ Closed → 0 ≤ U;
  tx_not_listen : state t ≠ Listen }.

Definition tx_view (t : Tcb) := (iss t, tx t, tx_seq t, snd_una t, snd_nxt t, snd_max t, fin_seq t, fin_queued t, sacked t).

Lemma tx_core_frame wr t t' ring U N M : tx_view t' = tx_view t → tx_core wr t ring U N M → tx_core wr t' ring U N M.
Proof.
  unfold tx_view. intros E []. injection E as E1 E2 E3 E4 E5 E6 E7 E8 E9. unfold at_ in *.
  split; unfold at_; rewrite ?E1, ?E2, ?E3, ?E4, ?E5, ?E6, ?E7, ?E8, ?E9; done.
Qed.

Lemma same_tx_view t t' : same_tx t t' → tx_view t' = tx_view t.
Proof. unfold same_tx, tx_view. intuition congruence. Qed.

Lemma moves_synced s s' : moves s s' → ¬ presync s → s ≠ Listen → ¬ presync s' ∧ s' ≠ Listen ∧ (s' ≠ Closed → s ≠ Closed).
Proof.
  unfold presync. induction 1 as [|x y z Hxy _ IH]; [done|]. intros H1 H2.
  destruct IH as (? & ? & H3); [destruct Hxy; naive_solver|destruct Hxy; naive_solver|]. split_and!; try done.
  intros Hz. specialize (H3 Hz). destruct Hxy; naive_solver.
Qed.

Lemma tx_ok_frame wr t t' ring U N M :
  tx_view t' = tx_view t → state t' = state t ∨ (¬ presync (state t) ∧ moves (state t) (state t')) →
  tx_ok wr t ring U N M → tx_ok wr t' ring U N M.
Proof.
  intros E Hs []. split; [by eapply tx_core_frame|..].
  - intros H. assert (fin_seq t' = fin_seq t) as -> by (unfold tx_view in E; congruence). destruct Hs as [Hs|[Hp Hm]]; [rewrite Hs in H; auto|].
    destruct (moves_synced _ _ Hm Hp tx_not_listen0) as (? & _). done.
  - intros H. destruct Hs as [Hs|[Hp Hm]]; [rewrite Hs in H; auto|]. destruct (moves_synced _ _ Hm Hp tx_not_listen0) as (Hn & _). destruct Hn. by left.
  - intros H H2. destruct Hs as [Hs|[Hp Hm]]; [rewrite Hs in *; auto|]. destruct (moves_synced _ _ Hm Hp tx_not_listen0) as (_ & _ & H3). auto.
  - destruct Hs as [->|[Hp Hm]]; [done|]. by destruct (moves_synced _ _ Hm Hp tx_not_listen0) as (_ & ? & _).
Qed.

(** Small numbers the arithmetic of the sender keeps. *)
Record sane (b : Z) (t : Tcb) : Prop := {
  sn_dup : 0 ≤ dup_acks t ≤ b;
  sn_retries : 0 ≤ retries t ≤ b;
  sn_srtt : ∀ s v, srtt t = Some (s, v) → 0 ≤ s ≤ 2 ^ 60 ∧ 0 ≤ v ≤ 2 ^ 60;
  sn_timing : ∀ x s, timing t = Some (x, s) → 0 ≤ s }.

Lemma sane_frame b b' t t' :
  dup_acks t' = dup_acks t → retries t' = retries t → srtt t' = srtt t → timing t' = timing t ∨ timing t' = None → b ≤ b' → sane b t → sane b' t'.
Proof.
  intros E1 E2 E3 E4 Hb []. split; rewrite ?E1, ?E2, ?E3; try done; try lia. intros x s H. destruct E4 as [E4|E4]; rewrite E4 in H; eauto. done.
Qed.

(** ** Holes *)

Lemma first_hole_loop_ok base m bs n : ∀ z,
  Forall (λ b, ∃ x y, b.1 = sq base x ∧ b.2 = sq base y ∧ -1 ≤ x < y ∧ y ≤ m) bs → -1 ≤ z ≤ m → m ≤ LIMIT + 1 →
  ∃ z', first_hole_loop n bs (sq base z) = sq base z' ∧ z ≤ z' ≤ m.
Proof.
  intros z Hb. revert z. induction n as [|n IH]; intros z Hz Hm; cbn [first_hole_loop]; [exists z; split; [done|lia]|].
  destruct (position _ bs) as [i|] eqn:E; [|exists z; split; [done|lia]].
  destruct (position_lookup _ _ _ E) as ([s e] & Hi & Hc). rewrite Hi. destruct (Forall_lookup_1 _ _ _ _ Hb Hi) as (x & y & Ex & Ey & Hxy & Hy).
  cbn [fst snd] in *. unfold LIMIT in Hm. unfold covers in Hc. cbn [fst snd] in Hc. rewrite Ex, Ey, seq_le_sq, seq_lt_sq in Hc by lia. breflect. rewrite Ey.
  destruct (IH y) as (z' & -> & Hz'); [lia|unfold LIMIT; lia|]. exists z'. split; [done|lia].
Qed.

Lemma blocks_ok base m l : Forall (block_ok base m) l → Forall (λ b, ∃ x y, b.1 = sq base x ∧ b.2 = sq base y ∧ -1 ≤ x < y ∧ y ≤ m) (omap (λ x, x) l).
Proof. induction 1 as [|[b|] l Hb _ IH]; csimpl; [constructor| |done]. by constructor. Qed.

Lemma first_hole_ok base m t z :
  Forall (block_ok base m) (sacked t) → -1 ≤ z ≤ m → m ≤ LIMIT + 1 → ∃ z', first_hole t (sq base z) = sq base z' ∧ z ≤ z' ≤ m.
Proof. intros Hb. apply first_hole_loop_ok, blocks_ok, Hb. Qed.

Lemma block_ok_mono base m m' l : m ≤ m' → Forall (block_ok base m) l → Forall (block_ok base m') l.
Proof. intros Hm Hl. eapply Forall_impl; [exact Hl|]. intros [b|]; [|done]. intros (x & y & ? & ? & ? & ?). exists x, y. split_and!; try done; lia. Qed.

Lemma core_bounds wr t ring U N M : tx_core wr t ring U N M → -1 ≤ U ∧ U ≤ N ∧ N ≤ M ∧ M ≤ LIMIT + 1 ∧ M ≤ Z.of_nat (length wr) + 1.
Proof. intros []. destruct (fin_seq t); lia. Qed.

(** Moving the next position to send. *)
Lemma core_nxt wr t ring U N M n : tx_core wr t ring U N M → U ≤ n ≤ M → tx_core wr (set_snd_nxt (at_ t n) t) ring U n M.
Proof. intros [] Hn. split; try done. lia. Qed.

Lemma core_sacked wr t ring U N M l : tx_core wr t ring U N M → Forall (block_ok (iss t + 1) M) l → tx_core wr (set_sacked l t) ring U N M.
Proof. intros [] Hl. by split. Qed.

Lemma no_blocks base m n : Forall (block_ok base m) (replicate n None).
Proof. by apply Forall_replicate. Qed.


(** ** Acknowledgements *)

(** The clock the estimate is made from: centuries. *)
Definition NOW_MAX : Z := 2 ^ 58.

Lemma div8_bound a b : 0 ≤ a ≤ 2 ^ 60 → 0 ≤ b ≤ 2 ^ 60 → 0 ≤ (7 * a + b) / 8 ≤ 2 ^ 60.
Proof. intros. split; [apply Z.div_pos; lia|]. apply Z.div_le_upper_bound; lia. Qed.
Lemma div4_bound a b : 0 ≤ a ≤ 2 ^ 60 → 0 ≤ b ≤ 2 ^ 60 → 0 ≤ (3 * a + b) / 4 ≤ 2 ^ 60.
Proof. intros. split; [apply Z.div_pos; lia|]. apply Z.div_le_upper_bound; lia. Qed.

Lemma smooth_ok w x y d : w * x + y ≤ u64_MAX → 0 ≤ y → smooth w x y d = Some ((w * x + y) / d).
Proof.
  intros H Hy. unfold smooth, checked_mul, checked_add. rewrite (proj2 (Z.leb_le (w * x) _)) by lia. cbn [mbind option_bind].
  by rewrite (proj2 (Z.leb_le _ _)) by lia.
Qed.

Lemma sample_rtt_ok t rtt k b :
  0 ≤ rtt ≤ NOW_MAX → sane b t → counted b k → b < 2 ^ 60 →
  ∃ t' k', sample_rtt t rtt k = Some (t', k') ∧ counted (b + 1) k' ∧ sane b t' ∧ same_rx t t' ∧ state t' = state t ∧ tx_view t' = tx_view t ∧
    timing t' = timing t ∧ fin_queued t' = fin_queued t.
Proof.
  intros Hr [] Hk Hb. unfold sample_rtt. destruct (bump_counted b rtt_samples k Hk ltac:(lia)) as (k1 & -> & Hk1). cbn [mbind option_bind]. unfold NOW_MAX in Hr.
  assert (∃ s v, match srtt t with None => Some (rtt, rtt / 2)
     | Some (s, v) => s' ← smooth 7 s rtt 8; v' ← smooth 3 v (Z.abs (s - rtt)) 4; Some (s', v') end = Some (s, v) ∧ 0 ≤ s ≤ 2 ^ 60 ∧ 0 ≤ v ≤ 2 ^ 60) as (s & v & -> & Hs & Hv).
  { destruct (srtt t) as [[s v]|] eqn:E.
    - destruct (sn_srtt0 s v eq_refl) as [Hs Hv]. rewrite !smooth_ok by (unfold u_max; lia). cbn [mbind option_bind]. eexists _, _. split; [done|].
      split; [apply div8_bound; lia|apply div4_bound; lia].
    - eexists _, _. split; [done|]. pose proof (Z.div_le_upper_bound rtt 2 rtt ltac:(lia) ltac:(lia)). pose proof (Z.div_pos rtt 2 ltac:(lia) ltac:(lia)). lia. }
  cbn [mbind option_bind]. unfold checked_mul. rewrite (proj2 (Z.leb_le (4 * v) _)) by (unfold u_max; lia). cbn [mbind option_bind].
  eexists _, k1. split; [done|]. split; [done|]. split; [|done]. split; try done. cbn. intros ? ? [= <- <-]. done.
Qed.

Lemma measure_ok t ack now k b :
  0 ≤ now ≤ NOW_MAX → sane b t → counted b k → b < 2 ^ 60 →
  ∃ t' k', measure t ack now k = Some (t', k') ∧ counted (b + 1) k' ∧ sane b t' ∧ same_rx t t' ∧ state t' = state t ∧ tx_view t' = tx_view t.
Proof.
  intros Hn Hs Hk Hb. pose proof Hs as []. unfold measure. destruct (timing t) as [[thr sent]|] eqn:E.
  2:{ exists t, k. split_and!; try done. eapply counted_mono; [done|lia]. }
  destruct (seq_le thr ack).
  2:{ exists t, k. split_and!; try done. eapply counted_mono; [done|lia]. }
  specialize (sn_timing0 thr sent eq_refl).
  destruct (sample_rtt_ok (set_timing None t) (saturating_sub now sent) k b) as (t' & k' & -> & Hk' & Hs' & Hrx & Hst & Hv & _);
    [unfold saturating_sub; lia|eapply (sane_frame b b t); first [done|lia|by right]|done|done|].
  by exists t', k'.
Qed.

Lemma drop_sent_ok wr t ring U N M A :
  tx_core wr t ring U N M → U ≤ A ≤ M →
  let w := Z.of_nat (length wr) in
  ∃ t', drop_sent t (done_of A w - done_of U w) = Some t' ∧
    tx_core wr (set_snd_una (at_ t A) (set_snd_nxt (at_ t (Z.max N A)) t')) ring A (Z.max N A) M ∧
    t' = set_tx_seq (tx_seq t') (set_tx (tx t') t).
Proof.
  intros Hc HA. pose proof (core_bounds _ _ _ _ _ _ Hc) as Hbd. destruct Hc. cbv zeta. set (w := Z.of_nat (length wr)) in *. pose proof RING_eq as HRING.
  set (d := done_of A w - done_of U w). assert (0 ≤ d ≤ rlen (tx t)) as Hd by (unfold d, done_of in *; lia).
  unfold drop_sent. rewrite usize_add_ok by lia. cbn [mbind option_bind]. unfold checked_sub. rewrite (proj2 (Z.leb_le d (rlen (tx t)))) by lia. cbn [mbind option_bind].
  eexists. split; [done|]. split; [|reflexivity].
  assert (done_of U w + d = done_of A w) as Hsum by (unfold d; lia).
  split; try done; cbn [set_snd_una set_snd_nxt set_tx_seq set_tx buf head rlen tx tx_seq iss snd_una snd_nxt snd_max fin_seq fin_queued sacked]; fold w.
  - apply Z.mod_pos_bound. lia.
  - rewrite tk_seq0. unfold at_. rewrite (Z.mod_small d) by lia. by rewrite wrapping_add_sq, Hsum.
  - lia.
  - lia.
  - intros j Hj. rewrite <-Hsum. apply present_shift, tk_data0. lia.
  - lia.
Qed.

Lemma forget_sacked_ok base m t x : Forall (block_ok base m) (sacked t) → Forall (block_ok base m) (sacked (forget_sacked t x)).
Proof.
  intros H. cbn. apply Forall_fmap. eapply Forall_impl; [exact H|]. intros [[s e]|]; [|done]. cbn. intros Hb. by destruct (seq_le e x).
Qed.

Lemma ack_window_ok wr t ring U N M acked k b :
  tx_core wr t ring U N M → counted b k → b < 2 ^ 60 →
  ∃ t' k' N', ack_window t (at_ t U) acked k = Some (t', k') ∧ tx_core wr t' ring U N' M ∧ same_rx t t' ∧ state t' = state t ∧ counted (b + 2) k' ∧
    (∀ b, sane b t → sane b t').
Proof.
  intros Hc Hk Hb. pose proof (core_bounds _ _ _ _ _ _ Hc) as Hbd. unfold ack_window. destruct (recovering t); [destruct (seq_le _ _)|].
  - eexists _, k, N. split; [done|]. split_and!; try done.
    + eapply (tx_core_frame wr (set_sacked (replicate SACK_BLOCKS None) t)); [done|]. apply core_sacked; [done|apply no_blocks].
    + eapply counted_mono; [done|lia].
    + intros b' Hs. eapply (sane_frame b' b' t); first [done|lia|by left].
  - destruct (first_hole_ok (iss t + 1) M t U (tk_sacked _ _ _ _ _ _ Hc)) as (z & Ez & Hz); [lia|lia|].
    destruct (bump_counted b fast_retransmits k Hk ltac:(lia)) as (k1 & -> & Hk1). cbn [mbind option_bind].
    destruct (bump_counted (b + 1) partial_acks k1 Hk1 ltac:(lia)) as (k2 & -> & Hk2). cbn [mbind option_bind].
    eexists _, k2, z. split; [done|]. split_and!; try done.
    + eapply (tx_core_frame wr (set_snd_nxt (at_ t z) t)); [unfold at_ in *; by rewrite Ez|]. by eapply core_nxt.
    + eapply counted_mono; [done|lia].
    + intros b' Hs. eapply (sane_frame b' b' t); first [done|lia|by right].
  - eexists _, k, N. split; [done|]. split_and!; try done.
    + by eapply tx_core_frame; [|exact Hc].
    + eapply counted_mono; [done|lia].
    + intros b' Hs. eapply (sane_frame b' b' t); first [done|lia|by left].
Qed.

Lemma iss_at i : in_u 32 i → sq (i + 1) (-1) = i.
Proof. intros Hi. unfold sq. replace (i + 1 + -1) with i by lia. apply Z.mod_small. unfold in_u, u_max in Hi. lia. Qed.

Lemma at_eqb wr t ring U N M x : tx_core wr t ring U N M → -1 ≤ x ≤ LIMIT + 1 → (at_ t x =? iss t) = (x =? -1).
Proof.
  intros [] Hx. unfold LIMIT in Hx. rewrite <-(iss_at (iss t)) at 1 by done. unfold at_. rewrite <-(sq_eqb (iss t + 1) x (-1)) by lia.
  by rewrite (iss_at (iss t)).
Qed.

Lemma acknowledge_ok wr t ring U N M A now k b :
  tx_core wr t ring U N M → U < A ≤ M → 0 ≤ now ≤ NOW_MAX → sane b t → counted b k → b < 2 ^ 59 →
  ∃ t' k' N', acknowledge t (at_ t A) now k = Some (t', k') ∧ tx_core wr t' ring A N' M ∧ same_rx t t' ∧ state t' = state t ∧
    counted (b + 3) k' ∧ sane b t'.
Proof.
  intros Hc HA Hn Hs Hk Hb. pose proof (core_bounds _ _ _ _ _ _ Hc) as Hbd. pose proof Hc as []. set (w := Z.of_nat (length wr)) in *. unfold acknowledge.
  rewrite tk_una0, (at_eqb _ _ _ _ _ _ U Hc) by lia.
  replace (wrapping_sub 32 (at_ t A) (at_ t U)) with (A - U) by (symmetry; apply wrapping_sub_sq; unfold LIMIT in *; lia).
  assert ((if U =? -1 then checked_sub (A - U) 1 else Some (A - U)) = Some (A - Z.max U 0)) as ->.
  { destruct (Z.eqb_spec U (-1)) as [->|Hne]; [|f_equal; lia]. unfold checked_sub. rewrite (proj2 (Z.leb_le _ _)) by lia. f_equal. lia. }
  cbn [mbind option_bind]. assert (Z.min (A - Z.max U 0) (rlen (tx t)) = done_of A w - done_of U w) as ->.
  { rewrite tk_len0. unfold done_of. assert (M ≤ w + 1) by (unfold w; lia). lia. }
  destruct (drop_sent_ok wr t ring U N M A Hc ltac:(lia)) as (t1 & E0 & Hc1 & E1). fold w in E0. rewrite E0. cbn [mbind option_bind].
  assert (iss t1 = iss t ∧ snd_nxt t1 = snd_nxt t ∧ same_rx t t1 ∧ state t1 = state t ∧ dup_acks t1 = dup_acks t ∧ retries t1 = retries t ∧ srtt t1 = srtt t ∧
    timing t1 = timing t ∧ snd_una t1 = snd_una t) as (Ei & En & Hrx1 & Hst1 & Ed1 & Er1 & Es1 & Et1 & Eu1) by (by rewrite E1).
  set (t2 := set_snd_una (at_ t A) t1). set (t3 := if _ : bool then _ else t2).
  assert (tx_core wr t3 ring A (Z.max N A) M) as Hc3.
  { eapply tx_core_frame; [|exact Hc1]. unfold t3, t2. change (snd_nxt (set_snd_una _ t1)) with (snd_nxt t1). rewrite En, tk_nxt0. unfold at_.
    rewrite seq_lt_sq by (unfold LIMIT in *; lia). destruct (Z.ltb_spec N A).
    - by rewrite Z.max_r by lia.
    - rewrite Z.max_l by lia. unfold tx_view. cbn. by rewrite En, tk_nxt0. }
  assert (same_rx t t3 ∧ state t3 = state t ∧ sane b t3 ∧ iss t3 = iss t) as (Hrx3 & Hst3 & Hs3 & Ei3).
  { unfold t3, t2. destruct (seq_lt _ _); (split_and!; [done|done| |done]); (eapply (sane_frame b b t); first [done|lia|by left]). }
  clearbody t3. destruct (measure_ok t3 (at_ t A) now k b) as (t4 & k4 & -> & Hk4 & Hs4 & Hrx4 & Hst4 & Hv4); [done|done|done|lia|].
  cbn [mbind option_bind]. pose proof (tx_core_frame _ _ _ _ _ _ _ Hv4 Hc3) as Hc4.
  assert (iss t4 = iss t) as Ei4 by (unfold tx_view in Hv4; congruence).
  set (t5 := forget_sacked t4 _).
  assert (tx_core wr t5 ring A (Z.max N A) M) as Hc5 by (apply core_sacked; [done|apply (forget_sacked_ok _ _ t4), Hc4]).
  assert (at_ t A = at_ t5 A) as E5 by (unfold at_; change (iss t5) with (iss t4); by rewrite Ei4).
  destruct (ack_window_ok wr t5 ring A (Z.max N A) M (wrapping_sub 32 (at_ t A) (snd_una t1)) k4 (b + 1) Hc5 Hk4 ltac:(lia)) as (t6 & k6 & N' & E6 & Hc6 & Hrx6 & Hst6 & Hk6 & Hs6).
  rewrite <-E5 in E6. rewrite E6. cbn [mbind option_bind]. assert (sane b t6) as Hs6' by (apply Hs6; eapply (sane_frame b b t4); first [done|lia|by left]).
  eexists _, k6, N'. split; [done|]. split.
  { eapply tx_core_frame; [|exact Hc6]. by destruct (is_none _). }
  assert (same_rx t t6) as Hrx by (etransitivity; [exact Hrx3|]; etransitivity; [exact Hrx4|exact Hrx6]).
  split; [etransitivity; [exact Hrx|]; by destruct (is_none _)|].
  split; [transitivity (state t6); [by destruct (is_none _)|rewrite Hst6; change (state t5) with (state t4); congruence]|]. split; [eapply counted_mono; [done|lia]|].
  destruct Hs6' as [? ? Hsr Htm]. pose proof Hs as []. split.
  - destruct (is_none _); cbn; lia.
  - destruct (is_none _); cbn; lia.
  - destruct (is_none _); cbn; exact Hsr.
  - destruct (is_none _); cbn; exact Htm.
Qed.


(** ** The acknowledgement in a segment *)

Lemma not_past base lo hi s :
  in_u 32 s → 0 ≤ hi - lo < 2 ^ 31 → seq_lt (sq base lo) s = true → seq_lt (sq base hi) s = false → ∃ x, s = sq base x ∧ lo < x ≤ hi.
Proof.
  intros Hs Hd Hlt Hnot. apply between; [done|done|done|]. unfold seq_le. destruct (Z.eqb_spec s (sq base hi)) as [|Hne]; [done|]. cbn [orb].
  destruct (sq_of base s Hs) as [x0 Ex]. unfold seq_lt in *. rewrite (Z.eqb_sym s), (proj2 (Z.eqb_neq (sq base hi) s)) in * by congruence. cbn [negb andb] in *.
  breflect. pose proof (Z.mod_pos_bound (s - sq base hi) (2 ^ 32) ltac:(lia)). fold (wrapping_sub 32 s (sq base hi)) in *.
  assert (wrapping_sub 32 (sq base hi) s = 2 ^ 32 - wrapping_sub 32 s (sq base hi)) as ->.
  { unfold wrapping_sub. replace (sq base hi - s) with (- (s - sq base hi)) by lia. apply Z_mod_nz_opp_full. fold (wrapping_sub 32 s (sq base hi)). lia. }
  apply Z.ltb_lt. destruct (decide (wrapping_sub 32 s (sq base hi) = 2 ^ 31)) as [E|]; [|lia]. exfalso.
  assert (wrapping_sub 32 s (sq base lo) = 2 ^ 31 + (hi - lo)) as E2; [|lia].
  unfold wrapping_sub, sq in E |- *. rewrite Zminus_mod_idemp_r in E |- *. replace (s - (base + lo)) with (s - (base + hi) + (hi - lo)) by lia.
  rewrite Zplus_mod, E, (Z.mod_small (hi - lo)) by lia. apply Z.mod_small. lia.
Qed.

Lemma enter_view t s : tx_view (enter t s) = tx_view t ∧ same_rx t (enter t s) ∧ state (enter t s) = s.
Proof. unfold enter. by destruct (_ || _). Qed.

Lemma enter_sane b t s : sane b t → sane b (enter t s).
Proof. intros H. unfold enter. destruct (_ || _); (eapply (sane_frame b b t); first [done|lia|by left]). Qed.

Lemma established_ok wr t ring N M k b c :
  tx_core wr t ring 0 N M → presync (state t) → sane c t → counted b k → b < 2 ^ 60 →
  ∃ t' k', established t k = Some (t', k') ∧ tx_ok wr t' ring 0 N M ∧ same_rx t t' ∧ moves (state t) (state t') ∧ synced (state t') ∧
    sane c t' ∧ counted (b + 1) k' ∧ eof_ok t'.
Proof.
  intros Hc Hp Hs Hk Hb. unfold established. destruct (bump_counted b established_ k Hk ltac:(lia)) as (k1 & -> & Hk1). cbn [mbind option_bind].
  set (t1 := set_cwnd _ _). assert (moves (state t) Established) as Hm by (apply moves_once; destruct Hp as [-> | ->]; constructor).
  assert (tx_view t1 = tx_view t ∧ same_rx t t1 ∧ state t1 = Established) as (Hv & Hrx & Hst) by (unfold t1; done).
  assert (sane c t1) as Hs1 by (eapply (sane_frame c c (enter t Established)); [done..|by left|lia|by apply enter_sane]).
  eexists _, k1. split; [done|]. destruct (fin_queued t1).
  - destruct (enter_view t1 FinWait1) as (Hv2 & Hrx2 & Hst2). rewrite Hst2. split_and!.
    + split; [eapply tx_core_frame; [|exact Hc]; congruence|..]; rewrite Hst2; unfold presync; naive_solver.
    + by transitivity t1.
    + eapply moves_trans; [exact Hm|]. apply moves_once. constructor.
    + by unfold synced.
    + by apply enter_sane.
    + done.
    + unfold eof_ok. by rewrite Hst2.
  - unfold eof_ok. rewrite Hst. split_and!; try done.
    split; [eapply tx_core_frame; [|exact Hc]; congruence|..]; rewrite Hst; unfold presync; naive_solver.
Qed.

Lemma duplicate_ack_ok wr t ring U N M k sg b :
  tx_core wr t ring U N M → Forall (block_ok (iss t + 1) M) (tcp_sack sg) → sane b t → counted b k → b < 2 ^ 31 →
  ∃ t' k' N', duplicate_ack t k sg = Some (t', k') ∧ tx_core wr t' ring U N' M ∧ same_rx t t' ∧ state t' = state t ∧ sane (b + 1) t' ∧ counted (b + 2) k' ∧
    fin_seq t' = fin_seq t.
Proof.
  intros Hc Hsk Hs Hk Hb. pose proof (core_bounds _ _ _ _ _ _ Hc) as Hbd. unfold duplicate_ack.
  destruct (bump_counted b dup_acks_ k Hk ltac:(lia)) as (k1 & -> & Hk1). cbn [mbind option_bind]. pose proof Hs as [Hd Hr Hsr Htm].
  unfold checked_add. rewrite (proj2 (Z.leb_le _ _)) by (unfold u_max; lia). cbn [mbind option_bind].
  set (t1 := set_dup_acks _ t). set (t2 := if sack_ok t1 then _ else t1).
  assert (tx_core wr t2 ring U N M) as Hc2.
  { unfold t2. destruct (sack_ok t1); [|by eapply tx_core_frame; [|exact Hc]]. eapply (tx_core_frame wr (set_sacked (sacked (record_sack t1 (tcp_sack sg)).1) t)); [done|].
    apply core_sacked; [done|]. cbn. clear -Hsk. revert Hsk. generalize (sacked t) as l1. generalize (tcp_sack sg) as l2.
    intros l2 l1 H. revert l1. induction H as [|b l2 Hb _ IH]; intros [|x l1]; cbn; constructor; auto. destruct b as [b|]; [|done]. by destruct (sack_valid _ b). }
  assert (same_rx t t2 ∧ state t2 = state t ∧ fin_seq t2 = fin_seq t ∧ iss t2 = iss t ∧ timing t2 = timing t ∧ retries t2 = retries t ∧ srtt t2 = srtt t ∧ dup_acks t2 = dup_acks t + 1)
    as (Hrx2 & Hst2 & Hf2 & Hi2 & Htm2 & Hr2 & Hsr2 & Hd2) by (unfold t2; by destruct (sack_ok t1)).
  assert (sane (b + 1) t2) as Hs2 by (split; rewrite ?Hd2, ?Hr2, ?Hsr2, ?Htm2; first [lia|done]).
  clearbody t2. destruct (recovering t2).
  { eexists _, k1, N. split; [done|]. split_and!; try done; [by eapply tx_core_frame; [|exact Hc2]| |eapply counted_mono; [done|lia]].
    eapply (sane_frame (b + 1) (b + 1) t2); first [done|lia|by left]. }
  destruct (dup_acks t2 =? DUP_ACK_THRESHOLD).
  - destruct (bump_counted (b + 1) fast_retransmits k1 Hk1 ltac:(lia)) as (k2 & -> & Hk2). cbn [mbind option_bind].
    destruct (first_hole_ok (iss t2 + 1) M t2 U (tk_sacked _ _ _ _ _ _ Hc2)) as (z & Ez & Hz); [lia|lia|].
    eexists _, k2, z. split; [done|]. split_and!.
    + eapply (tx_core_frame wr (set_snd_nxt (at_ t2 z) t2)); [|by eapply core_nxt; [|lia]].
      unfold begin_recovery, tx_view. cbn. unfold at_. rewrite <-Ez. do 5 f_equal. f_equal. unfold first_hole. f_equal. rewrite (tk_una _ _ _ _ _ _ Hc2). done.
    + by transitivity t2.
    + done.
    + eapply (sane_frame (b + 1) (b + 1) t2); first [done|lia|by right].
    + eapply counted_mono; [done|lia].
    + done.
  - eexists t2, k1, N. split; [done|]. split_and!; try done. eapply counted_mono; [done|lia].
Qed.


Lemma tx_ok_core wr t t' ring U U' N N' M :
  tx_ok wr t ring U N M → tx_core wr t' ring U' N' M → state t' = state t → fin_seq t' = fin_seq t → (presync (state t) → U' = U) → U ≤ U' →
  tx_ok wr t' ring U' N' M.
Proof.
  intros [] Hc Hs Hf Hp HU. split; [done|..]; rewrite ?Hs, ?Hf; try done.
  - intros H. rewrite (Hp H). auto.
  - intros H1 H2. specialize (tx_synced0 H1 H2). lia.
Qed.

(** What no acknowledgement changes. *)
Definition kept (t : Tcb) := (iss t, fin_seq t, fin_queued t, error t, released t, (active t, generation t, peer_fin t)).

Lemma kept_inv t t' : kept t' = kept t → iss t' = iss t ∧ fin_seq t' = fin_seq t ∧ fin_queued t' = fin_queued t ∧ error t' = error t ∧ released t' = released t.
Proof. unfold kept. by intros [= -> -> -> -> -> _ _ _]. Qed.

Lemma kept_slot t t' : kept t' = kept t → active t' = active t ∧ generation t' = generation t ∧ peer_fin t' = peer_fin t.
Proof. unfold kept. by intros [= _ _ _ _ _ -> -> ->]. Qed.

Lemma enter_kept t s : kept (enter t s) = kept t.
Proof. unfold enter. by destruct (_ || _). Qed.

Lemma acknowledge_kept t ack now k t' k' : acknowledge t ack now k = Some (t', k') → kept t' = kept t.
Proof.
  unfold acknowledge. destruct (if snd_una t =? iss t then _ else _) as [n|]; [|done]. cbn [mbind option_bind].
  destruct (drop_sent t _) as [t1|] eqn:E1; [|done]. cbn [mbind option_bind].
  assert (kept t1 = kept t) as Hf1 by (unfold drop_sent in E1; simplify_option_eq; done).
  destruct (measure _ _ _ _) as [[t2 k2]|] eqn:E2; [|done]. cbn [mbind option_bind].
  assert (kept t2 = kept t1) as Hf2.
  { unfold measure, sample_rtt in E2. destruct (seq_lt _ _) in E2; cbn [timing set_snd_una set_snd_nxt] in E2; repeat (case_match || simplify_option_eq); done. }
  destruct (ack_window _ _ _ _) as [[t3 k3]|] eqn:E3; [|done]. cbn [mbind option_bind].
  assert (kept t3 = kept t2) as Hf3 by (unfold ack_window in E3; repeat (case_match || simplify_option_eq); done).
  intros [= <- <-]. destruct (is_none _); (transitivity (kept t3); [done|congruence]).
Qed.

Lemma established_kept t k t' k' : established t k = Some (t', k') → kept t' = kept t.
Proof.
  unfold established. destruct (bump _ _); [|done]. cbn [mbind option_bind]. intros [= <- <-].
  destruct (fin_queued _); rewrite ?enter_kept; (transitivity (kept (enter t Established)); [done|apply enter_kept]).
Qed.

Lemma duplicate_ack_kept t k sg t' k' : duplicate_ack t k sg = Some (t', k') → kept t' = kept t.
Proof.
  unfold duplicate_ack. destruct (bump _ _); [|done]. cbn [mbind option_bind]. destruct (checked_add _ _ _); [|done]. cbn [mbind option_bind].
  set (t2 := if sack_ok _ then _ else _). assert (kept t2 = kept t) as Hk by (unfold t2; by destruct (sack_ok _)). clearbody t2. intros H.
  transitivity (kept t2); [|done]. destruct (recovering t2); [by simplify_eq|]. destruct (_ =? _); [|by simplify_eq].
  destruct (bump _ _); [|done]. by simplify_option_eq.
Qed.

Lemma segment_ack_kept t k sg now t' k' out : segment_ack t k sg now = Some (t', k', out) → kept t' = kept t.
Proof.
  unfold segment_ack. destruct (in_state t SynReceived).
  - destruct (negb _); [by intros [= <- <- <-]|]. destruct (acknowledge _ _ _ _) as [[t1 k1]|] eqn:E1; [|done]. cbn [mbind option_bind].
    destruct (established t1 k1) as [[t2 k2]|] eqn:E2; [|done]. cbn [mbind option_bind]. intros [= <- <- <-].
    rewrite (established_kept _ _ _ _ E2), (acknowledge_kept _ _ _ _ _ _ E1). done.
  - destruct (seq_lt (snd_max t) _); [by intros [= <- <- <-]|]. destruct (if seq_lt (snd_una t) _ then _ else _) as [[t1 k1]|] eqn:E1; [|done]. cbn [mbind option_bind].
    intros [= <- <- <-]. assert (kept t1 = kept t) as <-; [|by destruct (seq_le _ _)].
    destruct (seq_lt (snd_una t) _); [by eapply acknowledge_kept|]. destruct (_ && negb (snd_una t =? snd_max t)); [by eapply duplicate_ack_kept|]. by simplify_eq.
Qed.

Lemma segment_ack_ok wr t ring U N M k sg now b :
  tx_ok wr t ring U N M → state t ≠ SynSent → state t ≠ Closed → in_u 32 (tcp_ack sg) → Forall (block_ok (iss t + 1) M) (tcp_sack sg) →
  0 ≤ now ≤ NOW_MAX → sane b t → counted b k → b < 2 ^ 31 →
  ∃ t' k' out U' N', segment_ack t k sg now = Some (t', k', out) ∧ tx_ok wr t' ring U' N' M ∧ same_rx t t' ∧ moves (state t) (state t') ∧
    sane (b + 1) t' ∧ counted (b + 4) k' ∧ kept t' = kept t ∧ (out = None → synced (state t')) ∧
    (eof_ok t → eof_ok t') ∧ (∀ o, out = Some o → o_deliver o = None).
Proof.
  intros Htx Hns Hnc Hack Hsk Hnow Hs Hk Hb. pose proof Htx as [Hc Hpre Hsyn Hsync Hnl]. pose proof (core_bounds _ _ _ _ _ _ Hc) as Hbd.
  pose proof (tk_una _ _ _ _ _ _ Hc) as Hu. pose proof (tk_max _ _ _ _ _ _ Hc) as Hm. unfold LIMIT in Hbd.
  unfold segment_ack, in_state. case_bool_decide as Est.
  - assert (presync (state t)) as Hp by (by right). destruct (Hpre Hp) as (-> & -> & Hfs).
    assert (M ≤ 0) as HM0 by (pose proof (tk_sent _ _ _ _ _ _ Hc) as Hsent; rewrite Hfs in Hsent; cbn in Hsent; lia).
    rewrite Hu, Hm. destruct (seq_lt _ _ && seq_le _ _) eqn:E; cbn [negb].
    2:{ exists t, k, (Some (reset_if true)), (-1), N. split; [done|]. split_and!; try done; [|eapply counted_mono; [done|lia]|by intros o [= <-]].
        eapply (sane_frame b (b + 1) t); first [done|lia|by left]. }
    breflect. destruct (between (iss t + 1) (-1) M (tcp_ack sg) Hack) as (A & EA & HA); [lia|done|done|]. assert (A = 0) as -> by lia.
    set (t1 := set_snd_wnd _ t). rewrite EA. change (sq (iss t + 1) 0) with (at_ t1 0).
    destruct (acknowledge_ok [] t1 ring (-1) N M 0 now k b) as (t2 & k2 & N2 & E2 & Hc2 & Hrx2 & Hst2 & Hk2 & Hs2); try done; try lia.
    { by eapply tx_core_frame; [|exact Hc]. }
    { eapply (sane_frame b b t); first [done|lia|by left]. }
    rewrite E2. cbn [mbind option_bind]. destruct (established_ok [] t2 ring N2 M k2 (b + 3) (b + 1)) as (t3 & k3 & E3 & Htx3 & Hrx3 & Hm3 & Hsy3 & Hs3 & Hk3 & Heof3); try done; try lia.
    { by rewrite Hst2. }
    { eapply (sane_frame b (b + 1) t2); first [done|lia|by left]. }
    rewrite E3. cbn [mbind option_bind]. eexists t3, k3, None, 0, N2. split; [done|]. split_and!; try done.
    + transitivity t2; [exact Hrx2|done].
    + by rewrite Hst2 in Hm3.
    + eapply counted_mono; [done|lia].
    + apply established_kept in E3. apply acknowledge_kept in E2. rewrite E3, E2. done.
  - assert (¬ presync (state t)) as Hp by (intros [?|?]; done). specialize (Hsync Hp Hnc).
    rewrite Hm. destruct (seq_lt (at_ t M) (tcp_ack sg)) eqn:Elt.
    { exists (set_ack_now true t), k, (Some no_outcome), U, N. split; [done|]. split_and!; try done.
      - by eapply tx_ok_frame; [| |exact Htx]; [|left].
      - eapply (sane_frame b (b + 1) t); first [done|lia|by left].
      - eapply counted_mono; [done|lia].
      - by intros o [= <-]. }
    set (m := if seq_lt (snd_una t) (tcp_ack sg) then _ else _).
    assert (∃ t1 k1 U1 N1, m = Some (t1, k1) ∧ tx_ok wr t1 ring U1 N1 M ∧ same_rx t t1 ∧ state t1 = state t ∧ sane (b + 1) t1 ∧ counted (b + 4) k1 ∧ kept t1 = kept t)
      as (t1 & k1 & U1 & N1 & -> & Htx1 & Hrx1 & Hst1 & Hs1 & Hk1 & Hkp1).
    { unfold m. clear m. rewrite Hu. destruct (seq_lt (at_ t U) (tcp_ack sg)) eqn:Eu.
      - destruct (not_past (iss t + 1) U M (tcp_ack sg) Hack) as (A & EA & HA); [lia|done|done|]. rewrite EA. change (sq (iss t + 1) A) with (at_ t A).
        destruct (acknowledge_ok wr t ring U N M A now k b Hc) as (t1 & k1 & N1 & E1 & Hc1 & Hrx1 & Hst1 & Hk1 & Hs1); try done; try lia.
        apply acknowledge_kept in E1 as Hkp. exists t1, k1, A, N1. split; [done|]. split_and!; try done.
        + eapply tx_ok_core; [exact Htx|done|done|by destruct (kept_inv _ _ Hkp) as (_ & ? & _)|done|lia].
        + eapply (sane_frame b (b + 1) t1); first [done|lia|by left].
        + eapply counted_mono; [done|lia].
      - destruct (_ && _).
        + destruct (duplicate_ack_ok wr t ring U N M k sg b Hc Hsk Hs Hk Hb) as (t1 & k1 & N1 & E1 & Hc1 & Hrx1 & Hst1 & Hs1 & Hk1 & Hf1).
          apply duplicate_ack_kept in E1 as Hkp. exists t1, k1, U, N1. split; [done|]. split_and!; try done; [eapply tx_ok_core; [exact Htx|done..|lia]|eapply counted_mono; [done|lia]].
        + exists t, k, U, N. split; [done|]. split_and!; try done; [|eapply counted_mono; [done|lia]].
          eapply (sane_frame b (b + 1) t); first [done|lia|by left]. }
    cbn [mbind option_bind]. eexists _, k1, None, U1, N1. split; [done|]. split_and!.
    + eapply tx_ok_frame; [| |exact Htx1]; [by destruct (seq_le _ _)|left; by destruct (seq_le _ _)].
    + transitivity t1; [done|]. by destruct (seq_le _ _).
    + destruct (seq_le _ _); cbn; rewrite Hst1; apply moves_refl.
    + destruct (seq_le _ _); [eapply (sane_frame (b + 1) (b + 1) t1); first [done|lia|by left]|done].
    + done.
    + rewrite <-Hkp1. by destruct (seq_le _ _).
    + intros _. assert (synced (state t)) as Hsy by (unfold presync in Hp; unfold synced; naive_solver). rewrite <-Hst1 in Hsy. by destruct (seq_le _ _).
    + intros He. apply kept_inv in Hkp1 as (_ & _ & _ & K4 & K5). destruct Hrx1 as (_ & _ & _ & Hpf).
      eapply (eof_ok_frame t); [exact He|..]; by destruct (seq_le _ _).
    + done.
Qed.

Lemma segment_fin_acked_ok t now t' stop :
  segment_fin_acked t now = (t', stop) → tx_view t' = tx_view t ∧ same_rx t t' ∧ moves (state t) (state t') ∧ (∀ b, sane b t → sane b t') ∧
    (synced (state t) → synced (state t')) ∧ kept t' = kept t ∧ (eof_ok t → eof_ok t').
Proof.
  unfold segment_fin_acked, in_state.
  assert (∀ s, edge (state t) s → synced s → (eof_ok t → eof_ok (enter t s)) → tx_view (enter t s) = tx_view t ∧ same_rx t (enter t s) ∧ moves (state t) (state (enter t s)) ∧
    (∀ b, sane b t → sane b (enter t s)) ∧ (synced (state t) → synced (state (enter t s))) ∧ kept (enter t s) = kept t ∧ (eof_ok t → eof_ok (enter t s))) as He.
  { intros s Hs Hy Heo. destruct (enter_view t s) as (H1 & H2 & H3). rewrite H3. split_and!; try done; [by apply moves_once|intros b; apply enter_sane|apply enter_kept]. }
  assert (∀ s, state t = Closing ∨ state t = LastAck → eof_ok t → eof_ok (enter t s)) as Heof.
  { intros s Hs H. apply eof_ok_fin. destruct (enter_view t s) as (_ & (_ & _ & _ & ->) & _). unfold eof_ok in H. by destruct Hs as [Es|Es]; rewrite Es in H. }
  destruct (bool_decide (state t = FinWait1) && _) eqn:E1; [breflect|destruct (bool_decide (state t = Closing) && _) eqn:E2; [breflect|
    destruct (bool_decide (state t = LastAck) && _) eqn:E3; [breflect|]]]; intros [= <- <-].
  - apply He; [rewrite H; constructor|by unfold synced|]. unfold eof_ok. by rewrite (proj2 (proj2 (enter_view t FinWait2))).
  - destruct (He TimeWait) as (H1 & H2 & H3 & H4 & H5 & H6 & H7); [rewrite H; constructor|by unfold synced|auto|].
    split_and!; [exact H1|exact H2|exact H3| |exact H5|exact H6|exact H7]. intros b Hs.
    eapply (sane_frame b b (enter t TimeWait)); first [done|lia|by left|by apply H4].
  - apply He; [constructor|by unfold synced|auto].
  - by split_and!.
Qed.

(** ** Leaving for CLOSED *)

Lemma tx_ok_closed wr t t' ring U N M : tx_view t' = tx_view t → state t' = Closed → tx_ok wr t ring U N M → tx_ok wr t' ring U N M.
Proof. intros E Hs []. split; [by eapply tx_core_frame|..]; rewrite Hs; unfold presync; naive_solver. Qed.

Lemma abort_ok wr t ring U N M :
  tx_ok wr t ring U N M → let t' := tcb_abort t in tx_ok wr t' ring U N M ∧ same_rx t t' ∧ moves (state t) (state t') ∧ (∀ b, sane b t → sane b t') ∧ eof_ok t' ∧
    state t' = Closed ∧ released t' = true ∧ iss t' = iss t ∧ fin_seq t' = fin_seq t.
Proof.
  intros Htx. cbv zeta. unfold tcb_abort. set (t1 := set_released true _). destruct (enter_view t1 Closed) as (Hv & Hrx & Hst). pose proof (enter_kept t1 Closed) as (K1 & K2 & _ & _ & K5)%kept_inv.
  split_and!; [eapply tx_ok_closed; [exact Hv|done|by eapply tx_ok_frame; [| |exact Htx]; [|left]]|done|rewrite Hst; apply moves_once; constructor| | |done|by rewrite K5|done|done].
  - intros b Hs. apply enter_sane. eapply (sane_frame b b t); first [done|lia|by left].
  - unfold eof_ok. rewrite Hst. right; right. by rewrite K5.
Qed.

Lemma tx_ok_fin_queued wr t ring U N M : tx_ok wr t ring U N M → tx_ok wr (set_fin_queued true t) ring U N M.
Proof.
  intros [[] ? ? ? ?]. split; [|done..]. split; try done. cbn. intros f Hf. by destruct (tk_fin0 f Hf) as (? & _ & ?).
Qed.

Lemma shutdown_ok wr t ring U N M :
  tx_ok wr t ring U N M → let t' := tcb_shutdown t in
  tx_ok wr t' ring U N M ∧ same_rx t t' ∧ moves (state t) (state t') ∧ (∀ b, sane b t → sane b t') ∧ (eof_ok t → eof_ok t') ∧
    (state t = SynSent → state t' = SynSent) ∧ fin_seq t' = fin_seq t ∧ iss t' = iss t ∧ released t' = released t.
Proof.
  intros Htx. cbv zeta. pose proof (tx_ok_fin_queued _ _ _ _ _ _ Htx) as Htx1. unfold tcb_shutdown. set (t1 := set_fin_queued true t) in *.
  assert (∀ b, sane b t → sane b t1) as Hs1 by (intros b Hs; eapply (sane_frame b b t); first [done|lia|by left]).
  assert (∀ s, edge (state t) s → ¬ presync (state t) → (eof_ok t → eof_ok (enter t1 s)) → state t ≠ SynSent →
    tx_ok wr (enter t1 s) ring U N M ∧ same_rx t (enter t1 s) ∧ moves (state t) (state (enter t1 s)) ∧ (∀ b, sane b t → sane b (enter t1 s)) ∧
    (eof_ok t → eof_ok (enter t1 s)) ∧ (state t = SynSent → state (enter t1 s) = SynSent) ∧ fin_seq (enter t1 s) = fin_seq t ∧ iss (enter t1 s) = iss t ∧
    released (enter t1 s) = released t) as Henter.
  { intros s He Hp Heof Hss. destruct (enter_view t1 s) as (Hv & Hrx & Hst). pose proof (enter_kept t1 s) as (Hk1 & Hk2 & _ & _ & Hk3)%kept_inv. rewrite Hst.
    split_and!; try done; [|by apply moves_once|intros b Hs; apply enter_sane; auto].
    eapply tx_ok_frame; [exact Hv| |exact Htx1]. right. split; [done|]. rewrite Hst. by apply moves_once. }
  destruct (state t) eqn:Es.
  2:{ by destruct (tx_not_listen _ _ _ _ _ _ Htx). }
  4: apply Henter; [apply edge_est_fw1|by intros [?|?]|by unfold eof_ok; cbn|done].
  6: apply Henter; [apply edge_cw_la|by intros [?|?]|by unfold eof_ok; cbn; rewrite Es|done].
  all: split_and!; try done; try (unfold eof_ok; cbn; rewrite Es; done); rewrite ?Es; try apply moves_refl; cbn; rewrite Es; apply moves_refl.
Qed.


(** ** The program writes *)

Lemma ring_write_mod ring x data : ring_write ring (x mod RING) data = ring_write ring x data.
Proof. unfold ring_write. by rewrite Z.mod_mod by (rewrite RING_eq; lia). Qed.

(** [send] takes a prefix of what it is given, and that many bytes follow what was written before. *)
Lemma send_ok wr t ring U N M data :
  tx_ok wr t ring U N M → Z.of_nat (length wr + length data) ≤ LIMIT →
  ∃ t' b r, tcb_send t (Some ring) data = Some (t', b, r) ∧ same_rx t t' ∧ state t' = state t ∧ kept t' = kept t ∧ (∀ c, sane c t → sane c t') ∧
    match r with
    | Err _ => t' = t ∧ b = None
    | Ok n => 0 ≤ n ≤ Z.of_nat (length data) ∧ (0 < n → fin_seq t = None) ∧ tx_ok (wr ++ take (Z.to_nat n) data) t' (default ring b) U N M
    end.
Proof.
  intros Htx HL. pose proof Htx as [Hc Hpre Hsyn Hsync Hnl]. pose proof Hc as []. unfold tcb_send. destruct (error t); [eexists _, _, _; split; [done|]; by split_and!|].
  destruct (_ && negb (fin_queued t)) eqn:Eo.
  2:{ destruct ((in_state t SynSent || _) && _); (eexists _, _, _; split; [done|]; by split_and!). }
  breflect. assert (fin_seq t = None) as Hnf.
  { destruct (fin_seq t) eqn:Ef; [|done]. destruct (tk_fin0 _ eq_refl) as (_ & ? & _). congruence. }
  assert (¬ presync (state t) ∧ state t ≠ Closed) as [Hp Hcl].
  { unfold in_state, presync in *. destruct (state t); try done; naive_solver. }
  specialize (Hsync Hp Hcl). rewrite Hnf, Z.add_0_r in tk_sent0. assert (∀ w, Z.of_nat (length wr) ≤ w → done_of U w = U) as Hdone by (unfold done_of; lia).
  rewrite (Hdone (Z.of_nat (length wr))) in * by lia. pose proof RING_eq as HRING. unfold Ring_free. destruct tk_buf0 as [bu Hbu]. rewrite Hbu. unfold checked_sub.
  rewrite (proj2 (Z.leb_le _ _)) by lia. cbn [mbind option_bind]. set (n := Z.min _ _). destruct (Z.eqb_spec n 0) as [Hn0|Hn0].
  { destruct (_ =? 0)%nat; eexists _, _, _; (split; [done|]); split_and!; try done; try lia. by rewrite app_nil_r. }
  rewrite !usize_add_ok by lia. cbn [mbind option_bind].
  rewrite <-ring_write_mod. set (d := take (Z.to_nat n) data).
  assert (Z.of_nat (length d) = n) as Hd by (unfold d; rewrite length_take; lia).
  assert ((head (tx t) + rlen (tx t)) mod RING = place (head (tx t)) U (Z.of_nat (length wr))) as -> by (unfold place; by rewrite tk_len0).
  destruct (write_present ring (head (tx t)) U (wr ++ d) (Z.of_nat (length wr)) d) as (ring' & -> & Hl' & Hold & Hnew); [done|lia|lia| |].
  { intros i Hi. rewrite lookup_app_r by lia. f_equal. lia. }
  cbn [mbind option_bind].
  eexists _, _, _. split; [done|]. split_and!; try done; try lia.
  { intros c Hs. eapply (sane_frame c c t); first [done|lia|by left]. }
  fold d. change (default ring (Some ring')) with ring'. split; [|cbn; intros H1; by destruct (Hp H1)|done|done|done].
  split; cbn [set_tx tx buf head rlen tx_seq iss snd_una snd_nxt snd_max fin_seq fin_queued sacked]; rewrite ?length_app, ?Nat2Z.inj_add, ?Hd, ?(Hdone (Z.of_nat (length wr) + n)) by lia; try done; try lia.
  - intros j Hj. destruct (decide (j < Z.of_nat (length wr))); [apply Hold; [lia|]; apply present_app, tk_data0; lia|apply Hnew; lia].
  - rewrite Hnf. lia.
  - congruence.
Qed.

(** ** Timers *)

Lemma timers_ok wr t ring U N M k now b :
  tx_ok wr t ring U N M → 0 ≤ now ≤ NOW_MAX → sane b t → counted b k → b < 2 ^ 31 → eof_ok t →
  ∃ t' k' N', tcb_timers t k now = Some (t', k') ∧ tx_ok wr t' ring U N' M ∧ same_rx t t' ∧ moves (state t) (state t') ∧ sane (b + 1) t' ∧ counted (b + 1) k' ∧
    eof_ok t' ∧ iss t' = iss t ∧ fin_seq t' = fin_seq t ∧ released t' = released t ∧
    (state t = SynSent → state t' = SynSent ∨ state t' = Closed).
Proof.
  intros Htx Hnow Hs Hk Hb Heof. unfold tcb_timers. set (t1 := if _ : bool then _ else t).
  assert (tx_ok wr t1 ring U N M ∧ same_rx t t1 ∧ moves (state t) (state t1) ∧ sane b t1 ∧ eof_ok t1 ∧ iss t1 = iss t ∧ fin_seq t1 = fin_seq t ∧ released t1 = released t ∧ (state t = SynSent → state t1 = SynSent))
    as (Htx1 & Hrx1 & Hm1 & Hs1 & He1 & Hi1 & Hf1 & Hr1 & Hss1).
  { unfold t1. destruct (_ && _) eqn:E; [|by split_and!]. breflect. unfold in_state in *. breflect.
    destruct (enter_view t Closed) as (Hv & Hrx & Hst). pose proof (enter_kept t Closed) as (? & ? & _ & _ & ?)%kept_inv. split_and!; try done.
    - by eapply tx_ok_closed.
    - rewrite Hst. apply moves_once. constructor.
    - by apply enter_sane.
    - apply eof_ok_fin. unfold eof_ok in Heof. rewrite H in Heof. destruct Hrx as (_ & _ & _ & ->). done.
    - congruence. }
  clearbody t1. pose proof Htx1 as [Hc Hpre Hsyn Hsync Hnl]. pose proof (core_bounds _ _ _ _ _ _ Hc) as Hbd.
  assert (counted (b + 1) k) as Hk1 by (eapply counted_mono; [done|lia]). assert (sane (b + 1) t1) as Hs1' by (eapply (sane_frame b (b + 1) t1); first [done|lia|by left]).
  destruct (deadline t1) as [d|]; [|exists t1, k, N; split_and!; try done; auto].
  destruct (now <? d); [exists t1, k, N; split_and!; try done; auto|].
  destruct (snd_una t1 =? snd_max t1).
  { eexists _, k, N. split; [done|]. split_and!; try done; [by eapply tx_ok_frame; [| |exact Htx1]; [|left]| |auto].
    eapply (sane_frame b (b + 1) t1); first [done|lia|by left]. }
  pose proof Hs1 as []. unfold checked_add. rewrite (proj2 (Z.leb_le _ _)) by (unfold u_max; lia). cbn [mbind option_bind]. set (t2 := set_retries _ t1).
  assert (sane (b + 1) t2) as Hs2 by (split; cbn; try done; lia). destruct (RETRIES <? _).
  - destruct (bump_counted b timeouts k Hk ltac:(lia)) as (k1 & -> & Hk1'). cbn [mbind option_bind]. set (t3 := set_rst_now _ _).
    destruct (enter_view t3 Closed) as (Hv & Hrx & Hst). pose proof (enter_kept t3 Closed) as (E1 & E2 & _ & E3 & E4)%kept_inv.
    eexists _, k1, N. split; [done|]. split_and!.
    + by eapply tx_ok_closed; [exact Hv|done|]; eapply tx_ok_frame; [| |exact Htx1]; [|left].
    + transitivity t1; [done|exact Hrx].
    + rewrite Hst. apply moves_once. constructor.
    + apply enter_sane. eapply (sane_frame (b + 1) (b + 1) t2); first [done|lia|by left].
    + done.
    + unfold eof_ok. rewrite Hst, E3. right; left. done.
    + by rewrite E1.
    + by rewrite E2.
    + by rewrite E4.
    + auto.
  - destruct (bump_counted b retransmit_timeouts k Hk ltac:(lia)) as (k1 & -> & Hk1'). cbn [mbind option_bind]. eexists _, k1, U. split; [done|]. split_and!; try done; [| |auto].
    + eapply tx_ok_core; [exact Htx1| |done|done|done|lia]. eapply (tx_core_frame wr (set_snd_nxt (at_ t1 U) (set_sacked (replicate SACK_BLOCKS None) t1))).
      * unfold tx_view. cbn. by rewrite (tk_una _ _ _ _ _ _ Hc).
      * eapply (core_nxt wr (set_sacked _ t1)); [|lia]. apply core_sacked; [exact Hc|apply no_blocks].
    + split; cbn; try done; lia.
Qed.

End TcpSend.
