(* ===== verification/NetTcpEmit.v ===== *)
(** * TCP: the segments a connection sends

    Every segment that leaves carries bytes its program wrote, at their sequence number; a FIN
    comes after all of them; the selective acknowledgements name bytes the peer sent. *)

From S2P Require Import Prelude NetWire NetLink NetTcp NetTcpSeq NetTcpRecv NetTcpSend.
Import Wire NetTcp TcpSeq TcpRecv TcpSend.
Local Open Scope Z_scope.

Module TcpEmit.

(** The segment as the peer parses it. *)
Definition on_wire (h : TcpHeader) (payload : Bytes) : Wire.Tcp :=
  {| tcp_src_port := h_src_port h; tcp_dst_port := h_dst_port h; tcp_seq := h_seq h; tcp_ack := h_ack h; tcp_flags := h_flags h;
     tcp_window := h_window h; tcp_mss := h_mss h; tcp_sack_permitted := h_sack_permitted h; tcp_sack := h_sack h; tcp_payload := payload |}.

(** [Stack::send_segment]: the payload is read from the send ring. *)
Definition payload_of (ring : Bytes) (s : Segment) : option Bytes :=
  match sg_data s with None => Some [] | Some (_, at_, n) => ring_read ring at_ n end.

(** What has been sent of [wr], [m] being the first position that has not. *)
Definition sent_of (m : Z) (wr : Bytes) : Bytes := take (Z.to_nat m) wr.

Lemma length_sent_of m wr : -1 ≤ m → Z.of_nat (length (sent_of m wr)) = done_of m (Z.of_nat (length wr)).
Proof. intros. unfold sent_of, done_of. rewrite length_take. lia. Qed.

(** ** Blocks *)

Lemma nearest_runs_ok base Q lo hi m rcv n : ∀ l,
  -1 ≤ lo → runs_ok base Q lo hi l → (∀ j, lo < j → Q j → j < m) → Forall (block_ok base m) (nearest_runs n rcv l).
Proof.
  induction n as [|n IH]; intros l Hlo Hl HQ; cbn [nearest_runs]; [constructor|]. destruct (min_by_key _ l) as [i|]; [|apply no_blocks].
  destruct (l !! i) as [[r|]|] eqn:Hi; try apply no_blocks. constructor.
  - destruct (Forall_lookup_1 _ _ _ _ Hl Hi) as (a & Ea & Ha & Hr & _ & Hq). exists a, (a + r_len r). cbn. split_and!; [done|by apply run_end_sq|lia|lia|].
    specialize (HQ (a + r_len r - 1) ltac:(lia) (Hq (a + r_len r - 1) ltac:(lia))). lia.
  - apply IH; [done| |done]. by apply Forall_insert.
Qed.

(** ** Moving on *)

Lemma core_moved wr t t' ring U N M N' M' :
  tx_core wr t ring U N M →
  (iss t', tx t', tx_seq t', snd_una t', sacked t') = (iss t, tx t, tx_seq t, snd_una t, sacked t) →
  snd_nxt t' = at_ t N' → snd_max t' = at_ t M' → U ≤ N' ≤ M' → M ≤ M' → M' ≤ Z.of_nat (length wr) + (if fin_seq t' then 1 else 0) →
  (∀ f, fin_seq t' = Some f → f = at_ t (Z.of_nat (length wr)) ∧ fin_queued t' = true ∧ M' = Z.of_nat (length wr) + 1) →
  tx_core wr t' ring U N' M'.
Proof.
  intros [] [= E1 E2 E3 E4 E5] En Em Ho Hm Hs Hf. unfold at_ in *. split; unfold at_; rewrite ?E1, ?E2, ?E3, ?E4, ?E5; try done; try lia.
  by eapply block_ok_mono.
Qed.

Lemma advance_ok t n now N M :
  snd_nxt t = at_ t N → snd_max t = at_ t M → -1 ≤ N ≤ M → M ≤ LIMIT + 1 → 0 ≤ n ≤ RING → 0 ≤ now →
  let t' := advance t n now in
  (iss t', tx t', tx_seq t', snd_una t', sacked t') = (iss t, tx t, tx_seq t, snd_una t, sacked t) ∧
  snd_nxt t' = at_ t (N + n) ∧ snd_max t' = at_ t (Z.max M (N + n)) ∧ kept t' = kept t ∧ same_rx t t' ∧ state t' = state t ∧ (∀ b, sane b t → sane b t').
Proof.
  intros En Em HN HM Hn Hnow. cbv zeta. pose proof RING_eq as HRING. unfold LIMIT in HM. unfold advance. rewrite En, Em. rewrite (Z.mod_small n) by lia.
  assert (wrapping_add 32 (at_ t N) n = at_ t (N + n)) as -> by apply wrapping_add_sq. set (t1 := set_snd_nxt _ t).
  change (snd_nxt t1) with (at_ t (N + n)). change (snd_max t1) with (snd_max t). rewrite Em.
  assert (seq_lt (at_ t M) (at_ t (N + n)) = (M <? N + n)) as -> by (apply seq_lt_sq; lia).
  assert (∃ t2, (if M <? N + n then set_snd_max (at_ t (N + n)) t1 else t1) = t2 ∧ t2 = set_snd_max (at_ t (Z.max M (N + n))) t1) as (t2 & -> & ->).
  { eexists. split; [done|]. destruct (Z.ltb_spec M (N + n)).
    - by rewrite Z.max_r by lia.
    - rewrite Z.max_l by lia. unfold t1. rewrite <-Em. by destruct t. }
  set (t2 := set_snd_max _ t1). set (t3 := if _ : bool then set_timing _ t2 else t2).
  assert (∀ b, sane b t → sane b t3) as Hs3.
  { intros b []. unfold t3. destruct (_ && _); split; try done. cbn. by intros ? ? [= <- <-]. }
  assert (tx_view t3 = tx_view t2 ∧ kept t3 = kept t ∧ same_rx t t3 ∧ state t3 = state t) as (Hv & Hk & Hrx & Hst) by (unfold t3; by destruct (_ && _)).
  unfold tx_view in Hv. injection Hv as E1 E2 E3 E4 E5 E6 _ _ E9. clearbody t3.
  destruct (is_none (deadline t3)).
  - cbn. rewrite E1, E2, E3, E4, E5, E6, E9. split_and!; try done. intros b Hs. eapply (sane_frame b b t3); first [done|lia|by left|by apply Hs3].
  - rewrite E1, E2, E3, E4, E5, E6, E9. split_and!; done.
Qed.

(** A segment without a payload, at position [a]. *)
Lemma plain_ok base src ended h a :
  h_seq h = sq base a → in_u 32 (h_ack h) → -1 ≤ a ≤ Z.of_nat (length src) + 1 → (Z.land (h_flags h) TCP_SYN ≠ 0 → a = -1) →
  (Z.land (h_flags h) TCP_FIN ≠ 0 → a = Z.of_nat (length src) ∧ ended = true) → seg_ok base src ended (on_wire h []) a.
Proof.
  intros Hs Ha Hr Hsyn Hfin. split; try done; unfold flag; cbn [tcp_flags on_wire]; intros H%negb_true_iff%Z.eqb_neq; auto.
Qed.

Lemma sent_range m n wr f : -1 ≤ n ≤ m → m ≤ Z.of_nat (length wr) + (if f : option Z then 1 else 0) → -1 ≤ n ≤ Z.of_nat (length (sent_of m wr)) + 1.
Proof. intros Hn Hm. rewrite length_sent_of by lia. unfold done_of. destruct f; lia. Qed.


(** ** What is sent *)

Definition ended (t : Tcb) : bool := negb (is_none (fin_seq t)).

Record emitted (wr : Bytes) (t t' : Tcb) (ring : Bytes) (U N' M M' : Z) : Prop := {
  em_tx : tx_ok wr t' ring U N' M';
  em_max : M ≤ M';
  em_rx : same_rx t t';
  em_state : state t' = state t;
  em_iss : iss t' = iss t;
  em_error : error t' = error t;
  em_released : released t' = released t;
  em_ended : ended t = true → ended t' = true;
  em_sane : ∀ b, sane b t → sane b t' }.

Definition seg_sent (wr : Bytes) (t' : Tcb) (ring : Bytes) (M' : Z) (sack : list (option (Z * Z))) (s : Segment) : Prop :=
  ∃ p a, payload_of ring s = Some p ∧ seg_ok (iss t' + 1) (sent_of M' wr) (ended t') (on_wire (sg_header s) p) a ∧ h_sack (sg_header s) = sack.

(** Nothing of the stream is sent. *)
Lemma emitted_frame wr t t' ring U N M :
  tx_ok wr t ring U N M → tx_view t' = tx_view t → same_rx t t' → state t' = state t → kept t' = kept t → (∀ b, sane b t → sane b t') →
  emitted wr t t' ring U N M M.
Proof.
  intros Htx Hv Hrx Hst (E1 & E2 & _ & E3 & E4)%kept_inv Hs. split; try done; [by eapply tx_ok_frame; [| |exact Htx]; [|left]|].
  unfold ended. by rewrite E2.
Qed.

Lemma tx_ok_moved wr t t' ring U N M N' M' :
  tx_ok wr t ring U N M → tx_core wr t' ring U N' M' → state t' = state t → (presync (state t) → fin_seq t' = None ∧ M' = 0) → tx_ok wr t' ring U N' M'.
Proof.
  intros [] Hc Hs Hp. split; [done|..]; rewrite ?Hs; try done.
  - intros H. destruct (tx_presync0 H) as (? & ? & _), (Hp H). done.
  - intros H. by destruct (Hp ltac:(by left)).
Qed.

(** The acknowledgement, at the next position. *)
Lemma ack_sent wr t t' ring U N M h sack :
  tx_core wr t ring U N M → tx_view t' = tx_view t → h_seq h = snd_nxt t → in_u 32 (h_ack h) → h_sack h = sack →
  Z.land (h_flags h) TCP_SYN = 0 → Z.land (h_flags h) TCP_FIN = 0 →
  ∀ ip, seg_sent wr t' ring M sack {| sg_remote_ip := ip; sg_header := h; sg_data := None |}.
Proof.
  intros Hc Hv Hseq Hack Hsack Hsyn Hfin ip. exists [], N. split_and!; try done. pose proof (tx_core_frame _ _ _ _ _ _ _ Hv Hc) as [].
  apply plain_ok; try done.
  - cbn. rewrite Hseq. unfold tx_view in Hv. injection Hv as E1 _ _ _ E5 _ _ _ _. rewrite <-E5. done.
  - by eapply (sent_range M N wr (fin_seq t')); [lia|].
Qed.

Lemma send_rest_ok wr t ring U N M h now sack :
  tx_ok wr t ring U N M → 0 ≤ now → h_seq h = snd_nxt t → in_u 32 (h_ack h) → h_sack h = sack → h_flags h = TCP_ACK →
  ∃ t' s N' M', send_rest t h now = (t', s) ∧ emitted wr t t' ring U N' M M' ∧ ∀ s', s = Some s' → seg_sent wr t' ring M' sack s'.
Proof.
  intros Htx Hnow Hseq Hack Hsack Hfl. pose proof Htx as [Hc Hpre Hsyn Hsync Hnl]. pose proof (core_bounds _ _ _ _ _ _ Hc) as Hbd. pose proof Hc as [].
  set (w := Z.of_nat (length wr)) in *. pose proof RING_eq as HRING. unfold LIMIT in *. unfold send_rest.
  assert (wrapping_add 32 (tx_seq t) (rlen (tx t) mod 2 ^ 32) = at_ t w) as ->.
  { rewrite tk_seq0, tk_len0, Z.mod_small by (unfold done_of; lia). unfold at_. rewrite wrapping_add_sq. f_equal. lia. }
  rewrite tk_nxt0. assert ((at_ t N =? at_ t w) = (N =? w)) as -> by (apply sq_eqb; lia). destruct (_ && _ && _ && _) eqn:Ef.
  - breflect. subst N.
    assert (¬ presync (state t)) as Hp by (unfold sending, presync in *; destruct (state t); try done; naive_solver).
    set (t1 := set_fin_seq _ _).
    destruct (advance_ok t1 1 now w M) as (E1 & E2 & E3 & E4 & E5 & E6 & E7); [done|done|lia|unfold LIMIT; lia|lia|done|].
    set (t2 := advance t1 1 now) in *. apply kept_inv in E4 as (K1 & K2 & K3 & K4 & K5).
    assert (tx_core wr t2 ring U (w + 1) (Z.max M (w + 1))) as Hc2.
    { eapply core_moved; [exact Hc|exact E1|done|done|lia|lia|rewrite K2; cbn; lia|]. intros f. rewrite K2. cbn. intros [= <-]. split_and!; [done|by rewrite K3|lia]. }
    exists t2, (Some {| sg_remote_ip := remote_ip t; sg_header := flags_of h (Z.lor TCP_FIN TCP_ACK); sg_data := None |}), (w + 1), (Z.max M (w + 1)).
    split; [done|]. assert (ended t2 = true) as He by (unfold ended; by rewrite K2). split.
    + split; [by eapply tx_ok_moved; [exact Htx|done|exact E6|]|lia|done|done|done|done|done|done|].
      intros b Hs. apply E7. eapply (sane_frame b b t); first [done|lia|by left].
    + intros s' [= <-]. exists [], w. split_and!; try done. apply plain_ok; try done.
      * cbn. by rewrite Hseq, tk_nxt0, K1.
      * rewrite length_sent_of by lia. unfold done_of. fold w. lia.
      * intros _. split; [|done]. rewrite length_sent_of by lia. unfold done_of. fold w. lia.
  - destruct (ack_now t); eexists _, _, N, M; (split; [done|]; split; [apply emitted_frame; try done|]).
    + intros b Hs. eapply (sane_frame b b t); first [done|lia|by left].
    + intros s' [= <-]. by apply (ack_sent wr t _ ring U N M); rewrite ?Hfl.
    + done.
Qed.

Lemma send_syn_ok wr t ring U N M h now sack :
  tx_ok wr t ring U N M → presync (state t) → 0 ≤ now → in_u 32 (h_ack h) → h_sack h = sack →
  ∃ t' s N' M', send_syn t h now = (t', s) ∧ emitted wr t t' ring U N' M M' ∧ ∀ s', s = Some s' → seg_sent wr t' ring M' sack s'.
Proof.
  intros Htx Hp Hnow Hack Hsack. pose proof Htx as [Hc Hpre Hsyn Hsync Hnl]. pose proof (core_bounds _ _ _ _ _ _ Hc) as Hbd. pose proof Hc as [].
  destruct (Hpre Hp) as (-> & -> & Hf). rewrite Hf in tk_sent0. cbn [length] in *. unfold send_syn. set (t1 := set_ack_now false t).
  assert (∀ b, sane b t → sane b t1) as Hs1 by (intros b Hs; eapply (sane_frame b b t); first [done|lia|by left]).
  change (snd_nxt t1) with (snd_nxt t). change (iss t1) with (iss t). rewrite tk_nxt0, (at_eqb _ _ _ _ _ _ N Hc) by (unfold LIMIT in *; lia).
  destruct (Z.eqb_spec N (-1)) as [->|Hne]; cbn [negb].
  - destruct (if in_state t1 SynSent then _ else _) as [fl a] eqn:Efa.
    assert (in_u 32 a ∧ Z.land fl TCP_FIN = 0) as [Ha Hff].
    { destruct (in_state t1 SynSent); injection Efa as <- <-; (split; [|done]); [unfold in_u, u_max; lia|done]. }
    pose proof RING_eq as HRING. destruct (advance_ok t1 1 now (-1) M) as (E1 & E2 & E3 & E4 & E5 & E6 & E7); [done|done|lia|lia|lia|done|].
    set (t2 := advance t1 1 now) in *. apply kept_inv in E4 as (K1 & K2 & K3 & K4 & K5). replace (-1 + 1) with 0 in * by lia. replace (Z.max M 0) with 0 in * by lia.
    assert (fin_seq t2 = None) as Hf2 by (rewrite K2; exact Hf).
    eexists t2, _, 0, 0. split; [done|]. split.
    + split; [|lia|done|done|done|done|done|unfold ended; by rewrite Hf|auto].
      eapply tx_ok_moved; [exact Htx| |exact E6|done]. eapply core_moved; [exact Hc|exact E1|done|done|lia|lia|rewrite Hf2; cbn; lia|by rewrite Hf2].
    + intros s' [= <-]. exists [], (-1). split_and!; try done. apply plain_ok; [|done|cbn; lia|done|cbn; by rewrite Hff].
      cbn. rewrite K1. cbn. symmetry. by apply iss_at.
  - eexists t1, None, N, M. split; [done|]. split; [|done]. by apply emitted_frame.
Qed.


Lemma send_data_ok wr t ring U N M k b h n now sack :
  let w := Z.of_nat (length wr) in
  tx_ok wr t ring U N M → sending t = true → 0 < n ≤ w - N → 0 ≤ now → h_seq h = snd_nxt t → in_u 32 (h_ack h) → h_sack h = sack →
  counted b k → b < 2 ^ 60 →
  ∃ t' k' s N' M', send_data t k h (N - done_of U w) n now = Some (t', k', s) ∧ emitted wr t t' ring U N' M M' ∧ seg_sent wr t' ring M' sack s ∧ counted (b + 2) k'.
Proof.
  intros w Htx Hsend Hn Hnow Hseq Hack Hsack Hk Hb. pose proof Htx as [Hc Hpre Hsyn Hsync Hnl]. pose proof (core_bounds _ _ _ _ _ _ Hc) as Hbd. pose proof Hc as [].
  fold w in tk_limit0, tk_seq0, tk_len0, tk_data0, tk_sent0, tk_fin0. pose proof RING_eq as HRING.
  assert (¬ presync (state t)) as Hp by (unfold sending, presync in *; destruct (state t); try done; naive_solver).
  assert (0 ≤ U) as HU by (apply Hsync; [done|unfold sending in Hsend; by destruct (state t)]).
  assert (done_of U w = U) as Hd by (unfold done_of; lia). rewrite Hd in *. unfold send_data. set (resending := seq_lt (snd_nxt t) (snd_max t)). clearbody resending.
  set (t0 := set_ack_now false _). set (m := if resending then _ else Some (t0, k)).
  assert (∃ t1 k1, m = Some (t1, k1) ∧ counted (b + 1) k1 ∧ tx_view t1 = tx_view t ∧ same_rx t t1 ∧ state t1 = state t ∧ kept t1 = kept t ∧ remote_ip t1 = remote_ip t ∧
    (∀ b, sane b t → sane b t1)) as (t1 & k1 & -> & Hk1 & Hv1 & Hrx1 & Hst1 & Hkp1 & Hip1 & Hs1).
  { unfold m. destruct resending.
    - destruct (bump_counted b data_retransmits k Hk ltac:(lia)) as (k1 & -> & Hk1). cbn [mbind option_bind]. eexists _, k1. split_and!; try done.
      intros b' Hs. eapply (sane_frame b' b' t); first [done|lia|by right].
    - eexists _, k. split_and!; try done; [eapply counted_mono; [done|lia]|]. intros b' Hs. eapply (sane_frame b' b' t); first [done|lia|by left]. }
  cbn [mbind option_bind]. unfold tx_view in Hv1. injection Hv1 as V1 V2 V3 V4 V5 V6 V7 V8 V9. rewrite V2. rewrite usize_add_ok by lia. cbn [mbind option_bind].
  assert (∀ x, at_ t1 x = at_ t x) as Hat by (intros x; unfold at_; by rewrite V1).
  destruct (advance_ok t1 n now N M) as (E1 & E2 & E3 & E4 & E5 & E6 & E7); [by rewrite Hat, V5|by rewrite Hat, V6|lia|lia|lia|done|].
  set (t2 := advance t1 n now) in *. apply kept_inv in Hkp1 as (K1 & K2 & K3 & K4 & K5). apply kept_inv in E4 as (L1 & L2 & L3 & L4 & L5).
  set (M' := Z.max M (N + n)) in *. rewrite Hat in E2, E3. rewrite V1, V2, V3, V4, V9 in E1.
  assert (M' ≤ w + (if fin_seq t then 1 else 0)) as HM' by (unfold M'; destruct (fin_seq t); lia).
  assert (tx_core wr t2 ring U (N + n) M') as Hc2.
  { eapply core_moved; [exact Hc|done|done|done|unfold M'; lia|unfold M'; lia|by rewrite L2, K2|].
    intros f. rewrite L2, K2. intros Hf. destruct (tk_fin0 f Hf) as (? & ? & ?). split_and!; [done|by rewrite L3, K3|unfold M', w in *; lia]. }
  assert (∀ N' t', tx_core wr t' ring U N' M' → same_rx t2 t' → state t' = state t2 → kept t' = kept t2 → (∀ b, sane b t2 → sane b t') →
    emitted wr t t' ring U N' M M') as Hem.
  { intros N' t' Hc' Hrx' Hst' (Q1 & Q2 & _ & Q4 & Q5)%kept_inv Hs'. split.
    - eapply tx_ok_moved; [exact Htx|done|congruence|done].
    - unfold M'. lia.
    - transitivity t1; [done|]. by transitivity t2.
    - congruence.
    - congruence.
    - congruence.
    - congruence.
    - unfold ended. by rewrite Q2, L2, K2.
    - auto. }
  set (s := {| sg_remote_ip := remote_ip t1; sg_header := _; sg_data := _ |}).
  assert (∀ t', iss t' = iss t → ended t' = ended t → seg_sent wr t' ring M' sack s) as Hseg.
  { intros t' Hi' He'. pose proof (read_present ring (head (tx t)) U wr N n tk_ring0 ltac:(lia) ltac:(lia) ltac:(intros j Hj; apply tk_data0; lia)) as Hr.
    exists (take (Z.to_nat n) (drop (Z.to_nat N) wr)), N. split; [exact Hr|]. split; [|done].
    assert (Z.of_nat (length (take (Z.to_nat n) (drop (Z.to_nat N) wr))) = n) as Hpl by (rewrite length_take, length_drop; lia).
    assert (Z.of_nat (length (sent_of M' wr)) = done_of M' w) as Hsl by (apply length_sent_of; unfold M'; lia).
    split; try done; cbn [on_wire tcp_seq tcp_payload tcp_flags tcp_ack payload_len]; unfold payload_len; cbn [tcp_payload on_wire]; rewrite ?Hpl, ?Hsl.
    - cbn. rewrite Hseq, tk_nxt0, Hi'. done.
    - unfold u_max. lia.
    - unfold done_of, M'. lia.
    - intros _. split_and!; [lia|unfold done_of, M'; lia|done|]. intros i Hi. rewrite lookup_take_lt, lookup_drop by lia. unfold sent_of. rewrite lookup_take_lt by (unfold M'; lia).
      f_equal. lia. }
  assert (iss t2 = iss t ∧ ended t2 = ended t) as [Hi2 He2] by (unfold ended; rewrite L2, K2; split; congruence).
  destruct resending.
  - destruct (first_hole_ok (iss t2 + 1) M' t2 (N + n) (tk_sacked _ _ _ _ _ _ Hc2)) as (z & Ez & Hz); [unfold M'; lia|unfold LIMIT, M', w in *; destruct (fin_seq t); lia|].
    change (sq (iss t2 + 1) (N + n)) with (at_ t2 (N + n)) in Ez. rewrite <-(tk_nxt _ _ _ _ _ _ Hc2) in Ez. rewrite Ez. destruct (negb _).
    + destruct (bump_counted (b + 1) sack_retransmits k1 Hk1 ltac:(lia)) as (k2 & -> & Hk2). cbn [mbind option_bind].
      eexists _, k2, _, z, M'. split; [done|]. split; [|split; [by apply Hseg|eapply counted_mono; [done|lia]]].
      apply Hem; try done; [eapply (core_nxt wr t2 ring U (N + n) M' z Hc2); lia|]. intros b' Hs. eapply (sane_frame b' b' t2); first [done|lia|by left].
    + eexists _, k1, _, (N + n), M'. split; [done|]. split; [by apply Hem|split; [by apply Hseg|eapply counted_mono; [done|lia]]].
  - eexists _, k1, _, (N + n), M'. split; [done|]. split; [by apply Hem|split; [by apply Hseg|eapply counted_mono; [done|lia]]].
Qed.

Lemma send_now_le t unsent : send_now t unsent ≤ Z.max unsent 0.
Proof.
  unfold send_now. set (n := if _ && _ && _ then 0 else _). assert (n ≤ Z.max unsent 0) by (unfold n; destruct (_ && _ && _); lia).
  destruct (seq_lt _ _); [destruct (to_next_block _ _)|]; lia.
Qed.

(** [Tcb::segment] always answers, and what it sends is part of the stream. *)
Lemma tcb_segment_ok wr t ring U N M k b now free base m :
  tx_ok wr t ring U N M → rx_free t = Some free → in_u 32 (rcv_nxt t) → Forall (block_ok base m) (nearest_runs SACK_BLOCKS (rcv_nxt t) (ooo t)) →
  0 ≤ now → counted b k → b < 2 ^ 60 →
  ∃ t' k' s N' M', tcb_segment t k now = Some (t', k', s) ∧ emitted wr t t' ring U N' M M' ∧ counted (b + 2) k' ∧
    ∀ s', s = Some s' → ∃ sack, seg_sent wr t' ring M' sack s' ∧ Forall (block_ok base m) sack.
Proof.
  intros Htx Hfree Hrcv Hblk Hnow Hk Hb. pose proof Htx as [Hc Hpre Hsyn Hsync Hnl]. pose proof (core_bounds _ _ _ _ _ _ Hc) as Hbd. pose proof Hc as [].
  unfold tcb_segment. rewrite Hfree. cbn [mbind option_bind]. set (sack := if sack_ok t then _ else _).
  assert (Forall (block_ok base m) sack) as Hsk by (unfold sack; destruct (sack_ok t); [done|apply no_blocks]). clearbody sack.
  set (h := plain_header t _ sack). assert (counted (b + 2) k) as Hk' by (eapply counted_mono; [done|lia]). destruct (rst_now t).
  { destruct (bump_counted b resets_sent k Hk ltac:(lia)) as (k1 & -> & Hk1). cbn [mbind option_bind].
    eexists _, k1, _, N, M. split; [done|]. split; [apply emitted_frame; try done|].
    - intros b' Hs. eapply (sane_frame b' b' t); first [done|lia|by left].
    - split; [eapply counted_mono; [done|lia]|]. intros s' [= <-]. exists sack. split; [|done]. by apply (ack_sent wr t _ ring U N M). }
  assert (∀ t0, tx_view t0 = tx_view t → same_rx t t0 → state t0 = state t → kept t0 = kept t → (∀ b, sane b t → sane b t0) →
    ∃ t' k' s N' M', (let '(t', s) := send_rest t0 h now in Some (t', k, s)) = Some (t', k', s) ∧ emitted wr t t' ring U N' M M' ∧ counted (b + 2) k' ∧
    ∀ s', s = Some s' → ∃ sack, seg_sent wr t' ring M' sack s' ∧ Forall (block_ok base m) sack) as Hrest.
  { intros t0 Hv Hrx Hst (K1 & K2 & _ & K4 & K5)%kept_inv Hs0. pose proof (tx_ok_frame wr t t0 ring U N M Hv (or_introl Hst) Htx) as Htx0.
    destruct (send_rest_ok wr t0 ring U N M h now sack Htx0) as (t' & s & N' & M' & -> & [] & Hs); try done.
    { cbn. unfold tx_view in Hv. congruence. }
    exists t', k, s, N', M'. split; [done|]. split; [|split; [done|by eauto]]. split; try congruence; [by transitivity t0| |auto].
    unfold ended in *. rewrite K2 in em_ended0. done. }
  destruct (state t) eqn:Es.
  1,2: eexists t, k, None, N, M; split; [done|]; split; [by apply emitted_frame|done].
  1,2: destruct (send_syn_ok wr t ring U N M h now sack Htx) as (t' & s & N' & M' & -> & Hem & Hs); try done; [rewrite Es; first [by left|by right]|];
    exists t', k, s, N', M'; split; [done|]; split; [done|split; [done|by eauto]].
  all: destruct (sending t) eqn:Esend; [|by apply Hrest].
  all: assert (0 ≤ U) as HU by (apply Hsync; rewrite ?Es; unfold presync; naive_solver).
  all: set (w := Z.of_nat (length wr)) in *; assert (wrapping_sub 32 (snd_nxt t) (tx_seq t) = N - done_of U w) as ->
    by (rewrite tk_nxt0, tk_seq0; apply wrapping_sub_sq; unfold LIMIT, done_of in *; lia).
  all: destruct (Z.ltb_spec 0 (saturating_sub (rlen (tx t)) (N - done_of U w))) as [Hu|_]; [|by apply Hrest].
  all: pose proof (send_now_le t (saturating_sub (rlen (tx t)) (N - done_of U w))) as Hn; set (n := send_now t _) in *; destruct (Z.ltb_spec 0 n) as [Hn0|_].
  all: try (apply Hrest; destruct (is_none (deadline t)); try done; intros b' Hs; eapply (sane_frame b' b' t); first [done|lia|by left]).
  all: destruct (send_data_ok wr t ring U N M k b h n now sack Htx Esend) as (t' & k' & s & N' & M' & E & Hem & Hs & Hk2); try done;
    [fold w; unfold saturating_sub in *; lia|]; fold w in E; rewrite E; cbn [mbind option_bind];
    exists t', k', (Some s), N', M'; split; [done|]; split; [done|split; [done|]]; intros s' [= <-]; exists sack; done.
Qed.

End TcpEmit.
