(* ===== verification/NetTcpArrive.v ===== *)
(** * TCP: a segment arrives

    Both sides of a connection at once: any segment of the peer's stream leaves a connection
    that holds the peer's bytes and its own in their places, in a state the diagram leads to. *)

From S2P Require Import Prelude NetWire NetLink NetTcp NetTcpSeq NetTcpRecv NetTcpSend.
Import Wire NetTcp TcpSeq TcpRecv TcpSend.
Local Open Scope Z_scope.

Module TcpArrive.

(** A connection that has not heard the peer's SYN. *)
Record rx_none (t : Tcb) (ring : Bytes) : Prop := {
  rn_ring : length ring = FRAME_MAX;
  rn_buf : is_Some (buf (rx t));
  rn_head : 0 ≤ head (rx t) < RING;
  rn_len : rlen (rx t) = 0;
  rn_runs : ooo t = replicate OOO_SEGMENTS None;
  rn_fin : peer_fin t = false;
  rn_rcv : in_u 32 (rcv_nxt t);
  rn_state : state t = SynSent ∨ state t = Closed }.

Definition rx_side (base : Z) (src : Bytes) (ended : bool) (t : Tcb) (ring : Bytes) (rd R : Z) : Prop :=
  rx_ok base src ended t ring rd R ∨ (rd = 0 ∧ R = 0 ∧ rx_none t ring).

Lemma rx_none_frame t t' ring : same_rx t t' → state t' = SynSent ∨ state t' = Closed → rx_none t ring → rx_none t' ring.
Proof. intros (E1 & E2 & E3 & E4) Hs []. split; rewrite ?E1, ?E2, ?E3, ?E4; done. Qed.

Lemma rx_side_frame base src ended t t' ring rd R :
  same_rx t t' → moves (state t) (state t') → (state t = SynSent → state t' = SynSent ∨ state t' = Closed) →
  rx_side base src ended t ring rd R → rx_side base src ended t' ring rd R.
Proof.
  intros Hrx Hm Hs [H|(-> & -> & H)]; [left; by eapply rx_ok_frame|]. right. split_and!; try done. eapply rx_none_frame; [done| |done].
  pose proof H as []. destruct rn_state0 as [E|E]; [auto|]. right. rewrite E in Hm. clear -Hm. remember Closed as s eqn:Es. revert Es.
  induction Hm as [|x y z Hxy _ IH]; [done|]. intros ->. inversion Hxy; subst; auto.
Qed.

(** The peer's SYN: its stream starts. *)
Lemma rx_start base src ended t t1 t' ring n :
  rx_none t ring → same_rx (set_rcv_nxt n t) t1 → n = sq base 0 → same_rx t1 t' → state t' ≠ SynSent → rx_ok base src ended t' ring 0 0.
Proof.
  intros [] (A1 & A2 & A3 & A4) -> (B1 & B2 & B3 & B4) Hs. cbn in A1, A2, A3, A4. pose proof RING_eq.
  split; rewrite ?B1, ?B2, ?B3, ?B4, ?A1, ?A2, ?A3, ?A4, ?rn_fin0, ?rn_runs0; try done; try lia.
  all: by apply Forall_replicate.
Qed.

Section Arrive.
Context (base : Z) (src : Bytes) (ended : bool) (wr rxr txr : Bytes).

(** A SYN without an acknowledgement: both ends opened at once. *)
Lemma syn_received_ok t N M b :
  tx_core wr t txr (-1) N M → wr = [] → fin_seq t = None → sane b t →
  let t' := set_snd_nxt (iss (enter t SynReceived)) (enter t SynReceived) in
  tx_ok wr t' txr (-1) (-1) M ∧ same_rx t t' ∧ state t' = SynReceived ∧ sane (b + 1) t' ∧ iss t' = iss t ∧ fin_seq t' = fin_seq t ∧ released t' = released t.
Proof.
  intros Hc Hw Hf Hs. destruct (enter_view t SynReceived) as (Hv & Hrx & Hst). pose proof (enter_kept t SynReceived) as (K1 & K2 & _ & K4 & K5)%kept_inv.
  pose proof (enter_sane b t SynReceived Hs) as Hs2. set (t2 := enter t SynReceived) in *. clearbody t2. cbv zeta. pose proof (core_bounds _ _ _ _ _ _ Hc) as Hbd.
  assert (tx_core wr t2 txr (-1) N M) as Hc2 by (by eapply tx_core_frame). split_and!.
  - split; cbn; rewrite ?Hst; try done; [|by rewrite K2|by intros []; right].
    eapply (tx_core_frame wr (set_snd_nxt (at_ t2 (-1)) t2)); [|eapply core_nxt; [exact Hc2|lia]]. unfold tx_view, at_. by rewrite (iss_at (iss t2)) by apply Hc2.
  - exact Hrx.
  - exact Hst.
  - eapply (sane_frame b (b + 1) t2); first [done|lia|by left].
  - exact K1.
  - exact K2.
  - exact K5.
Qed.

Lemma syn_sent_ok t rd R U N M k b sg a now :
  rx_none t rxr → tx_ok wr t txr U N M → state t = SynSent → seg_ok base src ended sg a → 0 ≤ now ≤ NOW_MAX → sane b t → counted b k → b < 2 ^ 31 →
  rd = 0 → R = 0 →
  ∃ t' k' out U' N', segment_syn_sent t k sg now = Some (t', k', out) ∧ o_deliver out = None ∧ rx_side base src ended t' rxr rd R ∧ tx_ok wr t' txr U' N' M ∧
    moves (state t) (state t') ∧ sane (b + 1) t' ∧ counted (b + 4) k' ∧ eof_ok t' ∧ iss t' = iss t ∧ fin_seq t' = fin_seq t ∧ released t' = released t.
Proof.
  intros Hrx Htx Est Hsg Hnow Hs Hk Hb -> ->. pose proof Htx as [Hc Hpre Hsyn Hsync Hnl]. specialize (Hsyn Est). subst M.
  assert (presync (state t)) as Hp by (by left). destruct (Hpre Hp) as (-> & Hw & Hf). pose proof (core_bounds _ _ _ _ _ _ Hc) as Hbd.
  assert (counted (b + 4) k) as Hk4 by (eapply counted_mono; [done|lia]). assert (sane (b + 1) t) as Hs1 by (eapply (sane_frame b (b + 1) t); first [done|lia|by left]).
  assert (eof_ok t) as Heof by (unfold eof_ok; by rewrite Est).
  assert (∀ out, o_deliver out = None → ∃ t' k' out' U' N', Some (t, k, out) = Some (t', k', out') ∧ o_deliver out' = None ∧ rx_side base src ended t' rxr 0 0 ∧
    tx_ok wr t' txr U' N' 0 ∧ moves (state t) (state t') ∧ sane (b + 1) t' ∧ counted (b + 4) k' ∧ eof_ok t' ∧ iss t' = iss t ∧ fin_seq t' = fin_seq t ∧
    released t' = released t) as Hsame.
  { intros out Ho. exists t, k, out, (-1), N. split_and!; try done. by right. }
  unfold segment_syn_sent. destruct (flag sg TCP_ACK && _) eqn:Ea; [by apply Hsame|]. destruct (flag sg TCP_RST).
  { destruct (flag sg TCP_ACK); [|by apply Hsame]. destruct (bump_counted b resets_received k Hk ltac:(lia)) as (k1 & -> & Hk1). cbn [mbind option_bind].
    set (t1 := set_error _ t). destruct (enter_view t1 Closed) as (Hv & Hr & Hst). pose proof (enter_kept t1 Closed) as (K1 & K2 & _ & K4 & K5)%kept_inv.
    pose proof (enter_sane (b + 1) t1 Closed) as Hs2. set (t2 := enter t1 Closed) in *. clearbody t2.
    exists t2, k1, no_outcome, (-1), N. split; [done|]. split; [done|]. split_and!.
    - right. split_and!; try done. eapply rx_none_frame; [exact Hr|by right|by eapply rx_none_frame; [|left|exact Hrx]].
    - eapply tx_ok_closed; [exact Hv|done|]. by eapply tx_ok_frame; [|left|exact Htx].
    - rewrite Hst. apply moves_once. constructor.
    - apply Hs2. eapply (sane_frame b (b + 1) t); first [done|lia|by left].
    - eapply counted_mono; [done|lia].
    - unfold eof_ok. rewrite Hst, K4. right; left. done.
    - exact K1.
    - exact K2.
    - exact K5. }
  destruct (flag sg TCP_SYN) eqn:Esyn; cbn [negb]; [|by apply Hsame].
  rewrite (so_seq _ _ _ _ _ Hsg), (so_syn _ _ _ _ _ Hsg Esyn), wrapping_add_sq. change (-1 + 1) with 0. set (t1 := set_ack_now true _).
  assert (tx_core wr t1 txr (-1) N 0) as Hc1 by (by eapply tx_core_frame; [|exact Hc]).
  assert (sane b t1) as Hs1' by (eapply (sane_frame b b t); first [done|lia|by left]).
  assert (same_rx (set_rcv_nxt (sq base 0) t) t1) as Hr1 by done. destruct (flag sg TCP_ACK).
  - cbn [andb] in Ea. breflect. rewrite Ea. assert (wrapping_add 32 (iss t) 1 = at_ t1 0) as ->.
    { rewrite <-(iss_at (iss t)) at 1 by apply Hc. by rewrite wrapping_add_sq. }
    destruct (acknowledge_ok wr t1 txr (-1) N 0 0 now k b Hc1) as (t2 & k2 & N2 & E2 & Hc2 & Hrx2 & Hst2 & Hk2 & Hs2); try done; try lia.
    rewrite E2. cbn [mbind option_bind].
    destruct (established_ok wr t2 txr N2 0 k2 (b + 3) (b + 1)) as (t3 & k3 & E3 & Htx3 & Hrx3 & Hm3 & Hsy3 & Hs3 & Hk3 & Heof3); try done; try lia.
    { by rewrite Hst2. }
    { eapply (sane_frame b (b + 1) t2); first [done|lia|by left]. }
    rewrite E3. cbn [mbind option_bind]. apply established_kept in E3 as K3. apply acknowledge_kept in E2 as K2. rewrite K2 in K3. apply kept_inv in K3 as (Q1 & Q2 & _ & Q4 & Q5).
    eexists t3, k3, _, 0, N2. split; [done|]. split_and!; try done.
    + left. eapply (rx_start base src ended t t1 t3); [done|exact Hr1|done|by transitivity t2|]. by destruct Hsy3.
    + rewrite Hst2 in Hm3. done.
    + eapply counted_mono; [done|lia].
  - destruct (syn_received_ok t1 N 0 b Hc1 Hw Hf Hs1') as (Htx2 & Hrx2 & Hst2 & Hs2 & K1 & K2 & K3).
    eexists _, k, no_outcome, (-1), (-1). split; [reflexivity|]. split; [done|]. split_and!; [left|exact Htx2| |exact Hs2|done| |exact K1|by rewrite K2|exact K3].
    + eapply (rx_start base src ended t t1); [done|exact Hr1|done|exact Hrx2|by rewrite Hst2].
    + rewrite Hst2, Est. apply moves_once. constructor.
    + unfold eof_ok. by rewrite Hst2.
Qed.

(** The peer's FIN is not taken twice: sent again, it is outside the window. *)
Lemma fin_once t ring rd R sg a wnd len :
  rx_ok base src ended t ring rd R → seg_ok base src ended sg a → Z.of_nat (length src) ≤ LIMIT → flag sg TCP_FIN = true → peer_fin t = true → 0 ≤ wnd ≤ RING →
  len = payload_len sg + (if flag sg TCP_SYN then 1 else 0) + 1 → acceptable (rcv_nxt t) (wnd mod 2 ^ 32) (tcp_seq sg) len = false.
Proof.
  intros [] Hsg HL Hf Hpf Hw ->. destruct (so_fin _ _ _ _ _ Hsg Hf) as [Ha _]. destruct (rk_fin0 Hpf) as (HR & _). rewrite Hpf in rk_rcv0. unfold LIMIT in HL.
  assert (payload_len sg = 0) as Hp.
  { unfold payload_len. destruct (tcp_payload sg) as [|x l] eqn:E; [done|]. destruct (so_data _ _ _ _ _ Hsg) as (_ & _ & ? & _); [by rewrite E|congruence]. }
  assert (flag sg TCP_SYN = false) as Hs.
  { destruct (flag sg TCP_SYN) eqn:E; [|done]. pose proof (so_syn _ _ _ _ _ Hsg E). lia. }
  pose proof RING_eq. rewrite Hp, Hs, (so_seq _ _ _ _ _ Hsg), rk_rcv0, Z.mod_small by lia. change (0 + 0 + 1) with 1. unfold acceptable.
  rewrite sq_eqb, (proj2 (Z.eqb_neq a (R + 1))) by lia. destruct (wnd =? 0); [done|]. change (1 =? 0) with false. cbn [negb].
  rewrite wrapping_add_sq, Z.add_0_r. rewrite wrapping_sub_sq_neg by lia. by rewrite (proj2 (Z.ltb_ge _ _)) by lia.
Qed.

Lemma outside_ok t rd R U N M k b sg :
  rx_ok base src ended t rxr rd R → tx_ok wr t txr U N M → eof_ok t → sane b t → counted b k → b < 2 ^ 31 →
  ∃ t' k' N', segment_outside t k sg = Some (t', k', no_outcome) ∧ rx_ok base src ended t' rxr rd R ∧ tx_ok wr t' txr U N' M ∧ state t' = state t ∧ sane (b + 1) t' ∧
    counted (b + 1) k' ∧ eof_ok t' ∧ iss t' = iss t ∧ fin_seq t' = fin_seq t ∧ released t' = released t.
Proof.
  intros Hrx Htx Heof Hs Hk Hb. unfold segment_outside. set (t1 := if flag sg TCP_RST then t else _).
  assert (same_rx t t1 ∧ state t1 = state t ∧ sane (b + 1) t1 ∧ iss t1 = iss t ∧ fin_seq t1 = fin_seq t ∧ error t1 = error t ∧ released t1 = released t ∧ ∃ N', tx_ok wr t1 txr U N' M)
    as (Hrx1 & Hst1 & Hs1 & E1 & E2 & E3 & E4 & N1 & Htx1).
  { unfold t1. destruct (flag sg TCP_RST); [split_and!; try done; [eapply (sane_frame b (b + 1) t); first [done|lia|by left]|by exists N]|].
    destruct (_ && flag sg TCP_SYN) eqn:E; cbn [state set_ack_now] in *; (split_and!; try done; [eapply (sane_frame b (b + 1) t); first [done|lia|by left]|]).
    - breflect. unfold in_state in *. breflect. exists (-1). pose proof Htx as [Hc Hpre Hsyn Hsync Hnl]. cbn in H. destruct (Hpre ltac:(by right)) as (-> & _).
      pose proof (core_bounds _ _ _ _ _ _ Hc) as Hbd. eapply tx_ok_core; [exact Htx| |done|done|done|lia].
      eapply (tx_core_frame wr (set_snd_nxt (at_ t (-1)) t)); [|eapply core_nxt; [exact Hc|lia]]. unfold tx_view, at_. cbn. by rewrite (iss_at (iss t)) by apply Hc.
    - exists N. by eapply tx_ok_frame; [|left|exact Htx]. }
  clearbody t1. destruct (bump_counted b duplicates k Hk ltac:(lia)) as (k1 & -> & Hk1). cbn [mbind option_bind]. exists t1, k1, N1. split; [done|]. split_and!; try done.
  - eapply rx_ok_frame; [exact Hrx1|rewrite Hst1; apply moves_refl|done].
  - eapply eof_ok_frame; [exact Heof|done|by destruct Hrx1 as (_ & _ & _ & ?)|done|done].
Qed.

Lemma synced_ok t rd R U N M k b sg a from now :
  rx_ok base src ended t rxr rd R → tx_ok wr t txr U N M → eof_ok t → state t ≠ Closed → seg_ok base src ended sg a →
  Forall (block_ok (iss t + 1) M) (tcp_sack sg) → Z.of_nat (length src) ≤ LIMIT → 0 ≤ from ≤ u16_MAX → 0 ≤ now ≤ NOW_MAX → sane b t → counted b k → b < 2 ^ 31 →
  ∃ t' k' out rxr' R' U' N', segment t k sg from now = Some (t', k', out) ∧ deliver rxr sg from (o_deliver out) = Some rxr' ∧
    rx_ok base src ended t' rxr' rd R' ∧ tx_ok wr t' txr U' N' M ∧ moves (state t) (state t') ∧ sane (b + 1) t' ∧ counted (b + 9) k' ∧ eof_ok t' ∧
    iss t' = iss t ∧ fin_seq t' = fin_seq t ∧ released t' = released t.
Proof.
  intros Hrx Htx Heof Hcl Hsg Hblk HL Hfrom Hnow Hs Hk Hb. pose proof (rk_state _ _ _ _ _ _ _ Hrx) as Hss. pose proof (tx_not_listen _ _ _ _ _ _ Htx) as Hnl.
  assert (counted (b + 9) k) as Hk9 by (eapply counted_mono; [done|lia]). assert (sane (b + 1) t) as Hs1 by (eapply (sane_frame b (b + 1) t); first [done|lia|by left]).
  unfold segment. unfold in_state at 1 2 3. rewrite !bool_decide_eq_false_2 by done. cbn [orb]. pose proof (so_len _ _ _ _ _ Hsg) as Hpl. unfold u_max in Hpl.
  assert (0 ≤ payload_len sg) as Hp0 by (unfold payload_len; lia).
  unfold checked_add. rewrite (Z.mod_small (payload_len sg)) by lia. rewrite (proj2 (Z.leb_le (payload_len sg + _) _)) by (unfold u_max; destruct (flag sg TCP_SYN); lia).
  cbn [mbind option_bind]. rewrite (proj2 (Z.leb_le _ _)) by (unfold u_max; destruct (flag sg TCP_SYN), (flag sg TCP_FIN); lia). cbn [mbind option_bind].
  destruct (rx_free_ok _ _ _ _ _ _ _ HL Hrx) as (wnd & -> & Hwnd). cbn [mbind option_bind].
  assert (∀ t1 k1, same_rx t t1 → tx_view t1 = tx_view t → state t1 = state t → kept t1 = kept t → sane (b + 1) t1 → counted (b + 9) k1 →
    ∃ t' k' out rxr' R' U' N', Some (t1, k1, no_outcome) = Some (t', k', out) ∧ deliver rxr sg from (o_deliver out) = Some rxr' ∧
    rx_ok base src ended t' rxr' rd R' ∧ tx_ok wr t' txr U' N' M ∧ moves (state t) (state t') ∧ sane (b + 1) t' ∧ counted (b + 9) k' ∧ eof_ok t' ∧
    iss t' = iss t ∧ fin_seq t' = fin_seq t ∧ released t' = released t) as Hsame.
  { intros t1 k1 Hr Hv Hst (K1 & K2 & _ & K4 & K5)%kept_inv Hs' Hk'. exists t1, k1, no_outcome, rxr, R, U, N. split; [done|]. split; [done|]. split_and!; try done.
    - eapply rx_ok_frame; [exact Hr|rewrite Hst; apply moves_refl|done].
    - by eapply tx_ok_frame; [exact Hv|left|].
    - rewrite Hst. apply moves_refl.
    - eapply eof_ok_frame; [exact Heof|done|by destruct Hr as (_ & _ & _ & ?)|done|done]. }
  assert (sane (b + 1) (set_ack_now true t)) as Hsa by (eapply (sane_frame b (b + 1) t); first [done|lia|by left]).
  destruct (acceptable _ _ _ _) eqn:Eacc; cbn [negb].
  2:{ destruct (outside_ok t rd R U N M k b sg Hrx Htx Heof Hs Hk Hb) as (t' & k' & N' & -> & H1 & H2 & H3 & H4 & H5 & H6 & H7 & H8 & H9).
      exists t', k', no_outcome, rxr, R, U, N'. split; [done|]. split; [done|]. rewrite H3. split_and!; try done. eapply counted_mono; [done|lia]. }
  destruct (flag sg TCP_RST).
  { destruct (_ =? _); [|by apply Hsame]. destruct (bump_counted b resets_received k Hk ltac:(lia)) as (k1 & -> & Hk1). cbn [mbind option_bind].
    set (t1 := set_error _ t). destruct (enter_view t1 Closed) as (Hv & Hr & Hst). pose proof (enter_kept t1 Closed) as (K1 & K2 & _ & K4 & K5)%kept_inv.
    pose proof (enter_sane (b + 1) t1 Closed) as Hs2. set (t2 := enter t1 Closed) in *. clearbody t2.
    assert (moves (state t) (state t2)) as Hm by (rewrite Hst; apply moves_once; constructor).
    exists t2, k1, no_outcome, rxr, R, U, N. split; [done|]. split; [done|].
    split_and!; [|by eapply tx_ok_closed; [exact Hv|done|]; eapply tx_ok_frame; [|left|exact Htx]|done| |eapply counted_mono; [done|lia]| |done|done|done].
    - eapply rx_ok_frame; [|exact Hm|exact Hrx]. exact Hr.
    - apply Hs2. eapply (sane_frame b (b + 1) t); first [done|lia|by left].
    - unfold eof_ok. rewrite Hst, K4. by right; left. }
  destruct (flag sg TCP_SYN) eqn:Esyn; [by apply Hsame|]. destruct (flag sg TCP_ACK); cbn [negb]; [|by apply Hsame].
  destruct (segment_ack_ok wr t txr U N M k sg now b Htx Hss Hcl (so_ack _ _ _ _ _ Hsg) Hblk Hnow Hs Hk Hb)
    as (t1 & k1 & out & U1 & N1 & -> & Htx1 & Hrx1 & Hm1 & Hs1' & Hk1 & Hkp1 & Hsy1 & Heof1 & Hout). cbn [mbind option_bind].
  pose proof (rx_ok_frame _ _ _ _ _ _ _ _ Hrx1 Hm1 Hrx) as Hok1. apply kept_inv in Hkp1 as (K1 & K2 & _ & K4 & K5).
  destruct out as [o|].
  { exists t1, k1, o, rxr, R, U1, N1. split; [done|]. rewrite (Hout o eq_refl). split_and!; try done; [eapply counted_mono; [done|lia]|auto]. }
  destruct (segment_fin_acked t1 now) as [t2 stop] eqn:E2. apply segment_fin_acked_ok in E2 as (Hv2 & Hrx2 & Hm2 & Hs2 & Hsy2 & Hkp2 & Heof2).
  specialize (Hsy1 eq_refl). specialize (Hsy2 Hsy1). apply kept_inv in Hkp2 as (L1 & L2 & _ & L4 & L5).
  assert (tx_ok wr t2 txr U1 N1 M) as Htx2.
  { eapply tx_ok_frame; [exact Hv2| |exact Htx1]. right. split; [|done]. destruct Hsy1 as (? & ? & ?). by intros [?|?]. }
  pose proof (rx_ok_frame _ _ _ _ _ _ _ _ Hrx2 Hm2 Hok1) as Hok2.
  assert (moves (state t) (state t2)) as Hm by (by eapply moves_trans). destruct stop.
  { exists t2, k1, no_outcome, rxr, R, U1, N1. split; [done|]. split; [done|]. split_and!; try done; auto; [eapply counted_mono; [done|lia]|congruence..]. }
  destruct (text_ok base src ended t2 rxr rd R k1 (b + 4) sg a (fin_acknowledged t1) from now Hok2 Hsg HL Hsy2) as (t3 & k3 & out & rxr' & R' & -> & Hd & Hok3 & Htx3 & Hm3 & Hk3 & Heof3);
    [|done|done|lia|].
  { intros Hf. destruct (peer_fin t2) eqn:Hpf; [|done]. assert (peer_fin t = true) as Hpt by (destruct Hrx1 as (_ & _ & _ & ?), Hrx2 as (_ & _ & _ & ?); congruence).
    rewrite Hf in Eacc. rewrite (fin_once t rxr rd R sg a wnd) in Eacc; try done. by rewrite Esyn. }
  exists t3, k3, out, rxr', R', U1, N1. split; [done|]. split; [done|]. split_and!; try done; auto.
  - eapply tx_ok_frame; [by apply same_tx_view| |exact Htx2]. right. split; [|done]. destruct Hsy2 as (? & ? & ?). by intros [?|?].
  - by eapply moves_trans.
  - specialize (Hs2 _ Hs1'). unfold same_tx in Htx3. destruct Htx3 as (_ & _ & _ & _ & _ & _ & _ & _ & _ & S1 & S2 & S3 & S4 & _).
    eapply (sane_frame (b + 1) (b + 1) t2); [done|done|done|by left|lia|done].
  - eapply counted_mono; [done|lia].
  - destruct Htx3 as (-> & _). congruence.
  - destruct Htx3 as (_ & _ & _ & _ & _ & _ & _ & -> & _). congruence.
  - destruct Htx3 as (_ & _ & _ & _ & _ & _ & _ & _ & _ & _ & _ & _ & _ & _ & ->). congruence.
Qed.

(** Any segment of the peer's stream, in any state. *)
Lemma arrive_ok t rd R U N M k b sg a from now :
  rx_side base src ended t rxr rd R → tx_ok wr t txr U N M → eof_ok t → seg_ok base src ended sg a →
  Forall (block_ok (iss t + 1) M) (tcp_sack sg) → Z.of_nat (length src) ≤ LIMIT → 0 ≤ from ≤ u16_MAX → 0 ≤ now ≤ NOW_MAX → sane b t → counted b k → b < 2 ^ 31 →
  ∃ t' k' out rxr' R' U' N', segment t k sg from now = Some (t', k', out) ∧ deliver rxr sg from (o_deliver out) = Some rxr' ∧
    rx_side base src ended t' rxr' rd R' ∧ tx_ok wr t' txr U' N' M ∧ moves (state t) (state t') ∧ sane (b + 1) t' ∧ counted (b + 9) k' ∧ eof_ok t' ∧
    iss t' = iss t ∧ fin_seq t' = fin_seq t ∧ released t' = released t.
Proof.
  intros Hrx Htx Heof Hsg Hblk HL Hfrom Hnow Hs Hk Hb. destruct (decide (state t = Closed)) as [Ecl|Ecl].
  { exists t, k, (reset_if (negb (flag sg TCP_RST))), rxr, R, U, N. split; [unfold segment, in_state; by rewrite Ecl|]. split; [done|]. split_and!; try done.
    - eapply (sane_frame b (b + 1) t); first [done|lia|by left].
    - eapply counted_mono; [done|lia]. }
  destruct Hrx as [Hrx|(-> & -> & Hrx)].
  - destruct (synced_ok t rd R U N M k b sg a from now) as (t' & k' & out & rxr' & R' & U' & N' & E & Hd & Hok & H); try done.
    exists t', k', out, rxr', R', U', N'. split; [done|]. split; [done|]. split; [by left|done].
  - destruct (rn_state _ _ Hrx) as [Est|?]; [|done].
    destruct (syn_sent_ok t 0 0 U N M k b sg a now) as (t' & k' & out & U' & N' & E & Hd & Hok & Htx' & Hm & Hs' & Hk' & He' & Hi' & Hf' & Hr'); try done.
    exists t', k', out, rxr, 0, U', N'. split; [unfold segment, in_state; by rewrite Est|]. rewrite Hd. split; [done|]. split_and!; try done. eapply counted_mono; [done|lia].
Qed.

End Arrive.

End TcpArrive.
