(* ===== verification/NetTcpStream.v ===== *)
(** * TCP: what two connected programs see

    Two connections, and between them a network that delivers what was sent in any order, any
    number of times or not at all.  Whatever the programs and the network do, each program reads
    a prefix of what the other wrote, and is told the stream has ended only after all of it. *)

From S2P Require Import Prelude NetWire NetLink NetTcp NetTcpSeq NetTcpRecv NetTcpSend NetTcpEmit NetTcpArrive.
Import Wire NetTcp TcpSeq TcpRecv TcpSend TcpEmit TcpArrive.
Local Open Scope Z_scope.

Module TcpStream.

(** ** Two ends *)

(** One end: its connection, the contents of its two rings and the counters; then what its
    program wrote and read, whether it was told the stream ended, and every segment it sent. *)
Record End := {
  e_tcb : Tcb; e_rx : Bytes; e_tx : Bytes; e_counters : Counters;
  e_written : Bytes; e_read : Bytes; e_told : bool; e_sent : list Wire.Tcp }.

Inductive act : Type :=
| Write (data : Bytes)
| Read (room : Z)
| Shutdown
| Abort
| Emit (now : Z)
| Tick (now : Z)
| Arrive (i : nat) (from now : Z).

Definition set_tcb (t : Tcb) (e : End) : End :=
  {| e_tcb := t; e_rx := e_rx e; e_tx := e_tx e; e_counters := e_counters e; e_written := e_written e; e_read := e_read e; e_told := e_told e;
     e_sent := e_sent e |}.

Definition write (e : End) (data : Bytes) : option End :=
  '(t, b, r) ← tcb_send (e_tcb e) (Some (e_tx e)) data;
  let n := match r with Ok n => n | Err _ => 0 end in
  Some {| e_tcb := t; e_rx := e_rx e; e_tx := default (e_tx e) b; e_counters := e_counters e; e_written := e_written e ++ take (Z.to_nat n) data;
          e_read := e_read e; e_told := e_told e; e_sent := e_sent e |}.

Definition read (e : End) (room : Z) : option End :=
  '(t, r) ← tcb_recv (e_tcb e) (Some (e_rx e)) room;
  let data := match r with Ok d => d | Err _ => [] end in
  let eof := match r with Ok [] => 0 <? room | _ => false end in
  Some {| e_tcb := t; e_rx := e_rx e; e_tx := e_tx e; e_counters := e_counters e; e_written := e_written e; e_read := e_read e ++ data;
          e_told := e_told e || eof; e_sent := e_sent e |}.

Definition emit (e : End) (now : Z) : option End :=
  '(t, k, s) ← tcb_segment (e_tcb e) (e_counters e) now;
  out ← match s with None => Some [] | Some s => p ← payload_of (e_tx e) s; Some [on_wire (sg_header s) p] end;
  Some {| e_tcb := t; e_rx := e_rx e; e_tx := e_tx e; e_counters := k; e_written := e_written e; e_read := e_read e; e_told := e_told e;
          e_sent := e_sent e ++ out |}.

Definition tick (e : End) (now : Z) : option End :=
  '(t, k) ← tcb_timers (e_tcb e) (e_counters e) now;
  Some {| e_tcb := t; e_rx := e_rx e; e_tx := e_tx e; e_counters := k; e_written := e_written e; e_read := e_read e; e_told := e_told e; e_sent := e_sent e |}.

Definition arrive (e : End) (sg : Wire.Tcp) (from now : Z) : option End :=
  '(t, k, out) ← segment (e_tcb e) (e_counters e) sg from now;
  ring ← deliver (e_rx e) sg from (o_deliver out);
  Some {| e_tcb := t; e_rx := ring; e_tx := e_tx e; e_counters := k; e_written := e_written e; e_read := e_read e; e_told := e_told e; e_sent := e_sent e |}.

(** What one end does; a segment that arrives is one its peer has sent. *)
Definition do (e peer : End) (a : act) : option End :=
  match a with
  | Write data => write e data
  | Read room => read e room
  | Shutdown => Some (set_tcb (tcb_shutdown (e_tcb e)) e)
  | Abort => Some (set_tcb (tcb_abort (e_tcb e)) e)
  | Emit now => emit e now
  | Tick now => tick e now
  | Arrive i from now => match e_sent peer !! i with Some sg => arrive e sg from now | None => Some e end
  end.

Inductive side : Type := Active | Passive.
Definition other (s : side) : side := match s with Active => Passive | Passive => Active end.

Definition World : Type := side → End.
Definition step (w : World) (x : side * act) : option World :=
  e ← do (w x.1) (w (other x.1)) x.2;
  Some (λ s, match x.1, s with Active, Active | Passive, Passive => e | _, _ => w s end).

Fixpoint run (w : World) (l : list (side * act)) : option World :=
  match l with [] => Some w | x :: l => w ← step w x; run w l end.

(** ** A connection is opened *)

Record Setup := {
  client_ip : Ipv4Addr; client_port : Z; server_ip : Ipv4Addr; server_port : Z;
  client_iss : Z; server_iss : Z; ring_a : Bytes; ring_b : Bytes; ring_c : Bytes; ring_d : Bytes; count_a : Counters; count_b : Counters }.

(** [connect] sent its SYN and a listener made a connection for it. *)
Definition start (c : Setup) (now : Z) : option World :=
  let t := opened SynSent (bit SynSent) (client_port c) (server_ip c) (server_port c) (client_iss c) 0 1 in
  a ← emit {| e_tcb := t; e_rx := ring_a c; e_tx := ring_b c; e_counters := count_a c; e_written := []; e_read := []; e_told := false; e_sent := [] |} now;
  syn ← e_sent a !! 0%nat;
  let t := passive (syn_of 0 (client_ip c) syn) (server_iss c) 0 1 in
  let b := {| e_tcb := t; e_rx := ring_c c; e_tx := ring_d c; e_counters := count_b c; e_written := []; e_read := []; e_told := false; e_sent := [] |} in
  Some (λ s, match s with Active => a | Passive => b end).


(** ** The invariant *)

(** What has been sent grows, until the FIN. *)
Definition grows (src : Bytes) (en : bool) (src' : Bytes) (en' : bool) : Prop :=
  ∃ more, src' = src ++ more ∧ (en = true → more = [] ∧ en' = true).

Lemma grows_refl src en : grows src en src en.
Proof. exists []. by rewrite app_nil_r. Qed.

Lemma rx_side_grows base src en src' en' t ring rd R :
  grows src en src' en' → rx_side base src en t ring rd R → rx_side base src' en' t ring rd R.
Proof.
  intros (more & -> & He) [H|H]; [left|by right]. destruct en.
  - destruct (He eq_refl) as [-> ->]. by rewrite app_nil_r.
  - by apply rx_ok_ended, rx_ok_more.
Qed.

Lemma seg_ok_grows base src en src' en' sg a : grows src en src' en' → seg_ok base src en sg a → seg_ok base src' en' sg a.
Proof.
  intros (more & -> & He) []. split; try done; rewrite ?length_app.
  - lia.
  - intros H. destruct (so_data0 H) as (? & ? & ? & Hd). split_and!; try done; try lia. intros i Hi. rewrite lookup_app_l by lia. auto.
  - intros H. destruct (so_fin0 H) as [-> Hen]. destruct (He Hen) as [-> ->]. split; [|done]. cbn. lia.
Qed.

Lemma prefix_grows (l src src' : Bytes) en en' : grows src en src' en' → l `prefix_of` src → l `prefix_of` src'.
Proof. intros (more & -> & _) H. by apply prefix_app_r. Qed.

Definition sent (e : End) (M : Z) : Bytes := sent_of M (e_written e).
Definition base (e : End) : Z := iss (e_tcb e) + 1.

(** The end [e], whose first position never sent is [M], against its peer [p], whose is [Mp];
    [b] bounds what the end counts and [W] what it has written. *)
Record end_ok (b W : Z) (e p : End) (M Mp : Z) : Prop := {
  eo_tx : ∃ U N, tx_ok (e_written e) (e_tcb e) (e_tx e) U N M;
  eo_rx : ∃ R, rx_side (base p) (sent p Mp) (ended (e_tcb p)) (e_tcb e) (e_rx e) (Z.of_nat (length (e_read e))) R;
  eo_read : e_read e `prefix_of` sent p Mp;
  eo_told : e_told e = true → released (e_tcb e) = true ∨ (e_read e = sent p Mp ∧ ended (e_tcb p) = true);
  eo_eof : eof_ok (e_tcb e);
  eo_sane : sane b (e_tcb e);
  eo_counted : counted b (e_counters e);
  eo_written : Z.of_nat (length (e_written e)) ≤ W;
  eo_net : Forall (λ sg, (∃ a, seg_ok (base e) (sent e M) (ended (e_tcb e)) sg a) ∧ Forall (block_ok (base p) Mp) (tcp_sack sg)) (e_sent e) }.

Lemma end_ok_mono b b' W W' e p M Mp : b ≤ b' → W ≤ W' → end_ok b W e p M Mp → end_ok b' W' e p M Mp.
Proof.
  intros Hb HW []. split; try done; [|by eapply counted_mono|lia]. eapply (sane_frame b b' (e_tcb e)); first [done|by left].
Qed.

(** The peer's invariant does not depend on what an end keeps to itself. *)
Lemma peer_ok b W p e e' Mp M M' :
  end_ok b W p e Mp M → base e' = base e → M ≤ M' → grows (sent e M) (ended (e_tcb e)) (sent e' M') (ended (e_tcb e')) → end_ok b W p e' Mp M'.
Proof.
  intros [] Hb HM Hg. split; try done.
  - destruct eo_rx0 as [R HR]. exists R. rewrite Hb. by eapply rx_side_grows.
  - by eapply prefix_grows.
  - intros H. destruct (eo_told0 H) as [?|[-> He]]; [by left|right]. destruct Hg as (more & -> & Hm). destruct (Hm He) as [-> ->]. by rewrite app_nil_r.
  - eapply Forall_impl; [exact eo_net0|]. intros sg [H1 H2]. split; [done|]. rewrite Hb. by eapply block_ok_mono.
Qed.

(** The rest of an end's invariant when neither its stream nor its peer's moves. *)
Lemma end_ok_step b b' W e e' p M Mp U N R :
  end_ok b W e p M Mp → b ≤ b' →
  tx_ok (e_written e') (e_tcb e') (e_tx e') U N M → e_written e' = e_written e →
  rx_side (base p) (sent p Mp) (ended (e_tcb p)) (e_tcb e') (e_rx e') (Z.of_nat (length (e_read e'))) R →
  e_read e' = e_read e → e_told e' = e_told e → (released (e_tcb e) = true → released (e_tcb e') = true) → eof_ok (e_tcb e') → sane b' (e_tcb e') → counted b' (e_counters e') →
  iss (e_tcb e') = iss (e_tcb e) → fin_seq (e_tcb e') = fin_seq (e_tcb e) → e_sent e' = e_sent e →
  end_ok b' W e' p M Mp ∧ base e' = base e ∧ grows (sent e M) (ended (e_tcb e)) (sent e' M) (ended (e_tcb e')).
Proof.
  intros [] Hb Htx Ew Hrx Er Et Hrel Heof Hs Hk Ei Ef Es.
  assert (sent e' M = sent e M ∧ ended (e_tcb e') = ended (e_tcb e) ∧ base e' = base e) as (E1 & E2 & E3) by (unfold sent, ended, base; by rewrite Ew, Ef, Ei).
  split; [|split; [done|rewrite E1, E2; apply grows_refl]].
  split; rewrite ?Er, ?Et, ?Ew, ?Es, ?E1, ?E2, ?E3; try done; [rewrite <-Ew; by exists U, N|rewrite <-Er; by exists R|].
  intros H. destruct (eo_told0 H); [left; auto|by right].
Qed.

Lemma sent_bound e b W p M Mp : end_ok b W e p M Mp → Z.of_nat (length (sent e M)) ≤ W.
Proof. intros []. unfold sent, sent_of. rewrite length_take. lia. Qed.


(** ** One step *)

Definition act_ok (a : act) : bool :=
  match a with
  | Write _ | Shutdown | Abort => true
  | Read room => 0 <=? room
  | Emit now | Tick now => (0 <=? now) && (now <=? NOW_MAX)
  | Arrive _ from now => (0 <=? from) && (from <=? u16_MAX) && (0 <=? now) && (now <=? NOW_MAX)
  end.
Definition offered (a : act) : Z := match a with Write data => Z.of_nat (length data) | _ => 0 end.

(** An action keeps the invariant and what its peer's invariant says of the end. *)
Definition kept_by (b W : Z) (e p : End) (M Mp : Z) (a : act) (r : option End) : Prop :=
  ∃ e' M', r = Some e' ∧ end_ok (b + 10) (W + offered a) e' p M' Mp ∧ M ≤ M' ∧ base e' = base e ∧
    grows (sent e M) (ended (e_tcb e)) (sent e' M') (ended (e_tcb e')).

Section Step.
Context (b W Wp : Z) (e p : End) (M Mp : Z).
Context (He : end_ok b W e p M Mp) (Hp : end_ok b Wp p e Mp M) (HWp : Wp ≤ LIMIT) (Hb : b + 10 < 2 ^ 31).

(** Nothing of either stream moves. *)
Lemma kept_still e' a U N R :
  offered a = 0 →
  tx_ok (e_written e') (e_tcb e') (e_tx e') U N M → e_written e' = e_written e →
  rx_side (base p) (sent p Mp) (ended (e_tcb p)) (e_tcb e') (e_rx e') (Z.of_nat (length (e_read e'))) R →
  e_read e' = e_read e → e_told e' = e_told e → (released (e_tcb e) = true → released (e_tcb e') = true) → eof_ok (e_tcb e') →
  sane (b + 10) (e_tcb e') → counted (b + 10) (e_counters e') →
  iss (e_tcb e') = iss (e_tcb e) → fin_seq (e_tcb e') = fin_seq (e_tcb e) → e_sent e' = e_sent e → kept_by b W e p M Mp a (Some e').
Proof.
  intros Ho Htx Ew Hrx Er Et Hrel Heof Hs Hk Ei Ef Es. destruct (end_ok_step b (b + 10) W e e' p M Mp U N R He) as (H1 & H2 & H3); try done; [lia|].
  exists e', M. rewrite Ho, Z.add_0_r. by split_and!.
Qed.

Lemma sane_ten c t : c ≤ b + 10 → sane c t → sane (b + 10) t.
Proof. intros Hc Hs. eapply (sane_frame c (b + 10) t); first [done|by left]. Qed.

Lemma arrive_kept i from now : act_ok (Arrive i from now) = true → kept_by b W e p M Mp (Arrive i from now) (do e p (Arrive i from now)).
Proof.
  intros Ha. cbn in Ha. breflect. cbn [do]. pose proof He as []. destruct eo_tx0 as (U & N & Htx), eo_rx0 as (R & Hrx).
  destruct (e_sent p !! i) as [sg|] eqn:Ei.
  2:{ eapply (kept_still e _ U N R); try done; [eapply sane_ten; [|done]; lia|eapply counted_mono; [done|lia]]. }
  destruct (Forall_lookup_1 _ _ _ _ (eo_net _ _ _ _ _ _ Hp) Ei) as [(a & Hsg) Hblk]. unfold arrive.
  destruct (arrive_ok (base p) (sent p Mp) (ended (e_tcb p)) (e_written e) (e_rx e) (e_tx e) (e_tcb e) (Z.of_nat (length (e_read e))) R U N M (e_counters e) b sg a from now)
    as (t' & k' & out & rxr' & R' & U' & N' & -> & Hd & Hrx' & Htx' & Hm & Hs' & Hk' & Heof' & Hi & Hf & Hr); try done; [|lia|].
  { pose proof (sent_bound _ _ _ _ _ _ Hp). lia. }
  cbn [mbind option_bind]. rewrite Hd. cbn [mbind option_bind].
  eapply (kept_still _ _ U' N' R'); try done; [cbn; by rewrite Hr|eapply sane_ten; [|exact Hs']; lia|eapply counted_mono; [exact Hk'|lia]].
Qed.

Lemma tick_kept now : act_ok (Tick now) = true → kept_by b W e p M Mp (Tick now) (do e p (Tick now)).
Proof.
  intros Ha. cbn in Ha. breflect. cbn [do]. pose proof He as []. destruct eo_tx0 as (U & N & Htx), eo_rx0 as (R & Hrx). unfold tick.
  destruct (timers_ok (e_written e) (e_tcb e) (e_tx e) U N M (e_counters e) now b) as (t' & k' & N' & -> & Htx' & Hrx' & Hm & Hs' & Hk' & Heof' & Hi & Hf & Hr & Hss); try done; [lia|].
  cbn [mbind option_bind].
  eapply (kept_still _ _ U N' R); try done; [by eapply rx_side_frame|cbn; by rewrite Hr|eapply sane_ten; [|exact Hs']; lia|eapply counted_mono; [exact Hk'|lia]].
Qed.

Lemma shutdown_kept : kept_by b W e p M Mp Shutdown (do e p Shutdown).
Proof.
  cbn [do]. pose proof He as []. destruct eo_tx0 as (U & N & Htx), eo_rx0 as (R & Hrx).
  destruct (shutdown_ok _ _ _ _ _ _ Htx) as (H1 & H2 & H3 & H4 & H5 & H6 & H7 & H8 & H9).
  eapply (kept_still _ _ U N R); try done; cbn.
  - eapply rx_side_frame; [done|done|auto|done].
  - by rewrite H9.
  - auto.
  - apply H4. eapply sane_ten; [|done]. lia.
  - eapply counted_mono; [done|lia].
Qed.

Lemma abort_kept : kept_by b W e p M Mp Abort (do e p Abort).
Proof.
  cbn [do]. pose proof He as []. destruct eo_tx0 as (U & N & Htx), eo_rx0 as (R & Hrx). destruct (abort_ok _ _ _ _ _ _ Htx) as (H1 & H2 & H3 & H4 & H5 & H6 & H7 & H8 & H9).
  eapply (kept_still _ _ U N R); try done; cbn.
  - eapply rx_side_frame; [done|done|by right|done].
  - apply H4. eapply sane_ten; [|done]. lia.
  - eapply counted_mono; [done|lia].
Qed.

Lemma read_kept room : act_ok (Read room) = true → kept_by b W e p M Mp (Read room) (do e p (Read room)).
Proof.
  intros Ha. cbn in Ha. breflect. cbn [do]. pose proof He as []. destruct eo_tx0 as (U & N & Htx), eo_rx0 as (R & Hrx). unfold read.
  set (src := sent p Mp) in *. set (rd := Z.of_nat (length (e_read e))) in *.
  assert (e_read e = take (Z.to_nat rd) src) as Etake.
  { destruct eo_read0 as [l ->]. unfold rd. rewrite Nat2Z.id. symmetry. apply take_app_length. }
  assert (∀ t' data eof, same_tx (e_tcb e) t' → state t' = state (e_tcb e) → peer_fin t' = peer_fin (e_tcb e) → data = take (length data) (drop (Z.to_nat rd) src) →
    rx_side (base p) src (ended (e_tcb p)) t' (e_rx e) (rd + Z.of_nat (length data)) R →
    (eof = true → released (e_tcb e) = true ∨ (data = [] ∧ e_read e = src ∧ ended (e_tcb p) = true)) → (e_told e = true → data = [] ∨ released (e_tcb e) = true) →
    kept_by b W e p M Mp (Read room) (Some {| e_tcb := t'; e_rx := e_rx e; e_tx := e_tx e; e_counters := e_counters e; e_written := e_written e; e_read := e_read e ++ data;
          e_told := e_told e || eof; e_sent := e_sent e |})) as Hdone.
  { intros t' data eof Htx' Hst Hpf Hdata Hrx' Heof' Htold. exists {| e_tcb := t'; e_rx := e_rx e; e_tx := e_tx e; e_counters := e_counters e; e_written := e_written e;
      e_read := e_read e ++ data; e_told := e_told e || eof; e_sent := e_sent e |}, M. cbn [offered]. rewrite Z.add_0_r. split; [done|].
    pose proof Htx' as (Si & _ & _ & _ & _ & _ & _ & Sf & _ & S1 & S2 & S3 & S4 & S5 & S6).
    assert (ended t' = ended (e_tcb e)) as Hen by (unfold ended; by rewrite Sf).
    split_and!; [|lia|unfold base; cbn; by rewrite Si|unfold sent; cbn; rewrite Hen; apply grows_refl].
    split; cbn; try done.
    - exists U, N. eapply tx_ok_frame; [by apply same_tx_view|by left|done].
    - exists R. rewrite length_app, Nat2Z.inj_add. exact Hrx'.
    - rewrite Hdata, Etake. fold src. rewrite <-(take_drop (Z.to_nat rd) src) at 3. apply prefix_app, prefix_take.
    - intros H. rewrite S6. destruct (e_told e) eqn:Et.
      + destruct (Htold eq_refl) as [->|?]; [|by left]. rewrite app_nil_r. auto.
      + destruct (Heof' H) as [?|(-> & Her & Hee)]; [by left|right]. by rewrite app_nil_r.
    - eapply eof_ok_frame; [exact eo_eof0|done..].
    - eapply (sane_frame b (b + 10) (e_tcb e)); [done|done|done|by left|lia|done].
    - eapply counted_mono; [done|lia].
    - rewrite Hen. unfold base, sent in *. cbn. by rewrite Si. }
  assert (e_told e = true → released (e_tcb e) = true ∨ rd = Z.of_nat (length src)) as Htold.
  { intros H. destruct (eo_told0 H) as [?|[Er _]]; [by left|right]. unfold rd. by rewrite Er. }
  assert (Z.of_nat (length src) ≤ LIMIT) as HL by (pose proof (sent_bound _ _ _ _ _ _ Hp); fold src in H; lia).
  destruct Hrx as [Hrx|(Hr0 & -> & Hrx)].
  - destruct (recv_ok _ _ _ _ _ _ _ room Hrx HL Ha) as (t' & r & -> & Htx' & Hst & Hpf & Hr). cbn [mbind option_bind]. destruct r as [data|err].
    + destruct Hr as (Hd & Hrx' & Hlen & Hnil). apply Hdone; try done; [by left| |].
      * destruct data; [|done]. intros Hroom%Z.ltb_lt. destruct (Hnil eq_refl) as (-> & Hnr & Hall). destruct (Hall Hroom) as [HR Hfin].
        destruct (nothing_read_eof _ _ eo_eof0 Hnr Hroom) as [Hf|?]; [right|by left]. destruct (rk_fin _ _ _ _ _ _ _ Hrx Hf) as (_ & Hen & _). split_and!; try done.
        rewrite Etake. rewrite (Hfin Hf), Nat2Z.id. apply take_ge. lia.
      * intros H. destruct (Htold H) as [?|Hall]; [by right|left]. rewrite Hd, drop_ge by lia. by rewrite take_nil.
    + subst t'. apply Hdone; try done; [by rewrite Z.add_0_r; left|by left].
  - pose proof Hrx as []. unfold tcb_recv. rewrite rn_len0. rewrite (proj2 (Z.ltb_ge 0 (Z.min room 0))) by lia. cbn [mbind option_bind].
    assert (∀ r, nothing_read (e_tcb e) room = r → match r with Ok d => d | Err _ => [] end = []) as Hnil.
    { intros r <-. unfold nothing_read. destruct (_ || _); [done|]. destruct (error _); [done|]. by destruct (state _). }
    rewrite (Hnil _ eq_refl). apply Hdone; try done; [right; split_and!; try done; cbn; lia| |by left].
    destruct (nothing_read (e_tcb e) room) as [d|] eqn:En; [|done]. pose proof (Hnil _ eq_refl) as Ed. cbn in Ed. subst d. intros Hroom%Z.ltb_lt.
    destruct (nothing_read_eof _ _ eo_eof0 En Hroom) as [?|?]; [congruence|by left].
Qed.

Lemma write_kept data : W + Z.of_nat (length data) ≤ LIMIT → kept_by b W e p M Mp (Write data) (do e p (Write data)).
Proof.
  intros HW. cbn [do]. pose proof He as []. destruct eo_tx0 as (U & N & Htx), eo_rx0 as (R & Hrx). unfold write.
  destruct (send_ok _ _ _ _ _ _ data Htx) as (t' & bk & r & -> & Hrx' & Hst & (K1 & K2 & K3 & K4 & K5)%kept_inv & Hs' & Hr); [lia|]. cbn [mbind option_bind].
  assert (∃ n, (match r with Ok n => n | Err _ => 0 end) = n ∧ 0 ≤ n ≤ Z.of_nat (length data) ∧ (0 < n → fin_seq (e_tcb e) = None) ∧
    tx_ok (e_written e ++ take (Z.to_nat n) data) t' (default (e_tx e) bk) U N M) as (n & -> & Hn & Hfin & Htx').
  { destruct r as [n|err]; [by exists n|]. destruct Hr as [-> ->]. exists 0. split_and!; try done; [lia|]. by rewrite app_nil_r. }
  set (e' := {| e_tcb := t' |}). exists e', M. split; [done|]. cbn [offered].
  assert (ended t' = ended (e_tcb e)) as Hen by (unfold ended; by rewrite K2).
  assert (sent e' M = sent e M) as Hsent.
  { unfold sent, sent_of. cbn [e_written e']. destruct (decide (0 < n)); [|replace (Z.to_nat n) with 0%nat by lia; by rewrite app_nil_r].
    apply take_app_le. destruct Htx as [[] _ _ _ _]. rewrite (Hfin ltac:(lia)) in tk_sent0. lia. }
  split_and!; [|lia|unfold base; cbn; by rewrite K1|rewrite Hsent; cbn; rewrite Hen; apply grows_refl].
  split; cbn [e' e_tcb e_rx e_tx e_counters e_written e_read e_told e_sent]; fold e'; rewrite ?Hsent, ?Hen, ?K5; try done.
  - by exists U, N.
  - exists R. eapply rx_side_frame; [exact Hrx'|rewrite Hst; apply moves_refl| |done]. rewrite Hst. by left.
  - eapply eof_ok_frame; [exact eo_eof0|done|by destruct Hrx' as (_ & _ & _ & ?)|done|done].
  - apply Hs'. eapply sane_ten; [|done]. lia.
  - eapply counted_mono; [done|lia].
  - rewrite length_app, length_take. lia.
  - unfold base in *. cbn. by rewrite K1.
Qed.

Lemma emit_kept now : act_ok (Emit now) = true → kept_by b W e p M Mp (Emit now) (do e p (Emit now)).
Proof.
  intros Ha. cbn in Ha. breflect. cbn [do]. pose proof He as []. destruct eo_tx0 as (U & N & Htx), eo_rx0 as (R & Hrx). unfold emit.
  assert (Z.of_nat (length (sent p Mp)) ≤ LIMIT) as HL by (pose proof (sent_bound _ _ _ _ _ _ Hp); lia).
  assert (∃ free, rx_free (e_tcb e) = Some free) as [free Hfree].
  { destruct Hrx as [Hrx|(_ & _ & [])]; [destruct (rx_free_ok _ _ _ _ _ _ _ HL Hrx) as (w & -> & _); by exists w|].
    unfold rx_free, rx_used. destruct rn_buf0 as [bu ->]. rewrite rn_runs0, rn_len0. cbn. by eexists. }
  assert (in_u 32 (rcv_nxt (e_tcb e))) as Hrcv by (destruct Hrx as [[]|(_ & _ & [])]; [rewrite rk_rcv0; apply sq_in_u|done]).
  assert (Forall (block_ok (base p) Mp) (nearest_runs SACK_BLOCKS (rcv_nxt (e_tcb e)) (ooo (e_tcb e)))) as Hblk.
  { destruct Hrx as [[]|(_ & _ & [])].
    - eapply nearest_runs_ok; [|exact rk_runs0|]; [lia|]. intros j Hj Hpr%present_lt; [|lia]. unfold sent, sent_of in Hpr. rewrite length_take in Hpr. lia.
    - rewrite rn_runs0. eapply (nearest_runs_ok (base p) (λ _, False) (-1) 0); [lia|by apply Forall_replicate|done]. }
  destruct (tcb_segment_ok _ _ _ _ _ _ (e_counters e) b now free (base p) Mp Htx Hfree Hrcv Hblk) as (t' & k' & s & N' & M' & -> & [] & Hk' & Hs); [done|done|lia|].
  cbn [mbind option_bind].
  assert (∃ out, match s with None => Some [] | Some s => q ← payload_of (e_tx e) s; Some [on_wire (sg_header s) q] end = Some out ∧
    Forall (λ sg, (∃ a, seg_ok (iss t' + 1) (sent_of M' (e_written e)) (ended t') sg a) ∧ Forall (block_ok (base p) Mp) (tcp_sack sg)) out) as (out & -> & Hout).
  { destruct s as [s|]; [|by exists []]. destruct (Hs s eq_refl) as (sack & (q & a & -> & Hseg & Hsack) & Hok). eexists. split; [done|]. constructor; [|done].
    split; [by exists a|]. cbn. by rewrite Hsack. }
  cbn [mbind option_bind]. set (e' := {| e_tcb := t' |}). exists e', M'. cbn [offered]. rewrite Z.add_0_r. split; [done|].
  assert (grows (sent e M) (ended (e_tcb e)) (sent e' M') (ended t')) as Hg.
  { unfold sent, sent_of. cbn [e_written e']. exists (take (Z.to_nat M' - Z.to_nat M) (drop (Z.to_nat M) (e_written e))). split.
    - rewrite take_drop_commute. replace (Z.to_nat M + (Z.to_nat M' - Z.to_nat M))%nat with (Z.to_nat M') by lia.
      rewrite <-(take_drop (Z.to_nat M) (take (Z.to_nat M') (e_written e))) at 1. f_equal. rewrite take_take. f_equal. lia.
    - intros Hen. split; [|auto]. unfold ended in Hen. destruct Htx as [[] _ _ _ _]. destruct (fin_seq (e_tcb e)) as [f|] eqn:Ef; [|done].
      destruct (tk_fin0 f eq_refl) as (_ & _ & HM). rewrite drop_ge by lia. apply take_nil. }
  split_and!; [|done|unfold base; cbn; by rewrite em_iss0|exact Hg].
  split; cbn [e' e_tcb e_rx e_tx e_counters e_written e_read e_told e_sent]; fold e'; rewrite ?em_released0; try done.
  - by exists U, N'.
  - exists R. eapply rx_side_frame; [exact em_rx0|rewrite em_state0; apply moves_refl| |done]. rewrite em_state0. by left.
  - eapply eof_ok_frame; [exact eo_eof0|done|by destruct em_rx0 as (_ & _ & _ & ?)|done|done].
  - apply em_sane0. eapply sane_ten; [|done]. lia.
  - eapply counted_mono; [done|lia].
  - apply Forall_app. split; [|exact Hout]. eapply Forall_impl; [exact eo_net0|]. intros sg [[a Ha2] Hbl]. split; [|done]. exists a.
    unfold base in *. cbn. rewrite em_iss0. by eapply seg_ok_grows.
Qed.

Lemma do_ok a : act_ok a = true → W + offered a ≤ LIMIT → kept_by b W e p M Mp a (do e p a).
Proof.
  destruct a; intros Ha HW; [by apply write_kept|by apply read_kept|apply shutdown_kept|apply abort_kept|by apply emit_kept|by apply tick_kept|by apply arrive_kept].
Qed.
End Step.


(** ** The opening *)

Record setup_ok (c : Setup) (b : Z) : Prop := {
  su_client : in_u 32 (client_iss c);
  su_server : in_u 32 (server_iss c);
  su_rings : length (ring_a c) = FRAME_MAX ∧ length (ring_b c) = FRAME_MAX ∧ length (ring_c c) = FRAME_MAX ∧ length (ring_d c) = FRAME_MAX;
  su_counters : counted b (count_a c) ∧ counted b (count_b c) }.

Lemma opened_core st v port ip rport n r x ring : in_u 32 n → length ring = FRAME_MAX → tx_core [] (opened st v port ip rport n r x) ring (-1) (-1) (-1).
Proof.
  intros Hn Hl. pose proof RING_eq. split; cbn; try done; try lia; unfold at_; cbn; rewrite ?(iss_at n Hn); try done.
  - unfold done_of. cbn. unfold sq. by rewrite Z.add_0_r.
  - unfold done_of. cbn. lia.
  - by repeat constructor.
Qed.

(** The SYN of an active open. *)
Lemma syn_emitted c b now :
  setup_ok c b → 0 ≤ now ≤ NOW_MAX → 0 ≤ b →
  let t := opened SynSent (bit SynSent) (client_port c) (server_ip c) (server_port c) (client_iss c) 0 1 in
  ∃ t' h, tcb_segment t (count_a c) now = Some (t', count_a c, Some {| sg_remote_ip := server_ip c; sg_header := h; sg_data := None |}) ∧
    tx_ok [] t' (ring_b c) (-1) 0 0 ∧ same_rx t t' ∧ state t' = SynSent ∧ kept t' = kept t ∧ sane b t' ∧
    h_seq h = client_iss c ∧ h_ack h = 0 ∧ h_flags h = TCP_SYN ∧ h_sack h = replicate SACK_BLOCKS None.
Proof.
  intros [Hc Hs (_ & Hb & _) _] Hnow Hb0 t. pose proof (opened_core SynSent (bit SynSent) (client_port c) (server_ip c) (server_port c) _ 0 1 _ Hc Hb) as Hcore. fold t in Hcore.
  unfold tcb_segment. change (rx_free t) with (Some RING). cbn [mbind option_bind]. change (rst_now t) with false. change (state t) with SynSent. cbn iota.
  unfold send_syn. set (t1 := set_ack_now false t). change (snd_nxt t1) with (client_iss c). change (iss t1) with (client_iss c). rewrite Z.eqb_refl. cbn [negb].
  change (in_state t1 SynSent) with true. cbn iota. pose proof RING_eq.
  destruct (advance_ok t1 1 now (-1) (-1)) as (E1 & E2 & E3 & E4 & E5 & E6 & E7); [apply Hcore|apply Hcore|lia|unfold LIMIT; lia|lia|lia|].
  set (t2 := advance t1 1 now) in *. clearbody t2. eexists t2, _. split; [reflexivity|]. pose proof E4 as (K1 & K2 & K3 & K4 & K5)%kept_inv.
  split; [|split_and!; [exact E5|exact E6|exact E4|apply E7; by split|reflexivity..]].
  change (Z.max (-1) (-1 + 1)) with 0 in E3. change (-1 + 1) with 0 in E2.
  assert (fin_seq t2 = None) as Hf by (rewrite K2; done).
  split; rewrite ?E6, ?Hf; try done; [|by intros []; left].
  eapply core_moved; [exact Hcore|exact E1|exact E2|exact E3|lia|lia|rewrite Hf; cbn; lia|by rewrite Hf].
Qed.

(** The connection a listener makes for it. *)
Lemma passive_ok c b sg ended :
  setup_ok c b → tcp_seq sg = client_iss c → 0 ≤ b →
  let t := passive (syn_of 0 (client_ip c) sg) (server_iss c) 0 1 in
  tx_ok [] t (ring_d c) (-1) (-1) (-1) ∧ rx_ok (client_iss c + 1) [] ended t (ring_c c) 0 0 ∧ eof_ok t ∧ sane b t.
Proof.
  intros [Hc Hs (_ & _ & Hr & Hd) _] Hsg Hb t. split_and!; [| |done|by split].
  - split; [|done|done|by intros []; right|done]. eapply tx_core_frame; [|by apply (opened_core SynReceived 0 0 [] 0 (server_iss c) 0 1)]. done.
  - pose proof RING_eq. split; cbn; try done; try lia.
    + rewrite Hsg. unfold sq. rewrite Z.add_0_r. done.
    + by repeat constructor.
Qed.

Definition world_ok (b : Z) (W : side → Z) (w : World) : Prop :=
  ∃ M : side → Z, ∀ s, end_ok b (W s) (w s) (w (other s)) (M s) (M (other s)).

Lemma start_ok c b now : setup_ok c b → 0 ≤ now ≤ NOW_MAX → 0 ≤ b → ∃ w, start c now = Some w ∧ world_ok b (λ _, 0) w.
Proof.
  intros Hc Hnow Hb. destruct (syn_emitted c b now Hc Hnow Hb) as (t' & h & Et & Htx & Hrx & Hst & Hkp & Hs & Hseq & Hack & Hfl & Hsk).
  unfold start, emit. cbn [e_tcb e_counters]. rewrite Et. cbn [mbind option_bind payload_of sg_data sg_header e_tx e_rx e_written e_read e_told e_sent app lookup list_lookup].
  eexists. split; [done|]. apply kept_inv in Hkp as (K1 & K2 & _ & K4 & K5).
  destruct (passive_ok c b (on_wire h []) (ended t') Hc Hseq Hb) as (P1 & P2 & P3 & P4). destruct Hc as [Hic His (R1 & R2 & R3 & R4) [C1 C2]].
  set (tp := passive _ _ _ _) in *. assert (iss tp = server_iss c ∧ fin_seq tp = None) as [Ip Fp] by done. clearbody tp.
  assert (ended t' = false ∧ iss t' = client_iss c) as [Hen Hi] by (unfold ended; rewrite K1, K2; done).
  assert (eof_ok t') as Heof by (unfold eof_ok; by rewrite Hst).
  exists (λ s, match s with Active => 0 | Passive => -1 end). intros []; split; cbn [e_tcb e_rx e_tx e_counters e_written e_read e_told e_sent other length]; try done.
  - by eexists _, _.
  - exists 0. right. split_and!; try done. destruct Hrx as (X1 & X2 & X3 & X4). pose proof RING_eq. split; rewrite ?X1, ?X2, ?X3, ?X4; cbn; try done; try lia. by left.
  - constructor; [|done]. split.
    + exists (-1). unfold base, sent. cbn. rewrite Hi. apply plain_ok; try done.
      * rewrite Hseq. symmetry. by apply iss_at.
      * rewrite Hack. unfold in_u, u_max. lia.
      * by rewrite Hfl.
    + cbn. rewrite Hsk. apply no_blocks.
  - by eexists _, _.
  - exists 0. left. unfold base, sent. cbn. rewrite Hi. done.
Qed.

(** ** Any number of steps *)

Definition offers (s : side) (l : list (side * act)) : Z :=
  foldr (λ x n, n + match s, x.1 with Active, Active | Passive, Passive => offered x.2 | _, _ => 0 end) 0 l.

Lemma offered_nonneg a : 0 ≤ offered a.
Proof. destruct a; cbn; lia. Qed.

Lemma offers_nonneg s l : 0 ≤ offers s l.
Proof. unfold offers. induction l as [|[s' a] l IH]; cbn [foldr]; [lia|]. pose proof (offered_nonneg a). destruct s, s'; cbn [fst snd]; lia. Qed.

Lemma step_ok b W w x :
  world_ok b W w → act_ok x.2 = true → (∀ s, W s + offers s [x] ≤ LIMIT) → b + 10 < 2 ^ 31 →
  ∃ w', step w x = Some w' ∧ world_ok (b + 10) (λ s, W s + offers s [x]) w'.
Proof.
  intros [M HM] Ha HW Hb. destruct x as [s a]. cbn [fst snd] in *.
  assert (∀ s', W s' ≤ LIMIT) as HWl by (intros s'; pose proof (HW s'); pose proof (offers_nonneg s' [(s, a)]); lia).
  pose proof (HM s) as He. pose proof (HM (other s)) as Hp. replace (other (other s)) with s in Hp by (by destruct s).
  destruct (do_ok b (W s) (W (other s)) (w s) (w (other s)) (M s) (M (other s)) He Hp (HWl _) Hb a Ha) as (e' & M' & E & He' & HM' & Hbase & Hg).
  { specialize (HW s). unfold offers in HW. cbn in HW. destruct s; lia. }
  unfold step. cbn [fst snd]. rewrite E. cbn [mbind option_bind]. eexists. split; [done|].
  exists (λ s', match s, s' with Active, Active | Passive, Passive => M' | _, _ => M s' end).
  pose proof (peer_ok _ _ _ _ _ _ _ _ Hp Hbase HM' Hg) as Hp'.
  intros s'. unfold offers. cbn. destruct s, s'; cbn in *; first [exact He'|eapply end_ok_mono; [..|exact Hp']; lia].
Qed.

Lemma run_ok l : ∀ b W w,
  world_ok b W w → Forall (λ x, act_ok x.2 = true) l → (∀ s, W s + offers s l ≤ LIMIT) → b + 10 * Z.of_nat (length l) < 2 ^ 31 →
  ∃ w', run w l = Some w' ∧ world_ok (b + 10 * Z.of_nat (length l)) (λ s, W s + offers s l) w'.
Proof.
  induction l as [|x l IH]; intros b W w Hw Hl HW Hb; cbn [run].
  { exists w. split; [done|]. destruct Hw as [M HM]. exists M. intros s. eapply end_ok_mono; [..|exact (HM s)]; cbn; lia. }
  inversion Hl as [|? ? Hx Hl']; subst.
  assert (∀ s, offers s (x :: l) = offers s l + offers s [x]) as Ho by (intros s; unfold offers; cbn; lia).
  destruct (step_ok b W w x Hw Hx) as (w1 & -> & Hw1); [|cbn [length] in Hb; lia|].
  { intros s. specialize (HW s). rewrite Ho in HW. pose proof (offers_nonneg s l). lia. }
  cbn [mbind option_bind length] in *. destruct (IH (b + 10) (λ s, W s + offers s [x]) w1 Hw1 Hl') as (w' & E & M & HM); [|lia|].
  { intros s. specialize (HW s). rewrite Ho in HW. lia. }
  exists w'. split; [done|]. exists M. intros s. eapply end_ok_mono; [..|exact (HM s)]; cbn beta; rewrite ?Ho; lia.
Qed.

(** C1. Two programs connected by [tcp.rs] over any network.  However the segments either end
    has sent are delivered, in whatever order, again and again or never, and whatever the
    programs and the clocks do meanwhile, no call of the code panics, each program has read a
    prefix of what the other wrote, and one that was told the stream has ended has read all of
    it, unless it had given its own connection up.  Up to [2^30] bytes each way and about
    [2^27] steps. *)
Theorem streams_are_delivered c b now acts :
  setup_ok c b → 0 ≤ now ≤ NOW_MAX → 0 ≤ b → Forall (λ x, act_ok x.2 = true) acts → (∀ s, offers s acts ≤ LIMIT) → b + 10 * Z.of_nat (length acts) < 2 ^ 31 →
  ∃ w, (start c now ≫= λ w, run w acts) = Some w ∧
    ∀ s, e_read (w s) `prefix_of` e_written (w (other s)) ∧
      (e_told (w s) = true → released (e_tcb (w s)) = true ∨
        (e_read (w s) = e_written (w (other s)) ∧ fin_queued (e_tcb (w (other s))) = true)).
Proof.
  intros Hc Hnow Hb Ha Ho Hn. destruct (start_ok c b now Hc Hnow Hb) as (w0 & -> & Hw0). cbn [mbind option_bind].
  destruct (run_ok acts b _ w0 Hw0 Ha) as (w & -> & M & HM); [intros s; specialize (Ho s); lia|done|]. exists w. split; [done|]. intros s. pose proof (HM s) as [].
  split; [etransitivity; [exact eo_read0|apply prefix_take]|]. intros H. destruct (eo_told0 H) as [?|[Er Hen]]; [by left|right].
  pose proof (HM (other s)) as Hp. destruct (eo_tx _ _ _ _ _ _ Hp) as (U & N & [[] _ _ _ _]). unfold ended in Hen.
  destruct (fin_seq (e_tcb (w (other s)))) as [f|] eqn:Ef; [|done]. destruct (tk_fin0 f eq_refl) as (_ & Hq & HM'). split; [|done].
  rewrite Er. unfold sent, sent_of. apply take_ge. lia.
Qed.


(** ** A run: the data overtakes the handshake's last acknowledgement, the first copy of a
    segment is lost, and segments arrive twice and out of order. *)

Definition a_setup : Setup := {|
  client_ip := [10; 0; 2; 15]; client_port := 49152; server_ip := [10; 0; 2; 2]; server_port := 80; client_iss := 2 ^ 32 - 3; server_iss := 7;
  ring_a := replicate FRAME_MAX 0; ring_b := replicate FRAME_MAX 0; ring_c := replicate FRAME_MAX 0; ring_d := replicate FRAME_MAX 0;
  count_a := λ _, 0; count_b := λ _, 0 |}.

Definition a_text : Bytes := Z.of_nat <$> seq 0 250.
Definition a_run : list (side * act) := [
  (Passive, Emit 1); (Active, Arrive 0 54 2); (Active, Write a_text); (Active, Shutdown); (Active, Emit 3); (Active, Emit 3); (Active, Emit 3);
  (Passive, Arrive 2 54 4); (Passive, Arrive 2 54 4); (Passive, Arrive 3 54 4); (Passive, Emit 5); (Active, Arrive 1 54 6); (Active, Tick 900000000);
  (Active, Emit 900000001); (Passive, Arrive 4 54 900000002); (Passive, Read 100); (Passive, Emit 900000003);
  (Active, Arrive 2 54 900000004); (Active, Emit 900000004); (Active, Emit 900000004); (Passive, Arrive 5 54 900000005); (Passive, Read 1000); (Passive, Read 1000)].

(** Everything written is read, and then the end of the stream. *)
Example a_run_delivers :
  (λ w, (e_read (w Passive), e_told (w Passive), state (e_tcb (w Passive)))) <$> (start a_setup 0 ≫= λ w, run w a_run) = Some (a_text, true, CloseWait).
Proof. vm_compute. reflexivity. Qed.

Lemma streams_are_delivered_witness :
  ∃ w, (start a_setup 0 ≫= λ w, run w a_run) = Some w ∧ e_read (w Passive) `prefix_of` e_written (w Active).
Proof.
  destruct (streams_are_delivered a_setup 0 0 a_run) as (w & E & H).
  - split; [unfold in_u, u_max; cbn; lia|unfold in_u, u_max; cbn; lia|done|]. split; intros c; cbn; lia.
  - unfold NOW_MAX. lia.
  - lia.
  - repeat constructor.
  - intros []; vm_compute; discriminate.
  - cbn. lia.
  - exists w. split; [exact E|]. exact (proj1 (H Passive)).
Defined.

End TcpStream.
