(* ===== verification/NetTcpRobust.v ===== *)
(** * TCP: any segment at all

    A connection against a peer that may send anything.  Its numbers stay in range and its runs
    inside its ring whatever arrives, so that no arithmetic of the code overflows and no index
    is out of bounds. *)

From S2P Require Import Prelude NetWire NetLink NetTcp NetTcpSeq NetTcpRecv NetTcpSend.
Import Wire NetTcp TcpSeq TcpRecv TcpSend.
Local Open Scope Z_scope.

Module TcpRobust.

Definition fin_of (t : Tcb) : Z := if peer_fin t then 1 else 0.
Definition ring_wf (r : Ring) : Prop := 0 ≤ head r < RING ∧ 0 ≤ rlen r ≤ RING.

(** [b] bounds what the connection counts.  The next byte to read is position [0]; those held
    in order end at [rlen], and the runs lie between there and the end of the ring. *)
Record tcb_wf (b : Z) (t : Tcb) : Prop := {
  tw_sane : sane b t;
  tw_iss : in_u 32 (iss t);
  tw_una : in_u 32 (snd_una t);
  tw_tx : ring_wf (tx t);
  tw_rx : ring_wf (rx t);
  tw_runs : ∃ base, rcv_nxt t = sq base (rlen (rx t) + fin_of t) ∧ runs_ok base (λ _, True) (rlen (rx t)) RING (ooo t);
  tw_slots : length (ooo t) = OOO_SEGMENTS;
  tw_syn : state t = SynSent → Forall (λ r, r = None) (ooo t);
  tw_fin : peer_fin t = true → after_fin (state t) = true }.

(** What an operation does to a connection: it stays well-formed in a state the diagram leads
    to, and keeps its place in the table and its two buffers. *)
Record tcb_step (b : Z) (t t' : Tcb) : Prop := {
  ts_wf : tcb_wf b t';
  ts_moves : moves (state t) (state t');
  ts_rx : buf (rx t') = buf (rx t);
  ts_tx : buf (tx t') = buf (tx t);
  ts_slot : (active t', generation t') = (active t, generation t) }.

Lemma step_trans b b' t1 t2 t3 : tcb_step b t1 t2 → tcb_step b' t2 t3 → tcb_step b' t1 t3.
Proof. intros [] []. split; try done; [by eapply moves_trans|congruence..]. Qed.

Lemma sane_more b b' t : b ≤ b' → sane b t → sane b' t.
Proof. intros Hb Hs. eapply (sane_frame b b' t); first [done|by left]. Qed.

Lemma tcb_wf_mono b b' t : b ≤ b' → tcb_wf b t → tcb_wf b' t.
Proof. intros Hb []. split; try done. by eapply sane_more. Qed.

Lemma step_refl b b' t : tcb_wf b t → b ≤ b' → tcb_step b' t t.
Proof. intros H Hb. split; try done. by eapply tcb_wf_mono. Qed.

(** Neither side's data moves. *)
Lemma step_frame b b' t t' :
  tcb_wf b t → same_rx t t' → tx t' = tx t → iss t' = iss t → in_u 32 (snd_una t') → sane b' t' → moves (state t) (state t') →
  (active t', generation t') = (active t, generation t) → tcb_step b' t t'.
Proof.
  intros [] (E1 & E2 & E3 & E4) Et Ei Hu Hs Hm Hsl. split; try done; [|by rewrite E1|by rewrite Et].
  split; rewrite ?E1, ?E2, ?E3, ?Et, ?Ei; unfold fin_of; rewrite ?E4; try done.
  - intros H. apply tw_syn0. destruct (decide (state t = SynSent)) as [|Hne]; [done|]. by destruct (moves_not_syn_sent _ _ Hm Hne).
  - intros H. eapply moves_after_fin; [exact Hm|auto].
Qed.

Lemma enter_slot t s : (active (enter t s), generation (enter t s)) = (active t, generation t).
Proof. unfold enter. by destruct (_ || _). Qed.

Lemma enter_step b b' t s : tcb_wf b t → b ≤ b' → moves (state t) s → tcb_step b' t (enter t s).
Proof.
  intros Hwf Hb Hm. destruct (enter_view t s) as (Hv & Hrx & Hst). unfold tx_view in Hv. injection Hv as V1 V2 _ V4 _ _ _ _ _. pose proof Hwf as [].
  eapply step_frame; [exact Hwf|done|done|done|by rewrite V4|apply enter_sane; by eapply sane_more|by rewrite Hst|apply enter_slot].
Qed.

(** ** Acknowledgements *)

Lemma ack_window_total b c t ack acked k :
  tcb_wf b t → counted c k → c < 2 ^ 60 →
  ∃ t' k', ack_window t ack acked k = Some (t', k') ∧ tcb_step b t t' ∧ counted (c + 2) k' ∧ state t' = state t.
Proof.
  intros Hwf Hk Hb. pose proof Hwf as []. unfold ack_window. destruct (recovering t); [destruct (seq_le _ _)|].
  - eexists _, k. split; [done|]. split_and!; [|eapply counted_mono; [done|lia]|done].
    eapply step_frame; [exact Hwf|done..| |done|done]. eapply (sane_frame b b t); first [done|lia|by left].
  - destruct (bump_counted c fast_retransmits k Hk ltac:(lia)) as (k1 & -> & Hk1). cbn [mbind option_bind].
    destruct (bump_counted (c + 1) partial_acks k1 Hk1 ltac:(lia)) as (k2 & -> & Hk2). cbn [mbind option_bind].
    eexists _, k2. split; [done|]. split_and!; [|eapply counted_mono; [done|lia]|done].
    eapply step_frame; [exact Hwf|done..| |done|done]. eapply (sane_frame b b t); first [done|lia|by right].
  - eexists _, k. split; [done|]. split_and!; [|eapply counted_mono; [done|lia]|done].
    eapply step_frame; [exact Hwf|done..| |done|done]. eapply (sane_frame b b t); first [done|lia|by left].
Qed.

Lemma drop_sent_total b t d :
  tcb_wf b t → 0 ≤ d ≤ rlen (tx t) → ∃ t', drop_sent t d = Some t' ∧ tcb_step b t t' ∧ state t' = state t ∧ snd_una t' = snd_una t.
Proof.
  intros Hwf Hd. pose proof Hwf as []. destruct tw_tx0 as [Hh Hl]. pose proof RING_eq. unfold drop_sent. rewrite usize_add_ok by lia. cbn [mbind option_bind].
  unfold checked_sub. rewrite (proj2 (Z.leb_le _ _)) by lia. cbn [mbind option_bind]. eexists. split; [done|]. split; [|done]. split; try done. split; try done.
  - eapply (sane_frame b b t); first [done|lia|by left].
  - split; cbn; [apply Z.mod_pos_bound; lia|lia].
Qed.

Lemma measure_total b t ack now k :
  tcb_wf b t → 0 ≤ now ≤ NOW_MAX → counted b k → b < 2 ^ 60 → ∃ t' k', measure t ack now k = Some (t', k') ∧ tcb_step b t t' ∧ counted (b + 1) k' ∧ state t' = state t.
Proof.
  intros Hwf Hn Hk Hb. pose proof Hwf as []. destruct (measure_ok t ack now k b Hn tw_sane0 Hk Hb) as (t' & k' & E & Hk' & Hs' & Hrx & Hst & Hv).
  exists t', k'. split; [done|]. split_and!; try done. unfold tx_view in Hv. injection Hv as V1 V2 _ V4 _ _ _ _ _.
  eapply step_frame; [exact Hwf|done|done|done|by rewrite V4|done|by rewrite Hst|].
  unfold measure, sample_rtt in E. repeat (case_match || simplify_option_eq); done.
Qed.

Lemma acknowledge_total b t ack now k :
  tcb_wf b t → in_u 32 ack → (snd_una t = iss t → ack ≠ snd_una t) → 0 ≤ now ≤ NOW_MAX → counted b k → b < 2 ^ 59 →
  ∃ t' k', acknowledge t ack now k = Some (t', k') ∧ tcb_step b t t' ∧ counted (b + 3) k' ∧ state t' = state t.
Proof.
  intros Hwf Hack Hne Hn Hk Hb. pose proof Hwf as []. unfold acknowledge.
  assert (0 ≤ wrapping_sub 32 ack (snd_una t) < 2 ^ 32) as Hd by (apply Z.mod_pos_bound; lia).
  assert (snd_una t = iss t → wrapping_sub 32 ack (snd_una t) ≠ 0) as Hd0.
  { intros Hi E. apply (Hne Hi). unfold wrapping_sub in E. apply Z.mod_divide in E as [q Hq]; [|lia]. unfold in_u, u_max in *. lia. }
  assert (∃ n, (if snd_una t =? iss t then checked_sub (wrapping_sub 32 ack (snd_una t)) 1 else Some (wrapping_sub 32 ack (snd_una t))) = Some n ∧ 0 ≤ n) as (n & -> & Hn0).
  { destruct (Z.eqb_spec (snd_una t) (iss t)) as [Hi|]; [|eexists; split; [done|lia]]. specialize (Hd0 Hi). unfold checked_sub. rewrite (proj2 (Z.leb_le _ _)) by lia. eexists. split; [done|lia]. }
  cbn [mbind option_bind]. destruct (drop_sent_total b t (Z.min n (rlen (tx t))) Hwf) as (t1 & -> & S1 & Hst1 & Hu1); [destruct tw_tx0; lia|]. cbn [mbind option_bind].
  set (t2 := if seq_lt _ _ then _ else _).
  assert (tcb_step b t1 t2 ∧ state t2 = state t1) as [S2 Hst2].
  { unfold t2. pose proof (ts_wf _ _ _ S1) as Hwf1. pose proof Hwf1 as []. destruct (seq_lt _ _); (split; [|done]);
      (eapply step_frame; [exact Hwf1|done|done|done|exact Hack| |done|done]); (eapply (sane_frame b b t1); first [done|lia|by left]). }
  clearbody t2. destruct (measure_total b t2 ack now k (ts_wf _ _ _ S2) Hn Hk ltac:(lia)) as (t3 & k3 & -> & S3 & Hk3 & Hst3). cbn [mbind option_bind].
  set (t4 := forget_sacked t3 ack).
  assert (tcb_step b t3 t4) as S4.
  { pose proof (ts_wf _ _ _ S3) as Hwf3. pose proof Hwf3 as []. eapply step_frame; [exact Hwf3|done..| |done|done]. eapply (sane_frame b b t3); first [done|lia|by left]. }
  destruct (ack_window_total b (b + 1) t4 ack (wrapping_sub 32 ack (snd_una t1)) k3 (ts_wf _ _ _ S4) Hk3 ltac:(lia)) as (t5 & k5 & -> & S5 & Hk5 & Hst5).
  cbn [mbind option_bind]. eexists _, k5. split; [done|]. pose proof (ts_wf _ _ _ S5) as Hwf5. pose proof Hwf5 as [[? ? ? ?] ? ? ? ? ? ? ? ?].
  split_and!; [|eapply counted_mono; [done|lia]|].
  - eapply step_trans; [exact S1|]. eapply step_trans; [exact S2|]. eapply step_trans; [exact S3|]. eapply step_trans; [exact S4|]. eapply step_trans; [exact S5|].
    eapply step_frame; [exact Hwf5|by destruct (is_none _)|by destruct (is_none _)|by destruct (is_none _)|by destruct (is_none _)| |by destruct (is_none _)|by destruct (is_none _)].
    split; destruct (is_none _); cbn; try done; lia.
  - transitivity (state t5); [by destruct (is_none _)|]. rewrite Hst5. change (state t4) with (state t3). congruence.
Qed.


Lemma established_total b c t k :
  tcb_wf b t → counted c k → c < 2 ^ 60 → presync (state t) →
  ∃ t' k', established t k = Some (t', k') ∧ tcb_step b t t' ∧ counted (c + 1) k' ∧ synced (state t').
Proof.
  intros Hwf Hk Hb Hp. unfold established. destruct (bump_counted c established_ k Hk ltac:(lia)) as (k1 & -> & Hk1). cbn [mbind option_bind].
  assert (moves (state t) Established) as Hm by (apply moves_once; destruct Hp as [-> | ->]; constructor).
  pose proof (enter_step b b t Established Hwf ltac:(lia) Hm) as S1. set (t1 := enter t Established) in *.
  assert (state t1 = Established) as Hst1 by (apply enter_view). clearbody t1. set (t2 := set_cwnd _ t1).
  assert (tcb_step b t1 t2) as S2.
  { pose proof (ts_wf _ _ _ S1) as Hwf1. pose proof Hwf1 as []. eapply step_frame; [exact Hwf1|done..| |done|done]. eapply (sane_frame b b t1); first [done|lia|by left]. }
  assert (state t2 = Established) as Hst2 by done. clearbody t2. eexists _, k1. split; [done|].
  split_and!; [|done|destruct (fin_queued t2); [rewrite (proj2 (proj2 (enter_view t2 FinWait1)))|rewrite Hst2]; by unfold synced].
  eapply step_trans; [exact S1|]. eapply step_trans; [exact S2|]. destruct (fin_queued t2); [|eapply step_refl; [exact (ts_wf _ _ _ S2)|lia]].
  apply (enter_step b); [exact (ts_wf _ _ _ S2)|lia|]. rewrite Hst2. apply moves_once. constructor.
Qed.

Lemma duplicate_ack_total b t k sg :
  tcb_wf b t → counted b k → b < 2 ^ 31 → ∃ t' k', duplicate_ack t k sg = Some (t', k') ∧ tcb_step (b + 1) t t' ∧ counted (b + 2) k' ∧ state t' = state t.
Proof.
  intros Hwf Hk Hb. unfold duplicate_ack. destruct (bump_counted b dup_acks_ k Hk ltac:(lia)) as (k1 & -> & Hk1). cbn [mbind option_bind].
  pose proof Hwf as [[Hd Hr Hsr Htm] ? ? ? ? ? ? ? ?]. unfold checked_add. rewrite (proj2 (Z.leb_le _ _)) by (unfold u_max; lia). cbn [mbind option_bind].
  set (t1 := set_dup_acks _ t). set (t2 := if sack_ok t1 then _ else t1).
  assert (tcb_step (b + 1) t t2 ∧ state t2 = state t) as [S2 Hst2].
  { unfold t2. destruct (sack_ok t1); (split; [|done]); (eapply step_frame; [exact Hwf|done..| |done|done]); (split; cbn; try done; lia). }
  clearbody t2. pose proof (ts_wf _ _ _ S2) as Hwf2. pose proof Hwf2 as []. destruct (recovering t2).
  { eexists _, k1. split; [done|]. split_and!; [|eapply counted_mono; [done|lia]|done]. eapply step_trans; [exact S2|].
    eapply step_frame; [exact Hwf2|done..| |done|done]. eapply (sane_frame (b + 1) (b + 1) t2); first [done|lia|by left]. }
  destruct (_ =? _).
  - destruct (bump_counted (b + 1) fast_retransmits k1 Hk1 ltac:(lia)) as (k2 & -> & Hk2). cbn [mbind option_bind]. eexists _, k2. split; [done|].
    split_and!; [|eapply counted_mono; [done|lia]|done]. eapply step_trans; [exact S2|]. eapply step_frame; [exact Hwf2|done..| |done|done].
    eapply (sane_frame (b + 1) (b + 1) t2); first [done|lia|by right].
  - eexists t2, k1. split; [done|]. split_and!; [done|eapply counted_mono; [done|lia]|done].
Qed.

Lemma seq_lt_ne a c : seq_lt a c = true → c ≠ a.
Proof. unfold seq_lt. intros H ->. by rewrite Z.eqb_refl in H. Qed.

Lemma segment_ack_total b t k sg now :
  tcb_wf b t → in_u 32 (tcp_ack sg) → 0 ≤ now ≤ NOW_MAX → counted b k → b < 2 ^ 31 →
  ∃ t' k' out, segment_ack t k sg now = Some (t', k', out) ∧ tcb_step (b + 1) t t' ∧ counted (b + 4) k' ∧ (∀ o, out = Some o → o_deliver o = None) ∧
    (out = None → state t ≠ SynSent → state t ≠ Listen → synced (state t')).
Proof.
  intros Hwf Hack Hnow Hk Hb. unfold segment_ack, in_state. case_bool_decide as Est.
  - destruct (seq_lt _ _ && _) eqn:E; cbn [negb].
    2:{ eexists _, k, _. split; [done|]. split_and!; [eapply step_refl; [exact Hwf|lia]|eapply counted_mono; [done|lia]|by intros o [= <-]|done]. }
    breflect. set (t1 := set_snd_wnd _ t).
    assert (tcb_step b t t1) as S1.
    { pose proof Hwf as []. eapply step_frame; [exact Hwf|done..| |done|done]. eapply (sane_frame b b t); first [done|lia|by left]. }
    destruct (acknowledge_total b t1 (tcp_ack sg) now k (ts_wf _ _ _ S1) Hack (λ _, seq_lt_ne _ _ H) Hnow Hk ltac:(lia)) as (t2 & k2 & -> & S2 & Hk2 & Hst2). cbn [mbind option_bind].
    destruct (established_total b (b + 3) t2 k2 (ts_wf _ _ _ S2) Hk2 ltac:(lia)) as (t3 & k3 & -> & S3 & Hk3 & Hsy3); [right; by rewrite Hst2|]. cbn [mbind option_bind].
    eexists _, k3, None. split; [done|]. split_and!; [|eapply counted_mono; [done|lia]|done|done]. pose proof (step_trans _ _ _ _ _ S1 (step_trans _ _ _ _ _ S2 S3)) as S.
    eapply step_trans; [exact S|]. eapply step_refl; [exact (ts_wf _ _ _ S)|lia].
  - destruct (seq_lt (snd_max t) _).
    { eexists _, k, _. split; [done|]. split_and!; [|eapply counted_mono; [done|lia]|by intros o [= <-]|done]. pose proof Hwf as [].
      eapply step_frame; [exact Hwf|done..| |done|done]. eapply (sane_frame b (b + 1) t); first [done|lia|by left]. }
    assert (∃ t1 k1, (if seq_lt (snd_una t) (tcp_ack sg) then acknowledge t (tcp_ack sg) now k
               else if (tcp_ack sg =? snd_una t) && (payload_len sg =? 0) && negb (flag sg TCP_FIN) && (tcp_window sg =? snd_wnd t) && negb (snd_una t =? snd_max t)
               then duplicate_ack t k sg else Some (t, k)) = Some (t1, k1) ∧ tcb_step (b + 1) t t1 ∧ counted (b + 4) k1 ∧ state t1 = state t) as (t1 & k1 & -> & S1 & Hk1 & Hst1).
    { destruct (seq_lt (snd_una t) (tcp_ack sg)) eqn:Eu; [|destruct (_ && negb (snd_una t =? snd_max t))].
      - destruct (acknowledge_total b t (tcp_ack sg) now k Hwf Hack (λ _, seq_lt_ne _ _ Eu) Hnow Hk ltac:(lia)) as (t2 & k2 & -> & S2 & Hk2 & Hst2).
        eexists _, k2. split; [done|]. split_and!; [|eapply counted_mono; [done|lia]|done]. eapply step_trans; [exact S2|]. eapply step_refl; [exact (ts_wf _ _ _ S2)|lia].
      - destruct (duplicate_ack_total b t k sg Hwf Hk Hb) as (t2 & k2 & -> & S2 & Hk2 & Hst2). eexists _, k2. split; [done|]. split_and!; [done|eapply counted_mono; [done|lia]|done].
      - eexists t, k. split; [done|]. split_and!; [eapply step_refl; [exact Hwf|lia]|eapply counted_mono; [done|lia]|done]. }
    cbn [mbind option_bind]. eexists _, k1, None. split; [done|].
    split_and!; [|done|done|intros _ H1 H2; assert (synced (state t1)) by (rewrite Hst1; by unfold synced); by destruct (seq_le _ _)].
    eapply step_trans; [exact S1|]. pose proof (ts_wf _ _ _ S1) as Hwf1.
    destruct (seq_le _ _); [|eapply step_refl; [exact Hwf1|lia]]. pose proof Hwf1 as []. eapply step_frame; [exact Hwf1|done..| |done|done].
    eapply (sane_frame (b + 1) (b + 1) t1); first [done|lia|by left].
Qed.

Lemma fin_acked_step b t now t' stop : tcb_wf b t → segment_fin_acked t now = (t', stop) → tcb_step b t t'.
Proof.
  intros Hwf E. destruct (segment_fin_acked_ok _ _ _ _ E) as (Hv & Hrx & Hm & Hs & _ & Hk & _). apply kept_slot in Hk as (K1 & K2 & _).
  unfold tx_view in Hv. injection Hv as V1 V2 _ V4 _ _ _ _ _. pose proof Hwf as [].
  eapply step_frame; [exact Hwf|done|done|done|by rewrite V4|auto|done|congruence].
Qed.

(** The peer's sequence number is taken from its SYN. *)
Lemma start_step b b' t t' n :
  tcb_wf b t → state t = SynSent → tcb_step b' (set_rcv_nxt (wrapping_add 32 n 1) t) t' → tcb_step b' t t'.
Proof. intros Hwf Hst []. by split. Qed.

Lemma syn_wf b t n : tcb_wf b t → state t = SynSent → in_u 32 n → tcb_wf b (set_rcv_nxt n t).
Proof.
  intros [] Hst Hn. split; try done; [eapply (sane_frame b b t); first [done|lia|by left]|]. cbn. destruct (sq_of 0 n Hn) as [x Ex]. exists (x - (rlen (rx t) + fin_of t)). split.
  - rewrite Ex. unfold sq, fin_of. cbn. f_equal. lia.
  - eapply Forall_impl; [exact (tw_syn0 Hst)|]. by intros ? ->.
Qed.

Lemma wrapping_in_u a n : in_u 32 (wrapping_add 32 a n).
Proof. unfold in_u, u_max, wrapping_add. pose proof (Z.mod_pos_bound (a + n) (2 ^ 32)). lia. Qed.

Lemma syn_received_step b t :
  tcb_wf b t → state t = SynSent → tcb_step (b + 1) t (set_snd_nxt (iss (enter t SynReceived)) (enter t SynReceived)).
Proof.
  intros Hwf Est. assert (tcb_step b t (enter t SynReceived)) as S2 by (apply (enter_step b); [exact Hwf|lia|rewrite Est; apply moves_once; constructor]).
  eapply step_trans; [exact S2|]. pose proof (ts_wf _ _ _ S2) as Hwf2. set (t2 := enter t SynReceived) in *. clearbody t2. pose proof Hwf2 as [].
  eapply step_frame; [exact Hwf2|done..| |done|done]. eapply (sane_frame b (b + 1) t2); first [done|lia|by left].
Qed.

Lemma syn_sent_total b t k sg now :
  tcb_wf b t → state t = SynSent → in_u 32 (tcp_ack sg) → 0 ≤ now ≤ NOW_MAX → counted b k → b < 2 ^ 31 →
  ∃ t' k' out, segment_syn_sent t k sg now = Some (t', k', out) ∧ tcb_step (b + 1) t t' ∧ counted (b + 4) k' ∧ o_deliver out = None.
Proof.
  intros Hwf Est Hack Hnow Hk Hb. pose proof (step_refl b (b + 1) t Hwf ltac:(lia)) as S0. assert (counted (b + 4) k) as Hk4 by (eapply counted_mono; [done|lia]).
  unfold segment_syn_sent. destruct (flag sg TCP_ACK && _) eqn:Ea; [by eexists _, _, _|]. destruct (flag sg TCP_RST).
  { destruct (flag sg TCP_ACK); [|by eexists _, _, _]. destruct (bump_counted b resets_received k Hk ltac:(lia)) as (k1 & -> & Hk1). cbn [mbind option_bind].
    eexists _, k1, _. split; [done|]. split_and!; [|eapply counted_mono; [done|lia]|done]. set (t1 := set_error _ t).
    assert (tcb_step b t t1) as S1.
    { pose proof Hwf as []. eapply step_frame; [exact Hwf|done..| |done|done]. eapply (sane_frame b b t); first [done|lia|by left]. }
    eapply step_trans; [exact S1|]. apply (enter_step b); [exact (ts_wf _ _ _ S1)|lia|]. apply moves_once. constructor. }
  destruct (flag sg TCP_SYN); cbn [negb]; [|by eexists _, _, _].
  pose proof (syn_wf b t _ Hwf Est (wrapping_in_u (tcp_seq sg) 1)) as Hwf1. set (t0 := set_rcv_nxt _ t) in *. set (t1 := set_ack_now true _).
  assert (tcb_step b t0 t1) as S1.
  { pose proof Hwf1 as []. eapply step_frame; [exact Hwf1|done..| |done|done]. eapply (sane_frame b b t0); first [done|lia|by left]. }
  assert (state t1 = SynSent ∧ snd_una t1 = snd_una t ∧ iss t1 = iss t) as (Est1 & Eu1 & Ei1) by done. clearbody t1.
  assert (tcb_step b t t1) as S01 by (eapply start_step; [exact Hwf|done|exact S1]).
  destruct (flag sg TCP_ACK).
  - cbn [andb] in Ea. breflect.
    assert (snd_una t1 = iss t1 → tcp_ack sg ≠ snd_una t1) as Hne.
    { intros ->. rewrite Ea, Ei1. clear -Hwf. destruct Hwf as [_ Hi _ _ _ _ _ _ _]. unfold in_u, u_max, wrapping_add in *. destruct (decide (iss t = 2 ^ 32 - 1)) as [->|]; [done|].
      rewrite Z.mod_small by lia. lia. }
    destruct (acknowledge_total b t1 (tcp_ack sg) now k (ts_wf _ _ _ S1) Hack Hne Hnow Hk ltac:(lia)) as (t2 & k2 & -> & S2 & Hk2 & Hst2). cbn [mbind option_bind].
    destruct (established_total b (b + 3) t2 k2 (ts_wf _ _ _ S2) Hk2 ltac:(lia)) as (t3 & k3 & -> & S3 & Hk3 & Hsy3); [left; by rewrite Hst2|]. cbn [mbind option_bind].
    eexists _, k3, _. split; [done|]. split_and!; [|eapply counted_mono; [done|lia]|done]. pose proof (step_trans _ _ _ _ _ S01 (step_trans _ _ _ _ _ S2 S3)) as S.
    eapply step_trans; [exact S|]. eapply step_refl; [exact (ts_wf _ _ _ S)|lia].
  - eexists _, k, _. split; [reflexivity|]. split_and!; [|done|done]. eapply step_trans; [exact S01|]. apply syn_received_step; [exact (ts_wf _ _ _ S1)|exact Est1].
Qed.


(** ** Text *)

Lemma past_total base Q lo hi f l :
  0 ≤ lo → hi ≤ RING → 0 ≤ f ≤ 1 → runs_ok base Q lo hi l → ∃ p, past (sq base (lo + f)) l = Some p ∧ 0 ≤ p ∧ (p = 0 ∨ p ≤ hi - lo).
Proof.
  intros Hlo Hhi Hf. pose proof RING_eq. induction 1 as [|r l Hr _ (p & IH & Hp & Hb)]; cbn [past foldr]; [exists 0; split; [done|]; lia|].
  change (foldr _ (Some 0) l) with (past (sq base (lo + f)) l). rewrite IH. cbn [mbind option_bind]. destruct r as [r|]; [|exists p; split; [done|]; lia].
  destruct Hr as (a & Ea & Ha & Hl & He & _). rewrite Ea, wrapping_sub_sq by lia. rewrite usize_add_ok by lia. cbn [mbind option_bind]. eexists. split; [done|]. lia.
Qed.

Lemma rx_free_total b t : tcb_wf b t → ∃ w, rx_free t = Some w ∧ 0 ≤ w ≤ RING.
Proof.
  intros [? ? ? ? [? ?] (base & Er & Hr) ? ? ?]. pose proof RING_eq. unfold rx_free, rx_used. destruct (buf (rx t)); [|exists 0; split; [done|lia]]. rewrite Er.
  destruct (past_total base (λ _, True) (rlen (rx t)) RING (fin_of t) (ooo t)) as (p & -> & Hp & Hb); [lia|lia|unfold fin_of; destruct (peer_fin t); lia|done|]. cbn [mbind option_bind].
  rewrite usize_add_ok by lia. cbn [mbind option_bind]. eexists. split; [done|]. unfold saturating_sub. lia.
Qed.

(** Setting the runs, and taking bytes in order. *)
Lemma step_runs b b' t l base :
  tcb_wf b t → b ≤ b' → rcv_nxt t = sq base (rlen (rx t) + fin_of t) → runs_ok base (λ _, True) (rlen (rx t)) RING l → length l = OOO_SEGMENTS → state t ≠ SynSent →
  tcb_step b' t (set_ooo l t).
Proof.
  intros [] Hb Hr Hl Hlen Hst. split; try done. split; try done; [|by exists base].
  eapply (sane_frame b b' t); first [done|lia|by left].
Qed.

Lemma receiving_open' b t : tcb_wf b t → receiving t = true → peer_fin t = false ∧ state t ≠ SynSent.
Proof.
  intros [] Hr. unfold receiving, in_state in Hr. split; [|by intros E; rewrite E in Hr]. destruct (peer_fin t); [|done]. specialize (tw_fin0 eq_refl). by destruct (state t).
Qed.

Lemma ahead_total b t k sg from :
  tcb_wf b t → receiving t = true → 0 ≤ from → payload_len sg ≤ u16_MAX → seq_lt (rcv_nxt t) (tcp_seq sg) = true → in_u 32 (tcp_seq sg) → counted b k → b < 2 ^ 60 →
  ∃ t' k' out, segment_ahead t k sg from = Some (t', k', out) ∧ tcb_step b t t' ∧ counted (b + 3) k' ∧
    (∀ d, o_deliver out = Some d → dl_ring d = buf (rx t) ∧ 0 ≤ dl_at d ∧ dl_from d = from ∧ 0 < dl_len d ≤ payload_len sg).
Proof.
  intros Hwf Hrec Hfrom Hpl Hlt Hseq Hk Hb. destruct (receiving_open' _ _ Hwf Hrec) as [Hpf Hst]. pose proof Hwf as [? ? ? ? [Hh Hl] (base & Er & Hr) Hs ? ?]. pose proof RING_eq as HRING.
  unfold fin_of in Er. rewrite Hpf, Z.add_0_r in Er. unfold u_max in Hpl. unfold segment_ahead.
  destruct (bump_counted b out_of_order k Hk ltac:(lia)) as (k1 & -> & Hk1). cbn [mbind option_bind]. set (t1 := set_ack_now true t).
  assert (tcb_step b t t1) as S1.
  { eapply step_frame; [exact Hwf|done..| |done|done]. eapply (sane_frame b b t); first [done|lia|by left]. }
  set (ahead := wrapping_sub 32 (tcp_seq sg) (rcv_nxt t1)). assert (0 < ahead < 2 ^ 31) as Ha.
  { unfold seq_lt in Hlt. breflect. unfold ahead. change (rcv_nxt t1) with (rcv_nxt t). split; [|done]. unfold wrapping_sub.
    pose proof (Z.mod_pos_bound (tcp_seq sg - rcv_nxt t) (2 ^ 32) ltac:(lia)). assert ((tcp_seq sg - rcv_nxt t) mod 2 ^ 32 ≠ 0); [|lia].
    intros E. apply Z.mod_divide in E as [q Hq]; [|lia]. pose proof (sq_in_u base (rlen (rx t))) as Hu. rewrite <-Er in Hu. unfold in_u, u_max in *. assert (q = 0) by lia. subst q. lia. }
  change (rx t1) with (rx t). rewrite (usize_add_ok (rlen (rx t)) ahead) by lia. cbn [mbind option_bind]. set (take_ := Z.min (payload_len sg) _).
  destruct (Z.eqb_spec take_ 0) as [Ht0|Ht0].
  { destruct (bump_counted (b + 1) out_of_order_dropped k1 Hk1 ltac:(lia)) as (k2 & -> & Hk2). cbn [mbind option_bind].
    eexists _, k2, _. split; [done|]. split_and!; [done|eapply counted_mono; [done|lia]|done]. }
  assert (0 ≤ payload_len sg) by (unfold payload_len; lia).
  unfold saturating_sub in take_. assert (0 < take_ ∧ rlen (rx t) + ahead + take_ ≤ RING ∧ take_ ≤ payload_len sg) as (Htp & Htr & Htl) by lia.
  rewrite (usize_add_ok (head (rx t))) by lia. cbn [mbind option_bind]. rewrite usize_add_ok by lia. cbn [mbind option_bind]. rewrite (Z.mod_small take_) by lia.
  assert (tcp_seq sg = sq base (rlen (rx t) + ahead)) as Esq.
  { unfold ahead. change (rcv_nxt t1) with (rcv_nxt t). rewrite Er. unfold wrapping_sub, sq. rewrite Zminus_mod_idemp_r, Z.add_assoc, Zplus_mod_idemp_r.
    replace (base + rlen (rx t) + (tcp_seq sg - (base + rlen (rx t)))) with (tcp_seq sg) by lia. symmetry. apply Z.mod_small. unfold in_u, u_max in Hseq. lia. }
  rewrite Esq. clearbody ahead.
  destruct (hold_ok base (λ _, True) (λ _, True) (rlen (rx t)) RING t1 (rlen (rx t) + ahead) take_ k1 (b + 1)) as (l & k2 & held & -> & Hll & Hk2 & Hruns); try done; try (unfold LIMIT; lia).
  cbn [mbind option_bind]. assert (tcb_step b t (set_ooo l t1)) as S2.
  { eapply step_trans; [exact S1|]. eapply (step_runs b b t1 l base); [exact (ts_wf _ _ _ S1)|lia|unfold fin_of; cbn; by rewrite Hpf, Z.add_0_r| |done|done]. destruct held; [done|by rewrite Hruns]. }
  destruct held; cbn [negb].
  - destruct (bump_counted (b + 1 + 1) out_of_order_queued k2 Hk2 ltac:(lia)) as (k3 & -> & Hk3). cbn [mbind option_bind].
    eexists _, k3, _. split; [done|]. split_and!; [done|eapply counted_mono; [done|lia]|]. intros d [= <-]. cbn. split_and!; try done; try lia. apply Z.mod_pos_bound. lia.
  - eexists _, k2, _. split; [done|]. split_and!; [done|eapply counted_mono; [done|lia]|done].
Qed.


Lemma not_lt_skip a c : in_u 32 a → in_u 32 c → seq_lt a c = false → 0 ≤ wrapping_sub 32 a c ≤ 2 ^ 31.
Proof.
  intros Ha Hc H. unfold in_u, u_max in *. unfold seq_lt in H. destruct (Z.eqb_spec a c) as [->|Hne].
  - unfold wrapping_sub. rewrite Z.sub_diag, Z.mod_0_l by lia. lia.
  - cbn [negb andb] in H. apply Z.ltb_ge in H. unfold wrapping_sub in *. assert ((c - a) mod 2 ^ 32 ≠ 0) as Hnz by lia.
    replace (a - c) with (- (c - a)) by lia. rewrite Z_mod_nz_opp_full by done. pose proof (Z.mod_pos_bound (c - a) (2 ^ 32)). lia.
Qed.

Lemma next_total b t k sg from :
  tcb_wf b t → receiving t = true → 0 ≤ from ≤ u16_MAX → payload_len sg ≤ u16_MAX → seq_lt (rcv_nxt t) (tcp_seq sg) = false → in_u 32 (tcp_seq sg) →
  counted b k → b < 2 ^ 60 →
  ∃ t' k' d to_, segment_next t k sg from = Some (t', k', d, to_) ∧ tcb_step b t t' ∧ state t' = state t ∧ peer_fin t' = peer_fin t ∧ counted (b + 5) k' ∧
    (∀ d', d = Some d' → dl_ring d' = buf (rx t) ∧ 0 ≤ dl_at d' ∧ from ≤ dl_from d' ∧ 0 < dl_len d' ∧ dl_from d' - from + dl_len d' ≤ payload_len sg).
Proof.
  intros Hwf Hrec Hfrom Hpl Hlt Hseq Hk Hb. destruct (receiving_open' _ _ Hwf Hrec) as [Hpf Hst]. pose proof Hwf as [? ? ? ? [Hh Hl] (base & Er & Hr) Hs ? ?]. pose proof RING_eq as HRING.
  unfold fin_of in Er. rewrite Hpf, Z.add_0_r in Er. unfold u_max in Hpl, Hfrom. assert (in_u 32 (rcv_nxt t)) as Hru by (rewrite Er; apply sq_in_u).
  pose proof (not_lt_skip _ _ Hru Hseq Hlt) as Hskip. unfold segment_next. set (skip := wrapping_sub 32 _ _) in *. clearbody skip.
  assert (∃ k1, (if 0 <? skip then bump duplicates k else Some k) = Some k1 ∧ counted (b + 1) k1) as (k1 & -> & Hk1).
  { destruct (0 <? skip); [apply bump_counted; [done|lia]|]. exists k. split; [done|]. eapply counted_mono; [done|lia]. }
  cbn [mbind option_bind]. assert (∃ free, Ring_free (rx t) = Some free ∧ 0 ≤ free ≤ RING - rlen (rx t)) as (free & -> & Hfree).
  { unfold Ring_free, checked_sub. destruct (buf (rx t)); [|exists 0; split; [done|lia]]. rewrite (proj2 (Z.leb_le _ _)) by lia. eexists. split; [done|lia]. }
  assert (0 ≤ payload_len sg) by (unfold payload_len; lia).
  cbn [mbind option_bind]. set (take_ := Z.min _ free). unfold saturating_sub in take_. destruct (Z.ltb_spec 0 take_) as [Ht|Ht].
  - rewrite !usize_add_ok by lia. cbn [mbind option_bind]. unfold coalesce. set (t1 := set_rcv_nxt _ _).
    assert (rcv_nxt t1 = sq base (rlen (rx t) + take_)) as Er1 by (cbn; rewrite Er, (Z.mod_small take_) by lia; apply wrapping_add_sq).
    assert (count_if is_held (ooo t) ≤ OOO_SEGMENTS)%nat as Hcl by (rewrite <-Hs; apply count_if_le). unfold OOO_SEGMENTS in Hcl.
    destruct (coalesce_loop_ok base (λ _, True) RING 0 (S OOO_SEGMENTS) t1 k1 (b + 1) (rlen (rx t) + take_))
      as (R' & l & k' & E & HR' & _ & Hruns & Hll & Hk'); try done; try (unfold LIMIT, OOO_SEGMENTS; cbn [t1 set_rcv_nxt set_rx rlen rx ooo]; lia).
    + cbn. eapply runs_ok_impl; [..|exact Hr]; lia || done.
    + cbn [t1 set_rcv_nxt set_rx rlen rx ooo] in E, Hk', Hll. rewrite E. cbn [mbind option_bind]. eexists _, k', _, _. split; [done|].
      split_and!; try done; [|eapply counted_mono; [done|lia]|intros d' [= <-]; cbn; split_and!; try done; try lia; apply Z.mod_pos_bound; lia].
      split; try done. split; try done.
      * eapply (sane_frame b b t); first [done|lia|by left].
      * split; cbn; [lia|lia].
      * exists base. unfold fin_of. cbn. rewrite Hpf, Z.sub_0_r, Z.add_0_r. done.
      * cbn. congruence.
  - rewrite usize_add_ok by lia. cbn [mbind option_bind]. eexists _, k1, None, _. split; [done|]. split_and!; try done; [|eapply counted_mono; [done|lia]].
    eapply step_frame; [exact Hwf|done..| |done|done]. eapply (sane_frame b b t); first [done|lia|by left].
Qed.

Lemma fin_step b t sg fa to_ now : tcb_wf b t → peer_fin t = false ∨ flag sg TCP_FIN = false → synced (state t) → tcb_step b t (segment_fin t sg fa to_ now).
Proof.
  intros Hwf Hf (Hs1 & Hs2 & Hs3). unfold segment_fin. destruct (_ && _) eqn:E; [|by eapply step_refl]. breflect. destruct Hf as [Hpf|Hf]; [|congruence].
  set (t1 := set_ack_now true _). pose proof Hwf as [? ? ? ? [Hh Hl] (base & Er & Hr) Hs ? ?]. unfold fin_of in Er. rewrite Hpf, Z.add_0_r in Er.
  assert (∀ t', rx t' = rx t → ooo t' = ooo t → rcv_nxt t' = rcv_nxt t1 → peer_fin t' = true → tx t' = tx t → iss t' = iss t → snd_una t' = snd_una t →
    sane b t' → moves (state t) (state t') → after_fin (state t') = true → (active t', generation t') = (active t, generation t) → tcb_step b t t') as Hgoal.
  { intros t' E1 E2 E3 E4 E5 E6 E7 Hsn Hm Haf Hsl. split; try done; [|by rewrite E1|by rewrite E5]. split; rewrite ?E1, ?E2, ?E5, ?E6, ?E7; try done.
    - exists base. split; [|done]. unfold fin_of. rewrite E3, E4. cbn. rewrite Er. apply wrapping_add_sq.
    - intros H'. by destruct (moves_not_syn_sent _ _ Hm Hs1). }
  assert (sane b t1) as Hsn1 by (eapply (sane_frame b b t); first [done|lia|by left]).
  assert (∀ s, edge (state t) s → after_fin s = true →
    let t' := enter t1 s in tcb_step b t (if in_state t' TimeWait then set_time_wait_until (saturating_add 64 now TIME_WAIT_NS) t' else t')) as Henter.
  { intros s He Ha. cbv zeta. destruct (enter_view t1 s) as (Hv & (X1 & X2 & X3 & X4) & Hst). pose proof (enter_sane b t1 s Hsn1) as Hsn2. pose proof (enter_slot t1 s) as Hsl.
    unfold tx_view in Hv. injection Hv as V1 V2 _ V4 _ _ _ _ _. set (t2 := enter t1 s) in *. clearbody t2.
    destruct (in_state t2 TimeWait); apply Hgoal; cbn; try done; try (by rewrite Hst; apply moves_once); try (by rewrite Hst).
    eapply (sane_frame b b t2); first [done|lia|by left]. }
  change (state t1) with (state t). destruct (state t) eqn:Es; try done.
  all: try (destruct fa). all: try (apply Henter; [constructor|done]).
  all: unfold in_state; change (state t1) with (state t); rewrite Es; case_bool_decide; try done; (apply Hgoal; cbn; try done; rewrite ?Es; try done).
  all: eapply (sane_frame b b t); first [done|lia|by left].
Qed.

Definition delivered_ok (t : Tcb) (sg : Wire.Tcp) (from : Z) (out : Outcome) : Prop :=
  ∀ d, o_deliver out = Some d → dl_ring d = buf (rx t) ∧ 0 ≤ dl_at d ∧ from ≤ dl_from d ∧ 0 < dl_len d ∧ dl_from d - from + dl_len d ≤ payload_len sg.

Lemma text_total b c t k sg fa from now :
  tcb_wf b t → synced (state t) → peer_fin t = false ∨ flag sg TCP_FIN = false → 0 ≤ from ≤ u16_MAX → payload_len sg ≤ u16_MAX → in_u 32 (tcp_seq sg) →
  counted c k → b ≤ c → c < 2 ^ 60 →
  ∃ t' k' out, segment_text t k sg fa from now = Some (t', k', out) ∧ tcb_step c t t' ∧ counted (c + 5) k' ∧ delivered_ok t sg from out.
Proof.
  intros Hwf0 Hsy Hf Hfrom Hpl Hseq Hk Hbc Hb. pose proof (tcb_wf_mono b c t Hbc Hwf0) as Hwf. unfold segment_text. destruct (_ && receiving t) eqn:Er.
  - breflect. destruct (seq_lt (rcv_nxt t) (tcp_seq sg)) eqn:El.
    + destruct (ahead_total c t k sg from Hwf H0 ltac:(lia) Hpl El Hseq Hk Hb) as (t' & k' & out & -> & S & Hk' & Hd). eexists _, k', out. split; [done|].
      split_and!; [done|eapply counted_mono; [done|lia]|]. intros d Hd'. destruct (Hd d Hd') as (? & ? & -> & ?). split_and!; try done; lia.
    + destruct (next_total c t k sg from Hwf H0 Hfrom Hpl El Hseq Hk Hb) as (t' & k' & d & to_ & -> & S & Hst & Hpf & Hk' & Hd). cbn [mbind option_bind].
      eexists _, k', _. split; [done|]. split_and!; [|done|exact Hd]. eapply step_trans; [exact S|]. apply fin_step; [exact (ts_wf _ _ _ S)|by rewrite Hpf|by rewrite Hst].
  - eexists _, k, _. split; [done|]. split_and!; [by apply fin_step|eapply counted_mono; [done|lia]|done].
Qed.


(** ** Any segment *)

(** A segment as [parse_tcp] gives it. *)
Record parsed (sg : Wire.Tcp) : Prop := { pa_seq : in_u 32 (tcp_seq sg); pa_ack : in_u 32 (tcp_ack sg); pa_len : payload_len sg ≤ u16_MAX }.

(** A FIN, after the stream's end, that is not the FIN that ended it. *)
Definition fin_again (t : Tcb) (sg : Wire.Tcp) : bool :=
  peer_fin t && flag sg TCP_FIN &&
  negb (wrapping_add 32 (tcp_seq sg) (payload_len sg + (if flag sg TCP_SYN then 1 else 0) + 1) =? rcv_nxt t).

Lemma fin_behind rcv wnd seq len : in_u 32 seq → 0 ≤ wnd ≤ RING → 0 < len ≤ 2 ^ 17 → wrapping_add 32 seq len = rcv → acceptable rcv wnd seq len = false.
Proof.
  intros Hs Hw Hl <-. pose proof RING_eq. destruct (sq_of 0 seq Hs) as [x ->]. unfold acceptable. rewrite !wrapping_add_sq. rewrite (proj2 (Z.eqb_neq len 0)) by lia.
  rewrite sq_eqb, (proj2 (Z.eqb_neq x (x + len))) by lia. destruct (wnd =? 0); [done|].
  rewrite !wrapping_sub_sq_neg by lia. by rewrite !(proj2 (Z.ltb_ge _ _)) by lia.
Qed.

Lemma outside_total b t k sg : tcb_wf b t → counted b k → b < 2 ^ 60 → ∃ t' k', segment_outside t k sg = Some (t', k', no_outcome) ∧ tcb_step b t t' ∧ counted (b + 1) k'.
Proof.
  intros Hwf Hk Hb. unfold segment_outside. destruct (bump_counted b duplicates k Hk ltac:(lia)) as (k1 & -> & Hk1). cbn [mbind option_bind]. eexists _, k1. split; [done|].
  split; [|done]. pose proof Hwf as []. destruct (flag sg TCP_RST); [by eapply step_refl|]. cbn [state set_ack_now in_state]. destruct (_ && _);
    (eapply step_frame; [exact Hwf|done..| |done|done]); (eapply (sane_frame b b t); first [done|lia|by left]).
Qed.

Lemma segment_total b t k sg from now :
  tcb_wf b t → parsed sg → fin_again t sg = false → 0 ≤ from ≤ u16_MAX → 0 ≤ now ≤ NOW_MAX → counted b k → b < 2 ^ 31 →
  ∃ t' k' out, segment t k sg from now = Some (t', k', out) ∧ tcb_step (b + 4) t t' ∧ counted (b + 9) k' ∧ delivered_ok t sg from out.
Proof.
  intros Hwf [Hseq Hack Hpl] Hfa Hfrom Hnow Hk Hb. assert (counted (b + 9) k) as Hk9 by (eapply counted_mono; [done|lia]).
  pose proof (step_refl b (b + 4) t Hwf ltac:(lia)) as S0. assert (0 ≤ payload_len sg) as Hp0 by (unfold payload_len; lia). pose proof Hpl as Hpl'. unfold u_max in Hpl'.
  assert (∀ b' t', b' ≤ b + 4 → tcb_step b' t t' → tcb_step (b + 4) t t') as Hmono.
  { intros b' t' Hle S. eapply step_trans; [exact S|]. eapply step_refl; [exact (ts_wf _ _ _ S)|done]. }
  unfold segment, in_state. case_bool_decide as Ess.
  { destruct (syn_sent_total b t k sg now Hwf Ess Hack Hnow Hk Hb) as (t' & k' & out & -> & S & Hk' & Hd). eexists _, k', out. split; [done|].
    split_and!; [eapply Hmono; [|exact S]; lia|eapply counted_mono; [done|lia]|]. unfold delivered_ok. by rewrite Hd. }
  case_bool_decide as Ecl; cbn [orb]; [by eexists t, k, _|]. case_bool_decide as Eli; cbn [orb]; [by eexists t, k, _|].
  unfold checked_add. rewrite (Z.mod_small (payload_len sg)) by lia. rewrite (proj2 (Z.leb_le (payload_len sg + _) _)) by (unfold u_max; destruct (flag sg TCP_SYN); lia).
  cbn [mbind option_bind]. rewrite (proj2 (Z.leb_le _ _)) by (unfold u_max; destruct (flag sg TCP_SYN), (flag sg TCP_FIN); lia). cbn [mbind option_bind].
  destruct (rx_free_total b t Hwf) as (wnd & -> & Hwnd). cbn [mbind option_bind]. pose proof RING_eq. rewrite (Z.mod_small wnd) by lia.
  assert (∀ t1, t1 = set_ack_now true t → tcb_step (b + 4) t t1) as Hack1.
  { intros t1 ->. pose proof Hwf as []. eapply step_frame; [exact Hwf|done..| |done|done]. eapply (sane_frame b (b + 4) t); first [done|lia|by left]. }
  destruct (acceptable _ _ _ _) eqn:Eacc; cbn [negb].
  2:{ destruct (outside_total b t k sg Hwf Hk ltac:(lia)) as (t' & k' & -> & S & Hk'). eexists _, k', _. split; [done|]. split_and!; [eapply Hmono; [|exact S]; lia|eapply counted_mono; [done|lia]|done]. }
  assert (peer_fin t = false ∨ flag sg TCP_FIN = false) as Hfin.
  { destruct (peer_fin t) eqn:Hpf; [|by left]. right. destruct (flag sg TCP_FIN) eqn:Hf; [|done]. unfold fin_again in Hfa. rewrite Hpf, Hf in Hfa. cbn [andb] in Hfa. breflect.
    rewrite fin_behind in Eacc; [done|done|lia| |exact Hfa]. destruct (flag sg TCP_SYN); lia. }
  destruct (flag sg TCP_RST).
  { destruct (_ =? _); [|eexists _, k, _; split; [done|]; split_and!; [by apply Hack1|done|done]].
    destruct (bump_counted b resets_received k Hk ltac:(lia)) as (k1 & -> & Hk1). cbn [mbind option_bind]. eexists _, k1, _. split; [done|].
    split_and!; [|eapply counted_mono; [done|lia]|done]. set (t1 := set_error _ t).
    assert (tcb_step b t t1) as S1.
    { pose proof Hwf as []. eapply step_frame; [exact Hwf|done..| |done|done]. eapply (sane_frame b b t); first [done|lia|by left]. }
    eapply step_trans; [exact S1|]. apply (enter_step b); [exact (ts_wf _ _ _ S1)|lia|]. apply moves_once. constructor. }
  destruct (flag sg TCP_SYN); [eexists _, k, _; split; [done|]; split_and!; [by apply Hack1|done|done]|]. destruct (flag sg TCP_ACK); cbn [negb]; [|by eexists _, k, _].
  destruct (segment_ack_total b t k sg now Hwf Hack Hnow Hk Hb) as (t1 & k1 & out & E1 & S1 & Hk1 & Hout & Hsy). rewrite E1. cbn [mbind option_bind]. destruct out as [o|].
  { eexists _, k1, o. split; [done|]. split_and!; [eapply Hmono; [|exact S1]; lia|eapply counted_mono; [done|lia]|]. unfold delivered_ok. by rewrite (Hout o eq_refl). }
  destruct (segment_fin_acked t1 now) as [t2 stop] eqn:E2. pose proof (fin_acked_step _ _ _ _ _ (ts_wf _ _ _ S1) E2) as S2. pose proof (step_trans _ _ _ _ _ S1 S2) as S12.
  destruct stop; [eexists _, k1, _; split; [done|]; split_and!; [eapply Hmono; [|exact S12]; lia|eapply counted_mono; [done|lia]|done]|].
  destruct (segment_fin_acked_ok _ _ _ _ E2) as (_ & (_ & _ & _ & Hpf2) & _ & _ & Hsy2 & _).
  destruct (kept_slot _ _ (segment_ack_kept _ _ _ _ _ _ _ E1)) as (_ & _ & Hpf1).
  destruct (text_total (b + 1) (b + 4) t2 k1 sg (fin_acknowledged t1) from now (ts_wf _ _ _ S12)) as (t3 & k3 & out & -> & S3 & Hk3 & Hd); [|by rewrite Hpf2, Hpf1|done|done|done|done|lia|lia|].
  { apply Hsy2, Hsy; done. }
  eexists _, k3, out. split; [done|]. split_and!; [by eapply step_trans|eapply counted_mono; [done|lia]|].
  intros d Hd'. destruct (Hd d Hd') as (-> & ?). split; [|done]. by rewrite (ts_rx _ _ _ S12).
Qed.


(** ** Everything else a connection does *)

Lemma advance_step b t n now : tcb_wf b t → 0 ≤ now → tcb_step b t (advance t n now).
Proof.
  intros Hwf Hnow. pose proof Hwf as [[? ? ? ?] ? ? ? ? ? ? ? ?]. unfold advance. set (t1 := set_snd_nxt _ t). set (t2 := if seq_lt _ _ then _ else t1).
  set (t3 := if _ && _ then _ else t2). assert (∀ t', (t' = t3 ∨ ∃ d, t' = set_deadline d t3) → tcb_step b t t') as Hg.
  { intros t' Ht'. eapply step_frame; [exact Hwf|..]; destruct Ht' as [->|[d ->]]; unfold t3, t2; destruct (_ && _), (seq_lt _ _); try done.
    all: split; try done; cbn.
    all: by intros ? ? [= <- <-]. }
  clearbody t3. destruct (is_none (deadline t3)); apply Hg; [right; eexists; reflexivity|by left].
Qed.

Lemma send_data_total b c t k h sent n now :
  tcb_wf b t → 0 ≤ now → 0 ≤ sent < rlen (tx t) → counted c k → c < 2 ^ 60 →
  ∃ t' k' s, send_data t k h sent n now = Some (t', k', s) ∧ tcb_step b t t' ∧ counted (c + 2) k'.
Proof.
  intros Hwf Hnow Hsent Hk Hc. pose proof Hwf as [? ? ? [Hh Hl] ? ? ? ? ?]. pose proof RING_eq. unfold send_data. set (resending := seq_lt _ _). clearbody resending.
  set (t0 := set_ack_now false _).
  assert (∃ t1 k1, (if resending then k ← bump data_retransmits k; Some (set_timing None (set_resend false t0), k) else Some (t0, k)) = Some (t1, k1) ∧
    tcb_step b t t1 ∧ counted (c + 1) k1 ∧ tx t1 = tx t) as (t1 & k1 & -> & S1 & Hk1 & Etx).
  { destruct resending.
    - destruct (bump_counted c data_retransmits k Hk ltac:(lia)) as (k1 & -> & Hk1). cbn [mbind option_bind]. eexists _, k1. split; [done|]. split_and!; try done.
      eapply step_frame; [exact Hwf|done..| |done|done]. eapply (sane_frame b b t); first [done|lia|by right].
    - eexists _, k. split; [done|]. split_and!; [|eapply counted_mono; [done|lia]|done]. eapply step_frame; [exact Hwf|done..| |done|done].
      eapply (sane_frame b b t); first [done|lia|by left]. }
  cbn [mbind option_bind]. rewrite Etx, usize_add_ok by lia. cbn [mbind option_bind]. pose proof (advance_step b t1 n now (ts_wf _ _ _ S1) Hnow) as S2.
  set (t2 := advance t1 n now) in *. clearbody t2. pose proof (step_trans _ _ _ _ _ S1 S2) as S12.
  destruct resending; [|eexists _, k1, _; split; [done|]; split; [done|eapply counted_mono; [done|lia]]].
  destruct (negb _); [|eexists _, k1, _; split; [done|]; split; [done|eapply counted_mono; [done|lia]]].
  destruct (bump_counted (c + 1) sack_retransmits k1 Hk1 ltac:(lia)) as (k2 & -> & Hk2). cbn [mbind option_bind]. eexists _, k2, _. split; [done|]. split; [|eapply counted_mono; [done|lia]].
  eapply step_trans; [exact S12|]. pose proof (ts_wf _ _ _ S12) as Hwf2. pose proof Hwf2 as []. eapply step_frame; [exact Hwf2|done..| |done|done].
  eapply (sane_frame b b t2); first [done|lia|by left].
Qed.

Lemma send_rest_step b t h now : tcb_wf b t → 0 ≤ now → tcb_step b t (send_rest t h now).1.
Proof.
  intros Hwf Hnow. unfold send_rest. pose proof Hwf as []. destruct (_ && _ && _ && _); [|destruct (ack_now t)]; cbn [fst].
  - set (t1 := set_fin_seq _ _). assert (tcb_step b t t1) as S1.
    { eapply step_frame; [exact Hwf|done..| |done|done]. eapply (sane_frame b b t); first [done|lia|by left]. }
    eapply step_trans; [exact S1|]. apply advance_step; [exact (ts_wf _ _ _ S1)|done].
  - eapply step_frame; [exact Hwf|done..| |done|done]. eapply (sane_frame b b t); first [done|lia|by left].
  - by eapply step_refl.
Qed.

Lemma send_syn_step b t h now : tcb_wf b t → 0 ≤ now → tcb_step b t (send_syn t h now).1.
Proof.
  intros Hwf Hnow. unfold send_syn. pose proof Hwf as []. set (t1 := set_ack_now false t). assert (tcb_step b t t1) as S1.
  { eapply step_frame; [exact Hwf|done..| |done|done]. eapply (sane_frame b b t); first [done|lia|by left]. }
  destruct (negb _); [done|]. destruct (if in_state t1 SynSent then _ else _) as [fl a]. cbn [fst]. eapply step_trans; [exact S1|]. apply advance_step; [exact (ts_wf _ _ _ S1)|done].
Qed.

Lemma tcb_segment_total b t k now :
  tcb_wf b t → 0 ≤ now → counted b k → b < 2 ^ 60 → ∃ t' k' s, tcb_segment t k now = Some (t', k', s) ∧ tcb_step b t t' ∧ counted (b + 2) k'.
Proof.
  intros Hwf Hnow Hk Hb. unfold tcb_segment. destruct (rx_free_total b t Hwf) as (w & -> & _). cbn [mbind option_bind]. set (h := plain_header _ _ _). clearbody h.
  assert (counted (b + 2) k) as Hk2 by (eapply counted_mono; [done|lia]). destruct (rst_now t).
  { destruct (bump_counted b resets_sent k Hk ltac:(lia)) as (k1 & -> & Hk1). cbn [mbind option_bind]. eexists _, k1, _. split; [done|]. split; [|eapply counted_mono; [done|lia]].
    pose proof Hwf as []. eapply step_frame; [exact Hwf|done..| |done|done]. eapply (sane_frame b b t); first [done|lia|by left]. }
  assert (∀ t0, tcb_step b t t0 → ∃ t' k' s, (let '(t', s) := send_rest t0 h now in Some (t', k, s)) = Some (t', k', s) ∧ tcb_step b t t' ∧ counted (b + 2) k') as Hrest.
  { intros t0 S0. destruct (send_rest t0 h now) as [t1 s] eqn:E. eexists _, k, s. split; [done|]. split; [|done]. eapply step_trans; [exact S0|].
    replace t1 with (send_rest t0 h now).1 by (by rewrite E). by apply send_rest_step; [exact (ts_wf _ _ _ S0)|]. }
  assert (∃ t' k' s, (let '(t', s) := send_syn t h now in Some (t', k, s)) = Some (t', k', s) ∧ tcb_step b t t' ∧ counted (b + 2) k') as Hsyn.
  { destruct (send_syn t h now) as [t1 s] eqn:E. eexists _, k, s. split; [done|]. split; [|done]. replace t1 with (send_syn t h now).1 by (by rewrite E). by apply send_syn_step. }
  pose proof (step_refl b b t Hwf ltac:(lia)) as S0. set (m := if sending t then _ else _).
  assert (∃ t' k' s, m = Some (t', k', s) ∧ tcb_step b t t' ∧ counted (b + 2) k') as Hm.
  { unfold m. clear m. destruct (sending t); [|by apply Hrest]. set (sent := wrapping_sub _ _ _). assert (0 ≤ sent) by (apply Z.mod_pos_bound; lia). clearbody sent.
    destruct (Z.ltb_spec 0 (saturating_sub (rlen (tx t)) sent)); [|by apply Hrest]. destruct (0 <? _).
    - destruct (send_data_total b b t k h sent (send_now t (saturating_sub (rlen (tx t)) sent)) now Hwf Hnow) as (t' & k' & s & -> & S & Hk'); [unfold saturating_sub in *; lia|done|done|].
      cbn [mbind option_bind]. by eexists _, k', _.
    - apply Hrest. destruct (is_none _); [|done]. pose proof Hwf as []. eapply step_frame; [exact Hwf|done..| |done|done]. eapply (sane_frame b b t); first [done|lia|by left]. }
  destruct (state t); try exact Hm; try exact Hsyn; by eexists t, k, None.
Qed.

Lemma timers_total b t k now :
  tcb_wf b t → 0 ≤ now ≤ NOW_MAX → counted b k → b < 2 ^ 31 → ∃ t' k', tcb_timers t k now = Some (t', k') ∧ tcb_step (b + 1) t t' ∧ counted (b + 1) k'.
Proof.
  intros Hwf Hnow Hk Hb. unfold tcb_timers. set (t1 := if _ : bool then _ else t).
  assert (tcb_step b t t1) as S1.
  { unfold t1. destruct (_ && _); [|eapply step_refl; [exact Hwf|lia]]. apply (enter_step b); [done|lia|]. apply moves_once. constructor. }
  clearbody t1. assert (counted (b + 1) k) as Hk1 by (eapply counted_mono; [done|lia]). pose proof (ts_wf _ _ _ S1) as Hwf1. pose proof Hwf1 as [[? ? ? ?] ? ? ? ? ? ? ? ?].
  pose proof (step_trans _ _ _ _ _ S1 (step_refl b (b + 1) t1 Hwf1 ltac:(lia))) as S1'.
  destruct (deadline t1) as [d|]; [|by eexists _, k]. destruct (now <? d); [by eexists _, k|]. destruct (snd_una t1 =? snd_max t1).
  { eexists _, k. split; [done|]. split; [|done]. eapply step_trans; [exact S1|]. eapply step_frame; [exact Hwf1|done..| |done|done]. split; cbn; try done; lia. }
  unfold checked_add. rewrite (proj2 (Z.leb_le _ _)) by (unfold u_max; lia). cbn [mbind option_bind]. set (t2 := set_retries _ t1). destruct (RETRIES <? _).
  - destruct (bump_counted b timeouts k Hk ltac:(lia)) as (k1 & -> & Hk1'). cbn [mbind option_bind]. set (t3 := set_rst_now _ _).
    assert (tcb_step (b + 1) t1 t3) as S3 by (eapply step_frame; [exact Hwf1|done..| |done|done]; split; cbn; try done; lia).
    eexists _, k1. split; [done|]. split; [|done]. eapply step_trans; [exact S1|]. eapply step_trans; [exact S3|]. apply (enter_step (b + 1)); [exact (ts_wf _ _ _ S3)|lia|].
    apply moves_once. constructor.
  - destruct (bump_counted b retransmit_timeouts k Hk ltac:(lia)) as (k1 & -> & Hk1'). cbn [mbind option_bind]. eexists _, k1. split; [done|]. split; [|done].
    eapply step_trans; [exact S1|]. eapply step_frame; [exact Hwf1|done..| |done|done]. split; cbn; try done; lia.
Qed.

Definition ring_len_ok (r : option Bytes) : Prop := ∀ x, r = Some x → length x = FRAME_MAX.

Lemma send_total b t ring data :
  tcb_wf b t → ring_len_ok ring → Z.of_nat (length data) < 2 ^ 31 →
  ∃ t' o r, tcb_send t ring data = Some (t', o, r) ∧ tcb_step b t t' ∧ ring_len_ok o ∧ (is_Some o → is_Some ring).
Proof.
  intros Hwf Hring Hd. pose proof Hwf as [? ? ? [Hh Hl] ? ? ? ? ?]. pose proof RING_eq. pose proof (step_refl b b t Hwf ltac:(lia)) as S0.
  assert (∀ r : result Z TcpError, ∃ t' o r', Some (t, @None Bytes, r) = Some (t', o, r') ∧ tcb_step b t t' ∧ ring_len_ok o ∧ (is_Some o → is_Some ring)) as Hsame.
  { intros r. eexists t, None, r. split; [done|]. split_and!; [done|done|by intros [? ?]]. }
  unfold tcb_send. destruct (error t); [apply Hsame|]. destruct (_ && negb (fin_queued t)); [|destruct ((in_state t SynSent || _) && _); apply Hsame].
  assert (∃ free, Ring_free (tx t) = Some free ∧ 0 ≤ free ≤ RING - rlen (tx t)) as (free & -> & Hfree).
  { unfold Ring_free, checked_sub. destruct (buf (tx t)); [|exists 0; split; [done|lia]]. rewrite (proj2 (Z.leb_le _ _)) by lia. eexists. split; [done|lia]. }
  cbn [mbind option_bind]. set (n := Z.min _ _). destruct (Z.eqb_spec n 0); [apply Hsame|]. destruct ring as [ring|]; [|apply Hsame].
  rewrite !usize_add_ok by lia. cbn [mbind option_bind].
  destruct (ring_write_spec ring (head (tx t) + rlen (tx t)) (take (Z.to_nat n) data) (Hring ring eq_refl)) as (ring' & -> & Hl' & _); [lia|rewrite length_take; lia|].
  cbn [mbind option_bind]. eexists _, _, _. split; [done|]. split_and!; [|by intros x [= <-]|by eexists].
  split; try done. split; try done; [eapply (sane_frame b b t); first [done|lia|by left]|split; cbn; lia].
Qed.

Lemma sq_move base a n : sq base a = sq (base + n) (a - n).
Proof. unfold sq. f_equal. lia. Qed.

(** The first [n] bytes held leave the ring. *)
Lemma read_wf b t r n : tcb_wf b t → 0 ≤ n ≤ rlen (rx t) → ring_wf r → rlen r = rlen (rx t) - n → tcb_wf b (set_rx r t).
Proof.
  intros [? ? ? ? [Hh Hl] (base & Er & Hr) ? ? ?] Hn Hw Hlen. split; try done; [eapply (sane_frame b b t); first [done|lia|by left]|]. exists (base + n). split.
  - cbn. rewrite Er, Hlen. rewrite (sq_move base _ n). unfold fin_of. cbn. f_equal. lia.
  - cbn. rewrite Hlen. eapply Forall_impl; [exact Hr|]. intros [x|]; [|done]. intros (a & Ea & Ha & Hlr & He & _). exists (a - n). split_and!; first [lia|by rewrite <-sq_move|done].
Qed.

Lemma recv_total b t ring room :
  tcb_wf b t → ring_len_ok ring → 0 ≤ room → ∃ t' r, tcb_recv t ring room = Some (t', r) ∧ tcb_step b t t'.
Proof.
  intros Hwf Hring Hroom. pose proof Hwf as [? ? ? ? [Hh Hl] (base & Er & Hr) ? ? ?]. pose proof RING_eq. pose proof (step_refl b b t Hwf ltac:(lia)) as S0.
  unfold tcb_recv. destruct (Z.ltb_spec 0 (Z.min room (rlen (rx t)))) as [Hn|_]; [|by eexists t, _]. set (n := Z.min _ _) in *. destruct ring as [ring|]; [|by eexists t, _].
  destruct (ring_read_spec ring (head (rx t)) n (Hring ring eq_refl)) as (d & -> & _); [lia|lia|]. cbn [mbind option_bind].
  destruct (rx_free_total b t Hwf) as (w & -> & _). cbn [mbind option_bind]. rewrite usize_add_ok by lia. cbn [mbind option_bind]. unfold checked_sub.
  rewrite (proj2 (Z.leb_le _ _)) by lia. cbn [mbind option_bind]. set (t1 := set_rx _ t).
  assert (tcb_step b t t1) as S1.
  { split; try done. apply (read_wf b t _ n); [done|lia|split; cbn; [apply Z.mod_pos_bound; lia|lia]|done]. }
  destruct (rx_free_total b t1 (ts_wf _ _ _ S1)) as (w' & -> & _). cbn [mbind option_bind]. eexists _, _. split; [done|]. destruct (_ && _); [|done].
  eapply step_trans; [exact S1|]. pose proof (ts_wf _ _ _ S1) as Hwf1. pose proof Hwf1 as []. eapply step_frame; [exact Hwf1|done..| |done|done].
  eapply (sane_frame b b t1); first [done|lia|by left].
Qed.

Lemma peek_total b t ring room : tcb_wf b t → ring_len_ok ring → 0 ≤ room → is_Some (tcb_peek t ring room).
Proof.
  intros [? ? ? ? [Hh Hl] ? ? ? ?] Hring Hroom. unfold tcb_peek. destruct (Z.ltb_spec 0 (Z.min room (rlen (rx t)))); [|by eexists]. destruct ring as [ring|]; [|by eexists].
  destruct (ring_read_spec ring (head (rx t)) (Z.min room (rlen (rx t))) (Hring ring eq_refl)) as (d & -> & _); [lia|lia|by eexists].
Qed.

Lemma shutdown_step b t : tcb_wf b t → tcb_step b t (tcb_shutdown t).
Proof.
  intros Hwf. unfold tcb_shutdown. set (t1 := set_fin_queued true t). assert (tcb_step b t t1) as S1.
  { pose proof Hwf as []. eapply step_frame; [exact Hwf|done..| |done|done]. eapply (sane_frame b b t); first [done|lia|by left]. }
  destruct (state t) eqn:Es; try (by eapply step_refl); try done.
  - apply (enter_step b); [done|lia|]. apply moves_once. constructor.
  - eapply step_trans; [exact S1|]. apply (enter_step b); [exact (ts_wf _ _ _ S1)|lia|]. cbn. rewrite Es. apply moves_once. constructor.
  - eapply step_trans; [exact S1|]. apply (enter_step b); [exact (ts_wf _ _ _ S1)|lia|]. cbn. rewrite Es. apply moves_once. constructor.
Qed.

Lemma abort_step b t : tcb_wf b t → tcb_step b t (tcb_abort t).
Proof.
  intros Hwf. unfold tcb_abort. set (t1 := set_released true _). assert (tcb_step b t t1) as S1.
  { pose proof Hwf as []. eapply step_frame; [exact Hwf|done..| |done|done]. eapply (sane_frame b b t); first [done|lia|by left]. }
  eapply step_trans; [exact S1|]. apply (enter_step b); [exact (ts_wf _ _ _ S1)|lia|]. apply moves_once. constructor.
Qed.

Lemma orphan_step b i t : tcb_wf b t → tcb_step b t (orphan i t).
Proof.
  intros Hwf. unfold orphan. destruct (_ && _); [|by eapply step_refl]. set (t1 := set_rst_now _ t). assert (tcb_step b t t1) as S1.
  { pose proof Hwf as []. eapply step_frame; [exact Hwf|done..| |done|done]. eapply (sane_frame b b t); first [done|lia|by left]. }
  eapply step_trans; [exact S1|]. apply (enter_step b); [exact (ts_wf _ _ _ S1)|lia|]. apply moves_once. constructor.
Qed.

End TcpRobust.
