(* ===== verification/NetTcpTable.v ===== *)
(** * TCP: every connection

    The table of connections and the pool their rings come from, under every call a program,
    the timers and the network make.  No call panics; a ring belongs to one connection and goes
    back to the pool when the connection is over; and what a connection does is a path in the
    diagram of states. *)

From S2P Require Import Prelude NetWire NetLink NetTcp NetTcpSeq NetTcpRecv NetTcpSend NetTcpRobust.
Import Wire NetTcp TcpSeq TcpRecv TcpSend TcpRobust.
Local Open Scope Z_scope.

Module TcpTable.

(** ** Calls *)

(** [Stack::deliver], the ring being a buffer of the pool. *)
Definition deliver_to (p : Pool.Pool) (sg : Wire.Tcp) (from : Z) (d : option Deliver) : option Pool.Pool :=
  match d ≫= dl_ring with
  | None => Some p
  | Some i =>
      match Pool.buffer p i with
      | None => Some p
      | Some ring => ring ← deliver ring sg from d; Some (Pool.write_buffer p i ring)
      end
  end.

Inductive call : Type :=
| Connect (ip : Ipv4Addr) (port now : Z)
| ListenOn (port : Z)
| Accept (l : Conn)
| Send (c : Conn) (data : Bytes)
| Recv (c : Conn) (room : Z)
| Peek (c : Conn) (room : Z)
| Shutdown (c : Conn)
| Abort (c : Conn)
| Close (c : Conn)
| Reap
| Timers (now : Z)
| Input (src : Ipv4Addr) (sg : Wire.Tcp) (from now : Z)
| TakeReset
| TakeSyn (now : Z)
| Next (i : nat) (now : Z)
| Sent.

Definition perform (s : Tcp) (p : Pool.Pool) (c : call) : option (Tcp * Pool.Pool) :=
  match c with
  | Connect ip port now => '(s, p, _) ← connect s p ip port now; Some (s, p)
  | ListenOn port => '(s, _) ← listen s port; Some (s, p)
  | Accept l => Some ((accept s l).1, p)
  | Send c data => '(s, p, _) ← send s p c data; Some (s, p)
  | Recv c room => '(s, _) ← recv s p c room; Some (s, p)
  | Peek c room => _ ← peek s p c room; Some (s, p)
  | Shutdown c => Some ((shutdown s c).1, p)
  | Abort c => Some ((abort s c).1, p)
  | Close c => Some ((close s c).1, p)
  | Reap => reap s p
  | Timers now => s ← timers s now; Some (s, p)
  | Input src sg from now => '(s, d) ← input s src sg from now; p ← deliver_to p sg from d; Some (s, p)
  | TakeReset => '(s, _) ← take_reset s; Some (s, p)
  | TakeSyn now =>
      let '(s, y) := take_syn s in
      match y with None => Some (s, p) | Some y => '(s, p, _) ← open_passive s p y now; Some (s, p) end
  | Next i now => '(s, _) ← next_segment s i now; Some (s, p)
  | Sent => s ← sent_one s; Some (s, p)
  end.

(** ** The rings of the table *)

Definition bufs (t : Tcb) : list nat := option_list (buf (rx t)) ++ option_list (buf (tx t)).
Definition rings (l : list Tcb) : list nat := concat (bufs <$> l).

Record table_wf (b : Z) (s : Tcp) (p : Pool.Pool) : Prop := {
  tb_len : length (tcbs s) = CONNECTIONS;
  tb_tcbs : Forall (tcb_wf b) (tcbs s);
  tb_idle : Forall (λ t, active t = false → bufs t = []) (tcbs s);
  tb_counters : counted b (counters s);
  tb_pool : Pool.wf p;
  tb_taken : Pool.p_taken p ≤ b;
  tb_once : NoDup (rings (tcbs s));
  tb_held : Forall (λ i, Pool.p_held p !! i = Some true) (rings (tcbs s)) }.

(** What a call does to the rings, and to the state of each connection. *)
Definition balanced (s : Tcp) (p : Pool.Pool) (s' : Tcp) (p' : Pool.Pool) : Prop :=
  (Pool.in_use p' + length (rings (tcbs s)) = Pool.in_use p + length (rings (tcbs s')))%nat.
Definition follows (s s' : Tcp) : Prop :=
  ∀ i t t', tcbs s !! i = Some t → tcbs s' !! i = Some t' → active t' = true → generation t' = generation t → moves (state t) (state t').

Lemma step_mono b b' t t' : b ≤ b' → tcb_step b t t' → tcb_step b' t t'.
Proof. intros Hb S. eapply step_trans; [exact S|]. eapply step_refl; [exact (ts_wf _ _ _ S)|done]. Qed.

Lemma step_bufs b t t' : tcb_step b t t' → bufs t' = bufs t ∧ active t' = active t.
Proof. intros []. injection ts_slot0 as ? ?. unfold bufs. split; congruence. Qed.

(** Each connection takes a step of its own. *)
Lemma table_step b b' s s' p :
  table_wf b s p → b ≤ b' → Forall2 (tcb_step b') (tcbs s) (tcbs s') → counted b' (counters s') → table_wf b' s' p ∧ balanced s p s' p ∧ follows s s'.
Proof.
  intros [] Hb Hl Hk. assert (rings (tcbs s') = rings (tcbs s)) as Er.
  { unfold rings. f_equal. clear -Hl. induction Hl as [|t t' l l' H _ IH]; [done|]. csimpl. rewrite IH. by destruct (step_bufs _ _ _ H) as [-> _]. }
  split_and!.
  - split; rewrite ?Er; try done.
    + by rewrite <-(Forall2_length _ _ _ Hl).
    + eapply Forall2_Forall_r; [exact Hl|]. apply Forall_true. intros t t' H. apply H.
    + eapply Forall2_Forall_r; [exact Hl|]. eapply Forall_impl; [exact tb_idle0|]. intros t H t' S Ha. destruct (step_bufs _ _ _ S) as [-> E]. apply H. congruence.
    + lia.
  - unfold balanced. by rewrite Er.
  - intros i t t' Ht Ht' _ _. destruct (Forall2_lookup_lr _ _ _ _ _ _ Hl Ht Ht'). done.
Qed.

(** One connection takes a step. *)
Lemma steps_insert b b' l i t t' :
  Forall (tcb_wf b) l → b ≤ b' → l !! i = Some t → tcb_step b' t t' → Forall2 (tcb_step b') l (<[i := t']> l).
Proof.
  intros Hl Hb Hi S. apply Forall2_same_length_lookup_2; [by rewrite length_insert|]. intros j x y Hx Hy. destruct (decide (i = j)) as [<-|Hne].
  - rewrite list_lookup_insert_eq in Hy by (by eapply lookup_lt_Some). by simplify_eq.
  - rewrite list_lookup_insert_ne in Hy by done. simplify_eq. eapply step_refl; [|done]. by eapply Forall_lookup_1.
Qed.

Lemma steps_refl b b' l : Forall (tcb_wf b) l → b ≤ b' → Forall2 (tcb_step b') l l.
Proof. intros Hl Hb. induction Hl; constructor; [by eapply step_refl|done]. Qed.

Lemma wf_mono b b' s p : b ≤ b' → table_wf b s p → table_wf b' s p.
Proof. intros Hb []. split; try done; [|by eapply counted_mono|lia]. eapply Forall_impl; [exact tb_tcbs0|]. intros t. by apply tcb_wf_mono. Qed.

(** Taking and giving buffers elsewhere leaves the table alone as long as its rings stay held. *)
Lemma get_live s c t : get s c = Ok t → tcbs s !! c_index c = Some t ∧ active t = true.
Proof. unfold get. destruct (tcbs s !! _) as [t'|] eqn:E; [|done]. destruct (_ && _) eqn:Ea; [|done]. intros [= <-]. breflect. done. Qed.

Lemma ring_bytes_len b s p r : table_wf b s p → ring_len_ok (ring_bytes p r).
Proof.
  intros Hwf x Hx. unfold ring_bytes in Hx. destruct (buf r) as [i|]; [|done]. cbn in Hx. by destruct (Pool.buffer_held p i x (tb_pool _ _ _ Hwf) Hx) as (_ & _ & ?).
Qed.

Lemma write_buffer_table b s p i x : table_wf b s p → length x = FRAME_MAX → table_wf b s (Pool.write_buffer p i x).
Proof. intros [] Hx. split; try done. by apply Pool.write_buffer_wf. Qed.


(** ** Calls that take no buffer *)

Definition goes_well (b : Z) (s : Tcp) (p : Pool.Pool) (r : option (Tcp * Pool.Pool)) : Prop :=
  ∃ s' p', r = Some (s', p') ∧ table_wf (b + 20) s' p' ∧ balanced s p s' p' ∧ follows s s'.

Section Calls.
Context (b : Z) (s : Tcp) (p : Pool.Pool) (Hwf : table_wf b s p) (Hb : b + 20 < 2 ^ 31).

Lemma well_steps s' : Forall2 (tcb_step (b + 20)) (tcbs s) (tcbs s') → counted (b + 20) (counters s') → goes_well b s p (Some (s', p)).
Proof. intros Hl Hk. destruct (table_step b (b + 20) s s' p Hwf ltac:(lia) Hl Hk) as (H1 & H2 & H3). by exists s', p. Qed.

Lemma counted_20 c k : counted c k → c ≤ b + 20 → counted (b + 20) k.
Proof. apply counted_mono. Qed.

Lemma well_same s' : tcbs s' = tcbs s → counted (b + 20) (counters s') → goes_well b s p (Some (s', p)).
Proof. intros E Hk. apply well_steps; [|done]. rewrite E. eapply steps_refl; [exact (tb_tcbs _ _ _ Hwf)|lia]. Qed.

Lemma well_refl : goes_well b s p (Some (s, p)).
Proof. apply well_same; [done|]. eapply counted_20; [exact (tb_counters _ _ _ Hwf)|lia]. Qed.

Lemma steps_one i t t' : tcbs s !! i = Some t → tcb_step (b + 20) t t' → Forall2 (tcb_step (b + 20)) (tcbs s) (<[i := t']> (tcbs s)).
Proof. intros Hi S. eapply steps_insert; [exact (tb_tcbs _ _ _ Hwf)|lia|done|done]. Qed.

Lemma well_one i t t' : tcbs s !! i = Some t → tcb_step (b + 20) t t' → goes_well b s p (Some (set_tcb i t' s, p)).
Proof. intros Hi S. apply well_steps; [by eapply steps_one|]. eapply counted_20; [exact (tb_counters _ _ _ Hwf)|lia]. Qed.

Lemma tcb_at i t : tcbs s !! i = Some t → tcb_wf b t.
Proof. intros Hi. by eapply Forall_lookup_1; [exact (tb_tcbs _ _ _ Hwf)|]. Qed.

Lemma count_well c : ∃ s', count c s = Some s' ∧ tcbs s' = tcbs s ∧ counted (b + 1) (counters s').
Proof.
  unfold count. destruct (bump_counted b c (counters s) (tb_counters _ _ _ Hwf) ltac:(lia)) as (k & -> & Hk). cbn [mbind option_bind]. by eexists.
Qed.

Lemma accept_well l : goes_well b s p (perform s p (Accept l)).
Proof.
  cbn [perform]. unfold accept. destruct (get s l) as [t|e] eqn:E; [|apply well_refl]. destruct (negb _); [apply well_refl|].
  destruct (position _ _) as [i|] eqn:Ei; [|apply well_refl]. destruct (tcbs s !! i) as [t'|] eqn:Et; [|apply well_refl].
  apply well_one with t'; [done|]. pose proof (tcb_at _ _ Et) as Hwt. pose proof Hwt as []. eapply step_frame; [exact Hwt|done..| |done|done].
  eapply (sane_frame b (b + 20) t'); first [done|lia|by left].
Qed.

Lemma shutdown_well c : goes_well b s p (perform s p (Shutdown c)).
Proof.
  cbn [perform]. unfold shutdown. destruct (get s c) as [t|e] eqn:E; [|apply well_refl]. destruct (get_live _ _ _ E) as [Ht _].
  apply well_one with t; [done|]. eapply (step_mono b); [lia|]. by apply shutdown_step, (tcb_at (c_index c)).
Qed.

Lemma abort_well c : goes_well b s p (perform s p (Abort c)).
Proof.
  cbn [perform]. unfold abort. destruct (get s c) as [t|e] eqn:E; [|apply well_refl]. destruct (get_live _ _ _ E) as [Ht _].
  apply well_one with t; [done|]. eapply (step_mono b); [lia|]. by apply abort_step, (tcb_at (c_index c)).
Qed.

Lemma send_well c data : Z.of_nat (length data) < 2 ^ 31 → goes_well b s p (perform s p (Send c data)).
Proof.
  intros Hd. cbn [perform]. unfold send. destruct (get s c) as [t|e] eqn:E; [|apply well_refl]. destruct (get_live _ _ _ E) as [Ht _].
  destruct (send_total b t (ring_bytes p (tx t)) data (tcb_at _ _ Ht) (ring_bytes_len _ _ _ _ Hwf) Hd) as (t' & o & r & -> & S & Ho & _). cbn [mbind option_bind].
  destruct (well_one _ _ t' Ht (step_mono b (b + 20) t t' ltac:(lia) S)) as (s' & p' & [= <- <-] & H1 & H2 & H3). eexists _, _. split; [done|].
  unfold write_back. destruct (buf (tx t)) as [i|]; [|done]. destruct o as [x|]; [|done]. split_and!; [|exact H2|exact H3]. apply write_buffer_table; [done|]. by apply Ho.
Qed.

Lemma recv_well c room : 0 ≤ room → goes_well b s p (perform s p (Recv c room)).
Proof.
  intros Hr. cbn [perform]. unfold recv. destruct (get s c) as [t|e] eqn:E; [|apply well_refl]. destruct (get_live _ _ _ E) as [Ht _].
  destruct (recv_total b t (ring_bytes p (rx t)) room (tcb_at _ _ Ht) (ring_bytes_len _ _ _ _ Hwf) Hr) as (t' & r & -> & S). cbn [mbind option_bind].
  apply well_one with t; [done|]. eapply step_mono; [|exact S]. lia.
Qed.

Lemma peek_well c room : 0 ≤ room → goes_well b s p (perform s p (Peek c room)).
Proof.
  intros Hr. cbn [perform]. unfold peek. destruct (get s c) as [t|e] eqn:E; [|apply well_refl]. destruct (get_live _ _ _ E) as [Ht _].
  destruct (peek_total b t (ring_bytes p (rx t)) room (tcb_at _ _ Ht) (ring_bytes_len _ _ _ _ Hwf) Hr) as [r ->]. apply well_refl.
Qed.

Lemma next_well i now : 0 ≤ now → goes_well b s p (perform s p (Next i now)).
Proof.
  intros Hn. cbn [perform]. unfold next_segment. destruct (tcbs s !! i) as [t|] eqn:Et; [|apply well_refl]. destruct (active t); [|apply well_refl].
  destruct (tcb_segment_total b t (counters s) now (tcb_at _ _ Et) Hn (tb_counters _ _ _ Hwf) ltac:(lia)) as (t' & k' & sg & -> & S & Hk). cbn [mbind option_bind].
  apply well_steps; [eapply steps_one; [exact Et|]; eapply step_mono; [|exact S]; lia|]. eapply counted_20; [exact Hk|lia].
Qed.

Lemma sent_well : goes_well b s p (perform s p Sent).
Proof.
  cbn [perform]. unfold sent_one. destruct (count_well segments_out) as (s' & -> & E & Hk). cbn [mbind option_bind]. apply well_same; [done|]. eapply counted_20; [exact Hk|lia].
Qed.

Lemma take_reset_well : goes_well b s p (perform s p TakeReset).
Proof.
  cbn [perform]. unfold take_reset. destruct (take_first (resets s)) as [[r l]|]; [|apply well_refl]. unfold count.
  destruct (bump_counted b resets_sent (counters s) (tb_counters _ _ _ Hwf) ltac:(lia)) as (k & E & Hk). change (counters (set_resets l s)) with (counters s). rewrite E. cbn [mbind option_bind].
  apply well_same; [done|]. eapply counted_20; [exact Hk|lia].
Qed.

Lemma timers_all_ok l : ∀ c k now,
  Forall (tcb_wf c) l → counted c k → 0 ≤ now ≤ NOW_MAX → c + Z.of_nat (length l) < 2 ^ 31 →
  ∃ l' k', timers_all l k now = Some (l', k') ∧ Forall2 (tcb_step (c + Z.of_nat (length l))) l l' ∧ counted (c + Z.of_nat (length l)) k'.
Proof.
  induction l as [|t l IH]; intros c k now Hl Hk Hn Hc; cbn [timers_all length] in *.
  { eexists [], k. split; [done|]. split; [constructor|]. eapply counted_mono; [done|lia]. }
  inversion Hl as [|? ? Ht Hl']; subst.
  assert (∃ t' k', (if active t then tcb_timers t k now else Some (t, k)) = Some (t', k') ∧ tcb_step (c + 1) t t' ∧ counted (c + 1) k') as (t' & k' & -> & Hst & Hk').
  { destruct (active t); [apply timers_total; try done; lia|]. eexists t, k. split; [done|]. split; [eapply step_refl; [exact Ht|lia]|]. eapply counted_mono; [done|lia]. }
  cbn [mbind option_bind]. destruct (IH (c + 1) k' now) as (l' & k2 & -> & Hl2 & Hk2); [|done|done|lia|].
  { eapply Forall_impl; [exact Hl'|]. intros x. apply tcb_wf_mono. lia. }
  cbn [mbind option_bind]. replace (c + 1 + Z.of_nat (length l)) with (c + Z.of_nat (S (length l))) in * by lia.
  eexists _, k2. split; [done|]. split; [|done]. constructor; [|done]. eapply step_mono; [|exact Hst]. lia.
Qed.

Lemma timers_well now : 0 ≤ now ≤ NOW_MAX → goes_well b s p (perform s p (Timers now)).
Proof.
  intros Hn. cbn [perform]. unfold timers. pose proof (tb_len _ _ _ Hwf) as Hlen. pose proof Hb.
  destruct (timers_all_ok (tcbs s) b (counters s) now (tb_tcbs _ _ _ Hwf) (tb_counters _ _ _ Hwf) Hn) as (l' & k' & -> & Hl & Hk); [rewrite Hlen; change (Z.of_nat CONNECTIONS) with 4; lia|].
  cbn [mbind option_bind]. rewrite Hlen in *. change (Z.of_nat CONNECTIONS) with 4 in *. apply well_steps; [|eapply counted_20; [exact Hk|lia]].
  eapply Forall2_impl; [exact Hl|]. intros x y. apply step_mono. lia.
Qed.

(** A call after each connection has taken a step. *)
Lemma well_after s1 r : Forall2 (tcb_step b) (tcbs s) (tcbs s1) → counters s1 = counters s → (table_wf b s1 p → goes_well b s1 p r) → goes_well b s p r.
Proof.
  intros Hl Hk Hr. destruct (table_step b b s s1 p Hwf ltac:(lia) Hl) as (H1 & H2 & H3); [rewrite Hk; apply Hwf|].
  destruct (Hr H1) as (s' & p' & E & W1 & W2 & W3). exists s', p'. split_and!; [done|done|unfold balanced in *; lia|].
  intros i t t' Ht Ht' Ha Hg. destruct (Forall2_lookup_l _ _ _ _ _ Hl Ht) as (t1 & Ht1 & []). injection ts_slot0 as Ea Eg.
  eapply moves_trans; [exact ts_moves0|]. apply (W3 i t1 t'); congruence.
Qed.

End Calls.

Lemma close_well b s p c : table_wf b s p → b + 20 < 2 ^ 31 → goes_well b s p (perform s p (Close c)).
Proof.
  intros Hwf Hb. cbn [perform]. unfold close. destruct (get s c) as [t|e] eqn:E; [|by apply well_refl]. set (s1 := if in_state t Listen then _ else s).
  assert (Forall2 (tcb_step b) (tcbs s) (tcbs s1) ∧ counters s1 = counters s) as [Hl Hk].
  { unfold s1. destruct (in_state t Listen); (split; [|done]).
    - cbn. apply Forall2_fmap_r. apply Forall_Forall2_diag. eapply Forall_impl; [exact (tb_tcbs _ _ _ Hwf)|]. intros x. apply orphan_step.
    - eapply steps_refl; [exact (tb_tcbs _ _ _ Hwf)|lia]. }
  clearbody s1. apply (well_after b s p Hwf s1); [done|done|]. intros Hwf1. destruct (get s1 c) as [t1|e] eqn:E1; [|by apply well_refl].
  destruct (get_live _ _ _ E1) as [Ht1 _]. destruct (0 <? _); [by apply (abort_well b s1 p)|].
  pose proof (tcb_at b s1 p Hwf1 _ _ Ht1) as Hwt. set (t2 := set_released true t1).
  assert (tcb_step b t1 t2) as S2.
  { pose proof Hwt as []. eapply step_frame; [exact Hwt|done..| |done|done]. eapply (sane_frame b b t1); first [done|lia|by left]. }
  destruct (_ || _).
  - cbn [fst]. eapply (well_one b s1 p Hwf1); [exact Ht1|]. eapply step_trans; [exact S2|]. apply (enter_step b); [exact (ts_wf _ _ _ S2)|lia|]. apply moves_once. constructor.
  - apply (well_after b s1 p Hwf1 (set_tcb (c_index c) t2 s1)); [|done|].
    + eapply steps_insert; [exact (tb_tcbs _ _ _ Hwf1)|lia|exact Ht1|exact S2].
    + intros Hwf2. by apply (shutdown_well b _ p).
Qed.


(** ** A segment arrives *)

Lemma queue_reset_ok b s src sg : counted b (counters s) → payload_len sg ≤ u16_MAX → ∃ s', queue_reset s src sg = Some s' ∧ tcbs s' = tcbs s ∧ counters s' = counters s.
Proof.
  intros Hk Hp. assert (0 ≤ payload_len sg) by (unfold payload_len; lia). unfold u_max in Hp. unfold queue_reset. destruct (flag sg TCP_RST); [by exists s|].
  set (m := if flag sg TCP_ACK then _ else _). assert (∃ x, m = Some x) as [[[q a] f] ->].
  { unfold m. destruct (flag sg TCP_ACK); [by eexists|]. rewrite (Z.mod_small (payload_len sg)) by lia. unfold checked_add.
    rewrite (proj2 (Z.leb_le (payload_len sg + _) _)) by (unfold u_max; destruct (flag sg TCP_SYN); lia). cbn [mbind option_bind].
    rewrite (proj2 (Z.leb_le _ _)) by (unfold u_max; destruct (flag sg TCP_SYN), (flag sg TCP_FIN); lia). by eexists. }
  cbn [mbind option_bind]. eexists. split; [done|]. by destruct (position _ _).
Qed.

Lemma unmatched_ok b s src sg : counted b (counters s) → b < 2 ^ 60 → payload_len sg ≤ u16_MAX → ∃ s', unmatched s src sg = Some s' ∧ tcbs s' = tcbs s ∧ counted (b + 1) (counters s').
Proof.
  intros Hk Hb Hp. assert (∀ s', tcbs s' = tcbs s ∧ counters s' = counters s → tcbs s' = tcbs s ∧ counted (b + 1) (counters s')) as Hg.
  { intros s' [-> ->]. split; [done|]. eapply counted_mono; [done|lia]. }
  unfold unmatched. destruct (position _ _) as [l|]; [destruct (_ =? _)|].
  - destruct (existsb _ _); [exists s; split; [done|]; by apply Hg|]. destruct (position _ _); [eexists; split; [done|]; by apply Hg|]. unfold count.
    destruct (bump_counted b syns_refused (counters s) Hk ltac:(lia)) as (k & -> & Hk1). cbn [mbind option_bind]. by eexists.
  - destruct (queue_reset_ok b s src sg Hk Hp) as (s' & -> & H). exists s'. split; [done|]. by apply Hg.
  - destruct (queue_reset_ok b s src sg Hk Hp) as (s' & -> & H). exists s'. split; [done|]. by apply Hg.
Qed.

Lemma ring_write_total ring x data : length ring = FRAME_MAX → 0 ≤ x → ∃ ring', ring_write ring x data = Some ring' ∧ length ring' = FRAME_MAX.
Proof.
  intros Hl Hx. pose proof RING_eq. assert (ring_write ring x data = ring_write ring x (take (Z.to_nat RING) data)) as -> by (unfold ring_write; rewrite take_idemp; done).
  destruct (ring_write_spec ring x (take (Z.to_nat RING) data) Hl Hx) as (ring' & -> & Hl' & _); [rewrite length_take; lia|by exists ring'].
Qed.

Lemma deliver_len ring sg from d :
  length ring = FRAME_MAX → (∀ d', d = Some d' → 0 ≤ dl_at d') → ∃ ring', deliver ring sg from d = Some ring' ∧ length ring' = FRAME_MAX.
Proof.
  intros Hl Hd. unfold deliver. destruct d as [d|]; [|by exists ring]. unfold get_range. destruct (_ <=? _)%nat; [|by exists ring]. by apply ring_write_total, Hd.
Qed.

Lemma deliver_to_ok b s p sg from d :
  table_wf b s p → (∀ d', d = Some d' → 0 ≤ dl_at d') →
  ∃ p', deliver_to p sg from d = Some p' ∧ (p' = p ∨ ∃ i x, p' = Pool.write_buffer p i x ∧ length x = FRAME_MAX).
Proof.
  intros Hwf Hd. unfold deliver_to. destruct (d ≫= dl_ring) as [i|]; [|exists p; by eauto]. destruct (Pool.buffer p i) as [ring|] eqn:E; [|exists p; by eauto].
  destruct (Pool.buffer_held p i ring (tb_pool _ _ _ Hwf) E) as (_ & _ & Hl). destruct (deliver_len ring sg from d Hl Hd) as (ring' & -> & Hl'). cbn [mbind option_bind].
  eexists. split; [done|]. right. by exists i, ring'.
Qed.

Lemma well_deliver b s p s' sg from d :
  goes_well b s p (Some (s', p)) → (∀ d', d = Some d' → 0 ≤ dl_at d') → goes_well b s p (p ← deliver_to p sg from d; Some (s', p)).
Proof.
  intros (s1 & p1 & [= <- <-] & H1 & H2 & H3) Hd. destruct (deliver_to_ok _ _ _ sg from d H1 Hd) as (p' & -> & Hp). cbn [mbind option_bind].
  exists s', p'. split; [done|]. destruct Hp as [->|(i & x & -> & Hx)]; [done|]. split_and!; [by apply write_buffer_table|exact H2|exact H3].
Qed.

(** A segment leaves the pool alone; what it has copied is part of its payload. *)
Lemma input_ok b s p src sg from now :
  table_wf b s p → b + 20 < 2 ^ 31 → parsed sg → (∀ t, t ∈ tcbs s → matches t src sg = true → fin_again t sg = false) → 0 ≤ from ≤ u16_MAX → 0 ≤ now ≤ NOW_MAX →
  ∃ s' d, input s src sg from now = Some (s', d) ∧ goes_well b s p (Some (s', p)) ∧
    ∀ d', d = Some d' → 0 ≤ dl_at d' ∧ from ≤ dl_from d' ∧ 0 < dl_len d' ∧ dl_from d' - from + dl_len d' ≤ payload_len sg.
Proof.
  intros Hwf Hb Hpa Hfin Hfrom Hnow. unfold input. destruct (count_well b s p Hwf Hb segments_in) as (s1 & -> & E1 & Hk1). cbn [mbind option_bind].
  destruct (position _ (tcbs s1)) as [i|] eqn:Ei.
  - destruct (position_lookup _ _ _ Ei) as (t & Ht & Hm). rewrite Ht. cbn [mbind option_bind]. rewrite E1 in Ht. pose proof (tcb_at b s p Hwf _ _ Ht) as Hwt.
    destruct (segment_total (b + 1) t (counters s1) sg from now) as (t' & k' & out & -> & S & Hk & Hd); try done; [eapply tcb_wf_mono; [|exact Hwt]; lia|by apply Hfin; [by eapply list_elem_of_lookup_2|]|lia|].
    cbn [mbind option_bind]. set (s2 := set_counters k' _).
    assert (∃ s3, (if o_reset out then queue_reset s2 src sg else Some s2) = Some s3 ∧ tcbs s3 = tcbs s2 ∧ counters s3 = k') as (s3 & -> & E3 & K3).
    { destruct (o_reset out); [|by exists s2]. by apply (queue_reset_ok (b + 1 + 9)); [|apply Hpa]. }
    cbn [mbind option_bind]. eexists _, _. split; [done|]. split; [|intros d E; by destruct (Hd d E) as (_ & ?)].
    apply (well_steps b s p Hwf); [|rewrite K3; eapply counted_mono; [exact Hk|lia]]. rewrite E3. cbn. rewrite E1. eapply steps_one; [exact Hwf|exact Ht|].
    eapply step_mono; [|exact S]. lia.
  - destruct (unmatched_ok (b + 1) s1 src sg Hk1 ltac:(lia) (pa_len _ Hpa)) as (s2 & -> & E2 & Hk2). cbn [mbind option_bind]. eexists _, _. split; [done|]. split; [|done].
    apply (well_same b s p Hwf); [congruence|]. eapply counted_mono; [exact Hk2|lia].
Qed.

Lemma input_well b s p src sg from now :
  table_wf b s p → b + 20 < 2 ^ 31 → parsed sg → (∀ t, t ∈ tcbs s → matches t src sg = true → fin_again t sg = false) → 0 ≤ from ≤ u16_MAX → 0 ≤ now ≤ NOW_MAX →
  goes_well b s p (perform s p (Input src sg from now)).
Proof.
  intros Hwf Hb Hpa Hfin Hfrom Hnow. cbn [perform]. destruct (input_ok b s p src sg from now) as (s' & d & -> & Hw & Hd); try done. cbn [mbind option_bind].
  apply well_deliver; [done|]. intros d' E. by destruct (Hd d' E).
Qed.


(** ** Opening a connection *)

Lemma rings_insert l i t t' : l !! i = Some t → bufs t = [] → rings (<[i := t']> l) ≡ₚ bufs t' ++ rings l.
Proof.
  intros Hi Hb. unfold rings. rewrite list_fmap_insert, insert_take_drop by (rewrite length_fmap; by eapply lookup_lt_Some).
  rewrite <-(take_drop_middle (bufs <$> l) i (bufs t)) at 3 by (by rewrite list_lookup_fmap, Hi). rewrite !concat_app. cbn [concat]. rewrite Hb. cbn [app].
  rewrite !(assoc_L (++)). apply Permutation_app_tail, Permutation_app_comm.
Qed.

Lemma nearest_end_spare l i : nearest_end l = Some i → ∃ t, l !! i = Some t ∧ spare t = true.
Proof.
  unfold nearest_end. assert (∀ L, (∀ x, x ∈ L → l !! x.1 = Some x.2) → ∀ i,
    foldr (λ x acc, if spare x.2 then match acc with Some j => Some (if time_wait_until (default EMPTY (l !! j)) <? time_wait_until x.2 then j else x.1) | None => Some x.1 end else acc) None L = Some i →
    ∃ t, l !! i = Some t ∧ spare t = true) as H.
  { induction L as [|[j t] L IH]; intros HL k; cbn [foldr]; [done|]. pose proof (HL (j, t) ltac:(left)) as Hj. cbn [fst snd] in *.
    destruct (spare t) eqn:Es; [|intros E; apply IH; [|done]; intros x Hx; apply HL; by right]. destruct (foldr _ None L) as [m|] eqn:Em.
    - destruct (_ <? _); intros [= <-]; [|by exists t]. apply IH; [intros x Hx; apply HL; by right|done].
    - intros [= <-]. by exists t. }
  apply H. intros [j t] Hx. apply list_elem_of_lookup in Hx as [m Hm]. rewrite list_lookup_imap in Hm. destruct (l !! m) eqn:E; [|done]. cbn in Hm. by simplify_eq.
Qed.

(** A free slot: no connection is lost but one whose rings are back already. *)
Lemma slot_ok b s p s' o :
  table_wf b s p → slot s = (s', o) →
  table_wf b s' p ∧ rings (tcbs s') = rings (tcbs s) ∧ counters s' = counters s ∧
  (∀ i, o = Some i → ∃ t, tcbs s' !! i = Some t ∧ bufs t = []) ∧
  Forall2 (λ t t', state t' = state t ∧ generation t' = generation t) (tcbs s) (tcbs s').
Proof.
  intros Hwf E. assert (Forall2 (λ t t', state t' = state t ∧ generation t' = generation t) (tcbs s) (tcbs s)) as Hrefl.
  { apply Forall_Forall2_diag, Forall_true. by intros t. }
  unfold slot in E. destruct (position _ _) as [i|] eqn:Ei.
  { injection E as <- <-. split_and!; try done. intros ? [= <-]. destruct (position_lookup _ _ _ Ei) as (t & Ht & Ha). exists t. split; [done|].
    apply (Forall_lookup_1 _ _ _ _ (tb_idle _ _ _ Hwf) Ht). by destruct (active t). }
  destruct (nearest_end (tcbs s)) as [i|] eqn:En; injection E as <- <-; [|by split_and!].
  destruct (nearest_end_spare _ _ En) as (t & Ht & Hsp).
  assert (bufs t = []) as Hbu.
  { unfold spare in Hsp. breflect. unfold bufs. destruct (buf (rx t)), (buf (tx t)); done. }
  assert (tcbs (set_tcbs (alter (set_active false) i (tcbs s)) s) = <[i := set_active false t]> (tcbs s)) as Et by (cbn; by apply alter_insert).
  assert (bufs <$> <[i := set_active false t]> (tcbs s) = bufs <$> tcbs s) as Eb.
  { rewrite list_fmap_insert. apply list_insert_id. rewrite list_lookup_fmap, Ht. done. }
  assert (rings (<[i := set_active false t]> (tcbs s)) = rings (tcbs s)) as Er by (unfold rings; by rewrite Eb).
  set (s1 := set_tcbs _ s) in *. destruct Hwf. split_and!; rewrite ?Et; try done.
  - split; rewrite ?Et, ?Er; try done.
    + by rewrite length_insert.
    + apply Forall_insert; [done|]. pose proof (Forall_lookup_1 _ _ _ _ tb_tcbs0 Ht) as []. split; try done. eapply (sane_frame b b t); first [done|lia|by left].
    + apply Forall_insert; [done|]. intros _. exact Hbu.
  - intros ? [= <-]. exists (set_active false t). rewrite list_lookup_insert_eq by (by eapply lookup_lt_Some). done.
  - apply Forall2_same_length_lookup_2; [by rewrite length_insert|]. intros j x y Hx Hy. destruct (decide (i = j)) as [<-|Hne].
    + rewrite list_lookup_insert_eq in Hy by (by eapply lookup_lt_Some). by simplify_eq.
    + rewrite list_lookup_insert_ne in Hy by done. by simplify_eq.
Qed.

Lemma take_two_ok p :
  Pool.wf p → Pool.p_taken p + 2 < 2 ^ 63 →
  ∃ p' o, take_two p = Some (p', o) ∧ Pool.wf p' ∧ Pool.p_taken p' ≤ Pool.p_taken p + 2 ∧
    (∀ i, Pool.p_held p !! i = Some true → Pool.p_held p' !! i = Some true) ∧
    match o with
    | Some (x, y) => x ≠ y ∧ Pool.p_held p !! x = Some false ∧ Pool.p_held p !! y = Some false ∧
        Pool.p_held p' !! x = Some true ∧ Pool.p_held p' !! y = Some true ∧ Pool.in_use p' = (2 + Pool.in_use p)%nat
    | None => Pool.in_use p' = Pool.in_use p
    end.
Proof.
  intros Hwf Ht. unfold take_two. destruct (Pool.take_spec p Hwf) as (p1 & o1 & -> & Hwf1 & _ & H1); [unfold u_max; lia|]. cbn [mbind option_bind].
  destruct o1 as [x|]; [|destruct H1 as [-> _]; exists p, None; split_and!; try done; lia]. destruct H1 as (Hx & Hh1 & Hu1 & Ht1 & Hr1).
  assert (x < length (Pool.p_held p))%nat as Hlx by (by eapply lookup_lt_Some).
  destruct (Pool.take_spec p1 Hwf1) as (p2 & o2 & -> & Hwf2 & _ & H2); [unfold u_max; lia|]. cbn [mbind option_bind]. destruct o2 as [y|].
  - destruct H2 as (Hy & Hh2 & Hu2 & Ht2 & _). assert (x ≠ y) as Hne by (intros ->; rewrite Hh1, list_lookup_insert_eq in Hy by done; done).
    assert (y < length (Pool.p_held p1))%nat as Hly by (by eapply lookup_lt_Some). pose proof Hy as Hy'. rewrite Hh1, list_lookup_insert_ne in Hy' by done.
    exists p2, (Some (x, y)). split_and!; try done; try lia.
    + intros i Hi. rewrite Hh2, list_lookup_insert_ne by congruence. rewrite Hh1, list_lookup_insert_ne by congruence. done.
    + rewrite Hh2, list_lookup_insert_ne, Hh1 by done. by rewrite list_lookup_insert_eq.
    + by rewrite Hh2, list_lookup_insert_eq.
  - destruct H2 as [-> _]. destruct (Pool.give_spec p1 x Hwf1) as (p3 & g & -> & Hwf3 & _ & H3).
    { pose proof (Pool.wf_books _ Hwf1). unfold u_max. lia. }
    cbn [mbind option_bind]. rewrite Hh1, list_lookup_insert_eq in H3 by done. destruct g; [|by destruct H3 as [_ []]]. destruct H3 as (_ & Hh3 & Hu3 & Ht3 & _).
    exists p3, None. split_and!; try done; try lia. intros i Hi. rewrite Hh3. rewrite list_lookup_insert_ne by congruence. by rewrite list_lookup_insert_ne by congruence.
Qed.

Lemma lxor_bound x y n : 0 ≤ n → 0 ≤ Z.lxor (x mod 2 ^ n) (y mod 2 ^ n) < 2 ^ n.
Proof.
  intros Hn. assert (Z.lxor (x mod 2 ^ n) (y mod 2 ^ n) = Z.lxor x y mod 2 ^ n) as ->; [|apply Z.mod_pos_bound; lia].
  apply Z.bits_inj'. intros i Hi. rewrite Z.lxor_spec. destruct (decide (i < n)).
  - by rewrite !Z.mod_pow2_bits_low, Z.lxor_spec by lia.
  - by rewrite !Z.mod_pow2_bits_high by lia.
Qed.

Lemma initial_sequence_in_u now l r : in_u 32 (initial_sequence now l r).
Proof. unfold in_u, u_max, initial_sequence. pose proof (lxor_bound (now / 4000) (Z.lor (shl 32 l 16) r * 0x9e3779b9) 32 ltac:(lia)). lia. Qed.

Lemma fresh_wf b t :
  0 ≤ b → in_u 32 (iss t) → snd_una t = iss t → ring_wf (tx t) → ring_wf (rx t) → rlen (rx t) = 0 → in_u 32 (rcv_nxt t) → ooo t = replicate OOO_SEGMENTS None → peer_fin t = false →
  dup_acks t = 0 → retries t = 0 → srtt t = None → timing t = None → tcb_wf b t.
Proof.
  intros Hb Hi Hu Ht Hr Hl Hn Ho Hf E1 E2 E3 E4. split; try done; rewrite ?Hu; try done.
  - split; rewrite ?E1, ?E2, ?E3, ?E4; done || lia.
  - destruct (sq_of 0 (rcv_nxt t) Hn) as [x Ex]. exists x. unfold fin_of. rewrite Hf, Hl, Ex, Ho. split; [unfold sq; f_equal; lia|]. by apply Forall_replicate.
  - by rewrite Ho.
  - intros _. rewrite Ho. by apply Forall_replicate.
  - by rewrite Hf.
Qed.

Lemma ring_on_wf x : ring_wf (Ring_on x).
Proof. pose proof RING_eq. split; cbn; lia. Qed.
Lemma ring_none_wf : ring_wf Ring_NONE.
Proof. pose proof RING_eq. split; cbn; lia. Qed.

Lemma opened_wf b st v port ip rport n r x : 0 ≤ b → in_u 32 n → tcb_wf b (opened st v port ip rport n r x).
Proof. intros Hb Hn. apply fresh_wf; first [done|apply ring_on_wf]. Qed.

Lemma passive_wf b y n r x : 0 ≤ b → in_u 32 n → tcb_wf b (passive y n r x).
Proof. intros Hb Hn. apply fresh_wf; first [done|apply ring_on_wf|apply wrapping_in_u]. Qed.

Lemma generation_changes g : wrapping_add 32 g 1 ≠ g.
Proof.
  unfold wrapping_add. intros E. pose proof (Z.mod_pos_bound (g + 1) (2 ^ 32) ltac:(lia)). assert ((g + 1) mod 2 ^ 32 = if decide (g = 2 ^ 32 - 1) then 0 else g + 1) as E2.
  { case_decide as Hg; [by rewrite Hg|]. apply Z.mod_small. lia. }
  rewrite E2 in E. case_decide; lia.
Qed.

(** A connection is put in a free slot, with buffers just taken. *)
Lemma install_ok b s p i old t :
  table_wf b s p → tcbs s !! i = Some old → bufs old = [] → tcb_wf b t → NoDup (bufs t) → Forall (λ x, Pool.p_held p !! x = Some true) (bufs t) → (∀ x, x ∈ bufs t → x ∉ rings (tcbs s)) →
  ∃ s' c, install s i t = Some (s', c) ∧ table_wf b s' p ∧ rings (tcbs s') ≡ₚ bufs t ++ rings (tcbs s) ∧ follows s s'.
Proof.
  intros Hwf Hi Ho Ht Hnd Hh Hnew. unfold install. rewrite Hi. cbn [mbind option_bind]. set (t' := set_active true _). eexists _, _. split; [done|].
  pose proof (rings_insert (tcbs s) i old t' Hi Ho) as Hp. change (bufs t') with (bufs t) in Hp. split_and!; [|exact Hp|].
  - destruct Hwf. split; try done; cbn.
    + by rewrite length_insert.
    + apply Forall_insert; [done|]. destruct Ht. split; try done. eapply (sane_frame b b t); first [done|lia|by left].
    + by apply Forall_insert.
    + rewrite Hp. apply NoDup_app. by split_and!.
    + rewrite Hp. by apply Forall_app.
  - intros j x y Hx Hy Ha Hg. cbn in Hy. destruct (decide (i = j)) as [<-|Hne].
    + rewrite list_lookup_insert_eq in Hy by (by eapply lookup_lt_Some). simplify_eq. cbn in Hg. by destruct (generation_changes _ Hg).
    + rewrite list_lookup_insert_ne in Hy by done. simplify_eq. apply moves_refl.
Qed.


(** The table against a pool that has moved on, its rings still held. *)
Lemma table_pool b b' s p p' :
  table_wf b s p → b ≤ b' → Pool.wf p' → Pool.p_taken p' ≤ b' → (∀ i, Pool.p_held p !! i = Some true → Pool.p_held p' !! i = Some true) → table_wf b' s p'.
Proof.
  intros Hwf Hb Hp Ht Hh. apply (wf_mono b b') in Hwf as []; [|done]. split; try done. eapply Forall_impl; [exact tb_held0|]. intros i. apply Hh.
Qed.

Lemma table_frame b s s' p : table_wf b s p → tcbs s' = tcbs s → counted b (counters s') → table_wf b s' p.
Proof. intros [] E Hk. split; rewrite ?E; done. Qed.

Lemma ephemeral_loop_frame n s : tcbs (ephemeral_loop n s).1 = tcbs s ∧ counters (ephemeral_loop n s).1 = counters s.
Proof. revert s. induction n as [|n IH]; intros s; cbn [ephemeral_loop]; [done|]. destruct (port_in_use _ _); [|done]. destruct (IH (set_next_port (if next_port s =? u16_MAX then EPHEMERAL_FIRST else next_port s + 1) s)) as [-> ->]. done. Qed.

Lemma ephemeral_frame s now s' o : ephemeral s now = (s', o) → tcbs s' = tcbs s ∧ counters s' = counters s.
Proof.
  unfold ephemeral. generalize (Z.to_nat (u16_MAX - EPHEMERAL_FIRST + 1)) as n. intros n E. replace s' with (ephemeral_loop n (if next_port s =? 0
    then set_next_port (EPHEMERAL_FIRST + ((now * 0x9e3779b97f4a7c15) mod 2 ^ 64) mod (u16_MAX - EPHEMERAL_FIRST + 1)) s else s)).1 by (by rewrite E).
  destruct (ephemeral_loop_frame n (if next_port s =? 0
    then set_next_port (EPHEMERAL_FIRST + ((now * 0x9e3779b97f4a7c15) mod 2 ^ 64) mod (u16_MAX - EPHEMERAL_FIRST + 1)) s else s)) as [-> ->]. by destruct (_ =? _).
Qed.

(** Every slot keeps its generation and its state. *)
Definition same_slots (s s' : Tcp) : Prop := Forall2 (λ t t', state t' = state t ∧ generation t' = generation t) (tcbs s) (tcbs s').

Lemma follows_after s s1 s' : same_slots s s1 → follows s1 s' → follows s s'.
Proof.
  intros Hs Hf i t t' Ht Ht' Ha Hg. destruct (Forall2_lookup_l _ _ _ _ _ Hs Ht) as (t1 & Ht1 & Es & Eg). rewrite <-Es. apply (Hf i t1 t'); [done|done|done|congruence].
Qed.

Lemma follows_same s s' : same_slots s s' → follows s s'.
Proof. intros Hs i t t' Ht Ht' _ _. destruct (Forall2_lookup_lr _ _ _ _ _ _ Hs Ht Ht') as [-> _]. apply moves_refl. Qed.

(** Two buffers are taken and a connection is made with them, or neither. *)
Lemma open_ok b s p i old (mk : nat → nat → Tcb) :
  table_wf b s p → b + 2 < 2 ^ 31 → tcbs s !! i = Some old → bufs old = [] → (∀ r x, tcb_wf b (mk r x) ∧ bufs (mk r x) = [r; x]) →
  ∃ p' o, take_two p = Some (p', o) ∧ table_wf (b + 2) s p' ∧
    match o with
    | None => Pool.in_use p' = Pool.in_use p
    | Some (r, x) => ∀ s1, tcbs s1 = tcbs s → counted (b + 2) (counters s1) →
        ∃ s' c, install s1 i (mk r x) = Some (s', c) ∧ table_wf (b + 2) s' p' ∧ balanced s p s' p' ∧ follows s s'
    end.
Proof.
  intros Hwf Hb Hi Ho Hmk. pose proof (tb_taken _ _ _ Hwf). destruct (take_two_ok p (tb_pool _ _ _ Hwf)) as (p' & o & -> & Hp' & Ht' & Hh' & H2); [lia|].
  exists p', o. split; [done|]. assert (table_wf (b + 2) s p') as Hwf' by (eapply table_pool; [exact Hwf|lia|done|lia|done]). split; [done|]. destruct o as [[r x]|]; [|done].
  destruct H2 as (Hne & Hr & Hx & Hr' & Hx' & Hu). intros s1 E1 Hk1. pose proof (table_frame _ _ s1 _ Hwf' E1 Hk1) as Hwf1. destruct (Hmk r x) as [Ht Hbu].
  assert (∀ y, Pool.p_held p !! y = Some false → y ∉ rings (tcbs s)) as Hfree.
  { intros y Hy Hin. pose proof (proj1 (Forall_forall _ _) (tb_held _ _ _ Hwf) y Hin) as Hc. cbn in Hc. congruence. }
  destruct (install_ok (b + 2) s1 p' i old (mk r x) Hwf1) as (s' & c & -> & Hwf2 & Hp & Hf); rewrite ?E1, ?Hbu; try done.
  - eapply tcb_wf_mono; [|exact Ht]. lia.
  - apply NoDup_cons. split; [rewrite list_elem_of_singleton; congruence|apply NoDup_singleton].
  - by repeat constructor.
  - intros y Hy. apply elem_of_cons in Hy as [->|Hy]; [by apply Hfree|]. apply list_elem_of_singleton in Hy as ->. by apply Hfree.
  - exists s', c. split_and!; try done.
    + unfold balanced. rewrite Hp, Hbu, E1. cbn [app length]. lia.
    + unfold follows in *. by rewrite E1 in Hf.
Qed.

Lemma connect_well b s p ip port now : table_wf b s p → b + 20 < 2 ^ 31 → 0 ≤ b → goes_well b s p (perform s p (Connect ip port now)).
Proof.
  intros Hwf Hb Hb0. cbn [perform]. unfold connect. destruct (slot s) as [s1 o] eqn:Es. destruct (slot_ok b s p s1 o Hwf Es) as (Hwf1 & Er1 & Ek1 & Hi & Hss).
  assert (∀ s2 p2, tcbs s2 = tcbs s1 → table_wf (b + 20) s2 p2 → Pool.in_use p2 = Pool.in_use p → goes_well b s p (Some (s2, p2))) as Hsame.
  { intros s2 p2 E2 H2 Hu. exists s2, p2. split_and!; [done|done|unfold balanced; rewrite E2, Er1; lia|]. apply follows_same. unfold same_slots. by rewrite E2. }
  destruct o as [i|]; [|apply Hsame; [done|by eapply wf_mono; [|exact Hwf1]; lia|done]]. destruct (Hi i eq_refl) as (old & Hold & Hbu).
  destruct (ephemeral s1 now) as [s2 o2] eqn:Ee. destruct (ephemeral_frame _ _ _ _ Ee) as [E2 K2].
  assert (table_wf b s2 p) as Hwf2 by (eapply table_frame; [exact Hwf1|done|rewrite K2, Ek1; apply Hwf]).
  destruct o2 as [lp|]; [|apply Hsame; [done|by eapply wf_mono; [|exact Hwf2]; lia|done]].
  destruct (open_ok b s2 p i old (opened SynSent (bit SynSent) lp ip port (initial_sequence now lp port)) Hwf2) as (p' & o3 & -> & Hwf3 & H3); [lia|by rewrite E2|done| |].
  { intros r x. split; [apply opened_wf; [done|apply initial_sequence_in_u]|done]. }
  cbn [mbind option_bind]. destruct o3 as [[r x]|]; [|apply Hsame; [done|by eapply wf_mono; [|exact Hwf3]; lia|done]].
  unfold count. destruct (bump_counted b connects (counters s2) (tb_counters _ _ _ Hwf2) ltac:(lia)) as (k & -> & Hk). cbn [mbind option_bind].
  destruct (H3 (set_counters k s2)) as (s' & c & -> & Hwf4 & Hbal & Hf); [done|eapply counted_mono; [exact Hk|lia]|]. cbn [mbind option_bind].
  exists s', p'. split_and!; [done|by eapply wf_mono; [|exact Hwf4]; lia| |].
  - unfold balanced in *. rewrite E2, Er1 in Hbal. done.
  - eapply follows_after; [|exact Hf]. unfold same_slots. by rewrite E2.
Qed.

Lemma listen_well b s p port : table_wf b s p → b + 20 < 2 ^ 31 → 0 ≤ b → goes_well b s p (perform s p (ListenOn port)).
Proof.
  intros Hwf Hb Hb0. cbn [perform]. unfold listen. destruct (_ || _); [by apply well_refl|]. destruct (slot s) as [s1 o] eqn:Es.
  destruct (slot_ok b s p s1 o Hwf Es) as (Hwf1 & Er1 & Ek1 & Hi & Hss). destruct o as [i|].
  - destruct (Hi i eq_refl) as (old & Hold & Hbu). set (t := set_state Listen _).
    destruct (install_ok b s1 p i old t Hwf1 Hold Hbu) as (s' & c & -> & Hwf2 & Hp & Hf); [apply fresh_wf; first [done|apply ring_none_wf]|by apply NoDup_nil|constructor|by intros x ?%elem_of_nil|].
    cbn [mbind option_bind]. exists s', p. split_and!; [done|by eapply wf_mono; [|exact Hwf2]; lia| |by eapply follows_after].
    unfold balanced. rewrite Hp, Er1. done.
  - exists s1, p. split_and!; [done|by eapply wf_mono; [|exact Hwf1]; lia|unfold balanced; by rewrite Er1|by apply follows_same].
Qed.

Lemma take_syn_well b s p now : table_wf b s p → b + 40 < 2 ^ 31 → 0 ≤ b → goes_well b s p (perform s p (TakeSyn now)).
Proof.
  intros Hwf Hb Hb0. cbn [perform]. unfold take_syn. destruct (take_first (syns s)) as [[y l]|]; [|by apply well_refl]. set (s0 := set_syns l s).
  assert (table_wf b s0 p) as Hwf0 by (by eapply table_frame; [exact Hwf|done|apply Hwf]).
  unfold open_passive.
  assert (∀ s2 p2, table_wf (b + 2) s2 p2 → rings (tcbs s2) = rings (tcbs s) → same_slots s s2 → Pool.in_use p2 = Pool.in_use p →
    goes_well b s p ('(s, p, _) ← (s' ← count syns_refused s2; Some (s', p2, false)); Some (s, p))) as Href.
  { intros s2 p2 H2 E2 Hss Hu. destruct (count_well (b + 2) s2 p2 H2 ltac:(lia) syns_refused) as (s3 & -> & E3 & Hk3). cbn [mbind option_bind]. exists s3, p2.
    split_and!; [done| |unfold balanced; rewrite E3, E2; lia|apply follows_same; unfold same_slots; by rewrite E3].
    eapply table_frame; [by eapply wf_mono; [|exact H2]; lia|done|eapply counted_mono; [exact Hk3|lia]]. }
  assert (same_slots s s0) as Hs0 by (apply Forall_Forall2_diag, Forall_true; by intros t).
  destruct (_ || _); [apply Href; try done; by eapply wf_mono; [|exact Hwf0]; lia|].
  destruct (slot s0) as [s1 o] eqn:Es. destruct (slot_ok b s0 p s1 o Hwf0 Es) as (Hwf1 & Er1 & Ek1 & Hi & Hss).
  destruct o as [i|]; [|apply Href; try done; by eapply wf_mono; [|exact Hwf1]; lia]. destruct (Hi i eq_refl) as (old & Hold & Hbu).
  destruct (open_ok b s1 p i old (passive y (initial_sequence now (y_local_port y) (y_remote_port y))) Hwf1) as (p' & o3 & -> & Hwf3 & H3); [lia|done|done| |].
  { intros r x. split; [apply passive_wf; [done|apply initial_sequence_in_u]|done]. }
  cbn [mbind option_bind]. destruct o3 as [[r x]|]; [|by apply Href].
  destruct (H3 s1 eq_refl) as (s' & c & -> & Hwf4 & Hbal & Hf); [eapply counted_mono; [apply Hwf1|lia]|]. cbn [mbind option_bind].
  exists s', p'. split_and!; [done|by eapply wf_mono; [|exact Hwf4]; lia| |by eapply follows_after; [exact Hss|]]. unfold balanced in *. rewrite Er1 in Hbal. done.
Qed.


(** ** Giving the rings back *)

Lemma give_ring_ok p r :
  Pool.wf p → Pool.p_taken p < 2 ^ 63 → (∀ i, buf r = Some i → Pool.p_held p !! i = Some true) → ring_wf r →
  ∃ p' r', give_ring p r = Some (p', r') ∧ Pool.wf p' ∧ Pool.p_taken p' = Pool.p_taken p ∧ buf r' = None ∧ ring_wf r' ∧ (r' = r ∨ r' = Ring_NONE) ∧
    (∀ j, buf r ≠ Some j → Pool.p_held p' !! j = Pool.p_held p !! j) ∧ (Pool.in_use p' + length (option_list (buf r)) = Pool.in_use p)%nat.
Proof.
  intros Hwf Ht Hh Hr. unfold give_ring. destruct (buf r) as [i|] eqn:E; [|exists p, r; split_and!; first [done|by left|cbn; lia]].
  destruct (Pool.give_spec p i Hwf) as (p' & g & -> & Hwf' & _ & H); [pose proof (Pool.wf_books _ Hwf); unfold u_max; lia|]. cbn [mbind option_bind].
  rewrite (Hh i eq_refl) in H. destruct g; [|by destruct H as [_ []]]. destruct H as (_ & Hh' & Hu & Ht' & _).
  exists p', Ring_NONE. pose proof ring_none_wf. split_and!; first [done|by right|cbn; lia|idtac]. intros j Hj. rewrite Hh', list_lookup_insert_ne by congruence. done.
Qed.

Lemma reap_tcb_ok b p t :
  tcb_wf b t → (active t = false → bufs t = []) → Pool.wf p → Pool.p_taken p < 2 ^ 63 → NoDup (bufs t) → Forall (λ i, Pool.p_held p !! i = Some true) (bufs t) →
  ∃ p' t', reap_tcb p t = Some (p', t') ∧ Pool.wf p' ∧ Pool.p_taken p' = Pool.p_taken p ∧ tcb_wf b t' ∧ (active t' = false → bufs t' = []) ∧
    ((p' = p ∧ bufs t' = bufs t) ∨ bufs t' = []) ∧ (∀ j, j ∉ bufs t → Pool.p_held p' !! j = Pool.p_held p !! j) ∧
    (Pool.in_use p' + length (bufs t) = Pool.in_use p + length (bufs t'))%nat ∧ state t' = state t ∧ generation t' = generation t.
Proof.
  intros Hwt Hidle Hwf Ht Hnd Hh. unfold reap_tcb. destruct (negb _); [exists p, t; by split_and!; auto|]. unfold bufs in Hnd, Hh. apply NoDup_app in Hnd as (_ & Hdis & _).
  apply Forall_app in Hh as [Hh1 Hh2]. pose proof Hwt as [].
  destruct (give_ring_ok p (rx t) Hwf Ht) as (p1 & r & -> & Hwf1 & Ht1 & Hr1 & Hrw & Hrr & Hf1 & Hu1); [|done|].
  { intros i Hi. rewrite Hi in Hh1. by inversion Hh1. }
  cbn [mbind option_bind]. destruct (give_ring_ok p1 (tx t) Hwf1) as (p2 & x & -> & Hwf2 & Ht2 & Hx1 & Hxw & Hxx & Hf2 & Hu2); [lia| |done|].
  { intros i Hi. rewrite Hi in Hh2. rewrite Hf1; [by inversion Hh2|]. intros Hr. apply (Hdis i); rewrite ?Hr, ?Hi; left. }
  cbn [mbind option_bind]. set (t1 := set_tx x (set_rx r t)).
  assert (bufs t1 = []) as Hb1 by (unfold bufs; cbn; by rewrite Hr1, Hx1).
  assert (tcb_wf b t1) as Hw1.
  { assert (tcb_wf b (set_rx r t)) as Hw0.
    { destruct Hrr as [->| ->]; [eapply (read_wf b t _ 0); [done|destruct tw_rx0; lia|done|lia]|]. eapply (read_wf b t _ (rlen (rx t))); [done|destruct tw_rx0; lia|apply ring_none_wf|cbn; lia]. }
    destruct Hw0. split; try done. eapply (sane_frame b b t); first [done|lia|by left]. }
  assert (tcb_wf b (set_active false t1)) as Hw2 by (destruct Hw1; split; try done; eapply (sane_frame b b t1); first [done|lia|by left]).
  exists p2, (if in_state t1 Closed then set_active false t1 else t1).
  assert (∀ t2, t2 = t1 ∨ t2 = set_active false t1 → Pool.wf p2 ∧ Pool.p_taken p2 = Pool.p_taken p ∧ tcb_wf b t2 ∧ (active t2 = false → bufs t2 = []) ∧
    ((p2 = p ∧ bufs t2 = bufs t) ∨ bufs t2 = []) ∧ (∀ j, j ∉ bufs t → Pool.p_held p2 !! j = Pool.p_held p !! j) ∧
    (Pool.in_use p2 + length (bufs t) = Pool.in_use p + length (bufs t2))%nat ∧ state t2 = state t ∧ generation t2 = generation t) as Hg.
  { intros t2 Ht2'. assert (bufs t2 = []) as Hb2 by (by destruct Ht2' as [->| ->]). rewrite Hb2. split_and!; try done; [lia|by destruct Ht2' as [->| ->]|by right| | |by destruct Ht2' as [->| ->]|by destruct Ht2' as [->| ->]].
    - intros j Hj. unfold bufs in Hj. rewrite elem_of_app in Hj. rewrite Hf2, Hf1; [done| |]; intros E; apply Hj; [left|right]; rewrite E; left.
    - unfold bufs. rewrite length_app. cbn [length]. lia. }
  split; [done|]. destruct (in_state t1 Closed); apply Hg; auto.
Qed.

Lemma reap_all_ok b l : ∀ p,
  Forall (tcb_wf b) l → Forall (λ t, active t = false → bufs t = []) l → Pool.wf p → Pool.p_taken p < 2 ^ 63 → NoDup (rings l) → Forall (λ i, Pool.p_held p !! i = Some true) (rings l) →
  ∃ p' l', reap_all p l = Some (p', l') ∧ Pool.wf p' ∧ Pool.p_taken p' = Pool.p_taken p ∧ Forall (tcb_wf b) l' ∧ Forall (λ t, active t = false → bufs t = []) l' ∧
    NoDup (rings l') ∧ Forall (λ i, Pool.p_held p' !! i = Some true) (rings l') ∧ rings l' ⊆ rings l ∧ (∀ j, j ∉ rings l → Pool.p_held p' !! j = Pool.p_held p !! j) ∧
    (Pool.in_use p' + length (rings l) = Pool.in_use p + length (rings l'))%nat ∧ Forall2 (λ t t', state t' = state t ∧ generation t' = generation t) l l'.
Proof.
  induction l as [|t l IH]; intros p Hw Hi Hp Ht Hnd Hh; cbn [reap_all]; [exists p, []; split_and!; try done; constructor|].
  inversion Hw as [|? ? Hwt Hwl]; inversion Hi as [|? ? Hit Hil]; subst. unfold rings in Hnd, Hh. csimpl in *. cbn [concat] in *. fold (rings l) in Hnd, Hh.
  apply NoDup_app in Hnd as (Hnd1 & Hdis & Hnd2). apply Forall_app in Hh as [Hh1 Hh2].
  destruct (reap_tcb_ok b p t Hwt Hit Hp Ht Hnd1 Hh1) as (p1 & t' & -> & Hp1 & Ht1 & Hwt' & Hit' & Hbt & Hf1 & Hu1 & Hst & Hg). cbn [mbind option_bind].
  destruct (IH p1 Hwl Hil Hp1) as (p2 & l' & -> & Hp2 & Ht2 & Hwl' & Hil' & Hnd' & Hh' & Hsub & Hf2 & Hu2 & Hsl); [lia|done| |].
  { apply Forall_forall. intros i Hin. rewrite Hf1; [|by intros Hx; apply (Hdis i)]. by apply (proj1 (Forall_forall _ _) Hh2). }
  cbn [mbind option_bind]. assert (rings (t :: l) = bufs t ++ rings l) as El by done. assert (rings (t' :: l') = bufs t' ++ rings l') as El' by done.
  exists p2, (t' :: l'). rewrite El, El'. split_and!; try done; [lia|by constructor|by constructor| | | | | |by constructor].
  - apply NoDup_app. split_and!; [destruct Hbt as [[_ ->]| ->]; [done|constructor]| |done]. intros i Hin Hl'. destruct Hbt as [[_ Eb]|Eb]; rewrite Eb in Hin; [|by apply elem_of_nil in Hin].
    apply (Hdis i Hin). by apply Hsub.
  - apply Forall_app. split; [|done]. destruct Hbt as [[-> Eb]| ->]; [|constructor]. rewrite Eb. apply Forall_forall. intros i Hin.
    rewrite Hf2 by (by apply Hdis). by apply (proj1 (Forall_forall _ _) Hh1).
  - intros i. rewrite !elem_of_app. intros [Hin|Hin]; [|right; by apply Hsub]. destruct Hbt as [[_ Eb]|Eb]; rewrite Eb in Hin; [by left|by apply elem_of_nil in Hin].
  - intros j Hj. rewrite elem_of_app in Hj. rewrite Hf2, Hf1 by tauto. done.
  - rewrite !length_app. lia.
Qed.

Lemma reap_well b s p : table_wf b s p → b + 20 < 2 ^ 31 → goes_well b s p (perform s p Reap).
Proof.
  intros Hwf Hb. pose proof Hwf as []. cbn [perform]. unfold reap.
  destruct (reap_all_ok b (tcbs s) p tb_tcbs0 tb_idle0 tb_pool0) as (p' & l' & -> & Hp & Ht & Hw & Hi & Hnd & Hh & _ & _ & Hu & Hsl); [lia|done|done|]. cbn [mbind option_bind].
  exists (set_tcbs l' s), p'. split_and!; [done| |done|by apply follows_same]. apply (wf_mono b); [lia|]. split; try done; [|lia]. cbn. by rewrite <-(Forall2_length _ _ _ Hsl).
Qed.


(** ** Every call *)

(** Lengths and times are those of a real machine, and a segment is one the parser accepts; of
    the segments, a FIN that comes after the stream's end without being the one that ended it is
    left out. *)
Definition call_ok (s : Tcp) (c : call) : Prop :=
  match c with
  | Send _ data => Z.of_nat (length data) < 2 ^ 31
  | Recv _ room | Peek _ room => 0 ≤ room
  | Timers now => 0 ≤ now ≤ NOW_MAX
  | Next _ now => 0 ≤ now
  | Input src sg from now =>
      parsed sg ∧ 0 ≤ from ≤ u16_MAX ∧ 0 ≤ now ≤ NOW_MAX ∧ ∀ t, t ∈ tcbs s → matches t src sg = true → fin_again t sg = false
  | _ => True
  end.

Lemma perform_ok b s p c : table_wf b s p → b + 40 < 2 ^ 31 → 0 ≤ b → call_ok s c → goes_well b s p (perform s p c).
Proof.
  intros Hwf Hb Hb0 Hc. assert (b + 20 < 2 ^ 31) as Hb' by lia. destruct c; cbn [call_ok] in Hc.
  - by apply connect_well.
  - by apply listen_well.
  - by apply accept_well.
  - by apply send_well.
  - by apply recv_well.
  - by apply peek_well.
  - by apply shutdown_well.
  - by apply abort_well.
  - by apply close_well.
  - by apply reap_well.
  - by apply timers_well.
  - destruct Hc as (? & ? & ? & ?). by apply input_well.
  - by apply take_reset_well.
  - by apply take_syn_well.
  - by apply next_well.
  - by apply sent_well.
Qed.

(** The tables that [n] calls lead to, from the empty one. *)
Inductive reached : nat → Tcp → Pool.Pool → Prop :=
| reached_new : reached 0 Tcp_new Pool.new
| reached_call n s p c s' p' : reached n s p → call_ok s c → perform s p c = Some (s', p') → reached (S n) s' p'.

Definition CALLS : Z := 2 ^ 26.

Lemma empty_wf b : 0 ≤ b → tcb_wf b EMPTY.
Proof. intros Hb. apply fresh_wf; first [done|apply ring_none_wf]. Qed.

Lemma rings_replicate n : rings (replicate n EMPTY) = [].
Proof. unfold rings. induction n as [|n IH]; [done|]. cbn. done. Qed.

Lemma Tcp_new_wf : table_wf 0 Tcp_new Pool.new.
Proof.
  pose proof Pool.pool_new_wf. split; rewrite ?(rings_replicate CONNECTIONS : rings (tcbs Tcp_new) = []); try done.
  - apply Forall_replicate. by apply empty_wf.
  - by apply Forall_replicate.
  - constructor.
Qed.

Lemma reached_wf n s p :
  reached n s p → Z.of_nat n ≤ CALLS → table_wf (20 * Z.of_nat n) s p ∧ Pool.in_use p = length (rings (tcbs s)).
Proof.
  unfold CALLS. induction 1 as [|n s p c s' p' _ IH Hc E]; intros Hn; [split; [apply Tcp_new_wf|done]|]. destruct IH as [Hwf Hu]; [lia|].
  destruct (perform_ok _ s p c Hwf ltac:(lia) ltac:(lia) Hc) as (s1 & p1 & E1 & Hwf1 & Hbal & _). rewrite E in E1. injection E1 as <- <-.
  split; [replace (20 * Z.of_nat (S n)) with (20 * Z.of_nat n + 20) by lia; done|]. unfold balanced in Hbal. lia.
Qed.

Lemma rings_held_length s : Forall (λ t, active t = false → bufs t = []) (tcbs s) → rings_held s = length (rings (tcbs s)).
Proof.
  unfold rings_held, rings. induction 1 as [|t l Ht _ IH]; [done|]. csimpl. rewrite length_app, IH. f_equal. destruct (active t); [|by rewrite Ht].
  unfold bufs, held. rewrite length_app. destruct (buf (rx t)), (buf (tx t)); done.
Qed.

(** No call of [tcp.rs] panics: whatever a program asks for, whatever the timers find and
    whatever segment the network brings, every call made in a table that calls led to gives a
    table. *)
Theorem no_call_panics n s p c : reached n s p → Z.of_nat n ≤ CALLS → call_ok s c → is_Some (perform s p c).
Proof.
  intros Hr Hn Hc. destruct (reached_wf n s p Hr Hn) as [Hwf _]. unfold CALLS in Hn.
  destruct (perform_ok _ s p c Hwf ltac:(lia) ltac:(lia) Hc) as (s' & p' & -> & _). by eexists.
Qed.

(** The buffers the pool has given out are the rings of the connections: each belongs to
    one ring of one connection in use, and none is lost or in two places, after any calls. *)
Theorem rings_are_accounted n s p :
  reached n s p → Z.of_nat n ≤ CALLS →
  Pool.in_use p = rings_held s ∧ NoDup (rings (tcbs s)) ∧ (∀ i, i ∈ rings (tcbs s) → Pool.p_held p !! i = Some true) ∧
    (slots_in_use s = 0%nat → Pool.balanced p = true).
Proof.
  intros Hr Hn. destruct (reached_wf n s p Hr Hn) as [Hwf Hu]. pose proof Hwf as []. pose proof (rings_held_length s tb_idle0) as Hh. split_and!; [lia|done|by apply Forall_forall|].
  intros H0. assert (rings_held s = 0%nat) as Hz.
  { unfold rings_held. unfold slots_in_use in H0. clear -H0. induction (tcbs s) as [|t l IH]; [done|]. csimpl. cbn in H0. destruct (active t); [done|]. cbn. by apply IH. }
  unfold Pool.balanced. pose proof (Pool.wf_books _ tb_pool0) as Hbk. assert (Pool.in_use p = 0%nat) as Hi by lia. rewrite Hi in *. cbn. apply Z.eqb_eq. lia.
Qed.


(** ** A connection opened *)

Definition a_call : call := Connect [10; 0; 2; 2] 80 0.

Lemma a_table : ∃ s p, perform Tcp_new Pool.new a_call = Some (s, p) ∧ reached 1 s p ∧ rings_held s = 2%nat.
Proof.
  destruct (perform Tcp_new Pool.new a_call) as [[s p]|] eqn:E; [|by vm_compute in E].
  exists s, p. split; [done|]. split; [eapply reached_call; [apply reached_new| |exact E]; done|].
  assert (rings_held <$> (fst <$> perform Tcp_new Pool.new a_call) = Some 2%nat) as H by (vm_compute; reflexivity). rewrite E in H. by injection H.
Defined.

Lemma no_call_panics_witness : ∃ s p, reached 1 s p ∧ rings_held s = 2%nat ∧ is_Some (perform s p (Timers 400000000)).
Proof.
  destruct a_table as (s & p & _ & Hr & Hh). exists s, p. split; [done|]. split; [done|]. apply (no_call_panics 1 s p); [done|unfold CALLS; lia|]. cbn. unfold NOW_MAX. lia.
Defined.

Lemma rings_are_accounted_witness : ∃ s p, reached 1 s p ∧ rings_held s = 2%nat ∧ Pool.in_use p = 2%nat.
Proof.
  destruct a_table as (s & p & _ & Hr & Hh). exists s, p. split; [done|]. split; [done|]. rewrite <-Hh.
  apply (rings_are_accounted 1 s p); [done|unfold CALLS; lia].
Defined.


End TcpTable.
