(* ===== verification/NetTcpCases.v ===== *)
(** * TCP: runs that show the code's limits

    Concrete runs of two connected ends, and single calls, where the code does something its
    comments do not say. *)

From S2P Require Import Prelude NetWire NetLink NetTcp NetTcpSeq NetTcpRecv NetTcpSend NetTcpEmit NetTcpArrive NetTcpStream.
Import Wire NetTcp TcpSeq TcpRecv TcpSend TcpEmit TcpArrive TcpStream.
Local Open Scope Z_scope.

Module TcpCases.

Definition emits (s : side) (n : nat) (now : Z) : list (side * act) := replicate n (s, Emit now).
Definition arrives (s : side) (from_ n : nat) (now : Z) : list (side * act) := (λ i, (s, Arrive i 54 now)) <$> seq from_ n.

(** ** A shut window

    The client fills the server's window, which the server's program does not read; the probe
    the client sends is answered; the timer then runs out again and again. *)

Definition shut : list (side * act) :=
  [(Passive, Emit 1); (Active, Arrive 0 54 2); (Active, Emit 3); (Passive, Arrive 1 54 4); (Active, Write (replicate 1514 7))] ++
  emits Active 4 5 ++ arrives Passive 2 4 6 ++ [(Passive, Emit 7); (Active, Arrive 1 54 8)] ++
  emits Active 5 9 ++ arrives Passive 6 5 10 ++ [(Passive, Emit 11); (Active, Arrive 2 54 12); (Active, Write (replicate 100 8)); (Active, Emit 13)] ++
  [(Active, Tick 5000000000); (Active, Emit 5000000001); (Passive, Arrive 11 54 5000000002); (Passive, Emit 5000000003); (Active, Arrive 3 54 5000000004)].

Definition wait (n : nat) : list (side * act) :=
  concat ((λ i, let now := 5000000000 * Z.of_nat (2 + i) in [(Active, Tick now); (Active, Emit now); (Active, Emit now)]) <$> seq 0 n).

(** The probe is the last segment sent: seven timeouts send nothing, and the eighth gives the
    connection up although the peer answered. *)
Example shut_window_is_probed_once :
  (λ w, (length (e_sent (w Active)), error (e_tcb (w Active)))) <$> (start a_setup 0 ≫= λ w, run w shut) = Some (12%nat, None) ∧
  (λ w, (length (e_sent (w Active)), error (e_tcb (w Active)))) <$> (start a_setup 0 ≫= λ w, run w (shut ++ wait 7)) = Some (12%nat, None) ∧
  (λ w, error (e_tcb (w Active))) <$> (start a_setup 0 ≫= λ w, run w (shut ++ wait 8)) = Some (Some TimedOut).
Proof. vm_compute. done. Qed.

(** ** Data out of order

    Eight segments after a lost one, all inside the window the server had announced. *)

Definition acked (from_ n ack : nat) (now : Z) : list (side * act) :=
  concat ((λ i, [(Passive, Arrive (from_ + i) 54 now); (Passive, Emit now); (Active, Arrive (ack + i) 54 now)]) <$> seq 0 n).

Definition lost : list (side * act) :=
  [(Passive, Emit 1); (Active, Arrive 0 54 2); (Active, Emit 3); (Passive, Arrive 1 54 4); (Active, Write (replicate 1512 7))] ++
  emits Active 4 5 ++ acked 2 4 1 6 ++ emits Active 4 9 ++ acked 6 4 5 10 ++
  [(Passive, Read 2000); (Passive, Emit 11); (Active, Arrive 9 54 12); (Active, Write (replicate 1514 8))] ++
  emits Active 9 13 ++ acked 11 8 10 14.

(** Each segment held takes its bytes and the hole's off the window, which is counted from the
    hole: 1514 bytes were announced, and the last four segments, within them, are dropped. *)
Example held_data_retracts_the_window :
  (λ w, (drop 9 (tcp_window <$> e_sent (w Passive)), ooo (e_tcb (w Passive)), e_counters (w Passive) duplicates)) <$> (start a_setup 0 ≫= λ w, run w lost) =
  Some ([1514; 1136; 947; 758; 569; 569; 569; 569; 569], [Some {| r_seq := 1699; r_len := 756 |}; None; None; None], 4).
Proof. vm_compute. reflexivity. Qed.

(** ** A selective acknowledgement of data never sent *)

Definition a_sender : Tcb := set_snd_max 2000 (set_snd_nxt 2000 (set_snd_una 1000 EMPTY)).

Example sack_of_the_unsent_is_kept :
  sack_valid a_sender (2010, 2000 + 2 ^ 31 + 1) = true ∧ first_hole (record_sack a_sender [Some (2010, 2000 + 2 ^ 31 + 1); None; None]).1 2010 = 2000 + 2 ^ 31 + 1.
Proof. vm_compute. done. Qed.

(** ** Two FINs

    A segment held past a hole, then the FIN in the hole, then another FIN: the run is now
    behind [rcv_nxt], and the sum that measures how far it reaches passes [2^32]. *)

Definition a_receiver : Tcb := set_rcv_nxt 1000 (opened Established 0 80 [10; 0; 2; 15] 49152 7 0 1).
Definition a_segment (seq flags : Z) (payload : Bytes) : Wire.Tcp := {|
  tcp_src_port := 49152; tcp_dst_port := 80; tcp_seq := seq; tcp_ack := 7; tcp_flags := flags; tcp_window := 1000; tcp_mss := None;
  tcp_sack_permitted := false; tcp_sack := replicate SACK_BLOCKS None; tcp_payload := payload |}.
Definition feed (t : Tcb) (l : list Wire.Tcp) : option Tcb :=
  foldl (λ t sg, t ← t; '(t, _, _) ← segment t (λ _, 0) sg 54 0; Some t) (Some t) l.

Example second_fin_is_taken :
  rcv_nxt <$> feed a_receiver [a_segment 1000 (Z.lor TCP_FIN TCP_ACK) []; a_segment 1001 (Z.lor TCP_FIN TCP_ACK) []] = Some 1002 ∧
  (t ← feed a_receiver [a_segment 1001 TCP_ACK [1; 2; 3]; a_segment 1000 (Z.lor TCP_FIN TCP_ACK) []; a_segment 1001 (Z.lor TCP_FIN TCP_ACK) []]; rx_free t) = None.
Proof. vm_compute. done. Qed.

End TcpCases.
