(* ===== verification/NetTcpTyped.v ===== *)
(** * TCP: every field fits its type

    The model counts in unbounded integers.  Here: whatever calls are made, every field of every
    connection stays within the machine type the source declares for it, so that nothing in the
    model depends on a number the program could not hold; and what is sent is a header that fits
    the wire. *)

From S2P Require Import Prelude NetWire NetLink NetTcp NetTcpRecv NetTcpTable.
Import Wire NetTcp.
Local Open Scope Z_scope.

Module TcpTyped.

(** ** The types *)

Definition opt {A} (P : A → Prop) (o : option A) : Prop := match o with Some x => P x | None => True end.
Definition addr (a : Ipv4Addr) : Prop := length a = 4%nat ∧ bytes a.
Definition both (w w' : Z) (p : Z * Z) : Prop := in_u w p.1 ∧ in_u w' p.2.
Definition ring_fits (r : Ring) : Prop := in_u 32 (head r) ∧ in_u 32 (rlen r).
Definition run_fits (r : Run) : Prop := in_u 32 (r_seq r) ∧ in_u 32 (r_len r).
Definition runs_fit (l : list (option Run)) : Prop := length l = OOO_SEGMENTS ∧ Forall (opt run_fits) l.
Definition blocks_fit (l : list (option (Z * Z))) : Prop := length l = SACK_BLOCKS ∧ Forall (opt (both 32 32)) l.

Record typed (t : Tcb) : Prop := {
  ty_generation : in_u 32 (generation t);
  ty_visited : in_u 16 (visited t);
  ty_local_port : in_u 16 (local_port t);
  ty_remote_ip : addr (remote_ip t);
  ty_remote_port : in_u 16 (remote_port t);
  ty_iss : in_u 32 (iss t);
  ty_snd_una : in_u 32 (snd_una t);
  ty_snd_nxt : in_u 32 (snd_nxt t);
  ty_snd_max : in_u 32 (snd_max t);
  ty_snd_wnd : in_u 16 (snd_wnd t);
  ty_mss : in_u 16 (mss t);
  ty_rcv_nxt : in_u 32 (rcv_nxt t);
  ty_rx : ring_fits (rx t);
  ty_ooo : runs_fit (ooo t);
  ty_tx : ring_fits (tx t);
  ty_tx_seq : in_u 32 (tx_seq t);
  ty_fin_seq : opt (in_u 32) (fin_seq t);
  ty_cwnd : in_u 32 (cwnd t);
  ty_ssthresh : in_u 32 (ssthresh t);
  ty_dup_acks : in_u 32 (dup_acks t);
  ty_recover : in_u 32 (recover t);
  ty_srtt : opt (both 64 64) (srtt t);
  ty_timing : opt (both 32 64) (timing t);
  ty_rto : in_u 64 (rto t);
  ty_deadline : opt (in_u 64) (deadline t);
  ty_sacked : blocks_fit (sacked t);
  ty_retries : in_u 32 (retries t);
  ty_time_wait_until : in_u 64 (time_wait_until t);
  ty_parent : opt (λ i, i < CONNECTIONS)%nat (parent t) }.

(** ** An assignment keeps the types *)

Lemma fit_active x t : typed t → typed (set_active x t).
Proof. by intros []. Qed.
Lemma fit_generation x t : in_u 32 x → typed t → typed (set_generation x t).
Proof. by intros ? []. Qed.
Lemma fit_state x t : typed t → typed (set_state x t).
Proof. by intros []. Qed.
Lemma fit_visited x t : in_u 16 x → typed t → typed (set_visited x t).
Proof. by intros ? []. Qed.
Lemma fit_local_port x t : in_u 16 x → typed t → typed (set_local_port x t).
Proof. by intros ? []. Qed.
Lemma fit_remote_ip x t : addr x → typed t → typed (set_remote_ip x t).
Proof. by intros ? []. Qed.
Lemma fit_remote_port x t : in_u 16 x → typed t → typed (set_remote_port x t).
Proof. by intros ? []. Qed.
Lemma fit_iss x t : in_u 32 x → typed t → typed (set_iss x t).
Proof. by intros ? []. Qed.
Lemma fit_snd_una x t : in_u 32 x → typed t → typed (set_snd_una x t).
Proof. by intros ? []. Qed.
Lemma fit_snd_nxt x t : in_u 32 x → typed t → typed (set_snd_nxt x t).
Proof. by intros ? []. Qed.
Lemma fit_snd_max x t : in_u 32 x → typed t → typed (set_snd_max x t).
Proof. by intros ? []. Qed.
Lemma fit_snd_wnd x t : in_u 16 x → typed t → typed (set_snd_wnd x t).
Proof. by intros ? []. Qed.
Lemma fit_mss x t : in_u 16 x → typed t → typed (set_mss x t).
Proof. by intros ? []. Qed.
Lemma fit_rcv_nxt x t : in_u 32 x → typed t → typed (set_rcv_nxt x t).
Proof. by intros ? []. Qed.
Lemma fit_rx x t : ring_fits x → typed t → typed (set_rx x t).
Proof. by intros ? []. Qed.
Lemma fit_ooo x t : runs_fit x → typed t → typed (set_ooo x t).
Proof. by intros ? []. Qed.
Lemma fit_tx x t : ring_fits x → typed t → typed (set_tx x t).
Proof. by intros ? []. Qed.
Lemma fit_tx_seq x t : in_u 32 x → typed t → typed (set_tx_seq x t).
Proof. by intros ? []. Qed.
Lemma fit_fin_queued x t : typed t → typed (set_fin_queued x t).
Proof. by intros []. Qed.
Lemma fit_fin_seq x t : opt (in_u 32) x → typed t → typed (set_fin_seq x t).
Proof. by intros ? []. Qed.
Lemma fit_peer_fin x t : typed t → typed (set_peer_fin x t).
Proof. by intros []. Qed.
Lemma fit_ack_now x t : typed t → typed (set_ack_now x t).
Proof. by intros []. Qed.
Lemma fit_rst_now x t : typed t → typed (set_rst_now x t).
Proof. by intros []. Qed.
Lemma fit_cwnd x t : in_u 32 x → typed t → typed (set_cwnd x t).
Proof. by intros ? []. Qed.
Lemma fit_ssthresh x t : in_u 32 x → typed t → typed (set_ssthresh x t).
Proof. by intros ? []. Qed.
Lemma fit_dup_acks x t : in_u 32 x → typed t → typed (set_dup_acks x t).
Proof. by intros ? []. Qed.
Lemma fit_recovering x t : typed t → typed (set_recovering x t).
Proof. by intros []. Qed.
Lemma fit_recover x t : in_u 32 x → typed t → typed (set_recover x t).
Proof. by intros ? []. Qed.
Lemma fit_resend x t : typed t → typed (set_resend x t).
Proof. by intros []. Qed.
Lemma fit_srtt x t : opt (both 64 64) x → typed t → typed (set_srtt x t).
Proof. by intros ? []. Qed.
Lemma fit_timing x t : opt (both 32 64) x → typed t → typed (set_timing x t).
Proof. by intros ? []. Qed.
Lemma fit_rto x t : in_u 64 x → typed t → typed (set_rto x t).
Proof. by intros ? []. Qed.
Lemma fit_deadline x t : opt (in_u 64) x → typed t → typed (set_deadline x t).
Proof. by intros ? []. Qed.
Lemma fit_sack_ok x t : typed t → typed (set_sack_ok x t).
Proof. by intros []. Qed.
Lemma fit_sacked x t : blocks_fit x → typed t → typed (set_sacked x t).
Proof. by intros ? []. Qed.
Lemma fit_probe x t : typed t → typed (set_probe x t).
Proof. by intros []. Qed.
Lemma fit_retries x t : in_u 32 x → typed t → typed (set_retries x t).
Proof. by intros ? []. Qed.
Lemma fit_time_wait_until x t : in_u 64 x → typed t → typed (set_time_wait_until x t).
Proof. by intros ? []. Qed.
Lemma fit_error x t : typed t → typed (set_error x t).
Proof. by intros []. Qed.
Lemma fit_released x t : typed t → typed (set_released x t).
Proof. by intros []. Qed.
Lemma fit_parent x t : opt (λ i, i < CONNECTIONS)%nat x → typed t → typed (set_parent x t).
Proof. by intros ? []. Qed.
Lemma fit_accepted x t : typed t → typed (set_accepted x t).
Proof. by intros []. Qed.

Create HintDb fits.
#[export] Hint Resolve fit_active fit_generation fit_state fit_visited fit_local_port fit_remote_ip fit_remote_port fit_iss fit_snd_una fit_snd_nxt fit_snd_max fit_snd_wnd fit_mss fit_rcv_nxt fit_rx fit_ooo fit_tx fit_tx_seq fit_fin_queued fit_fin_seq fit_peer_fin fit_ack_now fit_rst_now fit_cwnd fit_ssthresh fit_dup_acks fit_recovering fit_recover fit_resend fit_srtt fit_timing fit_rto fit_deadline fit_sack_ok fit_sacked fit_probe fit_retries fit_time_wait_until fit_error fit_released fit_parent fit_accepted : fits.

(** ** Numbers *)

Lemma fit_wrapping_add w a b : 0 ≤ w → in_u w (wrapping_add w a b).
Proof. intros Hw. unfold in_u, u_max, wrapping_add. pose proof (Z.mod_pos_bound (a + b) (2 ^ w)). pose proof (Z.pow_pos_nonneg 2 w). lia. Qed.
Lemma fit_wrapping_sub w a b : 0 ≤ w → in_u w (wrapping_sub w a b).
Proof. intros Hw. unfold in_u, u_max, wrapping_sub. pose proof (Z.mod_pos_bound (a - b) (2 ^ w)). pose proof (Z.pow_pos_nonneg 2 w). lia. Qed.
Lemma fit_saturating_add w a b : in_u w a → in_u w b → in_u w (saturating_add w a b).
Proof. unfold in_u, saturating_add. lia. Qed.
Lemma fit_saturating_sub w a b : in_u w a → in_u w b → in_u w (saturating_sub a b).
Proof. unfold in_u, saturating_sub. lia. Qed.
Lemma fit_max w a b : in_u w a → in_u w b → in_u w (Z.max a b).
Proof. unfold in_u. lia. Qed.
Lemma fit_min w a b : in_u w a → in_u w b → in_u w (Z.min a b).
Proof. unfold in_u. lia. Qed.
Lemma fit_checked_add w a b c : checked_add w a b = Some c → 0 ≤ a → 0 ≤ b → in_u w c.
Proof. intros (-> & ?)%checked_add_Some ? ?. unfold in_u. lia. Qed.
Lemma fit_checked_sub w a b c : checked_sub a b = Some c → in_u w a → 0 ≤ b → in_u w c.
Proof. intros (-> & ?)%checked_sub_Some ? ?. unfold in_u in *. lia. Qed.
Lemma fit_small w a : 0 ≤ a → a ≤ u_max w → in_u w a.
Proof. done. Qed.
Lemma fit_ring x : in_u 32 (x mod RING).
Proof. unfold in_u, u_max. pose proof (Z.mod_pos_bound x RING ltac:(done)). change RING with 1514 in *. lia. Qed.
Lemma fit_bit s : in_u 16 (bit s).
Proof. unfold in_u, u_max. by destruct s. Qed.
Lemma fit_seg t : 1 ≤ seg t ≤ 189.
Proof. unfold seg. change SEND_SEG with 189. lia. Qed.

#[export] Hint Resolve fit_wrapping_add fit_wrapping_sub fit_saturating_add fit_saturating_sub fit_max fit_min fit_ring fit_bit lor_in_u : fits.
#[export] Hint Extern 1 (in_u _ (Z.pos _)) => (by unfold in_u, u_max) : fits.
#[export] Hint Extern 1 (in_u _ 0) => (by unfold in_u, u_max) : fits.
#[export] Hint Extern 1 (0 ≤ _) => lia : fits.
#[export] Hint Extern 1 (in_u _ ?c) => (is_const c; by unfold in_u, u_max) : fits.
#[export] Hint Extern 2 (in_u _ (?f ?t)) => (is_var t; match goal with H : typed t |- _ => apply H end) : fits.
#[export] Hint Extern 2 (opt _ (?f ?t)) => (is_var t; match goal with H : typed t |- _ => apply H end) : fits.
#[export] Hint Extern 2 (ring_fits (?f ?t)) => (is_var t; match goal with H : typed t |- _ => apply H end) : fits.
#[export] Hint Extern 2 (runs_fit (?f ?t)) => (is_var t; match goal with H : typed t |- _ => apply H end) : fits.
#[export] Hint Extern 2 (blocks_fit (?f ?t)) => (is_var t; match goal with H : typed t |- _ => apply H end) : fits.
#[export] Hint Extern 1 (opt _ None) => exact I : fits.
#[export] Hint Extern 3 (opt _ (Some _)) => (cbn [opt]) : fits.
#[export] Hint Extern 3 (both _ _ (_, _)) => (split; cbn [fst snd]) : fits.

(** A call that may panic: what it leaves when it does not. *)
Lemma opt_bind {A B} (Q : B → Prop) (m : option A) (f : A → option B) : (∀ x, m = Some x → opt Q (f x)) → opt Q (m ≫= f).
Proof. destruct m as [x|]; [intros H; by apply H|done]. Qed.
Lemma opt_then {A B} (P : A → Prop) (Q : B → Prop) (m : option A) (f : A → option B) : opt P m → (∀ x, P x → opt Q (f x)) → opt Q (m ≫= f).
Proof. destruct m as [x|]; [intros Hx H; by apply H|done]. Qed.

Ltac fit := eauto 12 with fits.

(** ** The receiver *)

Lemma fit_none : runs_fit (replicate OOO_SEGMENTS None).
Proof. split; [done|]. by apply Forall_replicate. Qed.
Lemma fit_no_blocks : blocks_fit (replicate SACK_BLOCKS None).
Proof. split; [done|]. by apply Forall_replicate. Qed.
Lemma fit_insert_run i r l : opt run_fits r → runs_fit l → runs_fit (<[i := r]> l).
Proof. intros Hr [Hl Hf]. split; [by rewrite length_insert|by apply Forall_insert]. Qed.
#[export] Hint Resolve fit_none fit_no_blocks fit_insert_run : fits.

Lemma fit_merge_runs l : ∀ s e, in_u 32 s → in_u 32 e → Forall (opt run_fits) l →
  in_u 32 (merge_runs s e l).1.1 ∧ in_u 32 (merge_runs s e l).1.2 ∧ Forall (opt run_fits) (merge_runs s e l).2 ∧ length (merge_runs s e l).2 = length l.
Proof.
  induction l as [|[r|] l IH]; intros s e Hs He Hl; cbn [merge_runs]; [done| |].
  - apply Forall_cons_1 in Hl as [[Hr1 Hr2] Hl]. case_match.
    + set (s' := if seq_lt _ s then _ else _). set (e' := if seq_lt e _ then _ else _).
      destruct (IH s' e') as (? & ? & ? & E); [by subst s'; case_match|subst e'; case_match; [apply fit_wrapping_add; lia|done]|done|].
      destruct (merge_runs s' e' l) as [[? ?] ?]. cbn in *. split_and!; try done; [by constructor|lia].
    + destruct (IH s e) as (? & ? & ? & E); try done. destruct (merge_runs s e l) as [[? ?] ?]. cbn in *. split_and!; try done; [by constructor|lia].
  - apply Forall_cons_1 in Hl as [_ Hl]. destruct (IH s e) as (? & ? & ? & E); try done. destruct (merge_runs s e l) as [[? ?] ?]. cbn in *.
    split_and!; try done; [by constructor|lia].
Qed.

Lemma fit_hold t q n k : typed t → in_u 32 q → opt (λ x, typed x.1.1) (hold t q n k).
Proof.
  intros Ht Hq. unfold hold. destruct (ty_ooo t Ht) as [Hl Hf].
  destruct (fit_merge_runs (ooo t) q (wrapping_add 32 q n)) as (H1 & H2 & H3 & H4); [done|apply fit_wrapping_add; lia|done|].
  destruct (merge_runs _ _ _) as [[start end_] runs]. cbn in *. assert (runs_fit runs) as Hr by (split; congruence).
  assert (opt run_fits (Some {| r_seq := start; r_len := wrapping_sub 32 end_ start |})) as Hrun by (split; cbn; fit).
  destruct (position is_none runs); [cbn; fit|]. apply opt_bind. intros k' _. destruct (furthest _ _) as [[i a]|]; [case_match|]; cbn; fit.
Qed.

Lemma fit_coalesce_loop n : ∀ t k, typed t → opt (λ x, typed x.1) (coalesce_loop n t k).
Proof.
  induction n as [|n IH]; intros t k Ht; cbn [coalesce_loop]; [done|]. destruct (position (joined _) _) as [i|].
  - destruct (ooo t !! i) as [[run|]|] eqn:E; [|done..]. destruct (Forall_lookup_1 _ _ _ _ (proj2 (ty_ooo t Ht)) E) as [H1 H2].
    apply opt_bind. intros fresh Hf. apply opt_bind. intros l Hl. apply opt_bind. intros k' _. apply IH.
    destruct (fit_wrapping_sub 32 (rcv_nxt t) (r_seq run) ltac:(lia)) as [Hw _]. pose proof (fit_checked_sub _ _ _ _ Hf H2 Hw) as [Hf0 _].
    destruct (ty_rx t Ht) as [Hh [Hr0 _]]. assert (ring_fits {| buf := buf (rx t); head := head (rx t); rlen := l |}) as Hring by (split; [done|by eapply fit_checked_add]).
    fit.
  - destruct (position (behind _) _) as [j|]; [apply IH|done]. fit.
Qed.


(** ** The sender *)

Lemma fit_div w a b : in_u w a → 0 < b → in_u w (a / b).
Proof. unfold in_u. intros. split; [apply Z.div_pos; lia|]. etrans; [|apply H]. apply Z.div_le_upper_bound; nia. Qed.
Lemma fit_clamp w x lo hi : in_u w lo → in_u w hi → in_u w (clamp x lo hi).
Proof. unfold in_u, clamp. lia. Qed.
Lemma fit_seg_times n t : 0 ≤ n ≤ 16 → in_u 32 (n * seg t).
Proof. pose proof (fit_seg t). unfold in_u, u_max. nia. Qed.
Lemma fit_seg_u t : in_u 32 (seg t).
Proof. pose proof (fit_seg t). unfold in_u, u_max. lia. Qed.
#[export] Hint Resolve fit_seg_u : fits.

Lemma fit_smooth w x y d n : smooth w x y d = Some n → 0 ≤ w → 0 ≤ x → 0 ≤ y → 0 < d → in_u 64 n.
Proof.
  unfold smooth. intros (a & (-> & _)%checked_mul_Some & E)%bind_Some ? ? ? ?. apply bind_Some in E as (b & E & [= <-]).
  apply fit_div; [|done]. eapply fit_checked_add; [exact E|nia|done].
Qed.

Lemma fit_sample_rtt t rtt k : typed t → in_u 64 rtt → opt (λ x, typed x.1) (sample_rtt t rtt k).
Proof.
  intros Ht Hr. unfold sample_rtt. apply opt_bind. intros k' _. apply (opt_then (both 64 64)).
  - pose proof (ty_srtt t Ht) as Hs. destruct (srtt t) as [[s v]|].
    + destruct Hs as [[H1 _] [H2 _]]. cbn [fst snd] in *. apply opt_bind. intros s' Es. apply opt_bind. intros v' Ev.
      split; cbn; [apply (fit_smooth _ _ _ _ _ Es)|apply (fit_smooth _ _ _ _ _ Ev)]; try lia; apply Hr.
    + split; cbn; [done|by apply fit_div].
  - intros [s v] [H1 H2]. apply opt_bind. intros v4 _. cbn [opt fst]. apply fit_rto; [apply fit_clamp; fit|]. apply fit_srtt; [|done]. by split.
Qed.

Lemma fit_grow t acked : typed t → in_u 32 acked → typed (grow t acked).
Proof.
  intros Ht Ha. unfold grow. pose proof (fit_seg t) as Hs. assert (in_u 32 (seg t * seg t / Z.max (cwnd t) 1)) as Hd.
  { apply fit_div; [|lia]. unfold in_u, u_max. nia. }
  apply fit_cwnd; [|done]. apply fit_min; [case_match; fit|by unfold in_u, u_max].
Qed.

Lemma fit_record_sack t l : typed t → blocks_fit l → typed (record_sack t l).1.
Proof.
  intros Ht [Hl Hf]. unfold record_sack. cbn [fst]. apply fit_sacked; [|done]. destruct (ty_sacked t Ht) as [Hsl _]. split.
  - rewrite length_zip_with. lia.
  - clear -Hf. generalize (sacked t) as l'. induction Hf as [|b l Hb _ IH]; intros [|x l']; cbn; try constructor; [|apply IH].
    destruct b as [b|]; [|done]. by case_match.
Qed.

Lemma fit_forget_sacked t x : typed t → typed (forget_sacked t x).
Proof.
  intros Ht. unfold forget_sacked. apply fit_sacked; [|done]. destruct (ty_sacked t Ht) as [Hl Hf]. split; [by rewrite length_fmap|].
  apply Forall_fmap. eapply Forall_impl; [exact Hf|]. intros [[s e]|] Hb; cbn; [by case_match|done].
Qed.

Lemma fit_first_hole t x : typed t → in_u 32 x → in_u 32 (first_hole t x).
Proof.
  intros Ht. unfold first_hole. assert (Forall (both 32 32) (blocks t)) as Hb.
  { unfold blocks. destruct (ty_sacked t Ht) as [_ Hf]. induction Hf as [|[b|] l Hb _ IH]; cbn; [done|by constructor|done]. }
  generalize (S SACK_BLOCKS) as n. intros n. revert x. induction n as [|n IH]; intros x Hx; cbn [first_hole_loop]; [done|].
  destruct (position _ _) as [i|]; [|done]. destruct (blocks t !! i) as [b|] eqn:E; [|done]. apply IH. by apply (Forall_lookup_1 _ _ _ _ Hb E).
Qed.

Lemma fit_flight t : in_u 32 (flight t / 2).
Proof. apply fit_div; [unfold flight; fit|lia]. Qed.
#[export] Hint Resolve fit_forget_sacked fit_first_hole fit_flight : fits.

Lemma fit_begin_recovery t : typed t → typed (begin_recovery t).
Proof.
  intros Ht. unfold begin_recovery. assert (in_u 32 (Z.max (flight t / 2) (2 * seg t))) as Hs by (apply fit_max; [fit|apply fit_seg_times; lia]).
  assert (in_u 32 (DUP_ACK_THRESHOLD * seg t)) by (apply fit_seg_times; unfold DUP_ACK_THRESHOLD; lia).
  apply fit_timing, fit_resend; [done|]. apply fit_snd_nxt.
  - apply fit_first_hole; [|by apply (ty_snd_una t Ht)]. apply fit_recovering, fit_recover; [by apply (ty_snd_max t Ht)|]. apply fit_cwnd; [cbn; fit|fit].
  - apply fit_recovering, fit_recover; [by apply (ty_snd_max t Ht)|]. apply fit_cwnd; [cbn; fit|fit].
Qed.

Lemma fit_collapse t : typed t → typed (collapse t).
Proof.
  intros Ht. unfold collapse. assert (in_u 32 (Z.max (flight t / 2) (2 * seg t))) as Hs by (apply fit_max; [fit|apply fit_seg_times; lia]). fit.
Qed.

Lemma fit_enter t s : typed t → typed (enter t s).
Proof.
  intros Ht. unfold enter. assert (in_u 16 (Z.lor (visited t) (bit s))) as Hv by fit. assert (typed (set_visited (Z.lor (visited t) (bit s)) (set_state s t))) as H by fit.
  case_match; fit.
Qed.
#[export] Hint Resolve fit_begin_recovery fit_collapse fit_enter fit_grow : fits.

Lemma fit_established t k : typed t → opt (λ x, typed x.1) (established t k).
Proof.
  intros Ht. unfold established. apply opt_bind. intros k' _. cbn [opt fst]. pose proof (fit_enter t Established Ht) as He.
  assert (typed (set_cwnd (INITIAL_WINDOW * seg (enter t Established)) (enter t Established))) as H.
  { apply fit_cwnd; [apply fit_seg_times; unfold INITIAL_WINDOW; lia|done]. }
  case_match; fit.
Qed.

Lemma fit_advance t n now : typed t → in_u 64 now → typed (advance t n now).
Proof.
  intros Ht Hn. unfold advance. set (t1 := set_snd_nxt _ t). assert (typed t1) as H1 by (subst t1; fit). clearbody t1.
  set (t2 := if seq_lt _ _ then _ else _). assert (typed t2) as H2 by (subst t2; case_match; fit). clearbody t2.
  set (t3 := if _ && _ then _ else _). assert (typed t3) as H3.
  { subst t3. case_match; [|done]. apply fit_timing; [|done]. split; cbn; [apply H2|done]. }
  clearbody t3. case_match; [|done]. apply fit_deadline; [|done]. cbn. fit.
Qed.

Lemma fit_drop_sent t d : typed t → 0 ≤ d → opt typed (drop_sent t d).
Proof.
  intros Ht Hd. unfold drop_sent. apply opt_bind. intros h _. apply opt_bind. intros l Hl. cbn [opt].
  apply fit_tx_seq; [fit|]. apply fit_tx; [|done]. split; cbn; [fit|]. eapply fit_checked_sub; [exact Hl|apply (ty_tx t Ht)|done].
Qed.

Lemma fit_measure t ack now k : typed t → in_u 64 now → opt (λ x, typed x.1) (measure t ack now k).
Proof.
  intros Ht Hn. unfold measure. pose proof (ty_timing t Ht) as Htm. destruct (timing t) as [[through sent]|]; [|done]. destruct Htm as [_ Hs]. cbn [snd] in Hs.
  case_match; [|done]. apply fit_sample_rtt; fit.
Qed.

Lemma fit_ack_window t ack acked k : typed t → in_u 32 ack → in_u 32 acked → opt (λ x, typed x.1) (ack_window t ack acked k).
Proof.
  intros Ht Ha Hb. unfold ack_window. destruct (recovering t); [|cbn; fit]. case_match; [cbn; fit|].
  apply opt_bind. intros k1 _. apply opt_bind. intros k2 _. cbn [opt fst]. apply fit_timing, fit_resend; [done|].
  assert (typed (set_snd_nxt (first_hole t ack) t)) as H1 by fit. set (t1 := set_snd_nxt _ t) in *. clearbody t1. fit.
Qed.

Lemma fit_acknowledge t ack now k : typed t → in_u 32 ack → in_u 64 now → opt (λ x, typed x.1) (acknowledge t ack now k).
Proof.
  intros Ht Ha Hn. unfold acknowledge. apply opt_bind. intros n En.
  assert (0 ≤ n) as Hn0.
  { pose proof (fit_wrapping_sub 32 ack (snd_una t) ltac:(lia)) as [? _]. case_match; [apply checked_sub_Some in En; lia|by simplify_eq]. }
  clear En.
  apply (opt_then typed); [apply fit_drop_sent; [done|]; destruct (ty_tx t Ht) as [_ [? _]]; lia|]. intros t1 H1. clear Ht.
  set (t2 := set_snd_una ack t1). assert (typed t2) as H2 by (subst t2; fit). clearbody t2.
  set (t3 := if seq_lt _ _ then _ else _). assert (typed t3) as H3 by (subst t3; case_match; fit). clearbody t3.
  apply (opt_then (λ x, typed x.1)); [by apply fit_measure|]. intros [t4 k4] H4. cbn [fst] in H4.
  apply (opt_then (λ x, typed x.1)); [apply fit_ack_window; fit|]. intros [t5 k5] H5. cbn [fst opt] in *.
  set (t6 := set_retries 0 _). assert (typed t6) as H6 by (subst t6; fit). clearbody t6.
  set (t7 := if is_none _ then _ else _). assert (typed t7) as H7 by (subst t7; case_match; fit). clearbody t7.
  apply fit_deadline; [|fit]. case_match; cbn; [done|]. apply fit_saturating_add; [done|apply H7].
Qed.


(** ** A segment arrives *)

(** A segment as the parser gives it. *)
Record segment_fits (sg : Wire.Tcp) : Prop := {
  sf_src_port : in_u 16 (tcp_src_port sg);
  sf_dst_port : in_u 16 (tcp_dst_port sg);
  sf_seq : in_u 32 (tcp_seq sg);
  sf_ack : in_u 32 (tcp_ack sg);
  sf_window : in_u 16 (tcp_window sg);
  sf_mss : opt (in_u 16) (tcp_mss sg);
  sf_sack : blocks_fit (tcp_sack sg) }.

Section Segment.
Context (sg : Wire.Tcp) (from now : Z) (Hsg : segment_fits sg) (Hnow : in_u 64 now).
Let Hseq := sf_seq sg Hsg.
Let Hack := sf_ack sg Hsg.
Let Hwnd := sf_window sg Hsg.
Let Hsack := sf_sack sg Hsg.
Local Hint Resolve Hseq Hack Hwnd Hsack : fits.

Lemma fit_mss_of t : typed t → typed (set_mss (clamp (default DEFAULT_MSS (tcp_mss sg)) 1 MSS) t).
Proof. intros Ht. apply fit_mss; [|done]. apply fit_clamp; [by unfold in_u, u_max|by unfold in_u, u_max]. Qed.

Lemma fit_syn_sent t k : typed t → opt (λ x, typed x.1.1) (segment_syn_sent t k sg now).
Proof.
  intros Ht. unfold segment_syn_sent. case_match; [done|]. case_match; [case_match; [apply opt_bind; intros; cbn; fit|done]|]. case_match; [done|].
  set (t1 := set_snd_wnd _ (set_sack_ok _ (set_mss _ _))). assert (typed t1) as Y1 by (subst t1; apply fit_snd_wnd; [done|]; apply fit_sack_ok, fit_mss_of; fit). clearbody t1.
  case_match.
  - apply (opt_then (λ x, typed x.1)); [apply fit_acknowledge; fit|]. intros [t2 k2] Y2. cbn [fst] in Y2.
    apply (opt_then (λ x, typed x.1)); [by apply fit_established|]. by intros [t3 k3] Y3.
  - assert (typed (enter (set_ack_now true t1) SynReceived)) as Y2 by fit. cbn [opt fst]. apply fit_snd_nxt; [apply Y2|done].
Qed.

Lemma fit_duplicate_ack t k : typed t → opt (λ x, typed x.1) (duplicate_ack t k sg).
Proof.
  intros Ht. unfold duplicate_ack. apply opt_bind. intros k1 _. apply opt_bind. intros d Hd. apply fit_checked_add in Hd; [|apply (ty_dup_acks t Ht)|lia].
  set (t1 := if sack_ok _ then _ else _). assert (typed t1) as Y1 by (subst t1; case_match; [apply fit_record_sack|]; fit). clearbody t1.
  case_match; [cbn; fit|]. case_match; [|done]. apply opt_bind. intros k2 _. cbn. fit.
Qed.

Lemma fit_segment_ack t k : typed t → opt (λ x, typed x.1.1) (segment_ack t k sg now).
Proof.
  intros Ht. unfold segment_ack. case_match.
  - case_match; [done|]. apply (opt_then (λ x, typed x.1)); [apply fit_acknowledge; fit|]. intros [t2 k2] Y2. cbn [fst] in Y2.
    apply (opt_then (λ x, typed x.1)); [by apply fit_established|]. by intros [t3 k3] Y3.
  - case_match; [cbn; fit|]. apply (opt_then (λ x, typed x.1)).
    + case_match; [by apply fit_acknowledge|]. case_match; [by apply fit_duplicate_ack|done].
    + intros [t1 k1] Y1. cbn [fst opt] in *. case_match; fit.
Qed.

Lemma fit_fin_acked t : typed t → typed (segment_fin_acked t now).1.
Proof.
  intros Ht. unfold segment_fin_acked. assert (in_u 64 (saturating_add 64 now TIME_WAIT_NS)) by fit. repeat case_match; cbn; fit.
Qed.

Lemma fit_ahead t k : typed t → opt (λ x, typed x.1.1) (segment_ahead t k sg from).
Proof.
  intros Ht. unfold segment_ahead. apply opt_bind. intros k1 _. apply opt_bind. intros used _. assert (typed (set_ack_now true t)) as Y1 by fit.
  case_match; [apply opt_bind; by intros|]. apply opt_bind. intros a _. apply opt_bind. intros a' _.
  apply (opt_then (λ x, typed x.1.1)); [by apply fit_hold|]. intros [[t2 k2] held] Y2. cbn [fst] in Y2. case_match; [done|]. apply opt_bind. by intros.
Qed.

Lemma fit_next t k : typed t → opt (λ x, typed x.1.1.1) (segment_next t k sg from).
Proof.
  intros Ht. unfold segment_next. apply opt_bind. intros k1 _. apply opt_bind. intros free _. apply (opt_then (λ x, typed x.1.1)).
  - case_match eqn:E; [|done]. breflect. apply opt_bind. intros a _. apply opt_bind. intros f _. apply opt_bind. intros l Hl.
    destruct (ty_rx t Ht) as [Hh [Hr _]]. apply (opt_then (λ x, typed x.1)); [|by intros [t2 k2] Y2]. apply fit_coalesce_loop.
    apply fit_rcv_nxt; [fit|]. apply fit_rx; [|done]. split; [done|]. eapply fit_checked_add; [exact Hl|done|lia].
  - intros [[t1 k2] d] Y1. cbn [fst] in Y1. apply opt_bind. intros sum _. cbn. fit.
Qed.

Lemma fit_fin t fa to_ : typed t → typed (segment_fin t sg fa to_ now).
Proof.
  intros Ht. unfold segment_fin. case_match; [|done].
  set (t1 := set_ack_now true _). assert (typed t1) as Y1 by (subst t1; fit). clearbody t1.
  set (t2 := match state t1 with Established => _ | _ => _ end). assert (typed t2) as Y2 by (subst t2; repeat case_match; fit). clearbody t2. case_match; fit.
Qed.

Lemma fit_segment t k : typed t → opt (λ x, typed x.1.1) (segment t k sg from now).
Proof.
  intros Ht. unfold segment. case_match; [by apply fit_syn_sent|]. case_match; [done|]. apply opt_bind. intros l _. apply opt_bind. intros len _.
  apply opt_bind. intros wnd _. case_match.
  { unfold segment_outside. apply opt_bind. intros k1 _. cbn. repeat case_match; fit. }
  case_match; [case_match; [apply opt_bind; intros|]; cbn; fit|]. case_match; [cbn; fit|]. case_match; [done|].
  apply (opt_then (λ x, typed x.1.1)); [by apply fit_segment_ack|]. intros [[t1 k1] out] Y1. cbn [fst] in Y1. destruct out; [done|].
  pose proof (fit_fin_acked t1 Y1) as Y2. destruct (segment_fin_acked t1 now) as [t2 stop]. cbn [fst] in Y2. case_match; [done|].
  unfold segment_text. case_match; [case_match; [by apply fit_ahead|]|cbn; by apply fit_fin].
  apply (opt_then (λ x, typed x.1.1.1)); [by apply fit_next|]. intros [[[t3 k3] d] to_] Y3. cbn [fst opt] in *. by apply fit_fin.
Qed.
End Segment.

(** ** A segment to send *)

Definition header_fits (h : TcpHeader) : Prop :=
  in_u 16 (h_src_port h) ∧ in_u 16 (h_dst_port h) ∧ in_u 32 (h_seq h) ∧ in_u 32 (h_ack h) ∧ in_u 8 (h_flags h) ∧ in_u 16 (h_window h) ∧
  opt (in_u 16) (h_mss h) ∧ blocks_fit (h_sack h).
Definition data_fits (d : option nat * Z * Z) : Prop := 0 ≤ d.1.2 < RING ∧ 0 ≤ d.2 ≤ SEND_SEG.
Definition sent_fits (s : Segment) : Prop := addr (sg_remote_ip s) ∧ header_fits (sg_header s) ∧ opt data_fits (sg_data s).

Lemma fit_nearest_runs n rcv : ∀ l, Forall (opt run_fits) l → length (nearest_runs n rcv l) = n ∧ Forall (opt (both 32 32)) (nearest_runs n rcv l).
Proof.
  induction n as [|n IH]; intros l Hl; cbn [nearest_runs]; [done|]. assert (length (replicate (S n) (@None (Z * Z))) = S n ∧ Forall (opt (both 32 32)) (replicate (S n) None)) as Y0.
  { split; [apply length_replicate|by apply Forall_replicate]. }
  destruct (min_by_key _ l) as [i|]; [|done]. destruct (l !! i) as [[r|]|] eqn:E; [|done..]. destruct (Forall_lookup_1 _ _ _ _ Hl E) as [Y1 Y2].
  destruct (IH (<[i := None]> l)) as [E1 E2]; [by apply Forall_insert|]. split; [cbn; lia|]. constructor; [|done]. split; [done|]. cbn. unfold run_end. fit.
Qed.

Lemma fit_flags h f : header_fits h → in_u 8 f → header_fits (flags_of h f).
Proof. unfold header_fits. cbn. naive_solver. Qed.

Definition emitted (r : option (Tcb * Counters * option Segment)) : Prop := opt (λ x, typed x.1.1 ∧ opt sent_fits x.2) r.

Lemma fit_send_rest t h now : typed t → header_fits h → in_u 64 now → typed (send_rest t h now).1 ∧ opt sent_fits (send_rest t h now).2.
Proof.
  intros Ht Hh Hn. pose proof (ty_remote_ip t Ht) as Hip. unfold send_rest. cbv zeta. destruct (_ && _ && _ && _); [|destruct (ack_now t); cbn; [split; [fit|by split]|done]].
  cbn. split; [|split; [done|split; [by apply fit_flags; [|unfold in_u, u_max]|done]]]. apply fit_advance; [|done]. apply fit_fin_seq; [apply (ty_snd_nxt t Ht)|fit].
Qed.

Lemma fit_send_now t unsent : send_now t unsent ≤ SEND_SEG.
Proof.
  unfold send_now. assert (seg t ≤ SEND_SEG) by (unfold seg; change SEND_SEG with 189; lia). assert (0 ≤ SEND_SEG) by done. cbv zeta. 
  set (n := if _ && _ && _ then _ else _). assert (n ≤ SEND_SEG) by (subst n; case_match; lia). clearbody n. repeat case_match; lia.
Qed.

Lemma fit_tcb_segment t k now : typed t → in_u 64 now → emitted (tcb_segment t k now).
Proof.
  intros Ht Hn. unfold tcb_segment. apply opt_bind. intros free Hf. set (sack := if sack_ok t then _ else _).
  assert (blocks_fit sack) as Hs by (subst sack; case_match; [by apply fit_nearest_runs, (ty_ooo t Ht)|fit]). clearbody sack.
  assert (in_u 16 (Z.min free u16_MAX)) as Hw.
  { unfold rx_free in Hf. destruct (buf (rx t)); [apply bind_Some in Hf as (u & _ & [= <-])|injection Hf as <-]; unfold in_u, u_max, saturating_sub; lia. }
  set (h := plain_header _ _ _). assert (header_fits h) as Hh.
  { unfold h, plain_header, header_fits. cbn. destruct Ht. split_and!; try done; by unfold u_max. }
  clearbody h. pose proof (ty_remote_ip t Ht) as Hip.
  assert (∀ t', typed t' → ∀ k', emitted (let '(t1, s) := send_rest t' h now in Some (t1, k', s))) as Hrest.
  { intros t' Ht' k'. destruct (fit_send_rest t' h now Ht' Hh Hn) as [Y1 Y2]. by destruct (send_rest t' h now). }
  assert (emitted (let '(t1, s) := send_syn t h now in Some (t1, k, s))) as Hsyn.
  { unfold send_syn. cbv zeta. destruct (negb _); [cbn; split; [fit|done]|]. destruct (if in_state _ _ then _ else _) as [f a] eqn:E. cbn.
    assert (in_u 8 f ∧ in_u 32 a) as [Y1 Y2] by (case_match; simplify_eq; (split; [by unfold in_u, u_max|]); [by unfold in_u, u_max|apply Hh]).
    split; [apply fit_advance; fit|]. split; [done|]. split; [|done]. unfold header_fits in *. cbn. destruct Hh as (? & ? & ? & ? & ? & ? & ? & ?).
    split_and!; try done; apply (ty_iss t Ht). }
  cbv zeta. destruct (rst_now t); [apply opt_bind; intros k1 _; cbn; split; [fit|split; [done|split; [by apply fit_flags; [|unfold in_u, u_max]|done]]]|].
  assert (emitted
    (if sending t then
       if 0 <? saturating_sub (rlen (tx t)) (wrapping_sub 32 (snd_nxt t) (tx_seq t)) then
         if 0 <? send_now t (saturating_sub (rlen (tx t)) (wrapping_sub 32 (snd_nxt t) (tx_seq t))) then
           '(t, k, s) ← send_data t k h (wrapping_sub 32 (snd_nxt t) (tx_seq t)) (send_now t (saturating_sub (rlen (tx t)) (wrapping_sub 32 (snd_nxt t) (tx_seq t)))) now; Some (t, k, Some s)
         else let t := if is_none (deadline t) then set_deadline (Some (saturating_add 64 now (rto t))) t else t in
              let '(t, s) := send_rest t h now in Some (t, k, s)
       else let '(t, s) := send_rest t h now in Some (t, k, s)
     else let '(t, s) := send_rest t h now in Some (t, k, s))) as Hdata; [|destruct (state t); done].
  destruct (sending t); [|by apply Hrest]. destruct (0 <? _); [|by apply Hrest]. destruct (0 <? _) eqn:Epos.
  - apply (opt_then (λ x, typed x.1.1 ∧ sent_fits x.2)); [|by intros [[t1 k1] s]]. unfold send_data.
    apply (opt_then (λ x, typed x.1 ∧ remote_ip x.1 = remote_ip t)).
    { destruct (seq_lt _ _); [apply opt_bind; intros|]; cbn; split; try done; fit. }
    intros [t1 k1] [Y1 Hip1]. cbn [fst] in Y1, Hip1. apply opt_bind. intros a _.
    set (s := {| sg_remote_ip := _ |}). assert (sent_fits s) as Hsf.
    { split; [cbn; by rewrite Hip1|]. split; [by apply fit_flags; [|unfold in_u, u_max]|]. split; [apply Z.mod_pos_bound; done|].
      split; [by apply Z.lt_le_incl, Z.ltb_lt|apply fit_send_now]. }
    clearbody s. set (t2 := advance t1 _ now). assert (typed t2) as Y2 by (by apply fit_advance). clearbody t2.
    assert (in_u 32 (first_hole t2 (snd_nxt t2))) by fit. destruct (seq_lt _ _); [destruct (negb _); [apply opt_bind; intros|]|]; cbn; split; try done; fit.
  - apply Hrest. destruct (is_none _); [|done]. apply fit_deadline; [|done]. cbn. fit.
Qed.


(** ** What a program and the clock do *)

Lemma fit_tcb_send t ring data : typed t → opt (λ x, typed x.1.1) (tcb_send t ring data).
Proof.
  intros Ht. unfold tcb_send. destruct (error t); [done|]. destruct (_ && _); [|by destruct (_ && _)]. apply opt_bind. intros free Hf. destruct (_ =? 0) eqn:E0; [done|].
  destruct ring as [ring|]; [|done]. apply opt_bind. intros a _. apply opt_bind. intros r' _. apply opt_bind. intros l Hl. cbn.
  destruct (ty_tx t Ht) as [Hh [Hr Hr']]. apply fit_tx; [|done]. split; [done|]. eapply fit_checked_add; [exact Hl|done|].
  unfold Ring_free in Hf. destruct (buf (tx t)); [apply checked_sub_Some in Hf|simplify_eq]; lia.
Qed.

Lemma fit_tcb_recv t ring room : typed t → 0 ≤ room → opt (λ x, typed x.1) (tcb_recv t ring room).
Proof.
  intros Ht Hroom. unfold tcb_recv. destruct (0 <? _) eqn:E; [|done]. breflect. destruct ring as [ring|]; [|done]. apply opt_bind. intros b _. apply opt_bind. intros f _.
  apply opt_bind. intros h _. apply opt_bind. intros l Hl. set (t1 := set_rx _ t). assert (typed t1) as Y1.
  { subst t1. apply fit_rx; [|done]. split; cbn; [fit|]. eapply fit_checked_sub; [exact Hl|apply (ty_rx t Ht)|lia]. }
  clearbody t1. apply opt_bind. intros g _. cbn. destruct (_ && _); fit.
Qed.

Lemma fit_tcb_shutdown t : typed t → typed (tcb_shutdown t).
Proof. intros Ht. unfold tcb_shutdown. destruct (state t); fit. Qed.

Lemma fit_tcb_abort t : typed t → typed (tcb_abort t).
Proof. intros Ht. unfold tcb_abort. fit. Qed.

Lemma fit_tcb_timers t k now : typed t → in_u 64 now → opt (λ x, typed x.1) (tcb_timers t k now).
Proof.
  intros Ht Hn. unfold tcb_timers. set (t1 := if _ && _ then _ else _). assert (typed t1) as Y1 by (subst t1; destruct (_ && _); fit). clearbody t1.
  destruct (deadline t1) as [d|]; [|done]. destruct (now <? d); [done|]. destruct (_ =? _); [cbn; fit|]. apply opt_bind. intros r Hr.
  apply fit_checked_add in Hr; [|apply (ty_retries t1 Y1)|lia]. assert (typed (set_retries r t1)) as Y2 by fit. set (t2 := set_retries r t1) in *. clearbody t2.
  destruct (RETRIES <? _); apply opt_bind; intros k' _; cbn [opt fst].
  - apply fit_enter, fit_rst_now. fit.
  - set (t3 := set_snd_nxt _ (collapse t2)). assert (typed t3) as Y3.
    { subst t3. pose proof (fit_collapse t2 Y2) as Yc. apply fit_snd_nxt; [apply Yc|done]. }
    clearbody t3. set (t4 := set_rto _ t3). assert (typed t4) as Y4.
    { subst t4. apply fit_rto; [|done]. destruct (ty_rto t3 Y3). unfold in_u, saturating_mul, RTO_MAX_NS, u_max in *. lia. }
    clearbody t4. apply fit_deadline; [|done]. cbn. fit.
Qed.

(** ** The table *)

Definition syn_fits (y : Syn) : Prop :=
  (y_listener y < CONNECTIONS)%nat ∧ addr (y_remote_ip y) ∧ in_u 16 (y_remote_port y) ∧ in_u 16 (y_local_port y) ∧ in_u 32 (y_irs y) ∧
  in_u 16 (y_window y) ∧ in_u 16 (y_mss y).

Record table_typed (s : Tcp) : Prop := {
  tt_len : length (tcbs s) = CONNECTIONS;
  tt_tcbs : Forall typed (tcbs s);
  tt_syns : Forall (opt syn_fits) (syns s);
  tt_resets : Forall (opt sent_fits) (resets s);
  tt_port : in_u 16 (next_port s);
  tt_backlog : length (syns s) = BACKLOG;
  tt_owed : length (resets s) = RESETS }.

Lemma fit_EMPTY : typed EMPTY.
Proof.
  assert (addr [0; 0; 0; 0]) by (split; [done|]; repeat constructor; unfold u_max; lia).
  assert (ring_fits Ring_NONE) by (by split; unfold in_u, u_max). pose proof fit_none. pose proof fit_no_blocks.
  split; cbn -[replicate u_max]; try done; by unfold in_u, u_max.
Qed.

Lemma fit_new : table_typed Tcp_new.
Proof. split; [done|apply Forall_replicate, fit_EMPTY|by apply Forall_replicate|by apply Forall_replicate|by unfold in_u, u_max|done|done]. Qed.

Lemma fit_same s s' : tcbs s' = tcbs s → syns s' = syns s → resets s' = resets s → next_port s' = next_port s → table_typed s → table_typed s'.
Proof. intros E1 E2 E3 E4 []. split; congruence. Qed.

Lemma fit_count c s : table_typed s → opt table_typed (count c s).
Proof. intros Hs. unfold count. apply opt_bind. intros k _. by apply (fit_same s). Qed.

Lemma fit_set_tcbs l s : length l = CONNECTIONS → Forall typed l → table_typed s → table_typed (set_tcbs l s).
Proof. intros ? ? []. by split. Qed.

Lemma fit_set_tcb i t s : typed t → table_typed s → table_typed (set_tcb i t s).
Proof. intros Ht Hs. apply fit_set_tcbs; [rewrite length_insert; apply Hs|apply Forall_insert; [apply Hs|done]|done]. Qed.

Lemma fit_counters k s : table_typed s → table_typed (set_counters k s).
Proof. by apply fit_same. Qed.

Lemma fit_at s i t : table_typed s → tcbs s !! i = Some t → typed t.
Proof. intros Hs. apply Forall_lookup_1, Hs. Qed.

Lemma fit_get s c t : table_typed s → get s c = Ok t → typed t.
Proof. intros Hs (H & _)%TcpTable.get_live. by eapply fit_at. Qed.

Lemma fit_slot s : table_typed s → table_typed (slot s).1 ∧ opt (λ i, i < CONNECTIONS)%nat (slot s).2.
Proof.
  intros Hs. unfold slot. destruct (position _ _) as [i|] eqn:E; [split; [done|cbn; rewrite <-(tt_len s Hs); by eapply position_lt]|].
  destruct (nearest_end _) as [i|] eqn:E2; [|done]. destruct (TcpTable.nearest_end_spare _ _ E2) as (t & Ht & _). cbn. split.
  - apply fit_set_tcbs; [rewrite length_alter; apply Hs| |done]. apply Forall_alter; [apply Hs|]. intros x _ Hx. fit.
  - rewrite <-(tt_len s Hs). by eapply lookup_lt_Some.
Qed.

Lemma fit_ephemeral s now : table_typed s → table_typed (ephemeral s now).1 ∧ opt (in_u 16) (ephemeral s now).2.
Proof.
  intros Hs. assert (∀ n s, table_typed s → table_typed (ephemeral_loop n s).1 ∧ opt (in_u 16) (ephemeral_loop n s).2) as Hl.
  { clear s Hs. induction n as [|n IH]; intros s Hs; cbn [ephemeral_loop]; [done|].
    assert (table_typed (set_next_port (if next_port s =? u16_MAX then EPHEMERAL_FIRST else next_port s + 1) s)) as Hs'.
    { destruct Hs. split; try done. cbn. destruct (Z.eqb_spec (next_port s) u16_MAX); [by unfold in_u, u_max|]. unfold in_u in *. lia. }
    destruct (port_in_use _ _); [by apply IH|]. split; [done|apply Hs]. }
  unfold ephemeral. apply Hl. destruct (_ =? 0); [|done]. destruct Hs. split; try done. cbn.
  pose proof (Z.mod_pos_bound ((now * 0x9e3779b97f4a7c15) mod 2 ^ 64) (u16_MAX - EPHEMERAL_FIRST + 1) ltac:(done)). unfold in_u, u_max, EPHEMERAL_FIRST in *. lia.
Qed.

Lemma fit_install s i t : table_typed s → typed t → opt (λ x, table_typed x.1) (install s i t).
Proof. intros Hs Ht. unfold install. apply opt_bind. intros old _. cbn. apply fit_set_tcb; [fit|done]. Qed.

Lemma fit_opened st v port ip rport n r x : in_u 16 v → in_u 16 port → addr ip → in_u 16 rport → in_u 32 n → typed (opened st v port ip rport n r x).
Proof. intros. unfold opened. pose proof fit_EMPTY. assert (∀ r, ring_fits (Ring_on r)) by (by split; unfold in_u, u_max). eauto 20 with fits. Qed.

Lemma fit_connect s p ip rport now : table_typed s → addr ip → in_u 16 rport → opt (λ x, table_typed x.1.1) (connect s p ip rport now).
Proof.
  intros Hs Hip Hr. unfold connect. destruct (fit_slot s Hs) as [Hs1 _]. destruct (slot s) as [s1 [i|]]; [|done]. cbn [fst] in Hs1.
  destruct (fit_ephemeral s1 now Hs1) as [Hs2 Hp]. destruct (ephemeral s1 now) as [s2 [port|]]; [|done]. cbn [fst snd opt] in Hs2, Hp.
  apply opt_bind. intros [p' rings] _. destruct rings as [[r x]|]; [|done]. apply (opt_then table_typed); [by apply fit_count|]. intros s3 Hs3.
  apply (opt_then (λ x, table_typed x.1)); [|by intros [s4 c]]. apply fit_install; [done|]. apply fit_opened; try done. apply TcpTable.initial_sequence_in_u.
Qed.

Lemma fit_listen s port : table_typed s → in_u 16 port → opt (λ x, table_typed x.1) (listen s port).
Proof.
  intros Hs Hp. unfold listen. destruct (_ || _); [done|]. destruct (fit_slot s Hs) as [Hs1 _]. destruct (slot s) as [s1 [i|]]; [|done].
  apply (opt_then (λ x, table_typed x.1)); [|by intros [s2 c]]. apply fit_install; [done|]. pose proof fit_EMPTY. fit.
Qed.

Lemma fit_accept s l : table_typed s → table_typed (accept s l).1.
Proof.
  intros Hs. unfold accept. destruct (get s l) as [t|]; [|done]. destruct (negb _); [done|]. destruct (position _ _) as [i|]; [|done].
  destruct (tcbs s !! i) as [t'|] eqn:E; [|done]. pose proof (fit_at _ _ _ Hs E). apply fit_set_tcb; [fit|done].
Qed.

Lemma fit_shutdown s c : table_typed s → table_typed (shutdown s c).1.
Proof. intros Hs. unfold shutdown. destruct (get s c) as [t|] eqn:E; [|done]. apply fit_set_tcb; [|done]. eapply fit_tcb_shutdown, fit_get; done. Qed.
Lemma fit_abort s c : table_typed s → table_typed (abort s c).1.
Proof. intros Hs. unfold abort. destruct (get s c) as [t|] eqn:E; [|done]. apply fit_set_tcb; [|done]. eapply fit_tcb_abort, fit_get; done. Qed.

Lemma fit_close s c : table_typed s → table_typed (close s c).1.
Proof.
  intros Hs. unfold close. destruct (get s c) as [t0|]; [|done]. set (s1 := if in_state _ _ then _ else _). assert (table_typed s1) as Hs1.
  { subst s1. destruct (in_state _ _); [|done]. apply fit_set_tcbs; [rewrite length_fmap; apply Hs| |done]. apply Forall_fmap.
    eapply Forall_impl; [apply (tt_tcbs s Hs)|]. intros t Ht. cbn. unfold orphan. destruct (_ && _); fit. }
  clearbody s1. destruct (get s1 c) as [t|] eqn:E; [|done]. pose proof (fit_get _ _ _ Hs1 E) as Ht. destruct (0 <? _); [by apply fit_abort|].
  destruct (_ || _); [apply fit_set_tcb; fit|]. apply fit_shutdown, fit_set_tcb; fit.
Qed.

Lemma fit_reap s p : table_typed s → opt (λ x, table_typed x.1) (reap s p).
Proof.
  intros Hs. unfold reap. apply (opt_then (λ x, Forall typed x.2 ∧ length x.2 = length (tcbs s))).
  - generalize p. clear p. destruct Hs as [_ Hl _ _ _ _ _]. induction Hl as [|t l Ht _ IH]; intros p; cbn [reap_all]; [done|].
    apply (opt_then (λ x, typed x.2)).
    + unfold reap_tcb. destruct (negb _); [done|]. assert (∀ p r, ring_fits r → opt (λ x, ring_fits x.2) (give_ring p r)) as Hg.
      { intros p' r Hr. unfold give_ring. destruct (buf r); [|done]. apply opt_bind. intros [p1 b] _. by split; unfold in_u, u_max. }
      apply (opt_then (λ x, ring_fits x.2)); [apply Hg, (ty_rx t Ht)|]. intros [p1 r] Hr. apply (opt_then (λ x, ring_fits x.2)); [apply Hg, (ty_tx t Ht)|].
      intros [p2 x] Hx. cbn in *. assert (typed (set_tx x (set_rx r t))) by fit. destruct (in_state _ _); fit.
    + intros [p1 t1] Y1. apply (opt_then (λ x, Forall typed x.2 ∧ length x.2 = length l)); [apply IH|]. intros [p2 l2] [Y2 Y3]. cbn in *. split; [by constructor|lia].
  - intros [p1 l] [Y1 Y2]. cbn in *. apply fit_set_tcbs; [rewrite Y2; apply Hs|done|done].
Qed.

Lemma fit_timers s now : table_typed s → in_u 64 now → opt table_typed (timers s now).
Proof.
  intros Hs Hn. unfold timers. apply (opt_then (λ x, Forall typed x.1 ∧ length x.1 = length (tcbs s))).
  - generalize (counters s) as k. destruct Hs as [_ Hl _ _ _ _ _]. induction Hl as [|t l Ht _ IH]; intros k; cbn [timers_all]; [done|].
    apply (opt_then (λ x, typed x.1)); [destruct (active t); [by apply fit_tcb_timers|done]|]. intros [t1 k1] Y1.
    apply (opt_then (λ x, Forall typed x.1 ∧ length x.1 = length l)); [apply IH|]. intros [l2 k2] [Y2 Y3]. cbn in *. split; [by constructor|lia].
  - intros [l k] [Y1 Y2]. cbn in *. apply fit_counters, fit_set_tcbs; [rewrite Y2; apply Hs|done|done].
Qed.

Lemma fit_queue_reset s src sg : table_typed s → addr src → segment_fits sg → opt table_typed (queue_reset s src sg).
Proof.
  intros Hs Hsrc Hsg. unfold queue_reset. destruct (flag sg TCP_RST); [done|]. apply (opt_then (λ x, in_u 32 x.1.1 ∧ in_u 32 x.1.2 ∧ in_u 8 x.2)).
  - destruct (flag sg TCP_ACK); [cbn; split_and!; [apply Hsg|by unfold in_u, u_max..]|]. apply opt_bind. intros l _. apply opt_bind. intros n _. cbn.
    split_and!; [by unfold in_u, u_max|fit|by unfold in_u, u_max].
  - intros [[q a] f] (Y1 & Y2 & Y3). cbn in *. destruct (position _ _) as [i|]; [|done]. destruct Hs. split; try done; [|cbn; by rewrite length_insert]. cbn. apply Forall_insert; [done|].
    split; [done|]. destruct Hsg. unfold header_fits. cbn. split_and!; try done. apply fit_no_blocks.
Qed.

Lemma fit_unmatched s src sg : table_typed s → addr src → segment_fits sg → opt table_typed (unmatched s src sg).
Proof.
  intros Hs Hsrc Hsg. unfold unmatched. destruct (position _ _) as [listener|] eqn:El; [|by apply fit_queue_reset]. destruct (_ =? _); [|by apply fit_queue_reset].
  destruct (existsb _ _); [done|]. destruct (position is_none _) as [i|]; [|by apply fit_count]. pose proof Hs as []. split; try done; [|cbn; by rewrite length_insert]. cbn. apply Forall_insert; [done|].
  destruct Hsg. unfold syn_fits. cbn. split_and!; try done.
  - rewrite <-tt_len0. by eapply position_lt.
  - destruct (tcp_mss sg); [done|by unfold in_u, u_max].
Qed.

Lemma fit_input s src sg from now : table_typed s → addr src → segment_fits sg → in_u 64 now → opt (λ x, table_typed x.1) (input s src sg from now).
Proof.
  intros Hs Hsrc Hsg Hn. unfold input. apply (opt_then table_typed); [by apply fit_count|]. intros s1 Hs1. destruct (position _ _) as [i|].
  - apply opt_bind. intros t Et. apply (opt_then (λ x, typed x.1.1)); [by apply fit_segment; [..|by eapply fit_at]|]. intros [[t1 k1] out] Y1. cbn [fst] in Y1.
    apply (opt_then table_typed); [|by intros]. assert (table_typed (set_counters k1 (set_tcb i t1 s1))) by (by apply fit_counters, fit_set_tcb).
    destruct (o_reset out); [by apply fit_queue_reset|done].
  - apply (opt_then table_typed); [by apply fit_unmatched|by intros].
Qed.

(** The first of the entries, and one fewer. *)
Definition waiting {A} (l : list (option A)) : nat := count_if (λ o, negb (is_none o)) l.

Lemma fit_take_first {A} (P : A → Prop) (l : list (option A)) x l' :
  Forall (opt P) l → take_first l = Some (x, l') → P x ∧ Forall (opt P) l' ∧ length l' = length l ∧ S (waiting l') = waiting l.
Proof.
  intros Hl (i & _ & (o & Eo & (y & -> & [= <- <-])%bind_Some)%bind_Some)%bind_Some. split_and!; [apply (Forall_lookup_1 _ _ _ _ Hl Eo)|by apply Forall_insert|apply length_insert|].
  pose proof (count_if_insert (λ o, negb (is_none o)) l i (Some y) None Eo) as E. cbn in E. unfold waiting. lia.
Qed.

Lemma fit_take_reset s : table_typed s → opt (λ x, table_typed x.1 ∧ opt sent_fits x.2) (take_reset s).
Proof.
  intros Hs. unfold take_reset. destruct (take_first (resets s)) as [[r l]|] eqn:E; [|done]. destruct (fit_take_first _ _ _ _ (tt_resets s Hs) E) as (Hr & Hl & Hn & _).
  apply (opt_then table_typed); [apply fit_count; destruct Hs; split; cbn; congruence|]. by intros s1 Hs1.
Qed.

Lemma fit_take_syn s : table_typed s → table_typed (take_syn s).1 ∧ opt syn_fits (take_syn s).2.
Proof.
  intros Hs. unfold take_syn. destruct (take_first (syns s)) as [[y l]|] eqn:E; [|done]. destruct (fit_take_first _ _ _ _ (tt_syns s Hs) E) as (Hr & Hl & Hn & _).
  cbn. split; [destruct Hs; split; cbn; congruence|done].
Qed.

Lemma fit_open_passive s p y now : table_typed s → syn_fits y → opt (λ x, table_typed x.1.1) (open_passive s p y now).
Proof.
  intros Hs (H1 & H2 & H3 & H4 & H5 & H6 & H7). unfold open_passive. assert (∀ s p, table_typed s → opt (λ x, table_typed x.1.1) (s ← count syns_refused s; Some (s, p : Pool.Pool, false))) as Href.
  { intros s' p' Hs'. apply (opt_then table_typed); [by apply fit_count|by intros]. }
  destruct (_ || _); [by apply Href|]. destruct (fit_slot s Hs) as [Hs1 _]. destruct (slot s) as [s1 [i|]]; [|by apply Href]. cbn [fst] in Hs1.
  apply opt_bind. intros [p' rings] _. destruct rings as [[r x]|]; [|by apply Href]. apply (opt_then (λ x, table_typed x.1)); [|by intros [s4 c]].
  apply fit_install; [done|]. unfold passive. assert (in_u 16 (clamp (y_mss y) 1 MSS)) by (by apply fit_clamp; unfold in_u, u_max).
  apply fit_parent; [done|]. apply fit_rcv_nxt; [fit|]. apply fit_sack_ok, fit_mss; [done|]. apply fit_snd_wnd; [done|].
  apply fit_opened; try done. apply TcpTable.initial_sequence_in_u.
Qed.

Lemma fit_next_segment s i now : table_typed s → in_u 64 now → opt (λ x, table_typed x.1 ∧ opt sent_fits x.2) (next_segment s i now).
Proof.
  intros Hs Hn. unfold next_segment. destruct (tcbs s !! i) as [t|] eqn:E; [|done]. destruct (active t); [|done].
  apply (opt_then (λ x, typed x.1.1 ∧ opt sent_fits x.2)); [apply fit_tcb_segment; [by eapply fit_at|done]|]. intros [[t1 k1] sg] [Y1 Y2]. cbn in *.
  split; [by apply fit_counters, fit_set_tcb|done].
Qed.


(** ** What the parser gives *)

Lemma be32_u32 p i x : bytes p → be32 p i = Some x → in_u 32 x.
Proof.
  intros Hp. unfold be32. intros (b & Hb & E)%bind_Some. assert (bytes b) as Hbb.
  { unfold get_range in Hb. destruct (_ <=? _)%nat; [|done]. injection Hb as <-. by apply Forall_take, Forall_drop. }
  destruct b as [|b0 [|b1 [|b2 [|b3 [|]]]]]; try done. injection E as <-. rewrite !Forall_cons in Hbb. destruct Hbb as (? & ? & ? & ? & _).
  unfold from_be32. rewrite !Z.shiftl_mul_pow2 by lia. apply lor_in_u; [lia|apply lor_in_u; [lia|apply lor_in_u; [lia|..]|]|]; unfold in_u, u_max in *; lia.
Qed.

Lemma fit_parse_tcp p src dst sg : bytes p → parse_tcp p src dst = Some (Ok sg) → segment_fits sg ∧ bytes (tcp_payload sg) ∧ payload_len sg ≤ u16_MAX.
Proof.
  intros Hp. unfold parse_tcp. destruct (_ <? _)%nat; [done|]. destruct (u16_MAX <? _) eqn:El; [done|]. breflect. destruct (p !! 12%nat) as [b12|]; [|done].
  set (offset := (Z.to_nat _ * 4)%nat). destruct (_ || _); [done|]. destruct (checksum _); [|done]. cbn [mbind option_bind]. destruct (negb _); [done|].
  set (o0 := {| o_mss := None |}). assert (opt (in_u 16) (o_mss o0) ∧ blocks_fit (o_sack o0)) as H0 by (split; [done|apply fit_no_blocks]). clearbody o0.
  intros H. destruct (read_options _ _ _ _ _) as [[o|]|] eqn:Eo; [|done..]. assert (opt (in_u 16) (o_mss o) ∧ blocks_fit (o_sack o)) as [Hm Hs].
  { clear H. revert o0 H0 Eo. generalize (S offset) as n, TCP_HEADER as a. induction n as [|n IH]; intros a o0 H0; cbn [read_options]; (destruct (_ <? _)%nat; [|by intros [= ->]]); [done|].
    destruct (p !! a) as [kind|]; [|done]. cbn [mbind option_bind]. destruct (kind =? TCP_OPT_END); [by intros [= ->]|]. destruct (kind =? TCP_OPT_NOP); [by apply IH|].
    destruct (p !! (a + 1)%nat) as [w|]; [|done]. destruct (_ || _); [done|]. apply IH. destruct H0 as [Hm [Hl Hf]]. unfold read_option. cbn. split.
    - destruct (_ && _); [|done]. destruct (be16 p _) eqn:E; [|done]. by eapply be16_u16.
    - destruct (_ && _ && _); [|done]. revert Hl Hf. generalize (o_sack o0) as l, 0%nat as i. unfold blocks_fit. generalize SACK_BLOCKS as m. intros m l i Hl Hf.
      revert m i Hl. induction Hf as [|b l Hb Hf IHl]; intros m i Hl; cbn [read_blocks]; [done|]. destruct (_ <? _)%nat; [by split; [|constructor]|].
      destruct m as [|m]; [done|]. injection Hl as Hl. destruct (IHl m (i + 1)%nat Hl) as [E1 E2]. split; [cbn; by rewrite E1|]. constructor; [|done].
      destruct (be32 p _) eqn:B1; [|done]. destruct (be32 p (_ + 4)%nat) eqn:B2; [|done]. split; by eapply be32_u32. }
  cbn [mbind option_bind] in H. destruct (be16 p 0) eqn:B0; [|done]. destruct (be16 p 2) eqn:B2; [|done]. destruct (be32 p 4) eqn:B4; [|done].
  destruct (be32 p 8) eqn:B8; [|done]. destruct (p !! 13%nat) eqn:B13; [|done]. destruct (be16 p 14) eqn:B14; [|done]. cbn in H. injection H as <-.
  split; [|split; [by apply Forall_drop|unfold payload_len; cbn; rewrite length_drop; lia]].
  split; cbn; try done; by first [eapply be16_u16|eapply be32_u32].
Qed.

(** ** Properties *)

Definition call_fits (c : TcpTable.call) : Prop :=
  match c with
  | TcpTable.Connect ip port now => addr ip ∧ in_u 16 port
  | TcpTable.ListenOn port => in_u 16 port
  | TcpTable.Recv _ room => 0 ≤ room
  | TcpTable.Timers now | TcpTable.Next _ now => in_u 64 now
  | TcpTable.Input src sg from now => addr src ∧ segment_fits sg ∧ in_u 64 now
  | _ => True
  end.

Lemma fit_perform s p c : table_typed s → call_fits c → opt (λ x, table_typed x.1) (TcpTable.perform s p c).
Proof.
  intros Hs Hc. destruct c; cbn [TcpTable.perform call_fits] in *.
  - destruct Hc. apply (opt_then (λ x, table_typed x.1.1)); [by apply fit_connect|by intros [[? ?] ?]].
  - apply (opt_then (λ x, table_typed x.1)); [by apply fit_listen|by intros [? ?]].
  - by apply fit_accept.
  - apply (opt_then (λ x, table_typed x.1.1)); [|by intros [[? ?] ?]]. unfold send. destruct (get s c) as [t|] eqn:E; [|done].
    apply (opt_then (λ x, typed x.1.1)); [by eapply fit_tcb_send, fit_get|]. intros [[t1 b] r] Y1. cbn in *. by apply fit_set_tcb.
  - apply (opt_then (λ x, table_typed x.1)); [|by intros [? ?]]. unfold recv. destruct (get s c) as [t|] eqn:E; [|done].
    apply (opt_then (λ x, typed x.1)); [by eapply fit_tcb_recv; [eapply fit_get|]|]. intros [t1 b] Y1. cbn in *. by apply fit_set_tcb.
  - apply opt_bind. by intros.
  - by apply fit_shutdown.
  - by apply fit_abort.
  - by apply fit_close.
  - by apply fit_reap.
  - apply (opt_then table_typed); [by apply fit_timers|by intros].
  - destruct Hc as (? & ? & ?). apply (opt_then (λ x, table_typed x.1)); [by apply fit_input|]. intros [s1 d] Y1. apply opt_bind. by intros.
  - apply (opt_then (λ x, table_typed x.1 ∧ opt sent_fits x.2)); [by apply fit_take_reset|]. by intros [? ?] [? ?].
  - destruct (fit_take_syn s Hs) as [Hs1 Hy]. destruct (take_syn s) as [s1 [y|]]; [|done]. cbn in *.
    apply (opt_then (λ x, table_typed x.1.1)); [by apply fit_open_passive|by intros [[? ?] ?]].
  - apply (opt_then (λ x, table_typed x.1 ∧ opt sent_fits x.2)); [by apply fit_next_segment|]. by intros [? ?] [? ?].
  - apply (opt_then table_typed); [by apply fit_count|by intros].
Qed.

(** Calls made one after the other. *)
Fixpoint performs (s : Tcp) (p : Pool.Pool) (l : list TcpTable.call) : option (Tcp * Pool.Pool) :=
  match l with [] => Some (s, p) | c :: l => '(s, p) ← TcpTable.perform s p c; performs s p l end.

Lemma fit_performs l : ∀ s p, table_typed s → Forall call_fits l → opt (λ x, table_typed x.1) (performs s p l).
Proof.
  induction l as [|c l IH]; intros s p Hs Hl; cbn [performs]; [done|]. apply Forall_cons_1 in Hl as [Hc Hl].
  apply (opt_then (λ x, table_typed x.1)); [by apply fit_perform|]. intros [s1 p1] Hs1. by apply IH.
Qed.



End TcpTyped.
