(* ===== verification/NetStack.v ===== *)
(** * The network stack: sending and handling frames

    [kernel/net/src/stack.rs], without its TCP calls: addressing and resolution, echo, UDP,
    fragments and the counters.  A function of [State] or [Stack] takes the state and gives
    the state it leaves; [None] is a panic (an index out of range, a counter past [u64::MAX]).

    The device is a hardware address and whether it takes a frame, given the frames it took
    before; [sent] is its record of those it took.  TCP is [NetTcp], to which a
    segment that arrives is handed; the calls that drive it are in [NetStackTcp]. *)

From S2P Require Import Prelude NetWire NetReasm NetLink NetTcp.
Import Wire.
Local Open Scope Z_scope.

Module NetStack.

Inductive Counter : Type :=
| rx_frames | tx_frames | arp_requests_sent | arp_replies_sent | arp_learned | echo_replies_sent | echo_replies_received
| udp_received | udp_sent | dropped_ethernet | dropped_arp | dropped_ipv4 | dropped_icmp | dropped_udp | dropped_tcp
| not_for_us | inbox_full | no_buffer | fragments_received | datagrams_reassembled | fragments_dropped
| reassembly_timeouts | unreachable_received.
#[global] Instance Counter_eq_dec : EqDecision Counter.
Proof. solve_decision. Defined.

Inductive NetError : Type := Unresolved | NoBuffer | NetTooLarge | NicRefused.

Record Config := { ip_ : Ipv4Addr; netmask : Ipv4Addr; gateway : Ipv4Addr }.

Definition REPLIES : nat := 8.
Definition REFUSALS : nat := 4.
Definition INBOX : nat := 8.
Definition UDP_MAX : nat := 256.
Definition ARP_RETRY_NS : Z := 200000000.

Record Datagram := { g_src_ip : Ipv4Addr; g_src_port : Z; g_dst_port : Z; g_len : nat; g_data : Bytes }.

(** [trait Nic]. *)
Record Nic := { nic_mac : Mac; nic_takes : list Bytes → Bytes → bool }.

Record State := {
  config : Config;
  mac : Mac;
  arp : ArpCache.Cache;
  last_request : option (Ipv4Addr * Z);
  replies : list (option (Z * Z * Ipv4Addr));
  next_reply : nat;
  inbox : list (option Datagram);
  refused : list (option Z);
  counters : Counter → Z;
  ip_id : Z;
  tcp : NetTcp.Tcp;
  sent : list Bytes }.

Record Stack := { pool : Pool.Pool; reasm : Reasm.Reassembler; st : State }.

Definition with_arp (c : Config) (cache : ArpCache.Cache) : Stack := {|
  pool := Pool.new; reasm := Reasm.new;
  st := {| config := c; mac := replicate 6 0; arp := cache; last_request := None; replies := replicate REPLIES None; next_reply := 0;
           inbox := replicate INBOX None; refused := replicate REFUSALS None; counters := λ _, 0; ip_id := 1; tcp := NetTcp.Tcp_new; sent := [] |} |}.

(** ** Updates *)

Definition set_mac (m : Mac) (s : State) : State := {|
  config := config s; mac := m; arp := arp s; last_request := last_request s; replies := replies s; next_reply := next_reply s;
  inbox := inbox s; refused := refused s; counters := counters s; ip_id := ip_id s; tcp := tcp s; sent := sent s |}.
Definition set_arp (c : ArpCache.Cache) (s : State) : State := {|
  config := config s; mac := mac s; arp := c; last_request := last_request s; replies := replies s; next_reply := next_reply s;
  inbox := inbox s; refused := refused s; counters := counters s; ip_id := ip_id s; tcp := tcp s; sent := sent s |}.
Definition set_last_request (r : option (Ipv4Addr * Z)) (s : State) : State := {|
  config := config s; mac := mac s; arp := arp s; last_request := r; replies := replies s; next_reply := next_reply s;
  inbox := inbox s; refused := refused s; counters := counters s; ip_id := ip_id s; tcp := tcp s; sent := sent s |}.
Definition set_replies (r : list (option (Z * Z * Ipv4Addr))) (n : nat) (s : State) : State := {|
  config := config s; mac := mac s; arp := arp s; last_request := last_request s; replies := r; next_reply := n;
  inbox := inbox s; refused := refused s; counters := counters s; ip_id := ip_id s; tcp := tcp s; sent := sent s |}.
Definition set_inbox (i : list (option Datagram)) (s : State) : State := {|
  config := config s; mac := mac s; arp := arp s; last_request := last_request s; replies := replies s; next_reply := next_reply s;
  inbox := i; refused := refused s; counters := counters s; ip_id := ip_id s; tcp := tcp s; sent := sent s |}.
Definition set_refused (r : list (option Z)) (s : State) : State := {|
  config := config s; mac := mac s; arp := arp s; last_request := last_request s; replies := replies s; next_reply := next_reply s;
  inbox := inbox s; refused := r; counters := counters s; ip_id := ip_id s; tcp := tcp s; sent := sent s |}.
Definition set_counters (c : Counter → Z) (s : State) : State := {|
  config := config s; mac := mac s; arp := arp s; last_request := last_request s; replies := replies s; next_reply := next_reply s;
  inbox := inbox s; refused := refused s; counters := c; ip_id := ip_id s; tcp := tcp s; sent := sent s |}.
Definition set_ip_id (i : Z) (s : State) : State := {|
  config := config s; mac := mac s; arp := arp s; last_request := last_request s; replies := replies s; next_reply := next_reply s;
  inbox := inbox s; refused := refused s; counters := counters s; ip_id := i; tcp := tcp s; sent := sent s |}.
Definition set_tcp (t : NetTcp.Tcp) (s : State) : State := {|
  config := config s; mac := mac s; arp := arp s; last_request := last_request s; replies := replies s; next_reply := next_reply s;
  inbox := inbox s; refused := refused s; counters := counters s; ip_id := ip_id s; tcp := t; sent := sent s |}.
Definition set_sent (f : list Bytes) (s : State) : State := {|
  config := config s; mac := mac s; arp := arp s; last_request := last_request s; replies := replies s; next_reply := next_reply s;
  inbox := inbox s; refused := refused s; counters := counters s; ip_id := ip_id s; tcp := tcp s; sent := f |}.

(** [self.counters.c += 1]. *)
Definition bump (c : Counter) (s : State) : option State :=
  n ← checked_add 64 (counters s c) 1;
  Some (set_counters (λ c', if decide (c' = c) then n else counters s c') s).

(** ** Sending *)

(** [f(&mut buf[at..])]. *)
Definition on_tail {A} (buf : Bytes) (at_ : nat) (f : Bytes → option (Bytes * A)) : option (Bytes * A) :=
  tail ← get_from buf at_;
  '(tail, a) ← f tail;
  Some (take at_ buf ++ tail, a).

Definition nic_send (nic : Nic) (frame : Bytes) (s : State) : State * bool :=
  if nic_takes nic (sent s) frame then (set_sent (sent s ++ [frame]) s, true) else (s, false).

Definition send_arp (nic : Nic) (buf : Bytes) (dst : Mac) (a : Arp) (s : State) : option (State * Bytes * bool) :=
  '(buf, r) ← write_ethernet buf dst (mac s) ETHERTYPE_ARP;
  match r with
  | Err _ => Some (s, buf, false)
  | Ok _ =>
      '(buf, r) ← on_tail buf ETH_HEADER (λ p, write_arp p a);
      match r with
      | Err _ => Some (s, buf, false)
      | Ok n =>
          frame ← get_range buf 0 (ETH_HEADER + n);
          let '(s, ok) := nic_send nic frame s in
          if (ok : bool) then s ← bump tx_frames s; Some (s, buf, true) else Some (s, buf, false)
      end
  end.

Definition send_ip (nic : Nic) (buf : Bytes) (dst_mac : Mac) (dst : Ipv4Addr) (proto : Z)
    (body : Bytes → option (Bytes * result nat WireError)) (s : State) : option (State * Bytes * result unit NetError) :=
  let start := (ETH_HEADER + IPV4_HEADER)%nat in
  '(buf, r) ← on_tail buf start body;
  match r with
  | Err _ => Some (s, buf, Err NetTooLarge)
  | Ok n =>
      let s := set_ip_id (wrapping_add 16 (ip_id s) 1) s in
      '(buf, r) ← on_tail buf ETH_HEADER (λ p, write_ipv4 p (ip_ (config s)) dst proto (ip_id s) n);
      match r with
      | Err _ => Some (s, buf, Err NetTooLarge)
      | Ok _ =>
          '(buf, r) ← write_ethernet buf dst_mac (mac s) ETHERTYPE_IPV4;
          match r with
          | Err _ => Some (s, buf, Err NetTooLarge)
          | Ok _ =>
              frame ← get_range buf 0 (start + n);
              let '(s, ok) := nic_send nic frame s in
              if (ok : bool) then s ← bump tx_frames s; Some (s, buf, Ok tt) else Some (s, buf, Err NicRefused)
          end
      end
  end.

Definition next_hop (s : State) (ip : Ipv4Addr) : Ipv4Addr :=
  let c := config s in
  if forallb (λ i, Z.land (ip !!! i) (netmask c !!! i) =? Z.land (ip_ c !!! i) (netmask c !!! i)) (seq 0 4) then ip else gateway c.

(** ** Handling *)

(** An echo reply to the request [echo], into the spare buffer. *)
Definition echo_reply (nic : Nic) (to_mac : Mac) (to : Ipv4Addr) (echo : Echo) (tx : option Bytes) (s : State) :
    option (State * option Bytes) :=
  match tx with
  | None => s ← bump no_buffer s; Some (s, None)
  | Some buf =>
      '(s, buf, r) ← send_ip nic buf to_mac to PROTO_ICMP
        (λ p, write_icmp_echo p ICMP_ECHO_REPLY (echo_id echo) (echo_seq echo) (echo_data echo)) s;
      s ← (if is_ok r then bump echo_replies_sent s else Some s);
      Some (s, Some buf)
  end.

(** An echo reply received: remembered in the next slot. *)
Definition note_reply (echo : Echo) (from : Ipv4Addr) (s : State) : option State :=
  s ← bump echo_replies_received s;
  replies' ← set_at (replies s) (next_reply s) (Some (echo_id echo, echo_seq echo, from));
  Some (set_replies replies' ((next_reply s + 1) mod REPLIES)%nat s).

Definition take_datagram (src : Ipv4Addr) (u : Udp) (s : State) : option State :=
  match position Reasm.is_none (inbox s) with
  | Some i =>
      if (length (udp_payload u) <=? UDP_MAX)%nat then
        data ← put (replicate UDP_MAX 0) 0 (udp_payload u);
        bump udp_received (set_inbox (<[i := Some {| g_src_ip := src; g_src_port := udp_src_port u; g_dst_port := udp_dst_port u;
                                                      g_len := length (udp_payload u); g_data := data |}]> (inbox s)) s)
      else bump inbox_full s
  | None => bump inbox_full s
  end.

Definition handle_arp (nic : Nic) (a : Arp) (tx : option Bytes) (now : Z) (s : State) : option (State * option Bytes) :=
  if negb (bool_decide (target_ip a = ip_ (config s))) then s ← bump not_for_us s; Some (s, tx)
  else
    cache ← ArpCache.insert_arp (arp s) (sender_ip a) (sender_mac a) now;
    let s := set_arp cache s in
    if operation a =? ARP_REPLY then s ← bump arp_learned s; Some (s, tx)
    else match tx with
    | None => s ← bump no_buffer s; Some (s, None)
    | Some buf =>
        let reply := {| operation := ARP_REPLY; sender_mac := mac s; sender_ip := ip_ (config s);
                        target_mac := sender_mac a; target_ip := sender_ip a |} in
        '(s, buf, ok) ← send_arp nic buf (sender_mac a) reply s;
        s ← (if (ok : bool) then bump arp_replies_sent s else Some s);
        Some (s, Some buf)
    end.

Definition handle_other (nic : Nic) (eth : Ethernet) (inner : Frame) (tx : option Bytes) (now : Z) (s : State) :
    option (State * option Bytes) :=
  let ours ip := bool_decide (ip_dst ip = ip_ (config s)) in
  let foreign := s ← bump not_for_us s; Some (s, tx) in
  match inner with
  | FArp a => handle_arp nic a tx now s
  | FEcho ip echo =>
      if negb (ours ip) then foreign
      else if echo_kind echo =? ICMP_ECHO_REQUEST then echo_reply nic (eth_src eth) (ip_src ip) echo tx s
      else s ← note_reply echo (ip_src ip) s; Some (s, tx)
  | FUnreachable ip un =>
      if negb (ours ip) then foreign
      else
        s ← bump unreachable_received s;
        Some (if (un_protocol un =? PROTO_UDP) && bool_decide (un_src un = ip_ (config s)) && (un_code un =? ICMP_PORT_UNREACHABLE)
              then match position Reasm.is_none (refused s) with
                   | Some i => set_refused (<[i := Some (un_src_port un)]> (refused s)) s
                   | None => s
                   end
              else s, tx)
  | FUdp ip u => if negb (ours ip) then foreign else s ← take_datagram (ip_src ip) u s; Some (s, tx)
  | FTcp _ _ => Some (s, tx)
  | FOtherIpv4 _ | FOtherEthernet _ => foreign
  end.

Definition reassembled (nic : Nic) (from_mac : Mac) (src : Ipv4Addr) (proto : Z) (payload : Bytes) (tx : option Bytes) (s : State) :
    option (State * option Bytes) :=
  if proto =? PROTO_UDP then
    r ← parse_udp payload src (ip_ (config s));
    s ← match r with Ok u => take_datagram src u s | Err _ => bump dropped_udp s end;
    Some (s, tx)
  else if proto =? PROTO_ICMP then
    r ← parse_icmp_echo payload;
    match r with
    | Ok echo =>
        if echo_kind echo =? ICMP_ECHO_REQUEST then echo_reply nic from_mac src echo tx s
        else s ← note_reply echo src s; Some (s, tx)
    | Err _ => s ← bump dropped_icmp s; Some (s, tx)
    end
  else s ← bump not_for_us s; Some (s, tx).

Definition fragment (nic : Nic) (frame : Bytes) (tx : option Bytes) (r : Reasm.Reassembler) (now : Z) (s : State) :
    option (State * option Bytes * Reasm.Reassembler) :=
  let count c := s ← bump c s; Some (s, tx, r) in
  match parse_ethernet frame with
  | Err _ => count dropped_ethernet
  | Ok eth =>
      if negb (bool_decide (eth_dst eth = mac s)) && negb (bool_decide (eth_dst eth = BROADCAST)) then count not_for_us
      else
        part ← parse_ipv4_part (eth_payload eth);
        match part with
        | Ok (ip, Some part) =>
            if negb (bool_decide (ip_dst ip = ip_ (config s))) then count not_for_us
            else
              s ← bump fragments_received s;
              if protocol ip =? PROTO_TCP then s ← bump fragments_dropped s; s ← bump dropped_tcp s; Some (s, tx, r)
              else
                '(r, took) ← Reasm.take r (ip_src ip) (ip_dst ip) (protocol ip) part (ip_payload ip) now;
                match took with
                | Reasm.Held => Some (s, tx, r)
                | Reasm.Dropped => s ← bump fragments_dropped s; Some (s, tx, r)
                | Reasm.Complete i =>
                    '(s, tx) ← match Reasm.datagram r i with
                               | Some d =>
                                   s ← bump datagrams_reassembled s;
                                   reassembled nic (eth_src eth) (Reasm.d_src d) (Reasm.d_protocol d) (Reasm.d_payload d) tx s
                               | None => Some (s, tx)
                               end;
                    Some (s, tx, Reasm.release r i)
                end
        | _ => count dropped_ipv4
        end
  end.

Definition count_drop (frame : Bytes) (s : State) : option State :=
  match parse_ethernet frame with
  | Err _ => bump dropped_ethernet s
  | Ok eth =>
      if ethertype eth =? ETHERTYPE_ARP then bump dropped_arp s
      else if ethertype eth =? ETHERTYPE_IPV4 then
        r ← parse_ipv4 (eth_payload eth);
        match r with
        | Err _ => bump dropped_ipv4 s
        | Ok ip =>
            if protocol ip =? PROTO_ICMP then bump dropped_icmp s
            else if protocol ip =? PROTO_TCP then bump dropped_tcp s
            else bump dropped_udp s
        end
      else bump dropped_ethernet s
  end.

(** Where in the frame the payload of its TCP segment starts: behind the Ethernet header, the
    IPv4 header and the TCP header. *)
Definition segment_at (frame : Bytes) : nat :=
  let ip := (Z.to_nat (Z.land (frame !!! ETH_HEADER) 0x0f) * 4)%nat in
  let tcp := (Z.to_nat (Z.shiftr (frame !!! (ETH_HEADER + ip + 12)%nat) 4) * 4)%nat in
  (ETH_HEADER + ip + tcp)%nat.

Definition handle (nic : Nic) (frame : Bytes) (tx : option Bytes) (r : Reasm.Reassembler) (now : Z) (s : State) :
    option (State * option Bytes * Reasm.Reassembler * option NetTcp.Deliver) :=
  s ← bump rx_frames s;
  parsed ← parse_frame frame;
  match parsed with
  | Err Fragmented => '(s, tx, r) ← fragment nic frame tx r now s; Some (s, tx, r, None)
  | Err e => s ← count_drop frame s; Some (s, tx, r, None)
  | Ok (eth, inner) =>
      if negb (bool_decide (eth_dst eth = mac s)) && negb (bool_decide (eth_dst eth = BROADCAST))
      then s ← bump not_for_us s; Some (s, tx, r, None)
      else match inner with
      | FTcp ip seg =>
          if negb (bool_decide (ip_dst ip = ip_ (config s))) then s ← bump not_for_us s; Some (s, tx, r, None)
          else
            '(t, d) ← NetTcp.input (tcp s) (ip_src ip) seg (Z.of_nat (segment_at frame)) now;
            Some (set_tcp t s, tx, r, d)
      | _ => '(s, tx) ← handle_other nic eth inner tx now s; Some (s, tx, r, None)
      end
  end.

(** ** What a caller asks of the stack *)

Definition with_st (s : State) (k : Stack) : Stack := {| pool := pool k; reasm := reasm k; st := s |}.
Definition with_pool (p : Pool.Pool) (k : Stack) : Stack := {| pool := p; reasm := reasm k; st := st k |}.

(** Take a buffer, use it, and give it back; [None] is no buffer. *)
Definition with_buffer {A} (k : Stack) (f : Bytes → State → option (State * Bytes * A)) : option (Stack * option A) :=
  '(p, i) ← Pool.take (pool k);
  match i with
  | None => Some (with_pool p k, None)
  | Some i =>
      match Pool.buffer p i with
      | Some buf =>
          '(s, buf, a) ← f buf (st k);
          '(p, _) ← Pool.give (Pool.write_buffer p i buf) i;
          Some ({| pool := p; reasm := reasm k; st := s |}, Some a)
      | None =>
          '(p, _) ← Pool.give p i;
          Some (with_pool p k, None)
      end
  end.

Definition resolve (nic : Nic) (ip : Ipv4Addr) (now : Z) (k : Stack) : option (Stack * option Mac) :=
  let k := with_st (set_mac (nic_mac nic) (st k)) k in
  let hop := next_hop (st k) ip in
  match ArpCache.lookup_arp (arp (st k)) hop now with
  | Some m => Some (k, Some m)
  | None =>
      let due := match last_request (st k) with
                 | Some (asked, at_) => negb (bool_decide (asked = hop)) || (ARP_RETRY_NS <=? saturating_sub now at_)
                 | None => true
                 end in
      if due then
        '(p, i) ← Pool.take (pool k);
        match i with
        | None => s ← bump no_buffer (st k); Some ({| pool := p; reasm := reasm k; st := s |}, None)
        | Some i =>
            '(s, p) ← match Pool.buffer p i with
                      | Some buf =>
                          let request := {| operation := ARP_REQUEST; sender_mac := mac (st k); sender_ip := ip_ (config (st k));
                                            target_mac := replicate 6 0; target_ip := hop |} in
                          '(s, buf, ok) ← send_arp nic buf BROADCAST request (st k);
                          s ← (if (ok : bool) then s ← bump arp_requests_sent s; Some (set_last_request (Some (hop, now)) s) else Some s);
                          Some (s, Pool.write_buffer p i buf)
                      | None => Some (st k, p)
                      end;
            '(p, _) ← Pool.give p i;
            Some ({| pool := p; reasm := reasm k; st := s |}, None)
        end
      else Some (k, None)
  end.

Definition ping_data (seq_ : Z) : Bytes := (λ i, Z.lxor (Z.of_nat i) (seq_ mod 2 ^ 8)) <$> seq 0 16.

Definition ping (nic : Nic) (dst : Ipv4Addr) (id seq_ now : Z) (k : Stack) : option (Stack * result unit NetError) :=
  '(k, m) ← resolve nic dst now k;
  match m with
  | None => Some (k, Err Unresolved)
  | Some m =>
      '(k, r) ← with_buffer k (λ buf s, send_ip nic buf m dst PROTO_ICMP
        (λ p, write_icmp_echo p ICMP_ECHO_REQUEST id seq_ (ping_data seq_)) s);
      Some (k, default (Err NoBuffer) r)
  end.

Definition take_echo_reply (id seq_ : Z) (k : Stack) : Stack * option Ipv4Addr :=
  match position (λ r, match r with Some (i, s, _) => (i =? id) && (s =? seq_) | None => false end) (replies (st k)) with
  | None => (k, None)
  | Some i =>
      let from := match replies (st k) !! i with Some (Some (_, _, from)) => Some from | _ => None end in
      (with_st (set_replies (<[i := None]> (replies (st k))) (next_reply (st k)) (st k)) k, from)
  end.

Definition udp_send (nic : Nic) (dst : Ipv4Addr) (src_port dst_port : Z) (payload : Bytes) (now : Z) (k : Stack) :
    option (Stack * result unit NetError) :=
  if (FRAME_MAX <? ETH_HEADER + IPV4_HEADER + UDP_HEADER + length payload)%nat then Some (k, Err NetTooLarge)
  else
    '(k, m) ← resolve nic dst now k;
    match m with
    | None => Some (k, Err Unresolved)
    | Some m =>
        let src := ip_ (config (st k)) in
        '(k, r) ← with_buffer k (λ buf s,
          '(s, buf, r) ← send_ip nic buf m dst PROTO_UDP (λ p, write_udp p src dst src_port dst_port payload) s;
          s ← (if is_ok r then bump udp_sent s else Some s);
          Some (s, buf, r));
        Some (k, default (Err NoBuffer) r)
    end.

Definition take_refusal (port : Z) (k : Stack) : Stack * bool :=
  match position (λ r, bool_decide (r = Some port)) (refused (st k)) with
  | Some i => (with_st (set_refused (<[i := None]> (refused (st k))) (st k)) k, true)
  | None => (k, false)
  end.

(** The bytes copied into a buffer of [room] bytes come with the answer. *)
Definition udp_recv_from (port : Z) (room : nat) (k : Stack) : Stack * option (Ipv4Addr * Z * Bytes * nat) :=
  match position (λ d, match d with Some d => g_dst_port d =? port | None => false end) (inbox (st k)) with
  | None => (k, None)
  | Some i =>
      match inbox (st k) !! i with
      | Some (Some d) =>
          (with_st (set_inbox (<[i := None]> (inbox (st k))) (st k)) k,
           Some (g_src_ip d, g_src_port d, take (g_len d `min` room) (g_data d), g_len d))
      | _ => (k, None)
      end
  end.

Definition udp_peek_from (port : Z) (from : option (Ipv4Addr * Z)) (room : nat) (k : Stack) : option (Ipv4Addr * Z * Bytes * nat) :=
  i ← position (λ d, match d with
                     | Some d => (g_dst_port d =? port) &&
                         match from with Some (ip, src) => bool_decide (g_src_ip d = ip) && (g_src_port d =? src) | None => true end
                     | None => false
                     end) (inbox (st k));
  match inbox (st k) !! i with
  | Some (Some d) => Some (g_src_ip d, g_src_port d, take (g_len d `min` room) (g_data d), g_len d)
  | _ => None
  end.


(** ** Facts of the pieces *)

Section Facts.
Implicit Types s : State.

(** Counters with room for [n] more. *)
Definition room (n : Z) s : Prop := ∀ c, counters s c + n ≤ u64_MAX.

Definition bumped (c : Counter) s : State := set_counters (λ c', if decide (c' = c) then counters s c + 1 else counters s c') s.

Lemma bump_room c n s : 0 < n → room n s → bump c s = Some (bumped c s) ∧ room (n - 1) (bumped c s).
Proof.
  intros Hn Hr. unfold bump. pose proof (Hr c). rewrite (proj2 (checked_add_Some 64 (counters s c) 1 (counters s c + 1))) by lia.
  split; [done|]. intros c'. cbn. case_decide as E; [subst|]; [lia|]. specialize (Hr c'). lia.
Qed.

Definition addr_ok (a : Ipv4Addr) : Prop := length a = 4%nat ∧ bytes a.

(** A frame that carries [d] in an IPv4 packet. *)
Definition carries (frame : Bytes) (dst_mac src_mac : Mac) (src dst : Ipv4Addr) (proto : Z) (d : Bytes) : Prop :=
  ∃ p, parse_ethernet frame = Ok {| eth_dst := dst_mac; eth_src := src_mac; ethertype := ETHERTYPE_IPV4; eth_payload := p |} ∧
    parse_ipv4 p = Some (Ok {| ip_src := src; ip_dst := dst; protocol := proto; ttl := 64; ip_payload := d |}).

Lemma on_tail_spec {A} buf at_ (f : Bytes → option (Bytes * A)) t a :
  (at_ ≤ length buf)%nat → f (drop at_ buf) = Some (t, a) → on_tail buf at_ f = Some (take at_ buf ++ t, a).
Proof. intros Hl Hf. unfold on_tail, get_from. rewrite (proj2 (Nat.leb_le _ _)) by done. cbn [mbind option_bind]. by rewrite Hf. Qed.

(** What [send_ip] leaves when the payload [d] fits: the frame handed to the device. *)
Lemma send_ip_spec nic buf dst_mac dst proto body s d :
  length buf = FRAME_MAX → addr_ok (ip_ (config s)) → addr_ok dst → length (mac s) = 6%nat → length dst_mac = 6%nat → in_u 8 proto →
  (34 + length d ≤ FRAME_MAX)%nat → body (drop 34 buf) = Some (d ++ drop (length d) (drop 34 buf), Ok (length d)) → room 1 s →
  ∃ frame buf', carries frame dst_mac (mac s) (ip_ (config s)) dst proto d ∧ length frame = (34 + length d)%nat ∧ length buf' = FRAME_MAX ∧
    (bytes buf → bytes d → bytes (mac s) → bytes dst_mac → bytes buf') ∧
    send_ip nic buf dst_mac dst proto body s =
      if nic_takes nic (sent s) frame
      then Some (bumped tx_frames (set_sent (sent s ++ [frame]) (set_ip_id (wrapping_add 16 (ip_id s) 1) s)), buf', Ok tt)
      else Some (set_ip_id (wrapping_add 16 (ip_id s) 1) s, buf', Err NicRefused).
Proof.
  intros Hbuf [Hsl Hsb] [Hdl Hdb] Hml Hdml Hproto Hfit Hbody Hroom. change (34 + length d ≤ 1514)%nat in Hfit. change (length buf = 1514%nat) in Hbuf.
  set (id := wrapping_add 16 (ip_id s) 1). assert (in_u 16 id) as Hid.
  { unfold id, wrapping_add, in_u, u_max. pose proof (Z.mod_pos_bound (ip_id s + 1) (2 ^ 16)). lia. }
  set (buf1 := take 34 buf ++ d ++ drop (length d) (drop 34 buf)).
  assert (length buf1 = 1514%nat) as Hl1 by (unfold buf1; rewrite !length_app, length_take, !length_drop; lia).
  destruct (write_ipv4_spec (drop 14 buf1) (ip_ (config s)) dst proto id (length d)) as (h & Hhl & Hhb & Hw & Hparse); try done.
  { unfold u_max. lia. }
  { rewrite length_drop. lia. }
  set (buf2 := take 14 buf1 ++ h ++ drop 20 (drop 14 buf1)).
  assert (length buf2 = 1514%nat) as Hl2 by (unfold buf2; rewrite !length_app, length_take, !length_drop; lia).
  destruct (write_ethernet_spec buf2 dst_mac (mac s) ETHERTYPE_IPV4) as [He Hpe]; try done; [lia|].
  set (e := dst_mac ++ mac s ++ to_be16 ETHERTYPE_IPV4) in *.
  assert (length e = 14%nat) as Hel by (unfold e; rewrite !length_app; cbn [length to_be16]; lia).
  assert (drop 14 buf2 = h ++ d ++ drop (34 + length d) buf) as Hd2.
  { unfold buf2. rewrite drop_app_length' by (rewrite length_take; lia). f_equal. unfold buf1. rewrite drop_drop.
    rewrite drop_app_length' by (rewrite length_take; lia). by rewrite drop_drop. }
  set (frame := e ++ h ++ d). set (buf3 := e ++ drop 14 buf2) in *.
  assert (length buf3 = 1514%nat) as Hl3 by (unfold buf3; rewrite length_app, length_drop; lia).
  assert (get_range buf3 0 (34 + length d) = Some frame) as Hframe.
  { rewrite get_prefix by lia. unfold buf3, frame. rewrite Hd2. f_equal. rewrite !(assoc_L (++)). apply take_app_length'.
    rewrite !length_app. lia. }
  exists frame, buf3. split_and!.
  - exists (h ++ d). split; [apply Hpe|]. rewrite <-(app_nil_r d) at 1. by apply Hparse.
  - unfold frame. rewrite !length_app. lia.
  - done.
  - intros Hb1 Hb2 Hb3 Hb4. unfold buf3, e. rewrite Hd2, !Forall_app. split_and!; try done; [by apply bytes_to_be16|by apply Forall_drop].
  - unfold send_ip, ETH_HEADER, IPV4_HEADER. cbv zeta. change (14 + 20)%nat with 34%nat. rewrite (on_tail_spec buf 34 body _ _ ltac:(lia) Hbody). cbn [mbind option_bind].
    fold buf1. fold id. cbn [config ip_id set_ip_id]. rewrite (on_tail_spec buf1 14 _ _ _ ltac:(lia) Hw). cbn [mbind option_bind].
    fold buf2. cbn [mac set_ip_id]. rewrite He. cbn [mbind option_bind]. rewrite Hframe. cbn [mbind option_bind].
    unfold nic_send. cbn [sent set_ip_id]. destruct (nic_takes nic (sent s) frame); [|done].
    set (s2 := set_sent _ _). destruct (bump_room tx_frames 1 s2) as [-> _]; [lia|exact Hroom|]. done.
Qed.

(** ... and when it does not fit. *)
Lemma send_ip_too_large nic buf dst_mac dst proto body s :
  length buf = FRAME_MAX → body (drop 34 buf) = Some (drop 34 buf, Err TooLarge) →
  send_ip nic buf dst_mac dst proto body s = Some (s, buf, Err NetTooLarge).
Proof.
  intros Hbuf Hb. unfold send_ip, ETH_HEADER, IPV4_HEADER. cbv zeta. change (14 + 20)%nat with 34%nat.
  rewrite (on_tail_spec buf 34 body _ _ ltac:(rewrite Hbuf; unfold FRAME_MAX, ETH_HEADER, ETH_MTU; lia) Hb). cbn [mbind option_bind].
  by rewrite take_drop.
Qed.

Lemma send_arp_spec nic buf dst a s :
  length buf = FRAME_MAX → length (mac s) = 6%nat → length dst = 6%nat → length (sender_mac a) = 6%nat → length (target_mac a) = 6%nat →
  length (sender_ip a) = 4%nat → length (target_ip a) = 4%nat → operation a = ARP_REQUEST ∨ operation a = ARP_REPLY → room 1 s →
  ∃ frame buf',
    parse_frame frame = Some (Ok ({| eth_dst := dst; eth_src := mac s; ethertype := ETHERTYPE_ARP; eth_payload := drop 14 frame |}, FArp a)) ∧
    length buf' = FRAME_MAX ∧
    (bytes buf → bytes (mac s) → bytes dst → bytes (sender_mac a) → bytes (sender_ip a) → bytes (target_mac a) → bytes (target_ip a) → bytes buf') ∧
    send_arp nic buf dst a s =
      if nic_takes nic (sent s) frame then Some (bumped tx_frames (set_sent (sent s ++ [frame]) s), buf', true) else Some (s, buf', false).
Proof.
  intros Hbuf Hml Hdl H1 H2 H3 H4 Hop Hroom. change (length buf = 1514%nat) in Hbuf.
  destruct (write_ethernet_spec buf dst (mac s) ETHERTYPE_ARP) as [He Hpe]; try done; [lia|].
  set (e := dst ++ mac s ++ to_be16 ETHERTYPE_ARP) in *.
  assert (length e = 14%nat) as Hel by (unfold e; rewrite !length_app; cbn [length to_be16]; lia).
  set (buf1 := e ++ drop 14 buf) in *. assert (length buf1 = 1514%nat) as Hl1 by (unfold buf1; rewrite length_app, length_drop; lia).
  destruct (write_arp_spec (drop 14 buf1) a) as (p & Hpl & Hw & Hparse & Hpb); try done; [rewrite length_drop; lia|].
  set (frame := e ++ p). set (buf2 := take 14 buf1 ++ p ++ drop 28 (drop 14 buf1)).
  assert (take 14 buf1 = e) as Ht by (unfold buf1; by rewrite take_app_length').
  assert (length buf2 = 1514%nat) as Hl2 by (unfold buf2; rewrite !length_app, length_take, !length_drop; lia).
  exists frame, buf2. split_and!; [|done| |].
  - unfold parse_frame, frame. rewrite Hpe. cbn [ethertype eth_payload]. rewrite Z.eqb_refl. rewrite <-(app_nil_r p) at 1. rewrite Hparse.
    cbn [mbind option_bind]. by rewrite drop_app_length'.
  - intros Hb1 Hb2 Hb3 Hb4 Hb5 Hb6 Hb7. assert (bytes buf1) as Hbb by (unfold buf1, e; rewrite !Forall_app; split_and!; try done; [by apply bytes_to_be16|by apply Forall_drop]).
    unfold buf2. rewrite !Forall_app. split_and!; [by apply Forall_take|by apply Hpb|by apply Forall_drop, Forall_drop].
  - unfold send_arp. rewrite He. cbn [mbind option_bind]. unfold ETH_HEADER.
    rewrite (on_tail_spec buf1 14 _ _ _ ltac:(lia) Hw). cbn [mbind option_bind]. fold buf2.
    rewrite get_prefix by lia. assert (take (14 + 28) buf2 = frame) as ->.
    { unfold buf2. rewrite Ht, (assoc_L (++)). apply take_app_length'. unfold frame. rewrite length_app. lia. }
    cbn [mbind option_bind]. unfold nic_send. destruct (nic_takes nic (sent s) frame); [|done].
    set (s2 := set_sent _ _). destruct (bump_room tx_frames 1 s2) as [-> _]; [lia|exact Hroom|]. done.
Qed.
End Facts.


(** ** Any frame *)

Lemma get_range_length b at_ n x : get_range b at_ n = Some x → length x = n.
Proof. unfold get_range. case_match; [|done]. breflect. intros [= <-]. rewrite length_take, length_drop. lia. Qed.

Lemma get_range_bytes b at_ n x : bytes b → get_range b at_ n = Some x → bytes x.
Proof. unfold get_range. intros Hb. case_match; [|done]. intros [= <-]. by apply Forall_take, Forall_drop. Qed.

(** A hardware address: six bytes. *)
Definition mac_ok (m : Mac) : Prop := length m = 6%nat ∧ bytes m.

Lemma parse_ethernet_Ok frame eth :
  bytes frame → parse_ethernet frame = Ok eth → mac_ok (eth_dst eth) ∧ mac_ok (eth_src eth) ∧ bytes (eth_payload eth).
Proof.
  intros Hb. unfold parse_ethernet. destruct (mac_at frame 0) as [d|] eqn:E1; [|done]. destruct (mac_at frame 6) as [m|] eqn:E2; [|done].
  destruct (be16 frame 12) as [ty|]; [|done]. unfold get_from. destruct (_ <=? _)%nat; [|done]. intros H. cbn in H. simplify_eq/=.
  unfold mac_at, ip_at in *. split; [split|split; [split|by apply Forall_drop]]; by first [eapply get_range_length|eapply get_range_bytes].
Qed.

Lemma parse_arp_Ok p a :
  bytes p → parse_arp p = Some (Ok a) → mac_ok (sender_mac a) ∧ addr_ok (sender_ip a).
Proof.
  intros Hb. unfold parse_arp. case_match; [done|]. destruct (p !! 4%nat) as [p4|]; [|done]. destruct (p !! 5%nat) as [p5|]; [|done]. cbn [mbind option_bind].
  destruct (be16 p 0); [|done]. destruct (be16 p 2); [|done]. cbn [ok_or]. case_match; [done|].
  destruct (be16 p 6) as [op|]; [|done]. cbn [ok_or]. destruct (_ && _); [done|].
  destruct (mac_at p 8) as [m1|] eqn:E1; [|done]. destruct (ip_at p 14) as [i1|] eqn:E2; [|done].
  destruct (mac_at p 18) as [m2|] eqn:E3; [|done]. destruct (ip_at p 24) as [i2|] eqn:E4; [|done]. intros H'. cbn in H'. simplify_eq/=.
  unfold mac_at, ip_at in *. split; split; by first [eapply get_range_length|eapply get_range_bytes].
Qed.

Lemma parse_icmp_echo_Ok p e :
  bytes p → parse_icmp_echo p = Some (Ok e) → in_u 16 (echo_id e) ∧ in_u 16 (echo_seq e) ∧ bytes (echo_data e).
Proof.
  intros Hp. unfold parse_icmp_echo. case_match; [done|]. destruct (checksum [p]); [|done]. cbn [mbind option_bind].
  case_match; [done|]. destruct (p !! 0%nat); [|done]. destruct (p !! 1%nat); [|done]. cbn [mbind option_bind]. case_match; [done|].
  destruct (be16 p 4) as [i|] eqn:E1; [|done]. destruct (be16 p 6) as [q|] eqn:E2; [|done]. intros H'. cbn in H'. simplify_eq/=.
  split_and!; [by eapply be16_u16..|by apply Forall_drop].
Qed.

(** ** Whatever arrives is handled *)

Section Handling.
Implicit Types s : State.

(** Every hardware address in the cache is six bytes. *)
Definition macs_ok (c : ArpCache.Cache) : Prop := Forall (λ o, ∀ e, o = Some e → mac_ok (ArpCache.e_mac e)) (ArpCache.c_entries c).

Lemma insert_mac_ok c ip m now c' : macs_ok c → mac_ok m → ArpCache.insert_arp c ip m now = Some c' → macs_ok c'.
Proof.
  intros Hc Hm (l & Hl & [= <-])%bind_Some. unfold set_at in Hl. case_decide; [|done]. injection Hl as <-. unfold macs_ok. cbn.
  apply Forall_insert; [done|]. by intros e [= <-].
Qed.

Record wf_state s : Prop := {
  sw_ip : addr_ok (ip_ (config s));
  sw_mac : length (mac s) = 6%nat;
  sw_mac_bytes : bytes (mac s);
  sw_arp : ArpCache.wf (arp s);
  sw_macs : macs_ok (arp s);
  sw_replies : length (replies s) = REPLIES;
  sw_next : (next_reply s < REPLIES)%nat;
  sw_inbox : length (inbox s) = INBOX }.

Definition tx_ok (tx : option Bytes) : Prop := ∀ b, tx = Some b → length b = FRAME_MAX ∧ bytes b.

(** A step that keeps the state well formed, adds at most [n] to a counter, and leaves the
    connections and the addresses alone. *)
Record kept (n : Z) s s' : Prop := {
  kp_wf : wf_state s → wf_state s';
  kp_counters : ∀ c, counters s' c ≤ counters s c + n;
  kp_tcp : tcp s' = tcp s;
  kp_config : config s' = config s;
  kp_mac : mac s' = mac s }.

Lemma kept_trans m n s1 s2 s3 : kept m s1 s2 → kept n s2 s3 → kept (m + n) s1 s3.
Proof.
  intros [] []. split; [by auto| |congruence..]. intros c. specialize (kp_counters0 c). specialize (kp_counters1 c). lia.
Qed.
Lemma kept_le m n s s' : m ≤ n → kept m s s' → kept n s s'.
Proof. intros H []. split; try done. intros c. specialize (kp_counters0 c). lia. Qed.
Lemma kept_refl n s : 0 ≤ n → kept n s s.
Proof. intros H. split; try done. intros c. lia. Qed.
Lemma kept_bumped c s : kept 1 s (bumped c s).
Proof. split; try done; [by intros []|]. intros c'. cbn. case_decide; subst; lia. Qed.
Lemma kept_room n m s s' : kept n s s' → room m s → room (m - n) s'.
Proof. intros [] Hr c. specialize (Hr c). specialize (kp_counters0 c). lia. Qed.

Lemma room_le m n s : m ≤ n → room n s → room m s.
Proof. intros Hle Hr c. specialize (Hr c). lia. Qed.

Lemma room_bumped n c s s' : counters s' = counters s → room n s → room (n - 1) (bumped c s').
Proof. intros E Hr c'. cbn. rewrite E. case_decide; [subst; specialize (Hr c)|specialize (Hr c')]; lia. Qed.

Lemma bump_kept c s : room 1 s → bump c s = Some (bumped c s).
Proof. intros Hr. by destruct (bump_room c 1 s ltac:(lia) Hr). Qed.

(** What handling leaves: no panic, a state kept, and a spare buffer as large as before. *)
Definition fine (n : Z) s (r : option (State * option Bytes)) : Prop :=
  ∃ s' tx', r = Some (s', tx') ∧ kept n s s' ∧ tx_ok tx'.

Lemma fine_after m n s s1 r : kept m s s1 → fine n s1 r → fine (m + n) s r.
Proof. intros H (s' & tx' & -> & ? & ?). exists s', tx'. split_and!; try done. by eapply kept_trans. Qed.

Lemma fine_bump n c s (k : State → option (State * option Bytes)) :
  room 1 s → fine n (bumped c s) (k (bumped c s)) → fine (1 + n) s (bump c s ≫= k).
Proof. intros Hr Hk. rewrite bump_kept by done. eapply fine_after; [apply kept_bumped|exact Hk]. Qed.

Lemma fine_end n s tx : 0 ≤ n → tx_ok tx → fine n s (Some (s, tx)).
Proof. intros. exists s, tx. split_and!; try done. by apply kept_refl. Qed.

Lemma fine_le m n s r : m ≤ n → fine m s r → fine n s r.
Proof. intros Hle (s' & tx & -> & ? & ?). exists s', tx. split_and!; try done. by eapply kept_le. Qed.

(** One counter and no more. *)
Lemma fine_count n c s tx : 1 ≤ n → room 1 s → tx_ok tx → fine n s (s ← bump c s; Some (s, tx)).
Proof. intros Hn Hr Htx. apply (fine_le (1 + 0)); [lia|]. apply fine_bump; [done|]. by apply fine_end. Qed.

(** A frame went out, or the device refused it. *)
Lemma sent_kept s s1 frame (ok : bool) :
  counters s1 = counters s → tcp s1 = tcp s → config s1 = config s → mac s1 = mac s → (wf_state s → wf_state s1) →
  kept 1 s (if ok then bumped tx_frames (set_sent (sent s1 ++ [frame]) s1) else s1).
Proof.
  intros E1 E2 E3 E4 Hwf. destruct ok; split; try done; [by intros []%Hwf| |]; intros c; cbn; rewrite E1; [case_decide; subst|]; lia.
Qed.

Lemma echo_reply_fine nic to_mac to echo tx s :
  wf_state s → room 2 s → tx_ok tx → mac_ok to_mac → addr_ok to →
  in_u 16 (echo_id echo) → in_u 16 (echo_seq echo) → bytes (echo_data echo) → fine 2 s (echo_reply nic to_mac to echo tx s).
Proof.
  intros Hwf Hr Htx [Hm Hmb] Hto Hid Hseq Hdata. unfold echo_reply. destruct tx as [buf|].
  2:{ apply fine_count; [lia|by apply (room_le _ 2)|done]. }
  destruct (Htx buf eq_refl) as [Hbl Hbb0]. clear Htx. rename Hbl into Htx. assert (length (drop 34 buf) = 1480%nat) as Htl by (rewrite length_drop, Htx; done).
  set (body := λ p, write_icmp_echo p _ _ _ _).
  destruct (decide (8 + length (echo_data echo) ≤ 1480)%nat) as [Hfit|Hbig].
  - destruct (write_icmp_echo_spec (drop 34 buf) ICMP_ECHO_REPLY (echo_id echo) (echo_seq echo) (echo_data echo)) as (m & Hml & Hmb' & Hw & _);
      [by right|done..|lia|lia|].
    destruct (send_ip_spec nic buf to_mac to PROTO_ICMP body s m) as (frame & buf' & _ & _ & Hl' & Hbb & Hsend); try done;
      [apply Hwf|apply Hwf|rewrite Hml; unfold FRAME_MAX, ETH_HEADER, ETH_MTU; lia|unfold body; by rewrite Hml|by apply (room_le _ 2)|].
    assert (tx_ok (Some buf')) as Htx' by (intros ? [= <-]; split; [done|]; apply Hbb; try done; apply Hwf).
    rewrite Hsend. set (s1 := set_ip_id _ s). pose proof (sent_kept s s1 frame (nic_takes nic (sent s) frame)) as Hk.
    destruct (nic_takes _ _ _); cbn [mbind option_bind is_ok]; (eapply (fine_after 1 1); [apply Hk; try done; by intros []|]).
    + apply fine_count; [lia|by apply (room_bumped 2 _ s)|done].
    + by apply fine_end; [lia|].
  - rewrite send_ip_too_large; [|done|].
    + cbn [mbind option_bind is_ok]. by apply fine_end; [lia|intros ? [= <-]].
    + unfold body, write_icmp_echo, on_prefix, ICMP_HEADER. rewrite get_prefix_short by lia. done.
Qed.

Lemma note_reply_fine echo from s :
  wf_state s → room 1 s → ∃ s', note_reply echo from s = Some s' ∧ kept 1 s s'.
Proof.
  intros Hwf Hr. unfold note_reply. rewrite bump_kept by done. cbn [mbind option_bind].
  unfold set_at. cbn [replies next_reply bumped set_counters]. rewrite decide_True by (rewrite (sw_replies s Hwf); apply Hwf). cbn [mbind option_bind].
  eexists. split; [done|]. destruct (kept_bumped echo_replies_received s) as [_ ? ? ? ?]. split; try done.
  destruct Hwf. split; cbn; try done; [by rewrite length_insert|]. by apply (Nat.mod_upper_bound (next_reply s + 1) REPLIES).
Qed.

Lemma take_datagram_fine src u s :
  wf_state s → room 1 s → ∃ s', take_datagram src u s = Some s' ∧ kept 1 s s'.
Proof.
  intros Hwf Hr. assert (∃ s', bump inbox_full s = Some s' ∧ kept 1 s s') as Hb.
  { rewrite bump_kept by done. eexists. split; [done|]. apply kept_bumped. }
  unfold take_datagram. case_match; [|by apply Hb]. case_match eqn:El; [|by apply Hb]. breflect.
  unfold put. rewrite (proj2 (Nat.leb_le _ _)) by (rewrite length_replicate; simpl; lia). cbn [mbind option_bind].
  rewrite bump_kept by done. eexists. split; [done|]. eapply (kept_trans 0 1); [|apply kept_bumped]. split; try done; [|intros c; cbn; lia].
  intros []. split; cbn; try done. by rewrite length_insert.
Qed.

Lemma handle_arp_fine nic a tx now s :
  wf_state s → room 2 s → tx_ok tx → mac_ok (sender_mac a) → addr_ok (sender_ip a) → fine 2 s (handle_arp nic a tx now s).
Proof.
  intros Hwf Hr Htx [Hm Hmb] [Hi Hib]. unfold handle_arp. case_match; [apply fine_count; [lia|by apply (room_le _ 2)|done]|].
  destruct (ArpCache.insert_arp_wf (arp s) (sender_ip a) (sender_mac a) now (sw_arp s Hwf)) as (c & Ec & Hc & _). rewrite Ec. cbn [mbind option_bind].
  pose proof (insert_mac_ok _ _ _ _ _ (sw_macs s Hwf) (conj Hm Hmb) Ec) as Hcm.
  assert (kept 0 s (set_arp c s)) as Hk by (split; try done; [by intros []|intros ?; cbn; lia]).
  assert (wf_state (set_arp c s)) as Hwf1 by (by apply Hk). assert (room 2 (set_arp c s)) as Hr1 by done.
  apply (fine_after 0 2 _ _ _ Hk). case_match; [apply fine_count; [lia|by apply (room_le _ 2)|done]|].
  destruct tx as [buf|]; [|apply fine_count; [lia|by apply (room_le _ 2)|done]].
  set (s1 := set_arp c s) in *. set (reply := {| operation := ARP_REPLY |}).
  destruct (send_arp_spec nic buf (sender_mac a) reply s1) as (frame & buf' & _ & Hl' & Hbb & Hsend); try done;
    [by apply Htx|apply Hwf1|apply Hwf1|apply Hwf1|by right|by apply (room_le _ 2)|].
  assert (tx_ok (Some buf')) as Htx' by (intros ? [= <-]; split; [done|]; apply Hbb; first [done|apply Hwf1|by apply Htx]).
  rewrite Hsend. pose proof (sent_kept s1 s1 frame (nic_takes nic (sent s1) frame)) as Hk1.
  destruct (nic_takes _ _ _); cbn [mbind option_bind]; (eapply (fine_after 1 1); [by apply Hk1|]).
  - apply fine_count; [lia|by apply (room_bumped 2 _ s)|done].
  - by apply fine_end; [lia|].
Qed.

Lemma parse_frame_Ok frame eth inner :
  parse_frame frame = Some (Ok (eth, inner)) →
  parse_ethernet frame = Ok eth ∧
  match inner with
  | FArp a => parse_arp (eth_payload eth) = Some (Ok a)
  | FEcho ip e => parse_ipv4 (eth_payload eth) = Some (Ok ip) ∧ parse_icmp_echo (ip_payload ip) = Some (Ok e)
  | FTcp ip t => parse_ipv4 (eth_payload eth) = Some (Ok ip) ∧ parse_tcp (ip_payload ip) (ip_src ip) (ip_dst ip) = Some (Ok t)
  | _ => True
  end.
Proof.
  unfold parse_frame. destruct (parse_ethernet frame) as [eth'|]; [|done]. cbv zeta. destruct (_ =? ETHERTYPE_ARP).
  { destruct (parse_arp (eth_payload eth')) as [[a|]|] eqn:E; [|done..]. intros H. simplify_eq/=. done. }
  destruct (_ =? ETHERTYPE_IPV4); [|intros H; by simplify_eq/=].
  destruct (parse_ipv4 (eth_payload eth')) as [[ip|]|] eqn:E; [|done..]. cbn [mbind option_bind].
  destruct (_ =? PROTO_ICMP).
  { destruct (parse_icmp_echo (ip_payload ip)) as [[e|e]|] eqn:Ee; [intros H; by simplify_eq/=| |done]. cbn [mbind option_bind].
    destruct e; try done. destruct (parse_icmp_unreachable (ip_payload ip)) as [[u|]|]; [|done..]. intros H. by simplify_eq/=. }
  destruct (_ =? PROTO_UDP).
  { destruct (parse_udp _ _ _) as [[u|]|]; [|done..]. intros H. by simplify_eq/=. }
  destruct (_ =? PROTO_TCP); [|intros H; by simplify_eq/=].
  destruct (parse_tcp _ _ _) as [[t|]|] eqn:Et; [|done..]. intros H. by simplify_eq/=.
Qed.

Lemma reassembled_fine nic from_mac src proto payload tx s :
  wf_state s → room 2 s → tx_ok tx → mac_ok from_mac → addr_ok src → bytes payload → (length payload ≤ Reasm.MAX)%nat →
  fine 2 s (reassembled nic from_mac src proto payload tx s).
Proof.
  intros Hwf Hr Htx Hm Hsrc Hb Hl. assert (room 1 s) as Hr1 by (by apply (room_le _ 2)). unfold reassembled.
  assert (∀ c, fine 2 s (s ← bump c s; Some (s, tx))) as Hcount by (intros c; by apply fine_count).
  destruct (proto =? PROTO_UDP).
  { destruct Hsrc, (sw_ip s Hwf). destruct (parse_udp_total payload src (ip_ (config s))) as [[u|] ->]; [done..| |].
    - cbn [mbind option_bind]. destruct (take_datagram_fine src u s Hwf Hr1) as (s' & -> & Hk). eapply (fine_after 1 1); [exact Hk|by apply fine_end].
    - apply Hcount. }
  destruct (proto =? PROTO_ICMP); [|apply Hcount].
  destruct (parse_icmp_echo_total payload) as [[e|] E]; [done|unfold Reasm.MAX in Hl; lia| |]; rewrite E; cbn [mbind option_bind]; [|apply Hcount].
  destruct (parse_icmp_echo_Ok payload e Hb E) as (H1 & H2 & H3). destruct (echo_kind e =? ICMP_ECHO_REQUEST); [by apply echo_reply_fine|].
  destruct (note_reply_fine e src s Hwf Hr1) as (s' & -> & Hk). eapply (fine_after 1 1); [exact Hk|by apply fine_end].
Qed.

(** Sets that hold bytes. *)
Definition holds_bytes (_ : Reasm.Key) (W : gmap nat Z) (_ : option nat) : Prop := map_Forall (λ _ x, in_u 8 x) W.
Definition reasm_ok (r : Reasm.Reassembler) : Prop := length r = Reasm.SETS ∧ Forall (Reasm.good_set holds_bytes) r.

Lemma take_ok r src dst proto f b now :
  reasm_ok r → bytes b →
  ∃ r' t, Reasm.take r src dst proto f b now = Some (r', t) ∧ reasm_ok r' ∧
    ∀ i d, t = Reasm.Complete i → Reasm.datagram r' i = Some d →
      Reasm.d_src d = src ∧ bytes (Reasm.d_payload d) ∧ (length (Reasm.d_payload d) ≤ Reasm.MAX)%nat.
Proof.
  intros [Hne Hr] Hb. destruct (Reasm.take_good holds_bytes r src dst proto f b now) as (r' & t & E & Hl & Hg & Hc); try done.
  { unfold holds_bytes. intros W _ HW. apply map_Forall_union_2; [|done]. intros i x [_ Hx]%lookup_map_seq_Some. by eapply Forall_lookup_1. }
  { intros E. by rewrite E in Hne. }
  exists r', t. split; [done|]. split; [split; [congruence|done]|]. intros i d Ht Hd.
  destruct (Hc i Ht) as (s & n & Hs & Hk & Hn). destruct (Reasm.datagram_spec _ _ _ _ Hg Hd) as (s' & k & W & Hs' & Hk' & HP & HW & E1 & _).
  rewrite Hs in Hs'. injection Hs' as <-. rewrite Hk in Hk'. injection Hk' as <-. split_and!; [done| |].
  - apply Forall_lookup_2. intros j x Hx. destruct (HW j) as [_ Hj]; [by eapply lookup_lt_Some|]. rewrite Hj in Hx. by eapply HP.
  - pose proof (Forall_lookup_1 _ _ _ _ Hg Hs) as [Hdl _]. unfold Reasm.datagram in Hd. rewrite Hs in Hd. cbn [mbind option_bind] in Hd.
    rewrite Hk in Hd. cbn [mbind option_bind] in Hd. rewrite Hn in Hd. cbn [mbind option_bind] in Hd.
    destruct (get_range _ _ _) as [p|] eqn:Ep; [|done]. cbn in Hd. injection Hd as <-. cbn. rewrite (get_range_length _ _ _ _ Ep).
    unfold get_range in Ep. case_match; [|done]. breflect. lia.
Qed.

Lemma release_ok r i : reasm_ok r → reasm_ok (Reasm.release r i).
Proof.
  intros [Hne Hr]. destruct (Reasm.release_good _ r i Hr) as [H1 H2]. split; [congruence|done].
Qed.

Lemma fragment_fine nic frame tx r now s :
  wf_state s → room 4 s → tx_ok tx → reasm_ok r → bytes frame →
  ∃ s' tx' r', fragment nic frame tx r now s = Some (s', tx', r') ∧ kept 4 s s' ∧ tx_ok tx' ∧ reasm_ok r'.
Proof.
  intros Hwf Hr Htx Hre Hb. unfold fragment.
  assert (∀ n c s1, n ≤ 3 → kept n s s1 → ∀ r1, reasm_ok r1 →
    ∃ s' tx' r', (s1 ← bump c s1; Some (s1, tx, r1)) = Some (s', tx', r') ∧ kept 4 s s' ∧ tx_ok tx' ∧ reasm_ok r') as Hcount.
  { intros n c s1 Hn Hk r1 Hr1. rewrite bump_kept by (apply (room_le _ (4 - n)); [lia|by apply (kept_room _ _ s)]).
    eexists _, _, _. split; [done|]. split; [|done]. eapply (kept_le (n + 1)), kept_trans; [lia|exact Hk|apply kept_bumped]. }
  pose proof (kept_refl 0 s ltac:(lia)) as Hk0.
  destruct (parse_ethernet frame) as [eth|] eqn:Ee; [|by apply (Hcount 0)].
  destruct (_ && _); [by apply (Hcount 0)|].
  destruct (parse_ethernet_Ok frame eth Hb Ee) as (Hdm & Hsm & Hpl).
  destruct (parse_ipv4_part_total (eth_payload eth) Hpl) as [part Hpart]. rewrite Hpart. cbn [mbind option_bind].
  destruct part as [[ip [part|]]|]; [|by apply (Hcount 0)..].
  destruct (negb _); [by apply (Hcount 0)|].
  rewrite bump_kept by (by apply (room_le _ 4)). cbn [mbind option_bind].
  pose proof (kept_bumped fragments_received s) as Hk1. set (s1 := bumped fragments_received s) in *.
  assert (wf_state s1) as Hwf1 by (by apply Hk1). assert (room 3 s1) as Hr1 by (by apply (kept_room 1 4 s)).
  destruct (_ =? PROTO_TCP).
  { rewrite bump_kept by (by apply (room_le _ 3)). cbn [mbind option_bind].
    apply (Hcount (1 + 1)); [lia|eapply kept_trans; [exact Hk1|apply kept_bumped]|done]. }
  assert (bytes (ip_payload ip) ∧ bytes (ip_src ip) ∧ length (ip_src ip) = 4%nat) as (Hpb & Hsb & Hsl) by (destruct (parse_ipv4_part_bytes _ _ _ Hpl Hpart) as (? & _ & ? & ? & _); done).
  destruct (take_ok r (ip_src ip) (ip_dst ip) (protocol ip) part (ip_payload ip) now Hre Hpb) as (r' & t & -> & Hre' & Hd). cbn [mbind option_bind].
  destruct t as [|i|]; [eexists _, _, _; split_and!; try done; by eapply (kept_le 1)| |by apply (Hcount 1)].
  destruct (Reasm.datagram r' i) as [d|] eqn:Ed.
  - destruct (Hd i d eq_refl Ed) as (Esrc & Hdb & Hdl). rewrite bump_kept by (by apply (room_le _ 3)). cbn [mbind option_bind].
    set (s2 := bumped datagrams_reassembled s1). pose proof (kept_bumped datagrams_reassembled s1 : kept 1 s1 s2) as Hk2.
    destruct (reassembled_fine nic (eth_src eth) (Reasm.d_src d) (Reasm.d_protocol d) (Reasm.d_payload d) tx s2)
      as (s3 & tx3 & -> & Hk3 & ?); try done; [by apply Hk2|by apply (kept_room 1 3 s1)|rewrite Esrc; done|].
    cbn [mbind option_bind]. eexists _, _, _. split_and!; try done; [|by apply release_ok].
    eapply (kept_trans 1 3); [exact Hk1|]. by eapply (kept_trans 1 2).
  - cbn [mbind option_bind]. eexists _, _, _. split_and!; try done; [by eapply (kept_le 1)|by apply release_ok].
Qed.

Lemma count_drop_fine frame s : room 1 s → bytes frame → ∃ s', count_drop frame s = Some s' ∧ kept 1 s s'.
Proof.
  intros Hr Hb. assert (∀ c, ∃ s', bump c s = Some s' ∧ kept 1 s s') as Hc.
  { intros c. rewrite bump_kept by done. eexists. split; [done|]. apply kept_bumped. }
  unfold count_drop. destruct (parse_ethernet frame) as [eth|] eqn:Ee; [|apply Hc]. destruct (_ =? ETHERTYPE_ARP); [apply Hc|].
  destruct (_ =? ETHERTYPE_IPV4); [|apply Hc]. destruct (parse_ethernet_Ok frame eth Hb Ee) as (_ & _ & Hpl).
  unfold parse_ipv4. destruct (parse_ipv4_part_total (eth_payload eth) Hpl) as [part ->]. cbn [mbind option_bind].
  destruct (let? x := part in _) as [ip|]; [|apply Hc]. destruct (_ =? PROTO_ICMP); [apply Hc|]. destruct (_ =? PROTO_TCP); apply Hc.
Qed.

Lemma handle_other_fine nic eth inner tx now frame s :
  wf_state s → room 2 s → tx_ok tx → bytes frame → parse_frame frame = Some (Ok (eth, inner)) → fine 2 s (handle_other nic eth inner tx now s).
Proof.
  intros Hwf Hr Htx Hb Hp. assert (room 1 s) as H1 by (by apply (room_le _ 2)).
  destruct (parse_frame_Ok frame eth inner Hp) as [Ee Hin]. destruct (parse_ethernet_Ok frame eth Hb Ee) as (Hdm & Hsm & Hpl).
  assert (∀ c, fine 2 s (s0 ← bump c s; Some (s0, tx))) as Hcount by (intros c; by apply fine_count).
  destruct inner as [a|ip e|ip u|ip u|ip t|ip|ty]; cbn [handle_other]; [|..|by apply fine_end|apply Hcount|apply Hcount].
  - destruct (parse_arp_Ok _ _ Hpl Hin). by apply handle_arp_fine.
  - destruct Hin as [Hip He]. destruct (parse_ipv4_Ok _ _ Hpl Hip) as (Hpb & _ & Hsb & Hsl & _).
    destruct (parse_icmp_echo_Ok _ _ Hpb He) as (? & ? & ?). destruct (negb _); [apply Hcount|].
    destruct (_ =? ICMP_ECHO_REQUEST); [by apply echo_reply_fine|].
    destruct (note_reply_fine e (ip_src ip) s Hwf H1) as (s' & -> & Hk). eapply (fine_after 1 1); [exact Hk|by apply fine_end].
  - destruct (negb _); [apply Hcount|]. apply (fine_bump 1); [done|]. eexists _, _. split; [done|]. split; [|done].
    destruct (_ && _); [destruct (position _ _)|]; first [by apply kept_refl|split; try done; [by intros []|intros c; cbn; lia]].
  - destruct (negb _); [apply Hcount|].
    destruct (take_datagram_fine (ip_src ip) u s Hwf H1) as (s' & -> & Hk). eapply (fine_after 1 1); [exact Hk|by apply fine_end].
Qed.

(** What the connections make of a frame, if it is a segment for this machine. *)
Definition tcp_takes (frame : Bytes) (now : Z) s (t : NetTcp.Tcp) (d : option NetTcp.Deliver) : Prop :=
  (t = tcp s ∧ d = None) ∨
  ∃ eth ip sg, parse_frame frame = Some (Ok (eth, FTcp ip sg)) ∧ NetTcp.input (tcp s) (ip_src ip) sg (Z.of_nat (segment_at frame)) now = Some (t, d).

(** Whatever arrives is handled, if the connections take every segment. *)
Lemma handle_fine nic frame tx r now s :
  wf_state s → room 5 s → tx_ok tx → reasm_ok r → bytes frame →
  (∀ eth ip sg, parse_frame frame = Some (Ok (eth, FTcp ip sg)) → is_Some (NetTcp.input (tcp s) (ip_src ip) sg (Z.of_nat (segment_at frame)) now)) →
  ∃ s' tx' r' d, handle nic frame tx r now s = Some (s', tx', r', d) ∧ kept 5 s (set_tcp (tcp s) s') ∧ tx_ok tx' ∧ reasm_ok r' ∧
    tcp_takes frame now s (tcp s') d.
Proof.
  intros Hwf Hr Htx Hre Hb Hin. unfold handle. rewrite bump_kept by (by apply (room_le _ 5)). cbn [mbind option_bind].
  pose proof (kept_bumped rx_frames s) as Hk1. set (s1 := bumped rx_frames s) in *. assert (wf_state s1) as Hwf1 by (by apply Hk1).
  assert (room 4 s1) as Hr1 by (by apply (kept_room 1 5 s)). assert (room 1 s1 ∧ room 2 s1) as [H1 H2] by (split; by apply (room_le _ 4)).
  destruct (parse_frame_total frame Hb) as [parsed Hp]. rewrite Hp. cbn [mbind option_bind].
  assert (∀ s2 tx2 r2 n, n ≤ 4 → kept n s1 s2 → tx_ok tx2 → reasm_ok r2 →
    ∃ s' tx' r' d, Some (s2, tx2, r2, @None NetTcp.Deliver) = Some (s', tx', r', d) ∧ kept 5 s (set_tcp (tcp s) s') ∧ tx_ok tx' ∧ reasm_ok r' ∧
      tcp_takes frame now s (tcp s') d) as Hend.
  { intros s2 tx2 r2 n Hn Hk ? ?. eexists _, _, _, _. split; [done|]. pose proof (kept_trans _ _ _ _ _ Hk1 Hk) as Hk2. split_and!; try done.
    - eapply (kept_le (1 + n)); [lia|]. destruct Hk2. split; try done. by intros []%kp_wf0.
    - left. split; [|done]. by rewrite (kp_tcp _ _ _ Hk2). }
  destruct parsed as [[eth inner]|e].
  2:{ destruct e; try (destruct (count_drop_fine frame s1 H1 Hb) as (s' & -> & ?); by eapply (Hend _ _ _ 1)).
      destruct (fragment_fine nic frame tx r now s1) as (s' & tx' & r' & -> & ? & ? & ?); try done. by eapply (Hend _ _ _ 4). }
  assert (∀ c, ∃ s' tx' r' d, (s0 ← bump c s1; Some (s0, tx, r, @None NetTcp.Deliver)) = Some (s', tx', r', d) ∧ kept 5 s (set_tcp (tcp s) s') ∧ tx_ok tx' ∧ reasm_ok r' ∧
      tcp_takes frame now s (tcp s') d) as Hcount.
  { intros c. rewrite bump_kept by done. eapply (Hend _ _ _ 1); try done. apply kept_bumped. }
  destruct (_ && _); [apply Hcount|].
  pose proof (handle_other_fine nic eth inner tx now frame s1 Hwf1 H2 Htx Hb Hp) as (s' & tx' & Ho & Hk & Htx').
  destruct inner as [a|ip e|ip u|ip u|ip t|ip|ty]; try (rewrite Ho; by eapply (Hend _ _ _ 2)).
  destruct (negb _); [apply Hcount|]. destruct (Hin eth ip t Hp) as [[t' d] Ht]. change (tcp s1) with (tcp s). rewrite Ht. cbn [mbind option_bind].
  eexists _, _, _, _. split; [done|]. split_and!; try done; [|right; by eexists _, _, _].
  eapply (kept_le 1); [lia|]. destruct Hk1. by split.
Qed.
End Handling.


(** ** Two machines *)

Lemma with_buffer_ok {A} (k : Stack) (f : Bytes → State → option (State * Bytes * A)) :
  Pool.wf (pool k) → (Pool.in_use (pool k) < Pool.BUFFERS)%nat → Pool.p_taken (pool k) < u64_MAX →
  ∃ buf, length buf = FRAME_MAX ∧ ∀ s buf' a, f buf (st k) = Some (s, buf', a) → length buf' = FRAME_MAX →
    ∃ p, with_buffer k f = Some ({| pool := p; reasm := reasm k; st := s |}, Some a) ∧
      Pool.wf p ∧ Pool.in_use p = Pool.in_use (pool k) ∧ Pool.p_taken p = Pool.p_taken (pool k) + 1.
Proof.
  intros Hwf Hfree Hlt. destruct (Pool.take_spec (pool k) Hwf Hlt) as (p1 & [i|] & Ht & Hwf1 & Hb1 & Hi); [|destruct Hi; lia].
  destruct Hi as (Hi & Hh1 & Hu1 & Ht1 & Hr1). pose proof (lookup_lt_Some _ _ _ Hi) as Hil.
  assert (Pool.p_held p1 !! i = Some true) as Hheld by (rewrite Hh1; by apply list_lookup_insert_eq).
  destruct (Pool.held_buffer p1 i Hwf1 Hheld) as [buf Hbuf]. destruct (Pool.buffer_held p1 i buf Hwf1 Hbuf) as (_ & _ & Hlen).
  exists buf. split; [done|]. intros s buf' a Hf Hl'. unfold with_buffer. rewrite Ht. cbn [mbind option_bind]. rewrite Hbuf, Hf. cbn [mbind option_bind].
  pose proof (Pool.write_buffer_wf p1 i buf' Hwf1 Hl') as Hwf2. pose proof (Pool.wf_books _ Hwf). 
  destruct (Pool.give_spec (Pool.write_buffer p1 i buf') i Hwf2) as (p2 & b & Hg & Hwf3 & _ & Hb); [cbn; lia|].
  rewrite Hg. cbn [mbind option_bind]. exists p2. split; [done|]. split; [done|]. destruct b.
  - destruct Hb as (_ & _ & Hu & Ht' & _). change (Pool.in_use (Pool.write_buffer p1 i buf')) with (Pool.in_use p1) in Hu. cbn in Ht'. lia.
  - destruct Hb as [_ Hb]. done.
Qed.

Lemma carries_parse_udp frame dm sm src dst d u :
  carries frame dm sm src dst PROTO_UDP d → parse_udp d src dst = Some (Ok u) →
  ∃ eth, eth_dst eth = dm ∧ eth_src eth = sm ∧
    parse_frame frame = Some (Ok (eth, FUdp {| ip_src := src; ip_dst := dst; protocol := PROTO_UDP; ttl := 64; ip_payload := d |} u)).
Proof.
  intros (p & He & Hi) Hu. eexists. split_and!; [| |unfold parse_frame; rewrite He; cbn; rewrite Hi; cbn; rewrite Hu; cbn; done]; done.
Qed.

Lemma carries_parse_echo frame dm sm src dst d e :
  carries frame dm sm src dst PROTO_ICMP d → parse_icmp_echo d = Some (Ok e) →
  ∃ eth, eth_dst eth = dm ∧ eth_src eth = sm ∧
    parse_frame frame = Some (Ok (eth, FEcho {| ip_src := src; ip_dst := dst; protocol := PROTO_ICMP; ttl := 64; ip_payload := d |} e)).
Proof.
  intros (p & He & Hi) Hu. eexists. split_and!; [| |unfold parse_frame; rewrite He; cbn; rewrite Hi; cbn; rewrite Hu; cbn; done]; done.
Qed.

(** A stack that can send: a buffer free, room in its counters and books, and a device that
    takes what it is given. *)
Record can_send (nic : Nic) (k : Stack) : Prop := {
  cs_pool : Pool.wf (pool k);
  cs_free : (Pool.in_use (pool k) < Pool.BUFFERS)%nat;
  cs_books : Pool.p_taken (pool k) < u64_MAX;
  cs_nic : ∀ sent frame, nic_takes nic sent frame = true;
  cs_mac : length (nic_mac nic) = 6%nat;
  cs_mac_bytes : bytes (nic_mac nic);
  cs_ip : addr_ok (ip_ (config (st k)));
  cs_room : room 3 (st k) }.


Lemma udp_send_spec (nic : Nic) (k : Stack) dst m sp dp payload now :
  can_send nic k → addr_ok dst → length m = 6%nat → in_u 16 sp → in_u 16 dp → bytes payload →
  (42 + length payload ≤ FRAME_MAX)%nat →
  ArpCache.lookup_arp (arp (st k)) (next_hop (st k) dst) now = Some m →
  ∃ k' frame d, udp_send nic dst sp dp payload now k = Some (k', Ok tt) ∧ sent (st k') = sent (st k) ++ [frame] ∧
    Pool.in_use (pool k') = Pool.in_use (pool k) ∧
    carries frame m (nic_mac nic) (ip_ (config (st k))) dst PROTO_UDP d ∧ bytes d ∧
    parse_udp d (ip_ (config (st k))) dst = Some (Ok {| udp_src_port := sp; udp_dst_port := dp; udp_payload := payload |}).
Proof.
  intros [] Hdst Hm Hsp Hdp Hpay Hfit Harp. change (42 + length payload ≤ 1514)%nat in Hfit.
  unfold udp_send. rewrite (proj2 (Nat.ltb_ge _ _)) by (change (42 + length payload ≤ 1514)%nat; lia).
  unfold resolve. cbn [st with_st arp set_mac last_request].
  change (next_hop (set_mac (nic_mac nic) (st k)) dst) with (next_hop (st k) dst). rewrite Harp. cbn [mbind option_bind].
  set (k1 := with_st (set_mac (nic_mac nic) (st k)) k). cbv zeta.
  match goal with |- context [with_buffer k1 ?f] => destruct (with_buffer_ok k1 f) as (buf & Hbuf & Hwb); [done..|] end.
  destruct cs_ip0 as [Hsl Hsb], Hdst as [Hdl Hdb]. set (src := ip_ (config (st k1))) in *. assert (length (drop 34 buf) = 1480%nat) as Htl by (rewrite length_drop, Hbuf; done).
  destruct (write_udp_spec (drop 34 buf) src dst sp dp payload) as (d & Hdlen & Hdbytes & Hw & Hparse); [done..|unfold u_max; lia|lia|].
  destruct (send_ip_spec nic buf m dst PROTO_UDP (λ p, write_udp p src dst sp dp payload) (st k1) d) as (frame & buf' & Hc & _ & Hl' & _ & Hsend); try done.
  { unfold FRAME_MAX, ETH_HEADER, ETH_MTU. lia. }
  { by rewrite Hdlen. }
  { by apply (room_le 1 3); [lia|]. }
  rewrite cs_nic0 in Hsend. set (s2 := bumped tx_frames _) in Hsend.
  assert (room 2 s2) as Hr2 by (by apply (room_bumped 3 _ (st k))).
  destruct (bump_room udp_sent 2 s2 ltac:(lia) Hr2) as [Hb _].
  destruct (Hwb (bumped udp_sent s2) buf' (Ok tt)) as (p & Hwith & Hpwf & Hpu & _); [|done|].
  { rewrite Hsend. cbn [mbind option_bind is_ok]. by rewrite Hb. }
  rewrite Hwith. cbn [mbind option_bind]. eexists _, frame, d. split; [done|]. split_and!; try done.
  specialize (Hparse []). by rewrite app_nil_r in Hparse.
Qed.

(** A machine that takes frames for hardware address [m] and address [a]. *)
Record listens (s : State) (m : Mac) (a : Ipv4Addr) : Prop := {
  ls_mac : mac s = m;
  ls_ip : ip_ (config s) = a;
  ls_wf : wf_state s;
  ls_room : room 5 s }.

Lemma handle_addressed nic frame tx r now s m a eth inner :
  listens s m a → parse_frame frame = Some (Ok (eth, inner)) → eth_dst eth = m ∨ eth_dst eth = BROADCAST →
  (∀ ip t, inner ≠ FTcp ip t) →
  handle nic frame tx r now s = '(s', tx') ← handle_other nic eth inner tx now (bumped rx_frames s); Some (s', tx', r, None).
Proof.
  intros HL Hp Hdst Hnt. destruct HL. unfold handle. destruct (bump_room rx_frames 5 s ltac:(lia) ls_room0) as [-> _]. cbn [mbind option_bind].
  rewrite Hp. cbn [mbind option_bind]. cbn [mac bumped set_counters]. rewrite ls_mac0.
  assert (negb (bool_decide (eth_dst eth = m)) && negb (bool_decide (eth_dst eth = BROADCAST)) = false) as ->.
  { destruct Hdst as [-> | ->]; [by rewrite bool_decide_eq_true_2|]. rewrite (bool_decide_eq_true_2 (BROADCAST = BROADCAST)) by done. by rewrite andb_false_r. }
  destruct inner; try done. by edestruct Hnt.
Qed.

Lemma take_padded (l z : Bytes) n : take (length l `min` n) (l ++ z) = take n l.
Proof.
  destruct (decide (n ≤ length l)%nat).
  - rewrite Nat.min_r by done. by rewrite take_app_le.
  - rewrite Nat.min_l, take_app_length by lia. by rewrite take_ge by lia.
Qed.

Lemma position_insert_only {A} (p : A → bool) (l : list A) i x :
  (i < length l)%nat → p x = true → (∀ j y, l !! j = Some y → p y = false) → position p (<[i := x]> l) = Some i.
Proof.
  intros Hi Hx Hl. apply position_Some. split; [exists x; by rewrite list_lookup_insert_eq|].
  intros j y Hj. rewrite list_lookup_insert_ne by lia. apply Hl.
Qed.


Lemma ping_data_bytes q : bytes (ping_data q).
Proof.
  unfold ping_data. apply Forall_fmap, Forall_forall. intros i Hi%elem_of_seq. cbn.
  assert (in_u 8 (Z.of_nat i)) by (unfold in_u, u_max; lia).
  assert (in_u 8 (q mod 2 ^ 8)) as [? _] by (unfold in_u, u_max; pose proof (Z.mod_pos_bound q (2 ^ 8)); lia).
  apply testbit_in_u; [lia|apply Z.lxor_nonneg; lia|]. intros n Hn. rewrite Z.lxor_spec, (in_u_testbit 8), (in_u_testbit 8); try done; [|lia..].
  unfold in_u, u_max; pose proof (Z.mod_pos_bound q (2 ^ 8)); lia.
Qed.

(** The state [send_ip] leaves when the device takes the frame. *)
Definition after_send (frame : Bytes) (s : State) : State :=
  bumped tx_frames (set_sent (sent s ++ [frame]) (set_ip_id (wrapping_add 16 (ip_id s) 1) s)).

Lemma after_send_wf frame (s : State) n :
  wf_state s → room n s → wf_state (after_send frame s) ∧ room (n - 1) (after_send frame s).
Proof. intros Hwf Hr. split; [by destruct Hwf|]. by apply (room_bumped n _ s). Qed.

Lemma send_echo_spec nic buf m dst kind id q data (s : State) :
  length buf = FRAME_MAX → addr_ok (ip_ (config s)) → addr_ok dst → length (mac s) = 6%nat → length m = 6%nat →
  kind = ICMP_ECHO_REQUEST ∨ kind = ICMP_ECHO_REPLY → in_u 16 id → in_u 16 q → bytes data → (42 + length data ≤ FRAME_MAX)%nat → room 1 s →
  (∀ sent frame, nic_takes nic sent frame = true) →
  ∃ frame eth ip buf', length buf' = FRAME_MAX ∧
    send_ip nic buf m dst PROTO_ICMP (λ p, write_icmp_echo p kind id q data) s = Some (after_send frame s, buf', Ok tt) ∧
    eth_dst eth = m ∧ eth_src eth = mac s ∧ ip_src ip = ip_ (config s) ∧ ip_dst ip = dst ∧
    parse_frame frame = Some (Ok (eth, FEcho ip {| echo_kind := kind; echo_id := id; echo_seq := q; echo_data := data |})).
Proof.
  intros Hbuf Hip Hdst Hmac Hm Hk Hid Hq Hdata Hfit Hr Hnic. change (42 + length data ≤ 1514)%nat in Hfit.
  assert (length (drop 34 buf) = 1480%nat) as Htl by (rewrite length_drop, Hbuf; done).
  destruct (write_icmp_echo_spec (drop 34 buf) kind id q data) as (d & Hdl & _ & Hw & Hparse); [done..|lia|lia|].
  destruct (send_ip_spec nic buf m dst PROTO_ICMP (λ p, write_icmp_echo p kind id q data) s d) as (frame & buf' & Hc & _ & Hl' & _ & Hsend); try done.
  { unfold FRAME_MAX, ETH_HEADER, ETH_MTU. lia. }
  { by rewrite Hdl. }
  rewrite Hnic in Hsend. destruct (carries_parse_echo _ _ _ _ _ _ _ Hc Hparse) as (eth & E1 & E2 & Hp).
  exists frame, eth, {| ip_src := ip_ (config s); ip_dst := dst; protocol := PROTO_ICMP; ttl := 64; ip_payload := d |}, buf'. by split_and!.
Qed.

Lemma ping_spec (nic : Nic) (k : Stack) dst m id q now :
  can_send nic k → addr_ok dst → length m = 6%nat → in_u 16 id → in_u 16 q →
  ArpCache.lookup_arp (arp (st k)) (next_hop (st k) dst) now = Some m →
  ∃ k' frame eth ip, ping nic dst id q now k = Some (k', Ok tt) ∧ st k' = after_send frame (set_mac (nic_mac nic) (st k)) ∧
    Pool.in_use (pool k') = Pool.in_use (pool k) ∧
    eth_dst eth = m ∧ eth_src eth = nic_mac nic ∧ ip_src ip = ip_ (config (st k)) ∧ ip_dst ip = dst ∧
    parse_frame frame = Some (Ok (eth, FEcho ip {| echo_kind := ICMP_ECHO_REQUEST; echo_id := id; echo_seq := q; echo_data := ping_data q |})).
Proof.
  intros [] Hdst Hm Hid Hq Harp. unfold ping, resolve. cbn [st with_st arp set_mac last_request].
  change (next_hop (set_mac (nic_mac nic) (st k)) dst) with (next_hop (st k) dst). rewrite Harp. cbn [mbind option_bind].
  set (k1 := with_st (set_mac (nic_mac nic) (st k)) k). cbv zeta.
  match goal with |- context [with_buffer k1 ?f] => destruct (with_buffer_ok k1 f) as (buf & Hbuf & Hwb); [done..|] end.
  destruct (send_echo_spec nic buf m dst ICMP_ECHO_REQUEST id q (ping_data q) (st k1)) as (frame & eth & ip & buf' & Hl' & Hsend & H1 & H2 & H3 & H4 & Hp);
    try done; [by left|apply ping_data_bytes|unfold FRAME_MAX, ETH_HEADER, ETH_MTU; cbn; lia|by apply (room_le 1 3); [lia|]|].
  destruct (Hwb _ _ _ Hsend Hl') as (p & Hwith & Hpwf & Hpu & _). rewrite Hwith. cbn [mbind option_bind].
  eexists _, frame, eth, ip. by split_and!.
Qed.

(** A ping is answered.  The request goes out in one frame; the machine it is addressed to
    answers with one frame, whose payload is the request's; and when that frame comes back,
    the machine that asked can collect a reply with its identifier and sequence number, from
    the address it asked. *)
Theorem ping_is_answered (nicA nicB : Nic) (A : Stack) (B : Stack) m b id q now nowB nowA buf rB txA rA :
  can_send nicA A → wf_state (st A) → room 8 (st A) → listens (st B) m b → length m = 6%nat →
  (∀ sent frame, nic_takes nicB sent frame = true) → length buf = FRAME_MAX → in_u 16 id → in_u 16 q →
  ArpCache.lookup_arp (arp (st A)) (next_hop (st A) b) now = Some m →
  (∀ i from, replies (st A) !! i ≠ Some (Some (id, q, from))) →
  ∃ A1 f1 B1 buf1 f2 A2, ping nicA b id q now A = Some (A1, Ok tt) ∧ sent (st A1) = sent (st A) ++ [f1] ∧
    handle nicB f1 (Some buf) rB nowB (st B) = Some (B1, Some buf1, rB, None) ∧ sent B1 = sent (st B) ++ [f2] ∧
    handle nicA f2 txA rA nowA (st A1) = Some (A2, txA, rA, None) ∧
    (take_echo_reply id q (with_st A2 A1)).2 = Some b.
Proof.
  intros HA HwfA HrA HB Hm HnicB Hbuf Hid Hq Harp Hnone. pose proof HB as [Hmac Hb HwfB HrB].
  pose proof HA as [_ _ _ _ HmacA HmbA HipA _].
  destruct (ping_spec nicA A b m id q now) as (A1 & f1 & eth1 & ip1 & Hping & HstA & _ & E1 & E2 & E3 & E4 & Hp1); try done.
  { rewrite <-Hb. apply HwfB. }
  set (s0 := set_mac (nic_mac nicA) (st A)) in *. assert (wf_state s0) as Hwf0 by (destruct HwfA; by split).
  destruct (after_send_wf f1 s0 8 Hwf0 HrA) as [HwfA1 HrA1].
  (* the peer *)
  set (sB := bumped rx_frames (st B)). assert (wf_state sB) as HwfsB by (by destruct HwfB).
  assert (room 4 sB) as HrsB by (by apply (room_bumped 5 _ (st B))).
  destruct (send_echo_spec nicB buf (nic_mac nicA) (ip_ (config (st A))) ICMP_ECHO_REPLY id q (ping_data q) sB)
    as (f2 & eth2 & ip2 & buf2 & Hl2 & Hsend2 & G1 & G2 & G3 & G4 & Hp2); try done;
    [apply HwfsB|apply HwfsB|by right|apply ping_data_bytes|unfold FRAME_MAX, ETH_HEADER, ETH_MTU; cbn; lia|by apply (room_le 1 4); [lia|]|].
  destruct (after_send_wf f2 sB 4 HwfsB HrsB) as [_ HrB2]. change (4 - 1) with 3 in HrB2.
  destruct (bump_room echo_replies_sent 3 (after_send f2 sB) ltac:(lia) HrB2) as [HbB _].
  (* the answer *)
  assert (listens (st A1) (nic_mac nicA) (ip_ (config (st A)))) as HL.
  { rewrite HstA. split; [done|done|done|]. by apply (room_le 5 (8 - 1)); [lia|]. }
  set (sA := bumped rx_frames (st A1)). assert (wf_state sA) as HwfsA by (destruct (ls_wf _ _ _ HL); by split).
  assert (room 4 sA) as HrsA by (apply (room_bumped 5 _ (st A1)); [done|apply HL]).
  set (s2 := bumped echo_replies_received sA). destruct (bump_room echo_replies_received 4 sA ltac:(lia) HrsA) as [HbA _].
  assert (replies s2 = replies (st A) ∧ next_reply s2 = next_reply (st A)) as [Er En] by (unfold s2, sA; cbn; by rewrite HstA).
  assert ((next_reply (st A) < length (replies (st A)))%nat) as Hlt by (rewrite (sw_replies _ HwfA); apply HwfA).
  exists A1, f1, (bumped echo_replies_sent (after_send f2 sB)), buf2, f2,
    (set_replies (<[next_reply (st A) := Some (id, q, b)]> (replies (st A))) ((next_reply (st A) + 1) mod REPLIES)%nat s2).
  split_and!; [done|by rewrite HstA|..].
  - rewrite (handle_addressed nicB f1 (Some buf) rB nowB (st B) m b eth1 _ HB Hp1) by (done || by left). fold sB.
    cbn [handle_other]. change (ip_ (config sB)) with (ip_ (config (st B))). rewrite E4, Hb, bool_decide_eq_true_2 by done. cbn [negb echo_kind].
    change (ICMP_ECHO_REQUEST =? ICMP_ECHO_REQUEST) with true. cbv iota. unfold echo_reply. rewrite E2, E3. cbn [echo_id echo_seq echo_data].
    rewrite Hsend2. cbn [mbind option_bind is_ok]. by rewrite HbB.
  - done.
  - rewrite (handle_addressed nicA f2 txA rA nowA (st A1) _ _ eth2 _ HL Hp2) by (done || by left). fold sA.
    cbn [handle_other]. assert (ip_ (config sA) = ip_ (config (st A))) as -> by (unfold sA; cbn; by rewrite HstA).
    rewrite G4, bool_decide_eq_true_2 by done. cbn [negb echo_kind]. change (ICMP_ECHO_REPLY =? ICMP_ECHO_REQUEST) with false. cbv iota.
    unfold note_reply. rewrite HbA. cbn [mbind option_bind]. fold s2. rewrite Er, En. unfold set_at. rewrite decide_True by done.
    cbn [mbind option_bind echo_id echo_seq]. rewrite G3. change (ip_ (config sB)) with (ip_ (config (st B))). by rewrite Hb.
  - unfold take_echo_reply. cbn [st with_st replies set_replies]. rewrite (position_insert_only _ _ (next_reply (st A))); [|done|cbn; by rewrite !Z.eqb_refl|].
    + cbn. by rewrite list_lookup_insert_eq.
    + intros j y Hj. destruct y as [[[i' q'] from]|]; [|done]. apply andb_false_iff.
      destruct (Z.eqb_spec i' id) as [->|]; [|by left]. destruct (Z.eqb_spec q' q) as [->|]; [|by right]. by edestruct Hnone.
Qed.

(** A resolution that misses asks, when it is due, with one broadcast frame. *)
Definition due (s : State) (hop : Ipv4Addr) (now : Z) : bool :=
  match last_request s with
  | Some (asked, at_) => negb (bool_decide (asked = hop)) || (ARP_RETRY_NS <=? saturating_sub now at_)
  | None => true
  end.

Lemma resolve_asks (nic : Nic) (k : Stack) ip now :
  can_send nic k → length (next_hop (st k) ip) = 4%nat → ArpCache.lookup_arp (arp (st k)) (next_hop (st k) ip) now = None →
  due (st k) (next_hop (st k) ip) now = true →
  ∃ k' frame eth, resolve nic ip now k = Some (k', None) ∧
    st k' = set_last_request (Some (next_hop (st k) ip, now))
              (bumped arp_requests_sent (bumped tx_frames (set_sent (sent (st k) ++ [frame]) (set_mac (nic_mac nic) (st k))))) ∧
    Pool.in_use (pool k') = Pool.in_use (pool k) ∧ eth_dst eth = BROADCAST ∧
    parse_frame frame = Some (Ok (eth, FArp {| operation := ARP_REQUEST; sender_mac := nic_mac nic; sender_ip := ip_ (config (st k));
                                              target_mac := replicate 6 0; target_ip := next_hop (st k) ip |})).
Proof.
  intros [] Hhop Harp Hdue. unfold resolve. cbn [st with_st arp set_mac last_request mac config pool reasm].
  change (next_hop (set_mac (nic_mac nic) (st k)) ip) with (next_hop (st k) ip). rewrite Harp.
  unfold due in Hdue. rewrite Hdue. set (hop := next_hop (st k) ip) in *. set (s0 := set_mac (nic_mac nic) (st k)).
  destruct (Pool.take_spec (pool k) cs_pool0 cs_books0) as (p1 & [i|] & Ht & Hwf1 & Hb1 & Hi); [|destruct Hi; lia].
  destruct Hi as (Hi & Hh1 & Hu1 & Ht1 & Hr1). pose proof (lookup_lt_Some _ _ _ Hi) as Hil.
  assert (Pool.p_held p1 !! i = Some true) as Hheld by (rewrite Hh1; by apply list_lookup_insert_eq).
  destruct (Pool.held_buffer p1 i Hwf1 Hheld) as [buf Hbuf]. destruct (Pool.buffer_held p1 i buf Hwf1 Hbuf) as (_ & _ & Hlen).
  rewrite Ht. cbn [mbind option_bind]. rewrite Hbuf. set (request := {| operation := ARP_REQUEST |}).
  destruct (send_arp_spec nic buf BROADCAST request s0) as (frame & buf' & Hp & Hl' & _ & Hsend); try done;
    [apply cs_ip0|by left|by apply (room_le 1 3); [lia|]|].
  rewrite Hsend, cs_nic0. cbn [mbind option_bind]. set (s1 := bumped tx_frames _).
  assert (room 2 s1) as Hrm by (by apply (room_bumped 3 _ (st k))).
  destruct (bump_room arp_requests_sent 2 s1 ltac:(lia) Hrm) as [-> _]. cbn [mbind option_bind].
  pose proof (Pool.write_buffer_wf p1 i buf' Hwf1 Hl') as Hwf2. pose proof (Pool.wf_books _ cs_pool0).
  destruct (Pool.give_spec (Pool.write_buffer p1 i buf') i Hwf2) as (p2 & b & Hg & Hwf3 & _ & Hb); [cbn; lia|].
  rewrite Hg. cbn [mbind option_bind]. eexists _, frame, {| eth_dst := BROADCAST; eth_src := mac s0; ethertype := ETHERTYPE_ARP; eth_payload := drop 14 frame |}.
  split_and!; [done|done| |done|exact Hp].
  destruct b; [|by destruct Hb]. destruct Hb as (_ & _ & Hu & _). change (Pool.in_use (Pool.write_buffer p1 i buf')) with (Pool.in_use p1) in Hu. cbn. lia.
Qed.

(** An unknown neighbour is found by one exchange.  The machine that wants an address
    broadcasts one request; the machine that has the address learns the asker's hardware
    address from it and answers with one frame; and once that answer is handled, resolving the
    address gives the neighbour's hardware address. *)
Theorem arp_exchange_resolves (nicA nicB : Nic) (A : Stack) (B : Stack) ip m now nowB now2 buf rB txA rA :
  can_send nicA A → wf_state (st A) → room 8 (st A) → listens (st B) m (next_hop (st A) ip) → length m = 6%nat →
  (∀ sent frame, nic_takes nicB sent frame = true) → length buf = FRAME_MAX →
  ArpCache.lookup_arp (arp (st A)) (next_hop (st A) ip) now = None → due (st A) (next_hop (st A) ip) now = true →
  0 ≤ nowB < u64_MAX → 0 ≤ now2 < u64_MAX → 0 < ArpCache.c_ttl (arp (st A)) → 0 < ArpCache.c_ttl (arp (st B)) →
  ∃ A1 f1 B1 buf1 f2 A2 A3, resolve nicA ip now A = Some (A1, None) ∧ sent (st A1) = sent (st A) ++ [f1] ∧
    handle nicB f1 (Some buf) rB nowB (st B) = Some (B1, Some buf1, rB, None) ∧ sent B1 = sent (st B) ++ [f2] ∧
    ArpCache.lookup_arp (arp B1) (ip_ (config (st A))) nowB = Some (nic_mac nicA) ∧
    handle nicA f2 txA rA now2 (st A1) = Some (A2, txA, rA, None) ∧
    resolve nicA ip now2 (with_st A2 A1) = Some (A3, Some m).
Proof.
  intros HA HwfA HrA HB Hm HnicB Hbuf Hmiss Hdue HnB Hn2 HtA HtB. pose proof HB as [Hmac Hb HwfB HrB].
  pose proof HA as [_ _ _ _ HmacA HmbA HipA _]. set (hop := next_hop (st A) ip) in *.
  assert (length hop = 4%nat) as Hhop by (rewrite <-Hb; apply HwfB).
  destruct (resolve_asks nicA A ip now) as (A1 & f1 & eth1 & Hres & HstA & _ & E1 & Hp1); try done. fold hop in HstA, Hp1.
  (* the neighbour *)
  set (sB := bumped rx_frames (st B)). assert (wf_state sB) as HwfsB by (by destruct HwfB).
  assert (room 4 sB) as HrsB by (by apply (room_bumped 5 _ (st B))).
  destruct (ArpCache.arp_cache_is_a_map (arp sB) (ip_ (config (st A))) (nic_mac nicA) nowB) as (cB & HinsB & HwfcB & HlookB); [apply HwfsB|done|done|].
  set (sB1 := set_arp cB sB). assert (wf_state sB1) as HwfB1.
  { pose proof (insert_mac_ok _ _ _ _ _ (sw_macs _ HwfsB) (conj HmacA HmbA) HinsB). destruct HwfsB. by split. }
  set (reply := {| operation := ARP_REPLY; sender_mac := mac sB1; sender_ip := ip_ (config sB1); target_mac := nic_mac nicA; target_ip := ip_ (config (st A)) |}).
  destruct (send_arp_spec nicB buf (nic_mac nicA) reply sB1) as (f2 & buf2 & Hp2 & Hl2 & _ & Hsend2); try done;
    [apply HwfB1|apply HwfB1|apply HwfB1|apply HipA|by right|by apply (room_le 1 4); [lia|]|]. rewrite HnicB in Hsend2.
  set (sB2 := bumped tx_frames _) in Hsend2. assert (room 3 sB2) as HrB2 by (by apply (room_bumped 4 _ sB)).
  destruct (bump_room arp_replies_sent 3 sB2 ltac:(lia) HrB2) as [HbB _].
  (* the answer *)
  assert (wf_state (st A1)) as HwfA1 by (rewrite HstA; destruct HwfA; by split).
  assert (room 5 (st A1)) as HrA1.
  { rewrite HstA. apply (room_le 5 (8 - 1 - 1)); [lia|]. apply (room_bumped (8 - 1) arp_requests_sent _ _ eq_refl). by apply (room_bumped 8 _ (st A)). }
  assert (listens (st A1) (nic_mac nicA) (ip_ (config (st A)))) as HL by (split; [by rewrite HstA..|done|done]).
  set (sA := bumped rx_frames (st A1)). assert (arp sA = arp (st A)) as EarpA by (unfold sA; cbn; by rewrite HstA).
  destruct (ArpCache.arp_cache_is_a_map (arp sA) hop m now2) as (cA & HinsA & HwfcA & HlookA); [rewrite EarpA; apply HwfA|done|by rewrite EarpA|].
  set (sA1 := set_arp cA sA). assert (room 4 sA1) as HrA2 by (by apply (room_bumped 5 _ (st A1))).
  destruct (bump_room arp_learned 4 sA1 ltac:(lia) HrA2) as [HbA _].
  eexists A1, f1, (bumped arp_replies_sent sB2), buf2, f2, (bumped arp_learned sA1), _. split_and!; [done|by rewrite HstA|..].
  - rewrite (handle_addressed nicB f1 (Some buf) rB nowB (st B) m hop eth1 _ HB Hp1) by (done || by right). fold sB.
    cbn [handle_other]. unfold handle_arp. cbn [target_ip sender_ip sender_mac operation]. change (ip_ (config sB)) with (ip_ (config (st B))).
    rewrite Hb, bool_decide_eq_true_2 by done. cbn [negb]. rewrite HinsB. cbn [mbind option_bind]. change (ARP_REQUEST =? ARP_REPLY) with false. cbv iota zeta.
    fold sB1. change (config sB1) with (config (st B)) in reply. rewrite <-Hb in *. unfold reply in Hsend2.
    change (ip_ (config sB1)) with (ip_ (config (st B))) in Hsend2. change (config sB1) with (config (st B)). rewrite Hsend2. cbn [mbind option_bind]. by rewrite HbB.
  - done.
  - exact HlookB.
  - rewrite (handle_addressed nicA f2 txA rA now2 (st A1) _ _ _ _ HL Hp2) by (done || by left). fold sA.
    cbn [handle_other]. unfold handle_arp, reply. cbn [target_ip sender_ip sender_mac operation].
    assert (ip_ (config sA) = ip_ (config (st A))) as -> by (unfold sA; cbn; by rewrite HstA).
    rewrite bool_decide_eq_true_2 by done. cbn [negb]. change (mac sB1) with (mac (st B)). change (ip_ (config sB1)) with (ip_ (config (st B))).
    rewrite Hmac, Hb, HinsA. cbn [mbind option_bind]. change (ARP_REPLY =? ARP_REPLY) with true. cbv iota. fold sA1. by rewrite HbA.
  - unfold resolve. cbn [st with_st arp set_mac bumped set_counters sA1 set_arp].
    assert (next_hop (set_mac (nic_mac nicA) (bumped arp_learned sA1)) ip = hop) as E.
    { unfold hop, next_hop, sA1, sA. cbn. by rewrite HstA. }
    change (set_mac (nic_mac nicA) (set_counters _ (set_arp cA sA))) with (set_mac (nic_mac nicA) (bumped arp_learned sA1)).
    rewrite E, HlookA. done.
Qed.


(** ** Examples *)

(** Two machines on one link, the first knowing the second's hardware address or not. *)
Definition example_nic (m : Mac) : Nic := {| nic_mac := m; nic_takes := λ _ _, true |}.
Definition mac_A : Mac := [2; 0; 0; 0; 0; 1].
Definition mac_B : Mac := [2; 0; 0; 0; 0; 2].
Definition ip_A : Ipv4Addr := [10; 0; 0; 1].
Definition ip_B : Ipv4Addr := [10; 0; 0; 2].
Definition example_config (a : Ipv4Addr) : Config := {| ip_ := a; netmask := [255; 255; 255; 0]; gateway := [10; 0; 0; 254] |}.
Definition cache_A : ArpCache.Cache := {|
  ArpCache.c_entries := Some {| ArpCache.e_ip := ip_B; ArpCache.e_mac := mac_B; ArpCache.e_expires := 100 |} :: replicate 7 None;
  ArpCache.c_ttl := ArpCache.TTL_NS |}.
Definition stack_A : Stack := with_arp (example_config ip_A) cache_A.
Definition fresh_A : Stack := with_arp (example_config ip_A) ArpCache.new.
Definition stack_B : Stack :=
  let k := with_arp (example_config ip_B) ArpCache.new in with_st (set_mac mac_B (st k)) k.

(** Concrete addresses are made of bytes. *)
Ltac concrete_bytes := repeat constructor; unfold u_max; lia.

Lemma example_can_send cache : can_send (example_nic mac_A) (with_arp (example_config ip_A) cache).
Proof.
  split; cbn [pool st with_arp config].
  - apply Pool.pool_new_wf.
  - unfold Pool.in_use. cbn [Pool.new Pool.p_held]. rewrite count_if_replicate. unfold Pool.BUFFERS, Pool.CONNECTIONS. lia.
  - cbn. unfold u_max. lia.
  - done.
  - done.
  - concrete_bytes.
  - split; [done|]. concrete_bytes.
  - intros c. cbn. unfold u_max. lia.
Qed.

Lemma example_wf cache a m : addr_ok a → mac_ok m → ArpCache.wf cache → macs_ok cache → wf_state (set_mac m (st (with_arp (example_config a) cache))).
Proof. intros Ha [Hm Hmb] Hc Hcm. split; cbn [config mac arp replies next_reply inbox with_arp st set_mac example_config ip_]; try done. unfold REPLIES. lia. Qed.

Lemma stack_B_listens : listens (st stack_B) mac_B ip_B.
Proof.
  split; [done|done| |intros c; cbn; unfold u_max; lia].
  apply example_wf; [split; [done|]; concrete_bytes|split; [done|]; concrete_bytes|apply ArpCache.arp_new_wf|by apply Forall_replicate].
Qed.

Lemma wf_state_A cache : ArpCache.wf cache → macs_ok cache → wf_state (st (with_arp (example_config ip_A) cache)).
Proof. intros Hc Hm. apply (example_wf cache ip_A (replicate 6 0)); [split; [done|]; concrete_bytes|split; [done|]; concrete_bytes|done|done]. Qed.

Lemma cache_A_wf : ArpCache.wf cache_A.
Proof. split; [done|]. cbn. apply NoDup_singleton. Qed.
Lemma cache_A_macs : macs_ok cache_A.
Proof. constructor; [|by apply Forall_replicate]. intros e [= <-]. split; [done|]. cbn. concrete_bytes. Qed.


Lemma ping_is_answered_witness :
  ∃ A1 f1 B1 buf1 f2 A2, ping (example_nic mac_A) ip_B 9 1 5 stack_A = Some (A1, Ok tt) ∧ sent (st A1) = [f1] ∧
    handle (example_nic mac_B) f1 (Some (replicate FRAME_MAX 0)) (reasm stack_B) 5 (st stack_B) = Some (B1, Some buf1, reasm stack_B, None) ∧
    sent B1 = [f2] ∧
    handle (example_nic mac_A) f2 None (reasm stack_A) 6 (st A1) = Some (A2, None, reasm stack_A, None) ∧
    (take_echo_reply 9 1 (with_st A2 A1)).2 = Some ip_B.
Proof.
  destruct (ping_is_answered (example_nic mac_A) (example_nic mac_B) stack_A stack_B mac_B ip_B 9 1 5 5 6
    (replicate FRAME_MAX 0) (reasm stack_B) None (reasm stack_A)) as (A1 & f1 & B1 & buf1 & f2 & A2 & H1 & H2 & H3 & H4 & H5 & H6).
  - apply example_can_send.
  - apply wf_state_A; [apply cache_A_wf|apply cache_A_macs].
  - intros c. cbn. unfold u_max. lia.
  - apply stack_B_listens.
  - done.
  - done.
  - apply length_replicate.
  - unfold in_u, u_max. lia.
  - unfold in_u, u_max. lia.
  - reflexivity.
  - intros i from Hi. change (replicate REPLIES None !! i = Some (Some (9, 1, from))) in Hi. apply lookup_replicate in Hi as [? _]. done.
  - exists A1, f1, B1, buf1, f2, A2. split_and!; assumption.
Defined.

Lemma arp_exchange_resolves_witness :
  ∃ A1 f1 B1 buf1 f2 A2 A3, resolve (example_nic mac_A) ip_B 5 fresh_A = Some (A1, None) ∧ sent (st A1) = [f1] ∧
    handle (example_nic mac_B) f1 (Some (replicate FRAME_MAX 0)) (reasm stack_B) 5 (st stack_B) = Some (B1, Some buf1, reasm stack_B, None) ∧
    sent B1 = [f2] ∧
    handle (example_nic mac_A) f2 None (reasm fresh_A) 6 (st A1) = Some (A2, None, reasm fresh_A, None) ∧
    resolve (example_nic mac_A) ip_B 6 (with_st A2 A1) = Some (A3, Some mac_B).
Proof.
  destruct (arp_exchange_resolves (example_nic mac_A) (example_nic mac_B) fresh_A stack_B ip_B mac_B 5 5 6
    (replicate FRAME_MAX 0) (reasm stack_B) None (reasm fresh_A)) as (A1 & f1 & B1 & buf1 & f2 & A2 & A3 & H1 & H2 & H3 & H4 & _ & H5 & H6).
  - apply example_can_send.
  - apply wf_state_A; [apply ArpCache.arp_new_wf|by apply Forall_replicate].
  - intros c. cbn. unfold u_max. lia.
  - exact stack_B_listens.
  - done.
  - done.
  - apply length_replicate.
  - done.
  - done.
  - unfold u_max. lia.
  - unfold u_max. lia.
  - cbn. unfold ArpCache.TTL_NS. lia.
  - cbn. unfold ArpCache.TTL_NS. lia.
  - exists A1, f1, B1, buf1, f2, A2, A3. split_and!; assumption.
Defined.

(** ** The order of the inbox

    [udp_recv] promises the oldest datagram for the port.  It gives the one in the lowest slot,
    and a datagram takes the lowest free slot: after a receive frees a slot, the next arrival
    overtakes those that were waiting. *)
Definition example_datagram (b : Z) : Udp := {| udp_src_port := 4000; udp_dst_port := 7; udp_payload := [b] |}.

Theorem udp_recv_is_not_oldest_first :
  ∃ s2 s3, (s ← take_datagram ip_A (example_datagram 1) (st stack_B); take_datagram ip_A (example_datagram 2) s) = Some s2 ∧
    let '(k1, first) := udp_recv_from 7 10 (with_st s2 stack_B) in
    take_datagram ip_A (example_datagram 3) (st k1) = Some s3 ∧
    first = Some (ip_A, 4000, [1], 1%nat) ∧ (udp_recv_from 7 10 (with_st s3 k1)).2 = Some (ip_A, 4000, [3], 1%nat).
Proof. eexists _, _. split; [reflexivity|]. cbv [udp_recv_from]. split; [reflexivity|]. split; reflexivity. Qed.

(** The slots for refused ports are said to forget a refusal nobody collects when they fill.
    They keep the old ones, and it is the new refusal that is lost. *)
Theorem full_refusals_drop_the_new (nic : Nic) eth ip u tx now (s : State) :
  room 1 s → ip_dst ip = ip_ (config s) → (∀ i, refused s !! i ≠ Some None) →
  ∃ s', handle_other nic eth (FUnreachable ip u) tx now s = Some (s', tx) ∧ refused s' = refused s.
Proof.
  intros Hr Hip Hfull. cbn [handle_other]. rewrite bool_decide_eq_true_2 by done. cbn [negb].
  destruct (bump_room unreachable_received 1 s ltac:(lia) Hr) as [-> _]. cbn [mbind option_bind].
  destruct (position Reasm.is_none (refused (bumped unreachable_received s))) as [i|] eqn:E.
  - apply position_lookup in E as (x & Hx & Hn). destruct x; [done|]. by edestruct Hfull.
  - eexists. split; [done|]. by destruct (_ && _).
Qed.

End NetStack.
