(* ===== verification/NetStackTcp.v ===== *)
(** * The network stack: polling and connections

    [kernel/net/src/stack.rs], the part that drives TCP: [poll], which receives and handles what
    the device has, runs the timers and flushes; [tcp_flush] and [send_segment], which put what
    the connections have to send on the wire; and the [tcp_] calls of a program.  Here the parts
    of the stack come together: the device, the pool, the reassembler, the ARP cache, the wire
    formats and the connections.

    [arrived] is what the device has waiting: [Nic::recv] copies the first of it into the buffer
    and answers its length. *)

From S2P Require Import Prelude NetWire NetReasm NetLink NetTcp NetTcpSeq NetTcpSend NetTcpRobust NetTcpTable NetTcpTyped NetStack.
Import Wire NetStack.
Local Open Scope Z_scope.

Module StackTcp.

Definition FRAMES_PER_POLL : nat := 16.
Definition SEGMENTS_PER_FLUSH : nat := 8.

(** ** Sending *)

(** The body of a segment with data: the payload from the ring, then the header. *)
Definition write_data (src dst : Ipv4Addr) (h : TcpHeader) (ring : Bytes) (at_ len : Z) (p : Bytes) : option (Bytes * result nat WireError) :=
  let start := tcp_header_len h in
  match get_range p start (Z.to_nat len) with
  | None => Some (p, Err TooLarge)
  | Some _ =>
      payload ← NetTcp.ring_read ring at_ len;
      p ← put p start payload;
      write_tcp_header p src dst h (Z.to_nat len)
  end.

Definition send_segment (nic : Nic) (seg : NetTcp.Segment) (now : Z) (k : Stack) : option (Stack * bool) :=
  '(k, m) ← resolve nic (NetTcp.sg_remote_ip seg) now k;
  match m with
  | None => Some (k, false)
  | Some m =>
      '(p, tx) ← Pool.take (pool k);
      match tx with
      | None => s ← bump no_buffer (st k); Some ({| pool := p; reasm := reasm k; st := s |}, false)
      | Some tx =>
          let src := ip_ (config (st k)) in
          let dst := NetTcp.sg_remote_ip seg in
          let h := NetTcp.sg_header seg in
          '(s, p, ok) ←
            match NetTcp.sg_data seg with
            | Some (ring, at_, len) =>
                two ← match ring with Some ring => Pool.pair p tx ring | None => Some None end;
                match two with
                | Some (buf, ring) =>
                    '(s, buf, r) ← send_ip nic buf m dst PROTO_TCP (write_data src dst h ring at_ len) (st k);
                    Some (s, Pool.write_buffer p tx buf, is_ok r)
                | None => Some (st k, p, false)
                end
            | None =>
                match Pool.buffer p tx with
                | Some buf =>
                    '(s, buf, r) ← send_ip nic buf m dst PROTO_TCP (λ q, write_tcp q src dst h []) (st k);
                    Some (s, Pool.write_buffer p tx buf, is_ok r)
                | None => Some (st k, p, false)
                end
            end;
          '(p, _) ← Pool.give p tx;
          s ← (if (ok : bool) then t ← NetTcp.sent_one (tcp s); Some (set_tcp t s) else Some s);
          Some ({| pool := p; reasm := reasm k; st := s |}, ok)
      end
  end.

Definition with_tcp (t : NetTcp.Tcp) (p : Pool.Pool) (k : Stack) : Stack := {| pool := p; reasm := reasm k; st := set_tcp t (st k) |}.

(** The waiting SYNs: every turn takes one, so a turn more than there are slots is enough. *)
Fixpoint open_waiting (fuel : nat) (now : Z) (k : Stack) : option Stack :=
  match fuel with
  | O => None
  | S fuel =>
      let '(t, syn) := NetTcp.take_syn (tcp (st k)) in
      match syn with
      | None => Some (with_tcp t (pool k) k)
      | Some syn => '(t, p, _) ← NetTcp.open_passive t (pool k) syn now; open_waiting fuel now (with_tcp t p k)
      end
  end.

(** At most [n] segments of the connection in slot [i]. *)
Fixpoint send_some (n i : nat) (nic : Nic) (now : Z) (k : Stack) : option Stack :=
  match n with
  | O => Some k
  | S n =>
      '(t, seg) ← NetTcp.next_segment (tcp (st k)) i now;
      let k := with_tcp t (pool k) k in
      match seg with
      | None => Some k
      | Some seg => '(k, _) ← send_segment nic seg now k; send_some n i nic now k
      end
  end.

Fixpoint send_each (l : list nat) (nic : Nic) (now : Z) (k : Stack) : option Stack :=
  match l with [] => Some k | i :: l => k ← send_some SEGMENTS_PER_FLUSH i nic now k; send_each l nic now k end.

(** The resets owed: as with the SYNs, every turn takes one. *)
Fixpoint send_resets (fuel : nat) (nic : Nic) (now : Z) (k : Stack) : option Stack :=
  match fuel with
  | O => None
  | S fuel =>
      '(t, seg) ← NetTcp.take_reset (tcp (st k));
      let k := with_tcp t (pool k) k in
      match seg with
      | None => Some k
      | Some seg => '(k, _) ← send_segment nic seg now k; send_resets fuel nic now k
      end
  end.

Definition tcp_flush (nic : Nic) (now : Z) (k : Stack) : option Stack :=
  k ← open_waiting (S NetTcp.BACKLOG) now k;
  k ← send_each (seq 0 NetTcp.CONNECTIONS) nic now k;
  k ← send_resets (S NetTcp.RESETS) nic now k;
  '(t, p) ← NetTcp.reap (tcp (st k)) (pool k);
  Some (with_tcp t p k).

(** ** Receiving *)

Definition deliver (rx : nat) (d : NetTcp.Deliver) (p : Pool.Pool) : option Pool.Pool :=
  two ← match NetTcp.dl_ring d with Some ring => Pool.pair p rx ring | None => Some None end;
  match two, NetTcp.dl_ring d with
  | Some (frame, ring), Some i =>
      _ ← NetTcp.usize_add (NetTcp.dl_from d) (NetTcp.dl_len d);
      match get_range frame (Z.to_nat (NetTcp.dl_from d)) (Z.to_nat (NetTcp.dl_len d)) with
      | Some payload => ring ← NetTcp.ring_write ring (NetTcp.dl_at d) payload; Some (Pool.write_buffer p i ring)
      | None => Some p
      end
  | _, _ => Some p
  end.

(** [Nic::recv] with a frame waiting. *)
Definition receive (frame buf : Bytes) : Bytes := take (length buf) frame ++ drop (length frame) buf.

(** The buffers a frame is received into and answered in. *)
Definition poll_buffers (p : Pool.Pool) (rx : nat) (tx : option nat) : option (option (Bytes * option Bytes)) :=
  two ← match tx with Some tx => Pool.pair p rx tx | None => Some None end;
  Some (match two with
        | Some (rx_buf, tx_buf) => Some (rx_buf, Some tx_buf)
        | None => match Pool.buffer p rx with Some rx_buf => Some (rx_buf, None) | None => None end
        end).

Definition give_back (p : Pool.Pool) (i : option nat) : option Pool.Pool :=
  match i with Some i => '(p, _) ← Pool.give p i; Some p | None => Some p end.

(** A frame received into buffer [rx] and handled; [None] at the end when there is none. *)
Definition take_frame (nic : Nic) (now : Z) (arrived : list Bytes) (rx : nat) (tx : option nat) (p : Pool.Pool) (k : Stack) :
    option (Pool.Pool * Reasm.Reassembler * State * list Bytes * option (option NetTcp.Deliver)) :=
  bufs ← poll_buffers p rx tx;
  match bufs, arrived with
  | Some (rx_buf, tx_buf), f :: arrived =>
      let rx_buf := receive f rx_buf in
      '(s, tx_buf, r, d) ← handle nic (take (length f) rx_buf) tx_buf (reasm k) now (st k);
      let p := Pool.write_buffer p rx rx_buf in
      let p := match tx, tx_buf with Some tx, Some b => Pool.write_buffer p tx b | _, _ => p end in
      Some (p, r, s, arrived, Some d)
  | _, _ => Some (p, reasm k, st k, arrived, None)
  end.

(** One turn of [poll]'s loop; the flag is false when it breaks. *)
Definition poll_one (nic : Nic) (now : Z) (arrived : list Bytes) (k : Stack) : option (Stack * list Bytes * bool) :=
  '(p, rx) ← Pool.take (pool k);
  match rx with
  | None => s ← bump no_buffer (st k); Some ({| pool := p; reasm := reasm k; st := s |}, arrived, false)
  | Some rx =>
      '(p, tx) ← Pool.take p;
      '(p, r, s, arrived, got) ← take_frame nic now arrived rx tx p k;
      p ← match got with Some (Some d) => deliver rx d p | _ => Some p end;
      p ← give_back p tx;
      p ← give_back p (Some rx);
      Some ({| pool := p; reasm := r; st := s |}, arrived, match got with Some _ => true | None => false end)
  end.

Fixpoint poll_loop (n : nat) (nic : Nic) (now : Z) (arrived : list Bytes) (k : Stack) : option (Stack * list Bytes * nat) :=
  match n with
  | O => Some (k, arrived, 0%nat)
  | S n =>
      '(k, arrived, more) ← poll_one nic now arrived k;
      if (more : bool) then '(k, arrived, handled) ← poll_loop n nic now arrived k; Some (k, arrived, S handled)
      else Some (k, arrived, 0%nat)
  end.

Definition poll (nic : Nic) (arrived : list Bytes) (now : Z) (k : Stack) : option (Stack * list Bytes * nat) :=
  let s := set_mac (nic_mac nic) (st k) in
  t ← NetTcp.timers (tcp s) now;
  let s := set_tcp t s in
  let '(r, given_up) := Reasm.expire (reasm k) now in
  n ← checked_add 64 (counters s reassembly_timeouts) (Z.of_nat given_up);
  let s := set_counters (λ c, if decide (c = reassembly_timeouts) then n else counters s c) s in
  '(k, arrived, handled) ← poll_loop FRAMES_PER_POLL nic now arrived {| pool := pool k; reasm := r; st := s |};
  k ← tcp_flush nic now k;
  Some (k, arrived, handled).

(** ** What a program asks of its connections *)

(** A call that goes through is followed by a flush. *)
Definition flushed {A} (nic : Nic) (now : Z) (k : Stack) (r : result A NetTcp.TcpError) : option (Stack * result A NetTcp.TcpError) :=
  match r with Ok a => k ← tcp_flush nic now k; Some (k, Ok a) | Err e => Some (k, Err e) end.

Definition learn_mac (nic : Nic) (k : Stack) : Stack := with_st (set_mac (nic_mac nic) (st k)) k.

Definition tcp_connect (nic : Nic) (dst : Ipv4Addr) (port now : Z) (k : Stack) : option (Stack * result NetTcp.Conn NetTcp.TcpError) :=
  let k := learn_mac nic k in
  '(t, p, r) ← NetTcp.connect (tcp (st k)) (pool k) dst port now;
  flushed nic now (with_tcp t p k) r.

Definition tcp_listen (port : Z) (k : Stack) : option (Stack * result NetTcp.Conn NetTcp.TcpError) :=
  '(t, r) ← NetTcp.listen (tcp (st k)) port; Some (with_tcp t (pool k) k, r).

Definition tcp_pending (l : NetTcp.Conn) (k : Stack) : bool := NetTcp.pending (tcp (st k)) l.

Definition tcp_accept (l : NetTcp.Conn) (k : Stack) : Stack * result NetTcp.Conn NetTcp.TcpError :=
  let '(t, r) := NetTcp.accept (tcp (st k)) l in (with_tcp t (pool k) k, r).

Definition tcp_send (nic : Nic) (c : NetTcp.Conn) (data : Bytes) (now : Z) (k : Stack) : option (Stack * result Z NetTcp.TcpError) :=
  let k := learn_mac nic k in
  '(t, p, r) ← NetTcp.send (tcp (st k)) (pool k) c data;
  flushed nic now (with_tcp t p k) r.

Definition tcp_recv (nic : Nic) (c : NetTcp.Conn) (room now : Z) (k : Stack) : option (Stack * result Bytes NetTcp.TcpError) :=
  let k := learn_mac nic k in
  '(t, r) ← NetTcp.recv (tcp (st k)) (pool k) c room;
  flushed nic now (with_tcp t (pool k) k) r.

Definition tcp_peek (c : NetTcp.Conn) (room : Z) (k : Stack) : option (result Bytes NetTcp.TcpError) := NetTcp.peek (tcp (st k)) (pool k) c room.

Definition tcp_shutdown (nic : Nic) (c : NetTcp.Conn) (now : Z) (k : Stack) : option (Stack * result unit NetTcp.TcpError) :=
  let k := learn_mac nic k in
  let '(t, r) := NetTcp.shutdown (tcp (st k)) c in
  flushed nic now (with_tcp t (pool k) k) r.

Definition tcp_close (nic : Nic) (c : NetTcp.Conn) (now : Z) (k : Stack) : option (Stack * result unit NetTcp.TcpError) :=
  let k := learn_mac nic k in
  let '(t, r) := NetTcp.close (tcp (st k)) c in
  flushed nic now (with_tcp t (pool k) k) r.

Definition tcp_abort (nic : Nic) (c : NetTcp.Conn) (now : Z) (k : Stack) : option (Stack * result unit NetTcp.TcpError) :=
  let k := learn_mac nic k in
  let '(t, r) := NetTcp.abort (tcp (st k)) c in
  flushed nic now (with_tcp t (pool k) k) r.

Definition tcp_status (c : NetTcp.Conn) (k : Stack) : option (option NetTcp.Status) := NetTcp.status (tcp (st k)) c.
Definition tcp_rings_held (k : Stack) : nat := NetTcp.rings_held (tcp (st k)).
Definition tcp_slots_in_use (k : Stack) : nat := NetTcp.slots_in_use (tcp (st k)).
Definition tcp_counters (k : Stack) : NetTcp.Counters := NetTcp.counters (tcp (st k)).
Definition tcp_endpoints (c : NetTcp.Conn) (k : Stack) : option (Z * Ipv4Addr * Z) := NetTcp.endpoints (tcp (st k)) c.
Definition tcp_listening (port : Z) (k : Stack) : bool := NetTcp.listening (tcp (st k)) port.
Definition tcp_next_deadline (k : Stack) : option Z := NetTcp.next_deadline (tcp (st k)).

Definition forget (ip : Ipv4Addr) (k : Stack) : Stack := with_st (set_arp (ArpCache.forget (arp (st k)) ip) (st k)) k.

Definition books_consistent (k : Stack) : bool :=
  let '(taken, returned) := Pool.books (pool k) in
  (Pool.in_use (pool k) =? tcp_rings_held k)%nat &&
  match checked_sub taken returned with Some n => n =? Z.of_nat (Pool.in_use (pool k)) | None => false end.


(** ** Facts of the pieces *)

Lemma put_bytes b at_ src b' : bytes b → bytes src → put b at_ src = Some b' → bytes b'.
Proof. unfold put. intros Hb Hs. case_match; [|done]. intros [= <-]. rewrite !Forall_app. split_and!; [by apply Forall_take|done|by apply Forall_drop]. Qed.

Lemma ring_read_bytes ring at_ n b : bytes ring → NetTcp.ring_read ring at_ n = Some b → bytes b.
Proof.
  intros Hr (x & Hx & (y & Hy & [= <-])%bind_Some)%bind_Some. apply Forall_app. split; by eapply get_range_bytes.
Qed.

Lemma ring_write_bytes ring at_ data b : bytes ring → bytes data → NetTcp.ring_write ring at_ data = Some b → bytes b.
Proof.
  intros Hr Hd (x & Hx & Hy)%bind_Some. eapply put_bytes; [|by apply Forall_drop, Forall_take|exact Hy].
  eapply put_bytes; [exact Hr|by apply Forall_take, Forall_take|exact Hx].
Qed.

(** Every buffer of the pool holds bytes. *)
Definition pool_bytes (p : Pool.Pool) : Prop := Forall bytes (Pool.p_buffers p).

Lemma buffer_bytes p i b : pool_bytes p → Pool.buffer p i = Some b → bytes b.
Proof. intros Hp (h & _ & Hb)%bind_Some. destruct h; [|done]. by eapply (Forall_lookup_1 _ _ _ _ Hp). Qed.

Lemma write_buffer_bytes p i b : pool_bytes p → bytes b → pool_bytes (Pool.write_buffer p i b).
Proof. intros Hp Hb. by apply Forall_insert. Qed.

Lemma take_buffers p : TcpTyped.opt (λ x, Pool.p_buffers x.1 = Pool.p_buffers p) (Pool.take p).
Proof. unfold Pool.take. destruct (position _ _); [|done]. apply TcpTyped.opt_bind. by intros. Qed.

Lemma give_buffers p i : TcpTyped.opt (λ x, Pool.p_buffers x.1 = Pool.p_buffers p) (Pool.give p i).
Proof. unfold Pool.give. destruct (_ !! _) as [[]|]; [|done..]. apply TcpTyped.opt_bind. by intros. Qed.

Lemma take_two_buffers p : TcpTyped.opt (λ x, Pool.p_buffers x.1 = Pool.p_buffers p) (NetTcp.take_two p).
Proof.
  unfold NetTcp.take_two. eapply TcpTyped.opt_then; [apply take_buffers|]. intros [p1 [a|]] E1; [|done]. cbn in E1.
  eapply TcpTyped.opt_then; [apply take_buffers|]. intros [p2 [b|]] E2; cbn in E2 |- *; [congruence|].
  eapply TcpTyped.opt_then; [apply give_buffers|]. intros [p3 ?] E3. cbn in *. congruence.
Qed.

Lemma connect_buffers s p ip port now : TcpTyped.opt (λ x, Pool.p_buffers x.1.2 = Pool.p_buffers p) (NetTcp.connect s p ip port now).
Proof.
  unfold NetTcp.connect. destruct (NetTcp.slot s) as [s1 [i|]]; [|done]. destruct (NetTcp.ephemeral s1 now) as [s2 [port'|]]; [|done].
  eapply TcpTyped.opt_then; [apply take_two_buffers|]. intros [p' [[r x]|]] E; [|done]. apply TcpTyped.opt_bind. intros s3 _. apply TcpTyped.opt_bind. intros [s4 c] _. exact E.
Qed.

Lemma open_passive_buffers s p y now : TcpTyped.opt (λ x, Pool.p_buffers x.1.2 = Pool.p_buffers p) (NetTcp.open_passive s p y now).
Proof.
  unfold NetTcp.open_passive. assert (∀ s p', Pool.p_buffers p' = Pool.p_buffers p → TcpTyped.opt (λ x, Pool.p_buffers x.1.2 = Pool.p_buffers p) (s ← NetTcp.count NetTcp.syns_refused s; Some (s, p', false))) as Href.
  { intros s' p' E. apply TcpTyped.opt_bind. intros. exact E. }
  destruct (_ || _); [by apply Href|]. destruct (NetTcp.slot s) as [s1 [i|]]; [|by apply Href].
  eapply TcpTyped.opt_then; [apply take_two_buffers|]. intros [p' [[r x]|]] E; [|by apply Href]. apply TcpTyped.opt_bind. intros [s3 c] _. exact E.
Qed.

Lemma reap_buffers s p : TcpTyped.opt (λ x, Pool.p_buffers x.2 = Pool.p_buffers p) (NetTcp.reap s p).
Proof.
  assert (∀ p r, TcpTyped.opt (λ x, Pool.p_buffers x.1 = Pool.p_buffers p) (NetTcp.give_ring p r)) as Hring.
  { intros q r. unfold NetTcp.give_ring. destruct (NetTcp.buf r); [|done]. eapply TcpTyped.opt_then; [apply give_buffers|]. by intros [? ?]. }
  assert (∀ p t, TcpTyped.opt (λ x, Pool.p_buffers x.1 = Pool.p_buffers p) (NetTcp.reap_tcb p t)) as Htcb.
  { intros q t. unfold NetTcp.reap_tcb. destruct (negb _); [done|]. eapply TcpTyped.opt_then; [apply Hring|]. intros [q1 r] E1. cbn in E1.
    eapply TcpTyped.opt_then; [apply Hring|]. intros [q2 x] E2. cbn in E2. cbn. congruence. }
  assert (∀ l p, TcpTyped.opt (λ x, Pool.p_buffers x.1 = Pool.p_buffers p) (NetTcp.reap_all p l)) as Hall.
  { induction l as [|t l IH]; intros q; cbn [NetTcp.reap_all]; [done|]. eapply TcpTyped.opt_then; [apply Htcb|]. intros [q1 t1] E1. cbn in E1.
    eapply TcpTyped.opt_then; [apply IH|]. intros [q2 l2] E2. cbn in *. congruence. }
  unfold NetTcp.reap. eapply TcpTyped.opt_then; [apply Hall|]. intros [p1 l1] E1. exact E1.
Qed.

Lemma send_buffers s p c data : pool_bytes p → bytes data → TcpTyped.opt (λ x, pool_bytes x.1.2) (NetTcp.send s p c data).
Proof.
  intros Hp Hd. unfold NetTcp.send. destruct (NetTcp.get s c) as [t|]; [|done].
  apply (TcpTyped.opt_then (λ x, TcpTyped.opt bytes x.1.2)).
  - unfold NetTcp.tcb_send. destruct (NetTcp.error t); [done|]. destruct (_ && _); [|by repeat case_match]. apply TcpTyped.opt_bind. intros free _. cbv zeta.
    destruct (_ =? 0); [done|]. destruct (NetTcp.ring_bytes p (NetTcp.tx t)) as [ring|] eqn:E; [|done]. apply TcpTyped.opt_bind. intros a _.
    apply bind_Some in E as (i & _ & E). apply TcpTyped.opt_bind. intros ring' Er. apply TcpTyped.opt_bind. intros l _. cbn.
    eapply ring_write_bytes; [by eapply buffer_bytes|by apply Forall_take|exact Er].
  - intros [[t1 b] r] Hb. cbn in Hb |- *. unfold NetTcp.write_back. destruct (NetTcp.buf _), b; try done. by apply write_buffer_bytes.
Qed.


(** ** The invariant of the stack *)

(** The connections and the pool: nothing but the rings is held. *)
Record tables_ok (b : Z) (t : NetTcp.Tcp) (p : Pool.Pool) : Prop := {
  to_table : TcpTable.table_wf b t p;
  to_typed : TcpTyped.table_typed t;
  to_bytes : pool_bytes p;
  to_rings : Pool.in_use p = length (TcpTable.rings (NetTcp.tcbs t)) }.

(** The whole stack, whose counts are at most [b]. *)
Record stack_ok (b : Z) (k : Stack) : Prop := {
  so_wf : wf_state (st k);
  so_counters : ∀ c, counters (st k) c ≤ b;
  so_gateway : addr_ok (gateway (config (st k)));
  so_reasm : reasm_ok (reasm k);
  so_tables : tables_ok b (tcp (st k)) (pool k) }.

(** The pool again as it was, but for what buffers not held contain. *)
Record pool_back (n : Z) (p p' : Pool.Pool) : Prop := {
  pb_wf : Pool.wf p';
  pb_bytes : pool_bytes p';
  pb_held : Pool.p_held p' = Pool.p_held p;
  pb_taken : Pool.p_taken p' ≤ Pool.p_taken p + n }.

Lemma pool_back_refl b n t p : tables_ok b t p → 0 ≤ n → pool_back n p p.
Proof. intros [[] _ ? _] ?. split; try done. lia. Qed.

Lemma tables_back b n t p p' : tables_ok b t p → 0 ≤ n → pool_back n p p' → tables_ok (b + n) t p'.
Proof.
  intros [Ht ? ? Hr] Hn [Hw Hb Hh Hk]. split; try done.
  - eapply (TcpTable.table_pool b); try done; [lia|pose proof (TcpTable.tb_taken _ _ _ Ht); lia|by rewrite Hh].
  - unfold Pool.in_use in *. by rewrite Hh.
Qed.

Lemma stack_mono b b' k : stack_ok b k → b ≤ b' → stack_ok b' k.
Proof.
  intros [? Hc ? ? []] Hb. split; try done; [intros c; specialize (Hc c); lia|]. split; try done. by eapply TcpTable.wf_mono.
Qed.

Lemma stack_kept b n k s' p' : stack_ok b k → 0 ≤ n → kept n (st k) s' → pool_back n (pool k) p' → stack_ok (b + n) {| pool := p'; reasm := reasm k; st := s' |}.
Proof.
  intros [? Hc ? ? Ht] Hn [] Hp. split; cbn; [by auto| |by rewrite kp_config0|done|].
  - intros c. specialize (Hc c). specialize (kp_counters0 c). lia.
  - rewrite kp_tcp0. by eapply tables_back.
Qed.

Lemma stack_room b n k : stack_ok b k → b + n ≤ u64_MAX → room n (st k).
Proof. intros H Hb c. pose proof (so_counters _ _ H c). lia. Qed.

Lemma stack_mac b nic k : stack_ok b k → mac_ok (nic_mac nic) → stack_ok b (learn_mac nic k).
Proof. intros [[] ? ? ? ?] [? ?]. by split. Qed.

Lemma stack_tables b b' k t p : stack_ok b k → b ≤ b' → tables_ok b' t p → stack_ok b' (with_tcp t p k).
Proof. intros H Hb Ht. destruct (stack_mono _ _ _ H Hb) as [[] ? ? ? ?]. by split. Qed.

(** A buffer taken, and given back whatever was written in it. *)
Lemma lend_from p : Pool.wf p → pool_bytes p → Pool.p_taken p < u64_MAX →
  ∃ p' o, Pool.take p = Some (p', o) ∧ Pool.wf p' ∧ pool_bytes p' ∧ Pool.p_taken p' ≤ Pool.p_taken p + 1 ∧
    match o with Some i => Pool.p_held p !! i = Some false ∧ Pool.p_held p' = <[i := true]> (Pool.p_held p) | None => p' = p end.
Proof.
  intros Hwf Hby Hb. destruct (Pool.take_spec p) as (p' & o & -> & Hw & Hbuf & H); [done|lia|]. exists p', o. unfold pool_bytes in *. rewrite Hbuf.
  split_and!; try done; destruct o; [|destruct H as [-> _]; lia| |by destruct H]; destruct H as (H1 & H2 & H3 & H4 & H5); [lia|done].
Qed.

Lemma lend b t p : tables_ok b t p → b < u64_MAX →
  ∃ p' o, Pool.take p = Some (p', o) ∧ Pool.wf p' ∧ pool_bytes p' ∧ Pool.p_taken p' ≤ Pool.p_taken p + 1 ∧
    match o with Some i => Pool.p_held p !! i = Some false ∧ Pool.p_held p' = <[i := true]> (Pool.p_held p) | None => p' = p end.
Proof. intros [[] ? ? ?] Hb. apply lend_from; [done..|lia]. Qed.

Lemma lent_buffer p i h : Pool.wf p → pool_bytes p → Pool.p_held p = <[i := true]> h → h !! i = Some false → ∃ buf, Pool.buffer p i = Some buf ∧ length buf = FRAME_MAX ∧ bytes buf.
Proof.
  intros Hw Hb Hh Hi. destruct (Pool.held_buffer p i Hw) as [buf E]; [rewrite Hh; apply list_lookup_insert_eq; by eapply lookup_lt_Some|].
  exists buf. split_and!; [done|by eapply Pool.buffer_held|by eapply buffer_bytes].
Qed.

Lemma give_lent p i h : Pool.wf p → pool_bytes p → Pool.p_taken p < u64_MAX → Pool.p_held p = <[i := true]> h → h !! i = Some false →
  ∃ p', Pool.give p i = Some (p', true) ∧ Pool.wf p' ∧ pool_bytes p' ∧ Pool.p_held p' = h ∧ Pool.p_taken p' = Pool.p_taken p.
Proof.
  intros Hw Hb Ht Hh Hi. destruct (Pool.give_spec p i) as (p' & g & -> & Hw' & Hbuf & H); [done|pose proof (Pool.wf_books _ Hw); lia|].
  rewrite Hh in H. rewrite list_lookup_insert_eq in H by (by eapply lookup_lt_Some). destruct g; [|by destruct H].
  destruct H as (_ & Hh' & _ & Ht' & _). exists p'. unfold pool_bytes. rewrite Hbuf. split_and!; try done. rewrite Hh', list_insert_insert_eq. by apply list_insert_id.
Qed.

(** A call of [tcp.rs] other than a segment's arrival. *)
Definition call_bytes (c : TcpTable.call) : Prop := match c with TcpTable.Send _ data => bytes data | TcpTable.Input _ _ _ _ => False | _ => True end.

Lemma perform_bytes t p c : pool_bytes p → call_bytes c → TcpTyped.opt (λ x, pool_bytes x.2) (TcpTable.perform t p c).
Proof.
  intros Hp Hc. assert (∀ p', Pool.p_buffers p' = Pool.p_buffers p → pool_bytes p') as Hsame by (unfold pool_bytes; by intros ? ->).
  destruct c; cbn [TcpTable.perform call_bytes] in *; try done; try (apply TcpTyped.opt_bind; by intros).
  - eapply TcpTyped.opt_then; [apply connect_buffers|]. intros [[? ?] ?] E. cbn in *. by apply Hsame.
  - apply TcpTyped.opt_bind. by intros [? ?] _.
  - eapply TcpTyped.opt_then; [by apply send_buffers|]. by intros [[? ?] ?] E.
  - apply TcpTyped.opt_bind. by intros [? ?] _.
  - pose proof (reap_buffers t p) as E. destruct (NetTcp.reap t p); [by apply Hsame|done].
  - apply TcpTyped.opt_bind. by intros [? ?] _.
  - destruct (NetTcp.take_syn t) as [t1 [y|]]; [|done]. eapply TcpTyped.opt_then; [apply open_passive_buffers|]. intros [[? ?] ?] E. cbn in *. by apply Hsame.
  - apply TcpTyped.opt_bind. by intros [? ?] _.
Qed.

Lemma called b k c : stack_ok b k → b + 40 < 2 ^ 31 → 0 ≤ b → TcpTable.call_ok (tcp (st k)) c → TcpTyped.call_fits c → call_bytes c →
  ∃ t p, TcpTable.perform (tcp (st k)) (pool k) c = Some (t, p) ∧ stack_ok (b + 20) (with_tcp t p k).
Proof.
  intros Hk Hb H0 Hc Hf Hy. pose proof (so_tables _ _ Hk) as [Ht Hty Hpb Hr]. destruct (TcpTable.perform_ok b _ _ c Ht Hb H0 Hc) as (t & p & E & Hwf & Hbal & _).
  exists t, p. split; [done|]. pose proof (TcpTyped.fit_perform (tcp (st k)) (pool k) c Hty Hf) as F1. pose proof (perform_bytes (tcp (st k)) (pool k) c Hpb Hy) as F2.
  rewrite E in F1, F2. cbn in F1, F2. apply (stack_tables b); [done|lia|]. split; try done. unfold TcpTable.balanced in Hbal. lia.
Qed.


(** ** Sending *)

Lemma lookup_mac_ok c ip now m : macs_ok c → ArpCache.lookup_arp c ip now = Some m → mac_ok m.
Proof.
  intros Hc (e & H & ->)%fmap_Some. apply ArpCache.find_entry_Some in H as [_ [i Hi]]. by eapply (Forall_lookup_1 _ _ _ _ Hc Hi).
Qed.

Lemma hop_ok b k ip : stack_ok b k → addr_ok ip → addr_ok (next_hop (st k) ip).
Proof. intros Hk Hip. unfold next_hop. case_match; [done|apply Hk]. Qed.

Lemma resolve_ok b nic ip now k :
  stack_ok b k → b + 5 < 2 ^ 31 → mac_ok (nic_mac nic) → addr_ok ip →
  ∃ k' m, resolve nic ip now k = Some (k', m) ∧ stack_ok (b + 2) k' ∧ TcpTyped.opt mac_ok m ∧ tcp (st k') = tcp (st k).
Proof.
  intros Hk0 Hb Hm Hip. unfold resolve. cbv zeta. change (with_st (set_mac (nic_mac nic) (st k)) k) with (learn_mac nic k).
  pose proof (stack_mac b nic k Hk0 Hm) as Hk. set (k1 := learn_mac nic k) in *. assert (tcp (st k1) = tcp (st k)) as <- by done. clearbody k1. clear Hk0 k.
  pose proof (hop_ok b k1 ip Hk Hip) as [Hh Hhb]. set (hop := next_hop _ ip) in *. clearbody hop. pose proof (so_wf _ _ Hk) as Hwf.
  destruct (ArpCache.lookup_arp _ _ _) as [m|] eqn:El.
  { exists k1, (Some m). split_and!; [done|apply (stack_mono b); [done|lia]| |done]. eapply lookup_mac_ok; [apply Hwf|exact El]. }
  set (due := match last_request _ with Some _ => _ | None => _ end). clearbody due.
  destruct due; [|exists k1, None; split_and!; [done|apply (stack_mono b); [done|lia]|done|done]].
  assert (room 2 (st k1)) as Hr by (apply (stack_room b); [done|unfold u_max; lia]).
  pose proof (so_tables _ _ Hk) as Ht. destruct (lend b _ _ Ht) as (p & o & -> & Hw & Hpb & Htk & Ho); [unfold u_max; lia|]. cbn [mbind option_bind].
  destruct o as [i|].
  2:{ rewrite bump_kept by (by apply (room_le _ 2)). eexists _, None. split_and!; [done| |done|done]. subst p.
      apply stack_kept; [done|lia|eapply kept_le, kept_bumped; lia|by eapply pool_back_refl]. }
  destruct Ho as [Hi Hh1]. destruct (lent_buffer p i _ Hw Hpb Hh1 Hi) as (buf & -> & Hl & Hbb). set (request := {| operation := ARP_REQUEST |}).
  destruct (send_arp_spec nic buf BROADCAST request (st k1)) as (frame & buf' & _ & Hl' & Hbb' & Hsend); try done; [apply Hwf..|by left|by apply (room_le _ 2)|].
  assert (bytes buf') as Hb'.
  { apply Hbb'; try done; try apply Hwf; cbn; repeat constructor; by unfold u_max. }
  destruct (give_lent (Pool.write_buffer p i buf') i (Pool.p_held (pool k1))) as (p' & Hg & Hw' & Hpb' & Hh' & Ht'); try done;
    [by apply Pool.write_buffer_wf|by apply write_buffer_bytes|cbn; pose proof (TcpTable.tb_taken _ _ _ (to_table _ _ _ Ht)); unfold u_max; lia|].
  assert (pool_back 2 (pool k1) p') as Hback by (split; try done; cbn in Ht'; lia).
  rewrite Hsend. destruct (nic_takes _ _ _); cbn [mbind option_bind].
  - rewrite bump_kept by (apply (room_bumped 2 _ (st k1)); done). cbn [mbind option_bind]. rewrite Hg. cbn [mbind option_bind]. eexists _, None. split_and!; [done| |done|done].
    apply stack_kept; [done|lia| |done]. set (s1 := set_sent _ _). apply (kept_trans 1 1 _ (bumped tx_frames s1)).
    + apply (sent_kept (st k1) (st k1) frame true); by intros.
    + set (s2 := bumped tx_frames s1). destruct (kept_bumped arp_requests_sent s2) as [Y1 Y2 Y3 Y4 Y5]. split; try done. by intros []%Y1.
  - rewrite Hg. cbn [mbind option_bind]. eexists _, None. split_and!; [done| |done|done]. apply stack_kept; [done|lia|by apply kept_refl|done].
Qed.

Lemma header_ok_of_fits h : TcpTyped.header_fits h → tcp_header_ok h.
Proof.
  intros (H1 & H2 & H3 & H4 & H5 & H6 & H7 & H8 & H9). split; try done.
  - intros m E. by rewrite E in H7.
  - unfold blocks_of. clear -H9. induction H9 as [|[x|] l Hx _ IH]; cbn; [constructor| |done]. by constructor.
Qed.

(** The body of a segment with data is the header before the bytes of the ring. *)
Lemma write_data_eq src dst h ring at_ len p payload :
  NetTcp.ring_read ring at_ len = Some payload → Z.of_nat (length payload) = len → write_data src dst h ring at_ len p = write_tcp p src dst h payload.
Proof.
  intros E Hl. unfold write_data, write_tcp. cbv zeta. rewrite <-Hl, Nat2Z.id. rewrite <-Hl in E. destruct (get_range _ _ _); [|done]. rewrite E. cbn [mbind option_bind].
  by destruct (put _ _ _).
Qed.

(** What fits a frame goes out in one, if the device takes it. *)
Lemma send_ip_fits nic buf m dst proto body d (s : State) :
  wf_state s → room 1 s → length buf = FRAME_MAX → bytes buf → mac_ok m → addr_ok dst → in_u 8 proto → bytes d → (length d ≤ 1480)%nat →
  body (drop 34 buf) = Some (d ++ drop (length d) (drop 34 buf), Ok (length d)) →
  ∃ s' buf' r, send_ip nic buf m dst proto body s = Some (s', buf', r) ∧ kept 1 s s' ∧ length buf' = FRAME_MAX ∧ bytes buf'.
Proof.
  intros Hwf Hr Hl Hb [Hm Hmb] Hdst Hp Hd Hlen Hbody.
  destruct (send_ip_spec nic buf m dst proto body s d) as (frame & buf' & _ & _ & Hl' & Hbb & Hsend); try done; [apply Hwf..|unfold FRAME_MAX, ETH_HEADER, ETH_MTU; lia|].
  assert (bytes buf') by (apply Hbb; try done; apply Hwf). rewrite Hsend. set (s1 := set_ip_id _ s).
  pose proof (sent_kept s s1 frame (nic_takes nic (sent s) frame)) as Hk.
  destruct (nic_takes _ _ _); (eexists _, buf', _; split_and!; [done| |done|done]; apply Hk; try done; by intros []).
Qed.

(** A segment of at most [SEND_SEG] bytes does. *)
Lemma send_ip_segment nic buf m dst h payload body (s : State) :
  wf_state s → room 1 s → length buf = FRAME_MAX → bytes buf → mac_ok m → addr_ok dst → TcpTyped.header_fits h → bytes payload →
  Z.of_nat (length payload) ≤ NetTcp.SEND_SEG → (∀ q, body q = write_tcp q (ip_ (config s)) dst h payload) →
  ∃ s' buf' r, send_ip nic buf m dst PROTO_TCP body s = Some (s', buf', r) ∧ kept 1 s s' ∧ length buf' = FRAME_MAX ∧ bytes buf'.
Proof.
  intros Hwf Hr Hl Hb Hm Hdst Hh Hp Hlen Hbody. pose proof (header_ok_of_fits h Hh) as Hok. destruct (sw_ip _ Hwf) as [Hi Hib]. pose proof Hdst as [Hd Hdb].
  destruct (tcp_header_len_eq h (ok_sack h Hok)) as [Hbl Ehl]. pose proof (option_bytes_le (h_mss h) (h_sack_permitted h) _ Hbl) as Hle. change NetTcp.SEND_SEG with 189 in Hlen.
  assert (tcp_header_len h + length payload ≤ 245)%nat as Hfit by lia. assert (length (drop 34 buf) = 1480%nat) as Htl by (rewrite length_drop, Hl; done).
  destruct (write_tcp_spec (drop 34 buf) (ip_ (config s)) dst h payload) as (d & Hdl & Hdby & Hw & _); try done; [unfold u_max; lia|lia|].
  apply (send_ip_fits nic buf m dst PROTO_TCP body d); try done; [lia|by rewrite Hbody].
Qed.

Lemma send_segment_ok b nic seg now k :
  stack_ok b k → b + 60 < 2 ^ 31 → 0 ≤ b → mac_ok (nic_mac nic) → TcpTyped.sent_fits seg →
  ∃ k' ok, send_segment nic seg now k = Some (k', ok) ∧ stack_ok (b + 30) k' ∧ NetTcp.resets (tcp (st k')) = NetTcp.resets (tcp (st k)).
Proof.
  intros Hk0 Hb H0 Hm (Hip & Hh & Hd). unfold send_segment. destruct (resolve_ok b nic (NetTcp.sg_remote_ip seg) now k) as (k1 & m & -> & Hk & Hmo & <-); try done; [lia|].
  cbn [mbind option_bind]. destruct m as [m|]; [|exists k1, false; split_and!; [done| |done]; apply (stack_mono (b + 2)); [done|lia]]. cbn in Hmo. clear Hk0 k.
  assert (room 2 (st k1)) as Hr by (apply (stack_room (b + 2)); [done|unfold u_max; lia]). pose proof (so_wf _ _ Hk) as Hwf.
  pose proof (so_tables _ _ Hk) as Ht. destruct (lend _ _ _ Ht) as (p & o & -> & Hw & Hpb & Htk & Ho); [unfold u_max; lia|]. cbn [mbind option_bind].
  destruct o as [i|].
  2:{ rewrite bump_kept by (by apply (room_le _ 2)). eexists _, false. split_and!; [done| |done]. subst p. apply (stack_mono (b + 2 + 1)); [|lia].
      apply stack_kept; [done|lia|apply kept_bumped|by eapply pool_back_refl]. }
  destruct Ho as [Hi Hh1]. destruct (lent_buffer p i _ Hw Hpb Hh1 Hi) as (buf & Ebuf & Hl & Hbb).
  pose proof (TcpTable.tb_taken _ _ _ (to_table _ _ _ Ht)) as Htaken.
  set (sent := match NetTcp.sg_data seg with Some _ => _ | None => _ end).
  assert (∃ s p1 ok, sent = Some (s, p1, ok) ∧ kept 1 (st k1) s ∧ Pool.wf p1 ∧ pool_bytes p1 ∧ Pool.p_held p1 = Pool.p_held p ∧ Pool.p_taken p1 = Pool.p_taken p) as (s & p1 & ok & -> & Hs & Hw1 & Hb1 & Hh2 & Htk1).
  { assert (∃ s p1 ok, Some (st k1, p, false) = Some (s, p1, ok) ∧ kept 1 (st k1) s ∧ Pool.wf p1 ∧ pool_bytes p1 ∧ Pool.p_held p1 = Pool.p_held p ∧ Pool.p_taken p1 = Pool.p_taken p) as Hno
      by (eexists _, _, _; split_and!; [done|by apply kept_refl|done..]).
    assert (∀ body payload, bytes payload → Z.of_nat (length payload) ≤ NetTcp.SEND_SEG → (∀ q, body q = write_tcp q (ip_ (config (st k1))) (NetTcp.sg_remote_ip seg) (NetTcp.sg_header seg) payload) →
      ∃ s p1 ok, ('(s, b0, r) ← send_ip nic buf m (NetTcp.sg_remote_ip seg) PROTO_TCP body (st k1); Some (s, Pool.write_buffer p i b0, is_ok r)) = Some (s, p1, ok) ∧ kept 1 (st k1) s ∧
        Pool.wf p1 ∧ pool_bytes p1 ∧ Pool.p_held p1 = Pool.p_held p ∧ Pool.p_taken p1 = Pool.p_taken p) as Hyes.
    { intros body payload Hp Hpl Hbody. destruct (send_ip_segment nic buf m (NetTcp.sg_remote_ip seg) (NetTcp.sg_header seg) payload body (st k1)) as (s' & buf' & r & -> & Hks & Hl' & Hb'); try done; [by apply (room_le _ 2)|].
      cbn [mbind option_bind]. eexists _, _, _. split_and!; [done|done|by apply Pool.write_buffer_wf|by apply write_buffer_bytes|done|done]. }
    unfold sent. destruct (NetTcp.sg_data seg) as [[[ring at_] len]|].
    - destruct Hd as [Hat Hlen]. cbn in Hat, Hlen. destruct ring as [ring|]; [|exact Hno]. rewrite Pool.pair_spec by done. cbn [mbind option_bind]. case_decide; [exact Hno|].
      rewrite Ebuf. cbn [mbind option_bind]. destruct (Pool.buffer p ring) as [rb|] eqn:Er; [|exact Hno]. cbn [mbind option_bind].
      destruct (Pool.buffer_held p ring rb Hw Er) as (_ & _ & Hrl). destruct (TcpSeq.ring_read_spec rb at_ len Hrl) as (payload & Ep & Hpl & _); [lia|change NetTcp.SEND_SEG with 189 in Hlen; rewrite TcpSeq.RING_eq; lia|].
      apply (Hyes _ payload); [eapply ring_read_bytes; [by eapply buffer_bytes|exact Ep]|lia|]. intros q. by apply write_data_eq.
    - rewrite Ebuf. by apply (Hyes _ []). }
  cbn [mbind option_bind]. destruct (give_lent p1 i (Pool.p_held (pool k1))) as (p' & -> & Hw' & Hpb' & Hh' & Ht'); try done; [unfold u_max; lia|congruence|]. cbn [mbind option_bind].
  assert (pool_back 1 (pool k1) p') as Hback by (split; try done; lia).
  pose proof (stack_kept _ 1 k1 s p' Hk ltac:(lia) Hs Hback) as Hk2. set (k2 := {| pool := p'; reasm := _; st := s |}) in *.
  destruct ok; [|exists k2, false; split_and!; [done| |cbn; by rewrite (kp_tcp _ _ _ Hs)]; apply (stack_mono (b + 2 + 1)); [done|lia]].
  destruct (called _ k2 TcpTable.Sent Hk2) as (t & q & E & Hk3); try done; [lia|lia|]. cbn in E. rewrite (kp_tcp _ _ _ Hs) in E |- *. destruct (NetTcp.sent_one (tcp (st k1))) as [t'|] eqn:E1; [|done]. injection E as <- <-.
  eexists _, true. split_and!; [done| |by apply bind_Some in E1 as (? & _ & [= <-])]. apply (stack_mono (b + 2 + 1 + 20)); [done|lia].
Qed.


(** ** The flush *)

Lemma open_passive_syns s p y now : TcpTyped.opt (λ x, NetTcp.syns x.1.1 = NetTcp.syns s) (NetTcp.open_passive s p y now).
Proof.
  assert (∀ s' p', NetTcp.syns s' = NetTcp.syns s → TcpTyped.opt (λ x, NetTcp.syns x.1.1 = NetTcp.syns s) (s ← NetTcp.count NetTcp.syns_refused s'; Some (s, p' : Pool.Pool, false))) as Href.
  { intros s' p' E. apply TcpTyped.opt_bind. intros s1 (k & _ & [= <-])%bind_Some. exact E. }
  unfold NetTcp.open_passive. destruct (_ || _); [by apply Href|]. destruct (NetTcp.slot s) as [s1 o] eqn:Es.
  assert (NetTcp.syns s1 = NetTcp.syns s) as E1 by (unfold NetTcp.slot in Es; repeat case_match; by simplify_eq). destruct o as [i|]; [|by apply Href].
  apply TcpTyped.opt_bind. intros [p' [[r x]|]] _; [|by apply Href]. apply TcpTyped.opt_bind. intros [s3 c] (t & _ & [= <- <-])%bind_Some. exact E1.
Qed.

Lemma one_fewer {A} (l : list (option A)) x l' : NetTcp.take_first l = Some (x, l') → S (TcpTyped.waiting l') = TcpTyped.waiting l.
Proof. intros E. apply (TcpTyped.fit_take_first (λ _, True) l x l'); [|done]. apply Forall_true. by intros []. Qed.

Lemma waiting_le {A} (l : list (option A)) : (TcpTyped.waiting l ≤ length l)%nat.
Proof. apply count_if_le. Qed.

Lemma open_waiting_ok n : ∀ b k now,
  stack_ok b k → b + 20 * Z.of_nat n + 40 < 2 ^ 31 → 0 ≤ b → (TcpTyped.waiting (NetTcp.syns (tcp (st k))) < n)%nat →
  ∃ k', open_waiting n now k = Some k' ∧ stack_ok (b + 20 * Z.of_nat n) k'.
Proof.
  induction n as [|n IH]; intros b k now Hk Hb H0 Hn; [lia|]. cbn [open_waiting].
  destruct (called b k (TcpTable.TakeSyn now)) as (t & p & E & Hk'); try done; [lia|]. cbn [TcpTable.perform] in E.
  destruct (NetTcp.take_syn (tcp (st k))) as [t1 [y|]] eqn:Ey.
  - destruct (NetTcp.open_passive t1 (pool k) y now) as [[[t2 p2] ok]|] eqn:Eo; [|done]. cbn in E. injection E as <- <-. cbn [mbind option_bind].
    destruct (IH (b + 20) (with_tcp t2 p2 k) now) as (k' & -> & Hk2); try done; [lia|lia| |exists k'; split; [done|]; eapply stack_mono; [done|lia]].
    cbn. pose proof (open_passive_syns t1 (pool k) y now) as Hs. rewrite Eo in Hs. cbn in Hs. rewrite Hs.
    unfold NetTcp.take_syn in Ey. destruct (NetTcp.take_first _) as [[y' l]|] eqn:Et; [|done]. injection Ey as <- <-.
    pose proof (one_fewer _ _ _ Et) as Hw. change (TcpTyped.waiting l < n)%nat. lia.
  - injection E as <- <-. eexists. split; [done|]. eapply stack_mono; [done|lia].
Qed.

Lemma send_some_ok n i nic now : ∀ b k,
  stack_ok b k → b + 50 * Z.of_nat n + 60 < 2 ^ 31 → 0 ≤ b → mac_ok (nic_mac nic) → in_u 64 now →
  ∃ k', send_some n i nic now k = Some k' ∧ stack_ok (b + 50 * Z.of_nat n) k'.
Proof.
  induction n as [|n IH]; intros b k Hk Hb H0 Hm Hnow; cbn [send_some]; [exists k; split; [done|]; eapply stack_mono; [done|lia]|].
  destruct (called b k (TcpTable.Next i now)) as (t & p & E & Hk'); try done; [lia|apply Hnow|]. cbn [TcpTable.perform] in E.
  destruct (NetTcp.next_segment (tcp (st k)) i now) as [[t1 seg]|] eqn:En; [|done]. cbn in E. injection E as <- <-. cbn [mbind option_bind].
  destruct seg as [seg|]; [|eexists; split; [done|]; eapply stack_mono; [done|lia]].
  pose proof (TcpTyped.fit_next_segment _ i now (to_typed _ _ _ (so_tables _ _ Hk)) Hnow) as Hf. rewrite En in Hf. destruct Hf as [_ Hf]. cbn in Hf.
  destruct (send_segment_ok (b + 20) nic seg now _ Hk') as (k2 & ok & -> & Hk2 & _); try done; [lia|lia|]. cbn [mbind option_bind].
  destruct (IH (b + 20 + 30) k2) as (k3 & -> & Hk3); try done; [lia|lia|]. exists k3. split; [done|]. eapply stack_mono; [done|lia].
Qed.

Lemma send_each_ok l nic now : ∀ b k,
  stack_ok b k → b + 400 * Z.of_nat (length l) + 60 < 2 ^ 31 → 0 ≤ b → mac_ok (nic_mac nic) → in_u 64 now →
  ∃ k', send_each l nic now k = Some k' ∧ stack_ok (b + 400 * Z.of_nat (length l)) k'.
Proof.
  induction l as [|i l IH]; intros b k Hk Hb H0 Hm Hnow; cbn [send_each length] in *; [exists k; split; [done|]; eapply stack_mono; [done|lia]|].
  destruct (send_some_ok SEGMENTS_PER_FLUSH i nic now b k) as (k1 & -> & Hk1); try done; [unfold SEGMENTS_PER_FLUSH; lia|]. cbn [mbind option_bind].
  change (b + 50 * Z.of_nat SEGMENTS_PER_FLUSH) with (b + 400) in Hk1.
  destruct (IH (b + 400) k1) as (k2 & -> & Hk2); try done; [lia|lia|]. exists k2. split; [done|]. eapply stack_mono; [done|lia].
Qed.

Lemma send_resets_ok n nic now : ∀ b k,
  stack_ok b k → b + 50 * Z.of_nat n + 60 < 2 ^ 31 → 0 ≤ b → mac_ok (nic_mac nic) → (TcpTyped.waiting (NetTcp.resets (tcp (st k))) < n)%nat →
  ∃ k', send_resets n nic now k = Some k' ∧ stack_ok (b + 50 * Z.of_nat n) k'.
Proof.
  induction n as [|n IH]; intros b k Hk Hb H0 Hm Hn; [lia|]. cbn [send_resets].
  destruct (called b k TcpTable.TakeReset) as (t & p & E & Hk'); try done; [lia|]. cbn [TcpTable.perform] in E.
  destruct (NetTcp.take_reset (tcp (st k))) as [[t1 seg]|] eqn:En; [|done]. cbn in E. injection E as <- <-. cbn [mbind option_bind].
  destruct seg as [seg|]; [|eexists; split; [done|]; eapply stack_mono; [done|lia]].
  pose proof (TcpTyped.fit_take_reset _ (to_typed _ _ _ (so_tables _ _ Hk))) as Hf. rewrite En in Hf. destruct Hf as [_ Hf]. cbn in Hf.
  destruct (send_segment_ok (b + 20) nic seg now _ Hk') as (k2 & ok & -> & Hk2 & Er); try done; [lia|lia|]. cbn [mbind option_bind].
  destruct (IH (b + 20 + 30) k2) as (k3 & -> & Hk3); try done; [lia|lia| |exists k3; split; [done|]; eapply stack_mono; [done|lia]].
  rewrite Er. unfold NetTcp.take_reset in En. destruct (NetTcp.take_first _) as [[r l]|] eqn:Et; [|done].
  pose proof (one_fewer _ _ _ Et) as Hw.
  apply bind_Some in En as (s1 & (c & _ & [= <-])%bind_Some & [= <- <-]). change (TcpTyped.waiting l < n)%nat. lia.
Qed.

(** What a flush adds to a count, at most. *)
Definition FLUSH : Z := 2048.

Lemma tcp_flush_ok b nic now k :
  stack_ok b k → b + FLUSH + 60 < 2 ^ 31 → 0 ≤ b → mac_ok (nic_mac nic) → in_u 64 now →
  ∃ k', tcp_flush nic now k = Some k' ∧ stack_ok (b + FLUSH) k'.
Proof.
  unfold FLUSH. intros Hk Hb H0 Hm Hnow. unfold tcp_flush. pose proof (to_typed _ _ _ (so_tables _ _ Hk)) as Hty.
  destruct (open_waiting_ok (S NetTcp.BACKLOG) b k now) as (k1 & -> & Hk1); try done; [unfold NetTcp.BACKLOG; lia| |].
  { pose proof (waiting_le (NetTcp.syns (tcp (st k)))) as H. rewrite (TcpTyped.tt_backlog _ Hty) in H. lia. }
  cbn [mbind option_bind]. change (b + 20 * Z.of_nat (S NetTcp.BACKLOG)) with (b + 60) in Hk1.
  destruct (send_each_ok (seq 0 NetTcp.CONNECTIONS) nic now (b + 60) k1) as (k2 & -> & Hk2); try done; [cbn; lia|lia|]. cbn [mbind option_bind].
  change (b + 60 + 400 * Z.of_nat (length (seq 0 NetTcp.CONNECTIONS))) with (b + 60 + 1600) in Hk2. pose proof (to_typed _ _ _ (so_tables _ _ Hk2)) as Hty2.
  destruct (send_resets_ok (S NetTcp.RESETS) nic now (b + 60 + 1600) k2) as (k3 & -> & Hk3); try done; [unfold NetTcp.RESETS; lia|lia| |].
  { pose proof (waiting_le (NetTcp.resets (tcp (st k2)))) as H. rewrite (TcpTyped.tt_owed _ Hty2) in H. lia. }
  cbn [mbind option_bind]. change (b + 60 + 1600 + 50 * Z.of_nat (S NetTcp.RESETS)) with (b + 60 + 1600 + 250) in Hk3.
  destruct (called (b + 60 + 1600 + 250) k3 TcpTable.Reap) as (t & p & E & Hk4); try done; [lia|lia|]. cbn [TcpTable.perform] in E. rewrite E. cbn [mbind option_bind].
  eexists. split; [done|]. eapply stack_mono; [done|lia].
Qed.


(** ** Receiving *)

(** A FIN, for a connection whose stream has ended, that is not the one that ended it. *)
Definition second_fin (t : NetTcp.Tcp) (frame : Bytes) : bool :=
  match parse_frame frame with
  | Some (Ok (_, FTcp ip sg)) => existsb (λ c, NetTcp.matches c (ip_src ip) sg && TcpRobust.fin_again c sg) (NetTcp.tcbs t)
  | _ => false
  end.

Lemma segment_at_le frame : bytes frame → Z.of_nat (segment_at frame) ≤ u16_MAX.
Proof.
  intros Hb. assert (∀ i, in_u 8 (frame !!! i)) as Hi.
  { intros i. destruct (frame !! i) as [x|] eqn:E; [|rewrite list_lookup_total_alt, E; by unfold in_u, u_max]. rewrite (list_lookup_total_correct _ _ _ E). by eapply Forall_lookup_1. }
  unfold segment_at. cbv zeta. set (i := (ETH_HEADER + _ + 12)%nat). pose proof (Hi i) as [H1 H2]. clearbody i. unfold u_max, ETH_HEADER in *.
  assert (0 ≤ Z.land (frame !!! 14%nat) 15 < 2 ^ 4) as H3 by (change 15 with (Z.ones 4); rewrite Z.land_ones by lia; apply Z.mod_pos_bound; lia).
  assert (0 ≤ Z.shiftr (frame !!! i) 4 < 2 ^ 4) as H4 by (rewrite Z.shiftr_div_pow2 by lia; split; [apply Z.div_pos|apply Z.div_lt_upper_bound]; lia). lia.
Qed.

(** The segment in a frame, as the connections need it. *)
Lemma frame_segment frame eth ip sg :
  bytes frame → parse_frame frame = Some (Ok (eth, FTcp ip sg)) → addr_ok (ip_src ip) ∧ TcpTyped.segment_fits sg ∧ TcpRobust.parsed sg.
Proof.
  intros Hb Hp. destruct (parse_frame_Ok _ _ _ Hp) as [He [Hip Ht]]. destruct (parse_ethernet_Ok _ _ Hb He) as (_ & _ & Hpb).
  destruct (parse_ipv4_Ok _ _ Hpb Hip) as (Hib & _ & Hs & Hsb & _). destruct (TcpTyped.fit_parse_tcp _ _ _ _ Hib Ht) as (Hf & _ & Hl). split_and!; [done|done|]. by destruct Hf.
Qed.

Lemma input_tables b t p frame eth ip sg now :
  tables_ok b t p → b + 20 < 2 ^ 31 → bytes frame → 0 ≤ now ≤ TcpSend.NOW_MAX → second_fin t frame = false → parse_frame frame = Some (Ok (eth, FTcp ip sg)) →
  ∃ t' d, NetTcp.input t (ip_src ip) sg (Z.of_nat (segment_at frame)) now = Some (t', d) ∧ tables_ok (b + 20) t' p ∧
    ∀ d', d = Some d' → 0 ≤ NetTcp.dl_at d' ∧ 0 ≤ NetTcp.dl_from d' ∧ 0 < NetTcp.dl_len d' ∧ NetTcp.dl_from d' + NetTcp.dl_len d' ≤ 2 ^ 17.
Proof.
  intros [Ht Hty Hpb Hr] Hb Hfb Hnow Hfin Hp. destruct (frame_segment _ _ _ _ Hfb Hp) as (Ha & Hf & Hpa). pose proof (segment_at_le frame Hfb) as Hat.
  destruct (TcpTable.input_ok b t p (ip_src ip) sg (Z.of_nat (segment_at frame)) now) as (t' & d & E & (s1 & p1 & [= <- <-] & Hwf & Hbal & _) & Hd); try done.
  { intros c Hc Hm. unfold second_fin in Hfin. rewrite Hp in Hfin. destruct (TcpRobust.fin_again c sg) eqn:Ef; [|done]. exfalso.
    rewrite <-not_true_iff_false in Hfin. apply Hfin, existsb_exists. exists c. rewrite Hm, Ef. split; [by apply list_elem_of_In|done]. }
  exists t', d. split; [done|]. split.
  - split; try done; [|unfold TcpTable.balanced in Hbal; lia]. pose proof (TcpTyped.fit_input t (ip_src ip) sg (Z.of_nat (segment_at frame)) now Hty Ha Hf) as F. rewrite E in F. apply F.
    unfold in_u, u_max. change TcpSend.NOW_MAX with (2 ^ 58) in Hnow. lia.
  - intros d' Ed. destruct (Hd d' Ed) as (H1 & H2 & H3 & H4). pose proof (TcpRobust.pa_len _ Hpa). unfold u_max in *. split_and!; lia.
Qed.

Lemma stack_deliver_ok rx d p rx_buf :
  Pool.wf p → pool_bytes p → Pool.buffer p rx = Some rx_buf → 0 ≤ NetTcp.dl_at d → 0 ≤ NetTcp.dl_from d → 0 < NetTcp.dl_len d → NetTcp.dl_from d + NetTcp.dl_len d ≤ 2 ^ 17 →
  ∃ p', deliver rx d p = Some p' ∧ Pool.wf p' ∧ pool_bytes p' ∧ Pool.p_held p' = Pool.p_held p ∧ Pool.p_taken p' = Pool.p_taken p.
Proof.
  intros Hw Hb Hrx H1 H2 H3 H4. unfold deliver. destruct (NetTcp.dl_ring d) as [i|]; [|by exists p]. rewrite Pool.pair_spec by done. cbn [mbind option_bind].
  case_decide; [by exists p|]. rewrite Hrx. cbn [mbind option_bind]. destruct (Pool.buffer p i) as [ring|] eqn:Er; [|by exists p]. cbn [mbind option_bind].
  unfold NetTcp.usize_add. rewrite (proj2 (checked_add_Some 32 _ _ (NetTcp.dl_from d + NetTcp.dl_len d))) by (split; [done|unfold u_max; lia]). cbn [mbind option_bind].
  destruct (get_range _ _ _) as [payload|] eqn:Eg; [|by exists p]. destruct (Pool.buffer_held p i ring Hw Er) as (_ & _ & Hl).
  destruct (TcpTable.ring_write_total ring (NetTcp.dl_at d) payload Hl H1) as (ring' & Ew & Hl'). rewrite Ew. cbn [mbind option_bind].
  eexists. split_and!; [done|by apply Pool.write_buffer_wf| |done|done]. apply write_buffer_bytes; [done|].
  eapply ring_write_bytes; [exact (buffer_bytes p i ring Hb Er)|eapply get_range_bytes; [exact (buffer_bytes p rx rx_buf Hb Hrx)|exact Eg]|exact Ew].
Qed.


(** A frame handled: the state and the connections, against a pool the frame does not touch. *)
Lemma handle_ok b nic frame tx now k :
  stack_ok b k → b + 40 < 2 ^ 31 → tx_ok tx → bytes frame → 0 ≤ now ≤ TcpSend.NOW_MAX → second_fin (tcp (st k)) frame = false →
  ∃ s' tx' r' d, handle nic frame tx (reasm k) now (st k) = Some (s', tx', r', d) ∧ tx_ok tx' ∧ stack_ok (b + 20) {| pool := pool k; reasm := r'; st := s' |} ∧
    ∀ d', d = Some d' → 0 ≤ NetTcp.dl_at d' ∧ 0 ≤ NetTcp.dl_from d' ∧ 0 < NetTcp.dl_len d' ∧ NetTcp.dl_from d' + NetTcp.dl_len d' ≤ 2 ^ 17.
Proof.
  intros Hk Hb Htx Hfb Hnow Hfin. pose proof Hk as [Hwf Hc Hg Hre Ht].
  destruct (handle_fine nic frame tx (reasm k) now (st k)) as (s' & tx' & r' & d & -> & Hkept & Htx' & Hre' & Htk); try done.
  { apply (stack_room b); [done|unfold u_max; lia]. }
  { intros eth ip sg Hp. destruct (input_tables b _ _ frame eth ip sg now Ht) as (t' & d & -> & _); try done. lia. }
  exists s', tx', r', d. split; [done|]. split; [done|]. assert (tables_ok (b + 20) (tcp s') (pool k) ∧ ∀ d', d = Some d' →
    0 ≤ NetTcp.dl_at d' ∧ 0 ≤ NetTcp.dl_from d' ∧ 0 < NetTcp.dl_len d' ∧ NetTcp.dl_from d' + NetTcp.dl_len d' ≤ 2 ^ 17) as [Htab Hd].
  { destruct Htk as [[-> ->]|(eth & ip & sg & Hp & E)].
    - split; [|done]. eapply (tables_back b 20); [done|lia|by eapply pool_back_refl].
    - destruct (input_tables b _ _ frame eth ip sg now Ht) as (t1 & d1 & E1 & Htab & Hd); try done; [lia|]. rewrite E in E1. injection E1 as <- <-. done. }
  split; [|done]. destruct Hkept as [Y1 Y2 Y3 Y4 Y5]. split; cbn; [by destruct (Y1 Hwf)| |by rewrite <-Y4 in Hg|done|done].
  intros c. specialize (Y2 c). specialize (Hc c). cbn in Y2. lia.
Qed.

Lemma receive_take f (buf : Bytes) : length buf = FRAME_MAX → take (length f) (receive f buf) = take FRAME_MAX f ∧ length (receive f buf) = FRAME_MAX.
Proof.
  intros Hl. unfold receive. rewrite length_app, length_take, length_drop, Hl. split; [|lia]. destruct (decide (length f ≤ FRAME_MAX)%nat) as [H|H].
  - rewrite (take_ge f FRAME_MAX) by done. by rewrite take_app_length.
  - rewrite (drop_ge buf) by lia. rewrite app_nil_r, take_take. f_equal. lia.
Qed.

(** Buffers lent out of a pool: what is held besides, and what has been written. *)
Record lent (h : list bool) (n : Z) (p0 p : Pool.Pool) : Prop := {
  ln_wf : Pool.wf p;
  ln_bytes : pool_bytes p;
  ln_held : Pool.p_held p = h;
  ln_taken : Pool.p_taken p ≤ Pool.p_taken p0 + n }.

Lemma lent_write h n p0 p i buf : lent h n p0 p → length buf = FRAME_MAX → bytes buf → lent h n p0 (Pool.write_buffer p i buf).
Proof. intros [] ? ?. split; [by apply Pool.write_buffer_wf|by apply write_buffer_bytes|done|done]. Qed.

Lemma lent_buf h n p0 p i : lent (<[i := true]> h) n p0 p → h !! i = Some false → ∃ buf, Pool.buffer p i = Some buf ∧ length buf = FRAME_MAX ∧ bytes buf.
Proof. intros [] Hi. by eapply lent_buffer. Qed.

Lemma lent_give h n p0 p i : lent (<[i := true]> h) n p0 p → Pool.p_taken p0 + n < u64_MAX → h !! i = Some false → ∃ p', Pool.give p i = Some (p', true) ∧ lent h n p0 p'.
Proof. intros [] Ht Hi. destruct (give_lent p i h) as (p' & -> & ? & ? & ? & ?); try done; [lia|]. exists p'. split; [done|]. split; try done. lia. Qed.

Lemma lent_deliver h n p0 p rx d buf :
  lent h n p0 p → Pool.buffer p rx = Some buf → 0 ≤ NetTcp.dl_at d → 0 ≤ NetTcp.dl_from d → 0 < NetTcp.dl_len d → NetTcp.dl_from d + NetTcp.dl_len d ≤ 2 ^ 17 →
  ∃ p', deliver rx d p = Some p' ∧ lent h n p0 p'.
Proof. intros [] Hb H1 H2 H3 H4. destruct (stack_deliver_ok rx d p buf) as (p' & -> & ? & ? & ? & ?); try done. exists p'. split; [done|]. split; [done|done|congruence|lia]. Qed.


Definition lent_at (h : list bool) (i : nat) : Prop := ∃ h', h = <[i := true]> h' ∧ h' !! i = Some false.

(** The frame, if there is one, is not a second FIN for its connection. *)
Definition fin_once (arrived : list Bytes) (k : Stack) : bool :=
  match arrived with f :: _ => negb (second_fin (tcp (st k)) (take FRAME_MAX f)) | [] => true end.

Lemma take_frame_ok b nic now arrived rx tx p k h :
  stack_ok b k → b + 40 < 2 ^ 31 → Forall bytes arrived → 0 ≤ now ≤ TcpSend.NOW_MAX → fin_once arrived k = true →
  lent h 2 (pool k) p → lent_at h rx → (∀ i, tx = Some i → lent_at h i ∧ i ≠ rx) →
  ∃ p' r s rest got, take_frame nic now arrived rx tx p k = Some (p', r, s, rest, got) ∧ lent h 2 (pool k) p' ∧
    stack_ok (b + 20) {| pool := pool k; reasm := r; st := s |} ∧ rest = drop 1 arrived ∧ (got = None ↔ arrived = []) ∧
    ∃ p'', match got with Some (Some d) => deliver rx d p' | _ => Some p' end = Some p'' ∧ lent h 2 (pool k) p''.
Proof.
  intros Hk Hb Har Hnow Hfin Hp Hrx Htx. unfold take_frame.
  assert (∀ p, lent h 2 (pool k) p → ∃ buf, Pool.buffer p rx = Some buf ∧ length buf = FRAME_MAX ∧ bytes buf) as Hbuf.
  { destruct Hrx as (h' & -> & Hr). intros q Hq. by eapply lent_buf. }
  destruct (Hbuf p Hp) as (rx_buf & Erx & Hrl & Hrb).
  assert (∃ tx_buf, poll_buffers p rx tx = Some (Some (rx_buf, tx_buf)) ∧ tx_ok tx_buf) as (tx_buf & -> & Htxo).
  { unfold poll_buffers. rewrite Erx. destruct tx as [i|]; [|exists None; split; [done|by intros ? [=]]]. destruct (Htx i eq_refl) as [(h' & -> & Hi) Hne].
    destruct (lent_buf _ _ _ _ _ Hp Hi) as (buf & Ei & Hil & Hib). rewrite Pool.pair_spec by apply Hp. rewrite decide_False by done. rewrite Erx, Ei. cbn.
    exists (Some buf). split; [done|]. by intros ? [= <-]. }
  cbn [mbind option_bind]. destruct arrived as [|f rest].
  { eexists _, _, _, _, None. split_and!; try done; [|by exists p]. destruct k. eapply stack_mono; [exact Hk|lia]. }
  destruct (receive_take f rx_buf Hrl) as [-> Hl]. inversion Har as [|? ? Hfb Hrest]; subst. cbn in Hfin.
  destruct (handle_ok b nic (take FRAME_MAX f) tx_buf now k) as (s' & tx' & r' & d & -> & Htx' & Hk' & Hd); try done; [by apply Forall_take|by destruct (second_fin _ _)|].
  cbn [mbind option_bind]. assert (lent h 2 (pool k) (Pool.write_buffer p rx (receive f rx_buf))) as Hp1.
  { apply lent_write; [done|done|]. apply Forall_app. split; [by apply Forall_take|by apply Forall_drop]. }
  set (p1 := Pool.write_buffer p rx _) in *. set (p2 := match tx with Some _ => _ | None => _ end).
  assert (lent h 2 (pool k) p2) as Hp2 by (subst p2; destruct tx, tx' as [tb|]; try done; destruct (Htx' tb eq_refl); by apply lent_write).
  eexists _, _, _, _, (Some d). split_and!; try done. destruct d as [d|]; [|by exists p2]. destruct (Hd d eq_refl) as (H1 & H2 & H3 & H4).
  destruct (Hbuf p2 Hp2) as (buf & Eb & _). by eapply lent_deliver.
Qed.

(** The rings leave buffers free. *)
Lemma rings_le l : (length (TcpTable.rings l) ≤ 2 * length l)%nat.
Proof.
  unfold TcpTable.rings. induction l as [|t l IH]; [done|]. cbn. rewrite length_app. assert (length (TcpTable.bufs t) ≤ 2)%nat; [|lia].
  unfold TcpTable.bufs. rewrite length_app. destruct (NetTcp.buf (NetTcp.rx t)), (NetTcp.buf (NetTcp.tx t)); cbn; lia.
Qed.

Lemma spare_buffer b t p p' : tables_ok b t p → b < u64_MAX → Pool.take p = Some (p', None) → False.
Proof.
  intros [[] ? ? Hr] Hb E. destruct (Pool.take_spec p) as (p1 & o & E1 & _ & _ & H); [done|lia|]. rewrite E in E1. injection E1 as <- <-. destruct H as [_ H].
  pose proof (rings_le (NetTcp.tcbs t)) as Hle. rewrite tb_len in Hle. rewrite Hr in H. unfold Pool.BUFFERS, Pool.CONNECTIONS, NetTcp.CONNECTIONS in *. unfold Pool.CONNECTIONS in *. lia.
Qed.

Lemma poll_one_ok b nic now arrived k :
  stack_ok b k → b + 60 < 2 ^ 31 → Forall bytes arrived → 0 ≤ now ≤ TcpSend.NOW_MAX → fin_once arrived k = true →
  ∃ k' rest more, poll_one nic now arrived k = Some (k', rest, more) ∧ stack_ok (b + 30) k' ∧ rest = drop 1 arrived ∧ more = negb (length arrived =? 0)%nat.
Proof.
  intros Hk Hb Har Hnow Hfin. unfold poll_one. pose proof (so_tables _ _ Hk) as Ht. pose proof (TcpTable.tb_taken _ _ _ (to_table _ _ _ Ht)) as Htk.
  destruct (lend b _ _ Ht) as (p & o & Etake & Hw & Hpb & Hpt & Ho); [unfold u_max; lia|]. rewrite Etake. cbn [mbind option_bind]. destruct o as [rx|].
  2:{ exfalso. eapply (spare_buffer b); [exact Ht|unfold u_max; lia|exact Etake]. }
  destruct Ho as [Hr Hh]. destruct (lend_from p Hw Hpb) as (p1 & o & -> & Hw1 & Hpb1 & Hpt1 & Ho); [unfold u_max; lia|]. cbn [mbind option_bind].
  set (h := match o with Some i => <[i := true]> (<[rx := true]> (Pool.p_held (pool k))) | None => <[rx := true]> (Pool.p_held (pool k)) end).
  assert (lent h 2 (pool k) p1) as Hl by (split; try done; [|lia]; subst h; destruct o; [destruct Ho; congruence|by subst p1]).
  assert (∀ i, o = Some i → <[rx := true]> (Pool.p_held (pool k)) !! i = Some false ∧ i ≠ rx) as Hi.
  { intros i ->. destruct Ho as [Hi _]. rewrite Hh in Hi. split; [done|]. intros ->. rewrite list_lookup_insert_eq in Hi by (by eapply lookup_lt_Some). done. }
  destruct (take_frame_ok b nic now arrived rx o p1 k h) as (p2 & r & s & rest & got & -> & _ & Hk2 & -> & Hgot & p3 & Hdel & Hl3); try done; [lia| | |].
  { subst h. destruct o as [i|]; [|by eexists]. destruct (Hi i eq_refl) as [_ Hne]. exists (<[i := true]> (Pool.p_held (pool k))). split; [by rewrite list_insert_insert_ne|]. by rewrite list_lookup_insert_ne. }
  { intros i ->. destruct (Hi i eq_refl). split; [by eexists|done]. }
  cbn [mbind option_bind]. rewrite Hdel. cbn [mbind option_bind].
  assert (∃ p4, give_back p3 o = Some p4 ∧ lent (<[rx := true]> (Pool.p_held (pool k))) 2 (pool k) p4) as (p4 & -> & Hl4).
  { destruct o as [i|]; cbn [give_back]; [|by exists p3]. destruct (lent_give _ _ _ _ _ Hl3) as (p4 & -> & Hl4); [unfold u_max; lia|by apply Hi|]. by exists p4. }
  cbn [mbind option_bind give_back]. destruct (lent_give _ _ _ _ _ Hl4) as (p5 & -> & Hl5); [unfold u_max; lia|done|]. cbn [mbind option_bind].
  eexists _, _, _. split_and!; [done| |done|]; cycle 1.
  { destruct got, arrived; cbn; try done; [discriminate (proj2 Hgot eq_refl)|discriminate (proj1 Hgot eq_refl)]. }
  destruct Hk2 as [? Hc ? ? Ht2]. split; cbn; try done; [intros c; specialize (Hc c); cbn in Hc; lia|].
  replace (b + 30) with (b + 20 + 10) by lia. eapply tables_back; [exact Ht2|lia|]. destruct Hl5. split; cbn; [done|done|done|lia].
Qed.


(** ** A poll *)

(** Along a poll, no frame is a second FIN for the connection it finds. *)
Fixpoint fins_once (n : nat) (nic : Nic) (now : Z) (arrived : list Bytes) (k : Stack) : bool :=
  match n with
  | O => true
  | S n => fin_once arrived k && match poll_one nic now arrived k with Some (k, arrived, true) => fins_once n nic now arrived k | _ => true end
  end.

Lemma poll_loop_ok n nic now : ∀ b arrived k,
  stack_ok b k → b + 30 * Z.of_nat n + 60 < 2 ^ 31 → Forall bytes arrived → 0 ≤ now ≤ TcpSend.NOW_MAX → fins_once n nic now arrived k = true →
  ∃ k', poll_loop n nic now arrived k = Some (k', drop n arrived, (n `min` length arrived)%nat) ∧ stack_ok (b + 30 * Z.of_nat n) k'.
Proof.
  induction n as [|n IH]; intros b arrived k Hk Hb Har Hnow Hf; cbn [poll_loop]; [exists k; rewrite drop_0; split; [done|]; eapply stack_mono; [done|lia]|].
  cbn [fins_once] in Hf. apply andb_true_iff in Hf as [Hf1 Hf2].
  destruct (poll_one_ok b nic now arrived k) as (k1 & rest & more & E & Hk1 & -> & ->); try done; [lia|]. rewrite E in Hf2 |- *. cbn [mbind option_bind].
  destruct arrived as [|f arrived]; cbn [length Nat.eqb negb drop] in *.
  - exists k1. split; [done|]. eapply stack_mono; [done|lia].
  - rewrite drop_0 in *. inversion Har; subst. destruct (IH (b + 30) arrived k1) as (k2 & -> & Hk2); try done; [lia|]. cbn [mbind option_bind]. exists k2. split; [done|].
    eapply stack_mono; [done|lia].
Qed.

Lemma expire_le r now : ((Reasm.expire r now).2 ≤ length r)%nat.
Proof. induction r as [|s r IH]; cbn; [done|]. destruct (Reasm.expire r now). cbn in IH. case_match; cbn; lia. Qed.

(** What a poll does before its loop: the timers, and the reassembly's. *)
Definition poll_start (nic : Nic) (now : Z) (k : Stack) : option Stack :=
  let s := set_mac (nic_mac nic) (st k) in
  t ← NetTcp.timers (tcp s) now;
  let s := set_tcp t s in
  let '(r, given_up) := Reasm.expire (reasm k) now in
  n ← checked_add 64 (counters s reassembly_timeouts) (Z.of_nat given_up);
  Some {| pool := pool k; reasm := r; st := set_counters (λ c, if decide (c = reassembly_timeouts) then n else counters s c) s |}.

Lemma poll_eq nic arrived now k :
  poll nic arrived now k = k ← poll_start nic now k; '(k, rest, handled) ← poll_loop FRAMES_PER_POLL nic now arrived k; k ← tcp_flush nic now k; Some (k, rest, handled).
Proof.
  unfold poll, poll_start. cbv zeta. destruct (NetTcp.timers _ _) as [t|]; [|done]. cbn [mbind option_bind]. destruct (Reasm.expire _ _) as [r given_up].
  destruct (checked_add _ _ _) as [n|]; [|done]. cbn [mbind option_bind]. by destruct (poll_loop _ _ _ _ _) as [[[? ?] ?]|].
Qed.

Lemma poll_start_ok b nic now k :
  stack_ok b k → b + 60 < 2 ^ 31 → 0 ≤ b → mac_ok (nic_mac nic) → 0 ≤ now ≤ TcpSend.NOW_MAX → ∃ k', poll_start nic now k = Some k' ∧ stack_ok (b + 22) k'.
Proof.
  intros Hk0 Hb H0 Hm Hnow. assert (in_u 64 now) as Hu by (unfold in_u, u_max; change TcpSend.NOW_MAX with (2 ^ 58) in Hnow; lia).
  pose proof (stack_mac b nic k Hk0 Hm) as Hk. destruct (called b (learn_mac nic k) (TcpTable.Timers now) Hk) as (t & p & E & Hk1); try done; [lia|].
  unfold poll_start. cbv zeta. cbn [TcpTable.perform] in E. change (tcp (st (learn_mac nic k))) with (tcp (set_mac (nic_mac nic) (st k))) in E.
  destruct (NetTcp.timers _ now) as [t'|]; [|done]. cbn in E. injection E as <- <-. cbn [mbind option_bind]. destruct Hk1 as [Hwf Hc Hg [Hre1 Hre2] Ht].
  pose proof (expire_le (reasm k) now) as Hle. destruct (Reasm.expire_good _ (reasm k) now Hre2) as [He1 He2]. destruct (Reasm.expire (reasm k) now) as [r n]. cbn in Hle, He1, He2.
  cbn in Hre1. rewrite Hre1 in Hle. unfold Reasm.SETS in Hle. cbn in Hc. pose proof (Hc reassembly_timeouts) as Hc1. cbn [counters set_tcp set_mac].
  rewrite (proj2 (checked_add_Some 64 _ _ (counters (st k) reassembly_timeouts + Z.of_nat n))) by (split; [done|unfold u_max; lia]). cbn [mbind option_bind].
  eexists. split; [done|]. split; cbn; [by destruct Hwf| |done|split; [congruence|done]|].
  - intros c. case_decide; [lia|]. specialize (Hc c). lia.
  - replace (b + 22) with (b + 20 + 2) by lia. eapply tables_back; [exact Ht|lia|by eapply pool_back_refl].
Qed.

(** What a poll adds to a count, at most. *)
Definition POLL : Z := 2600.

Definition poll_fins (nic : Nic) (arrived : list Bytes) (now : Z) (k : Stack) : bool :=
  match poll_start nic now k with Some k => fins_once FRAMES_PER_POLL nic now arrived k | None => true end.

Lemma poll_ok b nic arrived now k :
  stack_ok b k → b + POLL + 60 < 2 ^ 31 → 0 ≤ b → mac_ok (nic_mac nic) → Forall bytes arrived → 0 ≤ now ≤ TcpSend.NOW_MAX → poll_fins nic arrived now k = true →
  ∃ k', poll nic arrived now k = Some (k', drop FRAMES_PER_POLL arrived, (FRAMES_PER_POLL `min` length arrived)%nat) ∧ stack_ok (b + POLL) k'.
Proof.
  unfold POLL. intros Hk Hb H0 Hm Har Hnow Hf. rewrite poll_eq. unfold poll_fins in Hf. destruct (poll_start_ok b nic now k) as (k1 & E & Hk1); try done; [lia|]. rewrite E in Hf |- *.
  cbn [mbind option_bind]. destruct (poll_loop_ok FRAMES_PER_POLL nic now (b + 22) arrived k1) as (k2 & -> & Hk2); try done; [unfold FRAMES_PER_POLL; lia|]. cbn [mbind option_bind].
  change (b + 22 + 30 * Z.of_nat FRAMES_PER_POLL) with (b + 22 + 480) in Hk2.
  destruct (tcp_flush_ok (b + 22 + 480) nic now k2) as (k3 & -> & Hk3); try done; [unfold FLUSH; lia|lia|unfold in_u, u_max; change TcpSend.NOW_MAX with (2 ^ 58) in Hnow; lia|].
  exists k3. split; [done|]. unfold FLUSH in Hk3. eapply stack_mono; [done|lia].
Qed.

End StackTcp.
