(* ===== verification/NetStackRuns.v ===== *)
(** * The network stack: whatever is asked of it

    The requests a kernel makes of a stack, one after the other, from a stack just made: polls,
    with whatever the device has waiting; the calls of programs on their connections; datagrams,
    pings and the cache.  After any of them the stack is as it should be: its parts well formed,
    its buffers accounted for, and the next request served. *)

From S2P Require Import Prelude NetWire NetReasm NetLink NetTcp NetTcpSeq NetTcpSend NetTcpRobust NetTcpTable NetTcpTyped NetStack NetStackTcp.
Import Wire NetStack StackTcp.
Local Open Scope Z_scope.

Module StackRuns.

(** ** Requests *)

Inductive request : Type :=
| Poll (arrived : list Bytes) (now : Z)
| TcpConnect (dst : Ipv4Addr) (port now : Z)
| TcpListen (port : Z)
| TcpAccept (l : NetTcp.Conn)
| TcpSend (c : NetTcp.Conn) (data : Bytes) (now : Z)
| TcpRecv (c : NetTcp.Conn) (space now : Z)
| TcpPeek (c : NetTcp.Conn) (space : Z)
| TcpShutdown (c : NetTcp.Conn) (now : Z)
| TcpClose (c : NetTcp.Conn) (now : Z)
| TcpAbort (c : NetTcp.Conn) (now : Z)
| UdpSend (dst : Ipv4Addr) (src_port dst_port : Z) (payload : Bytes) (now : Z)
| UdpRecv (port : Z) (space : nat)
| Ping (dst : Ipv4Addr) (id seq_ now : Z)
| TakeEchoReply (id seq_ : Z)
| TakeRefusal (port : Z)
| Resolve (ip : Ipv4Addr) (now : Z)
| Forget (ip : Ipv4Addr).

Definition serve (nic : Nic) (k : Stack) (r : request) : option Stack :=
  match r with
  | Poll arrived now => '(k, _, _) ← poll nic arrived now k; Some k
  | TcpConnect dst port now => '(k, _) ← tcp_connect nic dst port now k; Some k
  | TcpListen port => '(k, _) ← tcp_listen port k; Some k
  | TcpAccept l => Some (tcp_accept l k).1
  | TcpSend c data now => '(k, _) ← tcp_send nic c data now k; Some k
  | TcpRecv c room now => '(k, _) ← tcp_recv nic c room now k; Some k
  | TcpPeek c room => _ ← tcp_peek c room k; Some k
  | TcpShutdown c now => '(k, _) ← tcp_shutdown nic c now k; Some k
  | TcpClose c now => '(k, _) ← tcp_close nic c now k; Some k
  | TcpAbort c now => '(k, _) ← tcp_abort nic c now k; Some k
  | UdpSend dst sp dp payload now => '(k, _) ← udp_send nic dst sp dp payload now k; Some k
  | UdpRecv port room => Some (udp_recv_from port room k).1
  | Ping dst id seq_ now => '(k, _) ← ping nic dst id seq_ now k; Some k
  | TakeEchoReply id seq_ => Some (take_echo_reply id seq_ k).1
  | TakeRefusal port => Some (take_refusal port k).1
  | Resolve ip now => '(k, _) ← resolve nic ip now k; Some k
  | Forget ip => Some (forget ip k)
  end.

(** Arguments are of their types, lengths and times those of a real machine; of the frames, only
    a FIN that is not the one that ended its connection's stream is left out. *)
Definition request_ok (nic : Nic) (k : Stack) (r : request) : Prop :=
  match r with
  | Poll arrived now => Forall bytes arrived ∧ 0 ≤ now ≤ TcpSend.NOW_MAX ∧ poll_fins nic arrived now k = true
  | TcpConnect dst port now => addr_ok dst ∧ in_u 16 port ∧ 0 ≤ now ≤ TcpSend.NOW_MAX
  | TcpListen port => in_u 16 port
  | TcpSend _ data now => bytes data ∧ Z.of_nat (length data) < 2 ^ 31 ∧ 0 ≤ now ≤ TcpSend.NOW_MAX
  | TcpRecv _ room now => 0 ≤ room ∧ 0 ≤ now ≤ TcpSend.NOW_MAX
  | TcpPeek _ room => 0 ≤ room
  | TcpShutdown _ now | TcpClose _ now | TcpAbort _ now => 0 ≤ now ≤ TcpSend.NOW_MAX
  | UdpSend dst sp dp payload now => addr_ok dst ∧ in_u 16 sp ∧ in_u 16 dp ∧ bytes payload
  | Ping dst id seq_ now => addr_ok dst ∧ in_u 16 id ∧ in_u 16 seq_
  | Resolve ip now => addr_ok ip
  | TcpAccept _ | UdpRecv _ _ | TakeEchoReply _ _ | TakeRefusal _ | Forget _ => True
  end.

(** ** Each request is served *)

Definition served (b : Z) (r : option Stack) : Prop := ∃ k', r = Some k' ∧ stack_ok (b + POLL) k'.

Section Serve.
Context (b : Z) (nic : Nic) (k : Stack) (Hk : stack_ok b k) (Hb : b + POLL + 60 < 2 ^ 31) (H0 : 0 ≤ b) (Hm : mac_ok (nic_mac nic)).
Let Hmac := stack_mac b nic k Hk Hm.

Lemma now_u64 now : 0 ≤ now ≤ TcpSend.NOW_MAX → in_u 64 now.
Proof. unfold in_u, u_max. change TcpSend.NOW_MAX with (2 ^ 58). lia. Qed.

Lemma served_at b' k' : stack_ok b' k' → b' ≤ b + POLL → served b (Some k').
Proof using. intros H Hle. exists k'. split; [done|]. by eapply stack_mono. Qed.

(** A call that is followed by a flush if it goes through. *)
Lemma served_flushed {A} now k1 (r : result A NetTcp.TcpError) :
  stack_ok (b + 20) k1 → 0 ≤ now ≤ TcpSend.NOW_MAX → served b ('(k, _) ← flushed nic now k1 r; Some k).
Proof using Hb H0 Hm.
  intros Hk1 Hnow. unfold POLL in Hb. unfold flushed. destruct r as [a|e]; [|eapply served_at; [done|unfold POLL; lia]].
  destruct (tcp_flush_ok (b + 20) nic now k1) as (k2 & -> & Hk2); try done; [unfold FLUSH; lia|lia|by apply now_u64|]. cbn [mbind option_bind].
  eapply served_at; [done|unfold FLUSH, POLL; lia].
Qed.

(** A call of [tcp.rs] from a stack that has just asked the device for its address. *)
Lemma called_mac c : TcpTable.call_ok (tcp (st k)) c → TcpTyped.call_fits c → call_bytes c →
  ∃ t p, TcpTable.perform (tcp (st k)) (pool k) c = Some (t, p) ∧ stack_ok (b + 20) (with_tcp t p (learn_mac nic k)) ∧ stack_ok (b + 20) (with_tcp t p k).
Proof using Hk Hb H0 Hm.
  unfold POLL in Hb. intros H1 H2 H3. destruct (called b (learn_mac nic k) c Hmac) as (t & p & E & Ht); try done; [lia|].
  destruct (called b k c Hk) as (t' & p' & E' & Ht'); try done; [lia|]. change (tcp (st (learn_mac nic k))) with (tcp (st k)) in E. change (pool (learn_mac nic k)) with (pool k) in E.
  rewrite E in E'. injection E' as <- <-. by exists t, p.
Qed.

Lemma tcp_served r : request_ok nic k r → match r with Poll _ _ | UdpSend _ _ _ _ _ | UdpRecv _ _ | Ping _ _ _ _ | TakeEchoReply _ _ | TakeRefusal _ | Resolve _ _ | Forget _ => True | _ => served b (serve nic k r) end.
Proof using Hk Hb H0 Hm.
  assert (∀ k', stack_ok (b + 20) k' → served b (Some k')) as H20 by (intros; eapply served_at; [done|unfold POLL; lia]).
  destruct r; intros Hr; try done; cbn [request_ok serve] in *.
  - destruct Hr as (Hd & Hp & Hn). destruct (called_mac (TcpTable.Connect dst port now)) as (t & p & E & Ht & _); try done. cbn [TcpTable.perform] in E.
    unfold tcp_connect. cbv zeta. change (tcp (st (learn_mac nic k))) with (tcp (st k)). change (pool (learn_mac nic k)) with (pool k).
    destruct (NetTcp.connect _ _ _ _ _) as [[[t1 p1] r]|]; [|done]. cbn in E |- *. injection E as -> ->. by apply served_flushed.
  - destruct (called_mac (TcpTable.ListenOn port)) as (t & p & E & _ & Ht); try done. cbn [TcpTable.perform] in E. unfold tcp_listen.
    destruct (NetTcp.listen _ _) as [[t1 r]|]; [|done]. cbn in E |- *. injection E as -> ->. by apply H20.
  - destruct (called_mac (TcpTable.Accept l)) as (t & p & E & _ & Ht); try done. cbn [TcpTable.perform] in E. injection E as <- <-. unfold tcp_accept.
    destruct (NetTcp.accept _ _) as [t1 r]. by apply H20.
  - destruct Hr as (Hd & Hp & Hn). destruct (called_mac (TcpTable.Send c data)) as (t & p & E & Ht & _); try done. cbn [TcpTable.perform] in E.
    unfold tcp_send. cbv zeta. change (tcp (st (learn_mac nic k))) with (tcp (st k)). change (pool (learn_mac nic k)) with (pool k).
    destruct (NetTcp.send _ _ _ _) as [[[t1 p1] r]|]; [|done]. cbn in E |- *. injection E as -> ->. by apply served_flushed.
  - destruct Hr as (Hd & Hn). destruct (called_mac (TcpTable.Recv c space)) as (t & p & E & Ht & _); try done. cbn [TcpTable.perform] in E.
    unfold tcp_recv. cbv zeta. change (tcp (st (learn_mac nic k))) with (tcp (st k)). change (pool (learn_mac nic k)) with (pool k).
    destruct (NetTcp.recv _ _ _ _) as [[t1 r]|]; [|done]. cbn in E |- *. injection E as -> <-. by apply served_flushed.
  - destruct (called_mac (TcpTable.Peek c space)) as (t & p & E & _ & Ht); try done. cbn [TcpTable.perform] in E. unfold tcp_peek.
    destruct (NetTcp.peek _ _ _ _) as [r|]; [|done]. cbn. eapply served_at; [done|unfold POLL; lia].
  - destruct (called_mac (TcpTable.Shutdown c)) as (t & p & E & Ht & _); try done. cbn [TcpTable.perform] in E. injection E as <- <-. unfold tcp_shutdown. cbv zeta.
    change (tcp (st (learn_mac nic k))) with (tcp (st k)). destruct (NetTcp.shutdown _ _) as [t1 r]. by apply served_flushed.
  - destruct (called_mac (TcpTable.Close c)) as (t & p & E & Ht & _); try done. cbn [TcpTable.perform] in E. injection E as <- <-. unfold tcp_close. cbv zeta.
    change (tcp (st (learn_mac nic k))) with (tcp (st k)). destruct (NetTcp.close _ _) as [t1 r]. by apply served_flushed.
  - destruct (called_mac (TcpTable.Abort c)) as (t & p & E & Ht & _); try done. cbn [TcpTable.perform] in E. injection E as <- <-. unfold tcp_abort. cbv zeta.
    change (tcp (st (learn_mac nic k))) with (tcp (st k)). destruct (NetTcp.abort _ _) as [t1 r]. by apply served_flushed.
Qed.

(** A frame written into a buffer of the pool, which takes it back. *)
Lemma with_buffer_served {A} b' k' (f : Bytes → State → option (State * Bytes * A)) n :
  stack_ok b' k' → b' + 2 < u64_MAX → 0 ≤ n →
  (∀ buf, length buf = FRAME_MAX → bytes buf → ∃ s buf' a, f buf (st k') = Some (s, buf', a) ∧ kept n (st k') s ∧ length buf' = FRAME_MAX ∧ bytes buf') →
  ∃ k2 a, with_buffer k' f = Some (k2, a) ∧ stack_ok (b' + (n + 1)) k2.
Proof using.
  intros Hk' Hlt Hn Hf. unfold with_buffer. pose proof (so_tables _ _ Hk') as Ht. pose proof (TcpTable.tb_taken _ _ _ (to_table _ _ _ Ht)) as Htk.
  destruct (lend b' _ _ Ht) as (p & o & -> & Hw & Hpb & Hpt & Ho); [lia|]. cbn [mbind option_bind]. destruct o as [i|].
  2:{ eexists _, None. split; [done|]. subst p. destruct k'. eapply stack_mono; [exact Hk'|lia]. }
  destruct Ho as [Hi Hh]. destruct (lent_buffer p i _ Hw Hpb Hh Hi) as (buf & -> & Hl & Hbb). destruct (Hf buf Hl Hbb) as (s & buf' & a & -> & Hs & Hl' & Hb'). cbn [mbind option_bind].
  destruct (give_lent (Pool.write_buffer p i buf') i (Pool.p_held (pool k'))) as (p' & -> & Hw' & Hpb' & Hh' & Ht'); try done;
    [by apply Pool.write_buffer_wf|by apply write_buffer_bytes|cbn; lia|]. cbn [mbind option_bind].
  eexists _, _. split; [done|]. apply stack_kept; [done|lia|eapply kept_le; [|done]; lia|]. cbn in Ht'. split; [done..|lia].
Qed.

Lemma datagram_served dst sp dp payload now : addr_ok dst → in_u 16 sp → in_u 16 dp → bytes payload → served b (serve nic k (UdpSend dst sp dp payload now)).
Proof using Hk Hb H0 Hm.
  intros Hd Hsp Hdp Hp. unfold POLL in Hb. cbn [serve]. unfold udp_send. destruct (_ <? _)%nat eqn:Efit; [eapply served_at; [done|unfold POLL; lia]|].
  apply Nat.ltb_ge in Efit. unfold FRAME_MAX, ETH_HEADER, ETH_MTU, IPV4_HEADER, UDP_HEADER in Efit.
  destruct (resolve_ok b nic dst now k) as (k1 & m & -> & Hk1 & Hmo & _); try done; [lia|]. cbn [mbind option_bind].
  destruct m as [m|]; [|eapply served_at; [done|unfold POLL; lia]]. cbv zeta.
  match goal with |- context [with_buffer k1 ?f] => destruct (with_buffer_served (b + 2) k1 f 2) as (k2 & a & -> & Hk2) end; [done|unfold u_max; lia|lia| |cbn; eapply served_at; [done|unfold POLL; lia]].
  intros buf Hl Hbb. pose proof (so_wf _ _ Hk1) as Hwf. destruct (sw_ip _ Hwf) as [Hi Hib]. pose proof Hd as [Hdl Hdb].
  assert (length (drop 34 buf) = 1480%nat) as Htl by (rewrite length_drop, Hl; done). assert (room 2 (st k1)) as Hr by (apply (stack_room (b + 2)); [done|unfold u_max; lia]).
  destruct (write_udp_spec (drop 34 buf) (ip_ (config (st k1))) dst sp dp payload) as (d & Hdlen & Hdby & Hw & _); try done; [unfold u_max; lia|lia|].
  destruct (send_ip_fits nic buf m dst PROTO_UDP (λ p, write_udp p (ip_ (config (st k1))) dst sp dp payload) d (st k1)) as (s & buf' & r & -> & Hs & Hl' & Hb'); try done;
    [by apply (room_le _ 2)|lia|by rewrite Hdlen|].
  cbn [mbind option_bind]. destruct (is_ok r).
  - rewrite bump_kept by (by apply (kept_room 1 2 (st k1))). eexists _, _, _. split_and!; [done| |done|done]. apply (kept_trans 1 1 _ s); [done|apply kept_bumped].
  - eexists _, _, _. split_and!; [done| |done|done]. eapply kept_le; [|done]. lia.
Qed.

Lemma ping_served dst id q now : addr_ok dst → in_u 16 id → in_u 16 q → served b (serve nic k (Ping dst id q now)).
Proof using Hk Hb H0 Hm.
  intros Hd Hid Hq. unfold POLL in Hb. cbn [serve]. unfold ping. destruct (resolve_ok b nic dst now k) as (k1 & m & -> & Hk1 & Hmo & _); try done; [lia|]. cbn [mbind option_bind].
  destruct m as [m|]; [|eapply served_at; [done|unfold POLL; lia]]. cbv zeta.
  match goal with |- context [with_buffer k1 ?f] => destruct (with_buffer_served (b + 2) k1 f 1) as (k2 & a & -> & Hk2) end; [done|unfold u_max; lia|lia| |cbn; eapply served_at; [done|unfold POLL; lia]].
  intros buf Hl Hbb. pose proof (so_wf _ _ Hk1) as Hwf. assert (length (drop 34 buf) = 1480%nat) as Htl by (rewrite length_drop, Hl; done).
  destruct (write_icmp_echo_spec (drop 34 buf) ICMP_ECHO_REQUEST id q (ping_data q)) as (d & Hdlen & Hdby & Hw & _); try done; [by left|apply ping_data_bytes|rewrite Htl; cbn; lia|].
  apply (send_ip_fits nic buf m dst PROTO_ICMP _ d); try done; [apply (stack_room (b + 2)); [done|unfold u_max; lia]|rewrite Hdlen; cbn; lia|by rewrite Hdlen].
Qed.

Lemma forget_macs c ip : macs_ok c → macs_ok (ArpCache.forget c ip).
Proof using. intros Hc. unfold macs_ok, ArpCache.forget. cbn. apply Forall_fmap. eapply Forall_impl; [exact Hc|]. intros o Ho. cbn. case_match; [by intros ? [=]|done]. Qed.

Lemma serve_ok r : request_ok nic k r → served b (serve nic k r).
Proof using Hk Hb H0 Hm.
  intros Hr. pose proof (tcp_served r Hr) as Ht. pose proof Hk as [[] Hc Hg Hre Htab].
  assert (∀ k', stack_ok b k' → served b (Some k')) as Hsame by (intros; eapply served_at; [done|unfold POLL; lia]).
  destruct r; try exact Ht; cbn [request_ok serve] in *.
  - destruct Hr as (Har & Hn & Hf). destruct (poll_ok b nic arrived now k) as (k' & -> & Hk'); try done. cbn. by eexists.
  - destruct Hr as (? & ? & ? & ?). by apply datagram_served.
  - unfold udp_recv_from. destruct (position _ _) as [i|]; [|by apply Hsame]. destruct (_ !! i) as [[d|]|]; [|by apply Hsame..]. apply Hsame. split; try done. split; try done. cbn. by rewrite length_insert.
  - destruct Hr as (? & ? & ?). by apply ping_served.
  - unfold take_echo_reply. destruct (position _ _) as [i|]; [|by apply Hsame]. apply Hsame. split; try done. split; try done. cbn. by rewrite length_insert.
  - unfold take_refusal. destruct (position _ _) as [i|]; by apply Hsame.
  - unfold POLL in Hb. destruct (resolve_ok b nic ip now k) as (k1 & m & -> & Hk1 & _); try done; [lia|]. eapply served_at; [done|unfold POLL; lia].
  - apply Hsame. split; try done. split; try done; [by apply ArpCache.forget_wf|by apply forget_macs].
Qed.
End Serve.


(** ** Runs *)

(** The stacks that [n] requests lead to, from one just made. *)
Inductive up (nic : Nic) : nat → Stack → Prop :=
| up_new c : addr_ok (ip_ c) → addr_ok (gateway c) → up nic 0 (with_arp c ArpCache.new)
| up_serve n k r k' : up nic n k → request_ok nic k r → serve nic k r = Some k' → up nic (S n) k'.

Definition REQUESTS : Z := 2 ^ 19.

Lemma new_ok c : addr_ok (ip_ c) → addr_ok (gateway c) → stack_ok 0 (with_arp c ArpCache.new).
Proof.
  intros Hi Hg. split; cbn [with_arp st pool reasm config counters tcp]; try done.
  - split; cbn [with_arp st config mac arp replies next_reply inbox]; try done; [by apply Forall_replicate|apply ArpCache.arp_new_wf|by apply Forall_replicate|unfold REPLIES; lia].
  - split; [done|]. apply Reasm.new_good.
  - split; [apply TcpTable.Tcp_new_wf|apply TcpTyped.fit_new|by apply Forall_replicate, Forall_replicate|done].
Qed.

Lemma up_ok nic n k : up nic n k → mac_ok (nic_mac nic) → Z.of_nat n ≤ REQUESTS → stack_ok (POLL * Z.of_nat n) k.
Proof.
  unfold REQUESTS. intros Hu Hm. induction Hu as [c Hi Hg|n k r k' _ IH Hr E]; intros Hn; [by apply new_ok|].
  destruct (serve_ok (POLL * Z.of_nat n) nic k (IH ltac:(lia)) ltac:(unfold POLL; lia) ltac:(unfold POLL; lia) Hm r Hr) as (k1 & E1 & Hk1). rewrite E in E1. injection E1 as <-.
  by replace (POLL * Z.of_nat (S n)) with (POLL * Z.of_nat n + POLL) by lia.
Qed.

(** The books, from the invariant. *)
Lemma ok_books b k : stack_ok b k → books_consistent k = true ∧ (Pool.in_use (pool k) ≤ 2 * NetTcp.CONNECTIONS)%nat.
Proof.
  intros Hk. destruct (so_tables _ _ Hk) as [Ht _ _ Hr]. pose proof (Pool.wf_books _ (TcpTable.tb_pool _ _ _ Ht)) as Hb.
  split.
  - unfold books_consistent, Pool.books, tcp_rings_held. rewrite (TcpTable.rings_held_length _ (TcpTable.tb_idle _ _ _ Ht)), Hr, Nat.eqb_refl. cbn [andb].
    rewrite (proj2 (checked_sub_Some (Pool.p_taken (pool k)) (Pool.p_returned (pool k)) (Z.of_nat (Pool.in_use (pool k))))) by lia. rewrite Hr. by apply Z.eqb_refl.
  - rewrite Hr. pose proof (rings_le (NetTcp.tcbs (tcp (st k)))) as Hle. by rewrite (TcpTable.tb_len _ _ _ Ht) in Hle.
Qed.

(** C2. Whatever is asked of a stack, in any order, is served without a panic: polls with any
    bytes as frames, connections opened, used, closed and aborted, datagrams and pings.  After
    each the books balance: of the pool's buffers exactly the connections' rings are held, and
    what was taken less what was returned is what is held. *)
Theorem every_request_is_served nic n k r :
  up nic n k → mac_ok (nic_mac nic) → Z.of_nat n < REQUESTS → request_ok nic k r → ∃ k', serve nic k r = Some k' ∧ books_consistent k' = true.
Proof.
  intros Hu Hm Hn Hr. pose proof (up_ok nic n k Hu Hm ltac:(lia)) as Hk. unfold REQUESTS in Hn.
  destruct (serve_ok (POLL * Z.of_nat n) nic k Hk ltac:(unfold POLL; lia) ltac:(unfold POLL; lia) Hm r Hr) as (k' & -> & Hk'). exists k'. split; [done|]. by eapply ok_books.
Qed.


(** ** A stack that listens *)

Definition listener : Stack := with_arp (example_config ip_B) ArpCache.new.
Definition a_nic : Nic := example_nic mac_B.
Definition noise : list Bytes := [replicate 60 69; replicate 20 0; mac_B ++ mac_A ++ [8; 0] ++ replicate 40 69].

Lemma listener_up : ∃ k, serve a_nic listener (TcpListen 80) = Some k ∧ up a_nic 1 k ∧ poll_fins a_nic noise 5 k = true.
Proof.
  assert (match serve a_nic listener (TcpListen 80) with Some k => poll_fins a_nic noise 5 k | None => false end = true) as H by (by vm_compute).
  destruct (serve a_nic listener (TcpListen 80)) as [k|] eqn:E; [|done]. exists k. split_and!; [done| |done].
  eapply (up_serve _ 0 listener (TcpListen 80)); [|by unfold request_ok, in_u, u_max|exact E]. apply up_new; (split; [done|]; concrete_bytes).
Qed.

Lemma a_nic_mac : mac_ok (nic_mac a_nic).
Proof. split; [done|]. concrete_bytes. Qed.

Lemma noise_bytes : Forall bytes noise.
Proof. repeat constructor; unfold u_max; lia. Qed.

Lemma every_request_is_served_witness : ∃ k, serve a_nic listener (TcpListen 80) = Some k ∧ ∃ k', serve a_nic k (Poll noise 5) = Some k' ∧ books_consistent k' = true.
Proof.
  destruct listener_up as (k & E & Hu & Hf). exists k. split; [exact E|].
  apply (every_request_is_served a_nic 1 k (Poll noise 5)); [exact Hu|exact a_nic_mac|done|]. split_and!; [exact noise_bytes|done|done|exact Hf].
Defined.



(** ** Two stacks, end to end *)

(** Each machine polls what the other has sent since. *)
Definition turn (now : Z) (seen : nat * nat) (A B : Stack) : option (nat * nat * Stack * Stack) :=
  '(B, _, _) ← poll (example_nic mac_B) (drop seen.1 (sent (st A))) now B;
  '(A', _, _) ← poll (example_nic mac_A) (drop seen.2 (sent (st B))) now A;
  Some (length (sent (st A)), length (sent (st B)), A', B).

Fixpoint turns (l : list Z) (seen : nat * nat) (A B : Stack) : option (nat * nat * Stack * Stack) :=
  match l with [] => Some (seen, A, B) | now :: l => '(seen, A, B) ← turn now seen A B; turns l seen A B end.

(** A program on B listens, one on A connects and sends, and B's reads: the addresses are found,
    the handshake done and the bytes carried over the modelled wire. *)
Definition conversation : option (result Z NetTcp.TcpError * result Bytes NetTcp.TcpError) :=
  '(B, _) ← tcp_listen 80 listener;
  '(A, c) ← tcp_connect (example_nic mac_A) ip_B 80 1000 fresh_A;
  '(seen, A, B) ← turns [2000; 3000; 1000000000; 1000001000; 1000002000; 3000002000; 3000002001; 3000002002] (0, 0)%nat A B;
  match c, (tcp_accept {| NetTcp.c_index := 0; NetTcp.c_generation := 1 |} B) with
  | Ok c, (B, Ok d) =>
      '(A, n) ← tcp_send (example_nic mac_A) c [7; 8; 9] 4000002003 A;
      '(seen, A, B) ← turns [4000002004; 4000002005] seen A B;
      '(B, r) ← tcp_recv (example_nic mac_B) d 100 4000002006 B;
      Some (n, r)
  | _, _ => None
  end.

Example two_stacks_talk : conversation = Some (Ok 3, Ok [7; 8; 9]).
Proof. by vm_compute. Qed.

End StackRuns.
